(* ===== verification/_CoqProject ===== *)
-Q . S2P
Prelude.v
Mix.v
World.v
Capability.v
BrokerOps.v
BrokerCore.v
BrokerBuffer.v
BrokerChannel.v
BrokerRevoke.v
BrokerDescriptor.v
BrokerTask.v
Ring.v
RingMap.v
BrokerSession.v
Rollback.v
BrokerFrame.v
RingServe.v
RingRefine.v
Advance.v
Books.v
Wire.v
Codec.v
Message.v
Serve.v
Lifecycle.v
System.v
TimerHeap.v
TimerExpiry.v
TimerRehome.v
ClDeque.v
RunQueue.v
RunLanes.v
RunInv.v
RunWake.v
RunWakeInv.v
RunSystem.v
WaitQueue.v
Mutex.v
MutexInv.v
MutexSystem.v
