(* ===== verification/Prelude.v ===== *)
(** * LLAM verification library

    LLAM is a task runtime in C: worker threads ("shards") schedule cooperative
    tasks from run queues, and a secure broker lets other processes use
    buffers, descriptors, channels and tasks of the runtime through capability
    tokens.  This library models parts of both as executable definitions and
    proves what makes them correct.  Paths below are relative to [src/].

    ** The program and its parts

    - Capability tokens ([src/core/registry/capability.c]) name an object, a
      generation, an epoch and a set of rights under a SipHash MAC.
    - The broker ([src/core/broker/]) keeps tables of buffers, channels,
      descriptors, tasks, ring sessions and transport sessions.  Each operation
      opens a frame ([broker_ops.c]), validates a token against the live tables
      and works on one slot.  Clients reach it over a control connection
      ([transport/]) or over a ring of submissions in shared memory ([ring/]).
    - Timers ([src/core/time/]) live in one 4-ary heap per processor.
    - Runnable tasks live in lanes: the inject, hot and normal queue of a shard,
      its Chase-Lev deque, and the overflow queue of the runtime
      ([src/core/sched/]).  Wake-ups and yields put tasks into lanes, workers
      take them out or steal them from other shards
      ([src/engine/scheduler/scheduler_engine.c]).
    - A task that waits for a mutex ([src/core/sync/]) queues a wait node and
      parks; the release, a timeout or a cancellation completes the node.

    ** How the code is modelled

    C functions are functions in a state monad [st S A] ([S → A * S]) with its
    weakest precondition [wp], or pure functions where the code is pure.
    Definitions keep the names of the C functions; a helper whose name is not a
    C function is a part of the function its comment names.  Unsigned integers
    are [Z] with the reductions [u32] and [u64] written where the code can
    wrap.  Arrays are lists, structs are records, enums are inductive types
    (with their numeric codes where these cross a boundary).  Pointers to tasks,
    timer nodes and shards are [Z] or [nat] indices of a heap of records.

    What the sources do not contain is the environment and is never given a
    definition: results of system calls, of the C library and of the runtime
    behind the broker are read from tapes ([World.os]), the shared ring is
    changed by an arbitrary function before every access, lease and stop answers
    of the scheduler are arbitrary streams ([RunQueue.run_env]).  A theorem
    quantifies over all of them, or names what it assumes.  A lock makes its
    critical section one step; operations without a lock are either interleaved
    access by access ([ClDeque], [Ring], [Mutex]) or composed in arbitrary order
    ([BrokerOps], [System], [RunSystem]).

    ** Files

    Shared ground.
    - [Prelude]: machine integers, bits, lists, the monad with its rules,
      tactics and hint database.
    - [Mix]: [src/internal/runtime_mix.h]; the mixer is a bijection.
    - [World]: the records of the broker and the state its operations change.

    Tokens and the broker's tables.
    - [Capability]: the MAC is SipHash-2-4; issued tokens validate, validation
      decides [cap_valid], attenuation shrinks rights.
    - [BrokerOps]: lock, operation frames and pins; in every interleaving of
      threads the pin count is the number of open frames.
    - [BrokerCore]: validation is sound and complete for the specification
      [authorized]; the table invariant; the revocation epoch.
    - [BrokerFrame]: what operations on objects leave alone.
    - [BrokerBuffer], [BrokerChannel], [BrokerDescriptor], [BrokerTask],
      [BrokerRevoke]: the object operations.  Reads and writes stay in bounds;
      channels refine a bounded FIFO queue; owned descriptors and task handles
      are released exactly once; revocation ends the old generation.

    Rings and connections.
    - [RingMap], [Ring]: mappings, cursors and counters of a ring; submissions
      refine a FIFO queue under any disciplined peer.
    - [BrokerSession], [Rollback]: session tables, forgetting a connection,
      taking back a grant whose response was lost.
    - [RingServe], [RingRefine]: execution of batches; nothing is executed twice
      whatever the client does, and a well-behaved client is served in order.
    - [Wire], [Codec], [Message], [Serve]: requests and responses, their memory
      images and ancillary data, framing over a socket, serving connections.
    - [Lifecycle], [Advance], [Books], [System]: creation and destruction; every
      operation moves the broker forward and keeps the books of descriptors and
      mappings; both carried over all runs of a process.

    Timers.
    - [TimerHeap], [TimerExpiry], [TimerRehome]: heap operations keep the heap
      order, expiry delivers the due timers in order, rehoming is
      all-or-nothing; [rehome_loses_order] shows that it may leave the target
      unordered.

    Run queues.
    - [ClDeque]: the deque is linearizable under every interleaving of the owner
      with any number of thieves, across wrap-around of the indices.
    - [RunQueue]: intrusive queues as doubly linked segments; the placement of
      tasks in lanes and the invariant that relates it to memory.
    - [RunLanes], [RunInv]: the operations on lanes ([queue_base.c],
      [norm_queue.c], [norm_queue_depth.c], [core_queue.c], work stealing) and
      the triple of each.
    - [RunWake], [RunWakeInv]: the choice of a shard, wake-ups, handoffs, the
      release of waits ([core_queue.c], [reinject.c], [wait_tracking.c],
      [yield_join_sleep.c]).
    - [RunSystem]: all of them in any order: no runnable task is lost or
      duplicated, wake-ups are signalled, normal work is served after eight hot
      tasks, redirection empties a shard, the inject queue drains.
      [steal_drops_task] and [join_waiter_stranded] show how a stop request
      between two validations loses a task.

    Synchronization.
    - [WaitQueue]: the linked FIFO of wait nodes and the list it holds.
    - [Mutex]: locking, trying, unlocking, the wake-up of a wait node, timeouts
      and cancellations ([mutex.c], [sync.c], [timer.c]) as steps of interleaved
      agents, one step per access other agents can observe.
    - [MutexInv]: the invariant of the reachable configurations.
    - [MutexSystem]: mutual exclusion, no lost wake-ups, hand-over in the order
      of the queue, donated classes end with the release;
      [mutex_cancellation_missed] shows a cancellation missed because of a late
      store to a wait node.

    ** Bounds and fuel

    Loops over tables run over the table.  Retry loops around system calls
    consume a tape, whose length is their fuel; the theorems hold for every
    tape, and an exhausted tape is a call that never returns.  Heap sifts have
    the length of the heap as fuel, scans and flushes of a queue its depth (each
    round passes or removes a node), drains the budget 32 of the source, the poll of a
    descriptor its timeout; the lemmas that unfold them show that the fuel is
    not what stops them.  Capacities (8 frames, 64 transport and 16 ring
    sessions, 4096 slots of a deque, 1024 of a lane) are those of the sources.

    ** Not modelled

    - Weak memory: the deque, the rings and the mutex are interleaved
      sequentially consistently; memory orderings and fences are not modelled further.
    - Worker threads: the loop of the scheduler, leases, registration of
      workers, idle waiting, the watchdog.  They decide when the modelled
      operations run; the run-queue theorems hold for every order.
    - Context switches, signals, asynchronous preemption and the assembly files
      need a machine model.
    - Condition variables, channels, select, joins, sleeps, groups and scopes of
      the runtime: they combine several wait queues and values with the wait
      nodes of [Mutex]; the release of a wait and the wake-up of a join waiter
      are modelled.
    - The allocators, handle registries, runtime start-up, public entry points,
      debugging and statistics output.
    - I/O engines (io_uring, kqueue, IOCP), Windows pipes and sections and Darwin
      shared memory: interfaces of kernels, and build variants of the POSIX and
      Linux paths that are modelled.
    - Tracing, timestamps and diagnostics text within modelled functions. *)

From Stdlib Require Export ZArith Lia.
From stdpp Require Export base numbers gmap list.

Global Set Default Goal Selector "!".
Global Open Scope Z_scope.

(** ** Machine integers

    [uint64_t], [size_t] and [uintptr_t] values are [Z] reduced by [u64];
    [uint32_t] and [unsigned] values are [Z] reduced by [u32]. *)

Definition u64 (z : Z) : Z := z mod 2 ^ 64.

Definition u32 (z : Z) : Z := z mod 2 ^ 32.

Definition UINT64_MAX : Z := 2 ^ 64 - 1.

Definition UINT32_MAX : Z := 2 ^ 32 - 1.

Definition is_u64 (z : Z) : Prop := 0 <= z < 2 ^ 64.

Definition is_u32 (z : Z) : Prop := 0 <= z < 2 ^ 32.

(** Bitwise complement at 64 bits, for [~allowed] in rights masks. *)
Definition not64 (z : Z) : Z := Z.lxor UINT64_MAX z.

(** [(a & b) == b]: every bit of [b] is set in [a]. *)
Definition has_bits (a b : Z) : bool := Z.land a b =? b.

(** ** errno values (POSIX names, Linux numbers) *)

Definition EIO : Z := 5.
Definition EBADF : Z := 9.
Definition EAGAIN : Z := 11.
Definition ENOMEM : Z := 12.
Definition EACCES : Z := 13.
Definition EBUSY : Z := 16.
Definition EEXIST : Z := 17.
Definition EINVAL : Z := 22.
Definition ENOSPC : Z := 28.
Definition EPIPE : Z := 32.
Definition EOVERFLOW : Z := 75.
Definition ENOTSOCK : Z := 88.
Definition EMSGSIZE : Z := 90.
Definition ENOTSUP : Z := 95.

(** ** The state monad the operations are written in *)

Definition st (S A : Type) : Type := S → A * S.

#[export] Instance st_ret {S} : MRet (st S) := λ A a s, (a, s).

#[export] Instance st_bind {S} : MBind (st S) :=
  λ A B k m s, let '(a, s') := m s in k a s'.

Definition gets {S A} (f : S → A) : st S A := λ s, (f s, s).

Definition modify {S} (f : S → S) : st S unit := λ s, (tt, f s).

Global Arguments mbind {_ _ _ _} _ _ /.
Global Arguments mret {_ _ _} _ /.
Global Arguments st_bind {_ _ _} _ _ _ /.
Global Arguments st_ret {_ _} _ _ /.
Global Arguments gets {_ _} _ _ /.
Global Arguments modify {_} _ _ /.

(** Run [body] on every index [0 .. n-1] in increasing order. *)
Fixpoint for_each {S} (n : nat) (i : nat) (body : nat → st S unit) : st S unit :=
  match n with
  | O => mret tt
  | Datatypes.S n' => body i ;; for_each n' (Datatypes.S i) body
  end.

(** ** Weakest preconditions for the monad *)

Definition wp {S A} (m : st S A) (Q : A → S → Prop) (s : S) : Prop :=
  Q (m s).1 (m s).2.

Section wp.
Context {S A B : Type}.
Implicit Types (Q : B → S → Prop) (s : S).

Lemma wp_ret (a : A) (R : A → S → Prop) s : R a s → wp (mret a) R s.
Proof. done. Qed.

Lemma wp_bind (m : st S A) (k : A → st S B) Q s :
  wp m (λ a, wp (k a) Q) s → wp (m ≫= k) Q s.
Proof. unfold wp, mbind, st_bind. by destruct (m s). Qed.

Lemma wp_gets (f : S → A) (R : A → S → Prop) s : R (f s) s → wp (gets f) R s.
Proof. done. Qed.

Lemma wp_modify (f : S → S) (R : unit → S → Prop) s : R tt (f s) → wp (modify f) R s.
Proof. done. Qed.

Lemma wp_mono (m : st S A) (R R' : A → S → Prop) s :
  wp m R s → (∀ a s', R a s' → R' a s') → wp m R' s.
Proof. unfold wp. auto. Qed.

Lemma wp_if (b : bool) (m1 m2 : st S A) (R : A → S → Prop) s :
  (b = true → wp m1 R s) → (b = false → wp m2 R s) →
  wp (if b then m1 else m2) R s.
Proof. destruct b; auto. Qed.

Lemma wp_run (m : st S A) (R : A → S → Prop) s a s' :
  wp m R s → m s = (a, s') → R a s'.
Proof. unfold wp. intros H E. by rewrite E in H. Qed.

Lemma wp_eq (m : st S A) s : wp m (λ a s', m s = (a, s')) s.
Proof. unfold wp. by destruct (m s). Qed.
End wp.

(** [pres R m]: running [m] relates the state before and after by [R]. *)
Definition pres {S A} (R : S → S → Prop) (m : st S A) : Prop :=
  ∀ s, R s (m s).2.

Section pres.
Context {S : Type} (R : S → S → Prop) `{!PreOrder R}.

Lemma pres_ret {A} (a : A) : pres R (mret a).
Proof. intros s. cbn. reflexivity. Qed.

Lemma pres_gets {A} (f : S → A) : pres R (gets f).
Proof. intros s. cbn. reflexivity. Qed.

Lemma pres_bind {A B} (m : st S A) (k : A → st S B) :
  pres R m → (∀ a, pres R (k a)) → pres R (m ≫= k).
Proof.
  intros Hm Hk s. unfold mbind, st_bind. specialize (Hm s).
  destruct (m s) as [a s']. cbn in *. etrans; [exact Hm | apply Hk].
Qed.

Lemma pres_modify (f : S → S) : (∀ s, R s (f s)) → pres R (modify f).
Proof. intros H s. apply H. Qed.

Lemma pres_if {A} (b : bool) (m1 m2 : st S A) :
  pres R m1 → pres R m2 → pres R (if b then m1 else m2).
Proof. by destruct b. Qed.

Lemma pres_for_each n i body :
  (∀ j, pres R (body j)) → pres R (for_each n i body).
Proof.
  intros H. revert i. induction n as [|n IH]; intros i; cbn.
  - apply pres_ret.
  - apply pres_bind; auto.
Qed.
End pres.

Create HintDb llam discriminated.
#[export] Hint Resolve pres_ret pres_gets : llam.

(** ** Integer lemmas *)

Lemma u64_range z : is_u64 (u64 z).
Proof. apply Z.mod_pos_bound. lia. Qed.

Lemma u32_range z : is_u32 (u32 z).
Proof. apply Z.mod_pos_bound. lia. Qed.

Lemma is_u64_b z : (0 <=? z) && (z <? 2 ^ 64) = true → is_u64 z.
Proof. intros [? ?]%andb_prop. split; [by apply Z.leb_le|by apply Z.ltb_lt]. Qed.

Lemma u64_small z : is_u64 z → u64 z = z.
Proof. intros. apply Z.mod_small. done. Qed.

Lemma u32_small z : is_u32 z → u32 z = z.
Proof. intros. apply Z.mod_small. done. Qed.

#[export] Hint Resolve u64_range u32_range : llam.

(** ** Bit masks *)

Lemma has_bits_spec a b :
  has_bits a b = true ↔ ∀ i, 0 <= i → Z.testbit b i = true → Z.testbit a i = true.
Proof.
  unfold has_bits. rewrite Z.eqb_eq. split.
  - intros E i Hi Hb. rewrite <- E in Hb. rewrite Z.land_spec in Hb.
    by apply andb_prop in Hb as [].
  - intros H. apply Z.bits_inj'. intros i Hi. rewrite Z.land_spec.
    specialize (H i Hi). destruct (Z.testbit b i); [|by rewrite andb_false_r].
    by rewrite H.
Qed.

Lemma has_bits_refl a : has_bits a a = true.
Proof. unfold has_bits. rewrite Z.land_diag. apply Z.eqb_refl. Qed.

Lemma has_bits_trans a b c :
  has_bits a b = true → has_bits b c = true → has_bits a c = true.
Proof. rewrite !has_bits_spec. auto. Qed.

#[export] Hint Resolve has_bits_refl : llam.

(** ** Steering case analysis on the code's tests *)

(** Turn the boolean tests of the context into propositions. *)
Ltac bools :=
  repeat match goal with
  | H : (_ && _) = true |- _ => apply andb_prop in H as [? ?]
  | H : (_ || _) = false |- _ => apply orb_false_elim in H as [? ?]
  | H : negb _ = true |- _ => apply negb_true_iff in H
  | H : negb _ = false |- _ => apply negb_false_iff in H
  | H : (_ =? _) = true |- _ => apply Z.eqb_eq in H
  | H : (_ =? _) = false |- _ => apply Z.eqb_neq in H
  | H : (_ <? _) = true |- _ => apply Z.ltb_lt in H
  | H : (_ <? _) = false |- _ => apply Z.ltb_ge in H
  | H : (_ <=? _) = true |- _ => apply Z.leb_le in H
  | H : (_ <=? _) = false |- _ => apply Z.leb_gt in H
  | H : bool_decide _ = true |- _ => apply bool_decide_eq_true in H
  | H : bool_decide _ = false |- _ => apply bool_decide_eq_false in H
  end.

(** Case split on the first conditional of the goal. *)
Ltac branch :=
  match goal with |- context [if ?c then _ else _] => destruct c eqn:? end.

(** ** Byte buffers *)

(** [memcpy(l + off, src, length src)] *)
Definition memcpy_at (off : nat) (src l : list Z) : list Z :=
  take off l ++ src ++ drop (off + length src) l.

(** [memset(l + off, 0, len)] *)
Definition memzero_at (off len : nat) (l : list Z) : list Z :=
  memcpy_at off (replicate len 0) l.

(** The [len] bytes at [l + off]. *)
Definition bytes_at (off len : nat) (l : list Z) : list Z := take len (drop off l).

Lemma length_memcpy_at off src l :
  (off + length src <= length l)%nat → length (memcpy_at off src l) = length l.
Proof.
  intros. unfold memcpy_at. rewrite !length_app, length_take, length_drop. lia.
Qed.

Lemma length_bytes_at off len l :
  (off + len <= length l)%nat → length (bytes_at off len l) = len.
Proof. intros. unfold bytes_at. rewrite length_take, length_drop. lia. Qed.

(** What was copied in is what is read back. *)
Lemma bytes_at_memcpy off src l :
  (off + length src <= length l)%nat → bytes_at off (length src) (memcpy_at off src l) = src.
Proof.
  intros. unfold bytes_at, memcpy_at.
  rewrite drop_app_length' by (rewrite length_take; lia). by rewrite take_app_length.
Qed.

Lemma bytes_at_memcpy_0 src l : bytes_at 0 (length src) (memcpy_at 0 src l) = src.
Proof.
  unfold bytes_at, memcpy_at. rewrite take_0, drop_0, app_nil_l. apply take_app_length.
Qed.

(** A read outside the written range sees the old bytes. *)
Lemma bytes_at_memcpy_before off src l off' len :
  (off' + len <= off)%nat → (off + length src <= length l)%nat →
  bytes_at off' len (memcpy_at off src l) = bytes_at off' len l.
Proof.
  intros. unfold bytes_at, memcpy_at. rewrite drop_app_le by (rewrite length_take; lia).
  rewrite take_app_le by (rewrite length_drop, length_take; lia).
  rewrite <- (take_drop off l) at 2.
  rewrite (drop_app_le (take off l)) by (rewrite length_take; lia).
  rewrite take_app_le by (rewrite length_drop, length_take; lia). done.
Qed.

Lemma bytes_at_memcpy_after off src l off' len :
  (off + length src <= off')%nat → (off + length src <= length l)%nat →
  bytes_at off' len (memcpy_at off src l) = bytes_at off' len l.
Proof.
  intros. unfold bytes_at, memcpy_at. rewrite app_assoc.
  rewrite drop_app_ge by (rewrite length_app, length_take; lia).
  rewrite drop_drop, length_app, length_take. do 2 f_equal. lia.
Qed.

(** ** Counting *)

(** The number of elements that satisfy [p]. *)
Fixpoint count_if {A} (p : A → bool) (l : list A) : Z :=
  match l with
  | [] => 0
  | x :: l => Z.b2z (p x) + count_if p l
  end.

Lemma count_if_bounds {A} (p : A → bool) l : 0 <= count_if p l <= Z.of_nat (length l).
Proof. induction l as [|x l IH]; cbn [count_if length]; [lia|]. destruct (p x); cbn; lia. Qed.

Lemma count_if_app {A} (p : A → bool) l l' : count_if p (l ++ l') = count_if p l + count_if p l'.
Proof. induction l as [|x l IH]; [done|]. cbn [count_if app]. rewrite IH. lia. Qed.

Lemma count_if_insert {A} (p : A → bool) l i x y :
  l !! i = Some x → count_if p (<[i := y]> l) = count_if p l - Z.b2z (p x) + Z.b2z (p y).
Proof.
  revert i. induction l as [|z l IH]; intros [|i] E; try done.
  - injection E as ->. cbn. lia.
  - cbn [count_if]. change (<[S i := y]> (z :: l)) with (z :: <[i := y]> l). cbn [count_if].
    rewrite (IH i E). lia.
Qed.

Lemma count_if_replicate {A} (p : A → bool) n x : p x = false → count_if p (replicate n x) = 0.
Proof. intros H. induction n as [|n IH]; [done|]. cbn [replicate count_if]. by rewrite H, IH. Qed.

Lemma count_if_none {A} (p : A → bool) l :
  (∀ k x, l !! k = Some x → p x = false) → count_if p l = 0.
Proof.
  induction l as [|x l IH]; intros H; [done|]. cbn [count_if].
  rewrite (H 0%nat x eq_refl), IH; [done|]. intros k y Hk. by apply (H (S k)).
Qed.

Lemma count_if_ext {A} (p q : A → bool) l : (∀ x, p x = q x) → count_if p l = count_if q l.
Proof. intros H. induction l as [|x l IH]; [done|]. cbn [count_if]. by rewrite H, IH. Qed.

Lemma nth_replicate {A} (x : A) n i : nth i (replicate n x) x = x.
Proof. revert i. induction n as [|n IH]; intros [|i]; cbn; auto. Qed.

(** ** Loops *)

(** The invariant rule for [for_each]. *)
Lemma for_each_inv {S} (P : nat → S → Prop) n i (body : nat → st S unit) s :
  P i s → (∀ j s, (i <= j < i + n)%nat → P j s → P (Datatypes.S j) (body j s).2) →
  P (i + n)%nat (for_each n i body s).2.
Proof.
  revert i s. induction n as [|n IH]; intros i s HP Hstep; cbn [for_each].
  - by rewrite Nat.add_0_r.
  - pose proof (Hstep i s ltac:(lia) HP) as H1. unfold mbind, st_bind.
    destruct (body i s) as [[] s1]. cbn in *. rewrite <- Nat.add_succ_comm. apply IH; [done|].
    intros j s' Hj. apply Hstep. lia.
Qed.
