(* ===== verification/Mix.v ===== *)
(** * The SplitMix64 finalizer ([src/internal/runtime_mix.h])

    [llam_mix64] mixes every seed, nonce and hash of the runtime.  It is a
    bijection of the 64-bit words, so mixing never merges two seeds. *)

From S2P Require Import Prelude.

(** [value ^ (value >> k)] *)
Definition xorshift (k v : Z) : Z := Z.lxor v (Z.shiftr v k).

Definition llam_mix64 (value : Z) : Z :=
  let value := u64 (xorshift 30 value * 0xbf58476d1ce4e5b9) in
  let value := u64 (xorshift 27 value * 0x94d049bb133111eb) in
  xorshift 31 value.

Lemma lxor_range n a b :
  0 <= n → 0 <= a < 2 ^ n → 0 <= b < 2 ^ n → 0 <= Z.lxor a b < 2 ^ n.
Proof.
  intros Hn [Ha Ha'] [Hb Hb'].
  assert (0 <= Z.lxor a b) by (apply Z.lxor_nonneg; lia).
  split; [done|]. destruct (decide (Z.lxor a b = 0)) as [->|]; [lia|].
  apply Z.log2_lt_pow2; [lia|].
  destruct (decide (n = 0)) as [->|].
  { assert (a = 0) by lia. assert (b = 0) by lia. subst. done. }
  eapply Z.le_lt_trans; [apply Z.log2_lxor; lia|].
  assert (∀ c, 0 <= c < 2 ^ n → Z.log2 c < n) as L.
  { intros c Hc. destruct (decide (c = 0)) as [->|]; [simpl; lia|].
    apply Z.log2_lt_pow2; lia. }
  pose proof (L a); pose proof (L b). lia.
Qed.

Lemma shiftr_range n k a : 0 <= k → 0 <= a < 2 ^ n → 0 <= Z.shiftr a k < 2 ^ n.
Proof.
  intros. rewrite Z.shiftr_div_pow2 by done.
  pose proof (Z.pow_pos_nonneg 2 k ltac:(lia) ltac:(lia)).
  split; [apply Z.div_pos; lia|].
  eapply Z.le_lt_trans; [|apply H0].
  apply Z.div_le_upper_bound; [lia|]. nia.
Qed.

Lemma xorshift_range k v : 0 <= k → is_u64 v → is_u64 (xorshift k v).
Proof.
  intros. apply (lxor_range 64); [lia|done|]. by apply shiftr_range.
Qed.

Lemma llam_mix64_range v : is_u64 v → is_u64 (llam_mix64 v).
Proof. intros. unfold llam_mix64. apply xorshift_range; [lia|]. apply u64_range. Qed.

(** [x ^ (x >> k)] loses nothing: the difference of two preimages equals
    itself shifted right, hence is zero. *)
Lemma xorshift_inj k x y :
  0 < k → 0 <= x → 0 <= y → xorshift k x = xorshift k y → x = y.
Proof.
  intros Hk Hx Hy E. unfold xorshift in E.
  assert (Z.lxor x y = Z.shiftr (Z.lxor x y) k) as D.
  { rewrite Z.shiftr_lxor. apply Z.bits_inj'. intros i Hi.
    apply (f_equal (λ z, Z.testbit z i)) in E.
    rewrite !Z.lxor_spec in *.
    destruct (Z.testbit x i), (Z.testbit y i), (Z.testbit (Z.shiftr x k) i),
      (Z.testbit (Z.shiftr y k) i); done. }
  assert (0 <= Z.lxor x y) as Hp by (apply Z.lxor_nonneg; lia).
  rewrite Z.shiftr_div_pow2 in D by lia.
  apply Z.lxor_eq.
  pose proof (Z.pow_gt_1 2 k ltac:(lia)) as Hpow.
  destruct (decide (Z.lxor x y = 0)) as [|Hne]; [done|].
  pose proof (Z.div_lt (Z.lxor x y) (2 ^ k) ltac:(lia) ltac:(lia)). lia.
Qed.

(** Multiplication by a unit of the ring of 64-bit words is injective. *)
Lemma mul_unit_inj c c' x y :
  u64 (c * c') = 1 → is_u64 x → is_u64 y → u64 (x * c) = u64 (y * c) → x = y.
Proof.
  unfold u64, is_u64. intros Hc Hx Hy E.
  assert (∀ z, 0 <= z < 2 ^ 64 → (z * c * c') mod 2 ^ 64 = z) as I.
  { intros z Hz. rewrite <- Z.mul_assoc, <- Z.mul_mod_idemp_r by lia.
    rewrite Hc, Z.mul_1_r. by apply Z.mod_small. }
  rewrite <- (I x Hx), <- (I y Hy).
  rewrite <- (Z.mul_mod_idemp_l (x * c)), <- (Z.mul_mod_idemp_l (y * c)) by lia.
  by rewrite E.
Qed.

Lemma llam_mix64_inj x y :
  is_u64 x → is_u64 y → llam_mix64 x = llam_mix64 y → x = y.
Proof.
  intros Hx Hy E. unfold llam_mix64 in E.
  apply xorshift_inj in E; [|lia|apply u64_range|apply u64_range].
  apply (mul_unit_inj _ 0x319642b2d24d8ec3) in E;
    [|by vm_compute|apply xorshift_range; [lia|apply u64_range]..].
  apply xorshift_inj in E; [|lia|apply u64_range|apply u64_range].
  apply (mul_unit_inj _ 0x96de1b173f119089) in E;
    [|by vm_compute|apply xorshift_range; [lia|done]..].
  apply xorshift_inj in E; [done|lia|apply Hx|apply Hy].
Qed.
