(* ===== verification/World.v ===== *)
(** * Data of the secure broker and the world its operations run in

    The records of [src/internal/runtime_capability.h],
    [src/internal/runtime_broker.h] and [src/internal/runtime_broker_ring.h],
    the thread-local operation frames of [src/core/broker/broker_ops.c], and
    the state every broker operation is a transformer of.

    Pointers to objects the caller passes are [option]s ([None] is NULL);
    addresses that are only compared are [Z] with 0 for NULL.  Results of
    calls that leave the repository (libc, the kernel, the task runtime) are
    read from tapes in [os], one tape per external function, so a theorem
    quantified over the world is quantified over every behaviour of the
    environment.  Calls with an effect outside the broker append to [os_log]. *)

From S2P Require Import Prelude.

(** ** Capability tokens ([runtime_capability.h]) *)

Definition LLAM_CAPABILITY_VERSION : Z := 1.
Definition LLAM_CAPABILITY_NONCE_BYTES : nat := 16.
Definition LLAM_CAPABILITY_MAC_BYTES : nat := 16.

Definition LLAM_CAP_RIGHT_SEND : Z := Z.shiftl 1 0.
Definition LLAM_CAP_RIGHT_RECV : Z := Z.shiftl 1 1.
Definition LLAM_CAP_RIGHT_JOIN : Z := Z.shiftl 1 2.
Definition LLAM_CAP_RIGHT_DETACH : Z := Z.shiftl 1 3.
Definition LLAM_CAP_RIGHT_CLOSE : Z := Z.shiftl 1 4.
Definition LLAM_CAP_RIGHT_DESTROY : Z := Z.shiftl 1 5.
Definition LLAM_CAP_RIGHT_READ : Z := Z.shiftl 1 6.
Definition LLAM_CAP_RIGHT_WRITE : Z := Z.shiftl 1 7.

(** [llam_capability_key_t]: the four words [words[0..3]]. *)
Definition capability_key : Type := list Z.

Definition key_word (k : capability_key) (i : nat) : Z := nth i k 0.

Record capability_object := CapObject {
  obj_runtime_id : Z;
  obj_family : Z;
  obj_slot : Z;
  obj_generation : Z;
  obj_revocation_epoch : Z;
  obj_subject_id : Z;
}.

Record capability_token := CapToken {
  tok_version : Z;
  tok_family : Z;
  tok_runtime_id : Z;
  tok_slot : Z;
  tok_generation : Z;
  tok_rights : Z;
  tok_revocation_epoch : Z;
  tok_subject_id : Z;
  tok_nonce : list Z;
  tok_mac : list Z;
}.

(** What [memset(&token, 0, sizeof(token))] leaves behind. *)
Definition zero_token : capability_token :=
  CapToken 0 0 0 0 0 0 0 0
    (replicate LLAM_CAPABILITY_NONCE_BYTES 0) (replicate LLAM_CAPABILITY_MAC_BYTES 0).

Definition tok_set_nonce (n : list Z) (t : capability_token) : capability_token :=
  CapToken (tok_version t) (tok_family t) (tok_runtime_id t) (tok_slot t)
    (tok_generation t) (tok_rights t) (tok_revocation_epoch t) (tok_subject_id t)
    n (tok_mac t).

Definition tok_set_mac (m : list Z) (t : capability_token) : capability_token :=
  CapToken (tok_version t) (tok_family t) (tok_runtime_id t) (tok_slot t)
    (tok_generation t) (tok_rights t) (tok_revocation_epoch t) (tok_subject_id t)
    (tok_nonce t) m.

(** ** Broker objects ([runtime_broker.h]) *)

Definition LLAM_BROKER_CAP_FAMILY_BUFFER : Z := 8.
Definition LLAM_BROKER_CAP_FAMILY_DESCRIPTOR : Z := 9.
Definition LLAM_BROKER_CAP_FAMILY_CHANNEL : Z := 10.
Definition LLAM_BROKER_CAP_FAMILY_TASK : Z := 11.
Definition LLAM_BROKER_BUFFER_SLOTS : nat := 64.
Definition LLAM_BROKER_DESCRIPTOR_SLOTS : nat := 64.
Definition LLAM_BROKER_CHANNEL_SLOTS : nat := 64.
Definition LLAM_BROKER_TASK_SLOTS : nat := 64.
Definition LLAM_BROKER_TASKS_PER_SUBJECT : Z := 16.
Definition LLAM_BROKER_LONG_SLEEP_TASKS_MAX : Z := 16.
Definition LLAM_BROKER_SLEEP_MAX_NS : Z := 60 * 1000 * 1000 * 1000.
Definition LLAM_BROKER_RING_SESSIONS : nat := 16.
Definition LLAM_BROKER_TRANSPORT_SESSIONS : nat := 64.
Definition LLAM_BROKER_BUFFER_MAX_BYTES : Z := 1024 * 1024.
Definition LLAM_BROKER_CHANNEL_CAPACITY : Z := 64.
Definition LLAM_BROKER_CHANNEL_MESSAGE_BYTES : Z := 256.
Definition LLAM_BROKER_WIRE_DATA_BYTES : Z := 256.
Definition LLAM_BROKER_ACTIVE_OP_BUSY_SENTINEL : Z := UINT32_MAX / 2.

Definition LLAM_BROKER_BUFFER_TRANSPORT_RIGHTS : Z :=
  Z.lor (Z.lor LLAM_CAP_RIGHT_READ LLAM_CAP_RIGHT_WRITE) LLAM_CAP_RIGHT_DESTROY.
Definition LLAM_BROKER_CHANNEL_TRANSPORT_RIGHTS : Z :=
  Z.lor (Z.lor (Z.lor LLAM_CAP_RIGHT_SEND LLAM_CAP_RIGHT_RECV) LLAM_CAP_RIGHT_CLOSE)
    LLAM_CAP_RIGHT_DESTROY.
Definition LLAM_BROKER_DESCRIPTOR_TRANSPORT_RIGHTS : Z :=
  Z.lor (Z.lor LLAM_CAP_RIGHT_READ LLAM_CAP_RIGHT_WRITE) LLAM_CAP_RIGHT_DESTROY.
Definition LLAM_BROKER_TASK_TRANSPORT_RIGHTS : Z :=
  Z.lor LLAM_CAP_RIGHT_JOIN LLAM_CAP_RIGHT_DETACH.

Record buffer_slot := BufferSlot {
  bs_data : option (list Z);
  bs_length : Z;
  bs_id : Z;
  bs_generation : Z;
  bs_rights : Z;
  bs_subject_id : Z;
  bs_active : bool;
}.

Definition zero_buffer_slot : buffer_slot := BufferSlot None 0 0 0 0 0 false.

(** The POSIX layout: the slot stores an [int fd]. *)
Record descriptor_slot := DescriptorSlot {
  ds_fd : Z;
  ds_id : Z;
  ds_generation : Z;
  ds_rights : Z;
  ds_subject_id : Z;
  ds_active : bool;
  ds_close_on_destroy : bool;
}.

Definition zero_descriptor_slot : descriptor_slot :=
  DescriptorSlot 0 0 0 0 0 false false.

Record channel_message := ChannelMessage {
  cm_length : Z;
  cm_data : list Z;
}.

Definition zero_channel_message : channel_message :=
  ChannelMessage 0 (replicate (Z.to_nat LLAM_BROKER_CHANNEL_MESSAGE_BYTES) 0).

Record channel_slot := ChannelSlot {
  cs_messages : list channel_message;
  cs_capacity : Z;
  cs_head : Z;
  cs_tail : Z;
  cs_count : Z;
  cs_id : Z;
  cs_generation : Z;
  cs_rights : Z;
  cs_subject_id : Z;
  cs_active : bool;
  cs_closed : bool;
}.

Definition zero_channel_slot : channel_slot :=
  ChannelSlot (replicate (Z.to_nat LLAM_BROKER_CHANNEL_CAPACITY) zero_channel_message)
    0 0 0 0 0 0 0 0 false false.

Definition LLAM_BROKER_TASK_KIND_RETURN_U64 : Z := 1.
Definition LLAM_BROKER_TASK_KIND_INCREMENT_U64 : Z := 2.
Definition LLAM_BROKER_TASK_KIND_POPCOUNT_U64 : Z := 3.
Definition LLAM_BROKER_TASK_KIND_SLEEP_NS_RETURN_U64 : Z := 4.

Inductive task_state :=
  | TASK_STATE_EMPTY
  | TASK_STATE_SPAWNED
  | TASK_STATE_COMPLETED
  | TASK_STATE_JOINED
  | TASK_STATE_DETACHED.

#[export] Instance task_state_eq_dec : EqDecision task_state.
Proof. solve_decision. Defined.

(** [ts_task] is the address of the runtime task, 0 for NULL. *)
Record task_slot := TaskSlot {
  ts_task : Z;
  ts_state : task_state;
  ts_kind : Z;
  ts_id : Z;
  ts_generation : Z;
  ts_rights : Z;
  ts_subject_id : Z;
  ts_arg0 : Z;
  ts_result0 : Z;
  ts_error_code : Z;
  ts_active : bool;
}.

Definition zero_task_slot : task_slot :=
  TaskSlot 0 TASK_STATE_EMPTY 0 0 0 0 0 0 0 0 false.

(** [session->ring] is the address of a shared ring, 0 for NULL; the mapping
    name is kept as its bytes. *)
Record ring_session := RingSession {
  rs_ring : Z;
  rs_subject_id : Z;
  rs_submit_head : Z;
  rs_complete_tail : Z;
  rs_mapping_bytes : Z;
  rs_mapping_fd : Z;
  rs_mapping_name : list Z;
  rs_active : bool;
  rs_busy : bool;
  rs_owns_mapping : bool;
  rs_reclaim_pending : bool;
}.

Definition zero_ring_session : ring_session :=
  RingSession 0 0 0 0 0 0 [] false false false false.

Record transport_session := TransportSession {
  tr_transport_id : Z;
  tr_subject_id : Z;
  tr_active : bool;
}.

Definition zero_transport_session : transport_session := TransportSession 0 0 false.


(** [llam_broker_t].  [b_addr] is the address of the structure (what the
    thread-local frames compare), [b_runtime] the id of the owned runtime or
    NULL, [b_channels] the heap table or NULL. *)
Record broker := Broker {
  b_addr : Z;
  b_runtime : option Z;
  b_capability_key : capability_key;
  b_revocation_epoch : Z;
  b_buffers : list buffer_slot;
  b_descriptors : list descriptor_slot;
  b_channels : option (list channel_slot);
  b_tasks : list task_slot;
  b_ring_sessions : list ring_session;
  b_transport_sessions : list transport_session;
  b_next_buffer_id : Z;
  b_next_descriptor_id : Z;
  b_next_channel_id : Z;
  b_next_task_id : Z;
  b_next_transport_subject_nonce : Z;
  b_active_ops : Z;
  b_destroy_waiters : Z;
  b_initialized : bool;
  b_destroying : bool;
  b_lock_initialized : bool;
  b_idle_cond_initialized : bool;
}.

(** ** Shared rings ([runtime_broker_ring.h]) *)

Definition LLAM_BROKER_RING_MAGIC : Z := 0x4c4c5251.
Definition LLAM_BROKER_RING_VERSION : Z := 2.
Definition LLAM_BROKER_RING_CAP : Z := 256.
Definition LLAM_BROKER_RING_MASK : Z := LLAM_BROKER_RING_CAP - 1.
Definition LLAM_BROKER_RING_DATA_BYTES : Z := 4096.
Definition LLAM_BROKER_RING_SERVE_BATCH_MAX : Z := 32.

Record ring_submission := RingSubmission {
  sub_request_id : Z;
  sub_op : Z;
  sub_arg0 : Z;
  sub_arg1 : Z;
  sub_arg2 : Z;
  sub_token : capability_token;
}.

Definition zero_submission : ring_submission := RingSubmission 0 0 0 0 0 zero_token.

Record ring_completion := RingCompletion {
  cpl_request_id : Z;
  cpl_status : Z;
  cpl_error_code : Z;
  cpl_result0 : Z;
  cpl_result1 : Z;
}.

Definition zero_completion : ring_completion := RingCompletion 0 0 0 0 0.

Record broker_ring := BrokerRing {
  ring_magic : Z;
  ring_version : Z;
  ring_capacity : Z;
  ring_submit_head : Z;
  ring_submit_tail : Z;
  ring_complete_head : Z;
  ring_complete_tail : Z;
  ring_client_stats : list Z;
  ring_broker_stats : list Z;
  ring_submissions : list ring_submission;
  ring_completions : list ring_completion;
  ring_data : list Z;
}.

(** ** Thread-local operation frames ([broker_ops.c]) *)

Definition LLAM_BROKER_TLS_OP_DEPTH : nat := 8.

Record tls_op := TlsOp {
  tls_broker : Z;
  tls_depth : Z;
  tls_subject_stack : list Z;
}.

Definition zero_tls_op : tls_op :=
  TlsOp 0 0 (replicate LLAM_BROKER_TLS_OP_DEPTH 0).

(** ** The environment *)

Inductive poll_result :=
  | PollReady (revents : Z)
  | PollTimeout
  | PollError (err : Z).

Inductive event :=
  | EvDup (fd duplicate : Z)
  | EvClose (fd : Z)
  | EvAllocBuffer
  | EvFreeBuffer
  | EvSpawn (task : Z)
  | EvDetach (task : Z)
  | EvJoin (task : Z)
  | EvOpen (fd : Z)
  | EvMap (ring : Z)
  | EvUnmap (ring : Z)
  | EvUnlink (name : list Z)
  | EvBroadcast
  | EvPoll (fd events timeout_ms : Z)
  | EvRecv (fd length : Z)
  | EvSend (fd : Z) (data : list Z)
  | EvSendFd (fd : Z) (data : list Z) (descriptor : Z)
  | EvUnlinkPath
  | EvStop (runtime : Z)
  | EvRuntimeCreate (runtime : Z)
  | EvRuntimeDestroy (runtime : Z).

(** What [fstat] reports of a descriptor. *)
Record file_stat := FileStat { st_size : Z; st_dev : Z; st_ino : Z }.

(** One control message: its level, its type and its payload bytes. *)
Record cmsg := Cmsg { cmsg_level : Z; cmsg_type : Z; cmsg_data : list Z }.

(** What [recvmsg] returns: the bytes, the control messages, how many bytes of
    them fitted into the control buffer, and the flags. *)
Record received_message := ReceivedMessage {
  rcv_bytes : list Z;
  rcv_cmsgs : list cmsg;
  rcv_cut : nat;
  rcv_flags : Z;
}.

(** What [stat] and [lstat] report of a path. *)
Record path_stat := PathStat { ps_mode : Z; ps_dev : Z; ps_ino : Z }.

(** One tape per external function: the results of its successive calls.  A
    tape that runs out continues with the default named in the primitive that
    reads it. *)
Record os := Os {
  os_mutex_lock : list Z;
  os_entropy : list (option Z);
  os_noise : list Z;
  os_calloc : list bool;
  os_fcntl : list Z;
  os_dup : list (nat + Z);
  os_getsockopt : list Z;
  os_now : list Z;
  os_poll : list poll_result;
  os_recv : list (list Z + Z);
  os_send : list (Z + Z);
  os_spawn : list (positive + Z);
  os_join : list Z;
  os_detach : list Z;
  os_run : list (list nat);
  os_sleep : list Z;
  os_client : list (broker_ring → broker_ring);
  os_open : list (nat + Z);
  os_truncate : list Z;
  os_mmap : list (positive + Z);
  os_stat : list (file_stat + Z);
  os_init : list Z;
  os_runtime : list (Z + Z);
  os_wait : list (broker → broker);
  os_run_rc : list Z;
  os_recvmsg : list (received_message + Z);
  os_read : list (list Z + Z);
  os_accept : list (nat + Z);
  os_socket : list (nat + Z);
  os_lstat : list (path_stat + Z);
  os_sys : list Z;
  os_peer : list (Z + Z);
  os_log : list event;
}.

(** The state an operation of one thread transforms: the broker its pointer
    argument designates ([None] for NULL), the shared rings by address, the
    thread's operation frames, errno, and the environment. *)
Record world := World {
  w_broker : option broker;
  w_rings : gmap Z broker_ring;
  w_tls : list tls_op;
  w_errno : Z;
  w_os : os;
}.

(** ** Field updates *)

Definition set_b_runtime (v : option Z) (b : broker) : broker :=
  Broker (b_addr b) v (b_capability_key b) (b_revocation_epoch b) (b_buffers b)
    (b_descriptors b) (b_channels b) (b_tasks b) (b_ring_sessions b)
    (b_transport_sessions b) (b_next_buffer_id b) (b_next_descriptor_id b)
    (b_next_channel_id b) (b_next_task_id b) (b_next_transport_subject_nonce b)
    (b_active_ops b) (b_destroy_waiters b) (b_initialized b) (b_destroying b)
    (b_lock_initialized b) (b_idle_cond_initialized b).

Definition set_b_capability_key (v : capability_key) (b : broker) : broker :=
  Broker (b_addr b) (b_runtime b) v (b_revocation_epoch b) (b_buffers b)
    (b_descriptors b) (b_channels b) (b_tasks b) (b_ring_sessions b)
    (b_transport_sessions b) (b_next_buffer_id b) (b_next_descriptor_id b)
    (b_next_channel_id b) (b_next_task_id b) (b_next_transport_subject_nonce b)
    (b_active_ops b) (b_destroy_waiters b) (b_initialized b) (b_destroying b)
    (b_lock_initialized b) (b_idle_cond_initialized b).

Definition set_b_revocation_epoch (v : Z) (b : broker) : broker :=
  Broker (b_addr b) (b_runtime b) (b_capability_key b) v (b_buffers b) (b_descriptors b)
    (b_channels b) (b_tasks b) (b_ring_sessions b) (b_transport_sessions b)
    (b_next_buffer_id b) (b_next_descriptor_id b) (b_next_channel_id b)
    (b_next_task_id b) (b_next_transport_subject_nonce b) (b_active_ops b)
    (b_destroy_waiters b) (b_initialized b) (b_destroying b) (b_lock_initialized b)
    (b_idle_cond_initialized b).

Definition set_b_buffers (v : list buffer_slot) (b : broker) : broker :=
  Broker (b_addr b) (b_runtime b) (b_capability_key b) (b_revocation_epoch b) v
    (b_descriptors b) (b_channels b) (b_tasks b) (b_ring_sessions b)
    (b_transport_sessions b) (b_next_buffer_id b) (b_next_descriptor_id b)
    (b_next_channel_id b) (b_next_task_id b) (b_next_transport_subject_nonce b)
    (b_active_ops b) (b_destroy_waiters b) (b_initialized b) (b_destroying b)
    (b_lock_initialized b) (b_idle_cond_initialized b).

Definition set_b_descriptors (v : list descriptor_slot) (b : broker) : broker :=
  Broker (b_addr b) (b_runtime b) (b_capability_key b) (b_revocation_epoch b)
    (b_buffers b) v (b_channels b) (b_tasks b) (b_ring_sessions b)
    (b_transport_sessions b) (b_next_buffer_id b) (b_next_descriptor_id b)
    (b_next_channel_id b) (b_next_task_id b) (b_next_transport_subject_nonce b)
    (b_active_ops b) (b_destroy_waiters b) (b_initialized b) (b_destroying b)
    (b_lock_initialized b) (b_idle_cond_initialized b).

Definition set_b_channels (v : option (list channel_slot)) (b : broker) : broker :=
  Broker (b_addr b) (b_runtime b) (b_capability_key b) (b_revocation_epoch b)
    (b_buffers b) (b_descriptors b) v (b_tasks b) (b_ring_sessions b)
    (b_transport_sessions b) (b_next_buffer_id b) (b_next_descriptor_id b)
    (b_next_channel_id b) (b_next_task_id b) (b_next_transport_subject_nonce b)
    (b_active_ops b) (b_destroy_waiters b) (b_initialized b) (b_destroying b)
    (b_lock_initialized b) (b_idle_cond_initialized b).

Definition set_b_tasks (v : list task_slot) (b : broker) : broker :=
  Broker (b_addr b) (b_runtime b) (b_capability_key b) (b_revocation_epoch b)
    (b_buffers b) (b_descriptors b) (b_channels b) v (b_ring_sessions b)
    (b_transport_sessions b) (b_next_buffer_id b) (b_next_descriptor_id b)
    (b_next_channel_id b) (b_next_task_id b) (b_next_transport_subject_nonce b)
    (b_active_ops b) (b_destroy_waiters b) (b_initialized b) (b_destroying b)
    (b_lock_initialized b) (b_idle_cond_initialized b).

Definition set_b_ring_sessions (v : list ring_session) (b : broker) : broker :=
  Broker (b_addr b) (b_runtime b) (b_capability_key b) (b_revocation_epoch b)
    (b_buffers b) (b_descriptors b) (b_channels b) (b_tasks b) v (b_transport_sessions b)
    (b_next_buffer_id b) (b_next_descriptor_id b) (b_next_channel_id b)
    (b_next_task_id b) (b_next_transport_subject_nonce b) (b_active_ops b)
    (b_destroy_waiters b) (b_initialized b) (b_destroying b) (b_lock_initialized b)
    (b_idle_cond_initialized b).

Definition set_b_transport_sessions (v : list transport_session) (b : broker) : broker :=
  Broker (b_addr b) (b_runtime b) (b_capability_key b) (b_revocation_epoch b)
    (b_buffers b) (b_descriptors b) (b_channels b) (b_tasks b) (b_ring_sessions b) v
    (b_next_buffer_id b) (b_next_descriptor_id b) (b_next_channel_id b)
    (b_next_task_id b) (b_next_transport_subject_nonce b) (b_active_ops b)
    (b_destroy_waiters b) (b_initialized b) (b_destroying b) (b_lock_initialized b)
    (b_idle_cond_initialized b).

Definition set_b_next_buffer_id (v : Z) (b : broker) : broker :=
  Broker (b_addr b) (b_runtime b) (b_capability_key b) (b_revocation_epoch b)
    (b_buffers b) (b_descriptors b) (b_channels b) (b_tasks b) (b_ring_sessions b)
    (b_transport_sessions b) v (b_next_descriptor_id b) (b_next_channel_id b)
    (b_next_task_id b) (b_next_transport_subject_nonce b) (b_active_ops b)
    (b_destroy_waiters b) (b_initialized b) (b_destroying b) (b_lock_initialized b)
    (b_idle_cond_initialized b).

Definition set_b_next_descriptor_id (v : Z) (b : broker) : broker :=
  Broker (b_addr b) (b_runtime b) (b_capability_key b) (b_revocation_epoch b)
    (b_buffers b) (b_descriptors b) (b_channels b) (b_tasks b) (b_ring_sessions b)
    (b_transport_sessions b) (b_next_buffer_id b) v (b_next_channel_id b)
    (b_next_task_id b) (b_next_transport_subject_nonce b) (b_active_ops b)
    (b_destroy_waiters b) (b_initialized b) (b_destroying b) (b_lock_initialized b)
    (b_idle_cond_initialized b).

Definition set_b_next_channel_id (v : Z) (b : broker) : broker :=
  Broker (b_addr b) (b_runtime b) (b_capability_key b) (b_revocation_epoch b)
    (b_buffers b) (b_descriptors b) (b_channels b) (b_tasks b) (b_ring_sessions b)
    (b_transport_sessions b) (b_next_buffer_id b) (b_next_descriptor_id b) v
    (b_next_task_id b) (b_next_transport_subject_nonce b) (b_active_ops b)
    (b_destroy_waiters b) (b_initialized b) (b_destroying b) (b_lock_initialized b)
    (b_idle_cond_initialized b).

Definition set_b_next_task_id (v : Z) (b : broker) : broker :=
  Broker (b_addr b) (b_runtime b) (b_capability_key b) (b_revocation_epoch b)
    (b_buffers b) (b_descriptors b) (b_channels b) (b_tasks b) (b_ring_sessions b)
    (b_transport_sessions b) (b_next_buffer_id b) (b_next_descriptor_id b)
    (b_next_channel_id b) v (b_next_transport_subject_nonce b) (b_active_ops b)
    (b_destroy_waiters b) (b_initialized b) (b_destroying b) (b_lock_initialized b)
    (b_idle_cond_initialized b).

Definition set_b_next_transport_subject_nonce (v : Z) (b : broker) : broker :=
  Broker (b_addr b) (b_runtime b) (b_capability_key b) (b_revocation_epoch b)
    (b_buffers b) (b_descriptors b) (b_channels b) (b_tasks b) (b_ring_sessions b)
    (b_transport_sessions b) (b_next_buffer_id b) (b_next_descriptor_id b)
    (b_next_channel_id b) (b_next_task_id b) v (b_active_ops b) (b_destroy_waiters b)
    (b_initialized b) (b_destroying b) (b_lock_initialized b) (b_idle_cond_initialized b).

Definition set_b_active_ops (v : Z) (b : broker) : broker :=
  Broker (b_addr b) (b_runtime b) (b_capability_key b) (b_revocation_epoch b)
    (b_buffers b) (b_descriptors b) (b_channels b) (b_tasks b) (b_ring_sessions b)
    (b_transport_sessions b) (b_next_buffer_id b) (b_next_descriptor_id b)
    (b_next_channel_id b) (b_next_task_id b) (b_next_transport_subject_nonce b) v
    (b_destroy_waiters b) (b_initialized b) (b_destroying b) (b_lock_initialized b)
    (b_idle_cond_initialized b).

Definition set_b_destroy_waiters (v : Z) (b : broker) : broker :=
  Broker (b_addr b) (b_runtime b) (b_capability_key b) (b_revocation_epoch b)
    (b_buffers b) (b_descriptors b) (b_channels b) (b_tasks b) (b_ring_sessions b)
    (b_transport_sessions b) (b_next_buffer_id b) (b_next_descriptor_id b)
    (b_next_channel_id b) (b_next_task_id b) (b_next_transport_subject_nonce b)
    (b_active_ops b) v (b_initialized b) (b_destroying b) (b_lock_initialized b)
    (b_idle_cond_initialized b).

Definition set_b_initialized (v : bool) (b : broker) : broker :=
  Broker (b_addr b) (b_runtime b) (b_capability_key b) (b_revocation_epoch b)
    (b_buffers b) (b_descriptors b) (b_channels b) (b_tasks b) (b_ring_sessions b)
    (b_transport_sessions b) (b_next_buffer_id b) (b_next_descriptor_id b)
    (b_next_channel_id b) (b_next_task_id b) (b_next_transport_subject_nonce b)
    (b_active_ops b) (b_destroy_waiters b) v (b_destroying b) (b_lock_initialized b)
    (b_idle_cond_initialized b).

Definition set_b_destroying (v : bool) (b : broker) : broker :=
  Broker (b_addr b) (b_runtime b) (b_capability_key b) (b_revocation_epoch b)
    (b_buffers b) (b_descriptors b) (b_channels b) (b_tasks b) (b_ring_sessions b)
    (b_transport_sessions b) (b_next_buffer_id b) (b_next_descriptor_id b)
    (b_next_channel_id b) (b_next_task_id b) (b_next_transport_subject_nonce b)
    (b_active_ops b) (b_destroy_waiters b) (b_initialized b) v (b_lock_initialized b)
    (b_idle_cond_initialized b).

Definition set_b_lock_initialized (v : bool) (b : broker) : broker :=
  Broker (b_addr b) (b_runtime b) (b_capability_key b) (b_revocation_epoch b)
    (b_buffers b) (b_descriptors b) (b_channels b) (b_tasks b) (b_ring_sessions b)
    (b_transport_sessions b) (b_next_buffer_id b) (b_next_descriptor_id b)
    (b_next_channel_id b) (b_next_task_id b) (b_next_transport_subject_nonce b)
    (b_active_ops b) (b_destroy_waiters b) (b_initialized b) (b_destroying b) v
    (b_idle_cond_initialized b).

Definition set_b_idle_cond_initialized (v : bool) (b : broker) : broker :=
  Broker (b_addr b) (b_runtime b) (b_capability_key b) (b_revocation_epoch b)
    (b_buffers b) (b_descriptors b) (b_channels b) (b_tasks b) (b_ring_sessions b)
    (b_transport_sessions b) (b_next_buffer_id b) (b_next_descriptor_id b)
    (b_next_channel_id b) (b_next_task_id b) (b_next_transport_subject_nonce b)
    (b_active_ops b) (b_destroy_waiters b) (b_initialized b) (b_destroying b)
    (b_lock_initialized b) v.

Definition set_os_mutex_lock (v : list Z) (o : os) : os :=
  Os v (os_entropy o) (os_noise o) (os_calloc o) (os_fcntl o) (os_dup o) (os_getsockopt o)
    (os_now o) (os_poll o) (os_recv o) (os_send o) (os_spawn o) (os_join o) (os_detach o)
    (os_run o) (os_sleep o) (os_client o) (os_open o) (os_truncate o) (os_mmap o)
    (os_stat o) (os_init o) (os_runtime o) (os_wait o) (os_run_rc o) (os_recvmsg o)
    (os_read o) (os_accept o) (os_socket o) (os_lstat o) (os_sys o) (os_peer o) (os_log o).

Definition set_os_entropy (v : list (option Z)) (o : os) : os :=
  Os (os_mutex_lock o) v (os_noise o) (os_calloc o) (os_fcntl o) (os_dup o)
    (os_getsockopt o) (os_now o) (os_poll o) (os_recv o) (os_send o) (os_spawn o)
    (os_join o) (os_detach o) (os_run o) (os_sleep o) (os_client o) (os_open o)
    (os_truncate o) (os_mmap o) (os_stat o) (os_init o) (os_runtime o) (os_wait o)
    (os_run_rc o) (os_recvmsg o) (os_read o) (os_accept o) (os_socket o) (os_lstat o)
    (os_sys o) (os_peer o) (os_log o).

Definition set_os_noise (v : list Z) (o : os) : os :=
  Os (os_mutex_lock o) (os_entropy o) v (os_calloc o) (os_fcntl o) (os_dup o)
    (os_getsockopt o) (os_now o) (os_poll o) (os_recv o) (os_send o) (os_spawn o)
    (os_join o) (os_detach o) (os_run o) (os_sleep o) (os_client o) (os_open o)
    (os_truncate o) (os_mmap o) (os_stat o) (os_init o) (os_runtime o) (os_wait o)
    (os_run_rc o) (os_recvmsg o) (os_read o) (os_accept o) (os_socket o) (os_lstat o)
    (os_sys o) (os_peer o) (os_log o).

Definition set_os_calloc (v : list bool) (o : os) : os :=
  Os (os_mutex_lock o) (os_entropy o) (os_noise o) v (os_fcntl o) (os_dup o)
    (os_getsockopt o) (os_now o) (os_poll o) (os_recv o) (os_send o) (os_spawn o)
    (os_join o) (os_detach o) (os_run o) (os_sleep o) (os_client o) (os_open o)
    (os_truncate o) (os_mmap o) (os_stat o) (os_init o) (os_runtime o) (os_wait o)
    (os_run_rc o) (os_recvmsg o) (os_read o) (os_accept o) (os_socket o) (os_lstat o)
    (os_sys o) (os_peer o) (os_log o).

Definition set_os_fcntl (v : list Z) (o : os) : os :=
  Os (os_mutex_lock o) (os_entropy o) (os_noise o) (os_calloc o) v (os_dup o)
    (os_getsockopt o) (os_now o) (os_poll o) (os_recv o) (os_send o) (os_spawn o)
    (os_join o) (os_detach o) (os_run o) (os_sleep o) (os_client o) (os_open o)
    (os_truncate o) (os_mmap o) (os_stat o) (os_init o) (os_runtime o) (os_wait o)
    (os_run_rc o) (os_recvmsg o) (os_read o) (os_accept o) (os_socket o) (os_lstat o)
    (os_sys o) (os_peer o) (os_log o).

Definition set_os_dup (v : list (nat + Z)) (o : os) : os :=
  Os (os_mutex_lock o) (os_entropy o) (os_noise o) (os_calloc o) (os_fcntl o) v
    (os_getsockopt o) (os_now o) (os_poll o) (os_recv o) (os_send o) (os_spawn o)
    (os_join o) (os_detach o) (os_run o) (os_sleep o) (os_client o) (os_open o)
    (os_truncate o) (os_mmap o) (os_stat o) (os_init o) (os_runtime o) (os_wait o)
    (os_run_rc o) (os_recvmsg o) (os_read o) (os_accept o) (os_socket o) (os_lstat o)
    (os_sys o) (os_peer o) (os_log o).

Definition set_os_getsockopt (v : list Z) (o : os) : os :=
  Os (os_mutex_lock o) (os_entropy o) (os_noise o) (os_calloc o) (os_fcntl o) (os_dup o) v
    (os_now o) (os_poll o) (os_recv o) (os_send o) (os_spawn o) (os_join o) (os_detach o)
    (os_run o) (os_sleep o) (os_client o) (os_open o) (os_truncate o) (os_mmap o)
    (os_stat o) (os_init o) (os_runtime o) (os_wait o) (os_run_rc o) (os_recvmsg o)
    (os_read o) (os_accept o) (os_socket o) (os_lstat o) (os_sys o) (os_peer o) (os_log o).

Definition set_os_now (v : list Z) (o : os) : os :=
  Os (os_mutex_lock o) (os_entropy o) (os_noise o) (os_calloc o) (os_fcntl o) (os_dup o)
    (os_getsockopt o) v (os_poll o) (os_recv o) (os_send o) (os_spawn o) (os_join o)
    (os_detach o) (os_run o) (os_sleep o) (os_client o) (os_open o) (os_truncate o)
    (os_mmap o) (os_stat o) (os_init o) (os_runtime o) (os_wait o) (os_run_rc o)
    (os_recvmsg o) (os_read o) (os_accept o) (os_socket o) (os_lstat o) (os_sys o)
    (os_peer o) (os_log o).

Definition set_os_poll (v : list poll_result) (o : os) : os :=
  Os (os_mutex_lock o) (os_entropy o) (os_noise o) (os_calloc o) (os_fcntl o) (os_dup o)
    (os_getsockopt o) (os_now o) v (os_recv o) (os_send o) (os_spawn o) (os_join o)
    (os_detach o) (os_run o) (os_sleep o) (os_client o) (os_open o) (os_truncate o)
    (os_mmap o) (os_stat o) (os_init o) (os_runtime o) (os_wait o) (os_run_rc o)
    (os_recvmsg o) (os_read o) (os_accept o) (os_socket o) (os_lstat o) (os_sys o)
    (os_peer o) (os_log o).

Definition set_os_recv (v : list (list Z + Z)) (o : os) : os :=
  Os (os_mutex_lock o) (os_entropy o) (os_noise o) (os_calloc o) (os_fcntl o) (os_dup o)
    (os_getsockopt o) (os_now o) (os_poll o) v (os_send o) (os_spawn o) (os_join o)
    (os_detach o) (os_run o) (os_sleep o) (os_client o) (os_open o) (os_truncate o)
    (os_mmap o) (os_stat o) (os_init o) (os_runtime o) (os_wait o) (os_run_rc o)
    (os_recvmsg o) (os_read o) (os_accept o) (os_socket o) (os_lstat o) (os_sys o)
    (os_peer o) (os_log o).

Definition set_os_send (v : list (Z + Z)) (o : os) : os :=
  Os (os_mutex_lock o) (os_entropy o) (os_noise o) (os_calloc o) (os_fcntl o) (os_dup o)
    (os_getsockopt o) (os_now o) (os_poll o) (os_recv o) v (os_spawn o) (os_join o)
    (os_detach o) (os_run o) (os_sleep o) (os_client o) (os_open o) (os_truncate o)
    (os_mmap o) (os_stat o) (os_init o) (os_runtime o) (os_wait o) (os_run_rc o)
    (os_recvmsg o) (os_read o) (os_accept o) (os_socket o) (os_lstat o) (os_sys o)
    (os_peer o) (os_log o).

Definition set_os_spawn (v : list (positive + Z)) (o : os) : os :=
  Os (os_mutex_lock o) (os_entropy o) (os_noise o) (os_calloc o) (os_fcntl o) (os_dup o)
    (os_getsockopt o) (os_now o) (os_poll o) (os_recv o) (os_send o) v (os_join o)
    (os_detach o) (os_run o) (os_sleep o) (os_client o) (os_open o) (os_truncate o)
    (os_mmap o) (os_stat o) (os_init o) (os_runtime o) (os_wait o) (os_run_rc o)
    (os_recvmsg o) (os_read o) (os_accept o) (os_socket o) (os_lstat o) (os_sys o)
    (os_peer o) (os_log o).

Definition set_os_join (v : list Z) (o : os) : os :=
  Os (os_mutex_lock o) (os_entropy o) (os_noise o) (os_calloc o) (os_fcntl o) (os_dup o)
    (os_getsockopt o) (os_now o) (os_poll o) (os_recv o) (os_send o) (os_spawn o) v
    (os_detach o) (os_run o) (os_sleep o) (os_client o) (os_open o) (os_truncate o)
    (os_mmap o) (os_stat o) (os_init o) (os_runtime o) (os_wait o) (os_run_rc o)
    (os_recvmsg o) (os_read o) (os_accept o) (os_socket o) (os_lstat o) (os_sys o)
    (os_peer o) (os_log o).

Definition set_os_detach (v : list Z) (o : os) : os :=
  Os (os_mutex_lock o) (os_entropy o) (os_noise o) (os_calloc o) (os_fcntl o) (os_dup o)
    (os_getsockopt o) (os_now o) (os_poll o) (os_recv o) (os_send o) (os_spawn o)
    (os_join o) v (os_run o) (os_sleep o) (os_client o) (os_open o) (os_truncate o)
    (os_mmap o) (os_stat o) (os_init o) (os_runtime o) (os_wait o) (os_run_rc o)
    (os_recvmsg o) (os_read o) (os_accept o) (os_socket o) (os_lstat o) (os_sys o)
    (os_peer o) (os_log o).

Definition set_os_run (v : list (list nat)) (o : os) : os :=
  Os (os_mutex_lock o) (os_entropy o) (os_noise o) (os_calloc o) (os_fcntl o) (os_dup o)
    (os_getsockopt o) (os_now o) (os_poll o) (os_recv o) (os_send o) (os_spawn o)
    (os_join o) (os_detach o) v (os_sleep o) (os_client o) (os_open o) (os_truncate o)
    (os_mmap o) (os_stat o) (os_init o) (os_runtime o) (os_wait o) (os_run_rc o)
    (os_recvmsg o) (os_read o) (os_accept o) (os_socket o) (os_lstat o) (os_sys o)
    (os_peer o) (os_log o).

Definition set_os_sleep (v : list Z) (o : os) : os :=
  Os (os_mutex_lock o) (os_entropy o) (os_noise o) (os_calloc o) (os_fcntl o) (os_dup o)
    (os_getsockopt o) (os_now o) (os_poll o) (os_recv o) (os_send o) (os_spawn o)
    (os_join o) (os_detach o) (os_run o) v (os_client o) (os_open o) (os_truncate o)
    (os_mmap o) (os_stat o) (os_init o) (os_runtime o) (os_wait o) (os_run_rc o)
    (os_recvmsg o) (os_read o) (os_accept o) (os_socket o) (os_lstat o) (os_sys o)
    (os_peer o) (os_log o).

Definition set_os_client (v : list (broker_ring → broker_ring)) (o : os) : os :=
  Os (os_mutex_lock o) (os_entropy o) (os_noise o) (os_calloc o) (os_fcntl o) (os_dup o)
    (os_getsockopt o) (os_now o) (os_poll o) (os_recv o) (os_send o) (os_spawn o)
    (os_join o) (os_detach o) (os_run o) (os_sleep o) v (os_open o) (os_truncate o)
    (os_mmap o) (os_stat o) (os_init o) (os_runtime o) (os_wait o) (os_run_rc o)
    (os_recvmsg o) (os_read o) (os_accept o) (os_socket o) (os_lstat o) (os_sys o)
    (os_peer o) (os_log o).

Definition set_os_open (v : list (nat + Z)) (o : os) : os :=
  Os (os_mutex_lock o) (os_entropy o) (os_noise o) (os_calloc o) (os_fcntl o) (os_dup o)
    (os_getsockopt o) (os_now o) (os_poll o) (os_recv o) (os_send o) (os_spawn o)
    (os_join o) (os_detach o) (os_run o) (os_sleep o) (os_client o) v (os_truncate o)
    (os_mmap o) (os_stat o) (os_init o) (os_runtime o) (os_wait o) (os_run_rc o)
    (os_recvmsg o) (os_read o) (os_accept o) (os_socket o) (os_lstat o) (os_sys o)
    (os_peer o) (os_log o).

Definition set_os_truncate (v : list Z) (o : os) : os :=
  Os (os_mutex_lock o) (os_entropy o) (os_noise o) (os_calloc o) (os_fcntl o) (os_dup o)
    (os_getsockopt o) (os_now o) (os_poll o) (os_recv o) (os_send o) (os_spawn o)
    (os_join o) (os_detach o) (os_run o) (os_sleep o) (os_client o) (os_open o) v
    (os_mmap o) (os_stat o) (os_init o) (os_runtime o) (os_wait o) (os_run_rc o)
    (os_recvmsg o) (os_read o) (os_accept o) (os_socket o) (os_lstat o) (os_sys o)
    (os_peer o) (os_log o).

Definition set_os_mmap (v : list (positive + Z)) (o : os) : os :=
  Os (os_mutex_lock o) (os_entropy o) (os_noise o) (os_calloc o) (os_fcntl o) (os_dup o)
    (os_getsockopt o) (os_now o) (os_poll o) (os_recv o) (os_send o) (os_spawn o)
    (os_join o) (os_detach o) (os_run o) (os_sleep o) (os_client o) (os_open o)
    (os_truncate o) v (os_stat o) (os_init o) (os_runtime o) (os_wait o) (os_run_rc o)
    (os_recvmsg o) (os_read o) (os_accept o) (os_socket o) (os_lstat o) (os_sys o)
    (os_peer o) (os_log o).

Definition set_os_stat (v : list (file_stat + Z)) (o : os) : os :=
  Os (os_mutex_lock o) (os_entropy o) (os_noise o) (os_calloc o) (os_fcntl o) (os_dup o)
    (os_getsockopt o) (os_now o) (os_poll o) (os_recv o) (os_send o) (os_spawn o)
    (os_join o) (os_detach o) (os_run o) (os_sleep o) (os_client o) (os_open o)
    (os_truncate o) (os_mmap o) v (os_init o) (os_runtime o) (os_wait o) (os_run_rc o)
    (os_recvmsg o) (os_read o) (os_accept o) (os_socket o) (os_lstat o) (os_sys o)
    (os_peer o) (os_log o).

Definition set_os_init (v : list Z) (o : os) : os :=
  Os (os_mutex_lock o) (os_entropy o) (os_noise o) (os_calloc o) (os_fcntl o) (os_dup o)
    (os_getsockopt o) (os_now o) (os_poll o) (os_recv o) (os_send o) (os_spawn o)
    (os_join o) (os_detach o) (os_run o) (os_sleep o) (os_client o) (os_open o)
    (os_truncate o) (os_mmap o) (os_stat o) v (os_runtime o) (os_wait o) (os_run_rc o)
    (os_recvmsg o) (os_read o) (os_accept o) (os_socket o) (os_lstat o) (os_sys o)
    (os_peer o) (os_log o).

Definition set_os_runtime (v : list (Z + Z)) (o : os) : os :=
  Os (os_mutex_lock o) (os_entropy o) (os_noise o) (os_calloc o) (os_fcntl o) (os_dup o)
    (os_getsockopt o) (os_now o) (os_poll o) (os_recv o) (os_send o) (os_spawn o)
    (os_join o) (os_detach o) (os_run o) (os_sleep o) (os_client o) (os_open o)
    (os_truncate o) (os_mmap o) (os_stat o) (os_init o) v (os_wait o) (os_run_rc o)
    (os_recvmsg o) (os_read o) (os_accept o) (os_socket o) (os_lstat o) (os_sys o)
    (os_peer o) (os_log o).

Definition set_os_wait (v : list (broker → broker)) (o : os) : os :=
  Os (os_mutex_lock o) (os_entropy o) (os_noise o) (os_calloc o) (os_fcntl o) (os_dup o)
    (os_getsockopt o) (os_now o) (os_poll o) (os_recv o) (os_send o) (os_spawn o)
    (os_join o) (os_detach o) (os_run o) (os_sleep o) (os_client o) (os_open o)
    (os_truncate o) (os_mmap o) (os_stat o) (os_init o) (os_runtime o) v (os_run_rc o)
    (os_recvmsg o) (os_read o) (os_accept o) (os_socket o) (os_lstat o) (os_sys o)
    (os_peer o) (os_log o).

Definition set_os_run_rc (v : list Z) (o : os) : os :=
  Os (os_mutex_lock o) (os_entropy o) (os_noise o) (os_calloc o) (os_fcntl o) (os_dup o)
    (os_getsockopt o) (os_now o) (os_poll o) (os_recv o) (os_send o) (os_spawn o)
    (os_join o) (os_detach o) (os_run o) (os_sleep o) (os_client o) (os_open o)
    (os_truncate o) (os_mmap o) (os_stat o) (os_init o) (os_runtime o) (os_wait o) v
    (os_recvmsg o) (os_read o) (os_accept o) (os_socket o) (os_lstat o) (os_sys o)
    (os_peer o) (os_log o).

Definition set_os_recvmsg (v : list (received_message + Z)) (o : os) : os :=
  Os (os_mutex_lock o) (os_entropy o) (os_noise o) (os_calloc o) (os_fcntl o) (os_dup o)
    (os_getsockopt o) (os_now o) (os_poll o) (os_recv o) (os_send o) (os_spawn o)
    (os_join o) (os_detach o) (os_run o) (os_sleep o) (os_client o) (os_open o)
    (os_truncate o) (os_mmap o) (os_stat o) (os_init o) (os_runtime o) (os_wait o)
    (os_run_rc o) v (os_read o) (os_accept o) (os_socket o) (os_lstat o) (os_sys o)
    (os_peer o) (os_log o).

Definition set_os_read (v : list (list Z + Z)) (o : os) : os :=
  Os (os_mutex_lock o) (os_entropy o) (os_noise o) (os_calloc o) (os_fcntl o) (os_dup o)
    (os_getsockopt o) (os_now o) (os_poll o) (os_recv o) (os_send o) (os_spawn o)
    (os_join o) (os_detach o) (os_run o) (os_sleep o) (os_client o) (os_open o)
    (os_truncate o) (os_mmap o) (os_stat o) (os_init o) (os_runtime o) (os_wait o)
    (os_run_rc o) (os_recvmsg o) v (os_accept o) (os_socket o) (os_lstat o) (os_sys o)
    (os_peer o) (os_log o).

Definition set_os_accept (v : list (nat + Z)) (o : os) : os :=
  Os (os_mutex_lock o) (os_entropy o) (os_noise o) (os_calloc o) (os_fcntl o) (os_dup o)
    (os_getsockopt o) (os_now o) (os_poll o) (os_recv o) (os_send o) (os_spawn o)
    (os_join o) (os_detach o) (os_run o) (os_sleep o) (os_client o) (os_open o)
    (os_truncate o) (os_mmap o) (os_stat o) (os_init o) (os_runtime o) (os_wait o)
    (os_run_rc o) (os_recvmsg o) (os_read o) v (os_socket o) (os_lstat o) (os_sys o)
    (os_peer o) (os_log o).

Definition set_os_socket (v : list (nat + Z)) (o : os) : os :=
  Os (os_mutex_lock o) (os_entropy o) (os_noise o) (os_calloc o) (os_fcntl o) (os_dup o)
    (os_getsockopt o) (os_now o) (os_poll o) (os_recv o) (os_send o) (os_spawn o)
    (os_join o) (os_detach o) (os_run o) (os_sleep o) (os_client o) (os_open o)
    (os_truncate o) (os_mmap o) (os_stat o) (os_init o) (os_runtime o) (os_wait o)
    (os_run_rc o) (os_recvmsg o) (os_read o) (os_accept o) v (os_lstat o) (os_sys o)
    (os_peer o) (os_log o).

Definition set_os_lstat (v : list (path_stat + Z)) (o : os) : os :=
  Os (os_mutex_lock o) (os_entropy o) (os_noise o) (os_calloc o) (os_fcntl o) (os_dup o)
    (os_getsockopt o) (os_now o) (os_poll o) (os_recv o) (os_send o) (os_spawn o)
    (os_join o) (os_detach o) (os_run o) (os_sleep o) (os_client o) (os_open o)
    (os_truncate o) (os_mmap o) (os_stat o) (os_init o) (os_runtime o) (os_wait o)
    (os_run_rc o) (os_recvmsg o) (os_read o) (os_accept o) (os_socket o) v (os_sys o)
    (os_peer o) (os_log o).

Definition set_os_sys (v : list Z) (o : os) : os :=
  Os (os_mutex_lock o) (os_entropy o) (os_noise o) (os_calloc o) (os_fcntl o) (os_dup o)
    (os_getsockopt o) (os_now o) (os_poll o) (os_recv o) (os_send o) (os_spawn o)
    (os_join o) (os_detach o) (os_run o) (os_sleep o) (os_client o) (os_open o)
    (os_truncate o) (os_mmap o) (os_stat o) (os_init o) (os_runtime o) (os_wait o)
    (os_run_rc o) (os_recvmsg o) (os_read o) (os_accept o) (os_socket o) (os_lstat o) v
    (os_peer o) (os_log o).

Definition set_os_peer (v : list (Z + Z)) (o : os) : os :=
  Os (os_mutex_lock o) (os_entropy o) (os_noise o) (os_calloc o) (os_fcntl o) (os_dup o)
    (os_getsockopt o) (os_now o) (os_poll o) (os_recv o) (os_send o) (os_spawn o)
    (os_join o) (os_detach o) (os_run o) (os_sleep o) (os_client o) (os_open o)
    (os_truncate o) (os_mmap o) (os_stat o) (os_init o) (os_runtime o) (os_wait o)
    (os_run_rc o) (os_recvmsg o) (os_read o) (os_accept o) (os_socket o) (os_lstat o)
    (os_sys o) v (os_log o).

Definition set_os_log (v : list event) (o : os) : os :=
  Os (os_mutex_lock o) (os_entropy o) (os_noise o) (os_calloc o) (os_fcntl o) (os_dup o)
    (os_getsockopt o) (os_now o) (os_poll o) (os_recv o) (os_send o) (os_spawn o)
    (os_join o) (os_detach o) (os_run o) (os_sleep o) (os_client o) (os_open o)
    (os_truncate o) (os_mmap o) (os_stat o) (os_init o) (os_runtime o) (os_wait o)
    (os_run_rc o) (os_recvmsg o) (os_read o) (os_accept o) (os_socket o) (os_lstat o)
    (os_sys o) (os_peer o) v.

Definition set_w_broker (v : option broker) (w : world) : world :=
  World v (w_rings w) (w_tls w) (w_errno w) (w_os w).

Definition set_w_rings (v : gmap Z broker_ring) (w : world) : world :=
  World (w_broker w) v (w_tls w) (w_errno w) (w_os w).

Definition set_w_tls (v : list tls_op) (w : world) : world :=
  World (w_broker w) (w_rings w) v (w_errno w) (w_os w).

Definition set_w_errno (v : Z) (w : world) : world :=
  World (w_broker w) (w_rings w) (w_tls w) v (w_os w).

Definition set_w_os (v : os) (w : world) : world :=
  World (w_broker w) (w_rings w) (w_tls w) (w_errno w) v.

Definition set_cs_messages (v : list channel_message) (s : channel_slot) : channel_slot :=
  ChannelSlot v (cs_capacity s) (cs_head s) (cs_tail s) (cs_count s) (cs_id s)
    (cs_generation s) (cs_rights s) (cs_subject_id s) (cs_active s) (cs_closed s).

Definition set_cs_head (v : Z) (s : channel_slot) : channel_slot :=
  ChannelSlot (cs_messages s) (cs_capacity s) v (cs_tail s) (cs_count s) (cs_id s)
    (cs_generation s) (cs_rights s) (cs_subject_id s) (cs_active s) (cs_closed s).

Definition set_cs_tail (v : Z) (s : channel_slot) : channel_slot :=
  ChannelSlot (cs_messages s) (cs_capacity s) (cs_head s) v (cs_count s) (cs_id s)
    (cs_generation s) (cs_rights s) (cs_subject_id s) (cs_active s) (cs_closed s).

Definition set_cs_count (v : Z) (s : channel_slot) : channel_slot :=
  ChannelSlot (cs_messages s) (cs_capacity s) (cs_head s) (cs_tail s) v (cs_id s)
    (cs_generation s) (cs_rights s) (cs_subject_id s) (cs_active s) (cs_closed s).

Definition set_cs_generation (v : Z) (s : channel_slot) : channel_slot :=
  ChannelSlot (cs_messages s) (cs_capacity s) (cs_head s) (cs_tail s) (cs_count s)
    (cs_id s) v (cs_rights s) (cs_subject_id s) (cs_active s) (cs_closed s).

Definition set_cs_rights (v : Z) (s : channel_slot) : channel_slot :=
  ChannelSlot (cs_messages s) (cs_capacity s) (cs_head s) (cs_tail s) (cs_count s)
    (cs_id s) (cs_generation s) v (cs_subject_id s) (cs_active s) (cs_closed s).

Definition set_cs_closed (v : bool) (s : channel_slot) : channel_slot :=
  ChannelSlot (cs_messages s) (cs_capacity s) (cs_head s) (cs_tail s) (cs_count s)
    (cs_id s) (cs_generation s) (cs_rights s) (cs_subject_id s) (cs_active s) v.

Definition set_ts_task (v : Z) (s : task_slot) : task_slot :=
  TaskSlot v (ts_state s) (ts_kind s) (ts_id s) (ts_generation s) (ts_rights s)
    (ts_subject_id s) (ts_arg0 s) (ts_result0 s) (ts_error_code s) (ts_active s).

Definition set_ts_state (v : task_state) (s : task_slot) : task_slot :=
  TaskSlot (ts_task s) v (ts_kind s) (ts_id s) (ts_generation s) (ts_rights s)
    (ts_subject_id s) (ts_arg0 s) (ts_result0 s) (ts_error_code s) (ts_active s).

Definition set_ts_rights (v : Z) (s : task_slot) : task_slot :=
  TaskSlot (ts_task s) (ts_state s) (ts_kind s) (ts_id s) (ts_generation s) v
    (ts_subject_id s) (ts_arg0 s) (ts_result0 s) (ts_error_code s) (ts_active s).

Definition set_ts_result0 (v : Z) (s : task_slot) : task_slot :=
  TaskSlot (ts_task s) (ts_state s) (ts_kind s) (ts_id s) (ts_generation s) (ts_rights s)
    (ts_subject_id s) (ts_arg0 s) v (ts_error_code s) (ts_active s).

Definition set_ts_error_code (v : Z) (s : task_slot) : task_slot :=
  TaskSlot (ts_task s) (ts_state s) (ts_kind s) (ts_id s) (ts_generation s) (ts_rights s)
    (ts_subject_id s) (ts_arg0 s) (ts_result0 s) v (ts_active s).

Definition set_ts_active (v : bool) (s : task_slot) : task_slot :=
  TaskSlot (ts_task s) (ts_state s) (ts_kind s) (ts_id s) (ts_generation s) (ts_rights s)
    (ts_subject_id s) (ts_arg0 s) (ts_result0 s) (ts_error_code s) v.

Definition set_rs_ring (v : Z) (s : ring_session) : ring_session :=
  RingSession v (rs_subject_id s) (rs_submit_head s) (rs_complete_tail s)
    (rs_mapping_bytes s) (rs_mapping_fd s) (rs_mapping_name s) (rs_active s) (rs_busy s)
    (rs_owns_mapping s) (rs_reclaim_pending s).

Definition set_rs_subject_id (v : Z) (s : ring_session) : ring_session :=
  RingSession (rs_ring s) v (rs_submit_head s) (rs_complete_tail s) (rs_mapping_bytes s)
    (rs_mapping_fd s) (rs_mapping_name s) (rs_active s) (rs_busy s) (rs_owns_mapping s)
    (rs_reclaim_pending s).

Definition set_rs_submit_head (v : Z) (s : ring_session) : ring_session :=
  RingSession (rs_ring s) (rs_subject_id s) v (rs_complete_tail s) (rs_mapping_bytes s)
    (rs_mapping_fd s) (rs_mapping_name s) (rs_active s) (rs_busy s) (rs_owns_mapping s)
    (rs_reclaim_pending s).

Definition set_rs_complete_tail (v : Z) (s : ring_session) : ring_session :=
  RingSession (rs_ring s) (rs_subject_id s) (rs_submit_head s) v (rs_mapping_bytes s)
    (rs_mapping_fd s) (rs_mapping_name s) (rs_active s) (rs_busy s) (rs_owns_mapping s)
    (rs_reclaim_pending s).

Definition set_rs_mapping_bytes (v : Z) (s : ring_session) : ring_session :=
  RingSession (rs_ring s) (rs_subject_id s) (rs_submit_head s) (rs_complete_tail s) v
    (rs_mapping_fd s) (rs_mapping_name s) (rs_active s) (rs_busy s) (rs_owns_mapping s)
    (rs_reclaim_pending s).

Definition set_rs_mapping_fd (v : Z) (s : ring_session) : ring_session :=
  RingSession (rs_ring s) (rs_subject_id s) (rs_submit_head s) (rs_complete_tail s)
    (rs_mapping_bytes s) v (rs_mapping_name s) (rs_active s) (rs_busy s)
    (rs_owns_mapping s) (rs_reclaim_pending s).

Definition set_rs_mapping_name (v : list Z) (s : ring_session) : ring_session :=
  RingSession (rs_ring s) (rs_subject_id s) (rs_submit_head s) (rs_complete_tail s)
    (rs_mapping_bytes s) (rs_mapping_fd s) v (rs_active s) (rs_busy s)
    (rs_owns_mapping s) (rs_reclaim_pending s).

Definition set_rs_active (v : bool) (s : ring_session) : ring_session :=
  RingSession (rs_ring s) (rs_subject_id s) (rs_submit_head s) (rs_complete_tail s)
    (rs_mapping_bytes s) (rs_mapping_fd s) (rs_mapping_name s) v (rs_busy s)
    (rs_owns_mapping s) (rs_reclaim_pending s).

Definition set_rs_busy (v : bool) (s : ring_session) : ring_session :=
  RingSession (rs_ring s) (rs_subject_id s) (rs_submit_head s) (rs_complete_tail s)
    (rs_mapping_bytes s) (rs_mapping_fd s) (rs_mapping_name s) (rs_active s) v
    (rs_owns_mapping s) (rs_reclaim_pending s).

Definition set_rs_owns_mapping (v : bool) (s : ring_session) : ring_session :=
  RingSession (rs_ring s) (rs_subject_id s) (rs_submit_head s) (rs_complete_tail s)
    (rs_mapping_bytes s) (rs_mapping_fd s) (rs_mapping_name s) (rs_active s) (rs_busy s)
    v (rs_reclaim_pending s).

Definition set_rs_reclaim_pending (v : bool) (s : ring_session) : ring_session :=
  RingSession (rs_ring s) (rs_subject_id s) (rs_submit_head s) (rs_complete_tail s)
    (rs_mapping_bytes s) (rs_mapping_fd s) (rs_mapping_name s) (rs_active s) (rs_busy s)
    (rs_owns_mapping s) v.

Definition set_ring_submit_head (v : Z) (r : broker_ring) : broker_ring :=
  BrokerRing (ring_magic r) (ring_version r) (ring_capacity r) v (ring_submit_tail r)
    (ring_complete_head r) (ring_complete_tail r) (ring_client_stats r)
    (ring_broker_stats r) (ring_submissions r) (ring_completions r) (ring_data r).

Definition set_ring_submit_tail (v : Z) (r : broker_ring) : broker_ring :=
  BrokerRing (ring_magic r) (ring_version r) (ring_capacity r) (ring_submit_head r) v
    (ring_complete_head r) (ring_complete_tail r) (ring_client_stats r)
    (ring_broker_stats r) (ring_submissions r) (ring_completions r) (ring_data r).

Definition set_ring_complete_head (v : Z) (r : broker_ring) : broker_ring :=
  BrokerRing (ring_magic r) (ring_version r) (ring_capacity r) (ring_submit_head r)
    (ring_submit_tail r) v (ring_complete_tail r) (ring_client_stats r)
    (ring_broker_stats r) (ring_submissions r) (ring_completions r) (ring_data r).

Definition set_ring_complete_tail (v : Z) (r : broker_ring) : broker_ring :=
  BrokerRing (ring_magic r) (ring_version r) (ring_capacity r) (ring_submit_head r)
    (ring_submit_tail r) (ring_complete_head r) v (ring_client_stats r)
    (ring_broker_stats r) (ring_submissions r) (ring_completions r) (ring_data r).

Definition set_ring_client_stats (v : list Z) (r : broker_ring) : broker_ring :=
  BrokerRing (ring_magic r) (ring_version r) (ring_capacity r) (ring_submit_head r)
    (ring_submit_tail r) (ring_complete_head r) (ring_complete_tail r) v
    (ring_broker_stats r) (ring_submissions r) (ring_completions r) (ring_data r).

Definition set_ring_broker_stats (v : list Z) (r : broker_ring) : broker_ring :=
  BrokerRing (ring_magic r) (ring_version r) (ring_capacity r) (ring_submit_head r)
    (ring_submit_tail r) (ring_complete_head r) (ring_complete_tail r)
    (ring_client_stats r) v (ring_submissions r) (ring_completions r) (ring_data r).

Definition set_ring_submissions (v : list ring_submission) (r : broker_ring) : broker_ring :=
  BrokerRing (ring_magic r) (ring_version r) (ring_capacity r) (ring_submit_head r)
    (ring_submit_tail r) (ring_complete_head r) (ring_complete_tail r)
    (ring_client_stats r) (ring_broker_stats r) v (ring_completions r) (ring_data r).

Definition set_ring_completions (v : list ring_completion) (r : broker_ring) : broker_ring :=
  BrokerRing (ring_magic r) (ring_version r) (ring_capacity r) (ring_submit_head r)
    (ring_submit_tail r) (ring_complete_head r) (ring_complete_tail r)
    (ring_client_stats r) (ring_broker_stats r) (ring_submissions r) v (ring_data r).

Definition set_ring_data (v : list Z) (r : broker_ring) : broker_ring :=
  BrokerRing (ring_magic r) (ring_version r) (ring_capacity r) (ring_submit_head r)
    (ring_submit_tail r) (ring_complete_head r) (ring_complete_tail r)
    (ring_client_stats r) (ring_broker_stats r) (ring_submissions r) (ring_completions r)
    v.

Definition set_cpl_request_id (v : Z) (c : ring_completion) : ring_completion :=
  RingCompletion v (cpl_status c) (cpl_error_code c) (cpl_result0 c) (cpl_result1 c).

Definition set_cpl_status (v : Z) (c : ring_completion) : ring_completion :=
  RingCompletion (cpl_request_id c) v (cpl_error_code c) (cpl_result0 c) (cpl_result1 c).

Definition set_cpl_error_code (v : Z) (c : ring_completion) : ring_completion :=
  RingCompletion (cpl_request_id c) (cpl_status c) v (cpl_result0 c) (cpl_result1 c).

Definition set_cpl_result0 (v : Z) (c : ring_completion) : ring_completion :=
  RingCompletion (cpl_request_id c) (cpl_status c) (cpl_error_code c) v (cpl_result1 c).

Definition set_bs_data (v : option (list Z)) (s : buffer_slot) : buffer_slot :=
  BufferSlot v (bs_length s) (bs_id s) (bs_generation s) (bs_rights s) (bs_subject_id s)
    (bs_active s).

Definition set_bs_generation (v : Z) (s : buffer_slot) : buffer_slot :=
  BufferSlot (bs_data s) (bs_length s) (bs_id s) v (bs_rights s) (bs_subject_id s)
    (bs_active s).

Definition set_bs_rights (v : Z) (s : buffer_slot) : buffer_slot :=
  BufferSlot (bs_data s) (bs_length s) (bs_id s) (bs_generation s) v (bs_subject_id s)
    (bs_active s).

Definition set_ds_generation (v : Z) (s : descriptor_slot) : descriptor_slot :=
  DescriptorSlot (ds_fd s) (ds_id s) v (ds_rights s) (ds_subject_id s) (ds_active s)
    (ds_close_on_destroy s).

Definition set_ds_rights (v : Z) (s : descriptor_slot) : descriptor_slot :=
  DescriptorSlot (ds_fd s) (ds_id s) (ds_generation s) v (ds_subject_id s) (ds_active s)
    (ds_close_on_destroy s).

(** ** Primitive actions *)

Abbreviation M := (st world).

Definition set_errno (e : Z) : M unit := modify (set_w_errno e).

Definition get_errno : M Z := gets w_errno.

(** [errno = e; return -1;] *)
Definition fail (e : Z) : M Z := set_errno e ;; mret (-1).

Definition log (e : event) : M unit :=
  modify (λ w, set_w_os (set_os_log (e :: os_log (w_os w)) (w_os w)) w).

(** Read the next result of an external function. *)
Definition pop {A} (tape : os → list A) (set_tape : list A → os → os) (dflt : A) : M A :=
  λ w, match tape (w_os w) with
       | [] => (dflt, w)
       | a :: rest => (a, set_w_os (set_tape rest (w_os w)) w)
       end.

(** Update the broker the pointer argument designates. *)
Definition upd_broker (f : broker → broker) : M unit :=
  modify (λ w, set_w_broker (f <$> w_broker w) w).

Global Arguments set_errno _ _ /.
Global Arguments get_errno _ /.
Global Arguments fail _ _ /.
Global Arguments log _ _ /.
Global Arguments upd_broker _ _ /.

(** Reduce the monad's plumbing and the record accesses, leaving the
    operations folded. *)
Ltac mon :=
  cbn [Z.eqb Pos.eqb negb orb andb fmap option_fmap option_map from_option id
       mbind st_bind mret st_ret gets modify set_errno get_errno fail log upd_broker fst snd
       w_broker w_rings w_tls w_errno w_os
       set_w_broker set_w_rings set_w_tls set_w_errno set_w_os] in *.
