(* ===== verification/Capability.v ===== *)
(** * Capability tokens ([src/core/registry/capability.c])

    SipHash-2-4 over the nine canonical words of a token under two key halves,
    nonce minting from OS entropy, and the issue / validate / attenuate
    operations on tokens.  [cap_valid] is the specification of an acceptable
    token; validation is shown to decide it, issuing to establish it and
    attenuation to shrink it. *)

From S2P Require Import Prelude Mix World.

(** ** OS entropy ([runtime_public_slot_seal.h]) *)

(** The words [getrandom] yields; a zero word and a failed call both report
    failure.  The tape continues with failures. *)
Definition llam_public_slot_entropy_from_os : M (option Z) :=
  e ← pop os_entropy set_os_entropy None;
  match e with
  | Some word => mret (if word =? 0 then None else Some word)
  | None => mret None
  end.

(** The addresses, the counter, the clock and the pid xored into the seed are
    chosen by the environment; the tape gives their combination. *)
Definition llam_public_slot_fallback_secret (owner_secret : Z) : M Z :=
  noise ← pop os_noise set_os_noise 0;
  let entropy := llam_mix64 (u64 (Z.lxor owner_secret noise)) in
  mret (if entropy =? 0 then 0xd6e8feb86659fd93 else entropy).

(** ** SipHash-2-4 ([capability.c]) *)

Definition llam_cap_read64_le (bytes : list Z) : Z :=
  Z.lor (nth 0 bytes 0)
  (Z.lor (Z.shiftl (nth 1 bytes 0) 8)
  (Z.lor (Z.shiftl (nth 2 bytes 0) 16)
  (Z.lor (Z.shiftl (nth 3 bytes 0) 24)
  (Z.lor (Z.shiftl (nth 4 bytes 0) 32)
  (Z.lor (Z.shiftl (nth 5 bytes 0) 40)
  (Z.lor (Z.shiftl (nth 6 bytes 0) 48)
         (Z.shiftl (nth 7 bytes 0) 56))))))).

Definition u8 (z : Z) : Z := z mod 2 ^ 8.

Definition llam_cap_write64_le (value : Z) : list Z :=
  [u8 value; u8 (Z.shiftr value 8); u8 (Z.shiftr value 16); u8 (Z.shiftr value 24);
   u8 (Z.shiftr value 32); u8 (Z.shiftr value 40); u8 (Z.shiftr value 48);
   u8 (Z.shiftr value 56)].

Definition llam_cap_rotl64 (value bits : Z) : Z :=
  Z.lor (u64 (Z.shiftl value bits)) (Z.shiftr value (64 - bits)).

Record siphash_state := Sip { v0 : Z; v1 : Z; v2 : Z; v3 : Z }.

Definition llam_cap_siphash_init (k0 k1 : Z) : siphash_state :=
  Sip (Z.lxor 0x736f6d6570736575 k0) (Z.lxor 0x646f72616e646f6d k1)
      (Z.lxor 0x6c7967656e657261 k0) (Z.lxor 0x7465646279746573 k1).

Definition llam_cap_sipround (s : siphash_state) : siphash_state :=
  let v0 := u64 (s.(v0) + s.(v1)) in
  let v1 := llam_cap_rotl64 s.(v1) 13 in
  let v1 := Z.lxor v1 v0 in
  let v0 := llam_cap_rotl64 v0 32 in
  let v2 := u64 (s.(v2) + s.(v3)) in
  let v3 := llam_cap_rotl64 s.(v3) 16 in
  let v3 := Z.lxor v3 v2 in
  let v0 := u64 (v0 + v3) in
  let v3 := llam_cap_rotl64 v3 21 in
  let v3 := Z.lxor v3 v0 in
  let v2 := u64 (v2 + v1) in
  let v1 := llam_cap_rotl64 v1 17 in
  let v1 := Z.lxor v1 v2 in
  let v2 := llam_cap_rotl64 v2 32 in
  Sip v0 v1 v2 v3.

Definition llam_cap_siphash_compress (s : siphash_state) (word : Z) : siphash_state :=
  let s := Sip s.(v0) s.(v1) s.(v2) (Z.lxor s.(v3) word) in
  let s := llam_cap_sipround s in
  let s := llam_cap_sipround s in
  Sip (Z.lxor s.(v0) word) s.(v1) s.(v2) s.(v3).

Definition llam_cap_siphash_compress_pair (p : siphash_state * siphash_state) (word : Z)
    : siphash_state * siphash_state :=
  (llam_cap_siphash_compress p.1 word, llam_cap_siphash_compress p.2 word).

Definition llam_cap_siphash_finish (s : siphash_state) : Z :=
  let s := llam_cap_siphash_compress s (u64 (Z.shiftl 72 56)) in
  let s := Sip s.(v0) s.(v1) (Z.lxor s.(v2) 0xff) s.(v3) in
  let s := Nat.iter 4 llam_cap_sipround s in
  Z.lxor (Z.lxor (Z.lxor s.(v0) s.(v1)) s.(v2)) s.(v3).

Definition llam_cap_mac (key : capability_key) (token : capability_token) : list Z :=
  let p := (llam_cap_siphash_init (key_word key 0) (key_word key 1),
            llam_cap_siphash_init (key_word key 2) (key_word key 3)) in
  let p := llam_cap_siphash_compress_pair p
             (Z.lor (u64 (Z.shiftl (tok_family token) 32)) (tok_version token)) in
  let p := llam_cap_siphash_compress_pair p (tok_runtime_id token) in
  let p := llam_cap_siphash_compress_pair p (tok_slot token) in
  let p := llam_cap_siphash_compress_pair p (tok_generation token) in
  let p := llam_cap_siphash_compress_pair p (tok_rights token) in
  let p := llam_cap_siphash_compress_pair p (tok_revocation_epoch token) in
  let p := llam_cap_siphash_compress_pair p (tok_subject_id token) in
  let p := llam_cap_siphash_compress_pair p (llam_cap_read64_le (tok_nonce token)) in
  let p := llam_cap_siphash_compress_pair p (llam_cap_read64_le (drop 8 (tok_nonce token))) in
  llam_cap_write64_le (llam_cap_siphash_finish p.1)
    ++ llam_cap_write64_le (llam_cap_siphash_finish p.2).

(** The comparison accumulates the differences of all sixteen bytes. *)
Definition llam_cap_mac_equal (a b : list Z) : bool :=
  foldl (λ diff i, u8 (Z.lor diff (u8 (Z.lxor (nth i a 0) (nth i b 0)))))
    0 (seq 0 LLAM_CAPABILITY_MAC_BYTES) =? 0.

(** ** Keys, nonces, tokens *)

Definition llam_cap_key_valid (key : option capability_key) : bool :=
  match key with
  | None => false
  | Some k =>
      negb (Z.lor (Z.lor (Z.lor (key_word k 0) (key_word k 1)) (key_word k 2)) (key_word k 3) =? 0)
  end.

Definition llam_cap_entropy_word : M (option Z) :=
  e ← llam_public_slot_entropy_from_os;
  match e with
  | Some word => mret (if word =? 0 then None else Some word)
  | None => mret None
  end.

Definition llam_cap_fill_nonce (token : capability_token) (key : capability_key)
    : M (Z * capability_token) :=
  n0 ← llam_cap_entropy_word;
  match n0 with
  | None => set_errno EIO ;; mret (-1, token)
  | Some n0 =>
      n1 ← llam_cap_entropy_word;
      match n1 with
      | None => set_errno EIO ;; mret (-1, token)
      | Some n1 =>
          f0 ← llam_public_slot_fallback_secret (Z.lxor (key_word key 0) (tok_runtime_id token));
          f1 ← llam_public_slot_fallback_secret (Z.lxor (key_word key 1) (tok_slot token));
          let n0 := Z.lxor n0 f0 in
          let n1 := Z.lxor n1 f1 in
          let n0 := Z.lxor n0 (llam_mix64 (Z.lxor (key_word key 2) (tok_generation token))) in
          let n1 := Z.lxor n1 (llam_mix64 (Z.lxor (key_word key 3) (tok_rights token))) in
          mret (0, tok_set_nonce (llam_cap_write64_le (llam_mix64 n0)
                                    ++ llam_cap_write64_le (llam_mix64 n1)) token)
      end
  end.

(** The words of a fresh key; the loop over [key->words] as a recursion on the
    number of words left. *)
Fixpoint key_words_init (n : nat) (i : Z) (seed : Z) (acc : list Z) : M (option (list Z)) :=
  match n with
  | O => mret (Some acc)
  | S n =>
      word ← llam_cap_entropy_word;
      match word with
      | None => mret None
      | Some word =>
          f ← llam_public_slot_fallback_secret (Z.lxor seed (u64 (Z.shiftl i 32)));
          let word := Z.lxor word f in
          let word := llam_mix64 (Z.lxor word (u64 (0x9e3779b97f4a7c15 * (i + 1)))) in
          key_words_init n (i + 1) seed (acc ++ [word])
      end
  end.

Definition llam_capability_key_clear (key : option capability_key) : option capability_key :=
  (λ _, replicate 4 0) <$> key.

Definition llam_capability_key_init (key : option capability_key) (seed : Z)
    : M (Z * option capability_key) :=
  match key with
  | None => set_errno EINVAL ;; mret (-1, None)
  | Some _ =>
      words ← key_words_init 4 0 seed [];
      match words with
      | None => set_errno EIO ;; mret (-1, llam_capability_key_clear key)
      | Some words =>
          if negb (llam_cap_key_valid (Some words))
          then set_errno EIO ;; mret (-1, Some words)
          else mret (0, Some words)
      end
  end.

Definition llam_capability_has_rights (token : option capability_token) (required_rights : Z)
    : bool :=
  match token with
  | None => false
  | Some t => has_bits (tok_rights t) required_rights
  end.

(** [out_token] is the caller's token: [None] is a NULL pointer, [Some old] its
    content before the call; the content after the call is returned. *)
Definition llam_capability_issue (key : option capability_key)
    (object : option capability_object) (rights : Z) (out_token : option capability_token)
    : M (Z * option capability_token) :=
  let out_token := (λ _, zero_token) <$> out_token in
  match key, object, out_token with
  | Some k, Some o, Some _ =>
      if negb (llam_cap_key_valid key)
         || (obj_runtime_id o =? 0) || (obj_family o =? 0)
         || (obj_slot o =? 0) || (obj_slot o =? UINT64_MAX)
         || (obj_generation o =? 0) || (obj_revocation_epoch o =? 0) || (rights =? 0)
      then set_errno EINVAL ;; mret (-1, out_token)
      else
        let t := CapToken LLAM_CAPABILITY_VERSION (obj_family o) (obj_runtime_id o)
                   (obj_slot o) (obj_generation o) rights (obj_revocation_epoch o)
                   (obj_subject_id o) (tok_nonce zero_token) (tok_mac zero_token) in
        '(rc, t) ← llam_cap_fill_nonce t k;
        if rc =? 0
        then mret (0, Some (tok_set_mac (llam_cap_mac k t) t))
        else mret (-1, Some zero_token)
  | _, _, _ => set_errno EINVAL ;; mret (-1, out_token)
  end.

Definition llam_capability_validate_subject (key : option capability_key)
    (token : option capability_token)
    (required_rights current_revocation_epoch expected_subject_id : Z) : M Z :=
  match key, token with
  | Some k, Some t =>
      if negb (llam_cap_key_valid key) || (required_rights =? 0) then fail EINVAL
      else if negb (tok_version t =? LLAM_CAPABILITY_VERSION)
              || (tok_family t =? 0) || (tok_runtime_id t =? 0)
              || (tok_slot t =? 0) || (tok_slot t =? UINT64_MAX)
              || (tok_generation t =? 0) || (tok_revocation_epoch t =? 0)
              || (tok_rights t =? 0)
      then fail EINVAL
      else if negb (tok_revocation_epoch t =? current_revocation_epoch)
              || negb (llam_capability_has_rights token required_rights)
      then fail EACCES
      else if negb (tok_subject_id t =? expected_subject_id) then fail EACCES
      else if negb (llam_cap_mac_equal (llam_cap_mac k t) (tok_mac t)) then fail EACCES
      else mret 0
  | _, _ => fail EINVAL
  end.

Definition llam_capability_validate (key : option capability_key)
    (token : option capability_token) (required_rights current_revocation_epoch : Z) : M Z :=
  llam_capability_validate_subject key token required_rights current_revocation_epoch 0.

Definition llam_capability_attenuate (key : option capability_key)
    (token : option capability_token) (subset_rights current_revocation_epoch : Z)
    (out_token : option capability_token) : M (Z * option capability_token) :=
  match out_token with
  | None => set_errno EINVAL ;; mret (-1, None)
  | Some _ =>
      let source := default zero_token token in
      let cleared := Some zero_token in
      if subset_rights =? 0 then set_errno EINVAL ;; mret (-1, cleared)
      else
        rc ← llam_capability_validate_subject key ((λ _, source) <$> token) subset_rights
               current_revocation_epoch
               (match token with Some _ => tok_subject_id source | None => 0 end);
        if negb (rc =? 0) then mret (-1, cleared)
        else if negb (has_bits (tok_rights source) subset_rights)
        then set_errno EACCES ;; mret (-1, cleared)
        else
          let object := CapObject (tok_runtime_id source) (tok_family source) (tok_slot source)
                          (tok_generation source) (tok_revocation_epoch source)
                          (tok_subject_id source) in
          '(rc, issued) ← llam_capability_issue key (Some object) subset_rights (Some zero_token);
          mret (rc, if rc =? 0 then issued else cleared)
  end.

Lemma u8_shiftr_bit x c j :
  0 <= c → Z.testbit (u8 (Z.shiftr x c)) j = (0 <=? j) && (j <? 8) && Z.testbit x (j + c).
Proof.
  intros. destruct (Z.leb_spec 0 j); cbn.
  - unfold u8. destruct (Z.ltb_spec j 8).
    + rewrite Z.mod_pow2_bits_low by lia. by rewrite Z.shiftr_spec.
    + by rewrite Z.mod_pow2_bits_high by lia.
  - by rewrite Z.testbit_neg_r.
Qed.

Lemma u64_high_bit x i : is_u64 x → 64 <= i → Z.testbit x i = false.
Proof.
  intros [] ?. rewrite <- (Z.mod_small x (2 ^ 64)) by done.
  by apply Z.mod_pow2_bits_high.
Qed.

Lemma read64_write64 x : is_u64 x → llam_cap_read64_le (llam_cap_write64_le x) = x.
Proof.
  intros Hx. apply Z.bits_inj'. intros i Hi.
  unfold llam_cap_read64_le, llam_cap_write64_le. cbn [nth].
  replace (u8 x) with (u8 (Z.shiftr x 0)) by (by rewrite Z.shiftr_0_r).
  rewrite !Z.lor_spec, !Z.shiftl_spec, !u8_shiftr_bit by lia.
  destruct (Z.ltb_spec i 64) as [|Hi']; [|rewrite (u64_high_bit x i) by done];
  repeat match goal with
  | |- context [Z.testbit x (i - ?k + ?k)] => replace (i - k + k) with i by lia
  | |- context [Z.testbit x (i + 0)] => replace (i + 0) with i by lia
  end;
  repeat match goal with
  | |- context [?a <=? ?b] => destruct (Z.leb_spec a b); try lia
  | |- context [?a <? ?b] => destruct (Z.ltb_spec a b); try lia
  end; cbn; rewrite ?orb_false_r, ?andb_false_r; try done.
  all: destruct (Z.testbit x i); done.
Qed.

(** ** The MAC is SipHash-2-4 of the serialized token *)

(** The round and the hash as the SipHash paper writes them, on any message. *)
Definition sip_round (s : siphash_state) : siphash_state :=
  let a := u64 (s.(v0) + s.(v1)) in
  let c := u64 (s.(v2) + s.(v3)) in
  let b := Z.lxor (llam_cap_rotl64 s.(v1) 13) a in
  let d := Z.lxor (llam_cap_rotl64 s.(v3) 16) c in
  let a := llam_cap_rotl64 a 32 in
  let c := u64 (c + b) in
  let a := u64 (a + d) in
  let b := Z.lxor (llam_cap_rotl64 b 17) c in
  let d := Z.lxor (llam_cap_rotl64 d 21) a in
  Sip a b (llam_cap_rotl64 c 32) d.

Definition sip_absorb (s : siphash_state) (m : Z) : siphash_state :=
  let s := Nat.iter 2 sip_round (Sip s.(v0) s.(v1) s.(v2) (Z.lxor s.(v3) m)) in
  Sip (Z.lxor s.(v0) m) s.(v1) s.(v2) s.(v3).

Definition siphash24 (k0 k1 : Z) (msg : list Z) : Z :=
  let words := (length msg / 8)%nat in
  let s := foldl sip_absorb (llam_cap_siphash_init k0 k1)
             (map (λ i, llam_cap_read64_le (take 8 (drop (8 * i)%nat msg))) (seq 0 words)) in
  let last := Z.lor (u64 (Z.shiftl (Z.of_nat (length msg)) 56))
                (llam_cap_read64_le (drop (8 * words)%nat msg)) in
  let s := sip_absorb s last in
  let s := Nat.iter 4 sip_round (Sip s.(v0) s.(v1) (Z.lxor s.(v2) 0xff) s.(v3)) in
  Z.lxor (Z.lxor (Z.lxor s.(v0) s.(v1)) s.(v2)) s.(v3).

(** The test vector of the SipHash paper (appendix A). *)
Example siphash24_vector :
  siphash24 0x0706050403020100 0x0f0e0d0c0b0a0908 (Z.of_nat <$> seq 0 15)
  = 0xa129ca6149be45e5.
Proof. vm_compute. reflexivity. Qed.

Definition le32 (v : Z) : list Z :=
  [u8 v; u8 (Z.shiftr v 8); u8 (Z.shiftr v 16); u8 (Z.shiftr v 24)].

(** The 72 bytes of the token before its MAC, in declaration order. *)
Definition token_bytes (t : capability_token) : list Z :=
  le32 (tok_version t) ++ le32 (tok_family t)
    ++ llam_cap_write64_le (tok_runtime_id t) ++ llam_cap_write64_le (tok_slot t)
    ++ llam_cap_write64_le (tok_generation t) ++ llam_cap_write64_le (tok_rights t)
    ++ llam_cap_write64_le (tok_revocation_epoch t)
    ++ llam_cap_write64_le (tok_subject_id t) ++ tok_nonce t.

Definition is_byte (z : Z) : Prop := 0 <= z < 2 ^ 8.

(** The fields of a token are within their C types. *)
Record token_wf (t : capability_token) : Prop := {
  twf_version : is_u32 (tok_version t);
  twf_family : is_u32 (tok_family t);
  twf_runtime_id : is_u64 (tok_runtime_id t);
  twf_slot : is_u64 (tok_slot t);
  twf_generation : is_u64 (tok_generation t);
  twf_rights : is_u64 (tok_rights t);
  twf_epoch : is_u64 (tok_revocation_epoch t);
  twf_subject : is_u64 (tok_subject_id t);
  twf_nonce : length (tok_nonce t) = LLAM_CAPABILITY_NONCE_BYTES;
  twf_nonce_bytes : Forall is_byte (tok_nonce t);
  twf_mac : length (tok_mac t) = LLAM_CAPABILITY_MAC_BYTES;
  twf_mac_bytes : Forall is_byte (tok_mac t);
}.

Lemma le32_pair_read lo hi :
  is_u32 lo → is_u32 hi →
  llam_cap_read64_le (le32 lo ++ le32 hi) = Z.lor (u64 (Z.shiftl hi 32)) lo.
Proof.
  intros Hlo Hhi.
  assert (∀ x i, is_u32 x → 32 <= i → Z.testbit x i = false) as H32.
  { intros x i [] ?. rewrite <- (Z.mod_small x (2 ^ 32)) by done.
    by apply Z.mod_pow2_bits_high. }
  apply Z.bits_inj'. intros i Hi. unfold llam_cap_read64_le, le32. cbn [nth app].
  replace (u8 lo) with (u8 (Z.shiftr lo 0)) by (by rewrite Z.shiftr_0_r).
  replace (u8 hi) with (u8 (Z.shiftr hi 0)) by (by rewrite Z.shiftr_0_r).
  rewrite !Z.lor_spec, !Z.shiftl_spec, !u8_shiftr_bit by lia. unfold u64.
  destruct (Z.ltb_spec i 64) as [|Hi'].
  - rewrite Z.mod_pow2_bits_low, Z.shiftl_spec by lia.
    destruct (Z.ltb_spec i 32).
    + rewrite (Z.testbit_neg_r hi (i - 32)) by lia.
      repeat match goal with
      | |- context [Z.testbit lo (i - ?k + ?k)] => replace (i - k + k) with i by lia
      | |- context [?a <=? ?b] => destruct (Z.leb_spec a b); try lia
      | |- context [?a <? ?b] => destruct (Z.ltb_spec a b); try lia
      end; rewrite ?Z.add_0_r; cbn; by destruct (Z.testbit lo i).
    + rewrite (H32 lo i) by (done || lia).
      repeat match goal with
      | |- context [Z.testbit hi (i - ?k + ?c)] =>
          replace (i - k + c) with (i - 32) by lia
      | |- context [?a <=? ?b] => destruct (Z.leb_spec a b); try lia
      | |- context [?a <? ?b] => destruct (Z.ltb_spec a b); try lia
      end; rewrite ?Z.add_0_r; cbn; by destruct (Z.testbit hi (i - 32)).
  - rewrite Z.mod_pow2_bits_high, (H32 lo i) by (done || lia).
    repeat match goal with
    | |- context [?a <? ?b] => destruct (Z.ltb_spec a b); try lia
    end; by rewrite ?andb_false_r.
Qed.

Lemma sipround_eq : llam_cap_sipround = sip_round.
Proof. reflexivity. Qed.

Lemma compress_eq : llam_cap_siphash_compress = sip_absorb.
Proof. unfold llam_cap_siphash_compress. by rewrite sipround_eq. Qed.

(** The nine canonical words the MAC absorbs. *)
Definition token_words (t : capability_token) : list Z :=
  [Z.lor (u64 (Z.shiftl (tok_family t) 32)) (tok_version t);
   tok_runtime_id t; tok_slot t; tok_generation t; tok_rights t;
   tok_revocation_epoch t; tok_subject_id t;
   llam_cap_read64_le (tok_nonce t); llam_cap_read64_le (drop 8 (tok_nonce t))].

Lemma token_bytes_words t :
  token_wf t →
  map (λ i, llam_cap_read64_le (take 8 (drop (8 * i)%nat (token_bytes t)))) (seq 0 9)
  = token_words t.
Proof.
  intros [? ? ? ? ? ? ? ? Hn _ _ _]. unfold token_words.
  rewrite <- le32_pair_read by done.
  destruct (tok_nonce t) as [|n0 [|n1 [|n2 [|n3 [|n4 [|n5 [|n6 [|n7 [|n8 [|n9
    [|n10 [|n11 [|n12 [|n13 [|n14 [|n15 [|]]]]]]]]]]]]]]]]] eqn:E; try done.
  rewrite <- (read64_write64 (tok_runtime_id t)) by done.
  rewrite <- (read64_write64 (tok_slot t)) by done.
  rewrite <- (read64_write64 (tok_generation t)) by done.
  rewrite <- (read64_write64 (tok_rights t)) by done.
  rewrite <- (read64_write64 (tok_revocation_epoch t)) by done.
  rewrite <- (read64_write64 (tok_subject_id t)) by done.
  unfold token_bytes. rewrite E. reflexivity.
Qed.

Lemma token_bytes_length t :
  length (tok_nonce t) = LLAM_CAPABILITY_NONCE_BYTES → length (token_bytes t) = 72%nat.
Proof. intros H. unfold token_bytes. rewrite !length_app, H. reflexivity. Qed.

(** C35: the MAC of a token is the concatenation of SipHash-2-4 of its 72
    serialized bytes under the first and under the second half of the key. *)
Theorem llam_cap_mac_is_siphash k t :
  token_wf t →
  llam_cap_mac k t
  = llam_cap_write64_le (siphash24 (key_word k 0) (key_word k 1) (token_bytes t))
    ++ llam_cap_write64_le (siphash24 (key_word k 2) (key_word k 3) (token_bytes t)).
Proof.
  intros Hwf. pose proof (token_bytes_length t (twf_nonce t Hwf)) as L.
  unfold siphash24. rewrite L. change (72 / 8)%nat with 9%nat.
  rewrite (token_bytes_words t Hwf).
  rewrite drop_ge by (rewrite L; simpl; lia).
  change (Z.lor (u64 (Z.shiftl (Z.of_nat 72) 56)) (llam_cap_read64_le []))
    with (u64 (Z.shiftl 72 56)).
  unfold llam_cap_mac, llam_cap_siphash_compress_pair, llam_cap_siphash_finish, token_words.
  cbn [fst snd foldl]. by rewrite compress_eq, sipround_eq.
Qed.

Lemma llam_cap_mac_is_siphash_witness :
  llam_cap_mac [1; 2; 3; 4] zero_token
  = llam_cap_write64_le (siphash24 1 2 (token_bytes zero_token))
    ++ llam_cap_write64_le (siphash24 3 4 (token_bytes zero_token)).
Proof.
  apply (llam_cap_mac_is_siphash [1; 2; 3; 4] zero_token).
  split; try reflexivity; try (split; [done|reflexivity]);
    apply Forall_replicate; split; done.
Defined.

Lemma u8_range z : is_byte (u8 z).
Proof. apply Z.mod_pos_bound. lia. Qed.

Lemma u8_small z : is_byte z → u8 z = z.
Proof. intros. by apply Z.mod_small. Qed.

Lemma lor_byte a b : is_byte a → is_byte b → is_byte (Z.lor a b).
Proof.
  intros [Ha Ha'] [Hb Hb']. split; [by apply Z.lor_nonneg|].
  destruct (decide (Z.lor a b = 0)) as [->|]; [lia|].
  assert (0 <= Z.lor a b) by (by apply Z.lor_nonneg).
  apply Z.log2_lt_pow2; [lia|]. rewrite Z.log2_lor by done.
  assert (∀ c, 0 <= c < 2 ^ 8 → Z.log2 c < 8) as L.
  { intros c Hc. destruct (decide (c = 0)) as [->|]; [simpl; lia|].
    apply Z.log2_lt_pow2; lia. }
  pose proof (L a); pose proof (L b). lia.
Qed.

Lemma mac_fold_zero a b ids d :
  Forall is_byte a → Forall is_byte b → is_byte d →
  foldl (λ diff i, u8 (Z.lor diff (u8 (Z.lxor (nth i a 0) (nth i b 0))))) d ids = 0
  ↔ d = 0 ∧ ∀ i, i ∈ ids → nth i a 0 = nth i b 0.
Proof.
  intros Ha Hb. revert d. induction ids as [|i ids IH]; intros d Hd; cbn.
  { split; [|by intros []]. intros ->. split; [done|]. intros i Hi. by apply elem_of_nil in Hi. }
  assert (∀ l j, Forall is_byte l → is_byte (nth j l 0)) as Hnth.
  { intros l j Hl. destruct (nth_in_or_default j l 0) as [Hin| ->]; [|done].
    by apply (proj1 (List.Forall_forall _ _) Hl). }
  rewrite IH by apply u8_range.
  rewrite (u8_small (Z.lor _ _)) by (apply lor_byte; [done|apply u8_range]).
  rewrite (u8_small (Z.lxor _ _)) by (apply (lxor_range 8); [lia|by apply Hnth..]).
  rewrite Z.lor_eq_0_iff, Z.lxor_eq_0_iff.
  split.
  - intros [[Hd0 Hi] Hr]. split; [done|]. intros j [-> |Hj]%elem_of_cons; auto.
  - intros [Hd0 Hr]. split; [split; [done|]; apply Hr; by left|].
    intros j Hj. apply Hr. by right.
Qed.

(** The constant-time comparison decides equality of two MACs. *)
Lemma llam_cap_mac_equal_spec a b :
  Forall is_byte a → Forall is_byte b →
  length a = LLAM_CAPABILITY_MAC_BYTES → length b = LLAM_CAPABILITY_MAC_BYTES →
  llam_cap_mac_equal a b = true ↔ a = b.
Proof.
  intros Ha Hb La Lb. unfold llam_cap_mac_equal. rewrite Z.eqb_eq.
  rewrite mac_fold_zero by done. split.
  - intros [_ H]. apply (nth_ext _ _ 0 0); [congruence|]. intros n Hn.
    apply H. apply elem_of_seq. lia.
  - intros ->. done.
Qed.

Lemma llam_cap_mac_equal_refl a : Forall is_byte a → llam_cap_mac_equal a a = true.
Proof. intros. apply Z.eqb_eq. rewrite mac_fold_zero by done. done. Qed.

Lemma write64_bytes x : Forall is_byte (llam_cap_write64_le x).
Proof. repeat constructor; apply u8_range. Qed.

Lemma llam_cap_mac_bytes k t : Forall is_byte (llam_cap_mac k t).
Proof. apply Forall_app; split; apply write64_bytes. Qed.

(** ** What an acceptable token is *)

#[global] Opaque llam_cap_mac.


(** [t] authorizes [required] at revocation epoch [epoch] for audience
    [subject] under key [k]. *)
Record cap_valid (k : capability_key) (t : capability_token)
    (required epoch subject : Z) : Prop := {
  cv_key : llam_cap_key_valid (Some k) = true;
  cv_required : required ≠ 0;
  cv_version : tok_version t = LLAM_CAPABILITY_VERSION;
  cv_family : tok_family t ≠ 0;
  cv_runtime_id : tok_runtime_id t ≠ 0;
  cv_slot : tok_slot t ≠ 0;
  cv_slot_max : tok_slot t ≠ UINT64_MAX;
  cv_generation : tok_generation t ≠ 0;
  cv_epoch_nonzero : tok_revocation_epoch t ≠ 0;
  cv_rights_nonzero : tok_rights t ≠ 0;
  cv_epoch : tok_revocation_epoch t = epoch;
  cv_rights : has_bits (tok_rights t) required = true;
  cv_subject : tok_subject_id t = subject;
  cv_mac : llam_cap_mac_equal (llam_cap_mac k t) (tok_mac t) = true;
}.

(** Operations that touch nothing but errno and the environment. *)
Definition same_core (w w' : world) : Prop :=
  w_broker w' = w_broker w ∧ w_rings w' = w_rings w ∧ w_tls w' = w_tls w.

#[export] Instance same_core_preorder : PreOrder same_core.
Proof.
  split; [done|]. intros x y z (A&B&C) (D&E&F). split_and!; congruence.
Qed.

Lemma same_core_errno e w : same_core w (set_w_errno e w).
Proof. done. Qed.

Lemma pres_set_errno e : pres same_core (set_errno e).
Proof. by intros w. Qed.

Lemma pres_pop {A} (tape : os → list A) set_tape dflt :
  pres same_core (pop tape set_tape dflt).
Proof. intros w. unfold pop. by destruct (tape (w_os w)). Qed.

#[export] Hint Resolve same_core_errno pres_set_errno pres_pop : llam.

Lemma validate_subject_cases key token required epoch subject w :
  let r := llam_capability_validate_subject key token required epoch subject w in
  (r = (0, w) ∧ ∃ k t, key = Some k ∧ token = Some t ∧ cap_valid k t required epoch subject)
  ∨ ∃ e, r = (-1, set_w_errno e w) ∧ (e = EINVAL ∨ e = EACCES).
Proof.
  cbn. unfold llam_capability_validate_subject.
  destruct key as [k|], token as [t|]; [|right; eexists; split; [done|by auto]..].
  repeat (case_match; [right; eexists; split; [done|by auto]|]).
  left. split; [done|]. exists k, t. bools. by split.
Qed.

Lemma validate_subject_complete k t required epoch subject w :
  cap_valid k t required epoch subject →
  llam_capability_validate_subject (Some k) (Some t) required epoch subject w = (0, w).
Proof.
  intros []. unfold llam_capability_validate_subject.
  rewrite cv_key0, cv_version0, cv_epoch0, cv_subject0, cv_mac0. cbn [negb orb].
  unfold llam_capability_has_rights. rewrite cv_rights0.
  rewrite !Z.eqb_refl. cbn.
  repeat match goal with H : ?a ≠ ?b |- context [?a =? ?b] =>
    rewrite (proj2 (Z.eqb_neq a b) H) end.
  rewrite <- cv_epoch0 in *. 
  repeat match goal with H : ?a ≠ ?b |- context [?a =? ?b] =>
    rewrite (proj2 (Z.eqb_neq a b) H) end. done.
Qed.

(** ** Minting *)

Lemma pres_entropy_from_os : pres same_core llam_public_slot_entropy_from_os.
Proof.
  apply pres_bind; [apply _|auto with llam|]. intros [|]; auto with llam typeclass_instances.
Qed.

Lemma pres_fallback_secret s : pres same_core (llam_public_slot_fallback_secret s).
Proof. apply pres_bind; [apply _|auto with llam|]. intros; apply pres_ret, _. Qed.

Lemma pres_entropy_word : pres same_core llam_cap_entropy_word.
Proof.
  apply pres_bind; [apply _|apply pres_entropy_from_os|].
  intros [|]; apply pres_ret, _.
Qed.

(** Run a monadic prefix whose effect is within [same_core]. *)
Ltac step_core H :=
  mon;
  let w := fresh "w" in let a := fresh "a" in let E := fresh "E" in
  match type of (H : pres same_core _) with
  | pres _ ?m =>
    match goal with
    | |- context [m ?s] =>
      pose proof (H s : same_core s (m s).2);
      destruct (m s) as [a w] eqn:E; mon
    end
  end.

(** Chain the [same_core] facts of the context. *)
Ltac core := mon; unfold same_core in *; mon; destruct_and?; split_and?; congruence.

Lemma fill_nonce_cases t k w :
  let r := llam_cap_fill_nonce t k w in
  same_core w r.2 ∧
  ((∃ n, r.1 = (0, tok_set_nonce n t)) ∨ (r.1 = (-1, t) ∧ w_errno r.2 = EIO)).
Proof.
  cbn zeta. unfold llam_cap_fill_nonce.
  step_core pres_entropy_word. destruct a as [n0|]; [|split; [core|by right]].
  step_core pres_entropy_word. destruct a as [n1|]; [|split; [core|by right]].
  step_core (pres_fallback_secret (Z.lxor (key_word k 0) (tok_runtime_id t))).
  step_core (pres_fallback_secret (Z.lxor (key_word k 1) (tok_slot t))).
  split; [core|left; by eexists].
Qed.

(** [t] is a token for object [o] with rights [rights] under [k]: it names the
    object and every nonzero part of [rights] validates. *)
Record token_for (k : capability_key) (o : capability_object) (rights : Z)
    (t : capability_token) : Prop := {
  tf_family : tok_family t = obj_family o;
  tf_runtime_id : tok_runtime_id t = obj_runtime_id o;
  tf_slot : tok_slot t = obj_slot o;
  tf_generation : tok_generation t = obj_generation o;
  tf_rights : tok_rights t = rights;
  tf_epoch : tok_revocation_epoch t = obj_revocation_epoch o;
  tf_subject : tok_subject_id t = obj_subject_id o;
  tf_valid : ∀ required, required ≠ 0 → has_bits rights required = true →
    cap_valid k t required (obj_revocation_epoch o) (obj_subject_id o);
}.

Lemma issue_cases key object rights out w :
  let r := llam_capability_issue key object rights out w in
  same_core w r.2 ∧
  ((∃ k o t, key = Some k ∧ object = Some o ∧ is_Some out ∧
     r.1 = (0, Some t) ∧ token_for k o rights t)
   ∨ (r.1 = (-1, (λ _, zero_token) <$> out) ∧
      (w_errno r.2 = EINVAL ∨ w_errno r.2 = EIO))).
Proof.
  cbn zeta. unfold llam_capability_issue.
  destruct key as [k|]; [|split; [core|right; by auto]].
  destruct object as [o|]; [|split; [core|right; by auto]].
  destruct out as [old|]; [|split; [core|right; by auto]]. cbn [fmap option_fmap option_map].
  case_match; [split; [core|right; by auto]|].
  match goal with |- context [llam_cap_fill_nonce ?t k] =>
    destruct (fill_nonce_cases t k w) as [Hc [[n Hn]|[Hn He]]] end;
  mon; match goal with |- context [llam_cap_fill_nonce ?t k w] =>
    destruct (llam_cap_fill_nonce t k w) as [r1 w1] end;
  cbn [fst snd] in *; subst r1; mon.
  - split; [done|]. left. eexists k, o, _. split_and!; [done..|].
    bools. split; try done. intros req Hreq Hbits. split; try done; cbn.
    apply llam_cap_mac_equal_refl, llam_cap_mac_bytes.
  - split; [done|]. right. auto.
Qed.

(** Issuing succeeds whenever its inputs are valid and the OS has entropy. *)
Lemma issue_total k o rights old w n0 n1 rest :
  llam_cap_key_valid (Some k) = true →
  obj_runtime_id o ≠ 0 → obj_family o ≠ 0 → obj_slot o ≠ 0 → obj_slot o ≠ UINT64_MAX →
  obj_generation o ≠ 0 → obj_revocation_epoch o ≠ 0 → rights ≠ 0 →
  os_entropy (w_os w) = Some n0 :: Some n1 :: rest → n0 ≠ 0 → n1 ≠ 0 →
  (llam_capability_issue (Some k) (Some o) rights (Some old) w).1.1 = 0.
Proof.
  intros Hk H1 H2 H3 H4 H5 H6 H7 He Hn0 Hn1. unfold llam_capability_issue. mon. rewrite Hk.
  rewrite !(proj2 (Z.eqb_neq _ _)) by done. mon.
  unfold llam_cap_fill_nonce, llam_cap_entropy_word, llam_public_slot_entropy_from_os. mon.
  unfold pop at 1. rewrite He. mon. rewrite ?(proj2 (Z.eqb_neq n0 0) Hn0). mon.
  rewrite ?(proj2 (Z.eqb_neq n0 0) Hn0). mon.
  unfold pop at 1. cbn [w_os set_w_os os_entropy set_os_entropy]. mon.
  rewrite ?(proj2 (Z.eqb_neq n1 0) Hn1). mon. rewrite ?(proj2 (Z.eqb_neq n1 0) Hn1). mon.
  match goal with |- context [llam_public_slot_fallback_secret ?s ?w] =>
    destruct (llam_public_slot_fallback_secret s w) as [f0 w1] end. mon.
  match goal with |- context [llam_public_slot_fallback_secret ?s ?w] =>
    destruct (llam_public_slot_fallback_secret s w) as [f1 w2] end. by mon.
Qed.

(** The object a token names. *)
Definition token_object (t : capability_token) : capability_object :=
  CapObject (tok_runtime_id t) (tok_family t) (tok_slot t) (tok_generation t)
    (tok_revocation_epoch t) (tok_subject_id t).

Lemma attenuate_cases key token subset epoch out w :
  let r := llam_capability_attenuate key token subset epoch out w in
  same_core w r.2 ∧
  ((∃ k t t', key = Some k ∧ token = Some t ∧ is_Some out ∧ r.1 = (0, Some t') ∧
     cap_valid k t subset epoch (tok_subject_id t) ∧
     token_for k (token_object t) subset t')
   ∨ (r.1 = (-1, (λ _, zero_token) <$> out) ∧ w_errno r.2 ∈ [EINVAL; EACCES; EIO])).
Proof.
  cbn zeta. unfold llam_capability_attenuate.
  destruct out as [old|]; [|split; [core|right; split; [done|set_solver]]].
  case_match; [split; [core|right; split; [done|set_solver]]|].
  match goal with |- context [llam_capability_validate_subject ?k ?t ?s ?e ?u] =>
    destruct (validate_subject_cases k t s e u w) as [[Hv (k'&t'&->&Ht&Hok)]|(e'&Hv&He)] end;
  mon; rewrite Hv; mon.
  2: { split; [core|]. right. split; [done|]. cbn. rewrite !elem_of_cons. destruct He as [-> | ->]; auto. }
  destruct token as [t|]; [|done]. injection Ht as <-. mon.
  rewrite (cv_rights _ _ _ _ _ Hok). mon.
  match goal with |- context [llam_capability_issue ?k ?o ?s ?u w] =>
    destruct (issue_cases k o s u w) as [Hc [(k1&o1&t1&[= <-]&[= <-]&_&H1&Hf)|[H1 He]]];
    mon; destruct (llam_capability_issue k o s u w) as [r1 w1] end; mon; subst r1; mon.
  - split; [done|]. left. by exists k', t, t1.
  - split; [done|]. right. split; [done|]. rewrite !elem_of_cons. destruct He; auto.
Qed.

(** Validation decides exactly the documented token condition: it returns 0
    iff both pointers are non-NULL and every field check, the epoch, the rights,
    the audience and the MAC of [cap_valid] hold; otherwise it returns -1 with
    EINVAL or EACCES, and in both cases no state but errno changes. *)
Theorem llam_capability_validate_decides key token required epoch subject w :
  let r := llam_capability_validate_subject key token required epoch subject w in
  (r.1 = 0 ↔ ∃ k t, key = Some k ∧ token = Some t ∧ cap_valid k t required epoch subject)
  ∧ (r.1 = 0 → r.2 = w)
  ∧ (r.1 ≠ 0 → r.1 = -1 ∧ ∃ e, r.2 = set_w_errno e w ∧ (e = EINVAL ∨ e = EACCES)).
Proof.
  cbn zeta. destruct (validate_subject_cases key token required epoch subject w)
    as [[-> Hok]|(e&Hr&He)].
  - split_and!; [split; done|done|done].
  - rewrite Hr. split_and!; [|done|split; [done|by exists e]]. split; [done|].
    intros (k&t&->&->&Hv). apply (validate_subject_complete _ _ _ _ _ w) in Hv.
    rewrite Hv in Hr. done.
Qed.

(** C36: Issue then validate round trip.  Issuing either fails with the output
    zeroed and EINVAL or EIO, or writes a token that names the object and that
    every later validation at the object's epoch and subject accepts for each
    nonzero part of the issued rights, and for nothing beyond them. *)
Theorem llam_capability_issue_validates key object rights old w :
  let '(rc, out, w') := llam_capability_issue key object rights (Some old) w in
  same_core w w' ∧
  ((rc = -1 ∧ out = Some zero_token ∧ (w_errno w' = EINVAL ∨ w_errno w' = EIO))
   ∨ ∃ o t, rc = 0 ∧ object = Some o ∧ out = Some t ∧ token_object t = o ∧
       ∀ required wv,
         (llam_capability_validate_subject key out required
            (obj_revocation_epoch o) (obj_subject_id o) wv).1 = 0
         ↔ required ≠ 0 ∧ has_bits rights required = true).
Proof.
  destruct (issue_cases key object rights (Some old) w) as [Hc Hr].
  destruct (llam_capability_issue key object rights (Some old) w) as [[rc out] w']. mon.
  split; [done|]. destruct Hr as [(k&o&t&->&->&_&[= -> ->]&Hf)|([= -> ->]&He)]; [right|left; done].
  exists o, t. split_and!; [done..|destruct o, Hf; unfold token_object; cbn in *; congruence|].
  intros req wv. split.
  - destruct (validate_subject_cases (Some k) (Some t) req (obj_revocation_epoch o)
      (obj_subject_id o) wv) as [[-> (?&?&[= <-]&[= <-]&Hv)]|(e&->&_)]; [|done].
    intros _. split; [apply Hv|]. rewrite <- (tf_rights _ _ _ _ Hf). apply Hv.
  - intros [H0 Hb]. by rewrite (validate_subject_complete k t) by (apply Hf; done).
Qed.

(** Attenuation never amplifies.  On success the source token validated
    for the requested subset, and the new token names the same object, epoch and
    audience with exactly the subset, a part of the source's rights; on failure
    the output is all zeros, so broad authority never survives in place. *)
Theorem llam_capability_attenuate_sound key token subset epoch old w :
  let '(rc, out, w') := llam_capability_attenuate key token subset epoch (Some old) w in
  same_core w w' ∧
  ((rc = -1 ∧ out = Some zero_token ∧ w_errno w' ∈ [EINVAL; EACCES; EIO])
   ∨ ∃ k t t', rc = 0 ∧ key = Some k ∧ token = Some t ∧ out = Some t' ∧
       cap_valid k t subset epoch (tok_subject_id t) ∧
       token_object t' = token_object t ∧ tok_rights t' = subset ∧
       has_bits (tok_rights t) (tok_rights t') = true ∧
       cap_valid k t' subset epoch (tok_subject_id t)).
Proof.
  destruct (attenuate_cases key token subset epoch (Some old) w) as [Hc Hr].
  destruct (llam_capability_attenuate key token subset epoch (Some old) w) as [[rc out] w'].
  mon. split; [done|].
  destruct Hr as [(k&t&t'&->&->&_&[= -> ->]&Hv&Hf)|([= -> ->]&He)]; [right|left; done].
  exists k, t, t'. pose proof Hf as [F1 F2 F3 F4 F5 F6 F7 F8]; cbn in *.
  destruct (Hv) as [].
  split_and!; [done..|unfold token_object; congruence|done| |].
  - by rewrite F5.
  - rewrite <- cv_epoch0. apply F8; [done|apply has_bits_refl].
Qed.
