(* ===== verification/BrokerOps.v ===== *)
(** * Broker operation frames ([src/core/broker/broker_ops.c])

    The broker lock, the thread-local table of operation frames with its
    subject stack, and the [active_ops] pin that [begin_op]/[end_op] maintain.

    - [llam_broker_tls_enter_op] and [llam_broker_tls_leave_op] transform the
      calling thread's table [w_tls];
    - [tls_wf] is the table invariant: eight entries, one per broker, a NULL
      broker exactly at depth 0, and a zeroed subject stack above the depth;
    - a successful [begin_op_subject] followed by [end_op] restores the table
      and the pin count; the effective subject inside is the requested one or,
      for bearer operations, the outer frame's;
    - [Conc] interleaves begin and end steps of any number of threads and shows
      that [active_ops] counts exactly the open frames, so the broker can be
      idle only when no thread is inside an operation. *)

From S2P Require Import Prelude World Capability.

(** ** Access to the broker *)

(** The structure whose bytes are all zero, at address 0.  Reads through
    [the_broker] happen after the NULL test; it is what they would see on a NULL
    pointer, so that they are total. *)
Definition zero_broker : broker :=
  Broker 0 None (replicate 4 0) 0
    (replicate LLAM_BROKER_BUFFER_SLOTS zero_buffer_slot)
    (replicate LLAM_BROKER_DESCRIPTOR_SLOTS zero_descriptor_slot) None
    (replicate LLAM_BROKER_TASK_SLOTS zero_task_slot)
    (replicate LLAM_BROKER_RING_SESSIONS zero_ring_session)
    (replicate LLAM_BROKER_TRANSPORT_SESSIONS zero_transport_session)
    0 0 0 0 0 0 0 false false false false.

Definition the_broker : M broker := gets (λ w, default zero_broker (w_broker w)).

(** [if (broker == NULL) null else nonnull]; the branch gets the structure. *)
Definition on_broker {A} (null : M A) (nonnull : broker → M A) : M A :=
  λ w, match w_broker w with
       | None => null w
       | Some b => nonnull b w
       end.

Definition is_null {A} (p : option A) : bool := match p with None => true | Some _ => false end.

Definition tls_at (i : nat) (ops : list tls_op) : tls_op := nth i ops zero_tls_op.

(** ** The thread-local table *)

Fixpoint tls_has_op (addr : Z) (ops : list tls_op) : bool :=
  match ops with
  | [] => false
  | e :: ops => ((tls_broker e =? addr) && (0 <? tls_depth e)) || tls_has_op addr ops
  end.

Definition llam_broker_current_thread_has_op : M bool :=
  on_broker (mret false) (λ b,
    ops ← gets w_tls; mret (tls_has_op (b_addr b) ops)).

(** The scan of [enter_op]: the index of the broker's entry, or the first entry
    with a NULL broker. *)
Inductive tls_slot := TlsFound (i : nat) | TlsEmpty (i : nat) | TlsFull.

Fixpoint tls_scan (addr : Z) (i : nat) (first_empty : option nat) (ops : list tls_op) : tls_slot :=
  match ops with
  | [] => match first_empty with Some j => TlsEmpty j | None => TlsFull end
  | e :: ops =>
      if tls_broker e =? addr then TlsFound i
      else tls_scan addr (S i)
             (match first_empty with
              | None => if tls_broker e =? 0 then Some i else None
              | Some _ => first_empty
              end) ops
  end.

Definition tls_top (e : tls_op) : Z := nth (Z.to_nat (tls_depth e - 1)) (tls_subject_stack e) 0.

Definition llam_broker_tls_enter_op (subject_id : Z) : M Z :=
  on_broker (fail EINVAL) (λ b,
    ops ← gets w_tls;
    match tls_scan (b_addr b) 0 None ops with
    | TlsFound i =>
        let e := tls_at i ops in
        if Z.of_nat LLAM_BROKER_TLS_OP_DEPTH <=? tls_depth e then fail EOVERFLOW
        else
          let current_subject := if 0 <? tls_depth e then tls_top e else 0 in
          if negb (subject_id =? 0) && negb (current_subject =? 0)
             && negb (current_subject =? subject_id)
          then fail EACCES
          else
            let effective_subject := if negb (subject_id =? 0) then subject_id else current_subject in
            modify (set_w_tls (<[i := TlsOp (tls_broker e) (tls_depth e + 1)
                        (<[Z.to_nat (tls_depth e) := effective_subject]> (tls_subject_stack e))]> ops)) ;;
            mret 0
    | TlsEmpty i =>
        let e := tls_at i ops in
        modify (set_w_tls (<[i := TlsOp (b_addr b) 1 (<[0%nat := subject_id]> (tls_subject_stack e))]> ops)) ;;
        mret 0
    | TlsFull => fail EOVERFLOW
    end).

(** The first entry of the broker with an open frame. *)
Fixpoint tls_find_open (addr : Z) (i : nat) (ops : list tls_op) : option nat :=
  match ops with
  | [] => None
  | e :: ops =>
      if (tls_broker e =? addr) && (0 <? tls_depth e) then Some i
      else tls_find_open addr (S i) ops
  end.

Definition tls_pop_frame (e : tls_op) : tls_op :=
  let depth := tls_depth e - 1 in
  TlsOp (if depth =? 0 then 0 else tls_broker e) depth
    (<[Z.to_nat depth := 0]> (tls_subject_stack e)).

Definition llam_broker_tls_leave_op : M bool :=
  on_broker (mret false) (λ b,
    ops ← gets w_tls;
    match tls_find_open (b_addr b) 0 ops with
    | Some i => modify (set_w_tls (<[i := tls_pop_frame (tls_at i ops)]> ops)) ;; mret true
    | None => mret false
    end).

Definition current_subject_of (addr : Z) (ops : list tls_op) : Z :=
  match tls_find_open addr 0 ops with
  | Some i => tls_top (tls_at i ops)
  | None => 0
  end.

Definition llam_broker_current_subject : M Z :=
  on_broker (mret 0) (λ b,
    ops ← gets w_tls; mret (current_subject_of (b_addr b) ops)).

(** ** The lock and the operation pin *)

(** Mutual exclusion is the granularity of the model: the code between a
    successful [llam_broker_lock] and [llam_broker_unlock] is one atomic step. *)
Definition llam_broker_lock : M Z :=
  on_broker (fail EINVAL) (λ b,
    if negb (b_lock_initialized b) then fail EINVAL
    else
      rc ← pop os_mutex_lock set_os_mutex_lock 0;
      if negb (rc =? 0) then fail rc else mret 0).

Definition llam_broker_unlock : M unit := mret tt.

Definition llam_broker_begin_op_subject (subject_id : Z) : M Z :=
  rc ← llam_broker_lock;
  if negb (rc =? 0) then mret (-1)
  else
    nested ← llam_broker_current_thread_has_op;
    b ← the_broker;
    if negb (b_initialized b) || is_null (b_runtime b)
       || (b_destroying b && negb (nested : bool))
    then llam_broker_unlock ;; fail EINVAL
    else if LLAM_BROKER_ACTIVE_OP_BUSY_SENTINEL - 1 <=? b_active_ops b
    then llam_broker_unlock ;; fail EBUSY
    else
      rc ← llam_broker_tls_enter_op subject_id;
      if negb (rc =? 0) then llam_broker_unlock ;; mret (-1)
      else
        upd_broker (λ b, set_b_active_ops (b_active_ops b + 1) b) ;;
        llam_broker_unlock ;;
        mret 0.

Definition llam_broker_begin_op : M Z := llam_broker_begin_op_subject 0.

Definition llam_broker_end_op : M unit :=
  rc ← llam_broker_lock;
  if negb (rc =? 0) then mret tt
  else
    owned ← llam_broker_tls_leave_op;
    if negb (owned : bool) then llam_broker_unlock
    else
      b ← the_broker;
      (if LLAM_BROKER_ACTIVE_OP_BUSY_SENTINEL <=? b_active_ops b then mret tt
       else if 0 <? b_active_ops b
       then upd_broker (λ b, set_b_active_ops (b_active_ops b - 1) b)
       else mret tt) ;;
      b ← the_broker;
      (if b_destroying b && (b_active_ops b =? 0) && b_idle_cond_initialized b
       then log EvBroadcast else mret tt) ;;
      llam_broker_unlock.

(** The frame every public broker operation has: [begin_op], the lock, the body
    under the lock, the unlock and [end_op].  [on_fail] runs when one of the first
    two steps fails, with the errno of the failure; the body returns the action
    that runs after [end_op], such as setting errno and returning. *)
Definition with_op {A} (on_fail : Z → M A) (body : M (M A)) : M A :=
  rc ← llam_broker_begin_op;
  if negb (rc =? 0) then e ← get_errno; on_fail e
  else
    rc ← llam_broker_lock;
    if negb (rc =? 0) then e ← get_errno; llam_broker_end_op ;; on_fail e
    else
      k ← body;
      llam_broker_unlock ;;
      llam_broker_end_op ;;
      k.

Global Arguments the_broker _ /.
Global Arguments llam_broker_unlock _ /.

Ltac mon ::=
  cbn [Z.eqb Pos.eqb negb orb andb fmap option_fmap option_map from_option id
       mbind st_bind mret st_ret gets modify set_errno get_errno fail log upd_broker fst snd
       the_broker llam_broker_unlock is_null
       w_broker w_rings w_tls w_errno w_os
       set_w_broker set_w_rings set_w_tls set_w_errno set_w_os] in *.

(** ** The table as a stack of subjects per broker *)

(** A table entry: a NULL broker exactly at depth 0, zeros above the depth. *)
Record entry_wf (e : tls_op) : Prop := {
  ew_stack : length (tls_subject_stack e) = LLAM_BROKER_TLS_OP_DEPTH;
  ew_depth : 0 <= tls_depth e <= Z.of_nat LLAM_BROKER_TLS_OP_DEPTH;
  ew_null : tls_broker e = 0 ↔ tls_depth e = 0;
}.

Record tls_wf (ops : list tls_op) : Prop := {
  tw_length : length ops = LLAM_BROKER_TLS_OP_DEPTH;
  tw_entry : ∀ i e, ops !! i = Some e → entry_wf e;
  tw_unique : ∀ i j e e', ops !! i = Some e → ops !! j = Some e' →
    tls_broker e = tls_broker e' → tls_broker e ≠ 0 → i = j;
}.

(** The open frames of broker [addr], outermost first: the effective subject of
    each.  This is the specification of the table. *)
Definition frames (addr : Z) (ops : list tls_op) : list Z :=
  match tls_find_open addr 0 ops with
  | Some i => take (Z.to_nat (tls_depth (tls_at i ops))) (tls_subject_stack (tls_at i ops))
  | None => []
  end.

Global Arguments frames : simpl never.

Lemma tls_at_lookup ops i e : ops !! i = Some e → tls_at i ops = e.
Proof. intros. unfold tls_at. apply nth_lookup_Some. done. Qed.

Lemma find_open_inv a ops i j :
  tls_find_open a i ops = Some j →
  ∃ k e, j = (i + k)%nat ∧ ops !! k = Some e ∧ tls_broker e = a ∧ 0 < tls_depth e.
Proof.
  revert i. induction ops as [|e ops IH]; intros i; cbn [tls_find_open]; [done|].
  case_match eqn:E.
  - intros [= <-]. bools. exists 0%nat, e. cbn. split_and!; [lia|done..].
  - intros (k&e'&->&?&?&?)%IH. exists (S k), e'. cbn. split_and!; [lia|done..].
Qed.

Lemma find_open_none a ops i :
  (∀ k e, ops !! k = Some e → tls_broker e ≠ a) → tls_find_open a i ops = None.
Proof.
  intros H. destruct (tls_find_open a i ops) as [j|] eqn:E; [|done].
  apply find_open_inv in E as (k&e&->&Hk&Ha&_). by destruct (H k e).
Qed.

Lemma find_open_some a ops k e :
  tls_wf ops → a ≠ 0 → ops !! k = Some e → tls_broker e = a →
  tls_find_open a 0 ops = Some k.
Proof.
  intros Hwf Ha Hk He.
  assert (∀ ops' i e', ops' !! i = Some e' → tls_broker e' = a → 0 < tls_depth e' →
    ∀ n, tls_find_open a n ops' ≠ None) as Hex.
  { induction ops' as [|x ops' IH]; intros [|i] e' Hi Hb Hd n; cbn in *; [done|done| |].
    - injection Hi as ->. rewrite Hb, Z.eqb_refl, (proj2 (Z.ltb_lt _ _) Hd). done.
    - case_match; [done|eauto]. }
  destruct (tls_find_open a 0 ops) as [j|] eqn:E.
  - apply find_open_inv in E as (k'&e'&->&Hk'&Ha'&_). cbn. f_equal.
    eapply (tw_unique _ Hwf k' k); eauto; congruence.
  - exfalso. pose proof (tw_entry _ Hwf _ _ Hk) as [_ Hd Hn].
    eapply Hex; [exact Hk|done| |exact E]. destruct (decide (tls_depth e = 0)); [|lia].
    exfalso. apply Ha. rewrite <- He. by apply Hn.
Qed.

Lemma frames_some a ops k e :
  tls_wf ops → a ≠ 0 → ops !! k = Some e → tls_broker e = a →
  frames a ops = take (Z.to_nat (tls_depth e)) (tls_subject_stack e).
Proof.
  intros. unfold frames. erewrite find_open_some by done. by rewrite (tls_at_lookup _ _ e).
Qed.

Lemma frames_none a ops :
  (∀ k e, ops !! k = Some e → tls_broker e ≠ a) → frames a ops = [].
Proof. intros. unfold frames. by rewrite find_open_none. Qed.

Lemma frames_cases a ops :
  tls_wf ops → a ≠ 0 →
  (∃ k e, ops !! k = Some e ∧ tls_broker e = a ∧ 0 < tls_depth e)
  ∨ (∀ k e, ops !! k = Some e → tls_broker e ≠ a).
Proof.
  intros Hwf Ha. destruct (tls_find_open a 0 ops) as [j|] eqn:E.
  - left. apply find_open_inv in E as (k&e&->&?&?&?). eauto.
  - right. intros k e Hk He. by rewrite (find_open_some a ops k e) in E.
Qed.

(** Replacing entry [k], of broker [x] or free, by one of the same broker or
    free, leaves the frames of other brokers alone. *)
Lemma frames_insert_other a x ops k e e' :
  tls_wf ops → tls_wf (<[k := e']> ops) → a ≠ 0 → a ≠ x → ops !! k = Some e →
  (tls_broker e = x ∨ tls_broker e = 0) → (tls_broker e' = x ∨ tls_broker e' = 0) →
  frames a (<[k := e']> ops) = frames a ops.
Proof.
  intros Hwf Hwf' Ha Hx Hk He He'.
  destruct (frames_cases a ops Hwf Ha) as [(j&f&Hj&Hf&_)|Hn].
  - rewrite (frames_some a ops j f) by done. apply (frames_some _ _ j); try done.
    rewrite list_lookup_insert_ne; [done|]. intros ->. rewrite Hk in Hj. naive_solver.
  - rewrite (frames_none a ops) by done. apply frames_none. intros j f.
    rewrite list_lookup_insert_Some. intros [(<-&<-&_)|[? ?]]; [naive_solver|eauto].
Qed.

Lemma tls_wf_insert ops k e :
  tls_wf ops → entry_wf e →
  (∀ j e', ops !! j = Some e' → j ≠ k → tls_broker e ≠ 0 → tls_broker e' ≠ tls_broker e) →
  tls_wf (<[k := e]> ops).
Proof.
  intros [L E U] He Hu. split; [by rewrite length_insert| |].
  - intros i f. rewrite list_lookup_insert_Some. intros [(_&<-&_)|[_ ?]]; eauto.
  - intros i j f g. rewrite !list_lookup_insert_Some.
    intros [(<-&<-&_)|[? Hf]] [(<-&<-&_)|[? Hg]] Hb Hn; [done|..]; try naive_solver.
    exfalso. eapply (Hu i f); [done|done|congruence|done].
Qed.

(** ** The scan *)

Lemma tls_scan_spec a ops i fe :
  match tls_scan a i fe ops with
  | TlsFound j => ∃ k e, j = (i + k)%nat ∧ ops !! k = Some e ∧ tls_broker e = a
  | TlsEmpty j => (∀ k e, ops !! k = Some e → tls_broker e ≠ a) ∧
      (fe = Some j ∨ fe = None ∧ ∃ k e, j = (i + k)%nat ∧ ops !! k = Some e ∧ tls_broker e = 0)
  | TlsFull => ∀ k e, ops !! k = Some e → tls_broker e ≠ a
  end.
Proof.
  revert i fe. induction ops as [|x ops IH]; intros i fe; cbn [tls_scan].
  - destruct fe; [split; [done|by left]|done].
  - destruct (Z.eqb_spec (tls_broker x) a) as [Hx|Hx].
    { exists 0%nat, x. cbn. split_and!; [lia|done..]. }
    specialize (IH (S i) (match fe with None => if tls_broker x =? 0 then Some i else None
                        | Some _ => fe end)).
    case_match.
    + destruct IH as (k&e&->&?&?). exists (S k), e. cbn. split_and!; [lia|done..].
    + destruct IH as [Hn Hf]. split.
      { intros [|k] e; cbn; [by intros [= <-]|apply Hn]. }
      destruct fe as [f|]; [naive_solver|]. right. split; [done|].
      destruct (Z.eqb_spec (tls_broker x) 0) as [H0|H0].
      * destruct Hf as [[= ->]|[? _]]; [|done]. exists 0%nat, x. cbn. split_and!; [lia|done..].
      * destruct Hf as [?|(_&k&e&->&?&?)]; [done|]. exists (S k), e. cbn. split_and!; [lia|done..].
    + intros [|k] e; cbn; [by intros [= <-]|apply IH].
Qed.

Definition subject_of (fs : list Z) : Z := default 0 (last fs).

Lemma take_last_nth (l : list Z) (n : nat) :
  (0 < n)%nat → (n <= length l)%nat → last (take n l) = Some (nth (n - 1) l 0).
Proof.
  intros. rewrite last_lookup, length_take, Nat.min_l by lia.
  rewrite lookup_take_lt by lia. replace (Nat.pred n) with (n - 1)%nat by lia.
  destruct (lookup_lt_is_Some_2 l (n - 1)) as [x Hx]; [lia|]. rewrite Hx.
  f_equal. symmetry. by apply nth_lookup_Some.
Qed.

Lemma current_subject_frames a ops :
  tls_wf ops → a ≠ 0 → current_subject_of a ops = subject_of (frames a ops).
Proof.
  intros Hwf Ha. unfold current_subject_of, frames.
  destruct (tls_find_open a 0 ops) as [j|] eqn:E; [|done].
  apply find_open_inv in E as (k&e&->&Hk&_&Hd). cbn [Nat.add]. rewrite (tls_at_lookup _ _ _ Hk).
  pose proof (tw_entry _ Hwf _ _ Hk) as [Hl Hb _].
  unfold subject_of. rewrite take_last_nth by (rewrite ?Hl; lia). cbn. unfold tls_top.
  f_equal. lia.
Qed.

Lemma has_op_frames a ops :
  tls_wf ops → a ≠ 0 → tls_has_op a ops = negb (bool_decide (frames a ops = [])).
Proof.
  intros Hwf Ha.
  assert (∀ n ops, tls_has_op a ops = negb (is_null (tls_find_open a n ops))) as H.
  { intros n ops'. revert n. induction ops' as [|e ops' IH]; intros n; cbn [tls_has_op tls_find_open]; [done|].
    case_match; [done|]. apply IH. }
  rewrite (H 0%nat). unfold frames. destruct (tls_find_open a 0 ops) as [j|] eqn:E; [|done].
  apply find_open_inv in E as (k&e&->&Hk&_&Hd). cbn [Nat.add]. rewrite (tls_at_lookup _ _ _ Hk).
  pose proof (tw_entry _ Hwf _ _ Hk) as [Hl Hb _]. cbn. symmetry. apply negb_true_iff.
  apply bool_decide_eq_false. intros E%(f_equal length). rewrite length_take, Hl in E.
  unfold LLAM_BROKER_TLS_OP_DEPTH in *. cbn in E. lia.
Qed.

(** What [enter_op] does to the frames of its broker. *)
Record entered (a subj : Z) (ops ops' : list tls_op) : Prop := {
  en_wf : tls_wf ops';
  en_frames : frames a ops' = frames a ops
    ++ [if subj =? 0 then subject_of (frames a ops) else subj];
  en_other : ∀ a', a' ≠ 0 → a' ≠ a → frames a' ops' = frames a' ops;
  en_compatible : subj = 0 ∨ subject_of (frames a ops) = 0 ∨ subject_of (frames a ops) = subj;
}.

Lemma take_insert_snoc (l : list Z) n x :
  (n < length l)%nat → take (S n) (<[n := x]> l) = take n l ++ [x].
Proof.
  intros. rewrite (take_S_r _ _ x) by (apply list_lookup_insert_eq; lia).
  by rewrite take_insert_ge by lia.
Qed.

Lemma enter_spec subj w b :
  w_broker w = Some b → b_addr b ≠ 0 → tls_wf (w_tls w) →
  (∃ ops', llam_broker_tls_enter_op subj w = (0, set_w_tls ops' w) ∧
     entered (b_addr b) subj (w_tls w) ops')
  ∨ ∃ e, llam_broker_tls_enter_op subj w = (-1, set_w_errno e w).
Proof.
  intros Hb Ha Hwf. unfold llam_broker_tls_enter_op, on_broker. rewrite Hb. mon.
  set (a := b_addr b) in *. pose proof (tls_scan_spec a (w_tls w) 0 None) as Hs.
  destruct (tls_scan a 0 None (w_tls w)) as [j|j|]; [| |right; by eexists].
  - destruct Hs as (k&e&->&Hk&He). cbn [Nat.add]. rewrite (tls_at_lookup _ _ _ Hk).
    pose proof (tw_entry _ Hwf _ _ Hk) as [Hl Hd Hn].
    case_match; [right; by eexists|]. bools.
    assert (0 < tls_depth e) by (destruct (decide (tls_depth e = 0)); [exfalso; apply Ha; rewrite <- He; by apply Hn|lia]).
    rewrite (proj2 (Z.ltb_lt 0 _)) by done.
    pose proof (frames_some a _ _ _ Hwf Ha Hk He) as Hf.
    assert (tls_top e = subject_of (frames a (w_tls w))) as Ht.
    { rewrite Hf. unfold subject_of. rewrite take_last_nth by (rewrite ?Hl; lia).
      unfold tls_top. cbn. f_equal. lia. }
    rewrite Ht. case_match eqn:Hcompat; [right; by eexists|]. left. eexists. split; [done|].
    set (ef := if negb (subj =? 0) then _ else _).
    assert (tls_wf (<[k:=TlsOp (tls_broker e) (tls_depth e + 1)
      (<[Z.to_nat (tls_depth e):=ef]> (tls_subject_stack e))]> (w_tls w))) as Hwf'.
    { apply tls_wf_insert; [done| |].
      - split; cbn; [by rewrite length_insert|lia|]. rewrite He. split; [done|lia].
      - intros j e' Hj Hjk Hn0 Heq. apply Hjk. eapply (tw_unique _ Hwf); eauto. congruence. }
    split; [done| | |].
    + erewrite frames_some; [|done|done|apply list_lookup_insert_eq; by eapply lookup_lt_Some|done].
      cbn. rewrite Hf. replace (Z.to_nat (tls_depth e + 1)) with (S (Z.to_nat (tls_depth e))) by lia.
      rewrite take_insert_snoc by (rewrite Hl; lia). rewrite <- Hf. unfold ef. by destruct (subj =? 0).
    + intros a' Ha' Hne. eapply (frames_insert_other _ a); eauto.
    + destruct (Z.eqb_spec subj 0); [by left|right].
      destruct (Z.eqb_spec (subject_of (frames a (w_tls w))) 0); [by left|right].
      by destruct (Z.eqb_spec (subject_of (frames a (w_tls w))) subj).
  - destruct Hs as [Hn [?|(_&k&e&->&Hk&He)]]; [done|]. cbn [Nat.add].
    rewrite (tls_at_lookup _ _ _ Hk). left. eexists. split; [done|].
    pose proof (tw_entry _ Hwf _ _ Hk) as [Hl Hd Hz].
    assert (tls_wf (<[k:=TlsOp a 1 (<[0%nat:=subj]> (tls_subject_stack e))]> (w_tls w))) as Hwf'.
    { apply tls_wf_insert; [done| |].
      - split; cbn; [by rewrite length_insert|unfold LLAM_BROKER_TLS_OP_DEPTH; lia|]. split; [done|lia].
      - intros j e' Hj Hjk Hn0. cbn. eauto. }
    split; [done| | |right; left; by rewrite frames_none].
    + erewrite frames_some; [|done|done|apply list_lookup_insert_eq; by eapply lookup_lt_Some|done].
      rewrite (frames_none a (w_tls w)) by done.
      cbn [tls_depth tls_subject_stack]. change (Z.to_nat 1) with 1%nat.
      rewrite take_insert_snoc by (rewrite Hl; unfold LLAM_BROKER_TLS_OP_DEPTH; lia).
      cbn. by destruct (Z.eqb_spec subj 0) as [->|].
    + intros a' Ha' Hne. eapply (frames_insert_other _ a); eauto.
Qed.

Record left_frame (a : Z) (ops ops' : list tls_op) : Prop := {
  lf_wf : tls_wf ops';
  lf_frames : ∃ s, frames a ops = frames a ops' ++ [s];
  lf_other : ∀ a', a' ≠ 0 → a' ≠ a → frames a' ops' = frames a' ops;
}.

Lemma take_pred_insert (l : list Z) n x :
  (n < length l)%nat → take n (<[n := x]> l) = take n l.
Proof. intros. by rewrite take_insert_ge by lia. Qed.

Lemma leave_spec w b :
  w_broker w = Some b → b_addr b ≠ 0 → tls_wf (w_tls w) →
  (frames (b_addr b) (w_tls w) = [] ∧ llam_broker_tls_leave_op w = (false, w))
  ∨ ∃ ops', llam_broker_tls_leave_op w = (true, set_w_tls ops' w) ∧
      left_frame (b_addr b) (w_tls w) ops'.
Proof.
  intros Hb Ha Hwf. unfold llam_broker_tls_leave_op, on_broker. rewrite Hb. mon.
  set (a := b_addr b) in *.
  destruct (frames_cases a _ Hwf Ha) as [(k&e&Hk&He&Hd)|Hn].
  2: { left. by rewrite frames_none, find_open_none. }
  right. rewrite (find_open_some a _ k e) by done. rewrite (tls_at_lookup _ _ _ Hk).
  eexists. split; [done|]. pose proof (tw_entry _ Hwf _ _ Hk) as [Hl Hb' Hn].
  assert (tls_wf (<[k := tls_pop_frame e]> (w_tls w))) as Hwf'.
  { apply tls_wf_insert; [done| |].
    - unfold tls_pop_frame. split; cbn; [by rewrite length_insert|lia|].
      destruct (Z.eqb_spec (tls_depth e - 1) 0); [lia|]. rewrite He. split; [done|lia].
    - intros j e' Hj Hjk. cbn. destruct (tls_depth e - 1 =? 0); [done|]. intros Hn0 Heq.
      apply Hjk. eapply (tw_unique _ Hwf); eauto. congruence. }
  assert (tls_broker (tls_pop_frame e) = a ∨ tls_broker (tls_pop_frame e) = 0) as Hp.
  { cbn. destruct (_ =? 0); [by right|by left]. }
  split; [done| |].
  - rewrite (frames_some a (w_tls w) k e) by done.
    replace (Z.to_nat (tls_depth e)) with (S (Z.to_nat (tls_depth e - 1))) by lia.
    destruct (lookup_lt_is_Some_2 (tls_subject_stack e) (Z.to_nat (tls_depth e - 1))) as [x Hx];
      [rewrite Hl; lia|].
    exists x. rewrite (take_S_r _ _ _ Hx). f_equal.
    destruct (Z.eqb_spec (tls_depth e - 1) 0) as [E|E].
    + rewrite E. cbn. rewrite frames_none; [done|]. intros j f.
      rewrite list_lookup_insert_Some. intros [(_&<-&_)|[Hj Hf]] Hfa.
      * unfold tls_pop_frame in Hfa. cbn in Hfa. rewrite E in Hfa. cbn in Hfa. lia.
      * apply Hj. eapply (tw_unique _ Hwf); eauto; congruence.
    + erewrite frames_some; [|done|done|apply list_lookup_insert_eq; by eapply lookup_lt_Some|].
      * cbn. by rewrite take_pred_insert by (rewrite Hl; lia).
      * cbn. apply Z.eqb_neq in E. by rewrite E.
  - intros a' Ha' Hne. eapply (frames_insert_other _ a); eauto.
Qed.

(** ** The lock and the pin *)

Lemma lock_cases w :
  same_core w (llam_broker_lock w).2 ∧
  ((llam_broker_lock w).1 = -1 ∨
   (llam_broker_lock w).1 = 0 ∧ ∃ b, w_broker w = Some b ∧ b_lock_initialized b = true).
Proof.
  unfold llam_broker_lock, on_broker. destruct (w_broker w) as [b|] eqn:Hb; [|split; [core|by left]].
  destruct (b_lock_initialized b) eqn:Hl; [|split; [core|by left]].
  step_core (pres_pop os_mutex_lock set_os_mutex_lock 0). destruct (Z.eqb_spec a 0).
  - split; [core|]. right. split; [done|]. by exists b.
  - split; [core|]. by left.
Qed.

Lemma lock_free w b :
  w_broker w = Some b → b_lock_initialized b = true → os_mutex_lock (w_os w) = [] →
  llam_broker_lock w = (0, w).
Proof. intros Hb Hl Ht. unfold llam_broker_lock, on_broker. rewrite Hb, Hl. mon. unfold pop. by rewrite Ht. Qed.

Lemma begin_spec subj w b :
  w_broker w = Some b → b_addr b ≠ 0 → tls_wf (w_tls w) →
  let r := llam_broker_begin_op_subject subj w in
  (r.1 = -1 ∧ same_core w r.2)
  ∨ (r.1 = 0 ∧ w_rings r.2 = w_rings w
     ∧ w_broker r.2 = Some (set_b_active_ops (b_active_ops b + 1) b)
     ∧ entered (b_addr b) subj (w_tls w) (w_tls r.2)
     ∧ b_initialized b = true ∧ is_Some (b_runtime b)
     ∧ b_active_ops b < LLAM_BROKER_ACTIVE_OP_BUSY_SENTINEL - 1
     ∧ (b_destroying b = true → frames (b_addr b) (w_tls w) ≠ [])).
Proof.
  intros Hb Ha Hwf. cbn zeta. unfold llam_broker_begin_op_subject.
  destruct (lock_cases w) as [Hc Hl]. mon.
  destruct (llam_broker_lock w) as [rc w1] eqn:E1. mon. destruct Hc as (C1&C2&C3).
  destruct Hl as [->|[-> _]]; mon; [by left|].
  unfold llam_broker_current_thread_has_op, on_broker, the_broker.
  rewrite <- C1 in Hb. rewrite Hb. mon. rewrite Hb. mon.
  rewrite <- C3 in Hwf.
  case_match eqn:G1; mon; [by left|]. case_match eqn:G2; mon; [by left|].
  destruct (enter_spec subj w1 b Hb Ha Hwf) as [(ops'&->&Hen)|(e&->)]; mon; [|by left].
  right. rewrite Hb, <- C3. mon. bools. split_and!; try done.
  - destruct (b_runtime b); [by eexists|done].
  - intros Hd. rewrite Hd in *. mon. bools. rewrite has_op_frames in * by done. by bools.
Qed.

(** Releasing one pin, as [end_op] counts it. *)
Definition unpinned (n : Z) : Z :=
  if LLAM_BROKER_ACTIVE_OP_BUSY_SENTINEL <=? n then n else if 0 <? n then n - 1 else n.

Lemma end_spec w b :
  w_broker w = Some b → b_addr b ≠ 0 → tls_wf (w_tls w) →
  let w' := (llam_broker_end_op w).2 in
  w_rings w' = w_rings w ∧
  (w_broker w' = w_broker w ∧ w_tls w' = w_tls w
     ∧ (b_lock_initialized b = true → os_mutex_lock (w_os w) = [] →
        frames (b_addr b) (w_tls w) = [])
   ∨ w_broker w' = Some (set_b_active_ops (unpinned (b_active_ops b)) b)
     ∧ left_frame (b_addr b) (w_tls w) (w_tls w')).
Proof.
  intros Hb Ha Hwf. cbn zeta. unfold llam_broker_end_op.
  destruct (lock_cases w) as [Hc Hl]. mon.
  destruct (llam_broker_lock w) as [rc w1] eqn:E1. mon. destruct Hc as (C1&C2&C3).
  destruct Hl as [->|[-> _]]; mon.
  { split; [done|]. left. split_and!; [done..|]. intros Hi Hf.
    by rewrite (lock_free w b) in E1. }
  rewrite <- C1 in Hb. rewrite <- C3 in Hwf.
  destruct (leave_spec w1 b Hb Ha Hwf) as [[Hf ->]|(ops'&->&Hlf)]; mon.
  { split; [done|]. left. by rewrite C3 in Hf. }
  unfold the_broker. mon. rewrite Hb. mon. rewrite <- C3.
  set (n := b_active_ops b) in *.
  destruct (LLAM_BROKER_ACTIVE_OP_BUSY_SENTINEL <=? n) eqn:G1; [|destruct (0 <? n) eqn:G2];
  mon; rewrite ?Hb; mon; branch; mon; (split; [done|right; split; [|done]]);
  rewrite ?Hb; unfold unpinned; rewrite G1, ?G2; try done; destruct b; done.
Qed.

(** ** What the frame of an operation leaves alone *)

(** Equality of the broker up to its pin count, and of the rings. *)
Definition same_objs (w w' : world) : Prop :=
  set_b_active_ops 0 <$> w_broker w' = set_b_active_ops 0 <$> w_broker w
  ∧ w_rings w' = w_rings w.

#[export] Instance same_objs_preorder : PreOrder same_objs.
Proof. split; [done|]. intros x y z [A B] [D E]. split; congruence. Qed.

Lemma same_core_objs w w' : same_core w w' → same_objs w w'.
Proof. intros (A&B&_). split; congruence. Qed.

Lemma pres_objs_core {A} (m : M A) : pres same_core m → pres same_objs m.
Proof. intros H w. apply same_core_objs, H. Qed.

Lemma pres_objs_lock : pres same_objs llam_broker_lock.
Proof. apply pres_objs_core. intros w. apply lock_cases. Qed.

Lemma pres_on_broker {A} (R : world → world → Prop) (m : M A) k :
  pres R m → (∀ b, pres R (k b)) → pres R (on_broker m k).
Proof. intros Hm Hk w. unfold on_broker. destruct (w_broker w); [apply Hk|apply Hm]. Qed.

Lemma objs_set_tls ops w : same_objs w (set_w_tls ops w).
Proof. done. Qed.

Lemma objs_errno e w : same_objs w (set_w_errno e w).
Proof. done. Qed.

Lemma objs_active f w :
  same_objs w (set_w_broker ((λ b, set_b_active_ops (f b) b) <$> w_broker w) w).
Proof. split; [|done]. cbn. by destruct (w_broker w). Qed.

Lemma pres_objs_begin subj : pres same_objs (llam_broker_begin_op_subject subj).
Proof.
  apply pres_bind; [apply _|apply pres_objs_lock|]. intros rc.
  apply pres_if; [apply pres_ret, _|]. apply pres_bind; [apply _| |].
  { apply pres_on_broker; [by apply pres_ret, _|]. intros b. by intros w. }
  intros nested. apply pres_bind; [apply _|apply pres_gets, _|]. intros b.
  apply pres_if; [by intros w|]. apply pres_if; [by intros w|].
  apply pres_bind; [apply _| |].
  - apply pres_on_broker; [by intros w|]. intros b'. apply pres_bind; [apply _|by intros w|].
    intros ops. case_match; [|by intros w|by intros w].
    apply pres_if; [by intros w|]. apply pres_if; by intros w.
  - intros rc'. apply pres_if; [by intros w|]. intros w. mon. apply objs_active.
Qed.

Lemma pres_objs_end : pres same_objs llam_broker_end_op.
Proof.
  apply pres_bind; [apply _|apply pres_objs_lock|]. intros rc.
  apply pres_if; [apply pres_ret, _|]. apply pres_bind; [apply _| |].
  - apply pres_on_broker; [by intros w|]. intros b. apply pres_bind; [apply _|by intros w|].
    intros ops. case_match; by intros w.
  - intros owned. apply pres_if; [by intros w|].
    apply pres_bind; [apply _|by intros w|]. intros b. apply pres_bind; [apply _| |].
    + apply pres_if; [by intros w|]. apply pres_if; [|by intros w]. intros w. apply objs_active.
    + intros _. apply pres_bind; [apply _|by intros w|]. intros b'. 
      apply pres_bind; [apply _| |by intros ? w]. apply pres_if; by intros w.
Qed.

(** ** The frame of a whole operation *)

Definition world_ok (w : world) : Prop :=
  tls_wf (w_tls w) ∧ ∀ b, w_broker w = Some b → b_addr b ≠ 0.

(** The subject the calling thread acts for. *)
Definition cur_subject (w : world) : Z :=
  match w_broker w with
  | Some b => current_subject_of (b_addr b) (w_tls w)
  | None => 0
  end.

Lemma current_subject_run w : llam_broker_current_subject w = (cur_subject w, w).
Proof. unfold llam_broker_current_subject, on_broker, cur_subject. by destruct (w_broker w). Qed.

Lemma cur_subject_frames w b :
  world_ok w → w_broker w = Some b → cur_subject w = subject_of (frames (b_addr b) (w_tls w)).
Proof.
  intros [Hwf Ha] Hb. unfold cur_subject. rewrite Hb. by apply current_subject_frames, Ha.
Qed.

Lemma subject_of_extend fs n : subject_of (fs ++ replicate n (subject_of fs)) = subject_of fs.
Proof.
  destruct n as [|n]; [by rewrite app_nil_r|].
  rewrite replicate_S_end, app_assoc. unfold subject_of at 1. by rewrite last_snoc.
Qed.

(** Operations that at most leave behind frames of the subject already in
    force (which [end_op] does when the lock fails). *)
Definition keeps (w w' : world) : Prop :=
  b_addr <$> w_broker w' = b_addr <$> w_broker w ∧
  (world_ok w → world_ok w' ∧ ∀ b, w_broker w = Some b →
     ∃ n, frames (b_addr b) (w_tls w')
          = frames (b_addr b) (w_tls w) ++ replicate n (subject_of (frames (b_addr b) (w_tls w)))).

#[export] Instance keeps_preorder : PreOrder keeps.
Proof.
  split.
  - intros w. split; [done|]. intros Hok. split; [done|]. intros b _. exists 0%nat. by rewrite app_nil_r.
  - intros x y z [A1 B1] [A2 B2]. split; [congruence|]. intros Hx.
    destruct (B1 Hx) as [Hy F1]. destruct (B2 Hy) as [Hz F2]. split; [done|]. intros b Hb.
    rewrite Hb in A1. destruct (w_broker y) as [b'|] eqn:E; [|done]. injection A1 as A1.
    destruct (F1 b Hb) as [n1 E1]. destruct (F2 b' eq_refl) as [n2 E2]. rewrite A1 in E2.
    rewrite E1 in E2. rewrite subject_of_extend in E2. exists (n1 + n2)%nat.
    by rewrite E2, replicate_add, app_assoc.
Qed.

Lemma keeps_subject w w' : world_ok w → keeps w w' → cur_subject w' = cur_subject w.
Proof.
  intros Hok [Ha Hk]. destruct (Hk Hok) as [Hok' Hf].
  destruct (w_broker w) as [b|] eqn:Hb, (w_broker w') as [b'|] eqn:Hb'; try done.
  - injection Ha as Ha. destruct (Hf b eq_refl) as [n Hn].
    rewrite (cur_subject_frames _ _ Hok' Hb'), (cur_subject_frames _ _ Hok Hb), Ha, Hn.
    apply subject_of_extend.
  - unfold cur_subject. by rewrite Hb, Hb'.
Qed.

Lemma same_thread_keeps w w' :
  w_tls w' = w_tls w → b_addr <$> w_broker w' = b_addr <$> w_broker w → keeps w w'.
Proof.
  intros Ht Ha. split; [done|]. intros [Hwf Hok]. split.
  - split; [by rewrite Ht|]. intros b' Hb'. rewrite Hb' in Ha.
    destruct (w_broker w) as [b|] eqn:E; [|done]. injection Ha as ->. by apply Hok.
  - intros b _. exists 0%nat. by rewrite Ht, app_nil_r.
Qed.

Lemma same_core_keeps w w' : same_core w w' → keeps w w'.
Proof. intros (A&_&C). apply same_thread_keeps; congruence. Qed.

(** A broker that accepts operations. *)
Record live_broker (b : broker) : Prop := {
  lb_initialized : b_initialized b = true;
  lb_runtime : is_Some (b_runtime b);
  lb_lock : b_lock_initialized b = true;
}.

Lemma keeps_end w w1 w2 b :
  world_ok w → w_broker w = Some b →
  b_addr <$> w_broker w1 = Some (b_addr b) →
  entered (b_addr b) 0 (w_tls w) (w_tls w1) → keeps w1 w2 →
  keeps w (llam_broker_end_op w2).2.
Proof.
  intros Hok Hb Ha1 Hen [Ha2 Hk].
  assert (world_ok w1) as Hok1.
  { split; [apply Hen|]. intros b1 Hb1. rewrite Hb1 in Ha1. injection Ha1 as ->. by apply Hok. }
  destruct (Hk Hok1) as [Hok2 Hf2].
  destruct (w_broker w1) as [b1|] eqn:Hb1; [|done]. injection Ha1 as Ha1.
  destruct (w_broker w2) as [b2|] eqn:Hb2; [|done]. injection Ha2 as Ha2.
  destruct (Hf2 b1 eq_refl) as [n Hn]. rewrite Ha1, (en_frames _ _ _ _ Hen) in Hn. cbn in Hn.
  rewrite Ha1 in Ha2. clear Hf2 Hk.
  set (F := frames (b_addr b) (w_tls w)) in *. set (s := subject_of F) in *.
  assert (subject_of (F ++ [s]) = s) as Hs by (apply (subject_of_extend F 1)).
  rewrite Hs, <- app_assoc in Hn. change ([s] ++ replicate n s) with (replicate (S n) s) in Hn.
  destruct Hok2 as [Hwf2 Hnz2].
  destruct (end_spec w2 b2 Hb2 (Hnz2 _ Hb2) Hwf2) as [_ [(E1&E2&_)|(E1&E2)]].
  - split; [by rewrite E1, Hb2, Hb; cbn; rewrite Ha2|]. intros _. split.
    + split; [by rewrite E2|]. intros b' Hb'. rewrite E1, Hb2 in Hb'. injection Hb' as <-.
      by apply Hnz2.
    + intros b' Hb'. rewrite Hb in Hb'. injection Hb' as <-. exists (S n). by rewrite E2, Hn.
  - split; [by rewrite E1, Hb; cbn; rewrite Ha2|]. intros _. destruct E2 as [E2 [x E3] _]. split.
    + split; [done|]. intros b' Hb'. rewrite E1 in Hb'. injection Hb' as <-. exact (Hnz2 _ Hb2).
    + intros b' Hb'. rewrite Hb in Hb'. injection Hb' as <-. exists n.
      rewrite Ha2, Hn, replicate_S_end, app_assoc in E3. apply app_inj_tail in E3 as [E3 _]. exact (eq_sym E3).
Qed.

(** What [with_op] does, for any relation [R] that the bracket respects. *)
Lemma with_op_related {A} (R : world → world → Prop) `{!PreOrder R} (on_fail : Z → M A)
    (body : M (M A)) w :
  pres R llam_broker_begin_op → pres R llam_broker_lock → pres R llam_broker_end_op →
  world_ok w →
  (∃ e w', R w w' ∧ keeps w w' ∧ with_op on_fail body w = on_fail e w')
  ∨ ∃ w1 b w3, w_broker w1 = Some b ∧ live_broker b ∧ R w w1
      ∧ world_ok w1 ∧ cur_subject w1 = cur_subject w
      ∧ with_op on_fail body w = (body w1).1 w3 ∧ R (body w1).2 w3
      ∧ (keeps w1 (body w1).2 → keeps w w3).
Proof.
  intros Rb Rl Re Hok. pose proof (Rb w) as Ho1. unfold with_op.
  destruct (w_broker w) as [b|] eqn:Hb.
  2: { left. revert Ho1.
       unfold llam_broker_begin_op, llam_broker_begin_op_subject, llam_broker_lock, on_broker.
       mon. rewrite Hb. mon. intros Ho1. eexists _, _.
       split_and!; [| |done]; [done|by apply same_core_keeps]. }
  destruct Hok as [Hwf Hnz]. pose proof (Hnz b Hb) as Ha.
  destruct (begin_spec 0 w b Hb Ha Hwf) as [[R1 C1]|(R1&C2&C3&Hen&Hi&Hr&_)];
  unfold llam_broker_begin_op in *; mon; destruct (llam_broker_begin_op_subject 0 w) as [rc w1];
  mon; subst rc; mon.
  { left. eexists _, w1. split_and!; [done|by apply same_core_keeps|done]. }
  assert (world_ok w) as Hok by done.
  assert (b_addr <$> w_broker w1 = Some (b_addr b)) as Ha1 by by rewrite C3.
  pose proof (Rl w1) as Ho12. destruct (lock_cases w1) as [Hc Hl]. destruct (llam_broker_lock w1) as [rc2 w2]. mon.
  assert (entered (b_addr b) 0 (w_tls w) (w_tls w2)) as Hen2 by by rewrite (proj2 (proj2 Hc)).
  assert (b_addr <$> w_broker w2 = Some (b_addr b)) as Ha2 by by rewrite (proj1 Hc).
  destruct Hl as [->|[-> (b1&Hb1&Hl)]]; mon.
  - left. pose proof (Re w2) as Ho2.
    pose proof (keeps_end w w2 w2 b Hok Hb Ha2 Hen2 (reflexivity _)) as Hk.
    destruct (llam_broker_end_op w2) as [[] w3]. mon. eexists _, w3. split_and!; [|done|done].
    etrans; [exact Ho1|]. by etrans.
  - right. rewrite <- (proj1 Hc) in Hb1.
    pose proof Hb1 as Hb1'. rewrite (proj1 Hc), C3 in Hb1'. injection Hb1' as <-.
    assert (world_ok w2) as Hok2.
    { split; [apply Hen2|]. intros b' Hb'. rewrite Hb1 in Hb'. by injection Hb' as <-. }
    destruct (body w2) as [k w3] eqn:Eb. pose proof (Re w3) as Ho3.
    pose proof (keeps_end w w2 w3 b Hok Hb Ha2 Hen2) as Hke.
    destruct (llam_broker_end_op w3) as [[] w4]. mon. eexists w2, _, w4.
    rewrite Eb. split_and!; [done|by split| |done| |done|done|done].
    + by etrans.
    + rewrite (cur_subject_frames _ _ Hok2 Hb1), (cur_subject_frames _ _ Hok Hb).
      change (b_addr (set_b_active_ops _ b)) with (b_addr b).
      rewrite (en_frames _ _ _ _ Hen2). apply (subject_of_extend _ 1).
Qed.

Lemma with_op_spec {A} (on_fail : Z → M A) (body : M (M A)) w :
  world_ok w →
  (∃ e w', same_objs w w' ∧ keeps w w' ∧ with_op on_fail body w = on_fail e w')
  ∨ ∃ w1 b w3, w_broker w1 = Some b ∧ live_broker b ∧ same_objs w w1
      ∧ world_ok w1 ∧ cur_subject w1 = cur_subject w
      ∧ with_op on_fail body w = (body w1).1 w3 ∧ same_objs (body w1).2 w3
      ∧ (keeps w1 (body w1).2 → keeps w w3).
Proof.
  apply (with_op_related same_objs); [apply pres_objs_begin|apply pres_objs_lock|apply pres_objs_end].
Qed.

(** A successful [begin_op_subject] opens one frame acting for the requested
    subject (or, for a bearer operation, for the subject already in force), is
    refused when a different subject is in force, and the matching [end_op]
    restores the broker, its pin count and every broker's frames. *)
Theorem begin_end_balanced subj w w1 w2 b :
  world_ok w → w_broker w = Some b → 0 <= b_active_ops b →
  llam_broker_begin_op_subject subj w = (0, w1) →
  w_tls w2 = w_tls w1 → w_broker w2 = w_broker w1 → os_mutex_lock (w_os w2) = [] →
  let w3 := (llam_broker_end_op w2).2 in
  cur_subject w1 = (if subj =? 0 then cur_subject w else subj) ∧
  (subj = 0 ∨ cur_subject w = 0 ∨ cur_subject w = subj) ∧
  w_broker w1 = Some (set_b_active_ops (b_active_ops b + 1) b) ∧
  w_broker w3 = Some b ∧ tls_wf (w_tls w3) ∧
  ∀ a, a ≠ 0 → frames a (w_tls w3) = frames a (w_tls w).
Proof.
  intros Hok Hb Hn Hbeg Ht Hbr Hfree. cbn zeta. pose proof Hok as [Hwf Hnz].
  pose proof (Hnz b Hb) as Ha. pose proof (lock_cases w) as [_ Hl].
  assert (b_lock_initialized b = true) as Hli.
  { destruct Hl as [Hl|[_ (b'&Hb'&?)]]; [|congruence].
    unfold llam_broker_begin_op_subject in Hbeg. mon.
    destruct (llam_broker_lock w) as [rc ?]. mon. by subst rc. }
  destruct (begin_spec subj w b Hb Ha Hwf) as [[R1 _]|(R1&C2&C3&Hen&Hi&Hr&Hlt&_)];
  rewrite Hbeg in *; mon; [done|].
  set (b1 := set_b_active_ops (b_active_ops b + 1) b) in *.
  assert (world_ok w1) as Hok1 by (split; [apply Hen|intros ? [= <-]%(eq_trans (eq_sym C3)); done]).
  assert (w_broker w2 = Some b1) as Hb2 by congruence.
  assert (tls_wf (w_tls w2)) as Hwf2 by (rewrite Ht; apply Hen).
  rewrite (cur_subject_frames _ _ Hok1 C3), (cur_subject_frames _ _ Hok Hb).
  change (b_addr b1) with (b_addr b). pose proof Hen as [E0 E1 E2 E3].
  split; [|split; [done|split; [done|]]].
  { rewrite E1. unfold subject_of at 1. by rewrite last_snoc. }
  destruct (end_spec w2 b1 Hb2 Ha Hwf2) as [_ [(_&_&D)|(D1&[D2 [x D3] D4])]].
  - specialize (D Hli Hfree). change (b_addr b1) with (b_addr b) in D. rewrite Ht, E1 in D.
    by destruct (frames (b_addr b) (w_tls w)).
  - split_and!; [|done|].
    + rewrite D1. f_equal. unfold unpinned. cbn. rewrite (proj2 (Z.leb_gt _ _)) by lia.
      rewrite (proj2 (Z.ltb_lt _ _)) by lia. replace (b_active_ops b + 1 - 1) with (b_active_ops b) by lia.
      by destruct b.
    + intros a Ha0. destruct (decide (a = b_addr b)) as [->|Hne].
      * change (b_addr b1) with (b_addr b) in D3. rewrite Ht, E1 in D3.
        by apply app_inj_tail in D3 as [-> _].
      * rewrite D4 by done. by rewrite Ht, E2.
Qed.

(** ** Concurrent operations *)

(** The shared broker, and one table per thread. *)
Record pool := Pool { p_broker : broker; p_threads : list (list tls_op) }.

(** One thread runs a locked [begin] or [end] step; what else the thread knows
    (errno, rings, environment) is arbitrary. *)
Inductive pool_step : pool → pool → Prop :=
  | pool_begin p t tls subj rings err env w' b' :
      p_threads p !! t = Some tls →
      (llam_broker_begin_op_subject subj (World (Some (p_broker p)) rings tls err env)).2 = w' →
      w_broker w' = Some b' →
      pool_step p (Pool b' (<[t := w_tls w']> (p_threads p)))
  | pool_end p t tls rings err env w' b' :
      p_threads p !! t = Some tls →
      (llam_broker_end_op (World (Some (p_broker p)) rings tls err env)).2 = w' →
      w_broker w' = Some b' →
      pool_step p (Pool b' (<[t := w_tls w']> (p_threads p))).

Fixpoint open_frames (a : Z) (ths : list (list tls_op)) : nat :=
  match ths with
  | [] => 0
  | tls :: ths => length (frames a tls) + open_frames a ths
  end.

Record pool_ok (p : pool) : Prop := {
  po_addr : b_addr (p_broker p) ≠ 0;
  po_wf : ∀ t tls, p_threads p !! t = Some tls → tls_wf tls;
  po_count : b_active_ops (p_broker p) = Z.of_nat (open_frames (b_addr (p_broker p)) (p_threads p));
  po_bound : b_active_ops (p_broker p) < LLAM_BROKER_ACTIVE_OP_BUSY_SENTINEL;
}.

Lemma open_frames_insert a ths t tls tls' :
  ths !! t = Some tls →
  (open_frames a (<[t := tls']> ths) + length (frames a tls)
   = open_frames a ths + length (frames a tls'))%nat.
Proof.
  revert t. induction ths as [|x ths IH]; intros [|t] Ht; [done|done| |].
  - injection Ht as ->. cbn. lia.
  - specialize (IH t Ht). change (<[S t := tls']> (x :: ths)) with (x :: <[t := tls']> ths).
    cbn [open_frames]. lia.
Qed.

Lemma open_frames_ge a ths t tls :
  ths !! t = Some tls → (length (frames a tls) <= open_frames a ths)%nat.
Proof.
  revert t. induction ths as [|x ths IH]; intros [|t] Ht; cbn in *; [done|done| |].
  - injection Ht as ->. lia.
  - specialize (IH t Ht). lia.
Qed.

Lemma pool_step_ok p p' : pool_step p p' → pool_ok p → pool_ok p' ∧ b_addr (p_broker p') = b_addr (p_broker p).
Proof.
  intros Hs [Ha Hwf Hc Hlt]. destruct Hs as [p t tls subj rings err env w' b' Ht Hw Hb'
                                            |p t tls rings err env w' b' Ht Hw Hb'];
  set (w := World (Some (p_broker p)) rings tls err env) in *;
  pose proof (open_frames_insert (b_addr (p_broker p)) (p_threads p) t tls (w_tls w') Ht) as Hi.
  - destruct (begin_spec subj w (p_broker p) eq_refl Ha (Hwf _ _ Ht))
      as [[_ (C1&_&C3)]|(_&_&C1&Hen&_&_&Hn&_)]; rewrite Hw in *.
    + rewrite Hb' in C1. injection C1 as ->. rewrite C3, list_insert_id by done. done.
    + rewrite Hb' in C1. injection C1 as ->. split; [|done].
      rewrite (en_frames _ _ _ _ Hen), length_app in Hi. cbn in Hi.
      split; cbn; [done| |lia|lia].
      intros t' tls'. rewrite list_lookup_insert_Some. intros [(_&<-&_)|[_ ?]]; [apply Hen|eauto].
  - destruct (end_spec w (p_broker p) eq_refl Ha (Hwf _ _ Ht))
      as [_ [(C1&C3&_)|(C1&[D1 [x D2] _])]]; rewrite Hw in *.
    + rewrite Hb' in C1. injection C1 as ->. rewrite C3, list_insert_id by done. done.
    + rewrite Hb' in C1. injection C1 as ->. split; [|done].
      pose proof (open_frames_ge (b_addr (p_broker p)) _ _ _ Ht) as Hge.
      cbn in D2. rewrite D2, length_app in Hi, Hge. cbn in Hi, Hge.
      assert (unpinned (b_active_ops (p_broker p)) = b_active_ops (p_broker p) - 1) as Hu.
      { unfold unpinned. rewrite (proj2 (Z.leb_gt _ _)), (proj2 (Z.ltb_lt _ _)) by lia. done. }
      split; cbn; rewrite ?Hu; [done| |lia|lia].
      intros t' tls'. rewrite list_lookup_insert_Some. intros [(_&<-&_)|[_ ?]]; [done|eauto].
Qed.

(** C12: Under every interleaving of begin and end steps by any number of threads,
    including failed, foreign and duplicate ends, [active_ops] is the number of
    open frames; in particular it is zero only when no thread is inside an
    operation on the broker, which is what destroy waits for. *)
Theorem active_ops_counts_frames p p' :
  pool_ok p → rtc pool_step p p' →
  b_active_ops (p_broker p')
  = Z.of_nat (open_frames (b_addr (p_broker p')) (p_threads p')) ∧
  (b_active_ops (p_broker p') = 0 →
   ∀ t tls, p_threads p' !! t = Some tls → tls_has_op (b_addr (p_broker p')) tls = false).
Proof.
  intros Hok Hr. assert (pool_ok p') as [Ha Hwf Hc Hlt].
  { induction Hr as [|p q p' Hs _ IH]; [done|]. apply IH. by apply (pool_step_ok p q). }
  split; [done|]. intros H0 t tls Ht. rewrite has_op_frames by eauto.
  apply negb_false_iff, bool_decide_eq_true, nil_length_inv.
  pose proof (open_frames_ge (b_addr (p_broker p')) _ _ _ Ht). lia.
Qed.

(** ** A concrete world *)

(** An environment with entropy, in which every other call has its default
    result. *)
Definition quiet_os : os :=
  Os [] (Some <$> [17; 23; 29; 31; 37; 41; 43; 47; 53; 59; 61; 67]) [] [] [] [] [] [] [] []
    [] [] [] [] [] [] [] [] [] [] [] [] [] [] [] [] [] [] [] [] [] [] [].

(** A broker as [llam_broker_init] leaves it, at address 4096. *)
Definition example_broker : broker :=
  Broker 4096 (Some 7) [11; 22; 33; 44] 1
    (replicate LLAM_BROKER_BUFFER_SLOTS zero_buffer_slot)
    (replicate LLAM_BROKER_DESCRIPTOR_SLOTS zero_descriptor_slot)
    (Some (replicate LLAM_BROKER_CHANNEL_SLOTS zero_channel_slot))
    (replicate LLAM_BROKER_TASK_SLOTS zero_task_slot)
    (replicate LLAM_BROKER_RING_SESSIONS zero_ring_session)
    (replicate LLAM_BROKER_TRANSPORT_SESSIONS zero_transport_session)
    1 1 1 1 1 0 0 true false true true.

Definition idle_tls : list tls_op := replicate LLAM_BROKER_TLS_OP_DEPTH zero_tls_op.

Definition example_world : world := World (Some example_broker) ∅ idle_tls 0 quiet_os.

Lemma idle_tls_wf : tls_wf idle_tls.
Proof.
  split; [reflexivity| |].
  - intros i e [-> _]%lookup_replicate. by split.
  - intros i j e e' [-> _]%lookup_replicate _ _. done.
Qed.

Lemma frames_idle a : a ≠ 0 → frames a idle_tls = [].
Proof. intros. apply frames_none. intros k e [-> _]%lookup_replicate. cbn. lia. Qed.

Lemma example_world_ok : world_ok example_world.
Proof. split; [apply idle_tls_wf|]. by intros ? [= <-]. Qed.

Lemma begin_end_balanced_witness :
  let w1 := (llam_broker_begin_op_subject 9 example_world).2 in
  cur_subject w1 = 9 ∧ w_broker (llam_broker_end_op w1).2 = Some example_broker.
Proof.
  destruct (begin_end_balanced 9 example_world
    (llam_broker_begin_op_subject 9 example_world).2
    (llam_broker_begin_op_subject 9 example_world).2 example_broker example_world_ok
    eq_refl ltac:(done) eq_refl eq_refl eq_refl eq_refl) as (A&_&_&B&_).
  split; [exact A|exact B].
Defined.

Lemma active_ops_counts_frames_witness :
  let p := Pool example_broker [idle_tls; idle_tls] in
  let w' := (llam_broker_begin_op_subject 9 (World (Some example_broker) ∅ idle_tls 0 quiet_os)).2 in
  b_active_ops (default zero_broker (w_broker w')) = 1 ∧
  open_frames 4096 [idle_tls; w_tls w'] = 1%nat.
Proof.
  cbn zeta.
  destruct (active_ops_counts_frames (Pool example_broker [idle_tls; idle_tls])
    (Pool (set_b_active_ops 1 example_broker)
       (<[1%nat := w_tls (llam_broker_begin_op_subject 9
            (World (Some example_broker) ∅ idle_tls 0 quiet_os)).2]> [idle_tls; idle_tls])))
    as [A _].
  - split; [done| |reflexivity|reflexivity].
    intros [|[|t]] tls; [intros [= <-]; apply idle_tls_wf..|done].
  - apply rtc_once. by eapply (pool_begin (Pool example_broker [idle_tls; idle_tls]) 1).
  - split; [reflexivity|]. apply Nat2Z.inj. symmetry. exact A.
Defined.
