(* ===== verification/BrokerCore.v ===== *)
(** * Broker authority ([src/core/broker/broker.c], [broker_validate.c])

    Issuing, validating and attenuating object tokens against the live object
    tables, and the revocation epoch.

    - [BrokerSlot] is the interface of an object table's slots: what validation
      reads of a buffer, descriptor, channel or task slot;
    - [authorized b subj t required] is the specification of a token the broker
      accepts, and [validate_cap_cases] shows that the code decides it;
    - [table_ok] is the table invariant (unique live ids below the next id) and
      [table_le] the order in which tables evolve: a live slot is either new or
      an earlier live slot of the same id at the same or a later generation;
    - [evolve] lifts both to the broker; every operation is shown to satisfy it,
      which is what makes revoked authority stay dead (file [Advance]). *)

From S2P Require Import Prelude World Capability BrokerOps.

(** ** Slots *)

(** What the authority code reads of a slot of any object table, the data
    invariant of an active slot, and how its data may change while the object
    lives. *)
Class BrokerSlot (T : Type) := {
  slot_active : T → bool;
  slot_id : T → Z;
  slot_generation : T → Z;
  slot_rights : T → Z;
  slot_subject : T → Z;
  slot_inv : T → Prop;
  slot_data_le : T → T → Prop;
  slot_data_le_preorder :: PreOrder slot_data_le;
}.

(** A live buffer owns exactly [length] bytes. *)
Definition buffer_inv (s : buffer_slot) : Prop :=
  ∃ d, bs_data s = Some d ∧ Z.of_nat (length d) = bs_length s ∧
    0 < bs_length s <= LLAM_BROKER_BUFFER_MAX_BYTES.

(** A message slot: its buffer has its size and the length fits. *)
Definition message_inv (m : channel_message) : Prop :=
  0 <= cm_length m <= LLAM_BROKER_CHANNEL_MESSAGE_BYTES ∧
  Z.of_nat (length (cm_data m)) = LLAM_BROKER_CHANNEL_MESSAGE_BYTES.

(** The message ring of a live channel: [count] messages from [head] on. *)
Record channel_inv (s : channel_slot) : Prop := {
  ci_messages : length (cs_messages s) = Z.to_nat LLAM_BROKER_CHANNEL_CAPACITY;
  ci_capacity : 1 <= cs_capacity s <= LLAM_BROKER_CHANNEL_CAPACITY;
  ci_head : 0 <= cs_head s < cs_capacity s;
  ci_count : 0 <= cs_count s <= cs_capacity s;
  ci_tail : cs_tail s = (cs_head s + cs_count s) mod cs_capacity s;
  ci_message : Forall message_inv (cs_messages s);
}.

(** A live task is running, finished, or running with its authority withdrawn. *)
Definition task_inv (s : task_slot) : Prop :=
  ts_state s = TASK_STATE_SPAWNED ∨ ts_state s = TASK_STATE_COMPLETED
  ∨ ts_state s = TASK_STATE_DETACHED ∧ ts_rights s = 0.

(** A task leaves SPAWNED once, to COMPLETED or to DETACHED. *)
Definition task_state_le (x y : task_state) : Prop :=
  x = y ∨ x = TASK_STATE_SPAWNED ∧ (y = TASK_STATE_COMPLETED ∨ y = TASK_STATE_DETACHED).

#[export] Instance task_state_le_preorder : PreOrder task_state_le.
Proof. split; [by left|]. unfold task_state_le. intros x y z. naive_solver. Qed.

(** A task keeps its command, progresses, and its published result is final. *)
Record task_data_le (s s' : task_slot) : Prop := {
  td_kind : ts_kind s' = ts_kind s;
  td_arg0 : ts_arg0 s' = ts_arg0 s;
  td_state : task_state_le (ts_state s) (ts_state s');
  td_result : ts_state s = TASK_STATE_COMPLETED →
    ts_result0 s' = ts_result0 s ∧ ts_error_code s' = ts_error_code s;
}.

#[export] Instance task_data_le_preorder : PreOrder task_data_le.
Proof.
  split; [by intros s; split|]. intros x y z [A1 A2 A3 A4] [B1 B2 B3 B4].
  split; [congruence|congruence|by etrans|]. intros Hx.
  destruct A3 as [A3|[A3 _]]; [|congruence]. destruct (A4 Hx), (B4 ltac:(congruence)). split; congruence.
Qed.

(** A channel keeps its capacity, and stays closed once closed. *)
Definition channel_data_le (s s' : channel_slot) : Prop :=
  cs_capacity s' = cs_capacity s ∧ (cs_closed s = true → cs_closed s' = true).

#[export] Instance channel_data_le_preorder : PreOrder channel_data_le.
Proof.
  split; [done|]. intros x y z [A1 A2] [B1 B2]. split; [congruence|auto].
Qed.

(** The projection [f] is constant. *)
Definition same_field {T A} (f : T → A) (s s' : T) : Prop := f s' = f s.

#[export] Instance same_field_preorder {T A} (f : T → A) : PreOrder (same_field f).
Proof. split; [done|]. unfold same_field. intros x y z. congruence. Qed.

#[export] Instance buffer_broker_slot : BrokerSlot buffer_slot :=
  {| slot_active := bs_active; slot_id := bs_id; slot_generation := bs_generation;
     slot_rights := bs_rights; slot_subject := bs_subject_id; slot_inv := buffer_inv;
     slot_data_le := same_field bs_length |}.

#[export] Instance descriptor_broker_slot : BrokerSlot descriptor_slot :=
  {| slot_active := ds_active; slot_id := ds_id; slot_generation := ds_generation;
     slot_rights := ds_rights; slot_subject := ds_subject_id; slot_inv s := 0 <= ds_fd s;
     slot_data_le := same_field (λ s, (ds_fd s, ds_close_on_destroy s)) |}.

#[export] Instance channel_broker_slot : BrokerSlot channel_slot :=
  {| slot_active := cs_active; slot_id := cs_id; slot_generation := cs_generation;
     slot_rights := cs_rights; slot_subject := cs_subject_id; slot_inv := channel_inv;
     slot_data_le := channel_data_le |}.

#[export] Instance task_broker_slot : BrokerSlot task_slot :=
  {| slot_active := ts_active; slot_id := ts_id; slot_generation := ts_generation;
     slot_rights := ts_rights; slot_subject := ts_subject_id; slot_inv := task_inv;
     slot_data_le := task_data_le |}.

(** [slot->active && slot->id == token->slot && slot->generation == token->generation] *)
Definition slot_matches `{BrokerSlot T} (token : capability_token) (slot : T) : bool :=
  slot_active slot && (slot_id slot =? tok_slot token)
  && (slot_generation slot =? tok_generation token).

(** The search loop of the find functions: the first matching slot, if its
    rights cover [required]. *)
Fixpoint find_slot `{BrokerSlot T} (token : capability_token) (required : Z) (i : nat)
    (table : list T) : option nat :=
  match table with
  | [] => None
  | slot :: table =>
      if slot_matches token slot
      then if negb (has_bits (slot_rights slot) required) then None else Some i
      else find_slot token required (S i) table
  end.

(** The loop of [validate_live_object]. *)
Definition slot_live `{BrokerSlot T} (token : capability_token) (required : Z)
    (table : list T) : bool :=
  existsb (λ slot, slot_matches token slot && has_bits (slot_rights slot) required) table.

(** The first slot the create functions may use. *)
Fixpoint first_free {T} (free : T → bool) (i : nat) (table : list T) : option nat :=
  match table with
  | [] => None
  | slot :: table => if free slot then Some i else first_free free (S i) table
  end.

(** ** [broker_validate.c] *)

(** The channel table is read without a NULL test; an initialized broker has it. *)
Definition channels_of (b : broker) : list channel_slot := default [] (b_channels b).

(** The switch on the token's family: some live slot of its table matches. *)
Definition live_in (b : broker) (t : capability_token) (required_rights : Z) : bool :=
  if tok_family t =? LLAM_BROKER_CAP_FAMILY_BUFFER
  then slot_live t required_rights (b_buffers b)
  else if tok_family t =? LLAM_BROKER_CAP_FAMILY_DESCRIPTOR
  then slot_live t required_rights (b_descriptors b)
  else if tok_family t =? LLAM_BROKER_CAP_FAMILY_CHANNEL
  then slot_live t required_rights (channels_of b)
  else if tok_family t =? LLAM_BROKER_CAP_FAMILY_TASK
  then slot_live t required_rights (b_tasks b)
  else false.

Definition llam_broker_validate_live_object_unlocked (token : option capability_token)
    (required_rights : Z) : M Z :=
  on_broker (fail EINVAL) (λ b,
    match token with
    | None => fail EINVAL
    | Some t => if live_in b t required_rights then mret 0 else fail EACCES
    end).

(** [out_data] is the caller's buffer: [None] is NULL, otherwise its bytes; the
    bytes after the call are returned. *)
Definition llam_broker_fail_clear_output (out_data : option (list Z)) (length error_code : Z)
    : M (Z * option (list Z)) :=
  let out_data := if 0 <? length then memzero_at 0 (Z.to_nat length) <$> out_data else out_data in
  set_errno (if negb (error_code =? 0) then error_code else EINVAL) ;;
  mret (-1, out_data).

Definition llam_broker_fail_clear_output_ssize (out_data : option (list Z))
    (length error_code : Z) : M (Z * option (list Z)) :=
  '(_, out_data) ← llam_broker_fail_clear_output out_data length error_code;
  mret (-1, out_data).

Definition llam_broker_finish_read_clear_tail (out_data : option (list Z)) (length result : Z)
    : M (Z * option (list Z)) :=
  if result <? 0
  then e ← get_errno; llam_broker_fail_clear_output_ssize out_data length e
  else if is_null out_data && (0 <? length) then set_errno EINVAL ;; mret (-1, out_data)
  else mret (result,
         if result <? length
         then memzero_at (Z.to_nat result) (Z.to_nat (length - result)) <$> out_data
         else out_data).

(** ** [broker.c] *)

Definition llam_broker_revocation_epoch_unlocked : M Z :=
  on_broker (mret 0) (λ b,
    if negb (b_initialized b) then mret 0 else mret (b_revocation_epoch b)).

Definition llam_broker_validate_object_rights (family rights : Z) : M Z :=
  if rights =? 0 then fail EINVAL
  else
    let check allowed :=
      if negb (Z.land rights (not64 allowed) =? 0) then fail EACCES else mret 0 in
    if family =? LLAM_BROKER_CAP_FAMILY_BUFFER then check LLAM_BROKER_BUFFER_TRANSPORT_RIGHTS
    else if family =? LLAM_BROKER_CAP_FAMILY_DESCRIPTOR
    then check LLAM_BROKER_DESCRIPTOR_TRANSPORT_RIGHTS
    else if family =? LLAM_BROKER_CAP_FAMILY_CHANNEL
    then check LLAM_BROKER_CHANNEL_TRANSPORT_RIGHTS
    else if family =? LLAM_BROKER_CAP_FAMILY_TASK then check LLAM_BROKER_TASK_TRANSPORT_RIGHTS
    else fail EINVAL.

Definition llam_broker_validate_next_object_id (next_id : Z) : M Z :=
  if next_id =? 0 then fail ENOSPC
  else if next_id =? UINT64_MAX then fail EOVERFLOW
  else mret 0.

Definition llam_broker_issue_object_cap_unlocked (family slot generation rights : Z)
    (out_token : option capability_token) : M (Z * option capability_token) :=
  let out_token := (λ _, zero_token) <$> out_token in
  on_broker (set_errno EINVAL ;; mret (-1, out_token)) (λ b,
    match b_initialized b, b_runtime b with
    | true, Some runtime_id =>
        rc ← llam_broker_validate_object_rights family rights;
        if negb (rc =? 0) then mret (-1, out_token)
        else
          subject ← llam_broker_current_subject;
          llam_capability_issue (Some (b_capability_key b))
            (Some (CapObject runtime_id family slot generation (b_revocation_epoch b) subject))
            rights out_token
    | _, _ => set_errno EINVAL ;; mret (-1, out_token)
    end).

Definition llam_broker_revocation_epoch : M Z :=
  rc ← llam_broker_begin_op;
  if negb (rc =? 0) then mret 0
  else
    epoch ← llam_broker_revocation_epoch_unlocked;
    llam_broker_end_op ;;
    mret epoch.

(** The compare-and-swap loop retries until its exchange succeeds, so it is one
    atomic read-modify-write of the epoch. *)
Definition llam_broker_revoke_all : M Z :=
  rc ← llam_broker_begin_op;
  if negb (rc =? 0) then mret 0
  else
    b ← the_broker;
    let current_epoch := b_revocation_epoch b in
    if (current_epoch =? 0) || (current_epoch =? UINT64_MAX)
    then
      (if current_epoch =? UINT64_MAX then upd_broker (set_b_revocation_epoch 0) else mret tt) ;;
      llam_broker_end_op ;;
      set_errno EOVERFLOW ;;
      mret 0
    else
      let next_epoch := u64 (current_epoch + 1) in
      upd_broker (set_b_revocation_epoch next_epoch) ;;
      llam_broker_end_op ;;
      mret next_epoch.

Definition llam_broker_issue_object_cap (family slot generation rights : Z)
    (out_token : option capability_token) : M (Z * option capability_token) :=
  let out_token := (λ _, zero_token) <$> out_token in
  with_op (λ _, mret (-1, out_token))
    (r ← llam_broker_issue_object_cap_unlocked family slot generation rights out_token;
     mret (mret r)).

Definition llam_broker_validate_cap_unlocked (token : option capability_token)
    (required_rights : Z) : M Z :=
  on_broker (fail EINVAL) (λ b,
    match b_initialized b, b_runtime b with
    | true, Some runtime_id =>
        match token with
        | None => fail EINVAL
        | Some t =>
            if required_rights =? 0 then fail EINVAL
            else
              epoch ← llam_broker_revocation_epoch_unlocked;
              subject ← llam_broker_current_subject;
              rc ← llam_capability_validate_subject (Some (b_capability_key b)) token
                     required_rights epoch subject;
              if negb (rc =? 0) then mret (-1)
              else if negb (tok_runtime_id t =? runtime_id) then fail EACCES
              else llam_broker_validate_live_object_unlocked token required_rights
        end
    | _, _ => fail EINVAL
    end).

Definition llam_broker_validate_cap (token : option capability_token) (required_rights : Z) : M Z :=
  with_op (λ _, mret (-1))
    (rc ← llam_broker_validate_cap_unlocked token required_rights; mret (mret rc)).

Definition llam_broker_validate_token_family_unlocked (token : option capability_token)
    (expected_family required_rights : Z) : M Z :=
  on_broker (fail EINVAL) (λ _,
    match token with
    | None => fail EINVAL
    | Some t =>
        rc ← llam_broker_validate_cap_unlocked token required_rights;
        if negb (rc =? 0) then mret (-1)
        else if negb (tok_family t =? expected_family) then fail EACCES
        else mret 0
    end).

(** The find functions of the object files: authority first, then the search. *)
Definition find_object_unlocked `{BrokerSlot T} (family : Z) (table : broker → list T)
    (token : option capability_token) (required_rights : Z) : M (option nat) :=
  rc ← llam_broker_validate_token_family_unlocked token family required_rights;
  match token with
  | Some t =>
      if negb (rc =? 0) then mret None
      else
        b ← the_broker;
        match find_slot t required_rights 0 (table b) with
        | Some i => mret (Some i)
        | None => set_errno EACCES ;; mret None
        end
  | None => mret None
  end.

Definition llam_broker_attenuate_cap (token : option capability_token) (subset_rights : Z)
    (out_token : option capability_token) : M (Z * option capability_token) :=
  match out_token with
  | None => set_errno EINVAL ;; mret (-1, None)
  | Some _ =>
      let source := default zero_token token in
      let cleared := Some zero_token in
      if subset_rights =? 0 then set_errno EINVAL ;; mret (-1, cleared)
      else
        with_op (λ _, mret (-1, cleared))
          (rc ← llam_broker_validate_cap_unlocked ((λ _, source) <$> token) subset_rights;
           if rc =? 0
           then
             b ← the_broker;
             epoch ← llam_broker_revocation_epoch_unlocked;
             '(rc, attenuated) ← llam_capability_attenuate (Some (b_capability_key b))
                                   (Some source) subset_rights epoch (Some zero_token);
             mret (mret (rc, if rc =? 0 then attenuated else cleared))
           else mret (mret (rc, cleared)))
  end.

(** ** Validation decides authority *)

(** [t] carries authority for [required] over a live object of [b], for a
    thread acting for [subj]. *)
Record authorized (b : broker) (subj : Z) (t : capability_token) (required : Z) : Prop := {
  au_valid : cap_valid (b_capability_key b) t required (b_revocation_epoch b) subj;
  au_runtime : b_runtime b = Some (tok_runtime_id t);
  au_live : live_in b t required = true;
}.

Lemma validate_cap_cases token required w :
  let r := llam_broker_validate_cap_unlocked token required w in
  (r = (0, w) ∧ ∃ b t, w_broker w = Some b ∧ token = Some t ∧
     b_initialized b = true ∧ authorized b (cur_subject w) t required)
  ∨ ∃ e, r = (-1, set_w_errno e w) ∧ (e = EINVAL ∨ e = EACCES).
Proof.
  cbn zeta. unfold llam_broker_validate_cap_unlocked, on_broker.
  destruct (w_broker w) as [b|] eqn:Hb; [|right; eexists; split; [done|by auto]].
  destruct (b_initialized b) eqn:Hi; [|right; eexists; split; [done|by auto]].
  destruct (b_runtime b) as [rid|] eqn:Hr; [|right; eexists; split; [done|by auto]].
  destruct token as [t|]; [|right; eexists; split; [done|by auto]].
  destruct (required =? 0); [right; eexists; split; [done|by auto]|].
  mon. unfold llam_broker_revocation_epoch_unlocked, on_broker. rewrite Hb. mon. rewrite Hi. mon.
  rewrite current_subject_run.
  destruct (validate_subject_cases (Some (b_capability_key b)) (Some t) required
    (b_revocation_epoch b) (cur_subject w) w) as [[-> (k&t'&[= <-]&[= <-]&Hv)]|(e&->&He)]; mon.
  2: { right. by exists e. }
  destruct (Z.eqb_spec (tok_runtime_id t) rid); mon; [|right; eexists; split; [done|by auto]].
  unfold llam_broker_validate_live_object_unlocked, on_broker. rewrite Hb.
  destruct (live_in b t required) eqn:Hl; [|right; eexists; split; [done|by auto]].
  left. split; [done|]. exists b, t. split_and!; [done..|]. subst rid. by split.
Qed.

Lemma validate_cap_complete b t required w :
  w_broker w = Some b → b_initialized b = true → authorized b (cur_subject w) t required →
  llam_broker_validate_cap_unlocked (Some t) required w = (0, w).
Proof.
  intros Hb Hi [Hv Hr Hl]. unfold llam_broker_validate_cap_unlocked, on_broker.
  rewrite Hb, Hi, Hr, (proj2 (Z.eqb_neq _ _) (cv_required _ _ _ _ _ Hv)).
  mon. unfold llam_broker_revocation_epoch_unlocked, on_broker. rewrite Hb. mon. rewrite Hi. mon.
  rewrite current_subject_run, (validate_subject_complete _ _ _ _ _ w Hv). mon.
  rewrite Z.eqb_refl. mon. unfold llam_broker_validate_live_object_unlocked, on_broker.
  by rewrite Hb, Hl.
Qed.

Lemma validate_family_cases token family required w :
  let r := llam_broker_validate_token_family_unlocked token family required w in
  (r = (0, w) ∧ ∃ b t, w_broker w = Some b ∧ token = Some t ∧ tok_family t = family ∧
     b_initialized b = true ∧ authorized b (cur_subject w) t required)
  ∨ ∃ e, r = (-1, set_w_errno e w) ∧ (e = EINVAL ∨ e = EACCES).
Proof.
  cbn zeta. unfold llam_broker_validate_token_family_unlocked, on_broker.
  destruct (w_broker w) as [b|] eqn:Hb; [|right; eexists; split; [done|by auto]].
  destruct token as [t|]; [|right; eexists; split; [done|by auto]]. mon.
  destruct (validate_cap_cases (Some t) required w) as [[-> (b'&t'&Hb'&[= <-]&Hi&Ha)]|(e&->&He)]; mon.
  2: { right. by exists e. }
  destruct (Z.eqb_spec (tok_family t) family); mon; [|right; eexists; split; [done|by auto]].
  left. split; [done|]. rewrite Hb in Hb'. injection Hb' as <-. by exists b, t.
Qed.

Section slots.
Context `{BrokerSlot T}.
Implicit Types (tbl : list T) (s : T).

Lemma slot_matches_spec t s :
  slot_matches t s = true ↔
  slot_active s = true ∧ slot_id s = tok_slot t ∧ slot_generation s = tok_generation t.
Proof. unfold slot_matches. rewrite !andb_true_iff, !Z.eqb_eq. tauto. Qed.

Lemma find_slot_some t required i tbl j :
  find_slot t required i tbl = Some j →
  ∃ k s, j = (i + k)%nat ∧ tbl !! k = Some s ∧ slot_matches t s = true
    ∧ has_bits (slot_rights s) required = true.
Proof.
  revert i. induction tbl as [|s tbl IH]; intros i; cbn [find_slot]; [done|].
  destruct (slot_matches t s) eqn:Hm.
  - destruct (has_bits (slot_rights s) required) eqn:Hr; [|done]. intros [= <-].
    exists 0%nat, s. split_and!; [lia|done..].
  - intros (k&s'&->&?&?&?)%IH. exists (S k), s'. split_and!; [lia|done..].
Qed.

Lemma slot_live_spec t required tbl :
  slot_live t required tbl = true ↔
  ∃ k s, tbl !! k = Some s ∧ slot_matches t s = true ∧ has_bits (slot_rights s) required = true.
Proof.
  unfold slot_live. rewrite existsb_exists. split.
  - intros (s&Hin&[Hm Hr]%andb_prop). apply list_elem_of_In, list_elem_of_lookup in Hin as [k Hk].
    eauto.
  - intros (k&s&Hk&Hm&Hr). exists s. split; [by eapply list_elem_of_In, list_elem_of_lookup_2|].
    by rewrite Hm, Hr.
Qed.

Lemma first_free_some free i tbl j :
  first_free free i tbl = Some j →
  ∃ k s, j = (i + k)%nat ∧ tbl !! k = Some s ∧ free s = true.
Proof.
  revert i. induction tbl as [|s tbl IH]; intros i; cbn [first_free]; [done|].
  destruct (free s) eqn:Hf.
  - intros [= <-]. exists 0%nat, s. split_and!; [lia|done..].
  - intros (k&s'&->&?&?)%IH. exists (S k), s'. split_and!; [lia|done..].
Qed.

(** ** Object tables *)

(** Live slots have distinct ids below the next id, and a generation. *)
Record table_ok (next : Z) tbl : Prop := {
  to_next : 1 <= next <= UINT64_MAX;
  to_slot : ∀ i s, tbl !! i = Some s → slot_active s = true →
    1 <= slot_id s < next ∧ 1 <= slot_generation s <= UINT64_MAX ∧ slot_inv s;
  to_unique : ∀ i j s s', tbl !! i = Some s → tbl !! j = Some s' →
    slot_active s = true → slot_active s' = true → slot_id s = slot_id s' → i = j;
}.

(** [s'] is [s] later in its life: same object, same owner, within one
    generation never more rights, and data that only progressed. *)
Record slot_le s s' : Prop := {
  sl_active : slot_active s = true;
  sl_id : slot_id s' = slot_id s;
  sl_generation : slot_generation s <= slot_generation s';
  sl_subject : slot_subject s' = slot_subject s;
  sl_rights : slot_generation s' = slot_generation s →
    has_bits (slot_rights s) (slot_rights s') = true;
  sl_data : slot_data_le s s';
}.

(** Every live slot of the later table is new or was live before. *)
Definition table_le (next : Z) tbl (next' : Z) tbl' : Prop :=
  next <= next' ∧
  ∀ i s', tbl' !! i = Some s' → slot_active s' = true →
    next <= slot_id s' ∨ ∃ j s, tbl !! j = Some s ∧ slot_le s s'.

Lemma slot_le_refl s : slot_active s = true → slot_le s s.
Proof. intros. split; [done|done|lia|done|intros _; apply has_bits_refl|reflexivity]. Qed.

Lemma slot_le_trans s1 s2 s3 : slot_le s1 s2 → slot_le s2 s3 → slot_le s1 s3.
Proof.
  intros [A1 A2 A3 A4 A5 A6] [B1 B2 B3 B4 B5 B6]. split; [done|congruence|lia|congruence| |by etrans].
  intros. eapply has_bits_trans; [apply A5|apply B5]; lia.
Qed.

Lemma table_le_refl next tbl : table_le next tbl next tbl.
Proof. split; [lia|]. intros i s Hi Ha. right. exists i, s. split; [done|by apply slot_le_refl]. Qed.

Lemma table_le_trans n1 t1 n2 t2 n3 t3 :
  table_le n1 t1 n2 t2 → table_le n2 t2 n3 t3 → table_le n1 t1 n3 t3.
Proof.
  intros [N1 L1] [N2 L2]. split; [lia|]. intros i s3 H3 A3.
  destruct (L2 i s3 H3 A3) as [?|(j&s2&H2&S23)]; [left; lia|].
  destruct (L1 j s2 H2 (sl_active _ _ S23)) as [?|(k&s1&H1&S12)].
  - left. by rewrite (sl_id _ _ S23).
  - right. exists k, s1. split; [done|by eapply slot_le_trans].
Qed.

(** Overwriting one slot by an inactive one or by a later state of it. *)
Lemma table_update next tbl i s' :
  (slot_active s' = true → slot_generation s' <= UINT64_MAX ∧ slot_inv s' ∧
     ∃ s, tbl !! i = Some s ∧ slot_le s s') →
  table_ok next tbl →
  table_ok next (<[i := s']> tbl) ∧ table_le next tbl next (<[i := s']> tbl).
Proof.
  intros Hs [N Sl U]. split; [split; [done| |]|split; [lia|]].
  - intros j x. rewrite list_lookup_insert_Some. intros [(<-&<-&_)|[_ Hx]] Ha; [|eauto].
    destruct (Hs Ha) as (Hm&?&s&Hi&[L1 L2 L3 L4 L5 _]). destruct (Sl _ _ Hi L1) as (?&?&_).
    rewrite L2. split_and!; [lia..|done].
  - intros j k x y. rewrite !list_lookup_insert_Some.
    intros [(<-&<-&_)|[? Hx]] [(<-&<-&_)|[? Hy]] Ax Ay E; [done| | |eauto].
    + destruct (Hs Ax) as (_&_&s&Hi&[L1 L2 _ _ _ _]). eapply (U i k s y); eauto. congruence.
    + destruct (Hs Ay) as (_&_&s&Hi&[L1 L2 _ _ _ _]). eapply (U j i x s); eauto. congruence.
  - intros j x. rewrite list_lookup_insert_Some. intros [(<-&<-&_)|[_ Hx]] Ha.
    + destruct (Hs Ha) as (_&_&s&Hi&Hle). right. by exists i, s.
    + right. exists j, x. split; [done|by apply slot_le_refl].
Qed.

(** Writing a new object, with the next id, over a slot. *)
Lemma table_create next tbl i s' :
  slot_active s' = true → slot_id s' = next → slot_generation s' = 1 → slot_inv s' →
  next < UINT64_MAX →
  table_ok next tbl →
  table_ok (next + 1) (<[i := s']> tbl) ∧ table_le next tbl (next + 1) (<[i := s']> tbl).
Proof.
  intros Ha' Hid Hg Hinv Hn [N Sl U]. split; [split; [lia| |]|split; [lia|]].
  - intros j x. rewrite list_lookup_insert_Some. intros [(<-&<-&_)|[_ Hx]] Ha.
    + rewrite Hid, Hg. unfold UINT64_MAX. split_and!; [lia..|done].
    + destruct (Sl _ _ Hx Ha) as (?&?&?). split_and!; [lia..|done].
  - intros j k x y. rewrite !list_lookup_insert_Some.
    intros [(<-&<-&_)|[? Hx]] [(<-&<-&_)|[? Hy]] Ax Ay E; [done| | |eauto].
    + destruct (Sl _ _ Hy Ay) as (?&_). lia.
    + destruct (Sl _ _ Hx Ax) as (?&_). lia.
  - intros j x. rewrite list_lookup_insert_Some. intros [(<-&<-&_)|[_ Hx]] Ha.
    + left. lia.
    + right. exists j, x. split; [done|by apply slot_le_refl].
Qed.

(** In a well-formed table the search succeeds on every live object. *)
Lemma find_slot_complete next tbl t required :
  table_ok next tbl → slot_live t required tbl = true → find_slot t required 0 tbl ≠ None.
Proof.
  intros Hok (k&s&Hk&Hm&Hr)%slot_live_spec.
  assert (∀ i tbl', (∀ j x, tbl' !! j = Some x → slot_matches t x = true →
            has_bits (slot_rights x) required = true) →
          (∃ j x, tbl' !! j = Some x ∧ slot_matches t x = true) →
          find_slot t required i tbl' ≠ None) as G.
  { intros i tbl'. revert i. induction tbl' as [|x tbl' IH]; intros i Hall (j&y&Hj&Hy); [done|].
    cbn [find_slot]. destruct (slot_matches t x) eqn:Hx.
    - by rewrite (Hall 0%nat x eq_refl Hx).
    - destruct j as [|j]; [cbn in Hj; congruence|]. apply IH; [intros j' x' Hj'; by apply (Hall (S j'))|].
      by exists j, y. }
  apply G; [|eauto]. intros j x Hj Hx. apply slot_matches_spec in Hm as (M1&M2&M3).
  pose proof Hx as (X1&X2&X3)%slot_matches_spec.
  assert (j = k) as -> by (eapply (to_unique _ _ Hok); eauto; congruence). congruence.
Qed.
End slots.

(** The later slot differs only in data the authority code does not read. *)
Ltac slot_same :=
  split; cbn; [done|done|lia|done|intros _; apply has_bits_refl|first [done|by split]].

(** ** The broker invariant and its evolution *)

Record broker_ok (b : broker) : Prop := {
  bo_buffers : table_ok (b_next_buffer_id b) (b_buffers b);
  bo_descriptors : table_ok (b_next_descriptor_id b) (b_descriptors b);
  bo_channels : table_ok (b_next_channel_id b) (channels_of b);
  bo_tasks : table_ok (b_next_task_id b) (b_tasks b);
  bo_epoch : is_u64 (b_revocation_epoch b);
}.

(** The epoch only grows, until it is terminally 0. *)
Definition epoch_le (e e' : Z) : Prop := e' = 0 ∨ e ≠ 0 ∧ e <= e'.

Record broker_le (b b' : broker) : Prop := {
  ble_runtime : b_runtime b' = b_runtime b;
  ble_key : b_capability_key b' = b_capability_key b;
  ble_epoch : epoch_le (b_revocation_epoch b) (b_revocation_epoch b');
  ble_buffers : table_le (b_next_buffer_id b) (b_buffers b) (b_next_buffer_id b') (b_buffers b');
  ble_descriptors : table_le (b_next_descriptor_id b) (b_descriptors b)
    (b_next_descriptor_id b') (b_descriptors b');
  ble_channels : table_le (b_next_channel_id b) (channels_of b)
    (b_next_channel_id b') (channels_of b');
  ble_tasks : table_le (b_next_task_id b) (b_tasks b) (b_next_task_id b') (b_tasks b');
}.

#[export] Instance broker_le_preorder : PreOrder broker_le.
Proof.
  split.
  - intros b. split; try done; try apply table_le_refl. unfold epoch_le. lia.
  - intros x y z [] []. split; try congruence; try (eapply table_le_trans; eassumption).
    unfold epoch_le in *. lia.
Qed.

(** What no operation changes: where the broker is, whether it is in service, and
    the sizes of its tables. *)
Definition shape (b : broker) :=
  (b_addr b, (b_initialized b, b_lock_initialized b, b_idle_cond_initialized b, b_destroying b),
   (length (b_buffers b), length (b_descriptors b), length <$> b_channels b, length (b_tasks b))).

Lemma shape_addr b b' : shape b' = shape b → b_addr b' = b_addr b.
Proof. unfold shape. congruence. Qed.

(** One transformation of the broker structure. *)
Definition evolve (b b' : broker) : Prop :=
  shape b' = shape b ∧ (broker_ok b → broker_ok b' ∧ broker_le b b').

(** Updates of one slot keep the sizes. *)
Ltac same_shape :=
  unfold shape; cbn; rewrite ?length_insert;
  first [done | match goal with |- context [b_channels ?b] => destruct (b_channels b); cbn; by rewrite ?length_insert end].

#[export] Instance evolve_preorder : PreOrder evolve.
Proof.
  split.
  - intros b. split; [done|]. intros. split; [done|reflexivity].
  - intros x y z [A1 E1] [A2 E2]. split; [congruence|]. intros Hx.
    destruct (E1 Hx) as [Hy L1]. destruct (E2 Hy) as [Hz L2]. split; [done|by etrans].
Qed.

(** A structure update that leaves the runtime, the key, the epoch and all but
    the named table alone. *)
Ltac evolve_other :=
  let Kb := fresh in let Kd := fresh in let Kc := fresh in let Kt := fresh in let Ke := fresh in
  intros; split; [same_shape|]; intros [Kb Kd Kc Kt Ke]; split;
  [split; cbn; auto|split; cbn; auto using table_le_refl; unfold epoch_le; lia].

Lemma evolve_active b n : evolve b (set_b_active_ops n b).
Proof. evolve_other. Qed.

Lemma evolve_ring_sessions b l : evolve b (set_b_ring_sessions l b).
Proof. evolve_other. Qed.

Lemma evolve_transport_sessions b l : evolve b (set_b_transport_sessions l b).
Proof. evolve_other. Qed.

Lemma evolve_subject_nonce b n : evolve b (set_b_next_transport_subject_nonce n b).
Proof. evolve_other. Qed.

Lemma evolve_epoch b e :
  epoch_le (b_revocation_epoch b) e → is_u64 e → evolve b (set_b_revocation_epoch e b).
Proof.
  intros He Hu. split; [done|]. intros [Kb Kd Kc Kt Ke]. split; [by split|].
  split; cbn; auto using table_le_refl.
Qed.

(** What may replace slot [i] of a table. *)
Definition slot_update `{BrokerSlot T} (tbl : list T) (i : nat) (s' : T) : Prop :=
  slot_active s' = true → slot_generation s' <= UINT64_MAX ∧ slot_inv s' ∧
    ∃ s, tbl !! i = Some s ∧ slot_le s s'.

Ltac evolve_table :=
  let Hs := fresh in
  let Kb := fresh in let Kd := fresh in let Kc := fresh in let Kt := fresh in let Ke := fresh in
  intros Hs; split; [same_shape|]; intros [Kb Kd Kc Kt Ke];
  first [destruct (table_update _ _ _ _ Hs Kb)
        |destruct (table_update _ _ _ _ Hs Kd)
        |destruct (table_update _ _ _ _ Hs Kt)];
  split; [split; cbn; auto|split; cbn; auto using table_le_refl; unfold epoch_le; lia].

Lemma evolve_buffer b i s' :
  slot_update (b_buffers b) i s' → evolve b (set_b_buffers (<[i := s']> (b_buffers b)) b).
Proof. evolve_table. Qed.

Lemma evolve_descriptor b i s' :
  slot_update (b_descriptors b) i s' →
  evolve b (set_b_descriptors (<[i := s']> (b_descriptors b)) b).
Proof. evolve_table. Qed.

Lemma evolve_task b i s' :
  slot_update (b_tasks b) i s' → evolve b (set_b_tasks (<[i := s']> (b_tasks b)) b).
Proof. evolve_table. Qed.

Lemma evolve_channel b i s' :
  slot_update (channels_of b) i s' →
  evolve b (set_b_channels ((<[i := s']>) <$> b_channels b) b).
Proof.
  intros Hs. split; [same_shape|]. intros [Kb Kd Kc Kt Ke].
  assert (channels_of (set_b_channels ((<[i := s']>) <$> b_channels b) b)
          = <[i := s']> (channels_of b)) as E.
  { unfold channels_of. cbn. by destruct (b_channels b). }
  destruct (table_update _ _ _ _ Hs Kc).
  split; [split; rewrite ?E; cbn; auto|split; rewrite ?E; cbn; auto using table_le_refl; unfold epoch_le; lia].
Qed.

(** What a create operation writes: a first-generation slot with the next id. *)
Definition slot_fresh `{BrokerSlot T} (next : Z) (s' : T) : Prop :=
  slot_active s' = true ∧ slot_id s' = next ∧ slot_generation s' = 1 ∧ slot_inv s'
  ∧ 0 < next < UINT64_MAX.

Lemma fresh_next next : 0 < next < UINT64_MAX → u64 (next + 1) = next + 1.
Proof. unfold UINT64_MAX. intros. apply u64_small. unfold is_u64. lia. Qed.

Ltac evolve_create i :=
  let Ha := fresh in let Hid := fresh in let Hg := fresh in let Hi := fresh in let Hn := fresh in
  let Kb := fresh in let Kd := fresh in let Kc := fresh in let Kt := fresh in let Ke := fresh in
  intros (Ha&Hid&Hg&Hi&Hn); split; [same_shape|]; intros [Kb Kd Kc Kt Ke];
  first [destruct (table_create _ _ i _ Ha Hid Hg Hi (proj2 Hn) Kb)
        |destruct (table_create _ _ i _ Ha Hid Hg Hi (proj2 Hn) Kd)
        |destruct (table_create _ _ i _ Ha Hid Hg Hi (proj2 Hn) Kt)];
  split; [split; cbn; rewrite ?fresh_next by done; auto
         |split; cbn; rewrite ?fresh_next by done; auto using table_le_refl; unfold epoch_le; lia].

Lemma evolve_create_buffer b i s' :
  slot_fresh (b_next_buffer_id b) s' →
  evolve b (set_b_buffers (<[i := s']> (b_buffers b))
              (set_b_next_buffer_id (u64 (b_next_buffer_id b + 1)) b)).
Proof. evolve_create i. Qed.

Lemma evolve_create_descriptor b i s' :
  slot_fresh (b_next_descriptor_id b) s' →
  evolve b (set_b_descriptors (<[i := s']> (b_descriptors b))
              (set_b_next_descriptor_id (u64 (b_next_descriptor_id b + 1)) b)).
Proof. evolve_create i. Qed.

Lemma evolve_create_task b i s' :
  slot_fresh (b_next_task_id b) s' →
  evolve b (set_b_tasks (<[i := s']> (b_tasks b))
              (set_b_next_task_id (u64 (b_next_task_id b + 1)) b)).
Proof. evolve_create i. Qed.

Lemma evolve_create_channel b i s' :
  slot_fresh (b_next_channel_id b) s' →
  evolve b (set_b_channels ((<[i := s']>) <$> b_channels b)
              (set_b_next_channel_id (u64 (b_next_channel_id b + 1)) b)).
Proof.
  intros (?&?&?&?&Hn). split; [same_shape|]. intros [Kb Kd Kc Kt Ke].
  set (b1 := set_b_next_channel_id (u64 (b_next_channel_id b + 1)) b).
  assert (b_next_channel_id (set_b_channels ((<[i := s']>) <$> b_channels b) b1)
          = b_next_channel_id b + 1) as E2 by (cbn; by rewrite fresh_next).
  destruct (b_channels b) as [tbl|] eqn:Ec.
  - assert (channels_of b = tbl) as Et by (unfold channels_of; by rewrite Ec). rewrite Et in *.
    destruct (table_create (b_next_channel_id b) tbl i s') as [T1 T2]; try done; try lia.
    split; [split|split]; rewrite ?E2, ?Et; cbn; auto using table_le_refl. unfold epoch_le; lia.
  - assert (channels_of b = []) as Et by (unfold channels_of; by rewrite Ec). rewrite Et in *.
    split; [split|split]; rewrite ?E2, ?Et; cbn; auto using table_le_refl.
    + destruct Kc. split; [lia|done..].
    + unfold epoch_le; lia.
    + split; [lia|done].
Qed.

(** ** Steps of the world *)

(** What every operation does to the world: it keeps the thread's frames and
    evolves the broker. *)
Definition step (w w' : world) : Prop :=
  world_ok w → keeps w w' ∧
  ∀ b, w_broker w = Some b → ∃ b', w_broker w' = Some b' ∧ evolve b b'.

#[export] Instance step_preorder : PreOrder step.
Proof.
  split.
  - intros w _. split; [reflexivity|]. intros b Hb. exists b. split; [done|reflexivity].
  - intros x y z S1 S2 Hx. destruct (S1 Hx) as [K1 E1].
    destruct (S2 (proj1 (proj2 K1 Hx))) as [K2 E2]. split; [by etrans|].
    intros b Hb. destruct (E1 b Hb) as (b1&Hb1&L1). destruct (E2 b1 Hb1) as (b2&Hb2&L2).
    exists b2. split; [done|by etrans].
Qed.

Lemma step_world_ok w w' : step w w' → world_ok w → world_ok w'.
Proof. intros S Hok. destruct (S Hok) as [[_ Hk] _]. by apply Hk. Qed.

Lemma step_core_world w w' : same_core w w' → step w w'.
Proof.
  intros Hc _. split; [by apply same_core_keeps|]. intros b Hb. exists b.
  destruct Hc as [Hc _]. split; [congruence|reflexivity].
Qed.

Lemma pres_step_core {A} (m : M A) : pres same_core m → pres step m.
Proof. intros H w. apply step_core_world, H. Qed.

Lemma active_ops_only b b' :
  set_b_active_ops 0 b' = set_b_active_ops 0 b → b' = set_b_active_ops (b_active_ops b') b.
Proof. destruct b, b'. intros [=]. by subst. Qed.

Lemma same_objs_evolve w w' b :
  same_objs w w' → w_broker w = Some b → ∃ b', w_broker w' = Some b' ∧ evolve b b'.
Proof.
  intros [Ho _] Hb. rewrite Hb in Ho. destruct (w_broker w') as [b'|] eqn:Hb'; [|done].
  apply (inj Some) in Ho. exists b'. split; [done|].
  rewrite (active_ops_only b b' Ho). apply evolve_active.
Qed.

Lemma step_upd f w :
  (∀ b, w_broker w = Some b → evolve b (f b)) → step w (set_w_broker (f <$> w_broker w) w).
Proof.
  intros Hf _. destruct (w_broker w) as [b|] eqn:Hb.
  - destruct (Hf b eq_refl) as [Ha He]. split.
    + apply same_thread_keeps; [done|]. cbn. rewrite Hb; cbn. by rewrite (shape_addr _ _ Ha).
    + intros b0 [= <-]. exists (f b). done.
  - split; [by apply same_thread_keeps; cbn; rewrite ?Hb|done].
Qed.

Lemma step_set_broker w w1 b b' :
  w_broker w = Some b → same_core w w1 → evolve b b' → step w (set_w_broker (Some b') w1).
Proof.
  intros Hb (C1&C2&C3) He _. split.
  - apply same_thread_keeps; [done|]. rewrite Hb. cbn. f_equal. apply shape_addr, He.
  - intros b0 Hb0. exists b'. split; [done|]. congruence.
Qed.

Lemma step_evolve w w' b b' :
  w_broker w = Some b → w_broker w' = Some b' → w_tls w' = w_tls w → evolve b b' → step w w'.
Proof.
  intros Hb Hb' Ht He _. split.
  - apply same_thread_keeps; [done|]. rewrite Hb, Hb'. cbn. f_equal. apply shape_addr, He.
  - intros b0 Hb0. exists b'. split; [done|]. congruence.
Qed.

Lemma step_lock : pres step llam_broker_lock.
Proof. apply pres_step_core. intros w. apply lock_cases. Qed.

(** The rule for a whole operation: its body, from any state in which the
    broker is live, and the actions outside it are steps. *)
Lemma pres_with_op {A} (on_fail : Z → M A) body :
  (∀ e, pres step (on_fail e)) →
  (∀ w b, w_broker w = Some b → live_broker b → world_ok w →
     step w (body w).2 ∧ pres step (body w).1) →
  pres step (with_op on_fail body).
Proof.
  intros Hf Hb w Hok. destruct (with_op_spec on_fail body w Hok)
    as [(e&w'&Ho&Hk&->)|(w1&b&w3&Hb1&Hl&Ho&Hok1&Hs&->&Ho3&Hk)].
  - assert (step w w') as S1 by (intros _; split; [done|intros; by eapply same_objs_evolve]).
    apply (transitivity S1 (Hf e w')). done.
  - destruct (Hb w1 b Hb1 Hl Hok1) as [S1 S2].
    assert (step w w3) as S3; [|by apply (transitivity S3 (S2 w3))].
    intros _. destruct (S1 Hok1) as [K1 E1]. split; [by apply Hk|].
    intros b0 Hb0. destruct (same_objs_evolve _ _ _ Ho Hb0) as (b1&Hb1'&L1).
    destruct (E1 b1 Hb1') as (b2&Hb2&L2). destruct (same_objs_evolve _ _ _ Ho3 Hb2) as (b3&Hb3&L3).
    exists b3. split; [done|]. etrans; [done|by etrans].
Qed.

(** ** The authority operations are steps *)

Lemma pres_core_fail e : pres same_core (fail e).
Proof. by intros w. Qed.

Lemma pres_core_fail_with {A} e (a : A) : pres same_core (set_errno e ;; mret a).
Proof. by intros w. Qed.

Lemma pres_core_gets {A} (f : world → A) : pres same_core (gets f).
Proof. by intros w. Qed.

Lemma pres_core_ret {A} (a : A) : pres same_core (mret a).
Proof. by intros w. Qed.

#[export] Hint Resolve pres_core_fail pres_core_fail_with pres_core_gets pres_core_ret : llam.

Lemma pres_core_rights f r : pres same_core (llam_broker_validate_object_rights f r).
Proof. unfold llam_broker_validate_object_rights. intros w. repeat branch; done. Qed.

Lemma validate_rights_cases f r w :
  (llam_broker_validate_object_rights f r w = (0, w) ∧ r ≠ 0)
  ∨ ∃ e, llam_broker_validate_object_rights f r w = (-1, set_w_errno e w) ∧ (e = EINVAL ∨ e = EACCES).
Proof.
  unfold llam_broker_validate_object_rights. destruct (Z.eqb_spec r 0).
  - right. eexists. split; [done|by auto].
  - repeat branch; first [left; done|right; eexists; split; [done|by auto]].
Qed.

Lemma pres_core_subject : pres same_core llam_broker_current_subject.
Proof. intros w. by rewrite current_subject_run. Qed.

Lemma pres_core_issue k o r t : pres same_core (llam_capability_issue k o r t).
Proof. intros w. apply issue_cases. Qed.

Lemma pres_core_validate token required : pres same_core (llam_broker_validate_cap_unlocked token required).
Proof. intros w. destruct (validate_cap_cases token required w) as [[-> _]|(e&->&_)]; done. Qed.

Lemma pres_core_family token f required :
  pres same_core (llam_broker_validate_token_family_unlocked token f required).
Proof. intros w. destruct (validate_family_cases token f required w) as [[-> _]|(e&->&_)]; done. Qed.

(** What minting a token for an object of the broker yields. *)
Lemma issue_object_cases family slot generation rights out w :
  let r := llam_broker_issue_object_cap_unlocked family slot generation rights out w in
  same_core w r.2 ∧
  ((∃ b rid t, w_broker w = Some b ∧ b_runtime b = Some rid ∧ is_Some out ∧ r.1 = (0, Some t) ∧
     token_for (b_capability_key b)
       (CapObject rid family slot generation (b_revocation_epoch b) (cur_subject w)) rights t)
   ∨ r.1 = (-1, (λ _, zero_token) <$> out)).
Proof.
  cbn zeta. unfold llam_broker_issue_object_cap_unlocked, on_broker.
  destruct (w_broker w) as [b|] eqn:Hb; [|split; [core|by right]].
  destruct (b_initialized b) eqn:Hi; [|split; [core|by right]].
  destruct (b_runtime b) as [rid|] eqn:Hr; [|split; [core|by right]]. mon.
  destruct (validate_rights_cases family rights w) as [[-> _]|(e&->&_)]; mon; [|split; [core|by right]].
  rewrite current_subject_run.
  match goal with |- context [llam_capability_issue ?k ?o ?r ?u w] =>
    destruct (issue_cases k o r u w) as [Hc [(k1&o1&t1&[= <-]&[= <-]&Ho&H1&Hf)|[H1 He]]] end.
  - split; [done|]. left. exists b, rid, t1. split_and!; try done. by destruct out.
  - split; [done|]. right. by destruct out.
Qed.

(** The broker can mint: its key, runtime and epoch are valid. *)
Record mints (b : broker) : Prop := {
  mi_init : b_initialized b = true;
  mi_key : llam_cap_key_valid (Some (b_capability_key b)) = true;
  mi_runtime : ∃ rid, b_runtime b = Some rid ∧ rid ≠ 0;
  mi_epoch : b_revocation_epoch b ≠ 0;
}.

(** The environment has entropy for one token. *)
Definition has_entropy (w : world) : Prop :=
  ∃ n0 n1 rest, os_entropy (w_os w) = Some n0 :: Some n1 :: rest ∧ n0 ≠ 0 ∧ n1 ≠ 0.

(** [rights] is a nonzero part of what tokens of [family] may carry. *)
Definition rights_ok (family rights : Z) : Prop :=
  ∀ w, llam_broker_validate_object_rights family rights w = (0, w).

Lemma issue_object_total family slot generation rights old w b :
  w_broker w = Some b → mints b → has_entropy w → rights_ok family rights →
  family ≠ 0 → slot ≠ 0 → slot ≠ UINT64_MAX → generation ≠ 0 →
  (llam_broker_issue_object_cap_unlocked family slot generation rights (Some old) w).1.1 = 0.
Proof.
  intros Hb [Hi Hk (rid&Hr&Hrid) He] (n0&n1&rest&Hent&H0&H1) Hro Hf Hs HM Hg.
  unfold llam_broker_issue_object_cap_unlocked, on_broker. rewrite Hb, Hi, Hr. mon.
  rewrite (Hro w). mon. rewrite current_subject_run.
  assert (rights ≠ 0) as Hr0.
  { intros ->. specialize (Hro w). by unfold llam_broker_validate_object_rights in Hro. }
  by eapply issue_total.
Qed.

Lemma pres_core_issue_object f s g r out :
  pres same_core (llam_broker_issue_object_cap_unlocked f s g r out).
Proof. intros w. apply issue_object_cases. Qed.

(** Operations whose body only reads the broker. *)
Lemma pres_with_op_core {A} (on_fail : Z → M A) body :
  (∀ e, pres same_core (on_fail e)) → pres same_core body →
  (∀ w, pres same_core (body w).1) → pres step (with_op on_fail body).
Proof.
  intros Hf Hb Hk. apply pres_with_op; [intros; by apply pres_step_core|].
  intros w b _ _ _. split; [apply step_core_world, Hb|apply pres_step_core, Hk].
Qed.

Lemma step_issue_object_cap f s g r out : pres step (llam_broker_issue_object_cap f s g r out).
Proof.
  apply pres_with_op_core; [auto with llam| |].
  - apply pres_bind; [apply _|apply pres_core_issue_object|auto with llam].
  - intros w. mon. destruct (llam_broker_issue_object_cap_unlocked _ _ _ _ _ w) as [x w'].
    by intros w''.
Qed.

Lemma step_validate_cap token required : pres step (llam_broker_validate_cap token required).
Proof.
  apply pres_with_op_core; [auto with llam| |].
  - apply pres_bind; [apply _|apply pres_core_validate|auto with llam].
  - intros w. mon. destruct (llam_broker_validate_cap_unlocked _ _ w). by intros w''.
Qed.

Lemma step_attenuate_cap token subset out : pres step (llam_broker_attenuate_cap token subset out).
Proof.
  unfold llam_broker_attenuate_cap. destruct out as [old|]; [|by apply pres_step_core; auto with llam].
  destruct (subset =? 0); [by apply pres_step_core; auto with llam|].
  apply pres_with_op_core; [auto with llam| |].
  - apply pres_bind; [apply _|apply pres_core_validate|]. intros rc.
    apply pres_if; [|auto with llam]. apply pres_bind; [apply _|by intros w|]. intros b.
    apply pres_bind; [apply _| |].
    { apply pres_on_broker; [auto with llam|]. intros b'. apply pres_if; by intros w. }
    intros epoch. apply pres_bind; [apply _|intros w; apply attenuate_cases|].
    intros [rc' t']. auto with llam.
  - intros w. mon. destruct (llam_broker_validate_cap_unlocked _ _ w) as [rc w'].
    destruct (rc =? 0); mon; [|by intros w''].
    destruct (llam_broker_revocation_epoch_unlocked w') as [ep w2].
    destruct (llam_capability_attenuate _ _ _ _ _ w2) as [[rc2 t2] w3]. by intros w4.
Qed.

(** [begin_op] and [end_op] bracketing an unlocked body. *)
Lemma step_begin_end w subj w1 w2 :
  llam_broker_begin_op_subject subj w = (0, w1) → subj = 0 →
  step w1 w2 → step w (llam_broker_end_op w2).2.
Proof.
  intros Hbeg -> S12 Hok. pose proof Hok as [Hwf Hnz].
  pose proof (pres_objs_begin 0 w) as Ho1. pose proof (pres_objs_end w2) as Ho2.
  destruct (w_broker w) as [b|] eqn:Hb.
  2: { unfold llam_broker_begin_op_subject, llam_broker_lock, on_broker in Hbeg.
       mon. rewrite Hb in Hbeg. by mon. }
  destruct (begin_spec 0 w b Hb (Hnz b eq_refl) Hwf) as [[R1 _]|(R1&_&C3&Hen&_)];
    rewrite Hbeg in *; mon; [done|].
  assert (world_ok w1) as Hok1.
  { split; [apply Hen|]. intros b' Hb'. rewrite C3 in Hb'. injection Hb' as <-. exact (Hnz b eq_refl). }
  destruct (S12 Hok1) as [K12 E12]. split.
  - apply (keeps_end w w1 w2 b); try done. by rewrite C3.
  - intros b0 [= <-]. destruct (same_objs_evolve _ _ _ Ho1 Hb) as (b1&Hb1&L1).
    destruct (E12 b1 Hb1) as (b2&Hb2&L2). destruct (same_objs_evolve _ _ _ Ho2 Hb2) as (b3&Hb3&L3).
    exists b3. split; [done|]. etrans; [done|by etrans].
Qed.

Lemma step_begin_fail w : (llam_broker_begin_op w).1 ≠ 0 → step w (llam_broker_begin_op w).2.
Proof.
  intros Hr Hok. apply step_core_world; [|exact Hok]. destruct (w_broker w) as [b|] eqn:Hb.
  - by destruct (begin_spec 0 w b Hb (proj2 Hok b Hb) (proj1 Hok)) as [[_ C]|(R&_)].
  - unfold llam_broker_begin_op, llam_broker_begin_op_subject, llam_broker_lock, on_broker.
    mon. by rewrite Hb.
Qed.

Lemma begin_cases w :
  (∃ rc w1, llam_broker_begin_op w = (rc, w1) ∧ rc ≠ 0 ∧ step w w1)
  ∨ ∃ w1, llam_broker_begin_op w = (0, w1) ∧
      ∀ w2, step w1 w2 → step w (llam_broker_end_op w2).2.
Proof.
  destruct (llam_broker_begin_op w) as [rc w1] eqn:E. destruct (decide (rc = 0)) as [->|Hrc].
  - right. exists w1. split; [done|]. intros w2 S2. by eapply step_begin_end.
  - left. exists rc, w1. split_and!; [done..|]. pose proof (step_begin_fail w) as H.
    rewrite E in H. by apply H.
Qed.

Lemma step_revocation_epoch : pres step llam_broker_revocation_epoch.
Proof.
  intros w. unfold llam_broker_revocation_epoch. mon.
  destruct (begin_cases w) as [(rc&w1&->&Hrc&S1)|(w1&->&S2)]; mon.
  - by rewrite (proj2 (Z.eqb_neq rc 0) Hrc).
  - assert (step w1 (llam_broker_revocation_epoch_unlocked w1).2) as S1.
    { apply pres_step_core, pres_on_broker; [auto with llam|]. intros b. apply pres_if; auto with llam. }
    destruct (llam_broker_revocation_epoch_unlocked w1) as [ep w2]. mon. specialize (S2 _ S1).
    by destruct (llam_broker_end_op w2) as [[] w3].
Qed.

Lemma step_revoke_all : pres step llam_broker_revoke_all.
Proof.
  intros w. unfold llam_broker_revoke_all. mon.
  destruct (begin_cases w) as [(rc&w1&->&Hrc&S1)|(w1&->&S2)]; mon.
  { by rewrite (proj2 (Z.eqb_neq rc 0) Hrc). }
  set (e := b_revocation_epoch (default zero_broker (w_broker w1))).
  assert (∀ v, (∀ b, w_broker w1 = Some b → evolve b (set_b_revocation_epoch v b)) →
    step w (llam_broker_end_op (set_w_broker (set_b_revocation_epoch v <$> w_broker w1) w1)).2) as G.
  { intros v Hv. apply S2. by apply step_upd. }
  branch; mon.
  - destruct (e =? UINT64_MAX) eqn:E; mon.
    + match goal with |- context [llam_broker_end_op ?x] =>
        assert (step w (llam_broker_end_op x).2) as S3; [|destruct (llam_broker_end_op x) as [[] w3]] end.
      { apply G. intros b Hb. apply evolve_epoch; [by left|done]. }
      mon. etrans; [exact S3|by apply step_core_world].
    + assert (step w (llam_broker_end_op w1).2) as S3 by by apply S2.
      destruct (llam_broker_end_op w1) as [[] w3]. mon. etrans; [exact S3|by apply step_core_world].
  - match goal with |- context [llam_broker_end_op ?x] =>
      assert (step w (llam_broker_end_op x).2) as S3; [|by destruct (llam_broker_end_op x) as [[] w3]] end.
    apply G. intros b Hb. unfold e in *. rewrite Hb in *. mon. bools. split; [done|].
    intros Hok. pose proof (bo_epoch _ Hok) as He. unfold UINT64_MAX, is_u64 in *.
    apply evolve_epoch; [|apply u64_range|done]. rewrite u64_small by (unfold is_u64; lia).
    right. lia.
Qed.

Lemma evolve_ok b b' : shape b' = shape b → (broker_ok b → evolve b b') → evolve b b'.
Proof. intros Ha He. split; [done|]. intros Hok. by apply (He Hok). Qed.

Lemma validate_next_cases n w :
  (llam_broker_validate_next_object_id n w = (0, w) ∧ n ≠ 0 ∧ n ≠ UINT64_MAX)
  ∨ ∃ e, llam_broker_validate_next_object_id n w = (-1, set_w_errno e w) ∧ (n = 0 ∨ n = UINT64_MAX).
Proof.
  unfold llam_broker_validate_next_object_id. destruct (Z.eqb_spec n 0); [right; eexists; by auto|].
  destruct (Z.eqb_spec n UINT64_MAX); [right; eexists; by auto|]. by left.
Qed.

Lemma live_in_buffer b t r :
  tok_family t = LLAM_BROKER_CAP_FAMILY_BUFFER → live_in b t r = slot_live t r (b_buffers b).
Proof. intros E. unfold live_in. by rewrite E. Qed.

Lemma live_in_descriptor b t r :
  tok_family t = LLAM_BROKER_CAP_FAMILY_DESCRIPTOR → live_in b t r = slot_live t r (b_descriptors b).
Proof. intros E. unfold live_in. by rewrite E. Qed.

Lemma live_in_channel b t r :
  tok_family t = LLAM_BROKER_CAP_FAMILY_CHANNEL → live_in b t r = slot_live t r (channels_of b).
Proof. intros E. unfold live_in. by rewrite E. Qed.

Lemma live_in_task b t r :
  tok_family t = LLAM_BROKER_CAP_FAMILY_TASK → live_in b t r = slot_live t r (b_tasks b).
Proof. intros E. unfold live_in. by rewrite E. Qed.

Lemma fail_clear_run out len e w :
  0 < len →
  llam_broker_fail_clear_output (Some out) len e w
  = (-1, Some (memzero_at 0 (Z.to_nat len) out), set_w_errno (if negb (e =? 0) then e else EINVAL) w).
Proof. intros. unfold llam_broker_fail_clear_output. by rewrite (proj2 (Z.ltb_lt _ _)). Qed.

Lemma fail_clear_ssize_run out len e w :
  0 < len →
  llam_broker_fail_clear_output_ssize (Some out) len e w
  = (-1, Some (memzero_at 0 (Z.to_nat len) out), set_w_errno (if negb (e =? 0) then e else EINVAL) w).
Proof.
  intros. unfold llam_broker_fail_clear_output_ssize. mon.
  unfold llam_broker_fail_clear_output. by rewrite (proj2 (Z.ltb_lt _ _)).
Qed.

(** An action outside the lock that returns a value satisfying [P] and changes
    nothing but errno and the environment. *)
Definition exits {A} (P : A → Prop) (k : M A) : Prop :=
  ∀ w, same_core w (k w).2 ∧ P (k w).1.

Lemma exits_step {A} (P : A → Prop) (k : M A) : exits P k → pres step k.
Proof. intros H. apply pres_step_core. intros w. apply H. Qed.

(** ** Finding an object *)

(** The object a find function returned: authorized, live, and with rights. *)
Record found `{BrokerSlot T} (family : Z) (table : broker → list T) (w : world)
    (token : option capability_token) (required : Z) (i : nat)
    (b : broker) (t : capability_token) (s : T) : Prop := {
  fo_broker : w_broker w = Some b;
  fo_token : token = Some t;
  fo_family : tok_family t = family;
  fo_authorized : authorized b (cur_subject w) t required;
  fo_slot : table b !! i = Some s;
  fo_matches : slot_matches t s = true;
  fo_rights : has_bits (slot_rights s) required = true;
}.

Lemma found_active `{BrokerSlot T} family (table : broker → list T) w token required i b t s :
  found family table w token required i b t s → slot_active s = true.
Proof. intros [_ _ _ _ _ Hm _]. by apply slot_matches_spec in Hm as (?&_). Qed.

Section find.
Context `{BrokerSlot T} (family : Z) (table : broker → list T).

Lemma find_object_cases token required w :
  let r := find_object_unlocked family table token required w in
  (∃ i b t s, r = (Some i, w) ∧ found family table w token required i b t s)
  ∨ ∃ e, r = (None, set_w_errno e w).
Proof.
  cbn zeta. unfold find_object_unlocked. mon.
  destruct (validate_family_cases token family required w)
    as [[-> (b&t&Hb&->&Hf&Hi&Ha)]|(e&->&_)]; mon.
  - rewrite Hb. mon. destruct (find_slot t required 0 (table b)) as [i|] eqn:E; [|right; by eexists].
    apply find_slot_some in E as (k&s&->&Hk&Hm&Hr). left. by exists k, b, t, s.
  - right. exists e. by destruct token.
Qed.

Lemma pres_core_find token required :
  pres same_core (find_object_unlocked family table token required).
Proof. intros w. by destruct (find_object_cases token required w) as [(i&b&t&s&->&_)|(e&->)]. Qed.

Lemma find_object_complete b t required w next :
  (live_in b t required = slot_live t required (table b)) → table_ok next (table b) →
  w_broker w = Some b → b_initialized b = true → tok_family t = family →
  authorized b (cur_subject w) t required →
  ∃ i s, find_object_unlocked family table (Some t) required w = (Some i, w)
    ∧ found family table w (Some t) required i b t s.
Proof.
  intros Hl Hok Hb Hi Hf Ha.
  assert (find_slot t required 0 (table b) ≠ None) as Hs.
  { eapply find_slot_complete; [done|]. rewrite <- Hl. apply Ha. }
  destruct (find_object_cases (Some t) required w) as [(i&b'&t'&s&E&F)|(e&E)].
  - destruct F as [F1 F2 F3 F4 F5 F6 F7]. rewrite F1 in Hb. injection Hb as ->.
    injection F2 as <-. exists i, s. by split.
  - exfalso. revert E. unfold find_object_unlocked, llam_broker_validate_token_family_unlocked, on_broker.
    mon. rewrite Hb. mon. rewrite (validate_cap_complete b t required w Hb Hi Ha). mon.
    rewrite Hf, Z.eqb_refl. mon. rewrite Hb. mon. by destruct (find_slot t required 0 (table b)).
Qed.
End find.

(** ** When an operation is admitted *)

(** The broker is up, the lock works, and the thread's table has room. *)
Record admits (w : world) (b : broker) : Prop := {
  ad_broker : w_broker w = Some b;
  ad_live : live_broker b;
  ad_destroying : b_destroying b = false;
  ad_pins : b_active_ops b < LLAM_BROKER_ACTIVE_OP_BUSY_SENTINEL - 1;
  ad_lock : os_mutex_lock (w_os w) = [];
  ad_room : match tls_scan (b_addr b) 0 None (w_tls w) with
            | TlsFound i => tls_depth (tls_at i (w_tls w)) < Z.of_nat LLAM_BROKER_TLS_OP_DEPTH
            | TlsEmpty _ => True
            | TlsFull => False
            end;
}.

Lemma begin_admitted w b :
  admits w b →
  ∃ ops', llam_broker_begin_op w
    = (0, set_w_broker (Some (set_b_active_ops (b_active_ops b + 1) b)) (set_w_tls ops' w)).
Proof.
  intros [Hb [Hi Hr Hl] Hd Hp Hm Hroom]. unfold llam_broker_begin_op, llam_broker_begin_op_subject.
  mon. rewrite (lock_free w b) by done. mon.
  unfold llam_broker_current_thread_has_op, on_broker. rewrite ?Hb. mon. rewrite ?Hb. mon.
  rewrite Hi, Hd. destruct (b_runtime b); [|by destruct Hr]. mon.
  rewrite (proj2 (Z.leb_gt _ _) Hp).
  unfold llam_broker_tls_enter_op, on_broker. rewrite ?Hb. mon. rewrite ?Hb.
  destruct (tls_scan (b_addr b) 0 None (w_tls w)) as [i|i|]; [| |done].
  - rewrite (proj2 (Z.leb_gt _ _) Hroom). mon. rewrite ?Hb. by eexists.
  - mon. rewrite ?Hb. by eexists.
Qed.

(** An admitted operation runs its body on the broker it was called on. *)
Lemma with_op_runs {A} (on_fail : Z → M A) (body : M (M A)) w b :
  world_ok w → admits w b →
  ∃ w1 w3, w_broker w1 = Some (set_b_active_ops (b_active_ops b + 1) b)
      ∧ w_os w1 = w_os w ∧ w_rings w1 = w_rings w
      ∧ world_ok w1 ∧ cur_subject w1 = cur_subject w
      ∧ with_op on_fail body w = (body w1).1 w3 ∧ same_objs (body w1).2 w3.
Proof.
  intros Hok Had. destruct (begin_admitted w b Had) as [ops' Hbeg].
  destruct Had as [Hb [Hi Hr Hl] Hd Hp Hm Hroom].
  set (b1 := set_b_active_ops _ b) in *.
  set (w1 := set_w_broker (Some b1) (set_w_tls ops' w)) in *.
  destruct (begin_spec 0 w b Hb (proj2 Hok b Hb) (proj1 Hok)) as [[R1 _]|(R1&_&C3&Hen&_)];
    unfold llam_broker_begin_op in Hbeg; rewrite Hbeg in *; [done|].
  cbn [fst snd] in Hen, C3.
  assert (world_ok w1) as Hok1.
  { split; [apply Hen|]. intros b' [= <-]. exact (proj2 Hok b Hb). }
  exists w1. pose proof (pres_objs_end (body w1).2) as Ho.
  exists (llam_broker_end_op (body w1).2).2. split_and!; try done.
  - rewrite (cur_subject_frames _ _ Hok1 C3), (cur_subject_frames _ _ Hok Hb).
    change (b_addr (set_b_active_ops (b_active_ops b + 1) b)) with (b_addr b).
    rewrite (en_frames _ _ _ _ Hen). apply (subject_of_extend _ 1).
  - unfold with_op, llam_broker_begin_op. mon. rewrite Hbeg. mon.
    rewrite (lock_free w1 b1) by done. mon. destruct (body w1) as [k w2]. mon.
    by destruct (llam_broker_end_op w2) as [[] w3].
Qed.

Lemma live_in_active b n t r : live_in (set_b_active_ops n b) t r = live_in b t r.
Proof. done. Qed.

Lemma authorized_active b n subj t r :
  authorized (set_b_active_ops n b) subj t r ↔ authorized b subj t r.
Proof. split; intros [A B C]; split; done. Qed.

Lemma same_objs_broker w w1 b b1 :
  same_objs w w1 → w_broker w = Some b → w_broker w1 = Some b1 → b1 = set_b_active_ops (b_active_ops b1) b.
Proof.
  intros [Ho _] Hb Hb1. rewrite Hb, Hb1 in Ho. apply (inj Some) in Ho. by apply active_ops_only.
Qed.

(** The same object seen from outside the operation's frame. *)
Lemma found_outer `{BrokerSlot T} family (table : broker → list T) w w1 token required i b b1 t s :
  (∀ n b, table (set_b_active_ops n b) = table b) →
  same_objs w w1 → cur_subject w1 = cur_subject w → w_broker w = Some b →
  found family table w1 token required i b1 t s → found family table w token required i b t s.
Proof.
  intros Ht Ho Hs Hb [F1 F2 F3 F4 F5 F6 F7].
  rewrite (same_objs_broker _ _ _ _ Ho Hb F1) in *. rewrite authorized_active, Hs in F4.
  rewrite Ht in F5. by split.
Qed.

(** C1: The broker's validation is sound and complete for its authority
    specification: it accepts a token only if the token is authentic under the
    broker's key at the current epoch, bound to the calling subject and to this
    runtime, and names a live object whose rights cover the request; and an
    admitted call accepts every such token. *)
Theorem llam_broker_validate_cap_correct w b t required :
  world_ok w → w_broker w = Some b →
  ((llam_broker_validate_cap (Some t) required w).1 = 0 → authorized b (cur_subject w) t required)
  ∧ (admits w b → authorized b (cur_subject w) t required →
     (llam_broker_validate_cap (Some t) required w).1 = 0).
Proof.
  intros Hok Hb. unfold llam_broker_validate_cap. split.
  - match goal with |- context [with_op ?f ?k w] => destruct (with_op_spec f k w Hok)
      as [(e&w'&_&_&->)|(w1&b1&w3&Hb1&Hl&Ho&Hok1&Hs&->&_)] end; [done|]. mon.
    destruct (validate_cap_cases (Some t) required w1) as [[-> (b2&t2&Hb2&[= <-]&_&Ha)]|(e&->&_)]; mon; [|done].
    intros _. rewrite Hb1 in Hb2. injection Hb2 as <-.
    rewrite (same_objs_broker _ _ _ _ Ho Hb Hb1), authorized_active, Hs in Ha. done.
  - intros Had Ha.
    match goal with |- context [with_op ?f ?k w] => destruct (with_op_runs f k w b Hok Had)
      as (w1&w3&Hb1&_&_&Hok1&Hs&->&_) end. mon.
    rewrite (validate_cap_complete (set_b_active_ops (b_active_ops b + 1) b) t required w1); [done|done|apply Had|].
    by rewrite authorized_active, Hs.
Qed.

(** A token narrowed by the broker carries the requested subset of the
    source's rights over the same object and is itself accepted authority; a
    failed call leaves the caller a zeroed token. *)
Theorem llam_broker_attenuate_cap_sound w b token subset old rc out w' :
  world_ok w → w_broker w = Some b →
  llam_broker_attenuate_cap token subset (Some old) w = (rc, out, w') →
  (rc = -1 ∧ out = Some zero_token) ∨
  ∃ t t', rc = 0 ∧ token = Some t ∧ out = Some t' ∧
    authorized b (cur_subject w) t subset ∧ token_object t' = token_object t ∧
    tok_rights t' = subset ∧ has_bits (tok_rights t) subset = true ∧
    authorized b (cur_subject w) t' subset.
Proof.
  intros Hok Hb. unfold llam_broker_attenuate_cap.
  destruct (subset =? 0); [intros [= <- <- _]; by left|].
  match goal with |- context [with_op ?f ?k w] => destruct (with_op_spec f k w Hok)
    as [(e&w0&_&_&->)|(w1&b1&w3&Hb1&Hl&Ho&Hok1&Hs&->&_)] end;
  [intros [= <- <- _]; by left|]. mon.
  destruct (validate_cap_cases ((λ _, default zero_token token) <$> token) subset w1)
    as [[Hv (b2&t2&Hb2&Ht&Hi&Ha)]|(e&Hv&_)]; mon; rewrite Hv; mon; [|intros [= <- <- _]; by left].
  destruct token as [t|]; [|done]. injection Ht as ->. mon.
  rewrite Hb1 in Hb2. injection Hb2 as <-. rewrite Hb1. mon.
  unfold llam_broker_revocation_epoch_unlocked, on_broker. rewrite Hb1, (lb_initialized _ Hl). mon.
  match goal with |- context [llam_capability_attenuate ?k ?t ?s ?e ?o w1] =>
    destruct (attenuate_cases k t s e o w1) as [_ [(k1&t1&t'&[= <-]&[= <-]&_&H1&Hc&Hf)|[H1 _]]];
    destruct (llam_capability_attenuate k t s e o w1) as [r1 w4] end; mon; subst r1; mon;
  intros [= <- <- _]; [right|by left].
  pose proof (same_objs_broker _ _ _ _ Ho Hb Hb1) as Eb. set (n := b_active_ops b1) in *.
  rewrite Eb, authorized_active, Hs in Ha. pose proof Ha as [Av Ar Al].
  exists t2, t'. split_and!; try done.
  - destruct Hf. unfold token_object. cbn in *. congruence.
  - apply Hf.
  - apply Av.
  - destruct Hf as [F1 F2 F3 F4 F5 F6 F7 F8]; cbn in *. split.
    + rewrite Eb in F8; cbn in F8. rewrite <- (cv_subject _ _ _ _ _ Av), <- (cv_epoch _ _ _ _ _ Av).
      apply F8; [apply Av|apply has_bits_refl].
    + by rewrite F2.
    + unfold live_in, slot_live, slot_matches in *. by rewrite F1, F3, F4.
Qed.

(** Revoking everything ends all outstanding authority: after a successful
    call the epoch has advanced by one, after an exhausted one it is the invalid
    epoch 0, and in both cases no token that was authority before is authority
    afterwards, for any subject and any right; nothing else of the broker
    changes. *)
Theorem llam_broker_revoke_all_kills w b e w' :
  world_ok w → w_broker w = Some b → is_u64 (b_revocation_epoch b) → admits w b →
  llam_broker_revoke_all w = (e, w') →
  ∃ b', w_broker w' = Some b' ∧ b_buffers b' = b_buffers b ∧ b_tasks b' = b_tasks b ∧
    (e ≠ 0 ∧ e = b_revocation_epoch b + 1 ∧ b_revocation_epoch b' = e
     ∨ e = 0 ∧ w_errno w' = EOVERFLOW ∧ b_revocation_epoch b' = 0) ∧
    ∀ subj subj' t r r', authorized b subj t r → ¬ authorized b' subj' t r'.
Proof.
  intros Hok Hb Hu Had. unfold llam_broker_revoke_all. mon.
  destruct (begin_admitted w b Had) as [ops' ->]. mon.
  set (b1 := set_b_active_ops _ b).
  assert (∀ v x, (w_broker x = Some (set_b_revocation_epoch v b1)) →
    v ≠ b_revocation_epoch b ∨ v = 0 →
    ∃ b', w_broker (llam_broker_end_op x).2 = Some b' ∧ b_buffers b' = b_buffers b ∧
      b_tasks b' = b_tasks b ∧ b_revocation_epoch b' = v ∧
      ∀ subj subj' t r r', authorized b subj t r → ¬ authorized b' subj' t r') as G.
  { intros v x Hx Hv. destruct (pres_objs_end x) as [Ho _]. rewrite Hx in Ho.
    destruct (w_broker (llam_broker_end_op x).2) as [b'|]; [|done]. apply (inj Some) in Ho.
    apply active_ops_only in Ho. exists b'. rewrite Ho. split_and!; try done.
    intros subj subj' t r r' [A _ _] [A' _ _]. cbn in A'.
    pose proof (cv_epoch _ _ _ _ _ A). pose proof (cv_epoch _ _ _ _ _ A').
    pose proof (cv_epoch_nonzero _ _ _ _ _ A'). lia. }
  change (b_revocation_epoch b1) with (b_revocation_epoch b).
  unfold UINT64_MAX, is_u64 in *. branch; bools.
  - destruct (b_revocation_epoch b =? 2 ^ 64 - 1) eqn:E; mon;
    match goal with |- context [llam_broker_end_op ?x] => destruct (G 0 x) as (b'&?&?&?&?&?);
      [|by right|destruct (llam_broker_end_op x) as [[] w3]] end; mon.
    + done.
    + intros [= <- <-]. exists b'. cbn. split_and!; try done. by right.
    + destruct (Z.eqb_spec (b_revocation_epoch b) 0) as [E0|]; [|done].
      f_equal. unfold b1. rewrite <- E0. by destruct b.
    + intros [= <- <-]. exists b'. cbn. split_and!; try done. by right.
  - rewrite u64_small by (unfold is_u64; lia). mon.
    match goal with |- context [llam_broker_end_op ?x] =>
      destruct (G (b_revocation_epoch b + 1) x) as (b'&?&?&?&?&?);
      [done|left; lia|destruct (llam_broker_end_op x) as [[] w3]] end. mon.
    intros [= <- <-]. exists b'. split_and!; try done. left. split_and!; [lia|done|done].
Qed.

(** ** A concrete object *)

Definition example_slot : buffer_slot :=
  BufferSlot (Some [1; 2; 3; 4]) 4 1 1
    (Z.lor LLAM_CAP_RIGHT_READ LLAM_CAP_RIGHT_WRITE) 0 true.

(** The example broker with one bearer buffer. *)
Definition buffer_broker : broker :=
  set_b_buffers (<[0%nat := example_slot]> (b_buffers example_broker))
    (set_b_next_buffer_id 2 example_broker).

Definition buffer_world : world := set_w_broker (Some buffer_broker) example_world.

Definition buffer_token : capability_token :=
  default zero_token
    (llam_broker_issue_object_cap LLAM_BROKER_CAP_FAMILY_BUFFER 1 1
       (Z.lor LLAM_CAP_RIGHT_READ LLAM_CAP_RIGHT_WRITE) (Some zero_token) buffer_world).1.2.

Lemma buffer_world_ok : world_ok buffer_world.
Proof. split; [apply idle_tls_wf|]. by intros ? [= <-]. Qed.

Lemma buffer_world_admits : admits buffer_world buffer_broker.
Proof. by split; try done; try (split; try done; by eexists). Qed.

Lemma buffer_token_authorized : authorized buffer_broker 0 buffer_token LLAM_CAP_RIGHT_READ.
Proof.
  assert ((llam_broker_validate_cap_unlocked (Some buffer_token) LLAM_CAP_RIGHT_READ
             buffer_world).1 = 0) as E by (vm_compute; reflexivity).
  pose proof (validate_cap_cases (Some buffer_token) LLAM_CAP_RIGHT_READ buffer_world) as H.
  cbv zeta in H. set (r := llam_broker_validate_cap_unlocked _ _ _) in *. clearbody r.
  destruct H as [[_ (b&t&Hb&Ht&_&Ha)]|(e&->&_)]; [|done].
  injection Hb as <-. injection Ht as <-. exact Ha.
Qed.

Lemma llam_broker_validate_cap_correct_witness :
  authorized buffer_broker 0 buffer_token LLAM_CAP_RIGHT_READ.
Proof.
  apply (llam_broker_validate_cap_correct buffer_world buffer_broker buffer_token
           LLAM_CAP_RIGHT_READ buffer_world_ok eq_refl).
  vm_compute. reflexivity.
Defined.

Lemma llam_broker_attenuate_cap_sound_witness :
  match (llam_broker_attenuate_cap (Some buffer_token) LLAM_CAP_RIGHT_READ (Some zero_token)
           buffer_world).1 with
  | (rc, Some t') => rc = 0 ∧ authorized buffer_broker 0 t' LLAM_CAP_RIGHT_READ
  | (_, None) => False
  end.
Proof.
  assert ((llam_broker_attenuate_cap (Some buffer_token) LLAM_CAP_RIGHT_READ (Some zero_token)
             buffer_world).1.1 = 0) as E0 by (vm_compute; reflexivity).
  destruct (llam_broker_attenuate_cap (Some buffer_token) LLAM_CAP_RIGHT_READ (Some zero_token)
              buffer_world) as [[rc out] w'] eqn:E.
  pose proof (llam_broker_attenuate_cap_sound buffer_world buffer_broker _ _ _ _ _ _
              buffer_world_ok eq_refl E) as H. clear E. cbn in E0. subst rc.
  destruct H as [[? _]|(t&t'&_&_&->&_&_&_&_&Ha)]; [done|].
  split; [done|exact Ha].
Defined.

Lemma llam_broker_revoke_all_kills_witness :
  ∃ b', w_broker (llam_broker_revoke_all buffer_world).2 = Some b' ∧
    b_revocation_epoch b' = 2 ∧ ¬ authorized b' 0 buffer_token LLAM_CAP_RIGHT_READ.
Proof.
  assert ((llam_broker_revoke_all buffer_world).1 = 2) as E0 by (vm_compute; reflexivity).
  destruct (llam_broker_revoke_all buffer_world) as [e w'] eqn:E. cbn in E0. subst e.
  pose proof (llam_broker_revoke_all_kills buffer_world buffer_broker 2 w' buffer_world_ok eq_refl
              ltac:(split; [done|reflexivity]) buffer_world_admits E) as H. clear E.
  destruct H as (b'&Hb'&_&_&[(_&_&He)|(?&_)]&Hk); [|done].
  exists b'. split_and!; [exact Hb'|exact He|].
  apply (Hk 0 0 buffer_token LLAM_CAP_RIGHT_READ), buffer_token_authorized.
Defined.

Lemma table_ok_empty `{BrokerSlot T} n (s : T) :
  slot_active s = false → table_ok 1 (replicate n s).
Proof.
  intros Hs. split; [done| |].
  - intros i x [-> _]%lookup_replicate. congruence.
  - intros i j x y [-> _]%lookup_replicate _. congruence.
Qed.

Lemma example_broker_ok : broker_ok example_broker.
Proof. split; try (by apply table_ok_empty). done. Qed.

Lemma buffer_broker_ok : broker_ok buffer_broker.
Proof.
  destruct (evolve_create_buffer example_broker 0 example_slot) as [_ He].
  - split_and!; try done. by exists [1; 2; 3; 4].
  - apply He, example_broker_ok.
Qed.

(** ** What operations log *)

(** Nothing is logged but wake-ups of a waiting destroy. *)
Definition quiet (w w' : world) : Prop :=
  ∃ n, os_log (w_os w') = replicate n EvBroadcast ++ os_log (w_os w).

#[export] Instance quiet_preorder : PreOrder quiet.
Proof.
  split.
  - intros w. by exists 0%nat.
  - intros x y z [n H1] [m H2]. exists (m + n)%nat. by rewrite H2, H1, replicate_add, app_assoc.
Qed.

Lemma quiet_same w w' : os_log (w_os w') = os_log (w_os w) → quiet w w'.
Proof. intros H. by exists 0%nat. Qed.

Lemma pres_quiet_pop {A} (tape : os → list A) set_tape dflt :
  (∀ v o, os_log (set_tape v o) = os_log o) → pres quiet (pop tape set_tape dflt).
Proof. intros H w. apply quiet_same. unfold pop. destruct (tape (w_os w)); [done|]. apply H. Qed.

(** Run [pres] through the structure of a program. *)
Ltac pres_walk :=
  repeat first
    [ assumption
    | by apply pres_ret, _
    | by apply pres_gets, _
    | solve [auto with llam_quiet]
    | apply pres_on_broker; [|intros ?]
    | apply pres_if
    | apply pres_bind; [apply _| |intros ?]
    | progress case_match ].

Create HintDb llam_quiet discriminated.

Lemma pres_quiet_errno e : pres quiet (set_errno e).
Proof. intros w. by apply quiet_same. Qed.

Lemma pres_quiet_fail e : pres quiet (fail e).
Proof. intros w. by apply quiet_same. Qed.

Lemma pres_quiet_get_errno : pres quiet get_errno.
Proof. intros w. by apply quiet_same. Qed.

Lemma pres_quiet_upd f : pres quiet (upd_broker f).
Proof. intros w. by apply quiet_same. Qed.

Lemma pres_quiet_tls ops : pres quiet (modify (set_w_tls ops)).
Proof. intros w. by apply quiet_same. Qed.

Lemma pres_quiet_ret {A} (a : A) : pres quiet (mret a).
Proof. apply pres_ret, _. Qed.

Lemma pres_quiet_gets {A} (f : world → A) : pres quiet (gets f).
Proof. apply pres_gets, _. Qed.

#[export] Hint Resolve pres_quiet_errno pres_quiet_fail pres_quiet_get_errno pres_quiet_upd
  pres_quiet_tls pres_quiet_ret pres_quiet_gets : llam_quiet.

Lemma pres_quiet_broker : pres quiet the_broker.
Proof. apply pres_gets, _. Qed.

Lemma pres_quiet_unlock : pres quiet llam_broker_unlock.
Proof. apply pres_ret, _. Qed.

Lemma pres_quiet_broadcast : pres quiet (log EvBroadcast).
Proof. intros w. by exists 1%nat. Qed.

#[export] Hint Resolve pres_quiet_broker pres_quiet_unlock pres_quiet_broadcast : llam_quiet.

Lemma pres_quiet_lock : pres quiet llam_broker_lock.
Proof. unfold llam_broker_lock. pres_walk. by apply pres_quiet_pop. Qed.

Lemma pres_quiet_has_op : pres quiet llam_broker_current_thread_has_op.
Proof. unfold llam_broker_current_thread_has_op. pres_walk. Qed.

Lemma pres_quiet_subject : pres quiet llam_broker_current_subject.
Proof. unfold llam_broker_current_subject. pres_walk. Qed.

Lemma pres_quiet_enter s : pres quiet (llam_broker_tls_enter_op s).
Proof. unfold llam_broker_tls_enter_op. pres_walk. Qed.

Lemma pres_quiet_leave : pres quiet llam_broker_tls_leave_op.
Proof. unfold llam_broker_tls_leave_op. pres_walk. Qed.

#[export] Hint Resolve pres_quiet_lock pres_quiet_has_op pres_quiet_subject pres_quiet_enter
  pres_quiet_leave : llam_quiet.

Lemma pres_quiet_begin s : pres quiet (llam_broker_begin_op_subject s).
Proof. unfold llam_broker_begin_op_subject. pres_walk. Qed.

Lemma pres_quiet_begin_op : pres quiet llam_broker_begin_op.
Proof. apply pres_quiet_begin. Qed.

Lemma pres_quiet_end : pres quiet llam_broker_end_op.
Proof. unfold llam_broker_end_op. pres_walk. Qed.

#[export] Hint Resolve pres_quiet_begin pres_quiet_begin_op pres_quiet_end : llam_quiet.

Lemma pres_quiet_entropy : pres quiet llam_public_slot_entropy_from_os.
Proof. unfold llam_public_slot_entropy_from_os. pres_walk. by apply pres_quiet_pop. Qed.

Lemma pres_quiet_fallback s : pres quiet (llam_public_slot_fallback_secret s).
Proof. unfold llam_public_slot_fallback_secret. pres_walk. by apply pres_quiet_pop. Qed.

#[export] Hint Resolve pres_quiet_entropy pres_quiet_fallback : llam_quiet.

Lemma pres_quiet_issue k o r t : pres quiet (llam_capability_issue k o r t).
Proof.
  unfold llam_capability_issue, llam_cap_fill_nonce, llam_cap_entropy_word. pres_walk.
Qed.

Lemma pres_quiet_rights f r : pres quiet (llam_broker_validate_object_rights f r).
Proof. unfold llam_broker_validate_object_rights. pres_walk. Qed.

Lemma pres_quiet_next n : pres quiet (llam_broker_validate_next_object_id n).
Proof. unfold llam_broker_validate_next_object_id. pres_walk. Qed.

#[export] Hint Resolve pres_quiet_issue pres_quiet_rights pres_quiet_next : llam_quiet.

Lemma pres_quiet_issue_object f s g r t : pres quiet (llam_broker_issue_object_cap_unlocked f s g r t).
Proof. unfold llam_broker_issue_object_cap_unlocked. pres_walk. Qed.

Lemma quiet_errno e w : quiet w (set_w_errno e w).
Proof. by apply quiet_same. Qed.

Lemma pres_quiet_validate_cap t r : pres quiet (llam_broker_validate_cap_unlocked t r).
Proof.
  intros w. destruct (validate_cap_cases t r w) as [[-> _]|(e&->&_)]; [reflexivity|apply quiet_errno].
Qed.

Lemma pres_quiet_find `{BrokerSlot T} f (tbl : broker → list T) t r :
  pres quiet (find_object_unlocked f tbl t r).
Proof.
  intros w. destruct (find_object_cases f tbl t r w) as [(i&b&x&s&->&_)|(e&->)]; [reflexivity|apply quiet_errno].
Qed.

#[export] Hint Resolve pres_quiet_issue_object pres_quiet_validate_cap pres_quiet_find : llam_quiet.

(** The rule for operations and any relation their bracket respects. *)
Lemma pres_with_op_any {A} (R : world → world → Prop) `{!PreOrder R} (on_fail : Z → M A) body :
  pres R llam_broker_begin_op → pres R llam_broker_lock → pres R llam_broker_end_op →
  (∀ e, pres R (on_fail e)) → pres R body → (∀ w, pres R (body w).1) →
  pres R (with_op on_fail body).
Proof.
  intros Rb Rl Re Hf Hb Hk w. unfold with_op. mon. pose proof (Rb w) as R1.
  destruct (llam_broker_begin_op w) as [rc w1]. mon. destruct (rc =? 0); mon; [|etrans; [exact R1|apply Hf]].
  pose proof (Rl w1) as R2. destruct (llam_broker_lock w1) as [rc2 w2]. mon. destruct (rc2 =? 0); mon.
  - pose proof (Hb w2) as R4. pose proof (Hk w2) as R5. destruct (body w2) as [k w3]. mon.
    pose proof (Re w3) as R3. destruct (llam_broker_end_op w3) as [[] w4]. mon.
    do 4 (etrans; [eassumption|]). apply R5.
  - pose proof (Re w2) as R3. destruct (llam_broker_end_op w2) as [[] w4]. mon.
    do 3 (etrans; [eassumption|]). apply Hf.
Qed.

(** The same objects, and nothing logged but wake-ups. *)
Definition idle (w w' : world) : Prop := same_objs w w' ∧ quiet w w'.

#[export] Instance idle_preorder : PreOrder idle.
Proof.
  split.
  - intros w. by split.
  - intros x y z [A1 B1] [A2 B2]. split; by etrans.
Qed.

(** [with_op_spec] with the log. *)
Lemma with_op_logged {A} (on_fail : Z → M A) (body : M (M A)) w :
  world_ok w →
  (∃ e w', idle w w' ∧ keeps w w' ∧ with_op on_fail body w = on_fail e w')
  ∨ ∃ w1 b w3, w_broker w1 = Some b ∧ live_broker b ∧ idle w w1
      ∧ world_ok w1 ∧ cur_subject w1 = cur_subject w
      ∧ with_op on_fail body w = (body w1).1 w3 ∧ idle (body w1).2 w3
      ∧ (keeps w1 (body w1).2 → keeps w w3).
Proof.
  apply (with_op_related idle); intros x; split;
    [apply pres_objs_begin|apply pres_quiet_begin_op|apply pres_objs_lock|apply pres_quiet_lock
    |apply pres_objs_end|apply pres_quiet_end].
Qed.

(** Neither objects nor the log change. *)
Definition silent (w w' : world) : Prop := same_core w w' ∧ os_log (w_os w') = os_log (w_os w).

#[export] Instance silent_preorder : PreOrder silent.
Proof.
  split.
  - intros w. by split.
  - intros x y z [A1 B1] [A2 B2]. split; [by etrans|congruence].
Qed.

Lemma pres_silent_pop {A} (tape : os → list A) set_tape dflt :
  (∀ v o, os_log (set_tape v o) = os_log o) → pres silent (pop tape set_tape dflt).
Proof.
  intros H w. split; [apply pres_pop|]. unfold pop. destruct (tape (w_os w)); [done|]. apply H.
Qed.

Lemma pres_silent_errno e : pres silent (set_errno e).
Proof. by intros w. Qed.

Lemma pres_silent_fail e : pres silent (fail e).
Proof. by intros w. Qed.

#[export] Hint Resolve pres_silent_errno pres_silent_fail : llam_quiet.

Lemma pres_silent_core {A} (m : M A) : pres silent m → pres same_core m.
Proof. intros H w. apply H. Qed.

Lemma pres_silent_lock : pres silent llam_broker_lock.
Proof. unfold llam_broker_lock. pres_walk. by apply pres_silent_pop. Qed.

(** ** Resource ledgers *)

(** A kind of resource held by the process (descriptors, task handles, storage):
    how an event changes the number of times resource [k] is held, and how many
    objects of the broker are responsible for releasing it. *)
Record resource := Resource {
  res_weight : Z → event → Z;
  res_owned : Z → broker → Z;
}.

(** Wake-ups and pins are not resources. *)
Class ResourceOk (r : resource) : Prop := {
  ro_broadcast : ∀ k, res_weight r k EvBroadcast = 0;
  ro_active : ∀ k n b, res_owned r k (set_b_active_ops n b) = res_owned r k b;
}.

Section ledger.
Context (r : resource) `{!ResourceOk r}.

(** How often [k] is held, by the log. *)
Fixpoint held (k : Z) (l : list event) : Z :=
  match l with
  | [] => 0
  | e :: l => res_weight r k e + held k l
  end.

Definition owned (k : Z) (w : world) : Z :=
  match w_broker w with Some b => res_owned r k b | None => 0 end.

(** What the process holds and no object is responsible for. *)
Definition unowned (k : Z) (w : world) : Z := held k (os_log (w_os w)) - owned k w.

Definition ledger (w w' : world) : Prop := ∀ k, 0 <= k → unowned k w' = unowned k w.

#[export] Instance ledger_preorder : PreOrder ledger.
Proof. split; [by intros w k|]. intros x y z H1 H2 k Hk. by rewrite H2, H1. Qed.

Lemma held_quiet k n l : held k (replicate n EvBroadcast ++ l) = held k l.
Proof. induction n as [|n IH]; [done|]. cbn. by rewrite ro_broadcast, IH. Qed.

Lemma held_silent k es l : Forall (λ e, res_weight r k e = 0) es → held k (es ++ l) = held k l.
Proof. induction 1 as [|e es He _ IH]; [done|]. cbn. by rewrite He, IH. Qed.

Lemma owned_objs k w w' : same_objs w w' → owned k w' = owned k w.
Proof.
  intros [Ho _]. unfold owned. destruct (w_broker w) as [b|], (w_broker w') as [b'|]; try done.
  apply (inj Some) in Ho. by rewrite (active_ops_only _ _ Ho), ro_active.
Qed.

Lemma ledger_idle w w' : same_objs w w' → quiet w w' → ledger w w'.
Proof.
  intros Ho [n L] k _. unfold unowned. by rewrite (owned_objs _ _ _ Ho), L, held_quiet.
Qed.

Lemma ledger_silent w w' : silent w w' → ledger w w'.
Proof. intros [C L] k _. unfold unowned, owned. by rewrite (proj1 C), L. Qed.

Lemma pres_ledger_lock : pres ledger llam_broker_lock.
Proof. intros w. apply ledger_silent, pres_silent_lock. Qed.
End ledger.

(** ** A working lock *)

(** Lock calls keep succeeding. *)
Definition lock_kept (w w' : world) : Prop :=
  os_mutex_lock (w_os w) = [] → os_mutex_lock (w_os w') = [].

#[export] Instance lock_kept_preorder : PreOrder lock_kept.
Proof. split; [by intros w Hw|]. intros x y z H1 H2 H. auto. Qed.

Lemma pres_locks_pop {A} (tape : os → list A) set_tape dflt :
  (∀ v o, os_mutex_lock (set_tape v o) = os_mutex_lock o) → pres lock_kept (pop tape set_tape dflt).
Proof. intros H w Hw. unfold pop. destruct (tape (w_os w)); [done|]. cbn. by rewrite H. Qed.

Lemma pres_locks_errno e : pres lock_kept (set_errno e).
Proof. by intros w Hw. Qed.

Lemma pres_locks_fail e : pres lock_kept (fail e).
Proof. by intros w Hw. Qed.

Lemma pres_locks_get_errno : pres lock_kept get_errno.
Proof. by intros w Hw. Qed.

Lemma pres_locks_upd f : pres lock_kept (upd_broker f).
Proof. by intros w Hw. Qed.

Lemma pres_locks_log e : pres lock_kept (log e).
Proof. by intros w Hw. Qed.

Lemma pres_locks_tls ops : pres lock_kept (modify (set_w_tls ops)).
Proof. by intros w Hw. Qed.

Lemma pres_locks_broker : pres lock_kept the_broker.
Proof. by intros w Hw. Qed.

Lemma pres_locks_unlock : pres lock_kept llam_broker_unlock.
Proof. by intros w Hw. Qed.

Lemma pres_locks_ret {A} (a : A) : pres lock_kept (mret a).
Proof. by intros w Hw. Qed.

#[export] Hint Resolve pres_locks_errno pres_locks_fail pres_locks_get_errno pres_locks_upd
  pres_locks_log pres_locks_tls pres_locks_broker pres_locks_unlock pres_locks_ret : llam_quiet.

Lemma pres_locks_lock : pres lock_kept llam_broker_lock.
Proof.
  unfold llam_broker_lock. pres_walk. intros w Hw. unfold pop. by rewrite Hw.
Qed.

Lemma pres_locks_has_op : pres lock_kept llam_broker_current_thread_has_op.
Proof. unfold llam_broker_current_thread_has_op. pres_walk. Qed.

Lemma pres_locks_subject : pres lock_kept llam_broker_current_subject.
Proof. unfold llam_broker_current_subject. pres_walk. Qed.

Lemma pres_locks_enter s : pres lock_kept (llam_broker_tls_enter_op s).
Proof. unfold llam_broker_tls_enter_op. pres_walk. Qed.

Lemma pres_locks_leave : pres lock_kept llam_broker_tls_leave_op.
Proof. unfold llam_broker_tls_leave_op. pres_walk. Qed.

#[export] Hint Resolve pres_locks_lock pres_locks_has_op pres_locks_subject pres_locks_enter
  pres_locks_leave : llam_quiet.

Lemma pres_locks_begin s : pres lock_kept (llam_broker_begin_op_subject s).
Proof. unfold llam_broker_begin_op_subject. pres_walk. Qed.

Lemma pres_locks_begin_op : pres lock_kept llam_broker_begin_op.
Proof. apply pres_locks_begin. Qed.

Lemma pres_locks_end : pres lock_kept llam_broker_end_op.
Proof. unfold llam_broker_end_op. pres_walk. Qed.

#[export] Hint Resolve pres_locks_begin pres_locks_begin_op pres_locks_end : llam_quiet.

Lemma pres_locks_entropy : pres lock_kept llam_public_slot_entropy_from_os.
Proof. unfold llam_public_slot_entropy_from_os. pres_walk. by apply pres_locks_pop. Qed.

Lemma pres_locks_fallback s : pres lock_kept (llam_public_slot_fallback_secret s).
Proof. unfold llam_public_slot_fallback_secret. pres_walk. by apply pres_locks_pop. Qed.

#[export] Hint Resolve pres_locks_entropy pres_locks_fallback : llam_quiet.

Lemma pres_locks_issue k o r t : pres lock_kept (llam_capability_issue k o r t).
Proof. unfold llam_capability_issue, llam_cap_fill_nonce, llam_cap_entropy_word. pres_walk. Qed.

Lemma pres_locks_rights f r : pres lock_kept (llam_broker_validate_object_rights f r).
Proof. unfold llam_broker_validate_object_rights. pres_walk. Qed.

Lemma pres_locks_next n : pres lock_kept (llam_broker_validate_next_object_id n).
Proof. unfold llam_broker_validate_next_object_id. pres_walk. Qed.

#[export] Hint Resolve pres_locks_issue pres_locks_rights pres_locks_next : llam_quiet.

Lemma pres_locks_issue_object f s g r t :
  pres lock_kept (llam_broker_issue_object_cap_unlocked f s g r t).
Proof. unfold llam_broker_issue_object_cap_unlocked. pres_walk. Qed.

Lemma pres_locks_find `{BrokerSlot T} f (tbl : broker → list T) t r :
  pres lock_kept (find_object_unlocked f tbl t r).
Proof. intros w Hw. by destruct (find_object_cases f tbl t r w) as [(i&b&x&s&->&_)|(e&->)]. Qed.

#[export] Hint Resolve pres_locks_issue_object pres_locks_find : llam_quiet.

(** The lock exists and works. *)
Definition locks (w : world) : Prop :=
  os_mutex_lock (w_os w) = [] ∧ ∀ b, w_broker w = Some b → b_lock_initialized b = true.

Lemma locks_objs w w' : same_objs w w' → lock_kept w w' → locks w → locks w'.
Proof.
  intros [Ho _] Hk [L1 L2]. split; [by apply Hk|]. intros b' Hb'. rewrite Hb' in Ho.
  destruct (w_broker w) as [b|] eqn:Hb; [|done]. apply (inj Some) in Ho.
  rewrite (active_ops_only _ _ Ho). exact (L2 b eq_refl).
Qed.
