(* ===== verification/BrokerBuffer.v ===== *)
(** * Broker buffers ([src/core/broker/broker_buffer.c])

    Registration, reading, writing and reclamation of broker-owned byte buffers.
    The allocation and the release of a buffer's storage are events of the log.

    - reads and writes succeed only with authority over a live buffer and within
      its bounds, computed with 64-bit wrap-around ([read_buffer_sound],
      [write_buffer_sound]);
    - what was written is what is read back, and nothing else changes
      ([write_read_roundtrip]);
    - a registration succeeds whenever its resources are available, and its token
      reads the initial bytes ([register_buffer_roundtrip]). *)

From S2P Require Import Prelude World Capability BrokerOps BrokerCore.

Definition buffer_at (b : broker) (i : nat) : buffer_slot := nth i (b_buffers b) zero_buffer_slot.

(** [free(data)] of a non-NULL buffer. *)
Definition llam_broker_buffer_free_data : M unit := log EvFreeBuffer.

Definition llam_broker_buffer_slot_reset (i : nat) : M unit :=
  b ← the_broker;
  (match bs_data (buffer_at b i) with
   | Some _ => llam_broker_buffer_free_data
   | None => mret tt
   end) ;;
  upd_broker (λ b, set_b_buffers (<[i := zero_buffer_slot]> (b_buffers b)) b).

Definition llam_broker_clear_buffers : M unit :=
  on_broker (mret tt) (λ _, for_each LLAM_BROKER_BUFFER_SLOTS 0 llam_broker_buffer_slot_reset).

Definition llam_broker_reclaim_subject_buffers (subject_id : Z) : M unit :=
  on_broker (mret tt) (λ _,
    if subject_id =? 0 then mret tt
    else
      rc ← llam_broker_lock;
      if negb (rc =? 0) then mret tt
      else
        for_each LLAM_BROKER_BUFFER_SLOTS 0 (λ i,
          b ← the_broker;
          let slot := buffer_at b i in
          if (bs_subject_id slot =? subject_id) && (bs_active slot || negb (is_null (bs_data slot)))
          then llam_broker_buffer_slot_reset i
          else mret tt) ;;
        llam_broker_unlock).

Definition llam_broker_find_buffer_unlocked (token : option capability_token)
    (required_rights : Z) : M (option nat) :=
  find_object_unlocked LLAM_BROKER_CAP_FAMILY_BUFFER b_buffers token required_rights.

(** The part of [llam_broker_register_buffer] under the lock. *)
Definition register_buffer_locked (data : list Z) (length rights : Z)
    (out_token : option capability_token) : M (M (Z * option capability_token)) :=
  let return_minus_1 : M (Z * option capability_token) := mret (-1, out_token) in
  b ← the_broker;
  if negb (b_initialized b) || is_null (b_runtime b)
  then mret (llam_broker_buffer_free_data ;; set_errno EINVAL ;; return_minus_1)
  else
    match first_free (λ s, negb (bs_active s)) 0 (b_buffers b) with
    | None => mret (llam_broker_buffer_free_data ;; set_errno ENOSPC ;; return_minus_1)
    | Some i =>
        rc ← llam_broker_validate_next_object_id (b_next_buffer_id b);
        if negb (rc =? 0) then mret (llam_broker_buffer_free_data ;; return_minus_1)
        else
          llam_broker_buffer_slot_reset i ;;
          subject ← llam_broker_current_subject;
          upd_broker (λ b,
            set_b_buffers
              (<[i := BufferSlot (Some data) length (b_next_buffer_id b) 1 rights subject true]>
                 (b_buffers b))
              (set_b_next_buffer_id (u64 (b_next_buffer_id b + 1)) b)) ;;
          '(rc, out) ← llam_broker_issue_object_cap_unlocked LLAM_BROKER_CAP_FAMILY_BUFFER
                         (b_next_buffer_id b) 1 rights out_token;
          if negb (rc =? 0)
          then llam_broker_buffer_slot_reset i ;; mret (mret (-1, out))
          else mret (mret (0, out))
    end.

(** The bytes a new buffer starts with: zeros, then the caller's data if any. *)
Definition initial_bytes (initial_data : option (list Z)) (length : Z) : list Z :=
  let data := replicate (Z.to_nat length) 0 in
  match initial_data with
  | Some d => memcpy_at 0 (take (Z.to_nat length) d) data
  | None => data
  end.

(** [initial_data] points to [length] bytes, or is NULL. *)
Definition llam_broker_register_buffer (initial_data : option (list Z)) (length rights : Z)
    (out_token : option capability_token) : M (Z * option capability_token) :=
  let out_token := (λ _, zero_token) <$> out_token in
  let return_minus_1 : M (Z * option capability_token) := mret (-1, out_token) in
  null ← gets (λ w, is_null (w_broker w));
  if (null || (length =? 0) || (LLAM_BROKER_BUFFER_MAX_BYTES <? length)
      || (rights =? 0) || is_null out_token)%bool
  then set_errno EINVAL ;; return_minus_1
  else
    rc ← llam_broker_validate_object_rights LLAM_BROKER_CAP_FAMILY_BUFFER rights;
    if negb (rc =? 0) then return_minus_1
    else
      allocated ← pop os_calloc set_os_calloc true;
      if negb (allocated : bool) then set_errno ENOMEM ;; return_minus_1
      else
        log EvAllocBuffer ;;
        with_op (λ _, llam_broker_buffer_free_data ;; return_minus_1)
          (register_buffer_locked (initial_bytes initial_data length) length rights out_token).

(** The range test of reads and writes, on [uint64_t]. *)
Definition range_bad (slot : buffer_slot) (relative_offset length : Z) : bool :=
  let stop := u64 (relative_offset + length) in
  (stop <? relative_offset) || (bs_length slot <? stop).

Definition read_buffer_locked (token : option capability_token) (relative_offset : Z)
    (out_data : list Z) (length : Z) : M (M (Z * option (list Z))) :=
  slot ← llam_broker_find_buffer_unlocked token LLAM_CAP_RIGHT_READ;
  match slot with
  | None =>
      saved_errno ← get_errno;
      mret (llam_broker_fail_clear_output (Some out_data) length saved_errno)
  | Some i =>
      b ← the_broker;
      let slot := buffer_at b i in
      if range_bad slot relative_offset length
      then mret (llam_broker_fail_clear_output (Some out_data) length EINVAL)
      else
        let bytes := bytes_at (Z.to_nat relative_offset) (Z.to_nat length)
                       (default [] (bs_data slot)) in
        mret (mret (0, Some (memcpy_at 0 bytes out_data)))
  end.

(** [out_data] points to [length] bytes. *)
Definition llam_broker_read_buffer (token : option capability_token) (relative_offset : Z)
    (out_data : option (list Z)) (length : Z) : M (Z * option (list Z)) :=
  match out_data with
  | None => set_errno EINVAL ;; mret (-1, None)
  | Some out =>
      if length =? 0 then set_errno EINVAL ;; mret (-1, out_data)
      else
        with_op (λ e, llam_broker_fail_clear_output out_data length e)
          (read_buffer_locked token relative_offset out length)
  end.

(** A write as a transformation of the slot. *)
Definition written (relative_offset : Z) (bytes : list Z) (slot : buffer_slot) : buffer_slot :=
  set_bs_data (memcpy_at (Z.to_nat relative_offset) bytes <$> bs_data slot) slot.

Definition write_buffer_locked (token : option capability_token) (relative_offset : Z)
    (data : list Z) (length : Z) : M (M Z) :=
  slot ← llam_broker_find_buffer_unlocked token LLAM_CAP_RIGHT_WRITE;
  match slot with
  | None => mret (mret (-1))
  | Some i =>
      b ← the_broker;
      let slot := buffer_at b i in
      if range_bad slot relative_offset length then mret (fail EINVAL)
      else
        upd_broker (λ b, set_b_buffers
          (<[i := written relative_offset (take (Z.to_nat length) data) slot]> (b_buffers b)) b) ;;
        mret (mret 0)
  end.

(** [data] points to [length] bytes. *)
Definition llam_broker_write_buffer (token : option capability_token) (relative_offset : Z)
    (data : option (list Z)) (length : Z) : M Z :=
  match data with
  | None => fail EINVAL
  | Some data =>
      if length =? 0 then fail EINVAL
      else with_op (λ _, mret (-1)) (write_buffer_locked token relative_offset data length)
  end.

(** ** Registration *)

Lemma buffer_reset_run i w b :
  w_broker w = Some b →
  ∃ w1, same_core w w1 ∧ os_entropy (w_os w1) = os_entropy (w_os w) ∧
    llam_broker_buffer_slot_reset i w
    = (tt, set_w_broker (Some (set_b_buffers (<[i := zero_buffer_slot]> (b_buffers b)) b)) w1).
Proof.
  intros Hb. unfold llam_broker_buffer_slot_reset, llam_broker_buffer_free_data. mon. rewrite Hb. mon.
  destruct (bs_data (buffer_at b i)); mon; rewrite Hb; mon.
  - eexists. split_and!; [| |reflexivity]; [by split_and!|done].
  - by exists w.
Qed.

Lemma evolve_buffer_reset b i :
  evolve b (set_b_buffers (<[i := zero_buffer_slot]> (b_buffers b)) b).
Proof. apply evolve_buffer. intros [=]. Qed.

Lemma step_buffer_reset i : pres step (llam_broker_buffer_slot_reset i).
Proof.
  intros w. destruct (w_broker w) as [b|] eqn:Hb.
  - destruct (buffer_reset_run i w b Hb) as (w1&Hc&_&->). eapply step_set_broker; [done|done|].
    apply evolve_buffer_reset.
  - apply step_core_world. unfold llam_broker_buffer_slot_reset, llam_broker_buffer_free_data.
    mon. rewrite Hb. destruct (bs_data _); mon; by rewrite Hb.
Qed.

(** What the locked part of a registration did. *)
Record registered (data : list Z) (length rights : Z) (w : world) (b : broker)
    (t : capability_token) (i : nat) (s : buffer_slot) (w' : world) : Prop := {
  rg_free : first_free (λ s, negb (bs_active s)) 0 (b_buffers b) = Some i;
  rg_next : b_next_buffer_id b ≠ 0 ∧ b_next_buffer_id b ≠ UINT64_MAX;
  rg_slot : s = BufferSlot (Some data) length (b_next_buffer_id b) 1 rights (cur_subject w) true;
  rg_broker : w_broker w' = Some (set_b_buffers (<[i := s]> (b_buffers b))
    (set_b_next_buffer_id (u64 (b_next_buffer_id b + 1)) b));
  rg_thread : w_tls w' = w_tls w ∧ w_rings w' = w_rings w;
  rg_token : ∃ rid, b_runtime b = Some rid ∧
    token_for (b_capability_key b) (CapObject rid LLAM_BROKER_CAP_FAMILY_BUFFER
      (b_next_buffer_id b) 1 (b_revocation_epoch b) (cur_subject w)) rights t;
}.

Lemma evolve_register data length rights subj b i :
  Z.of_nat (Datatypes.length data) = length → 0 < length <= LLAM_BROKER_BUFFER_MAX_BYTES →
  b_next_buffer_id b ≠ 0 → b_next_buffer_id b ≠ UINT64_MAX →
  evolve b (set_b_buffers (<[i := BufferSlot (Some data) length (b_next_buffer_id b) 1 rights subj true]>
                             (b_buffers b))
              (set_b_next_buffer_id (u64 (b_next_buffer_id b + 1)) b)).
Proof.
  intros Hlen Hl H0 HM. apply evolve_ok; [same_shape|]. intros Hok. apply evolve_create_buffer.
  pose proof (to_next _ _ (bo_buffers _ Hok)). split_and!; try done; [|lia..].
  exists data. done.
Qed.

Lemma register_locked_cases data length rights w b :
  w_broker w = Some b → live_broker b →
  Z.of_nat (Datatypes.length data) = length → 0 < length <= LLAM_BROKER_BUFFER_MAX_BYTES →
  let r := register_buffer_locked data length rights (Some zero_token) w in
  step w r.2 ∧
  ((exits (λ x, x = (-1, Some zero_token)) r.1 ∧
      (first_free (λ s, negb (bs_active s)) 0 (b_buffers b) = None
       ∨ b_next_buffer_id b = 0 ∨ b_next_buffer_id b = UINT64_MAX
       ∨ ∃ w3 l n, w_broker w3 = Some (set_b_buffers l (set_b_next_buffer_id n b)) ∧
           os_entropy (w_os w3) = os_entropy (w_os w) ∧
           (llam_broker_issue_object_cap_unlocked LLAM_BROKER_CAP_FAMILY_BUFFER
              (b_next_buffer_id b) 1 rights (Some zero_token) w3).1.1 = -1))
   ∨ ∃ t i s, r.1 = mret (0, Some t) ∧ registered data length rights w b t i s r.2).
Proof.
  intros Hb [Hi Hr Hl] Hlen Hlt. cbn zeta. unfold register_buffer_locked. mon. rewrite Hb. mon.
  rewrite Hi. destruct Hr as [rid Hr]. rewrite Hr. mon.
  destruct (first_free _ 0 (b_buffers b)) as [i|] eqn:Hf; mon;
    [|split; [reflexivity|left; split; [by intros w'|by left]]].
  destruct (validate_next_cases (b_next_buffer_id b) w) as [(->&H0&HM)|(e&->&Hbad)]; mon;
    [|split; [by apply step_core_world|left; split; [by intros w'|naive_solver]]].
  destruct (buffer_reset_run i w b Hb) as (w1&(C1&C2&C3)&Hent&->). mon. rewrite current_subject_run. mon.
  set (b1 := set_b_buffers _ b). set (w2 := set_w_broker (Some b1) w1).
  assert (cur_subject w2 = cur_subject w) as Hs.
  { unfold cur_subject. change (w_broker w2) with (Some b1). by rewrite Hb; cbn; rewrite C3. }
  rewrite Hs.
  pose proof (evolve_register data length rights (cur_subject w) b i Hlen Hlt H0 HM) as He.
  set (s := BufferSlot _ _ _ _ _ _ _) in *.
  match goal with |- context [llam_broker_issue_object_cap_unlocked _ _ _ _ _ ?x] => set (w3 := x) end.
  assert (w_broker w3 = Some (set_b_buffers (<[i := s]> (b_buffers b))
    (set_b_next_buffer_id (u64 (b_next_buffer_id b + 1)) b))) as Hb3.
  { change (w_broker w3) with (Some (set_b_buffers
      (<[i := s]> (<[i := zero_buffer_slot]> (b_buffers b)))
      (set_b_next_buffer_id (u64 (b_next_buffer_id b + 1)) b))).
    by rewrite list_insert_insert_eq. }
  assert (cur_subject w3 = cur_subject w) as Hs3.
  { unfold cur_subject. rewrite Hb3, Hb. change (w_tls w3) with (w_tls w1). by rewrite C3. }
  set (b3 := set_b_buffers _ _) in Hb3, He.
  assert (step w w3) as S3.
  { change w3 with (set_w_broker (w_broker w3) w1). rewrite Hb3.
    eapply step_set_broker; [done|by split_and!|done]. }
  match goal with |- context [llam_broker_issue_object_cap_unlocked ?f ?n ?g ?r ?o w3] =>
    destruct (issue_object_cases f n g r o w3) as [Hc [(b'&rid'&t&Hb'&Hr'&_&H1&Ht)|H1]];
    destruct (llam_broker_issue_object_cap_unlocked f n g r o w3) as [r1 w4] eqn:Ei end;
  mon; subst r1; mon.
  - rewrite Hb3 in Hb'. injection Hb' as <-. cbn in Hr'. rewrite Hr in Hr'. injection Hr' as <-.
    split; [etrans; [exact S3|by apply step_core_world]|]. right. exists t, i, s.
    split; [done|]. split; try done.
    + by rewrite (proj1 Hc).
    + destruct Hc as (_&->&->). done.
    + exists rid. split; [done|]. by rewrite Hs3 in Ht.
  - assert (w_broker w4 = Some b3) as Hb4 by (rewrite (proj1 Hc); done).
    destruct (buffer_reset_run i w4 b3 Hb4) as (w5&Hc5&_&->). mon.
    split; [|left; split; [by intros w'|]].
    2: { do 3 right. exists w3, (<[i := s]> (b_buffers b)), (u64 (b_next_buffer_id b + 1)).
         by rewrite Ei. }
    etrans; [exact S3|]. etrans; [by apply step_core_world, Hc|].
    eapply step_set_broker; [done|done|]. apply evolve_buffer_reset.
Qed.

Lemma step_register_buffer data length rights out :
  0 <= length → pres step (llam_broker_register_buffer data length rights out).
Proof.
  intros Hl0. unfold llam_broker_register_buffer. intros w. mon. branch; [by apply step_core_world|].
  bools. destruct out as [old|]; [|done]. mon.
  destruct (validate_rights_cases LLAM_BROKER_CAP_FAMILY_BUFFER rights w) as [[-> _]|(e&->&_)]; mon;
    [|by apply step_core_world].
  pose proof (pres_pop os_calloc set_os_calloc true w) as Hp.
  destruct (pop os_calloc set_os_calloc true w) as [ok w1]. mon. destruct ok; mon;
    [|by apply step_core_world].
  match goal with |- context [with_op ?f ?k ?x] =>
    assert (step w x) as S1 by (by apply step_core_world);
    assert (pres step (with_op f k)) as S2; [|etrans; [exact S1|apply S2]] end.
  apply pres_with_op; [intros e; apply pres_step_core; by intros w2|].
  intros w2 b2 Hb2 Hl Hok2.
  destruct (register_locked_cases (initial_bytes data length) length rights w2 b2 Hb2 Hl)
    as [S3 [[Hx _]|(t&i&s&->&_)]].
  - unfold initial_bytes. destruct data as [d|]; [|rewrite length_replicate; lia].
    rewrite length_memcpy_at; rewrite ?length_replicate, ?length_take; lia.
  - lia.
  - split; [done|by eapply exits_step].
  - split; [done|]. by apply pres_step_core; auto with llam.
Qed.

(** ** Reading and writing *)

Lemma found_buffer_slot w token required i b t s :
  found LLAM_BROKER_CAP_FAMILY_BUFFER b_buffers w token required i b t s → buffer_at b i = s.
Proof. intros F. unfold buffer_at. apply nth_lookup_Some. apply F. Qed.

Lemma read_locked_cases token off out len w :
  0 < len →
  let r := read_buffer_locked token off out len w in
  same_core w r.2 ∧
  (exits (λ x, x = (-1, Some (memzero_at 0 (Z.to_nat len) out))) r.1
   ∨ ∃ i b t s, found LLAM_BROKER_CAP_FAMILY_BUFFER b_buffers w token LLAM_CAP_RIGHT_READ i b t s ∧
       range_bad s off len = false ∧
       r.1 = mret (0, Some (memcpy_at 0
         (bytes_at (Z.to_nat off) (Z.to_nat len) (default [] (bs_data s))) out))).
Proof.
  intros Hlen. cbn zeta. unfold read_buffer_locked, llam_broker_find_buffer_unlocked. mon.
  destruct (find_object_cases LLAM_BROKER_CAP_FAMILY_BUFFER b_buffers token LLAM_CAP_RIGHT_READ w)
    as [(i&b&t&s&->&F)|(e&->)]; mon.
  - rewrite (fo_broker _ _ _ _ _ _ _ _ _ F). mon. rewrite (found_buffer_slot _ _ _ _ _ _ _ F).
    destruct (range_bad s off len) eqn:E; mon; (split; [done|]).
    + left. intros w'. by rewrite fail_clear_run.
    + right. by exists i, b, t, s.
  - split; [done|]. left. intros w'. by rewrite fail_clear_run.
Qed.

Lemma write_locked_cases token off data len w :
  let r := write_buffer_locked token off data len w in
  (exits (λ x, x = -1) r.1 ∧ same_core w r.2)
  ∨ ∃ i b t s, r.1 = mret 0 ∧
      found LLAM_BROKER_CAP_FAMILY_BUFFER b_buffers w token LLAM_CAP_RIGHT_WRITE i b t s ∧
      range_bad s off len = false ∧
      r.2 = set_w_broker (Some (set_b_buffers
              (<[i := written off (take (Z.to_nat len) data) s]> (b_buffers b)) b)) w.
Proof.
  cbn zeta. unfold write_buffer_locked, llam_broker_find_buffer_unlocked. mon.
  destruct (find_object_cases LLAM_BROKER_CAP_FAMILY_BUFFER b_buffers token LLAM_CAP_RIGHT_WRITE w)
    as [(i&b&t&s&->&F)|(e&->)]; mon; [|left; split; by intros].
  pose proof (fo_broker _ _ _ _ _ _ _ _ _ F) as Hb. rewrite Hb. mon.
  rewrite (found_buffer_slot _ _ _ _ _ _ _ F).
  destruct (range_bad s off len) eqn:E; mon; [left; split; by intros|].
  right. exists i, b, t, s. rewrite Hb. done.
Qed.

(** In range means in range: the 64-bit test excludes wrap-around. *)
Lemma range_ok slot off len :
  is_u64 off → is_u64 len → 0 <= bs_length slot < 2 ^ 63 →
  range_bad slot off len = false ↔ off + len <= bs_length slot.
Proof.
  unfold range_bad, u64, is_u64. intros Ho Hl Hs. rewrite orb_false_iff, !Z.ltb_ge.
  destruct (decide (off + len < 2 ^ 64)) as [Hlt|Hge].
  - rewrite Z.mod_small by lia. lia.
  - assert ((off + len) mod 2 ^ 64 = off + len - 2 ^ 64) as ->; [|lia].
    symmetry. apply (Z.mod_unique_pos _ _ 1); lia.
Qed.

(** What the invariant gives for a found buffer. *)
Lemma found_buffer_data w token required i b t s :
  broker_ok b → found LLAM_BROKER_CAP_FAMILY_BUFFER b_buffers w token required i b t s →
  slot_active s = true ∧ slot_generation s <= UINT64_MAX ∧
  ∃ d, bs_data s = Some d ∧ Z.of_nat (length d) = bs_length s ∧ 0 < bs_length s < 2 ^ 63.
Proof.
  intros Hok F. pose proof (fo_matches _ _ _ _ _ _ _ _ _ F) as (M1&_&_)%slot_matches_spec.
  destruct (to_slot _ _ (bo_buffers _ Hok) i s (fo_slot _ _ _ _ _ _ _ _ _ F) M1)
    as (_&Hg&(d&Hd&Hdl&Hdb)).
  unfold LLAM_BROKER_BUFFER_MAX_BYTES in Hdb. split_and!; [done|lia|]. exists d. split_and!; [done..|lia|lia].
Qed.

Lemma evolve_write b i t required w token s off len data :
  found LLAM_BROKER_CAP_FAMILY_BUFFER b_buffers w token required i b t s →
  is_u64 off → is_u64 len → range_bad s off len = false →
  evolve b (set_b_buffers (<[i := written off (take (Z.to_nat len) data) s]> (b_buffers b)) b).
Proof.
  intros F Ho Hl Hr. apply evolve_ok; [same_shape|]. intros Hok.
  destruct (found_buffer_data _ _ _ _ _ _ _ Hok F) as (Ha&Hg&d&Hd&Hdl&Hdb).
  apply range_ok in Hr; [|done|done|lia]. unfold is_u64 in *.
  destruct (to_slot _ _ (bo_buffers _ Hok) i s (fo_slot _ _ _ _ _ _ _ _ _ F) Ha) as (_&_&(d'&_&_&Hb)).
  apply evolve_buffer. intros _. split_and!; [done| |].
  - exists (memcpy_at (Z.to_nat off) (take (Z.to_nat len) data) d). cbn. rewrite Hd.
    split_and!; [done| |lia|lia].
    rewrite length_memcpy_at; [done|]. rewrite length_take. lia.
  - exists s. split; [apply F|]. by slot_same.
Qed.

Lemma step_read_buffer token off out len : 0 <= len → pres step (llam_broker_read_buffer token off out len).
Proof.
  intros Hlen. unfold llam_broker_read_buffer. destruct out as [out|]; [|by apply pres_step_core; auto with llam].
  destruct (Z.eqb_spec len 0); [by apply pres_step_core; auto with llam|].
  apply pres_with_op; [intros e; by apply pres_step_core|]. intros w b Hb Hl Hok.
  destruct (read_locked_cases token off out len w) as [Hc [Hx|(i&b'&t&s&_&_&->)]]; [lia|..].
  - split; [by apply step_core_world|by eapply exits_step].
  - split; [by apply step_core_world|by apply pres_step_core; auto with llam].
Qed.

Lemma step_write_buffer token off data len :
  is_u64 off → is_u64 len → pres step (llam_broker_write_buffer token off data len).
Proof.
  intros Ho Hlen. unfold llam_broker_write_buffer. destruct data as [data|]; [|by apply pres_step_core; auto with llam].
  destruct (Z.eqb_spec len 0); [by apply pres_step_core; auto with llam|].
  apply pres_with_op; [intros e; by apply pres_step_core|]. intros w b Hb Hl Hok.
  destruct (write_locked_cases token off data len w) as [[Hx Hc]|(i&b'&t&s&->&F&Hr&->)].
  - split; [by apply step_core_world|by eapply exits_step].
  - split; [|by apply pres_step_core; auto with llam].
    eapply step_set_broker; [apply F|done|]. by eapply evolve_write.
Qed.

(** ** Reclamation *)

Lemma step_reclaim_buffers subj : pres step (llam_broker_reclaim_subject_buffers subj).
Proof.
  apply pres_on_broker; [apply pres_ret, _|]. intros _. apply pres_if; [apply pres_ret, _|].
  apply pres_bind; [apply _|apply step_lock|]. intros rc. apply pres_if; [apply pres_ret, _|].
  apply pres_bind; [apply _| |intros _; by apply pres_step_core].
  apply pres_for_each; [apply _|]. intros i. apply pres_bind; [apply _|by apply pres_step_core|].
  intros b. apply pres_if; [apply step_buffer_reset|apply pres_ret, _].
Qed.

(** ** Buffer operations as seen by their caller *)

Section buffers.
Context (w : world) (b : broker).
Context (Hok : world_ok w) (Hb : w_broker w = Some b) (Hbok : broker_ok b).

Abbreviation found_buffer := (found LLAM_BROKER_CAP_FAMILY_BUFFER b_buffers).

Lemma read_cases token off out len :
  0 < len →
  let r := llam_broker_read_buffer token off (Some out) len w in
  same_objs w r.2 ∧
  (r.1 = (-1, Some (memzero_at 0 (Z.to_nat len) out))
   ∨ ∃ i t s, found_buffer w token LLAM_CAP_RIGHT_READ i b t s ∧ range_bad s off len = false ∧
       r.1 = (0, Some (memcpy_at 0
         (bytes_at (Z.to_nat off) (Z.to_nat len) (default [] (bs_data s))) out))).
Proof.
  intros Hlen. cbn zeta. unfold llam_broker_read_buffer. rewrite (proj2 (Z.eqb_neq len 0)) by lia.
  match goal with |- context [with_op ?f ?k w] => destruct (with_op_spec f k w Hok)
    as [(e&w'&Ho&_&->)|(w1&b1&w3&Hb1&Hl&Ho&Hok1&Hs&->&Ho3&_)] end.
  { rewrite fail_clear_run by done. split; [done|by left]. }
  destruct (read_locked_cases token off out len w1 Hlen) as [Hc [Hx|(i&b'&t&s&F&Hr&Hx)]].
  - destruct (Hx w3) as [C3 ->]. split; [|by left].
    etrans; [exact Ho|]. etrans; [by apply same_core_objs|]. etrans; [exact Ho3|by apply same_core_objs].
  - rewrite Hx. mon. split.
    + etrans; [exact Ho|]. etrans; [by apply same_core_objs|exact Ho3].
    + right. exists i, t, s. split; [by eapply found_outer|done].
Qed.

Lemma write_cases token off data len :
  let r := llam_broker_write_buffer token off (Some data) len w in
  (r.1 = -1 ∧ same_objs w r.2)
  ∨ ∃ i t s, r.1 = 0 ∧ len ≠ 0 ∧ found_buffer w token LLAM_CAP_RIGHT_WRITE i b t s ∧
       range_bad s off len = false ∧
       ∃ b', w_broker r.2 = Some b' ∧ w_rings r.2 = w_rings w ∧
         b' = set_b_active_ops (b_active_ops b') (set_b_buffers
           (<[i := written off (take (Z.to_nat len) data) s]> (b_buffers b)) b).
Proof.
  cbn zeta. unfold llam_broker_write_buffer. destruct (Z.eqb_spec len 0); [by left|].
  match goal with |- context [with_op ?f ?k w] => destruct (with_op_spec f k w Hok)
    as [(e&w'&Ho&_&->)|(w1&b1&w3&Hb1&Hl&Ho&Hok1&Hs&->&Ho3&_)] end; [by left|].
  destruct (write_locked_cases token off data len w1) as [[Hx Hc]|(i&b'&t&s&Hx&F&Hr&Hw)].
  - destruct (Hx w3) as [C3 ->]. left. split; [done|].
    etrans; [exact Ho|]. etrans; [by apply same_core_objs|]. etrans; [exact Ho3|by apply same_core_objs].
  - rewrite Hx. mon. right. exists i, t, s. split_and!; [done|done|by eapply found_outer|done|].
    rewrite (fo_broker _ _ _ _ _ _ _ _ _ F) in Hb1. injection Hb1 as ->.
    pose proof (same_objs_broker _ _ _ _ Ho Hb (fo_broker _ _ _ _ _ _ _ _ _ F)) as Eb.
    rewrite Hw in Ho3. destruct Ho3 as [Ho3 Hr3]. destruct (w_broker w3) as [b3|] eqn:Hb3; [|done].
    apply (inj Some) in Ho3. apply active_ops_only in Ho3. exists b3. split_and!; [done| |].
    + rewrite Hr3. apply Ho.
    + rewrite Ho3 at 1. rewrite Eb. done.
Qed.
End buffers.

(** A buffer read either fails with the output range zeroed, or it was made
    with READ authority over a live buffer, stayed within the buffer's bounds
    without wrap-around, and copied out exactly the requested bytes; it never
    changes the broker's objects. *)
Theorem read_buffer_sound w b token off out len rc out' w' :
  world_ok w → w_broker w = Some b → broker_ok b → is_u64 off → is_u64 len → 0 < len →
  llam_broker_read_buffer token off (Some out) len w = (rc, out', w') →
  same_objs w w' ∧
  ((rc = -1 ∧ out' = Some (memzero_at 0 (Z.to_nat len) out))
   ∨ ∃ t i s d, rc = 0 ∧ token = Some t ∧ tok_family t = LLAM_BROKER_CAP_FAMILY_BUFFER ∧
       authorized b (cur_subject w) t LLAM_CAP_RIGHT_READ ∧
       b_buffers b !! i = Some s ∧ slot_matches t s = true ∧ bs_data s = Some d ∧
       off + len <= Z.of_nat (length d) ∧
       out' = Some (memcpy_at 0 (bytes_at (Z.to_nat off) (Z.to_nat len) d) out)).
Proof.
  intros Hok Hb Hbok Ho Hlu Hl E. destruct (read_cases w b Hok Hb token off out len Hl)
    as [Hobj Hr]. rewrite E in *. cbn in *. split; [done|].
  destruct Hr as [[= -> ->]|(i&t&s&F&Hr&[= -> ->])]; [by left|right].
  destruct (found_buffer_data _ _ _ _ _ _ _ Hbok F) as (_&_&d&Hd&Hdl&Hdb).
  apply range_ok in Hr; [|done|done|lia]. exists t, i, s, d. rewrite Hd.
  destruct F. split_and!; try done. lia.
Qed.

(** A buffer write either fails and changes no object, or it was made with
    WRITE authority over a live buffer, stayed within its bounds, and changed
    exactly the written bytes of that buffer: every other slot and every other
    part of the broker is as before. *)
Theorem write_buffer_sound w b token off data len rc w' :
  world_ok w → w_broker w = Some b → broker_ok b → is_u64 off → is_u64 len →
  Z.of_nat (length data) = len →
  llam_broker_write_buffer token off (Some data) len w = (rc, w') →
  (rc = -1 ∧ same_objs w w')
  ∨ ∃ t i s d b', rc = 0 ∧ token = Some t ∧ authorized b (cur_subject w) t LLAM_CAP_RIGHT_WRITE ∧
      b_buffers b !! i = Some s ∧ slot_matches t s = true ∧ bs_data s = Some d ∧
      off + len <= Z.of_nat (length d) ∧ w_broker w' = Some b' ∧
      b' = set_b_active_ops (b_active_ops b') (set_b_buffers
             (<[i := set_bs_data (Some (memcpy_at (Z.to_nat off) data d)) s]> (b_buffers b)) b).
Proof.
  intros Hok Hb Hbok Ho Hlu Hl E.
  destruct (write_cases w b Hok Hb token off data len) as [[H1 H2]|(i&t&s&H1&H0&F&Hr&b'&Hb'&_&Eb')];
    rewrite E in *; cbn in *; subst rc; [by left|right].
  destruct (found_buffer_data _ _ _ _ _ _ _ Hbok F) as (_&_&d&Hd&Hdl&Hdb).
  apply range_ok in Hr; [|done|done|lia]. exists t, i, s, d, b'.
  unfold written in Eb'. rewrite Hd, take_ge in Eb' by lia. destruct F. split_and!; try done. lia.
Qed.

(** What is written through one token is what a later read of the same range
    returns through any token for the same buffer. *)
Theorem write_read_roundtrip w b t off data len w1 t' out out' w2 :
  world_ok w → w_broker w = Some b → broker_ok b → is_u64 off → is_u64 len →
  Z.of_nat (length data) = len → world_ok w1 →
  llam_broker_write_buffer (Some t) off (Some data) len w = (0, w1) →
  tok_slot t' = tok_slot t →
  llam_broker_read_buffer (Some t') off (Some out) len w1 = (0, Some out', w2) →
  bytes_at 0 (Z.to_nat len) out' = data.
Proof.
  intros Hok Hb Hbok Ho Hlu Hl Hok1 Ew Ht Er.
  destruct (write_cases w b Hok Hb (Some t) off data len)
    as [[H1 H2]|(i&t0&s&H1&H0&F&Hr&b'&Hb'&_&Eb')]; rewrite Ew in *; cbn [fst snd] in *; [done|].
  destruct (read_cases w1 b' Hok1 Hb' (Some t') off out len) as [_ [E1|(j&t1&s1&F1&Hr1&E1)]];
    [lia|by rewrite Er in E1|]. rewrite Er in E1. injection E1 as ->.
  destruct (found_buffer_data _ _ _ _ _ _ _ Hbok F) as (Ha&_&d&Hd&Hdl&Hdb).
  apply range_ok in Hr; [|done|done|lia]. unfold is_u64 in *.
  destruct F as [_ [= <-] _ _ Fs Fm _]. destruct F1 as [_ [= <-] _ _ Fs1 Fm1 _].
  apply slot_matches_spec in Fm as (M1&M2&_). apply slot_matches_spec in Fm1 as (N1&N2&_).
  assert (s1 = written off data s) as ->.
  { rewrite take_ge in Eb' by lia. rewrite Eb' in Fs1. cbn in Fs1.
    apply list_lookup_insert_Some in Fs1 as [(_&<-&_)|[Hne Hs1]]; [done|].
    exfalso. apply Hne. eapply (to_unique _ _ (bo_buffers _ Hbok)); try done. congruence. }
  cbn. rewrite Hd. cbn. replace (Z.to_nat len) with (length data) by lia.
  rewrite bytes_at_memcpy by lia. apply bytes_at_memcpy_0.
Qed.

(** ** A registered buffer is usable *)

Lemma initial_bytes_all d len :
  Z.of_nat (length d) = len → initial_bytes (Some d) len = d.
Proof.
  intros. unfold initial_bytes, memcpy_at. rewrite take_0, take_ge by lia.
  rewrite drop_ge by (rewrite length_replicate; lia). by rewrite app_nil_r.
Qed.

(** The new slot authorizes its token in every state with the same objects. *)
Lemma registered_authorized data len rights w b t i s w' required :
  registered data len rights w b t i s w' → required ≠ 0 → has_bits rights required = true →
  ∃ b', w_broker w' = Some b' ∧ b_buffers b' !! i = Some s ∧ b_initialized b' = b_initialized b ∧
    tok_family t = LLAM_BROKER_CAP_FAMILY_BUFFER ∧ slot_matches t s = true ∧
    authorized b' (cur_subject w) t required.
Proof.
  intros [R1 R2 R3 R4 R5 (rid&Hrid&[T1 T2 T3 T4 T5 T6 T7 T8])] Hreq Hbits. cbn in *.
  apply first_free_some in R1 as (k&s0&->&Hk&_). cbn in R4. 
  eexists. split; [exact R4|].
  assert (<[k := s]> (b_buffers b) !! k = Some s) as Hks.
  { apply list_lookup_insert_eq. by eapply lookup_lt_Some. }
  assert (slot_matches t s = true) as Hm.
  { apply slot_matches_spec. rewrite R3. by cbn. }
  split_and!; [done|done|done|done|]. split; [by apply T8|by rewrite T2|].
  rewrite live_in_buffer by done. apply slot_live_spec. exists k, s.
  split_and!; [done|done|]. by rewrite R3.
Qed.

(** Registering a buffer succeeds whenever the arguments are valid and a
    slot, an id, memory and entropy are available, and the token it returns reads
    the initial bytes back, in any later state with the same objects in which the
    same subject's call is admitted. *)
Theorem register_buffer_roundtrip w b d len rights old :
  world_ok w → admits w b → broker_ok b → mints b → has_entropy w →
  rights_ok LLAM_BROKER_CAP_FAMILY_BUFFER rights → has_bits rights LLAM_CAP_RIGHT_READ = true →
  0 < len <= LLAM_BROKER_BUFFER_MAX_BYTES → Z.of_nat (length d) = len →
  os_calloc (w_os w) = [] → is_Some (first_free (λ s, negb (bs_active s)) 0 (b_buffers b)) →
  b_next_buffer_id b ≠ UINT64_MAX →
  ∃ t w', llam_broker_register_buffer (Some d) len rights (Some old) w = (0, Some t, w') ∧
    ∀ w2 b2 out, world_ok w2 → admits w2 b2 → broker_ok b2 → same_objs w' w2 →
      cur_subject w2 = cur_subject w →
      (llam_broker_read_buffer (Some t) 0 (Some out) len w2).1 = (0, Some (memcpy_at 0 d out)).
Proof.
  intros Hok Had Hbok Hmi Hent Hro Hrd Hlen Hd Hca Hff Hnext.
  pose proof (to_next _ _ (bo_buffers _ Hbok)) as Hn.
  assert (rights ≠ 0) as Hr0.
  { intros ->. specialize (Hro w). by unfold llam_broker_validate_object_rights in Hro. }
  unfold llam_broker_register_buffer. mon. rewrite (ad_broker _ _ Had). mon.
  rewrite (proj2 (Z.eqb_neq len 0)), (proj2 (Z.ltb_ge _ _)), (proj2 (Z.eqb_neq rights 0)) by lia. mon.
  rewrite (Hro w). mon. unfold pop. rewrite Hca. mon. rewrite initial_bytes_all by done.
  match goal with |- context [with_op ?f ?k ?x] =>
    destruct (with_op_runs f k x b) as (w1&w3&Hb1&Hos&_&Hok1&Hs1&->&Ho3) end; [done|by destruct Had|].
  set (b1 := set_b_active_ops _ b) in *.
  destruct (register_locked_cases d len rights w1 b1 Hb1) as [_ [[_ Hbad]|(t&i&s&Hx&Hreg)]];
    [by destruct Had as [_ [] _ _ _ _]|done|done| |].
  - exfalso. destruct Hbad as [Hb0|[Hb0|[Hb0|(w4&l&n&Hb4&He4&Hi4)]]];
      [|cbn in Hb0; lia|by cbn in Hb0|].
    { cbn in Hb0. rewrite Hb0 in Hff. by destruct Hff. }
    rewrite (issue_object_total _ _ _ _ _ _ _ Hb4) in Hi4; try done; [by destruct Hmi| |cbn; lia].
    unfold has_entropy. rewrite He4, Hos. done.
  - rewrite Hx. exists t, w3. split; [done|]. intros w2 b2 out Hok2 Had2 Hbok2 Ho2 Hs2.
    destruct (registered_authorized _ _ _ _ _ _ _ _ _ LLAM_CAP_RIGHT_READ Hreg ltac:(done) Hrd)
      as (b'&Hb'&Hi'&Hin'&Hf'&Hm'&Ha').
    assert (same_objs (register_buffer_locked d len rights (Some zero_token) w1).2 w2) as Ho
      by by etrans.
    pose proof (same_objs_broker _ _ _ _ Ho Hb' (ad_broker _ _ Had2)) as Eb2.
    unfold llam_broker_read_buffer. rewrite (proj2 (Z.eqb_neq len 0)) by lia.
    match goal with |- context [with_op ?f ?k ?x] =>
      destruct (with_op_runs f k x b2 Hok2 Had2) as (w5&w6&Hb5&_&_&Hok5&Hs5&->&_) end.
    destruct (find_object_complete LLAM_BROKER_CAP_FAMILY_BUFFER b_buffers
      (set_b_active_ops (b_active_ops b2 + 1) b2) t LLAM_CAP_RIGHT_READ w5 (b_next_buffer_id b2))
      as (j&s'&Hfind&F); [|apply Hbok2|done|apply Had2|done| |].
    { by apply live_in_buffer. }
    { rewrite authorized_active, Eb2, authorized_active, Hs5, Hs2.
      change (cur_subject w) with (cur_subject (set_w_os (set_os_log
         (EvAllocBuffer :: os_log (w_os w)) (w_os w)) w)). rewrite <- Hs1. done. }
    destruct F as [_ _ _ _ Fs Fm _]. cbn in Fs. rewrite Eb2 in Fs. cbn in Fs.
    assert (s' = s) as ->.
    { apply slot_matches_spec in Fm as (M1&M2&_). pose proof Hm' as (N1&N2&_)%slot_matches_spec.
      rewrite Eb2 in Hbok2. assert (j = i) as ->; [|congruence].
      eapply (to_unique _ _ (bo_buffers _ Hbok2)); [exact Fs|exact Hi'|done|done|congruence]. }
    unfold read_buffer_locked, llam_broker_find_buffer_unlocked. mon. rewrite Hfind. mon.
    rewrite Hb5. mon. unfold buffer_at. rewrite (nth_lookup_Some _ _ _ s) by (by rewrite Eb2).
    rewrite (rg_slot _ _ _ _ _ _ _ _ _ Hreg). unfold range_bad. cbn [bs_length bs_data].
    unfold LLAM_BROKER_BUFFER_MAX_BYTES in Hlen.
    rewrite Z.add_0_l, u64_small by (unfold is_u64; lia).
    rewrite (proj2 (Z.ltb_ge _ _)), Z.ltb_irrefl by lia. mon.
    unfold bytes_at. rewrite drop_0, take_ge by lia. done.
Qed.

Lemma read_buffer_sound_witness :
  (llam_broker_read_buffer (Some buffer_token) 1 (Some [9; 9; 9]) 2 buffer_world).1
  = (0, Some [2; 3; 9]).
Proof.
  assert ((llam_broker_read_buffer (Some buffer_token) 1 (Some [9; 9; 9]) 2 buffer_world).1.1 = 0)
    as E0 by (vm_compute; reflexivity).
  destruct (llam_broker_read_buffer (Some buffer_token) 1 (Some [9; 9; 9]) 2 buffer_world)
    as [[rc out] w'] eqn:E.
  pose proof (read_buffer_sound buffer_world buffer_broker (Some buffer_token) 1 [9; 9; 9] 2 rc out w'
    buffer_world_ok eq_refl buffer_broker_ok (is_u64_b 1 eq_refl)
    (is_u64_b 2 eq_refl) ltac:(done) E) as [_ H]. clear E. cbn in E0. subst rc.
  destruct H as [[? _]|(t&i&s&d&_&_&_&_&Hi&Hm&Hd&_&->)]; [done|]. cbn [fst].
  destruct i as [|i].
  - cbn in Hi. injection Hi as <-. injection Hd as <-. reflexivity.
  - exfalso. change (replicate 63 zero_buffer_slot !! i = Some s) in Hi.
    by apply lookup_replicate in Hi as [-> _].
Defined.

Lemma write_buffer_sound_witness :
  ∃ b', w_broker (llam_broker_write_buffer (Some buffer_token) 1 (Some [7; 8]) 2 buffer_world).2
        = Some b' ∧ bs_data (buffer_at b' 0) = Some [1; 7; 8; 4].
Proof.
  assert ((llam_broker_write_buffer (Some buffer_token) 1 (Some [7; 8]) 2 buffer_world).1 = 0)
    as E0 by (vm_compute; reflexivity).
  destruct (llam_broker_write_buffer (Some buffer_token) 1 (Some [7; 8]) 2 buffer_world)
    as [rc w'] eqn:E.
  pose proof (write_buffer_sound buffer_world buffer_broker (Some buffer_token) 1 [7; 8] 2 rc w'
    buffer_world_ok eq_refl buffer_broker_ok (is_u64_b 1 eq_refl)
    (is_u64_b 2 eq_refl) eq_refl E) as H. clear E. cbn in E0. subst rc.
  destruct H as [[? _]|(t&i&s&d&b'&_&_&_&Hi&Hm&Hd&_&Hb'&Eb')]; [done|]. exists b'. split; [exact Hb'|]. rewrite Eb'.
  destruct i as [|i].
  - cbn in Hi. injection Hi as <-. injection Hd as <-. reflexivity.
  - exfalso. change (replicate 63 zero_buffer_slot !! i = Some s) in Hi.
    by apply lookup_replicate in Hi as [-> _].
Defined.

Lemma written_world_ok :
  world_ok (llam_broker_write_buffer (Some buffer_token) 1 (Some [7; 8]) 2 buffer_world).2.
Proof.
  apply (step_world_ok buffer_world); [|apply buffer_world_ok].
  exact (step_write_buffer (Some buffer_token) 1 (Some [7; 8]) 2
           (is_u64_b 1 eq_refl) (is_u64_b 2 eq_refl) buffer_world).
Qed.

Lemma write_read_roundtrip_witness :
  let w1 := (llam_broker_write_buffer (Some buffer_token) 1 (Some [7; 8]) 2 buffer_world).2 in
  let r := llam_broker_read_buffer (Some buffer_token) 1 (Some [0; 0]) 2 w1 in
  bytes_at 0 2 (default [] r.1.2) = [7; 8].
Proof.
  cbn zeta. pose proof written_world_ok as Hok1.
  assert ((llam_broker_write_buffer (Some buffer_token) 1 (Some [7; 8]) 2 buffer_world).1 = 0)
    as E0 by (vm_compute; reflexivity).
  assert (match llam_broker_read_buffer (Some buffer_token) 1 (Some [0; 0]) 2
      (llam_broker_write_buffer (Some buffer_token) 1 (Some [7; 8]) 2 buffer_world).2 with
      (rc, out, _) => rc = 0 ∧ is_null out = false end)
    as E1 by (vm_compute; split; reflexivity).
  destruct (llam_broker_write_buffer (Some buffer_token) 1 (Some [7; 8]) 2 buffer_world)
    as [rc w1] eqn:Ew. cbn [fst snd] in *. subst rc.
  destruct (llam_broker_read_buffer (Some buffer_token) 1 (Some [0; 0]) 2 w1) as [[rc [out|]] w2] eqn:Er;
    destruct E1 as [-> E2]; [|discriminate E2].
  exact (write_read_roundtrip buffer_world buffer_broker buffer_token 1 [7; 8] 2 w1 buffer_token
    [0; 0] out w2 buffer_world_ok eq_refl buffer_broker_ok (is_u64_b 1 eq_refl)
    (is_u64_b 2 eq_refl) eq_refl Hok1 Ew eq_refl Er).
Defined.

Lemma register_buffer_roundtrip_witness :
  ∃ t w', llam_broker_register_buffer (Some [5; 6; 7]) 3 LLAM_CAP_RIGHT_READ (Some zero_token)
            example_world = (0, Some t, w') ∧
    ∀ w2 b2 out, world_ok w2 → admits w2 b2 → broker_ok b2 → same_objs w' w2 →
      cur_subject w2 = 0 →
      (llam_broker_read_buffer (Some t) 0 (Some out) 3 w2).1 = (0, Some (memcpy_at 0 [5; 6; 7] out)).
Proof.
  apply (register_buffer_roundtrip example_world example_broker [5; 6; 7] 3 LLAM_CAP_RIGHT_READ
    zero_token example_world_ok).
  - split; done.
  - apply example_broker_ok.
  - split; try done. by exists 7.
  - by exists 17, 23, (Some <$> [29; 31; 37; 41; 43; 47; 53; 59; 61; 67]).
  - intros w. reflexivity.
  - reflexivity.
  - done.
  - reflexivity.
  - reflexivity.
  - by exists 0%nat.
  - done.
Defined.
