(* ===== verification/BrokerChannel.v ===== *)
(** * Broker channels ([src/core/broker/broker_channel.c])

    Bounded message channels: a ring of fixed-size messages in the slot.

    - [queue_of] is the specification state of a channel, the list of queued
      messages, and [channel_inv] relates it to head, tail and count;
    - send, receive and close refine append, remove-first and close on that list
      ([channel_send_refines], [channel_recv_refines]), with the error of each
      refusal;
    - creation may reuse the slot of a closed and drained channel, whose old
      tokens then die with its id. *)

From S2P Require Import Prelude World Capability BrokerOps BrokerCore.

Definition channel_at (b : broker) (i : nat) : channel_slot := nth i (channels_of b) zero_channel_slot.

Definition upd_channel (i : nat) (f : channel_slot → channel_slot) : M unit :=
  upd_broker (λ b, set_b_channels ((<[i := f (channel_at b i)]>) <$> b_channels b) b).

Definition llam_broker_clear_channels : M unit :=
  on_broker (mret tt) (λ b,
    match b_channels b with
    | None => mret tt
    | Some _ => for_each LLAM_BROKER_CHANNEL_SLOTS 0 (λ i, upd_channel i (λ _, zero_channel_slot))
    end).

Definition llam_broker_reclaim_subject_channels (subject_id : Z) : M unit :=
  on_broker (mret tt) (λ b,
    if is_null (b_channels b) || (subject_id =? 0) then mret tt
    else
      rc ← llam_broker_lock;
      if negb (rc =? 0) then mret tt
      else
        for_each LLAM_BROKER_CHANNEL_SLOTS 0 (λ i,
          b ← the_broker;
          let slot := channel_at b i in
          if cs_active slot && (cs_subject_id slot =? subject_id)
          then upd_channel i (λ _, zero_channel_slot)
          else mret tt) ;;
        llam_broker_unlock).

Definition llam_broker_find_channel_unlocked (token : option capability_token)
    (required_rights : Z) : M (option nat) :=
  on_broker (set_errno EINVAL ;; mret None) (λ b,
    if is_null (b_channels b) then set_errno EINVAL ;; mret None
    else find_object_unlocked LLAM_BROKER_CAP_FAMILY_CHANNEL channels_of token required_rights).

(** A slot creation may take: free, or closed and drained. *)
Definition channel_reusable (slot : channel_slot) : bool :=
  negb (cs_active slot) || (cs_closed slot && (cs_count slot =? 0)).

Definition new_channel (capacity id rights subject : Z) : channel_slot :=
  ChannelSlot (cs_messages zero_channel_slot) capacity 0 0 0 id 1 rights subject true false.

Definition create_channel_locked (capacity rights : Z) (out_token : option capability_token)
    : M (M (Z * option capability_token)) :=
  let return_minus_1 : M (Z * option capability_token) := mret (-1, out_token) in
  b ← the_broker;
  if negb (b_initialized b) || is_null (b_runtime b)
  then mret (set_errno EINVAL ;; return_minus_1)
  else
    match first_free channel_reusable 0 (channels_of b) with
    | None => mret (set_errno ENOSPC ;; return_minus_1)
    | Some i =>
        rc ← llam_broker_validate_next_object_id (b_next_channel_id b);
        if negb (rc =? 0) then mret return_minus_1
        else
          subject ← llam_broker_current_subject;
          upd_broker (λ b,
            set_b_channels
              ((<[i := new_channel capacity (b_next_channel_id b) rights subject]>) <$> b_channels b)
              (set_b_next_channel_id (u64 (b_next_channel_id b + 1)) b)) ;;
          '(rc, out) ← llam_broker_issue_object_cap_unlocked LLAM_BROKER_CAP_FAMILY_CHANNEL
                         (b_next_channel_id b) 1 rights out_token;
          if negb (rc =? 0)
          then upd_channel i (λ _, zero_channel_slot) ;; mret (mret (-1, out))
          else mret (mret (0, out))
    end.

Definition llam_broker_create_channel (capacity rights : Z) (out_token : option capability_token)
    : M (Z * option capability_token) :=
  let out_token := (λ _, zero_token) <$> out_token in
  bad ← gets (λ w, match w_broker w with None => true | Some b => is_null (b_channels b) end);
  if (bad || (capacity =? 0) || (LLAM_BROKER_CHANNEL_CAPACITY <? capacity)
      || (rights =? 0) || is_null out_token)%bool
  then set_errno EINVAL ;; mret (-1, out_token)
  else
    rc ← llam_broker_validate_object_rights LLAM_BROKER_CAP_FAMILY_CHANNEL rights;
    if negb (rc =? 0) then mret (-1, out_token)
    else
      with_op (λ _, mret (-1, out_token)) (create_channel_locked capacity rights out_token).

Definition message_at (slot : channel_slot) (i : Z) : channel_message :=
  nth (Z.to_nat i) (cs_messages slot) zero_channel_message.

(** [memcpy(message->data, data, length); message->length = length; ...] *)
Definition enqueue (data : list Z) (length : Z) (slot : channel_slot) : channel_slot :=
  let message := message_at slot (cs_tail slot) in
  let message := ChannelMessage length (memcpy_at 0 (take (Z.to_nat length) data) (cm_data message)) in
  set_cs_count (cs_count slot + 1)
    (set_cs_tail ((cs_tail slot + 1) mod cs_capacity slot)
       (set_cs_messages (<[Z.to_nat (cs_tail slot) := message]> (cs_messages slot)) slot)).

Definition channel_send_locked (token : option capability_token) (data : list Z) (length : Z)
    : M (M Z) :=
  slot ← llam_broker_find_channel_unlocked token LLAM_CAP_RIGHT_SEND;
  match slot with
  | None => mret (mret (-1))
  | Some i =>
      b ← the_broker;
      let slot := channel_at b i in
      if cs_closed slot then mret (fail EPIPE)
      else if cs_capacity slot <=? cs_count slot then mret (fail EAGAIN)
      else upd_channel i (enqueue data length) ;; mret (mret 0)
  end.

(** [data] points to [length] bytes. *)
Definition llam_broker_channel_send (token : option capability_token) (data : option (list Z))
    (length : Z) : M Z :=
  match data with
  | None => fail EINVAL
  | Some data =>
      if (length =? 0) || (LLAM_BROKER_CHANNEL_MESSAGE_BYTES <? length) then fail EINVAL
      else with_op (λ _, mret (-1)) (channel_send_locked token data length)
  end.

(** [memset(message, 0, ...); slot->head = ...; slot->count -= 1] *)
Definition dequeue (slot : channel_slot) : channel_slot :=
  set_cs_count (cs_count slot - 1)
    (set_cs_head ((cs_head slot + 1) mod cs_capacity slot)
       (set_cs_messages (<[Z.to_nat (cs_head slot) := zero_channel_message]> (cs_messages slot)) slot)).

Definition channel_recv_locked (token : option capability_token) (out_data : list Z) (capacity : Z)
    : M (M (Z * option (list Z))) :=
  slot ← llam_broker_find_channel_unlocked token LLAM_CAP_RIGHT_RECV;
  match slot with
  | None =>
      saved_errno ← get_errno;
      mret (llam_broker_fail_clear_output_ssize (Some out_data) capacity saved_errno)
  | Some i =>
      b ← the_broker;
      let slot := channel_at b i in
      if cs_count slot =? 0
      then
        let saved_errno := if cs_closed slot then EPIPE else EAGAIN in
        mret (llam_broker_fail_clear_output_ssize (Some out_data) capacity saved_errno)
      else
        let message := message_at slot (cs_head slot) in
        let length := cm_length message in
        if capacity <? length
        then mret (llam_broker_fail_clear_output_ssize (Some out_data) capacity EMSGSIZE)
        else
          let out_data := memcpy_at 0 (bytes_at 0 (Z.to_nat length) (cm_data message)) out_data in
          '(_, out_data) ← llam_broker_finish_read_clear_tail (Some out_data) capacity length;
          upd_channel i dequeue ;;
          mret (mret (length, out_data))
  end.

(** [out_data] points to [capacity] bytes. *)
Definition llam_broker_channel_recv (token : option capability_token) (out_data : option (list Z))
    (capacity : Z) : M (Z * option (list Z)) :=
  match out_data with
  | None => set_errno EINVAL ;; mret (-1, None)
  | Some out =>
      if capacity =? 0 then set_errno EINVAL ;; mret (-1, out_data)
      else
        with_op (λ e, llam_broker_fail_clear_output_ssize out_data capacity e)
          (channel_recv_locked token out capacity)
  end.

Definition channel_close_locked (token : option capability_token) : M (M Z) :=
  slot ← llam_broker_find_channel_unlocked token LLAM_CAP_RIGHT_CLOSE;
  match slot with
  | None => mret (mret (-1))
  | Some i => upd_channel i (set_cs_closed true) ;; mret (mret 0)
  end.

Definition llam_broker_channel_close (token : option capability_token) : M Z :=
  with_op (λ _, mret (-1)) (channel_close_locked token).

(** ** The queue a channel holds *)

Definition message_bytes (m : channel_message) : list Z :=
  take (Z.to_nat (cm_length m)) (cm_data m).

(** The queued messages, oldest first. *)
Definition queue_of (s : channel_slot) : list (list Z) :=
  (λ k, message_bytes (message_at s ((cs_head s + Z.of_nat k) mod cs_capacity s)))
    <$> seq 0 (Z.to_nat (cs_count s)).

Lemma mod_inj_window cap h j k :
  0 < cap → 0 <= j < cap → 0 <= k < cap → (h + j) mod cap = (h + k) mod cap → j = k.
Proof.
  intros Hc Hj Hk E.
  pose proof (Z.div_mod (h + j) cap ltac:(lia)). pose proof (Z.div_mod (h + k) cap ltac:(lia)).
  set (a := (h + j) / cap) in *. set (b := (h + k) / cap) in *.
  assert (cap * a = cap * b + (j - k)) as E2 by lia.
  destruct (decide (a = b)) as [->|Hne]; [lia|].
  destruct (decide (a < b)); nia.
Qed.

Lemma message_at_insert s i j m :
  0 <= i < Z.of_nat (length (cs_messages s)) → 0 <= j →
  message_at (set_cs_messages (<[Z.to_nat i := m]> (cs_messages s)) s) j
  = if decide (i = j) then m else message_at s j.
Proof.
  intros Hi Hj. unfold message_at. cbn [cs_messages set_cs_messages]. destruct (decide (i = j)) as [->|Hne].
  - apply nth_lookup_Some. apply list_lookup_insert_eq. lia.
  - rewrite !nth_lookup, list_lookup_insert_ne by lia. done.
Qed.

Lemma tail_range s : channel_inv s → 0 <= cs_tail s < cs_capacity s.
Proof. intros [? ? ? ? -> ?]. apply Z.mod_pos_bound. lia. Qed.

Lemma channel_room s : channel_inv s → cs_capacity s <= Z.of_nat (length (cs_messages s)).
Proof. intros [-> ? ? ? ? ?]. unfold LLAM_BROKER_CHANNEL_CAPACITY in *. lia. Qed.

Lemma message_at_inv s i : Forall message_inv (cs_messages s) → message_inv (message_at s i).
Proof.
  intros H. unfold message_at. rewrite nth_lookup.
  destruct (cs_messages s !! Z.to_nat i) as [m|] eqn:E; cbn; [by eapply Forall_lookup_1|].
  split; [done|reflexivity].
Qed.

Lemma enqueue_inv data len s :
  0 <= len <= LLAM_BROKER_CHANNEL_MESSAGE_BYTES →
  cs_count s < cs_capacity s → channel_inv s → channel_inv (enqueue data len s).
Proof.
  intros Hlen Hlt [H1 H2 H3 H4 H5 H6]. split; cbn; [by rewrite length_insert|lia|lia|lia| |].
  - rewrite H5, Zplus_mod_idemp_l. f_equal. lia.
  - apply Forall_insert; [done|]. destruct (message_at_inv s (cs_tail s) H6) as [_ Hm].
    unfold LLAM_BROKER_CHANNEL_MESSAGE_BYTES in *. split; cbn [cm_length cm_data]; [done|].
    rewrite length_memcpy_at; [done|]. rewrite length_take. lia.
Qed.

Lemma enqueue_queue data len s :
  channel_inv s → cs_count s < cs_capacity s →
  queue_of (enqueue data len s) = queue_of s ++ [take (Z.to_nat len) (take (Z.to_nat len) data
    ++ drop (length (take (Z.to_nat len) data)) (cm_data (message_at s (cs_tail s))))].
Proof.
  intros Hs Hlt. pose proof Hs as [H1 H2 H3 H4 H5 H6]. pose proof (tail_range s Hs). pose proof (channel_room s Hs).
  unfold queue_of at 1. cbn [cs_count enqueue set_cs_count].
  replace (Z.to_nat (cs_count s + 1)) with (Z.to_nat (cs_count s) + 1)%nat by lia.
  rewrite seq_app, fmap_app. f_equal.
  - apply list_fmap_ext. intros j k Hk. apply lookup_seq in Hk as [-> Hk]. f_equal.
    cbn [cs_head cs_capacity enqueue set_cs_count set_cs_tail set_cs_messages].
    change (message_at (enqueue data len s)) with (message_at (set_cs_messages (<[Z.to_nat (cs_tail s) :=
      ChannelMessage len (memcpy_at 0 (take (Z.to_nat len) data) (cm_data (message_at s (cs_tail s))))]>
      (cs_messages s)) s)).
    rewrite message_at_insert by (try lia; apply Z.mod_pos_bound; lia).
    rewrite decide_False; [done|]. rewrite H5. intros E.
    apply mod_inj_window in E; lia.
  - cbn [fmap list_fmap seq]. f_equal.
    cbn [cs_head cs_capacity enqueue set_cs_count set_cs_tail set_cs_messages].
    change (message_at (enqueue data len s)) with (message_at (set_cs_messages (<[Z.to_nat (cs_tail s) :=
      ChannelMessage len (memcpy_at 0 (take (Z.to_nat len) data) (cm_data (message_at s (cs_tail s))))]>
      (cs_messages s)) s)).
    replace (Z.of_nat (0 + Z.to_nat (cs_count s))) with (cs_count s) by lia.
    rewrite <- H5, message_at_insert by lia. rewrite decide_True by done. done.
Qed.

Lemma dequeue_inv s : cs_count s ≠ 0 → channel_inv s → channel_inv (dequeue s).
Proof.
  intros Hlt [H1 H2 H3 H4 H5 H6]. split; cbn; [by rewrite length_insert|lia| |lia| |].
  - apply Z.mod_pos_bound. lia.
  - rewrite H5, Zplus_mod_idemp_l. f_equal. lia.
  - apply Forall_insert; [done|]. split; [done|reflexivity].
Qed.

Lemma dequeue_queue s :
  channel_inv s → 0 < cs_count s →
  queue_of s = message_bytes (message_at s (cs_head s)) :: queue_of (dequeue s).
Proof.
  intros Hs Hlt. pose proof Hs as [H1 H2 H3 H4 H5 H6]. pose proof (channel_room s Hs).
  unfold queue_of. cbn [cs_count dequeue set_cs_count].
  replace (Z.to_nat (cs_count s)) with (S (Z.to_nat (cs_count s - 1))) by lia.
  cbn [seq fmap list_fmap]. f_equal.
  - rewrite Z.add_0_r, Z.mod_small by lia. done.
  - rewrite <- fmap_S_seq, <- list_fmap_compose. apply list_fmap_ext. intros j k Hk.
    apply lookup_seq in Hk as [-> Hk]. cbn [compose].
    cbn [cs_head cs_capacity dequeue set_cs_count set_cs_head set_cs_messages].
    change (message_at (dequeue s)) with (message_at (set_cs_messages
      (<[Z.to_nat (cs_head s) := zero_channel_message]> (cs_messages s)) s)).
    rewrite Zplus_mod_idemp_l. unfold compose. f_equal.
    rewrite message_at_insert by (try lia; apply Z.mod_pos_bound; lia).
    replace (cs_head s + 1 + Z.of_nat (0 + j)) with (cs_head s + Z.of_nat (S (0 + j))) by lia.
    rewrite decide_False; [done|]. intros E.
    rewrite <- (Z.mod_small (cs_head s) (cs_capacity s)) in E at 1 by lia.
    rewrite <- (Z.add_0_r (cs_head s)) in E at 1. apply mod_inj_window in E; lia.
Qed.

(** ** The channel operations are steps *)

Abbreviation found_channel := (found LLAM_BROKER_CAP_FAMILY_CHANNEL channels_of).

Lemma find_channel_cases token required w :
  let r := llam_broker_find_channel_unlocked token required w in
  (∃ i b t s, r = (Some i, w) ∧ found_channel w token required i b t s ∧ channel_at b i = s)
  ∨ ∃ e, r = (None, set_w_errno e w).
Proof.
  cbn zeta. unfold llam_broker_find_channel_unlocked, on_broker.
  destruct (w_broker w) as [b|] eqn:Hb; [|right; by eexists].
  destruct (b_channels b) eqn:Hc; [|right; by eexists]. mon.
  destruct (find_object_cases LLAM_BROKER_CAP_FAMILY_CHANNEL channels_of token required w)
    as [(i&b'&t&s&->&F)|(e&->)]; [left|right; by eexists].
  exists i, b', t, s. split_and!; [done|done|]. unfold channel_at. apply nth_lookup_Some, F.
Qed.

(** Replacing one channel slot. *)
Definition with_channel (i : nat) (s : channel_slot) (b : broker) : broker :=
  set_b_channels ((<[i := s]>) <$> b_channels b) b.

Lemma upd_channel_run i f w b :
  w_broker w = Some b →
  upd_channel i f w = (tt, set_w_broker (Some (with_channel i (f (channel_at b i)) b)) w).
Proof. intros Hb. unfold upd_channel. mon. by rewrite Hb. Qed.

Lemma evolve_channel_reset b i : evolve b (with_channel i zero_channel_slot b).
Proof. apply evolve_channel. intros [=]. Qed.

Lemma step_channel_reset i : pres step (upd_channel i (λ _, zero_channel_slot)).
Proof.
  intros w. unfold upd_channel. mon. apply step_upd. intros b _. apply evolve_channel_reset.
Qed.

(** A live channel's data may change while its identity stays. *)
Lemma evolve_channel_data b i s s' w token required t :
  found_channel w token required i b t s →
  (channel_inv s → channel_inv s') → slot_le s s' → slot_generation s' = slot_generation s →
  evolve b (with_channel i s' b).
Proof.
  intros F Hinv Hle Hg. apply evolve_ok; [same_shape|]. intros Hok.
  pose proof (fo_matches _ _ _ _ _ _ _ _ _ F) as (M1&_&_)%slot_matches_spec.
  destruct (to_slot _ _ (bo_channels _ Hok) i s (fo_slot _ _ _ _ _ _ _ _ _ F) M1) as (_&Hgs&Hi).
  apply evolve_channel. intros _. rewrite Hg. split_and!; [lia|by apply Hinv|].
  exists s. split; [apply F|done].
Qed.

(** What the locked part of each operation did. *)
Lemma send_locked_cases token data len w :
  let r := channel_send_locked token data len w in
  (exits (λ x, x = -1) r.1 ∧ same_core w r.2)
  ∨ ∃ i b t s, r.1 = mret 0 ∧ found_channel w token LLAM_CAP_RIGHT_SEND i b t s ∧
      cs_closed s = false ∧ cs_count s < cs_capacity s ∧
      r.2 = set_w_broker (Some (with_channel i (enqueue data len s) b)) w.
Proof.
  cbn zeta. unfold channel_send_locked. mon.
  destruct (find_channel_cases token LLAM_CAP_RIGHT_SEND w) as [(i&b&t&s&->&F&Hs)|(e&->)]; mon;
    [|left; split; by intros].
  pose proof (fo_broker _ _ _ _ _ _ _ _ _ F) as Hb. rewrite Hb. mon. rewrite Hs.
  destruct (cs_closed s) eqn:Hcl; mon; [left; split; by intros|].
  destruct (Z.leb_spec (cs_capacity s) (cs_count s)); mon; [left; split; by intros|].
  rewrite (upd_channel_run _ _ _ _ Hb). mon. rewrite Hs. right. by exists i, b, t, s.
Qed.

(** The caller's buffer after a successful receive: the message, then zeros. *)
Definition received (msg : list Z) (capacity : Z) (out : list Z) : list Z :=
  memcpy_at 0 (msg ++ replicate (Z.to_nat capacity - length msg) 0) out.

Lemma received_tail msg cap out :
  (length msg <= Z.to_nat cap)%nat →
  memzero_at (length msg) (Z.to_nat cap - length msg) (memcpy_at 0 msg out) = received msg cap out.
Proof.
  intros Hle. unfold received, memzero_at, memcpy_at. rewrite !take_0, !app_nil_l, !Nat.add_0_l.
  rewrite take_app_length, length_app, length_replicate, app_assoc. f_equal.
  rewrite drop_app_ge by lia. rewrite drop_drop. f_equal. lia.
Qed.

Lemma finish_received m cap out w :
  message_inv m → cm_length m <= cap →
  llam_broker_finish_read_clear_tail
    (Some (memcpy_at 0 (bytes_at 0 (Z.to_nat (cm_length m)) (cm_data m)) out)) cap (cm_length m) w
  = (cm_length m, Some (received (message_bytes m) cap out), w).
Proof.
  intros [Hm1 Hm2] Hle. unfold llam_broker_finish_read_clear_tail, LLAM_BROKER_CHANNEL_MESSAGE_BYTES in *.
  rewrite (proj2 (Z.ltb_ge _ _)) by lia. mon.
  assert (length (message_bytes m) = Z.to_nat (cm_length m)) as Hl.
  { unfold message_bytes. rewrite length_take. lia. }
  change (bytes_at 0 (Z.to_nat (cm_length m)) (cm_data m)) with (message_bytes m).
  rewrite <- received_tail by lia. rewrite Hl.
  replace (Z.to_nat (cap - cm_length m)) with (Z.to_nat cap - Z.to_nat (cm_length m))%nat by lia.
  destruct (Z.ltb_spec (cm_length m) cap); [done|].
  replace (Z.to_nat cap - Z.to_nat (cm_length m))%nat with 0%nat by lia. do 3 f_equal.
  unfold memzero_at. rewrite <- Hl. unfold memcpy_at. cbn [replicate length].
  rewrite take_0, !app_nil_l, Nat.add_0_l, Nat.add_0_r. by rewrite take_drop.
Qed.

Lemma pres_core_finish_read out cap len :
  pres same_core (llam_broker_finish_read_clear_tail out cap len).
Proof.
  apply pres_if; [|apply pres_if; by intros w]. intros w.
  unfold llam_broker_fail_clear_output_ssize, llam_broker_fail_clear_output. mon. by branch.
Qed.

Lemma recv_locked_cases token out cap w :
  0 < cap →
  let r := channel_recv_locked token out cap w in
  (exits (λ x, x = (-1, Some (memzero_at 0 (Z.to_nat cap) out))) r.1 ∧ same_core w r.2)
  ∨ ∃ i b t s, found_channel w token LLAM_CAP_RIGHT_RECV i b t s ∧ cs_count s ≠ 0 ∧
      (∃ w1, same_core w w1 ∧ r.2 = set_w_broker (Some (with_channel i (dequeue s) b)) w1) ∧
      ∃ out', let m := message_at s (cs_head s) in
        r.1 = mret (cm_length m, out') ∧
        (message_inv m → cm_length m <= cap ∧ out' = Some (received (message_bytes m) cap out)).
Proof.
  intros Hcap. cbn zeta. unfold channel_recv_locked. mon.
  destruct (find_channel_cases token LLAM_CAP_RIGHT_RECV w) as [(i&b&t&s&->&F&Hs)|(e&->)]; mon.
  2: { left. split; [|done]. intros w'. by rewrite fail_clear_ssize_run. }
  pose proof (fo_broker _ _ _ _ _ _ _ _ _ F) as Hb. rewrite Hb. mon. rewrite Hs.
  destruct (Z.eqb_spec (cs_count s) 0); mon.
  { left. split; [|done]. intros w'. by rewrite fail_clear_ssize_run. }
  set (m := message_at s (cs_head s)).
  destruct (Z.ltb_spec cap (cm_length m)) as [|Hle]; mon.
  { left. split; [|done]. intros w'. by rewrite fail_clear_ssize_run. }
  right. exists i, b, t, s. fold m.
  match goal with |- context [llam_broker_finish_read_clear_tail ?o ?c ?l w] =>
    pose proof (pres_core_finish_read o c l w) as Hc;
    pose proof (λ Hm, finish_received m cap out w Hm Hle) as Ho;
    destruct (llam_broker_finish_read_clear_tail o c l w) as [[rc out'] w1] end.
  mon. assert (w_broker w1 = Some b) as Hb1 by by rewrite (proj1 Hc).
  rewrite (upd_channel_run _ _ _ _ Hb1). mon. rewrite Hs.
  split_and!; [done|done|by exists w1|]. exists out'. split; [done|]. intros Hm.
  by injection (Ho Hm) as -> -> _.
Qed.

Lemma close_locked_cases token w :
  let r := channel_close_locked token w in
  (exits (λ x, x = -1) r.1 ∧ same_core w r.2)
  ∨ ∃ i b t s, r.1 = mret 0 ∧ found_channel w token LLAM_CAP_RIGHT_CLOSE i b t s ∧
      r.2 = set_w_broker (Some (with_channel i (set_cs_closed true s) b)) w.
Proof.
  cbn zeta. unfold channel_close_locked. mon.
  destruct (find_channel_cases token LLAM_CAP_RIGHT_CLOSE w) as [(i&b&t&s&->&F&Hs)|(e&->)]; mon;
    [|left; split; by intros].
  pose proof (fo_broker _ _ _ _ _ _ _ _ _ F) as Hb. rewrite (upd_channel_run _ _ _ _ Hb). mon.
  rewrite Hs. right. by exists i, b, t, s.
Qed.

Lemma step_channel_send token data len : 0 <= len → pres step (llam_broker_channel_send token data len).
Proof.
  intros Hlen. unfold llam_broker_channel_send. destruct data as [data|]; [|by apply pres_step_core; auto with llam].
  destruct ((len =? 0) || _) eqn:G; [by apply pres_step_core; auto with llam|]. bools.
  apply pres_with_op; [intros e; by apply pres_step_core|]. intros w b Hb Hl Hok.
  destruct (send_locked_cases token data len w) as [[Hx Hc]|(i&b'&t&s&->&F&_&Hlt&->)].
  - split; [by apply step_core_world|by eapply exits_step].
  - split; [|by apply pres_step_core; auto with llam].
    eapply step_set_broker; [apply F|done|]. eapply evolve_channel_data; [done| | |done].
    + apply enqueue_inv; [lia|done].
    + apply found_active in F. slot_same.
Qed.

Lemma step_channel_recv token out cap : 0 <= cap → pres step (llam_broker_channel_recv token out cap).
Proof.
  intros Hcap. unfold llam_broker_channel_recv. destruct out as [out|]; [|by apply pres_step_core; auto with llam].
  destruct (Z.eqb_spec cap 0); [by apply pres_step_core; auto with llam|].
  apply pres_with_op.
  { intros e. apply pres_step_core. intros w. by rewrite fail_clear_ssize_run by lia. }
  intros w b Hb Hl Hok.
  destruct (recv_locked_cases token out cap w) as [[Hx Hc]|(i&b'&t&s&F&Hn&(w1&Hc&->)&out'&->&_)]; [lia|..].
  - split; [by apply step_core_world|by eapply exits_step].
  - split; [|by apply pres_step_core; auto with llam].
    eapply step_set_broker; [apply F|done|]. eapply evolve_channel_data; [done| | |done].
    + by apply dequeue_inv.
    + apply found_active in F. slot_same.
Qed.

Lemma step_channel_close token : pres step (llam_broker_channel_close token).
Proof.
  apply pres_with_op; [intros e; by apply pres_step_core|]. intros w b Hb Hl Hok.
  destruct (close_locked_cases token w) as [[Hx Hc]|(i&b'&t&s&->&F&->)].
  - split; [by apply step_core_world|by eapply exits_step].
  - split; [|by apply pres_step_core; auto with llam].
    eapply step_set_broker; [apply F|done|]. eapply evolve_channel_data; [done| | |done].
    + by intros [].
    + apply found_active in F. slot_same.
Qed.

Lemma step_reclaim_channels subj : pres step (llam_broker_reclaim_subject_channels subj).
Proof.
  apply pres_on_broker; [apply pres_ret, _|]. intros b. apply pres_if; [apply pres_ret, _|].
  apply pres_bind; [apply _|apply step_lock|]. intros rc. apply pres_if; [apply pres_ret, _|].
  apply pres_bind; [apply _| |intros _; by apply pres_step_core].
  apply pres_for_each; [apply _|]. intros i. apply pres_bind; [apply _|by apply pres_step_core|].
  intros b'. apply pres_if; [apply step_channel_reset|apply pres_ret, _].
Qed.

(** ** Creation *)

Lemma new_channel_inv capacity id rights subj :
  1 <= capacity <= LLAM_BROKER_CHANNEL_CAPACITY → channel_inv (new_channel capacity id rights subj).
Proof.
  intros. split; cbn; [done|lia|lia|lia|by rewrite Z.mod_0_l by lia|].
  apply Forall_replicate. split; [done|reflexivity].
Qed.

Lemma evolve_new_channel capacity rights subj b i :
  1 <= capacity <= LLAM_BROKER_CHANNEL_CAPACITY →
  b_next_channel_id b ≠ 0 → b_next_channel_id b ≠ UINT64_MAX →
  evolve b (set_b_channels
      ((<[i := new_channel capacity (b_next_channel_id b) rights subj]>) <$> b_channels b)
      (set_b_next_channel_id (u64 (b_next_channel_id b + 1)) b)).
Proof.
  intros Hc H0 HM. apply evolve_ok; [same_shape|]. intros Hok. apply evolve_create_channel.
  pose proof (to_next _ _ (bo_channels _ Hok)). split_and!; try done; [|lia..].
  by apply new_channel_inv.
Qed.

Lemma step_create_channel capacity rights out :
  0 <= capacity → pres step (llam_broker_create_channel capacity rights out).
Proof.
  intros Hc0. unfold llam_broker_create_channel. intros w. mon. branch; [by apply step_core_world|].
  bools. destruct out as [old|]; [|done]. mon.
  destruct (validate_rights_cases LLAM_BROKER_CAP_FAMILY_CHANNEL rights w) as [[-> _]|(e&->&_)]; mon;
    [|by apply step_core_world].
  apply pres_with_op; [intros e; by apply pres_step_core|]. intros x b Hb [Hi Hr Hl] Hok.
  unfold create_channel_locked. mon. rewrite Hb. mon. rewrite Hi. destruct (b_runtime b); [|by destruct Hr]. mon.
  destruct (first_free channel_reusable 0 (channels_of b)) as [i|]; mon;
    [|split; [reflexivity|by apply pres_step_core]].
  destruct (validate_next_cases (b_next_channel_id b) x) as [(->&Hn0&HnM)|(e&->&_)]; mon;
    [|split; [by apply step_core_world|by apply pres_step_core]].
  rewrite current_subject_run. mon. rewrite Hb. mon.
  pose proof (evolve_new_channel capacity rights (cur_subject x) b i ltac:(lia) Hn0 HnM) as He.
  set (b1 := set_b_channels _ _) in *. set (w1 := set_w_broker (Some b1) x).
  assert (step x w1) as S1 by by eapply step_set_broker.
  match goal with |- context [llam_broker_issue_object_cap_unlocked ?f ?n ?g ?r ?o ?y] =>
    pose proof (pres_core_issue_object f n g r o y) as Hc;
    destruct (llam_broker_issue_object_cap_unlocked f n g r o y) as [[rc out'] w2] end.
  mon. assert (step x w2) as S2 by (etrans; [exact S1|by apply step_core_world]).
  destruct (rc =? 0); mon; [split; [done|by apply pres_step_core]|].
  pose proof (step_channel_reset i w2) as S3.
  destruct (upd_channel i _ w2) as [[] w3]. mon. split; [by etrans|by apply pres_step_core].
Qed.

(** ** Channels refine bounded queues *)

(** The specification state and operations of a channel. *)
Record chan := Chan { ch_queue : list (list Z); ch_closed : bool; ch_capacity : Z }.

Definition chan_send (c : chan) (msg : list Z) : chan + Z :=
  if ch_closed c then inr EPIPE
  else if ch_capacity c <=? Z.of_nat (length (ch_queue c)) then inr EAGAIN
  else inl (Chan (ch_queue c ++ [msg]) (ch_closed c) (ch_capacity c)).

Definition chan_recv (c : chan) (room : Z) : (list Z * chan) + Z :=
  match ch_queue c with
  | [] => inr (if ch_closed c then EPIPE else EAGAIN)
  | msg :: q =>
      if room <? Z.of_nat (length msg) then inr EMSGSIZE
      else inl (msg, Chan q (ch_closed c) (ch_capacity c))
  end.

(** The abstraction function. *)
Definition chan_of (s : channel_slot) : chan := Chan (queue_of s) (cs_closed s) (cs_capacity s).

Lemma queue_length s : 0 <= cs_count s → Z.of_nat (length (queue_of s)) = cs_count s.
Proof. intros. unfold queue_of. rewrite length_fmap, length_seq. lia. Qed.

Lemma head_inv s : channel_inv s → message_inv (message_at s (cs_head s)).
Proof. intros H. apply message_at_inv, H. Qed.

Lemma message_bytes_length m : message_inv m → Z.of_nat (length (message_bytes m)) = cm_length m.
Proof.
  intros [? ?]. unfold message_bytes, LLAM_BROKER_CHANNEL_MESSAGE_BYTES in *. rewrite length_take. lia.
Qed.

Lemma find_channel_complete b t required w :
  broker_ok b → w_broker w = Some b → b_initialized b = true →
  tok_family t = LLAM_BROKER_CAP_FAMILY_CHANNEL → authorized b (cur_subject w) t required →
  ∃ i s, llam_broker_find_channel_unlocked (Some t) required w = (Some i, w) ∧
    found_channel w (Some t) required i b t s ∧ channel_at b i = s ∧ channel_inv s.
Proof.
  intros Hok Hb Hi Hf Ha.
  destruct (find_object_complete LLAM_BROKER_CAP_FAMILY_CHANNEL channels_of b t required w
    (b_next_channel_id b)) as (i&s&E&F); try done; [by apply live_in_channel|apply Hok|].
  exists i, s. pose proof (fo_slot _ _ _ _ _ _ _ _ _ F) as Hs.
  split_and!; [|done|by apply nth_lookup_Some|].
  - unfold llam_broker_find_channel_unlocked, on_broker. rewrite Hb. unfold channels_of in Hs.
    by destruct (b_channels b).
  - apply (to_slot _ _ (bo_channels _ Hok) i s Hs). by eapply found_active.
Qed.

(** C7: Send refines append on a bounded queue.  For a token with SEND authority
    an admitted send behaves as [chan_send] on the channel's queue: EPIPE when
    closed, EAGAIN when full, otherwise the message is appended; only that
    channel changes. *)
Theorem channel_send_refines w b t data len :
  world_ok w → broker_ok b → admits w b →
  Z.of_nat (length data) = len → 0 < len <= LLAM_BROKER_CHANNEL_MESSAGE_BYTES →
  tok_family t = LLAM_BROKER_CAP_FAMILY_CHANNEL →
  authorized b (cur_subject w) t LLAM_CAP_RIGHT_SEND →
  ∃ i s, channels_of b !! i = Some s ∧ slot_matches t s = true ∧
    let '(rc, w') := llam_broker_channel_send (Some t) (Some data) len w in
    match chan_send (chan_of s) data with
    | inr e => rc = -1 ∧ w_errno w' = e ∧ same_objs w w'
    | inl c' => rc = 0 ∧ ∃ b' s', w_broker w' = Some b' ∧ chan_of s' = c' ∧
        b' = set_b_active_ops (b_active_ops b') (with_channel i s' b)
    end.
Proof.
  intros Hok Hbok Had Hd Hlen Hf Ha. unfold llam_broker_channel_send.
  rewrite (proj2 (Z.eqb_neq len 0)), (proj2 (Z.ltb_ge _ _)) by lia. mon.
  match goal with |- context [with_op ?f ?k w] => destruct (with_op_runs f k w b Hok Had)
    as (w1&w3&Hb1&_&Hr1&Hok1&Hs1&->&Ho3) end.
  set (b1 := set_b_active_ops (b_active_ops b + 1) b) in *.
  destruct (find_channel_complete b1 t LLAM_CAP_RIGHT_SEND w1) as (i&s&E&F&Hat&Hinv);
    [by apply (evolve_active b)|done|apply Had|done|rewrite Hs1; by apply authorized_active|].
  exists i, s. split; [exact (fo_slot _ _ _ _ _ _ _ _ _ F)|]. split; [apply F|].
  unfold channel_send_locked in *. mon. rewrite E in *. mon. rewrite Hb1 in *. mon. rewrite Hat in *.
  unfold chan_send. cbn [chan_of ch_closed ch_capacity ch_queue].
  rewrite queue_length by (destruct Hinv; lia).
  assert (same_objs w w1) as Ho1 by (split; [rewrite Hb1, (ad_broker _ _ Had); done|done]).
  destruct (cs_closed s) eqn:Hcl; mon; [split_and!; [done..|by etrans]|].
  destruct (Z.leb_spec (cs_capacity s) (cs_count s)); mon; [split_and!; [done..|by etrans]|].
  rewrite (upd_channel_run _ _ _ _ Hb1) in *. mon. split; [done|].
  destruct Ho3 as [Ho3 _]. destruct (w_broker w3) as [b3|] eqn:Hb3; [|done].
  apply (inj Some) in Ho3. apply active_ops_only in Ho3. exists b3, (enqueue data len s).
  split_and!; [done| |].
  - unfold chan_of. rewrite enqueue_queue by done. cbn.
    rewrite (take_ge data) by lia. rewrite take_app_length' by lia. by rewrite Hcl.
  - rewrite Ho3 at 1. rewrite Hat. done.
Qed.

(** C8: Receive refines removal of the oldest message.  For a token with RECV
    authority an admitted receive behaves as [chan_recv]: EPIPE on a drained
    closed channel, EAGAIN on an empty one, EMSGSIZE with the message kept when
    the caller's buffer is too small, otherwise the oldest message is returned,
    the rest of the caller's buffer is zeroed, and only that channel changes. *)
Theorem channel_recv_refines w b t out cap :
  world_ok w → broker_ok b → admits w b → 0 < cap →
  tok_family t = LLAM_BROKER_CAP_FAMILY_CHANNEL →
  authorized b (cur_subject w) t LLAM_CAP_RIGHT_RECV →
  ∃ i s, channels_of b !! i = Some s ∧ slot_matches t s = true ∧
    let '(rc, out', w') := llam_broker_channel_recv (Some t) (Some out) cap w in
    match chan_recv (chan_of s) cap with
    | inr e => rc = -1 ∧ out' = Some (memzero_at 0 (Z.to_nat cap) out) ∧ w_errno w' = e ∧ same_objs w w'
    | inl (msg, c') =>
        rc = Z.of_nat (length msg) ∧ out' = Some (received msg cap out) ∧
        ∃ b' s', w_broker w' = Some b' ∧ chan_of s' = c' ∧
          b' = set_b_active_ops (b_active_ops b') (with_channel i s' b)
    end.
Proof.
  intros Hok Hbok Had Hcap Hf Ha. unfold llam_broker_channel_recv.
  rewrite (proj2 (Z.eqb_neq cap 0)) by lia.
  match goal with |- context [with_op ?f ?k w] => destruct (with_op_runs f k w b Hok Had)
    as (w1&w3&Hb1&_&Hr1&Hok1&Hs1&->&Ho3) end.
  set (b1 := set_b_active_ops (b_active_ops b + 1) b) in *.
  destruct (find_channel_complete b1 t LLAM_CAP_RIGHT_RECV w1) as (i&s&E&F&Hat&Hinv);
    [by apply (evolve_active b)|done|apply Had|done|rewrite Hs1; by apply authorized_active|].
  exists i, s. split; [exact (fo_slot _ _ _ _ _ _ _ _ _ F)|]. split; [apply F|].
  assert (same_objs w w1) as Ho1 by (split; [rewrite Hb1, (ad_broker _ _ Had); done|done]).
  pose proof (head_inv s Hinv) as Hm. pose proof (message_bytes_length _ Hm) as Hml.
  unfold chan_recv. cbn [chan_of ch_closed ch_capacity ch_queue].
  unfold channel_recv_locked in *. mon. rewrite E in *. mon. rewrite Hb1 in *. mon. rewrite Hat in *.
  destruct (Z.eqb_spec (cs_count s) 0) as [H0|H0]; mon.
  { unfold queue_of. rewrite H0. cbn [Z.to_nat seq fmap list_fmap].
    rewrite fail_clear_ssize_run by done. split_and!; [done..| |by etrans].
    by destruct (cs_closed s). }
  rewrite (dequeue_queue s) by (destruct Hinv; lia || done). rewrite Hml.
  destruct (Z.ltb_spec cap (cm_length (message_at s (cs_head s)))) as [|Hle]; mon.
  { rewrite fail_clear_ssize_run by done. split_and!; [done..|by etrans]. }
  rewrite (finish_received _ _ _ _ Hm Hle) in *. mon.
  rewrite (upd_channel_run _ _ _ _ Hb1) in *. mon. rewrite Hml. split_and!; [done..|].
  destruct Ho3 as [Ho3 _]. destruct (w_broker w3) as [b3|] eqn:Hb3; [|done].
  apply (inj Some) in Ho3. apply active_ops_only in Ho3. exists b3, (dequeue s).
  split_and!; [done|done|]. rewrite Ho3 at 1. rewrite Hat. done.
Qed.

(** No channel operation succeeds without authority: a send, receive or
    close that reports success was called with a token authorized for exactly
    that right. *)
Theorem channel_ops_need_authority w b t :
  world_ok w → w_broker w = Some b →
  (∀ data len, (llam_broker_channel_send (Some t) data len w).1 = 0 →
     authorized b (cur_subject w) t LLAM_CAP_RIGHT_SEND) ∧
  (∀ out cap, 0 <= cap → (llam_broker_channel_recv (Some t) out cap w).1.1 ≠ -1 →
     authorized b (cur_subject w) t LLAM_CAP_RIGHT_RECV) ∧
  ((llam_broker_channel_close (Some t) w).1 = 0 →
     authorized b (cur_subject w) t LLAM_CAP_RIGHT_CLOSE).
Proof.
  intros Hok Hb. split_and!.
  - intros data len. unfold llam_broker_channel_send. destruct data as [data|]; [|done].
    destruct ((len =? 0) || _); [done|].
    match goal with |- context [with_op ?f ?k w] => destruct (with_op_spec f k w Hok)
      as [(e&w'&_&_&->)|(w1&b1&w3&Hb1&Hl&Ho&Hok1&Hs&->&_)] end; [done|].
    destruct (send_locked_cases (Some t) data len w1) as [[Hx _]|(i&b'&t'&s&_&F&_)].
    { by rewrite (proj2 (Hx w3)). }
    intros _. apply (found_outer _ _ w) with (b := b) in F; [|done..].
    destruct F as [_ [= <-] _ Fa _ _ _]. done.
  - intros out cap Hcap. unfold llam_broker_channel_recv. destruct out as [out|]; [|done].
    destruct (Z.eqb_spec cap 0); [done|].
    match goal with |- context [with_op ?f ?k w] => destruct (with_op_spec f k w Hok)
      as [(e&w'&_&_&->)|(w1&b1&w3&Hb1&Hl&Ho&Hok1&Hs&->&_)] end; [by rewrite fail_clear_ssize_run by lia|].
    destruct (recv_locked_cases (Some t) out cap w1) as [[Hx _]|(i&b'&t'&s&F&_)]; [lia|..].
    { by rewrite (proj2 (Hx w3)). }
    intros _. apply (found_outer _ _ w) with (b := b) in F; [|done..].
    destruct F as [_ [= <-] _ Fa _ _ _]. done.
  - unfold llam_broker_channel_close.
    match goal with |- context [with_op ?f ?k w] => destruct (with_op_spec f k w Hok)
      as [(e&w'&_&_&->)|(w1&b1&w3&Hb1&Hl&Ho&Hok1&Hs&->&_)] end; [done|].
    destruct (close_locked_cases (Some t) w1) as [[Hx _]|(i&b'&t'&s&_&F&_)].
    { by rewrite (proj2 (Hx w3)). }
    intros _. apply (found_outer _ _ w) with (b := b) in F; [|done..].
    destruct F as [_ [= <-] _ Fa _ _ _]. done.
Qed.

(** ** A concrete channel *)

Definition channel_rights : Z :=
  Z.lor (Z.lor LLAM_CAP_RIGHT_SEND LLAM_CAP_RIGHT_RECV) LLAM_CAP_RIGHT_CLOSE.

(** The example broker with one channel of capacity 2 holding one message. *)
Definition example_channel : channel_slot := enqueue [4; 5] 2 (new_channel 2 1 channel_rights 0).

Definition channel_broker : broker :=
  set_b_channels ((<[0%nat := example_channel]>) <$> b_channels example_broker)
    (set_b_next_channel_id 2 example_broker).

Definition channel_world : world := set_w_broker (Some channel_broker) example_world.

Definition channel_token : capability_token :=
  default zero_token
    (llam_broker_issue_object_cap LLAM_BROKER_CAP_FAMILY_CHANNEL 1 1 channel_rights
       (Some zero_token) channel_world).1.2.

Lemma channel_world_ok : world_ok channel_world.
Proof. split; [apply idle_tls_wf|]. by intros ? [= <-]. Qed.

Lemma channel_world_admits : admits channel_world channel_broker.
Proof. split; done. Qed.

Lemma channel_broker_ok : broker_ok channel_broker.
Proof.
  destruct (evolve_create_channel example_broker 0 example_channel) as [_ He].
  - split_and!; try done. apply enqueue_inv; [done|done|by apply new_channel_inv].
  - apply He, example_broker_ok.
Qed.

Lemma channel_token_authorized r :
  (llam_broker_validate_cap_unlocked (Some channel_token) r channel_world).1 = 0 →
  authorized channel_broker 0 channel_token r.
Proof.
  intros E. pose proof (validate_cap_cases (Some channel_token) r channel_world) as H.
  cbv zeta in H. set (x := llam_broker_validate_cap_unlocked _ _ _) in *. clearbody x.
  destruct H as [[_ (b&t&Hb&Ht&_&Ha)]|(e&->&_)]; [|done].
  injection Hb as <-. injection Ht as <-. exact Ha.
Qed.

Lemma channel_send_refines_witness :
  ∃ i s, channels_of channel_broker !! i = Some s ∧ slot_matches channel_token s = true ∧
    let '(rc, w') := llam_broker_channel_send (Some channel_token) (Some [6]) 1 channel_world in
    match chan_send (chan_of s) [6] with
    | inr e => rc = -1 ∧ w_errno w' = e ∧ same_objs channel_world w'
    | inl c' => rc = 0 ∧ ∃ b' s', w_broker w' = Some b' ∧ chan_of s' = c' ∧
        b' = set_b_active_ops (b_active_ops b') (with_channel i s' channel_broker)
    end.
Proof.
  apply (channel_send_refines channel_world channel_broker channel_token [6] 1
    channel_world_ok channel_broker_ok channel_world_admits eq_refl ltac:(done)).
  - vm_compute. reflexivity.
  - apply channel_token_authorized. vm_compute. reflexivity.
Defined.

Lemma channel_recv_refines_witness :
  ∃ i s, channels_of channel_broker !! i = Some s ∧ slot_matches channel_token s = true ∧
    let '(rc, out', w') := llam_broker_channel_recv (Some channel_token) (Some [0; 0; 9]) 3
                             channel_world in
    match chan_recv (chan_of s) 3 with
    | inr e => rc = -1 ∧ out' = Some (memzero_at 0 3 [0; 0; 9]) ∧ w_errno w' = e
               ∧ same_objs channel_world w'
    | inl (msg, c') =>
        rc = Z.of_nat (length msg) ∧ out' = Some (received msg 3 [0; 0; 9]) ∧
        ∃ b' s', w_broker w' = Some b' ∧ chan_of s' = c' ∧
          b' = set_b_active_ops (b_active_ops b') (with_channel i s' channel_broker)
    end.
Proof.
  apply (channel_recv_refines channel_world channel_broker channel_token [0; 0; 9] 3
    channel_world_ok channel_broker_ok channel_world_admits ltac:(done)).
  - vm_compute. reflexivity.
  - apply channel_token_authorized. vm_compute. reflexivity.
Defined.

Lemma channel_ops_need_authority_witness :
  authorized channel_broker 0 channel_token LLAM_CAP_RIGHT_CLOSE.
Proof.
  apply (channel_ops_need_authority channel_world channel_broker channel_token
    channel_world_ok eq_refl).
  vm_compute. reflexivity.
Defined.
