(* ===== verification/BrokerRevoke.v ===== *)
(** * Revocation of one object's authority ([src/core/broker/broker_revoke.c])

    Revoking rotates the generation of a buffer, descriptor or channel and mints
    a replacement token for the new generation.

    - the replacement is issued before the slot changes, so a revocation that
      fails, for instance for lack of entropy, changes nothing
      ([revoke_atomic]);
    - a successful one ends the authority of every token of the old generation
      ([revoke_kills_old_tokens]), including the caller's. *)

From S2P Require Import Prelude World Capability BrokerOps BrokerCore BrokerBuffer BrokerChannel.

Definition llam_broker_reissue_rotated_cap_unlocked (family id generation authority_rights
    replacement_rights : Z) (out_token : option capability_token)
    : M (Z * option capability_token) :=
  if is_null out_token || (replacement_rights =? 0) then set_errno EINVAL ;; mret (-1, out_token)
  else if negb (has_bits authority_rights replacement_rights)
  then set_errno EACCES ;; mret (-1, out_token)
  else
    llam_broker_issue_object_cap_unlocked family id generation replacement_rights out_token.

(** Returns the status, [*out_generation] and [*out_token]. *)
Definition llam_broker_prepare_rotated_cap_unlocked (family id current_generation authority_rights
    replacement_rights : Z) (out_token : option capability_token)
    : M (Z * Z * option capability_token) :=
  if current_generation =? UINT64_MAX then set_errno EOVERFLOW ;; mret (-1, 0, out_token)
  else
    let next_generation := u64 (current_generation + 1) in
    '(rc, out_token) ← llam_broker_reissue_rotated_cap_unlocked family id next_generation
                         authority_rights replacement_rights out_token;
    if negb (rc =? 0) then mret (-1, 0, out_token) else mret (0, next_generation, out_token).

Definition llam_broker_revoke_buffer_unlocked (token : capability_token) (replacement_rights : Z)
    (out_token : option capability_token) : M (Z * option capability_token) :=
  slot ← llam_broker_find_buffer_unlocked (Some token) LLAM_CAP_RIGHT_DESTROY;
  match slot with
  | None => mret (-1, out_token)
  | Some i =>
      b ← the_broker;
      let slot := buffer_at b i in
      '(rc, next_generation, out_token) ←
        llam_broker_prepare_rotated_cap_unlocked (tok_family token) (bs_id slot)
          (bs_generation slot) (tok_rights token) replacement_rights out_token;
      if negb (rc =? 0) then mret (-1, out_token)
      else
        upd_broker (λ b, set_b_buffers
          (<[i := set_bs_rights replacement_rights (set_bs_generation next_generation slot)]>
             (b_buffers b)) b) ;;
        mret (0, out_token)
  end.

Definition descriptor_at (b : broker) (i : nat) : descriptor_slot :=
  nth i (b_descriptors b) zero_descriptor_slot.

Definition llam_broker_revoke_descriptor_unlocked (token : capability_token)
    (replacement_rights : Z) (out_token : option capability_token)
    : M (Z * option capability_token) :=
  if negb (tok_family token =? LLAM_BROKER_CAP_FAMILY_DESCRIPTOR)
  then set_errno EACCES ;; mret (-1, out_token)
  else
    b ← the_broker;
    match first_free (slot_matches token) 0 (b_descriptors b) with
    | None => set_errno EACCES ;; mret (-1, out_token)
    | Some i =>
        let slot := descriptor_at b i in
        if Z.land (ds_rights slot) LLAM_CAP_RIGHT_DESTROY =? 0
        then set_errno EACCES ;; mret (-1, out_token)
        else
          '(rc, next_generation, out_token) ←
            llam_broker_prepare_rotated_cap_unlocked (tok_family token) (ds_id slot)
              (ds_generation slot) (tok_rights token) replacement_rights out_token;
          if negb (rc =? 0) then mret (-1, out_token)
          else
            upd_broker (λ b, set_b_descriptors
              (<[i := set_ds_rights replacement_rights (set_ds_generation next_generation slot)]>
                 (b_descriptors b)) b) ;;
            mret (0, out_token)
    end.

Definition llam_broker_revoke_channel_unlocked (token : capability_token) (replacement_rights : Z)
    (out_token : option capability_token) : M (Z * option capability_token) :=
  slot ← llam_broker_find_channel_unlocked (Some token) LLAM_CAP_RIGHT_DESTROY;
  match slot with
  | None => mret (-1, out_token)
  | Some i =>
      b ← the_broker;
      let slot := channel_at b i in
      '(rc, next_generation, out_token) ←
        llam_broker_prepare_rotated_cap_unlocked (tok_family token) (cs_id slot)
          (cs_generation slot) (tok_rights token) replacement_rights out_token;
      if negb (rc =? 0) then mret (-1, out_token)
      else
        upd_channel i (λ slot,
          set_cs_rights replacement_rights (set_cs_generation next_generation slot)) ;;
        mret (0, out_token)
  end.

Definition revoke_locked (source : capability_token) (replacement_rights : Z)
    : M (M (Z * option capability_token)) :=
  rc ← llam_broker_validate_cap_unlocked (Some source) LLAM_CAP_RIGHT_DESTROY;
  if negb (rc =? 0) then mret (mret (-1, Some zero_token))
  else
    '(rc, replacement) ←
      (if tok_family source =? LLAM_BROKER_CAP_FAMILY_BUFFER
       then llam_broker_revoke_buffer_unlocked source replacement_rights (Some zero_token)
       else if tok_family source =? LLAM_BROKER_CAP_FAMILY_DESCRIPTOR
       then llam_broker_revoke_descriptor_unlocked source replacement_rights (Some zero_token)
       else if tok_family source =? LLAM_BROKER_CAP_FAMILY_CHANNEL
       then llam_broker_revoke_channel_unlocked source replacement_rights (Some zero_token)
       else set_errno EINVAL ;; mret (-1, Some zero_token));
    mret (mret (rc, if rc =? 0 then replacement else Some zero_token)).

Definition llam_broker_revoke_object_cap (token : option capability_token) (replacement_rights : Z)
    (out_token : option capability_token) : M (Z * option capability_token) :=
  match out_token with
  | None => set_errno EINVAL ;; mret (-1, None)
  | Some _ =>
      match token with
      | None => set_errno EINVAL ;; mret (-1, Some zero_token)
      | Some source =>
          if replacement_rights =? 0 then set_errno EINVAL ;; mret (-1, Some zero_token)
          else with_op (λ _, mret (-1, Some zero_token)) (revoke_locked source replacement_rights)
      end
  end.

(** ** Preparing the replacement *)

Lemma prepare_cases family id gen auth repl w :
  let r := llam_broker_prepare_rotated_cap_unlocked family id gen auth repl (Some zero_token) w in
  same_core w r.2 ∧
  (r.1.1.1 = -1
   ∨ ∃ b rid t, r.1 = (0, u64 (gen + 1), Some t) ∧ gen ≠ UINT64_MAX ∧ has_bits auth repl = true ∧
       w_broker w = Some b ∧ b_runtime b = Some rid ∧
       token_for (b_capability_key b)
         (CapObject rid family id (u64 (gen + 1)) (b_revocation_epoch b) (cur_subject w)) repl t).
Proof.
  cbn zeta. unfold llam_broker_prepare_rotated_cap_unlocked.
  destruct (Z.eqb_spec gen UINT64_MAX); [split; [core|by left]|].
  unfold llam_broker_reissue_rotated_cap_unlocked. mon.
  destruct (repl =? 0); mon; [split; [core|by left]|].
  destruct (has_bits auth repl); mon; [|split; [core|by left]].
  match goal with |- context [llam_broker_issue_object_cap_unlocked ?f ?n ?g ?r ?o w] =>
    destruct (issue_object_cases f n g r o w) as [Hc [(b&rid&t&Hb&Hr&_&H1&Ht)|H1]];
    destruct (llam_broker_issue_object_cap_unlocked f n g r o w) as [r1 w4] end; mon; subst r1; mon.
  - split; [done|]. right. by exists b, rid, t.
  - split; [done|by left].
Qed.

(** ** Rotation of a slot *)

(** What a successful rotation does to its slot, for each table. *)
Definition rotated `{BrokerSlot T} (repl : Z) (s s' : T) : Prop :=
  slot_active s' = slot_active s ∧ slot_id s' = slot_id s ∧ slot_subject s' = slot_subject s ∧
  slot_generation s' = u64 (slot_generation s + 1) ∧ slot_rights s' = repl ∧
  (slot_inv s → slot_inv s') ∧ slot_data_le s s'.

Lemma rotated_update `{BrokerSlot T} next (tbl : list T) i s s' repl :
  table_ok next tbl → tbl !! i = Some s → slot_active s = true →
  slot_generation s ≠ UINT64_MAX → rotated repl s s' → slot_update tbl i s'.
Proof.
  intros Hok Hi Ha Hg (R1&R2&R3&R4&R5&R6&R7) _. destruct (to_slot _ _ Hok i s Hi Ha) as (_&Hgs&Hinv).
  unfold UINT64_MAX in *. rewrite u64_small in R4 by (unfold is_u64; lia).
  split_and!; [lia|auto|]. exists s. split; [done|]. split; [done|done|lia|done|lia|done].
Qed.

(** The broker after rotating the slot a token names. *)
Inductive rotation (t : capability_token) (repl : Z) (b : broker) : broker → Prop :=
  | rotate_buffer i s s' :
      tok_family t = LLAM_BROKER_CAP_FAMILY_BUFFER → b_buffers b !! i = Some s →
      slot_matches t s = true → bs_generation s ≠ UINT64_MAX → rotated repl s s' →
      rotation t repl b (set_b_buffers (<[i := s']> (b_buffers b)) b)
  | rotate_descriptor i s s' :
      tok_family t = LLAM_BROKER_CAP_FAMILY_DESCRIPTOR → b_descriptors b !! i = Some s →
      slot_matches t s = true → ds_generation s ≠ UINT64_MAX → rotated repl s s' →
      rotation t repl b (set_b_descriptors (<[i := s']> (b_descriptors b)) b)
  | rotate_channel i s s' :
      tok_family t = LLAM_BROKER_CAP_FAMILY_CHANNEL → channels_of b !! i = Some s →
      slot_matches t s = true → cs_generation s ≠ UINT64_MAX → rotated repl s s' →
      rotation t repl b (with_channel i s' b).

Lemma rotation_evolve t repl b b' : rotation t repl b b' → evolve b b'.
Proof.
  intros Hr. apply evolve_ok; [destruct Hr; same_shape|]. intros [Kb Kd Kc Kt Ke].
  destruct Hr as [i s s' _ Hi Hm Hg Hrot|i s s' _ Hi Hm Hg Hrot|i s s' _ Hi Hm Hg Hrot];
  apply slot_matches_spec in Hm as (Ha&_&_).
  - apply evolve_buffer. by eapply (rotated_update _ _ _ s).
  - apply evolve_descriptor. by eapply (rotated_update _ _ _ s).
  - apply evolve_channel. by eapply (rotated_update _ _ _ s).
Qed.

(** The table no longer has a live slot at the old id and generation. *)
Lemma rotated_dead `{BrokerSlot T} next (tbl : list T) i s s' repl t r :
  table_ok next tbl → tbl !! i = Some s → slot_matches t s = true →
  slot_generation s ≠ UINT64_MAX → rotated repl s s' →
  slot_live t r (<[i := s']> tbl) = false.
Proof.
  intros Hok Hi Hm Hg (R1&R2&R3&R4&R5&R6&R7). apply not_true_iff_false.
  intros (k&x&Hk&Hx&_)%slot_live_spec. apply slot_matches_spec in Hm as (M1&M2&M3).
  apply slot_matches_spec in Hx as (X1&X2&X3).
  destruct (to_slot _ _ Hok i s Hi M1) as (_&Hgs&_).
  unfold UINT64_MAX in *. rewrite u64_small in R4 by (unfold is_u64; lia).
  apply list_lookup_insert_Some in Hk as [(<-&<-&_)|[Hne Hk]]; [lia|].
  apply Hne. eapply (to_unique _ _ Hok); eauto. congruence.
Qed.

Lemma rotation_dead t repl b b' r : broker_ok b → rotation t repl b b' → live_in b' t r = false.
Proof.
  intros [Kb Kd Kc Kt Ke] Hr.
  destruct Hr as [i s s' Hf Hi Hm Hg Hrot|i s s' Hf Hi Hm Hg Hrot|i s s' Hf Hi Hm Hg Hrot].
  - rewrite live_in_buffer by done. by eapply rotated_dead.
  - rewrite live_in_descriptor by done. by eapply rotated_dead.
  - rewrite live_in_channel by done.
    replace (channels_of (with_channel i s' b)) with (<[i := s']> (channels_of b)); [by eapply rotated_dead|].
    unfold channels_of, with_channel. cbn. by destruct (b_channels b).
Qed.

(** ** The revoke functions *)

(** The token minted for the generation after [source]'s. *)
Definition replacement_for (b : broker) (subj : Z) (source : capability_token) (repl : Z)
    (t : capability_token) : Prop :=
  ∃ rid, b_runtime b = Some rid ∧ has_bits (tok_rights source) repl = true ∧
    token_for (b_capability_key b)
      (CapObject rid (tok_family source) (tok_slot source) (u64 (tok_generation source + 1))
         (b_revocation_epoch b) subj) repl t.

(** The outcome of a revoke function on one table. *)
Definition revoke_outcome (w : world) (b : broker) (source : capability_token) (repl : Z)
    (r : (Z * option capability_token) * world) : Prop :=
  (r.1.1 = -1 ∧ same_core w r.2)
  ∨ ∃ t b' w1, r.1 = (0, Some t) ∧ rotation source repl b b' ∧ same_core w w1 ∧
      r.2 = set_w_broker (Some b') w1 ∧ replacement_for b (cur_subject w) source repl t.

Lemma revoke_buffer_outcome source repl w b :
  w_broker w = Some b →
  revoke_outcome w b source repl
    (llam_broker_revoke_buffer_unlocked source repl (Some zero_token) w).
Proof.
  intros Hb. unfold revoke_outcome, llam_broker_revoke_buffer_unlocked, llam_broker_find_buffer_unlocked. mon.
  destruct (find_object_cases LLAM_BROKER_CAP_FAMILY_BUFFER b_buffers (Some source)
    LLAM_CAP_RIGHT_DESTROY w) as [(i&b'&t&s&->&F)|(e&->)]; mon; [|by left].
  pose proof F as [Fb [= <-] Ff _ Fs Fm _]. rewrite Hb in Fb. injection Fb as <-. rewrite Hb. mon.
  rewrite (found_buffer_slot _ _ _ _ _ _ _ F). apply slot_matches_spec in Fm as M. destruct M as (M1&M2&M3).
  cbn in M2, M3. rewrite M2, M3.
  match goal with |- context [llam_broker_prepare_rotated_cap_unlocked ?f ?n ?g ?a ?r ?o w] =>
    destruct (prepare_cases f n g a r w) as [Hc [H1|(b'&rid&t'&H1&Hg&Hbits&Hb'&Hr&Ht)]];
    destruct (llam_broker_prepare_rotated_cap_unlocked f n g a r o w) as [[[rc ng] ot] w1] end; mon.
  - subst rc. mon. by left.
  - injection H1 as -> -> ->. mon. right. rewrite (proj1 Hc), Hb. mon. eexists t', _, w1.
    split_and!; [done| |done|done|].
    + eapply (rotate_buffer _ _ _ i s); [done|done|done|cbn; congruence|].
      split_and!; try done. cbn. by rewrite M3.
    + rewrite Hb in Hb'. injection Hb' as <-. by exists rid.
Qed.

Lemma revoke_channel_outcome source repl w b :
  w_broker w = Some b →
  revoke_outcome w b source repl
    (llam_broker_revoke_channel_unlocked source repl (Some zero_token) w).
Proof.
  intros Hb. unfold revoke_outcome, llam_broker_revoke_channel_unlocked. mon.
  destruct (find_channel_cases (Some source) LLAM_CAP_RIGHT_DESTROY w)
    as [(i&b'&t&s&->&F&Hat)|(e&->)]; mon; [|by left].
  pose proof F as [Fb [= <-] Ff _ Fs Fm _]. rewrite Hb in Fb. injection Fb as <-. rewrite Hb. mon.
  rewrite Hat. apply slot_matches_spec in Fm as M. destruct M as (M1&M2&M3). cbn in M2, M3. rewrite M2, M3.
  match goal with |- context [llam_broker_prepare_rotated_cap_unlocked ?f ?n ?g ?a ?r ?o w] =>
    destruct (prepare_cases f n g a r w) as [Hc [H1|(b'&rid&t'&H1&Hg&Hbits&Hb'&Hr&Ht)]];
    destruct (llam_broker_prepare_rotated_cap_unlocked f n g a r o w) as [[[rc ng] ot] w1] end; mon.
  - subst rc. mon. by left.
  - injection H1 as -> -> ->. mon. right.
    assert (w_broker w1 = Some b) as Hb1 by by rewrite (proj1 Hc).
    rewrite (upd_channel_run _ _ _ _ Hb1). mon. rewrite Hat. eexists t', _, w1.
    split_and!; [done| |done|done|].
    + eapply (rotate_channel _ _ _ i s); [done|done|done|congruence|].
      split_and!; try done; [cbn; by rewrite M3|]. cbn. by intros [].
    + rewrite Hb in Hb'. injection Hb' as <-. by exists rid.
Qed.

Lemma revoke_descriptor_outcome source repl w b :
  w_broker w = Some b →
  revoke_outcome w b source repl
    (llam_broker_revoke_descriptor_unlocked source repl (Some zero_token) w).
Proof.
  intros Hb. unfold revoke_outcome, llam_broker_revoke_descriptor_unlocked.
  destruct (Z.eqb_spec (tok_family source) LLAM_BROKER_CAP_FAMILY_DESCRIPTOR) as [Hf|]; mon; [|by left].
  rewrite Hb. mon. destruct (first_free (slot_matches source) 0 (b_descriptors b)) as [i|] eqn:E; mon; [|by left].
  apply first_free_some in E as (k&s&->&Hk&Hm). cbn [Nat.add].
  assert (descriptor_at b k = s) as -> by (by apply nth_lookup_Some).
  destruct (Z.land (ds_rights s) LLAM_CAP_RIGHT_DESTROY =? 0); mon; [by left|].
  apply slot_matches_spec in Hm as M. destruct M as (M1&M2&M3). cbn in M2, M3. rewrite M2, M3.
  match goal with |- context [llam_broker_prepare_rotated_cap_unlocked ?f ?n ?g ?a ?r ?o w] =>
    destruct (prepare_cases f n g a r w) as [Hc [H1|(b'&rid&t'&H1&Hg&Hbits&Hb'&Hr&Ht)]];
    destruct (llam_broker_prepare_rotated_cap_unlocked f n g a r o w) as [[[rc ng] ot] w1] end; mon.
  - subst rc. mon. by left.
  - injection H1 as -> -> ->. mon. right. rewrite (proj1 Hc), Hb. mon. eexists t', _, w1.
    split_and!; [done| |done|done|].
    + eapply (rotate_descriptor _ _ _ k s); [done|done|done|congruence|].
      split_and!; try done. cbn. by rewrite M3.
    + rewrite Hb in Hb'. injection Hb' as <-. by exists rid.
Qed.

Lemma revoke_locked_cases source repl w b :
  w_broker w = Some b →
  let r := revoke_locked source repl w in
  (r.1 = mret (-1, Some zero_token) ∧ same_core w r.2)
  ∨ ∃ t b' w1, r.1 = mret (0, Some t) ∧
      authorized b (cur_subject w) source LLAM_CAP_RIGHT_DESTROY ∧ rotation source repl b b' ∧
      same_core w w1 ∧ r.2 = set_w_broker (Some b') w1 ∧
      replacement_for b (cur_subject w) source repl t.
Proof.
  intros Hb. cbn zeta. unfold revoke_locked. mon.
  destruct (validate_cap_cases (Some source) LLAM_CAP_RIGHT_DESTROY w)
    as [[-> (b'&t&Hb'&[= <-]&_&Ha)]|(e&->&_)]; mon; [|by left].
  rewrite Hb in Hb'. injection Hb' as <-.
  match goal with |- context [(if ?c then ?m1 else ?m2) w] =>
    assert (revoke_outcome w b source repl ((if c then m1 else m2) w)) as Ho;
    [|destruct ((if c then m1 else m2) w) as [[rc repl'] w2]] end.
  { repeat branch; [by apply revoke_buffer_outcome|by apply revoke_descriptor_outcome
                   |by apply revoke_channel_outcome|by left]. }
  destruct Ho as [[H1 Hc]|(t&b'&w1&[= -> ->]&Hrot&Hc&H2&Hrep)]; mon.
  - subst rc. by left.
  - subst w2. right. by exists t, b', w1.
Qed.

Lemma step_revoke_object_cap token repl out : pres step (llam_broker_revoke_object_cap token repl out).
Proof.
  unfold llam_broker_revoke_object_cap. destruct out; [|by apply pres_step_core; auto with llam].
  destruct token as [source|]; [|by apply pres_step_core; auto with llam].
  destruct (repl =? 0); [by apply pres_step_core; auto with llam|].
  apply pres_with_op; [intros e; by apply pres_step_core|]. intros w b Hb Hl Hok.
  destruct (revoke_locked_cases source repl w b Hb) as [[-> Hc]|(t&b'&w1&->&_&Hrot&Hc&->&_)].
  - split; [by apply step_core_world|by apply pres_step_core].
  - split; [|by apply pres_step_core]. eapply step_set_broker; [done|done|by eapply rotation_evolve].
Qed.

(** The whole operation as its caller sees it. *)
Lemma revoke_cases source repl old w b :
  world_ok w → w_broker w = Some b →
  let r := llam_broker_revoke_object_cap (Some source) repl (Some old) w in
  (r.1 = (-1, Some zero_token) ∧ same_objs w r.2)
  ∨ ∃ t b' b'', r.1 = (0, Some t) ∧ w_broker r.2 = Some b'' ∧
      b'' = set_b_active_ops (b_active_ops b'') b' ∧
      authorized b (cur_subject w) source LLAM_CAP_RIGHT_DESTROY ∧ rotation source repl b b' ∧
      replacement_for b (cur_subject w) source repl t.
Proof.
  intros Hok Hb. cbn zeta. unfold llam_broker_revoke_object_cap.
  destruct (repl =? 0); [by left|].
  match goal with |- context [with_op ?f ?k w] => destruct (with_op_spec f k w Hok)
    as [(e&w'&Ho&_&->)|(w1&b1&w3&Hb1&Hl&Ho&Hok1&Hs&->&Ho3&_)] end; [by left|].
  pose proof (same_objs_broker _ _ _ _ Ho Hb Hb1) as Eb. set (n := b_active_ops b1) in *. clearbody n. subst b1.
  destruct (revoke_locked_cases source repl w1 _ Hb1) as [[Hx Hc]|(t&b'&w2&Hx&Ha&Hrot&Hc&Hw&Hrep)];
    rewrite Hx; mon.
  - left. split; [done|]. etrans; [exact Ho|]. etrans; [by apply same_core_objs|done].
  - right. rewrite Hw in Ho3. destruct Ho3 as [Ho3 _]. destruct (w_broker w3) as [b3|] eqn:Hb3; [|done].
    apply (inj Some) in Ho3. apply active_ops_only in Ho3. rewrite authorized_active, Hs in Ha.
    assert (∃ b0, rotation source repl b b0 ∧ b' = set_b_active_ops n b0) as (b0&Hr0&->).
    { destruct Hrot; eexists; (split; [econstructor; eassumption|done]). }
    exists t, b0, b3. split_and!; try done.
    destruct Hrep as (rid&?&?&?). exists rid. by rewrite <- Hs.
Qed.

(** ** What revocation guarantees *)

Lemma slot_live_insert_other `{BrokerSlot T} (tbl : list T) i s s' x r :
  tbl !! i = Some s → slot_matches x s = false → slot_matches x s' = false →
  slot_live x r (<[i := s']> tbl) = slot_live x r tbl.
Proof.
  intros Hi Hs Hs'. apply eq_true_iff_eq. rewrite !slot_live_spec. split.
  - intros (k&y&Hk&Hm&Hr). apply list_lookup_insert_Some in Hk as [(<-&<-&_)|[_ Hk]]; [congruence|].
    by exists k, y.
  - intros (k&y&Hk&Hm&Hr). exists k, y. rewrite list_lookup_insert_ne; [done|]. intros ->. congruence.
Qed.

Lemma slot_live_insert_at `{BrokerSlot T} (tbl : list T) i s s' x r :
  tbl !! i = Some s → slot_matches x s' = true → has_bits (slot_rights s') r = true →
  slot_live x r (<[i := s']> tbl) = true.
Proof.
  intros Hi Hm Hr. apply slot_live_spec. exists i, s'. split_and!; [|done|done].
  apply list_lookup_insert_eq. by eapply lookup_lt_Some.
Qed.

Lemma channels_with i s b : channels_of (with_channel i s b) = <[i := s]> (channels_of b).
Proof. unfold channels_of, with_channel. cbn. by destruct (b_channels b). Qed.

(** Rotation leaves tokens of other objects alone. *)
Lemma rotation_other t repl b b' x r :
  rotation t repl b b' → tok_family x ≠ tok_family t ∨ tok_slot x ≠ tok_slot t →
  live_in b' x r = live_in b x r.
Proof.
  intros Hr Hx. unfold live_in. destruct Hr as [i s s' Hf Hi Hm _ Hrot|i s s' Hf Hi Hm _ Hrot|i s s' Hf Hi Hm _ Hrot];
  apply slot_matches_spec in Hm as (_&Hid&_); destruct Hrot as (_&Hid'&_); rewrite Hf in Hx.
  - destruct (Z.eqb_spec (tok_family x) LLAM_BROKER_CAP_FAMILY_BUFFER) as [E|]; [|done].
    apply (slot_live_insert_other _ _ s); [done|..]; apply not_true_iff_false; intros (_&X&_)%slot_matches_spec; lia.
  - repeat branch; try done. bools.
    apply (slot_live_insert_other _ _ s); [done|..]; apply not_true_iff_false; intros (_&X&_)%slot_matches_spec; lia.
  - rewrite channels_with. repeat branch; try done. bools.
    apply (slot_live_insert_other _ _ s); [done|..]; apply not_true_iff_false; intros (_&X&_)%slot_matches_spec; lia.
Qed.

(** The replacement names the rotated slot. *)
Lemma rotation_live t repl b b' x :
  rotation t repl b b' → tok_family x = tok_family t → tok_slot x = tok_slot t →
  tok_generation x = u64 (tok_generation t + 1) → live_in b' x repl = true.
Proof.
  intros Hr Hf Hs Hg. destruct Hr as [i s s' Hft Hi Hm _ Hrot|i s s' Hft Hi Hm _ Hrot|i s s' Hft Hi Hm _ Hrot];
  apply slot_matches_spec in Hm as (M1&M2&M3); destruct Hrot as (R1&R2&R3&R4&R5&_);
  [rewrite live_in_buffer by congruence|rewrite live_in_descriptor by congruence
  |rewrite live_in_channel by congruence; rewrite channels_with];
  (apply (slot_live_insert_at _ _ s); [done|apply slot_matches_spec; split_and!; congruence
                                      |rewrite R5; apply has_bits_refl]).
Qed.

Lemma rotation_authority t repl b b' :
  rotation t repl b b' → b_capability_key b' = b_capability_key b ∧ b_runtime b' = b_runtime b
    ∧ b_revocation_epoch b' = b_revocation_epoch b.
Proof. by intros []. Qed.

Lemma live_in_same_object b x t r :
  tok_family x = tok_family t → tok_slot x = tok_slot t → tok_generation x = tok_generation t →
  live_in b x r = live_in b t r.
Proof. intros Hf Hs Hg. unfold live_in, slot_live, slot_matches. by rewrite Hf, Hs, Hg. Qed.

(** A revocation that reports failure, for whatever reason (bad authority,
    widened rights, generation exhaustion, no entropy for the new token), has
    changed no object: the output token is zero and every token is authorized
    exactly as before. *)
Theorem revoke_atomic w b source repl old rc out w' :
  world_ok w → w_broker w = Some b →
  llam_broker_revoke_object_cap (Some source) repl (Some old) w = (rc, out, w') → rc ≠ 0 →
  rc = -1 ∧ out = Some zero_token ∧ same_objs w w' ∧
  ∃ b', w_broker w' = Some b' ∧ ∀ x subj r, authorized b' subj x r ↔ authorized b subj x r.
Proof.
  intros Hok Hb E Hrc. destruct (revoke_cases source repl old w b Hok Hb)
    as [[H1 Ho]|(t&b'&b''&H1&_)]; rewrite E in *; cbn [fst snd] in *.
  - injection H1 as -> ->. split_and!; try done. pose proof Ho as [Ho' _]. rewrite Hb in Ho'.
    destruct (w_broker w') as [b'|] eqn:Hb'; [|done]. exists b'. split; [done|].
    rewrite (same_objs_broker _ _ _ _ Ho Hb Hb'). intros. apply authorized_active.
  - by injection H1 as -> ->.
Qed.

(** C2: A successful revocation kills every token of the object's old
    generation, for every subject and right, the caller's included; the new
    token is live authority for exactly the replacement rights, which are a part
    of the revoked token's; tokens of other objects are unaffected. *)
Theorem revoke_kills_old_tokens w b source repl old t w' :
  world_ok w → w_broker w = Some b → broker_ok b →
  llam_broker_revoke_object_cap (Some source) repl (Some old) w = (0, Some t, w') →
  ∃ b', w_broker w' = Some b' ∧ broker_ok b' ∧
    (∀ x subj r, tok_family x = tok_family source → tok_slot x = tok_slot source →
       tok_generation x = tok_generation source → ¬ authorized b' subj x r) ∧
    authorized b' (cur_subject w) t repl ∧ tok_rights t = repl ∧
    has_bits (tok_rights source) repl = true ∧
    (∀ x subj r, tok_family x ≠ tok_family source ∨ tok_slot x ≠ tok_slot source →
       authorized b' subj x r ↔ authorized b subj x r).
Proof.
  intros Hok Hb Hbok E. pose proof (revoke_cases source repl old w b Hok Hb) as Hc. cbn zeta in Hc.
  assert (repl ≠ 0) as Hr0.
  { intros ->. unfold llam_broker_revoke_object_cap in E. by injection E. }
  rewrite E in Hc. cbn [fst snd] in Hc. destruct Hc as [[? _]|(t'&b1&b''&[= <-]&Hb''&Eb&Ha&Hrot&(rid&Hrid&Hsub&Ht))]; [done|].
  exists b''. rewrite Eb. set (n := b_active_ops b''). destruct (rotation_authority _ _ _ _ Hrot) as (Ak&Ar&Ae).
  split_and!; [by rewrite Eb in Hb''| | | | |done|].
  - apply (evolve_active b1). by apply (rotation_evolve _ _ _ _ Hrot).
  - intros x subj r Hf Hs Hg [_ _ Hl]. rewrite live_in_active, (live_in_same_object _ _ source) in Hl by done.
    by rewrite (rotation_dead _ _ _ _ r Hbok Hrot) in Hl.
  - apply authorized_active. destruct Ht as [T1 T2 T3 T4 T5 T6 T7 T8]. cbn in *. split.
    + rewrite Ak, Ae. apply T8; [done|apply has_bits_refl].
    + by rewrite Ar, T2.
    + by eapply rotation_live.
  - apply Ht.
  - intros x subj r Hx. rewrite authorized_active. split; intros [V R L]; split.
    + by rewrite Ak, Ae in V.
    + by rewrite Ar in R.
    + by rewrite (rotation_other _ _ _ _ x r Hrot Hx) in L.
    + by rewrite Ak, Ae.
    + by rewrite Ar.
    + by rewrite (rotation_other _ _ _ _ x r Hrot Hx).
Qed.

(** ** A concrete revocation *)

Definition revocable_rights : Z := Z.lor LLAM_CAP_RIGHT_READ LLAM_CAP_RIGHT_DESTROY.

Definition revocable_broker : broker :=
  set_b_buffers
    (<[0%nat := BufferSlot (Some [1; 2]) 2 1 1 revocable_rights 0 true]> (b_buffers example_broker))
    (set_b_next_buffer_id 2 example_broker).

Definition revocable_world : world := set_w_broker (Some revocable_broker) example_world.

Definition revocable_token : capability_token :=
  default zero_token
    (llam_broker_issue_object_cap LLAM_BROKER_CAP_FAMILY_BUFFER 1 1 revocable_rights
       (Some zero_token) revocable_world).1.2.

(** The same world after the OS has run out of entropy. *)
Definition starved_world : world :=
  set_w_os (set_os_entropy [] (w_os revocable_world)) revocable_world.

Lemma revocable_world_ok : world_ok revocable_world.
Proof. split; [apply idle_tls_wf|]. by intros ? [= <-]. Qed.

Lemma revocable_broker_ok : broker_ok revocable_broker.
Proof.
  destruct (evolve_create_buffer example_broker 0 (BufferSlot (Some [1; 2]) 2 1 1 revocable_rights 0 true))
    as [_ He].
  - split_and!; try done. by exists [1; 2].
  - apply He, example_broker_ok.
Qed.

Lemma revoke_atomic_witness :
  let r := llam_broker_revoke_object_cap (Some revocable_token) LLAM_CAP_RIGHT_READ
             (Some revocable_token) starved_world in
  r.1 = (-1, Some zero_token) ∧ same_objs starved_world r.2.
Proof.
  cbn zeta.
  assert ((llam_broker_revoke_object_cap (Some revocable_token) LLAM_CAP_RIGHT_READ
             (Some revocable_token) starved_world).1.1 = -1) as E0 by (vm_compute; reflexivity).
  destruct (llam_broker_revoke_object_cap (Some revocable_token) LLAM_CAP_RIGHT_READ
             (Some revocable_token) starved_world) as [[rc out] w'] eqn:E.
  cbn [fst snd] in *. subst rc.
  destruct (revoke_atomic starved_world revocable_broker revocable_token LLAM_CAP_RIGHT_READ
    revocable_token (-1) out w' revocable_world_ok eq_refl E ltac:(lia)) as (_&->&Ho&_).
  split; [reflexivity|exact Ho].
Defined.

Lemma revoke_kills_old_tokens_witness :
  ∃ b', w_broker (llam_broker_revoke_object_cap (Some revocable_token) LLAM_CAP_RIGHT_READ
          (Some zero_token) revocable_world).2 = Some b' ∧
    ∀ subj r, ¬ authorized b' subj revocable_token r.
Proof.
  assert (match llam_broker_revoke_object_cap (Some revocable_token) LLAM_CAP_RIGHT_READ
            (Some zero_token) revocable_world with
          | (rc, out, _) => rc = 0 ∧ is_null out = false end) as E0 by (vm_compute; split; reflexivity).
  destruct (llam_broker_revoke_object_cap (Some revocable_token) LLAM_CAP_RIGHT_READ
             (Some zero_token) revocable_world) as [[rc [t|]] w'] eqn:E;
    destruct E0 as [-> E0]; [|discriminate E0].
  destruct (revoke_kills_old_tokens revocable_world revocable_broker revocable_token
    LLAM_CAP_RIGHT_READ zero_token t w' revocable_world_ok eq_refl revocable_broker_ok E)
    as (b'&Hb'&_&Hk&_).
  exists b'. split; [exact Hb'|]. intros subj r. by apply Hk.
Defined.
