(* ===== verification/BrokerDescriptor.v ===== *)
(** * Broker descriptors ([src/core/broker/broker_descriptor.c])

    Registration, duplication, nonblocking reads and writes and reclamation of
    file descriptors granted to the broker (POSIX layout).  Descriptors the
    broker process opens or closes are events of the log, so that ownership can be
    stated.

    - a read or write goes through one duplicate of the descriptor the token
      authorizes, used only for that and closed exactly once
      ([descriptor_read_sound], [descriptor_write_sound]);
    - what a slot owns is closed exactly once ([descriptor_ownership]);
    - waiting for readiness is bounded ([descriptor_wait_bounded]). *)

From S2P Require Import Prelude World Capability BrokerOps BrokerCore BrokerRevoke.

(** ** System calls *)

Definition FD_CLOEXEC : Z := 1.
Definition EINTR : Z := 4.
Definition POLLIN : Z := 1.
Definition POLLOUT : Z := 4.
Definition POLLERR : Z := 8.
Definition POLLHUP : Z := 16.
Definition POLLNVAL : Z := 32.
Definition INT_MAX : Z := 2 ^ 31 - 1.
Definition LLAM_BROKER_DESCRIPTOR_IO_TIMEOUT_MS : Z := 250.

(** [fcntl]: a result, or [-errno]. *)
Definition sys_fcntl : M Z :=
  v ← pop os_fcntl set_os_fcntl 0;
  if v <? 0 then set_errno (- v) ;; mret (-1) else mret v.

(** [fcntl(fd, F_DUPFD_CLOEXEC, 0)] or [dup(fd)]: a new descriptor, or an error. *)
Definition sys_dup (fd : Z) : M Z :=
  v ← pop os_dup set_os_dup (inr EBADF);
  match v with
  | inl duplicate => log (EvDup fd (Z.of_nat duplicate)) ;; mret (Z.of_nat duplicate)
  | inr e => set_errno e ;; mret (-1)
  end.

Definition sys_close (fd : Z) : M unit := log (EvClose fd).

Definition sys_getsockopt : M Z :=
  v ← pop os_getsockopt set_os_getsockopt 0;
  if negb (v =? 0) then set_errno v ;; mret (-1) else mret 0.

Definition llam_now_ns : M Z := pop os_now set_os_now 0.

(** [poll] of one descriptor. *)
Definition sys_poll (fd events timeout_ms : Z) : M poll_result :=
  log (EvPoll fd events timeout_ms) ;;
  pop os_poll set_os_poll PollTimeout.

(** [recv(fd, data, length, MSG_DONTWAIT)]: the count and at most [length]
    bytes, or an error. *)
Definition sys_recv (fd length : Z) : M (Z * list Z) :=
  log (EvRecv fd length) ;;
  v ← pop os_recv set_os_recv (inr EAGAIN);
  match v with
  | inl bytes =>
      let bytes := take (Z.to_nat length) bytes in
      mret (Z.of_nat (Datatypes.length bytes), bytes)
  | inr e => set_errno e ;; mret (-1, [])
  end.

(** [send(fd, data, length, MSG_DONTWAIT | MSG_NOSIGNAL)] *)
Definition sys_send (fd : Z) (data : list Z) : M Z :=
  log (EvSend fd data) ;;
  v ← pop os_send set_os_send (inr EAGAIN);
  match v with
  | inl n => mret n
  | inr e => set_errno e ;; mret (-1)
  end.

(** ** Helpers *)

Definition llam_broker_set_cloexec_fd (fd : Z) : M Z :=
  if fd <? 0 then fail EINVAL
  else
    flags ← sys_fcntl;
    if flags <? 0 then mret (-1)
    else if negb (Z.land flags FD_CLOEXEC =? 0) then mret 0
    else sys_fcntl.

Definition llam_broker_descriptor_set_cloexec (handle : Z) : M Z :=
  if handle <? 0 then fail EINVAL
  else
    flags ← sys_fcntl;
    if flags <? 0 then mret (-1)
    else if negb (Z.land flags FD_CLOEXEC =? 0) then mret 0
    else sys_fcntl.

Definition llam_broker_dup_cloexec_fd (fd : Z) : M Z :=
  if fd <? 0 then fail EINVAL
  else
    duplicate ← sys_dup fd;
    if 0 <=? duplicate then mret duplicate
    else
      e ← get_errno;
      if negb (e =? EINVAL) then mret (-1)
      else
        duplicate ← sys_dup fd;
        if duplicate <? 0 then mret (-1)
        else
          rc ← llam_broker_set_cloexec_fd duplicate;
          if negb (rc =? 0)
          then saved_errno ← get_errno; sys_close duplicate ;; set_errno saved_errno ;; mret (-1)
          else mret duplicate.

Definition llam_broker_descriptor_handle_invalid (handle : Z) : bool := handle <? 0.

Definition llam_broker_descriptor_require_socket (fd : Z) : M Z :=
  if fd <? 0 then fail EINVAL
  else
    rc ← sys_getsockopt;
    if negb (rc =? 0)
    then
      e ← get_errno;
      (if (e =? ENOTSOCK) || (e =? EINVAL) then set_errno ENOTSUP else mret tt) ;;
      mret (-1)
    else mret 0.

Definition llam_broker_descriptor_recv_nonblocking (fd length : Z) : M (Z * list Z) :=
  sys_recv fd length.

Definition llam_broker_descriptor_send_nonblocking (fd : Z) (data : list Z) : M Z := sys_send fd data.

(** The timeout the poll loop passes: the time left to the deadline, rounded up
    to milliseconds and at least 1. *)
Definition poll_timeout (start_ns deadline_ns now_ns : Z) : Z :=
  if negb (start_ns =? 0) && negb (now_ns =? 0)
  then
    let remaining_ns := deadline_ns - now_ns in
    let remaining_ms := remaining_ns / 1000000 in
    let remaining_ms := if negb (remaining_ns mod 1000000 =? 0) then remaining_ms + 1 else remaining_ms in
    let timeout_ms := if INT_MAX <? remaining_ms then INT_MAX else remaining_ms in
    if timeout_ms <? 1 then 1 else timeout_ms
  else LLAM_BROKER_DESCRIPTOR_IO_TIMEOUT_MS.

(** The poll loop; [fuel] bounds the number of EINTR restarts. *)
Fixpoint wait_fd_loop (fuel : nat) (fd events start_ns deadline_ns : Z) : M Z :=
  match fuel with
  | O => fail EAGAIN
  | S fuel =>
      now_ns ← llam_now_ns;
      if negb (start_ns =? 0) && negb (now_ns =? 0) && (deadline_ns <=? now_ns) then fail EAGAIN
      else
        r ← sys_poll fd events (poll_timeout start_ns deadline_ns now_ns);
        match r with
        | PollReady revents =>
            if negb (Z.land revents POLLNVAL =? 0) then fail EBADF
            else if negb (Z.land revents events =? 0) || negb (Z.land revents POLLERR =? 0)
                    || (negb (Z.land events POLLIN =? 0) && negb (Z.land revents POLLHUP =? 0))
            then mret 0
            else fail EAGAIN
        | PollTimeout => fail EAGAIN
        | PollError e =>
            set_errno e ;;
            if e =? EINTR then wait_fd_loop fuel fd events start_ns deadline_ns else mret (-1)
        end
  end.

(** Each restart reads the [poll] tape, which the fuel covers. *)
Definition llam_broker_descriptor_wait_fd_ready (fd events : Z) : M Z :=
  if fd <? 0 then fail EINVAL
  else
    start_ns ← llam_now_ns;
    let deadline_ns := u64 (start_ns + LLAM_BROKER_DESCRIPTOR_IO_TIMEOUT_MS * 1000000) in
    let deadline_ns := if deadline_ns <? start_ns then UINT64_MAX else deadline_ns in
    polls ← gets (λ w, length (os_poll (w_os w)));
    wait_fd_loop (S polls) fd events start_ns deadline_ns.

(** ** Slots *)

Definition llam_broker_descriptor_close_owned_slot (slot : descriptor_slot) : M unit :=
  if negb (ds_close_on_destroy slot) then mret tt
  else if 0 <=? ds_fd slot then sys_close (ds_fd slot) else mret tt.

Definition reset_descriptor_slot : descriptor_slot := DescriptorSlot (-1) 0 0 0 0 false false.

Definition llam_broker_descriptor_reset_slot (i : nat) : M unit :=
  upd_broker (λ b, set_b_descriptors (<[i := reset_descriptor_slot]> (b_descriptors b)) b).

Definition llam_broker_clear_descriptors : M unit :=
  on_broker (mret tt) (λ _,
    for_each LLAM_BROKER_DESCRIPTOR_SLOTS 0 (λ i,
      b ← the_broker;
      llam_broker_descriptor_close_owned_slot (descriptor_at b i) ;;
      llam_broker_descriptor_reset_slot i)).

Definition llam_broker_reclaim_subject_descriptors (subject_id : Z) : M unit :=
  on_broker (mret tt) (λ _,
    if subject_id =? 0 then mret tt
    else
      rc ← llam_broker_lock;
      if negb (rc =? 0) then mret tt
      else
        for_each LLAM_BROKER_DESCRIPTOR_SLOTS 0 (λ i,
          b ← the_broker;
          let slot := descriptor_at b i in
          if (ds_subject_id slot =? subject_id)
             && (ds_active slot || ds_close_on_destroy slot
                 || negb (llam_broker_descriptor_handle_invalid (ds_fd slot)))
          then
            llam_broker_descriptor_close_owned_slot slot ;;
            llam_broker_descriptor_reset_slot i
          else mret tt) ;;
        llam_broker_unlock).

Definition llam_broker_find_descriptor_unlocked (token : option capability_token)
    (required_rights : Z) : M (option nat) :=
  find_object_unlocked LLAM_BROKER_CAP_FAMILY_DESCRIPTOR b_descriptors token required_rights.

(** Reclaim what slot [i] still owns, and write the new descriptor into it. *)
Definition write_descriptor_slot (i : nat) (handle rights : Z) (close_on_destroy : bool) : M unit :=
  b ← the_broker;
  llam_broker_descriptor_close_owned_slot (descriptor_at b i) ;;
  llam_broker_descriptor_reset_slot i ;;
  subject ← llam_broker_current_subject;
  upd_broker (λ b,
    set_b_descriptors
      (<[i := DescriptorSlot handle (b_next_descriptor_id b) 1 rights subject true
                close_on_destroy]> (b_descriptors b))
      (set_b_next_descriptor_id (u64 (b_next_descriptor_id b + 1)) b)).

(** The part of [llam_broker_register_handle] under the lock. *)
Definition register_handle_locked (handle rights : Z) (close_on_destroy : bool)
    (out_token : option capability_token) : M (M (Z * option capability_token)) :=
  let return_minus_1 : M (Z * option capability_token) := mret (-1, out_token) in
  b ← the_broker;
  if negb (b_initialized b) || is_null (b_runtime b) then mret (set_errno EINVAL ;; return_minus_1)
  else
    match first_free (λ s, negb (ds_active s)) 0 (b_descriptors b) with
    | None => mret (set_errno ENOSPC ;; return_minus_1)
    | Some i =>
        rc ← llam_broker_validate_next_object_id (b_next_descriptor_id b);
        if negb (rc =? 0) then mret return_minus_1
        else
          write_descriptor_slot i handle rights close_on_destroy ;;
          '(rc, out) ← llam_broker_issue_object_cap_unlocked LLAM_BROKER_CAP_FAMILY_DESCRIPTOR
                         (b_next_descriptor_id b) 1 rights out_token;
          if negb (rc =? 0)
          then llam_broker_descriptor_reset_slot i ;; mret (mret (-1, out))
          else mret (mret (0, out))
    end.

Definition llam_broker_register_handle (handle rights : Z) (close_on_destroy : bool)
    (out_token : option capability_token) : M (Z * option capability_token) :=
  let out_token := (λ _, zero_token) <$> out_token in
  let return_minus_1 : M (Z * option capability_token) := mret (-1, out_token) in
  null ← gets (λ w, is_null (w_broker w));
  if (null || llam_broker_descriptor_handle_invalid handle || (rights =? 0) || is_null out_token)%bool
  then set_errno EINVAL ;; return_minus_1
  else
    rc ← llam_broker_validate_object_rights LLAM_BROKER_CAP_FAMILY_DESCRIPTOR rights;
    if negb (rc =? 0) then return_minus_1
    else
      rc ← llam_broker_descriptor_set_cloexec handle;
      if negb (rc =? 0) then return_minus_1
      else
        with_op (λ _, return_minus_1)
          (register_handle_locked handle rights close_on_destroy out_token).

Definition llam_broker_register_fd (fd rights : Z) (close_on_destroy : bool)
    (out_token : option capability_token) : M (Z * option capability_token) :=
  llam_broker_register_handle fd rights close_on_destroy out_token.

(** Returns the status and [*out_handle]. *)
Definition llam_broker_duplicate_descriptor_unlocked (token : option capability_token)
    (required_rights : Z) : M (Z * Z) :=
  slot ← llam_broker_find_descriptor_unlocked token required_rights;
  match slot with
  | None => mret (-1, -1)
  | Some i =>
      b ← the_broker;
      duplicate ← llam_broker_dup_cloexec_fd (ds_fd (descriptor_at b i));
      if duplicate <? 0 then mret (-1, -1) else mret (0, duplicate)
  end.

(** [require_socket(fd) != 0 || wait_fd_ready(fd, events) != 0] *)
Definition io_not_ready (fd events : Z) : M bool :=
  rc ← llam_broker_descriptor_require_socket fd;
  if negb (rc =? 0) then mret true
  else rc ← llam_broker_descriptor_wait_fd_ready fd events; mret (negb (rc =? 0)).

(** The read on the duplicate, outside the lock. *)
Definition read_duplicate (fd : Z) (out_data : list Z) (length : Z) : M (Z * option (list Z)) :=
  bad ← io_not_ready fd POLLIN;
  if bad : bool
  then
    saved_errno ← get_errno;
    sys_close fd ;;
    llam_broker_fail_clear_output_ssize (Some out_data) length saved_errno
  else
    '(result, bytes) ← llam_broker_descriptor_recv_nonblocking fd length;
    let out_data := memcpy_at 0 bytes out_data in
    saved_errno ← get_errno;
    sys_close fd ;;
    set_errno saved_errno ;;
    llam_broker_finish_read_clear_tail (Some out_data) length result.

Definition read_handle_locked (token : option capability_token) (out_data : list Z) (length : Z)
    : M (M (Z * option (list Z))) :=
  '(rc, handle) ← llam_broker_duplicate_descriptor_unlocked token LLAM_CAP_RIGHT_READ;
  if negb (rc =? 0)
  then
    saved_errno ← get_errno;
    mret (llam_broker_fail_clear_output_ssize (Some out_data) length saved_errno)
  else mret (read_duplicate handle out_data length).

(** [out_data] points to [length] bytes. *)
Definition llam_broker_read_handle (token : option capability_token)
    (out_data : option (list Z)) (length : Z) : M (Z * option (list Z)) :=
  match out_data with
  | None => set_errno EINVAL ;; mret (-1, None)
  | Some out =>
      if length =? 0 then set_errno EINVAL ;; mret (-1, out_data)
      else
        with_op (λ e, llam_broker_fail_clear_output_ssize out_data length e)
          (read_handle_locked token out length)
  end.

(** The write on the duplicate, outside the lock. *)
Definition write_duplicate (fd : Z) (data : list Z) : M Z :=
  bad ← io_not_ready fd POLLOUT;
  if bad : bool
  then saved_errno ← get_errno; sys_close fd ;; set_errno saved_errno ;; mret (-1)
  else
    result ← llam_broker_descriptor_send_nonblocking fd data;
    saved_errno ← get_errno;
    sys_close fd ;;
    set_errno saved_errno ;;
    mret result.

Definition write_handle_locked (token : option capability_token) (data : list Z) : M (M Z) :=
  '(rc, handle) ← llam_broker_duplicate_descriptor_unlocked token LLAM_CAP_RIGHT_WRITE;
  if negb (rc =? 0) then mret (mret (-1)) else mret (write_duplicate handle data).

(** [data] points to [length] bytes. *)
Definition llam_broker_write_handle (token : option capability_token)
    (data : option (list Z)) (length : Z) : M Z :=
  match data with
  | None => fail EINVAL
  | Some data =>
      if length =? 0 then fail EINVAL
      else with_op (λ _, mret (-1)) (write_handle_locked token (take (Z.to_nat length) data))
  end.

Definition llam_broker_read_fd (token : option capability_token) (out_data : option (list Z))
    (length : Z) : M (Z * option (list Z)) :=
  if is_null out_data || (length =? 0) then set_errno EINVAL ;; mret (-1, out_data)
  else llam_broker_read_handle token out_data length.

Definition llam_broker_write_fd (token : option capability_token) (data : option (list Z))
    (length : Z) : M Z :=
  if is_null data || (length =? 0) then fail EINVAL
  else llam_broker_write_handle token data length.

(** ** Slots evolve *)

Lemma evolve_descriptor_reset b i :
  evolve b (set_b_descriptors (<[i := reset_descriptor_slot]> (b_descriptors b)) b).
Proof. apply evolve_descriptor. intros [=]. Qed.

Lemma pres_core_close_owned slot : pres same_core (llam_broker_descriptor_close_owned_slot slot).
Proof. unfold llam_broker_descriptor_close_owned_slot, sys_close. intros w. repeat branch; done. Qed.

Lemma step_descriptor_reset i : pres step (llam_broker_descriptor_reset_slot i).
Proof. intros w. apply step_upd. intros b Hb. apply evolve_descriptor_reset. Qed.

Lemma step_clear_slot i :
  pres step (b ← the_broker; llam_broker_descriptor_close_owned_slot (descriptor_at b i) ;;
             llam_broker_descriptor_reset_slot i).
Proof.
  apply pres_bind; [apply _|by apply pres_step_core|]. intros b.
  apply pres_bind; [apply _|by apply pres_step_core, pres_core_close_owned|].
  intros _. apply step_descriptor_reset.
Qed.

Lemma step_clear_descriptors : pres step llam_broker_clear_descriptors.
Proof.
  apply pres_on_broker; [apply pres_ret, _|]. intros _. apply pres_for_each; [apply _|].
  apply step_clear_slot.
Qed.

Lemma step_reclaim_descriptors subj : pres step (llam_broker_reclaim_subject_descriptors subj).
Proof.
  apply pres_on_broker; [apply pres_ret, _|]. intros _. apply pres_if; [apply pres_ret, _|].
  apply pres_bind; [apply _|apply step_lock|]. intros rc. apply pres_if; [apply pres_ret, _|].
  apply pres_bind; [apply _| |intros _; by apply pres_step_core].
  apply pres_for_each; [apply _|]. intros i. apply pres_bind; [apply _|by apply pres_step_core|].
  intros b. apply pres_if; [|apply pres_ret, _].
  apply pres_bind; [apply _|by apply pres_step_core, pres_core_close_owned|].
  intros _. apply step_descriptor_reset.
Qed.

(** ** What the system calls log *)

(** Use of the descriptor [d], or a wake-up. *)
Definition uses (d : Z) (e : event) : bool :=
  match e with
  | EvPoll fd _ _ | EvRecv fd _ | EvSend fd _ => fd =? d
  | EvBroadcast => true
  | _ => false
  end.

(** Only errno, the tapes and the log change, and only uses of [d] are logged. *)
Definition io (d : Z) (w w' : world) : Prop :=
  same_core w w' ∧ ∃ es, os_log (w_os w') = es ++ os_log (w_os w) ∧ Forall (λ e, uses d e = true) es.

#[export] Instance io_preorder d : PreOrder (io d).
Proof.
  split.
  - intros w. split; [done|]. by exists [].
  - intros x y z [A1 (e1&L1&F1)] [A2 (e2&L2&F2)]. split; [by etrans|]. exists (e2 ++ e1).
    rewrite L2, L1, app_assoc. split; [done|by apply Forall_app].
Qed.

Lemma io_same d w w' : same_core w w' → os_log (w_os w') = os_log (w_os w) → io d w w'.
Proof. intros C L. split; [done|]. by exists []. Qed.

Lemma pres_io_pop d {A} (tape : os → list A) set_tape dflt :
  (∀ v o, os_log (set_tape v o) = os_log o) → pres (io d) (pop tape set_tape dflt).
Proof.
  intros H w. apply io_same; [apply pres_pop|]. unfold pop. destruct (tape (w_os w)); [done|]. apply H.
Qed.

Lemma pres_io_errno d e : pres (io d) (set_errno e).
Proof. intros w. by apply io_same. Qed.

Lemma pres_io_fail d e : pres (io d) (fail e).
Proof. intros w. by apply io_same. Qed.

Lemma pres_io_get_errno d : pres (io d) get_errno.
Proof. intros w. by apply io_same. Qed.

Lemma pres_io_log d e : uses d e = true → pres (io d) (log e).
Proof. intros H w. split; [done|]. exists [e]. split; [done|by constructor]. Qed.

#[export] Hint Resolve pres_io_errno pres_io_fail pres_io_get_errno : llam_quiet.

Lemma pres_io_now d : pres (io d) llam_now_ns.
Proof. by apply pres_io_pop. Qed.

Lemma pres_io_poll d ev t : pres (io d) (sys_poll d ev t).
Proof.
  apply pres_bind; [apply _|apply pres_io_log, Z.eqb_refl|]. intros _. by apply pres_io_pop.
Qed.

Lemma pres_io_getsockopt d : pres (io d) sys_getsockopt.
Proof. unfold sys_getsockopt. pres_walk. by apply pres_io_pop. Qed.

#[export] Hint Resolve pres_io_now pres_io_poll pres_io_getsockopt : llam_quiet.

Lemma pres_io_socket d fd : pres (io d) (llam_broker_descriptor_require_socket fd).
Proof. unfold llam_broker_descriptor_require_socket. pres_walk. Qed.

Lemma pres_io_wait_loop d ev s dl n : pres (io d) (wait_fd_loop n d ev s dl).
Proof. induction n as [|n IH]; cbn [wait_fd_loop]; pres_walk. Qed.

#[export] Hint Resolve pres_io_socket pres_io_wait_loop : llam_quiet.

Lemma pres_io_wait d ev : pres (io d) (llam_broker_descriptor_wait_fd_ready d ev).
Proof. unfold llam_broker_descriptor_wait_fd_ready. pres_walk. Qed.

#[export] Hint Resolve pres_io_wait : llam_quiet.

Lemma pres_io_not_ready d ev : pres (io d) (io_not_ready d ev).
Proof. unfold io_not_ready. pres_walk. Qed.

Lemma pres_io_recv d n : pres (io d) (sys_recv d n).
Proof.
  unfold sys_recv. apply pres_bind; [apply _|apply pres_io_log, Z.eqb_refl|]. intros _.
  pres_walk. by apply pres_io_pop.
Qed.

Lemma pres_io_send d data : pres (io d) (sys_send d data).
Proof.
  unfold sys_send. apply pres_bind; [apply _|apply pres_io_log, Z.eqb_refl|]. intros _.
  pres_walk. by apply pres_io_pop.
Qed.

(** The duplicate was used and then closed, once. *)
Definition io_close (d : Z) (w w' : world) : Prop :=
  same_core w w' ∧ ∃ es, os_log (w_os w') = EvClose d :: es ++ os_log (w_os w)
    ∧ Forall (λ e, uses d e = true) es.

Lemma io_then_close d w w' w'' :
  io d w w' → same_core w' w'' → os_log (w_os w'') = EvClose d :: os_log (w_os w') → io_close d w w''.
Proof.
  intros [C (es&L&F)] C' L'. split; [by etrans|]. exists es. by rewrite L', L.
Qed.

Lemma write_duplicate_cases d data w : io_close d w (write_duplicate d data w).2.
Proof.
  unfold write_duplicate, sys_close, llam_broker_descriptor_send_nonblocking. mon.
  pose proof (pres_io_not_ready d POLLOUT w) as H1.
  destruct (io_not_ready d POLLOUT w) as [bad w1]. mon. destruct bad; mon.
  - by eapply io_then_close.
  - pose proof (pres_io_send d data w1) as H2. destruct (sys_send d data w1) as [r w2]. mon.
    eapply io_then_close; [by etrans|done|done].
Qed.

(** ** Reading on the duplicate *)

(** The result of a read into [out]: an error with the output zeroed, or at most
    [length] bytes followed by zeros. *)
Definition read_result (out : list Z) (length : Z) (r : Z * option (list Z)) : Prop :=
  r = (-1, Some (memzero_at 0 (Z.to_nat length) out))
  ∨ ∃ bytes, Z.of_nat (Datatypes.length bytes) <= length ∧
      r = (Z.of_nat (Datatypes.length bytes),
           Some (memzero_at (Datatypes.length bytes)
                   (Z.to_nat (length - Z.of_nat (Datatypes.length bytes))) (memcpy_at 0 bytes out))).

Lemma memzero_at_0 n l : memzero_at n 0 l = l.
Proof. unfold memzero_at, memcpy_at. cbn. by rewrite Nat.add_0_r, take_drop. Qed.

Lemma memcpy_at_nil l : memcpy_at 0 [] l = l.
Proof. unfold memcpy_at. by rewrite take_0, drop_0. Qed.

Lemma sys_recv_cases d len w :
  0 < len →
  (sys_recv d len w).1 = (-1, [])
  ∨ ∃ bytes, Z.of_nat (length bytes) <= len ∧ (sys_recv d len w).1 = (Z.of_nat (length bytes), bytes).
Proof.
  intros Hl. unfold sys_recv. mon. destruct (pop os_recv _ _ _) as [[bytes|e] w1]; mon; [|by left].
  right. exists (take (Z.to_nat len) bytes). split; [|done]. rewrite length_take. lia.
Qed.

Lemma read_duplicate_cases d out len w :
  0 < len →
  io_close d w (read_duplicate d out len w).2 ∧ read_result out len (read_duplicate d out len w).1.
Proof.
  intros Hl. unfold read_duplicate, sys_close, llam_broker_descriptor_recv_nonblocking. mon.
  pose proof (pres_io_not_ready d POLLIN w) as H1.
  destruct (io_not_ready d POLLIN w) as [bad w1]. mon. destruct bad; mon.
  { rewrite fail_clear_ssize_run by done. split; [by eapply io_then_close|by left]. }
  pose proof (pres_io_recv d len w1) as H2. pose proof (sys_recv_cases d len w1 Hl) as H3.
  destruct (sys_recv d len w1) as [[n bytes] w2]. mon.
  assert (io d w w2) as H12 by by etrans. unfold llam_broker_finish_read_clear_tail.
  destruct H3 as [[= -> ->]|(bs&Hb&[= -> ->])]; mon.
  - cbn [Z.ltb Z.compare]. mon. rewrite memcpy_at_nil, fail_clear_ssize_run by done. split; [by eapply io_then_close|by left].
  - rewrite (proj2 (Z.ltb_ge _ 0)) by lia. mon. split; [by eapply io_then_close|].
    right. exists bs. split; [done|]. rewrite Nat2Z.id. branch; mon; [done|]. bools.
    replace (len - Z.of_nat (length bs)) with 0 by lia. by rewrite memzero_at_0.
Qed.

(** ** Duplicating *)

Lemma pres_silent_fcntl : pres silent sys_fcntl.
Proof. unfold sys_fcntl. pres_walk. by apply pres_silent_pop. Qed.

#[export] Hint Resolve pres_silent_fcntl : llam_quiet.

Lemma pres_silent_cloexec fd : pres silent (llam_broker_set_cloexec_fd fd).
Proof. unfold llam_broker_set_cloexec_fd. pres_walk. Qed.

Lemma pres_silent_descriptor_cloexec fd : pres silent (llam_broker_descriptor_set_cloexec fd).
Proof. unfold llam_broker_descriptor_set_cloexec. pres_walk. Qed.

Lemma sys_dup_cases fd w :
  ∃ r w', sys_dup fd w = (r, w') ∧ same_core w w' ∧
    (r = -1 ∧ os_log (w_os w') = os_log (w_os w)
     ∨ 0 <= r ∧ os_log (w_os w') = EvDup fd r :: os_log (w_os w)).
Proof.
  unfold sys_dup. mon.
  assert (silent w (pop os_dup set_os_dup (inr EBADF) w).2) as [C L] by by apply pres_silent_pop.
  destruct (pop os_dup set_os_dup (inr EBADF) w) as [[d|e] w1]; mon.
  - eexists _, _. split; [done|]. split; [by etrans|]. right. mon. rewrite <- L. split; [lia|done].
  - eexists _, _. split; [done|]. split; [by etrans|]. by left.
Qed.

(** A duplicate is open exactly when the call succeeds. *)
Lemma dup_cases fd w :
  ∃ r w', llam_broker_dup_cloexec_fd fd w = (r, w') ∧ same_core w w' ∧
    (r < 0 ∧ os_log (w_os w') = os_log (w_os w)
     ∨ (∃ d, r < 0 ∧ 0 <= d ∧ os_log (w_os w') = EvClose d :: EvDup fd d :: os_log (w_os w))
     ∨ 0 <= r ∧ os_log (w_os w') = EvDup fd r :: os_log (w_os w)).
Proof.
  unfold llam_broker_dup_cloexec_fd. branch; mon.
  { eexists _, _. split; [done|]. split; [done|left; done]. }
  destruct (sys_dup_cases fd w) as (r&w1&->&C1&[[-> L1]|[Hr L1]]); mon; cbn [Z.leb Z.compare]; mon.
  2: { rewrite (proj2 (Z.leb_le 0 r)) by done. eexists _, _. split; [done|]. split; [done|]. by do 2 right. }
  branch; mon; [eexists _, _; split; [done|]; split; [done|]; by left|].
  destruct (sys_dup_cases fd w1) as (r&w2&->&C2&[[-> L2]|[Hr L2]]); mon.
  { eexists _, _. split; [done|]. split; [by etrans|]. left. split; [done|congruence]. }
  rewrite (proj2 (Z.ltb_ge r 0)) by done. mon.
  destruct (pres_silent_cloexec r w2) as [C3 L3].
  destruct (llam_broker_set_cloexec_fd r w2) as [rc w3]. mon.
  branch; mon; eexists _, _; (split; [done|]); (split; [by do 2 (etrans; [eassumption|])|]); right.
  - left. exists r. unfold sys_close. mon. cbn. rewrite L3, L2, L1. done.
  - right. rewrite L3, L2, L1. done.
Qed.

Abbreviation found_descriptor := (found LLAM_BROKER_CAP_FAMILY_DESCRIPTOR b_descriptors).

Lemma found_descriptor_slot w token required i b t s :
  found_descriptor w token required i b t s → descriptor_at b i = s.
Proof. intros F. unfold descriptor_at. apply nth_lookup_Some. apply F. Qed.

Lemma duplicate_cases token required w :
  ∃ r w', llam_broker_duplicate_descriptor_unlocked token required w = (r, w') ∧ same_core w w' ∧
    (r = (-1, -1) ∧ os_log (w_os w') = os_log (w_os w)
     ∨ ∃ i b t s d, found_descriptor w token required i b t s ∧ 0 <= d ∧
         (r = (-1, -1) ∧ os_log (w_os w') = EvClose d :: EvDup (ds_fd s) d :: os_log (w_os w)
          ∨ r = (0, d) ∧ os_log (w_os w') = EvDup (ds_fd s) d :: os_log (w_os w))).
Proof.
  unfold llam_broker_duplicate_descriptor_unlocked, llam_broker_find_descriptor_unlocked. mon.
  destruct (find_object_cases LLAM_BROKER_CAP_FAMILY_DESCRIPTOR b_descriptors token required w)
    as [(i&b&t&s&->&F)|(e&->)]; mon; [|eexists _, _; split; [done|]; split; [done|by left]].
  rewrite (fo_broker _ _ _ _ _ _ _ _ _ F). mon. rewrite (found_descriptor_slot _ _ _ _ _ _ _ F).
  destruct (dup_cases (ds_fd s) w) as (r&w1&->&C&[[Hr L]|[(d&Hr&Hd&L)|[Hr L]]]); mon.
  - rewrite (proj2 (Z.ltb_lt r 0)) by done. eexists _, _. split; [done|]. split; [done|]. by left.
  - rewrite (proj2 (Z.ltb_lt r 0)) by done. eexists _, _. split; [done|]. split; [done|]. right.
    exists i, b, t, s, d. by auto.
  - rewrite (proj2 (Z.ltb_ge r 0)) by done. eexists _, _. split; [done|]. split; [done|]. right.
    exists i, b, t, s, r. by auto.
Qed.

(** What one access through the descriptor [fd] appends to the log: a duplicate
    is made, used and closed; nothing else but wake-ups. *)
Definition io_trace (fd : Z) (l l' : list event) : Prop :=
  ∃ d n m es, 0 <= d ∧ Forall (λ e, uses d e = true) es ∧
    l' = replicate n EvBroadcast ++ EvClose d :: es ++ EvDup fd d :: replicate m EvBroadcast ++ l.

Lemma io_trace_closed fd d w w1 w2 w3 :
  0 <= d → quiet w w1 → os_log (w_os w2) = EvClose d :: EvDup fd d :: os_log (w_os w1) → quiet w2 w3 →
  io_trace fd (os_log (w_os w)) (os_log (w_os w3)).
Proof.
  intros Hd [m L1] L2 [n L3]. exists d, n, m, []. split_and!; [done|done|].
  by rewrite L3, L2, L1.
Qed.

Lemma io_trace_used fd d w w1 w2 w3 w4 :
  0 <= d → quiet w w1 → os_log (w_os w2) = EvDup fd d :: os_log (w_os w1) → quiet w2 w3 →
  io_close d w3 w4 → io_trace fd (os_log (w_os w)) (os_log (w_os w4)).
Proof.
  intros Hd [m L1] L2 [n L3] [_ (es&L4&F)]. exists d, 0%nat, m, (es ++ replicate n EvBroadcast).
  split_and!; [done| |].
  - apply Forall_app. split; [done|]. by apply Forall_replicate.
  - by rewrite L4, L3, L2, L1, <- app_assoc.
Qed.

Section access.
Context (w : world) (b : broker).
Context (Hok : world_ok w) (Hb : w_broker w = Some b).

Lemma read_handle_cases token out len :
  0 < len →
  let r := llam_broker_read_handle token (Some out) len w in
  same_objs w r.2 ∧ read_result out len r.1 ∧
  (r.1.1 = -1 ∧ quiet w r.2
   ∨ ∃ i t s, found_descriptor w token LLAM_CAP_RIGHT_READ i b t s ∧
       io_trace (ds_fd s) (os_log (w_os w)) (os_log (w_os r.2))).
Proof.
  intros Hlen. cbn zeta. unfold llam_broker_read_handle. rewrite (proj2 (Z.eqb_neq len 0)) by lia.
  match goal with |- context [with_op ?f ?k w] => destruct (with_op_logged f k w Hok)
    as [(e&w'&[Ho Hq]&_&->)|(w1&b1&w3&Hb1&Hl&[Ho Hq]&Hok1&Hs&->&[Ho3 Hq3]&_)] end.
  { rewrite fail_clear_ssize_run by done. split_and!; [done|by left|]. by left. }
  revert Ho3 Hq3. unfold read_handle_locked. mon.
  destruct (duplicate_cases token LLAM_CAP_RIGHT_READ w1) as (r&w2&->&C2&Hcases).
  destruct Hcases as [[-> L]|(i&b'&t&s&d&F&Hd&[[-> L]|[-> L]])]; mon; intros Ho3 Hq3.
  - rewrite fail_clear_ssize_run by done. split_and!.
    + etrans; [exact Ho|]. etrans; [by apply same_core_objs|exact Ho3].
    + by left.
    + left. split; [done|]. etrans; [exact Hq|]. etrans; [by apply quiet_same|exact Hq3].
  - rewrite fail_clear_ssize_run by done. split_and!.
    + etrans; [exact Ho|]. etrans; [by apply same_core_objs|exact Ho3].
    + by left.
    + right. exists i, t, s. split; [by eapply found_outer|]. by eapply io_trace_closed.
  - destruct (read_duplicate_cases d out len w3 Hlen) as [Hc Hr]. split_and!.
    + etrans; [exact Ho|]. etrans; [by apply same_core_objs|]. etrans; [exact Ho3|].
      apply same_core_objs, Hc.
    + done.
    + right. exists i, t, s. split; [by eapply found_outer|]. by eapply io_trace_used.
Qed.

Lemma write_handle_cases token data len :
  len ≠ 0 →
  let r := llam_broker_write_handle token (Some data) len w in
  same_objs w r.2 ∧
  (r.1 = -1 ∧ quiet w r.2
   ∨ ∃ i t s, found_descriptor w token LLAM_CAP_RIGHT_WRITE i b t s ∧
       io_trace (ds_fd s) (os_log (w_os w)) (os_log (w_os r.2))).
Proof.
  intros Hlen. cbn zeta. unfold llam_broker_write_handle. rewrite (proj2 (Z.eqb_neq len 0)) by done.
  match goal with |- context [with_op ?f ?k w] => destruct (with_op_logged f k w Hok)
    as [(e&w'&[Ho Hq]&_&->)|(w1&b1&w3&Hb1&Hl&[Ho Hq]&Hok1&Hs&->&[Ho3 Hq3]&_)] end.
  { split; [done|]. by left. }
  revert Ho3 Hq3. unfold write_handle_locked. mon.
  destruct (duplicate_cases token LLAM_CAP_RIGHT_WRITE w1) as (r&w2&->&C2&Hcases).
  destruct Hcases as [[-> L]|(i&b'&t&s&d&F&Hd&[[-> L]|[-> L]])]; mon; intros Ho3 Hq3.
  - split.
    + etrans; [exact Ho|]. etrans; [by apply same_core_objs|exact Ho3].
    + left. split; [done|]. etrans; [exact Hq|]. etrans; [by apply quiet_same|exact Hq3].
  - split.
    + etrans; [exact Ho|]. etrans; [by apply same_core_objs|exact Ho3].
    + right. exists i, t, s. split; [by eapply found_outer|]. by eapply io_trace_closed.
  - pose proof (write_duplicate_cases d (take (Z.to_nat len) data) w3) as Hc. split.
    + etrans; [exact Ho|]. etrans; [by apply same_core_objs|]. etrans; [exact Ho3|].
      apply same_core_objs, Hc.
    + right. exists i, t, s. split; [by eapply found_outer|]. by eapply io_trace_used.
Qed.
End access.

Lemma step_read_handle token out len : 0 <= len → pres step (llam_broker_read_handle token out len).
Proof.
  intros Hlen. unfold llam_broker_read_handle. destruct out as [out|]; [|by apply pres_step_core; auto with llam].
  destruct (Z.eqb_spec len 0); [by apply pres_step_core; auto with llam|].
  apply pres_with_op.
  { intros e. apply pres_step_core. intros x. rewrite fail_clear_ssize_run by lia. done. }
  intros w b Hb Hl Hok. unfold read_handle_locked. mon.
  destruct (duplicate_cases token LLAM_CAP_RIGHT_READ w) as ([rc d]&w2&->&C2&_). mon.
  destruct (rc =? 0); mon; (split; [by apply step_core_world|]); apply pres_step_core; intros x.
  - apply read_duplicate_cases. lia.
  - rewrite fail_clear_ssize_run by lia. done.
Qed.

Lemma step_write_handle token data len : pres step (llam_broker_write_handle token data len).
Proof.
  unfold llam_broker_write_handle. destruct data as [data|]; [|by apply pres_step_core; auto with llam].
  destruct (Z.eqb_spec len 0); [by apply pres_step_core; auto with llam|].
  apply pres_with_op; [intros e; by apply pres_step_core|].
  intros w b Hb Hl Hok. unfold write_handle_locked. mon.
  destruct (duplicate_cases token LLAM_CAP_RIGHT_WRITE w) as ([rc d]&w2&->&C2&_). mon.
  destruct (rc =? 0); mon; (split; [by apply step_core_world|]); apply pres_step_core; intros x.
  - apply write_duplicate_cases.
  - done.
Qed.

(** ** The descriptor ledger *)

(** The slot is responsible for closing [fd]. *)
Definition owns (fd : Z) (s : descriptor_slot) : bool := ds_close_on_destroy s && (ds_fd s =? fd).

Definition descriptors : resource :=
  Resource
    (λ fd e, match e with
             | EvDup _ d => Z.b2z (d =? fd)
             | EvOpen d => Z.b2z (d =? fd)
             | EvClose d => - Z.b2z (d =? fd)
             | _ => 0
             end)
    (λ fd b, count_if (owns fd) (b_descriptors b)).

#[export] Instance descriptors_ok : ResourceOk descriptors.
Proof. by split. Qed.

Lemma held_uses fd d es l :
  Forall (λ e, uses d e = true) es → held descriptors fd (es ++ l) = held descriptors fd l.
Proof.
  intros F. apply held_silent. eapply Forall_impl; [exact F|]. intros e He. by destruct e.
Qed.

Lemma ledger_trace w w' fd :
  same_objs w w' → io_trace fd (os_log (w_os w)) (os_log (w_os w')) → ledger descriptors w w'.
Proof.
  intros Ho (d&n&m&es&_&F&L) x _. unfold unowned. rewrite (owned_objs descriptors _ _ _ Ho), L.
  rewrite (held_quiet descriptors). cbn [held res_weight descriptors]. rewrite (held_uses _ _ _ _ F). cbn [held res_weight descriptors].
  rewrite (held_quiet descriptors). lia.
Qed.

(** Overwriting slot [i] after closing what it owned. *)
Lemma close_then_set b i s' w w2 b2 fd :
  w_broker w = Some b → w_broker w2 = Some b2 →
  held descriptors fd (os_log (w_os w2))
  = held descriptors fd (os_log (w_os (llam_broker_descriptor_close_owned_slot (descriptor_at b i) w).2)) →
  b_descriptors b2 = <[i := s']> (b_descriptors b) →
  0 <= fd → (i < length (b_descriptors b))%nat →
  unowned descriptors fd w2 = unowned descriptors fd w - Z.b2z (owns fd s').
Proof.
  intros Hb Hb2 Hl Hd Hfd [s Hs]%lookup_lt_is_Some.
  assert (descriptor_at b i = s) as E by (by apply nth_lookup_Some). rewrite E in Hl.
  unfold unowned, owned. rewrite Hl, Hb2, Hb. cbn [res_owned descriptors]. rewrite Hd, (count_if_insert _ _ _ _ _ Hs).
  unfold llam_broker_descriptor_close_owned_slot, sys_close.
  unfold owns at 2. destruct (ds_close_on_destroy s); mon; [|cbn [Z.b2z]; lia].
  destruct (Z.leb_spec 0 (ds_fd s)); mon; cbn [held res_weight descriptors os_log set_os_log]; [lia|].
  rewrite (proj2 (Z.eqb_neq (ds_fd s) fd)) by lia. cbn [Z.b2z]. lia.
Qed.

Lemma owns_reset fd : 0 <= fd → owns fd reset_descriptor_slot = false.
Proof. done. Qed.

Lemma close_owned_broker s w : w_broker (llam_broker_descriptor_close_owned_slot s w).2 = w_broker w.
Proof. apply (pres_core_close_owned s w). Qed.

Lemma ledger_close_reset b i w :
  w_broker w = Some b →
  ledger descriptors w ((llam_broker_descriptor_close_owned_slot (descriptor_at b i) ;;
             llam_broker_descriptor_reset_slot i) w).2.
Proof.
  intros Hb fd Hfd. unfold llam_broker_descriptor_reset_slot. mon.
  pose proof (close_then_set b i reset_descriptor_slot w) as H.
  pose proof (close_owned_broker (descriptor_at b i) w) as Hw.
  destruct (llam_broker_descriptor_close_owned_slot (descriptor_at b i) w) as [[] w1] eqn:E.
  mon. rewrite Hw, Hb. mon. destruct (decide (i < length (b_descriptors b))%nat) as [Hi|Hi].
  - erewrite H by done. rewrite owns_reset by done. cbn [Z.b2z]. lia.
  - rewrite list_insert_ge by lia. unfold descriptor_at in E. rewrite nth_overflow in E by lia.
    injection E as <-. unfold unowned, owned. mon. by rewrite Hb.
Qed.

Lemma ledger_close_reset_any i w :
  ledger descriptors w ((llam_broker_descriptor_close_owned_slot
               (descriptor_at (default zero_broker (w_broker w)) i) ;;
             llam_broker_descriptor_reset_slot i) w).2.
Proof.
  destruct (w_broker w) as [b|] eqn:Hb; [by apply ledger_close_reset|]. cbn [default from_option].
  assert (descriptor_at zero_broker i = zero_descriptor_slot) as ->.
  { unfold descriptor_at, zero_broker. cbn [b_descriptors]. apply nth_replicate. }
  intros fd _. unfold llam_broker_descriptor_reset_slot, unowned, owned. cbn. by rewrite Hb.
Qed.

Lemma ledger_clear : pres (ledger descriptors) llam_broker_clear_descriptors.
Proof.
  apply pres_on_broker; [apply pres_ret, _|]. intros _. apply pres_for_each; [apply _|].
  intros i w. apply ledger_close_reset_any.
Qed.

Lemma ledger_reclaim subj : pres (ledger descriptors) (llam_broker_reclaim_subject_descriptors subj).
Proof.
  apply pres_on_broker; [apply pres_ret, _|]. intros _. apply pres_if; [apply pres_ret, _|].
  apply pres_bind; [apply _| |].
  { apply pres_ledger_lock. }
  intros rc. apply pres_if; [apply pres_ret, _|].
  apply pres_bind; [apply _| |intros _; apply pres_ret, _]. apply pres_for_each; [apply _|].
  intros i w. change the_broker with (gets (λ w, default zero_broker (w_broker w))).
  cbn [mbind st_bind gets]. branch; [apply ledger_close_reset_any|reflexivity].
Qed.

(** ** Registration *)

(** The slot written for a new descriptor. *)
Definition new_descriptor (b : broker) (subj handle rights : Z) (cod : bool) : descriptor_slot :=
  DescriptorSlot handle (b_next_descriptor_id b) 1 rights subj true cod.

Definition with_descriptor (b : broker) (i : nat) (s : descriptor_slot) : broker :=
  set_b_descriptors (<[i := s]> (b_descriptors b))
    (set_b_next_descriptor_id (u64 (b_next_descriptor_id b + 1)) b).

Lemma evolve_with_descriptor b i subj handle rights cod :
  0 <= handle → b_next_descriptor_id b ≠ UINT64_MAX →
  evolve b (with_descriptor b i (new_descriptor b subj handle rights cod)).
Proof.
  intros Hh HM. apply evolve_ok; [same_shape|]. intros Hok. apply evolve_create_descriptor. pose proof (to_next _ _ (bo_descriptors _ Hok)).
  split_and!; try done; lia.
Qed.

Lemma write_descriptor_run b i handle rights cod w :
  w_broker w = Some b →
  ∃ w3, write_descriptor_slot i handle rights cod w = (tt, w3)
    ∧ w_broker w3 = Some (with_descriptor b i (new_descriptor b (cur_subject w) handle rights cod))
    ∧ w_tls w3 = w_tls w
    ∧ os_log (w_os w3) = os_log (w_os (llam_broker_descriptor_close_owned_slot (descriptor_at b i) w).2).
Proof.
  intros Hb. pose proof (pres_core_close_owned (descriptor_at b i) w) as (C1&C2&C3).
  unfold write_descriptor_slot, llam_broker_descriptor_reset_slot. mon. rewrite Hb. mon.
  destruct (llam_broker_descriptor_close_owned_slot (descriptor_at b i) w) as [[] w1]. mon.
  rewrite C1, Hb. mon. rewrite current_subject_run. mon. eexists. split; [reflexivity|]. mon.
  split_and!; [|done..]. unfold cur_subject. mon. rewrite Hb, C3.
  unfold with_descriptor, new_descriptor. cbn [b_descriptors set_b_descriptors b_next_descriptor_id b_addr].
  by rewrite list_insert_insert_eq.
Qed.

(** The effect of the locked part of a registration. *)
Lemma register_handle_cases handle rights cod w b :
  w_broker w = Some b → live_broker b → 0 <= handle →
  let r := register_handle_locked handle rights cod (Some zero_token) w in
  step w r.2 ∧
  ((exits (λ x, x = (-1, Some zero_token)) r.1 ∧ pres silent r.1 ∧ ledger descriptors w r.2)
   ∨ ∃ t i s, r.1 = mret (0, Some t) ∧ s = new_descriptor b (cur_subject w) handle rights cod ∧
       (∀ fd, 0 <= fd → unowned descriptors fd r.2 = unowned descriptors fd w - Z.b2z (owns fd s)) ∧
       (i < length (b_descriptors b))%nat ∧ w_broker r.2 = Some (with_descriptor b i s) ∧
       ∃ rid, b_runtime b = Some rid ∧
         token_for (b_capability_key b) (CapObject rid LLAM_BROKER_CAP_FAMILY_DESCRIPTOR
           (b_next_descriptor_id b) 1 (b_revocation_epoch b) (cur_subject w)) rights t).
Proof.
  intros Hb [Hi Hr Hl] Hh. cbn zeta. unfold register_handle_locked.
  cbn [mbind st_bind the_broker gets fst snd]. rewrite Hb. cbn [default from_option id].
  rewrite Hi. destruct Hr as [rid Hr]. rewrite Hr. cbn [negb orb is_null].
  destruct (first_free _ 0 (b_descriptors b)) as [i|] eqn:Hf; mon;
    [|split; [reflexivity|left; split_and!; [by intros w'|by intros w'|reflexivity]]].
  apply first_free_some in Hf as (k&s0&->&Hk&_). cbn [Nat.add].
  pose proof (lookup_lt_Some _ _ _ Hk) as Hkl.
  destruct (validate_next_cases (b_next_descriptor_id b) w) as [(->&H0&HM)|(e&->&_)]; mon;
    [|split; [by apply step_core_world|left; split_and!; [by intros w'|by intros w'|by apply ledger_silent]]].
  destruct (write_descriptor_run b k handle rights cod w Hb) as (w3&->&Hb3&Ht3&Hl3). mon.
  set (s := new_descriptor _ _ _ _ _) in *. pose proof (evolve_with_descriptor b k (cur_subject w) handle rights cod Hh HM) as He.
  fold s in He.
  assert (step w w3) as S3 by (by eapply step_evolve).
  assert (cur_subject w3 = cur_subject w) as Hs3.
  { unfold cur_subject. by rewrite Hb3, Hb, Ht3. }
  pose proof (λ s' w2 b2 fd, close_then_set b k s' w w2 b2 fd Hb) as Hset.
  match goal with |- context [llam_broker_issue_object_cap_unlocked ?f ?n ?g ?r ?o w3] =>
    pose proof (pres_quiet_issue_object f n g r o w3) as [q Hq];
    destruct (issue_object_cases f n g r o w3) as [Hc [(b'&rid'&t&Hb'&Hr'&_&H1&Ht)|H1]];
    destruct (llam_broker_issue_object_cap_unlocked f n g r o w3) as [r1 w4] end;
  mon; subst r1; mon;
  assert (w_broker w4 = Some (with_descriptor b k s)) as Hb4 by (by rewrite (proj1 Hc)).
  - rewrite Hb3 in Hb'. apply (inj Some) in Hb'. subst b'. rewrite Hs3 in Ht.
    split; [etrans; [exact S3|by apply step_core_world]|]. right. exists t, k, s.
    split_and!; try done; [|exists rid'; split; [rewrite <- Hr; exact Hr'|exact Ht]].
    intros fd Hfd. apply (Hset s w4 _ fd Hb4); [|done..]. by rewrite Hq, (held_quiet descriptors), Hl3.
  - unfold llam_broker_descriptor_reset_slot. mon. rewrite Hb4. mon.
    split; [|left; split_and!; [by intros w'|by intros w'|]].
    + etrans; [exact S3|]. etrans; [by apply step_core_world, Hc|].
      eapply step_set_broker; [done|done|]. apply evolve_descriptor_reset.
    + intros fd Hfd. erewrite (Hset reset_descriptor_slot _ _ fd); [|reflexivity| | |done..].
      * rewrite owns_reset by done. cbn [Z.b2z]. lia.
      * mon. by rewrite Hq, (held_quiet descriptors), Hl3.
      * cbn [b_descriptors set_b_descriptors with_descriptor]. apply list_insert_insert_eq.
Qed.

Lemma step_register_handle handle rights cod out :
  pres step (llam_broker_register_handle handle rights cod out).
Proof.
  unfold llam_broker_register_handle. intros w. mon. branch; [by apply step_core_world|].
  bools. destruct out as [old|]; [|done]. mon.
  destruct (validate_rights_cases LLAM_BROKER_CAP_FAMILY_DESCRIPTOR rights w) as [[-> _]|(e&->&_)]; mon;
    [|by apply step_core_world].
  destruct (pres_silent_descriptor_cloexec handle w) as [C1 _].
  destruct (llam_broker_descriptor_set_cloexec handle w) as [rc w1]. mon.
  branch; [by apply step_core_world|]. etrans; [by apply step_core_world|].
  intros Hok1 ; revert Hok1. match goal with |- context [with_op ?f ?k w1] =>
    assert (pres step (with_op f k)) as S2; [|exact (S2 w1)] end.
  apply pres_with_op; [intros e; by apply pres_step_core|].
  intros w2 b2 Hb2 Hl Hok2. unfold llam_broker_descriptor_handle_invalid in *. bools.
  destruct (register_handle_cases handle rights cod w2 b2 Hb2 Hl)
    as [S3 [(Hx&_)|(t&i&s&->&_)]]; [done|split; [done|by eapply exits_step]|].
  split; [done|]. by apply pres_step_core; auto with llam.
Qed.

(** What a registration does for its caller. *)
Lemma register_ledger w b handle rights cod old :
  world_ok w → w_broker w = Some b →
  let r := llam_broker_register_handle handle rights cod (Some old) w in
  (r.1 = (-1, Some zero_token) ∧ ledger descriptors w r.2)
  ∨ ∃ t, r.1 = (0, Some t) ∧ 0 <= handle ∧
      ∀ fd, 0 <= fd → unowned descriptors fd r.2 = unowned descriptors fd w - Z.b2z (cod && (handle =? fd)).
Proof.
  intros Hok Hb. cbn zeta. unfold llam_broker_register_handle. mon. rewrite Hb. mon.
  unfold llam_broker_descriptor_handle_invalid.
  branch; mon; [left; split; [done|by apply ledger_silent]|]. bools.
  destruct (validate_rights_cases LLAM_BROKER_CAP_FAMILY_DESCRIPTOR rights w) as [[-> _]|(e&->&_)]; mon;
    [|left; split; [done|by apply ledger_silent]].
  pose proof (pres_silent_descriptor_cloexec handle w) as Hs0.
  destruct (llam_broker_descriptor_set_cloexec handle w) as [rc w1]. mon.
  pose proof (ledger_silent descriptors _ _ Hs0) as L1.
  branch; mon; [by left|].
  assert (world_ok w1) as Hok1.
  { destruct Hs0 as [(C1&_&C3) _]. split; [rewrite C3; apply Hok|rewrite C1; apply Hok]. }
  match goal with |- context [with_op ?f ?k w1] => destruct (with_op_logged f k w1 Hok1)
    as [(e&w'&[Ho Hq]&_&->)|(w2&b2&w3&Hb2&Hl&[Ho Hq]&_&_&->&[Ho3 Hq3]&_)] end.
  { left. split; [done|]. etrans; [exact L1|]. by apply ledger_idle. }
  assert (ledger descriptors w w2) as L2 by (etrans; [exact L1|by apply ledger_idle]).
  destruct (register_handle_cases handle rights cod w2 b2 Hb2 Hl)
    as [_ [(Hx&Hsi&L3)|(t&i&s&Hx&->&L3&_)]]; [done| |].
  - left. split; [apply Hx|]. etrans; [exact L2|]. etrans; [exact L3|].
    etrans; [by apply ledger_idle|]. apply ledger_silent, Hsi.
  - rewrite Hx. right. exists t. split_and!; [done|done|]. intros fd Hfd. mon.
    rewrite (ledger_idle descriptors _ _ Ho3 Hq3 fd Hfd), (L3 fd Hfd), (L2 fd Hfd). done.
Qed.

(** A read through a descriptor token either fails without touching any
    descriptor, or the token is authority to READ a live descriptor and the
    process made one duplicate of that very descriptor, polled and received on
    the duplicate only, and closed it exactly once; the bytes returned fit the
    caller's buffer, whose rest is zeroed, and on failure all of it is.  No
    broker object changes. *)
Theorem descriptor_read_sound w b token out len rc out' w' :
  world_ok w → w_broker w = Some b → 0 < len →
  llam_broker_read_handle token (Some out) len w = (rc, out', w') →
  same_objs w w' ∧ read_result out len (rc, out') ∧
  (rc = -1 ∧ quiet w w'
   ∨ ∃ i t s, found_descriptor w token LLAM_CAP_RIGHT_READ i b t s ∧
       io_trace (ds_fd s) (os_log (w_os w)) (os_log (w_os w'))).
Proof.
  intros Hok Hb Hl E. pose proof (read_handle_cases w b Hok Hb token out len Hl) as H.
  by rewrite E in H.
Qed.

(** A write through a descriptor token either fails without touching any
    descriptor, or the token is authority to WRITE a live descriptor and the
    process made one duplicate of that very descriptor, used only the duplicate,
    and closed it exactly once.  No broker object changes. *)
Theorem descriptor_write_sound w b token data len rc w' :
  world_ok w → w_broker w = Some b → len ≠ 0 →
  llam_broker_write_handle token (Some data) len w = (rc, w') →
  same_objs w w' ∧
  (rc = -1 ∧ quiet w w'
   ∨ ∃ i t s, found_descriptor w token LLAM_CAP_RIGHT_WRITE i b t s ∧
       io_trace (ds_fd s) (os_log (w_os w)) (os_log (w_os w'))).
Proof.
  intros Hok Hb Hl E. pose proof (write_handle_cases w b Hok Hb token data len Hl) as H.
  by rewrite E in H.
Qed.


(** ** Teardown releases everything *)

Lemma clear_descriptors_owned w b :
  w_broker w = Some b → length (b_descriptors b) = LLAM_BROKER_DESCRIPTOR_SLOTS →
  ∀ fd, 0 <= fd → owned descriptors fd (llam_broker_clear_descriptors w).2 = 0.
Proof.
  intros Hb Hlen fd Hfd. unfold llam_broker_clear_descriptors, on_broker. rewrite Hb.
  match goal with |- context [for_each ?n ?i ?body w] =>
    destruct (for_each_inv (λ j w', ∃ b', w_broker w' = Some b' ∧
      length (b_descriptors b') = LLAM_BROKER_DESCRIPTOR_SLOTS ∧
      ∀ k, (k < j)%nat → b_descriptors b' !! k = Some reset_descriptor_slot) n i body w)
      as (b'&Hb'&Hl'&Hk) end.
  - exists b. split_and!; [done|done|]. intros k. lia.
  - intros j w' Hj (b'&Hb'&Hl'&Hk). cbn [mbind st_bind]. unfold the_broker. cbn [gets]. rewrite Hb'.
    cbn [default from_option id].
    pose proof (close_owned_broker (descriptor_at b' j) w') as Hc.
    destruct (llam_broker_descriptor_close_owned_slot (descriptor_at b' j) w') as [[] w1].
    unfold llam_broker_descriptor_reset_slot. mon. rewrite Hc, Hb'. mon. eexists. split; [reflexivity|].
    cbn [b_descriptors set_b_descriptors]. split; [by rewrite length_insert|]. intros k Hkj.
    destruct (decide (k = j)) as [->|]; [apply list_lookup_insert_eq; lia|].
    rewrite list_lookup_insert_ne by done. apply Hk. lia.
  - unfold owned. rewrite Hb'. apply count_if_none. intros k x Hx.
    rewrite Hk in Hx; [|apply lookup_lt_Some in Hx; cbn; lia]. by injection Hx as <-.
Qed.

(** C6: Descriptor ownership is conserved: for every descriptor number, the
    number of times the process opened it minus closed it, less the slots that
    must still close it, changes only when a successful registration hands a
    descriptor over with [close_on_destroy], and then by exactly one.  So a slot
    that owns a descriptor closes it exactly once, on reclamation, on reuse of
    the slot or at teardown, after which no slot owns anything; and a failed
    registration leaves the descriptor with the caller. *)
Theorem descriptor_ownership w b :
  world_ok w → w_broker w = Some b → length (b_descriptors b) = LLAM_BROKER_DESCRIPTOR_SLOTS →
  (∀ token out len, 0 < len → ledger descriptors w (llam_broker_read_handle token (Some out) len w).2) ∧
  (∀ token data len, len ≠ 0 → ledger descriptors w (llam_broker_write_handle token (Some data) len w).2) ∧
  (∀ subj, ledger descriptors w (llam_broker_reclaim_subject_descriptors subj w).2) ∧
  ledger descriptors w (llam_broker_clear_descriptors w).2 ∧
  (∀ fd, 0 <= fd → owned descriptors fd (llam_broker_clear_descriptors w).2 = 0) ∧
  (∀ handle rights cod old,
     let r := llam_broker_register_handle handle rights cod (Some old) w in
     (r.1 = (-1, Some zero_token) ∧ ledger descriptors w r.2)
     ∨ ∃ t, r.1 = (0, Some t) ∧ 0 <= handle ∧
         ∀ fd, 0 <= fd → unowned descriptors fd r.2 = unowned descriptors fd w - Z.b2z (cod && (handle =? fd))).
Proof.
  intros Hok Hb Hlen. split_and!.
  - intros token out len Hl. destruct (read_handle_cases w b Hok Hb token out len Hl)
      as (Ho&_&[[_ Hq]|(i&t&s&_&Ht)]); [by apply ledger_idle|by eapply ledger_trace].
  - intros token data len Hl. destruct (write_handle_cases w b Hok Hb token data len Hl)
      as (Ho&[[_ Hq]|(i&t&s&_&Ht)]); [by apply ledger_idle|by eapply ledger_trace].
  - intros subj. apply ledger_reclaim.
  - apply ledger_clear.
  - by eapply clear_descriptors_owned.
  - intros. by eapply register_ledger.
Qed.

(** ** The poll loop *)

Lemma wait_loop_fuel fd ev s dl w n :
  (length (os_poll (w_os w)) < n)%nat →
  wait_fd_loop n fd ev s dl w = wait_fd_loop (S (length (os_poll (w_os w)))) fd ev s dl w.
Proof.
  remember (length (os_poll (w_os w))) as m eqn:Em. revert w n Em.
  induction m as [|m IH]; intros w [|n] Em Hn; try lia; cbn [wait_fd_loop]; mon;
  assert (os_poll (w_os (llam_now_ns w).2) = os_poll (w_os w)) as Ep
    by (unfold llam_now_ns, pop; by destruct (os_now (w_os w)));
  destruct (llam_now_ns w) as [now w1]; mon; branch; mon; try done; unfold sys_poll, pop; mon;
  cbn [os_poll set_os_log]; rewrite Ep; destruct (os_poll (w_os w)) as [|[r| |e] l]; cbn in Em; mon;
    try done; try (by branch).
  destruct (e =? EINTR); [|done]. rewrite (IH _ n); [|cbn; lia|lia]. done.
Qed.

(** The timeouts passed to [poll]. *)
Definition timeouts_ok (hi : Z) (e : event) : Prop :=
  match e with EvPoll _ _ t => 1 <= t <= hi | _ => True end.

Lemma poll_timeout_bounds s dl now :
  (s ≠ 0 → now ≠ 0 → now < dl) →
  1 <= poll_timeout s dl now <= INT_MAX ∧
  (dl <= s + 250000000 → s <= now → poll_timeout s dl now <= LLAM_BROKER_DESCRIPTOR_IO_TIMEOUT_MS).
Proof.
  intros Hlt. unfold poll_timeout, INT_MAX, LLAM_BROKER_DESCRIPTOR_IO_TIMEOUT_MS.
  destruct (negb (s =? 0) && negb (now =? 0)) eqn:E; [|lia]. bools.
  specialize (Hlt ltac:(done) ltac:(done)). remember (dl - now) as r eqn:Er.
  assert (r = 1000000 * (r / 1000000) + r mod 1000000) as Hr by (apply Z.div_mod; lia).
  pose proof (Z.mod_pos_bound r 1000000 ltac:(lia)).
  set (ms := if negb (r mod 1000000 =? 0) then r / 1000000 + 1 else r / 1000000).
  assert (0 < ms /\ 1000000 * (ms - 1) < r) as Hms by (unfold ms; branch; bools; lia).
  clearbody ms. split.
  - destruct (Z.ltb_spec (2 ^ 31 - 1) ms); branch; bools; lia.
  - intros Hd Hs. destruct (Z.ltb_spec (2 ^ 31 - 1) ms); branch; bools; lia.
Qed.

Lemma wait_loop_timeouts (P : Z → Prop) hi fd ev s dl n w :
  (∀ now, P now → (s ≠ 0 → now ≠ 0 → now < dl) → 1 <= poll_timeout s dl now <= hi) → P 0 →
  Forall P (os_now (w_os w)) →
  ∃ es, os_log (w_os (wait_fd_loop n fd ev s dl w).2) = es ++ os_log (w_os w)
    ∧ Forall (timeouts_ok hi) es.
Proof.
  intros HP HP0. revert w. induction n as [|n IH]; intros w Hn; cbn [wait_fd_loop]; [by exists []|].
  assert (∃ now w1, llam_now_ns w = (now, w1) ∧ P now ∧ Forall P (os_now (w_os w1)) ∧
    os_log (w_os w1) = os_log (w_os w)) as (now&w1&E&Hnow&Hn1&L1).
  { unfold llam_now_ns, pop. destruct (os_now (w_os w)) as [|x l] eqn:Eo; eexists _, _; split_and!; try done;
      [by rewrite Eo|by inversion Hn|by inversion Hn]. }
  mon. rewrite E. mon. destruct (negb (s =? 0) && negb (now =? 0) && (dl <=? now)) eqn:Eb; mon;
    [by exists []|].
  assert (1 <= poll_timeout s dl now <= hi) as Ht.
  { apply HP; [done|]. intros H1 H2. apply Z.eqb_neq in H1, H2. rewrite H1, H2 in Eb. cbn in Eb.
    by apply Z.leb_gt in Eb. }
  unfold sys_poll. mon. unfold pop. mon. cbn [os_poll set_os_log].
  set (e0 := EvPoll fd ev (poll_timeout s dl now)).
  assert (Forall (timeouts_ok hi) [e0]) as F0 by (by constructor).
  destruct (os_poll (w_os w1)) as [|[r| |e] l]; mon;
    try (by (exists [e0]; rewrite <- L1; split; [repeat branch|])).
  destruct (e =? EINTR); mon; [|by exists [e0]; rewrite <- L1].
  match goal with |- context [wait_fd_loop n fd ev s dl ?x] => destruct (IH x) as (es&L&F) end; [done|].
  exists (es ++ [e0]). rewrite L. cbn. rewrite L1. split; [by rewrite <- app_assoc|by apply Forall_app].
Qed.

(** Waiting for a descriptor terminates however often [poll] is interrupted
    (the loop's bound is never what stops it), passes [poll] timeouts of at least
    one millisecond, and with a clock that does not run backwards never more than
    the 250 ms limit. *)
Theorem descriptor_wait_bounded fd ev w :
  0 <= fd →
  (let start := (llam_now_ns w).1 in let w1 := (llam_now_ns w).2 in
   let deadline := u64 (start + 250000000) in
   ∀ n, (length (os_poll (w_os w)) < n)%nat →
     llam_broker_descriptor_wait_fd_ready fd ev w
     = wait_fd_loop n fd ev start (if deadline <? start then UINT64_MAX else deadline) w1) ∧
  (∃ es, os_log (w_os (llam_broker_descriptor_wait_fd_ready fd ev w).2) = es ++ os_log (w_os w)
     ∧ Forall (timeouts_ok INT_MAX) es) ∧
  (∀ start rest, os_now (w_os w) = start :: rest → 0 <= start < 2 ^ 63 → Forall (Z.le start) rest →
     ∃ es, os_log (w_os (llam_broker_descriptor_wait_fd_ready fd ev w).2) = es ++ os_log (w_os w)
       ∧ Forall (timeouts_ok LLAM_BROKER_DESCRIPTOR_IO_TIMEOUT_MS) es).
Proof.
  intros Hfd. unfold llam_broker_descriptor_wait_fd_ready. rewrite (proj2 (Z.ltb_ge fd 0)) by done.
  assert (os_poll (w_os (llam_now_ns w).2) = os_poll (w_os w) ∧
          os_log (w_os (llam_now_ns w).2) = os_log (w_os w)) as [Ep El]
    by (unfold llam_now_ns, pop; by destruct (os_now (w_os w))).
  split_and!.
  - cbn zeta. intros n Hn. mon. destruct (llam_now_ns w) as [s w1]. mon.
    rewrite (wait_loop_fuel fd ev _ _ w1 n); [done|]. by rewrite Ep.
  - mon. destruct (llam_now_ns w) as [s w1]. mon. rewrite <- El.
    apply (wait_loop_timeouts (λ _, True)); [|done|by apply Forall_true].
    intros now _ H. by apply poll_timeout_bounds.
  - intros start rest En Hs Hrest. mon. rewrite <- El. unfold llam_now_ns, pop. rewrite En. mon.
    apply (wait_loop_timeouts (λ t, t = 0 ∨ start <= t)); [|by left|].
    + intros now Hnow H. destruct (poll_timeout_bounds _ _ _ H) as [B1 B2]. split; [lia|].
      destruct Hnow as [->|Hnow].
      * unfold poll_timeout. rewrite andb_false_r. done.
      * apply B2; [|done]. unfold u64, LLAM_BROKER_DESCRIPTOR_IO_TIMEOUT_MS in *.
        rewrite Z.mod_small by lia. rewrite (proj2 (Z.ltb_ge _ _)); lia.
    + cbn. eapply Forall_impl; [exact Hrest|]. by right.
Qed.

(** ** A concrete descriptor *)

Definition example_descriptor : descriptor_slot :=
  DescriptorSlot 5 1 1 (Z.lor LLAM_CAP_RIGHT_READ LLAM_CAP_RIGHT_WRITE) 0 true true.

Definition descriptor_broker : broker :=
  set_b_descriptors (<[0%nat := example_descriptor]> (b_descriptors example_broker))
    (set_b_next_descriptor_id 2 example_broker).

(** Its environment duplicates to 9, is ready, and delivers three bytes. *)
Definition descriptor_world : world :=
  set_w_broker (Some descriptor_broker)
    (set_w_os (set_os_recv [inl [1; 2; 3]] (set_os_poll [PollError EINTR; PollReady POLLIN]
       (set_os_dup [inl 9%nat] quiet_os))) example_world).

Definition descriptor_token : capability_token :=
  default zero_token
    (llam_broker_issue_object_cap LLAM_BROKER_CAP_FAMILY_DESCRIPTOR 1 1
       (Z.lor LLAM_CAP_RIGHT_READ LLAM_CAP_RIGHT_WRITE) (Some zero_token) descriptor_world).1.2.

Lemma descriptor_world_ok : world_ok descriptor_world.
Proof. split; [apply idle_tls_wf|]. by intros ? [= <-]. Qed.

Lemma descriptor_read_sound_witness :
  let r := llam_broker_read_handle (Some descriptor_token) (Some [7; 7; 7; 7]) 4 descriptor_world in
  r.1 = (3, Some [1; 2; 3; 0]) ∧ io_trace 5 [] (os_log (w_os r.2)).
Proof.
  cbn zeta.
  assert ((llam_broker_read_handle (Some descriptor_token) (Some [7; 7; 7; 7]) 4
             descriptor_world).1 = (3, Some [1; 2; 3; 0])) as E0 by (vm_compute; reflexivity).
  destruct (llam_broker_read_handle (Some descriptor_token) (Some [7; 7; 7; 7]) 4
    descriptor_world) as [[rc out] w'] eqn:E. cbn [fst snd] in *. split; [exact E0|].
  pose proof (descriptor_read_sound descriptor_world descriptor_broker (Some descriptor_token)
    [7; 7; 7; 7] 4 rc out w' descriptor_world_ok eq_refl ltac:(done) E) as H. clear E.
  injection E0 as -> ->. destruct H as (_&_&[[? _]|(i&t&s&F&Ht)]); [done|].
  destruct F as [_ _ _ _ Hi Hm _]. destruct i as [|i].
  - cbn in Hi. injection Hi as <-. exact Ht.
  - exfalso. change (replicate 63 zero_descriptor_slot !! i = Some s) in Hi.
    by apply lookup_replicate in Hi as [-> _].
Defined.

Lemma descriptor_write_sound_witness :
  let r := llam_broker_write_handle (Some descriptor_token) (Some [7; 7]) 2 descriptor_world in
  r.1 = -1 ∧ io_trace 5 [] (os_log (w_os r.2)).
Proof.
  cbn zeta.
  assert (let r := llam_broker_write_handle (Some descriptor_token) (Some [7; 7]) 2 descriptor_world in
    r.1 = -1 ∧ hd EvBroadcast (os_log (w_os r.2)) = EvClose 9) as E0 by (vm_compute; split; reflexivity).
  cbn zeta in E0.
  destruct (llam_broker_write_handle (Some descriptor_token) (Some [7; 7]) 2
    descriptor_world) as [rc w'] eqn:E. cbn [fst snd] in *. destruct E0 as [-> E0]. split; [done|].
  pose proof (descriptor_write_sound descriptor_world descriptor_broker (Some descriptor_token)
    [7; 7] 2 (-1) w' descriptor_world_ok eq_refl ltac:(done) E) as [_ H]. clear E.
  destruct H as [[_ [n Hq]]|(i&t&s&F&Ht)].
  { rewrite Hq in E0. by destruct n. }
  destruct F as [_ _ _ _ Hi Hm _]. destruct i as [|i].
  - cbn in Hi. injection Hi as <-. exact Ht.
  - exfalso. change (replicate 63 zero_descriptor_slot !! i = Some s) in Hi.
    by apply lookup_replicate in Hi as [-> _].
Defined.

Lemma descriptor_ownership_witness :
  owned descriptors 5 descriptor_world = 1 ∧
  owned descriptors 5 (llam_broker_clear_descriptors descriptor_world).2 = 0.
Proof.
  split; [vm_compute; reflexivity|].
  apply (descriptor_ownership descriptor_world descriptor_broker descriptor_world_ok eq_refl eq_refl).
  done.
Defined.

Lemma descriptor_wait_bounded_witness :
  ∃ es, os_log (w_os (llam_broker_descriptor_wait_fd_ready 9 POLLIN descriptor_world).2) = es ++ []
    ∧ Forall (timeouts_ok INT_MAX) es.
Proof.
  apply (descriptor_wait_bounded 9 POLLIN descriptor_world ltac:(done)).
Defined.
