(* ===== verification/BrokerTask.v ===== *)
(** * Broker tasks ([src/core/broker/broker_task.c])

    Predefined commands a client may spawn, join and detach.  Short commands are
    computed by the spawning thread; a sleep runs as a task of the runtime, whose
    entry point is [llam_broker_task_trampoline] on its slot.

    The runtime ([llam_runtime_spawn_ex], [llam_join], [llam_detach],
    [llam_sleep_ns], [llam_runtime_run_handle]) is the environment: results come
    from tapes and the calls are events of the log.  One call of
    [llam_runtime_run_handle] runs the trampolines of the slots its tape entry
    lists.

    - a join needs authority, delivers the result of a finished command once and
      frees the slot ([join_task_sound]); a short command's value comes back
      through its token ([spawn_join_roundtrip]);
    - every runtime task is joined or detached exactly once
      ([task_handles_conserved]);
    - the quotas on sleeps and on tasks per subject are invariants
      ([task_quotas_invariant]).

    The operations of this file run without interference of other threads in the
    model, except that the runtime may run trampolines between any two of them. *)

From S2P Require Import Prelude World Capability BrokerOps BrokerCore.

Definition task_at (b : broker) (i : nat) : task_slot := nth i (b_tasks b) zero_task_slot.

Definition set_task (i : nat) (slot : task_slot) : M unit :=
  upd_broker (λ b, set_b_tasks (<[i := slot]> (b_tasks b)) b).

(** ** The runtime *)

(** A task handle ([inl]; NULL is not among them) or an error. *)
Definition llam_runtime_spawn_ex : M Z :=
  v ← pop os_spawn set_os_spawn (inr EINVAL);
  match v with
  | inl task => log (EvSpawn (Z.pos task)) ;; mret (Z.pos task)
  | inr e => set_errno e ;; mret 0
  end.

Definition llam_join (task : Z) : M Z :=
  log (EvJoin task) ;;
  v ← pop os_join set_os_join 0;
  if negb (v =? 0) then fail v else mret 0.

Definition llam_detach (task : Z) : M Z :=
  log (EvDetach task) ;;
  v ← pop os_detach set_os_detach 0;
  if negb (v =? 0) then fail v else mret 0.

Definition llam_sleep_ns : M Z :=
  v ← pop os_sleep set_os_sleep 0;
  if negb (v =? 0) then fail v else mret 0.

(** ** Commands *)

(** The loop of [llam_broker_popcount_u64]; a 64-bit value is zero after 64
    shifts. *)
Fixpoint popcount_loop (fuel : nat) (value count : Z) : Z :=
  match fuel with
  | O => count
  | S fuel =>
      if value =? 0 then count
      else popcount_loop fuel (Z.shiftr value 1) (count + Z.land value 1)
  end.

Definition llam_broker_popcount_u64 (value : Z) : Z := popcount_loop 64 value 0.

Definition llam_broker_task_kind_valid (kind : Z) : bool :=
  (kind =? LLAM_BROKER_TASK_KIND_RETURN_U64) || (kind =? LLAM_BROKER_TASK_KIND_INCREMENT_U64)
  || (kind =? LLAM_BROKER_TASK_KIND_POPCOUNT_U64)
  || (kind =? LLAM_BROKER_TASK_KIND_SLEEP_NS_RETURN_U64).

(** The result and the error code of a command. *)
Definition llam_broker_task_compute (kind arg0 : Z) : M (Z * Z) :=
  if kind =? LLAM_BROKER_TASK_KIND_RETURN_U64 then mret (arg0, 0)
  else if kind =? LLAM_BROKER_TASK_KIND_INCREMENT_U64 then mret (u64 (arg0 + 1), 0)
  else if kind =? LLAM_BROKER_TASK_KIND_POPCOUNT_U64 then mret (llam_broker_popcount_u64 arg0, 0)
  else if kind =? LLAM_BROKER_TASK_KIND_SLEEP_NS_RETURN_U64
  then
    rc ← llam_sleep_ns;
    if rc =? 0 then mret (arg0, 0)
    else e ← get_errno; mret (0, if e =? 0 then EINVAL else e)
  else mret (0, EINVAL).

(** ** Slots *)

Definition llam_broker_find_task (token : option capability_token) (required_rights : Z)
    : M (option nat) :=
  find_object_unlocked LLAM_BROKER_CAP_FAMILY_TASK b_tasks token required_rights.

Definition llam_broker_task_slot_reset (i : nat) : M unit := set_task i zero_task_slot.

(** A sleep whose command has not finished. *)
Definition pending_sleep (slot : task_slot) : bool :=
  ts_active slot && (ts_kind slot =? LLAM_BROKER_TASK_KIND_SLEEP_NS_RETURN_U64)
  && (bool_decide (ts_state slot = TASK_STATE_SPAWNED)
      || bool_decide (ts_state slot = TASK_STATE_DETACHED)).

Definition llam_broker_has_pending_sleep_task_locked (b : broker) : bool :=
  existsb pending_sleep (b_tasks b).

Definition llam_broker_subject_task_count_locked (b : broker) (subject_id : Z) : Z :=
  if subject_id =? 0 then 0
  else count_if (λ slot, ts_active slot && (ts_subject_id slot =? subject_id)) (b_tasks b).

Definition llam_broker_long_sleep_task_count_locked (b : broker) : Z :=
  count_if pending_sleep (b_tasks b).

(** [slot->result0 = ...; slot->error_code = ...] *)
Definition set_result (i : nat) (r : Z * Z) : M unit :=
  b ← the_broker;
  set_task i (set_ts_error_code r.2 (set_ts_result0 r.1 (task_at b i))).

(** The body of the runtime task of slot [i]; the compare-exchange is one step. *)
Definition llam_broker_task_trampoline (i : nat) : M unit :=
  b ← the_broker;
  r ← llam_broker_task_compute (ts_kind (task_at b i)) (ts_arg0 (task_at b i));
  set_result i r ;;
  b ← the_broker;
  let slot := task_at b i in
  if bool_decide (ts_state slot = TASK_STATE_SPAWNED)
  then set_task i (set_ts_state TASK_STATE_COMPLETED slot)
  else if bool_decide (ts_state slot = TASK_STATE_DETACHED)
  then
    (if negb (ts_task slot =? 0) then llam_detach (ts_task slot) ;; mret tt else mret tt) ;;
    rc ← llam_broker_lock;
    if negb (rc =? 0) then mret tt
    else llam_broker_task_slot_reset i ;; llam_broker_unlock
  else mret tt.

(** The runtime has a task for slot [i] whose command has not finished. *)
Definition runnable (slot : task_slot) : bool :=
  negb (ts_task slot =? 0)
  && (bool_decide (ts_state slot = TASK_STATE_SPAWNED)
      || bool_decide (ts_state slot = TASK_STATE_DETACHED)).

(** The runtime runs the task of slot [i], if there is one. *)
Definition run_slot (i : nat) : M unit :=
  b ← the_broker;
  if runnable (task_at b i) then llam_broker_task_trampoline i else mret tt.

Fixpoint run_slots (l : list nat) : M unit :=
  match l with
  | [] => mret tt
  | i :: l => run_slot i ;; run_slots l
  end.

Definition llam_runtime_run_handle : M unit :=
  l ← pop os_run set_os_run [];
  run_slots l.

Definition llam_broker_clear_tasks : M unit :=
  on_broker (mret tt) (λ b,
    (if negb (is_null (b_runtime b)) then llam_runtime_run_handle else mret tt) ;;
    for_each LLAM_BROKER_TASK_SLOTS 0 (λ i,
      b ← the_broker;
      let slot := task_at b i in
      (if negb (ts_task slot =? 0)
       then
         (if bool_decide (ts_state slot = TASK_STATE_COMPLETED)
          then llam_join (ts_task slot) else llam_detach (ts_task slot)) ;;
         mret tt
       else mret tt) ;;
      llam_broker_task_slot_reset i)).

(** One slot of the reclamation loop; returns the handle to detach, 0 if none.
    The slot is locked, so the compare-exchange from SPAWNED succeeds unless the
    trampoline published its completion first, which is a run of the trampoline
    before this step. *)
Definition reclaim_task_slot (subject_id : Z) (i : nat) : M Z :=
  b ← the_broker;
  let slot := task_at b i in
  if negb (ts_active slot) || negb (ts_subject_id slot =? subject_id) then mret 0
  else if bool_decide (ts_state slot = TASK_STATE_SPAWNED)
  then set_task i (set_ts_rights 0 (set_ts_state TASK_STATE_DETACHED slot)) ;; mret 0
  else if bool_decide (ts_state slot = TASK_STATE_DETACHED)
  then set_task i (set_ts_rights 0 slot) ;; mret 0
  else llam_broker_task_slot_reset i ;; mret (ts_task slot).

(** The loop over the slots, collecting the handles to detach. *)
Fixpoint reclaim_task_slots (subject_id : Z) (n i : nat) : M (list Z) :=
  match n with
  | O => mret []
  | S n =>
      task ← reclaim_task_slot subject_id i;
      rest ← reclaim_task_slots subject_id n (S i);
      mret (if task =? 0 then rest else task :: rest)
  end.

Fixpoint detach_all (tasks : list Z) : M unit :=
  match tasks with
  | [] => mret tt
  | task :: tasks => llam_detach task ;; detach_all tasks
  end.

Definition llam_broker_reclaim_subject_tasks (subject_id : Z) : M unit :=
  on_broker (mret tt) (λ _,
    if subject_id =? 0 then mret tt
    else
      rc ← llam_broker_lock;
      if negb (rc =? 0) then mret tt
      else
        detach_tasks ← reclaim_task_slots subject_id LLAM_BROKER_TASK_SLOTS 0;
        llam_broker_unlock ;;
        detach_all detach_tasks).

(** ** Spawn *)

(** The locked part of a spawn: the slot and the id reserved, or what is left to do
    after [end_op] to report an error. *)
Definition reserve_task_slot (kind arg0 rights : Z) : M (M unit + nat * Z) :=
  b ← the_broker;
  if negb (b_initialized b) || is_null (b_runtime b) then mret (inl (set_errno EINVAL))
  else
    subject_id ← llam_broker_current_subject;
    if (kind =? LLAM_BROKER_TASK_KIND_SLEEP_NS_RETURN_U64)
       && (LLAM_BROKER_LONG_SLEEP_TASKS_MAX <=? llam_broker_long_sleep_task_count_locked b)
    then mret (inl (set_errno ENOSPC))
    else if negb (subject_id =? 0)
            && (LLAM_BROKER_TASKS_PER_SUBJECT <=? llam_broker_subject_task_count_locked b subject_id)
    then mret (inl (set_errno ENOSPC))
    else
      match first_free (λ s, negb (ts_active s)) 0 (b_tasks b) with
      | None => mret (inl (set_errno ENOSPC))
      | Some i =>
          rc ← llam_broker_validate_next_object_id (b_next_task_id b);
          if negb (rc =? 0) then mret (inl (mret tt))
          else
            upd_broker (λ b,
              set_b_tasks
                (<[i := TaskSlot 0 TASK_STATE_SPAWNED kind (b_next_task_id b) 1 rights subject_id
                          arg0 0 0 true]> (b_tasks b))
                (set_b_next_task_id (u64 (b_next_task_id b + 1)) b)) ;;
            mret (inr (i, b_next_task_id b))
      end.

(** [if (llam_broker_lock(broker) == 0) { reset; unlock }] *)
Definition release_task_slot (i : nat) : M unit :=
  rc ← llam_broker_lock;
  if rc =? 0 then llam_broker_task_slot_reset i ;; llam_broker_unlock else mret tt.

(** The rest of a spawn, after the slot was reserved and the lock released. *)
Definition start_task (kind arg0 rights : Z) (i : nat) (id : Z)
    (out_token : option capability_token) : M (Z * option capability_token) :=
  '(rc, out_token) ← llam_broker_issue_object_cap LLAM_BROKER_CAP_FAMILY_TASK id 1 rights out_token;
  if negb (rc =? 0) then release_task_slot i ;; mret (-1, out_token)
  else if negb (kind =? LLAM_BROKER_TASK_KIND_SLEEP_NS_RETURN_U64)
  then
    r ← llam_broker_task_compute kind arg0;
    set_result i r ;;
    b ← the_broker;
    set_task i (set_ts_state TASK_STATE_COMPLETED (task_at b i)) ;;
    mret (0, out_token)
  else
    task ← llam_runtime_spawn_ex;
    b ← the_broker;
    set_task i (set_ts_task task (task_at b i)) ;;
    if task =? 0
    then release_task_slot i ;; mret (-1, (λ _, zero_token) <$> out_token)
    else mret (0, out_token).

(** Releasing the lock changes no modelled state: in the bodies below
    [llam_broker_unlock] marks where the code releases it, and the unlock of
    [with_op] at the end adds nothing. *)

Definition spawn_task_body (kind arg0 rights : Z) (out_token : option capability_token)
    : M (M (Z * option capability_token)) :=
  reserved ← reserve_task_slot kind arg0 rights;
  llam_broker_unlock ;;
  match reserved with
  | inl report => mret (report ;; mret (-1, out_token))
  | inr (i, id) => r ← start_task kind arg0 rights i id out_token; mret (mret r)
  end.

Definition llam_broker_spawn_task (kind arg0 rights : Z) (out_token : option capability_token)
    : M (Z * option capability_token) :=
  let out_token := (λ _, zero_token) <$> out_token in
  let return_minus_1 : M (Z * option capability_token) := mret (-1, out_token) in
  null ← gets (λ w, is_null (w_broker w));
  if (null || is_null out_token || (rights =? 0))%bool then set_errno EINVAL ;; return_minus_1
  else
    rc ← llam_broker_validate_object_rights LLAM_BROKER_CAP_FAMILY_TASK rights;
    if negb (rc =? 0) then return_minus_1
    else if negb (llam_broker_task_kind_valid kind) then set_errno EINVAL ;; return_minus_1
    else if (kind =? LLAM_BROKER_TASK_KIND_SLEEP_NS_RETURN_U64) && (LLAM_BROKER_SLEEP_MAX_NS <? arg0)
    then set_errno EINVAL ;; return_minus_1
    else with_op (λ _, return_minus_1) (spawn_task_body kind arg0 rights out_token).

(** ** Join and detach *)

(** Returns the status and [*out_allowed]. *)
Definition llam_broker_task_join_runtime_drive_allowed (token : option capability_token)
    (out_allowed : option bool) : M (Z * option bool) :=
  match out_allowed with
  | None => set_errno EINVAL ;; mret (-1, None)
  | Some _ =>
      with_op (λ _, mret (-1, Some false))
        (slot ← llam_broker_find_task token LLAM_CAP_RIGHT_JOIN;
         match slot with
         | None => mret (mret (-1, Some false))
         | Some i =>
             b ← the_broker;
             let slot := task_at b i in
             mret (mret (0, Some
               (bool_decide (ts_state slot ≠ TASK_STATE_SPAWNED)
                || (negb (ts_kind slot =? LLAM_BROKER_TASK_KIND_SLEEP_NS_RETURN_U64)
                    && negb (llam_broker_has_pending_sleep_task_locked b)))))
         end)
  end.

(** The status and the published result. *)
Definition join_task_body (token : option capability_token) : M (M (Z * Z)) :=
  slot ← llam_broker_find_task token LLAM_CAP_RIGHT_JOIN;
  match slot with
  | None => mret (mret (-1, 0))
  | Some i =>
      b ← the_broker;
      let slot := task_at b i in
      if bool_decide (ts_state slot = TASK_STATE_SPAWNED)
      then mret (set_errno EAGAIN ;; mret (-1, 0))
      else if negb (bool_decide (ts_state slot = TASK_STATE_COMPLETED))
      then mret (set_errno EINVAL ;; mret (-1, 0))
      else
        llam_broker_task_slot_reset i ;;
        llam_broker_unlock ;;
        rc ← (if negb (ts_task slot =? 0) then llam_join (ts_task slot) else mret 0);
        if negb (rc =? 0) then mret (mret (-1, 0))
        else if negb (ts_error_code slot =? 0)
        then set_errno (ts_error_code slot) ;; mret (mret (-1, 0))
        else mret (mret (0, ts_result0 slot))
  end.

Definition llam_broker_join_task (token : option capability_token) (out_result0 : option Z)
    : M (Z * option Z) :=
  match out_result0 with
  | None => set_errno EINVAL ;; mret (-1, None)
  | Some _ =>
      '(rc, result0) ← with_op (λ _, mret (-1, 0)) (join_task_body token);
      mret (rc, Some result0)
  end.

(** The compare-exchange loop retries only when the trampoline completed first. *)
Definition detach_task_body (token : option capability_token) : M (M Z) :=
  slot ← llam_broker_find_task token LLAM_CAP_RIGHT_DETACH;
  match slot with
  | None => mret (mret (-1))
  | Some i =>
      b ← the_broker;
      let slot := task_at b i in
      if bool_decide (ts_state slot = TASK_STATE_COMPLETED)
      then
        llam_broker_task_slot_reset i ;;
        llam_broker_unlock ;;
        rc ← (if negb (ts_task slot =? 0) then llam_detach (ts_task slot) else mret 0);
        mret (mret (if negb (rc =? 0) then -1 else 0))
      else if bool_decide (ts_state slot = TASK_STATE_SPAWNED)
      then
        if ts_task slot =? 0 then mret (fail EINVAL)
        else
          set_task i (set_ts_rights 0 (set_ts_state TASK_STATE_DETACHED slot)) ;;
          mret (mret 0)
      else mret (fail EINVAL)
  end.

Definition llam_broker_detach_task (token : option capability_token) : M Z :=
  with_op (λ _, mret (-1)) (detach_task_body token).

(** ** Slots evolve *)

Definition with_task (i : nat) (s : task_slot) (b : broker) : broker :=
  set_b_tasks (<[i := s]> (b_tasks b)) b.

Lemma set_task_run i s w b :
  w_broker w = Some b → set_task i s w = (tt, set_w_broker (Some (with_task i s b)) w).
Proof. intros Hb. unfold set_task. mon. by rewrite Hb. Qed.

Lemma with_task_twice i s s' b : with_task i s' (with_task i s b) = with_task i s' b.
Proof. unfold with_task. cbn. by rewrite list_insert_insert_eq. Qed.

Lemma task_at_lookup b i s : b_tasks b !! i = Some s → task_at b i = s.
Proof. intros. by apply nth_lookup_Some. Qed.

Lemma task_at_with b i s s' : b_tasks b !! i = Some s → task_at (with_task i s' b) i = s'.
Proof.
  intros Hi. apply task_at_lookup. cbn. apply list_lookup_insert_eq. by eapply lookup_lt_Some.
Qed.

(** A later state of a live task: the same task, fewer rights, progressed data. *)
Definition task_step (s s' : task_slot) : Prop :=
  ts_active s' = true → ts_active s = true ∧ ts_id s' = ts_id s ∧
    ts_generation s' = ts_generation s ∧ ts_subject_id s' = ts_subject_id s ∧
    (ts_rights s' = ts_rights s ∨ ts_rights s' = 0) ∧ task_data_le s s' ∧ (task_inv s → task_inv s').

Lemma evolve_with_task b i s s' :
  b_tasks b !! i = Some s → task_step s s' → evolve b (with_task i s' b).
Proof.
  intros Hi Hs. apply evolve_ok; [same_shape|]. intros Hok. apply evolve_task. intros Ha.
  destruct (Hs Ha) as (A1&A2&A3&A4&A5&A6&A7).
  destruct (to_slot _ _ (bo_tasks _ Hok) i s Hi A1) as (_&Hg&Hinv). cbn in *.
  split_and!; [lia|by apply A7|]. exists s. split; [done|]. split; cbn; [done|done|lia|done| |done].
  intros _. destruct A5 as [->| ->]; [apply has_bits_refl|]. unfold has_bits. by rewrite Z.land_0_r.
Qed.

Lemma step_with_task w w1 b i s s' :
  w_broker w = Some b → same_core w w1 → b_tasks b !! i = Some s → task_step s s' →
  step w (set_w_broker (Some (with_task i s' b)) w1).
Proof. intros Hb Hc Hi Hs. eapply step_set_broker; [done|done|]. by eapply evolve_with_task. Qed.

Lemma evolve_task_reset b i : evolve b (with_task i zero_task_slot b).
Proof. apply evolve_task. intros [=]. Qed.

Lemma step_task_reset i : pres step (llam_broker_task_slot_reset i).
Proof.
  intros w. unfold llam_broker_task_slot_reset, set_task. apply step_upd. intros b _.
  apply evolve_task_reset.
Qed.

(** ** Running a command *)

Lemma pres_silent_compute k a : pres silent (llam_broker_task_compute k a).
Proof.
  unfold llam_broker_task_compute, llam_sleep_ns. pres_walk. by apply pres_silent_pop.
Qed.

Lemma compute_lock_tape k a w :
  os_mutex_lock (w_os (llam_broker_task_compute k a w).2) = os_mutex_lock (w_os w).
Proof.
  unfold llam_broker_task_compute, llam_sleep_ns, pop.
  do 3 (match goal with |- context [if ?c then _ else _] => destruct c; [done|] end).
  destruct (k =? LLAM_BROKER_TASK_KIND_SLEEP_NS_RETURN_U64); [|done]. mon.
  destruct (os_sleep (w_os w)) as [|v l]; mon; [done|]. destruct (v =? 0); done.
Qed.

Lemma detach_lock_tape t w :
  os_mutex_lock (w_os (llam_detach t w).2) = os_mutex_lock (w_os w).
Proof.
  unfold llam_detach, pop. mon. cbn. destruct (os_detach (w_os w)) as [|v l]; mon; [done|].
  destruct (v =? 0); done.
Qed.

(** The calls on a task handle log themselves. *)
Lemma join_run t w :
  same_core w (llam_join t w).2 ∧
  os_log (w_os (llam_join t w).2) = EvJoin t :: os_log (w_os w).
Proof.
  unfold llam_join. mon.
  match goal with |- context [pop ?t ?s ?d ?x] =>
    destruct (pres_silent_pop t s d ltac:(done) x) as [C L]; destruct (pop t s d x) as [v w1] end. mon.
  by branch.
Qed.

Lemma detach_run t w :
  same_core w (llam_detach t w).2 ∧
  os_log (w_os (llam_detach t w).2) = EvDetach t :: os_log (w_os w).
Proof.
  unfold llam_detach. mon.
  match goal with |- context [pop ?t ?s ?d ?x] =>
    destruct (pres_silent_pop t s d ltac:(done) x) as [C L]; destruct (pop t s d x) as [v w1] end. mon.
  by branch.
Qed.

(** The slot of a command that finished with [r]. *)
Definition finished (r : Z * Z) (s : task_slot) : task_slot :=
  set_ts_error_code r.2 (set_ts_result0 r.1 s).

Definition completed (r : Z * Z) (s : task_slot) : task_slot :=
  set_ts_state TASK_STATE_COMPLETED (finished r s).

Lemma set_result_run i r w b s :
  w_broker w = Some b → b_tasks b !! i = Some s →
  set_result i r w = (tt, set_w_broker (Some (with_task i (finished r s) b)) w).
Proof.
  intros Hb Hi. unfold set_result. mon. rewrite Hb. mon. rewrite (task_at_lookup _ _ _ Hi).
  by rewrite (set_task_run _ _ _ b Hb).
Qed.

Lemma runnable_cases b i :
  runnable (task_at b i) = true →
  ∃ s, b_tasks b !! i = Some s ∧ task_at b i = s ∧ ts_task s ≠ 0 ∧
    (ts_state s = TASK_STATE_SPAWNED ∨ ts_state s = TASK_STATE_DETACHED).
Proof.
  unfold runnable. intros [H1 H2]%andb_prop. bools.
  destruct (b_tasks b !! i) as [s|] eqn:Hi.
  - rewrite (task_at_lookup _ _ _ Hi) in *. exists s. split_and!; try done.
    apply orb_prop in H2 as [H2|H2]; bools; auto.
  - exfalso. apply H1. unfold task_at. rewrite nth_overflow; [done|]. by apply lookup_ge_None.
Qed.

(** What one run of the runtime's task for slot [i] does: it publishes the result,
    or, when it was detached meanwhile, releases its handle and its slot (only the
    handle when the lock fails). *)
Lemma trampoline_cases w b i s :
  w_broker w = Some b → b_tasks b !! i = Some s → ts_task s ≠ 0 →
  ts_state s = TASK_STATE_SPAWNED ∨ ts_state s = TASK_STATE_DETACHED →
  ∃ r w1 s', same_core w w1 ∧ lock_kept w w1 ∧
    llam_broker_task_trampoline i w = (tt, set_w_broker (Some (with_task i s' b)) w1) ∧
    (ts_state s = TASK_STATE_SPAWNED ∧ s' = completed r s ∧ os_log (w_os w1) = os_log (w_os w)
     ∨ ts_state s = TASK_STATE_DETACHED ∧ os_log (w_os w1) = EvDetach (ts_task s) :: os_log (w_os w) ∧
       (s' = zero_task_slot
        ∨ s' = finished r s ∧ (b_lock_initialized b = false ∨ os_mutex_lock (w_os w) ≠ []))).
Proof.
  intros Hb Hi Ht Hst. unfold llam_broker_task_trampoline. mon. rewrite Hb. mon.
  rewrite (task_at_lookup _ _ _ Hi).
  destruct (pres_silent_compute (ts_kind s) (ts_arg0 s) w) as [C1 L1].
  pose proof (compute_lock_tape (ts_kind s) (ts_arg0 s) w) as M1.
  destruct (llam_broker_task_compute (ts_kind s) (ts_arg0 s) w) as [r w1]. mon.
  assert (w_broker w1 = Some b) as Hb1 by (rewrite (proj1 C1); done).
  rewrite (set_result_run i r w1 b s Hb1 Hi). mon. rewrite (task_at_with _ _ _ _ Hi).
  exists r. change (ts_state (finished r s)) with (ts_state s).
  change (ts_task (finished r s)) with (ts_task s).
  destruct Hst as [Hst|Hst]; rewrite Hst.
  - eexists w1, _. split; [done|]. split; [intros Hm; congruence|]. rewrite bool_decide_true by done. erewrite set_task_run by done. mon.
    rewrite with_task_twice. split; [reflexivity|]. by left.
  - rewrite bool_decide_false, bool_decide_true by done. rewrite (proj2 (Z.eqb_neq _ _) Ht). mon.
    match goal with |- context [llam_detach (ts_task s) ?x] =>
      destruct (detach_run (ts_task s) x) as [C2 L2]; pose proof (detach_lock_tape (ts_task s) x) as M2; destruct (llam_detach (ts_task s) x) as [rc w2] end.
    mon. destruct (lock_cases w2) as [C3 Hl].
    assert (w_broker w2 = Some (with_task i (finished r s) b)) as Hb2 by (by rewrite (proj1 C2)).
    pose proof (pres_silent_lock w2) as [_ L3]. pose proof (pres_locks_lock w2) as K3.
    assert (lock_kept w (llam_broker_lock w2).2) as Kw by (intros Hm; apply K3; cbn in M2; congruence).
    assert ((llam_broker_lock w2).1 ≠ 0 →
      b_lock_initialized b = false ∨ os_mutex_lock (w_os w) ≠ []) as Hfail.
    { intros Hne. destruct (b_lock_initialized b) eqn:Eb; [right|by left]. intros Em. apply Hne.
      rewrite (lock_free w2 _ Hb2 Eb); [done|]. congruence. }
    destruct (llam_broker_lock w2) as [rc3 w3]. mon. assert (w_broker w3 = Some (with_task i (finished r s) b)) as Hb3 by (by rewrite (proj1 C3)).
    assert (same_core w (set_w_broker (Some b) w3)) as C.
    { destruct C1 as (A1&A2&A3), C2 as (B1&B2&B3), C3 as (D1&D2&D3). cbn in *. split_and!; cbn; congruence. }
    exists (set_w_broker (Some b) w3). destruct (Z.eqb_spec rc3 0); mon.
    + exists zero_task_slot. unfold llam_broker_task_slot_reset. rewrite (set_task_run _ _ _ _ Hb3), with_task_twice.
      split_and!; [done|done|done|]. right. mon. split_and!; [done|congruence|by left].
    + exists (finished r s). rewrite <- Hb3. split_and!; [done|done|by destruct w3|]. right. mon.
      split_and!; [done|congruence|right; split; [done|by apply Hfail]].
Qed.

(** ** Task handles *)

(** Handles are held from the spawn until the one join or detach; a slot is
    responsible for the handle it stores. *)
Definition is_handle (h t : Z) : bool := negb (h =? 0) && (t =? h).

Definition task_handles : resource :=
  Resource
    (λ h e, match e with
            | EvSpawn t => Z.b2z (is_handle h t)
            | EvJoin t | EvDetach t => - Z.b2z (is_handle h t)
            | _ => 0
            end)
    (λ h b, count_if (λ s, is_handle h (ts_task s)) (b_tasks b)).

Lemma is_handle_0 h : is_handle h 0 = false.
Proof. unfold is_handle. by destruct h. Qed.

#[export] Instance task_handles_ok : ResourceOk task_handles.
Proof. by split. Qed.

(** The balance after the slot at [i] and the log changed. *)
Lemma with_task_unowned w w1 b i s s' d h :
  w_broker w = Some b → b_tasks b !! i = Some s →
  held task_handles h (os_log (w_os w1)) = held task_handles h (os_log (w_os w)) + d →
  unowned task_handles h (set_w_broker (Some (with_task i s' b)) w1)
  = unowned task_handles h w + d + Z.b2z (is_handle h (ts_task s)) - Z.b2z (is_handle h (ts_task s')).
Proof.
  intros Hb Hi L. unfold unowned, owned. mon. rewrite Hb, L. cbn [res_owned task_handles with_task b_tasks set_b_tasks].
  rewrite (count_if_insert _ _ _ _ _ Hi). lia.
Qed.

(** A free slot holds no handle. *)
Definition tidy (s : task_slot) : Prop := ts_active s = true ∨ ts_task s = 0.

(** The lock works, and free slots hold no handles. *)
Definition ready (w : world) : Prop :=
  locks w ∧ ∀ b, w_broker w = Some b → Forall tidy (b_tasks b).

Lemma ready_objs w w' : same_objs w w' → lock_kept w w' → ready w → ready w'.
Proof.
  intros Ho Hk [R1 R2]. split; [by eapply locks_objs|]. intros b' Hb'. destruct (w_broker w) as [b|] eqn:Hb.
  - rewrite (same_objs_broker _ _ _ _ Ho Hb Hb'). exact (R2 b eq_refl).
  - destruct Ho as [Ho _]. by rewrite Hb, Hb' in Ho.
Qed.

Lemma ready_with_task w w1 b i s' :
  w_broker w = Some b → lock_kept w w1 → tidy s' → ready w →
  ready (set_w_broker (Some (with_task i s' b)) w1).
Proof.
  intros Hb Hk Ht [[K1 K2] K3]. split; [split; [by apply Hk|]|]; intros b' [= <-]; [exact (K2 b Hb)|].
  cbn. apply Forall_insert; [exact (K3 b Hb)|done].
Qed.

(** ** Quotas *)

(** At most so many unfinished sleeps in all, and tasks per subject. *)
Record quota_ok (b : broker) : Prop := {
  qo_sleeps : llam_broker_long_sleep_task_count_locked b <= LLAM_BROKER_LONG_SLEEP_TASKS_MAX;
  qo_subject : ∀ subj,
    llam_broker_subject_task_count_locked b subj <= LLAM_BROKER_TASKS_PER_SUBJECT;
}.

Definition quota (w : world) : Prop := ∀ b, w_broker w = Some b → quota_ok b.

Lemma task_step_pending s s' : task_step s s' → Z.b2z (pending_sleep s') <= Z.b2z (pending_sleep s).
Proof.
  intros Hs. destruct (pending_sleep s') eqn:E; [|by destruct (pending_sleep s)].
  assert (pending_sleep s = true) as ->; [|done]. unfold pending_sleep in *. bools.
  destruct (Hs ltac:(done)) as (A1&_&_&_&_&[D1 _ D3 _]&_). rewrite A1, <- D1.
  rewrite (proj2 (Z.eqb_eq _ _)) by done. cbn [andb].
  assert (ts_state s = TASK_STATE_SPAWNED ∨ ts_state s = TASK_STATE_DETACHED) as [->| ->];
    [|done|done].
  match goal with H : _ || _ = true |- _ => apply orb_prop in H as [H|H] end; bools;
    destruct D3 as [->|[-> _]]; auto.
Qed.

(** A slot that only progresses does not use up quota. *)
Lemma quota_with_task b i s s' :
  b_tasks b !! i = Some s → task_step s s' → quota_ok b → quota_ok (with_task i s' b).
Proof.
  intros Hi Hs [Q1 Q2]. split.
  - unfold llam_broker_long_sleep_task_count_locked in *. cbn. rewrite (count_if_insert _ _ _ _ _ Hi).
    pose proof (task_step_pending s s' Hs). lia.
  - intros subj. specialize (Q2 subj). unfold llam_broker_subject_task_count_locked in *.
    destruct (subj =? 0); [done|]. cbn. rewrite (count_if_insert _ _ _ _ _ Hi).
    destruct (ts_active s') eqn:E; cbn [andb Z.b2z]; [|destruct (ts_active s && _); cbn [Z.b2z]; lia].
    destruct (Hs E) as (A1&_&_&A4&_). rewrite A1, A4. cbn [andb]. lia.
Qed.

(** A step that keeps the quotas. *)
Definition task_move (w w' : world) : Prop := step w w' ∧ (world_ok w → quota w → quota w').

#[export] Instance task_move_preorder : PreOrder task_move.
Proof.
  split; [by intros w; split|]. intros x y z [A1 B1] [A2 B2]. split; [by etrans|].
  intros Hok Hx. apply B2; [by eapply step_world_ok|by apply B1].
Qed.

Lemma quota_objs w w' : same_objs w w' → quota w → quota w'.
Proof.
  intros Ho Hq b' Hb'. destruct (w_broker w) as [b|] eqn:Hb.
  - rewrite (same_objs_broker _ _ _ _ Ho Hb Hb'). destruct (Hq b Hb) as [Q1 Q2]. by split.
  - destruct Ho as [Ho _]. by rewrite Hb, Hb' in Ho.
Qed.

Lemma move_core w w' : same_core w w' → task_move w w'.
Proof.
  intros C. split; [by apply step_core_world|]. intros _. by apply quota_objs, same_core_objs.
Qed.

Lemma move_with_task w w1 b i s s' :
  w_broker w = Some b → same_core w w1 → b_tasks b !! i = Some s → task_step s s' →
  task_move w (set_w_broker (Some (with_task i s' b)) w1).
Proof.
  intros Hb C Hi Hs. split; [by eapply step_with_task|]. intros _ Hq b' [= <-].
  eapply quota_with_task; [done|done|]. by apply Hq.
Qed.

(** A step that keeps the balance of handles while the lock works. *)
Definition task_rel (w w' : world) : Prop :=
  task_move w w' ∧ (world_ok w → ready w → ready w' ∧ ledger task_handles w w').

#[export] Instance task_rel_preorder : PreOrder task_rel.
Proof.
  split; [by intros w; split|]. intros x y z [A1 B1] [A2 B2]. split; [by etrans|].
  intros Hok Hx. destruct (B1 Hok Hx) as [Hy L1].
  destruct (B2 (step_world_ok _ _ (proj1 A1) Hok) Hy) as [Hz L2]. split; [done|by etrans].
Qed.

(** The same objects, nothing but wake-ups logged, and the lock still works. *)
Definition tracked (w w' : world) : Prop := idle w w' ∧ lock_kept w w'.

#[export] Instance tracked_preorder : PreOrder tracked.
Proof. split; [by intros w; split|]. intros x y z [A1 B1] [A2 B2]. split; by etrans. Qed.

Lemma tracked_handles w w' : tracked w w' → ready w → ready w' ∧ ledger task_handles w w'.
Proof.
  intros [[Ho Hq] Hk] Hr. split; [by eapply ready_objs|]. by apply ledger_idle; [apply _|..].
Qed.

Lemma task_rel_silent w w' : silent w w' → lock_kept w w' → task_rel w w'.
Proof.
  intros Hs Hk. split; [apply move_core, Hs|]. intros _ Hl. split; [|by apply ledger_silent].
  eapply ready_objs; [apply same_core_objs, Hs|done|done].
Qed.

Lemma pres_rel_silent {A} (m : M A) : pres silent m → pres lock_kept m → pres task_rel m.
Proof. intros H K w. apply task_rel_silent; auto. Qed.

Lemma rel_fail_with {A} e (a : A) : pres task_rel (set_errno e ;; mret a).
Proof. by apply pres_rel_silent; [|intros w Hw]. Qed.

Lemma rel_ret {A} (a : A) : pres task_rel (mret a).
Proof. apply pres_ret, _. Qed.

Lemma rel_gets {A} (f : world → A) : pres task_rel (gets f).
Proof. apply pres_gets, _. Qed.

Lemma rel_lock : pres task_rel llam_broker_lock.
Proof. apply pres_rel_silent; [apply pres_silent_lock|apply pres_locks_lock]. Qed.

#[export] Hint Resolve rel_fail_with rel_ret rel_gets rel_lock : llam.

(** The rules for task operations. *)
Lemma rel_with_op_live {A} (on_fail : Z → M A) body :
  (∀ e, pres task_rel (on_fail e)) →
  (∀ w b, w_broker w = Some b → live_broker b → world_ok w →
     task_rel w (body w).2 ∧ pres task_rel (body w).1) →
  pres task_rel (with_op on_fail body).
Proof.
  intros Hf Hb w. assert (pres step (with_op on_fail body)) as Hs.
  { apply pres_with_op; [intros e x; apply Hf|]. intros x b Hx Hl Hok. destruct (Hb x b Hx Hl Hok) as [B1 B2].
    split; [apply B1|intros y; apply B2]. }
  assert (∀ x, tracked x (llam_broker_begin_op x).2 ∧ tracked x (llam_broker_lock x).2
    ∧ tracked x (llam_broker_end_op x).2) as Ht.
  { intros x. split_and!; (split; [split|]);
      [apply pres_objs_begin|apply pres_quiet_begin_op|apply pres_locks_begin_op
      |apply pres_objs_lock|apply pres_quiet_lock|apply pres_locks_lock
      |apply pres_objs_end|apply pres_quiet_end|apply pres_locks_end]. }
  split; [split; [apply Hs|]|]; intros Hok Hr; destruct (with_op_related tracked on_fail body w)
    as [(e&w'&Ho&Hk&->)|(w1&b&w3&Hb1&Hl&Ho&Hok1&_&->&Ho3&Hk)]; try done.
  1-3: intros x; apply Ht.
  3-5: intros x; apply Ht.
  - apply (proj1 (Hf e w')); [apply Hk, Hok|]. by eapply quota_objs; [apply Ho|].
  - destruct (Hb w1 b Hb1 Hl Hok1) as [[[S1 Q1] _] B2].
    assert (world_ok w3) as Hok3 by (apply (Hk (proj1 (S1 Hok1))), Hok).
    apply (proj1 (B2 w3) ); [done|]. eapply quota_objs; [apply Ho3|]. apply Q1; [done|].
    by eapply quota_objs; [apply Ho|].
  - destruct (tracked_handles _ _ Ho Hr) as [R1 L1]. destruct (proj2 (Hf e w') (proj1 (proj2 Hk Hok)) R1).
    split; [done|by etrans].
  - destruct (Hb w1 b Hb1 Hl Hok1) as [[[S1 _] B1] B2]. destruct (tracked_handles _ _ Ho Hr) as [R1 L1].
    destruct (B1 Hok1 R1) as [R2 L2]. destruct (tracked_handles _ _ Ho3 R2) as [R3 L3].
    assert (world_ok w3) as Hok3 by (apply (Hk (proj1 (S1 Hok1))), Hok).
    destruct (proj2 (B2 w3) Hok3 R3) as [R4 L4]. split; [done|]. by do 3 (etrans; [eassumption|]).
Qed.

Lemma rel_with_op {A} (on_fail : Z → M A) body :
  (∀ e, pres task_rel (on_fail e)) → pres task_rel body → (∀ w, pres task_rel (body w).1) →
  pres task_rel (with_op on_fail body).
Proof. intros Hf Hb Hk. apply rel_with_op_live; [done|]. intros w b _ _ _. split; [apply Hb|apply Hk]. Qed.

(** Changing slot [i] while the log takes the handle [ts_task s] out, or keeps it. *)
Lemma task_rel_with_task w w1 b i s s' :
  w_broker w = Some b → same_core w w1 → lock_kept w w1 → b_tasks b !! i = Some s →
  task_step s s' →
  (os_log (w_os w1) = os_log (w_os w) ∧ ts_task s' = ts_task s ∧ ts_active s' = ts_active s
   ∨ ts_task s' = 0 ∧ (ts_task s = 0 ∧ os_log (w_os w1) = os_log (w_os w)
       ∨ os_log (w_os w1) = EvDetach (ts_task s) :: os_log (w_os w)
       ∨ os_log (w_os w1) = EvJoin (ts_task s) :: os_log (w_os w))) →
  task_rel w (set_w_broker (Some (with_task i s' b)) w1).
Proof.
  intros Hb Hc Hk Hi Hs Hl. split; [by eapply move_with_task|]. intros _ Hr. split.
  { apply (ready_with_task w); try done. pose proof (proj1 (Forall_lookup _ _) (proj2 Hr b Hb) i s Hi) as Hts.
    unfold tidy in *. destruct Hl as [(_&->& ->)|[-> _]]; auto. }
  intros h Hh.
  rewrite (with_task_unowned w w1 b i s s'
    (held task_handles h (os_log (w_os w1)) - held task_handles h (os_log (w_os w)))) by (done || lia).
  destruct Hl as [(->&->&_)|[-> [[-> ->]|[-> | ->]]]]; cbn [held res_weight task_handles];
    rewrite ?is_handle_0; cbn [Z.b2z]; lia.
Qed.

Lemma task_step_reset s : task_step s zero_task_slot.
Proof. intros [=]. Qed.

Lemma task_step_finished r s : ts_state s ≠ TASK_STATE_COMPLETED → task_step s (finished r s).
Proof. intros Hs Ha. cbn in *. split_and!; auto. split; cbn; [done|done|by left|done]. Qed.

Lemma task_step_completed r s : ts_state s = TASK_STATE_SPAWNED → task_step s (completed r s).
Proof.
  intros Hs Ha. cbn in *. split_and!; auto; [|by right; left].
  split; cbn; [done|done|right; auto|congruence].
Qed.

Lemma pres_locks_compute k a : pres lock_kept (llam_broker_task_compute k a).
Proof. intros w. unfold lock_kept. by rewrite compute_lock_tape. Qed.

Lemma rel_run_slot i : pres task_rel (run_slot i).
Proof.
  intros w. unfold run_slot. mon. destruct (w_broker w) as [b|] eqn:Hb; mon.
  - destruct (runnable (task_at b i)) eqn:Hr; [|reflexivity].
    apply runnable_cases in Hr as (s&Hi&_&Ht&Hst).
    destruct (trampoline_cases w b i s Hb Hi Ht Hst)
      as (r&w1&s'&Hc&Hk&->&[(Hs&->&L)|(Hs&L&[->|[-> Hf]])]); mon.
    + eapply task_rel_with_task; [done..|by apply task_step_completed|by left].
    + eapply task_rel_with_task; [done..|apply task_step_reset|]. right. by auto.
    + split; [eapply move_with_task; [done..|apply task_step_finished; congruence]|].
      intros _ [[K1 K2] _]. specialize (K2 b Hb). destruct Hf; congruence.
  - assert (runnable (task_at zero_broker i) = false) as ->; [|reflexivity].
    unfold task_at, zero_broker. cbn [b_tasks]. by rewrite nth_replicate.
Qed.

Lemma rel_run_handle : pres task_rel llam_runtime_run_handle.
Proof.
  apply pres_bind; [apply _|apply pres_rel_silent; [by apply pres_silent_pop|by apply pres_locks_pop]|].
  intros l. induction l as [|i l IH]; [apply rel_ret|].
  apply pres_bind; [apply _|apply rel_run_slot|by intros []].
Qed.

(** A slot whose handle was just released is reset. *)
Lemma rel_release_reset w w1 i b :
  w_broker w = Some b → same_core w w1 → lock_kept w w1 →
  (ts_task (task_at b i) = 0 ∧ os_log (w_os w1) = os_log (w_os w)
   ∨ os_log (w_os w1) = EvDetach (ts_task (task_at b i)) :: os_log (w_os w)
   ∨ os_log (w_os w1) = EvJoin (ts_task (task_at b i)) :: os_log (w_os w)) →
  task_rel w (llam_broker_task_slot_reset i w1).2.
Proof.
  intros Hb Hc Hk Hl. unfold llam_broker_task_slot_reset.
  rewrite (set_task_run _ _ w1 b) by (rewrite (proj1 Hc); done). mon.
  destruct (b_tasks b !! i) as [s|] eqn:Es.
  - rewrite (task_at_lookup _ _ _ Es) in *. eapply task_rel_with_task; [done..|apply task_step_reset|]. by right.
  - assert (ts_task (task_at b i) = 0) as Hi.
    { unfold task_at. by rewrite nth_overflow; [|apply lookup_ge_None]. }
    rewrite Hi in Hl.
    unfold with_task. rewrite list_insert_ge by (by apply lookup_ge_None).
    replace (set_b_tasks (b_tasks b) b) with b by (by destruct b). rewrite <- Hb, <- (proj1 Hc).
    replace (set_w_broker (w_broker w1) w1) with w1 by (by destruct w1).
    split; [by apply move_core|]. intros _ Hlk. split; [by eapply ready_objs; [apply same_core_objs|..]|].
    intros h _. unfold unowned, owned. rewrite (proj1 Hc).
    destruct Hl as [[_ ->]|[-> | ->]]; [done|cbn [held res_weight task_handles]..];
      rewrite is_handle_0; cbn [Z.b2z]; lia.
Qed.

Lemma pres_locks_join t : pres lock_kept (llam_join t).
Proof. unfold llam_join. pres_walk. by apply pres_locks_pop. Qed.

Lemma pres_locks_detach t : pres lock_kept (llam_detach t).
Proof. unfold llam_detach. pres_walk. by apply pres_locks_pop. Qed.

(** ** Teardown and reclamation *)

Lemma rel_clear_tasks : pres task_rel llam_broker_clear_tasks.
Proof.
  apply pres_on_broker; [apply rel_ret|]. intros b0.
  apply pres_bind; [apply _|apply pres_if; [apply rel_run_handle|apply rel_ret]|]. intros _.
  apply pres_for_each; [apply _|]. intros i w. mon.
  destruct (w_broker w) as [b|] eqn:Hb; mon.
  - destruct (Z.eqb_spec (ts_task (task_at b i)) 0) as [E|E]; mon.
    { eapply rel_release_reset; [done|done|by intros Hm|by auto]. }
    destruct (bool_decide (ts_state (task_at b i) = TASK_STATE_COMPLETED)); mon.
    + destruct (join_run (ts_task (task_at b i)) w) as [C L].
      pose proof (pres_locks_join (ts_task (task_at b i)) w) as K.
      destruct (llam_join (ts_task (task_at b i)) w) as [rc w1]. mon.
      eapply rel_release_reset; [done|done|done|by auto].
    + destruct (detach_run (ts_task (task_at b i)) w) as [C L].
      pose proof (pres_locks_detach (ts_task (task_at b i)) w) as K.
      destruct (llam_detach (ts_task (task_at b i)) w) as [rc w1]. mon.
      eapply rel_release_reset; [done|done|done|by auto].
  - assert (task_at zero_broker i = zero_task_slot) as ->.
    { unfold task_at, zero_broker. cbn [b_tasks]. apply nth_replicate. }
    unfold llam_broker_task_slot_reset, set_task. cbn [ts_task zero_task_slot]. mon.
    apply task_rel_silent; [|by intros Hm]. split; [|done]. split_and!; [|done..]. cbn. by rewrite Hb.
Qed.

(** Reclaiming takes handles out of their slots, to be detached after the lock is
    released: the balance changes by the handles returned. *)
Definition returned (h : Z) (l : list Z) : Z := count_if (is_handle h) l.

(** [task_rel] up to the handles in [l], which the caller holds. *)
Definition task_rel_with (l : list Z) (w w' : world) : Prop :=
  task_move w w' ∧ (world_ok w → ready w → ready w' ∧
    ∀ h, 0 <= h → unowned task_handles h w' = unowned task_handles h w + returned h l).

Lemma task_rel_with_nil w w' : task_rel w w' → task_rel_with [] w w'.
Proof.
  intros [S H]. split; [done|]. intros Hok Hl. destruct (H Hok Hl) as [H1 H2]. split; [done|].
  intros h Hh. rewrite (H2 h Hh). cbn. lia.
Qed.

Lemma task_rel_with_app l l' w w' w'' :
  task_rel_with l w w' → task_rel_with l' w' w'' → task_rel_with (l ++ l') w w''.
Proof.
  intros [S1 H1] [S2 H2]. split; [by etrans|]. intros Hok Hl. destruct (H1 Hok Hl) as [H1a H1b].
  destruct (H2 (step_world_ok _ _ (proj1 S1) Hok) H1a) as [H2a H2b]. split; [done|]. intros h Hh. rewrite H2b, H1b by done.
  unfold returned. rewrite count_if_app. lia.
Qed.

Lemma task_step_detached s :
  ts_state s = TASK_STATE_SPAWNED ∨ ts_state s = TASK_STATE_DETACHED →
  task_step s (set_ts_rights 0 (set_ts_state TASK_STATE_DETACHED s)).
Proof.
  intros Hs Ha. cbn in *. split_and!; auto; [|right; right; done].
  split; cbn; [done|done| |by destruct Hs; congruence].
  destruct Hs as [->| ->]; [right; auto|by left].
Qed.

Lemma reclaim_slot_rel subj i w :
  let r := reclaim_task_slot subj i w in
  task_rel_with (if r.1 =? 0 then [] else [r.1]) w r.2.
Proof.
  cbn zeta. unfold reclaim_task_slot. mon.
  assert (∀ (x : Z), task_rel_with (if 0 =? 0 then [] else [x]) w w) as Hrefl
    by (intros; by apply task_rel_with_nil).
  destruct (w_broker w) as [b|] eqn:Hb; mon.
  2: { assert (task_at zero_broker i = zero_task_slot) as ->; [|apply Hrefl, 0].
       unfold task_at, zero_broker. cbn [b_tasks]. apply nth_replicate. }
  destruct (negb (ts_active (task_at b i)) || negb (ts_subject_id (task_at b i) =? subj)) eqn:?; mon;
    [apply (Hrefl 0)|]. bools.
  destruct (b_tasks b !! i) as [s|] eqn:Hi.
  2: { exfalso. unfold task_at in *. rewrite nth_overflow in * by (by apply lookup_ge_None). done. }
  rewrite (task_at_lookup _ _ _ Hi) in *. repeat case_bool_decide; mon.
  - rewrite (set_task_run _ _ _ _ Hb). mon. apply task_rel_with_nil.
    eapply task_rel_with_task; [done|done|by intros Hm|done|by apply task_step_detached; auto|by left].
  - rewrite (set_task_run _ _ _ _ Hb). mon. apply task_rel_with_nil.
    replace (set_ts_rights 0 s) with (set_ts_rights 0 (set_ts_state TASK_STATE_DETACHED s))
      by (unfold set_ts_rights, set_ts_state; cbn; congruence).
    eapply task_rel_with_task; [done|done|by intros Hm|done|by apply task_step_detached; auto|by left].
  - unfold llam_broker_task_slot_reset. rewrite (set_task_run _ _ _ _ Hb). mon.
    split; [eapply move_with_task; [done|done|done|apply task_step_reset]|]. intros _ Hr. split.
    { apply (ready_with_task w); [done|by intros Hm|by right|done]. }
    intros h Hh. rewrite (with_task_unowned w w b i s zero_task_slot 0) by (done || lia).
    cbn [ts_task zero_task_slot]. rewrite is_handle_0. cbn [Z.b2z].
    destruct (Z.eqb_spec (ts_task s) 0) as [->|]; cbn; rewrite ?is_handle_0; cbn; lia.
Qed.

Lemma reclaim_slots_rel subj n i w :
  let r := reclaim_task_slots subj n i w in task_rel_with r.1 w r.2.
Proof.
  revert i w. induction n as [|n IH]; intros i w; cbn [reclaim_task_slots]; cbn zeta.
  - by apply task_rel_with_nil.
  - mon. pose proof (reclaim_slot_rel subj i w) as H1. destruct (reclaim_task_slot subj i w) as [t w1]. mon.
    pose proof (IH (S i) w1) as H2. destruct (reclaim_task_slots subj n (S i) w1) as [l w2]. mon.
    destruct (Z.eqb_spec t 0); mon.
    + by apply (task_rel_with_app [] l _ w1).
    + by apply (task_rel_with_app [t] l _ w1).
Qed.

Lemma detach_all_run l w :
  same_core w (detach_all l w).2 ∧ lock_kept w (detach_all l w).2 ∧
  ∀ h, unowned task_handles h (detach_all l w).2 = unowned task_handles h w - returned h l.
Proof.
  revert w. induction l as [|t l IH]; intros w; cbn [detach_all]; mon.
  - split_and!; [done|by intros Hm|]. intros h. cbn. lia.
  - destruct (detach_run t w) as [C L]. pose proof (pres_locks_detach t w) as K.
    destruct (llam_detach t w) as [rc w1]. mon. destruct (IH w1) as (C1&K1&L1).
    split_and!; [by etrans|by etrans|]. intros h. rewrite L1. unfold unowned, owned.
    rewrite (proj1 C), L. cbn [held res_weight task_handles]. unfold returned. cbn [count_if]. lia.
Qed.

Lemma rel_reclaim_tasks subj : pres task_rel (llam_broker_reclaim_subject_tasks subj).
Proof.
  apply pres_on_broker; [apply rel_ret|]. intros _. apply pres_if; [apply rel_ret|].
  apply pres_bind; [apply _|apply rel_lock|]. intros rc. apply pres_if; [apply rel_ret|].
  intros w. mon. destruct (reclaim_slots_rel subj LLAM_BROKER_TASK_SLOTS 0 w) as [S1 H1].
  destruct (reclaim_task_slots subj LLAM_BROKER_TASK_SLOTS 0 w) as [l w1]. mon.
  destruct (detach_all_run l w1) as (C2&K2&L2). split.
  - etrans; [exact S1|by apply move_core].
  - intros Hok Hl. destruct (H1 Hok Hl) as [Hl1 H1b]. split.
    + eapply ready_objs; [by apply same_core_objs|done|done].
    + intros h Hh. rewrite L2, H1b by done. lia.
Qed.

(** ** Join and detach *)

Abbreviation found_task := (found LLAM_BROKER_CAP_FAMILY_TASK b_tasks).

Lemma found_task_slot w token required i b t s :
  found_task w token required i b t s → task_at b i = s.
Proof. intros F. apply task_at_lookup. apply F. Qed.

(** What the body of a join did: refused, or it took a finished task out of its
    slot, released its handle, and reports its outcome. *)
Lemma join_body_cases token w :
  let r := join_task_body token w in
  (∃ e, r = (mret (-1, 0), set_w_errno e w))
  ∨ (∃ i b t s, found_task w token LLAM_CAP_RIGHT_JOIN i b t s ∧ ts_state s = TASK_STATE_SPAWNED ∧
       r = (set_errno EAGAIN ;; mret (-1, 0), w))
  ∨ (∃ i b t s, found_task w token LLAM_CAP_RIGHT_JOIN i b t s ∧
       ts_state s ≠ TASK_STATE_SPAWNED ∧ ts_state s ≠ TASK_STATE_COMPLETED ∧
       r = (set_errno EINVAL ;; mret (-1, 0), w))
  ∨ ∃ i b t s w1, found_task w token LLAM_CAP_RIGHT_JOIN i b t s ∧
      ts_state s = TASK_STATE_COMPLETED ∧ same_core w w1 ∧ lock_kept w w1 ∧
      r.2 = set_w_broker (Some (with_task i zero_task_slot b)) w1 ∧
      (r.1 = mret (0, ts_result0 s) ∧ ts_error_code s = 0
       ∨ r.1 = mret (-1, 0) ∧ (ts_error_code s ≠ 0 ∨ ts_task s ≠ 0)) ∧
      (ts_task s = 0 ∧ os_log (w_os w1) = os_log (w_os w)
       ∨ ts_task s ≠ 0 ∧ os_log (w_os w1) = EvJoin (ts_task s) :: os_log (w_os w)).
Proof.
  cbn zeta. unfold join_task_body, llam_broker_find_task. mon.
  destruct (find_object_cases LLAM_BROKER_CAP_FAMILY_TASK b_tasks token LLAM_CAP_RIGHT_JOIN w)
    as [(i&b&t&s&->&F)|(e&->)]; mon; [|left; by eexists].
  pose proof (fo_broker _ _ _ _ _ _ _ _ _ F) as Hb. rewrite Hb. mon.
  rewrite (found_task_slot _ _ _ _ _ _ _ F). repeat case_bool_decide; mon.
  - right. left. by exists i, b, t, s.
  - do 3 right. unfold llam_broker_task_slot_reset. rewrite (set_task_run _ _ _ _ Hb). mon.
    exists i, b, t, s. set (w0 := set_w_broker _ w). destruct (Z.eqb_spec (ts_task s) 0) as [E|E]; mon.
    + destruct (Z.eqb_spec (ts_error_code s) 0); mon.
      * exists w. split_and!; first [done|by intros Hm|by auto].
      * exists (set_w_errno (ts_error_code s) w). split_and!; first [done|by intros Hm|by auto].
    + destruct (join_run (ts_task s) w0) as [C L]. pose proof (pres_locks_join (ts_task s) w0) as K.
      destruct (llam_join (ts_task s) w0) as [rc w1]. mon.
      assert (∀ e, same_core w (set_w_broker (w_broker w) (set_w_errno e w1))) as C'.
      { intros e. destruct C as (C1&C2&C3). by split_and!. }
      assert (∀ e, set_w_errno e w1 = set_w_broker (Some (with_task i zero_task_slot b))
        (set_w_broker (w_broker w) (set_w_errno e w1))) as E1.
      { intros e. destruct C as (C1&_). destruct w1. cbn in *. by rewrite C1. }
      change (os_log (w_os w0)) with (os_log (w_os w)) in L.
      assert (w1 = set_w_errno (w_errno w1) w1) as E2 by by destruct w1.
      destruct (Z.eqb_spec rc 0); mon; [destruct (Z.eqb_spec (ts_error_code s) 0); mon|].
      * exists (set_w_broker (w_broker w) (set_w_errno (w_errno w1) w1)). rewrite <- E1, <- E2.
        split_and!; first [done|exact K|exact (C' 0)|by auto].
      * exists (set_w_broker (w_broker w) (set_w_errno (ts_error_code s) w1)). rewrite <- E1.
        split_and!; first [done|exact K|exact (C' 0)|by auto].
      * exists (set_w_broker (w_broker w) (set_w_errno (w_errno w1) w1)). rewrite <- E1, <- E2.
        split_and!; first [done|exact K|exact (C' 0)|by auto].
  - right. right. left. by exists i, b, t, s.
Qed.

Lemma rel_join_task token out : pres task_rel (llam_broker_join_task token out).
Proof.
  unfold llam_broker_join_task. destruct out as [o|]; [|apply rel_fail_with].
  apply pres_bind; [apply _| |intros [rc res]; apply rel_ret].
  apply rel_with_op; [intros e; apply rel_ret| |]; intros w;
  destruct (join_body_cases token w) as [(e&->)|[(i&b&t&s&F&Hs&->)|[(i&b&t&s&F&Hs&Hs'&->)
    |(i&b&t&s&w1&F&Hs&C&K&Ew&Hr&L)]]]; cbn [fst snd]; try apply rel_fail_with; try reflexivity;
    try apply rel_ret.
  - apply task_rel_silent; [done|by intros Hm].
  - rewrite Ew. eapply task_rel_with_task; [apply F|done|done|apply F|apply task_step_reset|].
    right. split; [done|]. destruct L as [?|[_ ?]]; auto.
  - destruct Hr as [[-> _]|[-> _]]; apply rel_ret.
Qed.

(** What the body of a detach did. *)
Lemma detach_body_cases token w :
  let r := detach_task_body token w in
  (∃ e, r = (mret (-1), set_w_errno e w)) ∨ r = (fail EINVAL, w)
  ∨ (∃ i b t s, found_task w token LLAM_CAP_RIGHT_DETACH i b t s ∧ ts_state s = TASK_STATE_SPAWNED ∧
       ts_task s ≠ 0 ∧
       r = (mret 0, set_w_broker (Some (with_task i (set_ts_rights 0
              (set_ts_state TASK_STATE_DETACHED s)) b)) w))
  ∨ ∃ i b t s w1 rc, found_task w token LLAM_CAP_RIGHT_DETACH i b t s ∧
      ts_state s = TASK_STATE_COMPLETED ∧ same_core w w1 ∧ lock_kept w w1 ∧
      r = (mret rc, set_w_broker (Some (with_task i zero_task_slot b)) w1) ∧
      (ts_task s = 0 ∧ os_log (w_os w1) = os_log (w_os w)
       ∨ ts_task s ≠ 0 ∧ os_log (w_os w1) = EvDetach (ts_task s) :: os_log (w_os w)).
Proof.
  cbn zeta. unfold detach_task_body, llam_broker_find_task. mon.
  destruct (find_object_cases LLAM_BROKER_CAP_FAMILY_TASK b_tasks token LLAM_CAP_RIGHT_DETACH w)
    as [(i&b&t&s&->&F)|(e&->)]; mon; [|left; by eexists].
  pose proof (fo_broker _ _ _ _ _ _ _ _ _ F) as Hb. rewrite Hb. mon.
  rewrite (found_task_slot _ _ _ _ _ _ _ F). repeat case_bool_decide; mon.
  - do 3 right. unfold llam_broker_task_slot_reset. rewrite (set_task_run _ _ _ _ Hb). mon.
    set (w0 := set_w_broker _ w). destruct (Z.eqb_spec (ts_task s) 0) as [E|E]; mon.
    + exists i, b, t, s, w, 0. split_and!; first [done|by intros Hm|by auto].
    + destruct (detach_run (ts_task s) w0) as [C L]. pose proof (pres_locks_detach (ts_task s) w0) as K.
      destruct (llam_detach (ts_task s) w0) as [rc w1]. mon.
      change (os_log (w_os w0)) with (os_log (w_os w)) in L.
      exists i, b, t, s, (set_w_broker (w_broker w) w1), (if negb (rc =? 0) then -1 else 0).
      destruct C as (C1&C2&C3).
      split_and!; try first [done|exact K|by auto]. f_equal. destruct w1; cbn in *. by rewrite C1.
  - right. destruct (Z.eqb_spec (ts_task s) 0) as [E|E]; mon; [by left|].
    right. left. exists i, b, t, s. by rewrite (set_task_run _ _ _ _ Hb).
  - by right; left.
Qed.

Lemma rel_detach_task token : pres task_rel (llam_broker_detach_task token).
Proof.
  apply rel_with_op; [intros e; apply rel_ret| |]; intros w;
  destruct (detach_body_cases token w) as [(e&->)|[->|[(i&b&t&s&F&Hs&Ht&->)
    |(i&b&t&s&w1&rc&F&Hs&C&K&->&L)]]]; cbn [fst snd]; try apply rel_fail_with; try reflexivity;
    try apply rel_ret.
  - apply task_rel_silent; [done|by intros Hm].
  - eapply task_rel_with_task; [apply F|done|by intros Hm|apply F|by apply task_step_detached; auto|by left].
  - eapply task_rel_with_task; [apply F|done|done|apply F|apply task_step_reset|].
    right. split; [done|]. destruct L as [?|[_ ?]]; auto.
Qed.

Lemma rel_drive_allowed token out :
  pres task_rel (llam_broker_task_join_runtime_drive_allowed token out).
Proof.
  unfold llam_broker_task_join_runtime_drive_allowed. destruct out as [o|]; [|apply rel_fail_with].
  unfold llam_broker_find_task. apply rel_with_op; [intros e; apply rel_ret| |]; intros w; mon;
  destruct (find_object_cases LLAM_BROKER_CAP_FAMILY_TASK b_tasks token LLAM_CAP_RIGHT_JOIN w)
    as [(i&b&t&s&->&F)|(e&->)]; mon; try reflexivity; try apply rel_ret.
  apply task_rel_silent; [done|by intros Hm].
Qed.

(** ** Spawn *)

(** Minting a token inside another operation. *)
Lemma pres_issue_cap (R : world → world → Prop) `{!PreOrder R} f s g r out :
  pres R llam_broker_begin_op → pres R llam_broker_lock → pres R llam_broker_end_op →
  (∀ out, pres R (llam_broker_issue_object_cap_unlocked f s g r out)) →
  pres R (llam_broker_issue_object_cap f s g r out).
Proof.
  intros Rb Rl Re Ri. unfold llam_broker_issue_object_cap. apply pres_with_op_any; try done.
  - intros e. apply pres_ret, _.
  - apply pres_bind; [done|done|]. intros x. apply pres_ret, _.
  - intros w. mon. destruct (llam_broker_issue_object_cap_unlocked _ _ _ _ _ w). mon. apply pres_ret, _.
Qed.

Lemma issue_cap_idle f s g r out :
  pres quiet (llam_broker_issue_object_cap f s g r out) ∧
  pres lock_kept (llam_broker_issue_object_cap f s g r out).
Proof. split; apply pres_issue_cap; auto with llam_quiet; apply _. Qed.

Lemma issue_cap_cases f s g r w :
  world_ok w →
  let x := llam_broker_issue_object_cap f s g r (Some zero_token) w in
  same_objs w x.2 ∧
  (x.1 = (-1, Some zero_token)
   ∨ ∃ b rid t, w_broker w = Some b ∧ b_runtime b = Some rid ∧ x.1 = (0, Some t) ∧
       token_for (b_capability_key b)
         (CapObject rid f s g (b_revocation_epoch b) (cur_subject w)) r t).
Proof.
  intros Hok. cbn zeta. unfold llam_broker_issue_object_cap.
  match goal with |- context [with_op ?f ?k w] => destruct (with_op_spec f k w Hok)
    as [(e&w'&Ho&_&->)|(w1&b1&w3&Hb1&Hl&Ho&Hok1&Hs&->&Ho3&_)] end; [split; [done|by left]|].
  revert Ho3. mon.
  destruct (issue_object_cases f s g r (Some zero_token) w1) as [Hc [(b&rid&t&Hb&Hr&_&H1&Ht)|H1]];
  destruct (llam_broker_issue_object_cap_unlocked f s g r (Some zero_token) w1) as [r1 w2]; mon; subst r1;
  intros Ho3; (split; [etrans; [exact Ho|]; etrans; [by apply same_core_objs|exact Ho3]|]); [right|by left].
  rewrite Hb1 in Hb. injection Hb as <-. destruct (w_broker w) as [b|] eqn:Hbw.
  - pose proof (same_objs_broker _ _ _ _ Ho Hbw Hb1) as E. rewrite E in Hr, Ht. rewrite Hs in Ht.
    by exists b, rid, t.
  - destruct Ho as [Ho _]. by rewrite Hbw, Hb1 in Ho.
Qed.

(** The slot a spawn reserves. *)
Definition new_task (b : broker) (kind arg0 rights subj : Z) : task_slot :=
  TaskSlot 0 TASK_STATE_SPAWNED kind (b_next_task_id b) 1 rights subj arg0 0 0 true.

Definition with_new_task (i : nat) (s : task_slot) (b : broker) : broker :=
  set_b_tasks (<[i := s]> (b_tasks b)) (set_b_next_task_id (u64 (b_next_task_id b + 1)) b).

(** The conditions under which a slot is reserved. *)
Record task_admitted (b : broker) (kind subj : Z) (i : nat) : Prop := {
  ta_free : ∃ s, b_tasks b !! i = Some s ∧ ts_active s = false;
  ta_sleeps : kind = LLAM_BROKER_TASK_KIND_SLEEP_NS_RETURN_U64 →
    llam_broker_long_sleep_task_count_locked b < LLAM_BROKER_LONG_SLEEP_TASKS_MAX;
  ta_subject : subj ≠ 0 →
    llam_broker_subject_task_count_locked b subj < LLAM_BROKER_TASKS_PER_SUBJECT;
  ta_next : b_next_task_id b ≠ 0 ∧ b_next_task_id b ≠ UINT64_MAX;
}.

Lemma reserve_cases kind arg0 rights w b :
  w_broker w = Some b → live_broker b →
  let r := reserve_task_slot kind arg0 rights w in
  (∃ report e, r = (inl report, set_w_errno e w) ∧ (report = set_errno ENOSPC ∨ report = mret tt))
  ∨ ∃ i, task_admitted b kind (cur_subject w) i ∧
      r = (inr (i, b_next_task_id b),
           set_w_broker (Some (with_new_task i (new_task b kind arg0 rights (cur_subject w)) b)) w).
Proof.
  intros Hb [Hi [rid Hr] _]. cbn zeta. unfold reserve_task_slot. mon. rewrite Hb. mon. rewrite Hi, Hr. mon.
  rewrite current_subject_run. mon.
  assert (w = set_w_errno (w_errno w) w) as Ew by by destruct w.
  destruct ((kind =? _) && (_ <=? llam_broker_long_sleep_task_count_locked b)) eqn:E1; mon;
    [left; exists (set_errno ENOSPC), (w_errno w); rewrite <- Ew; by auto|].
  destruct (negb (cur_subject w =? 0) && _) eqn:E2; mon;
    [left; exists (set_errno ENOSPC), (w_errno w); rewrite <- Ew; by auto|].
  destruct (first_free _ 0 (b_tasks b)) as [i|] eqn:Hf; mon;
    [|left; exists (set_errno ENOSPC), (w_errno w); rewrite <- Ew; by auto].
  destruct (validate_next_cases (b_next_task_id b) w) as [(->&H0&HM)|(e&->&_)]; mon;
    [|left; exists (mret tt), e; by auto].
  right. exists i. rewrite Hb. split; [|done]. apply first_free_some in Hf as (k&s&->&Hk&Hs). bools.
  split; [by exists s| | |done].
  - intros ->. apply andb_false_iff in E1 as [E1|E1]; bools; [done|lia].
  - intros Hne. apply andb_false_iff in E2 as [E2|E2]; bools; [done|lia].
Qed.

(** The outcome of the commands that do not sleep. *)
Definition command_value (kind arg0 : Z) : Z * Z :=
  if kind =? LLAM_BROKER_TASK_KIND_RETURN_U64 then (arg0, 0)
  else if kind =? LLAM_BROKER_TASK_KIND_INCREMENT_U64 then (u64 (arg0 + 1), 0)
  else if kind =? LLAM_BROKER_TASK_KIND_POPCOUNT_U64 then (llam_broker_popcount_u64 arg0, 0)
  else (0, EINVAL).

Lemma compute_run kind arg0 w :
  kind ≠ LLAM_BROKER_TASK_KIND_SLEEP_NS_RETURN_U64 →
  llam_broker_task_compute kind arg0 w = (command_value kind arg0, w).
Proof.
  intros Hk. unfold llam_broker_task_compute, command_value.
  rewrite (proj2 (Z.eqb_neq _ _) Hk). by repeat branch.
Qed.

Lemma with_task_active i s b n : with_task i s (set_b_active_ops n b) = set_b_active_ops n (with_task i s b).
Proof. done. Qed.

Lemma with_task_same i s b : b_tasks b !! i = Some s → with_task i s b = b.
Proof. intros Hi. unfold with_task. rewrite list_insert_id by done. by destruct b. Qed.

(** Giving up a reserved slot, which holds no handle. *)
Lemma release_cases w b i s :
  w_broker w = Some b → b_tasks b !! i = Some s → ts_task s = 0 →
  task_rel w (release_task_slot i w).2 ∧
  (w_broker (release_task_slot i w).2 = Some (with_task i zero_task_slot b)
   ∨ w_broker (release_task_slot i w).2 = Some b ∧ ¬ ready w).
Proof.
  intros Hb Hi Ht. unfold release_task_slot. mon. pose proof (rel_lock w) as R1.
  pose proof (pres_silent_lock w) as [C1 _]. pose proof (lock_free w b Hb) as Hfree.
  destruct (llam_broker_lock w) as [rc w1]. mon.
  assert (w_broker w1 = Some b) as Hb1 by (by rewrite (proj1 C1)).
  destruct (Z.eqb_spec rc 0) as [->|Hne]; mon.
  - assert (task_rel w1 (llam_broker_task_slot_reset i w1).2) as R2.
    { eapply rel_release_reset; [done|done|by intros Hm|]. left. by rewrite (task_at_lookup _ _ _ Hi). }
    revert R2. unfold llam_broker_task_slot_reset. rewrite (set_task_run _ _ _ _ Hb1). mon. intros R2.
    split; [by etrans|]. by left.
  - split; [done|]. right. split; [done|]. intros [[L1 L2] _]. specialize (Hfree (L2 b Hb) L1).
    injection Hfree as E _. done.
Qed.

(** The outcome of the rest of a spawn on the reserved slot [s]: given up, stuck
    because the lock does not work, finished, or running. *)
Definition started (w : world) (b : broker) (s : task_slot) (kind arg0 id rights : Z)
    (r : Z * option capability_token) (s' : task_slot) : Prop :=
  (r = (-1, Some zero_token) ∧ (s' = zero_task_slot ∨ s' = s ∧ ¬ ready w))
  ∨ ∃ rid t, r = (0, Some t) ∧ b_runtime b = Some rid ∧
      token_for (b_capability_key b) (CapObject rid LLAM_BROKER_CAP_FAMILY_TASK id 1
        (b_revocation_epoch b) (cur_subject w)) rights t ∧
      (kind ≠ LLAM_BROKER_TASK_KIND_SLEEP_NS_RETURN_U64 ∧ s' = completed (command_value kind arg0) s
       ∨ kind = LLAM_BROKER_TASK_KIND_SLEEP_NS_RETURN_U64 ∧ ∃ h, h ≠ 0 ∧ s' = set_ts_task h s).

Lemma spawn_run w :
  (∃ w', llam_runtime_spawn_ex w = (0, w') ∧ silent w w' ∧ lock_kept w w')
  ∨ ∃ h w', llam_runtime_spawn_ex w = (h, w') ∧ h ≠ 0 ∧ same_core w w' ∧ lock_kept w w' ∧
      os_log (w_os w') = EvSpawn h :: os_log (w_os w).
Proof.
  unfold llam_runtime_spawn_ex. mon.
  destruct (pres_silent_pop os_spawn set_os_spawn (inr EINVAL) ltac:(done) w) as [C L].
  pose proof (pres_locks_pop os_spawn set_os_spawn (inr EINVAL) ltac:(done) w) as K.
  destruct (pop os_spawn set_os_spawn (inr EINVAL) w) as [[h|e] w1]; mon.
  - right. eexists _, _. split; [done|]. split_and!; [done|done|done|]. cbn. by rewrite L.
  - left. by eexists.
Qed.

(** The slot takes the handle of the task just spawned. *)
Lemma task_rel_spawned w w1 b i s h :
  w_broker w = Some b → same_core w w1 → lock_kept w w1 → b_tasks b !! i = Some s →
  ts_task s = 0 → ts_active s = true → os_log (w_os w1) = EvSpawn h :: os_log (w_os w) →
  task_rel w (set_w_broker (Some (with_task i (set_ts_task h s) b)) w1).
Proof.
  intros Hb C K Hi Ht Hact L. split; [eapply move_with_task; try done|].
  { intros Ha. cbn in *. split_and!; auto. split; cbn; [done|done|by left|done]. }
  intros _ Hr. split; [apply (ready_with_task w); [done|done|by left|done]|].
  intros k Hk. rewrite (with_task_unowned w w1 b i s _ (Z.b2z (is_handle k h))); [|done|done|].
  - cbn [ts_task set_ts_task]. rewrite Ht, is_handle_0. cbn [Z.b2z]. lia.
  - rewrite L. cbn [held res_weight task_handles]. lia.
Qed.

Lemma set_ts_task_none s : ts_task s = 0 → set_ts_task 0 s = s.
Proof. destruct s; cbn. by intros ->. Qed.

Section start.
Context (w : world) (b : broker) (i : nat) (s : task_slot).
Context (Hok : world_ok w) (Hb : w_broker w = Some b) (Hi : b_tasks b !! i = Some s).
Context (Ht : ts_task s = 0) (Hst : ts_state s = TASK_STATE_SPAWNED) (Hact : ts_active s = true).

(** Giving the slot up after the steps from [w] to [w2]. *)
Lemma give_up_cases w2 n :
  task_rel w w2 → w_broker w2 = Some (set_b_active_ops n b) →
  task_rel w (release_task_slot i w2).2 ∧
  ∃ s', w_broker (release_task_slot i w2).2 = Some (set_b_active_ops n (with_task i s' b)) ∧
    (s' = zero_task_slot ∨ s' = s ∧ ¬ ready w).
Proof.
  intros R2 Hb2. destruct (release_cases w2 _ i s Hb2 Hi Ht) as [R3 Hrel].
  split; [by etrans|]. destruct Hrel as [->|[-> Hnl]].
  - exists zero_task_slot. by auto.
  - exists s. rewrite (with_task_same _ _ _ Hi). split; [done|]. right. split; [done|].
    intros Hl. apply Hnl. by apply R2.
Qed.

Lemma start_cases kind arg0 rights id :
  let r := start_task kind arg0 rights i id (Some zero_token) w in
  task_rel w r.2 ∧
  ∃ s' n, w_broker r.2 = Some (set_b_active_ops n (with_task i s' b)) ∧ started w b s kind arg0 id rights r.1 s'.
Proof.
  cbn zeta. unfold start_task. mon.
  destruct (issue_cap_cases LLAM_BROKER_CAP_FAMILY_TASK id 1 rights w Hok) as [Ho Hcases].
  destruct (issue_cap_idle LLAM_BROKER_CAP_FAMILY_TASK id 1 rights (Some zero_token)) as [Hq Hk].
  specialize (Hq w). specialize (Hk w).
  pose proof (step_issue_object_cap LLAM_BROKER_CAP_FAMILY_TASK id 1 rights (Some zero_token) w) as S1.
  destruct (llam_broker_issue_object_cap _ id 1 rights (Some zero_token) w) as [r1 w1]. mon.
  assert (task_rel w w1) as R1 by (split; [split; [done|intros _; by apply quota_objs]|intros _; by apply tracked_handles]).
  destruct (w_broker w1) as [b1|] eqn:Hb1; [|by destruct Ho as [Ho _]; rewrite Hb, Hb1 in Ho].
  pose proof (same_objs_broker _ _ _ _ Ho Hb Hb1) as Eb1. set (n := b_active_ops b1) in Eb1.
  assert (b_tasks b1 !! i = Some s) as Hi1 by (by rewrite Eb1).
  destruct Hcases as [->|(b0&rid&t&Hb0&Hr&->&Htok)]; mon.
  - destruct (give_up_cases w1 n R1) as (R2&s'&Hb2&Hs'); [by rewrite Hb1, Eb1|].
    destruct (release_task_slot i w1) as [[] w2]. mon. split; [done|]. exists s', n. split; [done|by left].
  - rewrite Hb in Hb0. apply (inj Some) in Hb0. subst b0.
    destruct (Z.eqb_spec kind LLAM_BROKER_TASK_KIND_SLEEP_NS_RETURN_U64) as [E|E]; mon.
    + destruct (spawn_run w1) as [(w2&->&Hs2&Hk2)|(h&w2&->&Hh&C2&Hk2&L2)]; mon.
      * assert (w_broker w2 = Some b1) as Hb2 by (rewrite (proj1 (proj1 Hs2)); done).
        rewrite Hb2. mon. rewrite (task_at_lookup _ _ _ Hi1), (set_task_run _ _ _ _ Hb2). mon.
        rewrite (set_ts_task_none _ Ht), (with_task_same _ _ _ Hi1), <- Hb2.
        replace (set_w_broker (w_broker w2) w2) with w2 by (by destruct w2).
        destruct (give_up_cases w2 n) as (R2&s'&Hb3&Hs');
          [etrans; [exact R1|by apply task_rel_silent]|by rewrite Hb2, Eb1|].
        destruct (release_task_slot i w2) as [[] w3]. mon. split; [done|]. exists s', n. split; [done|by left].
      * assert (w_broker w2 = Some b1) as Hb2 by (rewrite (proj1 C2); done).
        rewrite Hb2. mon. rewrite (task_at_lookup _ _ _ Hi1), (set_task_run _ _ _ _ Hb2). mon.
        rewrite (proj2 (Z.eqb_neq h 0)) by done. split.
        -- etrans; [exact R1|]. by apply (task_rel_spawned _ _ _ _ s).
        -- exists (set_ts_task h s), n. split; [by rewrite Eb1|]. right. exists rid, t. split_and!; try done.
           right. split; [done|]. by exists h.
    + rewrite compute_run by done. mon. rewrite (set_result_run _ _ _ _ _ Hb1 Hi1). mon.
      rewrite (task_at_with _ _ _ _ Hi1). erewrite set_task_run by done. mon. rewrite with_task_twice.
      split.
      * etrans; [exact R1|].
        eapply (task_rel_with_task w1 w1); [done|done|by intros Hm|done|by apply task_step_completed|by left].
      * exists (completed (command_value kind arg0) s), n. split; [by rewrite Eb1|].
        right. exists rid, t. split_and!; try done. by left.
Qed.
End start.

Lemma evolve_new_task b i kind arg0 rights subj :
  b_next_task_id b ≠ 0 → b_next_task_id b ≠ UINT64_MAX →
  evolve b (with_new_task i (new_task b kind arg0 rights subj) b).
Proof.
  intros H0 HM. apply evolve_ok; [same_shape|]. intros Hok. apply evolve_create_task.
  pose proof (to_next _ _ (bo_tasks _ Hok)). split_and!; try done; [by left|lia..].
Qed.

Lemma quota_new_task b i s0 kind arg0 rights subj :
  b_tasks b !! i = Some s0 → ts_active s0 = false → task_admitted b kind subj i →
  quota_ok b → quota_ok (with_new_task i (new_task b kind arg0 rights subj) b).
Proof.
  intros Hi Hs0 Had [Q1 Q2]. split.
  - pose proof (ta_sleeps _ _ _ _ Had) as Hsl. unfold llam_broker_long_sleep_task_count_locked in *.
    cbn [with_new_task b_tasks set_b_tasks]. rewrite (count_if_insert _ _ _ _ _ Hi).
    assert (pending_sleep s0 = false) as -> by (unfold pending_sleep; by rewrite Hs0).
    assert (pending_sleep (new_task b kind arg0 rights subj)
      = (kind =? LLAM_BROKER_TASK_KIND_SLEEP_NS_RETURN_U64)) as ->.
    { unfold pending_sleep. cbn [new_task ts_active ts_kind ts_state andb].
      rewrite bool_decide_true by done. apply andb_true_r. }
    destruct (Z.eqb_spec kind LLAM_BROKER_TASK_KIND_SLEEP_NS_RETURN_U64) as [E|]; cbn [Z.b2z]; [|lia].
    specialize (Hsl E). lia.
  - intros x. pose proof (ta_subject _ _ _ _ Had) as Hsu. specialize (Q2 x).
    unfold llam_broker_subject_task_count_locked in *.
    destruct (Z.eqb_spec x 0) as [_|Hx]; [done|]. cbn [with_new_task b_tasks set_b_tasks].
    rewrite (count_if_insert _ _ _ _ _ Hi). rewrite Hs0. cbn [new_task ts_active ts_subject_id andb].
    destruct (Z.eqb_spec subj x) as [E|]; cbn [Z.b2z]; [|lia]. subst subj.
    specialize (Hsu Hx). rewrite (proj2 (Z.eqb_neq x 0)) in Hsu by done. lia.
Qed.

(** Reserving a slot. *)
Lemma rel_reserved w b kind arg0 rights i :
  w_broker w = Some b → task_admitted b kind (cur_subject w) i →
  task_rel w (set_w_broker (Some (with_new_task i (new_task b kind arg0 rights (cur_subject w)) b)) w).
Proof.
  intros Hb Had. pose proof Had as [(s&Hi&Hs) _ _ [H0 HM]]. split; [split|].
  - eapply step_evolve; [done|done|done|]. by apply evolve_new_task.
  - intros _ Hq b' [= <-]. eapply quota_new_task; [done..|]. by apply Hq.
  - intros _ [[K1 K2] K3]. specialize (K3 b Hb). split.
    + split; [split; [done|]|]; intros b' [= <-]; [exact (K2 b Hb)|]. cbn.
      apply Forall_insert; [done|by left].
    + intros h _. unfold unowned, owned. mon. rewrite Hb. cbn [res_owned task_handles b_tasks with_new_task set_b_tasks].
      rewrite (count_if_insert _ _ _ _ _ Hi).
      destruct (proj1 (Forall_lookup _ _) K3 i s Hi) as [|Ht]; [congruence|].
      rewrite Ht. cbn [ts_task new_task]. rewrite is_handle_0. cbn [Z.b2z]. lia.
Qed.

(** What the body of a spawn did. *)
Lemma spawn_body_cases kind arg0 rights w b :
  w_broker w = Some b → live_broker b → world_ok w →
  let r := spawn_task_body kind arg0 rights (Some zero_token) w in
  task_rel w r.2 ∧ pres task_rel r.1 ∧
  ((exits (λ x, x = (-1, Some zero_token)) r.1 ∧ same_core w r.2)
   ∨ ∃ x i s' n, r.1 = mret x ∧ task_admitted b kind (cur_subject w) i ∧
       w_broker r.2 = Some (set_b_active_ops n (with_new_task i s' b)) ∧
       started w b (new_task b kind arg0 rights (cur_subject w)) kind arg0 (b_next_task_id b) rights x s').
Proof.
  intros Hb Hl Hok. cbn zeta. unfold spawn_task_body. mon.
  destruct (reserve_cases kind arg0 rights w b Hb Hl) as [(rep&e&->&Hrep)|(i&Had&->)]; mon.
  - split; [apply task_rel_silent; [done|by intros Hm]|].
    assert (pres silent rep ∧ pres lock_kept rep) as [P1 P2]
      by (destruct Hrep as [->| ->]; split; auto with llam_quiet; apply pres_ret, _).
    split; [apply pres_bind; [apply _|by apply pres_rel_silent|intros []; apply rel_ret]|].
    left. split; [|done]. intros x. mon. specialize (P1 x). destruct (rep x) as [[] x']. split; [apply P1|done].
  - pose proof (rel_reserved w b kind arg0 rights i Hb Had) as R1.
    set (s := new_task b kind arg0 rights (cur_subject w)) in *.
    set (w1 := set_w_broker _ w) in *. set (b1 := with_new_task i s b) in *.
    assert (b_tasks b1 !! i = Some s) as Hi1.
    { destruct Had as [(s0&Hi&_) _ _ _]. cbn. apply list_lookup_insert_eq. by eapply lookup_lt_Some. }
    assert (world_ok w1) as Hok1 by (eapply step_world_ok; [apply R1|done]).
    destruct (start_cases w1 b1 i s Hok1 eq_refl Hi1 eq_refl eq_refl eq_refl kind arg0 rights (b_next_task_id b))
      as (R2&s'&n&Hb2&Hst).
    destruct (start_task kind arg0 rights i (b_next_task_id b) (Some zero_token) w1) as [x w2]. mon.
    split; [by etrans|]. split; [apply rel_ret|]. right. exists x, i, s', n. split_and!; [done|done| |].
    + rewrite Hb2. unfold b1, with_new_task, with_task. cbn. by rewrite list_insert_insert_eq.
    + destruct Hst as [[-> Hs']|(rid&t&->&Hrid&Htok&Hs')].
      * left. split; [done|]. destruct Hs' as [->|[-> Hn]]; [by left|right]. split; [done|].
        intros Hr. apply Hn. by apply R1.
      * right. exists rid, t. split_and!; try done.
        assert (cur_subject w1 = cur_subject w) as E; [|by rewrite E in Htok].
        unfold cur_subject. change (w_broker w1) with (Some b1). by rewrite Hb.
Qed.

Lemma rel_spawn_task kind arg0 rights out : pres task_rel (llam_broker_spawn_task kind arg0 rights out).
Proof.
  intros w. unfold llam_broker_spawn_task. mon.
  assert (∀ e (x : Z * option capability_token), task_rel w (((set_errno e ;; mret x) : M _) w).2) as Hf
    by (intros; apply rel_fail_with).
  destruct (is_null (w_broker w) || _ || _) eqn:E; mon; [apply (Hf EINVAL (0, None))|]. bools.
  destruct out as [old|]; [|done]. mon.
  destruct (validate_rights_cases LLAM_BROKER_CAP_FAMILY_TASK rights w) as [[-> _]|(e&->&_)]; mon;
    [|apply (Hf e (0, None))].
  destruct (llam_broker_task_kind_valid kind); mon; [|apply (Hf EINVAL (0, None))].
  branch; mon; [apply (Hf EINVAL (0, None))|].
  match goal with |- context [with_op ?f ?k w] =>
    assert (pres task_rel (with_op f k)) as S2; [|exact (S2 w)] end.
  apply rel_with_op_live; [intros e; apply rel_ret|]. intros w1 b1 Hb1 Hl Hok.
  by destruct (spawn_body_cases kind arg0 rights w1 b1 Hb1 Hl Hok) as (R1&R2&_).
Qed.

(** ** Task operations as seen by their caller *)

Section tasks.
Context (w : world) (b : broker).
Context (Hok : world_ok w) (Hb : w_broker w = Some b).

(** A spawn that returned a token left the new task in a slot: finished, or
    running as a runtime task. *)
Lemma spawn_cases kind arg0 rights old t :
  (llam_broker_spawn_task kind arg0 rights (Some old) w).1 = (0, Some t) →
  ∃ i s n rid, task_admitted b kind (cur_subject w) i ∧
    w_broker (llam_broker_spawn_task kind arg0 rights (Some old) w).2
    = Some (set_b_active_ops n (with_new_task i s b)) ∧
    b_runtime b = Some rid ∧
    token_for (b_capability_key b) (CapObject rid LLAM_BROKER_CAP_FAMILY_TASK (b_next_task_id b) 1
      (b_revocation_epoch b) (cur_subject w)) rights t ∧
    let s0 := new_task b kind arg0 rights (cur_subject w) in
    (kind ≠ LLAM_BROKER_TASK_KIND_SLEEP_NS_RETURN_U64 ∧ s = completed (command_value kind arg0) s0
     ∨ kind = LLAM_BROKER_TASK_KIND_SLEEP_NS_RETURN_U64 ∧ ∃ h, h ≠ 0 ∧ s = set_ts_task h s0).
Proof.
  unfold llam_broker_spawn_task. mon. rewrite Hb. mon.
  branch; mon; [done|]. bools.
  destruct (validate_rights_cases LLAM_BROKER_CAP_FAMILY_TASK rights w) as [[-> _]|(e&->&_)]; mon; [|done].
  branch; mon; [done|]. branch; mon; [done|].
  match goal with |- context [with_op ?f ?k w] => destruct (with_op_spec f k w Hok)
    as [(e&w'&Ho&_&->)|(w1&b1&w3&Hb1&Hl&Ho&Hok1&Hs&->&Ho3&_)] end; [done|].
  destruct (spawn_body_cases kind arg0 rights w1 b1 Hb1 Hl Hok1) as (_&_&[[Hx _]|(x&i&s'&n&Hx&Had&Hb2&Hst)]).
  { intros E. destruct (Hx w3) as [_ Hv]. rewrite Hv in E. done. }
  rewrite Hx. mon. intros ->. destruct Hst as [[? _]|(rid&t'&[= <-]&Hrid&Htok&Hs')]; [done|].
  pose proof (same_objs_broker _ _ _ _ Ho Hb Hb1) as Eb1. set (m := b_active_ops b1) in Eb1.
  rewrite Hs in *. destruct (w_broker w3) as [b3|] eqn:Hb3.
  2: { destruct Ho3 as [Ho3 _]. by rewrite Hb2, Hb3 in Ho3. }
  pose proof (same_objs_broker _ _ _ _ Ho3 Hb2 Hb3) as Eb3. exists i, s', (b_active_ops b3), rid.
  rewrite Eb1 in *. split_and!; try done.
  - destruct Had as [A1 A2 A3 A4]. by split.
  - f_equal. rewrite Eb3. done.
Qed.

Lemma join_cases token old :
  let r := llam_broker_join_task token (Some old) w in
  (r.1 = (-1, Some 0) ∧ same_objs w r.2)
  ∨ ∃ i t s b', found_task w token LLAM_CAP_RIGHT_JOIN i b t s ∧ ts_state s = TASK_STATE_COMPLETED ∧
      w_broker r.2 = Some b' ∧ b' = set_b_active_ops (b_active_ops b') (with_task i zero_task_slot b) ∧
      (r.1 = (0, Some (ts_result0 s)) ∧ ts_error_code s = 0
       ∨ r.1 = (-1, Some 0) ∧ (ts_error_code s ≠ 0 ∨ ts_task s ≠ 0)).
Proof.
  cbn zeta. unfold llam_broker_join_task. mon.
  match goal with |- context [with_op ?f ?k w] => destruct (with_op_spec f k w Hok)
    as [(e&w'&Ho&_&->)|(w1&b1&w3&Hb1&Hl&Ho&Hok1&Hs&->&Ho3&_)] end; [by left|].
  destruct (join_body_cases token w1) as [(e&E)|[(i&b'&t&s&F&Hst&E)|[(i&b'&t&s&F&Hst&Hst'&E)
    |(i&b'&t&s&w2&F&Hst&C&K&Ew&Hr&_)]]]; try (rewrite E in *; mon; left; split; [done|]; by etrans).
  right. rewrite Ew in Ho3. destruct Ho3 as [Ho3 Hr3]. destruct (w_broker w3) as [b3|] eqn:Hb3; [|done].
  apply (inj Some) in Ho3. apply active_ops_only in Ho3.
  pose proof (same_objs_broker _ _ _ _ Ho Hb (fo_broker _ _ _ _ _ _ _ _ _ F)) as Eb.
  exists i, t, s, b3. split; [by eapply found_outer|]. split; [done|].
  destruct Hr as [[-> ?]|[-> ?]]; mon; (split; [done|]); (split; [rewrite Ho3 at 1; by rewrite Eb|]); auto.
Qed.
End tasks.

(** A join returns 0 only through JOIN authority over a finished task whose
    command succeeded; it returns that command's result, and the task is gone:
    its slot is free and no token authorizes anything on it any more.  A failed
    join publishes 0, and changes no object unless the task had finished. *)
Theorem join_task_sound w b token old rc res w' :
  world_ok w → w_broker w = Some b → broker_ok b →
  llam_broker_join_task token (Some old) w = (rc, res, w') →
  (rc = -1 ∧ res = Some 0 ∧ same_objs w w')
  ∨ ∃ i t s b', token = Some t ∧ authorized b (cur_subject w) t LLAM_CAP_RIGHT_JOIN ∧
      b_tasks b !! i = Some s ∧ slot_matches t s = true ∧ ts_state s = TASK_STATE_COMPLETED ∧
      w_broker w' = Some b' ∧
      b' = set_b_active_ops (b_active_ops b') (with_task i zero_task_slot b) ∧
      (∀ subj r, ¬ authorized b' subj t r) ∧
      (rc = 0 ∧ res = Some (ts_result0 s) ∧ ts_error_code s = 0
       ∨ rc = -1 ∧ res = Some 0 ∧ (ts_error_code s ≠ 0 ∨ ts_task s ≠ 0)).
Proof.
  intros Hok Hb Hbok E. destruct (join_cases w b Hok Hb token old) as [[H1 H2]|(i&t&s&b'&F&Hst&Hb'&Eb'&Hr)];
    rewrite E in *; cbn [fst snd] in *; [injection H1 as -> ->; by left|right].
  exists i, t, s, b'. destruct F as [_ Ft Ff Fa Fs Fm _]. split_and!; try done.
  - intros subj r [_ _ Al]. rewrite Eb' in Al.
    rewrite live_in_active, (live_in_task _ _ _ Ff) in Al.
    change (slot_live t r (<[i := zero_task_slot]> (b_tasks b)) = true) in Al.
    apply slot_live_spec in Al as (k&x&Hk&Hx&_).
    apply list_lookup_insert_Some in Hk as [(_&<-&_)|[Hne Hk]]; [done|].
    apply slot_matches_spec in Hx as (X1&X2&_). apply slot_matches_spec in Fm as (M1&M2&_).
    apply Hne. eapply (to_unique _ _ (bo_tasks _ Hbok)); try done. congruence.
  - destruct Hr as [[[= -> ->] ?]|[[= -> ->] ?]]; auto.
Qed.

(** The number of bits set in a 64-bit word. *)
Definition bits_set (v : Z) : Z := count_if (λ i, Z.testbit v (Z.of_nat i)) (seq 0 64).

Lemma popcount_loop_bits n v c :
  0 <= v < 2 ^ Z.of_nat n →
  popcount_loop n v c = c + count_if (λ i, Z.testbit v (Z.of_nat i)) (seq 0 n).
Proof.
  revert v c. induction n as [|n IH]; intros v c Hv; cbn [popcount_loop seq count_if]; [lia|].
  assert (∀ l, count_if (λ i, Z.testbit v (Z.of_nat i)) (map S l)
    = count_if (λ i, Z.testbit (Z.shiftr v 1) (Z.of_nat i)) l) as Hsh.
  { induction l as [|i l IHl]; [done|]. cbn [map count_if]. rewrite IHl. do 2 f_equal.
    rewrite Z.shiftr_spec by lia. f_equal. lia. }
  destruct (Z.eqb_spec v 0) as [->|Hne].
  - rewrite (count_if_none _ (seq 1 n)); [rewrite Z.testbit_0_l; cbn; lia|]. intros k x _. by rewrite Z.testbit_0_l.
  - rewrite <- seq_shift, Hsh, IH.
    + assert (Z.land v 1 = Z.b2z (Z.testbit v 0)) as ->; [|change (Z.of_nat 0) with 0; lia].
      rewrite Z.bit0_mod. apply (Z.land_ones v 1). lia.
    + rewrite Z.shiftr_div_pow2 by lia. change (2 ^ 1) with 2. split; [apply Z.div_pos; lia|].
      apply Z.div_lt_upper_bound; [lia|]. rewrite Nat2Z.inj_succ, Z.pow_succ_r in Hv; lia.
Qed.

Lemma popcount_bits v : is_u64 v → llam_broker_popcount_u64 v = bits_set v.
Proof. intros Hv. unfold llam_broker_popcount_u64. rewrite popcount_loop_bits; [done|]. exact Hv. Qed.

(** An admitted join through an authorized token of a finished short command. *)
Lemma join_runs w b i t s o :
  world_ok w → admits w b → broker_ok b → tok_family t = LLAM_BROKER_CAP_FAMILY_TASK →
  authorized b (cur_subject w) t LLAM_CAP_RIGHT_JOIN → b_tasks b !! i = Some s →
  slot_matches t s = true → ts_state s = TASK_STATE_COMPLETED → ts_task s = 0 →
  (llam_broker_join_task (Some t) (Some o) w).1
  = if ts_error_code s =? 0 then (0, Some (ts_result0 s)) else (-1, Some 0).
Proof.
  intros Hok Had Hbok Hf Ha Hi Hm Hst Ht. unfold llam_broker_join_task. mon.
  match goal with |- context [with_op ?f ?k w] =>
    destruct (with_op_runs f k w b Hok Had) as (w1&w3&Hb1&_&_&Hok1&Hs1&->&_) end.
  destruct (find_object_complete LLAM_BROKER_CAP_FAMILY_TASK b_tasks
    (set_b_active_ops (b_active_ops b + 1) b) t LLAM_CAP_RIGHT_JOIN w1 (b_next_task_id b))
    as (j&s'&Hfind&F); [by apply live_in_task|apply Hbok|done|apply Had|done| |].
  { by rewrite authorized_active, Hs1. }
  destruct F as [_ _ _ _ Fs Fm _]. assert (j = i) as ->.
  { apply slot_matches_spec in Fm as (M1&M2&_). apply slot_matches_spec in Hm as (N1&N2&_).
    eapply (to_unique _ _ (bo_tasks _ Hbok)); [exact Fs|exact Hi|done|done|congruence]. }
  unfold join_task_body, llam_broker_find_task. mon. rewrite Hfind. mon. rewrite Hb1. mon.
  rewrite (task_at_lookup _ _ s) by done. rewrite Hst. rewrite bool_decide_false, bool_decide_true by done. mon.
  unfold llam_broker_task_slot_reset. rewrite (set_task_run _ _ _ _ Hb1). mon. rewrite Ht. mon.
  by destruct (ts_error_code s =? 0).
Qed.

(** A command spawned through the broker can be joined through the token the
    spawn returned, in any later state with the same objects in which the same
    subject's call is admitted, and delivers the value of the command: the
    argument, the argument plus one modulo 2^64, or the number of its set bits. *)
Theorem spawn_join_roundtrip w b kind arg0 rights old t w' :
  world_ok w → w_broker w = Some b → broker_ok b → is_u64 arg0 →
  has_bits rights LLAM_CAP_RIGHT_JOIN = true →
  llam_broker_spawn_task kind arg0 rights (Some old) w = (0, Some t, w') →
  ∀ w2 b2 o, world_ok w2 → admits w2 b2 → broker_ok b2 → same_objs w' w2 →
    cur_subject w2 = cur_subject w →
    (kind = LLAM_BROKER_TASK_KIND_RETURN_U64 →
       (llam_broker_join_task (Some t) (Some o) w2).1 = (0, Some arg0)) ∧
    (kind = LLAM_BROKER_TASK_KIND_INCREMENT_U64 →
       (llam_broker_join_task (Some t) (Some o) w2).1 = (0, Some ((arg0 + 1) mod 2 ^ 64))) ∧
    (kind = LLAM_BROKER_TASK_KIND_POPCOUNT_U64 →
       (llam_broker_join_task (Some t) (Some o) w2).1 = (0, Some (bits_set arg0))).
Proof.
  intros Hok Hb Hbok Ha Hj E w2 b2 o Hok2 Had2 Hbok2 Ho2 Hs2.
  destruct (spawn_cases w b Hok Hb kind arg0 rights old t) as (i&s&n&rid&Had&Hb'&Hrid&Htok&Hs);
    [by rewrite E|]. rewrite E in Hb'. cbn [snd] in Hb'.
  pose proof (same_objs_broker _ _ _ _ Ho2 Hb' (ad_broker _ _ Had2)) as Eb2. set (m := b_active_ops b2) in Eb2.
  assert (kind ≠ LLAM_BROKER_TASK_KIND_SLEEP_NS_RETURN_U64 →
    (llam_broker_join_task (Some t) (Some o) w2).1
    = (if (command_value kind arg0).2 =? 0 then (0, Some (command_value kind arg0).1) else (-1, Some 0))) as G.
  2: { split_and!; intros Hk; rewrite G by (by rewrite Hk); rewrite Hk; try done.
       change (command_value LLAM_BROKER_TASK_KIND_POPCOUNT_U64 arg0) with (llam_broker_popcount_u64 arg0, 0).
       by rewrite popcount_bits. }
  intros Hk. destruct Hs as [[_ Hs]|[? _]]; [|done].
  destruct Had as [(s0&Hi0&_) _ _ _]. pose proof (lookup_lt_Some _ _ _ Hi0) as Hlt.
  destruct Htok as [T1 T2 T3 T4 T5 T6 T7 T8]. cbn in T1, T2, T3, T4, T6, T7, T8.
  assert (b_tasks b2 !! i = Some s) as Hi2.
  { rewrite Eb2. cbn. by apply list_lookup_insert_eq. }
  assert (slot_matches t s = true) as Hm.
  { apply slot_matches_spec. rewrite Hs. by cbn. }
  rewrite (join_runs w2 b2 i t s o); [by rewrite Hs|done|done|done|done| |done|done|by rewrite Hs..].
  split.
  - rewrite Eb2, Hs2. by apply T8.
  - rewrite Eb2, T2. done.
  - rewrite (live_in_task _ _ _ T1). apply slot_live_spec. exists i, s. split_and!; [done|done|]. by rewrite Hs.
Qed.

(** Task handles are conserved: while the broker lock works, every operation
    on tasks, every run of the runtime and the teardown keep, for each handle,
    the number of times it was spawned minus joined or detached equal to the
    number of slots that store it, up to what callers held before.  So each
    runtime task is joined or detached exactly once. *)
Theorem task_handles_conserved w :
  world_ok w → ready w →
  let keep w' := ready w' ∧ ledger task_handles w w' in
  (∀ kind arg0 rights out, keep (llam_broker_spawn_task kind arg0 rights out w).2) ∧
  (∀ token out, keep (llam_broker_join_task token out w).2) ∧
  (∀ token, keep (llam_broker_detach_task token w).2) ∧
  (∀ subj, keep (llam_broker_reclaim_subject_tasks subj w).2) ∧
  keep (llam_runtime_run_handle w).2 ∧ keep (llam_broker_clear_tasks w).2.
Proof.
  intros Hok Hr keep. split_and!.
  - intros. by apply rel_spawn_task.
  - intros. by apply rel_join_task.
  - intros. by apply rel_detach_task.
  - intros. by apply rel_reclaim_tasks.
  - by apply rel_run_handle.
  - by apply rel_clear_tasks.
Qed.

(** The task quotas are invariants: starting from a broker with at most 16
    unfinished sleeps and at most 16 live tasks per subject, no operation on
    tasks and no run of the runtime exceeds them. *)
Theorem task_quotas_invariant w :
  world_ok w → quota w →
  (∀ kind arg0 rights out, quota (llam_broker_spawn_task kind arg0 rights out w).2) ∧
  (∀ token out, quota (llam_broker_join_task token out w).2) ∧
  (∀ token, quota (llam_broker_detach_task token w).2) ∧
  (∀ subj, quota (llam_broker_reclaim_subject_tasks subj w).2) ∧
  quota (llam_runtime_run_handle w).2.
Proof.
  intros Hok Hq. split_and!.
  - intros. by apply rel_spawn_task.
  - intros. by apply rel_join_task.
  - intros. by apply rel_detach_task.
  - intros. by apply rel_reclaim_tasks.
  - by apply rel_run_handle.
Qed.

(** ** A concrete task *)

Abbreviation spawned :=
  (llam_broker_spawn_task LLAM_BROKER_TASK_KIND_POPCOUNT_U64 255 LLAM_CAP_RIGHT_JOIN
     (Some zero_token) example_world).

(** The example world after spawning a command that counts the bits of 255. *)
Definition spawned_world : world := spawned.2.
Definition spawned_token : capability_token := default zero_token spawned.1.2.

Lemma token_result (r : Z * option capability_token * world) :
  r.1.1 = 0 → is_null r.1.2 = false → r = (0, Some (default zero_token r.1.2), r.2).
Proof. destruct r as [[rc [t|]] w]; cbn; [by intros -> _|done]. Qed.

Lemma spawned_run : spawned = (0, Some spawned_token, spawned_world).
Proof. apply token_result; vm_compute; reflexivity. Qed.

Lemma spawned_step : step example_world spawned_world.
Proof. exact (proj1 (proj1 (rel_spawn_task _ _ _ _ example_world))). Qed.

Lemma spawned_world_ok : world_ok spawned_world.
Proof. apply (step_world_ok _ _ spawned_step), example_world_ok. Qed.

Lemma spawned_broker : ∃ b, w_broker spawned_world = Some b ∧ broker_ok b.
Proof.
  destruct (spawned_step example_world_ok) as [_ H].
  destruct (H example_broker eq_refl) as (b&Hb&_&He). exists b. split; [exact Hb|].
  apply He, example_broker_ok.
Qed.

Lemma spawned_admits : ∃ b, admits spawned_world b ∧ broker_ok b.
Proof.
  destruct spawned_broker as (b&Hb&Hok). exists b. split; [|done].
  assert (∀ {A} (f : broker → A) a, f <$> w_broker spawned_world = Some a → f b = a) as G
    by (intros A f a; rewrite Hb; by intros [= ->]).
  split; [done| | | | |].
  - split; [|exists 7|]; apply G; vm_compute; reflexivity.
  - apply G. vm_compute. reflexivity.
  - rewrite (G _ b_active_ops 0); [done|vm_compute; reflexivity].
  - vm_compute. reflexivity.
  - rewrite (G _ (λ b, tls_scan (b_addr b) 0 None (w_tls spawned_world)) (TlsEmpty 0)); [done|].
    vm_compute. reflexivity.
Qed.

Lemma spawn_join_roundtrip_witness :
  (llam_broker_join_task (Some spawned_token) (Some 7) spawned_world).1 = (0, Some (bits_set 255)).
Proof.
  destruct spawned_admits as (b&Had&Hbok).
  apply (spawn_join_roundtrip example_world example_broker LLAM_BROKER_TASK_KIND_POPCOUNT_U64 255
    LLAM_CAP_RIGHT_JOIN zero_token spawned_token spawned_world example_world_ok eq_refl
    example_broker_ok (is_u64_b 255 eq_refl) eq_refl spawned_run spawned_world b 7 spawned_world_ok
    Had Hbok (reflexivity _)); vm_compute; reflexivity.
Defined.

Lemma join_task_sound_witness :
  (llam_broker_join_task (Some spawned_token) (Some 7) spawned_world).1 = (0, Some 8).
Proof.
  destruct spawned_broker as (b&Hb&Hbok).
  assert ((llam_broker_join_task (Some spawned_token) (Some 7) spawned_world).1 = (0, Some 8))
    as E0 by (vm_compute; reflexivity).
  destruct (llam_broker_join_task (Some spawned_token) (Some 7) spawned_world) as [[rc res] w'] eqn:E.
  pose proof (join_task_sound spawned_world b (Some spawned_token) 7 rc res w' spawned_world_ok Hb
    Hbok E) as H. clear E. cbn in E0. injection E0 as -> ->.
  destruct H as [[? _]|(i&t&s&b'&_&_&_&_&_&_&_&_&[(_&Hr&_)|[? _]])]; [done| |done]. reflexivity.
Defined.

Lemma example_ready : ready example_world.
Proof.
  split; [split; [reflexivity|by intros b [= <-]]|]. intros b [= <-]. apply Forall_lookup.
  intros i s Hs. change (replicate LLAM_BROKER_TASK_SLOTS zero_task_slot !! i = Some s) in Hs.
  apply lookup_replicate in Hs as [-> _]. by right.
Qed.

Lemma task_handles_conserved_witness : ready spawned_world ∧ ledger task_handles example_world spawned_world.
Proof.
  exact (proj1 (task_handles_conserved example_world example_world_ok example_ready)
    LLAM_BROKER_TASK_KIND_POPCOUNT_U64 255 LLAM_CAP_RIGHT_JOIN (Some zero_token)).
Defined.

Lemma example_quota : quota example_world.
Proof.
  intros b [= <-]. split; [done|]. intros subj. unfold llam_broker_subject_task_count_locked.
  destruct (subj =? 0); [done|]. change (b_tasks example_broker) with (replicate LLAM_BROKER_TASK_SLOTS zero_task_slot).
  rewrite count_if_replicate by done. done.
Qed.

Lemma task_quotas_invariant_witness : quota spawned_world.
Proof.
  exact (proj1 (task_quotas_invariant example_world example_world_ok example_quota)
    LLAM_BROKER_TASK_KIND_POPCOUNT_U64 255 LLAM_CAP_RIGHT_JOIN (Some zero_token)).
Defined.
