(* ===== verification/Ring.v ===== *)
(** * Shared broker rings

    The queue, statistics and buffer-grant operations of
    [src/core/broker/ring/broker_ring_queue.c], [broker_ring_stats.c] and
    [broker_ring_buffer_grant.c] on the [llam_broker_ring_t] of
    [src/internal/runtime_broker_ring.h].

    A ring lives in memory both sides map, so every access is preceded by a
    step of the other side: the next function of the tape [os_client], applied
    to the whole structure.  Theorems about a hostile peer quantify over every
    tape; the queue theorem assumes only what the single-producer
    single-consumer discipline lets the peer do (it moves its own cursor and
    leaves the pending entries alone) and shows first-in first-out delivery
    under every interleaving at the granularity of single accesses. *)

From S2P Require Import Prelude World Capability BrokerOps BrokerCore.

(** ** Access to shared memory *)

Definition LLAM_BROKER_RING_STAT_COUNT : nat := 8.

Definition shaped_submission (s : ring_submission) : ring_submission :=
  RingSubmission (u64 (sub_request_id s)) (u32 (sub_op s)) (u64 (sub_arg0 s)) (u64 (sub_arg1 s))
    (u64 (sub_arg2 s)) (sub_token s).

(** Whatever a peer stores, the fields keep their widths and the arrays their
    extents. *)
Definition shaped (r : broker_ring) : broker_ring :=
  BrokerRing (u32 (ring_magic r)) (u32 (ring_version r)) (u32 (ring_capacity r))
    (u64 (ring_submit_head r)) (u64 (ring_submit_tail r))
    (u64 (ring_complete_head r)) (u64 (ring_complete_tail r))
    (resize LLAM_BROKER_RING_STAT_COUNT 0 (ring_client_stats r))
    (resize LLAM_BROKER_RING_STAT_COUNT 0 (ring_broker_stats r))
    (resize (Z.to_nat LLAM_BROKER_RING_CAP) zero_submission (shaped_submission <$> ring_submissions r))
    (resize (Z.to_nat LLAM_BROKER_RING_CAP) zero_completion (ring_completions r))
    (resize (Z.to_nat LLAM_BROKER_RING_DATA_BYTES) 0 (ring_data r)).

Definition upd_ring (ring : Z) (f : broker_ring → broker_ring) : M unit :=
  modify (λ w, set_w_rings (alter f ring (w_rings w)) w).

(** One step of the other side of the mapping. *)
Definition client_step (ring : Z) : M unit :=
  λ w, match os_client (w_os w) with
       | [] => (tt, w)
       | f :: rest =>
           upd_ring ring (λ r, shaped (f r)) (set_w_os (set_os_client rest (w_os w)) w)
       end.

Definition load_ring (ring : Z) : M (option broker_ring) :=
  client_step ring ;; gets (λ w, w_rings w !! ring).

Definition store_ring (ring : Z) (f : broker_ring → broker_ring) : M unit :=
  client_step ring ;; upd_ring ring f.

(** [atomic_load] of one field. *)
Definition ring_load {A} (ring : Z) (field : broker_ring → A) (dflt : A) : M A :=
  r ← load_ring ring; mret (default dflt (field <$> r)).

(** ** [runtime_broker_ring.h] *)

Definition ring_magic_ok (r : broker_ring) : bool :=
  (ring_magic r =? LLAM_BROKER_RING_MAGIC) && (ring_version r =? LLAM_BROKER_RING_VERSION)
  && (ring_capacity r =? LLAM_BROKER_RING_CAP).

(** An address that is not mapped is the NULL pointer. *)
Definition llam_broker_ring_valid (ring : Z) : M bool :=
  ring_load ring ring_magic_ok false.

Definition llam_broker_ring_window_valid (head tail : Z) : bool :=
  (head <=? tail) && (tail - head <=? LLAM_BROKER_RING_CAP).

(** Counters, by their index in the shared arrays. *)
Inductive llam_broker_ring_client_stat :=
  | LLAM_BROKER_RING_CLIENT_STAT_SUBMIT_PUSHES
  | LLAM_BROKER_RING_CLIENT_STAT_SUBMIT_FULL
  | LLAM_BROKER_RING_CLIENT_STAT_SUBMIT_TAIL_PUBLISHES
  | LLAM_BROKER_RING_CLIENT_STAT_COMPLETE_DRAIN_CALLS
  | LLAM_BROKER_RING_CLIENT_STAT_COMPLETE_DRAIN_ENTRIES
  | LLAM_BROKER_RING_CLIENT_STAT_COMPLETE_EMPTY
  | LLAM_BROKER_RING_CLIENT_STAT_COMPLETE_HEAD_PUBLISHES
  | LLAM_BROKER_RING_CLIENT_STAT_COMPLETE_BATCH_MAX.

Definition client_stat_index (x : llam_broker_ring_client_stat) : nat :=
  match x with
  | LLAM_BROKER_RING_CLIENT_STAT_SUBMIT_PUSHES => 0%nat
  | LLAM_BROKER_RING_CLIENT_STAT_SUBMIT_FULL => 1%nat
  | LLAM_BROKER_RING_CLIENT_STAT_SUBMIT_TAIL_PUBLISHES => 2%nat
  | LLAM_BROKER_RING_CLIENT_STAT_COMPLETE_DRAIN_CALLS => 3%nat
  | LLAM_BROKER_RING_CLIENT_STAT_COMPLETE_DRAIN_ENTRIES => 4%nat
  | LLAM_BROKER_RING_CLIENT_STAT_COMPLETE_EMPTY => 5%nat
  | LLAM_BROKER_RING_CLIENT_STAT_COMPLETE_HEAD_PUBLISHES => 6%nat
  | LLAM_BROKER_RING_CLIENT_STAT_COMPLETE_BATCH_MAX => 7%nat
  end.
Coercion client_stat_index : llam_broker_ring_client_stat >-> nat.
Arguments client_stat_index : simpl never.

Inductive llam_broker_ring_broker_stat :=
  | LLAM_BROKER_RING_BROKER_STAT_SERVE_CALLS
  | LLAM_BROKER_RING_BROKER_STAT_SERVE_SUCCESS
  | LLAM_BROKER_RING_BROKER_STAT_SUBMIT_EMPTY
  | LLAM_BROKER_RING_BROKER_STAT_COMPLETE_FULL
  | LLAM_BROKER_RING_BROKER_STAT_SUBMIT_HEAD_PUBLISHES
  | LLAM_BROKER_RING_BROKER_STAT_COMPLETE_TAIL_PUBLISHES
  | LLAM_BROKER_RING_BROKER_STAT_SERVE_LATENCY_NS_TOTAL
  | LLAM_BROKER_RING_BROKER_STAT_SERVE_LATENCY_NS_MAX.

Definition broker_stat_index (x : llam_broker_ring_broker_stat) : nat :=
  match x with
  | LLAM_BROKER_RING_BROKER_STAT_SERVE_CALLS => 0%nat
  | LLAM_BROKER_RING_BROKER_STAT_SERVE_SUCCESS => 1%nat
  | LLAM_BROKER_RING_BROKER_STAT_SUBMIT_EMPTY => 2%nat
  | LLAM_BROKER_RING_BROKER_STAT_COMPLETE_FULL => 3%nat
  | LLAM_BROKER_RING_BROKER_STAT_SUBMIT_HEAD_PUBLISHES => 4%nat
  | LLAM_BROKER_RING_BROKER_STAT_COMPLETE_TAIL_PUBLISHES => 5%nat
  | LLAM_BROKER_RING_BROKER_STAT_SERVE_LATENCY_NS_TOTAL => 6%nat
  | LLAM_BROKER_RING_BROKER_STAT_SERVE_LATENCY_NS_MAX => 7%nat
  end.
Coercion broker_stat_index : llam_broker_ring_broker_stat >-> nat.
Arguments broker_stat_index : simpl never.

(** ** [broker_ring_stats.c] *)

Definition stat_add (stat : nat) (delta : Z) (values : list Z) : list Z :=
  <[stat := u64 (nth stat values 0 + delta)]> values.

(** The compare-exchange loop, as one atomic maximum. *)
Definition stat_max (stat : nat) (value : Z) (values : list Z) : list Z :=
  if nth stat values 0 <? value then <[stat := value]> values else values.

Definition llam_broker_ring_client_stat_add (ring : Z) (stat : nat) (delta : Z) : M unit :=
  store_ring ring (λ r, set_ring_client_stats (stat_add stat delta (ring_client_stats r)) r).

Definition llam_broker_ring_client_stat_max (ring : Z) (stat : nat) (value : Z) : M unit :=
  store_ring ring (λ r, set_ring_client_stats (stat_max stat value (ring_client_stats r)) r).

Definition llam_broker_ring_broker_stat_add (ring : Z) (stat : nat) (delta : Z) : M unit :=
  store_ring ring (λ r, set_ring_broker_stats (stat_add stat delta (ring_broker_stats r)) r).

Definition llam_broker_ring_broker_stat_max (ring : Z) (stat : nat) (value : Z) : M unit :=
  store_ring ring (λ r, set_ring_broker_stats (stat_max stat value (ring_broker_stats r)) r).

(** The first eight counters are the client's, the next eight the broker's, in
    the order of the enumerations. *)
Record ring_stats := RingStats {
  stats_client : list Z;
  stats_broker : list Z;
  stats_cursor_write_estimate : Z;
}.

Definition zero_ring_stats : ring_stats :=
  RingStats (replicate LLAM_BROKER_RING_STAT_COUNT 0) (replicate LLAM_BROKER_RING_STAT_COUNT 0) 0.

Fixpoint load_stats (ring : Z) (values : broker_ring → list Z) (i n : nat) : M (list Z) :=
  match n with
  | O => mret []
  | S n =>
      v ← ring_load ring (λ r, nth i (values r) 0) 0;
      vs ← load_stats ring values (S i) n;
      mret (v :: vs)
  end.

Definition llam_broker_ring_collect_stats (ring : Z) (out_stats : option ring_stats) :
    M (Z * option ring_stats) :=
  let cleared := (λ _, zero_ring_stats) <$> out_stats in
  ok ← llam_broker_ring_valid ring;
  if negb ok || is_null out_stats then rc ← fail EINVAL; mret (rc, cleared)
  else
    client ← load_stats ring ring_client_stats 0 LLAM_BROKER_RING_STAT_COUNT;
    broker ← load_stats ring ring_broker_stats 0 LLAM_BROKER_RING_STAT_COUNT;
    let estimate :=
      u64 (nth LLAM_BROKER_RING_CLIENT_STAT_SUBMIT_TAIL_PUBLISHES client 0
           + nth LLAM_BROKER_RING_CLIENT_STAT_COMPLETE_HEAD_PUBLISHES client 0
           + nth LLAM_BROKER_RING_BROKER_STAT_SUBMIT_HEAD_PUBLISHES broker 0
           + nth LLAM_BROKER_RING_BROKER_STAT_COMPLETE_TAIL_PUBLISHES broker 0) in
    mret (0, Some (RingStats client broker estimate)).

(** ** [broker_ring_queue.c] *)

Definition init_ring : broker_ring :=
  BrokerRing LLAM_BROKER_RING_MAGIC LLAM_BROKER_RING_VERSION LLAM_BROKER_RING_CAP 0 0 0 0
    (replicate LLAM_BROKER_RING_STAT_COUNT 0) (replicate LLAM_BROKER_RING_STAT_COUNT 0)
    (replicate (Z.to_nat LLAM_BROKER_RING_CAP) zero_submission)
    (replicate (Z.to_nat LLAM_BROKER_RING_CAP) zero_completion)
    (replicate (Z.to_nat LLAM_BROKER_RING_DATA_BYTES) 0).

(** The creator initialises a mapping before anyone else can reach it. *)
Definition llam_broker_ring_init (ring : Z) : M Z :=
  rings ← gets w_rings;
  match rings !! ring with
  | None => fail EINVAL
  | Some _ => upd_ring ring (λ _, init_ring) ;; mret 0
  end.

(** The index of cursor [c]: [c & LLAM_BROKER_RING_MASK]. *)
Definition ring_index (c : Z) : nat := Z.to_nat (Z.land c LLAM_BROKER_RING_MASK).

Definition submission_at (r : broker_ring) (c : Z) : ring_submission :=
  nth (ring_index c) (ring_submissions r) zero_submission.

Definition completion_at (r : broker_ring) (c : Z) : ring_completion :=
  nth (ring_index c) (ring_completions r) zero_completion.

Definition llam_broker_ring_submit_push (ring : Z) (entry : option ring_submission) : M Z :=
  ok ← llam_broker_ring_valid ring;
  match entry with
  | Some entry =>
      if negb ok then fail EINVAL
      else
        tail ← ring_load ring ring_submit_tail 0;
        head ← ring_load ring ring_submit_head 0;
        if negb (llam_broker_ring_window_valid head tail) then fail EINVAL
        else if LLAM_BROKER_RING_CAP <=? tail - head then
          llam_broker_ring_client_stat_add ring LLAM_BROKER_RING_CLIENT_STAT_SUBMIT_FULL 1 ;;
          fail EAGAIN
        else
          store_ring ring (λ r,
            set_ring_submissions (<[ring_index tail := entry]> (ring_submissions r)) r) ;;
          store_ring ring (set_ring_submit_tail (u64 (tail + 1))) ;;
          llam_broker_ring_client_stat_add ring LLAM_BROKER_RING_CLIENT_STAT_SUBMIT_PUSHES 1 ;;
          llam_broker_ring_client_stat_add ring LLAM_BROKER_RING_CLIENT_STAT_SUBMIT_TAIL_PUBLISHES 1 ;;
          mret 0
  | None => fail EINVAL
  end.

Definition llam_broker_ring_submit_pop (ring : Z) (out_entry : option ring_submission) :
    M (Z * option ring_submission) :=
  let cleared := (λ _, zero_submission) <$> out_entry in
  ok ← llam_broker_ring_valid ring;
  if negb ok || is_null out_entry then rc ← fail EINVAL; mret (rc, cleared)
  else
    head ← ring_load ring ring_submit_head 0;
    tail ← ring_load ring ring_submit_tail 0;
    if negb (llam_broker_ring_window_valid head tail) then rc ← fail EINVAL; mret (rc, cleared)
    else if head =? tail then rc ← fail EAGAIN; mret (rc, cleared)
    else
      entry ← ring_load ring (λ r, submission_at r head) zero_submission;
      store_ring ring (set_ring_submit_head (u64 (head + 1))) ;;
      mret (0, Some entry).

Definition llam_broker_ring_complete_push (ring : Z) (entry : option ring_completion) : M Z :=
  ok ← llam_broker_ring_valid ring;
  match entry with
  | Some entry =>
      if negb ok then fail EINVAL
      else
        tail ← ring_load ring ring_complete_tail 0;
        head ← ring_load ring ring_complete_head 0;
        if negb (llam_broker_ring_window_valid head tail) then fail EINVAL
        else if LLAM_BROKER_RING_CAP <=? tail - head then
          llam_broker_ring_broker_stat_add ring LLAM_BROKER_RING_BROKER_STAT_COMPLETE_FULL 1 ;;
          fail EAGAIN
        else
          store_ring ring (λ r,
            set_ring_completions (<[ring_index tail := entry]> (ring_completions r)) r) ;;
          store_ring ring (set_ring_complete_tail (u64 (tail + 1))) ;;
          llam_broker_ring_broker_stat_add ring LLAM_BROKER_RING_BROKER_STAT_COMPLETE_TAIL_PUBLISHES 1 ;;
          mret 0
  | None => fail EINVAL
  end.

Fixpoint copy_completions (ring head : Z) (i n : nat) : M (list ring_completion) :=
  match n with
  | O => mret []
  | S n =>
      c ← ring_load ring (λ r, completion_at r (u64 (head + Z.of_nat i))) zero_completion;
      cs ← copy_completions ring head (S i) n;
      mret (c :: cs)
  end.

(** [sizeof(llam_broker_ring_completion_t)] *)
Definition sizeof_completion : Z := 32.

(** The caller's array and count are returned with the status. *)
Definition llam_broker_ring_complete_drain (ring : Z) (out_entries : option (list ring_completion))
    (max_entries : Z) (out_count : option Z) : M (Z * option (list ring_completion) * option Z) :=
  let zeroed := (λ _, 0) <$> out_count in
  if negb (is_null out_entries) && (0 <? max_entries)
     && (UINT64_MAX / sizeof_completion <? max_entries) then
    rc ← fail EOVERFLOW;
    mret (rc, (λ l, <[0%nat := zero_completion]> l) <$> out_entries, zeroed)
  else
    let cleared := if 0 <? max_entries
      then (λ _, replicate (Z.to_nat max_entries) zero_completion) <$> out_entries else out_entries in
    ok ← llam_broker_ring_valid ring;
    if negb ok || is_null out_count || ((0 <? max_entries) && is_null out_entries) then
      rc ← fail EINVAL; mret (rc, cleared, zeroed)
    else if max_entries =? 0 then mret (0, cleared, zeroed)
    else
      llam_broker_ring_client_stat_add ring LLAM_BROKER_RING_CLIENT_STAT_COMPLETE_DRAIN_CALLS 1 ;;
      head ← ring_load ring ring_complete_head 0;
      tail ← ring_load ring ring_complete_tail 0;
      if negb (llam_broker_ring_window_valid head tail) then
        rc ← fail EINVAL; mret (rc, cleared, zeroed)
      else
        let available := tail - head in
        if available =? 0 then
          llam_broker_ring_client_stat_add ring LLAM_BROKER_RING_CLIENT_STAT_COMPLETE_EMPTY 1 ;;
          mret (0, cleared, zeroed)
        else
          let count := if available <? max_entries then available else max_entries in
          entries ← copy_completions ring head 0 (Z.to_nat count);
          store_ring ring (set_ring_complete_head (u64 (head + count))) ;;
          llam_broker_ring_client_stat_add ring LLAM_BROKER_RING_CLIENT_STAT_COMPLETE_DRAIN_ENTRIES count ;;
          llam_broker_ring_client_stat_add ring LLAM_BROKER_RING_CLIENT_STAT_COMPLETE_HEAD_PUBLISHES 1 ;;
          llam_broker_ring_client_stat_max ring LLAM_BROKER_RING_CLIENT_STAT_COMPLETE_BATCH_MAX count ;;
          mret (0, (λ l, entries ++ drop (Z.to_nat count) l) <$> cleared, Some count).

Definition llam_broker_ring_complete_pop (ring : Z) (out_entry : option ring_completion) :
    M (Z * option ring_completion) :=
  let cleared := (λ _, zero_completion) <$> out_entry in
  ok ← llam_broker_ring_valid ring;
  if negb ok || is_null out_entry then rc ← fail EINVAL; mret (rc, cleared)
  else
    r ← llam_broker_ring_complete_drain ring ((λ e, [e]) <$> cleared) 1 (Some 0);
    let entry := e ← r.1.2; head e in
    if negb (r.1.1 =? 0) then mret (-1, entry)
    else if default 0 r.2 =? 0 then rc ← fail EAGAIN; mret (rc, entry)
    else mret (0, entry).

(** ** [broker_ring_buffer_grant.c] *)

Record buffer_grant := BufferGrant {
  bg_grant_id : Z;
  bg_generation : Z;
  bg_offset : Z;
  bg_length : Z;
  bg_rights : Z;
  bg_revocation_epoch : Z;
}.

Definition llam_broker_buffer_grant_init (grant : option buffer_grant)
    (grant_id generation offset length rights revocation_epoch : Z) : M (Z * option buffer_grant) :=
  if is_null grant || (grant_id =? 0) || (generation =? 0) || (length =? 0) || (rights =? 0) then
    rc ← fail EINVAL; mret (rc, grant)
  else
    let end_ := u64 (offset + length) in
    if (end_ <? offset) || (LLAM_BROKER_BUFFER_MAX_BYTES <? end_) then
      rc ← fail EINVAL; mret (rc, grant)
    else
      rc ← llam_broker_validate_object_rights LLAM_BROKER_CAP_FAMILY_BUFFER rights;
      if negb (rc =? 0) then mret (-1, grant)
      else mret (0, Some (BufferGrant grant_id generation offset length rights revocation_epoch)).

Definition llam_broker_buffer_grant_validate (grant : option buffer_grant)
    (required_rights relative_offset length current_revocation_epoch : Z) : M Z :=
  match grant with
  | None => fail EINVAL
  | Some grant =>
      if (required_rights =? 0) || (length =? 0) then fail EINVAL
      else if negb (bg_revocation_epoch grant =? current_revocation_epoch)
              || negb (has_bits (bg_rights grant) required_rights) then fail EACCES
      else
        let end_ := u64 (relative_offset + length) in
        if (end_ <? relative_offset) || (bg_length grant <? end_) then fail EINVAL
        else mret 0
  end.
(** ** Shapes *)

Definition submission_wf (s : ring_submission) : Prop :=
  is_u64 (sub_request_id s) ∧ is_u32 (sub_op s) ∧
  is_u64 (sub_arg0 s) ∧ is_u64 (sub_arg1 s) ∧ is_u64 (sub_arg2 s).

(** The widths and extents of the C structure. *)
Record ring_wf (r : broker_ring) : Prop := {
  rw_submit_head : is_u64 (ring_submit_head r);
  rw_submit_tail : is_u64 (ring_submit_tail r);
  rw_complete_head : is_u64 (ring_complete_head r);
  rw_complete_tail : is_u64 (ring_complete_tail r);
  rw_client_stats : length (ring_client_stats r) = LLAM_BROKER_RING_STAT_COUNT;
  rw_broker_stats : length (ring_broker_stats r) = LLAM_BROKER_RING_STAT_COUNT;
  rw_submissions : length (ring_submissions r) = Z.to_nat LLAM_BROKER_RING_CAP;
  rw_completions : length (ring_completions r) = Z.to_nat LLAM_BROKER_RING_CAP;
  rw_data : length (ring_data r) = Z.to_nat LLAM_BROKER_RING_DATA_BYTES;
  rw_entries : Forall submission_wf (ring_submissions r);
}.

Lemma Forall_resize_same {A} (P : A → Prop) n x l : P x → Forall P l → Forall P (resize n x l).
Proof. intros Hx Hl. rewrite resize_spec. apply Forall_app_2; [by apply Forall_take|by apply Forall_replicate]. Qed.

Lemma shaped_submission_wf s : submission_wf (shaped_submission s).
Proof. split_and!; first [apply u64_range|apply u32_range]. Qed.

Lemma shaped_wf r : ring_wf (shaped r).
Proof.
  split; cbn [shaped ring_submit_head ring_submit_tail ring_complete_head ring_complete_tail
              ring_client_stats ring_broker_stats ring_submissions ring_completions ring_data];
    try apply u64_range; try apply length_resize.
  apply Forall_resize_same; [done|]. apply Forall_fmap, Forall_true, shaped_submission_wf.
Qed.

Lemma shaped_submission_id s : submission_wf s → shaped_submission s = s.
Proof. destruct s. intros (?&?&?&?&?). unfold shaped_submission. cbn in *. by rewrite !u64_small, u32_small. Qed.

Lemma submission_at_wf r c : ring_wf r → submission_wf (submission_at r c).
Proof.
  intros H. unfold submission_at. destruct (nth_in_or_default (ring_index c) (ring_submissions r) zero_submission)
    as [Hin| ->]; [|done]. eapply Forall_forall; [apply (rw_entries r H)|]. by apply list_elem_of_In.
Qed.

Lemma init_ring_wf : ring_wf init_ring.
Proof.
  split; cbn [init_ring ring_submit_head ring_submit_tail ring_complete_head ring_complete_tail
              ring_client_stats ring_broker_stats ring_submissions ring_completions ring_data];
    try done; try apply length_replicate.
  by apply Forall_replicate.
Qed.

(** ** Lanes

    The submission and the completion half of a ring are queues of the same
    form: a head the consumer moves, a tail the producer moves, and entries
    indexed by cursor. *)

Class Lane (T : Type) := {
  lane_head : broker_ring → Z;
  lane_tail : broker_ring → Z;
  lane_at : broker_ring → Z → T;
  lane_entry_ok : T → Prop;
  lane_put : Z → T → broker_ring → broker_ring;
  lane_set_head : Z → broker_ring → broker_ring;
  lane_set_tail : Z → broker_ring → broker_ring;
}.

(** Two rings with the same lane, of which the second has the first's shape. *)
Record same_lane `{Lane T} (r r' : broker_ring) : Prop := {
  sn_wf : ring_wf r → ring_wf r';
  sn_magic : ring_magic_ok r' = ring_magic_ok r;
  sn_head : lane_head r' = lane_head r;
  sn_tail : lane_tail r' = lane_tail r;
  sn_at : ∀ c, lane_at r' c = lane_at r c;
}.

Class LaneOk (T : Type) `{Lane T} : Prop := {
  put_wf : ∀ c e r, lane_entry_ok e → ring_wf r → ring_wf (lane_put c e r);
  put_magic : ∀ c e r, ring_magic_ok (lane_put c e r) = ring_magic_ok r;
  put_head : ∀ c e r, lane_head (lane_put c e r) = lane_head r;
  put_tail : ∀ c e r, lane_tail (lane_put c e r) = lane_tail r;
  put_at : ∀ c e r, ring_wf r → lane_at (lane_put c e r) c = e;
  put_at_ne : ∀ c e r c', ring_index c ≠ ring_index c' → lane_at (lane_put c e r) c' = lane_at r c';
  set_head_wf : ∀ v r, is_u64 v → ring_wf r → ring_wf (lane_set_head v r);
  set_head_magic : ∀ v r, ring_magic_ok (lane_set_head v r) = ring_magic_ok r;
  set_head_head : ∀ v r, lane_head (lane_set_head v r) = v;
  set_head_tail : ∀ v r, lane_tail (lane_set_head v r) = lane_tail r;
  set_head_at : ∀ v r c, lane_at (lane_set_head v r) c = lane_at r c;
  set_tail_wf : ∀ v r, is_u64 v → ring_wf r → ring_wf (lane_set_tail v r);
  set_tail_magic : ∀ v r, ring_magic_ok (lane_set_tail v r) = ring_magic_ok r;
  set_tail_head : ∀ v r, lane_head (lane_set_tail v r) = lane_head r;
  set_tail_tail : ∀ v r, lane_tail (lane_set_tail v r) = v;
  set_tail_at : ∀ v r c, lane_at (lane_set_tail v r) c = lane_at r c;
}.

#[export] Instance submit_lane : Lane ring_submission := {|
  lane_head := ring_submit_head; lane_tail := ring_submit_tail; lane_at := submission_at;
  lane_entry_ok := submission_wf;
  lane_put := λ c e r, set_ring_submissions (<[ring_index c := e]> (ring_submissions r)) r;
  lane_set_head := set_ring_submit_head; lane_set_tail := set_ring_submit_tail;
|}.

#[export] Instance complete_lane : Lane ring_completion := {|
  lane_head := ring_complete_head; lane_tail := ring_complete_tail; lane_at := completion_at;
  lane_entry_ok := λ _, True;
  lane_put := λ c e r, set_ring_completions (<[ring_index c := e]> (ring_completions r)) r;
  lane_set_head := set_ring_complete_head; lane_set_tail := set_ring_complete_tail;
|}.

Lemma ring_index_lt c : (ring_index c < Z.to_nat LLAM_BROKER_RING_CAP)%nat.
Proof.
  unfold ring_index. change LLAM_BROKER_RING_MASK with (Z.ones 8). rewrite Z.land_ones by lia.
  pose proof (Z.mod_pos_bound c (2 ^ 8) ltac:(lia)). change LLAM_BROKER_RING_CAP with (2 ^ 8). lia.
Qed.

(** Cursors less than a capacity apart have different indices. *)
Lemma ring_index_ne c c' : 0 < Z.abs (c' - c) < LLAM_BROKER_RING_CAP → ring_index c ≠ ring_index c'.
Proof.
  unfold ring_index. change LLAM_BROKER_RING_MASK with (Z.ones 8). rewrite !Z.land_ones by lia.
  change LLAM_BROKER_RING_CAP with (2 ^ 8). intros H E.
  pose proof (Z.mod_pos_bound c (2 ^ 8) ltac:(lia)). pose proof (Z.mod_pos_bound c' (2 ^ 8) ltac:(lia)).
  assert (c mod 2 ^ 8 = c' mod 2 ^ 8) as E' by lia.
  pose proof (Z.div_mod c (2 ^ 8) ltac:(lia)). pose proof (Z.div_mod c' (2 ^ 8) ltac:(lia)). nia.
Qed.

Lemma nth_insert_ne {A} (l : list A) i j x d : i ≠ j → nth j (<[i := x]> l) d = nth j l d.
Proof. intros H. rewrite !nth_lookup. by rewrite list_lookup_insert_ne. Qed.

Lemma nth_insert_eq {A} (l : list A) i x d : (i < length l)%nat → nth i (<[i := x]> l) d = x.
Proof. intros H. rewrite nth_lookup. by rewrite list_lookup_insert_eq. Qed.

#[export] Instance submit_lane_ok : LaneOk ring_submission.
Proof.
  split; cbn; try done; try (intros v r Hv []; split; done).
  - intros c e r He [? ? ? ? ? ? ? ? ? Ha]. split; try done; cbn; [by rewrite length_insert|by apply Forall_insert].
  - intros c e r [? ? ? ? ? ? Hs ? ? ?]. apply nth_insert_eq. rewrite Hs. apply ring_index_lt.
  - intros c e r c' Hc. by apply nth_insert_ne.
Qed.

#[export] Instance complete_lane_ok : LaneOk ring_completion.
Proof.
  split; cbn; try done; try (intros v r Hv []; split; done).
  - intros c e r He [? ? ? ? ? ? ? ? ? Ha]. split; try done; cbn; by rewrite length_insert.
  - intros c e r [? ? ? ? ? ? ? Hs ? ?]. apply nth_insert_eq. rewrite Hs. apply ring_index_lt.
  - intros c e r c' Hc. by apply nth_insert_ne.
Qed.

Section lane.
Context (T : Type) `{!Lane T}.
Implicit Types r : broker_ring.

(** The pending entries, oldest first. *)
Definition queue r : list T := lane_at r <$> seqZ (lane_head r) (lane_tail r - lane_head r).

Definition lane_ok r : Prop :=
  ring_wf r ∧ ring_magic_ok r = true ∧
  is_u64 (lane_head r) ∧ is_u64 (lane_tail r) ∧
  lane_head r <= lane_tail r <= lane_head r + LLAM_BROKER_RING_CAP.

(** What the consumer may do to a ring. *)
Record consumes r r' : Prop := {
  cns_tail : lane_tail r' = lane_tail r;
  cns_head : lane_head r <= lane_head r' <= lane_tail r;
  cns_at : ∀ c, lane_at r' c = lane_at r c;
}.

(** What the producer may do to a ring. *)
Record produces r r' : Prop := {
  prd_head : lane_head r' = lane_head r;
  prd_tail : lane_tail r <= lane_tail r' <= lane_head r + LLAM_BROKER_RING_CAP;
  prd_at : ∀ c, lane_head r <= c < lane_tail r → lane_at r' c = lane_at r c;
}.

Lemma consumes_refl r : lane_ok r → consumes r r.
Proof. intros (_&_&_&_&?). split; [done|lia|done]. Qed.

Lemma produces_refl r : lane_ok r → produces r r.
Proof. intros (_&_&_&_&?). split; [done|lia|done]. Qed.

Lemma consumes_trans r1 r2 r3 : consumes r1 r2 → consumes r2 r3 → consumes r1 r3.
Proof. intros [A1 B1 C1] [A2 B2 C2]. split; [congruence|lia|congruence]. Qed.

Lemma produces_trans r1 r2 r3 : produces r1 r2 → produces r2 r3 → produces r1 r3.
Proof.
  intros [A1 B1 C1] [A2 B2 C2]. split; [congruence|lia|].
  intros c Hc. rewrite C2 by lia. by apply C1.
Qed.

Lemma lane_length r : lane_ok r → Z.of_nat (length (queue r)) = lane_tail r - lane_head r.
Proof. intros (_&_&_&_&?). unfold queue. rewrite length_fmap, length_seqZ. lia. Qed.

Lemma queue_ext r r' :
  lane_head r' = lane_head r → lane_tail r' = lane_tail r →
  (∀ c, lane_head r <= c < lane_tail r → lane_at r' c = lane_at r c) → queue r' = queue r.
Proof.
  intros Hh Ht Ha. unfold queue. rewrite Hh, Ht. apply list_fmap_ext.
  intros i c Hc%list_elem_of_lookup_2%elem_of_seqZ. apply Ha. lia.
Qed.

(** A consumer takes a prefix, a producer adds a suffix. *)
Lemma consumes_queue r r' : consumes r r' → ∃ taken, queue r = taken ++ queue r'.
Proof.
  intros [A B C]. unfold queue. rewrite A.
  replace (lane_tail r - lane_head r)
    with ((lane_head r' - lane_head r) + (lane_tail r - lane_head r')) by lia.
  rewrite seqZ_app by lia. rewrite fmap_app.
  replace (lane_head r + (lane_head r' - lane_head r)) with (lane_head r') by lia.
  exists (lane_at r <$> seqZ (lane_head r) (lane_head r' - lane_head r)). f_equal.
  apply list_fmap_ext. intros i c _. by rewrite C.
Qed.

Lemma produces_queue r r' : lane_ok r → produces r r' → ∃ added, queue r' = queue r ++ added.
Proof.
  intros (_&_&_&_&Hw) [A B C]. unfold queue. rewrite A.
  replace (lane_tail r' - lane_head r)
    with ((lane_tail r - lane_head r) + (lane_tail r' - lane_tail r)) by lia.
  rewrite seqZ_app by lia. rewrite fmap_app.
  exists (lane_at r' <$> seqZ (lane_head r + (lane_tail r - lane_head r)) (lane_tail r' - lane_tail r)).
  f_equal. apply list_fmap_ext. intros i c Hc%list_elem_of_lookup_2%elem_of_seqZ. apply C. lia.
Qed.

Lemma queue_snoc r r' :
  lane_ok r → lane_head r' = lane_head r → lane_tail r' = lane_tail r + 1 →
  (∀ c, lane_head r <= c < lane_tail r → lane_at r' c = lane_at r c) →
  queue r' = queue r ++ [lane_at r' (lane_tail r)].
Proof.
  intros (_&_&_&_&Hw) Hh Ht Ha. unfold queue. rewrite Hh, Ht.
  replace (lane_tail r + 1 - lane_head r) with ((lane_tail r - lane_head r) + 1) by lia.
  rewrite seqZ_app by lia. rewrite fmap_app. f_equal.
  - apply list_fmap_ext. intros i c Hc%list_elem_of_lookup_2%elem_of_seqZ. apply Ha. lia.
  - replace (lane_head r + (lane_tail r - lane_head r)) with (lane_tail r) by lia. done.
Qed.

Lemma queue_drop r r' n :
  lane_ok r → 0 <= n <= lane_tail r - lane_head r →
  lane_head r' = lane_head r + n → lane_tail r' = lane_tail r →
  (∀ c, lane_at r' c = lane_at r c) →
  queue r = (lane_at r <$> seqZ (lane_head r) n) ++ queue r'.
Proof.
  intros (_&_&_&_&Hw) Hn Hh Ht Ha. unfold queue at 1.
  replace (lane_tail r - lane_head r) with (n + (lane_tail r - lane_head r - n)) by lia.
  rewrite seqZ_app by lia. rewrite fmap_app. f_equal. unfold queue. rewrite Hh, Ht.
  replace (lane_tail r - (lane_head r + n)) with (lane_tail r - lane_head r - n) by lia.
  apply list_fmap_ext. intros i c _. by rewrite Ha.
Qed.
End lane.

(** ** Running against a peer *)

Section peer.
Context (T : Type) `{!Lane T} (ring : Z).

(** The discipline of the other side: a relation its stores obey. *)
Class Discipline (P : broker_ring → broker_ring → Prop) : Prop := {
  disc_refl : ∀ r, lane_ok T r → P r r;
  disc_trans : ∀ r1 r2 r3, P r1 r2 → P r2 r3 → P r1 r3;
}.

#[export] Instance consumes_discipline : Discipline (consumes T).
Proof. split; [apply consumes_refl|apply consumes_trans]. Qed.

#[export] Instance produces_discipline : Discipline (produces T).
Proof. split; [apply produces_refl|apply produces_trans]. Qed.

Context (P : broker_ring → broker_ring → Prop) `{!Discipline P}.

Definition peer (w : world) : Prop :=
  Forall (λ f : broker_ring → broker_ring, ∀ r, lane_ok T r →
            P r (shaped (f r)) ∧ lane_ok T (shaped (f r))) (os_client (w_os w)).

(** The ring holds [r], and the peer keeps to its discipline. *)
Definition at_ring (r : broker_ring) (w : world) : Prop :=
  w_rings w !! ring = Some r ∧ lane_ok T r ∧ peer w.

Lemma wp_client r w :
  at_ring r w → wp (client_step ring) (λ _ w', ∃ r', at_ring r' w' ∧ P r r') w.
Proof.
  intros (Hr&Hok&Hp). unfold wp, client_step, peer in *.
  destruct (os_client (w_os w)) as [|f rest] eqn:E.
  - exists r. split; [|by apply disc_refl]. split; [done|split; [done|]]. unfold peer. cbn [snd]. by rewrite E.
  - apply Forall_cons in Hp as [Hf Hrest]. destruct (Hf r Hok) as [H1 H2].
    exists (shaped (f r)). split; [|done]. split; [|by split].
    cbn. rewrite lookup_alter_eq. by rewrite Hr.
Qed.

Lemma wp_ring_load {A} (field : broker_ring → A) d r w :
  at_ring r w →
  wp (ring_load ring field d) (λ v w', ∃ r', at_ring r' w' ∧ P r r' ∧ v = field r') w.
Proof.
  intros H. apply wp_bind, wp_bind. eapply wp_mono; [by apply wp_client|].
  intros [] w' (r'&Hr'&HP). unfold wp. cbn. exists r'. split_and!; [done|done|].
  destruct Hr' as (Hr'&_). by rewrite Hr'.
Qed.

Lemma wp_store_ring f r w :
  at_ring r w → (∀ r', P r r' → lane_ok T r' → lane_ok T (f r')) →
  wp (store_ring ring f) (λ _ w', ∃ r', at_ring (f r') w' ∧ P r r' ∧ lane_ok T r') w.
Proof.
  intros H Hf. apply wp_bind. eapply wp_mono; [by apply wp_client|].
  intros [] w' (r'&(Hr'&Hok&Hp)&HP). unfold wp. cbn. exists r'. split_and!; [|done|done].
  split; [|split; [by apply Hf|done]]. cbn. rewrite lookup_alter_eq. by rewrite Hr'.
Qed.

Lemma wp_ring_valid r w :
  at_ring r w →
  wp (llam_broker_ring_valid ring) (λ v w', ∃ r', at_ring r' w' ∧ P r r' ∧ v = true) w.
Proof.
  intros H. eapply wp_mono; [by apply wp_ring_load|].
  intros v w' (r'&Hr'&HP&->). exists r'. split_and!; [done|done|]. apply Hr'.
Qed.

(** A store outside the lane, such as a statistic. *)
Lemma wp_store_aside f r w :
  (∀ r', lane_ok T r' → lane_ok T (f r') ∧ P r' (f r')) → at_ring r w →
  wp (store_ring ring f) (λ _ w', ∃ r', at_ring r' w' ∧ P r r') w.
Proof.
  intros Hf H. eapply wp_mono.
  - apply (wp_store_ring f r w H). intros r' _ Hok. by apply Hf.
  - intros [] w' (r'&Hr'&HP&Hok). exists (f r'). split; [done|]. eapply disc_trans; [done|]. by apply Hf.
Qed.

Lemma window_ok h t : h <= t <= h + LLAM_BROKER_RING_CAP → llam_broker_ring_window_valid h t = true.
Proof. intros H. unfold llam_broker_ring_window_valid. apply andb_true_intro. split; apply Z.leb_le; lia. Qed.
End peer.

Lemma ring_wf_client_stats g r :
  (∀ l, length (g l) = length l) → ring_wf r → ring_wf (set_ring_client_stats (g (ring_client_stats r)) r).
Proof. intros Hg [? ? ? ? ? ? ? ? ? ?]. split; try done. cbn. by rewrite Hg. Qed.

Lemma ring_wf_broker_stats g r :
  (∀ l, length (g l) = length l) → ring_wf r → ring_wf (set_ring_broker_stats (g (ring_broker_stats r)) r).
Proof. intros Hg [? ? ? ? ? ? ? ? ? ?]. split; try done. cbn. by rewrite Hg. Qed.

Lemma length_stat_add stat d l : length (stat_add stat d l) = length l.
Proof. apply length_insert. Qed.

Lemma length_stat_max stat d l : length (stat_max stat d l) = length l.
Proof. unfold stat_max. branch; [apply length_insert|done]. Qed.
(** ** The producer against its consumer *)

Section producer.
Context (T : Type) `{LaneOk T} (ring : Z).
Abbreviation here := (at_ring T ring (consumes T)).

Lemma aside_ok f r : same_lane (T := T) r (f r) → lane_ok T r → lane_ok T (f r).
Proof.
  intros [F1 F2 F3 F4 _] (W&G&Hh&Ht&B). unfold lane_ok. rewrite F2, F3, F4. auto.
Qed.

Lemma aside_consumes f r :
  same_lane (T := T) r (f r) → lane_ok T r → lane_ok T (f r) ∧ consumes T r (f r).
Proof.
  intros Hf Hok. split; [by apply aside_ok|]. destruct Hf as [_ _ F3 F4 F5].
  destruct Hok as (_&_&_&_&?). split; [done|lia|done].
Qed.

Lemma aside_produces f r :
  same_lane (T := T) r (f r) → lane_ok T r → lane_ok T (f r) ∧ produces T r (f r).
Proof.
  intros Hf Hok. split; [by apply aside_ok|]. destruct Hf as [_ _ F3 F4 F5].
  destruct Hok as (_&_&_&_&?). split; [done|lia|by intros c _; apply F5].
Qed.

Lemma wp_valid_consumer {X} r w (k : bool → M X) (Q : X → world → Prop) :
  here r w → (∀ r' w', here r' w' → consumes T r r' → wp (k true) Q w') →
  wp (llam_broker_ring_valid ring ≫= k) Q w.
Proof.
  intros H1 Hk. apply wp_bind. eapply wp_mono; [by apply (wp_ring_valid T ring (consumes T))|].
  intros ok w1 (r1&Hr1&C1&->). by apply (Hk r1).
Qed.

Lemma wp_stat_consumer {X} f r w (k : M X) (Q : X → world → Prop) :
  (∀ r, same_lane (T := T) r (f r)) → here r w →
  (∀ r' w', here r' w' → consumes T r r' → wp k Q w') →
  wp (store_ring ring f ;; k) Q w.
Proof.
  intros Hf H1 Hk. apply wp_bind. eapply wp_mono.
  - apply (wp_store_aside T ring (consumes T) f r w); [|done]. intros r' Hok'. by apply aside_consumes.
  - intros [] w' (r'&H'&C). by apply (Hk r').
Qed.

Lemma publish_ok t r :
  lane_ok T r → lane_tail r = t → 0 <= t < UINT64_MAX → t - lane_head r < LLAM_BROKER_RING_CAP →
  lane_ok T (lane_set_tail (u64 (t + 1)) r).
Proof.
  intros (W&G&Hh&Hu&Hw) Et Ht Hroom.
  assert (u64 (t + 1) = t + 1) as -> by (apply u64_small; unfold is_u64, UINT64_MAX in *; lia).
  unfold lane_ok. rewrite set_tail_head, set_tail_tail, set_tail_magic.
  unfold is_u64, UINT64_MAX in *. split_and!; try done; try lia. apply set_tail_wf; [unfold is_u64; lia|done].
Qed.

(** The two stores of a push: the entry, then the tail that publishes it. *)
Lemma wp_publish {X} e t r w (k : M X) (Q : X → world → Prop) :
  lane_entry_ok e → here r w → lane_tail r = t → 0 <= t < UINT64_MAX →
  t - lane_head r < LLAM_BROKER_RING_CAP →
  (∀ r' taken w', here r' w' → queue T r ++ [e] = taken ++ queue T r' → wp k Q w') →
  wp (store_ring ring (lane_put t e) ;; store_ring ring (lane_set_tail (u64 (t + 1))) ;; k) Q w.
Proof.
  intros He H1 Et Ht Hroom Hk.
  apply wp_bind. eapply wp_mono; [apply (wp_store_ring T ring (consumes T) _ r w H1)|].
  { intros r' _ (W&G&R). unfold lane_ok. rewrite put_magic, put_head, put_tail. auto using put_wf. }
  intros [] w1 (r1&Hr1&C1&Hok1). pose proof C1 as [A1 B1 _]. rewrite Et in A1, B1.
  apply wp_bind. eapply wp_mono; [apply (wp_store_ring T ring (consumes T) _ _ w1 Hr1)|].
  { intros r' [A2 B2 C2] Hok. rewrite put_tail in A2, B2. rewrite put_head in B2. rewrite A1 in A2, B2.
    apply publish_ok; try done. lia. }
  intros [] w2 (r2&Hr2&C2&Hok2).
  destruct (consumes_queue T r r1 C1) as [l1 E1]. destruct (consumes_queue T _ r2 C2) as [l2 E2].
  assert (queue T (lane_put t e r1) = queue T r1) as Eq1.
  { apply queue_ext; [apply put_head|apply put_tail|]. intros c Hc. rewrite A1 in Hc.
    apply put_at_ne, ring_index_ne. lia. }
  assert (lane_tail r2 = t) as Et2 by (rewrite <- A1, <- (put_tail t e r1); apply C2).
  assert (lane_at r2 t = e) as Ee by (rewrite (cns_at T _ _ C2); apply put_at, Hok1).
  apply (Hk _ (l1 ++ l2) w2 Hr2).
  rewrite (queue_snoc T r2 (lane_set_tail (u64 (t + 1)) r2)); [|done|apply set_tail_head| |by intros c _; apply set_tail_at].
  - by rewrite set_tail_at, Et2, Ee, E1, <- Eq1, E2, !app_assoc.
  - rewrite set_tail_tail, Et2. apply u64_small. unfold is_u64, UINT64_MAX in *. lia.
Qed.

(** What a push reads: its own tail exactly, and a head the consumer may have
    moved on. *)
Lemma wp_push_window {X} r w (k : Z → Z → M X) (Q : X → world → Prop) :
  here r w →
  (∀ h r' w', here r' w' → consumes T r r' → h = lane_head r' →
     llam_broker_ring_window_valid h (lane_tail r) = true → wp (k (lane_tail r) h) Q w') →
  wp (t ← ring_load ring lane_tail 0; h ← ring_load ring lane_head 0; k t h) Q w.
Proof.
  intros H1 Hk. apply wp_bind. eapply wp_mono; [by apply (wp_ring_load T ring (consumes T))|].
  intros t w2 (r2&Hr2&C2&Et).
  assert (t = lane_tail r) as -> by (rewrite Et; apply C2).
  apply wp_bind. eapply wp_mono; [by apply (wp_ring_load T ring (consumes T))|].
  intros h w3 (r3&Hr3&C3&Eh). pose proof (consumes_trans T _ _ _ C2 C3) as C13.
  apply (Hk h r3 w3 Hr3 C13 Eh). apply window_ok.
  destruct Hr3 as (_&(_&_&_&_&W3)&_). rewrite (cns_tail T _ _ C13) in W3. lia.
Qed.
End producer.

(** ** The consumer against its producer *)

Section consumer.
Context (T : Type) `{LaneOk T} (ring : Z).
Abbreviation here := (at_ring T ring (produces T)).

Lemma wp_valid_producer {X} r w (k : bool → M X) (Q : X → world → Prop) :
  here r w → (∀ r' w', here r' w' → produces T r r' → wp (k true) Q w') →
  wp (llam_broker_ring_valid ring ≫= k) Q w.
Proof.
  intros H1 Hk. apply wp_bind. eapply wp_mono; [by apply (wp_ring_valid T ring (produces T))|].
  intros ok w1 (r1&Hr1&C1&->). by apply (Hk r1).
Qed.

Lemma wp_stat_producer {X} f r w (k : M X) (Q : X → world → Prop) :
  (∀ r, same_lane (T := T) r (f r)) → here r w →
  (∀ r' w', here r' w' → produces T r r' → wp k Q w') →
  wp (store_ring ring f ;; k) Q w.
Proof.
  intros Hf H1 Hk. apply wp_bind. eapply wp_mono.
  - apply (wp_store_aside T ring (produces T) f r w); [|done]. intros r' Hok'. by apply aside_produces.
  - intros [] w' (r'&H'&C). by apply (Hk r').
Qed.

(** What a pop reads: its own head exactly, and a tail the producer may have
    moved on. *)
Lemma wp_pop_window {X} r w (k : Z → Z → M X) (Q : X → world → Prop) :
  here r w →
  (∀ t r' w', here r' w' → produces T r r' → t = lane_tail r' →
     llam_broker_ring_window_valid (lane_head r) t = true → wp (k (lane_head r) t) Q w') →
  wp (h ← ring_load ring lane_head 0; t ← ring_load ring lane_tail 0; k h t) Q w.
Proof.
  intros H1 Hk. apply wp_bind. eapply wp_mono; [by apply (wp_ring_load T ring (produces T))|].
  intros h w2 (r2&Hr2&C2&Eh).
  assert (h = lane_head r) as -> by (rewrite Eh; apply C2).
  apply wp_bind. eapply wp_mono; [by apply (wp_ring_load T ring (produces T))|].
  intros t w3 (r3&Hr3&C3&Et). pose proof (produces_trans T _ _ _ C2 C3) as C13.
  apply (Hk t r3 w3 Hr3 C13 Et). apply window_ok.
  destruct Hr3 as (_&(_&_&_&_&W3)&_). rewrite (prd_head T _ _ C13) in W3. lia.
Qed.

(** Reading a pending entry. *)
Lemma wp_read_entry {X} c d r w (k : T → M X) (Q : X → world → Prop) :
  here r w → lane_head r <= c < lane_tail r →
  (∀ r' w', here r' w' → produces T r r' → wp (k (lane_at r c)) Q w') →
  wp (ring_load ring (λ r, lane_at r c) d ≫= k) Q w.
Proof.
  intros H1 Hc Hk. apply wp_bind. eapply wp_mono; [by apply (wp_ring_load T ring (produces T))|].
  intros e w2 (r2&Hr2&C2&->). rewrite (prd_at T _ _ C2 c Hc). by apply (Hk r2).
Qed.

Lemma release_ok v r :
  lane_ok T r → lane_head r <= v <= lane_tail r → lane_ok T (lane_set_head v r).
Proof.
  intros (W&G&Hh&Hu&Hw) Hv. assert (is_u64 v) by (unfold is_u64 in *; lia).
  unfold lane_ok. rewrite set_head_head, set_head_tail, set_head_magic.
  split_and!; try done; try lia; try apply H1. by apply set_head_wf.
Qed.

(** Moving the head past [n] entries that were read. *)
Lemma wp_release {X} n r w (k : M X) (Q : X → world → Prop) :
  here r w → 0 <= n <= lane_tail r - lane_head r →
  (∀ r' added w', here r' w' →
     queue T r ++ added = (lane_at r <$> seqZ (lane_head r) n) ++ queue T r' → wp k Q w') →
  wp (store_ring ring (lane_set_head (u64 (lane_head r + n))) ;; k) Q w.
Proof.
  intros H1 Hn Hk. pose proof H1 as (_&Hok&_).
  assert (u64 (lane_head r + n) = lane_head r + n) as ->.
  { apply u64_small. destruct Hok as (_&_&U1&U2&_). unfold is_u64 in *. lia. }
  apply wp_bind. eapply wp_mono; [apply (wp_store_ring T ring (produces T) _ r w H1)|].
  { intros r' C' Hok'. apply release_ok; [done|].
    pose proof (prd_head T _ _ C'). pose proof (prd_tail T _ _ C'). lia. }
  intros [] w2 (r2&Hr2&C2&Hok2).
  destruct (produces_queue T r r2 Hok C2) as [added E].
  apply (Hk _ added w2 Hr2). rewrite <- E.
  pose proof (prd_head T _ _ C2) as Eh. pose proof (prd_tail T _ _ C2) as Et.
  rewrite (queue_drop T r2 (lane_set_head (lane_head r + n) r2) n); try done.
  - f_equal. rewrite Eh. apply list_fmap_ext.
    intros i c Hc%list_elem_of_lookup_2%elem_of_seqZ. apply (prd_at T _ _ C2). lia.
  - lia.
  - by rewrite set_head_head, Eh.
  - apply set_head_tail.
  - apply set_head_at.
Qed.
End consumer.
(** ** First-in first-out delivery *)

Lemma same_client_stats g r :
  (∀ l, length (g l) = length l) →
  same_lane (T := ring_submission) r (set_ring_client_stats (g (ring_client_stats r)) r)
  ∧ same_lane (T := ring_completion) r (set_ring_client_stats (g (ring_client_stats r)) r).
Proof. intros Hg. split; split; try done; by apply ring_wf_client_stats. Qed.

Lemma same_broker_stats g r :
  (∀ l, length (g l) = length l) →
  same_lane (T := ring_submission) r (set_ring_broker_stats (g (ring_broker_stats r)) r)
  ∧ same_lane (T := ring_completion) r (set_ring_broker_stats (g (ring_broker_stats r)) r).
Proof. intros Hg. split; split; try done; by apply ring_wf_broker_stats. Qed.

Ltac stat_aside :=
  intros; first [apply same_client_stats | apply same_broker_stats];
  first [apply length_stat_add | apply length_stat_max].

(** What a push did: the entry is behind everything pending, or the queue was
    full. *)
Definition pushed `{LaneOk T} (ring : Z) (e : T) (r : broker_ring) (rc : Z) (w' : world) : Prop :=
  ∃ r', at_ring T ring (consumes T) r' w' ∧
    ((rc = 0 ∧ ∃ taken, queue T r ++ [e] = taken ++ queue T r')
     ∨ (rc = -1 ∧ w_errno w' = EAGAIN ∧ Z.of_nat (length (queue T r)) = LLAM_BROKER_RING_CAP
        ∧ ∃ taken, queue T r = taken ++ queue T r')).

Section pushed.
Context {T : Type} `{LaneOk T} (ring : Z) (e : T) (r : broker_ring).

Lemma pushed_full r1 r' w' :
  lane_ok T r → consumes T r r1 → LLAM_BROKER_RING_CAP <= lane_tail r - lane_head r1 →
  consumes T r1 r' → at_ring T ring (consumes T) r' w' → pushed ring e r (-1) (set_w_errno EAGAIN w').
Proof.
  intros Hok C Hf C' H'. exists r'. split; [done|]. right.
  split_and!; [done|done| |by eapply consumes_queue, consumes_trans].
  rewrite (lane_length T r Hok). destruct Hok as (_&_&_&_&W). destruct C as [_ ? _]. lia.
Qed.

Lemma pushed_done r1 r2 r3 l w' :
  consumes T r r1 → queue T r1 ++ [e] = l ++ queue T r2 → consumes T r2 r3 →
  at_ring T ring (consumes T) r3 w' → pushed ring e r 0 w'.
Proof.
  intros C1 E C2 H'. exists r3. split; [done|]. left. split; [done|].
  destruct (consumes_queue T r r1 C1) as [l1 E1]. destruct (consumes_queue T r2 r3 C2) as [l2 E2].
  exists (l1 ++ l ++ l2). by rewrite E1, <- app_assoc, E, E2, !app_assoc.
Qed.
End pushed.

Lemma submit_push_peer ring e r w :
  submission_wf e → at_ring ring_submission ring (consumes ring_submission) r w →
  ring_submit_tail r < UINT64_MAX →
  wp (llam_broker_ring_submit_push ring (Some e)) (pushed ring e r) w.
Proof.
  intros He H Ht. pose proof H as (_&Hok&_). pose proof Hok as (_&_&_&U&_).
  refine (wp_valid_consumer ring_submission ring r w _ _ H _). intros r1 w1 H1 C1. cbn [negb].
  refine (wp_push_window ring_submission ring r1 w1 _ _ H1 _). intros h r2 w2 H2 C2 -> ->. cbn [negb].
  pose proof (consumes_trans _ _ _ _ C1 C2) as C12.
  assert (lane_tail (T := ring_submission) r1 = ring_submit_tail r) as Et by apply C1.
  destruct (LLAM_BROKER_RING_CAP <=? _) eqn:Ef; bools.
  - refine (wp_stat_consumer ring_submission ring _ r2 _ _ _ _ H2 _); [stat_aside|]. intros r3 w3 H3 C3.
    apply (pushed_full ring e r r2 r3 w3); [done|done| |done|done]. by rewrite Et in Ef.
  - refine (wp_publish ring_submission ring e _ r2 _ _ _ He H2 _ _ _ _);
      [rewrite Et; apply C12|rewrite Et; unfold is_u64 in U; cbn in *; lia|done|].
    intros r3 l w3 H3 E3.
    refine (wp_stat_consumer ring_submission ring _ r3 _ _ _ _ H3 _); [stat_aside|]. intros r4 w4 H4 C4.
    refine (wp_stat_consumer ring_submission ring _ r4 _ _ _ _ H4 _); [stat_aside|]. intros r5 w5 H5 C5.
    apply wp_ret. by apply (pushed_done ring e r r2 r3 r5 l); [| |eapply consumes_trans|].
Qed.

Lemma complete_push_peer ring e r w :
  at_ring ring_completion ring (consumes ring_completion) r w →
  ring_complete_tail r < UINT64_MAX →
  wp (llam_broker_ring_complete_push ring (Some e)) (pushed ring e r) w.
Proof.
  intros H Ht. pose proof H as (_&Hok&_). pose proof Hok as (_&_&_&U&_).
  refine (wp_valid_consumer ring_completion ring r w _ _ H _). intros r1 w1 H1 C1. cbn [negb].
  refine (wp_push_window ring_completion ring r1 w1 _ _ H1 _). intros h r2 w2 H2 C2 -> ->. cbn [negb].
  pose proof (consumes_trans _ _ _ _ C1 C2) as C12.
  assert (lane_tail (T := ring_completion) r1 = ring_complete_tail r) as Et by apply C1.
  destruct (LLAM_BROKER_RING_CAP <=? _) eqn:Ef; bools.
  - refine (wp_stat_consumer ring_completion ring _ r2 _ _ _ _ H2 _); [stat_aside|]. intros r3 w3 H3 C3.
    apply (pushed_full ring e r r2 r3 w3); [done|done| |done|done]. by rewrite Et in Ef.
  - refine (wp_publish ring_completion ring e _ r2 _ _ _ I H2 _ _ _ _);
      [rewrite Et; apply C12|rewrite Et; unfold is_u64 in U; cbn in *; lia|done|].
    intros r3 l w3 H3 E3.
    refine (wp_stat_consumer ring_completion ring _ r3 _ _ _ _ H3 _); [stat_aside|]. intros r4 w4 H4 C4.
    apply wp_ret. by apply (pushed_done ring e r r2 r3 r4 l).
Qed.

(** What taking [es] from the front did. *)
Definition popped `{LaneOk T} (ring : Z) (r : broker_ring) (es : list T) (w' : world) : Prop :=
  ∃ r' added, at_ring T ring (produces T) r' w' ∧ queue T r ++ added = es ++ queue T r'.

Lemma popped_done `{LaneOk T} ring r r1 r2 r3 es l w' :
  lane_ok T r → lane_ok T r2 → produces T r r1 → queue T r1 ++ l = es ++ queue T r2 →
  produces T r2 r3 → at_ring T ring (produces T) r3 w' → popped ring r es w'.
Proof.
  intros Hok Hok2 C1 E C2 H'. destruct (produces_queue T r r1 Hok C1) as [l1 E1].
  destruct (produces_queue T r2 r3 Hok2 C2) as [l2 E2].
  exists r3, (l1 ++ l ++ l2). split; [done|]. rewrite E2. rewrite !app_assoc, <- E1. by rewrite E.
Qed.

Lemma queue_nil `{LaneOk T} r : lane_ok T r → lane_tail r = lane_head r → queue T r = [].
Proof. intros Hok E. apply nil_length_inv. pose proof (lane_length T r Hok). lia. Qed.

Lemma seqZ_1 h : seqZ h 1 = [h].
Proof. by unfold seqZ. Qed.

Lemma submit_pop_peer ring old r w :
  at_ring ring_submission ring (produces ring_submission) r w →
  wp (llam_broker_ring_submit_pop ring (Some old))
    (λ res w', (∃ e, res = (0, Some e) ∧ popped ring r [e] w')
             ∨ (res = (-1, Some zero_submission) ∧ w_errno w' = EAGAIN ∧ queue ring_submission r = []
                ∧ popped (T := ring_submission) ring r [] w')) w.
Proof.
  intros H. pose proof H as (_&Hok&_).
  refine (wp_valid_producer ring_submission ring r w _ _ H _). intros r1 w1 H1 C1. cbn [negb orb is_null].
  refine (wp_pop_window ring_submission ring r1 w1 _ _ H1 _). intros t r2 w2 H2 C2 -> ->. cbn [negb].
  pose proof (produces_trans _ _ _ _ C1 C2) as C12. pose proof H2 as (_&Hok2&_).
  pose proof (prd_head _ _ _ C2) as Eh2.
  destruct (lane_head r1 =? lane_tail r2) eqn:Ee; bools.
  - apply wp_ret. right. split_and!; [done|done| |].
    + apply queue_nil; [done|]. destruct C12 as [A B _]. destruct Hok as (_&_&_&_&W). cbn in *. lia.
    + exists r2. destruct (produces_queue _ r r2 Hok C12) as [l El]. exists l. by rewrite El.
  - assert (ring_submit_head r1 < ring_submit_tail r2) as Hlt.
    { destruct Hok2 as (_&_&_&_&W2). cbn in *. lia. }
    refine (wp_read_entry ring_submission ring _ zero_submission r2 _ _ _ H2 _ _); [cbn in *; lia|].
    intros r3 w3 H3 C3. pose proof H3 as (_&Hok3&_). rewrite <- Eh2, <- (prd_head _ _ _ C3).
    refine (wp_release ring_submission ring 1 r3 _ _ _ H3 _ _).
    { pose proof (prd_tail _ _ _ C3). pose proof (prd_head _ _ _ C3). cbn in *. lia. }
    intros r4 l w4 H4 E4. apply wp_ret. left. eexists. split; [done|].
    pose proof H4 as (_&Hok4&_).
    apply (popped_done ring r r3 r4 r4 _ l w4 Hok Hok4); [by eapply produces_trans| |by apply produces_refl|done].
    rewrite E4, seqZ_1. cbn [fmap list_fmap]. f_equal. f_equal.
    apply (prd_at _ _ _ C3). pose proof (prd_head _ _ _ C3). cbn in *. lia.
Qed.
Section drain.
Abbreviation C := ring_completion.

Lemma wp_copy_completions ring r w i n :
  at_ring C ring (produces C) r w →
  Z.of_nat (i + n) <= ring_complete_tail r - ring_complete_head r →
  wp (copy_completions ring (ring_complete_head r) i n)
    (λ cs w', ∃ r', at_ring C ring (produces C) r' w' ∧ produces C r r'
       ∧ cs = completion_at r <$> seqZ (ring_complete_head r + Z.of_nat i) (Z.of_nat n)) w.
Proof.
  revert r w i. induction n as [|n IH]; intros r w i H Hn; cbn [copy_completions].
  - apply wp_ret. exists r. split_and!; [done|by apply produces_refl, H|done].
  - pose proof H as (_&(_&_&U1&U2&_)&_). cbn in U1, U2.
    rewrite u64_small by (unfold is_u64 in *; lia).
    refine (wp_read_entry C ring _ zero_completion r w _ _ H _ _); [cbn; lia|].
    intros r1 w1 H1 C1. pose proof (prd_head _ _ _ C1) as Eh. pose proof (prd_tail _ _ _ C1) as Et. cbn in Eh, Et.
    apply wp_bind. rewrite <- Eh. eapply wp_mono; [apply (IH r1 w1 (S i) H1); lia|].
    intros cs w2 (r2&H2&C2&->). apply wp_ret. exists r2. split_and!; [done|by eapply produces_trans|].
    rewrite Eh. replace (Z.of_nat (S n)) with (1 + Z.of_nat n) by lia. rewrite seqZ_app by lia.
    rewrite seqZ_1, fmap_app. cbn [fmap list_fmap app]. f_equal.
    replace (ring_complete_head r + Z.of_nat i + 1) with (ring_complete_head r + Z.of_nat (S i)) by lia.
    apply list_fmap_ext. intros j c Hc%list_elem_of_lookup_2%elem_of_seqZ.
    apply (prd_at _ _ _ C1). cbn. lia.
Qed.

(** The array after a drain: the entries taken, then cleared slots. *)
Definition drained (ring : Z) (max_entries : Z) (r : broker_ring)
    (res : Z * option (list ring_completion) * option Z) (w' : world) : Prop :=
  ∃ es, res = (0, Some (es ++ replicate (Z.to_nat max_entries - length es) zero_completion),
               Some (Z.of_nat (length es)))
    ∧ Z.of_nat (length es) <= max_entries
    ∧ (es = [] → queue C r = [])
    ∧ popped ring r es w'.

Lemma complete_drain_peer ring old max_entries old_count r w :
  at_ring C ring (produces C) r w →
  0 < max_entries <= UINT64_MAX / sizeof_completion →
  wp (llam_broker_ring_complete_drain ring (Some old) max_entries (Some old_count))
    (drained ring max_entries r) w.
Proof.
  intros H Hm. pose proof H as (_&Hok&_). unfold llam_broker_ring_complete_drain.
  cbn [is_null negb fmap option_fmap option_map].
  rewrite (proj2 (Z.ltb_lt 0 max_entries)) by lia. cbn [andb].
  rewrite (proj2 (Z.ltb_ge (UINT64_MAX / sizeof_completion) max_entries)) by lia.
  refine (wp_valid_producer C ring r w _ _ H _). intros r1 w1 H1 C1. cbn [negb orb].
  rewrite (proj2 (Z.eqb_neq max_entries 0)) by lia.
  refine (wp_stat_producer C ring _ r1 _ _ _ _ H1 _); [stat_aside|]. intros r2 w2 H2 C2.
  pose proof (produces_trans _ _ _ _ C1 C2) as C12.
  refine (wp_pop_window C ring r2 w2 _ _ H2 _). intros t r3 w3 H3 C3 -> ->. cbn [negb].
  pose proof (produces_trans _ _ _ _ C12 C3) as C13. pose proof (prd_head _ _ _ C3) as Eh.
  pose proof H3 as (_&Hok3&_). cbn [lane_head lane_tail complete_lane] in *. rewrite <- Eh.
  destruct (_ =? 0) eqn:Ee; bools.
  - refine (wp_stat_producer C ring _ r3 _ _ _ _ H3 _); [stat_aside|]. intros r4 w4 H4 C4.
    apply wp_ret. exists []. cbn [length app]. rewrite Nat.sub_0_r. split_and!; [done|lia| |].
    + intros _. apply queue_nil; [done|]. pose proof (prd_head _ _ _ C13). pose proof (prd_tail _ _ _ C13).
      destruct Hok as (_&_&_&_&W). cbn in *. lia.
    + apply (popped_done ring r r3 r3 r4 [] [] w4); try done. by rewrite app_nil_r.
  - set (n := if _ <? max_entries then _ else max_entries).
    assert (0 < n <= max_entries ∧ n <= ring_complete_tail r3 - ring_complete_head r3) as Hn.
    { destruct Hok3 as (_&_&_&_&W). cbn in W. subst n. branch; bools; lia. }
    clearbody n. apply wp_bind.
    eapply wp_mono; [apply (wp_copy_completions ring r3 w3 0 (Z.to_nat n) H3); lia|].
    intros es w4 (r4&H4&C4&Ees). pose proof (prd_head _ _ _ C4) as Eh4. pose proof (prd_tail _ _ _ C4) as Et4.
    pose proof H4 as (_&Hok4&_). cbn in Eh4, Et4. rewrite Z.add_0_r, Z2Nat.id in Ees by lia.
    assert (Z.of_nat (length es) = n) as Hlen by (rewrite Ees, length_fmap, length_seqZ; lia).
    rewrite <- Eh4. refine (wp_release C ring n r4 _ _ _ H4 _ _); [cbn; lia|]. intros r5 l w5 H5 E5.
    refine (wp_stat_producer C ring _ r5 _ _ _ _ H5 _); [stat_aside|]. intros r6 w6 H6 C6.
    refine (wp_stat_producer C ring _ r6 _ _ _ _ H6 _); [stat_aside|]. intros r7 w7 H7 C7.
    refine (wp_stat_producer C ring _ r7 _ _ _ _ H7 _); [stat_aside|]. intros r8 w8 H8 C8.
    apply wp_ret. exists es. rewrite Hlen. split_and!; [|lia|intros ->; cbn in Hlen; lia|].
    + cbn [fmap option_fmap option_map]. rewrite drop_replicate. replace (Z.to_nat max_entries - Z.to_nat n)%nat with (Z.to_nat max_entries - length es)%nat by lia. done.
    + apply (popped_done ring r r4 r5 r8 es l w8); [done|apply H5| | | |done].
      * by eapply produces_trans.
      * rewrite E5, Ees. f_equal. cbn. rewrite Eh4. apply list_fmap_ext.
        intros j c Hc%list_elem_of_lookup_2%elem_of_seqZ. apply (prd_at _ _ _ C4). cbn. lia.
      * eapply produces_trans; [done|]. by eapply produces_trans.
Qed.
End drain.

(** Completions are delivered first in, first out, in every interleaving: a
    push appends or reports a full ring, and a drain returns the oldest pending
    entries in order, at most as many as asked for and none only if none were
    pending, followed by cleared slots. *)
Theorem ring_completions_fifo ring r w :
  (∀ e, ring_complete_tail r < UINT64_MAX →
     at_ring ring_completion ring (consumes ring_completion) r w →
     wp (llam_broker_ring_complete_push ring (Some e)) (pushed ring e r) w) ∧
  (∀ old old_count max_entries, 0 < max_entries <= UINT64_MAX / sizeof_completion →
     at_ring ring_completion ring (produces ring_completion) r w →
     wp (llam_broker_ring_complete_drain ring (Some old) max_entries (Some old_count))
       (drained ring max_entries r) w).
Proof. split; intros; [by apply complete_push_peer|by apply complete_drain_peer]. Qed.

(** A mask outside of which a word has no bits contains it. *)
Lemma has_bits_mask a r : is_u64 r → Z.land r (not64 a) = 0 → has_bits a r = true.
Proof.
  intros Hr H. apply has_bits_spec. intros i Hi Hb.
  destruct (Z.testbit a i) eqn:Ea; [done|]. exfalso.
  assert (i < 64) as Hlt.
  { destruct (Z.ltb_spec i 64); [done|]. rewrite <- (u64_small r Hr) in Hb. unfold u64 in Hb.
    by rewrite Z.mod_pow2_bits_high in Hb by lia. }
  assert (Z.testbit (Z.land r (not64 a)) i = true) as Ht.
  { rewrite Z.land_spec, Hb. unfold not64. rewrite Z.lxor_spec, Ea.
    change UINT64_MAX with (Z.ones 64). by rewrite Z.ones_spec_low by lia. }
  by rewrite H, Z.bits_0 in Ht.
Qed.

Lemma buffer_rights_mask rights w rc w' :
  is_u64 rights → llam_broker_validate_object_rights LLAM_BROKER_CAP_FAMILY_BUFFER rights w = (rc, w') →
  rc = 0 → has_bits LLAM_BROKER_BUFFER_TRANSPORT_RIGHTS rights = true.
Proof.
  intros Hr. unfold llam_broker_validate_object_rights. branch; [by mon; intros [= <- <-]|].
  cbn [Z.eqb LLAM_BROKER_CAP_FAMILY_BUFFER Pos.eqb]. branch; [by mon; intros [= <- <-]|].
  intros _ _. bools. by apply has_bits_mask.
Qed.

(** A buffer grant admits exactly the accesses inside its window: a minted
    grant lies inside the largest buffer and carries buffer rights only, and an
    access is accepted exactly when it is nonempty, made under the grant's
    epoch with rights the grant has, and ends inside the granted length, with
    no wrap-around of the 64-bit sum. *)
Theorem buffer_grant_bounds g id gen off len rights epoch g' w1 w1' :
  is_u64 off → is_u64 len → is_u64 rights →
  llam_broker_buffer_grant_init (Some g) id gen off len rights epoch w1 = (0, Some g', w1') →
  (0 < len ∧ off + len <= LLAM_BROKER_BUFFER_MAX_BYTES
   ∧ has_bits LLAM_BROKER_BUFFER_TRANSPORT_RIGHTS rights = true) ∧
  ∀ required rel n now w, is_u64 rel → is_u64 n →
    ((llam_broker_buffer_grant_validate (Some g') required rel n now w).1 = 0
     ↔ required ≠ 0 ∧ 0 < n ∧ now = epoch ∧ has_bits rights required = true ∧ rel + n <= len).
Proof.
  intros Ho Hl Hr. unfold llam_broker_buffer_grant_init. cbn [is_null orb].
  branch; [by mon|]. cbn zeta. branch; [by mon|]. mon.
  pose proof (buffer_rights_mask rights w1) as Hm.
  destruct (llam_broker_validate_object_rights _ _ w1) as [rc w2]. mon.
  destruct (rc =? 0) eqn:E3; mon; [|done]. intros [= <- <-]. bools. specialize (Hm _ _ Hr eq_refl E3).
  assert (u64 (off + len) = off + len) as Eo.
  { destruct (decide (off + len < 2 ^ 64)); [apply u64_small; unfold is_u64 in *; lia|].
    assert (u64 (off + len) = off + len - 2 ^ 64) as E' by (unfold u64; symmetry; apply Z.mod_unique with 1; unfold is_u64 in *; lia).
    unfold is_u64 in *. lia. }
  split; [unfold is_u64 in *; split_and!; [lia|lia|done]|].
  intros required rel n now w Hrel Hn. cbn [llam_broker_buffer_grant_validate bg_revocation_epoch bg_rights bg_length].
  assert (u64 (rel + n) = if rel + n <? 2 ^ 64 then rel + n else rel + n - 2 ^ 64) as En.
  { branch; bools; [apply u64_small; unfold is_u64 in *; lia|].
    unfold u64; symmetry; apply Z.mod_unique with 1; unfold is_u64 in *; lia. }
  rewrite En. unfold is_u64 in *.
  split.
  - branch; [by mon|]. branch; [by mon|]. cbn zeta. destruct ((_ <? _) || _) eqn:F3; [by mon|]. intros _. bools. destruct (rel + n <? 2 ^ 64); split_and!; try done; lia.
  - intros (A&B&->&D&E). rewrite (proj2 (Z.eqb_neq _ _)) by done. rewrite (proj2 (Z.eqb_neq n 0)) by lia.
    cbn [orb]. rewrite Z.eqb_refl, D. cbn [negb orb]. rewrite (proj2 (Z.ltb_lt (rel + n) _)) by lia.
    rewrite !(proj2 (Z.ltb_ge _ _)) by lia. done.
Qed.
(** ** Concrete peers *)

Lemma resize_same {A} n (x : A) l : length l = n → resize n x l = l.
Proof. intros <-. apply resize_all. Qed.

(** Stores of in-width values into the arrays are what memory keeps. *)
Lemma shaped_id r : ring_wf r → ring_magic_ok r = true → shaped r = r.
Proof.
  intros [U1 U2 U3 U4 L1 L2 L3 L4 L5 Ha] Hm. unfold ring_magic_ok in Hm. bools.
  destruct r as [m v c sh st ch ct cs bs ss ps d]. cbn in *. unfold shaped. cbn.
  rewrite !u64_small by done. subst m v c.
  assert (shaped_submission <$> ss = ss) as Es.
  { clear -Ha. induction Ha as [|s ss Hs _ IH]; [done|]. cbn. by rewrite IH, shaped_submission_id. }
  rewrite Es, !resize_same by done. done.
Qed.

(** A consumer that takes one entry whenever there is one. *)
Definition take_submission (r : broker_ring) : broker_ring :=
  if ring_submit_head r <? ring_submit_tail r
  then set_ring_submit_head (ring_submit_head r + 1) r else r.

Lemma take_submission_consumes r :
  lane_ok ring_submission r →
  consumes ring_submission r (shaped (take_submission r))
  ∧ lane_ok ring_submission (shaped (take_submission r)).
Proof.
  intros Hok. pose proof Hok as (W&G&U1&U2&B). cbn in U1, U2, B. unfold take_submission. branch; bools.
  - assert (lane_ok ring_submission (set_ring_submit_head (ring_submit_head r + 1) r)) as Hok'.
    { refine (release_ok ring_submission (ring_submit_head r + 1) r Hok _). cbn. lia. }
    rewrite shaped_id; [|apply Hok'|apply Hok']. split; [|done]. split; [done|cbn; lia|done].
  - rewrite shaped_id by done. split; [by apply consumes_refl|done].
Qed.

Definition first_entry : ring_submission := RingSubmission 1 0 10 20 30 zero_token.
Definition second_entry : ring_submission := RingSubmission 2 0 11 21 31 zero_token.

(** A ring with one pending submission, at address 5. *)
Definition one_pending : broker_ring :=
  set_ring_submit_tail 1
    (set_ring_submissions (<[0%nat := first_entry]> (ring_submissions init_ring)) init_ring).

Definition ring_world : world :=
  set_w_os (set_os_client [id; take_submission] quiet_os)
    (set_w_rings {[5 := one_pending]} example_world).

Lemma one_pending_ok : lane_ok ring_submission one_pending ∧ lane_ok ring_completion one_pending.
Proof.
  assert (ring_wf one_pending) as W.
  { refine (set_tail_wf (T := ring_submission) 1 _ _ (put_wf (T := ring_submission) 0 first_entry
      init_ring _ init_ring_wf)); done. }
  split; split; done.
Qed.


Definition one_completion : ring_completion := RingCompletion 1 0 0 7 0.

Definition completed_ring : broker_ring :=
  set_ring_complete_tail 1
    (set_ring_completions (<[0%nat := one_completion]> (ring_completions init_ring)) init_ring).

Lemma completed_ring_ok : lane_ok ring_completion completed_ring.
Proof.
  split; [|done]. refine (set_tail_wf (T := ring_completion) 1 _ _ (put_wf (T := ring_completion) 0
    one_completion init_ring I init_ring_wf)). done.
Qed.

Lemma ring_completions_fifo_witness :
  wp (llam_broker_ring_complete_drain 5 (Some []) 4 (Some 9)) (drained 5 4 completed_ring)
    (set_w_rings {[5 := completed_ring]} example_world)
  ∧ (llam_broker_ring_complete_drain 5 (Some []) 4 (Some 9)
       (set_w_rings {[5 := completed_ring]} example_world)).1.2 = Some 1.
Proof.
  split; [|vm_compute; reflexivity].
  apply (proj2 (ring_completions_fifo 5 completed_ring _)); [done|].
  split; [reflexivity|]. split; [apply completed_ring_ok|]. apply Forall_nil_2.
Defined.

Lemma buffer_grant_bounds_witness :
  let g := BufferGrant 3 1 4096 512 LLAM_CAP_RIGHT_READ 1 in
  llam_broker_buffer_grant_init (Some (BufferGrant 0 0 0 0 0 0)) 3 1 4096 512 LLAM_CAP_RIGHT_READ 1
    example_world = (0, Some g, example_world)
  ∧ (llam_broker_buffer_grant_validate (Some g) LLAM_CAP_RIGHT_READ 500 12 1 example_world).1 = 0.
Proof.
  split; [reflexivity|].
  apply (proj2 (buffer_grant_bounds (BufferGrant 0 0 0 0 0 0) 3 1 4096 512 LLAM_CAP_RIGHT_READ 1
    _ example_world example_world ltac:(by apply is_u64_b) ltac:(by apply is_u64_b) ltac:(by apply is_u64_b) eq_refl));
    [by apply is_u64_b|by apply is_u64_b|done].
Defined.
