(* ===== verification/RingMap.v ===== *)
(** * Ring mappings

    The shared-memory mappings behind broker rings:
    [src/core/broker/ring/broker_ring_shm.c] and the Linux paths of
    [broker_ring_shm_posix.c] (memfd with sealed extent).  A mapping is a
    descriptor plus a mapped address; the theorems say that every path that
    creates or imports one either hands both over or releases what it had
    acquired. *)

From S2P Require Import Prelude Mix World Capability BrokerOps BrokerCore BrokerRevoke BrokerDescriptor Ring.

(** ** Mappings *)

Definition LLAM_BROKER_RING_MAPPING_NAME_BYTES : Z := 128.
Definition ENAMETOOLONG : Z := 36.

(** [llam_broker_ring_mapping_t] on POSIX; the name is its characters up to the
    terminating zero. *)
Record ring_mapping := RingMapping {
  rm_ring : Z;
  rm_bytes : Z;
  rm_fd : Z;
  rm_owner : bool;
  rm_name : list Z;
}.

(** [sizeof(llam_broker_ring_t)]: a cache line of header, four cursor lines, two
    counter lines, 256 submissions of 128 bytes, 256 completions of 32 bytes
    and the data area. *)
Definition sizeof_ring : Z := 64 + 4 * 64 + 2 * 64 + 256 * 128 + 256 * 32 + 4096.

Definition reset_mapping : ring_mapping := RingMapping 0 0 (-1) false [].

Definition llam_broker_ring_mapping_reset (mapping : option ring_mapping) : option ring_mapping :=
  (λ _, reset_mapping) <$> mapping.

(** ** System calls *)

(** [memfd_create] or [shm_open]: a new descriptor, or an error. *)
Definition sys_open : M Z :=
  v ← pop os_open set_os_open (inr ENOMEM);
  match v with
  | inl fd => log (EvOpen (Z.of_nat fd)) ;; mret (Z.of_nat fd)
  | inr e => set_errno e ;; mret (-1)
  end.

Definition sys_ftruncate : M Z :=
  v ← pop os_truncate set_os_truncate 0;
  if negb (v =? 0) then set_errno v ;; mret (-1) else mret 0.

Definition sys_fstat : M (option file_stat) :=
  v ← pop os_stat set_os_stat (inr EBADF);
  match v with
  | inl info => mret (Some info)
  | inr e => set_errno e ;; mret None
  end.

(** What is in the object is up to whoever holds its descriptor: a fresh
    mapping reads as zero until a peer stores into it. *)
Definition zero_ring : broker_ring := shaped (BrokerRing 0 0 0 0 0 0 0 [] [] [] [] []).

(** [mmap(NULL, sizeof(ring), ..., MAP_SHARED, fd, 0)]: NULL stands for
    [MAP_FAILED]. *)
Definition sys_mmap : M Z :=
  v ← pop os_mmap set_os_mmap (inr ENOMEM);
  match v with
  | inl addr =>
      log (EvMap (Z.pos addr)) ;;
      modify (λ w, set_w_rings (<[Z.pos addr := zero_ring]> (w_rings w)) w) ;;
      mret (Z.pos addr)
  | inr e => set_errno e ;; mret 0
  end.

Definition sys_munmap (ring : Z) : M unit :=
  log (EvUnmap ring) ;; modify (λ w, set_w_rings (delete ring (w_rings w)) w).

Definition sys_shm_unlink (name : list Z) : M unit := log (EvUnlink name).

(** ** [broker_ring_shm.c] *)

Definition llam_broker_ring_mapping_ring_valid (ring : Z) : M bool :=
  ring_load ring ring_magic_ok false.

(** Names are absolute, not just the slash, and fit the mapping's field. *)
Definition llam_broker_ring_name_valid (name : option (list Z)) : bool :=
  match name with
  | None => false
  | Some name =>
      let len := Z.of_nat (length name) in
      if (len =? 0) || (LLAM_BROKER_RING_MAPPING_NAME_BYTES <=? len) then false
      else bool_decide (head name = Some 47) && (1 <? len)
  end.

(** [%016llx] *)
Definition hex_digit (d : Z) : Z := if d <? 10 then 48 + d else 87 + d.

Fixpoint hex_digits (n : nat) (v : Z) : list Z :=
  match n with
  | O => []
  | S n => hex_digits n (v / 16) ++ [hex_digit (v mod 16)]
  end.

(** [/llambr-] *)
Definition ring_name_prefix : list Z := [47; 108; 108; 97; 109; 98; 114; 45].

Definition llam_broker_ring_private_name (out_name_len : Z) : M (Z * list Z) :=
  if out_name_len =? 0 then rc ← fail EINVAL; mret (rc, [])
  else
    ea ← llam_public_slot_entropy_from_os;
    match ea with
    | None => rc ← fail EIO; mret (rc, [])
    | Some a =>
        eb ← llam_public_slot_entropy_from_os;
        match eb with
        | None => rc ← fail EIO; mret (rc, [])
        | Some b =>
            if Z.lor a b =? 0 then rc ← fail EIO; mret (rc, [])
            else
              let a := llam_mix64 a in
              let b := llam_mix64 (Z.lxor b 0x9e3779b97f4a7c15) in
              let name := ring_name_prefix ++ hex_digits 16 (Z.lxor a b) in
              if out_name_len <=? Z.of_nat (length name) then rc ← fail ENAMETOOLONG; mret (rc, [])
              else mret (0, name)
        end
    end.

(** ** [broker_ring_shm_posix.c] *)

Definition F_SEAL_SEAL : Z := 1.
Definition F_SEAL_SHRINK : Z := 2.
Definition F_SEAL_GROW : Z := 4.
Definition required_seals : Z := Z.lor (Z.lor F_SEAL_SHRINK F_SEAL_GROW) F_SEAL_SEAL.

Definition llam_broker_ring_mapping_require_fixed_extent (mapping : option ring_mapping) : M Z :=
  match mapping with
  | None => fail EINVAL
  | Some mapping =>
      if rm_fd mapping <? 0 then fail EINVAL
      else
        seals ← sys_fcntl;
        if seals <? 0 then mret (-1)
        else if negb (has_bits seals required_seals) then fail ENOTSUP
        else mret 0
  end.

(** [shm_open] with close-on-exec, retried without it when the kernel rejects
    the flag. *)
Definition llam_broker_ring_shm_open_cloexec : M Z :=
  fd ← sys_open;
  if 0 <=? fd then mret fd
  else
    e ← get_errno;
    if negb (e =? EINVAL) then mret (-1) else sys_open.

Definition llam_broker_ring_set_cloexec_fd (fd : Z) : M Z :=
  if fd <? 0 then fail EINVAL
  else
    flags ← sys_fcntl;
    if flags <? 0 then mret (-1)
    else if negb (Z.land flags FD_CLOEXEC =? 0) then mret 0
    else sys_fcntl.

(** The mapping is written only on success. *)
Definition llam_broker_ring_map_posix_fd (name : list Z) (fd : Z) (owner : bool) :
    M (Z * option ring_mapping) :=
  rc ← llam_broker_ring_set_cloexec_fd fd;
  if negb (rc =? 0) then mret (-1, None)
  else
    addr ← sys_mmap;
    if addr =? 0 then mret (-1, None)
    else mret (0, Some (RingMapping addr sizeof_ring fd owner
                          (take (Z.to_nat (LLAM_BROKER_RING_MAPPING_NAME_BYTES - 1)) name))).

Definition llam_broker_ring_unmap (mapping : option ring_mapping) : M (option ring_mapping) :=
  match mapping with
  | None => mret None
  | Some mapping =>
      (if negb (rm_ring mapping =? 0) && negb (rm_bytes mapping =? 0)
       then sys_munmap (rm_ring mapping) else mret tt) ;;
      (if 0 <=? rm_fd mapping then sys_close (rm_fd mapping) else mret tt) ;;
      (if rm_owner mapping && negb (bool_decide (rm_name mapping = []))
       then sys_shm_unlink (rm_name mapping) else mret tt) ;;
      mret (Some reset_mapping)
  end.

(** [int saved_errno = errno; m; errno = saved_errno; return -1;] with the
    mapping left reset. *)
Definition fail_after (m : M unit) : M (Z * option ring_mapping) :=
  saved_errno ← get_errno; m ;; set_errno saved_errno ;; mret (-1, Some reset_mapping).

Definition size_bad (info : file_stat) : bool := (st_size info <? 0) || (st_size info <? sizeof_ring).

Definition llam_broker_ring_map_fd (fd : Z) (take_ownership : bool)
    (out_mapping : option ring_mapping) : M (Z * option ring_mapping) :=
  if (fd <? 0) || is_null out_mapping then
    rc ← fail EINVAL; mret (rc, llam_broker_ring_mapping_reset out_mapping)
  else
    info ← sys_fstat;
    match info with
    | None => fail_after (if take_ownership then sys_close fd else mret tt)
    | Some info =>
        if size_bad info then
          (if take_ownership then sys_close fd else mret tt) ;;
          rc ← fail EINVAL; mret (rc, Some reset_mapping)
        else
          mapped_fd ← (if negb take_ownership then llam_broker_dup_cloexec_fd fd else mret fd);
          if mapped_fd <? 0 then mret (-1, Some reset_mapping)
          else
            r ← llam_broker_ring_map_posix_fd [] mapped_fd false;
            match r.2 with
            | None => fail_after (sys_close mapped_fd)
            | Some mapping =>
                ok ← llam_broker_ring_mapping_ring_valid (rm_ring mapping);
                if negb ok then
                  m ← llam_broker_ring_unmap (Some mapping); rc ← fail EINVAL; mret (rc, m)
                else mret (0, Some mapping)
            end
    end.

(** Initialise a mapping just created. *)
Definition init_mapping (mapping : ring_mapping) : M (Z * option ring_mapping) :=
  rc ← llam_broker_ring_init (rm_ring mapping);
  if negb (rc =? 0) then
    saved_errno ← get_errno;
    m ← llam_broker_ring_unmap (Some mapping);
    set_errno saved_errno ;; mret (-1, m)
  else mret (0, Some mapping).

Definition llam_broker_ring_create_shm (name : option (list Z)) (out_mapping : option ring_mapping) :
    M (Z * option ring_mapping) :=
  if negb (llam_broker_ring_name_valid name) || is_null out_mapping then
    rc ← fail EINVAL; mret (rc, llam_broker_ring_mapping_reset out_mapping)
  else
    let name := default [] name in
    fd ← llam_broker_ring_shm_open_cloexec;
    if fd <? 0 then mret (-1, Some reset_mapping)
    else
      rc ← sys_ftruncate;
      if negb (rc =? 0) then fail_after (sys_close fd ;; sys_shm_unlink name)
      else
        r ← llam_broker_ring_map_posix_fd name fd true;
        match r.2 with
        | None => fail_after (sys_close fd ;; sys_shm_unlink name)
        | Some mapping => init_mapping mapping
        end.

(** The memfd path: the extent is sealed before the ring is mapped. *)
Definition llam_broker_ring_create_private_fd (out_mapping : option ring_mapping) :
    M (Z * option ring_mapping) :=
  if is_null out_mapping then rc ← fail EINVAL; mret (rc, None)
  else
    fd ← sys_open;
    if fd <? 0 then mret (-1, Some reset_mapping)
    else
      rc ← sys_ftruncate;
      rc2 ← (if negb (rc =? 0) then mret (-1) else sys_fcntl);
      if negb (rc =? 0) || negb (rc2 =? 0) then fail_after (sys_close fd)
      else
        seals ← sys_fcntl;
        if (seals <? 0) || negb (has_bits seals required_seals) then
          e ← get_errno;
          let saved_errno := if seals <? 0 then e else ENOTSUP in
          sys_close fd ;; set_errno saved_errno ;; mret (-1, Some reset_mapping)
        else
          r ← llam_broker_ring_map_posix_fd [] fd true;
          match r.2 with
          | None => fail_after (sys_close fd)
          | Some mapping => init_mapping mapping
          end.

Definition llam_broker_ring_open_shm (name : option (list Z)) (out_mapping : option ring_mapping) :
    M (Z * option ring_mapping) :=
  if negb (llam_broker_ring_name_valid name) || is_null out_mapping then
    rc ← fail EINVAL; mret (rc, llam_broker_ring_mapping_reset out_mapping)
  else
    let name := default [] name in
    fd ← llam_broker_ring_shm_open_cloexec;
    if fd <? 0 then mret (-1, Some reset_mapping)
    else
      info ← sys_fstat;
      match info with
      | None => fail_after (sys_close fd)
      | Some info =>
          if size_bad info then
            sys_close fd ;; rc ← fail EINVAL; mret (rc, Some reset_mapping)
          else
            r ← llam_broker_ring_map_posix_fd name fd false;
            match r.2 with
            | None => fail_after (sys_close fd)
            | Some mapping =>
                ok ← llam_broker_ring_mapping_ring_valid (rm_ring mapping);
                if negb ok then
                  m ← llam_broker_ring_unmap (Some mapping); rc ← fail EINVAL; mret (rc, m)
                else mret (0, Some mapping)
            end
      end.

(** Eight attempts at a name nobody else has. *)
Fixpoint private_shm_attempts (n : nat) (out_mapping : option ring_mapping) :
    M (Z * option ring_mapping) :=
  match n with
  | O => rc ← fail EEXIST; mret (rc, out_mapping)
  | S n =>
      r ← llam_broker_ring_private_name LLAM_BROKER_RING_MAPPING_NAME_BYTES;
      if negb (r.1 =? 0) then mret (-1, out_mapping)
      else
        c ← llam_broker_ring_create_shm (Some r.2) out_mapping;
        if c.1 =? 0 then mret c
        else
          e ← get_errno;
          if negb (e =? EEXIST) then mret (-1, c.2) else private_shm_attempts n c.2
  end.

Definition llam_broker_ring_create_private_shm (out_mapping : option ring_mapping) :
    M (Z * option ring_mapping) :=
  if is_null out_mapping then rc ← fail EINVAL; mret (rc, None)
  else private_shm_attempts 8 (llam_broker_ring_mapping_reset out_mapping).

(** ** What a mapping operation acquires *)

(** Mapped addresses; a session that owns its mapping is responsible for it. *)
Definition mappings : resource :=
  Resource
    (λ ring e, match e with
               | EvMap a => Z.b2z (a =? ring)
               | EvUnmap a => - Z.b2z (a =? ring)
               | _ => 0
               end)
    (λ ring b, count_if (λ s, rs_owns_mapping s && (rs_ring s =? ring)) (b_ring_sessions b)).

#[export] Instance mappings_ok : ResourceOk mappings.
Proof. by split. Qed.

(** The net effect of a run on descriptors and mapped addresses; the broker and
    the thread's frames are untouched. *)
Definition net (fds maps : Z → Z) (w w' : world) : Prop :=
  w_broker w' = w_broker w ∧ w_tls w' = w_tls w ∧
  ∀ k, held descriptors k (os_log (w_os w')) = held descriptors k (os_log (w_os w)) + fds k
     ∧ held mappings k (os_log (w_os w')) = held mappings k (os_log (w_os w)) + maps k.

Abbreviation none := (λ _ : Z, 0).
Definition one (x : Z) : Z → Z := λ k, Z.b2z (x =? k).

Lemma net_refl w : net none none w w.
Proof. split_and!; [done..|]. intros k. lia. Qed.

Lemma net_same F G w w' :
  (∀ k, F k = 0) → (∀ k, G k = 0) →
  w_broker w' = w_broker w → w_tls w' = w_tls w → os_log (w_os w') = os_log (w_os w) → net F G w w'.
Proof. intros HF HG Hb Ht Hl. split_and!; [done..|]. intros k. rewrite Hl, HF, HG. lia. Qed.

Lemma net_trans F1 G1 F2 G2 F G w w1 w2 :
  net F1 G1 w w1 → net F2 G2 w1 w2 →
  (∀ k, F k = F1 k + F2 k) → (∀ k, G k = G1 k + G2 k) → net F G w w2.
Proof.
  intros (A1&B1&H1) (A2&B2&H2) HF HG. split_and!; [congruence|congruence|].
  intros k. destruct (H1 k), (H2 k). rewrite HF, HG. lia.
Qed.

(** Nothing acquired, nothing released. *)
Abbreviation thrifty := (net none none).

#[export] Instance thrifty_preorder : PreOrder thrifty.
Proof.
  split; [intros w; apply net_refl|]. intros w1 w2 w3 H1 H2.
  eapply net_trans; [exact H1|exact H2|done|done].
Qed.

Lemma net_thrifty F G w w1 w2 : net F G w w1 → thrifty w1 w2 → net F G w w2.
Proof. intros H1 H2. eapply net_trans; [exact H1|exact H2|intros k; cbn; lia..]. Qed.

Lemma thrifty_net F G w w1 w2 : thrifty w w1 → net F G w1 w2 → net F G w w2.
Proof. intros H1 H2. eapply net_trans; [exact H1|exact H2|intros k; cbn; lia..]. Qed.

Lemma pres_thrifty_silent {A} (m : M A) : pres silent m → pres thrifty m.
Proof. intros H w. destruct (H w) as [(A1&_&A3) L]. by apply net_same. Qed.

Lemma pres_thrifty_pop {A} (tape : os → list A) set_tape dflt :
  (∀ v o, os_log (set_tape v o) = os_log o) → pres thrifty (pop tape set_tape dflt).
Proof. intros H. by apply pres_thrifty_silent, pres_silent_pop. Qed.

Lemma pres_thrifty_errno e : pres thrifty (set_errno e).
Proof. intros w. by apply net_same. Qed.

Lemma pres_thrifty_fail e : pres thrifty (fail e).
Proof. intros w. by apply net_same. Qed.

Lemma pres_thrifty_unlink name : pres thrifty (sys_shm_unlink name).
Proof. intros w. split_and!; [done|done|]. intros k. cbn. lia. Qed.

Lemma pres_thrifty_fcntl : pres thrifty sys_fcntl.
Proof. apply pres_thrifty_silent, pres_silent_fcntl. Qed.

#[export] Hint Resolve pres_thrifty_errno pres_thrifty_fail pres_thrifty_fcntl pres_thrifty_unlink : llam_quiet.

Lemma pres_thrifty_ftruncate : pres thrifty sys_ftruncate.
Proof. unfold sys_ftruncate. pres_walk. by apply pres_thrifty_pop. Qed.

Lemma pres_thrifty_fstat : pres thrifty sys_fstat.
Proof. unfold sys_fstat. apply pres_bind; [apply _|by apply pres_thrifty_pop|]. intros [?|?]; pres_walk. Qed.

Lemma pres_thrifty_client ring : pres thrifty (client_step ring).
Proof. intros w. unfold client_step, pop. destruct (os_client (w_os w)); mon; by apply net_same. Qed.

Lemma pres_thrifty_ring_load {A} ring (f : broker_ring → A) d : pres thrifty (ring_load ring f d).
Proof.
  unfold ring_load, load_ring. pres_walk. apply pres_thrifty_client.
Qed.

Lemma pres_thrifty_cloexec fd : pres thrifty (llam_broker_ring_set_cloexec_fd fd).
Proof. unfold llam_broker_ring_set_cloexec_fd. pres_walk. Qed.

Lemma pres_thrifty_init ring : pres thrifty (llam_broker_ring_init ring).
Proof.
  intros w. unfold llam_broker_ring_init. mon. branch; mon; by apply net_same.
Qed.

Lemma pres_thrifty_entropy : pres thrifty llam_public_slot_entropy_from_os.
Proof.
  apply pres_bind; [apply _|by apply pres_thrifty_pop|]. intros [|]; pres_walk.
Qed.

#[export] Hint Resolve pres_thrifty_ftruncate pres_thrifty_fstat pres_thrifty_ring_load
  pres_thrifty_cloexec pres_thrifty_init pres_thrifty_entropy : llam_quiet.

Lemma pres_thrifty_private_name n : pres thrifty (llam_broker_ring_private_name n).
Proof.
  unfold llam_broker_ring_private_name. apply pres_if; [pres_walk|].
  apply pres_bind; [apply _|pres_walk|]. intros [a|]; [|pres_walk].
  apply pres_bind; [apply _|pres_walk|]. intros [b|]; pres_walk.
Qed.

Lemma open_net w :
  (sys_open w).1 = -1 ∧ net none none w (sys_open w).2
  ∨ 0 <= (sys_open w).1 ∧ net (one (sys_open w).1) none w (sys_open w).2.
Proof.
  unfold sys_open, pop; mon; destruct (os_open (w_os w)) as [|[fd|e] rest]; mon.
  - left. split; [done|by apply net_same].
  - right. split; [lia|]. split_and!; [done|done|]. intros k. unfold one. cbn. lia.
  - left. split; [done|by apply net_same].
Qed.

Lemma mmap_net w :
  (sys_mmap w).1 = 0 ∧ net none none w (sys_mmap w).2
  ∨ 0 < (sys_mmap w).1 ∧ net none (one (sys_mmap w).1) w (sys_mmap w).2
    ∧ w_rings (sys_mmap w).2 !! (sys_mmap w).1 = Some zero_ring.
Proof.
  unfold sys_mmap, pop; mon; destruct (os_mmap (w_os w)) as [|[a|e] rest]; mon.
  - left. split; [done|by apply net_same].
  - right. split; [lia|]. split; [|by rewrite lookup_insert_eq].
    split_and!; [done|done|]. intros k. unfold one. cbn. lia.
  - left. split; [done|by apply net_same].
Qed.

Lemma close_net fd w : net (λ k, - one fd k) none w (sys_close fd w).2.
Proof. split_and!; [done|done|]. intros k. unfold one. cbn. lia. Qed.

Lemma unmap_net m w :
  0 < rm_ring m → 0 < rm_bytes m → 0 <= rm_fd m →
  (llam_broker_ring_unmap (Some m) w).1 = Some reset_mapping ∧
  net (λ k, - one (rm_fd m) k) (λ k, - one (rm_ring m) k) w (llam_broker_ring_unmap (Some m) w).2.
Proof.
  intros Hr Hby Hf. unfold llam_broker_ring_unmap, sys_munmap, sys_close, sys_shm_unlink.
  rewrite (proj2 (Z.eqb_neq _ 0)) by lia. rewrite (proj2 (Z.eqb_neq (rm_bytes m) 0)) by lia.
  rewrite (proj2 (Z.leb_le _ _)) by lia. mon. branch; mon; (split; [done|]); (split_and!; [done|done|]);
  intros k; unfold one; cbn; lia.
Qed.

Lemma net_eq F G F' G' w w' :
  net F G w w' → (∀ k, F' k = F k) → (∀ k, G' k = G k) → net F' G' w w'.
Proof. intros H HF HG. eapply net_trans; [exact H|apply net_refl|intros k; cbn; rewrite ?HF, ?HG; lia..]. Qed.

Lemma wp_thrifty {A B} (m : M A) (k : A → M B) F G (Q : B → world → Prop) w w0 :
  pres thrifty m → net F G w0 w → (∀ a w', net F G w0 w' → wp (k a) Q w') → wp (m ≫= k) Q w.
Proof.
  intros Hm Hn Hk. apply wp_bind. unfold wp at 1. apply Hk. by eapply net_thrifty.
Qed.

(** A mapping in use. *)
Definition mapping_ok (m : ring_mapping) : Prop :=
  0 < rm_ring m ∧ rm_bytes m = sizeof_ring ∧ 0 <= rm_fd m.

(** How creating or importing a mapping ends: it is handed over, with the
    descriptors it took, or the call fails, the out-parameter is left reset
    and only [lost] was given up. *)
Definition settled (gained : ring_mapping → Z → Z) (lost : Z → Z) (good : broker_ring → Prop)
    (out_mapping : option ring_mapping) (w0 : world) (r : Z * option ring_mapping) (w' : world) : Prop :=
  (∃ m, r = (0, Some m) ∧ mapping_ok m ∧ net (gained m) (one (rm_ring m)) w0 w'
        ∧ ∃ c, w_rings w' !! rm_ring m = Some c ∧ good c)
  ∨ (r = (-1, llam_broker_ring_mapping_reset out_mapping) ∧ net lost none w0 w').

Section settling.
Context (gained : ring_mapping → Z → Z) (lost : Z → Z) (good : broker_ring → Prop) (o : ring_mapping).
Context (w0 : world) (fd : Z) (Hfd : 0 <= fd).
Context (kept : Z → Z) (Hkept : ∀ k, kept k = lost k + one fd k).
Implicit Types w : world.

Abbreviation settle := (settled gained lost good (Some o) w0).

Lemma settle_refused rc w : rc = -1 → net lost none w0 w → settle (rc, Some reset_mapping) w.
Proof. intros -> H. by right. Qed.

Lemma closed_net w : net kept none w0 w → net lost none w0 (sys_close fd w).2.
Proof.
  intros H. eapply net_trans; [exact H|apply close_net|intros k; cbn; rewrite ?Hkept; lia..].
Qed.

Lemma wp_close_fail e w :
  net kept none w0 w → wp (sys_close fd ;; rc ← fail e; mret (rc, Some reset_mapping)) settle w.
Proof.
  intros H. right. split; [done|]. eapply net_thrifty; [by apply closed_net|]. by apply net_same.
Qed.

Lemma wp_fail_after m w :
  net lost none w0 (m w).2 → wp (fail_after m) settle w.
Proof.
  intros H. unfold wp, fail_after. mon. destruct (m w) as [[] w1]. mon. right. split; [done|].
  eapply net_thrifty; [exact H|]. by apply net_same.
Qed.

Lemma wp_fail_after_close w : net kept none w0 w → wp (fail_after (sys_close fd)) settle w.
Proof. intros H. by apply wp_fail_after, closed_net. Qed.

Lemma wp_fail_after_unlink name w :
  net kept none w0 w → wp (fail_after (sys_close fd ;; sys_shm_unlink name)) settle w.
Proof.
  intros H. apply wp_fail_after. eapply net_thrifty; [by apply closed_net|]. apply pres_thrifty_unlink.
Qed.

(** Mapping the descriptor either leaves it alone or takes it over. *)
Lemma map_posix_cases name owner w (Q : Z * option ring_mapping → world → Prop) :
  net kept none w0 w →
  (∀ w', net kept none w0 w' → Q (-1, None) w') →
  (∀ m w', rm_fd m = fd → mapping_ok m → net kept (one (rm_ring m)) w0 w' →
     is_Some (w_rings w' !! rm_ring m) → Q (0, Some m) w') →
  wp (llam_broker_ring_map_posix_fd name fd owner) Q w.
Proof.
  intros H Hn Hs. eapply wp_thrifty; [apply pres_thrifty_cloexec|exact H|]. intros rc w1 H1.
  apply wp_if; [intros _; by apply Hn|intros _]. apply wp_bind. unfold wp at 1.
  destruct (mmap_net w1) as [[E N]|(L&N&R)].
  - rewrite E. apply Hn. by eapply net_thrifty.
  - rewrite (proj2 (Z.eqb_neq _ 0)) by lia. apply Hs; [done|by split_and!| |eexists; exact R].
    eapply net_trans; [exact H1|exact N|intros k; cbn; lia..].
Qed.

(** Giving a mapping up returns what it had taken. *)
Lemma unmapped_net m w :
  rm_fd m = fd → mapping_ok m → net kept (one (rm_ring m)) w0 w →
  (llam_broker_ring_unmap (Some m) w).1 = Some reset_mapping ∧
  net lost none w0 (llam_broker_ring_unmap (Some m) w).2.
Proof.
  intros Hm (M1&M2&M3) H. destruct (unmap_net m w M1 ltac:(by rewrite M2) M3) as [E N]. split; [done|].
  eapply net_trans; [exact H|exact N|intros k; cbn; rewrite ?Hkept, ?Hm; lia..].
Qed.

Lemma wp_unmap_fail e m w :
  rm_fd m = fd → mapping_ok m → net kept (one (rm_ring m)) w0 w →
  wp (m ← llam_broker_ring_unmap (Some m); rc ← fail e; mret (rc, m)) settle w.
Proof.
  intros Hm Hok H. destruct (unmapped_net m w Hm Hok H) as [E N].
  apply wp_bind. unfold wp at 1. rewrite E. right. split; [done|].
  eapply net_thrifty; [exact N|]. by apply net_same.
Qed.

Lemma wp_init_mapping m w :
  good init_ring → (∀ m k, rm_fd m = fd → gained m k = kept k) →
  rm_fd m = fd → mapping_ok m → net kept (one (rm_ring m)) w0 w → is_Some (w_rings w !! rm_ring m) →
  wp (init_mapping m) settle w.
Proof.
  intros Hg Hgain Hm Hok H [c Hc]. unfold wp, init_mapping, llam_broker_ring_init. mon. rewrite Hc. mon.
  left. exists m. split_and!; [done|done| |exists init_ring; split; [|done]].
  - eapply net_eq; [eapply net_thrifty; [exact H|by apply net_same]|intros k; by rewrite ?Hgain|done].
  - cbn. by rewrite lookup_alter_eq, Hc.
Qed.

(** A mapping of somebody else's ring is kept only if it looks like a ring. *)
Lemma wp_checked m w :
  good = ring_magic_ok → (∀ m k, rm_fd m = fd → gained m k = kept k) →
  rm_fd m = fd → mapping_ok m → net kept (one (rm_ring m)) w0 w →
  wp (ok ← llam_broker_ring_mapping_ring_valid (rm_ring m);
      if negb ok then m ← llam_broker_ring_unmap (Some m); rc ← fail EINVAL; mret (rc, m)
      else mret (0, Some m)) settle w.
Proof.
  intros Hg Hgain Hm Hok H. apply wp_bind. unfold wp at 1.
  pose proof (pres_thrifty_ring_load (rm_ring m) ring_magic_ok false w) as T.
  unfold llam_broker_ring_mapping_ring_valid. 
  assert (∀ b, b = (ring_load (rm_ring m) ring_magic_ok false w).1 → b = true →
    ∃ c, w_rings (ring_load (rm_ring m) ring_magic_ok false w).2 !! rm_ring m = Some c ∧ ring_magic_ok c) as V.
  { intros b -> Hb. revert Hb. unfold ring_load, load_ring. mon. destruct (client_step _ w) as [[] w1]. mon.
    destruct (w_rings w1 !! rm_ring m) as [c|]; cbn; [|done]. intros Hc. exists c. by rewrite Hc. }
  apply wp_if; intros Hb; bools.
  - apply wp_unmap_fail; [done|done|]. by eapply net_thrifty.
  - left. exists m. rewrite Hg. split_and!; [done|done| |by eapply V].
    eapply net_eq; [by eapply net_thrifty|intros k; by rewrite ?Hgain|done].
Qed.
End settling.

(** ** The operations *)

Lemma open_cloexec_net w :
  let r := llam_broker_ring_shm_open_cloexec w in
  r.1 = -1 ∧ net none none w r.2 ∨ 0 <= r.1 ∧ net (one r.1) none w r.2.
Proof.
  cbn zeta. unfold llam_broker_ring_shm_open_cloexec. mon. pose proof (open_net w) as H.
  destruct (sys_open w) as [fd w1]. mon. branch; bools; mon; [|branch; bools; mon].
  - destruct H as [[? ?]|?]; [lia|by right].
  - destruct H as [[? ?]|[? ?]]; [|lia]. by left.
  - destruct H as [[? H]|[? ?]]; [|lia].
    destruct (open_net w1) as [[E N]|[L N]]; [left|right]; (split; [done|]); by eapply thrifty_net.
Qed.

(** A fresh descriptor is settled by what follows it. *)
Lemma wp_opened gained good o (open : M Z) k w :
  (open w).1 = -1 ∧ net none none w (open w).2 ∨ 0 <= (open w).1 ∧ net (one (open w).1) none w (open w).2 →
  (∀ fd w', 0 <= fd → net (one fd) none w w' → wp (k fd) (settled gained none good (Some o) w) w') →
  wp (fd ← open; if fd <? 0 then mret (-1, Some reset_mapping) else k fd)
     (settled gained none good (Some o) w) w.
Proof.
  intros H Hk. apply wp_bind. unfold wp at 1. destruct H as [[E N]|[L N]].
  - rewrite E. by right.
  - rewrite (proj2 (Z.ltb_ge _ _)) by done. by apply Hk.
Qed.

Definition owns_fd (m : ring_mapping) : Z → Z := one (rm_fd m).

Lemma owned_kept (fd : Z) k : one fd k = none k + one fd k.
Proof. done. Qed.

Lemma owned_gained fd m k : rm_fd m = fd → owns_fd m k = one fd k.
Proof. by intros <-. Qed.

Lemma null_settled gained lost good w e :
  (∀ k, lost k = 0) → wp (rc ← fail e; mret (rc, None)) (settled gained lost good None w) w.
Proof. intros H. right. split; [done|]. by apply net_same. Qed.

Lemma refused_settled gained lost good out w e :
  (∀ k, lost k = 0) →
  wp (rc ← fail e; mret (rc, llam_broker_ring_mapping_reset out)) (settled gained lost good out w) w.
Proof. intros H. right. split; [done|]. by apply net_same. Qed.

Lemma create_shm_settled name out w :
  wp (llam_broker_ring_create_shm name out) (settled owns_fd none (eq init_ring) out w) w.
Proof.
  unfold llam_broker_ring_create_shm. apply wp_if; [intros _; by apply refused_settled|intros Hn].
  destruct out as [o|]; [|by rewrite orb_true_r in Hn]. cbn zeta.
  apply (wp_opened owns_fd _ o llam_broker_ring_shm_open_cloexec
           (λ fd, _)); [apply open_cloexec_net|]. intros fd w1 Hfd H1.
  eapply wp_thrifty; [apply pres_thrifty_ftruncate|exact H1|]. intros rc w2 H2.
  apply wp_if; intros _; [by eapply wp_fail_after_unlink; [apply owned_kept|]|].
  apply wp_bind. eapply map_posix_cases; [done|exact H2|intros w3 H3|intros m w3 Hm Hok H3 Hr]; cbn.
  - by eapply wp_fail_after_unlink; [apply owned_kept|].
  - by eapply wp_init_mapping; [..|exact Hm|exact Hok|exact H3|exact Hr]; [| apply owned_gained].
Qed.

Lemma create_private_fd_settled out w :
  wp (llam_broker_ring_create_private_fd out) (settled owns_fd none (eq init_ring) out w) w.
Proof.
  unfold llam_broker_ring_create_private_fd. destruct out as [o|]; [|by apply null_settled]. cbn [is_null].
  apply (wp_opened owns_fd _ o sys_open (λ fd, _)); [apply open_net|]. intros fd w1 Hfd H1.
  eapply wp_thrifty; [apply pres_thrifty_ftruncate|exact H1|]. intros rc w2 H2.
  eapply wp_thrifty; [apply pres_if; pres_walk|exact H2|]. intros rc2 w3 H3.
  apply wp_if; intros _; [by eapply wp_fail_after_close; [apply owned_kept|]|].
  eapply wp_thrifty; [apply pres_thrifty_fcntl|exact H3|]. intros seals w4 H4.
  apply wp_if; intros _.
  - right. split; [done|]. eapply net_thrifty; [by eapply closed_net; [apply owned_kept|exact H4]|].
    by apply net_same.
  - apply wp_bind. eapply map_posix_cases; [done|exact H4|intros w5 H5|intros m w5 Hm Hok H5 Hr]; cbn.
    + by eapply wp_fail_after_close; [apply owned_kept|].
    + by eapply wp_init_mapping; [..|exact Hm|exact Hok|exact H5|exact Hr]; [| apply owned_gained].
Qed.

Lemma open_shm_settled name out w :
  wp (llam_broker_ring_open_shm name out) (settled owns_fd none ring_magic_ok out w) w.
Proof.
  unfold llam_broker_ring_open_shm. apply wp_if; [intros _; by apply refused_settled|intros Hn].
  destruct out as [o|]; [|by rewrite orb_true_r in Hn]. cbn zeta.
  apply (wp_opened owns_fd _ o llam_broker_ring_shm_open_cloexec
           (λ fd, _)); [apply open_cloexec_net|]. intros fd w1 Hfd H1.
  eapply wp_thrifty; [apply pres_thrifty_fstat|exact H1|]. intros [info|] w2 H2;
    [|by eapply wp_fail_after_close; [apply owned_kept|]].
  apply wp_if; intros _; [by eapply wp_close_fail; [apply owned_kept|]|].
  apply wp_bind. eapply map_posix_cases; [done|exact H2|intros w3 H3|intros m w3 Hm Hok H3 Hr]; cbn.
  - by eapply wp_fail_after_close; [apply owned_kept|].
  - by eapply wp_checked; [apply owned_kept|done|apply owned_gained|..].
Qed.

Lemma dup_net fd w :
  (llam_broker_dup_cloexec_fd fd w).1 < 0 ∧ thrifty w (llam_broker_dup_cloexec_fd fd w).2
  ∨ 0 <= (llam_broker_dup_cloexec_fd fd w).1
    ∧ net (one (llam_broker_dup_cloexec_fd fd w).1) none w (llam_broker_dup_cloexec_fd fd w).2.
Proof.
  destruct (dup_cases fd w) as (r&w1&->&(A1&_&A3)&[[Hr L]|[(d&Hr&Hd&L)|[Hr L]]]); cbn [fst snd].
  - left. split; [done|by apply net_same].
  - left. split; [done|]. split_and!; [done|done|]. intros k. rewrite L. cbn. lia.
  - right. split; [done|]. split_and!; [done|done|]. intros k. rewrite L. unfold one. cbn. lia.
Qed.

(** What an import does to the descriptor it was given. *)
Definition given (take_ownership : bool) (fd : Z) : Z → Z :=
  λ k, if take_ownership then - one fd k else 0.

Lemma close_given_net take_ownership fd w :
  net (given take_ownership fd) none w ((if take_ownership then sys_close fd else mret tt) w).2.
Proof. destruct take_ownership; [apply close_net|]. by apply net_same. Qed.

(** The descriptor that is mapped: the one given, or a duplicate. *)
Lemma mapped_fd_net take_ownership fd w :
  0 <= fd →
  let r := (if negb take_ownership then llam_broker_dup_cloexec_fd fd else mret fd) w in
  r.1 < 0 ∧ take_ownership = false ∧ thrifty w r.2
  ∨ 0 <= r.1 ∧ net (λ k, given take_ownership fd k + one r.1 k) none w r.2.
Proof.
  intros Hfd. destruct take_ownership; cbn [negb given].
  - right. split; [done|]. apply net_same; [|done..]. intros k. cbn. lia.
  - destruct (dup_net fd w) as [[? ?]|[? H]]; [by left|right]. split; [done|].
    eapply net_eq; [exact H|done|done].
Qed.

Lemma map_fd_settled fd take_ownership out w :
  0 <= fd → is_Some out →
  wp (llam_broker_ring_map_fd fd take_ownership out)
     (settled (λ m k, given take_ownership fd k + owns_fd m k) (given take_ownership fd) ring_magic_ok out w) w.
Proof.
  intros Hfd [o ->]. unfold llam_broker_ring_map_fd. rewrite (proj2 (Z.ltb_ge fd 0)) by done.
  cbn [orb is_null]. eapply wp_thrifty; [apply pres_thrifty_fstat|apply net_refl|]. intros [info|] w1 H1.
  2: { apply wp_fail_after. eapply thrifty_net; [exact H1|apply close_given_net]. }
  apply wp_if; intros _.
  { right. split; [by destruct take_ownership|]. eapply thrifty_net; [exact H1|].
    eapply net_thrifty; [apply (close_given_net take_ownership)|]. by destruct take_ownership; apply net_same. }
  apply wp_bind. unfold wp at 1. destruct (mapped_fd_net take_ownership fd w1 Hfd) as [(E&Ht&N)|(L&N)].
  { rewrite (proj2 (Z.ltb_lt _ 0)) by exact E. right. split; [done|]. subst take_ownership.
    eapply thrifty_net; [exact H1|exact N]. }
  rewrite (proj2 (Z.ltb_ge _ 0)) by exact L. pose proof (thrifty_net _ _ _ _ _ H1 N) as H2.
  apply wp_bind. eapply map_posix_cases; [exact L|exact H2|intros w3 H3|intros m w3 Hm Hok H3 Hr]; cbn.
  - by eapply wp_fail_after_close; [intros k; reflexivity|].
  - eapply wp_checked; [intros k; reflexivity|done| |exact Hm|exact Hok|exact H3].
    intros m' k Hm'. cbn. unfold owns_fd. by rewrite Hm'.
Qed.

Lemma attempts_settled n w w0 :
  thrifty w0 w →
  wp (private_shm_attempts n (Some reset_mapping))
     (settled owns_fd none (eq init_ring) (Some reset_mapping) w0) w.
Proof.
  revert w. induction n as [|n IH]; intros w H.
  { right. split; [done|]. eapply net_thrifty; [exact H|]. by apply net_same. }
  eapply wp_thrifty; [apply pres_thrifty_private_name|exact H|]. intros r w1 H1.
  apply wp_if; intros _; [by right|]. apply wp_bind.
  eapply wp_mono; [apply create_shm_settled|]. intros c w2 [(m&->&Hok&N&Hc)|[-> N]]; cbn.
  - left. exists m. split_and!; [done|done| |done]. by eapply thrifty_net.
  - pose proof (thrifty_net _ _ _ _ _ H1 N) as H2. apply wp_bind. unfold wp at 1. cbn [get_errno gets fst snd].
    apply wp_if; intros _; [by right|]. by apply IH.
Qed.

Lemma create_private_shm_settled out w :
  wp (llam_broker_ring_create_private_shm out) (settled owns_fd none (eq init_ring) out w) w.
Proof.
  unfold llam_broker_ring_create_private_shm. destruct out as [o|]; [|by apply null_settled].
  apply attempts_settled, net_refl.
Qed.

(** Creating, importing and dropping a ring mapping is accounted for to the
    descriptor and to the page.  Creating one (private memfd, named segment or
    private name) and opening a named one either return 0 with a mapping that
    holds exactly the descriptor the call opened and the address it mapped,
    initialised or looking like a ring, or return -1 with the out-parameter
    reset and nothing left open or mapped.  Importing a descriptor does the
    same, and consumes the descriptor it was given in every case if and only if
    it was told to take ownership.  Unmapping gives both back. *)
Theorem ring_mapping_conserved name out o fd take_ownership m w :
  0 <= fd → mapping_ok m →
  wp (llam_broker_ring_create_private_fd out) (settled owns_fd none (eq init_ring) out w) w
  ∧ wp (llam_broker_ring_create_shm name out) (settled owns_fd none (eq init_ring) out w) w
  ∧ wp (llam_broker_ring_create_private_shm out) (settled owns_fd none (eq init_ring) out w) w
  ∧ wp (llam_broker_ring_open_shm name out) (settled owns_fd none ring_magic_ok out w) w
  ∧ wp (llam_broker_ring_map_fd fd take_ownership (Some o))
       (settled (λ m k, given take_ownership fd k + owns_fd m k) (given take_ownership fd)
                ring_magic_ok (Some o) w) w
  ∧ wp (llam_broker_ring_unmap (Some m))
       (λ r w', r = Some reset_mapping ∧ net (λ k, - owns_fd m k) (λ k, - one (rm_ring m) k) w w') w.
Proof.
  intros Hfd (M1&M2&M3). split_and!.
  - apply create_private_fd_settled.
  - apply create_shm_settled.
  - apply create_private_shm_settled.
  - apply open_shm_settled.
  - by apply map_fd_settled.
  - apply unmap_net; [done|by rewrite M2|done].
Qed.

(** ** Witness *)

Definition mapping_world : world :=
  set_w_os (set_os_open [inl 7%nat] (set_os_truncate [0] (set_os_fcntl [0; required_seals; FD_CLOEXEC]
    (set_os_mmap [inl 5%positive] quiet_os)))) example_world.

Definition live_mapping : ring_mapping := RingMapping 5 sizeof_ring 7 true [].

(** A private memfd ring comes up at address 5 behind descriptor 7. *)
Lemma ring_mapping_conserved_witness :
  (llam_broker_ring_create_private_fd (Some reset_mapping) mapping_world).1 = (0, Some live_mapping)
  ∧ settled owns_fd none (eq init_ring) (Some reset_mapping) mapping_world
      (llam_broker_ring_create_private_fd (Some reset_mapping) mapping_world).1
      (llam_broker_ring_create_private_fd (Some reset_mapping) mapping_world).2.
Proof.
  split; [vm_compute; reflexivity|].
  exact (proj1 (ring_mapping_conserved None (Some reset_mapping) reset_mapping 3 true live_mapping
    mapping_world ltac:(lia) ltac:(by split_and!))).
Defined.
