(* ===== verification/BrokerSession.v ===== *)
(** * Ring and transport sessions

    The broker's session tables: [src/core/broker/ring/broker_ring.c] (ring
    sessions own the mappings behind rings and the private progress cursors),
    [transport/broker_transport.c] (one subject per control connection, and the
    reclamation of everything a subject owned) and the locked part of
    [transport/broker_transport_rollback.c].  Serving a session is in
    [RingServe].  The theorems say that session mappings are released exactly
    once, that live connections never share a subject, and that a forgotten
    connection leaves nothing behind. *)

From S2P Require Import Prelude Mix World Capability BrokerOps BrokerCore BrokerBuffer BrokerChannel.
From S2P Require Import BrokerRevoke BrokerDescriptor BrokerTask Ring RingMap.

(** ** Ring sessions *)

Definition session_at (b : broker) (i : nat) : ring_session :=
  nth i (b_ring_sessions b) zero_ring_session.

Definition set_session (i : nat) (s : ring_session) : M unit :=
  upd_broker (λ b, set_b_ring_sessions (<[i := s]> (b_ring_sessions b)) b).

(** A session cleared by [memset], with [mapping_fd = -1]. *)
Definition cleared_session : ring_session := set_rs_mapping_fd (-1) zero_ring_session.

(** The mapping a session holds, as its owner. *)
Definition session_mapping (s : ring_session) : ring_mapping :=
  RingMapping (rs_ring s) (rs_mapping_bytes s) (rs_mapping_fd s) true
    (take (Z.to_nat (LLAM_BROKER_RING_MAPPING_NAME_BYTES - 1)) (rs_mapping_name s)).

(** [session] is the index of the session, or NULL. *)
Definition llam_broker_ring_session_take_mapping (session : option nat)
    (out_mapping : option ring_mapping) : M (bool * option ring_mapping) :=
  let out := llam_broker_ring_mapping_reset out_mapping in
  match session with
  | None => mret (false, out)
  | Some i =>
      b ← the_broker;
      let s := session_at b i in
      if rs_owns_mapping s then
        match out with
        | None => mret (false, None)
        | Some _ => set_session i cleared_session ;; mret (true, Some (session_mapping s))
        end
      else set_session i cleared_session ;; mret (false, out)
  end.

(** The search of [llam_broker_ring_session_get]: a live session of the ring,
    the first free slot, or nothing. *)
Inductive session_slot := SessionFound (i : nat) | SessionFree (i : nat) | SessionFull.

Fixpoint session_scan (ring : Z) (i : nat) (free_session : option nat) (l : list ring_session) :
    session_slot :=
  match l with
  | [] => match free_session with Some j => SessionFree j | None => SessionFull end
  | s :: l =>
      if rs_active s && (rs_ring s =? ring) then SessionFound i
      else session_scan ring (S i)
             (match free_session with
              | None => if negb (rs_active s) then Some i else None
              | Some _ => free_session
              end) l
  end.

Definition llam_broker_ring_session_get (ring subject_id : Z)
    (out_reclaimed_mapping : option ring_mapping) : M (option nat * option ring_mapping) :=
  if is_null out_reclaimed_mapping then set_errno EINVAL ;; mret (None, None)
  else
    b ← the_broker;
    match session_scan ring 0 None (b_ring_sessions b) with
    | SessionFound i =>
        if negb (rs_subject_id (session_at b i) =? subject_id)
        then set_errno EACCES ;; mret (None, Some reset_mapping)
        else mret (Some i, Some reset_mapping)
    | SessionFull => set_errno ENOSPC ;; mret (None, Some reset_mapping)
    | SessionFree i =>
        r ← llam_broker_ring_session_take_mapping (Some i) (Some reset_mapping);
        b ← the_broker;
        set_session i (set_rs_active true (set_rs_mapping_fd (-1)
          (set_rs_subject_id subject_id (set_rs_ring ring (session_at b i))))) ;;
        mret (Some i, r.2)
    end.

(** On success the operation pin and the lock are held. *)
Definition llam_broker_ring_begin_locked_owned_session (session_id subject_id : Z) :
    M (Z * option nat) :=
  if (session_id =? 0) || (Z.of_nat LLAM_BROKER_RING_SESSIONS <? session_id)
  then rc ← fail EINVAL; mret (rc, None)
  else
    rc ← llam_broker_begin_op_subject subject_id;
    if negb (rc =? 0) then mret (-1, None)
    else
      rc ← llam_broker_lock;
      if negb (rc =? 0) then llam_broker_end_op ;; mret (-1, None)
      else
        b ← the_broker;
        let i := Z.to_nat (session_id - 1) in
        let s := session_at b i in
        if negb (rs_active s) || negb (rs_owns_mapping s) || (rs_ring s =? 0) then
          llam_broker_unlock ;; llam_broker_end_op ;; rc ← fail EINVAL; mret (rc, None)
        else if negb (rs_subject_id s =? subject_id) then
          llam_broker_unlock ;; llam_broker_end_op ;; rc ← fail EACCES; mret (rc, None)
        else mret (0, Some i).

(** [if (mapping.owner) llam_broker_ring_unmap(&mapping);] *)
Definition unmap_reclaimed (mapping : option ring_mapping) : M unit :=
  match mapping with
  | Some m => if rm_owner m then llam_broker_ring_unmap (Some m) ;; mret tt else mret tt
  | None => mret tt
  end.

(** The tail of the failing paths of [llam_broker_ring_register_mapping]. *)
Definition register_refused (reclaimed : option ring_mapping) (saved_errno : Z)
    (mapping : ring_mapping) : M (Z * option ring_mapping * option Z) :=
  llam_broker_unlock ;;
  unmap_reclaimed reclaimed ;;
  llam_broker_end_op ;;
  set_errno saved_errno ;;
  mret (-1, Some mapping, Some 0).

(** Returns the caller's mapping, emptied when the session took it over, and
    the session id. *)
Definition llam_broker_ring_register_mapping (mapping : option ring_mapping) (subject_id : Z)
    (out_session_id : option Z) : M (Z * option ring_mapping * option Z) :=
  let out0 := (λ _, 0) <$> out_session_id in
  on_broker (rc ← fail EINVAL; mret (rc, mapping, out0)) (λ _,
    match mapping, out_session_id with
    | Some m, Some _ =>
        valid ← llam_broker_ring_valid (rm_ring m);
        if negb valid then rc ← fail EINVAL; mret (rc, mapping, out0)
        else
          rc ← llam_broker_ring_mapping_require_fixed_extent mapping;
          if negb (rc =? 0) then mret (-1, mapping, out0)
          else
            rc ← llam_broker_begin_op_subject subject_id;
            if negb (rc =? 0) then mret (-1, mapping, out0)
            else
              rc ← llam_broker_lock;
              if negb (rc =? 0) then llam_broker_end_op ;; mret (-1, mapping, out0)
              else
                b ← the_broker;
                if negb (b_initialized b) || is_null (b_runtime b) then
                  llam_broker_unlock ;; llam_broker_end_op ;;
                  rc ← fail EINVAL; mret (rc, mapping, out0)
                else
                  r ← llam_broker_ring_session_get (rm_ring m) subject_id (Some reset_mapping);
                  match r.1 with
                  | None => e ← get_errno; register_refused r.2 e m
                  | Some i =>
                      b ← the_broker;
                      let s := session_at b i in
                      if rs_owns_mapping s then register_refused r.2 EBUSY m
                      else
                        set_session i (set_rs_owns_mapping true
                          (set_rs_mapping_name
                             (take (Z.to_nat (LLAM_BROKER_RING_MAPPING_NAME_BYTES - 1)) (rm_name m))
                             (set_rs_mapping_fd (rm_fd m) (set_rs_mapping_bytes (rm_bytes m) s)))) ;;
                        llam_broker_unlock ;;
                        unmap_reclaimed r.2 ;;
                        llam_broker_end_op ;;
                        mret (0, Some reset_mapping, Some (Z.of_nat i + 1))
                  end
    | _, _ => rc ← fail EINVAL; mret (rc, mapping, out0)
    end).

Definition llam_broker_ring_forget_session (session_id subject_id : Z) : M Z :=
  r ← llam_broker_ring_begin_locked_owned_session session_id subject_id;
  match r with
  | (_, None) => mret (-1)
  | (_, Some i) =>
      b ← the_broker;
      if rs_busy (session_at b i) then llam_broker_unlock ;; llam_broker_end_op ;; fail EBUSY
      else
        t ← llam_broker_ring_session_take_mapping (Some i) (Some reset_mapping);
        llam_broker_unlock ;;
        (if t.1 : bool then llam_broker_ring_unmap t.2 ;; mret tt else mret tt) ;;
        llam_broker_end_op ;;
        mret 0
  end.

(** One session of [llam_broker_reclaim_subject_rings]: the mapping taken, and
    whether the teardown is left to the busy session. *)
Definition reclaim_ring_slot (subject_id : Z) (i : nat) : M (list ring_mapping * bool) :=
  b ← the_broker;
  let s := session_at b i in
  if negb (rs_subject_id s =? subject_id) || (negb (rs_active s) && negb (rs_owns_mapping s))
  then mret ([], false)
  else if rs_busy s then set_session i (set_rs_reclaim_pending true s) ;; mret ([], true)
  else
    t ← llam_broker_ring_session_take_mapping (Some i) (Some reset_mapping);
    mret (if t.1 : bool then option_list t.2 else [], false).

Fixpoint reclaim_ring_slots (subject_id : Z) (n i : nat) : M (list ring_mapping * bool) :=
  match n with
  | O => mret ([], false)
  | S n =>
      r ← reclaim_ring_slot subject_id i;
      rest ← reclaim_ring_slots subject_id n (S i);
      mret (r.1 ++ rest.1, (r.2 || rest.2)%bool)
  end.

Fixpoint unmap_all (mappings : list ring_mapping) : M unit :=
  match mappings with
  | [] => mret tt
  | m :: mappings => llam_broker_ring_unmap (Some m) ;; unmap_all mappings
  end.

Definition llam_broker_reclaim_subject_rings (subject_id : Z) : M bool :=
  on_broker (mret false) (λ _,
    if subject_id =? 0 then mret false
    else
      rc ← llam_broker_lock;
      if negb (rc =? 0) then mret true
      else
        r ← reclaim_ring_slots subject_id LLAM_BROKER_RING_SESSIONS 0;
        llam_broker_unlock ;;
        unmap_all r.1 ;;
        mret r.2).

(** ** Transport subjects *)

Definition LLAM_BROKER_SUBJECT_MINT_ATTEMPTS : nat := 8.

Definition llam_broker_transport_subject_in_use_unlocked (b : broker) (subject : Z) : bool :=
  if subject =? 0 then false
  else existsb (λ s, tr_active s && (tr_subject_id s =? subject)) (b_transport_sessions b).

Definition llam_broker_new_transport_subject (transport_id nonce : Z) : M (option Z) :=
  e ← llam_public_slot_entropy_from_os;
  match e with
  | None => set_errno EIO ;; mret None
  | Some entropy =>
      let subject := llam_mix64 (Z.lxor (Z.lxor entropy transport_id) nonce) in
      let subject :=
        if subject =? 0 then
          let subject := llam_mix64 (Z.lxor 0x9e3779b97f4a7c15 nonce) in
          if subject =? 0 then 0x9e3779b97f4a7c15 else subject
        else subject in
      mret (Some subject)
  end.

Inductive transport_slot := TransportFound (i : nat) | TransportFree (i : nat) | TransportFull.

Fixpoint transport_scan (transport_id : Z) (i : nat) (free_session : option nat)
    (l : list transport_session) : transport_slot :=
  match l with
  | [] => match free_session with Some j => TransportFree j | None => TransportFull end
  | s :: l =>
      if tr_active s && (tr_transport_id s =? transport_id) then TransportFound i
      else transport_scan transport_id (S i)
             (match free_session with
              | None => if negb (tr_active s) then Some i else None
              | Some _ => free_session
              end) l
  end.

Definition transport_at (b : broker) (i : nat) : transport_session :=
  nth i (b_transport_sessions b) zero_transport_session.

Definition set_transport (i : nat) (s : transport_session) : M unit :=
  upd_broker (λ b, set_b_transport_sessions (<[i := s]> (b_transport_sessions b)) b).

(** Up to [attempts] draws of a subject nobody live has. *)
Fixpoint mint_subject (attempts : nat) (transport_id : Z) (free_session : nat) : M (Z * Z) :=
  match attempts with
  | O => llam_broker_unlock ;; rc ← fail EIO; mret (rc, 0)
  | S attempts =>
      upd_broker (λ b,
        let nonce := u64 (b_next_transport_subject_nonce b + 1) in
        set_b_next_transport_subject_nonce (if nonce =? 0 then 1 else nonce) b) ;;
      b ← the_broker;
      s ← llam_broker_new_transport_subject transport_id (b_next_transport_subject_nonce b);
      match s with
      | None => llam_broker_unlock ;; mret (-1, 0)
      | Some subject =>
          if negb (llam_broker_transport_subject_in_use_unlocked b subject) then
            set_transport free_session (TransportSession transport_id subject true) ;;
            llam_broker_unlock ;;
            mret (0, subject)
          else mint_subject attempts transport_id free_session
      end
  end.

Definition llam_broker_transport_subject (transport_id : Z) (out_subject_id : option Z) :
    M (Z * option Z) :=
  on_broker (rc ← fail EINVAL; mret (rc, (λ _, 0) <$> out_subject_id)) (λ _,
    if is_null out_subject_id then rc ← fail EINVAL; mret (rc, None)
    else
      rc ← llam_broker_lock;
      if negb (rc =? 0) then mret (-1, Some 0)
      else
        b ← the_broker;
        if negb (b_initialized b) || is_null (b_runtime b) || b_destroying b then
          llam_broker_unlock ;; rc ← fail EINVAL; mret (rc, Some 0)
        else
          match transport_scan transport_id 0 None (b_transport_sessions b) with
          | TransportFound i =>
              llam_broker_unlock ;; mret (0, Some (tr_subject_id (transport_at b i)))
          | TransportFull => llam_broker_unlock ;; rc ← fail ENOSPC; mret (rc, Some 0)
          | TransportFree i =>
              r ← mint_subject LLAM_BROKER_SUBJECT_MINT_ATTEMPTS transport_id i;
              mret (r.1, Some r.2)
          end).

Definition llam_broker_reclaim_subject_objects (subject_id : Z) : M unit :=
  on_broker (mret tt) (λ _,
    if subject_id =? 0 then mret tt
    else
      deferred ← llam_broker_reclaim_subject_rings subject_id;
      if deferred : bool then mret tt
      else
        llam_broker_reclaim_subject_buffers subject_id ;;
        llam_broker_reclaim_subject_descriptors subject_id ;;
        llam_broker_reclaim_subject_channels subject_id ;;
        llam_broker_reclaim_subject_tasks subject_id).

Definition llam_broker_forget_transport_subject (transport_id : Z) : M unit :=
  on_broker (mret tt) (λ _,
    rc ← llam_broker_begin_op;
    if negb (rc =? 0) then mret tt
    else
      rc ← llam_broker_lock;
      if negb (rc =? 0) then llam_broker_end_op
      else
        b ← the_broker;
        subject_id ←
          match transport_scan transport_id 0 None (b_transport_sessions b) with
          | TransportFound i =>
              set_transport i zero_transport_session ;; mret (tr_subject_id (transport_at b i))
          | _ => mret 0
          end;
        llam_broker_unlock ;;
        (if negb (subject_id =? 0) then llam_broker_reclaim_subject_objects subject_id else mret tt) ;;
        llam_broker_end_op).

(** ** Rolling a created grant back *)

(** The slot a token names, whatever its rights. *)
Definition named_slot `{BrokerSlot T} (token : capability_token) (l : list T) : option nat :=
  first_free (slot_matches token) 0 l.

(** Returns the task handle to detach outside the lock.  The compare-exchange
    loop on the task state is one step. *)
Definition llam_broker_rollback_response_token_locked (token : option capability_token) : M Z :=
  on_broker (mret 0) (λ b,
    match token with
    | None => mret 0
    | Some token =>
        if tok_family token =? LLAM_BROKER_CAP_FAMILY_BUFFER then
          match named_slot token (b_buffers b) with
          | Some i => llam_broker_buffer_slot_reset i ;; mret 0
          | None => mret 0
          end
        else if tok_family token =? LLAM_BROKER_CAP_FAMILY_CHANNEL then
          match named_slot token (channels_of b) with
          | Some i => upd_channel i (λ _, zero_channel_slot) ;; mret 0
          | None => mret 0
          end
        else if tok_family token =? LLAM_BROKER_CAP_FAMILY_DESCRIPTOR then
          match named_slot token (b_descriptors b) with
          | Some i =>
              llam_broker_descriptor_close_owned_slot (descriptor_at b i) ;;
              llam_broker_descriptor_reset_slot i ;; mret 0
          | None => mret 0
          end
        else if tok_family token =? LLAM_BROKER_CAP_FAMILY_TASK then
          match named_slot token (b_tasks b) with
          | Some i =>
              let slot := task_at b i in
              match ts_state slot with
              | TASK_STATE_COMPLETED => set_task i zero_task_slot ;; mret (ts_task slot)
              | TASK_STATE_SPAWNED =>
                  set_task i (set_ts_rights 0 (set_ts_state TASK_STATE_DETACHED slot)) ;; mret 0
              | _ => mret 0
              end
          | None => mret 0
          end
        else mret 0
    end).

(** ** The books on session mappings *)

Definition owns_session_fd (fd : Z) (s : ring_session) : bool :=
  rs_owns_mapping s && (rs_mapping_fd s =? fd).

Definition owns_session_ring (ring : Z) (s : ring_session) : bool :=
  rs_owns_mapping s && (rs_ring s =? ring).

(** Descriptors, with the descriptor slots and the ring sessions as owners. *)
Definition ring_fds : resource :=
  Resource (res_weight descriptors)
    (λ fd b, count_if (owns fd) (b_descriptors b) + count_if (owns_session_fd fd) (b_ring_sessions b)).

#[export] Instance ring_fds_ok : ResourceOk ring_fds.
Proof. by split. Qed.

(** A session that owns a mapping can give it back. *)
Definition session_ok (s : ring_session) : Prop :=
  rs_owns_mapping s = true → 0 < rs_ring s ∧ 0 < rs_mapping_bytes s ∧ 0 <= rs_mapping_fd s.

Definition sessions_ok (w : world) : Prop :=
  ∀ b, w_broker w = Some b →
    length (b_ring_sessions b) = LLAM_BROKER_RING_SESSIONS ∧ Forall session_ok (b_ring_sessions b).

(** The change in descriptors and mapped addresses nobody is responsible for. *)
Definition booked (fds maps : Z → Z) (w w' : world) : Prop :=
  sessions_ok w → sessions_ok w' ∧ (is_Some (w_broker w) → is_Some (w_broker w')) ∧
  ∀ k, 0 <= k → unowned ring_fds k w' = unowned ring_fds k w + fds k
              ∧ unowned mappings k w' = unowned mappings k w + maps k.

Abbreviation balanced := (booked none none).

Lemma booked_trans F1 G1 F2 G2 F G w w1 w2 :
  booked F1 G1 w w1 → booked F2 G2 w1 w2 →
  (∀ k, F k = F1 k + F2 k) → (∀ k, G k = G1 k + G2 k) → booked F G w w2.
Proof.
  intros H1 H2 HF HG Hw. destruct (H1 Hw) as (S1&B1&K1). destruct (H2 S1) as (S2&B2&K2).
  split_and!; [done|auto|]. intros k Hk. destruct (K1 k Hk), (K2 k Hk). rewrite HF, HG. lia.
Qed.

Lemma booked_eq F G F' G' w w' :
  booked F G w w' → (∀ k, F' k = F k) → (∀ k, G' k = G k) → booked F' G' w w'.
Proof.
  intros H HF HG Hw. destruct (H Hw) as (S1&B1&K1). split_and!; [done|done|].
  intros k Hk. rewrite HF, HG. by apply K1.
Qed.

#[export] Instance balanced_preorder : PreOrder balanced.
Proof.
  split; [intros w Hw; split_and!; [done|done|]; intros k Hk; lia|]. intros w1 w2 w3 H1 H2.
  eapply booked_trans; [exact H1|exact H2|done|done].
Qed.

Lemma booked_then F G w w1 w2 : booked F G w w1 → balanced w1 w2 → booked F G w w2.
Proof. intros H1 H2. eapply booked_trans; [exact H1|exact H2|intros k; cbn; lia..]. Qed.

Lemma then_booked F G w w1 w2 : balanced w w1 → booked F G w1 w2 → booked F G w w2.
Proof. intros H1 H2. eapply booked_trans; [exact H1|exact H2|intros k; cbn; lia..]. Qed.

Lemma held_ring_fds k l : held ring_fds k l = held descriptors k l.
Proof. induction l as [|e l IH]; [done|]. cbn [held]. by rewrite IH. Qed.

Lemma booked_net F G w w' : net F G w w' → booked F G w w'.
Proof.
  intros (A1&_&H) Hw. split_and!; [unfold sessions_ok; by rewrite A1|by rewrite A1|]. intros k _. destruct (H k) as [H1 H2].
  unfold unowned, owned. rewrite A1, !held_ring_fds, H1, H2. lia.
Qed.

Lemma balanced_idle w w' : same_objs w w' → quiet w w' → balanced w w'.
Proof.
  intros Ho Hq Hw. split_and!.
  - intros b' Hb'. destruct Ho as [Ho _]. rewrite Hb' in Ho. destruct (w_broker w) as [b|] eqn:Hb; [|done].
    apply (inj Some) in Ho. rewrite (active_ops_only _ _ Ho). exact (Hw b Hb).
  - destruct Ho as [Ho _]. by destruct (w_broker w), (w_broker w').
  - intros k Hk. rewrite (ledger_idle ring_fds _ _ Ho Hq k Hk), (ledger_idle mappings _ _ Ho Hq k Hk). lia.
Qed.

Lemma pres_balanced_idle {A} (m : M A) : pres same_objs m → pres quiet m → pres balanced m.
Proof. intros H1 H2 w. by apply balanced_idle. Qed.

Lemma pres_balanced_silent {A} (m : M A) : pres silent m → pres balanced m.
Proof.
  intros H w. destruct (H w) as [C L]. apply balanced_idle; [by apply same_core_objs|by apply quiet_same].
Qed.

Lemma pres_balanced_errno e : pres balanced (set_errno e).
Proof. by apply pres_balanced_silent. Qed.

Lemma pres_balanced_fail e : pres balanced (fail e).
Proof. by apply pres_balanced_silent. Qed.

Lemma pres_balanced_lock : pres balanced llam_broker_lock.
Proof. apply pres_balanced_silent, pres_silent_lock. Qed.

Lemma pres_balanced_begin s : pres balanced (llam_broker_begin_op_subject s).
Proof. apply pres_balanced_idle; [apply pres_objs_begin|apply pres_quiet_begin]. Qed.

Lemma pres_balanced_end : pres balanced llam_broker_end_op.
Proof. apply pres_balanced_idle; [apply pres_objs_end|apply pres_quiet_end]. Qed.

Lemma pres_balanced_thrifty {A} (m : M A) : pres thrifty m → pres balanced m.
Proof. intros H w. apply booked_net, H. Qed.

Lemma pres_balanced_unlock : pres balanced llam_broker_unlock.
Proof. apply pres_ret, _. Qed.

#[export] Hint Resolve pres_balanced_errno pres_balanced_fail pres_balanced_lock pres_balanced_begin
  pres_balanced_end pres_balanced_unlock : llam_quiet.

(** What a session holds. *)
Definition session_fd (s : ring_session) : Z → Z := λ k, Z.b2z (owns_session_fd k s).
Definition session_ring (s : ring_session) : Z → Z := λ k, Z.b2z (owns_session_ring k s).

Lemma session_at_lookup b i :
  (i < length (b_ring_sessions b))%nat → b_ring_sessions b !! i = Some (session_at b i).
Proof.
  intros H. unfold session_at.
  destruct (nth_lookup_or_length (b_ring_sessions b) i zero_ring_session) as [E|E]; [done|lia].
Qed.

Lemma set_session_run i s w b :
  w_broker w = Some b →
  set_session i s w = (tt, set_w_broker (Some (set_b_ring_sessions (<[i := s]> (b_ring_sessions b)) b)) w).
Proof. intros Hb. unfold set_session. mon. by rewrite Hb. Qed.

Definition with_session (b : broker) (i : nat) (s : ring_session) : broker :=
  set_b_ring_sessions (<[i := s]> (b_ring_sessions b)) b.

Lemma booked_set_session w b i s :
  w_broker w = Some b → (i < LLAM_BROKER_RING_SESSIONS)%nat → (session_ok (session_at b i) → session_ok s) →
  booked (λ k, session_fd (session_at b i) k - session_fd s k)
         (λ k, session_ring (session_at b i) k - session_ring s k)
         w (set_w_broker (Some (with_session b i s)) w).
Proof.
  intros Hb Hi Hs Hw. destruct (Hw b Hb) as [Hlen Hall].
  assert (b_ring_sessions b !! i = Some (session_at b i)) as Hl by (apply session_at_lookup; lia).
  split_and!.
  - intros b' [= <-]. cbn. rewrite length_insert. split; [done|]. apply Forall_insert; [done|].
    apply Hs. by eapply Forall_lookup_1.
  - done.
  - intros k Hk. unfold unowned, owned. cbn. rewrite Hb. cbn.
    rewrite !(count_if_insert _ _ _ _ _ Hl). unfold session_fd, session_ring, owns_session_fd, owns_session_ring. lia.
Qed.

Lemma session_at_with b i s :
  (i < length (b_ring_sessions b))%nat → session_at (with_session b i s) i = s.
Proof.
  intros H. unfold session_at, with_session. cbn. apply nth_lookup_Some, list_lookup_insert_eq. lia.
Qed.

Lemma with_session_twice b i s s' : with_session (with_session b i s) i s' = with_session b i s'.
Proof. unfold with_session. cbn. by rewrite list_insert_insert_eq. Qed.

(** The mapping of a session that owns one, or the empty one. *)
Definition taken (s : ring_session) : ring_mapping :=
  if rs_owns_mapping s then session_mapping s else reset_mapping.

Lemma take_mapping_run i m w b :
  w_broker w = Some b →
  llam_broker_ring_session_take_mapping (Some i) (Some m) w
  = ((rs_owns_mapping (session_at b i), Some (taken (session_at b i))),
     set_w_broker (Some (with_session b i cleared_session)) w).
Proof.
  intros Hb. unfold llam_broker_ring_session_take_mapping, taken, llam_broker_ring_mapping_reset. mon.
  rewrite Hb. mon. destruct (rs_owns_mapping (session_at b i)); mon; by rewrite (set_session_run _ _ _ _ Hb).
Qed.

(** What was taken is given back by unmapping it. *)
Lemma unmap_taken s w :
  session_ok s →
  net (λ k, - session_fd s k) (λ k, - session_ring s k) w (unmap_reclaimed (Some (taken s)) w).2.
Proof.
  intros Hs. unfold unmap_reclaimed, taken, session_fd, session_ring, owns_session_fd, owns_session_ring.
  destruct (rs_owns_mapping s) eqn:Ho; cbn [rm_owner session_mapping reset_mapping].
  - destruct (Hs Ho) as (?&?&?). destruct (unmap_net (session_mapping s) w) as [_ N]; [done..|].
    mon. destruct (llam_broker_ring_unmap (Some (session_mapping s)) w) as [x w1]. mon.
    eapply net_eq; [exact N|done|done].
  - by apply net_same.
Qed.

(** [unmap_reclaimed] and the code that tests the result of taking agree. *)
Lemma unmap_taken_if s w :
  (if rs_owns_mapping s then llam_broker_ring_unmap (Some (taken s)) ;; mret tt else mret tt) w
  = unmap_reclaimed (Some (taken s)) w.
Proof. unfold unmap_reclaimed, taken. by destruct (rs_owns_mapping s). Qed.

Lemma cleared_ok : session_ok cleared_session.
Proof. done. Qed.

Lemma session_at_ok w b i : sessions_ok w → w_broker w = Some b → session_ok (session_at b i).
Proof.
  intros Hw Hb. destruct (Hw b Hb) as [_ Hall]. unfold session_at.
  destruct (nth_lookup_or_length (b_ring_sessions b) i zero_ring_session) as [E| E]; [|by rewrite nth_overflow].
  by eapply Forall_lookup_1.
Qed.

Lemma booked_cleared w b i s :
  w_broker w = Some b → (i < LLAM_BROKER_RING_SESSIONS)%nat → rs_owns_mapping s = false →
  booked (session_fd (session_at b i)) (session_ring (session_at b i))
         w (set_w_broker (Some (with_session b i s)) w).
Proof.
  intros Hb Hi Hs. eapply booked_eq; [apply booked_set_session; [done..|]|..].
  - intros _. unfold session_ok. by rewrite Hs.
  - intros k. unfold session_fd, owns_session_fd. rewrite Hs. cbn. lia.
  - intros k. unfold session_ring, owns_session_ring. rewrite Hs. cbn. lia.
Qed.

(** ** Finding a session *)

Lemma session_scan_cases ring j free l :
  match session_scan ring j free l with
  | SessionFound i => (j <= i < j + length l)%nat ∧ ∃ s, l !! (i - j)%nat = Some s ∧ rs_active s = true ∧ rs_ring s = ring
  | SessionFree i => free = Some i
      ∨ (free = None ∧ (j <= i < j + length l)%nat ∧ ∃ s, l !! (i - j)%nat = Some s ∧ rs_active s = false)
  | SessionFull => free = None
  end.
Proof.
  revert j free. induction l as [|s l IH]; intros j free; cbn [session_scan length].
  { destruct free; auto. }
  destruct (rs_active s && (rs_ring s =? ring)) eqn:E.
  { bools. split; [lia|]. exists s. by rewrite Nat.sub_diag. }
  match goal with |- context [session_scan ring (S j) ?f l] =>
    specialize (IH (S j) f); destruct (session_scan ring (S j) f l) as [i|i|] end.
  - destruct IH as (?&x&Hx&?). split; [lia|]. exists x. split; [|done].
    by replace (i - j)%nat with (S (i - S j)) by lia.
  - destruct free as [f|]; destruct IH as [IH|(IH&?&x&Hx&?)]; [by left|done| |].
    + destruct (rs_active s) eqn:Ha; cbn in IH; [done|].
      injection IH as <-. right. split; [done|]. split; [lia|]. exists s. by rewrite Nat.sub_diag.
    + right. split; [done|]. split; [lia|]. exists x. split; [|done].
      by replace (i - j)%nat with (S (i - S j)) by lia.
  - by destruct free as [f|].
Qed.

(** The session a ring is served through, new or found; what the slot held is
    handed out for unmapping. *)
Definition opened_session (ring subject_id : Z) : ring_session :=
  set_rs_active true (set_rs_subject_id subject_id (set_rs_ring ring cleared_session)).

Lemma session_get_cases ring subject m w b :
  w_broker w = Some b → length (b_ring_sessions b) = LLAM_BROKER_RING_SESSIONS →
  let r := llam_broker_ring_session_get ring subject (Some m) w in
  (∃ e, r = ((None, Some reset_mapping), set_w_errno e w) ∧ (e = EACCES ∨ e = ENOSPC))
  ∨ (∃ i, r = ((Some i, Some reset_mapping), w) ∧ (i < LLAM_BROKER_RING_SESSIONS)%nat
       ∧ rs_active (session_at b i) = true ∧ rs_ring (session_at b i) = ring
       ∧ rs_subject_id (session_at b i) = subject)
  ∨ ∃ i, r = ((Some i, Some (taken (session_at b i))),
              set_w_broker (Some (with_session b i (opened_session ring subject))) w)
       ∧ (i < LLAM_BROKER_RING_SESSIONS)%nat ∧ rs_active (session_at b i) = false.
Proof.
  intros Hb Hlen. cbn zeta. unfold llam_broker_ring_session_get. mon. rewrite Hb. mon.
  pose proof (session_scan_cases ring 0 None (b_ring_sessions b)) as H.
  destruct (session_scan ring 0 None (b_ring_sessions b)) as [i|i|]; mon.
  - destruct H as (?&s&Hs&?&?). rewrite Nat.sub_0_r in Hs.
    assert (session_at b i = s) as Es by by apply nth_lookup_Some. rewrite Es.
    destruct (rs_subject_id s =? subject) eqn:E; mon; bools; [right; left|left; eauto].
    exists i. rewrite Es. split_and!; [done|lia|done..].
  - destruct H as [?|(_&?&s&Hs&?)]; [done|]. rewrite Nat.sub_0_r in Hs.
    assert (session_at b i = s) as E by by apply nth_lookup_Some. right; right. exists i.
    rewrite (take_mapping_run _ _ _ _ Hb). mon. rewrite session_at_with by lia.
    rewrite (set_session_run _ _ _ (with_session b i cleared_session)) by done.
    match goal with |- context [set_b_ring_sessions (<[i := ?x]> (b_ring_sessions ?y)) ?y] =>
      change (set_b_ring_sessions (<[i := x]> (b_ring_sessions y)) y) with (with_session y i x) end.
    rewrite with_session_twice, E. split_and!; [done|lia|done].
  - left; eauto.
Qed.

(** ** Session operations keep the books *)

Lemma wp_balanced {A B} (m : M A) (k : A → M B) (Q : B → world → Prop) w w0 :
  pres balanced m → balanced w0 w → (∀ a w', balanced w0 w' → wp (k a) Q w') → wp (m ≫= k) Q w.
Proof.
  intros Hm Hn Hk. apply wp_bind. unfold wp at 1. apply Hk. etrans; [exact Hn|apply Hm].
Qed.

Lemma wp_on_broker {A} (m : M A) (k : broker → M A) Q w b :
  w_broker w = Some b → wp (k b) Q w → wp (on_broker m k) Q w.
Proof. intros Hb H. unfold wp, on_broker. rewrite Hb. exact H. Qed.

Lemma wp_the_broker {A} (k : broker → M A) Q w b :
  w_broker w = Some b → wp (k b) Q w → wp (the_broker ≫= k) Q w.
Proof. intros Hb H. apply wp_bind. unfold wp at 1. cbn. by rewrite Hb. Qed.

Lemma pres_balanced_ring_valid ring : pres balanced (llam_broker_ring_valid ring).
Proof. apply pres_balanced_thrifty, pres_thrifty_ring_load. Qed.

Lemma pres_balanced_extent m : pres balanced (llam_broker_ring_mapping_require_fixed_extent m).
Proof.
  apply pres_balanced_thrifty. unfold llam_broker_ring_mapping_require_fixed_extent.
  destruct m; pres_walk.
Qed.

(** Unmapping what was taken settles a session that was cleared. *)
Lemma booked_unmap_taken F G s w0 w :
  session_ok s → booked (λ k, F k + session_fd s k) (λ k, G k + session_ring s k) w0 w →
  booked F G w0 (unmap_reclaimed (Some (taken s)) w).2.
Proof.
  intros Hs H. eapply booked_trans; [exact H|by apply booked_net, unmap_taken|intros k; cbn; lia..].
Qed.

Lemma balanced_unmap_reset w : unmap_reclaimed (Some reset_mapping) w = (tt, w).
Proof. done. Qed.

Definition refused_mapping (m : ring_mapping) (w0 : world) (r : Z * option ring_mapping * option Z)
    (w' : world) : Prop :=
  r = (-1, Some m, Some 0) ∧ balanced w0 w'.

Lemma wp_register_refused reclaimed e m w0 w :
  balanced w0 (unmap_reclaimed reclaimed w).2 →
  wp (register_refused reclaimed e m) (refused_mapping m w0) w.
Proof.
  intros H. apply wp_bind. unfold wp at 1. cbn [llam_broker_unlock mret st_ret snd].
  apply wp_bind. unfold wp at 1.
  eapply wp_balanced; [apply pres_balanced_end|exact H|]. intros [] w1 H1.
  eapply wp_balanced; [apply pres_balanced_errno|exact H1|]. by intros [] w2 H2.
Qed.

(** Session [i] is live, owned by [subject_id], and holds [m]. *)
Definition holds (i : nat) (m : ring_mapping) (subject_id : Z) (w : world) : Prop :=
  ∃ b, w_broker w = Some b ∧ (i < LLAM_BROKER_RING_SESSIONS)%nat ∧
    rs_active (session_at b i) = true ∧ rs_owns_mapping (session_at b i) = true ∧
    rs_ring (session_at b i) = rm_ring m ∧ rs_mapping_fd (session_at b i) = rm_fd m ∧
    rs_subject_id (session_at b i) = subject_id.

Lemma holds_objs i m subject_id w w' :
  set_b_active_ops 0 <$> w_broker w' = set_b_active_ops 0 <$> w_broker w →
  holds i m subject_id w → holds i m subject_id w'.
Proof.
  intros Ho (b&Hb&H). rewrite Hb in Ho. destruct (w_broker w') as [b'|] eqn:Hb'; [|done].
  apply (inj Some) in Ho. exists b'. split; [done|]. by rewrite (active_ops_only _ _ Ho).
Qed.

(** How registering a mapping ends: a session took it over, or the caller
    still has it. *)
Definition registered_mapping (m : ring_mapping) (subject_id : Z) (w0 : world)
    (r : Z * option ring_mapping * option Z) (w' : world) : Prop :=
  refused_mapping m w0 r w' ∨
  ∃ i, r = (0, Some reset_mapping, Some (Z.of_nat i + 1)) ∧ holds i m subject_id w' ∧
    booked (λ k, - one (rm_fd m) k) (λ k, - one (rm_ring m) k) w0 w'.

Definition session_of (m : ring_mapping) (s : ring_session) : ring_session :=
  set_rs_owns_mapping true
    (set_rs_mapping_name (take (Z.to_nat (LLAM_BROKER_RING_MAPPING_NAME_BYTES - 1)) (rm_name m))
      (set_rs_mapping_fd (rm_fd m) (set_rs_mapping_bytes (rm_bytes m) s))).

Lemma registered_end m subject_id i s w0 w :
  mapping_ok m → session_ok s → holds i m subject_id w →
  booked (λ k, - one (rm_fd m) k + session_fd s k) (λ k, - one (rm_ring m) k + session_ring s k) w0 w →
  wp (llam_broker_unlock ;; unmap_reclaimed (Some (taken s)) ;; llam_broker_end_op ;;
      mret (0, Some reset_mapping, Some (Z.of_nat i + 1)))
     (registered_mapping m subject_id w0) w.
Proof.
  intros Hm Hs Hh H. right. exists i. split_and!.
  - mon. destruct (unmap_reclaimed _ w) as [[] w1]. mon. by destruct (llam_broker_end_op w1).
  - mon. pose proof (unmap_taken s w Hs) as (N&_). destruct (unmap_reclaimed _ w) as [[] w1]. mon.
    pose proof (pres_objs_end w1) as [Ho _]. destruct (llam_broker_end_op w1) as [[] w2]. mon.
    eapply holds_objs; [|exact Hh]. congruence.
  - mon. pose proof (booked_unmap_taken _ _ s w0 w Hs H) as N. destruct (unmap_reclaimed _ w) as [[] w1]. mon.
    pose proof (pres_balanced_end w1) as B. destruct (llam_broker_end_op w1) as [[] w2]. mon.
    by eapply booked_then.
Qed.

Lemma no_session_fd s : rs_owns_mapping s = false → ∀ k, session_fd s k = 0.
Proof. intros H k. unfold session_fd, owns_session_fd. by rewrite H. Qed.

Lemma no_session_ring s : rs_owns_mapping s = false → ∀ k, session_ring s k = 0.
Proof. intros H k. unfold session_ring, owns_session_ring. by rewrite H. Qed.

(** Taking the mapping over in slot [i]. *)
Lemma booked_take_over m i b w0 w s0 :
  mapping_ok m → w_broker w = Some b → (i < LLAM_BROKER_RING_SESSIONS)%nat →
  rs_owns_mapping (session_at b i) = false → rs_ring (session_at b i) = rm_ring m →
  booked (session_fd s0) (session_ring s0) w0 w →
  booked (λ k, - one (rm_fd m) k + session_fd s0 k) (λ k, - one (rm_ring m) k + session_ring s0 k)
    w0 (set_w_broker (Some (with_session b i (session_of m (session_at b i)))) w).
Proof.
  intros (M1&M2&M3) Hb Hi Ho Hr H.
  eapply booked_trans; [exact H|apply booked_set_session; [done..|]| |].
  - intros _ _. cbn. rewrite Hr, M2. done.
  - intros k. cbn beta. rewrite (no_session_fd (session_at b i)) by done.
    change (session_fd (session_of m (session_at b i)) k) with (one (rm_fd m) k). lia.
  - intros k. cbn beta. rewrite (no_session_ring (session_at b i)) by done.
    change (session_ring (session_of m (session_at b i)) k) with (one (rs_ring (session_at b i)) k).
    rewrite Hr. lia.
Qed.

Lemma holds_taken_over m i b w subject_id :
  (i < LLAM_BROKER_RING_SESSIONS)%nat → length (b_ring_sessions b) = LLAM_BROKER_RING_SESSIONS →
  rs_active (session_at b i) = true → rs_ring (session_at b i) = rm_ring m →
  rs_subject_id (session_at b i) = subject_id →
  holds i m subject_id (set_w_broker (Some (with_session b i (session_of m (session_at b i)))) w).
Proof.
  intros Hi Hl Ha Hr Hs. eexists. split; [done|]. rewrite session_at_with by lia. done.
Qed.

Lemma wp_fail_ret {A} e (f : Z → A) (Q : A → world → Prop) w :
  Q (f (-1)) (set_w_errno e w) → wp (rc ← fail e; mret (f rc)) Q w.
Proof. done. Qed.

Lemma wp_take_over m subject_id i s0 w0 w b :
  mapping_ok m → session_ok s0 → w_broker w = Some b → (i < LLAM_BROKER_RING_SESSIONS)%nat →
  length (b_ring_sessions b) = LLAM_BROKER_RING_SESSIONS → rs_owns_mapping (session_at b i) = false →
  rs_active (session_at b i) = true → rs_ring (session_at b i) = rm_ring m →
  rs_subject_id (session_at b i) = subject_id →
  booked (session_fd s0) (session_ring s0) w0 w →
  wp (set_session i (session_of m (session_at b i)) ;;
      llam_broker_unlock ;; unmap_reclaimed (Some (taken s0)) ;; llam_broker_end_op ;;
      mret (0, Some reset_mapping, Some (Z.of_nat i + 1)))
     (registered_mapping m subject_id w0) w.
Proof.
  intros Hm Hs0 Hb Hi Hl Ho Ha Hr Hs H. apply wp_bind. unfold wp at 1.
  rewrite (set_session_run _ _ _ b Hb). cbn [snd].
  apply (registered_end m subject_id i s0); [done|done|by apply holds_taken_over|by apply booked_take_over].
Qed.

(** The part of registration under the lock. *)
Lemma wp_register_locked m subject_id w0 w b :
  mapping_ok m → sessions_ok w → w_broker w = Some b → balanced w0 w →
  wp (r ← llam_broker_ring_session_get (rm_ring m) subject_id (Some reset_mapping);
      match r.1 with
      | None => e ← get_errno; register_refused r.2 e m
      | Some i =>
          b ← the_broker;
          if rs_owns_mapping (session_at b i) then register_refused r.2 EBUSY m
          else
            set_session i (session_of m (session_at b i)) ;;
            llam_broker_unlock ;;
            unmap_reclaimed r.2 ;;
            llam_broker_end_op ;;
            mret (0, Some reset_mapping, Some (Z.of_nat i + 1))
      end) (registered_mapping m subject_id w0) w.
Proof.
  intros Hm Hw Hb H0. destruct (Hw b Hb) as [Hlen _]. pose proof (session_at_ok w b) as Hat.
  apply wp_bind. unfold wp at 1.
  destruct (session_get_cases (rm_ring m) subject_id reset_mapping w b Hb Hlen)
    as [(e&->&_)|[(i&->&Hi&Ha&Hr&Hs)|(i&->&Hi&Ha)]]; cbn [fst snd].
  - apply wp_bind. unfold wp at 1. cbn [get_errno gets fst snd]. eapply wp_mono; [|by left].
    apply wp_register_refused. etrans; [exact H0|]. by apply pres_balanced_errno.
  - apply (wp_the_broker _ _ _ b Hb). apply wp_if; intros Ho.
    { eapply wp_mono; [|by left]. by apply wp_register_refused. }
    by apply (wp_take_over m subject_id i cleared_session).
  - assert (session_at (with_session b i (opened_session (rm_ring m) subject_id)) i
            = opened_session (rm_ring m) subject_id) as E by (apply session_at_with; lia).
    eapply (wp_the_broker _ _ (set_w_broker _ w)); [done|]. rewrite E at 1. apply wp_if; [done|intros _].
    apply (wp_take_over m subject_id i (session_at b i)); rewrite ?E; try done.
    + by apply Hat.
    + cbn. by rewrite length_insert.
    + eapply then_booked; [exact H0|]. by apply booked_cleared.
Qed.

Lemma register_mapping_cases m subject_id o w :
  mapping_ok m → sessions_ok w →
  wp (llam_broker_ring_register_mapping (Some m) subject_id (Some o)) (registered_mapping m subject_id w) w.
Proof.
  intros Hm Hw. assert (∀ w', balanced w w' → registered_mapping m subject_id w (-1, Some m, Some 0) w') as Hfail.
  { intros w' H. by left. }
  unfold llam_broker_ring_register_mapping. destruct (w_broker w) as [b0|] eqn:Hb0.
  2: { unfold wp, on_broker. rewrite Hb0. by apply Hfail, pres_balanced_fail. }
  eapply wp_on_broker; [exact Hb0|]. cbn [fmap option_fmap option_map].
  eapply wp_balanced; [apply pres_balanced_ring_valid|reflexivity|]. intros valid w1 H1.
  apply wp_if; intros _; [apply wp_fail_ret, Hfail; etrans; [exact H1|by apply pres_balanced_errno]|].
  eapply wp_balanced; [apply pres_balanced_extent|exact H1|]. intros rc w2 H2.
  apply wp_if; intros _; [by apply wp_ret, Hfail|].
  eapply wp_balanced; [apply pres_balanced_begin|exact H2|]. intros rc2 w3 H3.
  apply wp_if; intros _; [by apply wp_ret, Hfail|].
  eapply wp_balanced; [apply pres_balanced_lock|exact H3|]. intros rc3 w4 H4.
  apply wp_if; intros _.
  { eapply wp_balanced; [apply pres_balanced_end|exact H4|]. intros [] w5 H5. by apply wp_ret, Hfail. }
  destruct (H4 Hw) as (S4&B4&_). destruct B4 as [b4 Hb4]; [by eexists|].
  apply (wp_the_broker _ _ _ b4 Hb4). apply wp_if; intros _.
  { eapply wp_balanced; [apply pres_balanced_unlock|exact H4|]. intros [] w5 H5.
    eapply wp_balanced; [apply pres_balanced_end|exact H5|]. intros [] w6 H6.
    apply wp_fail_ret, Hfail. etrans; [exact H6|by apply pres_balanced_errno]. }
  by eapply wp_register_locked.
Qed.

(** The session an owner may act on. *)
Definition owned_session (i : nat) (subject_id : Z) (b : broker) : Prop :=
  (i < LLAM_BROKER_RING_SESSIONS)%nat ∧ rs_active (session_at b i) = true ∧
  rs_owns_mapping (session_at b i) = true ∧ rs_ring (session_at b i) ≠ 0 ∧
  rs_subject_id (session_at b i) = subject_id.

Lemma begin_owned_cases session_id subject_id w (Q : Z * option nat → world → Prop) :
  0 <= session_id → sessions_ok w → is_Some (w_broker w) →
  (∀ w', balanced w w' → Q (-1, None) w') →
  (∀ w' b, balanced w w' → w_broker w' = Some b → owned_session (Z.to_nat (session_id - 1)) subject_id b →
     Q (0, Some (Z.to_nat (session_id - 1))) w') →
  wp (llam_broker_ring_begin_locked_owned_session session_id subject_id) Q w.
Proof.
  intros Hid Hw Hb0 Hfail Hk. unfold llam_broker_ring_begin_locked_owned_session.
  apply wp_if; intros Hc; [by apply wp_fail_ret, Hfail, pres_balanced_errno|].
  eapply wp_balanced; [apply pres_balanced_begin|reflexivity|]. intros rc w1 H1.
  apply wp_if; intros _; [by apply wp_ret, Hfail|].
  eapply wp_balanced; [apply pres_balanced_lock|exact H1|]. intros rc2 w2 H2. apply wp_if; intros _.
  { eapply wp_balanced; [apply pres_balanced_end|exact H2|]. intros [] w3 H3. by apply wp_ret, Hfail. }
  destruct (H2 Hw) as (S2&B2&_). destruct (B2 Hb0) as [b Hb]. apply (wp_the_broker _ _ _ b Hb).
  assert (∀ e, wp (llam_broker_unlock ;; llam_broker_end_op ;; rc ← fail e; mret (rc, None)) Q w2) as Hend.
  { intros e. eapply wp_balanced; [apply pres_balanced_unlock|exact H2|]. intros [] w3 H3.
    eapply wp_balanced; [apply pres_balanced_end|exact H3|]. intros [] w4 H4.
    apply wp_fail_ret, Hfail. etrans; [exact H4|by apply pres_balanced_errno]. }
  apply wp_if; intros Hg; [apply Hend|]. apply wp_if; intros Hs; [apply Hend|].
  apply wp_ret. bools. eapply Hk; [done|exact Hb|]. split_and!; try done. lia.
Qed.

(** Clearing a session and unmapping what it held. *)
Lemma balanced_take_unmap w0 w b i :
  sessions_ok w → w_broker w = Some b → (i < LLAM_BROKER_RING_SESSIONS)%nat → balanced w0 w →
  balanced w0 (unmap_reclaimed (Some (taken (session_at b i)))
                 (set_w_broker (Some (with_session b i cleared_session)) w)).2.
Proof.
  intros Hw Hb Hi H. apply booked_unmap_taken; [by eapply session_at_ok|].
  eapply then_booked; [exact H|]. eapply booked_eq; [by apply booked_cleared|done|done].
Qed.

(** Session [i] is gone. *)
Definition forgotten (i : nat) (w : world) : Prop :=
  ∃ b, w_broker w = Some b ∧ rs_active (session_at b i) = false ∧ rs_owns_mapping (session_at b i) = false.

Lemma forget_session_cases session_id subject_id w :
  0 <= session_id → sessions_ok w → is_Some (w_broker w) →
  wp (llam_broker_ring_forget_session session_id subject_id)
     (λ rc w', balanced w w' ∧ (rc = -1 ∨ rc = 0 ∧ forgotten (Z.to_nat (session_id - 1)) w')) w.
Proof.
  intros Hid Hw Hb0. apply wp_bind. apply begin_owned_cases; [done..|intros w' H; by split; [|left]|].
  intros w1 b H1 Hb (Hi&Ha&Ho&Hr&Hs). apply (wp_the_broker _ _ _ b Hb). apply wp_if; intros _.
  { eapply wp_balanced; [apply pres_balanced_unlock|exact H1|]. intros [] w3 H3.
    eapply wp_balanced; [apply pres_balanced_end|exact H3|]. intros [] w4 H4.
    split; [etrans; [exact H4|by apply pres_balanced_errno]|by left]. }
  destruct (H1 Hw) as (S1&_). apply wp_bind. unfold wp at 1. rewrite (take_mapping_run _ _ _ _ Hb). cbn [fst snd].
  apply wp_bind. unfold wp at 1. cbn [llam_broker_unlock mret st_ret fst snd].
  apply wp_bind. unfold wp at 1. rewrite unmap_taken_if.
  pose proof (balanced_take_unmap w w1 b _ S1 Hb Hi H1) as H2.
  destruct (unmap_taken (session_at b (Z.to_nat (session_id - 1)))
    (set_w_broker (Some (with_session b (Z.to_nat (session_id - 1)) cleared_session)) w1)) as (N&_);
    [by eapply session_at_ok|].
  destruct (unmap_reclaimed _ _) as [[] w2]. cbn [snd] in *.
  pose proof (pres_objs_end w2) as [Ho2 _]. pose proof (pres_balanced_end w2) as H3.
  apply wp_bind. unfold wp at 1. destruct (llam_broker_end_op w2) as [[] w3]. cbn [snd] in *.
  split; [by etrans|]. right. split; [done|]. rewrite N in Ho2. cbn [w_broker set_w_broker fmap option_fmap option_map] in Ho2.
  destruct (w_broker w3) as [b3|] eqn:Hb3; [|done]. apply (inj Some) in Ho2. exists b3. split; [done|].
  rewrite (active_ops_only _ _ Ho2). destruct (S1 b Hb) as [Hl _].
  change (session_at (set_b_active_ops ?n ?x) ?j) with (session_at x j). rewrite session_at_with by lia. done.
Qed.

(** ** Reclaiming a subject's rings *)

Definition taken_fds (ms : list ring_mapping) : Z → Z := λ k, count_if (λ m, rm_fd m =? k) ms.
Definition taken_rings (ms : list ring_mapping) : Z → Z := λ k, count_if (λ m, rm_ring m =? k) ms.

(** Mappings that can be unmapped. *)
Definition live_mappings (ms : list ring_mapping) : Prop :=
  Forall (λ m, 0 < rm_ring m ∧ 0 < rm_bytes m ∧ 0 <= rm_fd m) ms.

Lemma unmap_all_net ms w :
  live_mappings ms → net (λ k, - taken_fds ms k) (λ k, - taken_rings ms k) w (unmap_all ms w).2.
Proof.
  intros H. revert w. induction H as [|m ms (M1&M2&M3) _ IH]; intros w; cbn [unmap_all].
  { apply net_refl. }
  mon. destruct (unmap_net m w M1 M2 M3) as [_ N]. destruct (llam_broker_ring_unmap (Some m) w) as [x w1]. mon.
  eapply net_trans; [exact N|apply IH|..]; intros k; unfold taken_fds, taken_rings, one; cbn; lia.
Qed.

Lemma pres_locks_unmap m : pres lock_kept (llam_broker_ring_unmap m).
Proof.
  unfold llam_broker_ring_unmap, sys_munmap, sys_close, sys_shm_unlink. destruct m; pres_walk; by intros w Hw.
Qed.

Lemma pres_locks_unmap_all ms : pres lock_kept (unmap_all ms).
Proof.
  induction ms as [|m ms IH]; cbn [unmap_all]; [pres_walk|].
  apply pres_bind; [apply _|apply pres_locks_unmap|done].
Qed.

(** The session does not stand in the way of forgetting [subj]. *)
Definition session_clear (subj : Z) (s : ring_session) : bool :=
  negb (rs_subject_id s =? subj) || (negb (rs_active s) && negb (rs_owns_mapping s)).

Lemma cleared_clear subj : session_clear subj cleared_session = true.
Proof. unfold session_clear. cbn. apply orb_true_r. Qed.

Lemma reclaim_slot_cases subj i w b :
  sessions_ok w → w_broker w = Some b → (i < LLAM_BROKER_RING_SESSIONS)%nat → subj ≠ 0 →
  let r := reclaim_ring_slot subj i w in
  live_mappings r.1.1 ∧ booked (taken_fds r.1.1) (taken_rings r.1.1) w r.2 ∧
  ∃ s, w_broker r.2 = Some (with_session b i s) ∧ os_mutex_lock (w_os r.2) = os_mutex_lock (w_os w) ∧ w_tls r.2 = w_tls w
    ∧ (r.1.2 = false → session_clear subj s = true ∧ (s = session_at b i ∨ s = cleared_session))
    ∧ (r.1.2 = true → rs_busy (session_at b i) = true ∧ rs_subject_id (session_at b i) = subj).
Proof.
  intros Hw Hb Hi Hsubj. cbn zeta. unfold reclaim_ring_slot. mon. rewrite Hb. mon.
  assert (with_session b i (session_at b i) = b) as Hid.
  { unfold with_session. destruct (Hw b Hb) as [Hl _]. rewrite list_insert_id by (apply session_at_lookup; lia).
    by destruct b. }
  destruct (negb (rs_subject_id (session_at b i) =? subj)
    || (negb (rs_active (session_at b i)) && negb (rs_owns_mapping (session_at b i)))) eqn:Hc; mon.
  { split; [constructor|]. split; [reflexivity|]. exists (session_at b i). rewrite Hid.
    split_and!; [done..|intros _; by split; [exact Hc|left]|done]. }
  destruct (rs_busy (session_at b i)) eqn:Hbusy; mon.
  - rewrite (set_session_run _ _ _ _ Hb). mon. split; [constructor|]. split.
    + eapply booked_eq; [apply booked_set_session; [done..|]|intros k..]; [done| |]; cbn; 
      unfold taken_fds, taken_rings; cbn; unfold session_fd, session_ring, owns_session_fd, owns_session_ring; cbn; lia.
    + eexists. split_and!; [done..|]. bools. done.
  - rewrite (take_mapping_run _ _ _ _ Hb). mon. pose proof (session_at_ok w b i Hw Hb) as Hs.
    unfold taken. destruct (rs_owns_mapping (session_at b i)) eqn:Ho; cbn [option_list].
    + split; [by constructor; [apply Hs|constructor]|]. split; [|eexists; split_and!; [done|done|done|intros _; split; [apply cleared_clear|by right]|done]].
      eapply booked_eq; [by apply booked_cleared|..]; intros k;
        unfold taken_fds, taken_rings, session_fd, session_ring, owns_session_fd, owns_session_ring;
        rewrite Ho; cbn; lia.
    + split; [constructor|]. split; [|eexists; split_and!; [done|done|done|intros _; split; [apply cleared_clear|by right]|done]].
      eapply booked_eq; [by apply booked_cleared|..]; intros k;
        [by rewrite (no_session_fd _ Ho)|by rewrite (no_session_ring _ Ho)].
Qed.

(** No session of [subj] is in use. *)
Definition none_busy (subj : Z) (b : broker) : Prop :=
  ∀ j, rs_subject_id (session_at b j) = subj → rs_busy (session_at b j) = false.

Lemma none_busy_with subj b i s :
  (i < length (b_ring_sessions b))%nat → s = session_at b i ∨ s = cleared_session →
  none_busy subj b → none_busy subj (with_session b i s).
Proof.
  intros Hi Hs H j. destruct (decide (j = i)) as [->|Hj].
  - rewrite session_at_with by done. destruct Hs as [->| ->]; [apply H|done].
  - unfold session_at, with_session. cbn.
    specialize (H j). unfold session_at in H.
    destruct (nth_lookup_or_length (<[i := s]> (b_ring_sessions b)) j zero_ring_session) as [E|E].
    + rewrite list_lookup_insert_ne in E by done. by rewrite (nth_lookup_Some _ _ _ _ E) in H.
    + rewrite length_insert in E. rewrite nth_overflow in H by done.
      rewrite nth_overflow by (by rewrite length_insert). exact H.
Qed.

(** The sessions from [i] on after the sweep. *)
Lemma reclaim_slots_cases subj n i w b :
  sessions_ok w → w_broker w = Some b → (i + n <= LLAM_BROKER_RING_SESSIONS)%nat → subj ≠ 0 →
  let r := reclaim_ring_slots subj n i w in
  live_mappings r.1.1 ∧ booked (taken_fds r.1.1) (taken_rings r.1.1) w r.2 ∧
  ∃ l, w_broker r.2 = Some (set_b_ring_sessions l b) ∧ os_mutex_lock (w_os r.2) = os_mutex_lock (w_os w) ∧ w_tls r.2 = w_tls w
    ∧ (∀ j, (j < i)%nat → l !! j = b_ring_sessions b !! j)
    ∧ (r.1.2 = false → ∀ j s, (i <= j < i + n)%nat → l !! j = Some s → session_clear subj s = true)
    ∧ (none_busy subj b → r.1.2 = false).
Proof.
  revert i w b. induction n as [|n IH]; intros i w b Hw Hb Hi Hs; cbn zeta; cbn [reclaim_ring_slots]; mon.
  { split; [constructor|]. split; [reflexivity|]. exists (b_ring_sessions b).
    split_and!; [by destruct b|done|done|done|intros _ j s ?; lia|done]. }
  destruct (Hw b Hb) as [Hl _].
  destruct (reclaim_slot_cases subj i w b Hw Hb ltac:(lia) Hs) as (L1&B1&s&Hb1&K1&T1&C1&D1).
  destruct (reclaim_ring_slot subj i w) as [[ms d] w1]. cbn [fst snd] in *.
  destruct (B1 Hw) as (Hw1&_). destruct (IH (S i) w1 _ Hw1 Hb1 ltac:(lia) Hs) as (L2&B2&l&Hb2&K2&T2&F2&C2&D2).
  destruct (reclaim_ring_slots subj n (S i) w1) as [[ms2 d2] w2]. cbn [fst snd] in *.
  split; [by apply Forall_app|]. split.
  { eapply booked_trans; [exact B1|exact B2|..]; intros k; apply count_if_app. }
  exists l. split_and!; [done|congruence|congruence| | |].
  - intros j Hj. rewrite F2 by lia. cbn. by rewrite list_lookup_insert_ne by lia.
  - intros [-> ->]%orb_false_elim j x Hj Hx. destruct (decide (j = i)) as [->|].
    + rewrite F2 in Hx by lia. cbn in Hx. rewrite list_lookup_insert_eq in Hx by lia.
      injection Hx as <-. by apply C1.
    + apply (C2 eq_refl j x); [lia|done].
  - intros Hn. destruct d; cbn [orb].
    + destruct (D1 eq_refl) as [D11 D12]. by rewrite (Hn i D12) in D11.
    + apply D2, none_busy_with; [lia|by apply C1|done].
Qed.

Lemma reclaim_rings_cases subj w b :
  sessions_ok w → w_broker w = Some b → subj ≠ 0 →
  let r := llam_broker_reclaim_subject_rings subj w in
  balanced w r.2 ∧ w_tls r.2 = w_tls w ∧
  ∃ l, w_broker r.2 = Some (set_b_ring_sessions l b)
    ∧ (r.1 = false → Forall (λ s, session_clear subj s = true) l)
    ∧ (b_lock_initialized b = true → os_mutex_lock (w_os w) = [] →
       os_mutex_lock (w_os r.2) = [] ∧ (none_busy subj b → r.1 = false)).
Proof.
  intros Hw Hb Hs. cbn zeta. unfold llam_broker_reclaim_subject_rings, on_broker. rewrite Hb.
  rewrite (proj2 (Z.eqb_neq _ _) Hs). mon.
  pose proof (pres_balanced_lock w) as B1. pose proof (pres_silent_lock w) as [(C1&_&C3) _].
  assert (∀ H : b_lock_initialized b = true, os_mutex_lock (w_os w) = [] → llam_broker_lock w = (0, w)) as Hfree.
  { intros. by eapply lock_free. }
  destruct (llam_broker_lock w) as [rc w1]. cbn [fst snd] in *. destruct (rc =? 0) eqn:Hrc; mon.
  2: { split; [done|]. split; [done|]. exists (b_ring_sessions b). split_and!; [rewrite C1, Hb; by destruct b|done|].
       intros Hl Hm. by injection (Hfree Hl Hm) as ->. }
  destruct (B1 Hw) as (Hw1&_). rewrite Hb in C1.
  destruct (reclaim_slots_cases subj LLAM_BROKER_RING_SESSIONS 0 w1 b Hw1 C1 ltac:(lia) Hs)
    as (L2&B2&l&Hb2&K2&T2&_&F2&D2).
  destruct (reclaim_ring_slots subj LLAM_BROKER_RING_SESSIONS 0 w1) as [[ms d] w2]. cbn [fst snd] in *.
  destruct (unmap_all_net ms w2 L2) as (N1&N2&N3).
  assert (balanced w (unmap_all ms w2).2) as B3.
  { eapply booked_trans; [eapply then_booked; [exact B1|exact B2]| |intros k; cbn..];
      [by apply booked_net, unmap_all_net|lia|lia]. }
  pose proof (pres_locks_unmap_all ms w2) as K3.
  destruct (unmap_all ms w2) as [[] w3]. cbn [fst snd] in *.
  split; [done|]. split; [congruence|]. exists l. split_and!; [congruence| |].
  - intros ->. apply Forall_lookup_2. intros j x Hx. apply (F2 eq_refl j x); [|done].
    destruct (B3 Hw) as (Hw3&_). rewrite Hb2 in N1. destruct (Hw3 _ N1) as [Hl _]. cbn in Hl.
    apply lookup_lt_Some in Hx. lia.
  - intros Hl Hm. injection (Hfree Hl Hm) as _ ->. split; [apply K3; congruence|done].
Qed.

Lemma pres_balanced_reclaim_rings subj w :
  sessions_ok w → balanced w (llam_broker_reclaim_subject_rings subj w).2.
Proof.
  intros Hw. destruct (w_broker w) as [b|] eqn:Hb.
  - destruct (decide (subj = 0)) as [->|Hs]; [|by apply (reclaim_rings_cases subj w b)].
    unfold llam_broker_reclaim_subject_rings, on_broker. rewrite Hb. by cbn.
  - unfold llam_broker_reclaim_subject_rings, on_broker. by rewrite Hb.
Qed.

(** The mappings behind ring sessions are released exactly once.  Registering
    a mapping either fails, and the caller still has it, or moves the descriptor
    and the mapped pages into a live session bound to the subject, emptying the
    caller's copy.  Forgetting a session and reclaiming a subject's sessions
    close and unmap precisely what the sessions they clear owned, so that what
    the process holds beyond its owners never changes; a session that was
    forgotten is neither live nor an owner.  Sessions stay able to give back
    what they own. *)
Theorem ring_session_ownership m o session_id subject_id w :
  mapping_ok m → 0 <= session_id → sessions_ok w → is_Some (w_broker w) →
  wp (llam_broker_ring_register_mapping (Some m) subject_id (Some o)) (registered_mapping m subject_id w) w
  ∧ wp (llam_broker_ring_forget_session session_id subject_id)
       (λ rc w', balanced w w' ∧ (rc = -1 ∨ rc = 0 ∧ forgotten (Z.to_nat (session_id - 1)) w')) w
  ∧ balanced w (llam_broker_reclaim_subject_rings subject_id w).2.
Proof.
  intros Hm Hid Hw Hb. split_and!.
  - by apply register_mapping_cases.
  - by apply forget_session_cases.
  - by apply pres_balanced_reclaim_rings.
Qed.

(** ** Transport subjects *)

(** Live connections have subjects, and share neither ids nor subjects. *)
Record transports_ok (l : list transport_session) : Prop := {
  tp_subject : ∀ i s, l !! i = Some s → tr_active s = true → tr_subject_id s ≠ 0;
  tp_subjects : ∀ i j s s', l !! i = Some s → l !! j = Some s' → tr_active s = true → tr_active s' = true →
    tr_subject_id s = tr_subject_id s' → i = j;
  tp_transports : ∀ i j s s', l !! i = Some s → l !! j = Some s' → tr_active s = true → tr_active s' = true →
    tr_transport_id s = tr_transport_id s' → i = j;
}.

(** Connection [transport_id] is live with [subject]. *)
Definition connected (transport_id subject : Z) (l : list transport_session) : Prop :=
  ∃ i, l !! i = Some (TransportSession transport_id subject true).

Lemma transport_scan_cases id j free l :
  match transport_scan id j free l with
  | TransportFound i => (j <= i)%nat ∧ ∃ s, l !! (i - j)%nat = Some s ∧ tr_active s = true ∧ tr_transport_id s = id
  | TransportFree i => (∀ k s, l !! k = Some s → tr_active s = true → tr_transport_id s ≠ id)
      ∧ (free = Some i ∨ (free = None ∧ (j <= i)%nat ∧ ∃ s, l !! (i - j)%nat = Some s ∧ tr_active s = false))
  | TransportFull => (∀ k s, l !! k = Some s → tr_active s = true → tr_transport_id s ≠ id)
  end.
Proof.
  revert j free. induction l as [|s l IH]; intros j free; cbn [transport_scan].
  { destruct free; [split; [done|by left]|done]. }
  destruct (tr_active s && (tr_transport_id s =? id)) eqn:E.
  { bools. split; [done|]. exists s. by rewrite Nat.sub_diag. }
  assert (tr_active s = true → tr_transport_id s ≠ id) as Hs.
  { intros Ha. rewrite Ha in E. by apply Z.eqb_neq. }
  match goal with |- context [transport_scan id (S j) ?f l] =>
    specialize (IH (S j) f); destruct (transport_scan id (S j) f l) as [i|i|] end.
  - destruct IH as (?&x&Hx&?). split; [lia|]. exists x. split; [|done].
    by replace (i - j)%nat with (S (i - S j)) by lia.
  - destruct IH as [Hall IH]. split; [intros [|k] x Hx; [by injection Hx as <-|by apply (Hall k)]|].
    destruct free as [f|]; destruct IH as [IH|(IH&?&x&Hx&?)]; [by left|done| |].
    + destruct (tr_active s) eqn:Ha; cbn in IH; [done|].
      injection IH as <-. right. split; [done|]. split; [lia|]. exists s. by rewrite Nat.sub_diag.
    + right. split; [done|]. split; [lia|]. exists x. split; [|done].
      by replace (i - j)%nat with (S (i - S j)) by lia.
  - intros [|k] x Hx; [by injection Hx as <-|by apply (IH k)].
Qed.

Lemma in_use_spec b subject :
  llam_broker_transport_subject_in_use_unlocked b subject = false → subject ≠ 0 →
  ∀ i s, b_transport_sessions b !! i = Some s → tr_active s = true → tr_subject_id s ≠ subject.
Proof.
  unfold llam_broker_transport_subject_in_use_unlocked. intros H Hs i s Hi Ha E.
  rewrite (proj2 (Z.eqb_neq _ _) Hs) in H.
  assert (existsb (λ s, tr_active s && (tr_subject_id s =? subject)) (b_transport_sessions b) = true); [|congruence].
  apply existsb_exists. exists s. split; [by eapply list_elem_of_In, list_elem_of_lookup_2|].
  by rewrite Ha, E, Z.eqb_refl.
Qed.

Lemma new_subject_cases id nonce w :
  let r := llam_broker_new_transport_subject id nonce w in
  same_core w r.2 ∧ (r.1 = None ∨ ∃ s, r.1 = Some s ∧ s ≠ 0).
Proof.
  cbn zeta. unfold llam_broker_new_transport_subject. step_core pres_entropy_from_os.
  destruct a as [e|]; mon; [|split; [core|by left]]. split; [done|]. right. eexists. split; [done|].
  repeat branch; bools; done.
Qed.

(** Writing a fresh connection into an unused slot. *)
Lemma transports_connect l i id subject s0 :
  transports_ok l → l !! i = Some s0 → tr_active s0 = false → subject ≠ 0 →
  (∀ k s, l !! k = Some s → tr_active s = true → tr_transport_id s ≠ id) →
  (∀ k s, l !! k = Some s → tr_active s = true → tr_subject_id s ≠ subject) →
  transports_ok (<[i := TransportSession id subject true]> l).
Proof.
  intros [A B C] Hi Ha Hs Hid Hsub. split.
  - intros j s. rewrite list_lookup_insert_Some. intros [(<-&<-&_)|[_ Hx]]; [done|]. by apply (A j).
  - intros j k s s'. rewrite !list_lookup_insert_Some.
    intros [(<-&<-&_)|[? Hx]] [(<-&<-&_)|[? Hy]] Ax Ay E; [done| | |eauto].
    + by destruct (Hsub _ _ Hy Ay).
    + by destruct (Hsub _ _ Hx Ax).
  - intros j k s s'. rewrite !list_lookup_insert_Some.
    intros [(<-&<-&_)|[? Hx]] [(<-&<-&_)|[? Hy]] Ax Ay E; [done| | |eauto].
    + by destruct (Hid _ _ Hy Ay).
    + by destruct (Hid _ _ Hx Ax).
Qed.

Lemma transports_disconnect l i s0 :
  tr_active s0 = false → transports_ok l → transports_ok (<[i := s0]> l).
Proof.
  intros H0 [A B C].
  assert (∀ j s, <[i := s0]> l !! j = Some s → tr_active s = true → l !! j = Some s) as H.
  { intros j s. rewrite list_lookup_insert_Some. intros [(<-&<-&_)|[_ Hx]] Ha; [congruence|done]. }
  split; eauto.
Qed.

(** The connections live before are live after, with the same subjects. *)
Definition stable (l l' : list transport_session) : Prop :=
  ∀ i s, l !! i = Some s → tr_active s = true → l' !! i = Some s.

Lemma stable_connect l i s0 s : l !! i = Some s0 → tr_active s0 = false → stable l (<[i := s]> l).
Proof.
  intros Hi Ha j x Hx Hax. rewrite list_lookup_insert_ne; [done|]. intros ->. congruence.
Qed.

(** How a connection gets its subject: it had one, or one is minted that no
    live connection has, or the call fails; only the connection table and the
    nonce change. *)
Definition assigned (id : Z) (b : broker) (r : Z * Z) (w' : world) : Prop :=
  ∃ b' l n, w_broker w' = Some b' ∧
    b' = set_b_transport_sessions l (set_b_next_transport_subject_nonce n b) ∧
    transports_ok l ∧ stable (b_transport_sessions b) l ∧
    (r = (-1, 0) ∧ l = b_transport_sessions b
     ∨ r.1 = 0 ∧ r.2 ≠ 0 ∧ connected id r.2 l ∧
       (∀ id', connected id' r.2 (b_transport_sessions b) → id' = id)).

Lemma mint_cases attempts id free w b s0 :
  w_broker w = Some b → transports_ok (b_transport_sessions b) →
  b_transport_sessions b !! free = Some s0 → tr_active s0 = false →
  (∀ k s, b_transport_sessions b !! k = Some s → tr_active s = true → tr_transport_id s ≠ id) →
  wp (mint_subject attempts id free) (assigned id b) w.
Proof.
  revert w b. induction attempts as [|n IH]; intros w b Hb Hok Hf Ha Hid; cbn [mint_subject].
  { exists b, (b_transport_sessions b), (b_next_transport_subject_nonce b).
    split_and!; [done|by destruct b|done|by intros i s|by left]. }
  apply wp_bind. unfold wp at 1. cbn [upd_broker modify fst snd]. rewrite Hb. cbn [fmap option_fmap option_map].
  match goal with |- wp _ _ (set_w_broker (Some (set_b_next_transport_subject_nonce ?v b)) w) =>
    generalize v; intros nonce end.
  eapply (wp_the_broker _ _ (set_w_broker _ w)); [done|].
  set (w1 := set_w_broker _ w). apply wp_bind. unfold wp at 1.
  match goal with |- context [llam_broker_new_transport_subject id ?k w1] =>
    destruct (new_subject_cases id k w1) as [(C1&_) H]; destruct (llam_broker_new_transport_subject id k w1) as [o w2] end.
  cbn [fst snd] in *. destruct H as [->|(s&->&Hs)].
  { exists (set_b_next_transport_subject_nonce nonce b), (b_transport_sessions b), nonce.
    split_and!; [done|by destruct b|done|by intros i s|by left]. }
  apply wp_if; intros Hu; bools.
  - eexists _, _, nonce. cbn. rewrite C1. cbn. split; [done|]. split; [done|].
    pose proof (in_use_spec _ _ Hu Hs) as Hsub. cbn in Hsub.
    split; [by eapply transports_connect|]. split; [by eapply stable_connect|]. right.
    split_and!; [done|done| |].
    + exists free. apply list_lookup_insert_eq. by apply lookup_lt_Some in Hf.
    + intros id' [i Hi]. by destruct (Hsub i _ Hi eq_refl).
  - eapply wp_mono; [eapply (IH w2); [exact C1|done|exact Hf|done|done]|].
    intros r w' (b'&l&m&Hb'&->&H). exists (set_b_transport_sessions l (set_b_next_transport_subject_nonce m b)), l, m.
    split_and!; [by destruct b|done|apply H..].
Qed.

Lemma assigned_failed id b w' :
  w_broker w' = Some b → transports_ok (b_transport_sessions b) → assigned id b (-1, 0) w'.
Proof.
  intros Hb Hok. exists b, (b_transport_sessions b), (b_next_transport_subject_nonce b).
  split_and!; [done|by destruct b|done|by intros i s|by left].
Qed.

Lemma transport_subject_cases id o w b :
  w_broker w = Some b → transports_ok (b_transport_sessions b) →
  wp (llam_broker_transport_subject id (Some o)) (λ r w', ∃ s, r = (r.1, Some s) ∧ assigned id b (r.1, s) w') w.
Proof.
  intros Hb Hok. assert (∀ w', w_broker w' = Some b → ∃ s, (-1, Some 0) = (-1, Some s) ∧ assigned id b (-1, s) w') as Hfail.
  { intros w' H. exists 0. split; [done|]. by apply assigned_failed. }
  eapply wp_on_broker; [exact Hb|]. apply wp_bind. unfold wp at 1. pose proof (pres_silent_lock w) as [(C1&_) _].
  destruct (llam_broker_lock w) as [rc w1]. cbn [fst snd] in *. rewrite Hb in C1.
  apply wp_if; intros _; [by apply wp_ret, Hfail|]. apply (wp_the_broker _ _ _ b C1).
  apply wp_if; intros _; [by apply wp_fail_ret, Hfail|].
  pose proof (transport_scan_cases id 0 None (b_transport_sessions b)) as H.
  destruct (transport_scan id 0 None (b_transport_sessions b)) as [i|i|].
  - destruct H as (_&s&Hs&Ha&Hid). rewrite Nat.sub_0_r in Hs. apply wp_ret.
    assert (transport_at b i = s) as -> by by apply nth_lookup_Some.
    exists (tr_subject_id s). split; [done|]. exists b, (b_transport_sessions b), (b_next_transport_subject_nonce b).
    split_and!; [done|by destruct b|done|by intros j x|]. right. cbn. split_and!; [done|by eapply tp_subject| |].
    + exists i. rewrite Hs. f_equal. destruct s; cbn in *. congruence.
    + intros id' [j Hj]. assert (j = i) as -> by (eapply tp_subjects; [exact Hok|exact Hj|exact Hs|done..]).
      rewrite Hs in Hj. injection Hj as E. rewrite E in Hid. done.
  - destruct H as [Hall [?|(_&_&s&Hs&Ha)]]; [done|]. rewrite Nat.sub_0_r in Hs.
    apply wp_bind. eapply wp_mono; [by eapply mint_cases|]. intros [rc2 s2] w2 H2. exists s2. by split.
  - by apply wp_fail_ret, Hfail.
Qed.

(** A control connection's subject is its own.  In every state where live
    connections have pairwise distinct ids and subjects, asking for a
    connection's subject keeps it so and leaves every other live connection as
    it is; a successful call returns a nonzero subject that no other live
    connection has, the one the connection already had if it was known; a failed
    call changes no connection and hands out no subject. *)
Theorem transport_subjects_unique id o w b :
  w_broker w = Some b → transports_ok (b_transport_sessions b) →
  let r := llam_broker_transport_subject id (Some o) w in
  ∃ b' s, w_broker r.2 = Some b' ∧ r.1.2 = Some s ∧
    transports_ok (b_transport_sessions b') ∧ stable (b_transport_sessions b) (b_transport_sessions b') ∧
    (r.1.1 = -1 ∧ s = 0 ∧ b_transport_sessions b' = b_transport_sessions b
     ∨ r.1.1 = 0 ∧ s ≠ 0 ∧ connected id s (b_transport_sessions b')
       ∧ (∀ id', connected id' s (b_transport_sessions b') → id' = id)
       ∧ (∀ s0, connected id s0 (b_transport_sessions b) → s = s0)).
Proof.
  intros Hb Hok. cbn zeta. pose proof (transport_subject_cases id o w b Hb Hok) as H. unfold wp in H.
  destruct (llam_broker_transport_subject id (Some o) w) as [[rc out] w']. cbn [fst snd] in *.
  destruct H as (s&[= ->]&b'&l&n&Hb'&->&Hl&Hst&H). eexists _, s. split; [exact Hb'|]. split; [done|].
  cbn [b_transport_sessions set_b_transport_sessions]. split; [done|]. split; [done|].
  destruct H as [[[= -> ->] ->]|(Hr&Hs&[i Hi]&Hu)]; [by left|]. cbn [fst snd] in *. right. split_and!; [done..|by exists i| |].
  - intros id' [j Hj]. assert (j = i) as -> by (eapply tp_subjects; [exact Hl|exact Hj|exact Hi|done..]). congruence.
  - intros s0 [j Hj]. pose proof (Hst _ _ Hj eq_refl) as Hj'.
    assert (j = i) as -> by (eapply tp_transports; [exact Hl|exact Hj'|exact Hi|done..]). congruence.
Qed.

(** ** Reclaiming everything a subject owned *)

(** The thread and the lock are as before. *)
Definition undisturbed (w w' : world) : Prop := w_tls w' = w_tls w ∧ lock_kept w w'.

#[export] Instance undisturbed_preorder : PreOrder undisturbed.
Proof.
  split; [intros w; split; [done|by intros H]|]. intros x y z [A1 B1] [A2 B2].
  split; [congruence|by etrans].
Qed.

(** A loop that visits every slot of a table and leaves each one clean. *)
Section sweep.
Context {T : Type} (put : list T → broker → broker) (dflt : T) (clean : T → bool) (b : broker) (n : nat).

(** Slot [i] was clean already, or is overwritten by a clean one. *)
Definition swept (i : nat) (l : list T) (w w' : world) : Prop :=
  undisturbed w w' ∧
  (clean (nth i l dflt) = true ∧ w_broker w' = Some (put l b)
   ∨ ∃ s, clean s = true ∧ w_broker w' = Some (put (<[i := s]> l) b)).

Lemma swept_insert i l w w' :
  (i < length l)%nat → swept i l w w' →
  undisturbed w w' ∧ ∃ s, clean s = true ∧ w_broker w' = Some (put (<[i := s]> l) b).
Proof.
  intros Hi [Hu [[Hc Hb]|H]]; (split; [done|]); [|done]. exists (nth i l dflt). split; [done|].
  destruct (nth_lookup_or_length l i dflt) as [E|]; [|lia]. by rewrite list_insert_id.
Qed.

Lemma sweep (body : nat → M unit) w l0 :
  length l0 = n → w_broker w = Some (put l0 b) →
  (∀ i w' l, length l = n → (i < n)%nat → w_broker w' = Some (put l b) → swept i l w' (body i w').2) →
  undisturbed w (for_each n 0 body w).2 ∧
  ∃ l, w_broker (for_each n 0 body w).2 = Some (put l b) ∧ Forall (λ s, clean s = true) l.
Proof.
  intros Hl Hb Hbody.
  destruct (for_each_inv (λ j w', undisturbed w w' ∧ ∃ l, w_broker w' = Some (put l b) ∧ length l = n ∧
      ∀ k s, (k < j)%nat → l !! k = Some s → clean s = true) n 0 body w) as (Hu&l&Hbl&Hll&Hk).
  - split; [done|]. exists l0. split_and!; [done|done|]. intros k s. lia.
  - intros j w' Hj (Hu&l&Hbl&Hll&Hk).
    destruct (swept_insert j l w' (body j w').2) as (Hu2&s&Hc&Hb2); [lia|by apply Hbody; [|lia|]|].
    split; [by etrans|]. exists (<[j := s]> l). split; [done|]. split; [by rewrite length_insert|].
    intros k x Hkj. destruct (decide (k = j)) as [->|].
    + rewrite list_lookup_insert_eq by lia. by intros [= <-].
    + rewrite list_lookup_insert_ne by done. apply Hk. lia.
  - split; [done|]. exists l. split; [done|]. apply Forall_lookup_2. intros k s Hs.
    apply (Hk k s); [|done]. apply lookup_lt_Some in Hs. lia.
Qed.
End sweep.

Definition buffer_clean (subj : Z) (s : buffer_slot) : bool :=
  negb ((bs_subject_id s =? subj) && (bs_active s || negb (is_null (bs_data s)))).

Definition descriptor_clean (subj : Z) (s : descriptor_slot) : bool :=
  negb ((ds_subject_id s =? subj) && (ds_active s || ds_close_on_destroy s
        || negb (llam_broker_descriptor_handle_invalid (ds_fd s)))).

Definition channel_clean (subj : Z) (s : channel_slot) : bool :=
  negb (cs_active s && (cs_subject_id s =? subj)).

(** A task is gone, or runs on without rights until its trampoline frees it. *)
Definition task_clean (subj : Z) (s : task_slot) : bool :=
  negb (ts_active s && (ts_subject_id s =? subj))
  || (bool_decide (ts_state s = TASK_STATE_DETACHED) && (ts_rights s =? 0)).

Lemma undisturbed_lock w : undisturbed w (llam_broker_lock w).2.
Proof. split; [apply pres_silent_lock|apply pres_locks_lock]. Qed.

Lemma undisturbed_buffer_reset i w : undisturbed w (llam_broker_buffer_slot_reset i w).2.
Proof.
  unfold llam_broker_buffer_slot_reset, llam_broker_buffer_free_data. mon.
  destruct (bs_data _); mon; (split; [done|by intros H]).
Qed.

Lemma reclaim_buffers_cases subj w b :
  locks w → w_broker w = Some b → length (b_buffers b) = LLAM_BROKER_BUFFER_SLOTS → subj ≠ 0 →
  let w' := (llam_broker_reclaim_subject_buffers subj w).2 in
  undisturbed w w' ∧ ∃ l, w_broker w' = Some (set_b_buffers l b) ∧ Forall (λ s, buffer_clean subj s = true) l.
Proof.
  intros [Hm Hli] Hb Hlen Hs. cbn zeta. unfold llam_broker_reclaim_subject_buffers, on_broker. rewrite Hb.
  rewrite (proj2 (Z.eqb_neq _ _) Hs). mon. rewrite (lock_free w b Hb (Hli b Hb) Hm). mon.
  match goal with |- context [for_each ?n 0 ?body w] =>
    assert (undisturbed w (for_each n 0 body w).2 ∧ ∃ l, w_broker (for_each n 0 body w).2 = Some (set_b_buffers l b)
      ∧ Forall (λ s, buffer_clean subj s = true) l) as H;
    [|by destruct (for_each n 0 body w) as [[] w1]] end.
  apply (sweep set_b_buffers zero_buffer_slot) with (l0 := b_buffers b); [done|by rewrite Hb; destruct b|].
  intros i w' l Hll Hi Hb'. mon. rewrite Hb'. mon. apply (wp_if _ _ _ (λ _ w2, swept _ _ _ _ i l w' w2)); intros E.
  - split; [apply undisturbed_buffer_reset|]. right. exists zero_buffer_slot.
    split; [unfold buffer_clean; cbn; by rewrite andb_false_r|].
    by destruct (buffer_reset_run i w' _ Hb') as (w1&_&_&->).
  - split; [done|]. left. unfold buffer_clean, buffer_at in *. cbn in E. by rewrite E.
Qed.

Lemma reclaim_descriptors_cases subj w b :
  locks w → w_broker w = Some b → length (b_descriptors b) = LLAM_BROKER_DESCRIPTOR_SLOTS → subj ≠ 0 →
  let w' := (llam_broker_reclaim_subject_descriptors subj w).2 in
  undisturbed w w' ∧ ∃ l, w_broker w' = Some (set_b_descriptors l b) ∧ Forall (λ s, descriptor_clean subj s = true) l.
Proof.
  intros [Hm Hli] Hb Hlen Hs. cbn zeta. unfold llam_broker_reclaim_subject_descriptors, on_broker. rewrite Hb.
  rewrite (proj2 (Z.eqb_neq _ _) Hs). mon. rewrite (lock_free w b Hb (Hli b Hb) Hm). mon.
  match goal with |- context [for_each ?n 0 ?body w] =>
    assert (undisturbed w (for_each n 0 body w).2 ∧ ∃ l, w_broker (for_each n 0 body w).2 = Some (set_b_descriptors l b)
      ∧ Forall (λ s, descriptor_clean subj s = true) l) as H;
    [|by destruct (for_each n 0 body w) as [[] w1]] end.
  apply (sweep set_b_descriptors zero_descriptor_slot) with (l0 := b_descriptors b); [done|by rewrite Hb; destruct b|].
  intros i w' l Hll Hi Hb'. mon. rewrite Hb'. mon. apply (wp_if _ _ _ (λ _ w2, swept _ _ _ _ i l w' w2)); intros E.
  - unfold wp, swept, llam_broker_descriptor_reset_slot, llam_broker_descriptor_close_owned_slot, sys_close. mon.
    split; [|right; exists reset_descriptor_slot; split].
    + repeat branch; mon; (split; [done|by intros H]).
    + unfold descriptor_clean. cbn. by rewrite andb_false_r.
    + repeat branch; mon; by rewrite Hb'.
  - split; [done|]. left. unfold descriptor_clean, descriptor_at in *. cbn in E. by rewrite E.
Qed.

(** Put a channel table in place; the table is allocated. *)
Definition set_channels (l : list channel_slot) (b : broker) : broker := set_b_channels (Some l) b.

Lemma reclaim_channels_cases subj w b :
  locks w → w_broker w = Some b → (∀ l, b_channels b = Some l → length l = LLAM_BROKER_CHANNEL_SLOTS) → subj ≠ 0 →
  let w' := (llam_broker_reclaim_subject_channels subj w).2 in
  undisturbed w w' ∧ ∃ o, w_broker w' = Some (set_b_channels o b)
    ∧ Forall (λ s, channel_clean subj s = true) (default [] o).
Proof.
  intros [Hm Hli] Hb Hlen Hs. cbn zeta. unfold llam_broker_reclaim_subject_channels, on_broker. rewrite Hb.
  destruct (b_channels b) as [l0|] eqn:Hc; cbn [is_null orb].
  2: { split; [done|]. exists None. split; [|constructor]. mon. rewrite Hb. f_equal. destruct b. cbn in *. by subst. }
  rewrite (proj2 (Z.eqb_neq _ _) Hs). mon. rewrite (lock_free w b Hb (Hli b Hb) Hm). mon.
  match goal with |- context [for_each ?n 0 ?body w] =>
    assert (undisturbed w (for_each n 0 body w).2 ∧ ∃ l, w_broker (for_each n 0 body w).2 = Some (set_channels l b)
      ∧ Forall (λ s, channel_clean subj s = true) l) as (Hu&l&Hl&Hf);
    [|destruct (for_each n 0 body w) as [[] w1]; split; [done|by exists (Some l)]] end.
  apply (sweep set_channels zero_channel_slot) with (l0 := l0);
    [by apply Hlen|rewrite Hb; unfold set_channels; destruct b; cbn in *; by subst|].
  intros i w' l Hll Hi Hb'. mon. rewrite Hb'. mon. apply (wp_if _ _ _ (λ _ w2, swept _ _ _ _ i l w' w2)); intros E.
  - unfold wp. rewrite (upd_channel_run _ _ _ _ Hb'). split; [split; [done|by intros H]|]. right.
    by exists zero_channel_slot.
  - split; [done|]. left. unfold channel_clean. unfold channel_at in E. cbn in E. by rewrite E.
Qed.

Lemma reclaim_task_swept subj i w b l :
  w_broker w = Some (set_b_tasks l b) →
  swept set_b_tasks zero_task_slot (task_clean subj) b i l w (reclaim_task_slot subj i w).2.
Proof.
  intros Hb. unfold reclaim_task_slot. mon. rewrite Hb. mon.
  assert (∀ s, task_clean subj s = true →
    swept set_b_tasks zero_task_slot (task_clean subj) b i l w (set_task i s w).2) as Hset.
  { intros s Hs. rewrite (set_task_run _ _ _ _ Hb). split; [split; [done|by intros H]|]. right. by exists s. }
  assert (∀ s (k : Z), task_clean subj s = true →
    wp (set_task i s ;; mret k) (λ _ w', swept set_b_tasks zero_task_slot (task_clean subj) b i l w w') w) as Hwp.
  { intros s k Hs. apply wp_bind. apply Hset, Hs. }
  apply (wp_if _ _ _ (λ _ w', swept _ _ _ _ i l w w')); intros E.
  { split; [done|]. left. split; [|done]. unfold task_clean. unfold task_at in E. cbn in E.
    destruct (ts_active _); [|done]. cbn in *. by rewrite E. }
  bools. apply wp_if; intros Es; [|apply wp_if; intros Es2]; apply Hwp; unfold task_clean; cbn.
  - by rewrite bool_decide_true, orb_true_r.
  - bools. by rewrite bool_decide_true, orb_true_r.
  - done.
Qed.

Lemma reclaim_task_slots_cases subj n i w b l :
  w_broker w = Some (set_b_tasks l b) → (i + n = length l)%nat →
  Forall (λ s, task_clean subj s = true) (take i l) →
  let r := reclaim_task_slots subj n i w in
  undisturbed w r.2 ∧ ∃ l', w_broker r.2 = Some (set_b_tasks l' b) ∧ Forall (λ s, task_clean subj s = true) l'.
Proof.
  revert i w l. induction n as [|n IH]; intros i w l Hb Hi Hf; cbn zeta; cbn [reclaim_task_slots]; mon.
  { split; [done|]. exists l. split; [done|]. by rewrite take_ge in Hf by lia. }
  destruct (swept_insert set_b_tasks zero_task_slot (task_clean subj) b i l w _ ltac:(lia) (reclaim_task_swept subj i w b l Hb))
    as (Hu&s&Hc&Hb1).
  destruct (reclaim_task_slot subj i w) as [t w1]. cbn [fst snd] in *.
  destruct (IH (S i) w1 (<[i := s]> l) Hb1) as (Hu2&H2).
  - rewrite length_insert. lia.
  - rewrite (take_S_r _ _ s) by (apply list_lookup_insert_eq; lia). apply Forall_app. split; [|by constructor].
    by rewrite take_insert_ge by lia.
  - destruct (reclaim_task_slots subj n (S i) w1) as [ts w2]. cbn [fst snd] in *. split; [by etrans|done].
Qed.

Lemma reclaim_tasks_cases subj w b :
  locks w → w_broker w = Some b → length (b_tasks b) = LLAM_BROKER_TASK_SLOTS → subj ≠ 0 →
  let w' := (llam_broker_reclaim_subject_tasks subj w).2 in
  undisturbed w w' ∧ ∃ l, w_broker w' = Some (set_b_tasks l b) ∧ Forall (λ s, task_clean subj s = true) l.
Proof.
  intros [Hm Hli] Hb Hlen Hs. cbn zeta. unfold llam_broker_reclaim_subject_tasks, on_broker. rewrite Hb.
  rewrite (proj2 (Z.eqb_neq _ _) Hs). mon. rewrite (lock_free w b Hb (Hli b Hb) Hm). mon.
  destruct (reclaim_task_slots_cases subj LLAM_BROKER_TASK_SLOTS 0 w b (b_tasks b)) as (Hu&l&Hl&Hf);
    [by rewrite Hb; destruct b|done|constructor|].
  destruct (reclaim_task_slots subj LLAM_BROKER_TASK_SLOTS 0 w) as [ts w1]. cbn [fst snd] in *.
  destruct (detach_all_run ts w1) as ((C1&_&C3)&K&_). split.
  - etrans; [exact Hu|]. by split.
  - exists l. split; [congruence|done].
Qed.

(** The tables have their full size. *)
Record tables_sized (b : broker) : Prop := {
  tz_buffers : length (b_buffers b) = LLAM_BROKER_BUFFER_SLOTS;
  tz_descriptors : length (b_descriptors b) = LLAM_BROKER_DESCRIPTOR_SLOTS;
  tz_channels : ∀ l, b_channels b = Some l → length l = LLAM_BROKER_CHANNEL_SLOTS;
  tz_tasks : length (b_tasks b) = LLAM_BROKER_TASK_SLOTS;
}.

(** Nothing of [subj] is left but detached tasks without rights. *)
Record reclaimed (subj : Z) (b : broker) : Prop := {
  rd_sessions : Forall (λ s, session_clear subj s = true) (b_ring_sessions b);
  rd_buffers : Forall (λ s, buffer_clean subj s = true) (b_buffers b);
  rd_descriptors : Forall (λ s, descriptor_clean subj s = true) (b_descriptors b);
  rd_channels : Forall (λ s, channel_clean subj s = true) (channels_of b);
  rd_tasks : Forall (λ s, task_clean subj s = true) (b_tasks b);
}.

Lemma locks_undisturbed w w' b b' :
  undisturbed w w' → w_broker w = Some b → w_broker w' = Some b' →
  b_lock_initialized b' = b_lock_initialized b → locks w → locks w'.
Proof.
  intros [_ Hk] Hb Hb' E [L1 L2]. split; [by apply Hk|]. intros x Hx. rewrite Hb' in Hx. injection Hx as <-.
  rewrite E. by apply L2.
Qed.

Lemma reclaim_objects_cases subj w b :
  locks w → sessions_ok w → w_broker w = Some b → tables_sized b → subj ≠ 0 → none_busy subj b →
  let w' := (llam_broker_reclaim_subject_objects subj w).2 in
  undisturbed w w' ∧ ∃ b', w_broker w' = Some b' ∧ reclaimed subj b'
    ∧ b_transport_sessions b' = b_transport_sessions b ∧ b_addr b' = b_addr b.
Proof.
  intros Hl Hso Hb [Z1 Z2 Z3 Z4] Hs Hn. cbn zeta. unfold llam_broker_reclaim_subject_objects, on_broker. rewrite Hb.
  rewrite (proj2 (Z.eqb_neq _ _) Hs). mon.
  destruct (reclaim_rings_cases subj w b Hso Hb Hs) as (_&T1&ls&Hb1&F1&H1).
  destruct (H1 (proj2 Hl b Hb) (proj1 Hl)) as [M1 D1]. specialize (D1 Hn). specialize (F1 D1).
  destruct (llam_broker_reclaim_subject_rings subj w) as [d w1]. cbn [fst snd] in *. subst d. mon.
  assert (undisturbed w w1) as U1 by (split; [done|by intros _]).
  assert (locks w1) as L1 by by eapply locks_undisturbed.
  destruct (reclaim_buffers_cases subj w1 _ L1 Hb1 Z1 Hs) as (U2&lb&Hb2&F2).
  destruct (llam_broker_reclaim_subject_buffers subj w1) as [[] w2]. cbn [fst snd] in *. mon.
  assert (locks w2) as L2 by by eapply locks_undisturbed.
  destruct (reclaim_descriptors_cases subj w2 _ L2 Hb2 Z2 Hs) as (U3&ld&Hb3&F3).
  destruct (llam_broker_reclaim_subject_descriptors subj w2) as [[] w3]. cbn [fst snd] in *. mon.
  assert (locks w3) as L3 by by eapply locks_undisturbed.
  destruct (reclaim_channels_cases subj w3 _ L3 Hb3 Z3 Hs) as (U4&lc&Hb4&F4).
  destruct (llam_broker_reclaim_subject_channels subj w3) as [[] w4]. cbn [fst snd] in *. mon.
  assert (locks w4) as L4 by by eapply locks_undisturbed.
  destruct (reclaim_tasks_cases subj w4 _ L4 Hb4 Z4 Hs) as (U5&lt&Hb5&F5).
  split; [by do 4 (etrans; [eassumption|])|]. eexists. split; [exact Hb5|]. split; [|done].
  by split.
Qed.

(** C11: Forgetting a control connection leaves nothing of its subject behind.
    For an admitted call on a live connection, none of whose rings is being
    served, the connection is gone, every other live connection is untouched,
    and of the objects that carried the subject no ring session, buffer,
    descriptor or channel is left, and of its tasks only those still running,
    detached and stripped of their rights. *)
Theorem forget_subject_reclaims id subj w b :
  world_ok w → admits w b → sessions_ok w → tables_sized b → transports_ok (b_transport_sessions b) →
  connected id subj (b_transport_sessions b) → none_busy subj b →
  ∃ b', w_broker (llam_broker_forget_transport_subject id w).2 = Some b' ∧ reclaimed subj b' ∧
    transports_ok (b_transport_sessions b') ∧ (∀ s, ¬ connected id s (b_transport_sessions b')) ∧
    ∀ id' s, id' ≠ id → connected id' s (b_transport_sessions b) ↔ connected id' s (b_transport_sessions b').
Proof.
  intros Hok Had Hso Hts Htr [i Hi] Hn. destruct (begin_admitted w b Had) as [ops' Hbeg].
  pose proof (tp_subject _ Htr _ _ Hi eq_refl) as Hs. cbn in Hs.
  unfold llam_broker_forget_transport_subject, on_broker. rewrite (ad_broker _ _ Had). mon. rewrite Hbeg. mon.
  set (b1 := set_b_active_ops (b_active_ops b + 1) b). set (w1 := set_w_broker (Some b1) (set_w_tls ops' w)).
  rewrite (lock_free w1 b1 eq_refl (lb_lock _ (ad_live _ _ Had)) (ad_lock _ _ Had)). mon.
  pose proof (transport_scan_cases id 0 None (b_transport_sessions b)) as H.
  change (b_transport_sessions (default zero_broker (w_broker w1))) with (b_transport_sessions b).
  destruct (transport_scan id 0 None (b_transport_sessions b)) as [j|j|]; [|by destruct (proj1 H _ _ Hi)|by destruct (H _ _ Hi)].
  destruct H as (_&s&Hj&Ha&Hid). rewrite Nat.sub_0_r in Hj.
  assert (j = i) as -> by (eapply tp_transports; [exact Htr|exact Hj|exact Hi|done..]).
  rewrite Hi in Hj. injection Hj as <-. mon.
  assert (transport_at b1 i = TransportSession id subj true) as Hat by by apply nth_lookup_Some.
  change (default zero_broker (w_broker w1)) with b1. rewrite Hat. cbn [tr_subject_id].
  unfold set_transport. mon. rewrite (proj2 (Z.eqb_neq _ _) Hs). mon.
  set (b2 := set_b_transport_sessions (<[i := zero_transport_session]> (b_transport_sessions b1)) b1).
  set (w2 := set_w_broker _ w1).
  destruct (reclaim_objects_cases subj w2 b2) as (_&b3&Hb3&Hr&Ht3&_); [..|].
  - split; [apply Had|]. intros x [= <-]. apply Had.
  - intros x [= <-]. apply (Hso b (ad_broker _ _ Had)).
  - done.
  - destruct Hts. by split.
  - done.
  - exact Hn.
  - destruct (llam_broker_reclaim_subject_objects subj w2) as [[] w3]. cbn [fst snd] in *.
    destruct (pres_objs_end w3) as [Ho _]. rewrite Hb3 in Ho.
    destruct (llam_broker_end_op w3) as [[] w4]. cbn [fst snd] in *.
    destruct (w_broker w4) as [b4|]; [|done]. apply (inj Some) in Ho. exists b4. split; [done|].
    rewrite (active_ops_only _ _ Ho). cbn [b_transport_sessions set_b_active_ops]. rewrite Ht3.
    split; [by destruct Hr|]. split; [by apply transports_disconnect|]. split.
    + intros s [k Hk]. cbn in Hk. apply list_lookup_insert_Some in Hk as [(_&?&_)|[Hne Hk]]; [done|].
      apply Hne. eapply tp_transports; [exact Htr|exact Hi|exact Hk|done..].
    + intros id' s Hne. split; intros [k Hk]; exists k.
      * cbn. rewrite list_lookup_insert_ne; [done|]. intros <-. rewrite Hi in Hk. congruence.
      * cbn in Hk. by apply list_lookup_insert_Some in Hk as [(_&?&_)|[_ Hk]].
Qed.

(** ** Witnesses *)

Definition session_world : world :=
  set_w_rings {[5 := init_ring]} (set_w_os (set_os_fcntl [required_seals] quiet_os) example_world).

Lemma example_sessions_ok w : w_broker w = Some example_broker → sessions_ok w.
Proof.
  intros Hb b. rewrite Hb. intros [= <-]. split; [reflexivity|]. by apply Forall_replicate.
Qed.

(** The mapping at address 5 becomes session 1 of subject 9. *)
Lemma ring_session_ownership_witness :
  (llam_broker_ring_register_mapping (Some live_mapping) 9 (Some 0) session_world).1
    = (0, Some reset_mapping, Some 1)
  ∧ registered_mapping live_mapping 9 session_world
      (llam_broker_ring_register_mapping (Some live_mapping) 9 (Some 0) session_world).1
      (llam_broker_ring_register_mapping (Some live_mapping) 9 (Some 0) session_world).2.
Proof.
  split; [vm_compute; reflexivity|].
  exact (proj1 (ring_session_ownership live_mapping 0 1 9 session_world ltac:(by split_and!) ltac:(lia)
    (example_sessions_ok session_world eq_refl) ltac:(by eexists))).
Defined.

Lemma idle_transports_ok n : transports_ok (replicate n zero_transport_session).
Proof.
  split.
  - intros i s [-> _]%lookup_replicate. done.
  - intros i j s s' [-> _]%lookup_replicate _ H. done.
  - intros i j s s' [-> _]%lookup_replicate _ H. done.
Qed.

(** A new connection is given a subject. *)
Lemma transport_subjects_unique_witness :
  let r := llam_broker_transport_subject 99 (Some 0) example_world in
  r.1.1 = 0 ∧ ∃ b' s, w_broker r.2 = Some b' ∧ r.1.2 = Some s ∧ transports_ok (b_transport_sessions b').
Proof.
  split; [vm_compute; reflexivity|].
  destruct (transport_subjects_unique 99 0 example_world example_broker eq_refl (idle_transports_ok _))
    as (b'&s&H1&H2&H3&_).
  exists b', s. split; [exact H1|]. split; [exact H2|exact H3].
Defined.

Definition connection_broker : broker :=
  set_b_transport_sessions
    (<[0%nat := TransportSession 99 1234 true]> (b_transport_sessions example_broker)) example_broker.

Definition connection_world : world := set_w_broker (Some connection_broker) example_world.

Lemma connection_admits : admits connection_world connection_broker.
Proof. by split; try done; try (split; try done; by eexists). Qed.

Lemma connection_transports_ok : transports_ok (b_transport_sessions connection_broker).
Proof.
  apply (transports_connect _ 0 _ _ zero_transport_session);
    [apply idle_transports_ok|done|done|done|intros k s [-> _]%lookup_replicate; done..].
Qed.

(** Connection 99 goes away. *)
Lemma forget_subject_reclaims_witness :
  ∃ b', w_broker (llam_broker_forget_transport_subject 99 connection_world).2 = Some b' ∧ reclaimed 1234 b'.
Proof.
  destruct (forget_subject_reclaims 99 1234 connection_world connection_broker) as (b'&Hb'&Hr&_).
  - split; [apply idle_tls_wf|]. by intros ? [= <-].
  - exact connection_admits.
  - intros b [= <-]. split; [reflexivity|]. by apply Forall_replicate.
  - split; [done|done|by intros l [= <-]|done].
  - exact connection_transports_ok.
  - by exists 0%nat.
  - intros j. unfold session_at, connection_broker. cbn [b_ring_sessions set_b_transport_sessions example_broker].
    by rewrite nth_replicate.
  - exists b'. split; [exact Hb'|exact Hr].
Defined.
