(* ===== verification/Rollback.v ===== *)
(** * Undoing a grant whose response was never delivered

    The request and response messages of [src/internal/runtime_broker.h] and
    [src/core/broker/transport/broker_transport_rollback.c]: when a response
    cannot be written, the object it announces is taken back.  The theorem says
    that the undelivered token is no longer authority for anybody and that what
    the object held is released. *)

From S2P Require Import Prelude Mix World Capability BrokerOps BrokerCore BrokerBuffer BrokerChannel.
From S2P Require Import BrokerRevoke BrokerDescriptor BrokerTask Ring RingMap BrokerSession.

(** ** Messages *)

(** Operations of a request, by their code on the wire. *)
Inductive llam_broker_wire_op :=
  | LLAM_BROKER_WIRE_OP_PING
  | LLAM_BROKER_WIRE_OP_ISSUE_CAP
  | LLAM_BROKER_WIRE_OP_VALIDATE_CAP
  | LLAM_BROKER_WIRE_OP_REVOKE_ALL
  | LLAM_BROKER_WIRE_OP_STOP
  | LLAM_BROKER_WIRE_OP_ATTENUATE_CAP
  | LLAM_BROKER_WIRE_OP_REVOKE_CAP
  | LLAM_BROKER_WIRE_OP_CREATE_BUFFER
  | LLAM_BROKER_WIRE_OP_CREATE_CHANNEL
  | LLAM_BROKER_WIRE_OP_BUFFER_READ
  | LLAM_BROKER_WIRE_OP_BUFFER_WRITE
  | LLAM_BROKER_WIRE_OP_CHANNEL_SEND
  | LLAM_BROKER_WIRE_OP_CHANNEL_RECV
  | LLAM_BROKER_WIRE_OP_CHANNEL_CLOSE
  | LLAM_BROKER_WIRE_OP_TASK_SPAWN
  | LLAM_BROKER_WIRE_OP_TASK_JOIN
  | LLAM_BROKER_WIRE_OP_TASK_DETACH
  | LLAM_BROKER_WIRE_OP_DESCRIPTOR_READ
  | LLAM_BROKER_WIRE_OP_DESCRIPTOR_WRITE
  | LLAM_BROKER_WIRE_OP_REGISTER_DESCRIPTOR
  | LLAM_BROKER_WIRE_OP_CREATE_RING
  | LLAM_BROKER_WIRE_OP_SERVE_RING.

Definition wire_op_code (x : llam_broker_wire_op) : Z :=
  match x with
  | LLAM_BROKER_WIRE_OP_PING => 1
  | LLAM_BROKER_WIRE_OP_ISSUE_CAP => 2
  | LLAM_BROKER_WIRE_OP_VALIDATE_CAP => 3
  | LLAM_BROKER_WIRE_OP_REVOKE_ALL => 4
  | LLAM_BROKER_WIRE_OP_STOP => 5
  | LLAM_BROKER_WIRE_OP_ATTENUATE_CAP => 6
  | LLAM_BROKER_WIRE_OP_REVOKE_CAP => 7
  | LLAM_BROKER_WIRE_OP_CREATE_BUFFER => 8
  | LLAM_BROKER_WIRE_OP_CREATE_CHANNEL => 9
  | LLAM_BROKER_WIRE_OP_BUFFER_READ => 10
  | LLAM_BROKER_WIRE_OP_BUFFER_WRITE => 11
  | LLAM_BROKER_WIRE_OP_CHANNEL_SEND => 12
  | LLAM_BROKER_WIRE_OP_CHANNEL_RECV => 13
  | LLAM_BROKER_WIRE_OP_CHANNEL_CLOSE => 14
  | LLAM_BROKER_WIRE_OP_TASK_SPAWN => 15
  | LLAM_BROKER_WIRE_OP_TASK_JOIN => 16
  | LLAM_BROKER_WIRE_OP_TASK_DETACH => 17
  | LLAM_BROKER_WIRE_OP_DESCRIPTOR_READ => 18
  | LLAM_BROKER_WIRE_OP_DESCRIPTOR_WRITE => 19
  | LLAM_BROKER_WIRE_OP_REGISTER_DESCRIPTOR => 20
  | LLAM_BROKER_WIRE_OP_CREATE_RING => 21
  | LLAM_BROKER_WIRE_OP_SERVE_RING => 22
  end.
Coercion wire_op_code : llam_broker_wire_op >-> Z.
Arguments wire_op_code : simpl never.

Record wire_request := WireRequest {
  wr_magic : Z;
  wr_version : Z;
  wr_op : Z;
  wr_reserved0 : Z;
  wr_family : Z;
  wr_reserved1 : Z;
  wr_slot : Z;
  wr_generation : Z;
  wr_rights : Z;
  wr_required_rights : Z;
  wr_offset : Z;
  wr_length : Z;
  wr_token : capability_token;
  wr_data : list Z;
}.

Record wire_response := WireResponse {
  wp_magic : Z;
  wp_version : Z;
  wp_status : Z;
  wp_error_code : Z;
  wp_runtime_id : Z;
  wp_revocation_epoch : Z;
  wp_result0 : Z;
  wp_result1 : Z;
  wp_result2 : Z;
  wp_token : capability_token;
  wp_data : list Z;
}.

Definition zero_request : wire_request :=
  WireRequest 0 0 0 0 0 0 0 0 0 0 0 0 zero_token (replicate (Z.to_nat LLAM_BROKER_WIRE_DATA_BYTES) 0).

Definition zero_response : wire_response :=
  WireResponse 0 0 0 0 0 0 0 0 0 zero_token (replicate (Z.to_nat LLAM_BROKER_WIRE_DATA_BYTES) 0).

(** ** Rollback *)

(** The operations whose response carries a new grant. *)
Definition creates_grant (op : Z) : bool :=
  (op =? LLAM_BROKER_WIRE_OP_CREATE_BUFFER) || (op =? LLAM_BROKER_WIRE_OP_CREATE_CHANNEL)
  || (op =? LLAM_BROKER_WIRE_OP_REGISTER_DESCRIPTOR) || (op =? LLAM_BROKER_WIRE_OP_TASK_SPAWN).

Definition llam_broker_rollback_created_response (request : option wire_request)
    (response : option wire_response) (subject_id : Z) : M unit :=
  on_broker (mret tt) (λ _,
    match request, response with
    | Some request, Some response =>
        if negb (wp_status response =? 0) then mret tt
        else if (wr_op request =? LLAM_BROKER_WIRE_OP_CREATE_RING) && negb (wp_result2 response =? 0)
        then llam_broker_ring_forget_session (wp_result2 response) subject_id ;; mret tt
        else if creates_grant (wr_op request) then
          rc ← llam_broker_lock;
          task_to_detach ←
            (if rc =? 0 then
               t ← llam_broker_rollback_response_token_locked (Some (wp_token response));
               llam_broker_unlock ;; mret t
             else mret 0);
          if negb (task_to_detach =? 0) then llam_detach task_to_detach ;; mret tt else mret tt
        else mret tt
    | _, _ => mret tt
    end).

(** ** The token is dead *)

Lemma named_slot_some `{BrokerSlot T} t (l : list T) i :
  named_slot t l = Some i → ∃ s, l !! i = Some s ∧ slot_matches t s = true.
Proof. intros (k&s&->&Hk&Hm)%first_free_some. exists s. done. Qed.

Lemma named_slot_none `{BrokerSlot T} t (l : list T) r : named_slot t l = None → slot_live t r l = false.
Proof.
  unfold named_slot, slot_live. generalize 0%nat. induction l as [|s l IH]; intros j; cbn; [done|].
  destruct (slot_matches t s); cbn; [done|]. apply IH.
Qed.

(** Overwriting the slot a token names by a free one, or one without rights. *)
Lemma named_slot_dead `{BrokerSlot T} next t (l : list T) i s' r :
  table_ok next l → named_slot t l = Some i → slot_active s' = false ∨ slot_rights s' = 0 → r ≠ 0 →
  slot_live t r (<[i := s']> l) = false.
Proof.
  intros Hok (s&Hi&Hm)%named_slot_some Hs Hr. apply not_true_iff_false.
  intros (k&x&Hk&Hx&Hb)%slot_live_spec. apply slot_matches_spec in Hm as (M1&M2&M3).
  apply slot_matches_spec in Hx as (X1&X2&X3).
  apply list_lookup_insert_Some in Hk as [(<-&<-&_)|[Hne Hk]].
  - destruct Hs as [Hs|Hs]; [congruence|]. rewrite Hs in Hb. unfold has_bits in Hb.
    rewrite Z.land_0_l in Hb. bools. lia.
  - apply Hne. eapply (to_unique _ _ Hok); eauto. congruence.
Qed.

(** A task slot that stays as it is has no rights any more. *)
Lemma named_task_idle next t l i s r :
  table_ok next l → named_slot t l = Some i → l !! i = Some s →
  ts_state s ≠ TASK_STATE_SPAWNED → ts_state s ≠ TASK_STATE_COMPLETED → r ≠ 0 →
  slot_live t r l = false.
Proof.
  intros Hok Hn Hi H1 H2 Hr. rewrite <- (list_insert_id l i s Hi).
  eapply named_slot_dead; [done|done| |done]. destruct (named_slot_some t l i Hn) as (s1&Hi1&Hm).
  rewrite Hi in Hi1. injection Hi1 as <-. apply slot_matches_spec in Hm as (Ha&_).
  destruct (to_slot _ _ Hok _ _ Hi Ha) as (_&_&[?|[?|[_ ?]]]); [done|done|by right].
Qed.

(** What the locked part did: a step after which the token names nothing live;
    the descriptor it closed and the handle it returns balance the books. *)
Record rolled_back (t : capability_token) (w : world) (task : Z) (w' : world) : Prop := {
  rb_move : task_move w w';
  rb_dead : ∀ b b', w_broker w = Some b → broker_ok b → w_broker w' = Some b' →
    ∀ r, r ≠ 0 → live_in b' t r = false;
  rb_descriptors : ledger descriptors w w';
  rb_tasks : ready w → ready w' ∧
    ∀ h, 0 <= h → unowned task_handles h w' = unowned task_handles h w + Z.b2z (is_handle h task);
}.

(** The table of tasks, the lock and the task part of the log are as before. *)
Lemma tasks_kept w w' b b' :
  w_broker w = Some b → w_broker w' = Some b' → b_tasks b' = b_tasks b →
  b_lock_initialized b' = b_lock_initialized b → lock_kept w w' →
  (∀ h, held task_handles h (os_log (w_os w')) = held task_handles h (os_log (w_os w))) →
  ready w → ready w' ∧
  ∀ h, 0 <= h → unowned task_handles h w' = unowned task_handles h w + Z.b2z (is_handle h 0).
Proof.
  intros Hb Hb' Ht Hl Hk Hh [[R1 R2] R3]. split; [split; [split; [by apply Hk|]|]|].
  - intros x. rewrite Hb'. intros [= <-]. rewrite Hl. by apply R2.
  - intros x. rewrite Hb'. intros [= <-]. rewrite Ht. by apply R3.
  - intros h _. unfold unowned, owned. rewrite Hb, Hb', Hh. cbn. rewrite Ht, is_handle_0. cbn. lia.
Qed.

Lemma quota_tasks w w' b b' :
  w_broker w = Some b → w_broker w' = Some b' → b_tasks b' = b_tasks b → quota w → quota w'.
Proof.
  intros Hb Hb' Ht Hq x. rewrite Hb'. intros [= <-]. destruct (Hq b Hb) as [Q1 Q2].
  unfold llam_broker_long_sleep_task_count_locked, llam_broker_subject_task_count_locked in *.
  split; unfold llam_broker_long_sleep_task_count_locked, llam_broker_subject_task_count_locked; by rewrite Ht.
Qed.

Lemma rolled_back_same t w b :
  w_broker w = Some b → (broker_ok b → ∀ r, r ≠ 0 → live_in b t r = false) → rolled_back t w 0 w.
Proof.
  intros Hb Hd. split; [reflexivity| |reflexivity|].
  - intros b1 b2. rewrite Hb. intros [= <-] Hok [= <-]. by apply Hd.
  - eapply tasks_kept; [exact Hb|exact Hb|done|done|by intros H|done].
Qed.

Section families.
Context (t : capability_token) (w : world) (b : broker) (Hb : w_broker w = Some b).

Lemma rollback_buffer :
  tok_family t = LLAM_BROKER_CAP_FAMILY_BUFFER →
  wp (match named_slot t (b_buffers b) with
      | Some i => llam_broker_buffer_slot_reset i ;; mret 0
      | None => mret 0
      end) (rolled_back t w) w.
Proof.
  intros Hf. destruct (named_slot t (b_buffers b)) as [i|] eqn:Hn.
  2: { apply wp_ret. eapply rolled_back_same; [done|]. intros _ r _. rewrite live_in_buffer by done. by apply named_slot_none. }
  apply wp_bind. unfold wp at 1. apply wp_ret. pose proof (step_buffer_reset i w) as S1.
  pose proof (undisturbed_buffer_reset i w) as [_ K1].
  assert (∀ (x : resource), res_weight x = res_weight descriptors ∨ res_weight x = res_weight task_handles →
    ∀ k, held x k (os_log (w_os (llam_broker_buffer_slot_reset i w).2)) = held x k (os_log (w_os w))) as Hh.
  { intros x Hx k. unfold llam_broker_buffer_slot_reset, llam_broker_buffer_free_data. mon.
    destruct (bs_data _); mon; [|done]. cbn. by destruct Hx as [-> | ->]. }
  destruct (buffer_reset_run i w b Hb) as (w1&_&_&E).
  assert (w_broker (llam_broker_buffer_slot_reset i w).2
          = Some (set_b_buffers (<[i := zero_buffer_slot]> (b_buffers b)) b)) as Hb' by by rewrite E.
  clear E. split.
  - split; [done|]. intros _. by eapply quota_tasks.
  - intros b1 b2. rewrite Hb, Hb'. intros [= <-] Hok [= <-] r Hr. rewrite live_in_buffer by done.
    cbn [b_buffers set_b_buffers].
    eapply named_slot_dead; [apply Hok|done|by left|done].
  - intros k _. unfold unowned, owned. rewrite Hb', Hb, Hh by auto. done.
  - eapply tasks_kept; [exact Hb|exact Hb'|done|done|done|]. intros h. apply Hh. auto.
Qed.

Lemma rollback_channel :
  tok_family t = LLAM_BROKER_CAP_FAMILY_CHANNEL →
  wp (match named_slot t (channels_of b) with
      | Some i => upd_channel i (λ _, zero_channel_slot) ;; mret 0
      | None => mret 0
      end) (rolled_back t w) w.
Proof.
  intros Hf. destruct (named_slot t (channels_of b)) as [i|] eqn:Hn.
  2: { apply wp_ret. eapply rolled_back_same; [done|]. intros _ r _. rewrite live_in_channel by done. by apply named_slot_none. }
  apply wp_bind. unfold wp at 1. apply wp_ret. pose proof (step_channel_reset i w) as S1.
  rewrite (upd_channel_run _ _ _ _ Hb) in *. cbn [fst snd] in *. split.
  - split; [done|]. intros _. by eapply quota_tasks.
  - intros b1 b2. rewrite Hb. intros [= <-] Hok [= <-] r Hr. rewrite live_in_channel by done.
    replace (channels_of (with_channel i zero_channel_slot b)) with (<[i := zero_channel_slot]> (channels_of b))
      by (unfold channels_of, with_channel; cbn; by destruct (b_channels b)).
    eapply named_slot_dead; [apply Hok|done|by left|done].
  - intros k _. unfold unowned, owned. cbn. by rewrite Hb.
  - eapply tasks_kept; [exact Hb|done|done|done|by intros H|done].
Qed.

Lemma rollback_descriptor :
  tok_family t = LLAM_BROKER_CAP_FAMILY_DESCRIPTOR →
  wp (match named_slot t (b_descriptors b) with
      | Some i => llam_broker_descriptor_close_owned_slot (descriptor_at b i) ;;
                  llam_broker_descriptor_reset_slot i ;; mret 0
      | None => mret 0
      end) (rolled_back t w) w.
Proof.
  intros Hf. destruct (named_slot t (b_descriptors b)) as [i|] eqn:Hn.
  2: { apply wp_ret. eapply rolled_back_same; [done|]. intros _ r _. rewrite live_in_descriptor by done. by apply named_slot_none. }
  apply wp_bind. unfold wp at 1. pose proof (pres_core_close_owned (descriptor_at b i) w) as C.
  pose proof (ledger_close_reset b i w Hb) as L.
  assert (lock_kept w (llam_broker_descriptor_close_owned_slot (descriptor_at b i) w).2 ∧
    ∀ h, held task_handles h (os_log (w_os (llam_broker_descriptor_close_owned_slot (descriptor_at b i) w).2))
         = held task_handles h (os_log (w_os w))) as [K Hh].
  { unfold llam_broker_descriptor_close_owned_slot, sys_close. repeat branch; mon; (split; [by intros H|done]). }
  unfold llam_broker_descriptor_reset_slot in *. mon.
  destruct (llam_broker_descriptor_close_owned_slot (descriptor_at b i) w) as [[] w1]. cbn [fst snd] in *.
  unfold wp. mon. pose proof C as (C1&_&C3). rewrite C1, Hb in *. cbn [fmap option_fmap option_map] in *. split.
  - split; [eapply step_set_broker; [exact Hb|done|apply evolve_descriptor_reset]|]. intros _. by eapply quota_tasks.
  - intros b1 b2. rewrite Hb. intros [= <-] Hok [= <-] r Hr. rewrite live_in_descriptor by done.
    cbn [b_descriptors set_b_descriptors].
    eapply named_slot_dead; [apply Hok|done|by left|done].
  - exact L.
  - eapply tasks_kept; [exact Hb|done|done|done|exact K|exact Hh].
Qed.
End families.

Section tasks.
Context (t : capability_token) (w : world) (b : broker) (Hb : w_broker w = Some b).

(** Handing the handle of a finished task out of its slot. *)
Lemma rollback_task_completed i s :
  named_slot t (b_tasks b) = Some i → b_tasks b !! i = Some s → tok_family t = LLAM_BROKER_CAP_FAMILY_TASK →
  rolled_back t w (ts_task s) (set_w_broker (Some (with_task i zero_task_slot b)) w).
Proof.
  intros Hn Hi Hf. split.
  - by eapply move_with_task; [| |exact Hi|apply task_step_reset].
  - intros b1 b2. rewrite Hb. intros [= <-] Hok [= <-] r Hr. rewrite live_in_task by done.
    cbn [b_tasks with_task set_b_tasks].
    eapply named_slot_dead; [apply Hok|done|by left|done].
  - intros k _. unfold unowned, owned. cbn. by rewrite Hb.
  - intros Hr. split; [apply (ready_with_task w); [done|by intros H|by right|done]|]. intros h Hh.
    rewrite (with_task_unowned w w b i s zero_task_slot 0) by (done || lia).
    cbn [ts_task zero_task_slot]. rewrite is_handle_0. cbn [Z.b2z]. lia.
Qed.

(** Withdrawing the authority over a running task. *)
Lemma rollback_task_spawned i s :
  named_slot t (b_tasks b) = Some i → b_tasks b !! i = Some s → tok_family t = LLAM_BROKER_CAP_FAMILY_TASK →
  ts_state s = TASK_STATE_SPAWNED →
  rolled_back t w 0 (set_w_broker (Some (with_task i (set_ts_rights 0 (set_ts_state TASK_STATE_DETACHED s)) b)) w).
Proof.
  intros Hn Hi Hf Hs. split.
  - by eapply move_with_task; [| |exact Hi|apply task_step_detached; left].
  - intros b1 b2. rewrite Hb. intros [= <-] Hok [= <-] r Hr. rewrite live_in_task by done.
    cbn [b_tasks with_task set_b_tasks].
    eapply named_slot_dead; [apply Hok|done|by right|done].
  - intros k _. unfold unowned, owned. cbn. by rewrite Hb.
  - intros Hr. destruct (named_slot_some _ _ _ Hn) as (s1&Hi1&Hm). rewrite Hi in Hi1. injection Hi1 as <-.
    apply slot_matches_spec in Hm as (Ha&_).
    split; [apply (ready_with_task w); [done|by intros H|by left|done]|]. intros h Hh.
    rewrite (with_task_unowned w w b i s _ 0 h Hb Hi) by lia. rewrite is_handle_0. cbn. lia.
Qed.

Lemma rollback_task :
  tok_family t = LLAM_BROKER_CAP_FAMILY_TASK →
  wp (match named_slot t (b_tasks b) with
      | Some i =>
          let slot := task_at b i in
          match ts_state slot with
          | TASK_STATE_COMPLETED => set_task i zero_task_slot ;; mret (ts_task slot)
          | TASK_STATE_SPAWNED =>
              set_task i (set_ts_rights 0 (set_ts_state TASK_STATE_DETACHED slot)) ;; mret 0
          | _ => mret 0
          end
      | None => mret 0
      end) (rolled_back t w) w.
Proof.
  intros Hf. destruct (named_slot t (b_tasks b)) as [i|] eqn:Hn.
  2: { apply wp_ret. eapply rolled_back_same; [done|]. intros _ r _. rewrite live_in_task by done. by apply named_slot_none. }
  destruct (named_slot_some _ _ _ Hn) as (s&Hi&Hm). cbn zeta. rewrite (task_at_lookup _ _ _ Hi).
  destruct (ts_state s) eqn:Hs;
    try (apply wp_ret; eapply rolled_back_same; [done|]; intros Hok r Hr; rewrite live_in_task by done;
         eapply named_task_idle; [apply Hok|exact Hn|exact Hi|congruence|congruence|done]);
    apply wp_bind; unfold wp at 1; rewrite (set_task_run _ _ _ _ Hb); apply wp_ret.
  - by apply rollback_task_spawned.
  - by apply rollback_task_completed.
Qed.
End tasks.

Lemma rollback_token_cases t w b :
  w_broker w = Some b →
  wp (llam_broker_rollback_response_token_locked (Some t)) (rolled_back t w) w.
Proof.
  intros Hb. eapply wp_on_broker; [exact Hb|].
  apply wp_if; intros F1; bools; [by apply rollback_buffer|].
  apply wp_if; intros F2; bools; [by apply rollback_channel|].
  apply wp_if; intros F3; bools; [by apply rollback_descriptor|].
  apply wp_if; intros F4; bools; [by apply rollback_task|].
  apply wp_ret. eapply rolled_back_same; [done|]. intros _ r _. unfold live_in.
  by rewrite !(proj2 (Z.eqb_neq (tok_family t) _)).
Qed.

(** C33: A grant whose response could not be delivered is taken back.  Rolling
    back the response to a create request leaves the broker a valid later state
    of what it was, in which the announced token is authority for no subject and
    no right; a descriptor the object owned is closed, and the handle of a
    finished task detached, exactly once. *)
Theorem rollback_withdraws request response subject_id w b :
  world_ok w → w_broker w = Some b → broker_ok b → ready w →
  wp_status response = 0 → creates_grant (wr_op request) = true →
  let w' := (llam_broker_rollback_created_response (Some request) (Some response) subject_id w).2 in
  ∃ b', w_broker w' = Some b' ∧ broker_ok b' ∧ broker_le b b' ∧
    (∀ subj r, ¬ authorized b' subj (wp_token response) r) ∧
    ledger descriptors w w' ∧ ledger task_handles w w' ∧ ready w'.
Proof.
  intros Hok Hb Hbok Hr Hst Hop. cbn zeta. unfold llam_broker_rollback_created_response, on_broker.
  rewrite Hb, Hst. mon. assert (wr_op request ≠ LLAM_BROKER_WIRE_OP_CREATE_RING) as Hne by (by intros E; rewrite E in Hop).
  rewrite (proj2 (Z.eqb_neq _ _) Hne), Hop. mon.
  rewrite (lock_free w b Hb (proj2 (proj1 Hr) b Hb) (proj1 (proj1 Hr))). mon.
  pose proof (rollback_token_cases (wp_token response) w b Hb) as H. unfold wp in H.
  destruct (llam_broker_rollback_response_token_locked (Some (wp_token response)) w) as [task w1].
  cbn [fst snd] in H. destruct H as [[S1 _] D1 L1 T1]. destruct (T1 Hr) as [R1 U1]. mon.
  destruct (S1 Hok) as [_ E1]. destruct (E1 b Hb) as (b1&Hb1&_&E2). destruct (E2 Hbok) as [Hok1 Hle].
  assert (∀ subj r, ¬ authorized b1 subj (wp_token response) r) as Hdead.
  { intros subj r [A _ C]. rewrite (D1 b b1 Hb Hbok Hb1 r (cv_required _ _ _ _ _ A)) in C. done. }
  destruct (Z.eqb_spec task 0) as [->|Ht]; mon.
  - exists b1. split_and!; try done. intros h Hh. rewrite U1, is_handle_0 by done. cbn. lia.
  - destruct (detach_run task w1) as [C2 L2]. pose proof (pres_locks_detach task w1) as K2.
    destruct (llam_detach task w1) as [rc w2]. cbn [fst snd] in *. mon. pose proof C2 as (C21&_).
    exists b1. split_and!; try done.
    + congruence.
    + etrans; [exact L1|]. intros k _. unfold unowned, owned. rewrite C21, L2. done.
    + intros h Hh. unfold unowned, owned. rewrite C21, L2. specialize (U1 h Hh). unfold unowned, owned in U1.
      cbn [held res_weight task_handles]. lia.
    + eapply ready_objs; [by apply same_core_objs|done|done].
Qed.

(** ** Witness *)

Definition buffer_request : wire_request :=
  WireRequest 0 0 LLAM_BROKER_WIRE_OP_CREATE_BUFFER 0 0 0 0 0 0 0 0 0 zero_token (wr_data zero_request).

Definition buffer_response : wire_response :=
  WireResponse 0 0 0 0 0 0 0 0 0 buffer_token (wp_data zero_response).

Lemma buffer_ready : ready buffer_world.
Proof.
  split; [split; [done|by intros b [= <-]]|]. intros b [= <-]. apply Forall_replicate. by right.
Qed.

(** The token of the example buffer is authority before, and for nobody after
    its response is rolled back. *)
Lemma rollback_withdraws_witness :
  authorized buffer_broker 0 buffer_token LLAM_CAP_RIGHT_READ ∧
  ∃ b', w_broker (llam_broker_rollback_created_response (Some buffer_request) (Some buffer_response) 0
                    buffer_world).2 = Some b'
    ∧ ∀ subj r, ¬ authorized b' subj buffer_token r.
Proof.
  split; [exact buffer_token_authorized|].
  destruct (rollback_withdraws buffer_request buffer_response 0 buffer_world buffer_broker
    buffer_world_ok eq_refl buffer_broker_ok buffer_ready eq_refl eq_refl) as (b'&H1&_&_&H2&_).
  exists b'. split; [exact H1|exact H2].
Defined.
