(* ===== verification/BrokerFrame.v ===== *)
(** * What object operations leave alone

    Operations on buffers, channels, tasks and tokens change those tables only:
    the ring and transport sessions, the key and the lifecycle state of the
    broker are the same before and after, and no descriptor or mapping is
    acquired or released.  The class [Frame] collects what a relation must allow
    for all of them to respect it; [aside] is the frame the serving code relies
    on while it runs them, and holds of the descriptor operations too. *)

From S2P Require Import Prelude World Capability BrokerOps BrokerCore BrokerBuffer BrokerChannel.
From S2P Require Import BrokerRevoke BrokerDescriptor BrokerTask Ring RingMap BrokerSession Rollback.

(** The parts of the broker no object operation touches. *)
Definition bystanders (b : broker) :=
  (b_addr b, b_runtime b, b_capability_key b, b_ring_sessions b, b_transport_sessions b,
   b_next_transport_subject_nonce b,
   (b_initialized b, b_destroying b, b_destroy_waiters b, b_lock_initialized b, b_idle_cond_initialized b)).

Record aside (w w' : world) : Prop := {
  as_broker : bystanders <$> w_broker w' = bystanders <$> w_broker w;
  as_rings : w_rings w' = w_rings w;
  as_client : os_client (w_os w') = os_client (w_os w);
  as_lock : lock_kept w w';
  as_maps : ∀ k, held mappings k (os_log (w_os w')) = held mappings k (os_log (w_os w));
}.

#[export] Instance aside_preorder : PreOrder aside.
Proof.
  split; [intros w; split; try done; by intros H|]. intros x y z [] []. split; try congruence. by etrans.
Qed.

(** Every result of a program satisfies [P]. *)
Definition gives {A} (P : A → Prop) (m : M A) : Prop := ∀ w, P (m w).1.

Section gives.
Context {A B : Type} (P : A → Prop).

Lemma gives_ret a : P a → gives P (mret a).
Proof. by intros H w. Qed.

Lemma gives_bind (m : M B) (k : B → M A) : (∀ b, gives P (k b)) → gives P (m ≫= k).
Proof. intros H w. unfold mbind, st_bind. destruct (m w). apply H. Qed.

Lemma gives_bind_out (Q : B → Prop) (m : M B) (k : B → M A) :
  gives Q m → (∀ b, Q b → gives P (k b)) → gives P (m ≫= k).
Proof. intros Hm H w. specialize (Hm w). unfold mbind, st_bind. destruct (m w). by apply H. Qed.

Lemma gives_if (b : bool) (m1 m2 : M A) :
  (b = true → gives P m1) → (b = false → gives P m2) → gives P (if b then m1 else m2).
Proof. destruct b; auto. Qed.

Lemma gives_on_broker (m : M A) k : gives P m → (∀ b, gives P (k b)) → gives P (on_broker m k).
Proof. intros Hm Hk w. unfold on_broker. destruct (w_broker w); [apply Hk|apply Hm]. Qed.

Lemma gives_with_op (on_fail : Z → M A) body :
  (∀ e, gives P (on_fail e)) → gives (gives P) body → gives P (with_op on_fail body).
Proof.
  intros Hf Hb w. unfold with_op. mon. destruct (llam_broker_begin_op w) as [rc w1]. mon.
  destruct (rc =? 0); mon; [|apply Hf]. destruct (llam_broker_lock w1) as [rc' w2]. mon.
  destruct (rc' =? 0); mon; [|destruct (llam_broker_end_op w2) as [[] w3]; mon; apply Hf].
  specialize (Hb w2). destruct (body w2) as [k w3]. mon. destruct (llam_broker_end_op w3) as [[] w4]. mon.
  apply Hb.
Qed.
End gives.

Lemma pres_bind_out (R : world → world → Prop) `{!PreOrder R} {A B} (P : B → Prop) (m : M B) (k : B → M A) :
  pres R m → gives P m → (∀ a, P a → pres R (k a)) → pres R (m ≫= k).
Proof.
  intros Hm HP Hk w. specialize (Hm w). specialize (HP w). unfold mbind, st_bind.
  destruct (m w) as [a w']. etrans; [exact Hm|]. by apply Hk.
Qed.

Lemma wp_pres (R : world → world → Prop) `{!PreOrder R} {A B} (m : M A) (k : A → M B) Q w0 w :
  pres R m → R w0 w → (∀ a w', R w0 w' → wp (k a) Q w') → wp (m ≫= k) Q w.
Proof. intros Hm Hw Hk. apply wp_bind. apply Hk. etrans; [exact Hw|apply Hm]. Qed.

Lemma pres_if_eq (R : world → world → Prop) {A} (b : bool) (m1 m2 : M A) :
  (b = true → pres R m1) → (b = false → pres R m2) → pres R (if b then m1 else m2).
Proof. destruct b; auto. Qed.

(** A program that returns what is left to do: both parts respect [R]. *)
Definition pres2 {A} (R : world → world → Prop) (m : M (M A)) : Prop :=
  pres R m ∧ gives (pres R) m.

Section pres2.
Context (R : world → world → Prop) `{!PreOrder R} {A B : Type}.

Lemma pres2_ret (k : M A) : pres R k → pres2 R (mret k).
Proof. intros H. split; [apply pres_ret, _|by intros w]. Qed.

Lemma pres2_bind (m : M B) (k : B → M (M A)) : pres R m → (∀ a, pres2 R (k a)) → pres2 R (m ≫= k).
Proof.
  intros Hm Hk. split; [apply pres_bind; [apply _|done|intros a; apply Hk]|].
  intros w. unfold mbind, st_bind. destruct (m w) as [a w']. apply Hk.
Qed.

Lemma pres2_bind_out (P : B → Prop) (m : M B) (k : B → M (M A)) :
  pres R m → gives P m → (∀ a, P a → pres2 R (k a)) → pres2 R (m ≫= k).
Proof.
  intros Hm HP Hk. split; [eapply pres_bind_out; [apply _|done..|]; intros a Ha; by apply Hk|].
  eapply gives_bind_out; [done|]. intros a Ha. by apply Hk.
Qed.

Lemma pres2_if (b : bool) (m1 m2 : M (M A)) : pres2 R m1 → pres2 R m2 → pres2 R (if b then m1 else m2).
Proof. by destruct b. Qed.

Lemma pres2_on_broker (m : M (M A)) k :
  pres2 R m → (∀ b, pres2 R (k b)) → pres2 R (on_broker m k).
Proof.
  intros [H1 H2] Hk. split; [apply pres_on_broker; [done|intros b; apply Hk]|].
  intros w. unfold on_broker. destruct (w_broker w); [apply Hk|apply H2].
Qed.
End pres2.

(** ** Frames *)

(** What the process holds: descriptors and mapped memory come and go with
    these events, and belong to the slots that must close them. *)
Definition neutral (e : event) : bool :=
  match e with EvDup _ _ | EvClose _ | EvOpen _ | EvMap _ | EvUnmap _ => false | _ => true end.

Definition fd_view (b : broker) : list (Z * bool) :=
  (λ s, (ds_fd s, ds_close_on_destroy s)) <$> b_descriptors b.

(** A relation that all operations respect which leave the bystanders and the
    owned descriptors alone. *)
Class Frame (R : world → world → Prop) : Prop := {
  fr_preorder :: PreOrder R;
  fr_same : ∀ w w', w_broker w' = w_broker w → w_rings w' = w_rings w → w_os w' = w_os w → R w w';
  fr_pop : ∀ A (tape : os → list A) set_tape dflt,
    (∀ l o, os_client (set_tape l o) = os_client o) →
    (∀ l o, os_mutex_lock (set_tape l o) = os_mutex_lock o) →
    (∀ l o, os_log (set_tape l o) = os_log o) → pres R (pop tape set_tape dflt);
  fr_pop_lock : pres R (pop os_mutex_lock set_os_mutex_lock 0);
  fr_log : ∀ e, neutral e = true → pres R (log e);
  fr_upd : ∀ f, (∀ b, bystanders (f b) = bystanders b ∧ fd_view (f b) = fd_view b) → pres R (upd_broker f);
}.

Create HintDb llam_frame discriminated.

Lemma pres_frame_errno `{!Frame R} e : pres R (set_errno e).
Proof. intros w. by apply fr_same. Qed.

Lemma pres_frame_fail `{!Frame R} e : pres R (fail e).
Proof. intros w. by apply fr_same. Qed.

Lemma pres_frame_get_errno `{!Frame R} : pres R get_errno.
Proof. intros w. by apply fr_same. Qed.

Lemma pres_frame_broker `{!Frame R} : pres R the_broker.
Proof. intros w. by apply fr_same. Qed.

Lemma pres_frame_unlock `{!Frame R} : pres R llam_broker_unlock.
Proof. intros w. by apply fr_same. Qed.

Lemma pres_frame_tls `{!Frame R} ops : pres R (modify (set_w_tls ops)).
Proof. intros w. by apply fr_same. Qed.

#[export] Hint Resolve pres_frame_errno pres_frame_fail pres_frame_get_errno pres_frame_broker
  pres_frame_unlock pres_frame_tls fr_pop_lock : llam_frame.
#[export] Hint Extern 0 (Frame _) => apply _ : llam_frame.

(** Walk through a program, discharging the primitives. *)
Ltac frame_step :=
  first
    [ assumption
    | solve [auto with llam_frame]
    | by apply pres_ret, _
    | by apply pres_gets, _
    | by apply fr_pop
    | by apply fr_log
    | apply fr_upd; by intros []
    | apply pres2_ret; [apply _|]
    | apply pres2_bind; [apply _| |intros ?]
    | apply pres2_if
    | apply pres2_on_broker; [|intros ?]
    | apply pres_on_broker; [|intros ?]
    | apply pres_if
    | apply pres_for_each; [apply _|intros ?]
    | apply pres_bind; [apply _| |intros ?]
    | progress case_match ].

Ltac frame_walk := repeat frame_step.

Lemma pres_frame_lock `{!Frame R} : pres R llam_broker_lock.
Proof. unfold llam_broker_lock. frame_walk. Qed.

#[export] Hint Resolve pres_frame_lock : llam_frame.

Lemma pres_frame_subject `{!Frame R} : pres R llam_broker_current_subject.
Proof. unfold llam_broker_current_subject. frame_walk. Qed.

Lemma pres_frame_begin `{!Frame R} s : pres R (llam_broker_begin_op_subject s).
Proof.
  unfold llam_broker_begin_op_subject, llam_broker_current_thread_has_op, llam_broker_tls_enter_op. frame_walk.
Qed.

Lemma pres_frame_begin_op `{!Frame R} : pres R llam_broker_begin_op.
Proof. apply pres_frame_begin. Qed.

Lemma pres_frame_end `{!Frame R} : pres R llam_broker_end_op.
Proof. unfold llam_broker_end_op, llam_broker_tls_leave_op. frame_walk. Qed.

#[export] Hint Resolve pres_frame_begin pres_frame_begin_op pres_frame_end pres_frame_subject : llam_frame.

Lemma pres_frame_with_op `{!Frame R} {A} (on_fail : Z → M A) body :
  (∀ e, pres R (on_fail e)) → pres2 R body → pres R (with_op on_fail body).
Proof.
  intros Hf [Hb Hk]. apply pres_with_op_any; [apply _|auto with llam_frame..|done|done].
Qed.

Ltac frame_walk ::= repeat first [apply pres_frame_with_op; [intros ?|] | frame_step].

(** ** Tokens and lookups *)

Lemma pres_frame_entropy `{!Frame R} : pres R llam_cap_entropy_word.
Proof. unfold llam_cap_entropy_word, llam_public_slot_entropy_from_os. frame_walk. Qed.

Lemma pres_frame_secret `{!Frame R} s : pres R (llam_public_slot_fallback_secret s).
Proof. unfold llam_public_slot_fallback_secret. frame_walk. Qed.

#[export] Hint Resolve pres_frame_entropy pres_frame_secret : llam_frame.

Lemma pres_frame_issue `{!Frame R} k o r t : pres R (llam_capability_issue k o r t).
Proof. unfold llam_capability_issue, llam_cap_fill_nonce. frame_walk. Qed.

Lemma pres_frame_validate_subject `{!Frame R} k t r e s : pres R (llam_capability_validate_subject k t r e s).
Proof. unfold llam_capability_validate_subject. frame_walk. Qed.

Lemma pres_frame_rights `{!Frame R} f r : pres R (llam_broker_validate_object_rights f r).
Proof. unfold llam_broker_validate_object_rights. frame_walk. Qed.

Lemma pres_frame_epoch `{!Frame R} : pres R llam_broker_revocation_epoch_unlocked.
Proof. unfold llam_broker_revocation_epoch_unlocked. frame_walk. Qed.

Lemma pres_frame_next `{!Frame R} n : pres R (llam_broker_validate_next_object_id n).
Proof. unfold llam_broker_validate_next_object_id. frame_walk. Qed.

#[export] Hint Resolve pres_frame_issue pres_frame_validate_subject pres_frame_rights pres_frame_epoch
  pres_frame_next : llam_frame.

Lemma pres_frame_issue_object `{!Frame R} f s g r t : pres R (llam_broker_issue_object_cap_unlocked f s g r t).
Proof. unfold llam_broker_issue_object_cap_unlocked. frame_walk. Qed.

Lemma pres_frame_validate_cap `{!Frame R} t r : pres R (llam_broker_validate_cap_unlocked t r).
Proof. unfold llam_broker_validate_cap_unlocked. frame_walk. Qed.

#[export] Hint Resolve pres_frame_issue_object pres_frame_validate_cap : llam_frame.

Lemma pres_frame_family `{!Frame R} t f r : pres R (llam_broker_validate_token_family_unlocked t f r).
Proof. unfold llam_broker_validate_token_family_unlocked. frame_walk. Qed.

#[export] Hint Resolve pres_frame_family : llam_frame.

Lemma pres_frame_find `{!Frame R} `{BrokerSlot T} f (tbl : broker → list T) t r : pres R (find_object_unlocked f tbl t r).
Proof. unfold find_object_unlocked. frame_walk. Qed.

Lemma pres_frame_attenuate_cap `{!Frame R} k t s e o : pres R (llam_capability_attenuate k t s e o).
Proof. unfold llam_capability_attenuate. frame_walk. Qed.

#[export] Hint Resolve pres_frame_find pres_frame_attenuate_cap : llam_frame.

Lemma pres_frame_fail_clear `{!Frame R} o l e : pres R (llam_broker_fail_clear_output o l e).
Proof. unfold llam_broker_fail_clear_output. frame_walk. Qed.

Lemma pres_frame_fail_clear_ssize `{!Frame R} o l e : pres R (llam_broker_fail_clear_output_ssize o l e).
Proof. unfold llam_broker_fail_clear_output_ssize, llam_broker_fail_clear_output. frame_walk. Qed.

#[export] Hint Resolve pres_frame_fail_clear pres_frame_fail_clear_ssize : llam_frame.

Lemma pres_frame_validate `{!Frame R} t r : pres R (llam_broker_validate_cap t r).
Proof. unfold llam_broker_validate_cap. frame_walk. Qed.

Lemma pres_frame_attenuate `{!Frame R} t s o : pres R (llam_broker_attenuate_cap t s o).
Proof.
  unfold llam_broker_attenuate_cap, llam_broker_revocation_epoch_unlocked. frame_walk.
Qed.

(** ** Buffers *)

Lemma pres_frame_buffer_reset `{!Frame R} i : pres R (llam_broker_buffer_slot_reset i).
Proof. unfold llam_broker_buffer_slot_reset, llam_broker_buffer_free_data. frame_walk. Qed.

#[export] Hint Resolve pres_frame_buffer_reset : llam_frame.

Lemma pres_frame_register_buffer `{!Frame R} d l r o : pres R (llam_broker_register_buffer d l r o).
Proof.
  unfold llam_broker_register_buffer, register_buffer_locked, llam_broker_buffer_free_data. frame_walk.
Qed.

Lemma pres_frame_read_buffer `{!Frame R} t off o l : pres R (llam_broker_read_buffer t off o l).
Proof. unfold llam_broker_read_buffer, read_buffer_locked, llam_broker_find_buffer_unlocked. frame_walk. Qed.

Lemma pres_frame_write_buffer `{!Frame R} t off o l : pres R (llam_broker_write_buffer t off o l).
Proof. unfold llam_broker_write_buffer, write_buffer_locked, llam_broker_find_buffer_unlocked. frame_walk. Qed.

(** ** Channels *)

Lemma pres_frame_create_channel `{!Frame R} c r o : pres R (llam_broker_create_channel c r o).
Proof. unfold llam_broker_create_channel, create_channel_locked, upd_channel. frame_walk. Qed.

Lemma pres_frame_channel_send `{!Frame R} t d l : pres R (llam_broker_channel_send t d l).
Proof. unfold llam_broker_channel_send, channel_send_locked, llam_broker_find_channel_unlocked, upd_channel. frame_walk. Qed.

Lemma pres_frame_channel_recv `{!Frame R} t o c : pres R (llam_broker_channel_recv t o c).
Proof. unfold llam_broker_channel_recv, channel_recv_locked, llam_broker_find_channel_unlocked, upd_channel. frame_walk. Qed.

Lemma pres_frame_channel_close `{!Frame R} t : pres R (llam_broker_channel_close t).
Proof. unfold llam_broker_channel_close, channel_close_locked, llam_broker_find_channel_unlocked, upd_channel. frame_walk. Qed.

(** ** Descriptors *)

Lemma pres_frame_poll `{!Frame R} fuel fd e s d : pres R (wait_fd_loop fuel fd e s d).
Proof.
  induction fuel as [|fuel IH]; cbn [wait_fd_loop]; unfold sys_poll, llam_now_ns; frame_walk.
Qed.

#[export] Hint Resolve pres_frame_poll : llam_frame.

Lemma pres_frame_not_ready `{!Frame R} fd e : pres R (io_not_ready fd e).
Proof.
  unfold io_not_ready, llam_broker_descriptor_require_socket, llam_broker_descriptor_wait_fd_ready,
    sys_getsockopt, llam_now_ns.
  frame_walk.
Qed.

#[export] Hint Resolve pres_frame_not_ready : llam_frame.

Lemma pres_frame_cloexec `{!Frame R} fd : pres R (llam_broker_descriptor_set_cloexec fd).
Proof. unfold llam_broker_descriptor_set_cloexec, sys_fcntl. frame_walk. Qed.

#[export] Hint Resolve pres_frame_cloexec : llam_frame.

(** ** Tasks *)

Lemma pres_frame_compute `{!Frame R} k a : pres R (llam_broker_task_compute k a).
Proof. unfold llam_broker_task_compute, llam_sleep_ns. frame_walk. Qed.

Lemma pres_frame_set_task `{!Frame R} i s : pres R (set_task i s).
Proof. unfold set_task. frame_walk. Qed.

Lemma pres_frame_detach `{!Frame R} t : pres R (llam_detach t).
Proof. unfold llam_detach. frame_walk. Qed.

Lemma pres_frame_join `{!Frame R} t : pres R (llam_join t).
Proof. unfold llam_join. frame_walk. Qed.

#[export] Hint Resolve pres_frame_compute pres_frame_set_task pres_frame_detach pres_frame_join : llam_frame.

Lemma pres_frame_run_handle `{!Frame R} : pres R llam_runtime_run_handle.
Proof.
  unfold llam_runtime_run_handle. apply pres_bind; [apply _|by apply fr_pop|]. intros l.
  induction l as [|i l IH]; cbn [run_slots]; [frame_walk|].
  unfold run_slot, llam_broker_task_trampoline, set_result, llam_broker_task_slot_reset. frame_walk.
Qed.

#[export] Hint Resolve pres_frame_run_handle : llam_frame.

(** What a refused reservation leaves to do only reports an error. *)
Definition harmless (R : world → world → Prop) (r : M unit + nat * Z) : Prop :=
  match r with inl report => pres R report | inr _ => True end.

Lemma reserve_harmless `{!Frame R} k a r : gives (harmless R) (reserve_task_slot k a r).
Proof.
  intros w.
  assert (∀ e, pres R (set_errno e)) as Herr by apply pres_frame_errno.
  unfold reserve_task_slot. mon. case_match; mon; [apply Herr|].
  rewrite current_subject_run. mon. case_match; mon; [apply Herr|]. case_match; mon; [apply Herr|].
  case_match; mon; [|apply Herr].
  destruct (llam_broker_validate_next_object_id _ w) as [rc w']. mon.
  case_match; mon; [apply pres_ret, _|done].
Qed.

Lemma pres2_frame_spawn `{!Frame R} k a r o : pres2 R (spawn_task_body k a r o).
Proof.
  apply (pres2_bind_out _ (harmless R)); [unfold reserve_task_slot; frame_walk|apply reserve_harmless|].
  intros [report|[i id]] Hr; unfold harmless in Hr; unfold start_task, release_task_slot, set_result,
    llam_broker_issue_object_cap, llam_runtime_spawn_ex, llam_broker_task_slot_reset; frame_walk.
Qed.

#[export] Hint Resolve pres2_frame_spawn : llam_frame.

Lemma pres_frame_spawn `{!Frame R} k a r o : pres R (llam_broker_spawn_task k a r o).
Proof. unfold llam_broker_spawn_task. frame_walk. Qed.

Lemma pres_frame_join_task `{!Frame R} t o : pres R (llam_broker_join_task t o).
Proof.
  unfold llam_broker_join_task, join_task_body, llam_broker_find_task, llam_broker_task_slot_reset. frame_walk.
Qed.

Lemma pres_frame_detach_task `{!Frame R} t : pres R (llam_broker_detach_task t).
Proof.
  unfold llam_broker_detach_task, detach_task_body, llam_broker_find_task, llam_broker_task_slot_reset. frame_walk.
Qed.

(** ** Reclaiming the objects of a subject *)

Lemma pres_frame_reclaim_buffers `{!Frame R} s : pres R (llam_broker_reclaim_subject_buffers s).
Proof. unfold llam_broker_reclaim_subject_buffers. frame_walk. Qed.

Lemma pres_frame_reclaim_channels `{!Frame R} s : pres R (llam_broker_reclaim_subject_channels s).
Proof. unfold llam_broker_reclaim_subject_channels, upd_channel. frame_walk. Qed.

Lemma pres_frame_reclaim_slots `{!Frame R} s n : ∀ i, pres R (reclaim_task_slots s n i).
Proof.
  induction n as [|n IH]; intros i; cbn [reclaim_task_slots]; [frame_walk|].
  unfold reclaim_task_slot, llam_broker_task_slot_reset. frame_walk.
Qed.

Lemma pres_frame_detach_all `{!Frame R} l : pres R (detach_all l).
Proof. induction l as [|t l IH]; cbn [detach_all]; frame_walk. Qed.

#[export] Hint Resolve pres_frame_reclaim_slots pres_frame_detach_all : llam_frame.

Lemma pres_frame_reclaim_tasks `{!Frame R} s : pres R (llam_broker_reclaim_subject_tasks s).
Proof. unfold llam_broker_reclaim_subject_tasks. frame_walk. Qed.

#[export] Hint Resolve pres_frame_reclaim_buffers pres_frame_reclaim_channels pres_frame_reclaim_tasks : llam_frame.

Lemma pres_frame_drive_allowed `{!Frame R} t o : pres R (llam_broker_task_join_runtime_drive_allowed t o).
Proof. unfold llam_broker_task_join_runtime_drive_allowed, llam_broker_find_task. frame_walk. Qed.

#[export] Hint Resolve pres_frame_validate pres_frame_attenuate pres_frame_register_buffer pres_frame_read_buffer
  pres_frame_write_buffer pres_frame_create_channel pres_frame_channel_send pres_frame_channel_recv
  pres_frame_channel_close pres_frame_spawn pres_frame_join_task pres_frame_detach_task
  pres_frame_drive_allowed : llam_frame.

(** ** Bystanders *)

Lemma aside_same w w' :
  bystanders <$> w_broker w' = bystanders <$> w_broker w → w_rings w' = w_rings w → w_os w' = w_os w → aside w w'.
Proof. intros H1 H2 H3. split; unfold lock_kept; by rewrite ?H3. Qed.

(** Neither maps nor unmaps memory. *)
Definition unmapped (e : event) : bool := match e with EvMap _ | EvUnmap _ => false | _ => true end.

Lemma pres_aside_log e : unmapped e = true → pres aside (log e).
Proof. intros He w. split; try done; [by intros H|]. intros k. cbn. by destruct e. Qed.

Lemma pres_aside_upd f : (∀ b, bystanders (f b) = bystanders b) → pres aside (upd_broker f).
Proof. intros H w. apply aside_same; try done. cbn. destruct (w_broker w); [|done]. cbn. by rewrite H. Qed.

Lemma pres_aside_pop {A} (tape : os → list A) set_tape dflt :
  (∀ l o, os_client (set_tape l o) = os_client o) →
  (∀ l o, os_mutex_lock (set_tape l o) = os_mutex_lock o) →
  (∀ l o, os_log (set_tape l o) = os_log o) → pres aside (pop tape set_tape dflt).
Proof.
  intros H1 H2 H3 w. unfold pop. destruct (tape (w_os w)); [reflexivity|].
  split; [done..|apply H1| |]; [unfold lock_kept; cbn; by rewrite H2|cbn; by rewrite H3].
Qed.

#[export] Instance aside_frame : Frame aside.
Proof.
  split; [apply _|intros w w' H ??; apply aside_same; by rewrite ?H| | |intros e He; apply pres_aside_log; by destruct e|].
  - intros A tape set_tape dflt H1 H2 H3. by apply pres_aside_pop.
  - intros w. unfold pop. destruct (os_mutex_lock (w_os w)) eqn:E; [reflexivity|]. split; try done.
    intros H. congruence.
  - intros f H. apply pres_aside_upd. apply H.
Qed.

Ltac aside_walk :=
  repeat first
    [ by apply pres_aside_log
    | apply pres_aside_upd; by intros []
    | apply pres_frame_with_op; [intros ?|]
    | frame_step ].

Lemma pres_aside_revoke t r o : pres aside (llam_broker_revoke_object_cap t r o).
Proof.
  unfold llam_broker_revoke_object_cap, revoke_locked. aside_walk.
Qed.

Lemma pres_aside_duplicate t r : pres aside (llam_broker_duplicate_descriptor_unlocked t r).
Proof.
  unfold llam_broker_duplicate_descriptor_unlocked, llam_broker_find_descriptor_unlocked,
    llam_broker_dup_cloexec_fd, llam_broker_set_cloexec_fd, sys_dup, sys_fcntl, sys_close.
  aside_walk.
Qed.

#[local] Hint Resolve pres_aside_duplicate : llam_frame.

Lemma pres_aside_read_handle t o l : pres aside (llam_broker_read_handle t o l).
Proof.
  unfold llam_broker_read_handle, read_handle_locked, read_duplicate, llam_broker_finish_read_clear_tail,
    llam_broker_descriptor_recv_nonblocking, sys_recv, sys_close. aside_walk.
Qed.

Lemma pres_aside_write_handle t o l : pres aside (llam_broker_write_handle t o l).
Proof.
  unfold llam_broker_write_handle, write_handle_locked, write_duplicate,
    llam_broker_descriptor_send_nonblocking, sys_send, sys_close. aside_walk.
Qed.

Lemma pres_aside_register_handle h r c o : pres aside (llam_broker_register_handle h r c o).
Proof.
  unfold llam_broker_register_handle, register_handle_locked, write_descriptor_slot,
    llam_broker_descriptor_close_owned_slot, llam_broker_descriptor_reset_slot, sys_close. aside_walk.
Qed.

Lemma pres_aside_reclaim_descriptors s : pres aside (llam_broker_reclaim_subject_descriptors s).
Proof.
  unfold llam_broker_reclaim_subject_descriptors, llam_broker_descriptor_close_owned_slot,
    llam_broker_descriptor_reset_slot, sys_close. aside_walk.
Qed.

Lemma pres_aside_rollback_token t : pres aside (llam_broker_rollback_response_token_locked t).
Proof.
  unfold llam_broker_rollback_response_token_locked, upd_channel, llam_broker_descriptor_close_owned_slot,
    llam_broker_descriptor_reset_slot, sys_close. aside_walk.
Qed.

#[export] Hint Resolve pres_aside_reclaim_descriptors pres_aside_rollback_token : llam_frame.

(** Undoing a grant, as opposed to forgetting a ring. *)
Lemma pres_aside_rollback_created request response s :
  creates_grant (wr_op request) = true →
  pres aside (llam_broker_rollback_created_response (Some request) (Some response) s).
Proof.
  intros Hop. assert (wr_op request ≠ LLAM_BROKER_WIRE_OP_CREATE_RING) as Hne by (by intros E; rewrite E in Hop).
  unfold llam_broker_rollback_created_response. rewrite (proj2 (Z.eqb_neq _ _) Hne), Hop. cbn [andb]. aside_walk.
Qed.
