(* ===== verification/RingServe.v ===== *)
(** * Serving a ring

    [src/core/broker/ring/broker_ring_ops.c] (one submission),
    [broker_ring_dispatch.c] (a batch of a claimed session) and the serving
    entry points of [broker_ring.c].  The ring is client-writable throughout:
    every access is preceded by an arbitrary step of the client.  The theorems
    say what a completion reports and where a submission may write, and that a
    live session never executes a submission twice, whatever the client does to
    the shared cursors. *)

From S2P Require Import Prelude Mix World Capability BrokerOps BrokerCore BrokerBuffer BrokerChannel.
From S2P Require Import BrokerRevoke BrokerDescriptor BrokerTask Ring RingMap BrokerSession Rollback BrokerFrame.

(** Operations of a submission, by their code in the ring. *)
Inductive llam_broker_ring_op :=
  | LLAM_BROKER_RING_OP_NOP
  | LLAM_BROKER_RING_OP_CAP_VALIDATE
  | LLAM_BROKER_RING_OP_BUFFER_READ
  | LLAM_BROKER_RING_OP_BUFFER_WRITE
  | LLAM_BROKER_RING_OP_DESCRIPTOR_READ
  | LLAM_BROKER_RING_OP_DESCRIPTOR_WRITE
  | LLAM_BROKER_RING_OP_CHANNEL_SEND
  | LLAM_BROKER_RING_OP_CHANNEL_RECV
  | LLAM_BROKER_RING_OP_CHANNEL_CLOSE
  | LLAM_BROKER_RING_OP_TASK_SPAWN
  | LLAM_BROKER_RING_OP_TASK_JOIN
  | LLAM_BROKER_RING_OP_TASK_DETACH
  | LLAM_BROKER_RING_OP_CAP_ATTENUATE
  | LLAM_BROKER_RING_OP_CAP_REVOKE.

Definition ring_op_code (x : llam_broker_ring_op) : Z :=
  match x with
  | LLAM_BROKER_RING_OP_NOP => 0
  | LLAM_BROKER_RING_OP_CAP_VALIDATE => 1
  | LLAM_BROKER_RING_OP_BUFFER_READ => 2
  | LLAM_BROKER_RING_OP_BUFFER_WRITE => 3
  | LLAM_BROKER_RING_OP_DESCRIPTOR_READ => 4
  | LLAM_BROKER_RING_OP_DESCRIPTOR_WRITE => 5
  | LLAM_BROKER_RING_OP_CHANNEL_SEND => 6
  | LLAM_BROKER_RING_OP_CHANNEL_RECV => 7
  | LLAM_BROKER_RING_OP_CHANNEL_CLOSE => 8
  | LLAM_BROKER_RING_OP_TASK_SPAWN => 9
  | LLAM_BROKER_RING_OP_TASK_JOIN => 10
  | LLAM_BROKER_RING_OP_TASK_DETACH => 11
  | LLAM_BROKER_RING_OP_CAP_ATTENUATE => 12
  | LLAM_BROKER_RING_OP_CAP_REVOKE => 13
  end.
Coercion ring_op_code : llam_broker_ring_op >-> Z.
Arguments ring_op_code : simpl never.

(** [sizeof(llam_capability_token_t)] and its memory image. *)
Definition sizeof_token : Z := 88.
Definition token_image (t : capability_token) : list Z := token_bytes t ++ tok_mac t.

(** ** One submission ([broker_ring_ops.c]) *)

(** The bytes at [ring->data + offset]. *)
Definition ring_bytes (ring offset length : Z) : M (list Z) :=
  ring_load ring (λ r, bytes_at (Z.to_nat offset) (Z.to_nat length) (ring_data r)) [].

Definition put_bytes (ring offset : Z) (bytes : list Z) : M unit :=
  store_ring ring (λ r, set_ring_data (memcpy_at (Z.to_nat offset) bytes (ring_data r)) r).

Definition llam_broker_ring_data_range (offset length : Z) : M (option (Z * Z)) :=
  if length =? 0 then set_errno EINVAL ;; mret None
  else
    let end_ := u64 (offset + length) in
    if (end_ <? offset) || (LLAM_BROKER_RING_DATA_BYTES <? end_) || (UINT64_MAX <? length)
    then set_errno EINVAL ;; mret None
    else mret (Some (offset, length)).

Definition llam_broker_ring_clear_output (ring offset length : Z) : M unit :=
  put_bytes ring offset (replicate (Z.to_nat length) 0).

Definition llam_broker_ring_clear_output_suffix (ring offset requested produced : Z) : M unit :=
  if produced <? requested
  then put_bytes ring (offset + produced) (replicate (Z.to_nat (requested - produced)) 0)
  else mret tt.

(** The length of the output window of a submission. *)
Definition output_length (s : ring_submission) : option Z :=
  let op := sub_op s in
  if (op =? LLAM_BROKER_RING_OP_CAP_ATTENUATE) || (op =? LLAM_BROKER_RING_OP_CAP_REVOKE)
     || (op =? LLAM_BROKER_RING_OP_TASK_SPAWN)
  then Some sizeof_token
  else if (op =? LLAM_BROKER_RING_OP_BUFFER_READ) || (op =? LLAM_BROKER_RING_OP_DESCRIPTOR_READ)
     || (op =? LLAM_BROKER_RING_OP_CHANNEL_RECV)
  then Some (sub_arg1 s)
  else None.

Definition llam_broker_ring_clear_submission_output (ring : Z) (submission : option ring_submission) :
    M unit :=
  match submission with
  | None => mret tt
  | Some s =>
      match output_length s with
      | None => mret tt
      | Some length =>
          r ← llam_broker_ring_data_range (sub_arg2 s) length;
          match r with
          | Some (ring_offset, range_length) =>
              llam_broker_ring_clear_output ring ring_offset range_length
          | None => mret tt
          end
      end
  end.

Definition llam_broker_ring_completion_fail (c : ring_completion) (error_code : Z) : ring_completion :=
  set_cpl_error_code (if negb (error_code =? 0) then error_code else EINVAL) (set_cpl_status (-1) c).

Definition llam_broker_ring_completion_fail_errno (c : ring_completion) : M ring_completion :=
  e ← get_errno; mret (llam_broker_ring_completion_fail c e).

(** [completion->status = 0; completion->result0 = result0;] *)
Definition completion_ok (c : ring_completion) (result0 : Z) : ring_completion :=
  set_cpl_result0 result0 (set_cpl_status 0 c).

(** [if (data_range(...) == 0) k else completion_fail_errno(completion)] *)
Definition in_range (offset length : Z) (c : ring_completion)
    (k : Z → Z → M ring_completion) : M ring_completion :=
  r ← llam_broker_ring_data_range offset length;
  match r with
  | Some (o, l) => k o l
  | None => llam_broker_ring_completion_fail_errno c
  end.

(** Publish a new token, or clear its place. *)
Definition finish_token (ring offset length : Z) (c : ring_completion)
    (r : Z * option capability_token) : M ring_completion :=
  if r.1 =? 0 then
    put_bytes ring offset (token_image (default zero_token r.2)) ;; mret (completion_ok c length)
  else
    llam_broker_ring_clear_output ring offset length ;;
    llam_broker_ring_completion_fail_errno c.

(** [nread] bytes were produced, or the place is cleared. *)
Definition finish_read (ring offset length : Z) (c : ring_completion) (nread : Z) : M ring_completion :=
  if 0 <=? nread then
    llam_broker_ring_clear_output_suffix ring offset length nread ;; mret (completion_ok c nread)
  else
    llam_broker_ring_clear_output ring offset length ;;
    llam_broker_ring_completion_fail_errno c.

(** Run a reader whose output buffer is the range of the ring. *)
Definition read_into (ring offset length : Z) (read : option (list Z) → M (Z * option (list Z))) : M Z :=
  old ← ring_bytes ring offset length;
  r ← read (Some old);
  put_bytes ring offset (default [] r.2) ;;
  mret r.1.

Definition spawn_kind_bad (arg0 : Z) : bool :=
  (UINT32_MAX <? arg0) || (arg0 =? LLAM_BROKER_TASK_KIND_SLEEP_NS_RETURN_U64).

(** The spawn case: the completion and the token created. *)
Definition execute_spawn (ring : Z) (s : ring_submission) (c : ring_completion) :
    M (ring_completion * capability_token) :=
  r ← llam_broker_ring_data_range (sub_arg2 s) sizeof_token;
  match r with
  | None => c ← llam_broker_ring_completion_fail_errno c; mret (c, zero_token)
  | Some (ring_offset, length) =>
      if spawn_kind_bad (sub_arg0 s) then
        llam_broker_ring_clear_output ring ring_offset length ;;
        mret (llam_broker_ring_completion_fail c EINVAL, zero_token)
      else
        t ← llam_broker_spawn_task (u32 (sub_arg0 s)) (sub_arg1 s)
              (Z.lor LLAM_CAP_RIGHT_JOIN LLAM_CAP_RIGHT_DETACH) (Some zero_token);
        c ← finish_token ring ring_offset length c t;
        mret (c, if t.1 =? 0 then default zero_token t.2 else zero_token)
  end.

(** The other cases. *)
Definition execute_op (ring : Z) (s : ring_submission) (c : ring_completion) : M ring_completion :=
  let op := sub_op s in
  let token := Some (sub_token s) in
  let status rc ok := if rc =? 0 then mret ok else llam_broker_ring_completion_fail_errno c in
  if op =? LLAM_BROKER_RING_OP_NOP then mret (set_cpl_status 0 c)
  else if op =? LLAM_BROKER_RING_OP_CAP_VALIDATE then
    rc ← llam_broker_validate_cap token (sub_arg0 s);
    status rc (completion_ok c 1)
  else if op =? LLAM_BROKER_RING_OP_CAP_ATTENUATE then
    in_range (sub_arg2 s) sizeof_token c (λ ring_offset length,
      t ← llam_broker_attenuate_cap token (sub_arg0 s) (Some zero_token);
      finish_token ring ring_offset length c t)
  else if op =? LLAM_BROKER_RING_OP_CAP_REVOKE then
    in_range (sub_arg2 s) sizeof_token c (λ ring_offset length,
      t ← llam_broker_revoke_object_cap token (sub_arg0 s) (Some zero_token);
      finish_token ring ring_offset length c t)
  else if op =? LLAM_BROKER_RING_OP_BUFFER_READ then
    in_range (sub_arg2 s) (sub_arg1 s) c (λ ring_offset length,
      rc ← read_into ring ring_offset length (λ out, llam_broker_read_buffer token (sub_arg0 s) out length);
      if rc =? 0 then mret (completion_ok c length)
      else
        llam_broker_ring_clear_output ring ring_offset length ;;
        llam_broker_ring_completion_fail_errno c)
  else if op =? LLAM_BROKER_RING_OP_BUFFER_WRITE then
    in_range (sub_arg2 s) (sub_arg1 s) c (λ ring_offset length,
      data ← ring_bytes ring ring_offset length;
      rc ← llam_broker_write_buffer token (sub_arg0 s) (Some data) length;
      status rc (completion_ok c length))
  else if op =? LLAM_BROKER_RING_OP_DESCRIPTOR_READ then
    in_range (sub_arg2 s) (sub_arg1 s) c (λ ring_offset length,
      nread ← read_into ring ring_offset length (λ out, llam_broker_read_handle token out length);
      finish_read ring ring_offset length c nread)
  else if op =? LLAM_BROKER_RING_OP_DESCRIPTOR_WRITE then
    in_range (sub_arg2 s) (sub_arg1 s) c (λ ring_offset length,
      data ← ring_bytes ring ring_offset length;
      nwritten ← llam_broker_write_handle token (Some data) length;
      if 0 <=? nwritten then mret (completion_ok c nwritten)
      else llam_broker_ring_completion_fail_errno c)
  else if op =? LLAM_BROKER_RING_OP_CHANNEL_SEND then
    in_range (sub_arg2 s) (sub_arg1 s) c (λ ring_offset length,
      data ← ring_bytes ring ring_offset length;
      rc ← llam_broker_channel_send token (Some data) length;
      status rc (completion_ok c length))
  else if op =? LLAM_BROKER_RING_OP_CHANNEL_RECV then
    in_range (sub_arg2 s) (sub_arg1 s) c (λ ring_offset length,
      nread ← read_into ring ring_offset length (λ out, llam_broker_channel_recv token out length);
      finish_read ring ring_offset length c nread)
  else if op =? LLAM_BROKER_RING_OP_CHANNEL_CLOSE then
    rc ← llam_broker_channel_close token;
    status rc (set_cpl_status 0 c)
  else if op =? LLAM_BROKER_RING_OP_TASK_JOIN then
    r ← llam_broker_join_task token (Some (cpl_result0 c));
    let c := set_cpl_result0 (default 0 r.2) c in
    if r.1 =? 0 then mret (set_cpl_status 0 c) else llam_broker_ring_completion_fail_errno c
  else if op =? LLAM_BROKER_RING_OP_TASK_DETACH then
    rc ← llam_broker_detach_task token;
    status rc (set_cpl_status 0 c)
  else mret (llam_broker_ring_completion_fail c EINVAL).

(** Returns the completion and the token of a task created, zero if none. *)
Definition llam_broker_ring_execute_submission (ring : Z) (s : ring_submission) :
    M (ring_completion * capability_token) :=
  let c := set_cpl_request_id (sub_request_id s) zero_completion in
  if sub_op s =? LLAM_BROKER_RING_OP_TASK_SPAWN then execute_spawn ring s c
  else c ← execute_op ring s c; mret (c, zero_token).

(** ** A batch ([broker_ring_dispatch.c]) *)

(** [session] is the index of the session in the broker's table. *)
Definition llam_broker_ring_session_submit_publish (ring : Z) (session : nat) : M unit :=
  b ← the_broker;
  store_ring ring (set_ring_submit_head (rs_submit_head (session_at b session))) ;;
  llam_broker_ring_broker_stat_add ring LLAM_BROKER_RING_BROKER_STAT_SUBMIT_HEAD_PUBLISHES 1.

(** Copy [n] submissions from cursor [head] on, each field at its width. *)
Fixpoint copy_submissions (ring head : Z) (n : nat) : M (list ring_submission) :=
  match n with
  | O => mret []
  | S n =>
      s ← ring_load ring (λ r, shaped_submission (submission_at r head)) zero_submission;
      rest ← copy_submissions ring (u64 (head + 1)) n;
      mret (s :: rest)
  end.

(** The submissions taken and the completion cursor, or nothing. *)
Definition llam_broker_ring_session_reserve_batch (ring : Z) (session : nat) (max_requests : Z) :
    M (option (list ring_submission * Z)) :=
  let refuse e : M (option (list ring_submission * Z)) := set_errno e ;; mret None in
  valid ← llam_broker_ring_valid ring;
  if negb valid || (max_requests =? 0) then refuse EINVAL
  else
    let max_requests :=
      if LLAM_BROKER_RING_SERVE_BATCH_MAX <? max_requests
      then LLAM_BROKER_RING_SERVE_BATCH_MAX else max_requests in
    b ← the_broker;
    let submit_head := rs_submit_head (session_at b session) in
    published_submit_head ← ring_load ring ring_submit_head 0;
    if negb (published_submit_head =? submit_head) then refuse EINVAL
    else
      submit_tail ← ring_load ring ring_submit_tail 0;
      if negb (llam_broker_ring_window_valid submit_head submit_tail) then refuse EINVAL
      else
        let submit_available := submit_tail - submit_head in
        if submit_available =? 0 then
          llam_broker_ring_broker_stat_add ring LLAM_BROKER_RING_BROKER_STAT_SUBMIT_EMPTY 1 ;;
          refuse EAGAIN
        else
          let complete_tail := rs_complete_tail (session_at b session) in
          published_complete_tail ← ring_load ring ring_complete_tail 0;
          if negb (published_complete_tail =? complete_tail) then refuse EINVAL
          else
            complete_head ← ring_load ring ring_complete_head 0;
            if negb (llam_broker_ring_window_valid complete_head complete_tail) then refuse EINVAL
            else
              let complete_space := LLAM_BROKER_RING_CAP - (complete_tail - complete_head) in
              if complete_space =? 0 then
                llam_broker_ring_broker_stat_add ring LLAM_BROKER_RING_BROKER_STAT_COMPLETE_FULL 1 ;;
                refuse EAGAIN
              else
                let count := Z.min (Z.min max_requests submit_available) complete_space in
                submissions ← copy_submissions ring submit_head (Z.to_nat count);
                mret (Some (submissions, complete_tail)).

Definition llam_broker_ring_session_validate_publish_locked (ring : Z) (session : nat)
    (completion_tail : Z) : M Z :=
  valid ← llam_broker_ring_valid ring;
  if negb valid then fail EINVAL
  else
    published_submit_head ← ring_load ring ring_submit_head 0;
    published_complete_tail ← ring_load ring ring_complete_tail 0;
    b ← the_broker;
    if negb (published_submit_head =? rs_submit_head (session_at b session))
       || negb (published_complete_tail =? completion_tail)
    then fail EINVAL
    else mret 0.

Definition llam_broker_ring_created_task_is_private (s : ring_submission) (c : ring_completion)
    (token : capability_token) : bool :=
  (sub_op s =? LLAM_BROKER_RING_OP_TASK_SPAWN) && (cpl_status c =? 0)
  && (tok_family token =? LLAM_BROKER_CAP_FAMILY_TASK).

(** How many of the submissions one batch may execute: a spawn is alone, and
    everything before the first spawn goes together. *)
Fixpoint before_spawn (l : list ring_submission) : nat :=
  match l with
  | [] => O
  | s :: l => if sub_op s =? LLAM_BROKER_RING_OP_TASK_SPAWN then O else S (before_spawn l)
  end.

Definition llam_broker_ring_authority_safe_batch_count (submissions : list ring_submission) : nat :=
  match submissions with
  | [] => O
  | _ :: _ => match before_spawn submissions with O => 1%nat | n => n end
  end.

(** What executing a submission left behind: its completion, and the token of
    the task it created. *)
Definition executed : Type := ring_submission * ring_completion * option capability_token.

Fixpoint execute_all (ring : Z) (submissions : list ring_submission) : M (list executed) :=
  match submissions with
  | [] => mret []
  | s :: submissions =>
      r ← llam_broker_ring_execute_submission ring s;
      rest ← execute_all ring submissions;
      mret ((s, r.1, if llam_broker_ring_created_task_is_private s r.1 r.2 then Some r.2 else None) :: rest)
  end.

Fixpoint llam_broker_ring_rollback_unpublished_tasks (done : list executed) : M unit :=
  match done with
  | [] => mret tt
  | (_, _, None) :: done => llam_broker_ring_rollback_unpublished_tasks done
  | (_, _, Some token) :: done =>
      let request := WireRequest 0 0 LLAM_BROKER_WIRE_OP_TASK_SPAWN 0 0 0 0 0 0 0 0 0 zero_token
                       (wr_data zero_request) in
      let response := WireResponse 0 0 0 0 0 0 0 0 0 token (wp_data zero_response) in
      llam_broker_rollback_created_response (Some request) (Some response) 0 ;;
      llam_broker_ring_rollback_unpublished_tasks done
  end.

Fixpoint clear_outputs (ring : Z) (done : list executed) : M unit :=
  match done with
  | [] => mret tt
  | (s, _, _) :: done =>
      llam_broker_ring_clear_submission_output ring (Some s) ;; clear_outputs ring done
  end.

Fixpoint publish_completions (ring tail : Z) (done : list executed) : M unit :=
  match done with
  | [] => mret tt
  | (_, c, _) :: done =>
      store_ring ring (λ r, set_ring_completions (<[ring_index tail := c]> (ring_completions r)) r) ;;
      publish_completions ring (u64 (tail + 1)) done
  end.

(** The shared cursors were tampered with: drop the session. *)
Definition serve_poisoned (ring : Z) (session : nat) (done : list executed) : M (Z * option Z) :=
  saved_errno ← get_errno;
  b ← the_broker;
  let s := session_at b session in
  let reclaim_subject_id := if rs_reclaim_pending s then rs_subject_id s else 0 in
  clear_outputs ring done ;;
  t ← llam_broker_ring_session_take_mapping (Some session) (Some reset_mapping);
  llam_broker_unlock ;;
  llam_broker_ring_rollback_unpublished_tasks done ;;
  (if t.1 : bool then llam_broker_ring_unmap t.2 ;; mret tt else mret tt) ;;
  (if negb (reclaim_subject_id =? 0) then llam_broker_reclaim_subject_objects reclaim_subject_id
   else mret tt) ;;
  llam_broker_end_op ;;
  set_errno saved_errno ;;
  mret (-1, Some 0).

(** [session->submit_head += count; session->complete_tail = ...; ...] *)
Definition advanced_session (s : ring_session) (completion_tail count : Z) : ring_session :=
  set_rs_complete_tail (u64 (completion_tail + count))
    (set_rs_submit_head (u64 (rs_submit_head s + count)) s).

Definition publish_batch (ring : Z) (session : nat) (completion_tail serve_start_ns : Z)
    (done : list executed) : M unit :=
  let count := Z.of_nat (length done) in
  publish_completions ring completion_tail done ;;
  b ← the_broker;
  set_session session (advanced_session (session_at b session) completion_tail count) ;;
  b ← the_broker;
  store_ring ring (set_ring_complete_tail (rs_complete_tail (session_at b session))) ;;
  llam_broker_ring_broker_stat_add ring LLAM_BROKER_RING_BROKER_STAT_COMPLETE_TAIL_PUBLISHES 1 ;;
  llam_broker_ring_session_submit_publish ring session ;;
  serve_end_ns ← llam_now_ns;
  (if serve_start_ns <=? serve_end_ns then
     let latency_ns := serve_end_ns - serve_start_ns in
     llam_broker_ring_broker_stat_add ring LLAM_BROKER_RING_BROKER_STAT_SERVE_LATENCY_NS_TOTAL latency_ns ;;
     llam_broker_ring_broker_stat_max ring LLAM_BROKER_RING_BROKER_STAT_SERVE_LATENCY_NS_MAX latency_ns
   else mret tt) ;;
  llam_broker_ring_broker_stat_add ring LLAM_BROKER_RING_BROKER_STAT_SERVE_CALLS count ;;
  llam_broker_ring_broker_stat_add ring LLAM_BROKER_RING_BROKER_STAT_SERVE_SUCCESS count.

(** Release the session, and tear it down if its subject went away meanwhile. *)
Definition serve_release (session : nat) (count : Z) : M (Z * option Z) :=
  b ← the_broker;
  set_session session (set_rs_busy false (session_at b session)) ;;
  b ← the_broker;
  let s := session_at b session in
  if rs_reclaim_pending s then
    t ← llam_broker_ring_session_take_mapping (Some session) (Some reset_mapping);
    llam_broker_unlock ;;
    (if t.1 : bool then llam_broker_ring_unmap t.2 ;; mret tt else mret tt) ;;
    llam_broker_reclaim_subject_objects (rs_subject_id s) ;;
    llam_broker_end_op ;;
    mret (0, Some count)
  else
    llam_broker_unlock ;;
    llam_broker_end_op ;;
    mret (0, Some count).

(** Called with the operation pin and the lock held. *)
Definition llam_broker_ring_serve_locked_session_batch (ring : Z) (session : nat) (max_requests : Z)
    (out_served : option Z) : M (Z * option Z) :=
  if is_null out_served then
    llam_broker_unlock ;; llam_broker_end_op ;; rc ← fail EINVAL; mret (rc, None)
  else
    serve_start_ns ← llam_now_ns;
    r ← llam_broker_ring_session_reserve_batch ring session max_requests;
    match r with
    | None => llam_broker_unlock ;; llam_broker_end_op ;; mret (-1, Some 0)
    | Some (submissions, completion_tail) =>
        let count := llam_broker_ring_authority_safe_batch_count submissions in
        if Nat.eqb count 0 then
          llam_broker_unlock ;; llam_broker_end_op ;; rc ← fail EINVAL; mret (rc, Some 0)
        else
          b ← the_broker;
          set_session session (set_rs_busy true (session_at b session)) ;;
          llam_broker_unlock ;;
          done ← execute_all ring (take count submissions);
          rc ← llam_broker_lock;
          if negb (rc =? 0) then llam_broker_end_op ;; mret (-1, Some 0)
          else
            rc ← llam_broker_ring_session_validate_publish_locked ring session completion_tail;
            if negb (rc =? 0) then serve_poisoned ring session done
            else
              publish_batch ring session completion_tail serve_start_ns done ;;
              serve_release session (Z.of_nat (length done))
    end.

Definition llam_broker_ring_serve_locked_session (ring : Z) (session : nat) : M Z :=
  r ← llam_broker_ring_serve_locked_session_batch ring session 1 (Some 0); mret r.1.

(** ** Entry points ([broker_ring.c]) *)

Definition llam_broker_ring_serve_session_batch (session_id subject_id max_requests : Z)
    (out_served : option Z) : M (Z * option Z) :=
  if is_null out_served then rc ← fail EINVAL; mret (rc, None)
  else
    r ← llam_broker_ring_begin_locked_owned_session session_id subject_id;
    match r with
    | (_, None) => mret (-1, Some 0)
    | (_, Some i) =>
        b ← the_broker;
        if rs_busy (session_at b i) then
          llam_broker_unlock ;; llam_broker_end_op ;; rc ← fail EBUSY; mret (rc, Some 0)
        else llam_broker_ring_serve_locked_session_batch (rs_ring (session_at b i)) i max_requests (Some 0)
    end.

Definition llam_broker_ring_serve_session (session_id subject_id : Z) : M Z :=
  r ← llam_broker_ring_serve_session_batch session_id subject_id 1 (Some 0); mret r.1.

Definition llam_broker_ring_serve_batch_subject (ring subject_id max_requests : Z)
    (out_served : option Z) : M (Z * option Z) :=
  valid ← llam_broker_ring_valid ring;
  if negb valid || is_null out_served then rc ← fail EINVAL; mret (rc, (λ _, 0) <$> out_served)
  else
    rc ← llam_broker_begin_op_subject subject_id;
    if negb (rc =? 0) then mret (-1, Some 0)
    else
      rc ← llam_broker_lock;
      if negb (rc =? 0) then llam_broker_end_op ;; mret (-1, Some 0)
      else
        r ← llam_broker_ring_session_get ring subject_id (Some reset_mapping);
        match r.1 with
        | None =>
            saved_errno ← get_errno;
            llam_broker_unlock ;;
            unmap_reclaimed r.2 ;;
            llam_broker_end_op ;;
            set_errno saved_errno ;;
            mret (-1, Some 0)
        | Some i =>
            unmap_reclaimed r.2 ;;
            b ← the_broker;
            if rs_busy (session_at b i) then
              llam_broker_unlock ;; llam_broker_end_op ;; rc ← fail EBUSY; mret (rc, Some 0)
            else llam_broker_ring_serve_locked_session_batch ring i max_requests (Some 0)
        end.

Definition llam_broker_ring_serve_batch (ring max_requests : Z) (out_served : option Z) :
    M (Z * option Z) :=
  llam_broker_ring_serve_batch_subject ring 0 max_requests out_served.

Definition llam_broker_ring_serve_one_subject (ring subject_id : Z) : M Z :=
  r ← llam_broker_ring_serve_batch_subject ring subject_id 1 (Some 0);
  if negb (r.1 =? 0) then mret (-1)
  else if negb (default 0 r.2 =? 1) then fail EAGAIN
  else mret 0.

Definition llam_broker_ring_serve_one (ring : Z) : M Z :=
  llam_broker_ring_serve_one_subject ring 0.

(** ** Readers stay within the buffer they are given *)

Definition fills (len : Z) (r : Z * option (list Z)) : Prop :=
  ∃ out, r.2 = Some out ∧ (length out <= Z.to_nat len)%nat.

Lemma length_memcpy_le off src l n :
  (length l <= n)%nat → (off + length src <= n)%nat → (length (memcpy_at off src l) <= n)%nat.
Proof. intros. unfold memcpy_at. rewrite !length_app, length_take, length_drop. lia. Qed.

Lemma length_memzero_le off len l n :
  (length l <= n)%nat → (off + len <= n)%nat → (length (memzero_at off len l) <= n)%nat.
Proof. intros. apply length_memcpy_le; [done|]. by rewrite length_replicate. Qed.

Lemma length_bytes_at_le off len l : (length (bytes_at off len l) <= len)%nat.
Proof. unfold bytes_at. rewrite length_take. lia. Qed.

Lemma fail_clear_fills old len e :
  (length old <= Z.to_nat len)%nat → gives (fills len) (llam_broker_fail_clear_output (Some old) len e).
Proof.
  intros Hl w. unfold llam_broker_fail_clear_output. mon. destruct (0 <? len); cbn; eexists; (split; [done|]); [|done].
  apply length_memzero_le; lia.
Qed.

Lemma fail_clear_ssize_fills old len e :
  (length old <= Z.to_nat len)%nat → gives (fills len) (llam_broker_fail_clear_output_ssize (Some old) len e).
Proof.
  intros Hl. eapply gives_bind_out; [by apply fail_clear_fills|]. intros [rc out] H. by apply gives_ret.
Qed.

Lemma clear_tail_fills old len n :
  (length old <= Z.to_nat len)%nat → gives (fills len) (llam_broker_finish_read_clear_tail (Some old) len n).
Proof.
  intros Hl. apply gives_if; intros H; bools.
  { apply gives_bind. intros e. by apply fail_clear_ssize_fills. }
  apply gives_ret. cbn. destruct (n <? len) eqn:E; bools; eexists; (split; [done|]); [|done].
  apply length_memzero_le; lia.
Qed.

Create HintDb fills discriminated.
#[local] Hint Resolve fail_clear_fills fail_clear_ssize_fills clear_tail_fills : fills.

Section readers.
Context (token : option capability_token) (old : list Z) (len : Z) (Hold : (length old <= Z.to_nat len)%nat).

Lemma read_buffer_fills off : gives (fills len) (llam_broker_read_buffer token off (Some old) len).
Proof.
  apply gives_if; intros Hz; [by apply gives_bind; intros _; apply gives_ret; eexists|].
  apply gives_with_op; [auto with fills|]. apply gives_bind. intros [i|].
  2: { apply gives_bind. intros e. apply gives_ret. auto with fills. }
  apply gives_bind. intros b. apply gives_if; intros Hr; apply gives_ret; [auto with fills|].
  apply gives_ret. eexists. split; [done|]. apply length_memcpy_le; [done|]. apply length_bytes_at_le.
Qed.

Lemma channel_recv_fills : gives (fills len) (llam_broker_channel_recv token (Some old) len).
Proof.
  apply gives_if; intros Hz; [by apply gives_bind; intros _; apply gives_ret; eexists|].
  apply gives_with_op; [auto with fills|]. apply gives_bind. intros [i|].
  2: { apply gives_bind. intros e. apply gives_ret. auto with fills. }
  apply gives_bind. intros b. apply gives_if; intros Hr; [apply gives_ret; auto with fills|].
  apply gives_if; intros Hc; [apply gives_ret; auto with fills|]. bools.
  eapply gives_bind_out; [apply (clear_tail_fills _ len)|].
  - apply length_memcpy_le; [done|]. cbn. etrans; [apply length_bytes_at_le|]. lia.
  - intros [rc out] H. apply gives_bind. intros _. by apply gives_ret, gives_ret.
Qed.

Lemma recv_at_most fd : gives (λ r, (length r.2 <= Z.to_nat len)%nat) (sys_recv fd len).
Proof.
  apply gives_bind. intros _. apply gives_bind. intros [bytes|e].
  - apply gives_ret. cbn. rewrite length_take. lia.
  - apply gives_bind. intros _. apply gives_ret. cbn. lia.
Qed.

Lemma read_handle_fills : gives (fills len) (llam_broker_read_handle token (Some old) len).
Proof.
  apply gives_if; intros Hz; [by apply gives_bind; intros _; apply gives_ret; eexists|].
  apply gives_with_op; [auto with fills|]. apply gives_bind. intros [rc fd].
  apply gives_if; intros Hr; [apply gives_bind; intros e; apply gives_ret; auto with fills|].
  apply gives_ret. apply gives_bind. intros bad. apply gives_if; intros Hb.
  { apply gives_bind. intros e. apply gives_bind. intros _. auto with fills. }
  eapply gives_bind_out; [apply recv_at_most|]. intros [n bytes] Hn. cbn [snd] in Hn.
  apply gives_bind. intros e. apply gives_bind. intros _. apply gives_bind. intros _.
  apply clear_tail_fills. by apply length_memcpy_le.
Qed.
End readers.

(** ** Tokens have the size of their place *)

Definition sized {X} (r : X * option capability_token) : Prop :=
  length (token_image (default zero_token r.2)) = Z.to_nat sizeof_token.

Lemma nonce_sized t k :
  length (tok_nonce t) = LLAM_CAPABILITY_NONCE_BYTES →
  gives (λ r, length (tok_nonce r.2) = LLAM_CAPABILITY_NONCE_BYTES) (llam_cap_fill_nonce t k).
Proof.
  intros Ht. apply gives_bind. intros [n0|]; [|by apply gives_bind; intros _; apply gives_ret].
  apply gives_bind. intros [n1|]; [|by apply gives_bind; intros _; apply gives_ret].
  apply gives_bind. intros f0. apply gives_bind. intros f1. by apply gives_ret.
Qed.

Lemma issue_sized k o r t : gives sized (llam_capability_issue k o r t).
Proof.
  assert (∀ t : option capability_token, sized (X := Z) (-1, (λ _, zero_token) <$> t)) as Hz by by intros [].
  unfold llam_capability_issue. destruct k as [k|], o as [o|], t as [t|]; cbn [fmap option_fmap option_map];
    try (apply gives_bind; intros _; by apply gives_ret, (Hz None) || apply gives_ret, (Hz (Some zero_token))).
  apply gives_if; intros _; [apply gives_bind; intros _; apply gives_ret, (Hz (Some zero_token))|].
  eapply gives_bind_out; [by apply nonce_sized|]. intros [rc t'] Ht. cbn [snd] in Ht.
  apply gives_if; intros _; apply gives_ret; [|apply (Hz (Some zero_token))].
  unfold sized, token_image. cbn [snd default tok_mac tok_set_mac]. rewrite length_app, token_bytes_length by done. done.
Qed.

Lemma sized_zero {X} (x : X) : sized (x, Some zero_token).
Proof. done. Qed.

Lemma sized_pair {X Y} (x : X) (y : Y) t : sized (x, t) → sized (y, t).
Proof. done. Qed.

Create HintDb llam_sized discriminated.
#[local] Hint Resolve issue_sized sized_zero : llam_sized.

(** Walk through a program that returns a token some callee sized. *)
Ltac sized_walk :=
  repeat first
    [ solve [auto with llam_sized]
    | match goal with H : sized (_, ?t) |- sized (_, ?t) => exact H end
    | apply gives_with_op; [intros ?|]
    | apply gives_on_broker; [|intros ?]
    | apply gives_if; intros _
    | eapply gives_bind_out; [solve [auto with llam_sized]|intros [? ?] ?]
    | apply gives_bind; intros ?
    | apply gives_ret
    | progress case_match ].

Lemma issue_object_sized f n g r : gives sized (llam_broker_issue_object_cap_unlocked f n g r (Some zero_token)).
Proof. unfold llam_broker_issue_object_cap_unlocked. cbn [fmap option_fmap option_map]. sized_walk. Qed.

#[local] Hint Resolve issue_object_sized : llam_sized.

Lemma prepare_sized f n g a r :
  gives sized (llam_broker_prepare_rotated_cap_unlocked f n g a r (Some zero_token)).
Proof.
  unfold llam_broker_prepare_rotated_cap_unlocked, llam_broker_reissue_rotated_cap_unlocked.
  apply gives_if; intros _; [sized_walk|].
  apply (gives_bind_out _ sized); [|intros [rc t] H; sized_walk].
  sized_walk.
Qed.

#[local] Hint Resolve prepare_sized : llam_sized.

Lemma revoke_sized t r : gives sized (llam_broker_revoke_object_cap t r (Some zero_token)).
Proof.
  destruct t as [t|]; [|sized_walk]. apply gives_if; intros _; [sized_walk|].
  apply gives_with_op; [intros e; sized_walk|]. apply gives_bind. intros rc. apply gives_if; intros _; [sized_walk|].
  apply (gives_bind_out _ sized); [|intros [rc' t'] H; apply gives_ret, gives_ret; by destruct (rc' =? 0)].
  repeat (apply gives_if; intros _); [..|sized_walk];
    unfold llam_broker_revoke_buffer_unlocked, llam_broker_revoke_descriptor_unlocked,
      llam_broker_revoke_channel_unlocked; sized_walk.
Qed.

Lemma attenuate_sized t r : gives sized (llam_broker_attenuate_cap t r (Some zero_token)).
Proof.
  apply gives_if; intros _; [sized_walk|]. apply gives_with_op; [intros e; sized_walk|].
  apply gives_bind. intros rc. apply gives_if; intros _; [|sized_walk].
  apply gives_bind. intros b. apply gives_bind. intros epoch.
  apply (gives_bind_out _ sized); [|intros [rc' t'] H; apply gives_ret, gives_ret; by destruct (rc' =? 0)].
  unfold llam_capability_attenuate. apply gives_if; intros _; [sized_walk|]. apply gives_bind. intros rc'.
  apply gives_if; intros _; [sized_walk|]. apply gives_if; intros _; [sized_walk|].
  eapply gives_bind_out; [apply issue_sized|]. intros [rc2 t2] H. apply gives_ret. by destruct (rc2 =? 0).
Qed.

Lemma spawn_sized k a r : gives sized (llam_broker_spawn_task k a r (Some zero_token)).
Proof.
  unfold llam_broker_spawn_task. apply gives_bind. intros null. cbn [fmap option_fmap option_map].
  apply gives_if; intros _; [sized_walk|]. apply gives_bind. intros rc. apply gives_if; intros _; [sized_walk|].
  apply gives_if; intros _; [sized_walk|]. apply gives_if; intros _; [sized_walk|].
  apply gives_with_op; [intros e; sized_walk|]. apply gives_bind. intros reserved. apply gives_bind. intros _.
  destruct reserved as [report|[i id]]; [sized_walk|].
  apply (gives_bind_out _ sized); [|intros x H; by apply gives_ret, gives_ret].
  apply (gives_bind_out _ sized).
  { unfold llam_broker_issue_object_cap. cbn [fmap option_fmap option_map].
    apply gives_with_op; [intros e; sized_walk|]. eapply gives_bind_out; [apply issue_object_sized|].
    intros x H. by apply gives_ret, gives_ret. }
  intros [rc' t'] H. sized_walk. by destruct t'.
Qed.

(** ** What executing a submission touches *)

Definition fits (off len : Z) : Prop :=
  len ≠ 0 ∧ (is_u64 off → is_u64 len → off + len <= LLAM_BROKER_RING_DATA_BYTES).

Lemma data_range_cases off len w :
  (llam_broker_ring_data_range off len w = (Some (off, len), w) ∧ fits off len)
  ∨ (llam_broker_ring_data_range off len w = (None, set_w_errno EINVAL w)
     ∧ (is_u64 off → is_u64 len → len = 0 ∨ LLAM_BROKER_RING_DATA_BYTES < off + len)).
Proof.
  unfold llam_broker_ring_data_range. destruct (Z.eqb_spec len 0); [right; by auto|].
  assert (∀ (U1 : is_u64 off) (U2 : is_u64 len), off <= u64 (off + len) → u64 (off + len) = off + len) as Hw.
  { unfold is_u64. intros U1 U2 H. unfold u64 in *. destruct (Z_lt_le_dec (off + len) (2 ^ 64)) as [Hlt|Hge];
      [apply Z.mod_small; lia|]. rewrite (Z.mod_eq _ (2 ^ 64)) in H by lia.
    assert ((off + len) / 2 ^ 64 = 1) by (symmetry; apply Z.div_unique with (off + len - 2 ^ 64); lia). lia. }
  destruct (_ || _) eqn:E.
  - right. split; [done|]. intros U1 U2. right. destruct (Z_lt_le_dec LLAM_BROKER_RING_DATA_BYTES (off + len)); [done|].
    unfold is_u64, LLAM_BROKER_RING_DATA_BYTES, UINT64_MAX in *.
    rewrite (u64_small (off + len)) in E by (unfold is_u64; lia). bools. lia.
  - left. split; [done|]. split; [done|]. intros U1 U2. apply orb_false_iff in E as [E _].
    apply orb_false_iff in E as [E1 E2]. bools. rewrite <- Hw by done. lia.
Qed.

(** The places of the data area a submission may write. *)
Definition writable (s : ring_submission) (off : Z) (n : nat) : Prop :=
  ∃ len, output_length s = Some len ∧
    (submission_wf s → sub_arg2 s <= off ∧ off + Z.of_nat n <= sub_arg2 s + len <= LLAM_BROKER_RING_DATA_BYTES).

Section execute.
Context (R : world → world → Prop) `{!PreOrder R} (ring : Z) (s : ring_submission).
Context (R_aside : ∀ w w', aside w w' → R w w').
Context (R_load : ∀ A (f : broker_ring → A) d, pres R (ring_load ring f d)).
Context (R_put : ∀ off bytes, writable s off (length bytes) → pres R (put_bytes ring off bytes)).

Lemma pres_R {A} (m : M A) : pres aside m → pres R m.
Proof. intros H w. apply R_aside, H. Qed.

Lemma pres_in_range off len c k :
  (fits off len → pres R (k off len)) → pres R (in_range off len c k).
Proof.
  intros Hk w. unfold in_range. mon. destruct (data_range_cases off len w) as [(->&Hf)|[-> _]]; mon.
  - by apply Hk.
  - apply R_aside. by apply aside_same.
Qed.

Lemma pres_fail_errno c : pres R (llam_broker_ring_completion_fail_errno c).
Proof. intros w. apply R_aside. by apply aside_same. Qed.

Lemma output_length_u64 len : output_length s = Some len → submission_wf s → is_u64 len.
Proof.
  unfold output_length. intros H (_&_&_&?&_). destruct (_ || _ || _); [by injection H as <-|].
  destruct (_ || _ || _); [by injection H as <-|done].
Qed.

(** Every part of the window of an output operation, once its range was accepted. *)
Lemma window_writable len off n :
  output_length s = Some len → fits (sub_arg2 s) len →
  sub_arg2 s <= off → (is_u64 len → off + Z.of_nat n <= sub_arg2 s + len) → writable s off n.
Proof.
  intros Ho [_ Hf] H1 H2. exists len. split; [done|]. intros Hs. pose proof (output_length_u64 len Ho Hs) as Hu.
  split; [done|]. split; [by apply H2|]. apply Hf; [apply Hs|done].
Qed.

Section window.
Context (len : Z) (Hlen : output_length s = Some len) (Hfits : fits (sub_arg2 s) len).

Lemma pres_clear : pres R (llam_broker_ring_clear_output ring (sub_arg2 s) len).
Proof.
  apply R_put. rewrite length_replicate. eapply window_writable; [done|done|lia|]. unfold is_u64. lia.
Qed.

Lemma pres_clear_suffix n : 0 <= n →
  pres R (llam_broker_ring_clear_output_suffix ring (sub_arg2 s) len n).
Proof.
  intros Hn. unfold llam_broker_ring_clear_output_suffix. destruct (n <? len) eqn:E; [|apply pres_ret, _]. bools.
  apply R_put. rewrite length_replicate. eapply window_writable; [done|done|lia|]. lia.
Qed.

Lemma ring_bytes_le off n : gives (λ l, (length l <= Z.to_nat n)%nat) (ring_bytes ring off n).
Proof.
  apply gives_bind. intros r. apply gives_ret. destruct r as [r|]; cbn; [apply length_bytes_at_le|lia].
Qed.

Lemma pres_read_into read :
  (∀ o, pres aside (read o)) →
  (∀ old, (length old <= Z.to_nat len)%nat → gives (fills len) (read (Some old))) →
  pres R (read_into ring (sub_arg2 s) len read).
Proof.
  intros Ha Hg. eapply pres_bind_out; [apply _|apply R_load|apply ring_bytes_le|]. intros old Hold.
  eapply pres_bind_out; [apply _|by apply pres_R|by apply Hg|]. intros [rc o] (out&Ho&Hout). cbn in Ho. subst o.
  apply pres_bind; [apply _| |intros _; apply pres_ret, _]. apply R_put.
  eapply window_writable; [done|done|lia|]. unfold is_u64. cbn. lia.
Qed.

Lemma pres_finish_read c n : pres R (finish_read ring (sub_arg2 s) len c n).
Proof.
  unfold finish_read. destruct (Z.leb_spec 0 n).
  - apply pres_bind; [apply _|by apply pres_clear_suffix|intros _; apply pres_ret, _].
  - apply pres_bind; [apply _|apply pres_clear|intros _; apply pres_fail_errno].
Qed.

Lemma pres_clear_fail c :
  pres R (llam_broker_ring_clear_output ring (sub_arg2 s) len ;; llam_broker_ring_completion_fail_errno c).
Proof. apply pres_bind; [apply _|apply pres_clear|intros _; apply pres_fail_errno]. Qed.

Lemma pres_finish_token c t :
  len = sizeof_token → sized t → pres R (finish_token ring (sub_arg2 s) len c t).
Proof.
  intros Hl Ht. unfold finish_token. apply pres_if; [|apply pres_clear_fail].
  apply pres_bind; [apply _| |intros _; apply pres_ret, _]. apply R_put. rewrite Ht.
  eapply window_writable; [done|done|lia|]. rewrite Hl. unfold sizeof_token. lia.
Qed.

Lemma pres_token_op c (m : M (Z * option capability_token)) :
  len = sizeof_token → pres aside m → gives sized m →
  pres R (t ← m; finish_token ring (sub_arg2 s) len c t).
Proof.
  intros Hl Hm Hg. eapply pres_bind_out; [apply _|by apply pres_R|exact Hg|]. intros t Ht. by apply pres_finish_token.
Qed.
End window.

Lemma pres_status (m : M Z) c c' :
  pres aside m →
  pres R (rc ← m; if rc =? 0 then mret c else llam_broker_ring_completion_fail_errno c').
Proof.
  intros Hm. apply pres_bind; [apply _|by apply pres_R|]. intros rc.
  apply pres_if; [apply pres_ret, _|apply pres_fail_errno].
Qed.

Lemma pres_execute_spawn c :
  sub_op s = LLAM_BROKER_RING_OP_TASK_SPAWN → pres R (execute_spawn ring s c).
Proof.
  intros Hop. assert (output_length s = Some sizeof_token) as Ho by (unfold output_length; by rewrite Hop).
  intros w. unfold execute_spawn. mon.
  destruct (data_range_cases (sub_arg2 s) sizeof_token w) as [(->&Hf)|[-> _]]; mon; [|apply R_aside; by apply aside_same].
  revert w. apply pres_if.
  - apply pres_bind; [apply _|by apply pres_clear|intros _; apply pres_ret, _].
  - eapply pres_bind_out; [apply _|apply pres_R, pres_frame_spawn|apply spawn_sized|]. intros t Ht.
    apply pres_bind; [apply _|by apply pres_finish_token|intros c'; apply pres_ret, _].
Qed.

Lemma pres_token_case c (op : M (Z * option capability_token)) :
  output_length s = Some sizeof_token → pres aside op → gives sized op →
  pres R (in_range (sub_arg2 s) sizeof_token c (λ o l, t ← op; finish_token ring o l c t)).
Proof. intros Ho Hop Hs. apply pres_in_range. intros Hf. by apply pres_token_op. Qed.

Lemma pres_read_case c (op : Z → option (list Z) → M (Z * option (list Z))) :
  output_length s = Some (sub_arg1 s) → (∀ l o, pres aside (op l o)) →
  (∀ l old, (length old <= Z.to_nat l)%nat → gives (fills l) (op l (Some old))) →
  pres R (in_range (sub_arg2 s) (sub_arg1 s) c (λ o l,
    n ← read_into ring o l (op l); finish_read ring o l c n)).
Proof.
  intros Ho Hop Hs. apply pres_in_range. intros Hf.
  apply pres_bind; [apply _|by apply pres_read_into; auto|]. intros n. by apply pres_finish_read.
Qed.

Lemma pres_write_case {X} off len c (op : Z → list Z → M X) (k : X → Z → M ring_completion) :
  (∀ l d, pres aside (op l d)) → (∀ x l, pres aside (k x l)) →
  pres R (in_range off len c (λ o l, d ← ring_bytes ring o l; x ← op l d; k x l)).
Proof.
  intros Hop Hk. apply pres_in_range. intros Hf.
  apply pres_bind; [apply _|apply R_load|]. intros d. apply pres_R.
  apply pres_bind; [apply _|done|]. intros x. apply Hk.
Qed.

Lemma pres_aside_completion c c' (b : bool) :
  pres aside (if b then mret c else llam_broker_ring_completion_fail_errno c').
Proof. destruct b; intros w; by apply aside_same. Qed.

Lemma pres_execute_op c : pres R (execute_op ring s c).
Proof.
  unfold execute_op. apply pres_if; [apply pres_ret, _|].
  apply pres_if; [apply pres_status, pres_frame_validate|].
  apply pres_if_eq; intros E2; bools.
  { apply pres_token_case; [|apply pres_frame_attenuate|apply attenuate_sized]. unfold output_length. by rewrite E2. }
  apply pres_if_eq; intros E3; bools.
  { apply pres_token_case; [|apply pres_aside_revoke|apply revoke_sized]. unfold output_length. by rewrite E3. }
  apply pres_if_eq; intros E4; bools.
  { apply pres_in_range. intros Hf. assert (output_length s = Some (sub_arg1 s)) as Ho by (unfold output_length; by rewrite E4).
    apply pres_bind; [apply _|apply pres_read_into; [done..|intros o; apply pres_frame_read_buffer|]|].
    - intros old Hold. by apply read_buffer_fills.
    - intros rc. apply pres_if; [apply pres_ret, _|by apply pres_clear_fail]. }
  apply pres_if.
  { apply (pres_write_case _ _ _ (λ l d, llam_broker_write_buffer _ _ (Some d) l)
             (λ rc l, if rc =? 0 then mret (completion_ok c l) else llam_broker_ring_completion_fail_errno c));
      intros; [apply pres_frame_write_buffer|apply pres_aside_completion]. }
  apply pres_if_eq; intros E6; bools.
  { apply (pres_read_case c (λ l out, llam_broker_read_handle _ out l));
      [unfold output_length; by rewrite E6|intros; apply pres_aside_read_handle|intros; by apply read_handle_fills]. }
  apply pres_if.
  { apply (pres_write_case _ _ _ (λ l d, llam_broker_write_handle _ (Some d) l)
             (λ n l, if 0 <=? n then mret (completion_ok c n) else llam_broker_ring_completion_fail_errno c));
      intros; [apply pres_aside_write_handle|apply pres_aside_completion]. }
  apply pres_if.
  { apply (pres_write_case _ _ _ (λ l d, llam_broker_channel_send _ (Some d) l)
             (λ rc l, if rc =? 0 then mret (completion_ok c l) else llam_broker_ring_completion_fail_errno c));
      intros; [apply pres_frame_channel_send|apply pres_aside_completion]. }
  apply pres_if_eq; intros E7; bools.
  { apply (pres_read_case c (λ l out, llam_broker_channel_recv _ out l));
      [unfold output_length; by rewrite E7|intros; apply pres_frame_channel_recv|intros; by apply channel_recv_fills]. }
  apply pres_if; [apply pres_status, pres_frame_channel_close|].
  apply pres_if; [|apply pres_if; [apply pres_status, pres_frame_detach_task|apply pres_ret, _]].
  apply pres_R, pres_bind; [apply _|apply pres_frame_join_task|]. intros r. apply pres_aside_completion.
Qed.

Lemma pres_execute : pres R (llam_broker_ring_execute_submission ring s).
Proof.
  apply pres_if_eq; intros E; bools; [by apply pres_execute_spawn|].
  apply pres_bind; [apply _|apply pres_execute_op|intros c; apply pres_ret, _].
Qed.
End execute.

(** ** What a completion reports *)

(** Success carries no error and failure does. *)
Definition reported (id : Z) (c : ring_completion) : Prop :=
  cpl_request_id c = id ∧
  ((cpl_status c = 0 ∧ cpl_error_code c = 0) ∨ (cpl_status c = -1 ∧ cpl_error_code c ≠ 0)).

Definition fresh (id : Z) (c : ring_completion) : Prop :=
  cpl_request_id c = id ∧ cpl_status c = 0 ∧ cpl_error_code c = 0.

Section reported.
Context (id : Z) (c : ring_completion) (Hc : fresh id c).

Lemma reported_ok x : reported id (completion_ok c x).
Proof. destruct Hc as (?&?&?). split; [done|]. by left. Qed.

Lemma reported_status : reported id (set_cpl_status 0 c).
Proof. destruct Hc as (?&?&?). split; [done|]. by left. Qed.

Lemma reported_fail e : reported id (llam_broker_ring_completion_fail c e).
Proof. destruct Hc as (?&?&?). split; [done|]. right. split; [done|]. cbn. by destruct (Z.eqb_spec e 0). Qed.

Lemma reported_fail_errno : gives (reported id) (llam_broker_ring_completion_fail_errno c).
Proof. apply gives_bind. intros e. apply gives_ret, reported_fail. Qed.
End reported.

Create HintDb llam_reported discriminated.
#[local] Hint Resolve reported_ok reported_status reported_fail reported_fail_errno : llam_reported.

Lemma fresh_result id c x : fresh id c → fresh id (set_cpl_result0 x c).
Proof. done. Qed.

#[local] Hint Resolve fresh_result : llam_reported.

Ltac reported_walk :=
  repeat first
    [ solve [auto with llam_reported]
    | apply gives_if; intros _
    | apply gives_bind; intros ?
    | apply gives_ret
    | progress case_match ].

Lemma execute_spawn_reported ring s id c : fresh id c → gives (λ r, reported id r.1) (execute_spawn ring s c).
Proof.
  intros Hc. apply gives_bind. intros [[o l]|].
  - apply gives_if; intros _; [apply gives_bind; intros _; apply gives_ret; by apply reported_fail|].
    apply gives_bind. intros t. apply (gives_bind_out _ (reported id)); [unfold finish_token; reported_walk|].
    intros c' H. by apply gives_ret.
  - eapply gives_bind_out; [by apply reported_fail_errno|]. intros c' H. by apply gives_ret.
Qed.

Lemma execute_op_reported ring s id c : fresh id c → gives (reported id) (execute_op ring s c).
Proof.
  intros Hc. unfold execute_op, in_range, finish_token, finish_read. reported_walk.
Qed.

Lemma execute_reported ring s :
  gives (λ r, reported (sub_request_id s) r.1) (llam_broker_ring_execute_submission ring s).
Proof.
  apply gives_if; intros _; [by apply execute_spawn_reported|].
  eapply gives_bind_out; [by apply execute_op_reported|]. intros c H. by apply gives_ret.
Qed.

(** ** Where a submission writes, while its client waits *)

(** The ring is mapped, of its full extent, and the client does not touch it. *)
Definition calm (ring : Z) (r : broker_ring) (w : world) : Prop :=
  os_client (w_os w) = [] ∧ w_rings w !! ring = Some r ∧
  length (ring_data r) = Z.to_nat LLAM_BROKER_RING_DATA_BYTES.

(** Only bytes [off, off + len) of the data area of [ring] may change. *)
Definition within (ring : Z) (off len : nat) (w w' : world) : Prop :=
  ∀ r, calm ring r w → ∃ d,
    calm ring (set_ring_data d r) w' ∧ w_rings w' = <[ring := set_ring_data d r]> (w_rings w)
    ∧ take off d = take off (ring_data r) ∧ drop (off + len) d = drop (off + len) (ring_data r).

Lemma set_ring_data_id r : set_ring_data (ring_data r) r = r.
Proof. by destruct r. Qed.

#[export] Instance within_preorder ring off len : PreOrder (within ring off len).
Proof.
  split.
  - intros w r Hr. exists (ring_data r). rewrite set_ring_data_id. split_and!; try done.
    symmetry. apply insert_id, Hr.
  - intros x y z H1 H2 r Hr. destruct (H1 r Hr) as (d1&C1&E1&T1&D1).
    destruct (H2 _ C1) as (d2&C2&E2&T2&D2). exists d2. split_and!; [exact C2| |by rewrite T2|by rewrite D2].
    rewrite E2, E1, insert_insert_eq. done.
Qed.

Lemma within_aside ring off len w w' : aside w w' → within ring off len w w'.
Proof.
  intros [_ Hr Hc _] r (C1&C2&C3). exists (ring_data r). rewrite set_ring_data_id. unfold calm.
  rewrite Hr, Hc. split_and!; try done. symmetry. by apply insert_id.
Qed.

Lemma client_step_calm ring r w : calm ring r w → client_step ring w = (tt, w).
Proof. intros [Hc _]. unfold client_step. by rewrite Hc. Qed.

Lemma ring_load_calm {A} ring (f : broker_ring → A) d r w : calm ring r w → ring_load ring f d w = (f r, w).
Proof.
  intros H. unfold ring_load, load_ring. mon. rewrite (client_step_calm _ _ _ H). mon.
  destruct H as (_&H&_). by rewrite H.
Qed.

Lemma put_bytes_calm ring o bytes r w :
  calm ring r w →
  put_bytes ring o bytes w
  = (tt, set_w_rings (<[ring := set_ring_data (memcpy_at (Z.to_nat o) bytes (ring_data r)) r]> (w_rings w)) w).
Proof.
  intros H. unfold put_bytes, store_ring, upd_ring. mon. rewrite (client_step_calm _ _ _ H). mon.
  destruct H as (_&H&_). do 2 f_equal. apply map_eq. intros k.
  destruct (decide (k = ring)) as [->|]; [by rewrite lookup_alter_eq, H, lookup_insert_eq|].
  by rewrite lookup_alter_ne, lookup_insert_ne.
Qed.

Lemma pres_within_load {A} ring off len (f : broker_ring → A) d : pres (within ring off len) (ring_load ring f d).
Proof.
  intros w r H. rewrite (ring_load_calm ring f d r w H). cbn [snd]. by apply (reflexivity (R := within ring off len) w).
Qed.

Lemma take_memcpy off o src l : (off <= o)%nat → (o <= length l)%nat → take off (memcpy_at o src l) = take off l.
Proof.
  intros H1 H2. unfold memcpy_at. rewrite take_app_le by (rewrite length_take; lia). rewrite take_take. f_equal. lia.
Qed.

Lemma drop_memcpy n o src l :
  (o + length src <= n)%nat → (o + length src <= length l)%nat → drop n (memcpy_at o src l) = drop n l.
Proof.
  intros H1 H2. unfold memcpy_at. rewrite app_assoc, drop_app_ge by (rewrite length_app, length_take; lia).
  rewrite length_app, length_take, drop_drop. f_equal. lia.
Qed.

Lemma calm_put ring o bytes r w :
  calm ring r w → (Z.to_nat o + length bytes <= Z.to_nat LLAM_BROKER_RING_DATA_BYTES)%nat →
  calm ring (set_ring_data (memcpy_at (Z.to_nat o) bytes (ring_data r)) r) (put_bytes ring o bytes w).2.
Proof.
  intros H Hb. rewrite (put_bytes_calm _ _ _ _ _ H). destruct H as (H1&H2&H3). split; [done|].
  split; [apply lookup_insert_eq|]. cbn [ring_data set_ring_data]. rewrite length_memcpy_at; [done|]. lia.
Qed.

Lemma pres_within_put ring off len o bytes :
  (off <= Z.to_nat o)%nat → (Z.to_nat o + length bytes <= off + len)%nat →
  (off + len <= Z.to_nat LLAM_BROKER_RING_DATA_BYTES)%nat →
  pres (within ring off len) (put_bytes ring o bytes).
Proof.
  intros H1 H2 H3 w r H. pose proof (calm_put ring o bytes r w H ltac:(lia)) as C.
  rewrite (put_bytes_calm _ _ _ _ _ H) in *. destruct H as (_&_&Hl).
  eexists. split_and!; [exact C|done|apply take_memcpy|apply drop_memcpy]; lia.
Qed.

(** The window of a submission, as offsets into the data area. *)
Definition window_off (s : ring_submission) : nat := Z.to_nat (sub_arg2 s).
Definition window_len (s : ring_submission) : nat := Z.to_nat (default 0 (output_length s)).

Lemma put_within ring s o bytes :
  submission_wf s → writable s o (length bytes) →
  pres (within ring (window_off s) (window_len s)) (put_bytes ring o bytes).
Proof.
  intros Hs (len&Hlen&H). destruct (H Hs) as (H1&H2&H3). pose proof Hs as (_&_&_&_&U).
  pose proof (output_length_u64 s len Hlen Hs). unfold is_u64 in *.
  apply pres_within_put; unfold window_off, window_len; rewrite ?Hlen; cbn; lia.
Qed.

Lemma execute_within ring s :
  submission_wf s →
  pres (within ring (window_off s) (window_len s)) (llam_broker_ring_execute_submission ring s).
Proof.
  intros Hs. apply (pres_execute (within ring (window_off s) (window_len s))).
  - apply within_aside.
  - intros A f d. apply pres_within_load.
  - intros o bytes. by apply put_within.
Qed.

(** ** A failed operation leaves no output *)

(** The window of [s] holds zeros. *)
Definition blank (ring : Z) (s : ring_submission) (w : world) : Prop :=
  ∀ r, w_rings w !! ring = Some r →
    bytes_at (window_off s) (window_len s) (ring_data r) = replicate (window_len s) 0.

(** A completion that reports success, or an output that was cleared. *)
Definition clean (ring : Z) (s : ring_submission) (c : ring_completion) (w : world) : Prop :=
  cpl_status c = 0 ∨ blank ring s w.

Section blank.
Context (ring : Z) (s : ring_submission) (len : Z).
Context (Hs : submission_wf s) (Hlen : output_length s = Some len) (Hpos : len ≠ 0).
Context (Hfit : sub_arg2 s + len <= LLAM_BROKER_RING_DATA_BYTES).

Lemma window_fits : (window_off s + window_len s <= Z.to_nat LLAM_BROKER_RING_DATA_BYTES)%nat.
Proof.
  pose proof Hs as (_&_&_&_&U). pose proof (output_length_u64 s len Hlen Hs).
  unfold window_off, window_len, is_u64 in *. rewrite Hlen. cbn. lia.
Qed.

Lemma clear_blank r w :
  calm ring r w → blank ring s (llam_broker_ring_clear_output ring (sub_arg2 s) len w).2.
Proof.
  intros Hw. unfold llam_broker_ring_clear_output. rewrite (put_bytes_calm _ _ _ _ _ Hw).
  intros r'. cbn [w_rings set_w_rings snd]. rewrite lookup_insert_eq. intros [= <-].
  cbn [ring_data set_ring_data]. pose proof window_fits as H. destruct Hw as (_&_&Hl).
  unfold window_len in *. rewrite Hlen in *. change (default 0 (Some len)) with len in *.
  rewrite <- (length_replicate (Z.to_nat len) 0) at 1. apply bytes_at_memcpy. rewrite length_replicate, Hl. exact H.
Qed.

Lemma clear_fail_clean c r w :
  calm ring r w →
  wp (llam_broker_ring_clear_output ring (sub_arg2 s) len ;; llam_broker_ring_completion_fail_errno c)
    (clean ring s) w.
Proof.
  intros Hw. apply wp_bind. pose proof (clear_blank r w Hw) as H. unfold wp at 1.
  destruct (llam_broker_ring_clear_output ring (sub_arg2 s) len w) as [[] w']. by right.
Qed.

Lemma range_accepted w :
  llam_broker_ring_data_range (sub_arg2 s) len w = (Some (sub_arg2 s, len), w).
Proof.
  destruct (data_range_cases (sub_arg2 s) len w) as [(->&_)|[_ H]]; [done|].
  destruct H; [apply Hs|by apply (output_length_u64 s)|done|]. unfold LLAM_BROKER_RING_DATA_BYTES in *. lia.
Qed.

Lemma wp_in_range c k Q w :
  wp (k (sub_arg2 s) len) Q w → wp (in_range (sub_arg2 s) len c k) Q w.
Proof. intros H. apply wp_bind. unfold wp. rewrite range_accepted. exact H. Qed.

(** A program inside the window, before the part of interest. *)
Lemma wp_calm {A B} (m : M A) (k : A → M B) Q r w :
  pres (within ring (window_off s) (window_len s)) m → calm ring r w →
  (∀ a r' w', calm ring r' w' → wp (k a) Q w') → wp (m ≫= k) Q w.
Proof.
  intros Hm Hw Hk. apply wp_bind. unfold wp. destruct (Hm w r Hw) as (d&C&_). by apply (Hk _ _ _ C).
Qed.

Lemma finish_token_clean c t r w : calm ring r w → wp (finish_token ring (sub_arg2 s) len c t) (clean ring s) w.
Proof.
  intros Hw. apply wp_if; intros E; [|by eapply clear_fail_clean].
  apply wp_bind. unfold wp at 1. destruct (put_bytes _ _ _ w). apply wp_ret. by left.
Qed.

Lemma finish_read_clean c n r w : calm ring r w → wp (finish_read ring (sub_arg2 s) len c n) (clean ring s) w.
Proof.
  intros Hw. apply wp_if; intros E; [|by eapply clear_fail_clean].
  apply wp_bind. unfold wp at 1. destruct (llam_broker_ring_clear_output_suffix _ _ _ _ w). apply wp_ret. by left.
Qed.

Lemma within_fits : fits (sub_arg2 s) len.
Proof. by split. Qed.

Lemma execute_spawn_clean c r w :
  sub_op s = LLAM_BROKER_RING_OP_TASK_SPAWN → calm ring r w →
  wp (execute_spawn ring s c) (λ x, clean ring s x.1) w.
Proof.
  intros Hop Hw. assert (len = sizeof_token) as El by (unfold output_length in Hlen; rewrite Hop in Hlen; by injection Hlen as <-).
  apply wp_bind. unfold wp at 1. rewrite <- El, range_accepted. cbn [fst snd].
  apply wp_if; intros E.
  - apply wp_bind. pose proof (clear_blank r w Hw) as H. unfold wp at 1.
    destruct (llam_broker_ring_clear_output ring (sub_arg2 s) len w) as [[] w']. apply wp_ret. by right.
  - eapply (wp_calm _ _ _ r); [|done|].
    + intros w1. apply within_aside, pres_frame_spawn.
    + intros t r' w' Hw'. apply wp_bind. eapply wp_mono; [by eapply finish_token_clean|].
      intros c' w2 H. by apply wp_ret.
Qed.

Lemma token_case_clean c (op : M (Z * option capability_token)) r w :
  len = sizeof_token → pres aside op → calm ring r w →
  wp (in_range (sub_arg2 s) sizeof_token c (λ o l, t ← op; finish_token ring o l c t)) (clean ring s) w.
Proof.
  intros El Hop Hw. rewrite <- El. apply wp_in_range. eapply (wp_calm _ _ _ r); [|done|].
  - intros w1. apply within_aside, Hop.
  - intros t r' w' Hw'. by eapply finish_token_clean.
Qed.

Lemma read_case_clean c (op : Z → option (list Z) → M (Z * option (list Z))) k r w :
  len = sub_arg1 s → (∀ l o, pres aside (op l o)) →
  (∀ l old, (length old <= Z.to_nat l)%nat → gives (fills l) (op l (Some old))) →
  (∀ n r w, calm ring r w → wp (k n (sub_arg2 s) len) (clean ring s) w) → calm ring r w →
  wp (in_range (sub_arg2 s) (sub_arg1 s) c (λ o l, n ← read_into ring o l (op l); k n o l)) (clean ring s) w.
Proof.
  intros El Hop Hg Hk Hw. rewrite <- El. apply wp_in_range. eapply (wp_calm _ _ _ r); [|done|].
  - apply (pres_read_into (within ring (window_off s) (window_len s))); try done.
    + apply within_aside.
    + intros A f d. apply pres_within_load.
    + intros o bytes. by apply put_within.
    + intros old. apply Hg.
  - intros n r' w' Hw'. by eapply Hk.
Qed.

Lemma execute_op_clean c r w :
  sub_op s ≠ LLAM_BROKER_RING_OP_TASK_SPAWN → calm ring r w → wp (execute_op ring s c) (clean ring s) w.
Proof.
  intros Hop Hw. pose proof Hlen as Ho. unfold output_length in Ho.
  rewrite (proj2 (Z.eqb_neq _ _) Hop), orb_false_r in Ho. unfold execute_op.
  apply wp_if; intros E0; bools; [by rewrite E0 in Ho|]. apply wp_if; intros E1; bools; [by rewrite E1 in Ho|].
  apply wp_if; intros E2; bools.
  { rewrite E2 in Ho. injection Ho as Ho. eapply token_case_clean; [done|apply pres_frame_attenuate|done]. }
  apply wp_if; intros E3; bools.
  { rewrite E3 in Ho. injection Ho as Ho. eapply token_case_clean; [done|apply pres_aside_revoke|done]. }
  rewrite (proj2 (Z.eqb_neq _ _) E2), (proj2 (Z.eqb_neq _ _) E3) in Ho. cbn [orb] in Ho.
  apply wp_if; intros E4; bools.
  { rewrite E4 in Ho. injection Ho as Ho.
    eapply (read_case_clean c (λ l out, llam_broker_read_buffer (Some (sub_token s)) (sub_arg0 s) out l)
      (λ rc o l, if rc =? 0 then mret (completion_ok c l) else
        llam_broker_ring_clear_output ring o l ;; llam_broker_ring_completion_fail_errno c));
      [done|intros; apply pres_frame_read_buffer|intros; by apply read_buffer_fills| |done].
    intros n r1 w1 H1. apply wp_if; intros _; [apply wp_ret; by left|by eapply clear_fail_clean]. }
  apply wp_if; intros E5; bools; [by rewrite E5 in Ho|]. apply wp_if; intros E6; bools.
  { rewrite E6 in Ho. injection Ho as Ho.
    eapply (read_case_clean c (λ l out, llam_broker_read_handle (Some (sub_token s)) out l)
      (λ n o l, finish_read ring o l c n));
      [done|intros; apply pres_aside_read_handle|intros; by apply read_handle_fills| |done].
    intros n r1 w1 H1. by eapply finish_read_clean. }
  apply wp_if; intros E7; bools; [by rewrite E7 in Ho|]. apply wp_if; intros E8; bools; [by rewrite E8 in Ho|].
  apply wp_if; intros E9; bools.
  { rewrite E9 in Ho. injection Ho as Ho.
    eapply (read_case_clean c (λ l out, llam_broker_channel_recv (Some (sub_token s)) out l)
      (λ n o l, finish_read ring o l c n));
      [done|intros; apply pres_frame_channel_recv|intros; by apply channel_recv_fills| |done].
    intros n r1 w1 H1. by eapply finish_read_clean. }
  rewrite (proj2 (Z.eqb_neq _ _) E4), (proj2 (Z.eqb_neq _ _) E6), (proj2 (Z.eqb_neq _ _) E9) in Ho. done.
Qed.

Lemma execute_clean r w :
  calm ring r w → wp (llam_broker_ring_execute_submission ring s) (λ x, clean ring s x.1) w.
Proof.
  intros Hw. apply wp_if; intros E; bools; [by eapply execute_spawn_clean|].
  apply wp_bind. eapply wp_mono; [by eapply execute_op_clean|]. intros c w' H. by apply wp_ret.
Qed.
End blank.


(** ** Reserving a batch *)

(** Ring accesses and clock reads: the broker, the thread and the lock are as
    they were. *)
Definition outside (w w' : world) : Prop :=
  w_broker w' = w_broker w ∧ w_tls w' = w_tls w ∧ os_mutex_lock (w_os w') = os_mutex_lock (w_os w).

#[export] Instance outside_preorder : PreOrder outside.
Proof. split; [done|]. intros x y z (A&B&C) (D&E&F). split_and!; congruence. Qed.

Lemma outside_client ring : pres outside (client_step ring).
Proof. intros w. unfold client_step. by destruct (os_client (w_os w)). Qed.

Lemma outside_load {A} ring (f : broker_ring → A) d : pres outside (ring_load ring f d).
Proof.
  apply pres_bind; [apply _| |intros r; apply pres_ret, _].
  apply pres_bind; [apply _|apply outside_client|intros _; apply pres_gets, _].
Qed.

Lemma outside_store ring f : pres outside (store_ring ring f).
Proof. apply pres_bind; [apply _|apply outside_client|by intros [] w]. Qed.

Lemma outside_valid ring : pres outside (llam_broker_ring_valid ring).
Proof. apply outside_load. Qed.

Lemma outside_errno e : pres outside (set_errno e).
Proof. by intros w. Qed.

Lemma outside_fail e : pres outside (fail e).
Proof. by intros w. Qed.

Lemma outside_broker : pres outside the_broker.
Proof. by intros w. Qed.

Lemma outside_now : pres outside llam_now_ns.
Proof. intros w. unfold llam_now_ns, pop. by destruct (os_now (w_os w)). Qed.

Lemma outside_stat_add ring i v : pres outside (llam_broker_ring_broker_stat_add ring i v).
Proof. apply outside_store. Qed.

Lemma outside_stat_max ring i v : pres outside (llam_broker_ring_broker_stat_max ring i v).
Proof. apply outside_store. Qed.

Create HintDb llam_outside discriminated.
#[export] Hint Resolve outside_load outside_store outside_valid outside_errno outside_fail outside_broker
  outside_now outside_stat_add outside_stat_max : llam_outside.

Ltac outside_walk :=
  repeat first
    [ solve [auto with llam_outside]
    | by apply pres_ret, _
    | apply pres_if
    | apply pres_bind; [apply _| |intros ?]
    | progress case_match ].

Lemma outside_copy ring n : ∀ head, pres outside (copy_submissions ring head n).
Proof. induction n as [|n IH]; intros head; cbn [copy_submissions]; outside_walk. Qed.

Lemma copy_length ring n : ∀ head, gives (λ l, length l = n) (copy_submissions ring head n).
Proof.
  induction n as [|n IH]; intros head; cbn [copy_submissions]; [by apply gives_ret|].
  apply gives_bind. intros s. eapply gives_bind_out; [apply IH|]. intros l Hl. apply gives_ret. cbn. by rewrite Hl.
Qed.

Lemma copy_wf ring n : ∀ head, gives (Forall submission_wf) (copy_submissions ring head n).
Proof.
  induction n as [|n IH]; intros head; cbn [copy_submissions]; [by apply gives_ret|].
  apply (gives_bind_out _ submission_wf).
  { apply gives_bind. intros [r|]; apply gives_ret; [apply shaped_submission_wf|done]. }
  intros s Hs. eapply gives_bind_out; [apply IH|]. intros l Hl. apply gives_ret. by constructor.
Qed.

#[export] Hint Resolve outside_copy : llam_outside.

Lemma outside_reserve ring i n : pres outside (llam_broker_ring_session_reserve_batch ring i n).
Proof. unfold llam_broker_ring_session_reserve_batch. outside_walk. Qed.

(** A batch is read from the private cursor on, and has at most as many
    submissions as asked for and as fit. *)
Definition batch_of (ring : Z) (s : ring_session) (max : Z) (subs : list ring_submission) : Prop :=
  ∃ k w, subs = (copy_submissions ring (rs_submit_head s) k w).1 ∧
    (1 <= k)%nat ∧ Z.of_nat k <= Z.min max LLAM_BROKER_RING_SERVE_BATCH_MAX.

Lemma batch_length ring s max subs :
  batch_of ring s max subs →
  (1 <= length subs)%nat ∧ Z.of_nat (length subs) <= Z.min max LLAM_BROKER_RING_SERVE_BATCH_MAX.
Proof. intros (k&w&->&H). by rewrite (copy_length ring k (rs_submit_head s) w). Qed.

Definition reserved (ring : Z) (s : ring_session) (max : Z) (w : world)
    (r : option (list ring_submission * Z)) (w' : world) : Prop :=
  outside w w' ∧ (r = None ∨ ∃ subs, batch_of ring s max subs ∧ r = Some (subs, rs_complete_tail s)).

Lemma reserve_batch ring i max w b :
  w_broker w = Some b → 0 <= max →
  wp (llam_broker_ring_session_reserve_batch ring i max) (reserved ring (session_at b i) max w) w.
Proof.
  intros Hb Hmax.
  assert (∀ e w', outside w w' → wp (set_errno e ;; mret None) (reserved ring (session_at b i) max w) w') as Hrefuse.
  { intros e w' H. split; [|by left]. etrans; [exact H|done]. }
  unfold llam_broker_ring_session_reserve_batch.
  apply (wp_pres outside _ _ _ w); [auto with llam_outside|done|]. intros valid w1 H1.
  apply wp_if; intros E1; [by apply Hrefuse|]. apply orb_false_iff in E1 as [_ E1]. bools.
  apply (wp_the_broker _ _ _ b); [by rewrite (proj1 H1)|].
  apply (wp_pres outside _ _ _ w); [auto with llam_outside|done|]. intros psh w2 H2.
  apply wp_if; intros E2; [by apply Hrefuse|].
  apply (wp_pres outside _ _ _ w); [auto with llam_outside|done|]. intros st w3 H3.
  apply wp_if; intros E3; [by apply Hrefuse|]. bools.
  unfold llam_broker_ring_window_valid in E3. apply andb_true_iff in E3 as [E3 _]. bools.
  apply wp_if; intros E4.
  { apply (wp_pres outside _ _ _ w); [auto with llam_outside|done|]. intros _ w4 H4. by apply Hrefuse. }
  apply (wp_pres outside _ _ _ w); [auto with llam_outside|done|]. intros pct w5 H5.
  apply wp_if; intros E5; [by apply Hrefuse|].
  apply (wp_pres outside _ _ _ w); [auto with llam_outside|done|]. intros ch w6 H6.
  apply wp_if; intros E6; [by apply Hrefuse|]. bools.
  unfold llam_broker_ring_window_valid in E6. apply andb_true_iff in E6 as [_ E6]. bools.
  apply wp_if; intros E7.
  { apply (wp_pres outside _ _ _ w); [auto with llam_outside|done|]. intros _ w7 H7. by apply Hrefuse. }
  bools. unfold wp. mon. match goal with |- context [copy_submissions ring ?h ?n w6] =>
    pose proof (outside_copy ring n h w6) as Hc; destruct (copy_submissions ring h n w6) as [subs w7] eqn:Ec end.
  mon. split; [by etrans|]. right. exists subs. split; [|done]. eexists _, w6. rewrite Ec. split; [done|].
  unfold LLAM_BROKER_RING_SERVE_BATCH_MAX in *. destruct (32 <? max) eqn:Em; bools; lia.
Qed.

(** ** A closed session stays closed *)

Definition session_in (w : world) (i : nat) : ring_session :=
  match w_broker w with Some b => session_at b i | None => zero_ring_session end.

Definition inert (i : nat) (w w' : world) : Prop :=
  rs_active (session_in w i) = false → rs_active (session_in w' i) = false.

#[export] Instance inert_preorder i : PreOrder (inert i).
Proof. split; [by intros w H|]. intros x y z H1 H2 H. auto. Qed.

Lemma aside_session w w' i : aside w w' → session_in w' i = session_in w i.
Proof.
  intros [H _ _ _]. unfold session_in, session_at.
  destruct (w_broker w) as [b|], (w_broker w') as [b'|]; try done. injection H. congruence.
Qed.

Lemma inert_aside i w w' : aside w w' → inert i w w'.
Proof. intros H Hs. by rewrite (aside_session w w' i H). Qed.

Lemma inert_broker i w w' : w_broker w' = w_broker w → inert i w w'.
Proof. intros H. unfold inert, session_in. by rewrite H. Qed.

Lemma session_at_insert b i j s :
  session_at (set_b_ring_sessions (<[j := s]> (b_ring_sessions b)) b) i
  = if decide (i = j ∧ (j < length (b_ring_sessions b))%nat) then s else session_at b i.
Proof.
  unfold session_at. cbn [b_ring_sessions set_b_ring_sessions]. case_decide as H.
  - destruct H as [-> H]. by apply nth_insert_eq.
  - destruct (decide (i = j)) as [->|Hne]; [|by apply nth_insert_ne].
    rewrite list_insert_ge; [done|]. destruct (decide (j < length (b_ring_sessions b))%nat); [|lia]. tauto.
Qed.

(** Writing a session that is inactive, or as active as it was. *)
Lemma inert_set_session i j s w :
  rs_active s = false ∨ rs_active s = rs_active (session_in w j) → inert i w (set_session j s w).2.
Proof.
  unfold inert, session_in, set_session. mon. intros H. destruct (w_broker w) as [b|]; [|done].
  cbn [fmap option_fmap option_map]. rewrite session_at_insert. case_decide as Hd; [|done].
  destruct Hd as [-> _], H as [H|H]; [done|]. by rewrite H.
Qed.

Lemma inert_unmap i m : pres (inert i) (llam_broker_ring_unmap m).
Proof.
  intros w. apply inert_broker. destruct m as [m|]; [|done].
  unfold llam_broker_ring_unmap, sys_munmap, sys_close, sys_shm_unlink. repeat branch; mon; done.
Qed.

Lemma inert_take i j o : pres (inert i) (llam_broker_ring_session_take_mapping (Some j) o).
Proof.
  assert (∀ A (a : A), pres (inert i) (set_session j cleared_session ;; mret a)) as H.
  { intros A a. apply pres_bind; [apply _| |intros _; apply pres_ret, _].
    intros w. apply inert_set_session. by left. }
  apply pres_bind; [apply _|by intros w H1|]. intros b. apply pres_if; [|apply H].
  destruct (llam_broker_ring_mapping_reset o); [apply H|apply pres_ret, _].
Qed.

Lemma inert_reclaim_slot i subj j : pres (inert i) (reclaim_ring_slot subj j).
Proof.
  intros w. unfold reclaim_ring_slot. mon. branch; mon; [by intros H|]. branch; mon.
  - destruct (w_broker w) as [b|] eqn:Hb; [|by apply inert_broker; cbn; rewrite Hb].
    apply inert_set_session. right. unfold session_in. by rewrite Hb.
  - pose proof (inert_take i j (Some reset_mapping) w) as H.
    by destruct (llam_broker_ring_session_take_mapping (Some j) (Some reset_mapping) w).
Qed.

Lemma inert_reclaim_slots i subj n : ∀ j, pres (inert i) (reclaim_ring_slots subj n j).
Proof.
  induction n as [|n IH]; intros j; cbn [reclaim_ring_slots]; [apply pres_ret, _|].
  apply pres_bind; [apply _|apply inert_reclaim_slot|]. intros r.
  apply pres_bind; [apply _|apply IH|]. intros r'. apply pres_ret, _.
Qed.

Lemma inert_unmap_all i l : pres (inert i) (unmap_all l).
Proof.
  induction l as [|m l IH]; cbn [unmap_all]; [apply pres_ret, _|].
  apply pres_bind; [apply _|apply inert_unmap|]. intros _. apply IH.
Qed.

Lemma inert_pres_aside i {A} (m : M A) : pres aside m → pres (inert i) m.
Proof. intros H w. apply inert_aside, H. Qed.

Lemma inert_reclaim_rings i subj : pres (inert i) (llam_broker_reclaim_subject_rings subj).
Proof.
  apply pres_on_broker; [apply pres_ret, _|]. intros b. apply pres_if; [apply pres_ret, _|].
  apply pres_bind; [apply _|apply inert_pres_aside, pres_frame_lock|]. intros rc.
  apply pres_if; [apply pres_ret, _|]. apply pres_bind; [apply _|apply inert_reclaim_slots|]. intros r.
  apply pres_bind; [apply _|apply pres_ret, _|]. intros _.
  apply pres_bind; [apply _|apply inert_unmap_all|]. intros _. apply pres_ret, _.
Qed.

Lemma inert_reclaim i subj : pres (inert i) (llam_broker_reclaim_subject_objects subj).
Proof.
  apply pres_on_broker; [apply pres_ret, _|]. intros b. apply pres_if; [apply pres_ret, _|].
  apply pres_bind; [apply _|apply inert_reclaim_rings|]. intros d. apply pres_if; [apply pres_ret, _|].
  apply inert_pres_aside. aside_walk.
Qed.

(** ** What serving a batch does to the session *)

(** The broker without its pin count and its ring sessions. *)
Definition objects (w : world) : option broker :=
  (λ b, set_b_active_ops 0 (set_b_ring_sessions [] b)) <$> w_broker w.

Definition safe_part (subs : list ring_submission) : list ring_submission :=
  take (llam_broker_ring_authority_safe_batch_count subs) subs.

Inductive served (ring : Z) (i : nat) (max : Z) (w : world) : Z * option Z → world → Prop :=
  | served_nothing w' :
      session_in w' i = session_in w i → objects w' = objects w → served ring i max w (-1, Some 0) w'
  | served_batch subs w1 w' :
      let s := session_in w i in
      let n := Z.of_nat (length (safe_part subs)) in
      batch_of ring s max subs → objects w1 = objects w →
      objects w' = objects (execute_all ring (safe_part subs) w1).2 →
      session_in w' i = advanced_session s (rs_complete_tail s) n →
      served ring i max w (0, Some n) w'
  | served_dropped r w' : rs_active (session_in w' i) = false → served ring i max w r w'
  | served_stuck w' : rs_busy (session_in w' i) = true → served ring i max w (-1, Some 0) w'.

Lemma before_spawn_le l : (before_spawn l <= length l)%nat.
Proof. induction l as [|s l IH]; cbn; [lia|]. destruct (_ =? _); lia. Qed.

Lemma safe_count_bounds l :
  (1 <= length l)%nat → (1 <= llam_broker_ring_authority_safe_batch_count l <= length l)%nat.
Proof.
  destruct l as [|s l]; cbn -[before_spawn]; [lia|]. intros _. pose proof (before_spawn_le (s :: l)) as H.
  cbn -[before_spawn] in H. destruct (before_spawn (s :: l)); lia.
Qed.

Lemma objs_session w w' i : same_objs w w' → session_in w' i = session_in w i.
Proof.
  intros [H _]. unfold session_in. destruct (w_broker w) as [b|], (w_broker w') as [b'|]; try done.
  apply (inj Some) in H. unfold session_at. by rewrite (active_ops_only _ _ H).
Qed.

Lemma objs_objects w w' : same_objs w w' → objects w' = objects w.
Proof.
  intros [H _]. unfold objects. destruct (w_broker w) as [b|], (w_broker w') as [b'|]; try done.
  apply (inj Some) in H. by rewrite (active_ops_only _ _ H).
Qed.

Lemma outside_session w w' i : outside w w' → session_in w' i = session_in w i.
Proof. intros (H&_). unfold session_in. by rewrite H. Qed.

Lemma outside_objects w w' : outside w w' → objects w' = objects w.
Proof. intros (H&_). unfold objects. by rewrite H. Qed.

(** The table of sessions through the execution of a batch. *)
Definition tables_kept (w w' : world) : Prop := bystanders <$> w_broker w' = bystanders <$> w_broker w.

#[export] Instance tables_kept_preorder : PreOrder tables_kept.
Proof. split; [done|]. intros x y z. unfold tables_kept. congruence. Qed.

Lemma kept_execute ring s : pres tables_kept (llam_broker_ring_execute_submission ring s).
Proof.
  apply (pres_execute tables_kept).
  - by intros w w' [].
  - intros A f d w. unfold tables_kept. by rewrite (proj1 (outside_load ring f d w)).
  - intros o bytes _ w. unfold tables_kept, put_bytes. by rewrite (proj1 (outside_store ring _ w)).
Qed.

Lemma kept_execute_all ring l : pres tables_kept (execute_all ring l).
Proof.
  induction l as [|s l IH]; cbn [execute_all]; [apply pres_ret, _|].
  apply pres_bind; [apply _|apply kept_execute|]. intros r.
  apply pres_bind; [apply _|apply IH|]. intros rest. apply pres_ret, _.
Qed.

Lemma execute_all_length ring l : gives (λ done, length done = length l) (execute_all ring l).
Proof.
  induction l as [|s l IH]; cbn [execute_all]; [by apply gives_ret|]. apply gives_bind. intros r.
  eapply gives_bind_out; [apply IH|]. intros rest Hr. apply gives_ret. cbn. by rewrite Hr.
Qed.

Lemma kept_session w w' b :
  tables_kept w w' → w_broker w = Some b →
  ∃ b', w_broker w' = Some b' ∧ b_ring_sessions b' = b_ring_sessions b.
Proof.
  unfold tables_kept. intros H Hb. rewrite Hb in H. destruct (w_broker w') as [b'|]; [|done].
  exists b'. split; [done|]. cbn in H. by injection H.
Qed.

(** ** Dropping a session *)

Lemma outside_data_range off len : pres outside (llam_broker_ring_data_range off len).
Proof. unfold llam_broker_ring_data_range. outside_walk. Qed.

#[export] Hint Resolve outside_data_range : llam_outside.

Lemma outside_clear_outputs ring l : pres outside (clear_outputs ring l).
Proof.
  induction l as [|[[s c] t] l IH]; cbn [clear_outputs]; [apply pres_ret, _|].
  apply pres_bind; [apply _| |intros _; apply IH].
  unfold llam_broker_ring_clear_submission_output, llam_broker_ring_clear_output, put_bytes. outside_walk.
Qed.

Lemma take_mapping_closes i m w :
  rs_active (session_in (llam_broker_ring_session_take_mapping (Some i) (Some m) w).2 i) = false.
Proof.
  assert (rs_active (session_in (set_session i cleared_session w).2 i) = false) as H.
  { unfold session_in, set_session. mon. destruct (w_broker w) as [b|]; [|done]. cbn [fmap option_fmap option_map].
    rewrite session_at_insert. case_decide as Hd; [done|].
    unfold session_at. rewrite nth_overflow; [done|]. destruct (decide (i < length (b_ring_sessions b))%nat); [|lia]. tauto. }
  unfold llam_broker_ring_session_take_mapping. mon. unfold llam_broker_ring_mapping_reset. cbn [fmap option_fmap option_map].
  branch; mon; destruct (set_session i cleared_session w) as [[] w']; mon; done.
Qed.

Lemma aside_rollback_unpublished l : pres aside (llam_broker_ring_rollback_unpublished_tasks l).
Proof.
  induction l as [|[[s c] [t|]] l IH]; cbn [llam_broker_ring_rollback_unpublished_tasks];
    [aside_walk| |exact IH].
  apply pres_bind; [apply _|by apply pres_aside_rollback_created|intros _; exact IH].
Qed.

Lemma inert_if_unmap i (b : bool) m : pres (inert i) (if b then llam_broker_ring_unmap m ;; mret tt else mret tt).
Proof.
  apply pres_if; [|apply pres_ret, _]. apply pres_bind; [apply _|apply inert_unmap|]. intros _. apply pres_ret, _.
Qed.

(** Once a step closed the session, steps that keep it closed may follow. *)
Lemma wp_closed {A B} i (m : M A) (k : A → M B) w :
  (∀ w, rs_active (session_in (m w).2 i) = false) → (∀ a, pres (inert i) (k a)) →
  wp (m ≫= k) (λ _ w', rs_active (session_in w' i) = false) w.
Proof. intros Hm Hk. apply wp_bind. unfold wp. apply (Hk (m w).1 (m w).2), Hm. Qed.

Lemma poisoned_closes ring i done w :
  wp (serve_poisoned ring i done) (λ _ w', rs_active (session_in w' i) = false) w.
Proof.
  unfold serve_poisoned. do 3 (apply wp_bind; unfold wp at 1). apply wp_closed; [apply take_mapping_closes|].
  intros t. apply pres_bind; [apply _|apply pres_ret, _|intros _].
  apply pres_bind; [apply _|apply inert_pres_aside, aside_rollback_unpublished|intros _].
  apply pres_bind; [apply _|apply inert_if_unmap|intros _].
  apply pres_bind; [apply _|apply pres_if; [apply inert_reclaim|apply pres_ret, _]|intros _].
  apply inert_pres_aside. aside_walk.
Qed.

(** ** Publishing and releasing *)

Lemma wp_rel (R : world → world → Prop) {A} (m : M A) (Q : A → world → Prop) w :
  pres R m → (∀ a w', R w w' → Q a w') → wp m Q w.
Proof. intros Hm HQ. apply HQ, Hm. Qed.

Lemma outside_publish_completions ring l : ∀ tail, pres outside (publish_completions ring tail l).
Proof.
  induction l as [|[[s c] t] l IH]; intros tail; cbn [publish_completions]; [apply pres_ret, _|].
  apply pres_bind; [apply _|apply outside_store|intros _; apply IH].
Qed.

Lemma set_session_in i s w b :
  w_broker w = Some b → (i < length (b_ring_sessions b))%nat →
  session_in (set_session i s w).2 i = s ∧ objects (set_session i s w).2 = objects w ∧
  ∃ b', w_broker (set_session i s w).2 = Some b' ∧ length (b_ring_sessions b') = length (b_ring_sessions b).
Proof.
  intros Hb Hi. unfold session_in, objects, set_session. mon. rewrite Hb. cbn [fmap option_fmap option_map].
  rewrite session_at_insert, decide_True by done. split_and!; [done|done|]. eexists. split; [done|].
  cbn. apply length_insert.
Qed.

(** The session advances by the length of the batch; nothing else changes. *)
Lemma publish_batch_session ring i tail t0 done w b :
  w_broker w = Some b → (i < length (b_ring_sessions b))%nat →
  wp (publish_batch ring i tail t0 done)
    (λ _ w', session_in w' i = advanced_session (session_at b i) tail (Z.of_nat (length done))
           ∧ objects w' = objects w
           ∧ ∃ b', w_broker w' = Some b' ∧ length (b_ring_sessions b') = length (b_ring_sessions b)) w.
Proof.
  intros Hb Hi. unfold publish_batch.
  apply (wp_pres outside _ _ _ w); [apply outside_publish_completions|done|]. intros _ w1 H1.
  pose proof H1 as (B1&_). rewrite Hb in B1. apply (wp_the_broker _ _ _ b); [done|].
  apply wp_bind. unfold wp at 1.
  destruct (set_session_in i (advanced_session (session_at b i) tail (Z.of_nat (length done))) w1 b B1 Hi)
    as (S1&O1&b2&B2&L2).
  destruct (set_session i _ w1) as [[] w2]. cbn [fst snd] in *.
  apply (wp_rel outside); [unfold llam_broker_ring_session_submit_publish; outside_walk|]. intros _ w3 Hp. split_and!.
  - by rewrite (outside_session _ _ i Hp).
  - by rewrite (outside_objects _ _ Hp), O1, (outside_objects _ _ H1).
  - exists b2. by rewrite (proj1 Hp).
Qed.

Lemma release_session ring i max n w0 w b :
  w_broker w = Some b → (i < length (b_ring_sessions b))%nat →
  (∀ w', session_in w' i = set_rs_busy false (session_at b i) → objects w' = objects w →
     served ring i max w0 (0, Some n) w') →
  wp (serve_release i n) (served ring i max w0) w.
Proof.
  intros Hb Hi Hs. unfold serve_release. apply (wp_the_broker _ _ _ b); [done|]. apply wp_bind. unfold wp at 1.
  destruct (set_session_in i (set_rs_busy false (session_at b i)) w b Hb Hi) as (S1&O1&b1&B1&L1).
  destruct (set_session i _ w) as [[] w1]. cbn [fst snd] in *. apply (wp_the_broker _ _ _ b1); [done|].
  apply wp_if; intros E.
  - apply (wp_mono _ (λ _ w', rs_active (session_in w' i) = false)); [|intros a w' H; by apply served_dropped].
    apply wp_closed; [apply take_mapping_closes|].
    intros t. apply pres_bind; [apply _|apply pres_ret, _|intros _].
    apply pres_bind; [apply _|apply inert_if_unmap|intros _].
    apply pres_bind; [apply _|apply inert_reclaim|intros _]. apply inert_pres_aside. aside_walk.
  - apply wp_bind. apply wp_ret. apply wp_bind. eapply (wp_rel same_objs); [apply pres_objs_end|].
    intros [] w2 H2. apply wp_ret. apply Hs; [by rewrite (objs_session _ _ i H2)|by rewrite (objs_objects _ _ H2)].
Qed.

(** From the end of the execution on. *)
Definition finish_batch (ring : Z) (i : nat) (tail t0 : Z) (done : list executed) : M (Z * option Z) :=
  rc ← llam_broker_lock;
  if negb (rc =? 0) then llam_broker_end_op ;; mret (-1, Some 0)
  else
    rc ← llam_broker_ring_session_validate_publish_locked ring i tail;
    if negb (rc =? 0) then serve_poisoned ring i done
    else publish_batch ring i tail t0 done ;; serve_release i (Z.of_nat (length done)).

Lemma outside_validate_publish ring i tail :
  pres outside (llam_broker_ring_session_validate_publish_locked ring i tail).
Proof. unfold llam_broker_ring_session_validate_publish_locked. outside_walk. Qed.

Lemma finish_batch_served ring i max tail t0 done w0 w b :
  w_broker w = Some b → (i < length (b_ring_sessions b))%nat → rs_busy (session_at b i) = true →
  (∀ w', session_in w' i = set_rs_busy false (advanced_session (session_at b i) tail (Z.of_nat (length done))) →
     objects w' = objects w → served ring i max w0 (0, Some (Z.of_nat (length done))) w') →
  wp (finish_batch ring i tail t0 done) (served ring i max w0) w.
Proof.
  intros Hb Hi Hbusy Hs. apply wp_bind. eapply (wp_rel same_core); [intros w1; apply lock_cases|].
  intros rc w1 H1. pose proof H1 as (B1&_). rewrite Hb in B1. apply wp_if; intros E.
  { apply wp_bind. eapply (wp_rel same_objs); [apply pres_objs_end|]. intros [] w2 H2. apply wp_ret.
    apply served_stuck. rewrite (objs_session _ _ i H2). unfold session_in. by rewrite B1. }
  apply wp_bind. eapply (wp_rel outside); [apply outside_validate_publish|]. intros rc' w2 H2.
  pose proof H2 as (B2&_). rewrite B1 in B2. apply wp_if; intros E'.
  { eapply wp_mono; [apply poisoned_closes|]. intros r w' H. by apply served_dropped. }
  apply wp_bind. eapply wp_mono; [by apply (publish_batch_session ring i tail t0 done w2 b)|].
  intros [] w3 (S3&O3&b3&B3&L3). apply (release_session ring i max _ w0 w3 b3); [done|lia|].
  unfold session_in in S3. rewrite B3 in S3. rewrite S3. intros w' S' O'. apply Hs; [done|].
  rewrite O', O3, (outside_objects _ _ H2), (objs_objects _ _ (same_core_objs _ _ H1)). done.
Qed.


(** ** Witnesses *)

(** A ring whose data area is not zero, and a read past the end of the example
    buffer into bytes [16, 24) of it. *)
Definition noisy_ring : broker_ring := set_ring_data (replicate (Z.to_nat LLAM_BROKER_RING_DATA_BYTES) 7) init_ring.
Definition noisy_world : world := set_w_rings {[5 := noisy_ring]} buffer_world.
Definition bad_read : ring_submission := RingSubmission 9 LLAM_BROKER_RING_OP_BUFFER_READ 4096 8 16 buffer_token.

Lemma bad_read_wf : submission_wf bad_read.
Proof. split_and!; first [by apply is_u64_b | done]. Qed.


(** A session of the ring at address 5, and a client that rewinds the published
    head after the broker looked at it. *)
Definition ring_session_0 : ring_session := RingSession 5 0 0 0 0 (-1) [] true false false false.

Definition serving_broker : broker :=
  set_b_ring_sessions (<[0%nat := ring_session_0]> (b_ring_sessions example_broker)) example_broker.

Definition serving_world (client : list (broker_ring → broker_ring)) (r : broker_ring) : world :=
  set_w_os (set_os_client client quiet_os)
    (set_w_rings {[5 := r]} (set_w_broker (Some serving_broker) example_world)).

(** The client leaves the ring alone until the submission was executed and then
    overwrites the published head. *)
Definition tampering : list (broker_ring → broker_ring) :=
  [id; id; id; id; id; id; set_ring_submit_head 7].

