(* ===== verification/RingRefine.v ===== *)
(** * Serving a well-behaved client

    A refinement theorem for [src/core/broker/ring/broker_ring_dispatch.c]: for a
    client that keeps to its side of the protocol (it appends submissions and
    consumes completions, at any time and in any order), serving a session is
    taking the oldest submissions off one queue, executing them in order, and
    putting their completions on the other queue in the same order.  In
    particular such a client is never mistaken for a hostile one. *)

From S2P Require Import Prelude Mix World Capability BrokerOps BrokerCore BrokerBuffer BrokerChannel.
From S2P Require Import BrokerRevoke BrokerDescriptor BrokerTask Ring RingMap BrokerSession Rollback BrokerFrame RingServe.

(** ** The client's side of the protocol *)

Abbreviation subs_of := (queue ring_submission).
Abbreviation cpls_of := (queue ring_completion).

Definition ring_ok (r : broker_ring) : Prop := lane_ok ring_submission r ∧ lane_ok ring_completion r.

(** What the client may have done between two accesses of the broker. *)
Definition friendly (r r' : broker_ring) : Prop :=
  produces ring_submission r r' ∧ consumes ring_completion r r'.

Lemma friendly_refl r : ring_ok r → friendly r r.
Proof. intros [H1 H2]. split; [by apply produces_refl|by apply consumes_refl]. Qed.

Lemma friendly_trans r1 r2 r3 : friendly r1 r2 → friendly r2 r3 → friendly r1 r3.
Proof. intros [A1 B1] [A2 B2]. split; [by eapply produces_trans|by eapply consumes_trans]. Qed.

Definition behaves (w : world) : Prop :=
  Forall (λ f : broker_ring → broker_ring, ∀ r, ring_ok r →
            friendly r (shaped (f r)) ∧ ring_ok (shaped (f r))) (os_client (w_os w)).

Section client.
Context (ring : Z).

(** The ring ring_at [r] and the rest of the client's steps are well-behaved. *)
Definition ring_at (r : broker_ring) (w : world) : Prop :=
  w_rings w !! ring = Some r ∧ ring_ok r ∧ behaves w.

Lemma wp_client_step r w :
  ring_at r w → wp (client_step ring) (λ _ w', ∃ r', ring_at r' w' ∧ friendly r r') w.
Proof.
  intros (Hr&Hok&Hp). unfold wp, client_step, behaves in *.
  destruct (os_client (w_os w)) as [|f rest] eqn:E.
  - exists r. split; [|by apply friendly_refl]. split; [done|split; [done|]]. unfold behaves. cbn [snd]. by rewrite E.
  - apply Forall_cons in Hp as [Hf Hrest]. destruct (Hf r Hok) as [H1 H2].
    exists (shaped (f r)). split; [|done]. split; [|by split]. cbn. rewrite lookup_alter_eq. by rewrite Hr.
Qed.

Lemma wp_load {A B} (field : broker_ring → A) d (k : A → M B) Q r w :
  ring_at r w →
  (∀ r' w', ring_at r' w' → friendly r r' → outside w w' → w_errno w' = w_errno w → wp (k (field r')) Q w') →
  wp (ring_load ring field d ≫= k) Q w.
Proof.
  intros H Hk. apply wp_bind. apply wp_bind, wp_bind. unfold wp at 1. pose proof (wp_client_step r w H) as (r'&Hr'&HP).
  pose proof (outside_client ring w) as Ho.
  assert (w_errno (client_step ring w).2 = w_errno w) as He.
  { unfold client_step. by destruct (os_client (w_os w)). }
  destruct (client_step ring w) as [[] w']. cbn [fst snd] in *. apply wp_gets, wp_ret.
  pose proof Hr' as (E&_). rewrite E. cbn [fmap option_fmap option_map default from_option]. by apply (Hk r').
Qed.

(** A store that keeps the ring well-formed. *)
Lemma wp_store {B} f (k : M B) Q r w :
  ring_at r w → (∀ r', friendly r r' → ring_ok r' → ring_ok (f r')) →
  (∀ r' w', ring_at (f r') w' → friendly r r' → ring_ok r' → outside w w' → w_errno w' = w_errno w → wp k Q w') →
  wp (store_ring ring f ;; k) Q w.
Proof.
  intros H Hf Hk. apply wp_bind, wp_bind. unfold wp at 1. pose proof (wp_client_step r w H) as (r'&(E&Hok&Hb)&HP).
  pose proof (outside_client ring w) as Ho.
  assert (w_errno (client_step ring w).2 = w_errno w) as He.
  { unfold client_step. by destruct (os_client (w_os w)). }
  destruct (client_step ring w) as [[] w']. cbn [fst snd] in *. unfold wp at 1. cbn [upd_ring modify snd].
  apply (Hk r'); [|done|done|done|done]. split; [|split; [by apply Hf|done]]. cbn. rewrite lookup_alter_eq. by rewrite E.
Qed.

(** Both lanes are as they were. *)
Definition lanes_kept (r r' : broker_ring) : Prop :=
  same_lane (T := ring_submission) r r' ∧ same_lane (T := ring_completion) r r'.

Lemma kept_ok f r : lanes_kept r (f r) → ring_ok r → ring_ok (f r).
Proof. intros [H1 H2] [O1 O2]. split; by eapply aside_ok. Qed.

Lemma kept_friendly f r : lanes_kept r (f r) → ring_ok r → friendly r (f r).
Proof. intros [H1 H2] [O1 O2]. split; [by apply (aside_produces _ f)|by apply (aside_consumes _ f)]. Qed.

(** A store outside the lanes. *)
Lemma wp_store_kept {B} f (k : M B) Q r w :
  ring_at r w → (∀ r, ring_ok r → lanes_kept r (f r)) →
  (∀ r' w', ring_at r' w' → friendly r r' → outside w w' → w_errno w' = w_errno w → wp k Q w') →
  wp (store_ring ring f ;; k) Q w.
Proof.
  intros H Hf Hk. apply (wp_store f k Q r w H).
  - intros r' _ Hok. apply kept_ok; auto.
  - intros r' w' H' HP Hok Ho He. apply (Hk (f r')); [done| |done|done].
    eapply friendly_trans; [done|]. apply kept_friendly; auto.
Qed.
End client.

(** ** Reserving a batch from a well-behaved client *)

(** Where the broker stands: its private cursors are the published ones. *)
Definition in_step (s : ring_session) (r : broker_ring) : Prop :=
  rs_submit_head s = ring_submit_head r ∧ rs_complete_tail s = ring_complete_tail r.

Lemma friendly_in_step s r r' : friendly r r' → in_step s r → in_step s r'.
Proof. intros [[H _ _] [H' _ _]] [A B]. cbn in H, H'. split; congruence. Qed.

Section reserve.
Context (ring : Z).

Lemma wp_copy n : ∀ c r w,
  ring_at ring r w → ring_submit_head r <= c → c + Z.of_nat n <= ring_submit_tail r →
  wp (copy_submissions ring c n)
    (λ l w', l = submission_at r <$> seqZ c (Z.of_nat n) ∧ outside w w' ∧ ∃ r', ring_at ring r' w' ∧ friendly r r') w.
Proof.
  induction n as [|n IH]; intros c r w H Hh Ht; cbn [copy_submissions].
  { apply wp_ret. split; [done|]. split; [done|]. exists r. split; [done|]. apply friendly_refl, H. }
  apply (wp_load ring _ _ _ _ r w H). intros r1 w1 H1 F1 O1 _.
  rewrite shaped_submission_id by (apply submission_at_wf, H1).
  pose proof F1 as [[P1 P2 P3] _]. cbn in P1, P2, P3. pose proof H as (_&[(_&_&_&U&_) _]&_). cbn in U.
  assert (u64 (c + 1) = c + 1) as -> by (apply u64_small; unfold is_u64 in *;
    destruct H as (_&[(_&_&U'&_&_) _]&_); cbn in U'; unfold is_u64 in U'; lia).
  apply wp_bind. eapply wp_mono; [apply (IH (c + 1) r1 w1 H1); lia|].
  intros l w2 (->&O2&r2&H2&F2). apply wp_ret. split_and!; [|by etrans|exists r2; split; [done|by eapply friendly_trans]].
  rewrite (P3 c) by lia. rewrite (seqZ_cons c (Z.of_nat (S n))) by lia. cbn [fmap list_fmap]. f_equal.
  replace (Z.pred (Z.of_nat (S n))) with (Z.of_nat n) by lia. rewrite <- Z.add_1_r.
  apply list_fmap_ext. intros j x Hx%list_elem_of_lookup_2%elem_of_seqZ. apply P3. lia.
Qed.

(** The batch and what the client did meanwhile. *)
Definition reserved_from (s : ring_session) (max : Z) (r : broker_ring) (w : world)
    (res : option (list ring_submission * Z)) (w' : world) : Prop :=
  outside w w' ∧ ∃ r', ring_at ring r' w' ∧ friendly r r' ∧
    ((res = None ∧ w_errno w' = EAGAIN ∧
      (subs_of r = [] ∨ Z.of_nat (length (cpls_of r)) = LLAM_BROKER_RING_CAP))
     ∨ ∃ n, res = Some (submission_at r' <$> seqZ (rs_submit_head s) n, rs_complete_tail s) ∧
         1 <= n <= Z.min max LLAM_BROKER_RING_SERVE_BATCH_MAX ∧
         n <= ring_submit_tail r' - ring_submit_head r' ∧
         ring_complete_tail r' - ring_complete_head r' + n <= LLAM_BROKER_RING_CAP).

Lemma queue_empty_before r r' :
  ring_ok r → friendly r r' → ring_submit_tail r' = ring_submit_head r' → subs_of r = [].
Proof.
  intros [(_&_&_&_&W) _] [[P1 P2 _] _] E. cbn in *. unfold queue. cbn. rewrite seqZ_nil; [done|]. lia.
Qed.

Lemma queue_full_before r r' :
  ring_ok r → friendly r r' → ring_complete_tail r' - ring_complete_head r' = LLAM_BROKER_RING_CAP →
  Z.of_nat (length (cpls_of r)) = LLAM_BROKER_RING_CAP.
Proof.
  intros [_ O] [_ [P1 P2 _]] E. rewrite (lane_length _ r O). destruct O as (_&_&_&_&W). cbn in *. lia.
Qed.

Lemma stat_kept i v r : lanes_kept r (set_ring_broker_stats (stat_add i v (ring_broker_stats r)) r).
Proof. apply same_broker_stats. apply length_stat_add. Qed.

Lemma window_sub r : ring_ok r → ring_submit_head r <= ring_submit_tail r <= ring_submit_head r + LLAM_BROKER_RING_CAP.
Proof. by intros [(_&_&_&_&W) _]. Qed.

Lemma window_cpl r : ring_ok r → ring_complete_head r <= ring_complete_tail r <= ring_complete_head r + LLAM_BROKER_RING_CAP.
Proof. by intros [_ (_&_&_&_&W)]. Qed.

Lemma reserve_friendly i max r w b :
  ring_at ring r w → w_broker w = Some b → in_step (session_at b i) r → 0 < max →
  wp (llam_broker_ring_session_reserve_batch ring i max) (reserved_from (session_at b i) max r w) w.
Proof.
  intros H Hb Hst Hmax. pose proof H as (_&Hok&_). unfold llam_broker_ring_session_reserve_batch.
  apply (wp_load ring _ _ _ _ r w H). intros r1 w1 H1 F1 O1 _.
  replace (ring_magic_ok r1) with true by (symmetry; apply H1). cbn [negb orb].
  rewrite (proj2 (Z.eqb_neq max 0)) by lia.
  apply (wp_the_broker _ _ _ b); [by rewrite (proj1 O1)|].
  apply (wp_load ring _ _ _ _ r1 w1 H1). intros r2 w2 H2 F2 O2 _.
  pose proof (friendly_trans _ _ _ F1 F2) as F02. pose proof (friendly_in_step _ _ _ F02 Hst) as [S2 _].
  rewrite S2, Z.eqb_refl. cbn [negb].
  apply (wp_load ring _ _ _ _ r2 w2 H2). intros r3 w3 H3 F3 O3 _.
  pose proof (friendly_trans _ _ _ F02 F3) as F03. pose proof (friendly_in_step _ _ _ F03 Hst) as [S3 T3].
  rewrite <- S2, S3. pose proof H3 as (_&Hok3&_). pose proof (window_sub _ Hok3) as W3.
  rewrite (window_ok _ _ W3). cbn [negb]. apply wp_if; intros E3; bools.
  { apply (wp_store_kept ring _ _ _ r3 w3 H3); [intros x _; apply stat_kept|]. intros r4 w4 H4 F4 O4 _.
    apply wp_bind, wp_modify, wp_ret. split; [repeat (etrans; [eassumption|]); done|].
    exists r4. split; [done|]. split; [by eapply friendly_trans|]. left. split_and!; [done|done|left].
    eapply queue_empty_before; [done|exact F03|lia]. }
  apply (wp_load ring _ _ _ _ r3 w3 H3). intros r4 w4 H4 F4 O4 _.
  pose proof (friendly_trans _ _ _ F03 F4) as F04. pose proof (friendly_in_step _ _ _ F04 Hst) as [S4 T4].
  rewrite T4, Z.eqb_refl. cbn [negb].
  apply (wp_load ring _ _ _ _ r4 w4 H4). intros r5 w5 H5 F5 O5 _.
  pose proof (friendly_trans _ _ _ F04 F5) as F05. pose proof (friendly_in_step _ _ _ F05 Hst) as [S5 T5].
  rewrite <- T4, T5. pose proof H5 as (_&Hok5&_). pose proof (window_cpl _ Hok5) as W5.
  rewrite (window_ok _ _ W5). cbn [negb]. apply wp_if; intros E5; bools.
  { apply (wp_store_kept ring _ _ _ r5 w5 H5); [intros x _; apply stat_kept|]. intros r6 w6 H6 F6 O6 _.
    apply wp_bind, wp_modify, wp_ret. split; [repeat (etrans; [eassumption|]); done|].
    exists r6. split; [done|]. split; [by eapply friendly_trans|]. left. split_and!; [done|done|right].
    eapply queue_full_before; [done|exact F05|lia]. }
  set (n := Z.min _ _). pose proof F5 as [[P5 Q5 _] _]. pose proof F4 as [[P4 Q4 _] _]. cbn in P4, Q4, P5, Q5.
  assert (1 <= n <= Z.min max LLAM_BROKER_RING_SERVE_BATCH_MAX ∧ n <= ring_submit_tail r3 - ring_submit_head r3
    ∧ n <= LLAM_BROKER_RING_CAP - (ring_complete_tail r5 - ring_complete_head r5)) as (N1&N2&N3).
  { subst n. unfold LLAM_BROKER_RING_SERVE_BATCH_MAX. destruct (32 <? max) eqn:Em; bools; lia. }
  clearbody n. apply wp_bind. eapply wp_mono; [apply (wp_copy (Z.to_nat n) _ r5 w5 H5); lia|].
  intros l w6 (->&O6&r6&H6&F6). rewrite Z2Nat.id by lia. apply wp_ret.
  split; [repeat (etrans; [eassumption|]); done|]. exists r6. split; [done|]. split; [by eapply friendly_trans|].
  right. exists n. pose proof F6 as [[P6 Q6 R6] [P6' Q6' _]]. cbn in P6, Q6, R6, P6', Q6'. split_and!; try lia.
  rewrite S3, <- T5. do 2 f_equal. rewrite <- P4, <- P5. apply list_fmap_ext. intros j x Hx%list_elem_of_lookup_2%elem_of_seqZ.
  symmetry. apply R6. lia.
Qed.
End reserve.

(** ** Executing a batch next to a well-behaved client *)

Section execution.
Context (ring : Z).

Definition in_company (w w' : world) : Prop :=
  lock_kept w w' ∧ ∀ r, ring_at ring r w → ∃ r', ring_at ring r' w' ∧ friendly r r'.

#[export] Instance in_company_preorder : PreOrder in_company.
Proof.
  split.
  - intros w. split; [by intros H|]. intros r H. exists r. split; [done|]. apply friendly_refl, H.
  - intros x y z [A1 B1] [A2 B2]. split; [by etrans|]. intros r H. destruct (B1 r H) as (r1&H1&F1).
    destruct (B2 r1 H1) as (r2&H2&F2). exists r2. split; [done|]. by eapply friendly_trans.
Qed.

Lemma company_aside w w' : aside w w' → in_company w w'.
Proof.
  intros [_ Hr Hc Hl]. split; [done|]. intros r (E&Hok&Hb). exists r. split; [|by apply friendly_refl].
  unfold ring_at, behaves. by rewrite Hr, Hc.
Qed.

Lemma company_load {A} (f : broker_ring → A) d : pres in_company (ring_load ring f d).
Proof.
  intros w. split.
  - pose proof (outside_load ring f d w) as (_&_&H). unfold lock_kept. by rewrite H.
  - intros r H. pose proof (wp_client_step ring r w H) as (r'&H'). unfold ring_load, load_ring. mon.
    destruct (client_step ring w) as [[] w']. mon. by exists r'.
Qed.

Lemma data_kept d r : ring_ok r → length d = length (ring_data r) → lanes_kept r (set_ring_data d r).
Proof.
  intros _ Hd. split; split; try done; intros []; split; try done; cbn; congruence.
Qed.

Lemma company_put o bytes :
  (Z.to_nat o + length bytes <= Z.to_nat LLAM_BROKER_RING_DATA_BYTES)%nat →
  pres in_company (put_bytes ring o bytes).
Proof.
  intros Hb w. split.
  - unfold put_bytes. pose proof (outside_store ring
      (λ r, set_ring_data (memcpy_at (Z.to_nat o) bytes (ring_data r)) r) w) as (_&_&H).
    unfold lock_kept. by rewrite H.
  - intros r H. pose proof (wp_store_kept ring
      (λ r, set_ring_data (memcpy_at (Z.to_nat o) bytes (ring_data r)) r) (mret tt)
      (λ _ w', ∃ r', ring_at ring r' w' ∧ friendly r r') r w H) as Hs.
    unfold wp in Hs. unfold put_bytes. mon. destruct (store_ring ring _ w) as [[] w']. mon. apply Hs.
    + intros x Hok. apply data_kept; [done|]. apply length_memcpy_at.
      destruct Hok as [(W&_) _]. rewrite (rw_data _ W). exact Hb.
    + intros r' w1 H1 F1 _ _. by exists r'.
Qed.

Lemma company_execute s : submission_wf s → pres in_company (llam_broker_ring_execute_submission ring s).
Proof.
  intros Hs. apply (pres_execute in_company).
  - apply company_aside.
  - intros A f d. apply company_load.
  - intros o bytes (len&Hlen&H). destruct (H Hs) as (H1&H2&H3). pose proof Hs as (_&_&_&_&U).
    apply company_put. unfold is_u64 in U. lia.
Qed.

Lemma company_execute_all l : Forall submission_wf l → pres in_company (execute_all ring l).
Proof.
  induction 1 as [|s l Hs _ IH]; cbn [execute_all]; [apply pres_ret, _|].
  apply pres_bind; [apply _|by apply company_execute|]. intros r.
  apply pres_bind; [apply _|apply IH|]. intros rest. apply pres_ret, _.
Qed.

(** Each submission gets its completion, in order. *)
Definition answers (s : ring_submission) (e : executed) : Prop :=
  e.1.1 = s ∧ reported (sub_request_id s) e.1.2.

Lemma execute_all_answers l : gives (Forall2 answers l) (execute_all ring l).
Proof.
  induction l as [|s l IH]; cbn [execute_all]; [apply gives_ret; constructor|].
  eapply gives_bind_out; [apply execute_reported|]. intros r Hr.
  eapply gives_bind_out; [apply IH|]. intros rest Hrest. apply gives_ret.
  apply Forall2_cons. split; [by split|done].
Qed.
End execution.

(** ** Publishing the completions *)

Section publish.
Context (ring : Z).

(** [n] completions were written behind the published tail, the ones before
    cursor [t] are untouched, and the client went on. *)
Record written_to (t : Z) (r r' : broker_ring) : Prop := {
  wt_subs : produces ring_submission r r';
  wt_tail : ring_complete_tail r' = ring_complete_tail r;
  wt_head : ring_complete_head r <= ring_complete_head r' <= ring_complete_tail r;
  wt_cells : ∀ c, ring_complete_head r' <= c < t → completion_at r' c = completion_at r c;
}.

Lemma written_refl t r : ring_ok r → written_to t r r.
Proof. intros [H1 H2]. split; [by apply produces_refl|done| |done]. destruct H2 as (_&_&_&_&W). cbn in W. lia. Qed.

Lemma friendly_written t r r' : friendly r r' → written_to t r r'.
Proof. intros [H [A B C]]. cbn in *. by split. Qed.

Lemma written_trans t t' r1 r2 r3 :
  written_to t r1 r2 → written_to t' r2 r3 → t <= t' → written_to t r1 r3.
Proof.
  intros [A1 B1 C1 D1] [A2 B2 C2 D2] Ht. split; [by eapply produces_trans|congruence|lia|].
  intros c Hc. rewrite D2 by lia. apply D1. lia.
Qed.

Definition put_completion (t : Z) (c : ring_completion) (r : broker_ring) : broker_ring :=
  set_ring_completions (<[ring_index t := c]> (ring_completions r)) r.

Lemma put_completion_ok t c r : ring_ok r → ring_ok (put_completion t c r).
Proof.
  intros [(W&G&H1) (_&_&H2)]. pose proof (put_wf (T := ring_completion) t c r I W) as W'. by split; split.
Qed.

Lemma put_completion_written t c r :
  ring_ok r → t < ring_complete_head r + LLAM_BROKER_RING_CAP → written_to t r (put_completion t c r).
Proof.
  intros [O1 O2] Ht. pose proof O2 as (W&_&_&_&B). cbn in B. pose proof O1 as (_&_&_&_&B1). cbn in B1.
  split; [by split; cbn; [|lia|]|done|cbn; lia|].
  intros x Hx. cbn in Hx. refine (put_at_ne (T := ring_completion) t c r x _). apply ring_index_ne. lia.
Qed.

Lemma wp_publish_completions done : ∀ t r w,
  ring_at ring r w → ring_complete_tail r <= t →
  t + Z.of_nat (length done) <= ring_complete_head r + LLAM_BROKER_RING_CAP →
  t + Z.of_nat (length done) <= UINT64_MAX →
  wp (publish_completions ring t done)
    (λ _ w', outside w w' ∧ ∃ r', ring_at ring r' w' ∧ written_to t r r' ∧
       ∀ j e, done !! j = Some e → completion_at r' (t + Z.of_nat j) = e.1.2) w.
Proof.
  induction done as [|[[s c] tok] done IH]; intros t r w H Ht Hroom Hmax; cbn [publish_completions].
  { apply wp_ret. split; [done|]. exists r. split; [done|]. split; [apply written_refl, H|done]. }
  cbn [length] in *. pose proof H as (_&Hok&_). pose proof (window_cpl r Hok) as W.
  pose proof Hok as [_ (_&_&U&_)]. cbn in U. unfold is_u64, UINT64_MAX in *.
  assert (u64 (t + 1) = t + 1) as -> by (apply u64_small; unfold is_u64; lia).
  apply (wp_store ring (put_completion t c) _ _ r w H); [intros r' _; apply put_completion_ok|].
  intros r1 w1 H1 F1 Hok1 O1 _. pose proof (friendly_written t _ _ F1) as [_ T1 Hd1 _].
  pose proof (put_completion_written t c r1 Hok1 ltac:(lia)) as P1.
  eapply wp_mono; [apply (IH (t + 1) (put_completion t c r1) w1 H1); cbn; unfold UINT64_MAX; lia|].
  intros [] w2 (O2&r2&H2&P2&C2). split; [by etrans|]. exists r2. split; [done|]. split.
  - eapply written_trans; [|exact P2|lia]. eapply written_trans; [by apply friendly_written|exact P1|lia].
  - intros [|j] e; cbn [lookup list_lookup].
    + intros [= <-]. rewrite Z.add_0_r. pose proof (wt_head _ _ _ P2) as Hh. cbn in Hh.
      rewrite (wt_cells _ _ _ P2) by lia. refine (put_at (T := ring_completion) t c r1 _). apply Hok1.
    + intros He. rewrite <- (C2 j e He). f_equal. lia.
Qed.
End publish.

(** ** Moving the cursors *)

Lemma publish_tail r n :
  ring_ok r → 0 <= n → ring_complete_tail r + n <= ring_complete_head r + LLAM_BROKER_RING_CAP →
  ring_complete_tail r + n <= UINT64_MAX →
  let r' := set_ring_complete_tail (ring_complete_tail r + n) r in
  ring_ok r' ∧ subs_of r' = subs_of r ∧
  cpls_of r' = cpls_of r ++ (completion_at r <$> seqZ (ring_complete_tail r) n).
Proof.
  intros [(W&G&O1) (_&_&U1&U2&B)] Hn Hroom Hmax. cbn in U1, U2, B. unfold is_u64, UINT64_MAX in *.
  assert (ring_wf (set_ring_complete_tail (ring_complete_tail r + n) r)) as W'.
  { refine (set_tail_wf (T := ring_completion) _ r _ W). unfold is_u64. lia. }
  split; [|split; [done|]].
  - split; split; try done. split; [done|]. cbn. unfold is_u64. lia.
  - unfold queue. cbn. replace (ring_complete_tail r + n - ring_complete_head r)
      with ((ring_complete_tail r - ring_complete_head r) + n) by lia.
    rewrite seqZ_app by lia. rewrite fmap_app. do 3 f_equal. lia.
Qed.

Lemma release_head r n :
  ring_ok r → 0 <= n <= ring_submit_tail r - ring_submit_head r →
  let r' := set_ring_submit_head (ring_submit_head r + n) r in
  ring_ok r' ∧ cpls_of r' = cpls_of r ∧
  subs_of r = (submission_at r <$> seqZ (ring_submit_head r) n) ++ subs_of r'.
Proof.
  intros [O1 O2] Hn. pose proof (release_ok ring_submission (ring_submit_head r + n) r O1) as O1'.
  cbn [lane_head lane_tail lane_set_head submit_lane] in O1'. destruct O1' as (W'&G'&O1'); [lia|].
  split; [split|]; [by split|by destruct O2 as (_&_&O2); split|]. split; [done|].
  by refine (queue_drop ring_submission r (set_ring_submit_head (ring_submit_head r + n) r) n _ _ _ _ _).
Qed.

Section company.
Context (ring : Z).

Lemma company_store f :
  (∀ r, ring_ok r → lanes_kept r (f r)) → pres (in_company ring) (store_ring ring f).
Proof.
  intros Hf w. split.
  - pose proof (outside_store ring f w) as (_&_&H). unfold lock_kept. by rewrite H.
  - intros r H. pose proof (wp_store_kept ring f (mret tt)
      (λ _ w', ∃ r', ring_at ring r' w' ∧ friendly r r') r w H Hf) as Hs.
    unfold wp in Hs. mon. destruct (store_ring ring f w) as [[] w']. mon. apply Hs.
    intros r' w1 H1 F1 _ _. by exists r'.
Qed.

Lemma company_stat_add i v : pres (in_company ring) (llam_broker_ring_broker_stat_add ring i v).
Proof. apply company_store. intros r _. apply stat_kept. Qed.

Lemma company_stat_max i v : pres (in_company ring) (llam_broker_ring_broker_stat_max ring i v).
Proof. apply company_store. intros r _. apply same_broker_stats, length_stat_max. Qed.

Lemma company_now : pres (in_company ring) llam_now_ns.
Proof. intros w. apply company_aside. by apply pres_aside_pop. Qed.

Lemma ring_at_broker r b w : ring_at ring r w → ring_at ring r (set_w_broker b w).
Proof. done. Qed.
End company.

(** What a batch did to the queues, the client's own steps included. *)
Record exchanged (r : broker_ring) (subs : list ring_submission) (cpls : list ring_completion)
    (r' : broker_ring) : Prop := {
  ex_subs : ∃ added, subs_of r ++ added = subs ++ subs_of r';
  ex_cpls : ∃ taken, cpls_of r ++ cpls = taken ++ cpls_of r';
}.

Lemma friendly_exchanged r r' : ring_ok r → friendly r r' → exchanged r [] [] r'.
Proof.
  intros [O1 O2] [P C]. split.
  - destruct (produces_queue _ r r' O1 P) as [added E]. by exists added.
  - destruct (consumes_queue _ r r' C) as [taken E]. exists taken. by rewrite app_nil_r.
Qed.

Lemma exchanged_trans r1 s1 c1 r2 s2 c2 r3 :
  exchanged r1 s1 c1 r2 → exchanged r2 s2 c2 r3 → exchanged r1 (s1 ++ s2) (c1 ++ c2) r3.
Proof.
  intros [[a1 A1] [t1 T1]] [[a2 A2] [t2 T2]]. split.
  - exists (a1 ++ a2). by rewrite app_assoc, A1, <- !app_assoc, A2.
  - exists (t1 ++ t2). by rewrite app_assoc, T1, <- !app_assoc, T2.
Qed.

Lemma written_exchanged t r r' :
  ring_ok r → ring_complete_tail r <= t → written_to t r r' → exchanged r [] [] r'.
Proof.
  intros [O1 O2] Ht [P T H C]. split.
  - destruct (produces_queue _ r r' O1 P) as [added E]. by exists added.
  - exists (completion_at r <$> seqZ (ring_complete_head r) (ring_complete_head r' - ring_complete_head r)).
    rewrite app_nil_r. unfold queue. cbn. rewrite T.
    replace (ring_complete_tail r - ring_complete_head r) with ((ring_complete_head r' - ring_complete_head r)
      + (ring_complete_tail r - ring_complete_head r')) by lia.
    rewrite seqZ_app by lia. rewrite fmap_app. f_equal. rewrite Zplus_minus.
    apply list_fmap_ext. intros j c Hc%list_elem_of_lookup_2%elem_of_seqZ. symmetry. apply C. lia.
Qed.

Section batch.
Context (ring : Z) (i : nat).

Lemma submit_publish_friendly r w b n :
  ring_at ring r w → w_broker w = Some b → rs_submit_head (session_at b i) = ring_submit_head r + n →
  0 <= n <= ring_submit_tail r - ring_submit_head r →
  wp (llam_broker_ring_session_submit_publish ring i)
    (λ _ w', ∃ r', ring_at ring r' w' ∧ exchanged r (submission_at r <$> seqZ (ring_submit_head r) n) [] r'
       ∧ ring_submit_head r' = ring_submit_head r + n ∧ ring_complete_tail r' = ring_complete_tail r) w.
Proof.
  intros H Hb Hs Hn. apply (wp_the_broker _ _ _ b); [done|]. rewrite Hs.
  assert (∀ r', friendly r r' → ring_ok r' →
    ring_ok (set_ring_submit_head (ring_submit_head r + n) r') ∧
    exchanged r' (submission_at r <$> seqZ (ring_submit_head r) n) [] (set_ring_submit_head (ring_submit_head r + n) r')) as Hset.
  { intros r' [[P1 P2 P3] _] Hok'. cbn in P1, P2, P3. rewrite <- P1. destruct (release_head r' n Hok' ltac:(lia)) as (A1&A2&A3).
    split; [done|]. split; [|exists []; by rewrite A2, app_nil_r]. exists []. rewrite app_nil_r, A3. f_equal.
    apply list_fmap_ext. intros j c Hc%list_elem_of_lookup_2%elem_of_seqZ. apply P3. lia. }
  apply (wp_store ring _ _ _ r w H); [intros r' F' Hok'; by apply Hset|].
  intros r1 w1 H1 F1 Hok1 O1 _. destruct (Hset r1 F1 Hok1) as [_ X1].
  apply (wp_rel (in_company ring)); [apply company_stat_add|]. intros [] w2 [_ H2].
  destruct (H2 _ H1) as (r2&H2'&F2). pose proof F2 as [[P2 _ _] [T2 _ _]]. pose proof F1 as [_ [T1 _ _]]. cbn in *.
  exists r2. split; [done|]. split; [|split; congruence].
  change (submission_at r <$> seqZ (ring_submit_head r) n) with ([] ++ (submission_at r <$> seqZ (ring_submit_head r) n)).
  eapply (exchanged_trans _ _ [] r1); [apply friendly_exchanged; [apply H|done]|].
  rewrite <- (app_nil_r (submission_at r <$> _)).
  eapply (exchanged_trans _ _ [] _ _ []); [exact X1|apply friendly_exchanged; [apply H1|done]].
Qed.

Lemma complete_publish_friendly {B} r w n cs (k : M B) Q :
  ring_at ring r w → 0 <= n → ring_complete_tail r + n <= ring_complete_head r + LLAM_BROKER_RING_CAP →
  ring_complete_tail r + n <= UINT64_MAX → completion_at r <$> seqZ (ring_complete_tail r) n = cs →
  (∀ r' w', ring_at ring r' w' → exchanged r [] cs r' → ring_submit_head r' = ring_submit_head r →
     ring_submit_tail r <= ring_submit_tail r' →
     (∀ c, ring_submit_head r <= c < ring_submit_tail r → submission_at r' c = submission_at r c) →
     ring_complete_tail r' = ring_complete_tail r + n → outside w w' → wp k Q w') →
  wp (store_ring ring (set_ring_complete_tail (ring_complete_tail r + n)) ;; k) Q w.
Proof.
  intros H Hn Hroom Hmax Hcs Hk. pose proof H as (_&Hok&_).
  assert (∀ r', friendly r r' → ring_ok r' →
    let r2 := set_ring_complete_tail (ring_complete_tail r + n) r' in ring_ok r2 ∧ exchanged r' [] cs r2) as Hset.
  { intros r' [_ [P1 P2 P3]] Hok'. cbn in P1, P2, P3. rewrite <- P1.
    destruct (publish_tail r' n Hok' Hn) as (A1&A2&A3); [lia|lia|]. split; [done|].
    split; [exists []; by rewrite A2, app_nil_r|]. exists []. rewrite A3. cbn. f_equal. rewrite <- Hcs, P1.
    apply list_fmap_ext. intros j c _. by rewrite P3. }
  apply (wp_store ring _ _ _ r w H); [intros r' F' Hok'; by apply Hset|].
  intros r1 w1 H1 F1 Hok1 O1 _. destruct (Hset r1 F1 Hok1) as [_ X1]. pose proof F1 as [[P1 P2 P3] _]. cbn in P1, P2, P3.
  apply (Hk _ w1 H1); try done; [|cbn; lia].
  apply (exchanged_trans _ [] [] r1 [] cs); [by apply friendly_exchanged|exact X1].
Qed.

(** A step next to the client that leaves the broker alone. *)
Lemma wp_company {A B} (m : M A) (k : A → M B) Q r w :
  ring_at ring r w → pres (in_company ring) m → pres outside m →
  (∀ a r' w', ring_at ring r' w' → friendly r r' → outside w w' → wp (k a) Q w') → wp (m ≫= k) Q w.
Proof.
  intros H Hm Ho Hk. apply wp_bind. unfold wp. destruct (proj2 (Hm w) r H) as (r'&H'&F'). by apply (Hk _ r').
Qed.

Lemma company_rest t0 n :
  pres (in_company ring) (serve_end_ns ← llam_now_ns;
    (if t0 <=? serve_end_ns then
       let latency_ns := serve_end_ns - t0 in
       llam_broker_ring_broker_stat_add ring LLAM_BROKER_RING_BROKER_STAT_SERVE_LATENCY_NS_TOTAL latency_ns ;;
       llam_broker_ring_broker_stat_max ring LLAM_BROKER_RING_BROKER_STAT_SERVE_LATENCY_NS_MAX latency_ns
     else mret tt) ;;
    llam_broker_ring_broker_stat_add ring LLAM_BROKER_RING_BROKER_STAT_SERVE_CALLS n ;;
    llam_broker_ring_broker_stat_add ring LLAM_BROKER_RING_BROKER_STAT_SERVE_SUCCESS n).
Proof.
  repeat first [apply company_stat_add | apply company_stat_max | apply company_now | apply pres_ret, _
    | apply pres_if | apply pres_bind; [apply _| |intros ?]].
Qed.

Lemma published_cells t (done : list executed) r :
  (∀ j e, done !! j = Some e → completion_at r (t + Z.of_nat j) = e.1.2) →
  completion_at r <$> seqZ t (Z.of_nat (length done)) = done.*1.*2.
Proof.
  unfold executed in *. intros H. apply list_eq. intros j. rewrite !list_lookup_fmap. destruct (done !! j) as [e|] eqn:E.
  - rewrite lookup_seqZ_lt by (apply lookup_lt_Some in E; lia).
    cbn. by rewrite <- (H j e E).
  - rewrite lookup_seqZ_ge by (apply lookup_ge_None in E; lia). done.
Qed.

Lemma publish_batch_friendly t0 done r w b :
  let n := Z.of_nat (length done) in let t := ring_complete_tail r in
  ring_at ring r w → w_broker w = Some b → (i < length (b_ring_sessions b))%nat → in_step (session_at b i) r →
  n <= ring_submit_tail r - ring_submit_head r →
  t + n <= ring_complete_head r + LLAM_BROKER_RING_CAP → t + n <= UINT64_MAX →
  wp (publish_batch ring i t t0 done)
    (λ _ w', ∃ r', ring_at ring r' w' ∧ in_step (advanced_session (session_at b i) t n) r' ∧
       exchanged r (submission_at r <$> seqZ (ring_submit_head r) n) (done.*1.*2) r') w.
Proof.
  intros n t H Hb Hi [Hsh _] Hn Hroom Hmax. pose proof H as (_&Hok&_). unfold publish_batch.
  apply wp_bind. eapply wp_mono; [apply (wp_publish_completions ring done t r w H); lia|].
  intros [] w1 (O1&r1&H1&P1&C1). pose proof O1 as (B1&_). rewrite Hb in B1.
  apply (wp_the_broker _ _ _ b); [done|]. apply wp_bind. unfold wp at 1.
  rewrite (set_session_run _ _ w1 b B1). cbn [fst snd].
  set (s' := advanced_session (session_at b i) t n). set (b2 := set_b_ring_sessions _ b).
  assert (session_at b2 i = s') as Es by (subst b2; rewrite session_at_insert, decide_True by done; done).
  pose proof (window_cpl r Hok) as Wc. pose proof (window_sub r Hok) as Ws.
  pose proof Hok as [(_&_&U1&U2&_) (_&_&U3&U4&_)]. cbn in U1, U2, U3, U4. unfold is_u64, UINT64_MAX in *.
  assert (rs_submit_head s' = ring_submit_head r + n) as E1 by (cbn; rewrite Hsh; apply u64_small; unfold is_u64; lia).
  assert (rs_complete_tail s' = t + n) as E2 by (cbn; apply u64_small; unfold is_u64; lia).
  apply (ring_at_broker ring r1 (Some b2) w1) in H1. set (w2 := set_w_broker (Some b2) w1) in *.
  apply (wp_the_broker _ _ _ b2); [done|]. rewrite Es, E2. pose proof (written_exchanged _ _ _ Hok (Z.le_refl _) P1) as X1.
  destruct P1 as [[Q1 Q2 Q3] T1 Hd1 Cl1].
  cbn in Q1, Q2, Q3. unfold t. rewrite <- T1.
  apply (complete_publish_friendly r1 w2 n (done.*1.*2)); [done|lia|lia|unfold UINT64_MAX; lia| |].
  { rewrite T1. by apply published_cells. }
  intros r2 w3 H3 X3 S3 T3 G3 CT3 O3. pose proof O3 as (B3&_). change (w_broker w2) with (Some b2) in B3.
  apply (wp_company _ _ _ r2 w3 H3); [apply company_stat_add|apply outside_stat_add|]. intros [] r4 w4 H4 F4 O4.
  pose proof O4 as (B4&_). rewrite B3 in B4. pose proof F4 as [[Q4 R4 G4] [CT4 _ _]]. cbn in Q4, R4, G4, CT4.
  apply wp_bind. eapply wp_mono; [apply (submit_publish_friendly r4 w4 b2 n H4 B4); [rewrite Es; lia|lia]|].
  intros [] w5 (r5&H5&X5&S5&CT5). apply (wp_rel (in_company ring)); [apply company_rest|].
  intros [] w6 [_ H6]. destruct (H6 r5 H5) as (r6&H6'&F6). exists r6. split; [done|]. split.
  - eapply friendly_in_step; [exact F6|]. split; [rewrite E1|rewrite E2]; lia.
  - assert (submission_at r4 <$> seqZ (ring_submit_head r4) n = submission_at r <$> seqZ (ring_submit_head r) n) as Esub.
    { replace (ring_submit_head r4) with (ring_submit_head r) by lia. apply list_fmap_ext.
      intros j c Hc%list_elem_of_lookup_2%elem_of_seqZ. rewrite G4, G3 by lia. apply Q3. lia. }
    rewrite Esub in X5. pose proof (exchanged_trans _ _ _ _ _ _ _ X1 X3) as Y.
    pose proof (exchanged_trans _ _ _ _ _ _ _ Y (friendly_exchanged _ _ (proj1 (proj2 H3)) F4)) as Y2.
    pose proof (exchanged_trans _ _ _ _ _ _ _ Y2 X5) as Y3.
    pose proof (exchanged_trans _ _ _ _ _ _ _ Y3 (friendly_exchanged _ _ (proj1 (proj2 H5)) F6)) as Y4.
    by rewrite !app_nil_r in Y4.
Qed.
End batch.

(** ** Serving *)

(** The broker ring_at a working lock and an idle session that is in step with
    the ring. *)
Record serving (ring : Z) (i : nat) (r : broker_ring) (b : broker) (w : world) : Prop := {
  sv_broker : w_broker w = Some b;
  sv_slot : (i < length (b_ring_sessions b))%nat;
  sv_idle : rs_busy (session_at b i) = false;
  sv_live : rs_reclaim_pending (session_at b i) = false;
  sv_step : in_step (session_at b i) r;
  sv_locks : b_lock_initialized b = true;
  sv_lock : os_mutex_lock (w_os w) = [];
  sv_ring : ring_at ring r w;
}.

(** What the client sees of one call. *)
Definition queue_service (ring : Z) (i : nat) (max : Z) (r : broker_ring) (w : world)
    (res : Z * option Z) (w' : world) : Prop :=
  ∃ r' b', serving ring i r' b' w' ∧
  ((res = (-1, Some 0) ∧ w_errno w' = EAGAIN ∧ exchanged r [] [] r' ∧
    (subs_of r = [] ∨ Z.of_nat (length (cpls_of r)) = LLAM_BROKER_RING_CAP))
   ∨ ∃ subs cpls, res = (0, Some (Z.of_nat (length subs))) ∧
       1 <= Z.of_nat (length subs) <= Z.min max LLAM_BROKER_RING_SERVE_BATCH_MAX ∧
       exchanged r subs cpls r' ∧ Forall2 (λ s, reported (sub_request_id s)) subs cpls).

Lemma end_op_errno w b :
  w_broker w = Some b → b_lock_initialized b = true → os_mutex_lock (w_os w) = [] →
  w_errno (llam_broker_end_op w).2 = w_errno w.
Proof.
  intros Hb Hl Hm. unfold llam_broker_end_op. mon. rewrite (lock_free w b Hb Hl Hm). mon.
  unfold llam_broker_tls_leave_op, on_broker. rewrite Hb. mon. destruct (tls_find_open _ _ _); mon; [|done].
  rewrite Hb. mon. repeat (branch; mon; rewrite ?Hb; mon); done.
Qed.

(** The session is as it was after the end of the call. *)
Lemma serving_end ring i r b w :
  serving ring i r b w → ∃ b', serving ring i r b' (llam_broker_end_op w).2.
Proof.
  intros [H1 H2 H3 H4 H5 H6 H7 H8]. pose proof (pres_objs_end w) as Ho. pose proof (pres_frame_end w) as [A1 A2 A3 A4].
  rewrite H1 in A1. destruct (w_broker (llam_broker_end_op w).2) as [b'|] eqn:Hb'; [|done]. injection A1 as B1 B2 B3 B4 B5 B6 B7 B8 B9 B10 B11.
  exists b'. unfold session_at in *. split; try done; unfold session_at; rewrite ?B4; try done.
  - congruence.
  - by apply A4.
  - unfold ring_at, behaves in *. by rewrite A2, A3.
Qed.

Lemma validate_friendly ring i r w b :
  ring_at ring r w → w_broker w = Some b → in_step (session_at b i) r →
  wp (llam_broker_ring_session_validate_publish_locked ring i (ring_complete_tail r))
    (λ rc w', rc = 0 ∧ outside w w' ∧ ∃ r', ring_at ring r' w' ∧ friendly r r') w.
Proof.
  intros H Hb Hst. unfold llam_broker_ring_session_validate_publish_locked.
  apply (wp_load ring _ _ _ _ r w H). intros r1 w1 H1 F1 O1 _.
  replace (ring_magic_ok r1) with true by (symmetry; apply H1). cbn [negb].
  apply (wp_load ring _ _ _ _ r1 w1 H1). intros r2 w2 H2 F2 O2 _.
  apply (wp_load ring _ _ _ _ r2 w2 H2). intros r3 w3 H3 F3 O3 _.
  pose proof (friendly_trans _ _ _ F1 F2) as F02. pose proof (friendly_trans _ _ _ F02 F3) as F03.
  destruct (friendly_in_step _ _ _ F02 Hst) as [S2 _]. destruct (friendly_in_step _ _ _ F03 Hst) as [_ T3].
  apply (wp_the_broker _ _ _ b). { by rewrite (proj1 O3), (proj1 O2), (proj1 O1). }
  rewrite S2, Z.eqb_refl, <- T3, (proj2 Hst), Z.eqb_refl. cbn [negb orb]. apply wp_ret.
  split; [done|]. split; [repeat (etrans; [eassumption|]); done|]. by exists r3.
Qed.

Lemma release_friendly ring i n r w b :
  w_broker w = Some b → (i < length (b_ring_sessions b))%nat → rs_reclaim_pending (session_at b i) = false →
  in_step (session_at b i) r → b_lock_initialized b = true → os_mutex_lock (w_os w) = [] → ring_at ring r w →
  wp (serve_release i n) (λ res w', res = (0, Some n) ∧ ∃ b', serving ring i r b' w') w.
Proof.
  intros Hb Hi Hp Hst Hl Hm H. unfold serve_release. apply (wp_the_broker _ _ _ b); [done|].
  apply wp_bind. unfold wp at 1. rewrite (set_session_run _ _ w b Hb). cbn [fst snd]. set (b1 := set_b_ring_sessions _ b).
  assert (session_at b1 i = set_rs_busy false (session_at b i)) as Es
    by (subst b1; rewrite session_at_insert, decide_True by done; done).
  apply (wp_the_broker _ _ _ b1); [done|]. rewrite Es. cbn [rs_reclaim_pending set_rs_busy]. rewrite Hp.
  apply wp_bind, wp_ret, wp_bind. unfold wp at 1. apply wp_ret. split; [done|].
  apply serving_end with b1. split; rewrite ?Es; try done. subst b1. cbn. by rewrite length_insert.
Qed.

Lemma kept_publish_batch ring i t t0 done w :
  let w' := (publish_batch ring i t t0 done w).2 in
  b_lock_initialized <$> w_broker w' = b_lock_initialized <$> w_broker w ∧ lock_kept w w'.
Proof.
  set (R := λ w w', b_lock_initialized <$> w_broker w' = b_lock_initialized <$> w_broker w ∧ lock_kept w w').
  assert (PreOrder R) as HR.
  { split; [intros x; split; [done|by intros H]|]. intros x y z [A1 A2] [B1 B2]. split; [congruence|by etrans]. }
  assert (∀ A (m : M A), pres outside m → pres R m) as Ho.
  { intros A m Hm x. destruct (Hm x) as (B&_&L). split; [by rewrite B|]. unfold lock_kept. by rewrite L. }
  assert (∀ j s, pres R (set_session j s)) as Hs.
  { intros j s x. split; [|by intros H]. unfold set_session. mon. by destruct (w_broker x). }
  cut (pres R (publish_batch ring i t t0 done)); [by intros H; apply H|]. unfold publish_batch.
  apply pres_bind; [apply _|apply Ho, outside_publish_completions|]. intros _.
  apply pres_bind; [apply _|apply Ho, outside_broker|]. intros b. apply pres_bind; [apply _|apply Hs|]. intros _.
  apply Ho. unfold llam_broker_ring_session_submit_publish. outside_walk.
Qed.

Lemma finish_friendly ring i t0 done r w b :
  let n := Z.of_nat (length done) in
  ring_at ring r w → w_broker w = Some b → (i < length (b_ring_sessions b))%nat →
  rs_reclaim_pending (session_at b i) = false → in_step (session_at b i) r →
  b_lock_initialized b = true → os_mutex_lock (w_os w) = [] →
  n <= ring_submit_tail r - ring_submit_head r →
  ring_complete_tail r + n <= ring_complete_head r + LLAM_BROKER_RING_CAP →
  ring_complete_tail r + n <= UINT64_MAX →
  wp (finish_batch ring i (ring_complete_tail r) t0 done)
    (λ res w', res = (0, Some n) ∧ ∃ r' b', serving ring i r' b' w' ∧
       exchanged r (submission_at r <$> seqZ (ring_submit_head r) n) (done.*1.*2) r') w.
Proof.
  intros n H Hb Hi Hp Hst Hl Hm N1 N2 N3. unfold finish_batch. apply wp_bind. unfold wp at 1.
  rewrite (lock_free w b Hb Hl Hm). cbn [fst snd Z.eqb negb].
  apply wp_bind. eapply wp_mono; [by apply (validate_friendly ring i r w b)|].
  intros rc w1 (->&O1&r1&H1&F1). cbn [Z.eqb negb]. pose proof O1 as (B1&_&M1). rewrite Hb in B1. rewrite Hm in M1.
  pose proof (friendly_in_step _ _ _ F1 Hst) as Hst1. pose proof F1 as [[P1 P2 P3] [T1 T2 _]]. cbn in P1, P2, P3, T1, T2.
  rewrite <- T1. apply wp_bind.
  pose proof (publish_batch_friendly ring i t0 done r1 w1 b H1 B1 Hi Hst1 ltac:(lia) ltac:(lia) ltac:(lia)) as Q1.
  pose proof (publish_batch_session ring i (ring_complete_tail r1) t0 done w1 b B1 Hi) as Q2.
  pose proof (kept_publish_batch ring i (ring_complete_tail r1) t0 done w1) as Q3.
  unfold wp in Q1, Q2. unfold wp at 1. destruct (publish_batch ring i (ring_complete_tail r1) t0 done w1) as [[] w2].
  cbn [fst snd] in *. destruct Q1 as (r2&H2&Hst2&X2). destruct Q2 as (S2&_&b2&B2&L2).
  unfold session_in in S2. rewrite B2 in S2. destruct Q3 as [L3 M3]. rewrite B1, B2 in L3. injection L3 as L3.
  eapply wp_mono; [apply (release_friendly ring i n r2 w2 b2); rewrite ?S2; try done; [lia|congruence|by apply M3]|].
  intros res w' (->&b'&Hsv). split; [done|]. exists r2, b'. split; [done|].
  replace (submission_at r <$> seqZ (ring_submit_head r) n) with (submission_at r1 <$> seqZ (ring_submit_head r1) n).
  - apply (exchanged_trans r [] [] r1); [apply friendly_exchanged; [apply H|done]|exact X2].
  - rewrite P1. apply list_fmap_ext. intros j c Hc%list_elem_of_lookup_2%elem_of_seqZ. apply P3. lia.
Qed.

Lemma take_seqZ c n m : 0 <= m <= n → take (Z.to_nat m) (seqZ c n) = seqZ c m.
Proof.
  intros H. replace n with (m + (n - m)) by lia. rewrite seqZ_app by lia.
  rewrite take_app_le by (rewrite length_seqZ; lia). rewrite take_ge; [done|]. rewrite length_seqZ. lia.
Qed.

(** The safe part of a batch, as a range of cursors. *)
Lemma safe_part_range r c n :
  1 <= n → ∃ m, 1 <= m <= n ∧ safe_part (submission_at r <$> seqZ c n) = submission_at r <$> seqZ c m.
Proof.
  intros Hn. pose proof (safe_count_bounds (submission_at r <$> seqZ c n)) as H.
  rewrite length_fmap, length_seqZ in H. specialize (H ltac:(lia)).
  exists (Z.of_nat (llam_broker_ring_authority_safe_batch_count (submission_at r <$> seqZ c n))). split; [lia|].
  unfold safe_part. rewrite <- fmap_take, <- (Nat2Z.id (llam_broker_ring_authority_safe_batch_count _)), take_seqZ by lia.
  by rewrite Nat2Z.id.
Qed.

Lemma answers_reported l done :
  Forall2 answers l done → Forall2 (λ s, reported (sub_request_id s)) l (done.*1.*2).
Proof. induction 1 as [|s e l done [_ He] _ IH]; constructor; done. Qed.

(** Claiming the session, executing and finishing. *)
Lemma execute_friendly ring i max t0 m r0 r w0 w b :
  ring_ok r0 → friendly r0 r → ring_at ring r w → w_broker w = Some b → (i < length (b_ring_sessions b))%nat →
  rs_reclaim_pending (session_at b i) = false → in_step (session_at b i) r →
  b_lock_initialized b = true → os_mutex_lock (w_os w) = [] →
  1 <= m <= Z.min max LLAM_BROKER_RING_SERVE_BATCH_MAX → m <= ring_submit_tail r - ring_submit_head r →
  ring_complete_tail r - ring_complete_head r + m <= LLAM_BROKER_RING_CAP → ring_complete_tail r + m <= UINT64_MAX →
  wp (set_session i (set_rs_busy true (session_at b i)) ;;
      llam_broker_unlock ;;
      done ← execute_all ring (submission_at r <$> seqZ (ring_submit_head r) m);
      finish_batch ring i (ring_complete_tail r) t0 done) (queue_service ring i max r0 w0) w.
Proof.
  intros Hok0 F0 H Hb Hi Hp Hst Hl Hm N1 N2 N3 N4. apply wp_bind. unfold wp at 1. rewrite (set_session_run _ _ w b Hb).
  cbn [fst snd]. set (b1 := set_b_ring_sessions _ b). set (w1 := set_w_broker (Some b1) w).
  assert (session_at b1 i = set_rs_busy true (session_at b i)) as Es
    by (subst b1; rewrite session_at_insert, decide_True by done; done).
  apply wp_bind, wp_ret, wp_bind. unfold wp at 1. set (subs := submission_at r <$> seqZ (ring_submit_head r) m).
  assert (Forall submission_wf subs) as Hwf.
  { apply Forall_fmap, Forall_true. intros c. apply submission_at_wf, H. }
  pose proof (company_execute_all ring subs Hwf w1) as [K2 C2]. pose proof (kept_execute_all ring subs w1) as T2.
  pose proof (execute_all_answers ring subs w1) as A2. destruct (C2 r H) as (r2&H2&F2).
  destruct (execute_all ring subs w1) as [done w2]. cbn [fst snd] in *. unfold tables_kept in T2.
  destruct (w_broker w2) as [b2|] eqn:B2; [|done]. cbn in T2. injection T2 as E1 E2 E3 E4 E5 E6 E7 E8 E9 E10 E11.
  assert (session_at b2 i = set_rs_busy true (session_at b i)) as Es2 by (unfold session_at; rewrite E4; exact Es).
  assert (length done = length subs) as Ld by (symmetry; by eapply Forall2_length).
  assert (Z.of_nat (length subs) = m) as Lm by (subst subs; rewrite length_fmap, length_seqZ; lia).
  pose proof F2 as [[P1 P2 P3] [T1 T2' _]]. cbn in P1, P2, P3, T1, T2'. rewrite <- T1.
  pose proof (friendly_in_step _ _ _ F2 Hst) as Hst2.
  eapply wp_mono; [apply (finish_friendly ring i t0 done r2 w2 b2); rewrite ?Es2, ?Ld, ?Lm; try done; try lia|].
  - rewrite E4. subst b1. cbn. by rewrite length_insert.
  - congruence.
  - by apply K2.
  - intros res w3 (->&r3&b3&Hsv&X3). exists r3, b3. split; [done|]. right. exists subs, (done.*1.*2).
    rewrite Ld. split_and!; [done|lia|lia| |by apply answers_reported].
    assert (submission_at r2 <$> seqZ (ring_submit_head r2) m = subs) as Esub.
    { subst subs. rewrite P1. apply list_fmap_ext. intros j c Hc%list_elem_of_lookup_2%elem_of_seqZ. apply P3. lia. }
    rewrite Ld, Lm, Esub in X3. refine (exchanged_trans r0 [] [] r2 subs _ r3 _ X3).
    apply friendly_exchanged; [done|]. by eapply friendly_trans.
Qed.

(** C9: Serving refines a pair of queues.  For a client that keeps to its side
    of the protocol, in every interleaving with its accesses, one call on an
    idle session takes the oldest pending submissions (at least one, at most as
    many as asked for and at most 32), answers each of them in order by a
    completion with its request id, appends the completions in the same order,
    and leaves the session idle and in step with the ring for the next call; or
    it reports EAGAIN, with the queues untouched by the broker, and then nothing
    was pending or there was no room for a completion.  Such a client is never
    dropped. *)
Theorem ring_serve_refines_queue ring i max r b w :
  serving ring i r b w → 0 < max →
  ring_complete_tail r + LLAM_BROKER_RING_SERVE_BATCH_MAX <= UINT64_MAX →
  wp (llam_broker_ring_serve_locked_session_batch ring i max (Some 0)) (queue_service ring i max r w) w.
Proof.
  intros [Hb Hi Hidle Hlive Hst Hl Hm H] Hmax Htop. unfold llam_broker_ring_serve_locked_session_batch. cbn [is_null].
  apply (wp_company ring _ _ _ r w H); [apply company_now|apply outside_now|]. intros t0 r1 w1 H1 F1 O1.
  pose proof O1 as (B1&_&M1). rewrite Hb in B1. rewrite Hm in M1. pose proof (friendly_in_step _ _ _ F1 Hst) as Hst1.
  apply wp_bind. eapply wp_mono; [by apply (reserve_friendly ring i max r1 w1 b)|].
  intros res w2 (O2&r2&H2&F2&Hres). pose proof O2 as (B2&_&M2). rewrite B1 in B2. rewrite M1 in M2.
  pose proof (friendly_trans _ _ _ F1 F2) as F02. pose proof (friendly_in_step _ _ _ F02 Hst) as Hst2.
  pose proof H as (_&Hok&_).
  destruct Hres as [(->&He&Hwhy)|(n&->&N1&N2&N3)].
  - apply wp_bind, wp_ret, wp_bind. unfold wp at 1. apply wp_ret.
    destruct (serving_end ring i r2 b w2) as [b' Hsv]; [by split|].
    exists r2, b'. split; [done|]. left. split_and!; [done|by rewrite (end_op_errno w2 b)|by apply friendly_exchanged|].
    destruct Hwhy as [E|E]; [left|right].
    + destruct (produces_queue _ _ _ (proj1 Hok) (proj1 F1)) as [added Ea]. rewrite E in Ea. by destruct (subs_of r).
    + destruct (consumes_queue _ _ _ (proj2 F1)) as [taken Et].
      pose proof (lane_length ring_completion r (proj2 Hok)) as L. pose proof (window_cpl r Hok) as W.
      apply (f_equal length) in Et. rewrite length_app in Et. cbn in L. lia.
  - destruct (safe_part_range r2 (rs_submit_head (session_at b i)) n ltac:(lia)) as (m&Hm'&Esafe).
    destruct Hst2 as [S2 T2]. rewrite S2, T2 in *.
    rewrite (proj2 (Nat.eqb_neq _ _)) by (pose proof (safe_count_bounds (submission_at r2 <$> seqZ (ring_submit_head r2) n));
      rewrite length_fmap, length_seqZ in *; lia).
    apply (wp_the_broker _ _ _ b); [done|]. fold (safe_part (submission_at r2 <$> seqZ (ring_submit_head r2) n)).
    rewrite Esafe. pose proof F02 as [_ [Tr _ _]]. cbn in Tr. unfold UINT64_MAX, LLAM_BROKER_RING_SERVE_BATCH_MAX in *.
    apply (execute_friendly ring i max t0 m r r2 w w2 b); try done; try (unfold UINT64_MAX, LLAM_BROKER_RING_SERVE_BATCH_MAX; lia).
Qed.

(** ** Witness *)

(** A client that takes a completion whenever there is one. *)
Definition take_completion (r : broker_ring) : broker_ring :=
  if ring_complete_head r <? ring_complete_tail r
  then set_ring_complete_head (ring_complete_head r + 1) r else r.

Lemma take_completion_behaves r :
  ring_ok r → friendly r (shaped (take_completion r)) ∧ ring_ok (shaped (take_completion r)).
Proof.
  intros Hok. unfold take_completion. branch; bools.
  - destruct Hok as [O1 O2]. pose proof O2 as (_&_&_&_&B). cbn in B.
    assert (lane_ok ring_completion (set_ring_complete_head (ring_complete_head r + 1) r)) as O2'.
    { refine (release_ok ring_completion (ring_complete_head r + 1) r O2 _). cbn. lia. }
    pose proof O2' as (W&G&_). rewrite shaped_id by done.
    split; [split|split; [|done]].
    + by apply produces_refl in O1 as [].
    + split; [done|cbn; lia|done].
    + destruct O1 as (_&_&O1). by split.
  - pose proof Hok as [(W&G&_) _]. rewrite shaped_id by done. split; [by apply friendly_refl|done].
Qed.

Definition friendly_world : world := serving_world (replicate 30 take_completion) one_pending.

Lemma friendly_world_serving : serving 5 0 one_pending serving_broker friendly_world.
Proof.
  split; try done; [vm_compute; lia|]. split; [reflexivity|]. split; [split; apply one_pending_ok|].
  apply Forall_replicate. apply take_completion_behaves.
Qed.

Lemma ring_serve_refines_queue_witness :
  queue_service 5 0 8 one_pending friendly_world
    (llam_broker_ring_serve_locked_session_batch 5 0 8 (Some 0) friendly_world).1
    (llam_broker_ring_serve_locked_session_batch 5 0 8 (Some 0) friendly_world).2
  ∧ (llam_broker_ring_serve_locked_session_batch 5 0 8 (Some 0) friendly_world).1 = (0, Some 1).
Proof.
  split; [|vm_compute; reflexivity].
  apply (ring_serve_refines_queue 5 0 8 one_pending serving_broker friendly_world friendly_world_serving); done.
Defined.
