(* ===== verification/Advance.v ===== *)
(** * The broker only moves forward

    Every operation of the broker, also one that runs for another subject or
    gives up half-way, keeps the invariant of its tables and moves it forward in
    the order [broker_le]: generations and object ids grow, rights shrink, the
    revocation epoch never returns.  What was taken away therefore stays taken
    away: a token that named a dead object, or an older epoch, is never
    authority again. *)

From S2P Require Import Prelude Mix World Capability BrokerOps BrokerCore BrokerBuffer BrokerChannel.
From S2P Require Import BrokerRevoke BrokerDescriptor BrokerTask Ring RingMap BrokerSession Rollback BrokerFrame.
From S2P Require Import RingServe.

(** What every operation of the broker guarantees, also one that runs for
    another subject: the thread's frames stay well formed and the broker evolves. *)
Definition advance (w w' : world) : Prop :=
  world_ok w → world_ok w' ∧
  ∀ b, w_broker w = Some b → ∃ b', w_broker w' = Some b' ∧ evolve b b'.

#[export] Instance advance_preorder : PreOrder advance.
Proof.
  split.
  - intros w Hok. split; [done|]. intros b Hb. exists b. split; [done|reflexivity].
  - intros x y z S1 S2 Hx. destruct (S1 Hx) as [Hy E1]. destruct (S2 Hy) as [Hz E2]. split; [done|].
    intros b Hb. destruct (E1 b Hb) as (b1&Hb1&L1). destruct (E2 b1 Hb1) as (b2&Hb2&L2).
    exists b2. split; [done|by etrans].
Qed.

Lemma step_advance w w' : step w w' → advance w w'.
Proof. intros S Hok. split; [by eapply step_world_ok|]. by apply S. Qed.

Lemma pres_step_advance {A} (m : M A) : pres step m → pres advance m.
Proof. intros H w. apply step_advance, H. Qed.

Lemma pres_rel_advance {A} (m : M A) : pres task_rel m → pres advance m.
Proof. intros H w. apply step_advance, (H w). Qed.

Lemma advance_same w w' : w_broker w' = w_broker w → w_tls w' = w_tls w → advance w w'.
Proof.
  intros Hb Ht Hok. unfold world_ok. rewrite Hb, Ht. split; [done|]. intros b H. exists b. split; [done|reflexivity].
Qed.

Lemma advance_upd f : (∀ b, evolve b (f b)) → pres advance (upd_broker f).
Proof. intros Hf w. apply step_advance, step_upd. intros b _. apply Hf. Qed.

(** ** Primitives *)

Lemma advance_pop {A} (tape : os → list A) set_tape dflt : pres advance (pop tape set_tape dflt).
Proof. intros w. unfold pop. destruct (tape (w_os w)); by apply advance_same. Qed.

Lemma advance_errno e : pres advance (set_errno e).
Proof. intros w. by apply advance_same. Qed.

Lemma advance_get_errno : pres advance get_errno.
Proof. intros w. by apply advance_same. Qed.

Lemma advance_fail e : pres advance (fail e).
Proof. intros w. by apply advance_same. Qed.

Lemma advance_log e : pres advance (log e).
Proof. intros w. by apply advance_same. Qed.

Lemma advance_broker : pres advance the_broker.
Proof. intros w. by apply advance_same. Qed.

Lemma advance_unlock : pres advance llam_broker_unlock.
Proof. intros w. by apply advance_same. Qed.

Lemma advance_lock : pres advance llam_broker_lock.
Proof. apply pres_step_advance, step_lock. Qed.

Lemma advance_upd_ring ring f : pres advance (upd_ring ring f).
Proof. intros w. by apply advance_same. Qed.

Create HintDb llam_advance discriminated.
#[export] Hint Resolve advance_pop advance_errno advance_get_errno advance_fail advance_log advance_broker
  advance_unlock advance_lock advance_upd_ring : llam_advance.

Ltac advance_step :=
  first
    [ assumption
    | solve [auto with llam_advance]
    | by apply pres_ret, _
    | by apply pres_gets, _
    | apply pres_on_broker; [|intros ?]
    | apply pres_if
    | apply pres_for_each; [apply _|intros ?]
    | apply pres_bind; [apply _| |intros ?]
    | progress case_match ].

Ltac advance_walk := repeat advance_step.

Lemma advance_begin s : pres advance (llam_broker_begin_op_subject s).
Proof.
  intros w Hok. pose proof (pres_objs_begin s w) as Ho. destruct (w_broker w) as [b|] eqn:Hb.
  - destruct (begin_spec s w b Hb (proj2 Hok b Hb) (proj1 Hok)) as [[_ (C1&_&C3)]|(_&_&C1&Hen&_)].
    + split; [|intros b0 [= <-]; exists b; split; [by rewrite C1|reflexivity]].
      unfold world_ok. by rewrite C1, C3.
    + split; [split; [apply Hen|]|].
      * intros b0 Hb0. rewrite C1 in Hb0. injection Hb0 as <-. exact (proj2 Hok b Hb).
      * intros b0 [= <-]. eexists. split; [exact C1|apply evolve_active].
  - split; [|done]. unfold llam_broker_begin_op_subject, llam_broker_lock, on_broker. mon. rewrite Hb. mon.
    by apply (advance_same w).
Qed.

Lemma advance_begin_op : pres advance llam_broker_begin_op.
Proof. apply advance_begin. Qed.

Lemma advance_end : pres advance llam_broker_end_op.
Proof.
  intros w Hok. destruct (w_broker w) as [b|] eqn:Hb.
  - destruct (end_spec w b Hb (proj2 Hok b Hb) (proj1 Hok)) as [_ [(C1&C3&_)|(C1&[C3 _ _])]].
    + split; [|intros b0 [= <-]; exists b; split; [by rewrite C1|reflexivity]].
      unfold world_ok. by rewrite C1, C3.
    + split; [split; [done|]|].
      * intros b0 Hb0. rewrite C1 in Hb0. injection Hb0 as <-. exact (proj2 Hok b Hb).
      * intros b0 [= <-]. eexists. split; [exact C1|apply evolve_active].
  - split; [|done]. unfold llam_broker_end_op, llam_broker_lock, on_broker. mon. rewrite Hb. mon.
    by apply (advance_same w).
Qed.

Lemma advance_subject : pres advance llam_broker_current_subject.
Proof. unfold llam_broker_current_subject. advance_walk. Qed.

#[export] Hint Resolve advance_begin advance_begin_op advance_end advance_subject : llam_advance.

(** ** Object operations *)

Lemma advance_validate t r : pres advance (llam_broker_validate_cap t r).
Proof. apply pres_step_advance, step_validate_cap. Qed.

Lemma advance_attenuate t r o : pres advance (llam_broker_attenuate_cap t r o).
Proof. apply pres_step_advance, step_attenuate_cap. Qed.

Lemma advance_revoke t r o : pres advance (llam_broker_revoke_object_cap t r o).
Proof. apply pres_step_advance, step_revoke_object_cap. Qed.

Lemma advance_revoke_all : pres advance llam_broker_revoke_all.
Proof. apply pres_step_advance, step_revoke_all. Qed.

Lemma advance_read_buffer t off o len : 0 <= len → pres advance (llam_broker_read_buffer t off o len).
Proof. intros. by apply pres_step_advance, step_read_buffer. Qed.

Lemma advance_write_buffer t off d len :
  is_u64 off → is_u64 len → pres advance (llam_broker_write_buffer t off d len).
Proof. intros. by apply pres_step_advance, step_write_buffer. Qed.

Lemma advance_register_buffer d len r o : 0 <= len → pres advance (llam_broker_register_buffer d len r o).
Proof. intros. by apply pres_step_advance, step_register_buffer. Qed.

Lemma advance_create_channel c r o : 0 <= c → pres advance (llam_broker_create_channel c r o).
Proof. intros. by apply pres_step_advance, step_create_channel. Qed.

Lemma advance_channel_send t d len : 0 <= len → pres advance (llam_broker_channel_send t d len).
Proof. intros. by apply pres_step_advance, step_channel_send. Qed.

Lemma advance_channel_recv t o len : 0 <= len → pres advance (llam_broker_channel_recv t o len).
Proof. intros. by apply pres_step_advance, step_channel_recv. Qed.

Lemma advance_channel_close t : pres advance (llam_broker_channel_close t).
Proof. apply pres_step_advance, step_channel_close. Qed.

Lemma advance_read_handle t o len : 0 <= len → pres advance (llam_broker_read_handle t o len).
Proof. intros. by apply pres_step_advance, step_read_handle. Qed.

Lemma advance_write_handle t d len : pres advance (llam_broker_write_handle t d len).
Proof. apply pres_step_advance, step_write_handle. Qed.

Lemma advance_register_handle h r c o : pres advance (llam_broker_register_handle h r c o).
Proof. apply pres_step_advance, step_register_handle. Qed.

Lemma advance_spawn k a r o : pres advance (llam_broker_spawn_task k a r o).
Proof. apply pres_rel_advance, rel_spawn_task. Qed.

Lemma advance_join_task t o : pres advance (llam_broker_join_task t o).
Proof. apply pres_rel_advance, rel_join_task. Qed.

Lemma advance_detach_task t : pres advance (llam_broker_detach_task t).
Proof. apply pres_rel_advance, rel_detach_task. Qed.

Lemma advance_drive_allowed t o : pres advance (llam_broker_task_join_runtime_drive_allowed t o).
Proof. apply pres_rel_advance, rel_drive_allowed. Qed.

Lemma advance_run_handle : pres advance llam_runtime_run_handle.
Proof. apply pres_rel_advance, rel_run_handle. Qed.

#[export] Hint Resolve advance_validate advance_attenuate advance_revoke advance_revoke_all advance_read_buffer
  advance_write_buffer advance_register_buffer advance_create_channel advance_channel_send advance_channel_recv
  advance_channel_close advance_read_handle advance_write_handle advance_register_handle advance_spawn
  advance_join_task advance_detach_task advance_drive_allowed advance_run_handle : llam_advance.

(** ** Mappings and sessions *)

Lemma advance_client ring : pres advance (client_step ring).
Proof. intros w. unfold client_step. destruct (os_client (w_os w)); by apply advance_same. Qed.

#[export] Hint Resolve advance_client : llam_advance.

Lemma advance_load {A} ring (f : broker_ring → A) d : pres advance (ring_load ring f d).
Proof. unfold ring_load, load_ring. advance_walk. Qed.

Lemma advance_store ring f : pres advance (store_ring ring f).
Proof. unfold store_ring. advance_walk. Qed.

#[export] Hint Resolve @advance_load advance_store : llam_advance.

Lemma advance_ring_valid ring : pres advance (llam_broker_ring_valid ring).
Proof. unfold llam_broker_ring_valid. advance_walk. Qed.

Lemma advance_stat_add ring i v : pres advance (llam_broker_ring_broker_stat_add ring i v).
Proof. unfold llam_broker_ring_broker_stat_add. advance_walk. Qed.

Lemma advance_stat_max ring i v : pres advance (llam_broker_ring_broker_stat_max ring i v).
Proof. unfold llam_broker_ring_broker_stat_max. advance_walk. Qed.

Lemma advance_close fd : pres advance (sys_close fd).
Proof. unfold sys_close. advance_walk. Qed.

Lemma advance_unmap m : pres advance (llam_broker_ring_unmap m).
Proof. unfold llam_broker_ring_unmap, sys_munmap, sys_shm_unlink. advance_walk. Qed.

#[export] Hint Resolve advance_ring_valid advance_stat_add advance_stat_max advance_close advance_unmap
  : llam_advance.

Lemma advance_set_session i s : pres advance (set_session i s).
Proof. apply advance_upd. intros b. apply evolve_ring_sessions. Qed.

Lemma advance_set_transport i s : pres advance (set_transport i s).
Proof. apply advance_upd. intros b. apply evolve_transport_sessions. Qed.

#[export] Hint Resolve advance_set_session advance_set_transport : llam_advance.

Lemma advance_take i o : pres advance (llam_broker_ring_session_take_mapping i o).
Proof. unfold llam_broker_ring_session_take_mapping. advance_walk. Qed.

#[export] Hint Resolve advance_take : llam_advance.

Lemma advance_session_get ring s o : pres advance (llam_broker_ring_session_get ring s o).
Proof. unfold llam_broker_ring_session_get. advance_walk. Qed.

Lemma advance_unmap_reclaimed m : pres advance (unmap_reclaimed m).
Proof. unfold unmap_reclaimed. advance_walk. Qed.

Lemma advance_fixed_extent m : pres advance (llam_broker_ring_mapping_require_fixed_extent m).
Proof. unfold llam_broker_ring_mapping_require_fixed_extent, sys_fcntl. advance_walk. Qed.

#[export] Hint Resolve advance_session_get advance_unmap_reclaimed advance_fixed_extent : llam_advance.

Lemma advance_register_mapping m s o : pres advance (llam_broker_ring_register_mapping m s o).
Proof. unfold llam_broker_ring_register_mapping, register_refused. advance_walk. Qed.

Lemma advance_begin_locked id s : pres advance (llam_broker_ring_begin_locked_owned_session id s).
Proof. unfold llam_broker_ring_begin_locked_owned_session. advance_walk. Qed.

#[export] Hint Resolve advance_register_mapping advance_begin_locked : llam_advance.

Lemma advance_forget_session id s : pres advance (llam_broker_ring_forget_session id s).
Proof. unfold llam_broker_ring_forget_session. advance_walk. Qed.

Lemma advance_reclaim_ring_slots s n : ∀ i, pres advance (reclaim_ring_slots s n i).
Proof.
  induction n as [|n IH]; intros i; cbn [reclaim_ring_slots]; unfold reclaim_ring_slot; advance_walk; apply IH.
Qed.

Lemma advance_unmap_all l : pres advance (unmap_all l).
Proof. induction l as [|m l IH]; cbn [unmap_all]; advance_walk. Qed.

#[export] Hint Resolve advance_forget_session advance_reclaim_ring_slots advance_unmap_all : llam_advance.

Lemma advance_reclaim_rings s : pres advance (llam_broker_reclaim_subject_rings s).
Proof. unfold llam_broker_reclaim_subject_rings. advance_walk. Qed.

Lemma advance_reclaim_buffers s : pres advance (llam_broker_reclaim_subject_buffers s).
Proof. apply pres_step_advance, step_reclaim_buffers. Qed.

Lemma advance_reclaim_descriptors s : pres advance (llam_broker_reclaim_subject_descriptors s).
Proof. apply pres_step_advance, step_reclaim_descriptors. Qed.

Lemma advance_reclaim_channels s : pres advance (llam_broker_reclaim_subject_channels s).
Proof. apply pres_step_advance, step_reclaim_channels. Qed.

Lemma advance_reclaim_tasks s : pres advance (llam_broker_reclaim_subject_tasks s).
Proof. apply pres_rel_advance, rel_reclaim_tasks. Qed.

#[export] Hint Resolve advance_reclaim_rings advance_reclaim_buffers advance_reclaim_descriptors
  advance_reclaim_channels advance_reclaim_tasks : llam_advance.

Lemma advance_reclaim_objects s : pres advance (llam_broker_reclaim_subject_objects s).
Proof. unfold llam_broker_reclaim_subject_objects. advance_walk. Qed.

#[export] Hint Resolve advance_reclaim_objects : llam_advance.

Lemma advance_mint n id i : pres advance (mint_subject n id i).
Proof.
  induction n as [|n IH]; cbn [mint_subject]; [advance_walk|].
  apply pres_bind; [apply _|apply advance_upd; intros b; apply evolve_subject_nonce|intros _].
  unfold llam_broker_new_transport_subject, llam_public_slot_entropy_from_os. advance_walk.
Qed.

#[export] Hint Resolve advance_mint : llam_advance.

Lemma advance_transport_subject id o : pres advance (llam_broker_transport_subject id o).
Proof. unfold llam_broker_transport_subject. advance_walk. Qed.

Lemma advance_forget_transport id : pres advance (llam_broker_forget_transport_subject id).
Proof. unfold llam_broker_forget_transport_subject. advance_walk. Qed.

#[export] Hint Resolve advance_transport_subject advance_forget_transport : llam_advance.

(** ** Undoing a grant *)

Lemma advance_buffer_reset i : pres advance (llam_broker_buffer_slot_reset i).
Proof. apply pres_step_advance, step_buffer_reset. Qed.

Lemma advance_channel_reset i : pres advance (upd_channel i (λ _, zero_channel_slot)).
Proof. apply pres_step_advance, step_channel_reset. Qed.

Lemma advance_close_owned s : pres advance (llam_broker_descriptor_close_owned_slot s).
Proof. unfold llam_broker_descriptor_close_owned_slot. advance_walk. Qed.

Lemma advance_descriptor_reset i : pres advance (llam_broker_descriptor_reset_slot i).
Proof. apply pres_step_advance, step_descriptor_reset. Qed.

Lemma advance_task_reset i : pres advance (set_task i zero_task_slot).
Proof. apply pres_step_advance, step_task_reset. Qed.

#[export] Hint Resolve advance_buffer_reset advance_channel_reset advance_close_owned advance_descriptor_reset
  advance_task_reset : llam_advance.

Lemma advance_task_detached b i s w :
  w_broker w = Some b → b_tasks b !! i = Some s → ts_state s = TASK_STATE_SPAWNED →
  advance w (set_task i (set_ts_rights 0 (set_ts_state TASK_STATE_DETACHED s)) w).2.
Proof.
  intros Hb Hi Hs. unfold set_task, upd_broker, modify. mon. rewrite Hb. cbn.
  apply step_advance. eapply (step_with_task w w); [done|done|done|]. by apply task_step_detached; auto.
Qed.

Lemma advance_rollback_token t : pres advance (llam_broker_rollback_response_token_locked t).
Proof.
  intros w. unfold llam_broker_rollback_response_token_locked, on_broker.
  destruct (w_broker w) as [b|] eqn:Hb; [|reflexivity]. destruct t as [t|]; [|reflexivity].
  destruct (_ =? _); [revert w Hb; intros w _; revert w; advance_walk|].
  destruct (_ =? _); [revert w Hb; intros w _; revert w; advance_walk|].
  destruct (_ =? _); [revert w Hb; intros w _; revert w; advance_walk|].
  destruct (_ =? _); [|reflexivity]. destruct (named_slot t (b_tasks b)) as [i|] eqn:Hn; [|reflexivity].
  apply named_slot_some in Hn as (s&Hi&_). rewrite (task_at_lookup _ _ _ Hi).
  destruct (ts_state s) eqn:Es; try reflexivity.
  - exact (advance_task_detached b i s w Hb Hi Es).
  - apply (advance_task_reset i w).
Qed.

Lemma advance_detach t : pres advance (llam_detach t).
Proof. unfold llam_detach. advance_walk. Qed.

#[export] Hint Resolve advance_rollback_token advance_detach : llam_advance.

Lemma advance_rollback rq rp s : pres advance (llam_broker_rollback_created_response rq rp s).
Proof. unfold llam_broker_rollback_created_response. advance_walk. Qed.

#[export] Hint Resolve advance_rollback : llam_advance.

(** ** Serving rings *)

Lemma advance_put ring off bytes : pres advance (put_bytes ring off bytes).
Proof. unfold put_bytes. advance_walk. Qed.

Lemma advance_now : pres advance llam_now_ns.
Proof. unfold llam_now_ns. advance_walk. Qed.

Lemma advance_range off len : pres advance (llam_broker_ring_data_range off len).
Proof. unfold llam_broker_ring_data_range. advance_walk. Qed.

Lemma advance_fail_errno c : pres advance (llam_broker_ring_completion_fail_errno c).
Proof. unfold llam_broker_ring_completion_fail_errno. advance_walk. Qed.

#[export] Hint Resolve advance_put advance_now advance_range advance_fail_errno : llam_advance.

Lemma advance_clear ring off len : pres advance (llam_broker_ring_clear_output ring off len).
Proof. unfold llam_broker_ring_clear_output. advance_walk. Qed.

#[export] Hint Resolve advance_clear : llam_advance.

Lemma advance_finish_token ring off len c t : pres advance (finish_token ring off len c t).
Proof. unfold finish_token. advance_walk. Qed.

Lemma advance_finish_read ring off len c n : pres advance (finish_read ring off len c n).
Proof. unfold finish_read, llam_broker_ring_clear_output_suffix. advance_walk. Qed.

Lemma advance_ring_bytes ring off len : pres advance (ring_bytes ring off len).
Proof. unfold ring_bytes. advance_walk. Qed.

#[export] Hint Resolve advance_finish_token advance_finish_read advance_ring_bytes : llam_advance.

Lemma advance_read_into ring off len read : (∀ o, pres advance (read o)) → pres advance (read_into ring off len read).
Proof. intros H. unfold read_into. advance_walk. Qed.

(** The range an operation gets is the one it asked for. *)
Lemma advance_in_range off len c k :
  pres advance (k off len) → pres advance (in_range off len c k).
Proof.
  intros Hk w. unfold in_range. mon. destruct (data_range_cases off len w) as [(->&_)|[-> _]]; mon; [apply Hk|].
  by apply advance_same.
Qed.

Lemma advance_execute_op ring s c : submission_wf s → pres advance (execute_op ring s c).
Proof.
  intros (_&_&U0&U1&U2). assert (0 <= sub_arg1 s) as Hlen by (unfold is_u64 in U1; lia). unfold execute_op.
  repeat first [apply advance_in_range | apply advance_read_into; intros ? | advance_step].
Qed.

Lemma advance_execute ring s :
  submission_wf s → pres advance (llam_broker_ring_execute_submission ring s).
Proof.
  intros Hs. pose proof (advance_execute_op ring s). unfold llam_broker_ring_execute_submission, execute_spawn.
  advance_walk.
Qed.

Lemma advance_execute_all ring l : Forall submission_wf l → pres advance (execute_all ring l).
Proof.
  induction 1 as [|s l Hs _ IH]; cbn [execute_all]; [advance_walk|].
  pose proof (advance_execute ring s Hs). advance_walk.
Qed.

Lemma advance_copy ring n : ∀ head, pres advance (copy_submissions ring head n).
Proof. induction n as [|n IH]; intros head; cbn [copy_submissions]; advance_walk. Qed.

#[export] Hint Resolve advance_copy : llam_advance.

Lemma advance_reserve ring i n : pres advance (llam_broker_ring_session_reserve_batch ring i n).
Proof. unfold llam_broker_ring_session_reserve_batch. advance_walk. Qed.

Definition batch_wf (r : option (list ring_submission * Z)) : Prop :=
  ∀ subs tail, r = Some (subs, tail) → Forall submission_wf subs.

Lemma reserve_wf ring i n : gives batch_wf (llam_broker_ring_session_reserve_batch ring i n).
Proof.
  unfold llam_broker_ring_session_reserve_batch.
  assert (∀ e, gives batch_wf (set_errno e ;; mret None)) as Hr by (intros e w subs tail [=]).
  repeat first
    [ apply Hr
    | apply gives_if; intros _
    | eapply gives_bind_out; [apply copy_wf|]; intros subs Hs; apply gives_ret; intros l t [= <- <-]; exact Hs
    | apply gives_bind; intros ? ].
Qed.

Lemma advance_rollback_unpublished l : pres advance (llam_broker_ring_rollback_unpublished_tasks l).
Proof.
  induction l as [|[[s c] [t|]] l IH]; cbn [llam_broker_ring_rollback_unpublished_tasks]; advance_walk.
Qed.

Lemma advance_clear_outputs ring l : pres advance (clear_outputs ring l).
Proof.
  induction l as [|[[s c] t] l IH]; cbn [clear_outputs]; [advance_walk|].
  unfold llam_broker_ring_clear_submission_output. advance_walk.
Qed.

Lemma advance_publish_completions ring l : ∀ tail, pres advance (publish_completions ring tail l).
Proof. induction l as [|[[s c] t] l IH]; intros tail; cbn [publish_completions]; advance_walk. Qed.

#[export] Hint Resolve advance_reserve advance_rollback_unpublished advance_clear_outputs
  advance_publish_completions : llam_advance.

Lemma advance_serve_locked ring i max o :
  pres advance (llam_broker_ring_serve_locked_session_batch ring i max o).
Proof.
  unfold llam_broker_ring_serve_locked_session_batch. apply pres_if; [advance_walk|].
  apply pres_bind; [apply _|advance_walk|intros t0].
  eapply pres_bind_out; [apply _|advance_walk|apply reserve_wf|]. intros [[subs tail]|] Hwf; [|advance_walk].
  pose proof (advance_execute_all ring _ (Forall_take _ (llam_broker_ring_authority_safe_batch_count subs) _
    (Hwf subs tail eq_refl))).
  unfold llam_broker_ring_session_validate_publish_locked, serve_poisoned, publish_batch, serve_release,
    llam_broker_ring_session_submit_publish. advance_walk.
Qed.

#[export] Hint Resolve advance_serve_locked : llam_advance.

Lemma advance_serve_session id s max o : pres advance (llam_broker_ring_serve_session_batch id s max o).
Proof. unfold llam_broker_ring_serve_session_batch. advance_walk. Qed.

Lemma advance_serve_batch ring s max o : pres advance (llam_broker_ring_serve_batch_subject ring s max o).
Proof. unfold llam_broker_ring_serve_batch_subject. advance_walk. Qed.

#[export] Hint Resolve advance_serve_session advance_serve_batch : llam_advance.

(** ** Creating a ring *)

Lemma advance_dup fd : pres advance (llam_broker_dup_cloexec_fd fd).
Proof. unfold llam_broker_dup_cloexec_fd, llam_broker_set_cloexec_fd, sys_dup, sys_fcntl. advance_walk. Qed.

#[export] Hint Resolve advance_dup : llam_advance.

Lemma advance_init_mapping m : pres advance (init_mapping m).
Proof. unfold init_mapping, llam_broker_ring_init. advance_walk. Qed.

Lemma advance_map_posix name fd owner : pres advance (llam_broker_ring_map_posix_fd name fd owner).
Proof.
  assert (∀ a, pres advance (modify (λ w, set_w_rings (<[a := zero_ring]> (w_rings w)) w)))
    by (intros a w; by apply advance_same).
  unfold llam_broker_ring_map_posix_fd, llam_broker_ring_set_cloexec_fd, sys_fcntl, sys_mmap. advance_walk.
Qed.

#[export] Hint Resolve advance_init_mapping advance_map_posix : llam_advance.

Lemma advance_create_private o : pres advance (llam_broker_ring_create_private_fd o).
Proof.
  unfold llam_broker_ring_create_private_fd, sys_open, sys_ftruncate, sys_fcntl, fail_after. advance_walk.
Qed.

#[export] Hint Resolve advance_create_private : llam_advance.

(** ** Lost authority stays lost *)

Section between.
Context `{BrokerSlot T} (next0 next1 next2 : Z) (tbl0 tbl1 tbl2 : list T) (t : capability_token).

(** What the token named at first and names at the end, it named in between. *)
Lemma slot_live_between r0 r :
  table_ok next0 tbl0 → table_le next0 tbl0 next1 tbl1 → table_le next1 tbl1 next2 tbl2 →
  slot_live t r0 tbl0 = true → slot_live t r tbl2 = true → slot_live t r tbl1 = true.
Proof.
  intros Hok [N01 L01] [N12 L12] (i&s&Hi&Hm&_)%slot_live_spec (k&s2&Hk&Hm2&Hr)%slot_live_spec.
  apply slot_matches_spec in Hm as (A0&I0&G0). pose proof Hm2 as (A2&I2&G2)%slot_matches_spec.
  destruct (to_slot _ _ Hok i s Hi A0) as (Hid&_).
  destruct (L12 k s2 Hk A2) as [?|(j&s1&Hj&[A1 I1 G1 _ R1 _])]; [lia|].
  destruct (L01 j s1 Hj A1) as [?|(i'&s'&Hi'&[A' I' G' _ R' _])]; [lia|].
  assert (i' = i) as -> by (eapply (to_unique _ _ Hok); eauto; congruence).
  assert (s' = s) as -> by congruence. apply slot_live_spec. exists j, s1. split_and!; [done| |].
  - apply slot_matches_spec. split_and!; [done|congruence|lia].
  - eapply has_bits_trans; [apply R1; lia|done].
Qed.
End between.

Lemma live_between b0 b1 b2 t r0 r :
  broker_ok b0 → broker_le b0 b1 → broker_le b1 b2 →
  live_in b0 t r0 = true → live_in b2 t r = true → live_in b1 t r = true.
Proof.
  intros [] [] []. unfold live_in.
  repeat (destruct (_ =? _); [by eapply slot_live_between|]). done.
Qed.

(** Authority that was there and is gone does not come back. *)
Lemma authority_between b0 b1 b2 t subj0 r0 subj r :
  broker_ok b0 → broker_le b0 b1 → broker_le b1 b2 →
  authorized b0 subj0 t r0 → authorized b2 subj t r → authorized b1 subj t r.
Proof.
  intros Hok L1 L2 [V0 _ A0] [V2 R2 A2]. split.
  - rewrite (ble_key _ _ L2) in V2. assert (b_revocation_epoch b2 = b_revocation_epoch b1) as E; [|by rewrite <- E].
    pose proof (cv_epoch _ _ _ _ _ V0). pose proof (cv_epoch _ _ _ _ _ V2).
    pose proof (cv_epoch_nonzero _ _ _ _ _ V2). pose proof (ble_epoch _ _ L1). pose proof (ble_epoch _ _ L2).
    unfold epoch_le in *. lia.
  - by rewrite (ble_runtime _ _ L2) in R2.
  - by eapply live_between.
Qed.
