(* ===== verification/Books.v ===== *)
(** * The books of the process

    Descriptors and mapped memory have one owner at a time: a slot, a session,
    or the code that is running.  This file shows that every operation of the
    broker keeps the books (tidy): what the process holds beyond what slots
    and sessions own is the same before and after, through revocation, rollback
    and reclamation, and through serving a ring whose client tampers with it. *)

From S2P Require Import Prelude Mix World Capability BrokerOps BrokerCore BrokerBuffer BrokerChannel.
From S2P Require Import BrokerRevoke BrokerDescriptor BrokerTask Ring RingMap BrokerSession Rollback BrokerFrame.
From S2P Require Import RingServe Advance.

(** ** Object operations *)

Lemma fd_view_owned k b b' : fd_view b' = fd_view b → res_owned descriptors k b' = res_owned descriptors k b.
Proof.
  unfold fd_view. cbn [res_owned descriptors]. intros H.
  assert (∀ l, count_if (owns k) l = count_if (λ x, x.2 && (x.1 =? k)) ((λ s, (ds_fd s, ds_close_on_destroy s)) <$> l)) as E.
  { induction l as [|s l IH]; [done|]. cbn. by rewrite IH. }
  by rewrite !E, H.
Qed.

#[export] Instance ledger_frame : Frame (ledger descriptors).
Proof.
  split; [apply _| | | | |].
  - intros w w' H1 _ H2 k _. unfold unowned, owned. by rewrite H1, H2.
  - intros A tape set_tape dflt _ _ H w k _. unfold pop, unowned, owned. destruct (tape (w_os w)); [done|]. cbn. by rewrite H.
  - intros w k _. unfold pop. by destruct (os_mutex_lock (w_os w)).
  - intros e He w k _. unfold unowned, owned. cbn. by destruct e.
  - intros f Hf w k _. unfold unowned, owned. cbn. destruct (w_broker w) as [b|]; [|done]. cbn [fmap option_fmap option_map].
    pose proof (fd_view_owned k b (f b) (proj2 (Hf b))) as H. cbn in H. cbn. by rewrite H.
Qed.

Lemma booked_aside F w w' :
  aside w w' → (∀ k, 0 <= k → unowned descriptors k w' = unowned descriptors k w + F k) → booked F none w w'.
Proof.
  intros [Hb _ _ _ Hm] Hl Hw.
  assert (b_ring_sessions <$> w_broker w' = b_ring_sessions <$> w_broker w) as Hs.
  { destruct (w_broker w') as [b'|], (w_broker w) as [b|]; try done. injection Hb. intros. cbn. congruence. }
  split_and!.
  - intros b' Hb'. rewrite Hb' in Hs. destruct (w_broker w) as [b|] eqn:E; [|done]. injection Hs as ->. by apply Hw.
  - destruct (w_broker w'), (w_broker w); done.
  - intros k Hk. specialize (Hl k Hk). specialize (Hm k). unfold unowned, owned in *. cbn [res_owned mappings ring_fds].
    cbn [res_owned descriptors] in Hl. rewrite !held_ring_fds. rewrite Hm.
    destruct (w_broker w') as [b'|], (w_broker w) as [b|]; try done; [injection Hs as ->|]; lia.
Qed.

Lemma balanced_aside w w' : aside w w' → ledger descriptors w w' → balanced w w'.
Proof. intros Ha Hl. apply booked_aside; [done|]. intros k Hk. rewrite (Hl k Hk). lia. Qed.

(** What an operation is accountable for: the broker moves forward, and what
    the process holds beyond its owners does not change. *)
Definition tidy (w w' : world) : Prop :=
  advance w w' ∧ (world_ok w → is_Some (w_broker w) → balanced w w').

#[export] Instance tidy_preorder : PreOrder tidy.
Proof.
  split; [intros w; by split|]. intros x y z [A1 B1] [A2 B2]. split; [by etrans|].
  intros Hx [b Hb]. etrans; [by apply B1; eauto|]. destruct (A1 Hx) as [Hy E].
  destruct (E b Hb) as (b'&Hb'&_). apply B2; eauto.
Qed.

Lemma pres_tidy {A} (m : M A) : pres advance m → pres balanced m → pres tidy m.
Proof. intros H1 H2 w. by split. Qed.

Lemma tidy_frame {A} (m : M A) : (∀ R, Frame R → pres R m) → pres advance m → pres tidy m.
Proof. intros HF H. apply pres_tidy; [done|]. intros w. apply balanced_aside; by apply HF, _. Qed.

Create HintDb llam_tidy discriminated.

Ltac tidy_object :=
  apply tidy_frame;
  [let R := fresh in let H := fresh in intros R H; first [solve [auto with llam_frame]|by apply fr_pop|by apply fr_log]
  |solve [auto with llam_advance]].

Ltac tidy_step :=
  first
    [ assumption
    | solve [auto with llam_tidy]
    | by apply pres_ret, _
    | by apply pres_gets, _
    | tidy_object
    | apply pres_on_broker; [|intros ?]
    | apply pres_if
    | apply pres_for_each; [apply _|intros ?]
    | apply pres_bind; [apply _| |intros ?]
    | progress case_match ].

Ltac tidy_walk := repeat tidy_step.

(** Duplicates are closed again. *)
Lemma tidy_ledger {A} (m : M A) :
  pres advance m → pres aside m →
  (∀ w b, world_ok w → w_broker w = Some b → ledger descriptors w (m w).2) → pres tidy m.
Proof.
  intros H1 H2 H3 w. split; [apply H1|]. intros Hok [b Hb]. apply balanced_aside; [apply H2|by eapply H3].
Qed.

Lemma tidy_read_handle t o len : 0 <= len → pres tidy (llam_broker_read_handle t o len).
Proof.
  intros Hlen. apply tidy_ledger; [auto with llam_advance|apply pres_aside_read_handle|].
  intros w b Hok Hb. destruct o as [o|]; [|apply (fr_same w); done].
  destruct (Z.eqb_spec len 0) as [->|Hne]; [by apply (fr_same w)|].
  destruct (read_handle_cases w b Hok Hb t o len) as (Ho&_&[[_ Hq]|(i&t'&s&_&Ht)]);
    [lia|by apply ledger_idle|by eapply ledger_trace].
Qed.

Lemma tidy_write_handle t d len : pres tidy (llam_broker_write_handle t d len).
Proof.
  apply tidy_ledger; [auto with llam_advance|apply pres_aside_write_handle|].
  intros w b Hok Hb. destruct d as [d|]; [|apply (fr_same w); done].
  destruct (Z.eqb_spec len 0) as [->|Hne]; [by apply (fr_same w)|].
  destruct (write_handle_cases w b Hok Hb t d len) as (Ho&[[_ Hq]|(i&t'&s&_&Ht)]);
    [done|by apply ledger_idle|by eapply ledger_trace].
Qed.

Lemma tidy_reclaim_descriptors s : pres tidy (llam_broker_reclaim_subject_descriptors s).
Proof.
  apply tidy_ledger; [auto with llam_advance|apply pres_aside_reclaim_descriptors|intros w b _ _]. apply ledger_reclaim.
Qed.

#[export] Hint Resolve tidy_read_handle tidy_write_handle tidy_reclaim_descriptors : llam_tidy.

(** ** Revocation and rollback *)

(** No descriptor was opened or closed. *)
Definition unspent (w w' : world) : Prop :=
  ∀ k, held descriptors k (os_log (w_os w')) = held descriptors k (os_log (w_os w)).

#[export] Instance unspent_frame : Frame unspent.
Proof.
  split.
  - split; [by intros w k|]. intros x y z H1 H2 k. by rewrite H2, H1.
  - intros w w' _ _ H k. by rewrite H.
  - intros A tape set_tape dflt _ _ H w k. unfold pop. destruct (tape (w_os w)); [done|]. cbn. by rewrite H.
  - intros w k. unfold pop. by destruct (os_mutex_lock (w_os w)).
  - intros e He w k. cbn. by destruct e.
  - by intros f _ w k.
Qed.

Lemma pres_unspent_upd f : pres unspent (upd_broker f).
Proof. by intros w k. Qed.

Lemma unspent_revoke t r o : pres unspent (llam_broker_revoke_object_cap t r o).
Proof.
  unfold llam_broker_revoke_object_cap, revoke_locked.
  repeat first [apply pres_unspent_upd | apply pres_frame_with_op; [intros ?|] | frame_step].
Qed.

Lemma rotation_fds t repl b b' : rotation t repl b b' → fd_view b' = fd_view b.
Proof.
  intros [i s s' _ Hi _ _ _|i s s' _ Hi _ _ (_&_&_&_&_&_&Hd)|i s s' _ Hi _ _ _]; [done| |done].
  unfold fd_view. cbn. rewrite list_fmap_insert. apply list_insert_id. rewrite list_lookup_fmap, Hi. cbn.
  unfold slot_data_le in Hd. cbn in Hd. by rewrite Hd.
Qed.

Lemma tidy_revoke t r o : pres tidy (llam_broker_revoke_object_cap t r o).
Proof.
  apply tidy_ledger; [auto with llam_advance|apply pres_aside_revoke|].
  intros w b Hok Hb k _. pose proof (unspent_revoke t r o w k) as Hh.
  destruct o as [old|]; [|done]. destruct t as [t|]; [|done]. unfold unowned. rewrite Hh. f_equal.
  destruct (revoke_cases t r old w b Hok Hb) as [[_ Ho]|(t'&b'&b''&_&Hb''&Eb&_&Hrot&_)].
  + by apply (owned_objs descriptors).
  + unfold owned. rewrite Hb'', Hb, Eb. rewrite (ro_active (r := descriptors)).
    apply fd_view_owned. by eapply rotation_fds.
Qed.

Lemma tidy_rollback_token t : pres tidy (llam_broker_rollback_response_token_locked t).
Proof.
  apply tidy_ledger; [auto with llam_advance|apply pres_aside_rollback_token|].
  intros w b _ Hb. destruct t as [t|]; [|unfold llam_broker_rollback_response_token_locked, on_broker; by rewrite Hb].
  apply (rb_descriptors _ _ _ _ (rollback_token_cases t w b Hb)).
Qed.

#[export] Hint Resolve tidy_revoke tidy_rollback_token : llam_tidy.

Lemma tidy_forget_session id s : 0 <= id → pres tidy (llam_broker_ring_forget_session id s).
Proof.
  intros Hid w. split; [apply advance_forget_session|]. intros _ Hb Hw.
  by apply (proj1 (forget_session_cases id s w Hid Hw Hb)).
Qed.

Lemma tidy_reclaim_rings s : pres tidy (llam_broker_reclaim_subject_rings s).
Proof.
  intros w. split; [apply advance_reclaim_rings|]. intros _ _ Hw. by apply pres_balanced_reclaim_rings.
Qed.

#[export] Hint Resolve tidy_forget_session tidy_reclaim_rings : llam_tidy.

Lemma tidy_reclaim_objects s : pres tidy (llam_broker_reclaim_subject_objects s).
Proof. unfold llam_broker_reclaim_subject_objects. tidy_walk. Qed.

(** An update that moves forward and keeps what sessions and slots own. *)
Lemma tidy_upd f :
  (∀ b, evolve b (f b)) → (∀ b, b_ring_sessions (f b) = b_ring_sessions b ∧ fd_view (f b) = fd_view b) →
  pres tidy (upd_broker f).
Proof.
  intros He Hf. apply pres_tidy; [by apply advance_upd|]. intros w Hw. mon.
  destruct (w_broker w) as [b|] eqn:Hb; mon; [|split_and!; [by intros b|done|intros k _; unfold unowned, owned; mon; rewrite Hb; lia]].
  destruct (Hf b) as [F1 F2]. split_and!; [|done|].
  - intros b' [= <-]. rewrite F1. by apply Hw.
  - intros k _. pose proof (fd_view_owned k b (f b) F2) as F3. unfold unowned, owned. mon. rewrite Hb. mon.
    cbn in *. rewrite F1, F3. lia.
Qed.

Lemma tidy_set_transport i s : pres tidy (set_transport i s).
Proof. apply tidy_upd; [intros b; apply evolve_transport_sessions|done]. Qed.

#[export] Hint Resolve tidy_reclaim_objects tidy_set_transport : llam_tidy.

Lemma tidy_rollback rq rp s :
  (∀ r, rp = Some r → 0 <= wp_result2 r) → pres tidy (llam_broker_rollback_created_response rq rp s).
Proof.
  intros H. unfold llam_broker_rollback_created_response. destruct rp as [rp|]; [|tidy_walk].
  specialize (H rp eq_refl). tidy_walk.
Qed.

Lemma tidy_forget_transport id : pres tidy (llam_broker_forget_transport_subject id).
Proof. unfold llam_broker_forget_transport_subject. tidy_walk. Qed.

Lemma tidy_mint n id i : pres tidy (mint_subject n id i).
Proof.
  induction n as [|n IH]; cbn [mint_subject]; [tidy_walk|].
  apply pres_bind; [apply _|apply tidy_upd; [intros b; apply evolve_subject_nonce|done]|intros _].
  assert (∀ nonce, pres tidy (llam_broker_new_transport_subject id nonce)).
  { intros nonce. apply tidy_frame; unfold llam_broker_new_transport_subject, llam_public_slot_entropy_from_os;
      [intros; frame_walk|advance_walk]. }
  tidy_walk.
Qed.

#[export] Hint Resolve tidy_rollback tidy_forget_transport tidy_mint : llam_tidy.

Lemma tidy_transport_subject id o : pres tidy (llam_broker_transport_subject id o).
Proof. unfold llam_broker_transport_subject. tidy_walk. Qed.

#[export] Hint Resolve tidy_transport_subject : llam_tidy.

(** ** Serving rings *)

Lemma tidy_thrifty {A} (m : M A) : pres advance m → pres thrifty m → pres tidy m.
Proof. intros H1 H2. apply pres_tidy; [done|by apply pres_balanced_thrifty]. Qed.

Lemma pres_thrifty_upd_ring ring f : pres thrifty (upd_ring ring f).
Proof. intros w. by apply net_same. Qed.

Lemma tidy_load {A} ring (f : broker_ring → A) d : pres tidy (ring_load ring f d).
Proof. apply tidy_thrifty; [auto with llam_advance|apply pres_thrifty_ring_load]. Qed.

Lemma tidy_store ring f : pres tidy (store_ring ring f).
Proof.
  apply tidy_thrifty; [auto with llam_advance|].
  apply pres_bind; [apply _|apply pres_thrifty_client|intros _; apply pres_thrifty_upd_ring].
Qed.

Lemma tidy_now : pres tidy llam_now_ns.
Proof. apply tidy_frame; [intros; unfold llam_now_ns; frame_walk|auto with llam_advance]. Qed.

#[export] Hint Resolve @tidy_load tidy_store tidy_now : llam_tidy.

Lemma tidy_ring_valid ring : pres tidy (llam_broker_ring_valid ring).
Proof. unfold llam_broker_ring_valid. tidy_walk. Qed.

Lemma tidy_stat_add ring i v : pres tidy (llam_broker_ring_broker_stat_add ring i v).
Proof. unfold llam_broker_ring_broker_stat_add. tidy_walk. Qed.

Lemma tidy_stat_max ring i v : pres tidy (llam_broker_ring_broker_stat_max ring i v).
Proof. unfold llam_broker_ring_broker_stat_max. tidy_walk. Qed.

Lemma tidy_put ring off bytes : pres tidy (put_bytes ring off bytes).
Proof. unfold put_bytes. tidy_walk. Qed.

#[export] Hint Resolve tidy_ring_valid tidy_stat_add tidy_stat_max tidy_put : llam_tidy.

Lemma tidy_in_range off len c k : pres tidy (k off len) → pres tidy (in_range off len c k).
Proof.
  intros Hk w. unfold in_range. mon. destruct (data_range_cases off len w) as [(->&_)|[-> _]]; mon; [apply Hk|].
  assert (pres tidy (set_errno EINVAL)) as H by tidy_walk. exact (H w).
Qed.

Lemma tidy_execute_op ring s c : submission_wf s → pres tidy (execute_op ring s c).
Proof.
  intros (_&_&U0&U1&U2). assert (0 <= sub_arg1 s) as Hlen by (unfold is_u64 in U1; lia).
  unfold execute_op, finish_token, finish_read, read_into, ring_bytes, llam_broker_ring_clear_output,
    llam_broker_ring_clear_output_suffix, llam_broker_ring_completion_fail_errno.
  repeat first [apply tidy_in_range | tidy_step].
Qed.

Lemma tidy_execute ring s : submission_wf s → pres tidy (llam_broker_ring_execute_submission ring s).
Proof.
  intros Hs. pose proof (λ c, tidy_execute_op ring s c Hs). unfold llam_broker_ring_execute_submission, execute_spawn,
    finish_token, llam_broker_ring_clear_output, llam_broker_ring_completion_fail_errno, llam_broker_ring_data_range.
  tidy_walk.
Qed.

Lemma tidy_execute_all ring l : Forall submission_wf l → pres tidy (execute_all ring l).
Proof.
  induction 1 as [|s l Hs _ IH]; cbn [execute_all]; [tidy_walk|]. pose proof (tidy_execute ring s Hs). tidy_walk.
Qed.

Lemma tidy_copy ring n : ∀ head, pres tidy (copy_submissions ring head n).
Proof. induction n as [|n IH]; intros head; cbn [copy_submissions]; tidy_walk. Qed.

#[export] Hint Resolve tidy_copy : llam_tidy.

Lemma tidy_reserve ring i n : pres tidy (llam_broker_ring_session_reserve_batch ring i n).
Proof. unfold llam_broker_ring_session_reserve_batch. tidy_walk. Qed.

Lemma tidy_rollback_unpublished l : pres tidy (llam_broker_ring_rollback_unpublished_tasks l).
Proof.
  induction l as [|[[s c] [t|]] l IH]; cbn [llam_broker_ring_rollback_unpublished_tasks]; [tidy_walk| |tidy_walk].
  apply pres_bind; [apply _|apply tidy_rollback; by intros r [= <-]|by intros _].
Qed.

Lemma tidy_clear_outputs ring l : pres tidy (clear_outputs ring l).
Proof.
  induction l as [|[[s c] t] l IH]; cbn [clear_outputs]; [tidy_walk|].
  unfold llam_broker_ring_clear_submission_output, llam_broker_ring_data_range, llam_broker_ring_clear_output. tidy_walk.
Qed.

Lemma tidy_publish_completions ring l : ∀ tail, pres tidy (publish_completions ring tail l).
Proof. induction l as [|[[s c] t] l IH]; intros tail; cbn [publish_completions]; tidy_walk. Qed.

#[export] Hint Resolve tidy_reserve tidy_rollback_unpublished tidy_clear_outputs tidy_publish_completions : llam_tidy.

(** A session update that keeps what the session owns. *)
Lemma tidy_set_session i s w b :
  w_broker w = Some b → rs_owns_mapping s = rs_owns_mapping (session_at b i) →
  rs_ring s = rs_ring (session_at b i) → rs_mapping_fd s = rs_mapping_fd (session_at b i) →
  rs_mapping_bytes s = rs_mapping_bytes (session_at b i) → tidy w (set_session i s w).2.
Proof.
  intros Hb H1 H2 H3 H4. split; [apply advance_set_session|]. intros _ _ Hw. rewrite (set_session_run i s w b Hb). cbn [snd].
  destruct (decide (i < LLAM_BROKER_RING_SESSIONS)%nat) as [Hi|Hi].
  - eapply booked_eq; [apply (booked_set_session w b i s Hb Hi)|..|exact Hw].
    + unfold session_ok. by rewrite H1, H2, H3, H4.
    + intros k. unfold session_fd, owns_session_fd. rewrite H1, H3. lia.
    + intros k. unfold session_ring, owns_session_ring. rewrite H1, H2. lia.
  - destruct (Hw b Hb) as [Hl _]. rewrite list_insert_ge by lia. 
    replace (set_b_ring_sessions (b_ring_sessions b) b) with b by by destruct b.
    assert (set_w_broker (Some b) w = w) as -> by by destruct w; cbn in *; subst.
    assert (balanced w w) as Hr by reflexivity. by apply Hr.
Qed.

Lemma tidy_validate_publish ring i tail :
  pres tidy (llam_broker_ring_session_validate_publish_locked ring i tail).
Proof. unfold llam_broker_ring_session_validate_publish_locked. tidy_walk. Qed.

Lemma wp_tidy {A B} (m : M A) (k : A → M B) w0 w :
  pres tidy m → tidy w0 w → (∀ a w', tidy w0 w' → wp (k a) (λ _ w2, tidy w0 w2) w') →
  wp (m ≫= k) (λ _ w2, tidy w0 w2) w.
Proof. intros Hm H Hk. exact (wp_pres tidy m k _ w0 w Hm H Hk). Qed.

Lemma wp_tidy_last {A} (m : M A) w0 w : pres tidy m → tidy w0 w → wp m (λ _ w2, tidy w0 w2) w.
Proof. intros Hm H. unfold wp. etrans; [exact H|apply Hm]. Qed.

(** The mapping of session [s] was taken out and is yet to be unmapped. *)
Definition pending (s : ring_session) (w w' : world) : Prop :=
  advance w w' ∧ (world_ok w → is_Some (w_broker w) → sessions_ok w →
    session_ok s ∧ booked (session_fd s) (session_ring s) w w').

Lemma advance_alive w w' : advance w w' → world_ok w → is_Some (w_broker w) → world_ok w' ∧ is_Some (w_broker w').
Proof. intros A Hok [b Hb]. destruct (A Hok) as [Hok' E]. destruct (E b Hb) as (b'&Hb'&_). eauto. Qed.

Lemma pending_take i w0 w b :
  tidy w0 w → w_broker w = Some b → (i < LLAM_BROKER_RING_SESSIONS)%nat →
  pending (session_at b i) w0 (llam_broker_ring_session_take_mapping (Some i) (Some reset_mapping) w).2.
Proof.
  intros [A B] Hb Hi. split; [etrans; [exact A|apply advance_take]|]. intros Hok Hs Hw.
  destruct (B Hok Hs Hw) as (Hw'&_). split; [by eapply session_at_ok|].
  rewrite (take_mapping_run _ _ _ _ Hb). cbn [snd]. eapply then_booked; [by apply B|]. by apply booked_cleared.
Qed.

Lemma pending_then s w0 w w' : pending s w0 w → tidy w w' → pending s w0 w'.
Proof.
  intros [A1 B1] [A2 B2]. split; [by etrans|]. intros Hok Hs Hw. destruct (B1 Hok Hs Hw) as [S1 K1]. split; [done|].
  destruct (advance_alive _ _ A1 Hok Hs). eapply booked_then; [exact K1|by apply B2].
Qed.

Lemma pending_unmap s w0 w :
  pending s w0 w →
  tidy w0 ((if rs_owns_mapping s then llam_broker_ring_unmap (Some (taken s)) ;; mret tt else mret tt) w).2.
Proof.
  intros [A1 B1]. split.
  { etrans; [exact A1|]. assert (∀ b m, pres advance (if b : bool then llam_broker_ring_unmap m ;; mret tt else mret tt))
      as H by (intros; advance_walk). apply H. }
  intros Hok Hs Hw. destruct (B1 Hok Hs Hw) as [S1 K1]. rewrite unmap_taken_if.
  apply booked_unmap_taken; [done| |done]. eapply booked_eq; [exact K1|done|done].
Qed.

Lemma wp_pending {A B} (m : M A) (k : A → M B) s w0 w Q :
  pres tidy m → pending s w0 w → (∀ a w', pending s w0 w' → wp (k a) Q w') → wp (m ≫= k) Q w.
Proof. intros Hm H Hk. apply wp_bind. apply Hk. eapply pending_then; [exact H|apply Hm]. Qed.

Lemma wp_pending_unmap {B} (k : unit → M B) s w0 w Q :
  pending s w0 w → (∀ w', tidy w0 w' → wp (k tt) Q w') →
  wp ((if rs_owns_mapping s then llam_broker_ring_unmap (Some (taken s)) ;; mret tt else mret tt) ≫= k) Q w.
Proof.
  intros H Hk. apply wp_bind. unfold wp at 1. pose proof (pending_unmap s w0 w H) as H2. revert H2.
  generalize (if rs_owns_mapping s then llam_broker_ring_unmap (Some (taken s)) ;; mret tt else mret tt).
  intros m H2. destruct (m w) as [[] w']. by apply Hk.
Qed.

(** Taking the mapping of session [i] out and unmapping it in the end. *)
Lemma wp_take_unmap {A B} i b (m : M A) (k : unit → M B) w0 w Q :
  tidy w0 w → w_broker w = Some b → (i < LLAM_BROKER_RING_SESSIONS)%nat → pres tidy m →
  (∀ w', tidy w0 w' → wp (k tt) Q w') →
  wp (t ← llam_broker_ring_session_take_mapping (Some i) (Some reset_mapping);
      llam_broker_unlock ;; m ;;
      (if t.1 : bool then llam_broker_ring_unmap t.2 ;; mret tt else mret tt) ≫= k) Q w.
Proof.
  intros H Hb Hi Hm Hk. pose proof (pending_take i w0 w b H Hb Hi) as P. apply wp_bind. unfold wp at 1.
  rewrite (take_mapping_run _ _ _ _ Hb) in *. cbn [fst snd] in *.
  eapply (wp_pending llam_broker_unlock); [tidy_walk|exact P|]. intros _ w1 P1.
  eapply wp_pending; [exact Hm|exact P1|]. intros _ w2 P2. eapply wp_pending_unmap; [exact P2|exact Hk].
Qed.

Lemma pres_tidy_broker {A} (m : M A) :
  pres advance m → (∀ w b, world_ok w → w_broker w = Some b → wp m (λ _ w', tidy w w') w) → pres tidy m.
Proof.
  intros H1 H2 w. split; [apply H1|]. intros Hok Hs. pose proof Hs as [b Hb]. by apply (H2 w b Hok Hb).
Qed.

Lemma wp_tidy_the_broker {B} (k : broker → M B) w0 w Q :
  tidy w0 w → world_ok w0 → is_Some (w_broker w0) →
  (∀ b, w_broker w = Some b → wp (k b) Q w) → wp (the_broker ≫= k) Q w.
Proof.
  intros [A _] Hok Hs Hk. destruct (advance_alive _ _ A Hok Hs) as [_ [b Hb]].
  apply (wp_the_broker _ _ _ b Hb). by apply Hk.
Qed.

Section batch.
Context (ring : Z) (i : nat) (Hi : (i < LLAM_BROKER_RING_SESSIONS)%nat).

Lemma tidy_poisoned done : pres tidy (serve_poisoned ring i done).
Proof.
  apply pres_tidy_broker; [unfold serve_poisoned; advance_walk|]. intros w0 b0 Hok Hb0.
  assert (is_Some (w_broker w0)) as Hs by eauto. unfold serve_poisoned.
  apply wp_tidy; [tidy_walk|reflexivity|]. intros e w1 H1.
  eapply wp_tidy_the_broker; [exact H1|done..|]. intros b1 Hb1.
  apply wp_tidy; [tidy_walk|exact H1|]. intros _ w2 H2.
  destruct (advance_alive _ _ (proj1 H2) Hok Hs) as [_ [b2 Hb2]].
  eapply wp_take_unmap; [exact H2|exact Hb2|exact Hi|tidy_walk|]. intros w3 H3.
  apply wp_tidy_last; [tidy_walk|exact H3].
Qed.

(** A session whose cursors or flags change. *)
Lemma wp_set_session {B} f (k : unit → M B) w0 w b Q :
  tidy w0 w → w_broker w = Some b →
  (∀ s, rs_owns_mapping (f s) = rs_owns_mapping s ∧ rs_ring (f s) = rs_ring s ∧
        rs_mapping_fd (f s) = rs_mapping_fd s ∧ rs_mapping_bytes (f s) = rs_mapping_bytes s) →
  (∀ w', tidy w0 w' → wp (k tt) Q w') → wp (set_session i (f (session_at b i)) ≫= k) Q w.
Proof.
  intros H Hb Hf Hk. destruct (Hf (session_at b i)) as (F1&F2&F3&F4).
  pose proof (tidy_set_session i (f (session_at b i)) w b Hb F1 F2 F3 F4) as H2. apply wp_bind. unfold wp at 1.
  destruct (set_session i (f (session_at b i)) w) as [[] w']. apply Hk. by etrans.
Qed.

Lemma tidy_publish_batch tail t0 done : pres tidy (publish_batch ring i tail t0 done).
Proof.
  apply pres_tidy_broker; [unfold publish_batch, llam_broker_ring_session_submit_publish; advance_walk|].
  intros w0 b0 Hok Hb0. assert (is_Some (w_broker w0)) as Hs by eauto. unfold publish_batch.
  apply wp_tidy; [tidy_walk|reflexivity|]. intros _ w1 H1.
  eapply wp_tidy_the_broker; [exact H1|done..|]. intros b1 Hb1.
  eapply (wp_set_session (λ s, advanced_session s tail (Z.of_nat (length done)))); [exact H1|done|done|].
  intros w2 H2. apply wp_tidy_last; [unfold llam_broker_ring_session_submit_publish; tidy_walk|exact H2].
Qed.

Lemma tidy_release n : pres tidy (serve_release i n).
Proof.
  apply pres_tidy_broker; [unfold serve_release; advance_walk|]. intros w0 b0 Hok Hb0.
  assert (is_Some (w_broker w0)) as Hs by eauto. unfold serve_release. apply (wp_the_broker _ _ _ b0 Hb0).
  eapply (wp_set_session (set_rs_busy false)); [reflexivity|done|done|]. intros w1 H1.
  eapply wp_tidy_the_broker; [exact H1|done..|]. intros b1 Hb1. apply wp_if; intros _.
  - eapply (wp_take_unmap i b1 (mret tt)); [exact H1|exact Hb1|exact Hi|apply pres_ret, _|]. intros w2 H2.
    apply wp_tidy_last; [tidy_walk|exact H2].
  - apply wp_tidy_last; [tidy_walk|exact H1].
Qed.
End batch.

Lemma tidy_serve_locked ring i max o :
  (i < LLAM_BROKER_RING_SESSIONS)%nat → pres tidy (llam_broker_ring_serve_locked_session_batch ring i max o).
Proof.
  intros Hi. unfold llam_broker_ring_serve_locked_session_batch. apply pres_if; [tidy_walk|].
  apply pres_bind; [apply _|tidy_walk|intros t0].
  eapply pres_bind_out; [apply _|tidy_walk|apply reserve_wf|]. intros [[subs tail]|] Hwf; [|tidy_walk].
  pose proof (tidy_execute_all ring _ (Forall_take _ (llam_broker_ring_authority_safe_batch_count subs) _
    (Hwf subs tail eq_refl))) as Hx.
  pose proof (tidy_poisoned ring i Hi). pose proof (tidy_publish_batch ring i). pose proof (tidy_release i Hi).
  pose proof (tidy_validate_publish ring i tail).
  apply pres_if; [tidy_walk|].
  apply pres_tidy_broker.
  { pose proof (advance_serve_locked ring i max o).
    pose proof (advance_execute_all ring _ (Forall_take _ (llam_broker_ring_authority_safe_batch_count subs) _
      (Hwf subs tail eq_refl))).
    unfold llam_broker_ring_session_validate_publish_locked, serve_poisoned, publish_batch, serve_release,
      llam_broker_ring_session_submit_publish. advance_walk. }
  intros w0 b0 Hok Hb0. apply (wp_the_broker _ _ _ b0 Hb0).
  eapply (wp_set_session i (set_rs_busy true)); [reflexivity|done|done|]. intros w1 T1.
  apply wp_tidy_last; [tidy_walk|exact T1].
Qed.

Definition in_table (r : Z * option nat) : Prop := ∀ i, r.2 = Some i → (i < LLAM_BROKER_RING_SESSIONS)%nat.

Lemma begin_locked_in_table id s : gives in_table (llam_broker_ring_begin_locked_owned_session id s).
Proof.
  assert (∀ rc, gives in_table (mret (rc, None))) as Hn by (intros rc w i [=]).
  unfold llam_broker_ring_begin_locked_owned_session. apply gives_if; intros E; [by apply gives_bind; intros|].
  repeat first [apply Hn | apply gives_if; intros _ | apply gives_bind; intros ?].
  apply gives_ret. intros i [= <-]. bools. unfold LLAM_BROKER_RING_SESSIONS in *. lia.
Qed.

Lemma tidy_begin_locked id s : pres tidy (llam_broker_ring_begin_locked_owned_session id s).
Proof. unfold llam_broker_ring_begin_locked_owned_session. tidy_walk. Qed.

Lemma tidy_serve_session id s max o : pres tidy (llam_broker_ring_serve_session_batch id s max o).
Proof.
  unfold llam_broker_ring_serve_session_batch. apply pres_if; [tidy_walk|].
  eapply pres_bind_out; [apply _|apply tidy_begin_locked|apply begin_locked_in_table|].
  intros [rc [i|]] Hi; [|tidy_walk]. specialize (Hi i eq_refl).
  pose proof (λ r m o, tidy_serve_locked r i m o Hi). tidy_walk.
Qed.

#[export] Hint Resolve tidy_serve_session : llam_tidy.

(** ** Opening and closing descriptors *)

(** The broker moves forward, and the process acquired [fds] and [maps]. *)
Definition spends (fds maps : Z → Z) (w w' : world) : Prop :=
  advance w w' ∧ (world_ok w → is_Some (w_broker w) → booked fds maps w w').

Lemma spends_trans F1 G1 F2 G2 F G w w1 w2 :
  spends F1 G1 w w1 → spends F2 G2 w1 w2 →
  (∀ k, F k = F1 k + F2 k) → (∀ k, G k = G1 k + G2 k) → spends F G w w2.
Proof.
  intros [A1 B1] [A2 B2] HF HG. split; [by etrans|]. intros Hok Hs.
  destruct (advance_alive _ _ A1 Hok Hs). eapply booked_trans; [by apply B1|by apply B2|done|done].
Qed.

Lemma spends_tidy F G w w1 w2 : spends F G w w1 → tidy w1 w2 → spends F G w w2.
Proof. intros H1 H2. eapply spends_trans; [exact H1|exact H2|intros k; cbn; lia..]. Qed.

Lemma spends_eq F G F' G' w w' :
  spends F G w w' → (∀ k, F' k = F k) → (∀ k, G' k = G k) → spends F' G' w w'.
Proof. intros [A B] HF HG. split; [done|]. intros Hok Hs. eapply booked_eq; [by apply B|done|done]. Qed.

Lemma spends_net F G w w' : net F G w w' → spends F G w w'.
Proof. intros H. split; [apply advance_same; apply H|]. intros _ _. by apply booked_net. Qed.

Lemma spends_close fd w : spends (λ k, - one fd k) none w (sys_close fd w).2.
Proof.
  apply spends_net. split_and!; [done|done|]. intros k. unfold sys_close. cbn. unfold one. lia.
Qed.

Lemma spends_errno F G w w1 e : spends F G w w1 → spends F G w (set_w_errno e w1).
Proof.
  intros H. eapply spends_tidy; [exact H|]. assert (pres tidy (set_errno e)) as E by tidy_walk. apply E.
Qed.
