(* ===== verification/Wire.v ===== *)
(** * The control protocol

    [src/core/broker/transport/broker_transport_ops.c] (one request and its
    response), [broker_transport_dispatch.c] (its entry points),
    [broker_transport_response.c] (failed and malformed responses) and
    [broker_transport_ring.c] (ring creation).  A request comes from an untrusted
    client, possibly with an attached descriptor; the theorems say what a failed
    response may contain, what becomes of the descriptor, and that no request
    whatever takes the broker out of its invariants. *)

From S2P Require Import Prelude Mix World Capability BrokerOps BrokerCore BrokerBuffer BrokerChannel.
From S2P Require Import BrokerRevoke BrokerDescriptor BrokerTask Ring RingMap BrokerSession Rollback BrokerFrame.
From S2P Require Import RingServe Advance Books.

Definition LLAM_BROKER_WIRE_MAGIC : Z := 0x4c4c424b.
Definition LLAM_BROKER_WIRE_VERSION : Z := 2.

Definition LLAM_INVALID_HANDLE : Z := -1.

Definition llam_handle_is_invalid (handle : Z) : bool := handle =? LLAM_INVALID_HANDLE.

(** [close(fd)] of a descriptor, nothing for an invalid one. *)
Definition llam_broker_close_fd (fd : Z) : M unit := if 0 <=? fd then sys_close fd else mret tt.

Definition llam_broker_close_handle (handle : Z) : M unit := llam_broker_close_fd handle.

(** [llam_runtime_run_handle] with its status. *)
Definition runtime_run_handle : M Z :=
  llam_runtime_run_handle ;;
  v ← pop os_run_rc set_os_run_rc 0;
  if negb (v =? 0) then fail v else mret 0.

(** ** Responses *)

Definition set_wp_status (v : Z) (r : wire_response) : wire_response :=
  WireResponse (wp_magic r) (wp_version r) v (wp_error_code r) (wp_runtime_id r) (wp_revocation_epoch r)
    (wp_result0 r) (wp_result1 r) (wp_result2 r) (wp_token r) (wp_data r).

Definition set_wp_results (r0 r1 r2 : Z) (r : wire_response) : wire_response :=
  WireResponse (wp_magic r) (wp_version r) (wp_status r) (wp_error_code r) (wp_runtime_id r)
    (wp_revocation_epoch r) r0 r1 r2 (wp_token r) (wp_data r).

Definition set_wp_result0 (v : Z) (r : wire_response) : wire_response :=
  set_wp_results v (wp_result1 r) (wp_result2 r) r.

Definition set_wp_token (v : capability_token) (r : wire_response) : wire_response :=
  WireResponse (wp_magic r) (wp_version r) (wp_status r) (wp_error_code r) (wp_runtime_id r)
    (wp_revocation_epoch r) (wp_result0 r) (wp_result1 r) (wp_result2 r) v (wp_data r).

Definition set_wp_data (v : list Z) (r : wire_response) : wire_response :=
  WireResponse (wp_magic r) (wp_version r) (wp_status r) (wp_error_code r) (wp_runtime_id r)
    (wp_revocation_epoch r) (wp_result0 r) (wp_result1 r) (wp_result2 r) (wp_token r) v.

Definition llam_broker_mark_response_failure_clear_outputs (response : option wire_response)
    (error_code : Z) : option wire_response :=
  (λ r, WireResponse (wp_magic r) (wp_version r) (-1)
          (if negb (error_code =? 0) then error_code else EIO)
          (wp_runtime_id r) (wp_revocation_epoch r) 0 0 0 zero_token (wp_data zero_response)) <$> response.

Definition llam_broker_normalize_response_failure_outputs (response : option wire_response) :
    option wire_response :=
  match response with
  | None => response
  | Some r =>
      if wp_status r =? 0 then response
      else
        let error_code := if negb (wp_error_code r =? 0) then wp_error_code r else EIO in
        llam_broker_mark_response_failure_clear_outputs response error_code
  end.

(** Returns the status and the response. *)
Definition llam_broker_validate_response_frame_or_clear (response : option wire_response) :
    M (Z * option wire_response) :=
  match response with
  | None => rc ← fail EINVAL; mret (rc, None)
  | Some r =>
      if negb (wp_magic r =? LLAM_BROKER_WIRE_MAGIC) || negb (wp_version r =? LLAM_BROKER_WIRE_VERSION)
      then set_errno EINVAL ;; mret (-1, Some zero_response)
      else mret (0, llam_broker_normalize_response_failure_outputs response)
  end.

Definition llam_broker_response_init_empty : wire_response :=
  WireResponse LLAM_BROKER_WIRE_MAGIC LLAM_BROKER_WIRE_VERSION 0 0 0 0 0 0 0 zero_token (wp_data zero_response).

Definition llam_broker_response_bind_broker (broker : option broker) (r : wire_response) : wire_response :=
  WireResponse (wp_magic r) (wp_version r) (wp_status r) (wp_error_code r)
    (match broker with Some b => default 0 (b_runtime b) | None => 0 end)
    (match broker with Some b => b_revocation_epoch b | None => 0 end)
    (wp_result0 r) (wp_result1 r) (wp_result2 r) (wp_token r) (wp_data r).

Definition llam_broker_response_error (r : wire_response) (error_code : Z) : wire_response :=
  default r (llam_broker_mark_response_failure_clear_outputs (Some r)
    (if negb (error_code =? 0) then error_code else EINVAL)).

(** [saved_errno = errno; llam_broker_response_error(response, saved_errno);] *)
Definition response_errno (r : wire_response) : M wire_response :=
  e ← get_errno; mret (llam_broker_response_error r e).

(** ** Operations *)

Definition llam_broker_close_unclaimed_descriptor (descriptor_handle : Z) : M unit :=
  if negb (llam_handle_is_invalid descriptor_handle) then llam_broker_close_handle descriptor_handle
  else mret tt.

(** Returns the status and the rights granted. *)
Definition llam_broker_transport_rights (requested allowed : Z) (out_rights : option Z) :
    M (Z * option Z) :=
  if is_null out_rights || (requested =? 0) || negb (Z.land requested (not64 allowed) =? 0)
  then set_errno EACCES ;; mret (-1, out_rights)
  else mret (0, Some requested).

Definition llam_broker_transport_create_grant (request : option wire_request) (is_channel : bool)
    (out_token : option capability_token) : M (Z * option capability_token) :=
  let max_units := if is_channel then LLAM_BROKER_CHANNEL_CAPACITY else LLAM_BROKER_BUFFER_MAX_BYTES in
  let allowed :=
    if is_channel then LLAM_BROKER_CHANNEL_TRANSPORT_RIGHTS else LLAM_BROKER_BUFFER_TRANSPORT_RIGHTS in
  match request with
  | None => set_errno EINVAL ;; mret (-1, out_token)
  | Some request =>
      if is_null out_token || (wr_slot request =? 0) || (max_units <? wr_slot request)
         || (UINT64_MAX <? wr_slot request)
      then set_errno EINVAL ;; mret (-1, out_token)
      else
        g ← llam_broker_transport_rights (wr_rights request) allowed (Some 0);
        if negb (g.1 =? 0) then mret (-1, out_token)
        else
          let rights := default 0 g.2 in
          if is_channel then llam_broker_create_channel (wr_slot request) rights out_token
          else llam_broker_register_buffer None (wr_slot request) rights out_token
  end.

Definition llam_broker_wire_length_valid (length : Z) : bool :=
  (0 <? length) && (length <=? LLAM_BROKER_WIRE_DATA_BYTES) && (length <=? UINT64_MAX).

Definition llam_broker_transport_join_task (token : option capability_token) (out_result0 : option Z) :
    M (Z * option Z) :=
  r ← llam_broker_join_task token out_result0;
  if r.1 =? 0 then mret r
  else
    saved_errno ← get_errno;
    if negb (saved_errno =? EAGAIN) then set_errno saved_errno ;; mret (-1, r.2)
    else
      d ← llam_broker_task_join_runtime_drive_allowed token (Some false);
      if negb (d.1 =? 0) then mret (-1, r.2)
      else if negb (default false d.2) then set_errno EAGAIN ;; mret (-1, r.2)
      else
        null ← gets (λ w, match w_broker w with Some b => is_null (b_runtime b) | None => true end);
        if null : bool then set_errno EAGAIN ;; mret (-1, r.2)
        else
          rc ← runtime_run_handle;
          if negb (rc =? 0) then mret (-1, r.2)
          else llam_broker_join_task token r.2.

Definition llam_broker_transport_serve_ring_batch_size (request : option wire_request) : Z :=
  let requested := match request with Some r => wr_length r | None => 0 end in
  if requested =? 0 then 1
  else if LLAM_BROKER_RING_SERVE_BATCH_MAX <? requested then LLAM_BROKER_RING_SERVE_BATCH_MAX
  else requested.

(** Returns the status, the descriptor for the client and the session id. *)
Definition llam_broker_transport_create_ring (out_descriptor out_session_id : option Z) :
    M (Z * option Z * option Z) :=
  let out_descriptor := (λ _, LLAM_INVALID_HANDLE) <$> out_descriptor in
  let out_session_id := (λ _, 0) <$> out_session_id in
  on_broker (set_errno EINVAL ;; mret (-1, out_descriptor, out_session_id)) (λ _,
    if is_null out_descriptor || is_null out_session_id
    then set_errno EINVAL ;; mret (-1, out_descriptor, out_session_id)
    else
      m ← llam_broker_ring_create_private_fd (Some reset_mapping);
      if negb (m.1 =? 0) then mret (-1, out_descriptor, out_session_id)
      else
        let mapping := default reset_mapping m.2 in
        descriptor ← llam_broker_dup_cloexec_fd (rm_fd mapping);
        if descriptor <? 0 then
          saved_errno ← get_errno;
          llam_broker_ring_unmap (Some mapping) ;;
          set_errno saved_errno ;;
          mret (-1, out_descriptor, out_session_id)
        else
          subject ← llam_broker_current_subject;
          r ← llam_broker_ring_register_mapping (Some mapping) subject out_session_id;
          if negb (r.1.1 =? 0) then
            saved_errno ← get_errno;
            llam_broker_close_handle descriptor ;;
            llam_broker_ring_unmap r.1.2 ;;
            set_errno saved_errno ;;
            mret (-1, out_descriptor, r.2)
          else mret (0, Some descriptor, r.2)).

(** ** One request *)

(** [if (rc == 0) response->status = 0; else { saved_errno = errno; error }] *)
Definition respond (rc : Z) (r : wire_response) : M wire_response :=
  if rc =? 0 then mret (set_wp_status 0 r) else response_errno r.

(** An operation that fills [response->token]. *)
Definition respond_token (t : Z * option capability_token) (r : wire_response) : M wire_response :=
  respond t.1 (set_wp_token (default zero_token t.2) r).

(** An operation that reports a count, or a negative value. *)
Definition respond_count (n : Z) (r : wire_response) : M wire_response :=
  if 0 <=? n then mret (set_wp_result0 n (set_wp_status 0 r)) else response_errno r.

(** Run a reader on the first [length] bytes of [response->data]. *)
Definition read_data (r : wire_response) (length : Z) (read : option (list Z) → M (Z * option (list Z))) :
    M (Z * wire_response) :=
  x ← read (Some (bytes_at 0 (Z.to_nat length) (wp_data r)));
  mret (x.1, set_wp_data (memcpy_at 0 (default [] x.2) (wp_data r)) r).

(** [if (!length_valid(request->length)) error; else k] *)
Definition with_length (request : wire_request) (r : wire_response) (k : Z → M wire_response) :
    M wire_response :=
  if negb (llam_broker_wire_length_valid (wr_length request))
  then mret (llam_broker_response_error r EINVAL)
  else k (wr_length request).

Definition wire_spawn (request : wire_request) (r : wire_response) : M wire_response :=
  g ← llam_broker_transport_rights (wr_rights request)
        (Z.lor LLAM_CAP_RIGHT_JOIN LLAM_CAP_RIGHT_DETACH) (Some 0);
  if negb (g.1 =? 0) then response_errno r
  else if UINT32_MAX <? wr_slot request then mret (llam_broker_response_error r EINVAL)
  else
    t ← llam_broker_spawn_task (u32 (wr_slot request)) (wr_offset request) (default 0 g.2)
          (Some (wp_token r));
    respond_token t r.

Definition wire_serve_ring (request : wire_request) (r : wire_response) : M wire_response :=
  subject ← llam_broker_current_subject;
  s ← llam_broker_ring_serve_session_batch (wr_slot request) subject
        (llam_broker_transport_serve_ring_batch_size (Some request)) (Some 0);
  if s.1 =? 0 then mret (set_wp_result0 (default 0 s.2) (set_wp_status 0 r)) else response_errno r.

(** The operations that neither take nor return a descriptor. *)
Definition wire_op (request : wire_request) (r : wire_response) : M wire_response :=
  let op := wr_op request in
  let token := Some (wr_token request) in
  let out_token := Some (wp_token r) in
  let data length := Some (bytes_at 0 (Z.to_nat length) (wr_data request)) in
  if op =? LLAM_BROKER_WIRE_OP_PING then mret (set_wp_status 0 r)
  else if op =? LLAM_BROKER_WIRE_OP_ISSUE_CAP then mret (llam_broker_response_error r EACCES)
  else if op =? LLAM_BROKER_WIRE_OP_VALIDATE_CAP then
    rc ← llam_broker_validate_cap token (wr_required_rights request); respond rc r
  else if op =? LLAM_BROKER_WIRE_OP_ATTENUATE_CAP then
    t ← llam_broker_attenuate_cap token (wr_rights request) out_token; respond_token t r
  else if op =? LLAM_BROKER_WIRE_OP_REVOKE_CAP then
    t ← llam_broker_revoke_object_cap token (wr_rights request) out_token; respond_token t r
  else if op =? LLAM_BROKER_WIRE_OP_CREATE_BUFFER then
    t ← llam_broker_transport_create_grant (Some request) false out_token; respond_token t r
  else if op =? LLAM_BROKER_WIRE_OP_CREATE_CHANNEL then
    t ← llam_broker_transport_create_grant (Some request) true out_token; respond_token t r
  else if op =? LLAM_BROKER_WIRE_OP_SERVE_RING then wire_serve_ring request r
  else if op =? LLAM_BROKER_WIRE_OP_BUFFER_READ then
    with_length request r (λ length,
      x ← read_data r length (λ out, llam_broker_read_buffer token (wr_offset request) out length);
      if x.1 =? 0 then mret (set_wp_result0 length (set_wp_status 0 x.2)) else response_errno x.2)
  else if op =? LLAM_BROKER_WIRE_OP_BUFFER_WRITE then
    with_length request r (λ length,
      rc ← llam_broker_write_buffer token (wr_offset request) (data length) length;
      if rc =? 0 then mret (set_wp_result0 length (set_wp_status 0 r)) else response_errno r)
  else if op =? LLAM_BROKER_WIRE_OP_CHANNEL_SEND then
    with_length request r (λ length,
      rc ← llam_broker_channel_send token (data length) length;
      if rc =? 0 then mret (set_wp_result0 length (set_wp_status 0 r)) else response_errno r)
  else if op =? LLAM_BROKER_WIRE_OP_CHANNEL_RECV then
    with_length request r (λ length,
      x ← read_data r length (λ out, llam_broker_channel_recv token out length);
      respond_count x.1 x.2)
  else if op =? LLAM_BROKER_WIRE_OP_CHANNEL_CLOSE then
    rc ← llam_broker_channel_close token; respond rc r
  else if op =? LLAM_BROKER_WIRE_OP_DESCRIPTOR_READ then
    with_length request r (λ length,
      x ← read_data r length (λ out, llam_broker_read_handle token out length);
      respond_count x.1 x.2)
  else if op =? LLAM_BROKER_WIRE_OP_DESCRIPTOR_WRITE then
    with_length request r (λ length,
      n ← llam_broker_write_handle token (data length) length;
      respond_count n r)
  else if op =? LLAM_BROKER_WIRE_OP_TASK_SPAWN then wire_spawn request r
  else if op =? LLAM_BROKER_WIRE_OP_TASK_JOIN then
    x ← llam_broker_transport_join_task token (Some (wp_result0 r));
    respond x.1 (set_wp_result0 (default 0 x.2) r)
  else if op =? LLAM_BROKER_WIRE_OP_TASK_DETACH then
    rc ← llam_broker_detach_task token; respond rc r
  else if op =? LLAM_BROKER_WIRE_OP_REVOKE_ALL then mret (llam_broker_response_error r EACCES)
  else if op =? LLAM_BROKER_WIRE_OP_STOP then mret (set_wp_status 0 r)
  else mret (llam_broker_response_error r EINVAL).

(** The response and the descriptor that goes with it. *)
Definition wire_create_ring (r : wire_response) (out_descriptor : option Z) :
    M (wire_response * option Z) :=
  if is_null out_descriptor then mret (llam_broker_response_error r ENOTSUP, None)
  else
    x ← llam_broker_transport_create_ring out_descriptor (Some (wp_result1 r));
    if x.1.1 =? 0 then
      let id := default 0 x.2 in
      mret (set_wp_results id LLAM_BROKER_RING_CAP id (set_wp_status 0 r), x.1.2)
    else r ← response_errno r; mret (r, x.1.2).

Definition wire_register (request : wire_request) (r : wire_response) (descriptor_handle : Z) :
    M wire_response :=
  if llam_handle_is_invalid descriptor_handle then mret (llam_broker_response_error r EINVAL)
  else
    g ← llam_broker_transport_rights (wr_rights request) LLAM_BROKER_DESCRIPTOR_TRANSPORT_RIGHTS (Some 0);
    if negb (g.1 =? 0) then
      saved_errno ← get_errno;
      llam_broker_close_handle descriptor_handle ;;
      mret (llam_broker_response_error r saved_errno)
    else
      t ← llam_broker_register_handle descriptor_handle (default 0 g.2) true (Some (wp_token r));
      if t.1 =? 0 then mret (set_wp_status 0 (set_wp_token (default zero_token t.2) r))
      else
        saved_errno ← get_errno;
        llam_broker_close_handle descriptor_handle ;;
        mret (llam_broker_response_error r saved_errno).

(** The [switch] over the operations. *)
Definition wire_dispatch (request : wire_request) (r : wire_response) (descriptor_handle : Z)
    (out_response_descriptor : option Z) : M (wire_response * option Z) :=
  if wr_op request =? LLAM_BROKER_WIRE_OP_CREATE_RING then wire_create_ring r out_response_descriptor
  else if wr_op request =? LLAM_BROKER_WIRE_OP_REGISTER_DESCRIPTOR
  then r ← wire_register request r descriptor_handle; mret (r, out_response_descriptor)
  else r ← wire_op request r; mret (r, out_response_descriptor).

(** Returns the response, [*out_should_close] and [*out_response_descriptor]. *)
Definition llam_broker_process_request_with_descriptors (request : option wire_request)
    (response : option wire_response) (out_should_close : option bool) (descriptor_handle : Z)
    (out_response_descriptor : option Z) : M (option wire_response * option bool * option Z) :=
  let out_response_descriptor := (λ _, LLAM_INVALID_HANDLE) <$> out_response_descriptor in
  let refuse (r : wire_response) (out_should_close : option bool) e :=
    llam_broker_close_unclaimed_descriptor descriptor_handle ;;
    mret (Some (llam_broker_response_error r e), out_should_close, out_response_descriptor) in
  match response with
  | None =>
      llam_broker_close_unclaimed_descriptor descriptor_handle ;;
      set_errno EINVAL ;;
      mret (None, out_should_close, out_response_descriptor)
  | Some _ =>
      let r := llam_broker_response_init_empty in
      let out_should_close := (λ _, false) <$> out_should_close in
      match request with
      | None => refuse r out_should_close EINVAL
      | Some request =>
          if negb (wr_magic request =? LLAM_BROKER_WIRE_MAGIC)
             || negb (wr_version request =? LLAM_BROKER_WIRE_VERSION)
          then refuse r out_should_close EINVAL
          else if negb (llam_handle_is_invalid descriptor_handle)
                  && negb (wr_op request =? LLAM_BROKER_WIRE_OP_REGISTER_DESCRIPTOR)
          then refuse r out_should_close EINVAL
          else
            rc ← llam_broker_begin_op;
            if negb (rc =? 0) then
              e ← get_errno;
              refuse r out_should_close (if negb (e =? 0) then e else EINVAL)
            else
              b ← gets w_broker;
              let r := llam_broker_response_bind_broker b r in
              x ← wire_dispatch request r descriptor_handle out_response_descriptor;
              llam_broker_end_op ;;
              mret (Some x.1,
                    (if wr_op request =? LLAM_BROKER_WIRE_OP_STOP then (λ _, true) <$> out_should_close
                     else out_should_close), x.2)
      end
  end.

Definition llam_broker_process_request_with_descriptor (request : option wire_request)
    (response : option wire_response) (out_should_close : option bool) (descriptor_handle : Z) :
    M (option wire_response * option bool) :=
  r ← llam_broker_process_request_with_descriptors request response out_should_close descriptor_handle None;
  mret r.1.

Definition llam_broker_process_request (request : option wire_request)
    (response : option wire_response) (out_should_close : option bool) :
    M (option wire_response * option bool) :=
  llam_broker_process_request_with_descriptor request response out_should_close LLAM_INVALID_HANDLE.

(** ** What a response contains *)

(** The bytes of a cleared data field. *)
Definition no_data : list Z := wp_data zero_response.

(** The operations that read into the data field. *)
Definition reads (op : Z) : bool :=
  (op =? LLAM_BROKER_WIRE_OP_BUFFER_READ) || (op =? LLAM_BROKER_WIRE_OP_CHANNEL_RECV)
  || (op =? LLAM_BROKER_WIRE_OP_DESCRIPTOR_READ).

(** The operations that answer with a token. *)
Definition grants (op : Z) : bool :=
  creates_grant op || (op =? LLAM_BROKER_WIRE_OP_ATTENUATE_CAP) || (op =? LLAM_BROKER_WIRE_OP_REVOKE_CAP).

(** A failure names its reason and carries nothing else. *)
Record failed_clean (r : wire_response) : Prop := {
  fc_status : wp_status r = -1;
  fc_error : wp_error_code r ≠ 0;
  fc_results : wp_result0 r = 0 ∧ wp_result1 r = 0 ∧ wp_result2 r = 0;
  fc_token : wp_token r = zero_token;
  fc_data : wp_data r = no_data;
}.

(** A success carries a token only if [granted], and data only in the first
    [n] bytes of the field. *)
Record succeeded (granted : bool) (n : nat) (r : wire_response) : Prop := {
  su_status : wp_status r = 0;
  su_error : wp_error_code r = 0;
  su_token : granted = false → wp_token r = zero_token;
  su_length : length (wp_data r) = length no_data;
  su_data : drop n (wp_data r) = drop n no_data;
}.

Definition framed (r : wire_response) : Prop :=
  wp_magic r = LLAM_BROKER_WIRE_MAGIC ∧ wp_version r = LLAM_BROKER_WIRE_VERSION.

Definition answer_ok (granted : bool) (n : nat) (r : wire_response) : Prop :=
  framed r ∧ (failed_clean r ∨ succeeded granted n r).

(** The response an operation starts from. *)
Definition blank_response (r : wire_response) : Prop :=
  framed r ∧ wp_status r = 0 ∧ wp_error_code r = 0 ∧ wp_token r = zero_token ∧ wp_data r = no_data.

Lemma error_clean r e : framed r → framed (llam_broker_response_error r e) ∧ failed_clean (llam_broker_response_error r e).
Proof.
  intros F. split; [exact F|]. split; try done. unfold llam_broker_response_error. cbn.
  destruct (e =? 0) eqn:E; cbn; [done|]. rewrite E. cbn. by bools.
Qed.

Section answers.
Context (granted : bool) (n : nat).

Lemma answer_error r e : framed r → answer_ok granted n (llam_broker_response_error r e).
Proof. intros F. destruct (error_clean r e F). split; [done|by left]. Qed.

Lemma answer_errno r : framed r → gives (answer_ok granted n) (response_errno r).
Proof. intros F w. by apply answer_error. Qed.

Lemma answer_success r : framed r → succeeded granted n r → answer_ok granted n r.
Proof. intros F S. split; [done|by right]. Qed.

Lemma succeeded_blank r : blank_response r → succeeded granted n r.
Proof. intros (_&H1&H2&H3&H4). split; try done; by rewrite H4. Qed.

Lemma succeeded_results a b c r : succeeded granted n r → succeeded granted n (set_wp_results a b c r).
Proof. intros []. by split. Qed.

Lemma succeeded_status r : succeeded granted n r → succeeded granted n (set_wp_status 0 r).
Proof. intros []. by split. Qed.

Lemma succeeded_token t r : granted = true → succeeded granted n r → succeeded granted n (set_wp_token t r).
Proof. intros -> []. by split. Qed.
End answers.

Section operations.
Context (granted : bool) (n : nat) (r : wire_response) (F : framed r) (S : succeeded granted n r).

Lemma respond_answers rc : gives (answer_ok granted n) (respond rc r).
Proof. apply gives_if; intros _; [apply gives_ret, answer_success; [done|by apply succeeded_status]|by apply answer_errno]. Qed.

Lemma respond_token_answers t : granted = true → gives (answer_ok granted n) (respond_token t r).
Proof.
  intros Hg. apply gives_if; intros _; [|by apply answer_errno].
  apply gives_ret, answer_success; [done|]. by apply succeeded_status, succeeded_token.
Qed.

Lemma success_result v : answer_ok granted n (set_wp_result0 v (set_wp_status 0 r)).
Proof. apply answer_success; [done|]. by apply succeeded_results, succeeded_status. Qed.

Lemma respond_count_answers v : gives (answer_ok granted n) (respond_count v r).
Proof. apply gives_if; intros _; [apply gives_ret, success_result|by apply answer_errno]. Qed.
End operations.

(** A reader changes the data field only within the bytes it was given. *)
Lemma read_data_within r len read :
  blank_response r → llam_broker_wire_length_valid len = true →
  (∀ old, (length old <= Z.to_nat len)%nat → gives (fills len) (read (Some old))) →
  gives (λ x, framed x.2 ∧ succeeded false (Z.to_nat len) x.2) (read_data r len read).
Proof.
  intros (F&H1&H2&H3&H4) Hlen Hread. unfold llam_broker_wire_length_valid in Hlen.
  apply andb_prop in Hlen as [[H5 H6]%andb_prop _]. bools.
  eapply gives_bind_out; [apply Hread, length_bytes_at_le|]. intros [rc o] (out&Ho&Hout). cbn in Ho. subst o.
  apply gives_ret. split; [done|]. cbn [snd default from_option id].
  assert (length no_data = Z.to_nat LLAM_BROKER_WIRE_DATA_BYTES) as Hn by done.
  assert (length out <= length no_data)%nat.
  { rewrite Hn. etrans; [exact Hout|]. apply Z2Nat.inj_le; [lia|done|exact H6]. }
  split; try done; cbn -[no_data]; rewrite H4.
  - apply length_memcpy_at. lia.
  - apply drop_memcpy; lia.
Qed.

Lemma wire_op_answers request r :
  blank_response r →
  gives (answer_ok (grants (wr_op request)) (if reads (wr_op request) then Z.to_nat (wr_length request) else O))
    (wire_op request r).
Proof.
  intros Hr. pose proof Hr as (F&_).
  assert (∀ g n, succeeded g n r) as S by (intros; by apply succeeded_blank).
  unfold wire_op, with_length, wire_serve_ring, wire_spawn.
  repeat match goal with |- gives _ (if wr_op request =? ?c then _ else _) =>
    destruct (Z.eqb_spec (wr_op request) c) as [E|_];
      [rewrite E|] end;
  repeat first
    [ intros old Hold; first [by apply read_buffer_fills | by apply channel_recv_fills | by apply read_handle_fills]
    | solve [apply gives_ret; by apply answer_error]
    | solve [by apply answer_errno]
    | solve [by apply respond_answers]
    | solve [by apply respond_token_answers]
    | solve [by apply respond_count_answers]
    | solve [apply gives_ret; by apply success_result]
    | apply gives_if; intros ?
    | eapply gives_bind_out; [apply read_data_within; [done|by apply negb_false_iff|]|intros x [Fx Sx]]
    | apply gives_bind; intros ? ].
Qed.

Definition ring_created (x : Z * option Z * option Z) : Prop :=
  x.1.1 = 0 ∨ x.1.1 = -1 ∧ x.1.2 = Some LLAM_INVALID_HANDLE.

Lemma create_ring_reports d s : gives ring_created (llam_broker_transport_create_ring (Some d) s).
Proof.
  assert (∀ i, gives ring_created (mret (-1, Some LLAM_INVALID_HANDLE, i))) as Hfail by (intros i; apply gives_ret; by right).
  unfold llam_broker_transport_create_ring. cbn [fmap option_fmap option_map].
  apply gives_on_broker; [by apply gives_bind; intros|]. intros b.
  repeat first
    [ apply Hfail | by apply gives_ret; left | apply gives_if; intros _ | apply gives_bind; intros ? ].
Qed.

(** The response, and a descriptor only with the response of a new ring. *)
Definition answered (op : Z) (n : nat) (x : wire_response * option Z) : Prop :=
  answer_ok (grants op) n x.1 ∧
  ∀ d, x.2 = Some d → d ≠ LLAM_INVALID_HANDLE → op = LLAM_BROKER_WIRE_OP_CREATE_RING ∧ wp_status x.1 = 0.

Lemma wire_create_ring_answers r out :
  blank_response r →
  gives (answered LLAM_BROKER_WIRE_OP_CREATE_RING O) (wire_create_ring r ((λ _ : Z, LLAM_INVALID_HANDLE) <$> out)).
Proof.
  intros Hr. pose proof Hr as (F&_). assert (∀ g n, succeeded g n r) as S by (intros; by apply succeeded_blank).
  unfold wire_create_ring. destruct out as [o|]; cbn [fmap option_fmap option_map is_null].
  2: { apply gives_ret. split; [by apply answer_error|done]. }
  eapply gives_bind_out; [apply create_ring_reports|]. intros [[rc d] i] Hx. cbn [fst snd] in *.
  apply gives_if; intros E; bools.
  - apply gives_ret. split; [apply answer_success; [done|by apply succeeded_results, succeeded_status]|done].
  - destruct Hx as [?|[_ Hx]]; [done|]. cbn in Hx. subst d.
    eapply gives_bind_out; [by apply (answer_errno false O)|]. intros r' Hr'. apply gives_ret. split; [done|].
    intros d [= <-] Hd. by destruct Hd.
Qed.

Lemma wire_register_answers request r fd :
  blank_response r → gives (answer_ok true O) (wire_register request r fd).
Proof.
  intros Hr. pose proof Hr as (F&_). pose proof (succeeded_blank true O r Hr) as S. unfold wire_register.
  repeat first
    [ solve [apply gives_ret; by apply answer_error]
    | solve [apply gives_ret, answer_success; [done|]; by apply succeeded_status, succeeded_token]
    | apply gives_if; intros _
    | apply gives_bind; intros ? ].
Qed.

Lemma blank_bound b : blank_response (llam_broker_response_bind_broker b llam_broker_response_init_empty).
Proof. done. Qed.

(** What the caller of the protocol sees of the dispatch. *)
Definition dispatched (request : wire_request) (x : wire_response * option Z) : Prop :=
  answered (wr_op request) (if reads (wr_op request) then Z.to_nat (wr_length request) else O) x ∧
  (wr_op request = LLAM_BROKER_WIRE_OP_ISSUE_CAP ∨ wr_op request = LLAM_BROKER_WIRE_OP_REVOKE_ALL →
     wp_status x.1 = -1) ∧
  (wr_op request = LLAM_BROKER_WIRE_OP_STOP → wp_status x.1 = 0).

Lemma wire_op_status request r w :
  (wr_op request = LLAM_BROKER_WIRE_OP_ISSUE_CAP ∨ wr_op request = LLAM_BROKER_WIRE_OP_REVOKE_ALL →
     wp_status (wire_op request r w).1 = -1) ∧
  (wr_op request = LLAM_BROKER_WIRE_OP_STOP → wp_status (wire_op request r w).1 = 0).
Proof. split; unfold wire_op; [by intros [-> | ->]|by intros ->]. Qed.

Lemma wire_dispatch_answers request r fd out :
  blank_response r →
  gives (dispatched request) (wire_dispatch request r fd ((λ _ : Z, LLAM_INVALID_HANDLE) <$> out)).
Proof.
  intros Hr.
  assert (∀ op d, (λ _ : Z, LLAM_INVALID_HANDLE) <$> out = Some d → d ≠ LLAM_INVALID_HANDLE → op) as Hd.
  { intros op d. destruct out; [|done]. by intros [= <-] []. }
  unfold wire_dispatch. apply gives_if; intros E1; bools.
  { intros w. split; [rewrite E1; by apply wire_create_ring_answers|rewrite E1; split; [by intros [|]|done]]. }
  apply gives_if; intros E2; bools.
  - eapply gives_bind_out; [by apply wire_register_answers|]. intros r' Hr'. apply gives_ret.
    unfold dispatched, answered. rewrite E2. split_and!; [done|intros; by eapply Hd|by intros [|]|done].
  - intros w. pose proof (wire_op_answers request r Hr w) as Ha. destruct (wire_op_status request r w) as [H1 H2].
    mon. destruct (wire_op request r w) as [r' w']. mon.
    split; [split; [exact Ha|intros; by eapply Hd]|split; [exact H1|exact H2]].
Qed.

(** What the caller of the protocol sees. *)
Record exchange (request : wire_request) (x : option wire_response * option bool * option Z)
    (r : wire_response) : Prop := {
  ex_response : x.1.1 = Some r;
  ex_answer : answer_ok (grants (wr_op request))
                (if reads (wr_op request) then Z.to_nat (wr_length request) else O) r;
  ex_close : x.1.2 = Some true → wr_op request = LLAM_BROKER_WIRE_OP_STOP ∧ wp_status r = 0;
  ex_descriptor : ∀ d, x.2 = Some d → d ≠ LLAM_INVALID_HANDLE →
    wr_op request = LLAM_BROKER_WIRE_OP_CREATE_RING ∧ wp_status r = 0;
  ex_management : wr_op request = LLAM_BROKER_WIRE_OP_ISSUE_CAP ∨
                  wr_op request = LLAM_BROKER_WIRE_OP_REVOKE_ALL → wp_status r = -1;
}.

(** C37: Whatever a client sends, the response is well framed and is either a
    failure that names an error and carries no token, no result and no data, or
    a success whose token is empty unless the operation grants one and whose data
    is empty beyond the length the client asked to read.  Minting and global
    revocation always fail, only a stop closes the connection, and a descriptor
    accompanies only the response of a new ring. *)
Theorem responses_carry_no_stray_authority request response close fd out w :
  ∃ r, exchange request
    (llam_broker_process_request_with_descriptors (Some request) (Some response) close fd out w).1 r.
Proof.
  assert (∀ e (c : option bool), gives (λ x, ∃ r, exchange request x r)
    (llam_broker_close_unclaimed_descriptor fd ;;
     mret (Some (llam_broker_response_error llam_broker_response_init_empty e), (λ _ : bool, false) <$> c,
           (λ _ : Z, LLAM_INVALID_HANDLE) <$> out))) as Hrefuse.
  { intros e c. apply gives_bind. intros _. apply gives_ret. eexists. split; [done| | | |done].
    - by apply answer_error.
    - by destruct c.
    - intros d. destruct out; [|done]. by intros [= <-] []. }
  revert w. change (gives (λ x, ∃ r, exchange request x r)
    (llam_broker_process_request_with_descriptors (Some request) (Some response) close fd out)).
  unfold llam_broker_process_request_with_descriptors.
  repeat (apply gives_if; intros _; [apply Hrefuse|]). apply gives_bind. intros rc.
  apply gives_if; intros _; [apply gives_bind; intros e; apply Hrefuse|]. apply gives_bind. intros b.
  eapply gives_bind_out; [by apply wire_dispatch_answers|].
  intros x ([Ha Hd]&Hm&Hs). apply gives_bind. intros _. apply gives_ret. exists x.1. split; try done.
  cbn [fst snd]. destruct (Z.eqb_spec (wr_op request) LLAM_BROKER_WIRE_OP_STOP); [by auto|]. by destruct close.
Qed.

(** ** Every request moves the broker forward *)

(** The fields of a request have their widths. *)
Definition request_wf (r : wire_request) : Prop :=
  is_u64 (wr_slot r) ∧ is_u64 (wr_offset r) ∧ is_u64 (wr_length r) ∧ is_u64 (wr_rights r).

Lemma advance_close_handle h : pres advance (llam_broker_close_handle h).
Proof. unfold llam_broker_close_handle, llam_broker_close_fd. advance_walk. Qed.

#[export] Hint Resolve advance_close_handle : llam_advance.

Lemma advance_close_unclaimed h : pres advance (llam_broker_close_unclaimed_descriptor h).
Proof. unfold llam_broker_close_unclaimed_descriptor. advance_walk. Qed.

Lemma advance_transport_join t o : pres advance (llam_broker_transport_join_task t o).
Proof. unfold llam_broker_transport_join_task, runtime_run_handle. advance_walk. Qed.

Lemma advance_transport_create_ring d s : pres advance (llam_broker_transport_create_ring d s).
Proof. unfold llam_broker_transport_create_ring. advance_walk. Qed.

Lemma advance_rights a b o : pres advance (llam_broker_transport_rights a b o).
Proof. unfold llam_broker_transport_rights. advance_walk. Qed.

Lemma advance_response_errno r : pres advance (response_errno r).
Proof. unfold response_errno. advance_walk. Qed.

#[export] Hint Resolve advance_close_unclaimed advance_transport_join advance_transport_create_ring advance_rights
  advance_response_errno : llam_advance.

Lemma advance_create_grant request c o :
  request_wf request → pres advance (llam_broker_transport_create_grant (Some request) c o).
Proof.
  intros (H&_). assert (0 <= wr_slot request) by (unfold is_u64 in H; lia).
  unfold llam_broker_transport_create_grant. advance_walk.
Qed.

Lemma advance_wire_op request r : request_wf request → pres advance (wire_op request r).
Proof.
  intros Hwf. pose proof Hwf as (_&U1&U2&_). assert (0 <= wr_length request) by (unfold is_u64 in U2; lia).
  pose proof (advance_create_grant request).
  unfold wire_op, wire_spawn, wire_serve_ring, with_length, read_data, respond_token, respond, respond_count.
  advance_walk.
Qed.

Lemma advance_process request response close fd out :
  (∀ r, request = Some r → request_wf r) →
  pres advance (llam_broker_process_request_with_descriptors request response close fd out).
Proof.
  intros Hwf. destruct request as [request|].
  - pose proof (λ r, advance_wire_op request r (Hwf request eq_refl)).
    unfold llam_broker_process_request_with_descriptors, wire_dispatch, wire_create_ring, wire_register. advance_walk.
  - unfold llam_broker_process_request_with_descriptors. advance_walk.
Qed.

(** ** The books of a request *)

(** The descriptor [fd], if it is one. *)
Definition one_fd (fd : Z) : Z → Z := λ k, if 0 <=? fd then one fd k else 0.

Lemma close_handle_spends fd w : spends (λ k, - one_fd fd k) none w (llam_broker_close_handle fd w).2.
Proof.
  unfold llam_broker_close_handle, llam_broker_close_fd, one_fd. destruct (0 <=? fd); [apply spends_close|].
  apply spends_net, net_same; done.
Qed.

Lemma close_unclaimed_spends fd w : spends (λ k, - one_fd fd k) none w (llam_broker_close_unclaimed_descriptor fd w).2.
Proof.
  unfold llam_broker_close_unclaimed_descriptor, llam_handle_is_invalid.
  destruct (Z.eqb_spec fd LLAM_INVALID_HANDLE) as [->|]; [|apply close_handle_spends].
  apply spends_net, net_same; done.
Qed.

Lemma tidy_spends w w' : tidy w w' → spends none none w w'.
Proof. done. Qed.

(** How creating a ring for a client ends. *)
Definition ring_handed (w : world) (r : Z * option Z * option Z) (w' : world) : Prop :=
  (∃ d id, r = (0, Some d, Some id) ∧ 0 <= d ∧ 1 <= id ∧ spends (one d) none w w')
  ∨ ∃ id, r = (-1, Some LLAM_INVALID_HANDLE, id) ∧ tidy w w'.

Lemma unmap_spends m w :
  mapping_ok m →
  spends (λ k, - one (rm_fd m) k) (λ k, - one (rm_ring m) k) w (llam_broker_ring_unmap (Some m) w).2.
Proof.
  intros (M1&M2&M3). apply spends_net. destruct (unmap_net m w) as [_ N]; [done|by rewrite M2|done|]. exact N.
Qed.

(** Worlds in which the books are kept. *)
Record open_books (w : world) : Prop := {
  ob_world : world_ok w;
  ob_broker : is_Some (w_broker w);
  ob_sessions : sessions_ok w;
}.

Lemma spends_open F G w w' : spends F G w w' → open_books w → open_books w'.
Proof.
  intros [A B] [H1 H2 H3]. destruct (advance_alive _ _ A H1 H2). split; [done..|].
  by destruct (B H1 H2 H3) as (?&_).
Qed.

Lemma register_mapping_spends m s o w :
  mapping_ok m → open_books w →
  wp (llam_broker_ring_register_mapping (Some m) s (Some o)) (λ r w',
    (r = (-1, Some m, Some 0) ∧ tidy w w') ∨
    ∃ id, 1 <= id ∧ r = (0, Some reset_mapping, Some id) ∧
      spends (λ k, - one (rm_fd m) k) (λ k, - one (rm_ring m) k) w w') w.
Proof.
  intros Hm [H1 H2 H3]. pose proof (advance_register_mapping (Some m) s (Some o) w) as A. unfold wp.
  destruct (register_mapping_cases m s o w Hm H3) as [[-> B]|(i&->&_&B)].
  - left. split; [done|]. by split.
  - right. eexists. split; [|split; [done|]]; [lia|]. by split.
Qed.

(** The mapping and the client's descriptor [fd] are ready: they are handed
    over, or both released. *)
Lemma hand_over_ring m fd w0 w :
  mapping_ok m → 0 <= fd → open_books w0 →
  spends (λ k, one (rm_fd m) k + one fd k) (one (rm_ring m)) w0 w →
  wp (subject ← llam_broker_current_subject;
      r ← llam_broker_ring_register_mapping (Some m) subject (Some 0);
      if negb (r.1.1 =? 0) then
        saved_errno ← get_errno;
        llam_broker_close_handle fd ;;
        llam_broker_ring_unmap r.1.2 ;;
        set_errno saved_errno ;;
        mret (-1, Some LLAM_INVALID_HANDLE, r.2)
      else mret (0, Some fd, r.2)) (ring_handed w0) w.
Proof.
  intros Hm Hfd Hw N. apply wp_bind. unfold wp at 1. rewrite current_subject_run. cbn [fst snd].
  apply wp_bind. eapply wp_mono; [apply (register_mapping_spends m _ _ w Hm); by eapply spends_open|].
  intros r w1 [[-> T]|(id&Hid&->&T)]; cbn [fst snd Z.eqb negb].
  - apply wp_bind. unfold wp at 1. cbn [get_errno gets fst snd].
    pose proof (close_handle_spends fd w1) as C. apply wp_bind. unfold wp at 1.
    destruct (llam_broker_close_handle fd w1) as [[] w2]. cbn [fst snd] in *.
    pose proof (unmap_spends m w2 Hm) as U. apply wp_bind. unfold wp at 1.
    destruct (llam_broker_ring_unmap (Some m) w2) as [x w3]. cbn [fst snd] in *.
    right. eexists. split; [done|].
    apply spends_errno. eapply spends_trans; [eapply spends_trans; [eapply spends_tidy; [exact N|exact T]|exact C|done|done]|exact U|..];
      intros k; unfold one_fd; rewrite ?(proj2 (Z.leb_le 0 fd) Hfd); cbn; lia.
  - left. eexists fd, id. split_and!; [done..|].
    eapply spends_trans; [exact N|exact T|..]; intros k; cbn; lia.
Qed.

Lemma create_ring_handed d s w :
  open_books w → wp (llam_broker_transport_create_ring (Some d) (Some s)) (ring_handed w) w.
Proof.
  intros Hw. pose proof (ob_broker w Hw) as [b Hb]. unfold llam_broker_transport_create_ring.
  cbn [fmap option_fmap option_map]. eapply wp_on_broker; [exact Hb|]. cbn [is_null orb].
  apply wp_bind. eapply wp_mono; [apply create_private_fd_settled|].
  intros r w1 [(m&->&Hm&N&_)|[-> N]]; cbn [fst snd Z.eqb negb].
  2: { apply wp_ret. right. eexists. split; [done|]. by apply spends_net in N. }
  apply spends_net in N. cbn [default from_option id]. apply wp_bind. unfold wp at 1.
  destruct (dup_net (rm_fd m) w1) as [[Hd D]|[Hd D]]; apply spends_net in D;
    destruct (llam_broker_dup_cloexec_fd (rm_fd m) w1) as [fd w2]; cbn [fst snd] in *.
  - rewrite (proj2 (Z.ltb_lt fd 0)) by done. apply wp_bind. unfold wp at 1. cbn [get_errno gets fst snd].
    pose proof (unmap_spends m w2 Hm) as U. apply wp_bind. unfold wp at 1.
    destruct (llam_broker_ring_unmap (Some m) w2) as [x w3]. cbn [fst snd] in *.
    right. eexists. split; [done|].
    apply spends_errno. eapply spends_trans; [eapply spends_tidy; [exact N|exact D]|exact U|..]; intros k; unfold owns_fd; cbn; lia.
  - rewrite (proj2 (Z.ltb_ge fd 0)) by done. apply hand_over_ring; [done..|].
    eapply spends_trans; [exact N|exact D|..]; intros k; unfold owns_fd; cbn; lia.
Qed.

Lemma register_handle_spends h rights old w :
  open_books w →
  wp (llam_broker_register_handle h rights true (Some old)) (λ r w',
    (r.1 = 0 ∧ spends (λ k, - one_fd h k) none w w') ∨ (r.1 = -1 ∧ tidy w w')) w.
Proof.
  intros [Hok [b Hb] Hs]. unfold wp.
  pose proof (advance_register_handle h rights true (Some old) w) as A.
  pose proof (pres_aside_register_handle h rights true (Some old) w) as B.
  destruct (register_ledger w b h rights true old Hok Hb) as [[-> L]|(t&->&Hh&L)].
  - right. split; [done|]. split; [done|]. intros _ _. by apply balanced_aside.
  - left. split; [done|]. split; [done|]. intros _ _. apply booked_aside; [done|]. intros k Hk. rewrite (L k Hk).
    unfold one_fd. rewrite (proj2 (Z.leb_le 0 h) Hh). unfold one. cbn. lia.
Qed.

(** What comes with a response, less what came with the request. *)
Definition exchanged_fds (fd : Z) (d : option Z) : Z → Z := λ k, one_fd (default (-1) d) k - one_fd fd k.

Lemma wire_register_books request r fd w :
  open_books w → wp (wire_register request r fd) (λ _ w', spends (λ k, - one_fd fd k) none w w') w.
Proof.
  intros Hw. unfold wire_register. apply wp_if; intros E.
  { unfold llam_handle_is_invalid in E. bools. subst fd. apply wp_ret. by apply spends_net, net_same. }
  eapply (wp_pres tidy); [tidy_walk|reflexivity|]. intros g w1 H1.
  pose proof (spends_open _ _ _ _ H1 Hw) as Hw1. apply wp_if; intros _.
  - apply wp_bind. unfold wp at 1. cbn [get_errno gets fst snd]. apply wp_bind. unfold wp at 1.
    pose proof (close_handle_spends fd w1) as C. destruct (llam_broker_close_handle fd w1) as [[] w2]. apply wp_ret.
    eapply spends_trans; [exact H1|exact C|done..].
  - apply wp_bind. eapply wp_mono; [by apply register_handle_spends|]. intros t w2 [[Ht H2]|[Ht H2]]; rewrite Ht; cbn [Z.eqb].
    + apply wp_ret. eapply spends_trans; [exact H1|exact H2|done..].
    + apply wp_bind. unfold wp at 1. cbn [get_errno gets fst snd]. apply wp_bind. unfold wp at 1.
      pose proof (close_handle_spends fd w2) as C. destruct (llam_broker_close_handle fd w2) as [[] w3]. apply wp_ret.
      eapply spends_trans; [etrans; [exact H1|exact H2]|exact C|done..].
Qed.

Lemma wire_create_ring_books r out w :
  open_books w → wp (wire_create_ring r ((λ _ : Z, LLAM_INVALID_HANDLE) <$> out))
    (λ x w', spends (one_fd (default (-1) x.2)) none w w') w.
Proof.
  intros Hw. unfold wire_create_ring. destruct out as [o|]; cbn [fmap option_fmap option_map is_null].
  2: { apply wp_ret. by apply spends_net, net_same. }
  apply wp_bind. eapply wp_mono; [by apply create_ring_handed|].
  intros x w1 [(d&sid&->&Hd&_&H1)|(sid&->&H1)]; cbn [fst snd Z.eqb].
  - apply wp_ret. cbn [snd default from_option id]. eapply spends_eq; [exact H1| |done]. intros k. unfold one_fd.
    by rewrite (proj2 (Z.leb_le 0 d) Hd).
  - apply wp_bind. unfold wp at 1, response_errno. mon. apply wp_ret. cbn [snd default from_option id].
    eapply spends_eq; [exact H1|done|done].
Qed.

Lemma tidy_wire_op request r : request_wf request → pres tidy (wire_op request r).
Proof.
  intros Hwf. pose proof Hwf as (U0&U1&U2&_). assert (0 <= wr_length request) by (unfold is_u64 in U2; lia).
  assert (0 <= wr_slot request) by (unfold is_u64 in U0; lia).
  unfold wire_op, wire_spawn, wire_serve_ring, with_length, read_data, respond_token, respond, respond_count,
    response_errno, llam_broker_transport_rights, llam_broker_transport_create_grant, llam_broker_transport_join_task,
    runtime_run_handle.
  tidy_walk.
Qed.

Lemma wire_dispatch_books request r fd out w :
  open_books w → request_wf request →
  (fd = LLAM_INVALID_HANDLE ∨ wr_op request = LLAM_BROKER_WIRE_OP_REGISTER_DESCRIPTOR) →
  wp (wire_dispatch request r fd ((λ _ : Z, LLAM_INVALID_HANDLE) <$> out))
    (λ x w', spends (exchanged_fds fd x.2) none w w') w.
Proof.
  intros Hw Hwf Hfd.
  assert (∀ k, one_fd (default (-1) ((λ _ : Z, LLAM_INVALID_HANDLE) <$> out)) k = 0) as Ho by (by destruct out).
  unfold wire_dispatch. apply wp_if; intros E1; bools.
  { destruct Hfd as [->|E]; [|by rewrite E in E1]. eapply wp_mono; [by apply wire_create_ring_books|].
    intros x w' H. eapply spends_eq; [exact H| |done]. intros k. unfold exchanged_fds, one_fd at 2. cbn. lia. }
  apply wp_if; intros E2; bools.
  - apply wp_bind. eapply wp_mono; [by apply wire_register_books|]. intros r' w' H. apply wp_ret.
    eapply spends_eq; [exact H| |done]. intros k. unfold exchanged_fds. cbn [snd]. rewrite Ho. lia.
  - destruct Hfd as [->|]; [|done]. eapply (wp_pres tidy); [by apply tidy_wire_op|reflexivity|]. intros r' w' H.
    apply wp_ret. eapply spends_eq; [exact H| |done]. intros k. unfold exchanged_fds. cbn [snd]. rewrite Ho. done.
Qed.

Lemma process_books request response close fd out w :
  open_books w → (∀ r, request = Some r → request_wf r) →
  wp (llam_broker_process_request_with_descriptors request response close fd out)
    (λ x w', spends (exchanged_fds fd x.2) none w w') w.
Proof.
  intros Hw Hwf. set (o := (λ _ : Z, LLAM_INVALID_HANDLE) <$> out).
  assert (∀ k, one_fd (default (-1) o) k = 0) as Ho by (subst o; by destruct out).
  assert (∀ A (a : A) w1, tidy w w1 → wp (llam_broker_close_unclaimed_descriptor fd ;; mret (a, o))
    (λ x w', spends (exchanged_fds fd x.2) none w w') w1) as Hrefuse.
  { intros A a w1 H1. apply wp_bind. unfold wp at 1. pose proof (close_unclaimed_spends fd w1) as C.
    destruct (llam_broker_close_unclaimed_descriptor fd w1) as [[] w2]. apply wp_ret.
    eapply spends_trans; [exact H1|exact C|..]; intros k; unfold exchanged_fds; cbn [snd]; rewrite ?Ho; cbn; lia. }
  unfold llam_broker_process_request_with_descriptors. fold o.
  destruct response as [response|].
  2: { apply wp_bind. unfold wp at 1. pose proof (close_unclaimed_spends fd w) as C.
       destruct (llam_broker_close_unclaimed_descriptor fd w) as [[] w1]. unfold wp. mon.
       apply spends_errno. eapply spends_eq; [exact C| |done]. intros k. unfold exchanged_fds. cbn [snd]. rewrite Ho. cbn. lia. }
  destruct request as [request|]; [|by apply Hrefuse]. specialize (Hwf request eq_refl).
  apply wp_if; intros _; [by apply Hrefuse|]. apply wp_if; intros Hc; [by apply Hrefuse|].
  eapply (wp_pres tidy); [tidy_walk|reflexivity|]. intros rc w1 H1. apply wp_if; intros _.
  { eapply (wp_pres tidy); [tidy_walk|exact H1|]. intros e w2 H2. by apply Hrefuse. }
  eapply (wp_pres tidy); [tidy_walk|exact H1|]. intros b w2 H2. apply wp_bind.
  eapply wp_mono; [apply wire_dispatch_books; [by eapply spends_open|done|]|].
  { apply andb_false_iff in Hc as [Hc|Hc]; bools; [left|by right]. unfold llam_handle_is_invalid in Hc. by bools. }
  intros x w3 H3. eapply (wp_pres tidy _ _ _ w3); [tidy_walk|reflexivity|]. intros _ w4 H4. apply wp_ret.
  eapply spends_tidy; [|exact H4]. eapply spends_trans; [exact H2|exact H3|..]; intros k; cbn; lia.
Qed.
