(* ===== verification/Codec.v ===== *)
(** * Bytes on the wire

    The memory images of requests and responses, which are what crosses a
    control connection ([src/internal/runtime_broker.h]), and the walk over
    ancillary data that collects received descriptors
    ([llam_broker_collect_received_fds] of
    [src/core/broker/transport/broker_transport_posix_message.c]).  The images
    round-trip; the walk reads only bytes it was given, stops, and finds exactly
    the descriptors the kernel installed, however the control data was cut. *)

From S2P Require Import Prelude World Capability BrokerOps Rollback.

(** ** Little-endian fields *)

(** The number stored in some bytes of memory. *)
Definition byte_value (l : list Z) : Z := foldr (λ b acc, u8 b + 256 * acc) 0 l.

Definition field (off len : nat) (l : list Z) : Z := byte_value (bytes_at off len l).

(** A 32-bit pattern as an [int]. *)
Definition s32 (x : Z) : Z := if x <? 2 ^ 31 then x else x - 2 ^ 32.

Definition is_s32 (x : Z) : Prop := - 2 ^ 31 <= x < 2 ^ 31.

(** ** Memory images *)

Definition sizeof_request : Z := 416.
Definition sizeof_response : Z := 400.

Definition token_of_bytes (l : list Z) : capability_token :=
  CapToken (field 0 4 l) (field 4 4 l) (field 8 8 l) (field 16 8 l) (field 24 8 l) (field 32 8 l)
    (field 40 8 l) (field 48 8 l) (u8 <$> bytes_at 56 16 l) (u8 <$> bytes_at 72 16 l).

Definition image_of_token (t : capability_token) : list Z := token_bytes t ++ tok_mac t.

Definition image_of_request (r : wire_request) : list Z :=
  le32 (wr_magic r) ++ le32 (wr_version r) ++ le32 (wr_op r) ++ le32 (wr_reserved0 r)
  ++ le32 (wr_family r) ++ le32 (wr_reserved1 r)
  ++ llam_cap_write64_le (wr_slot r) ++ llam_cap_write64_le (wr_generation r)
  ++ llam_cap_write64_le (wr_rights r) ++ llam_cap_write64_le (wr_required_rights r)
  ++ llam_cap_write64_le (wr_offset r) ++ llam_cap_write64_le (wr_length r)
  ++ image_of_token (wr_token r) ++ wr_data r.

Definition request_of_bytes (l : list Z) : wire_request :=
  WireRequest (field 0 4 l) (field 4 4 l) (field 8 4 l) (field 12 4 l) (field 16 4 l) (field 20 4 l)
    (field 24 8 l) (field 32 8 l) (field 40 8 l) (field 48 8 l) (field 56 8 l) (field 64 8 l)
    (token_of_bytes (drop 72 l)) (u8 <$> bytes_at 160 256 l).

Definition image_of_response (r : wire_response) : list Z :=
  le32 (wp_magic r) ++ le32 (wp_version r) ++ le32 (u32 (wp_status r)) ++ le32 (u32 (wp_error_code r))
  ++ llam_cap_write64_le (wp_runtime_id r) ++ llam_cap_write64_le (wp_revocation_epoch r)
  ++ llam_cap_write64_le (wp_result0 r) ++ llam_cap_write64_le (wp_result1 r)
  ++ llam_cap_write64_le (wp_result2 r) ++ image_of_token (wp_token r) ++ wp_data r.

Definition response_of_bytes (l : list Z) : wire_response :=
  WireResponse (field 0 4 l) (field 4 4 l) (s32 (field 8 4 l)) (s32 (field 12 4 l))
    (field 16 8 l) (field 24 8 l) (field 32 8 l) (field 40 8 l) (field 48 8 l)
    (token_of_bytes (drop 56 l)) (u8 <$> bytes_at 144 256 l).

(** ** Ancillary data *)

Definition SOL_SOCKET : Z := 1.
Definition SCM_RIGHTS : Z := 1.
Definition LLAM_BROKER_SCM_RIGHTS_MAX_FDS : Z := 512.

(** [CMSG_LEN(0)], and the alignment of control messages. *)
Definition cmsg_header : Z := 16.
Definition cmsg_align : Z := 8.

(** [CMSG_SPACE(len)] *)
Definition cmsg_space (len : Z) : Z := cmsg_header + (len + (cmsg_align - 1)) / cmsg_align * cmsg_align.

(** The descriptors collected, those closed because there were too many, and
    whether the data was malformed. *)
Record collected := Collected { col_fds : list Z; col_closed : list Z; col_malformed : bool }.

Definition spoil (c : collected) : collected := Collected (col_fds c) (col_closed c) true.

(** One descriptor of a message. *)
Definition collect_fd (received_fd : Z) (c : collected) : collected :=
  if received_fd <? 0 then spoil c
  else if LLAM_BROKER_SCM_RIGHTS_MAX_FDS <=? Z.of_nat (length (col_fds c))
  then Collected (col_fds c) (col_closed c ++ [received_fd]) true
  else Collected (col_fds c ++ [received_fd]) (col_closed c) (col_malformed c).

(** The first [n] integers of a payload. *)
Fixpoint ints (n : nat) (data : list Z) : list Z :=
  match n with
  | O => []
  | S n => s32 (field 0 4 data) :: ints n (drop 4 data)
  end.

(** [control] is what is left between [cursor] and [control_end]. *)
Fixpoint collect_loop (fuel : nat) (control : list Z) (c : collected) : collected :=
  match fuel with
  | O => c
  | S fuel =>
      let remaining := Z.of_nat (length control) in
      if remaining =? 0 then c
      else if remaining <? cmsg_header then c
      else
        let claimed_len := field 0 8 control in
        if claimed_len <? cmsg_header then spoil c
        else
          let data := drop (Z.to_nat cmsg_header) control in
          let claimed_payload := claimed_len - cmsg_header in
          let available_payload := remaining - cmsg_header in
          let bounded_payload := Z.min claimed_payload available_payload in
          let c := if available_payload <? claimed_payload then spoil c else c in
          let c :=
            if (s32 (field 8 4 control) =? SOL_SOCKET) && (s32 (field 12 4 control) =? SCM_RIGHTS) then
              foldl (flip collect_fd) (if negb (claimed_payload mod 4 =? 0) then spoil c else c)
                (ints (Z.to_nat (bounded_payload / 4)) data)
            else c in
          if remaining <? claimed_len then spoil c
          else
            let remainder := claimed_len mod cmsg_align in
            let padding := if negb (remainder =? 0) then cmsg_align - remainder else 0 in
            if UINT64_MAX - padding <? claimed_len then spoil c
            else
              let advance := claimed_len + padding in
              if (advance =? 0) || (remaining <? advance) then c
              else collect_loop fuel (drop (Z.to_nat advance) control) c
  end.

(** Each round but the last skips at least a header, so the length of the
    buffer bounds the rounds. *)
Definition llam_broker_collect_received_fds (control : list Z) (control_capacity : Z) (c : collected) :
    collected :=
  let control_len := Z.of_nat (length control) in
  let c := if control_capacity <? control_len then spoil c else c in
  let control := take (Z.to_nat control_capacity) control in
  if Nat.eqb (length control) 0 then c else collect_loop (S (length control)) control c.

(** ** Fields of images *)

Lemma u8_idem x : u8 (u8 x) = u8 x.
Proof. unfold u8. by rewrite Z.mod_mod. Qed.

Lemma byte_value_range l : 0 <= byte_value l < 256 ^ Z.of_nat (length l).
Proof.
  induction l as [|b l IH]; [done|]. cbn [byte_value foldr length]. fold (byte_value l).
  rewrite Nat2Z.inj_succ, Z.pow_succ_r by lia. pose proof (Z.mod_pos_bound b 256 ltac:(lia)). unfold u8.
  change (2 ^ 8) with 256. lia.
Qed.

(** The low [n] bytes of a number. *)
Fixpoint le_bytes (n : nat) (v : Z) : list Z :=
  match n with O => [] | S n => u8 v :: le_bytes n (Z.shiftr v 8) end.

Lemma byte_value_le n v : byte_value (le_bytes n v) = v mod 256 ^ Z.of_nat n.
Proof.
  revert v. induction n as [|n IH]; intros v; [by rewrite Z.mod_1_r|].
  cbn [le_bytes byte_value foldr]. fold (byte_value (le_bytes n (Z.shiftr v 8))).
  rewrite IH, u8_idem, Z.shiftr_div_pow2, Nat2Z.inj_succ, Z.pow_succ_r by lia. unfold u8. change (2 ^ 8) with 256.
  rewrite Z.rem_mul_r by (try apply Z.pow_pos_nonneg; lia). lia.
Qed.

Lemma byte_value_le32 v : byte_value (le32 v) = u32 v.
Proof.
  assert (le32 v = le_bytes 4 v) as -> by (unfold le32; cbn [le_bytes]; by rewrite !Z.shiftr_shiftr by lia).
  apply byte_value_le.
Qed.

Lemma byte_value_write64 v : byte_value (llam_cap_write64_le v) = u64 v.
Proof.
  assert (llam_cap_write64_le v = le_bytes 8 v) as ->
    by (unfold llam_cap_write64_le; cbn [le_bytes]; by rewrite !Z.shiftr_shiftr by lia).
  apply byte_value_le.
Qed.

Lemma field_skip off n x l : (length x <= off)%nat → field off n (x ++ l) = field (off - length x) n l.
Proof. intros H. unfold field, bytes_at. by rewrite drop_app_ge. Qed.

Lemma field_head n x l : length x = n → field 0 n (x ++ l) = byte_value x.
Proof. intros <-. unfold field, bytes_at. by rewrite drop_0, take_app_length. Qed.

Lemma bytes_skip off n x l : (length x <= off)%nat → bytes_at off n (x ++ l) = bytes_at (off - length x) n l.
Proof. intros H. unfold bytes_at. by rewrite drop_app_ge. Qed.

Lemma bytes_head n x l : length x = n → bytes_at 0 n (x ++ l) = x.
Proof. intros <-. unfold bytes_at. by rewrite drop_0, take_app_length. Qed.

Ltac skip_fields :=
  repeat first
    [ rewrite field_head by (cbn; reflexivity || assumption)
    | rewrite bytes_head by (cbn; reflexivity || assumption)
    | rewrite field_skip by (cbn; lia)
    | rewrite bytes_skip by (cbn; lia)
    | match goal with H : length ?x = _ |- context [(_ - length ?x)%nat] => rewrite H end
    | progress cbn [length le32 llam_cap_write64_le Nat.sub] ].

Lemma bytes_u8 l : Forall is_byte l → u8 <$> l = l.
Proof.
  induction 1 as [|x l Hx _ IH]; [done|]. cbn. rewrite IH. f_equal. unfold u8. by apply Z.mod_small.
Qed.

Lemma token_image_length t : token_wf t → length (image_of_token t) = 88%nat.
Proof. intros H. unfold image_of_token. rewrite length_app, (token_bytes_length t (twf_nonce t H)), (twf_mac t H). done. Qed.

Lemma token_roundtrip t l : token_wf t → token_of_bytes (image_of_token t ++ l) = t.
Proof.
  intros [H1 H2 H3 H4 H5 H6 H7 H8 N1 N2 M1 M2]. unfold token_of_bytes, image_of_token, token_bytes. rewrite <- !app_assoc.
  change LLAM_CAPABILITY_NONCE_BYTES with 16%nat in N1. change LLAM_CAPABILITY_MAC_BYTES with 16%nat in M1.
  skip_fields. rewrite !byte_value_le32, !byte_value_write64.
  destruct t. cbn in *. by rewrite !u32_small, !u64_small, !bytes_u8 by done.
Qed.

(** The fields of a frame are within their C types. *)
Record request_frame (r : wire_request) : Prop := {
  rf_words : is_u32 (wr_magic r) ∧ is_u32 (wr_version r) ∧ is_u32 (wr_op r) ∧ is_u32 (wr_reserved0 r)
    ∧ is_u32 (wr_family r) ∧ is_u32 (wr_reserved1 r);
  rf_longs : is_u64 (wr_slot r) ∧ is_u64 (wr_generation r) ∧ is_u64 (wr_rights r)
    ∧ is_u64 (wr_required_rights r) ∧ is_u64 (wr_offset r) ∧ is_u64 (wr_length r);
  rf_token : token_wf (wr_token r);
  rf_data : length (wr_data r) = 256%nat ∧ Forall is_byte (wr_data r);
}.

Record response_frame (r : wire_response) : Prop := {
  pf_words : is_u32 (wp_magic r) ∧ is_u32 (wp_version r) ∧ is_s32 (wp_status r) ∧ is_s32 (wp_error_code r);
  pf_longs : is_u64 (wp_runtime_id r) ∧ is_u64 (wp_revocation_epoch r) ∧ is_u64 (wp_result0 r)
    ∧ is_u64 (wp_result1 r) ∧ is_u64 (wp_result2 r);
  pf_token : token_wf (wp_token r);
  pf_data : length (wp_data r) = 256%nat ∧ Forall is_byte (wp_data r);
}.

Lemma s32_u32 x : is_s32 x → s32 (u32 x) = x.
Proof.
  unfold is_s32, s32, u32. intros H. destruct (Z_lt_le_dec x 0).
  - replace (x mod 2 ^ 32) with (x + 2 ^ 32) by (apply (Z.mod_unique _ _ (-1)); lia).
    rewrite (proj2 (Z.ltb_ge _ _)); lia.
  - rewrite Z.mod_small by lia. rewrite (proj2 (Z.ltb_lt _ _)); lia.
Qed.

Lemma bytes_all n l : length l = n → bytes_at 0 n l = l.
Proof. intros <-. unfold bytes_at. by rewrite drop_0, firstn_all. Qed.

Lemma request_roundtrip r : request_frame r → request_of_bytes (image_of_request r) = r.
Proof.
  intros [(A1&A2&A3&A4&A5&A6) (B1&B2&B3&B4&B5&B6) T [D1 D2]]. pose proof (token_image_length _ T) as L.
  pose proof (λ l, token_roundtrip _ l T) as Ht. unfold request_of_bytes, image_of_request.
  set (ti := image_of_token (wr_token r)) in *. clearbody ti.
  repeat first [rewrite drop_app_ge by (cbn; lia) | progress skip_fields | rewrite drop_0].
  rewrite !byte_value_le32, !byte_value_write64, bytes_all, bytes_u8, Ht by done.
  rewrite !u32_small, !u64_small by done. by destruct r.
Qed.

Lemma response_roundtrip r : response_frame r → response_of_bytes (image_of_response r) = r.
Proof.
  intros [(A1&A2&A3&A4) (B1&B2&B3&B4&B5) T [D1 D2]]. pose proof (token_image_length _ T) as L.
  pose proof (λ l, token_roundtrip _ l T) as Ht. unfold response_of_bytes, image_of_response.
  set (ti := image_of_token (wp_token r)) in *. clearbody ti.
  repeat first [rewrite drop_app_ge by (cbn; lia) | progress skip_fields | rewrite drop_0].
  rewrite !byte_value_le32, !byte_value_write64, bytes_all, bytes_u8, Ht by done.
  assert (∀ x, u32 (u32 x) = u32 x) as Hu by (intros x; unfold u32; by rewrite Z.mod_mod).
  rewrite !Hu, !s32_u32, !u32_small, !u64_small by done. by destruct r.
Qed.

(** Whatever bytes arrive, the fields of the request have their widths. *)
Lemma field_u64 off l : is_u64 (field off 8 l).
Proof.
  unfold field. pose proof (byte_value_range (bytes_at off 8 l)) as H. unfold is_u64.
  assert (256 ^ Z.of_nat (length (bytes_at off 8 l)) <= 256 ^ 8); [|lia].
  apply Z.pow_le_mono_r; [lia|]. unfold bytes_at. rewrite length_take. lia.
Qed.

(** ** What the kernel writes *)

Definition payload (m : cmsg) : Z := Z.of_nat (length (cmsg_data m)).

(** A control message in memory, padded to the alignment. *)
Definition image_of_cmsg (m : cmsg) : list Z :=
  llam_cap_write64_le (cmsg_header + payload m) ++ le32 (u32 (cmsg_level m)) ++ le32 (u32 (cmsg_type m))
  ++ cmsg_data m ++ replicate (Z.to_nat (cmsg_space (payload m) - cmsg_header - payload m)) 0.

Fixpoint control_image (ms : list cmsg) : list Z :=
  match ms with [] => [] | m :: ms => image_of_cmsg m ++ control_image ms end.

Definition carries_rights (m : cmsg) : bool := (cmsg_level m =? SOL_SOCKET) && (cmsg_type m =? SCM_RIGHTS).

(** The integers of rights messages that lie completely within the first [n]
    bytes: these are the descriptors the kernel installed. *)
Fixpoint visible (n : nat) (ms : list cmsg) : list Z :=
  match ms with
  | [] => []
  | m :: ms =>
      if (n <? 16)%nat then []
      else
        (if carries_rights m then ints (Nat.min (length (cmsg_data m)) (n - 16) / 4) (cmsg_data m) else [])
        ++ (if (Z.to_nat (cmsg_space (payload m)) <=? n)%nat
            then visible (n - Z.to_nat (cmsg_space (payload m))) ms else [])
  end.

Definition cmsg_wf (m : cmsg) : Prop :=
  is_s32 (cmsg_level m) ∧ is_s32 (cmsg_type m) ∧ payload m < 2 ^ 32.

Lemma cmsg_space_bounds len : 0 <= len → cmsg_header + len <= cmsg_space len < cmsg_header + len + cmsg_align.
Proof.
  intros H. unfold cmsg_space, cmsg_header, cmsg_align. pose proof (Z.div_mod (len + (8 - 1)) 8 ltac:(lia)).
  pose proof (Z.mod_pos_bound (len + (8 - 1)) 8 ltac:(lia)). lia.
Qed.

Lemma cmsg_padding len :
  0 <= len →
  (let remainder := (cmsg_header + len) mod cmsg_align in
   cmsg_header + len + (if negb (remainder =? 0) then cmsg_align - remainder else 0)) = cmsg_space len.
Proof.
  intros H. cbn zeta. unfold cmsg_space, cmsg_header, cmsg_align.
  pose proof (Z.div_mod (len + (8 - 1)) 8 ltac:(lia)). pose proof (Z.mod_pos_bound (len + (8 - 1)) 8 ltac:(lia)).
  pose proof (Z.div_mod (16 + len) 8 ltac:(lia)). pose proof (Z.mod_pos_bound (16 + len) 8 ltac:(lia)).
  destruct (Z.eqb_spec ((16 + len) mod 8) 0); cbn [negb]; lia.
Qed.

Lemma image_length m : length (image_of_cmsg m) = Z.to_nat (cmsg_space (payload m)).
Proof.
  unfold image_of_cmsg. rewrite !length_app, length_replicate. cbn [length llam_cap_write64_le le32].
  pose proof (cmsg_space_bounds (payload m) ltac:(unfold payload; lia)). unfold cmsg_header, payload in *. lia.
Qed.

(** The first field of a truncated buffer. *)
Lemma field_take off n k l : (off + n <= k)%nat → field off n (take k l) = field off n l.
Proof.
  intros H. unfold field, bytes_at. rewrite skipn_firstn_comm, take_take. by rewrite Nat.min_l by lia.
Qed.

Lemma ints_take k n l : (4 * k <= n)%nat → ints k (take n l) = ints k l.
Proof.
  revert n l. induction k as [|k IH]; intros n l H; [done|]. cbn [ints].
  rewrite field_take by lia. rewrite skipn_firstn_comm, IH by lia. done.
Qed.

Lemma field_app off n x l : (off + n <= length x)%nat → field off n (x ++ l) = field off n x.
Proof.
  intros H. unfold field, bytes_at. rewrite drop_app_le by lia. by rewrite take_app_le by (rewrite length_drop; lia).
Qed.

Lemma ints_app k x l : (4 * k <= length x)%nat → ints k (x ++ l) = ints k x.
Proof.
  revert x. induction k as [|k IH]; intros x H; [done|]. cbn [ints].
  rewrite field_app by lia. rewrite drop_app_le, IH by (rewrite ?length_drop; lia). done.
Qed.

(** ** The walk *)

(** The same descriptors, collected and closed. *)
Definition same_haul (c c' : collected) : Prop := col_fds c = col_fds c' ∧ col_closed c = col_closed c'.

#[export] Instance same_haul_equiv : Equivalence same_haul.
Proof. split; [done|by intros x y []|]. intros x y z [] []. split; congruence. Qed.

Lemma spoil_haul c : same_haul (spoil c) c.
Proof. done. Qed.

#[export] Instance collect_fd_proper : Proper ((=) ==> same_haul ==> same_haul) collect_fd.
Proof.
  intros fd ? <- c c' [H1 H2]. unfold collect_fd. rewrite H1.
  destruct (fd <? 0); [by split|]. destruct (_ <=? _); split; cbn; congruence.
Qed.

Lemma collect_all_haul l c c' :
  same_haul c c' → same_haul (foldl (flip collect_fd) c l) (foldl (flip collect_fd) c' l).
Proof. revert c c'. induction l as [|fd l IH]; intros c c' H; [done|]. cbn. apply IH. unfold flip. by rewrite H. Qed.

Section message.
Context (m : cmsg) (rest : list Z) (n : nat) (Hm : cmsg_wf m).
Let control : list Z := take n (image_of_cmsg m ++ rest).

Lemma control_claimed : (16 <= n)%nat → field 0 8 control = cmsg_header + payload m.
Proof.
  intros H. unfold control. rewrite field_take by lia. unfold image_of_cmsg. rewrite <- !app_assoc, field_head by done.
  rewrite byte_value_write64. apply u64_small. destruct Hm as (_&_&?). unfold is_u64, cmsg_header, payload in *. lia.
Qed.

Lemma control_rights : (16 <= n)%nat →
  (s32 (field 8 4 control) =? SOL_SOCKET) && (s32 (field 12 4 control) =? SCM_RIGHTS) = carries_rights m.
Proof.
  intros H. unfold control. rewrite !field_take by lia. unfold image_of_cmsg. rewrite <- !app_assoc. destruct Hm as (?&?&_).
  skip_fields. rewrite !byte_value_le32. 
  assert (∀ x, u32 (u32 x) = u32 x) as Hu by (intros x; unfold u32; by rewrite Z.mod_mod).
  by rewrite !Hu, !s32_u32.
Qed.

Lemma control_data k : (4 * k <= length (cmsg_data m))%nat → (16 + 4 * k <= n)%nat →
  ints k (drop 16 control) = ints k (cmsg_data m).
Proof.
  intros H1 H2. unfold control. rewrite skipn_firstn_comm, ints_take by lia. unfold image_of_cmsg.
  rewrite <- !app_assoc.
  rewrite (drop_app_ge (llam_cap_write64_le _)), (drop_app_ge (le32 _)), (drop_app_ge (le32 _)) by (cbn; lia).
  cbn [length llam_cap_write64_le le32 Nat.sub]. rewrite drop_0. by apply ints_app.
Qed.

Lemma control_length : (length control = Nat.min n (Z.to_nat (cmsg_space (payload m)) + length rest))%nat.
Proof. unfold control. by rewrite length_take, length_app, image_length. Qed.

Lemma control_next : (Z.to_nat (cmsg_space (payload m)) <= n)%nat →
  drop (Z.to_nat (cmsg_space (payload m))) control = take (n - Z.to_nat (cmsg_space (payload m))) rest.
Proof.
  intros H. unfold control. rewrite skipn_firstn_comm. f_equal. by rewrite <- image_length, drop_app_length.
Qed.

(** The descriptors of one message. *)
Lemma message_haul c : (16 <= n)%nat →
  same_haul
    (if carries_rights m then
       foldl (flip collect_fd) c
         (ints (Z.to_nat (Z.min (cmsg_header + payload m - cmsg_header) (Z.of_nat (length control) - cmsg_header) / 4))
            (drop (Z.to_nat cmsg_header) control))
     else c)
    (foldl (flip collect_fd) c
       (if carries_rights m then ints (Nat.min (length (cmsg_data m)) (n - 16) / 4) (cmsg_data m) else [])).
Proof.
  intros Hn. destruct (carries_rights m); [|done].
  pose proof (cmsg_space_bounds (payload m) ltac:(unfold payload; lia)) as HS. pose proof control_length as HL.
  assert (Z.min (cmsg_header + payload m - cmsg_header) (Z.of_nat (length control) - cmsg_header)
    = Z.of_nat (Nat.min (length (cmsg_data m)) (n - 16))) as ->.
  { unfold cmsg_header, payload in *. lia. }
  rewrite <- (Nat2Z.inj_div _ 4), Nat2Z.id. set (k := Nat.min _ _).
  pose proof (Nat.Div0.mul_div_le k 4). change (Z.to_nat cmsg_header) with 16%nat.
  rewrite control_data by lia. done.
Qed.

(** One round of the walk. *)
Lemma collect_round fuel c : (16 <= n)%nat →
  ∃ c', same_haul c' (foldl (flip collect_fd) c
          (if carries_rights m then ints (Nat.min (length (cmsg_data m)) (n - 16) / 4) (cmsg_data m) else [])) ∧
    same_haul (collect_loop (S fuel) control c)
      (if (Z.to_nat (cmsg_space (payload m)) <=? n)%nat
       then collect_loop fuel (take (n - Z.to_nat (cmsg_space (payload m))) rest) c' else c').
Proof.
  intros Hn. cbn [collect_loop]. rewrite control_claimed, control_rights by done.
  pose proof control_length as HL. pose proof (cmsg_space_bounds (payload m) ltac:(unfold payload; lia)) as HS.
  assert (0 <= payload m < 2 ^ 32) as HP by (destruct Hm as (_&_&?); unfold payload in *; lia).
  rewrite (proj2 (Z.eqb_neq _ _)) by (unfold cmsg_header, payload in *; lia).
  rewrite (proj2 (Z.ltb_ge _ cmsg_header)) by (unfold cmsg_header, payload in *; lia).
  rewrite (proj2 (Z.ltb_ge (cmsg_header + payload m) cmsg_header)) by lia.
  match goal with |- context [if Z.of_nat (length control) <? _ then spoil ?x else _] => set (c' := x) end.
  exists c'. split.
  { etrans; [|by apply message_haul]. subst c'. destruct (carries_rights m); [|by destruct (_ <? _)].
    apply collect_all_haul. by destruct (negb _), (_ <? _). }
  destruct (Z.ltb_spec (Z.of_nat (length control)) (cmsg_header + payload m)).
  { rewrite (proj2 (Nat.leb_gt _ _)) by (unfold cmsg_header, payload in *; lia). done. }
  pose proof (cmsg_padding (payload m) ltac:(lia)) as Hpad. cbn zeta in Hpad. rewrite Hpad.
  rewrite (proj2 (Z.ltb_ge (UINT64_MAX - _) _)) by (unfold UINT64_MAX, cmsg_header, cmsg_align in *; lia).
  rewrite (proj2 (Z.eqb_neq _ _)) by (unfold cmsg_header in *; lia). cbn [orb].
  destruct (Nat.leb_spec (Z.to_nat (cmsg_space (payload m))) n).
  - rewrite (proj2 (Z.ltb_ge _ _)) by (unfold cmsg_header in *; lia). by rewrite control_next.
  - rewrite (proj2 (Z.ltb_lt _ _)) by (unfold cmsg_header in *; lia). done.
Qed.
End message.

Lemma collect_loop_short fuel control c : (length control < 16)%nat → collect_loop fuel control c = c.
Proof.
  intros H. destruct fuel as [|fuel]; [done|]. cbn [collect_loop]. destruct (_ =? 0); [done|].
  by rewrite (proj2 (Z.ltb_lt _ _)) by (unfold cmsg_header; lia).
Qed.

(** Walking the first [n] bytes of what the kernel wrote finds the descriptors
    that lie within them. *)
Lemma collect_visible ms :
  ∀ fuel n c, Forall cmsg_wf ms → (n < fuel)%nat →
  same_haul (collect_loop fuel (take n (control_image ms)) c) (foldl (flip collect_fd) c (visible n ms)).
Proof.
  induction ms as [|m ms IH]; intros [|fuel] n c Hwf Hf; try lia.
  { cbn [control_image]. rewrite take_nil. done. }
  apply Forall_cons in Hwf as [Hm Hms]. cbn [control_image visible]. destruct (Nat.ltb_spec n 16) as [Hn|Hn].
  { rewrite collect_loop_short; [done|]. rewrite length_take. lia. }
  destruct (collect_round m (control_image ms) n Hm fuel c Hn) as (c'&Hc'&->). rewrite foldl_app.
  pose proof (cmsg_space_bounds (payload m) ltac:(unfold payload; lia)) as HS.
  destruct (Nat.leb_spec (Z.to_nat (cmsg_space (payload m))) n); [|done].
  etrans; [apply IH; [done|unfold cmsg_header, payload in *; lia]|]. by apply collect_all_haul.
Qed.


(** A cut beyond the end is no cut. *)
Lemma visible_cap ms n : visible (length (take n (control_image ms))) ms = visible n ms.
Proof.
  revert n. induction ms as [|m ms IH]; intros n; [done|]. cbn [control_image visible].
  rewrite take_app, length_app, length_take, image_length.
  pose proof (cmsg_space_bounds (payload m) ltac:(unfold payload; lia)) as HS. unfold cmsg_header, payload in *.
  specialize (IH (n - Z.to_nat (cmsg_space (Z.of_nat (length (cmsg_data m)))))%nat).
  set (s := Z.to_nat (cmsg_space (Z.of_nat (length (cmsg_data m))))) in *.
  set (k := length (take (n - s) (control_image ms))) in *.
  assert (k <= n - s)%nat by (subst k; rewrite length_take; lia).
  destruct (Nat.ltb_spec n 16), (Nat.ltb_spec (Nat.min n s + k) 16); try lia; [done|].
  f_equal.
  - destruct (carries_rights m); [|done]. do 2 f_equal. lia.
  - destruct (Nat.leb_spec s n), (Nat.leb_spec s (Nat.min n s + k)); try lia; [|done].
    rewrite <- IH. f_equal. lia.
Qed.

Lemma collect_received_visible ms n capacity c :
  Forall cmsg_wf ms → Z.of_nat n <= capacity →
  same_haul (llam_broker_collect_received_fds (take n (control_image ms)) capacity c)
    (foldl (flip collect_fd) c (visible n ms)).
Proof.
  intros Hms Hn. unfold llam_broker_collect_received_fds. rewrite <- visible_cap.
  assert (take (length (take n (control_image ms))) (control_image ms) = take n (control_image ms)) as Ht
    by (rewrite length_take; destruct (Nat.le_gt_cases n (length (control_image ms)));
        [by rewrite Nat.min_l|rewrite Nat.min_r, !take_ge by lia; done]).
  set (control := take n (control_image ms)) in *.
  assert (length control <= n)%nat by (subst control; rewrite length_take; lia).
  rewrite (proj2 (Z.ltb_ge _ _)), (take_ge control) by lia.
  pose proof (collect_visible ms (S (length control)) (length control) c Hms ltac:(lia)) as Hv. rewrite Ht in Hv.
  destruct (Nat.eqb_spec (length control) 0) as [H0|_]; [|done].
  rewrite H0. by destruct ms.
Qed.

(** ** Conservation *)

(** Nothing is lost and nothing is taken twice: the non-negative integers seen
    are the collected ones followed by the closed ones. *)
Lemma collect_fds_split l : ∀ c,
  (col_closed c = [] ∨ (length (col_fds c) = Z.to_nat LLAM_BROKER_SCM_RIGHTS_MAX_FDS)) →
  (length (col_fds c) <= Z.to_nat LLAM_BROKER_SCM_RIGHTS_MAX_FDS)%nat →
  let c' := foldl (flip collect_fd) c l in
  let got := col_fds c ++ col_closed c ++ filter (λ fd, 0 <= fd) l in
  col_fds c' = take (Z.to_nat LLAM_BROKER_SCM_RIGHTS_MAX_FDS) got ∧
  col_closed c' = drop (Z.to_nat LLAM_BROKER_SCM_RIGHTS_MAX_FDS) got.
Proof.
  set (N := Z.to_nat LLAM_BROKER_SCM_RIGHTS_MAX_FDS).
  induction l as [|fd l IH]; intros c Hc HN; cbn zeta; cbn [foldl].
  - change (filter (λ fd, 0 <= fd) []) with (@nil Z). rewrite app_nil_r. destruct Hc as [->|Hl].
    + rewrite app_nil_r. by rewrite take_ge, drop_ge by lia.
    + by rewrite <- Hl, take_app_length, drop_app_length.
  - change (flip collect_fd c fd) with (collect_fd fd c). unfold collect_fd at 2 4. rewrite filter_cons.
    destruct (Z.ltb_spec fd 0) as [Hneg|Hpos].
    { rewrite decide_False by lia. by apply (IH (spoil c)). }
    rewrite decide_True by lia. destruct (Z.leb_spec LLAM_BROKER_SCM_RIGHTS_MAX_FDS (Z.of_nat (length (col_fds c)))).
    + destruct (IH (Collected (col_fds c) (col_closed c ++ [fd]) true)) as [-> ->]; cbn [col_fds col_closed]; [right; lia|lia|].
      by rewrite <- app_assoc.
    + destruct Hc as [Hc|Hc]; [|lia].
      destruct (IH (Collected (col_fds c ++ [fd]) (col_closed c) (col_malformed c))) as [-> ->]; cbn [col_fds col_closed].
      { by left. } { rewrite length_app. cbn. lia. }
      by rewrite Hc, <- !app_assoc.
Qed.

(** C40: Whatever control messages the kernel delivers and wherever it cuts
    them, the walk over the ancillary buffer finds exactly the descriptors the
    kernel installed: the first 512 are handed over in order and every one
    beyond is closed, so that none is lost and none is taken twice. *)
Theorem received_descriptors_exact (ms : list cmsg) (n : nat) (capacity : Z) :
  Forall cmsg_wf ms → Z.of_nat n <= capacity →
  let c := llam_broker_collect_received_fds (take n (control_image ms)) capacity (Collected [] [] false) in
  let installed := filter (λ fd, 0 <= fd) (visible n ms) in
  col_fds c = take (Z.to_nat LLAM_BROKER_SCM_RIGHTS_MAX_FDS) installed ∧
  col_closed c = drop (Z.to_nat LLAM_BROKER_SCM_RIGHTS_MAX_FDS) installed ∧
  col_fds c ++ col_closed c = installed.
Proof.
  intros Hms Hn c installed. 
  assert (same_haul c (foldl (flip collect_fd) (Collected [] [] false) (visible n ms))) as [H1 H2]
    by (subst c; by apply collect_received_visible).
  destruct (collect_fds_split (visible n ms) (Collected [] [] false)) as [H3 H4]; [by left|cbn; lia|].
  rewrite H1, H2, H3, H4. cbn [col_fds col_closed app]. by rewrite take_drop.
Qed.

Lemma received_descriptors_exact_witness :
  let ms := [Cmsg SOL_SOCKET SCM_RIGHTS [7; 0; 0; 0; 9; 0; 0; 0]; Cmsg SOL_SOCKET SCM_RIGHTS [4; 0; 0; 0]] in
  let c := llam_broker_collect_received_fds (take 50 (control_image ms)) 2064 (Collected [] [] false) in
  col_fds c = [7; 9; 4] ∧ col_closed c = [].
Proof.
  destruct (received_descriptors_exact
    [Cmsg SOL_SOCKET SCM_RIGHTS [7; 0; 0; 0; 9; 0; 0; 0]; Cmsg SOL_SOCKET SCM_RIGHTS [4; 0; 0; 0]] 50 2064)
    as (H1&H2&_).
  - repeat constructor; done.
  - lia.
  - split; [rewrite H1|rewrite H2]; reflexivity.
Defined.
