(* ===== verification/Message.v ===== *)
(** * Messages on a control connection

    [src/core/broker/transport/broker_transport_posix_message.c]: waiting for a
    socket, reading a request or response with at most one attached descriptor,
    writing one, and the client calls built from them.  Sockets are the
    environment: [recvmsg] installs descriptors in the process, [sendmsg] passes
    one on.  The theorems account for every descriptor received and for every
    byte sent, on every path. *)

From S2P Require Import Prelude World Capability BrokerOps BrokerCore BrokerDescriptor RingMap Rollback BrokerFrame.
From S2P Require Import Wire Codec.

Definition ENOTCONN : Z := 107.
Definition ETIMEDOUT : Z := 110.
Definition MSG_CTRUNC : Z := 8.

Definition LLAM_BROKER_TRANSPORT_IO_TIMEOUT_MS : Z := 250.
Definition LLAM_BROKER_TRANSPORT_FRAME_TIMEOUT_NS : Z := 2 * 1000 * 1000 * 1000.

(** ** System calls *)

(** A control message at the widths of its C fields. *)
Definition shaped_cmsg (m : cmsg) : cmsg :=
  Cmsg (s32 (u32 (cmsg_level m))) (s32 (u32 (cmsg_type m)))
    (if payload m <? 2 ^ 32 then cmsg_data m else []).

(** The descriptors [recvmsg] installs: those whose integers it wrote completely. *)
Definition installed (cut : nat) (ms : list cmsg) : list Z := filter (λ fd, 0 <= fd) (visible cut ms).

(** [recvmsg(fd, &msg, MSG_CMSG_CLOEXEC)] with room for [length] bytes and
    [capacity] bytes of control data: the count (-1 with errno on an error), the
    bytes, the control data and the flags.  A stream socket delivers control data
    only together with bytes. *)
Definition sys_recvmsg (fd length capacity : Z) : M (Z * list Z * list Z * Z) :=
  log (EvRecv fd length) ;;
  v ← pop os_recvmsg set_os_recvmsg (inr EAGAIN);
  match v with
  | inl m =>
      let bytes := take (Z.to_nat length) (rcv_bytes m) in
      let cut := Nat.min (rcv_cut m) (Z.to_nat capacity) in
      let ms := shaped_cmsg <$> rcv_cmsgs m in
      match bytes with
      | [] => mret (0, [], [], rcv_flags m)
      | _ =>
          modify (λ w, set_w_os (set_os_log (rev (EvOpen <$> installed cut ms) ++ os_log (w_os w)) (w_os w)) w) ;;
          mret (Z.of_nat (Datatypes.length bytes), bytes, take cut (control_image ms), rcv_flags m)
      end
  | inr e => set_errno e ;; mret (-1, [], [], 0)
  end.

(** [read(fd, data, length)] *)
Definition sys_read (fd length : Z) : M (Z * list Z) :=
  log (EvRecv fd length) ;;
  v ← pop os_read set_os_read (inr EAGAIN);
  match v with
  | inl bytes =>
      let bytes := take (Z.to_nat length) bytes in
      mret (Z.of_nat (Datatypes.length bytes), bytes)
  | inr e => set_errno e ;; mret (-1, [])
  end.

(** What a [send] of [data] accepted. *)
Definition accepted (n : Z) (data : list Z) : list Z := take (Z.to_nat n) data.

(** [send(fd, data, length, MSG_NOSIGNAL)]: the log records the bytes accepted. *)
Definition llam_broker_send_transport (fd : Z) (data : list Z) : M Z :=
  v ← pop os_send set_os_send (inr EAGAIN);
  match v with
  | inl n =>
      let n := Z.min n (Z.of_nat (length data)) in
      (if 0 <? n then log (EvSend fd (accepted n data)) else mret tt) ;; mret n
  | inr e => set_errno e ;; mret (-1)
  end.

(** [sendmsg] of [data] with one attached descriptor. *)
Definition llam_broker_sendmsg_transport (fd : Z) (data : list Z) (descriptor_fd : Z) : M Z :=
  v ← pop os_send set_os_send (inr EAGAIN);
  match v with
  | inl n =>
      let n := Z.min n (Z.of_nat (length data)) in
      (if 0 <? n then log (EvSendFd fd (accepted n data) descriptor_fd) else mret tt) ;; mret n
  | inr e => set_errno e ;; mret (-1)
  end.

(** [getsockopt(fd, SOL_SOCKET, SO_PEERCRED, ...)]: the process id of the peer. *)
Definition sys_peer_pid : M (Z * Z) :=
  v ← pop os_peer set_os_peer (inr ENOTCONN);
  match v with
  | inl pid => mret (0, pid)
  | inr e => set_errno e ;; mret (-1, 0)
  end.

(** ** Waiting *)

Definition llam_broker_transport_frame_deadline : M Z :=
  now_ns ← llam_now_ns;
  if (now_ns =? 0) || (UINT64_MAX - now_ns <? LLAM_BROKER_TRANSPORT_FRAME_TIMEOUT_NS)
  then mret UINT64_MAX
  else mret (now_ns + LLAM_BROKER_TRANSPORT_FRAME_TIMEOUT_NS).

Definition llam_broker_transport_wait_ms (deadline_ns : Z) : M Z :=
  if deadline_ns =? UINT64_MAX then mret LLAM_BROKER_TRANSPORT_IO_TIMEOUT_MS
  else
    now_ns ← llam_now_ns;
    if now_ns =? 0 then mret LLAM_BROKER_TRANSPORT_IO_TIMEOUT_MS
    else if deadline_ns <=? now_ns then mret 0
    else
      let remaining_ns := deadline_ns - now_ns in
      let remaining_ms := u64 (remaining_ns + 999999) / 1000000 in
      if remaining_ms =? 0 then mret 0
      else if LLAM_BROKER_TRANSPORT_IO_TIMEOUT_MS <? remaining_ms
      then mret LLAM_BROKER_TRANSPORT_IO_TIMEOUT_MS
      else mret remaining_ms.

(** The poll loop; each restart reads the [poll] tape. *)
Fixpoint wait_transport_loop (fuel : nat) (fd events deadline_ns : Z) : M Z :=
  match fuel with
  | O => fail ETIMEDOUT
  | S fuel =>
      timeout_ms ← llam_broker_transport_wait_ms deadline_ns;
      if timeout_ms =? 0 then fail ETIMEDOUT
      else
        r ← sys_poll fd events timeout_ms;
        match r with
        | PollReady revents =>
            if negb (Z.land revents (Z.lor events (Z.lor POLLERR (Z.lor POLLHUP POLLNVAL))) =? 0)
            then mret 0 else fail EIO
        | PollTimeout => fail ETIMEDOUT
        | PollError e =>
            set_errno e ;;
            if e =? EINTR then wait_transport_loop fuel fd events deadline_ns else mret (-1)
        end
  end.

Definition llam_broker_wait_transport_fd (fd events deadline_ns : Z) : M Z :=
  if fd <? 0 then fail EINVAL
  else
    polls ← gets (λ w, length (os_poll (w_os w)));
    wait_transport_loop (S polls) fd events deadline_ns.

(** ** Reading *)

(** The received descriptors, in the order of the array. *)
Fixpoint llam_broker_close_received_fds (fds : list Z) : M unit :=
  match fds with
  | [] => mret tt
  | fd :: fds => (if 0 <=? fd then sys_close fd else mret tt) ;; llam_broker_close_received_fds fds
  end.

(** Returns the status and the cleared message. *)
Definition llam_broker_read_message_fail (message : option (list Z)) (message_len : Z) (fds : list Z)
    (error_code : Z) : M (Z * option (list Z)) :=
  llam_broker_close_received_fds fds ;;
  set_errno error_code ;;
  mret (-1, if 0 <? message_len then memzero_at 0 (Z.to_nat message_len) <$> message else message).

(** Marks every descriptor close-on-exec; whether one of them failed. *)
Fixpoint cloexec_all (fds : list Z) (malformed : bool) : M bool :=
  match fds with
  | [] => mret malformed
  | fd :: fds =>
      rc ← llam_broker_set_cloexec_fd fd;
      cloexec_all fds (malformed || negb (rc =? 0))
  end.

(** Runs the walk over the control data and closes what it does not keep. *)
Definition collect_received (control : list Z) (capacity : Z) (fds : list Z) : M (list Z * bool) :=
  let c := llam_broker_collect_received_fds control capacity (Collected fds [] false) in
  llam_broker_close_received_fds (col_closed c) ;;
  mret (col_fds c, col_malformed c).

(** The receive loop: [done] bytes of the message have arrived and [fds] are the
    descriptors so far.  Each round reads the [recvmsg] tape. *)
Fixpoint read_message_loop (fuel : nat) (fd deadline_ns : Z) (message : list Z) (message_len done : Z)
    (fds : list Z) : M (Z * option (list Z) * list Z) :=
  let failed e := r ← llam_broker_read_message_fail (Some message) message_len fds e; mret (r, []) in
  match fuel with
  | O => failed EAGAIN
  | S fuel =>
      if message_len <=? done then mret (0, Some message, fds)
      else
        let capacity := cmsg_space (4 * LLAM_BROKER_SCM_RIGHTS_MAX_FDS) in
        rc ← llam_broker_wait_transport_fd fd POLLIN deadline_ns;
        if negb (rc =? 0) then e ← get_errno; failed e
        else
          '(nread, bytes, control, flags) ← sys_recvmsg fd (message_len - done) capacity;
          if 0 <? nread then
            let message := memcpy_at (Z.to_nat done) bytes message in
            '(fds, malformed) ← collect_received control capacity fds;
            let malformed := malformed || negb (Z.land flags MSG_CTRUNC =? 0) in
            malformed ← cloexec_all fds malformed;
            if malformed || (1 <? Z.of_nat (length fds))
            then r ← llam_broker_read_message_fail (Some message) message_len fds EINVAL; mret (r, [])
            else read_message_loop fuel fd deadline_ns message message_len (done + nread) fds
          else if nread =? 0 then failed EPIPE
          else
            e ← get_errno;
            if e =? EINTR then read_message_loop fuel fd deadline_ns message message_len done fds
            else failed e
  end.

(** Returns the status, the message and [*out_descriptor_fd]. *)
Definition llam_broker_read_message_fd (fd : Z) (message : option (list Z)) (message_len : Z)
    (out_descriptor_fd : option Z) : M (Z * option (list Z) * option Z) :=
  deadline_ns ← llam_broker_transport_frame_deadline;
  let out_descriptor_fd := (λ _, -1) <$> out_descriptor_fd in
  match message with
  | Some bytes =>
      if (fd <? 0) || (message_len =? 0) || is_null out_descriptor_fd
      then r ← llam_broker_read_message_fail message message_len [] EINVAL; mret (r, out_descriptor_fd)
      else
        messages ← gets (λ w, length (os_recvmsg (w_os w)));
        '(rc, message, fds) ← read_message_loop (S messages) fd deadline_ns bytes message_len 0 [];
        if negb (rc =? 0) then mret (rc, message, out_descriptor_fd)
        else
          mret (0, message,
            match fds with [descriptor] => (λ _, descriptor) <$> out_descriptor_fd | _ => out_descriptor_fd end)
  | None => r ← llam_broker_read_message_fail None message_len [] EINVAL; mret (r, out_descriptor_fd)
  end.

(** A structure read from and written back to memory. *)
Definition llam_broker_read_request_fd (fd : Z) (request : option wire_request)
    (out_descriptor_fd : option Z) : M (Z * option wire_request * option Z) :=
  '(rc, message, out_descriptor_fd) ←
    llam_broker_read_message_fd fd (image_of_request <$> request) sizeof_request out_descriptor_fd;
  mret (rc, request_of_bytes <$> message, out_descriptor_fd).

(** Close the descriptor [out] points to, if there is one, and reset it. *)
Definition close_out (out_descriptor_fd : option Z) : M (option Z) :=
  match out_descriptor_fd with
  | Some d => if 0 <=? d then sys_close d ;; mret (Some (-1)) else mret (Some d)
  | None => mret None
  end.

Definition llam_broker_read_response_fd (fd : Z) (response : option wire_response)
    (out_descriptor_fd : option Z) : M (Z * option wire_response * option Z) :=
  '(rc, message, out_descriptor_fd) ←
    llam_broker_read_message_fd fd (image_of_response <$> response) sizeof_response out_descriptor_fd;
  let response := response_of_bytes <$> message in
  if negb (rc =? 0) then mret (rc, response, out_descriptor_fd)
  else
    '(rc, response) ← llam_broker_validate_response_frame_or_clear response;
    if negb (rc =? 0) then
      out_descriptor_fd ← close_out out_descriptor_fd;
      mret (-1, response, out_descriptor_fd)
    else
      out_descriptor_fd ←
        (if match response with Some r => negb (wp_status r =? 0) | None => false end
         then close_out out_descriptor_fd else mret out_descriptor_fd);
      mret (0, response, out_descriptor_fd).

(** The [read] loop of [llam_broker_read_exact]. *)
Fixpoint read_exact_loop (fuel : nat) (fd deadline_ns : Z) (data : list Z) (len done : Z) :
    M (Z * option (list Z)) :=
  match fuel with
  | O => llam_broker_fail_clear_output (Some data) len EAGAIN
  | S fuel =>
      if len <=? done then mret (0, Some data)
      else
        rc ← llam_broker_wait_transport_fd fd POLLIN deadline_ns;
        if negb (rc =? 0) then e ← get_errno; llam_broker_fail_clear_output (Some data) len e
        else
          '(nread, bytes) ← sys_read fd (len - done);
          if 0 <? nread
          then read_exact_loop fuel fd deadline_ns (memcpy_at (Z.to_nat done) bytes data) len (done + nread)
          else if nread =? 0 then llam_broker_fail_clear_output (Some data) len EPIPE
          else
            e ← get_errno;
            if e =? EINTR then read_exact_loop fuel fd deadline_ns data len done
            else llam_broker_fail_clear_output (Some data) len e
  end.

Definition llam_broker_read_exact (fd : Z) (data : option (list Z)) (len : Z) : M (Z * option (list Z)) :=
  deadline_ns ← llam_broker_transport_frame_deadline;
  match data with
  | Some bytes =>
      if (fd <? 0) || (len =? 0) then llam_broker_fail_clear_output data len EINVAL
      else
        reads ← gets (λ w, length (os_read (w_os w)));
        read_exact_loop (S reads) fd deadline_ns bytes len 0
  | None => llam_broker_fail_clear_output data len EINVAL
  end.

(** ** Writing *)

(** The send loop of [llam_broker_write_exact] and [llam_broker_write_remainder];
    [data] is what is left to send.  Each round reads the [send] tape. *)
Fixpoint write_loop (fuel : nat) (fd deadline_ns : Z) (data : list Z) : M Z :=
  match fuel with
  | O => fail EAGAIN
  | S fuel =>
      if Z.of_nat (length data) <=? 0 then mret 0
      else
        rc ← llam_broker_wait_transport_fd fd POLLOUT deadline_ns;
        if negb (rc =? 0) then mret (-1)
        else
          nwritten ← llam_broker_send_transport fd data;
          if 0 <? nwritten then write_loop fuel fd deadline_ns (drop (Z.to_nat nwritten) data)
          else if nwritten =? 0 then fail EPIPE
          else
            e ← get_errno;
            if e =? EINTR then write_loop fuel fd deadline_ns data else mret (-1)
  end.

Definition llam_broker_write_remainder (fd : Z) (data : list Z) (deadline_ns : Z) : M Z :=
  sends ← gets (λ w, length (os_send (w_os w)));
  write_loop (S sends) fd deadline_ns data.

Definition llam_broker_write_exact (fd : Z) (data : list Z) : M Z :=
  deadline_ns ← llam_broker_transport_frame_deadline;
  llam_broker_write_remainder fd data deadline_ns.

(** The [sendmsg] loop. *)
Fixpoint write_descriptor_loop (fuel : nat) (fd deadline_ns : Z) (data : list Z) (descriptor_fd : Z) : M Z :=
  match fuel with
  | O => fail EAGAIN
  | S fuel =>
      rc ← llam_broker_wait_transport_fd fd POLLOUT deadline_ns;
      if negb (rc =? 0) then mret (-1)
      else
        nwritten ← llam_broker_sendmsg_transport fd data descriptor_fd;
        if 0 <? nwritten then
          if nwritten <? Z.of_nat (length data)
          then llam_broker_write_remainder fd (drop (Z.to_nat nwritten) data) deadline_ns
          else mret 0
        else if nwritten =? 0 then fail EPIPE
        else
          e ← get_errno;
          if negb (e =? EINTR) then mret (-1)
          else write_descriptor_loop fuel fd deadline_ns data descriptor_fd
  end.

Definition llam_broker_write_message_with_descriptor (fd : Z) (message : option (list Z))
    (message_len descriptor_fd : Z) : M Z :=
  deadline_ns ← llam_broker_transport_frame_deadline;
  match message with
  | Some data =>
      if (fd <? 0) || (message_len =? 0) || (descriptor_fd <? 0) then fail EINVAL
      else
        sends ← gets (λ w, length (os_send (w_os w)));
        write_descriptor_loop (S sends) fd deadline_ns data descriptor_fd
  | None => fail EINVAL
  end.

(** Whether the peer is the process [self] itself: 0, or -1 with errno. *)
Definition require_own_process (self : Z) : M Z :=
  '(rc, peer_pid) ← sys_peer_pid;
  if negb (rc =? 0) then
    e ← get_errno;
    (if e =? ENOTCONN then set_errno EPIPE else mret tt) ;;
    mret (-1)
  else if (peer_pid <=? 0) || negb (peer_pid =? self) then fail EACCES
  else mret 0.

Definition llam_broker_write_request_with_descriptor (self fd : Z) (request : option wire_request)
    (descriptor_fd : Z) : M Z :=
  rc ← require_own_process self;
  if negb (rc =? 0) then mret (-1)
  else llam_broker_write_message_with_descriptor fd (image_of_request <$> request) sizeof_request descriptor_fd.

Definition llam_broker_write_response_with_descriptor (fd : Z) (response : option wire_response)
    (descriptor_fd : Z) : M Z :=
  llam_broker_write_message_with_descriptor fd (image_of_response <$> response) sizeof_response descriptor_fd.

Definition llam_broker_write_response_fd (fd : Z) (response : option wire_response) : M Z :=
  match response with
  | None => fail EINVAL
  | Some r => llam_broker_write_exact fd (image_of_response r)
  end.

(** ** Client calls *)

(** [return llam_broker_fail_clear_output(response, sizeof, error_code);] *)
Definition fail_response (response : option wire_response) (error_code : Z) :
    M (Z * option wire_response) :=
  '(rc, bytes) ← llam_broker_fail_clear_output (image_of_response <$> response)
    (if is_null response then 0 else sizeof_response) error_code;
  mret (rc, response_of_bytes <$> bytes).

(** [rc = read_exact(response); if (rc == 0) rc = validate(response); return rc;] *)
Definition read_reply (fd : Z) : M (Z * option wire_response) :=
  '(rc, bytes) ← llam_broker_read_exact fd (Some (image_of_response zero_response)) sizeof_response;
  let response := response_of_bytes <$> bytes in
  if rc =? 0 then llam_broker_validate_response_frame_or_clear response else mret (rc, response).

Definition llam_broker_request_fd (fd : Z) (request : option wire_request)
    (response : option wire_response) : M (Z * option wire_response) :=
  match request, response with
  | Some rq, Some _ =>
      if fd <? 0 then fail_response response EINVAL
      else
        rc ← llam_broker_write_exact fd (image_of_request rq);
        if negb (rc =? 0) then e ← get_errno; fail_response (Some zero_response) e
        else read_reply fd
  | _, _ => fail_response response EINVAL
  end.

Definition llam_broker_request_fd_with_descriptor (self fd : Z) (request : option wire_request)
    (descriptor_fd : Z) (response : option wire_response) : M (Z * option wire_response) :=
  match request, response with
  | Some _, Some _ =>
      if (fd <? 0) || (descriptor_fd <? 0) then fail_response response EINVAL
      else
        rc ← llam_broker_write_request_with_descriptor self fd request descriptor_fd;
        if negb (rc =? 0) then e ← get_errno; fail_response (Some zero_response) e
        else read_reply fd
  | _, _ => fail_response response EINVAL
  end.

Definition llam_broker_request_fd_with_descriptor_trusted (fd : Z) (request : option wire_request)
    (descriptor_fd : Z) (response : option wire_response) : M (Z * option wire_response) :=
  match request, response with
  | Some _, Some _ =>
      if (fd <? 0) || (descriptor_fd <? 0) then fail_response response EINVAL
      else
        rc ← llam_broker_write_message_with_descriptor fd (image_of_request <$> request) sizeof_request
               descriptor_fd;
        if negb (rc =? 0) then e ← get_errno; fail_response (Some zero_response) e
        else read_reply fd
  | _, _ => fail_response response EINVAL
  end.

(** Returns the status, the response and [*out_descriptor_fd]. *)
Definition llam_broker_request_fd_with_response_descriptor_trusted (fd : Z) (request : option wire_request)
    (response : option wire_response) (out_descriptor_fd : option Z) :
    M (Z * option wire_response * option Z) :=
  let out_descriptor_fd := (λ _, -1) <$> out_descriptor_fd in
  match request, response, out_descriptor_fd with
  | Some rq, Some _, Some _ =>
      if fd <? 0 then r ← fail_response response EINVAL; mret (r, out_descriptor_fd)
      else
        rc ← llam_broker_write_exact fd (image_of_request rq);
        if negb (rc =? 0)
        then e ← get_errno; r ← fail_response (Some zero_response) e; mret (r, out_descriptor_fd)
        else llam_broker_read_response_fd fd (Some zero_response) out_descriptor_fd
  | _, _, _ => r ← fail_response response EINVAL; mret (r, out_descriptor_fd)
  end.

Definition llam_broker_request_fd_with_response_descriptor (self fd : Z) (request : option wire_request)
    (response : option wire_response) (out_descriptor_fd : option Z) :
    M (Z * option wire_response * option Z) :=
  let out_descriptor_fd := (λ _, -1) <$> out_descriptor_fd in
  match request, response, out_descriptor_fd with
  | Some rq, Some _, Some _ =>
      if fd <? 0 then r ← fail_response response EINVAL; mret (r, out_descriptor_fd)
      else
        rc ← require_own_process self;
        if negb (rc =? 0) then e ← get_errno; r ← fail_response response e; mret (r, out_descriptor_fd)
        else
          rc ← llam_broker_write_exact fd (image_of_request rq);
          if negb (rc =? 0)
          then e ← get_errno; r ← fail_response (Some zero_response) e; mret (r, out_descriptor_fd)
          else llam_broker_read_response_fd fd (Some zero_response) out_descriptor_fd
  | _, _, _ => r ← fail_response response EINVAL; mret (r, out_descriptor_fd)
  end.

(** ** Waiting keeps the books *)

Lemma thrifty_log e : neutral e = true → pres thrifty (log e).
Proof. intros He w. split_and!; [done|done|]. intros k. destruct e; try done; cbn; lia. Qed.

Lemma thrifty_now : pres thrifty llam_now_ns.
Proof. by apply pres_thrifty_pop. Qed.

Lemma thrifty_get_errno : pres thrifty get_errno.
Proof. intros w. apply net_refl. Qed.

#[export] Hint Resolve thrifty_now thrifty_get_errno : llam_quiet.

Lemma thrifty_deadline : pres thrifty llam_broker_transport_frame_deadline.
Proof. unfold llam_broker_transport_frame_deadline. pres_walk. Qed.

Lemma thrifty_wait_ms d : pres thrifty (llam_broker_transport_wait_ms d).
Proof. unfold llam_broker_transport_wait_ms. pres_walk. Qed.

Lemma thrifty_poll fd ev t : pres thrifty (sys_poll fd ev t).
Proof. apply pres_bind; [apply _|by apply thrifty_log|intros _; by apply pres_thrifty_pop]. Qed.

#[export] Hint Resolve thrifty_deadline thrifty_wait_ms thrifty_poll : llam_quiet.

Lemma thrifty_wait_loop fuel fd ev d : pres thrifty (wait_transport_loop fuel fd ev d).
Proof.
  induction fuel as [|fuel IH]; cbn [wait_transport_loop]; [pres_walk|].
  apply pres_bind; [apply _|pres_walk|intros t]. apply pres_if; [pres_walk|].
  apply pres_bind; [apply _|pres_walk|]. intros [r| |e]; pres_walk.
Qed.

Lemma thrifty_wait fd ev d : pres thrifty (llam_broker_wait_transport_fd fd ev d).
Proof.
  unfold llam_broker_wait_transport_fd. apply pres_if; [pres_walk|].
  apply pres_bind; [apply _|pres_walk|]. intros n. apply thrifty_wait_loop.
Qed.

#[export] Hint Resolve thrifty_wait : llam_quiet.

Lemma thrifty_set_cloexec fd : pres thrifty (llam_broker_set_cloexec_fd fd).
Proof. unfold llam_broker_set_cloexec_fd. pres_walk. Qed.

Lemma thrifty_cloexec_all fds : ∀ b, pres thrifty (cloexec_all fds b).
Proof.
  induction fds as [|fd fds IH]; intros b; cbn [cloexec_all]; [pres_walk|].
  apply pres_bind; [apply _|apply thrifty_set_cloexec|done].
Qed.

(** ** Received descriptors *)

(** How often [k] is among [fds]. *)
Definition fd_count (fds : list Z) : Z → Z := λ k, count_if (Z.eqb k) fds.

Lemma fd_count_app l l' k : fd_count (l ++ l') k = fd_count l k + fd_count l' k.
Proof. apply count_if_app. Qed.

Lemma fd_count_cons fd l k : fd_count (fd :: l) k = one fd k + fd_count l k.
Proof. unfold fd_count, one. cbn [count_if]. by rewrite Z.eqb_sym. Qed.

Lemma close_received_net fds w :
  Forall (Z.le 0) fds → net (λ k, - fd_count fds k) none w (llam_broker_close_received_fds fds w).2.
Proof.
  intros H. revert w. induction H as [|fd fds Hfd _ IH]; intros w; cbn [llam_broker_close_received_fds].
  { by apply net_same. }
  rewrite (proj2 (Z.leb_le 0 fd) Hfd). cbn [mbind st_bind]. pose proof (close_net fd w) as C.
  destruct (sys_close fd w) as [[] w1]. eapply net_trans; [exact C|apply IH|..]; intros k; rewrite ?fd_count_cons; lia.
Qed.

(** What failing to read leaves: descriptors closed, message cleared. *)
Lemma read_fail_net m len fds e w :
  Forall (Z.le 0) fds →
  let x := llam_broker_read_message_fail m len fds e w in
  x.1 = (-1, if 0 <? len then memzero_at 0 (Z.to_nat len) <$> m else m) ∧
  w_errno x.2 = e ∧ net (λ k, - fd_count fds k) none w x.2.
Proof.
  intros H. unfold llam_broker_read_message_fail. mon. pose proof (close_received_net fds w H) as C.
  destruct (llam_broker_close_received_fds fds w) as [[] w1]. mon. split_and!; [done..|].
  eapply net_thrifty; [exact C|]. by apply net_same.
Qed.

Lemma shaped_cmsg_wf m : cmsg_wf (shaped_cmsg m).
Proof.
  assert (∀ x, is_s32 (s32 (u32 x))) as Hs.
  { intros x. unfold is_s32, s32. pose proof (u32_range x) as U. unfold is_u32 in U. destruct (Z.ltb_spec (u32 x) (2 ^ 31)); lia. }
  unfold cmsg_wf, shaped_cmsg, payload. cbn [cmsg_level cmsg_type cmsg_data]. split_and!; [done..|].
  destruct (Z.ltb_spec (Z.of_nat (length (cmsg_data m))) (2 ^ 32)); cbn; lia.
Qed.

Lemma open_all_held fds k log :
  held descriptors k (rev (EvOpen <$> fds) ++ log) = held descriptors k log + fd_count fds k.
Proof.
  revert log. induction fds as [|fd fds IH]; intros log; [cbn; unfold fd_count; cbn; lia|].
  cbn [fmap list_fmap rev]. rewrite <- app_assoc, IH, fd_count_cons. cbn. unfold one. lia.
Qed.

Lemma open_all_maps fds k log : held mappings k (rev (EvOpen <$> fds) ++ log) = held mappings k log.
Proof.
  revert log. induction fds as [|fd fds IH]; intros log; [done|].
  cbn [fmap list_fmap rev]. rewrite <- app_assoc, IH. done.
Qed.

(** How [recvmsg] ends. *)
Definition delivered (length capacity : Z) (w : world) (x : Z * list Z * list Z * Z) (w' : world) : Prop :=
  (x.1.1.1 <= 0 ∧ thrifty w w') ∨
  ∃ bytes cut ms, 0 < x.1.1.1 ∧ x.1 = (Z.of_nat (Datatypes.length bytes), bytes, take cut (control_image ms)) ∧
    Z.of_nat (Datatypes.length bytes) <= length ∧
    Forall cmsg_wf ms ∧ Z.of_nat cut <= capacity ∧ net (fd_count (installed cut ms)) none w w'.

Lemma recvmsg_delivered fd length capacity w :
  0 <= length → 0 <= capacity → wp (sys_recvmsg fd length capacity) (delivered length capacity w) w.
Proof.
  intros HL HC. unfold sys_recvmsg. eapply wp_thrifty; [by apply thrifty_log|apply net_refl|]. intros _ w1 N1.
  eapply wp_thrifty; [by apply pres_thrifty_pop|exact N1|]. intros [m|e] w2 N2.
  - destruct (take (Z.to_nat length) (rcv_bytes m)) as [|b bs] eqn:E; [by apply wp_ret; left|].
    unfold wp. mon. right. exists (b :: bs). eexists _, (shaped_cmsg <$> rcv_cmsgs m). split_and!; [done|done| | | |].
    + rewrite <- E, length_take. lia.
    + apply Forall_fmap, Forall_true. intros c. apply shaped_cmsg_wf.
    + lia.
    + eapply thrifty_net; [exact N2|]. split_and!; [done|done|]. intros k.
      cbn [set_w_os w_os set_os_log os_log]. rewrite open_all_held, open_all_maps. lia.
  - unfold wp. mon. left. split; [done|]. eapply net_thrifty; [exact N2|]. by apply net_same.
Qed.

Lemma installed_nonneg cut ms : Forall (Z.le 0) (installed cut ms).
Proof. apply Forall_forall. intros x Hx. unfold installed in Hx. by apply list_elem_of_filter in Hx as []. Qed.

(** The walk keeps or closes every descriptor it finds. *)
Lemma collect_received_net cut ms capacity fds w :
  Forall cmsg_wf ms → Z.of_nat cut <= capacity → Forall (Z.le 0) fds →
  (length fds <= 1)%nat →
  wp (collect_received (take cut (control_image ms)) capacity fds) (λ x w',
    Forall (Z.le 0) x.1 ∧ net (λ k, fd_count x.1 k - fd_count fds k - fd_count (installed cut ms) k) none w w') w.
Proof.
  intros Hms Hcut Hfds Hl. unfold collect_received.
  set (c := llam_broker_collect_received_fds _ _ _).
  assert (same_haul c (foldl (flip collect_fd) (Collected fds [] false) (visible cut ms))) as [H1 H2]
    by by apply collect_received_visible.
  destruct (collect_fds_split (visible cut ms) (Collected fds [] false)) as [H3 H4]; [by left|cbn [col_fds]; unfold LLAM_BROKER_SCM_RIGHTS_MAX_FDS; lia|].
  rewrite H3 in H1. rewrite H4 in H2. cbn [col_fds col_closed app] in H1, H2.
  fold (installed cut ms) in H1, H2.
  assert (Forall (Z.le 0) (fds ++ installed cut ms)) as Hall by (apply Forall_app; split; [done|apply installed_nonneg]).
  pose proof (close_received_net (col_closed c) w) as C. unfold wp. mon.
  destruct (llam_broker_close_received_fds (col_closed c) w) as [[] w1]. mon.
  rewrite H1, H2 in *. split; [by apply Forall_take|]. eapply net_eq; [apply C; by apply Forall_drop| |done].
  intros k. pose proof (fd_count_app fds (installed cut ms) k) as E.
  rewrite <- (take_drop (Z.to_nat LLAM_BROKER_SCM_RIGHTS_MAX_FDS) (fds ++ installed cut ms)), fd_count_app in E. cbn [fst snd]. lia.
Qed.

Lemma request_image_length r : request_frame r → length (image_of_request r) = 416%nat.
Proof.
  intros [_ _ T [D _]]. unfold image_of_request. rewrite !length_app, (token_image_length _ T), D. done.
Qed.

Lemma response_image_length r : response_frame r → length (image_of_response r) = 400%nat.
Proof.
  intros [_ _ T [D _]]. unfold image_of_response. rewrite !length_app, (token_image_length _ T), D. done.
Qed.

(** How the receive loop ends: the whole message and at most one descriptor, or
    a cleared message and every descriptor closed. *)
Definition read_outcome (len : Z) (fds : list Z) (w : world) (r : Z * option (list Z) * list Z) (w' : world) : Prop :=
  (∃ m fds', r = (0, Some m, fds') ∧ Z.of_nat (length m) = len ∧ (length fds' <= 1)%nat ∧ Forall (Z.le 0) fds'
     ∧ net (λ k, fd_count fds' k - fd_count fds k) none w w')
  ∨ (r = (-1, Some (replicate (Z.to_nat len) 0), []) ∧ net (λ k, - fd_count fds k) none w w').

Lemma memzero_all n l : length l = n → memzero_at 0 n l = replicate n 0.
Proof.
  intros <-. unfold memzero_at, memcpy_at. rewrite take_0, length_replicate, drop_ge by lia. by rewrite app_nil_r.
Qed.

Lemma read_failed m len fds fds0 e w0 w :
  0 < len → Z.of_nat (length m) = len → Forall (Z.le 0) fds →
  net (λ k, fd_count fds k - fd_count fds0 k) none w0 w →
  wp (r ← llam_broker_read_message_fail (Some m) len fds e; mret (r, [])) (read_outcome len fds0 w0) w.
Proof.
  intros Hp Hm Hf N. destruct (read_fail_net (Some m) len fds e w Hf) as (H1&_&H2). unfold wp. mon.
  destruct (llam_broker_read_message_fail (Some m) len fds e w) as [r w1]. cbn [fst snd] in *. mon. right. split.
  - rewrite H1, (proj2 (Z.ltb_lt 0 len) Hp). cbn [fmap option_fmap option_map]. by rewrite memzero_all by lia.
  - eapply net_trans; [exact N|exact H2|..]; intros k; cbn beta; lia.
Qed.

Lemma read_loop_outcome fuel fd d : ∀ m len done fds w0 w fds0,
  0 < len → Z.of_nat (length m) = len → 0 <= done → (length fds <= 1)%nat → Forall (Z.le 0) fds →
  net (λ k, fd_count fds k - fd_count fds0 k) none w0 w →
  wp (read_message_loop fuel fd d m len done fds) (read_outcome len fds0 w0) w.
Proof.
  induction fuel as [|fuel IH]; intros m len done fds w0 w fds0 Hp Hm Hd Hl Hf N; cbn [read_message_loop];
    [by apply read_failed|].
  apply wp_if; intros Hdone; bools.
  { apply wp_ret. left. eauto 10. }
  eapply wp_thrifty; [apply thrifty_wait|exact N|]. intros rc w1 N1. apply wp_if; intros _.
  { eapply wp_thrifty; [apply thrifty_get_errno|exact N1|]. intros e w2 N2. by apply read_failed. }
  apply wp_bind. eapply wp_mono; [apply recvmsg_delivered; [lia|done]|].
  intros [[[n bytes] control] flags] w2 [[Hn T]|(bs&cut&ms&Hn&[= -> -> ->]&Hb&Hms&Hcut&T)]; cbn [fst snd] in *.
  - rewrite (proj2 (Z.ltb_ge 0 n)) by lia. pose proof (net_thrifty _ _ _ _ _ N1 T) as N2.
    apply wp_if; intros _; [by apply read_failed|].
    eapply wp_thrifty; [apply thrifty_get_errno|exact N2|]. intros e w3 N3.
    apply wp_if; intros _; [by apply IH|by apply read_failed].
  - rewrite (proj2 (Z.ltb_lt _ _)) by lia. apply wp_bind.
    eapply wp_mono; [by apply collect_received_net|]. intros [fds1 bad] w3 [Hf1 T1]. cbn [fst] in *.
    assert (net (λ k, fd_count fds1 k - fd_count fds0 k) none w0 w3) as N3.
    { eapply net_trans; [eapply net_trans; [exact N1|exact T|done|done]|exact T1|..]; intros k; cbn beta; lia. }
    assert (Z.of_nat (length (memcpy_at (Z.to_nat done) bs m)) = len) as Hm'
      by (rewrite length_memcpy_at by lia; lia).
    eapply wp_thrifty; [apply thrifty_cloexec_all|exact N3|]. intros bad' w4 N4.
    apply wp_if; intros Hbad; [by apply read_failed|]. bools. apply IH; try done; lia.
Qed.

Lemma one_fd_list fds : (length fds <= 1)%nat → Forall (Z.le 0) fds →
  ∃ d, (match fds with [x] => (λ _ : Z, x) <$> Some (-1) | _ => Some (-1) end) = Some d ∧ -1 <= d ∧
    ∀ k, one_fd d k = fd_count fds k.
Proof.
  intros Hl Hf. destruct fds as [|x [|y l]]; cbn in Hl; [|inversion_clear Hf as [|? ? Hx _]|lia].
  - by exists (-1).
  - exists x. split_and!; [done|lia|]. intros k. unfold one_fd. rewrite (proj2 (Z.leb_le 0 x) Hx), fd_count_cons.
    unfold fd_count. cbn. lia.
Qed.

Lemma read_message_books fd message out w :
  message ≠ [] →
  wp (llam_broker_read_message_fd fd (Some message) (Z.of_nat (length message)) (Some out)) (λ r w',
    (∃ m d, r = (0, Some m, Some d) ∧ length m = length message ∧ -1 <= d ∧ net (one_fd d) none w w')
    ∨ (r = (-1, Some (replicate (length message) 0), Some (-1)) ∧ thrifty w w')) w.
Proof.
  intros Hne. assert (0 < Z.of_nat (length message)) as Hp by (destruct message; [done|cbn; lia]).
  assert (∀ k : Z, 0 = fd_count [] k - fd_count [] k) as H0 by (intros k; unfold fd_count; cbn; lia).
  unfold llam_broker_read_message_fd. cbn [fmap option_fmap option_map is_null].
  eapply wp_thrifty; [apply thrifty_deadline|apply net_refl|]. intros d w1 N1. apply wp_if; intros _.
  - apply wp_bind. destruct (read_fail_net (Some message) (Z.of_nat (length message)) [] EINVAL w1 (Forall_nil_2 _)) as (H1&_&H2).
    unfold wp at 1. destruct (llam_broker_read_message_fail _ _ _ _ w1) as [r w2]. cbn [fst snd] in *. apply wp_ret. right.
    rewrite H1, (proj2 (Z.ltb_lt 0 _) Hp). cbn [fmap option_fmap option_map]. rewrite memzero_all by lia.
    rewrite Nat2Z.id. split; [done|]. eapply net_thrifty; [exact N1|]. by eapply net_eq.
  - eapply wp_thrifty; [apply pres_gets, _|exact N1|]. intros n w2 N2. apply wp_bind.
    eapply wp_mono; [apply (read_loop_outcome _ _ _ message _ 0 [] w w2 []); try done; cbn; lia|].
    intros r w3 [(m&fds&->&Hm&Hl&Hf&N3)|[-> N3]]; cbn [fst snd Z.eqb negb].
    + destruct (one_fd_list fds Hl Hf) as (d'&Ed&Hd&Hc). apply wp_ret. left. exists m, d'. rewrite <- Ed.
      split_and!; [done|lia|done|]. eapply net_eq; [exact N3| |done]. intros k. rewrite Hc. unfold fd_count. cbn. lia.
    + apply wp_ret. right. rewrite Nat2Z.id. split; [done|]. by eapply net_eq.
Qed.

(** C38: Reading a message from an untrusted peer is all or nothing.  Either the
    call returns 0 with a complete message and at most one descriptor, or it
    returns -1, no descriptor, and a message cleared to zero; in both cases every
    descriptor the kernel installed on the way, in whatever control messages and
    however truncated, is handed over or closed exactly once, and the broker is
    not touched. *)
Theorem message_read_accounted (fd : Z) (message : list Z) (out : Z) (w : world) :
  message ≠ [] →
  let r := llam_broker_read_message_fd fd (Some message) (Z.of_nat (length message)) (Some out) w in
  (∃ m d, r.1 = (0, Some m, Some d) ∧ length m = length message ∧ -1 <= d ∧ net (one_fd d) none w r.2)
  ∨ (r.1 = (-1, Some (replicate (length message) 0), Some (-1)) ∧ thrifty w r.2).
Proof.
  intros Hne. pose proof (read_message_books fd message out w Hne) as H. unfold wp in H.
  by destruct (llam_broker_read_message_fd fd (Some message) (Z.of_nat (length message)) (Some out) w).
Qed.

(** ** The loops end by themselves

    The fuel of the loops is the length of the tape they read plus one; more fuel
    gives the same result, so that no call ends for lack of it. *)

Definition on_tape {A} (tape : os → list A) (w w' : world) : Prop := tape (w_os w') = tape (w_os w).

#[export] Instance on_tape_preorder {A} (tape : os → list A) : PreOrder (on_tape tape).
Proof. split; [by intros w|]. unfold on_tape. intros x y z. congruence. Qed.

Lemma tape_pop {A B} (tape : os → list A) (other : os → list B) set_other dflt :
  (∀ l o, tape (set_other l o) = tape o) → pres (on_tape tape) (pop other set_other dflt).
Proof. intros H w. unfold pop, on_tape. destruct (other (w_os w)); [done|]. cbn. apply H. Qed.

Lemma tape_log {A} (tape : os → list A) e :
  (∀ l o, tape (set_os_log l o) = tape o) → pres (on_tape tape) (log e).
Proof. intros H w. unfold on_tape. cbn. apply H. Qed.

(** Steps that agree on the state they reach. *)
Lemma bind_agree {A B} (m : M A) (k k' : A → M B) w :
  k (m w).1 (m w).2 = k' (m w).1 (m w).2 → (m ≫= k) w = (m ≫= k') w.
Proof. unfold mbind, st_bind. by destruct (m w). Qed.

Lemma tape_errno {A} (tape : os → list A) e : pres (on_tape tape) (set_errno e).
Proof. by intros w. Qed.

Lemma tape_get_errno {A} (tape : os → list A) : pres (on_tape tape) get_errno.
Proof. by intros w. Qed.

Lemma tape_fail {A} (tape : os → list A) e : pres (on_tape tape) (fail e).
Proof. by intros w. Qed.

#[export] Hint Resolve tape_errno tape_get_errno tape_fail : llam_quiet.

Ltac tape_walk := repeat first [by apply tape_pop | by apply tape_log | progress pres_walk].

Lemma wait_transport_fuel n fd ev d : ∀ m w,
  (length (os_poll (w_os w)) < n)%nat → (length (os_poll (w_os w)) < m)%nat →
  wait_transport_loop n fd ev d w = wait_transport_loop m fd ev d w.
Proof.
  induction n as [|n IH]; intros [|m] w Hn Hm; try lia. cbn [wait_transport_loop]. apply bind_agree.
  assert (pres (on_tape os_poll) (llam_broker_transport_wait_ms d)) as T
    by (unfold llam_broker_transport_wait_ms, llam_now_ns; tape_walk).
  specialize (T w). unfold on_tape in T. destruct (llam_broker_transport_wait_ms d w) as [t w1]. cbn [fst snd] in *.
  destruct (t =? 0); [done|]. apply bind_agree. unfold sys_poll. mon. unfold pop. cbn.
  rewrite T. destruct (os_poll (w_os w)) as [|[r| |e] l]; [done..|]. cbn. destruct (e =? EINTR); [|done].
  cbn in *. apply IH; cbn; lia.
Qed.

Section other_tape.
Context {A : Type} (tape : os → list A).
Context (Hlog : ∀ l o, tape (set_os_log l o) = tape o) (Hnow : ∀ l o, tape (set_os_now l o) = tape o)
  (Hpoll : ∀ l o, tape (set_os_poll l o) = tape o) (Hfcntl : ∀ l o, tape (set_os_fcntl l o) = tape o).

Lemma tape_wait fd ev d : pres (on_tape tape) (llam_broker_wait_transport_fd fd ev d).
Proof.
  assert (∀ n, pres (on_tape tape) (wait_transport_loop n fd ev d)) as H.
  { induction n as [|n IH]; cbn [wait_transport_loop]; [by intros w|].
    unfold llam_broker_transport_wait_ms, llam_now_ns, sys_poll. tape_walk. }
  unfold llam_broker_wait_transport_fd. tape_walk.
Qed.

Lemma tape_close_received fds : pres (on_tape tape) (llam_broker_close_received_fds fds).
Proof. induction fds as [|fd fds IH]; cbn [llam_broker_close_received_fds]; unfold sys_close; tape_walk. Qed.

Lemma tape_cloexec_all fds : ∀ b, pres (on_tape tape) (cloexec_all fds b).
Proof.
  induction fds as [|fd fds IH]; intros b; cbn [cloexec_all]; unfold llam_broker_set_cloexec_fd, sys_fcntl; tape_walk.
Qed.
End other_tape.

Lemma read_loop_fuel fd d n : ∀ m msg len done fds w,
  (length (os_recvmsg (w_os w)) < n)%nat → (length (os_recvmsg (w_os w)) < m)%nat →
  read_message_loop n fd d msg len done fds w = read_message_loop m fd d msg len done fds w.
Proof.
  induction n as [|n IH]; intros [|m] msg len done fds w Hn Hm; try lia. cbn [read_message_loop].
  destruct (len <=? done); [done|]. apply bind_agree.
  pose proof (tape_wait os_recvmsg ltac:(done) ltac:(done) ltac:(done) fd POLLIN d w) as T. unfold on_tape in T.
  destruct (llam_broker_wait_transport_fd fd POLLIN d w) as [rc w1]. cbn [fst snd] in *. destruct (negb (rc =? 0)); [done|].
  apply bind_agree. unfold sys_recvmsg. mon. unfold pop. cbn [set_w_os w_os set_os_log os_recvmsg].
  rewrite T. destruct (os_recvmsg (w_os w)) as [|[r|e] l]; [done|..]; cbn [length] in Hn, Hm.
  - cbn [fst snd]. destruct (take _ _) as [|b bs]; [done|]. mon.
    rewrite (proj2 (Z.ltb_lt _ _)) by (cbn [length]; lia). apply bind_agree.
    match goal with |- context [collect_received ?c ?cap ?f ?w2] =>
      assert (pres (on_tape os_recvmsg) (collect_received c cap f)) as T2
        by (unfold collect_received; tape_walk; by apply tape_close_received);
      specialize (T2 w2); destruct (collect_received c cap f w2) as [[fds1 bad] w3] end.
    cbn [fst snd] in *. apply bind_agree.
    match goal with |- context [cloexec_all ?f ?b ?w2] =>
      pose proof (tape_cloexec_all os_recvmsg ltac:(done) f b w2) as T3; destruct (cloexec_all f b w2) as [bad' w4] end.
    cbn [fst snd] in *. destruct (_ || _); [done|]. unfold on_tape in *. cbn in T2.
    apply IH; rewrite T3, T2; cbn; lia.
  - cbn. destruct (e =? EINTR); [|done]. apply IH; cbn; lia.
Qed.

(** A send takes one result off the tape; an empty tape is an error that ends the loop. *)
Definition one_send (w : world) (x : Z * world) : Prop :=
  os_send (w_os x.2) = tail (os_send (w_os w)) ∧ (os_send (w_os w) = [] → x.1 = -1 ∧ w_errno x.2 = EAGAIN).

Lemma send_tape fd data w : one_send w (llam_broker_send_transport fd data w).
Proof.
  unfold one_send, llam_broker_send_transport. mon. unfold pop.
  destruct (os_send (w_os w)) as [|[n|e] l] eqn:E; [cbn; by rewrite E| |done]. cbn -[Z.min Z.ltb]. destruct (0 <? _); cbn -[Z.min Z.ltb]; by split.
Qed.

Lemma sendmsg_tape fd data x w : one_send w (llam_broker_sendmsg_transport fd data x w).
Proof.
  unfold one_send, llam_broker_sendmsg_transport. mon. unfold pop.
  destruct (os_send (w_os w)) as [|[n|e] l] eqn:E; [cbn; by rewrite E| |done]. cbn -[Z.min Z.ltb]. destruct (0 <? _); cbn -[Z.min Z.ltb]; by split.
Qed.

Lemma one_send_shorter n w x :
  (length (os_send (w_os w)) < S n)%nat → one_send w x →
  (length (os_send (w_os x.2)) < n)%nat ∨ (x.1 = -1 ∧ w_errno x.2 = EAGAIN).
Proof.
  intros Hn [H1 H2]. rewrite H1. destruct (os_send (w_os w)) as [|y l]; [by right; auto|left]. cbn in *. lia.
Qed.

Lemma write_loop_fuel fd d n : ∀ m data w,
  (length (os_send (w_os w)) < n)%nat → (length (os_send (w_os w)) < m)%nat →
  write_loop n fd d data w = write_loop m fd d data w.
Proof.
  induction n as [|n IH]; intros [|m] data w Hn Hm; try lia. cbn [write_loop].
  destruct (_ <=? 0); [done|]. apply bind_agree.
  pose proof (tape_wait os_send ltac:(done) ltac:(done) ltac:(done) fd POLLOUT d w) as T. unfold on_tape in T.
  destruct (llam_broker_wait_transport_fd fd POLLOUT d w) as [rc w1]. cbn [fst snd] in *. destruct (negb (rc =? 0)); [done|].
  apply bind_agree. rewrite <- T in Hn, Hm. pose proof (send_tape fd data w1) as S1.
  pose proof (one_send_shorter n _ _ Hn S1) as A. pose proof (one_send_shorter m _ _ Hm S1) as B.
  destruct (llam_broker_send_transport fd data w1) as [x w2]. cbn [fst snd] in *.
  destruct A as [A|[-> E]]; [destruct B as [B|[-> E]]|]; [|by cbn; rewrite E..].
  destruct (0 <? x); [by apply IH|]. destruct (x =? 0); [done|]. mon. destruct (w_errno w2 =? EINTR); [by apply IH|done].
Qed.

Lemma write_descriptor_fuel fd d x n : ∀ m data w,
  (length (os_send (w_os w)) < n)%nat → (length (os_send (w_os w)) < m)%nat →
  write_descriptor_loop n fd d data x w = write_descriptor_loop m fd d data x w.
Proof.
  induction n as [|n IH]; intros [|m] data w Hn Hm; try lia. cbn [write_descriptor_loop]. apply bind_agree.
  pose proof (tape_wait os_send ltac:(done) ltac:(done) ltac:(done) fd POLLOUT d w) as T. unfold on_tape in T.
  destruct (llam_broker_wait_transport_fd fd POLLOUT d w) as [rc w1]. cbn [fst snd] in *. destruct (negb (rc =? 0)); [done|].
  apply bind_agree. rewrite <- T in Hn, Hm. pose proof (sendmsg_tape fd data x w1) as S1.
  pose proof (one_send_shorter n _ _ Hn S1) as A. pose proof (one_send_shorter m _ _ Hm S1) as B.
  destruct (llam_broker_sendmsg_transport fd data x w1) as [y w2]. cbn [fst snd] in *.
  destruct A as [A|[-> E]]; [destruct B as [B|[-> E]]|]; [|by cbn; rewrite E..].
  destruct (0 <? y); [done|]. destruct (y =? 0); [done|]. mon. destruct (w_errno w2 =? EINTR); [by apply IH|done].
Qed.

Lemma read_exact_fuel fd d n : ∀ m data len done w,
  (length (os_read (w_os w)) < n)%nat → (length (os_read (w_os w)) < m)%nat →
  read_exact_loop n fd d data len done w = read_exact_loop m fd d data len done w.
Proof.
  induction n as [|n IH]; intros [|m] data len done w Hn Hm; try lia. cbn [read_exact_loop].
  destruct (len <=? done); [done|]. apply bind_agree.
  pose proof (tape_wait os_read ltac:(done) ltac:(done) ltac:(done) fd POLLIN d w) as T. unfold on_tape in T.
  destruct (llam_broker_wait_transport_fd fd POLLIN d w) as [rc w1]. cbn [fst snd] in *. destruct (negb (rc =? 0)); [done|].
  apply bind_agree. unfold sys_read. mon. unfold pop. cbn [set_w_os w_os set_os_log os_read].
  rewrite T. destruct (os_read (w_os w)) as [|[r|e] l]; [done|..]; cbn [length] in Hn, Hm; cbn -[Z.ltb take].
  - destruct (0 <? _); [|destruct (_ =? 0); [done|]; cbn -[Z.eqb]; destruct (_ =? EINTR); [|done]]; apply IH; cbn; lia.
  - cbn. destruct (e =? EINTR); [|done]. apply IH; cbn; lia.
Qed.

(** ** What was sent *)

(** The bytes the kernel accepted on [fd] so far; the log has the newest event first. *)
Fixpoint sent (fd : Z) (l : list event) : list Z :=
  match l with
  | [] => []
  | EvSend f data :: l | EvSendFd f data _ :: l => sent fd l ++ (if f =? fd then data else [])
  | _ :: l => sent fd l
  end.

(** The descriptors passed on over [fd]. *)
Fixpoint passed (fd : Z) (l : list event) : list Z :=
  match l with
  | [] => []
  | EvSendFd f _ d :: l => passed fd l ++ (if f =? fd then [d] else [])
  | _ :: l => passed fd l
  end.

(** Nothing was sent. *)
Definition unsent (w w' : world) : Prop :=
  ∀ fd, sent fd (os_log (w_os w')) = sent fd (os_log (w_os w)) ∧
        passed fd (os_log (w_os w')) = passed fd (os_log (w_os w)).

#[export] Instance unsent_preorder : PreOrder unsent.
Proof.
  split; [by intros w fd|]. intros x y z H1 H2 fd. destruct (H1 fd), (H2 fd). split; congruence.
Qed.

Lemma unsent_pop {A} (tape : os → list A) set_tape dflt :
  (∀ l o, os_log (set_tape l o) = os_log o) → pres unsent (pop tape set_tape dflt).
Proof. intros H w fd. unfold pop. destruct (tape (w_os w)); [done|]. cbn. by rewrite H. Qed.

Lemma unsent_errno e : pres unsent (set_errno e).
Proof. by intros w fd. Qed.

Lemma unsent_get_errno : pres unsent get_errno.
Proof. by intros w fd. Qed.

Lemma unsent_fail e : pres unsent (fail e).
Proof. by intros w fd. Qed.

Lemma unsent_poll fd ev t : pres unsent (sys_poll fd ev t).
Proof. apply pres_bind; [apply _|by intros w f|intros _; by apply unsent_pop]. Qed.

#[export] Hint Resolve unsent_errno unsent_get_errno unsent_fail unsent_poll : llam_quiet.

Lemma unsent_deadline : pres unsent llam_broker_transport_frame_deadline.
Proof. unfold llam_broker_transport_frame_deadline, llam_now_ns. pres_walk. by apply unsent_pop. Qed.

Lemma unsent_wait fd ev d : pres unsent (llam_broker_wait_transport_fd fd ev d).
Proof.
  assert (∀ n, pres unsent (wait_transport_loop n fd ev d)) as H.
  { induction n as [|n IH]; cbn [wait_transport_loop]; [pres_walk|].
    unfold llam_broker_transport_wait_ms, llam_now_ns. repeat first [by apply unsent_pop|progress pres_walk]. }
  unfold llam_broker_wait_transport_fd. pres_walk. 
Qed.

(** Some of [data] was sent on [fd]: all of it exactly when the call returned 0. *)
Definition wrote (fd : Z) (data : list Z) (w : world) (rc : Z) (w' : world) : Prop :=
  ∃ n, sent fd (os_log (w_os w')) = sent fd (os_log (w_os w)) ++ take n data ∧
    (rc = 0 ∧ n = length data ∨ rc = -1 ∧ (n < length data)%nat).

(** How one [send] ends. *)
Lemma send_step fd data w :
  let x := llam_broker_send_transport fd data w in
  x.1 <= 0 ∧ unsent w x.2 ∨
  0 < x.1 <= Z.of_nat (length data) ∧
  sent fd (os_log (w_os x.2)) = sent fd (os_log (w_os w)) ++ take (Z.to_nat x.1) data ∧
  passed fd (os_log (w_os x.2)) = passed fd (os_log (w_os w)).
Proof.
  unfold llam_broker_send_transport. mon. unfold pop. destruct (os_send (w_os w)) as [|[n|e] l]; cbn -[Z.min Z.ltb].
  - by left.
  - destruct (Z.ltb_spec 0 (Z.min n (Z.of_nat (length data)))); cbn -[Z.min Z.ltb]; [right|left; by split].
    rewrite Z.eqb_refl. split_and!; [lia|lia|done|done].
  - left. split; [lia|]. by intros f.
Qed.

(** Sending what is left of [data] after its first [n] bytes went out. *)
Lemma write_loop_wrote fd d fuel : ∀ data n w0 w,
  (n <= length data)%nat → (length (os_send (w_os w)) < fuel)%nat →
  sent fd (os_log (w_os w)) = sent fd (os_log (w_os w0)) ++ take n data →
  wp (write_loop fuel fd d (drop n data)) (λ rc w', wrote fd data w0 rc w' ∧
    passed fd (os_log (w_os w')) = passed fd (os_log (w_os w))) w.
Proof.
  induction fuel as [|fuel IH]; intros data n w0 w Hn Hf Hs; [lia|]. cbn [write_loop]. rewrite length_drop.
  apply wp_if; intros Hl; bools.
  { apply wp_ret. split; [|done]. exists n. split; [done|left]. split; [done|lia]. }
  apply wp_bind. pose proof (unsent_wait fd POLLOUT d w fd) as [U1 U2].
  pose proof (tape_wait os_send ltac:(done) ltac:(done) ltac:(done) fd POLLOUT d w) as T. unfold on_tape in T.
  unfold wp at 1. destruct (llam_broker_wait_transport_fd fd POLLOUT d w) as [rc w1]. cbn [fst snd] in *.
  assert (∀ w', unsent w1 w' → wrote fd data w0 (-1) w' ∧ passed fd (os_log (w_os w')) = passed fd (os_log (w_os w))) as Hend.
  { intros w' H. destruct (H fd) as [H1 H2]. split; [|congruence]. exists n. split; [congruence|right; split; [done|lia]]. }
  apply wp_if; intros _; [apply wp_ret; by apply Hend|].
  apply wp_bind. pose proof (send_step fd (drop n data) w1) as Hx. rewrite <- T in Hf.
  pose proof (one_send_shorter fuel _ _ Hf (send_tape fd (drop n data) w1)) as Hf2.
  unfold wp at 1. destruct (llam_broker_send_transport fd (drop n data) w1) as [x w2]. cbn [fst snd] in *.
  destruct Hx as [[Hx U]|(Hx&S1&P1)].
  - rewrite (proj2 (Z.ltb_ge 0 x)) by lia. apply wp_if; intros _; [by apply Hend|]. unfold wp. mon.
    apply (wp_if (w_errno w2 =? EINTR)); intros E; [|by apply Hend].
    destruct Hf2 as [Hf2|Hf2]; [|destruct Hf2 as [_ He]; by rewrite He in E].
    destruct (U fd) as [H1 H2]. rewrite <- U2, <- H2. apply IH; [done|done|congruence].
  - rewrite (proj2 (Z.ltb_lt 0 x)) by lia. destruct Hf2 as [Hf2|Hf2]; [|destruct Hf2; lia].
    rewrite drop_drop. rewrite <- U2, <- P1. rewrite length_drop in Hx. apply IH; [lia|done|].
    rewrite S1, U1, Hs, <- app_assoc, take_take_drop. done.
Qed.

Lemma write_remainder_wrote fd data n d w0 w :
  (n <= length data)%nat → sent fd (os_log (w_os w)) = sent fd (os_log (w_os w0)) ++ take n data →
  wp (llam_broker_write_remainder fd (drop n data) d) (λ rc w', wrote fd data w0 rc w' ∧
    passed fd (os_log (w_os w')) = passed fd (os_log (w_os w))) w.
Proof. intros Hn Hs. unfold llam_broker_write_remainder. unfold wp. mon. apply write_loop_wrote; [done|lia|done]. Qed.

Lemma write_exact_wrote fd data w :
  wp (llam_broker_write_exact fd data) (λ rc w', wrote fd data w rc w' ∧
    passed fd (os_log (w_os w')) = passed fd (os_log (w_os w))) w.
Proof.
  unfold llam_broker_write_exact. eapply (wp_pres unsent); [apply unsent_deadline|reflexivity|]. intros d w1 U.
  destruct (U fd) as [U1 U2]. rewrite <- (drop_0 data) at 1.
  eapply wp_mono; [apply (write_remainder_wrote fd data 0 d w); [lia|by rewrite take_0, app_nil_r]|].
  intros rc w2 [H1 H2]. split; [done|congruence].
Qed.


(** How one [sendmsg] ends. *)
Lemma sendmsg_step fd data x w :
  let r := llam_broker_sendmsg_transport fd data x w in
  r.1 <= 0 ∧ unsent w r.2 ∨
  0 < r.1 <= Z.of_nat (length data) ∧
  sent fd (os_log (w_os r.2)) = sent fd (os_log (w_os w)) ++ take (Z.to_nat r.1) data ∧
  passed fd (os_log (w_os r.2)) = passed fd (os_log (w_os w)) ++ [x].
Proof.
  unfold llam_broker_sendmsg_transport. mon. unfold pop. destruct (os_send (w_os w)) as [|[n|e] l]; cbn -[Z.min Z.ltb].
  - by left.
  - destruct (Z.ltb_spec 0 (Z.min n (Z.of_nat (length data)))); cbn -[Z.min Z.ltb]; [right|left; by split].
    rewrite Z.eqb_refl. split_and!; [lia|lia|done|done].
  - left. split; [lia|]. by intros f.
Qed.

(** A message with a descriptor: on success all of it was sent and the
    descriptor was passed on once; on failure at most once, and not all was sent. *)
Definition wrote_with (fd : Z) (data : list Z) (x : Z) (w : world) (rc : Z) (w' : world) : Prop :=
  wrote fd data w rc w' ∧
  (passed fd (os_log (w_os w')) = passed fd (os_log (w_os w)) ++ [x]
   ∨ rc = -1 ∧ passed fd (os_log (w_os w')) = passed fd (os_log (w_os w))).

Lemma write_descriptor_loop_wrote fd d x fuel data : ∀ w0 w,
  data ≠ [] → (length (os_send (w_os w)) < fuel)%nat → unsent w0 w →
  wp (write_descriptor_loop fuel fd d data x) (wrote_with fd data x w0) w.
Proof.
  induction fuel as [|fuel IH]; intros w0 w Hd Hf U; [lia|]. cbn [write_descriptor_loop].
  assert (0 < length data)%nat as Hl by (destruct data; [done|cbn; lia]).
  assert (∀ w', unsent w0 w' → wrote_with fd data x w0 (-1) w') as Hend.
  { intros w' H. destruct (H fd) as [H1 H2]. split; [|by right]. exists 0%nat. rewrite take_0, app_nil_r. by split; [|right]. }
  apply wp_bind. pose proof (unsent_wait fd POLLOUT d w) as U1.
  pose proof (tape_wait os_send ltac:(done) ltac:(done) ltac:(done) fd POLLOUT d w) as T. unfold on_tape in T.
  unfold wp at 1. destruct (llam_broker_wait_transport_fd fd POLLOUT d w) as [rc w1]. cbn [fst snd] in *.
  assert (unsent w0 w1) as U2 by by etrans.
  apply wp_if; intros _; [apply wp_ret; by apply Hend|].
  apply wp_bind. pose proof (sendmsg_step fd data x w1) as Hx. rewrite <- T in Hf.
  pose proof (one_send_shorter fuel _ _ Hf (sendmsg_tape fd data x w1)) as Hf2.
  unfold wp at 1. destruct (llam_broker_sendmsg_transport fd data x w1) as [y w2]. cbn [fst snd] in *.
  destruct Hx as [[Hx U3]|(Hx&S1&P1)].
  - assert (unsent w0 w2) by by etrans. rewrite (proj2 (Z.ltb_ge 0 y)) by lia. apply wp_if; intros _; [by apply Hend|].
    unfold wp. mon. apply (wp_if (negb (w_errno w2 =? EINTR))); intros E; [by apply Hend|]. bools.
    destruct Hf2 as [Hf2|[_ Hf2]]; [by apply IH|by rewrite E in Hf2].
  - rewrite (proj2 (Z.ltb_lt 0 y)) by lia. destruct (U2 fd) as [U4 U5]. rewrite U4 in S1. rewrite U5 in P1.
    apply wp_if; intros Hy; bools.
    + eapply wp_mono; [apply (write_remainder_wrote fd data (Z.to_nat y) d w0); [lia|done]|].
      intros rc' w3 [H1 H2]. split; [done|left]. congruence.
    + apply wp_ret. split; [|by left]. exists (Z.to_nat y). split; [done|left; split; [done|lia]].
Qed.

Lemma write_with_descriptor_wrote fd data x w :
  data ≠ [] →
  wp (llam_broker_write_message_with_descriptor fd (Some data) (Z.of_nat (length data)) x)
    (wrote_with fd data x w) w.
Proof.
  intros Hd. unfold llam_broker_write_message_with_descriptor.
  eapply (wp_pres unsent); [apply unsent_deadline|reflexivity|]. intros d w1 U. apply wp_if; intros _.
  - unfold wp. mon. destruct (U fd) as [H1 H2]. split; [|by right]. exists 0%nat. rewrite take_0, app_nil_r. 
    split; [done|right]. split; [done|]. destruct data; [done|cbn; lia].
  - unfold wp. mon. apply write_descriptor_loop_wrote; [done|lia|done].
Qed.

(** ** Reassembly *)

(** A message that arrives without control data. *)
Definition plain (bytes : list Z) : received_message + Z := inl (ReceivedMessage bytes [] 0 0).

(** The peer's bytes arrive in [chunks], each announced by [poll], within the
    time limit of a frame that began at [t0]. *)
Record inbound (t0 : Z) (chunks : list (list Z)) (w : world) : Prop := {
  ib_messages : ∃ rest, os_recvmsg (w_os w) = (plain <$> chunks) ++ rest;
  ib_polls : ∃ rest, os_poll (w_os w) = replicate (length chunks) (PollReady POLLIN) ++ rest;
  ib_clock : Forall (λ t, t0 <= t < t0 + LLAM_BROKER_TRANSPORT_FRAME_TIMEOUT_NS) (os_now (w_os w));
}.

Lemma wait_ms_positive t0 w :
  0 < t0 → t0 + LLAM_BROKER_TRANSPORT_FRAME_TIMEOUT_NS <= UINT64_MAX →
  Forall (λ t, t0 <= t < t0 + LLAM_BROKER_TRANSPORT_FRAME_TIMEOUT_NS) (os_now (w_os w)) →
  ∃ ms l, llam_broker_transport_wait_ms (t0 + LLAM_BROKER_TRANSPORT_FRAME_TIMEOUT_NS) w
    = (ms, set_w_os (set_os_now l (w_os w)) w) ∧ ms ≠ 0 ∧
    Forall (λ t, t0 <= t < t0 + LLAM_BROKER_TRANSPORT_FRAME_TIMEOUT_NS) l.
Proof.
  intros H0 Hmax Hall.
  assert (set_w_os (set_os_now (os_now (w_os w)) (w_os w)) w = w) as Hid by (by destruct w as [? ? ? ? []]).
  unfold llam_broker_transport_wait_ms. destruct (Z.eqb_spec (t0 + LLAM_BROKER_TRANSPORT_FRAME_TIMEOUT_NS) UINT64_MAX).
  { exists LLAM_BROKER_TRANSPORT_IO_TIMEOUT_MS, (os_now (w_os w)). by rewrite Hid. }
  unfold llam_now_ns. mon. unfold pop. destruct (os_now (w_os w)) as [|t l] eqn:E.
  { exists LLAM_BROKER_TRANSPORT_IO_TIMEOUT_MS, []. by rewrite Hid. }
  apply Forall_cons in Hall as [Ht Hl]. mon. rewrite (proj2 (Z.eqb_neq t 0)) by lia.
  rewrite (proj2 (Z.leb_gt _ _)) by lia. set (rem := t0 + LLAM_BROKER_TRANSPORT_FRAME_TIMEOUT_NS - t).
  assert (1 <= rem <= LLAM_BROKER_TRANSPORT_FRAME_TIMEOUT_NS) as Hr by lia.
  unfold LLAM_BROKER_TRANSPORT_FRAME_TIMEOUT_NS in Hr.
  rewrite (u64_small (rem + 999999)) by (unfold is_u64; lia).
  assert (1 <= (rem + 999999) / 1000000) by (apply Z.div_le_lower_bound; lia).
  rewrite (proj2 (Z.eqb_neq _ 0)) by lia. destruct (_ <? _); eexists _, l; (split; [done|]); split; [done|done|lia|done].
Qed.

Lemma wait_ready t0 chunk chunks fd w :
  0 < t0 → t0 + LLAM_BROKER_TRANSPORT_FRAME_TIMEOUT_NS <= UINT64_MAX → 0 <= fd →
  inbound t0 (chunk :: chunks) w →
  ∃ w', llam_broker_wait_transport_fd fd POLLIN (t0 + LLAM_BROKER_TRANSPORT_FRAME_TIMEOUT_NS) w = (0, w') ∧
    os_recvmsg (w_os w') = os_recvmsg (w_os w) ∧
    (∃ rest, os_poll (w_os w') = replicate (length chunks) (PollReady POLLIN) ++ rest) ∧
    Forall (λ t, t0 <= t < t0 + LLAM_BROKER_TRANSPORT_FRAME_TIMEOUT_NS) (os_now (w_os w')).
Proof.
  intros H0 Hmax Hfd [_ [rest Hp] Hc]. destruct (wait_ms_positive t0 w H0 Hmax Hc) as (ms&l&Hms&Hne&Hl).
  unfold llam_broker_wait_transport_fd. rewrite (proj2 (Z.ltb_ge fd 0)) by lia. mon. cbn [wait_transport_loop].
  mon. rewrite Hms. mon. rewrite (proj2 (Z.eqb_neq ms 0)) by done. unfold sys_poll. mon. unfold pop.
  cbn [set_w_os w_os set_os_log set_os_now os_poll os_log]. rewrite Hp. cbn [length replicate app]. mon. eexists. split; [done|].
  cbn. eauto.
Qed.

Lemma recv_chunk fd len chunk rest w :
  chunk ≠ [] → Z.of_nat (length chunk) <= len → os_recvmsg (w_os w) = plain chunk :: rest →
  ∃ w', sys_recvmsg fd len (cmsg_space (4 * LLAM_BROKER_SCM_RIGHTS_MAX_FDS)) w
    = (Z.of_nat (length chunk), chunk, [], 0, w') ∧
    os_recvmsg (w_os w') = rest ∧ os_poll (w_os w') = os_poll (w_os w) ∧ os_now (w_os w') = os_now (w_os w).
Proof.
  intros Hne Hl Hr. unfold sys_recvmsg. mon. unfold pop. cbn [set_w_os w_os set_os_log os_recvmsg].
  rewrite Hr. cbn -[take cmsg_space]. rewrite take_ge by lia. destruct chunk as [|b c]; [done|]. mon.
  eexists. split; [done|]. done.
Qed.

Lemma take_memcpy_at n c l : (n + length c <= length l)%nat → take (n + length c) (memcpy_at n c l) = take n l ++ c.
Proof.
  intros H. unfold memcpy_at. rewrite app_assoc, take_app_length'; [done|]. rewrite length_app, length_take. lia.
Qed.

Section reassembly.
Context (t0 fd len : Z) (Ht0 : 0 < t0) (Hfd : 0 <= fd).
Context (Hmax : t0 + LLAM_BROKER_TRANSPORT_FRAME_TIMEOUT_NS <= UINT64_MAX).

Lemma read_loop_inbound chunks : ∀ fuel msg done w,
  Forall (λ c, c ≠ []) chunks → inbound t0 chunks w → (length chunks < fuel)%nat →
  Z.of_nat (length msg) = len → 0 <= done → done + Z.of_nat (length (concat chunks)) = len →
  ∃ w', read_message_loop fuel fd (t0 + LLAM_BROKER_TRANSPORT_FRAME_TIMEOUT_NS) msg len done [] w
    = (0, Some (take (Z.to_nat done) msg ++ concat chunks), [], w').
Proof.
  induction chunks as [|c chunks IH]; intros [|fuel] msg done w Hne Hin Hf Hm Hd Hl; try lia;
    cbn [read_message_loop concat] in *.
  - rewrite (proj2 (Z.leb_le len done)) by (cbn in Hl; lia). rewrite app_nil_r, take_ge by (cbn in Hl; lia). by exists w.
  - rewrite length_app in Hl. apply Forall_cons in Hne as [Hc Hne].
    assert (0 < Z.of_nat (length c)) as Hpos by (destruct c; [done|cbn; lia]).
    rewrite (proj2 (Z.leb_gt len done)) by lia.
    destruct (wait_ready t0 c chunks fd w Ht0 Hmax Hfd Hin) as (w1&Hw&Hr1&Hp1&Hn1).
    destruct (ib_messages _ _ _ Hin) as [rest Hr]. rewrite Hr in Hr1.
    destruct (recv_chunk fd (len - done) c ((plain <$> chunks) ++ rest) w1 Hc ltac:(lia) Hr1) as (w2&Hv&Hr2&Hp2&Hn2).
    mon. rewrite Hw. mon. rewrite Hv. mon. rewrite (proj2 (Z.ltb_lt _ _) Hpos).
    destruct (IH fuel (memcpy_at (Z.to_nat done) c msg) (done + Z.of_nat (length c)) w2) as (w3&E);
      [done| |cbn in Hf; lia|rewrite length_memcpy_at; lia|lia|lia|].
    { split; [by eexists|by rewrite Hp2|by rewrite Hn2]. }
    exists w3. etrans; [exact E|]. do 3 f_equal. rewrite Z2Nat.inj_add, Nat2Z.id by lia.
    rewrite take_memcpy_at by lia. by rewrite app_assoc.
Qed.
End reassembly.

(** C39: A request crosses the connection unchanged.  When the client's write
    succeeds, the server that receives the bytes the client's kernel accepted, in
    whatever pieces and within the time limit of a frame, reads exactly that
    request, without a descriptor. *)
Theorem request_crosses_connection (request : wire_request) (cfd : Z) (wc : world)
    (fd t0 : Z) (old : wire_request) (out : Z) (chunks : list (list Z)) (w : world) :
  let c := llam_broker_write_exact cfd (image_of_request request) wc in
  request_frame request → c.1 = 0 →
  sent cfd (os_log (w_os c.2)) = sent cfd (os_log (w_os wc)) ++ concat chunks →
  Forall (λ c, c ≠ []) chunks → request_frame old → 0 <= fd →
  0 < t0 → t0 + LLAM_BROKER_TRANSPORT_FRAME_TIMEOUT_NS <= UINT64_MAX →
  (∃ now, os_now (w_os w) = t0 :: now ∧ inbound t0 chunks (set_w_os (set_os_now now (w_os w)) w)) →
  (llam_broker_read_request_fd fd (Some old) (Some out) w).1 = (0, Some request, Some (-1)).
Proof.
  intros c Hrq Hc Hsent Hne Hold Hfd H0 Hmax (now&Hnow&Hin).
  assert (concat chunks = image_of_request request) as Hch.
  { pose proof (write_exact_wrote cfd (image_of_request request) wc) as [(n&H1&[[_ Hn]|[H2 _]]) _]; fold c in H1.
    - rewrite Hsent in H1. apply app_inv_head in H1. rewrite H1, Hn. by apply take_ge.
    - fold c in H2. lia. }
  pose proof (request_image_length request Hrq) as HL. pose proof (request_image_length old Hold) as HO.
  unfold llam_broker_read_request_fd, llam_broker_read_message_fd, llam_broker_transport_frame_deadline, llam_now_ns.
  cbn [fmap option_fmap option_map is_null]. mon. unfold pop. rewrite Hnow. mon.
  rewrite (proj2 (Z.eqb_neq t0 0)), (proj2 (Z.ltb_ge (UINT64_MAX - t0) _)) by lia. mon.
  rewrite (proj2 (Z.ltb_ge fd 0)) by lia. change (sizeof_request =? 0) with false. mon.
  match goal with |- context [read_message_loop ?n _ _ _ _ _ _ ?w1] =>
    destruct (read_loop_inbound t0 fd sizeof_request H0 Hfd Hmax chunks n (image_of_request old) 0 w1) as (w'&->) end;
    try done.
  - destruct (ib_messages _ _ _ Hin) as [rest Hr]. cbn in Hr |- *. rewrite Hr, length_app, length_fmap. lia.
  - rewrite HO. done.
  - rewrite Hch, HL. done.
  - mon. by rewrite take_0, app_nil_l, Hch, request_roundtrip.
Qed.

(** ** Examples *)

Definition ping : wire_request :=
  WireRequest LLAM_BROKER_WIRE_MAGIC LLAM_BROKER_WIRE_VERSION LLAM_BROKER_WIRE_OP_PING 0 0 0 0 0 0 0 0 0
    zero_token (wr_data zero_request).

Lemma zeros_bytes n : Forall is_byte (replicate n 0).
Proof. apply Forall_replicate. done. Qed.

Lemma zero_token_wf : token_wf zero_token.
Proof. split; try done; apply zeros_bytes. Qed.

Lemma ping_frame : request_frame ping.
Proof. split; [by repeat split..|apply zero_token_wf|split; [done|apply zeros_bytes]]. Qed.

(** A socket that takes two pieces, and one that delivers three. *)
Definition sending_world : world :=
  set_w_os (set_os_poll [PollReady POLLOUT; PollReady POLLOUT] (set_os_send [inl 100; inl 500] (w_os example_world)))
    example_world.

Definition ping_chunks : list (list Z) :=
  [take 7 (image_of_request ping); take 9 (drop 7 (image_of_request ping)); drop 16 (image_of_request ping)].

Definition receiving_world : world :=
  set_w_os (set_os_poll (replicate 3 (PollReady POLLIN))
    (set_os_now [1000; 1001; 1002; 1003] (set_os_recvmsg (plain <$> ping_chunks) (w_os example_world)))) example_world.

Lemma request_crosses_connection_witness :
  (llam_broker_write_exact 4 (image_of_request ping) sending_world).1 = 0 ∧
  (llam_broker_read_request_fd 9 (Some zero_request) (Some 77) receiving_world).1 = (0, Some ping, Some (-1)).
Proof.
  split; [vm_compute; reflexivity|].
  apply (request_crosses_connection ping 4 sending_world 9 1000 zero_request 77 ping_chunks receiving_world).
  - apply ping_frame.
  - vm_compute; reflexivity.
  - vm_compute; reflexivity.
  - repeat constructor; done.
  - split; [by repeat split..|apply zero_token_wf|split; [done|apply zeros_bytes]].
  - lia.
  - lia.
  - vm_compute; discriminate.
  - eexists. split; [reflexivity|]. split; [by exists []|by exists []|]. repeat constructor; done.
Defined.

(** A peer that attaches two descriptors to the first byte. *)
Definition greedy_world : world :=
  set_w_os (set_os_poll [PollReady POLLIN]
    (set_os_recvmsg [inl (ReceivedMessage [1] [Cmsg SOL_SOCKET SCM_RIGHTS [7; 0; 0; 0; 8; 0; 0; 0]] 24 0)]
      (w_os example_world))) example_world.

Lemma message_read_accounted_witness :
  (llam_broker_read_message_fd 4 (Some [9; 9]) 2 (Some 5) greedy_world).1 = (-1, Some [0; 0], Some (-1)) ∧
  held descriptors 7 (os_log (w_os (llam_broker_read_message_fd 4 (Some [9; 9]) 2 (Some 5) greedy_world).2)) = 0.
Proof.
  destruct (message_read_accounted 4 [9; 9] 5 greedy_world ltac:(done)) as [(m&d&H&_)|[H1 H2]].
  - exfalso. revert H. vm_compute. discriminate.
  - split; [exact H1|]. destruct H2 as (_&_&H2). destruct (H2 7) as [H3 _]. 
    change (Z.of_nat (length [9; 9])) with 2 in H3. rewrite H3. reflexivity.
Defined.
