(* ===== verification/Serve.v ===== *)
(** * Serving control connections

    [src/core/broker/transport/broker_transport_posix.c] (one request, a
    connection), [broker_transport_posix_socket.c] (endpoints) and
    [broker_transport_unix.c] (the listening broker).  The client of a connection
    is untrusted and the network may fail between any two calls: the theorems show
    that a connection, and a whole run of the listening broker, leave the books of
    the process balanced and move the broker only forward. *)

From S2P Require Import Prelude Mix World Capability BrokerOps BrokerCore BrokerDescriptor RingMap BrokerSession.
From S2P Require Import Rollback BrokerFrame Advance Books Wire Codec Message.

Definition ENOENT : Z := 2.
Definition ENOTDIR : Z := 20.
Definition ENOSYS : Z := 38.
Definition ELOOP : Z := 40.
Definition EPROTONOSUPPORT : Z := 93.

Definition LLAM_BROKER_SESSION_REQUEST_MAX : nat := 64.
Definition LLAM_BROKER_SESSION_LIFETIME_NS : Z := 2 * 1000 * 1000 * 1000.

(** ** Requests *)

(** The subject-table key of a connection. *)
Definition transport_id_of (fd : Z) (info : file_stat) : Z :=
  let mixed := llam_mix64 (u64 fd) in
  let mixed := Z.lxor mixed (llam_mix64 (u64 (st_dev info))) in
  let mixed := Z.lxor mixed (llam_mix64 (u64 (st_ino info))) in
  if mixed =? 0 then llam_mix64 (Z.lxor (u64 fd) 0x9e3779b97f4a7c15) else mixed.

Definition llam_broker_fd_transport_id (fd : Z) (out_transport_id : option Z) : M (Z * option Z) :=
  if (fd <? 0) || is_null out_transport_id then set_errno EINVAL ;; mret (-1, out_transport_id)
  else
    info ← sys_fstat;
    match info with
    | None => mret (-1, out_transport_id)
    | Some info => mret (0, Some (transport_id_of fd info))
    end.

(** The failed write of a response: take back what it granted. *)
Definition undelivered (request : wire_request) (response : wire_response) (subject_id : Z)
    (response_descriptor : Z) : M Z :=
  saved_errno ← get_errno;
  llam_broker_rollback_created_response (Some request) (Some response) subject_id ;;
  (if negb (llam_handle_is_invalid response_descriptor) then sys_close response_descriptor else mret tt) ;;
  llam_broker_end_op ;;
  set_errno saved_errno ;;
  mret (-1).

(** Returns the status and [*out_should_close]. *)
Definition llam_broker_serve_one_fd_subject (fd subject_id : Z) (out_should_close : option bool) :
    M (Z * option bool) :=
  let out_should_close := (λ _, false) <$> out_should_close in
  if fd <? 0 then rc ← fail EINVAL; mret (rc, out_should_close)
  else
    '(rc, request, descriptor) ← llam_broker_read_request_fd fd (Some zero_request) (Some (-1));
    if negb (rc =? 0) then mret (-1, out_should_close)
    else
      let descriptor_fd := default (-1) descriptor in
      rc ← llam_broker_begin_op_subject subject_id;
      if negb (rc =? 0) then
        (if 0 <=? descriptor_fd then sys_close descriptor_fd else mret tt) ;;
        mret (-1, out_should_close)
      else
        '(response, out_should_close, response_descriptor) ←
          llam_broker_process_request_with_descriptors request (Some zero_response) out_should_close
            descriptor_fd (Some LLAM_INVALID_HANDLE);
        let request := default zero_request request in
        let response := default zero_response response in
        let response_descriptor := default LLAM_INVALID_HANDLE response_descriptor in
        '(response, response_descriptor) ←
          (if negb (wp_status response =? 0) then
             let response :=
               default response (llam_broker_normalize_response_failure_outputs (Some response)) in
             if negb (llam_handle_is_invalid response_descriptor)
             then sys_close response_descriptor ;; mret (response, LLAM_INVALID_HANDLE)
             else mret (response, response_descriptor)
           else mret (response, response_descriptor));
        if negb (llam_handle_is_invalid response_descriptor) then
          rc ← llam_broker_write_response_with_descriptor fd (Some response) response_descriptor;
          if negb (rc =? 0)
          then rc ← undelivered request response subject_id response_descriptor; mret (rc, out_should_close)
          else sys_close response_descriptor ;; llam_broker_end_op ;; mret (0, out_should_close)
        else
          rc ← llam_broker_write_response_fd fd (Some response);
          if negb (rc =? 0)
          then rc ← undelivered request response subject_id LLAM_INVALID_HANDLE; mret (rc, out_should_close)
          else llam_broker_end_op ;; mret (0, out_should_close).

Definition llam_broker_serve_one_fd (fd : Z) (out_should_close : option bool) : M (Z * option bool) :=
  '(rc, transport_id) ← llam_broker_fd_transport_id fd (Some 0);
  if negb (rc =? 0) then mret (-1, out_should_close)
  else
    let transport_id := default 0 transport_id in
    '(rc, subject_id) ← llam_broker_transport_subject transport_id (Some 0);
    if negb (rc =? 0) then mret (-1, out_should_close)
    else
      '(rc, out_should_close) ← llam_broker_serve_one_fd_subject fd (default 0 subject_id) out_should_close;
      (if negb (rc =? 0) || default false out_should_close
       then llam_broker_forget_transport_subject transport_id else mret tt) ;;
      mret (rc, out_should_close).

(** Whether a session that began at [session_start_ns] is over. *)
Definition session_expired (session_start_ns now_ns : Z) : bool :=
  negb (session_start_ns =? 0) && negb (now_ns =? 0) && (session_start_ns <=? now_ns)
  && (LLAM_BROKER_SESSION_LIFETIME_NS <=? now_ns - session_start_ns).

(** The loop of a connection; [requests] are left of its budget. *)
Fixpoint serve_loop (requests : nat) (fd subject_id session_start_ns : Z) (should_close : bool) : M Z :=
  if should_close then mret 0
  else
    now_ns ← llam_now_ns;
    match requests with
    | O => mret 0
    | S requests =>
        if session_expired session_start_ns now_ns then mret 0
        else
          '(rc, should_close) ← llam_broker_serve_one_fd_subject fd subject_id (Some should_close);
          if negb (rc =? 0) then mret (-1)
          else serve_loop requests fd subject_id session_start_ns (default false should_close)
    end.

Definition llam_broker_serve_fd (fd : Z) : M Z :=
  '(rc, transport_id) ← llam_broker_fd_transport_id fd (Some 0);
  if negb (rc =? 0) then mret (-1)
  else
    let transport_id := default 0 transport_id in
    '(rc, subject_id) ← llam_broker_transport_subject transport_id (Some 0);
    if negb (rc =? 0) then mret (-1)
    else
      session_start_ns ← llam_now_ns;
      rc ← serve_loop LLAM_BROKER_SESSION_REQUEST_MAX fd (default 0 subject_id) session_start_ns false;
      llam_broker_forget_transport_subject transport_id ;;
      mret rc.

Definition llam_broker_serve_one_handle (handle : Z) (out_should_close : option bool) : M (Z * option bool) :=
  llam_broker_serve_one_fd handle out_should_close.

Definition llam_broker_serve_handle (handle : Z) : M Z := llam_broker_serve_fd handle.

Definition llam_broker_request_handle (handle : Z) (request : option wire_request)
    (response : option wire_response) : M (Z * option wire_response) :=
  llam_broker_request_fd handle request response.

Definition llam_broker_request_handle_with_descriptor (self handle : Z) (request : option wire_request)
    (descriptor_handle : Z) (response : option wire_response) : M (Z * option wire_response) :=
  llam_broker_request_fd_with_descriptor self handle request descriptor_handle response.

(** ** Endpoints *)

(** Status calls without further effect: [bind], [connect], [listen], [fchmodat]. *)
Definition sys_call : M Z :=
  v ← pop os_sys set_os_sys 0;
  if negb (v =? 0) then fail v else mret 0.

(** [stat] or [lstat] of a path. *)
Definition sys_lstat (path : list Z) : M (option path_stat) :=
  v ← pop os_lstat set_os_lstat (inr ENOENT);
  match v with
  | inl info => mret (Some info)
  | inr e => set_errno e ;; mret None
  end.

Definition sys_unlink (path : list Z) : M unit := log EvUnlinkPath.

Definition sys_socket : M Z :=
  v ← pop os_socket set_os_socket (inr ENOMEM);
  match v with
  | inl fd => log (EvOpen (Z.of_nat fd)) ;; mret (Z.of_nat fd)
  | inr e => set_errno e ;; mret (-1)
  end.

Definition sys_accept : M Z :=
  v ← pop os_accept set_os_accept (inr EBADF);
  match v with
  | inl fd => log (EvOpen (Z.of_nat fd)) ;; mret (Z.of_nat fd)
  | inr e => set_errno e ;; mret (-1)
  end.

Definition file_type (mode : Z) : Z := Z.land mode 0xf000.
Definition S_ISSOCK (mode : Z) : bool := file_type mode =? 0xc000.
Definition S_ISLNK (mode : Z) : bool := file_type mode =? 0xa000.
Definition S_ISDIR (mode : Z) : bool := file_type mode =? 0x4000.
Definition S_IWGRP : Z := 0x10.
Definition S_IWOTH : Z := 0x2.

(** [sizeof(addr.sun_path)] *)
Definition sun_path_bytes : Z := 108.

(** [close(fd)] with [errno] saved around it, then failure. *)
Definition close_and_fail (fd : Z) : M Z :=
  saved_errno ← get_errno; sys_close fd ;; set_errno saved_errno ;; mret (-1).

Definition llam_broker_socket_cloexec : M Z :=
  fd ← sys_socket;
  if 0 <=? fd then mret fd
  else
    e ← get_errno;
    if negb (e =? EINVAL) && negb (e =? EPROTONOSUPPORT) then mret (-1)
    else
      fd ← sys_socket;
      if fd <? 0 then mret (-1)
      else
        rc ← llam_broker_set_cloexec_fd fd;
        if negb (rc =? 0) then close_and_fail fd else mret fd.

(** A path is the bytes of a C string without its terminator. *)
Definition llam_broker_open_unix_endpoint (path : option (list Z)) (out_fd : option Z) : M (Z * option Z) :=
  let out_fd := (λ _, -1) <$> out_fd in
  match path with
  | None => rc ← fail EINVAL; mret (rc, out_fd)
  | Some path =>
      if is_null out_fd then rc ← fail EINVAL; mret (rc, out_fd)
      else
        let path_len := Z.of_nat (length path) in
        if (path_len =? 0) || (sun_path_bytes <=? path_len) then rc ← fail ENAMETOOLONG; mret (rc, out_fd)
        else
          fd ← llam_broker_socket_cloexec;
          if fd <? 0 then mret (-1, out_fd) else mret (0, Some fd)
  end.

(** The part of a path before its last slash: [None] without a slash. *)
Fixpoint before_slash (path : list Z) : option (list Z) :=
  match path with
  | [] => None
  | c :: path =>
      match before_slash path with
      | Some p => Some (c :: p)
      | None => if c =? 47 then Some [] else None
      end
  end.

(** The directory of [path], or [None] where its name does not fit. *)
Definition parent_dir (path : list Z) : option (list Z) :=
  match before_slash path with
  | None => Some [46]
  | Some [] => Some [47]
  | Some parent => if sun_path_bytes <=? Z.of_nat (length parent) then None else Some parent
  end.

Definition llam_broker_parent_dir_private (path : option (list Z)) : M Z :=
  match path with
  | None | Some [] => fail EINVAL
  | Some path =>
      match parent_dir path with
      | None => fail ENAMETOOLONG
      | Some parent =>
          info ← sys_lstat parent;
          match info with
          | None => mret (-1)
          | Some info =>
              if negb (S_ISDIR (ps_mode info)) then fail ENOTDIR
              else if negb (Z.land (ps_mode info) (Z.lor S_IWGRP S_IWOTH) =? 0) then fail EACCES
              else mret 0
          end
      end
  end.

Record socket_identity := SocketIdentity { si_dev : Z; si_ino : Z }.

Definition broker_socket_identity_matches (info : path_stat) (identity : option socket_identity) : bool :=
  match identity with
  | None => false
  | Some id => (u64 (ps_dev info) =? si_dev id) && (u64 (ps_ino info) =? si_ino id)
  end.

Definition llam_broker_capture_owned_socket (path : option (list Z)) (out_identity : option socket_identity) :
    M (Z * option socket_identity) :=
  let out_identity := (λ _, SocketIdentity 0 0) <$> out_identity in
  match path with
  | None => rc ← fail EINVAL; mret (rc, out_identity)
  | Some path =>
      if is_null out_identity then rc ← fail EINVAL; mret (rc, out_identity)
      else
        info ← sys_lstat path;
        match info with
        | None => mret (-1, out_identity)
        | Some info =>
            if S_ISLNK (ps_mode info) then rc ← fail ELOOP; mret (rc, out_identity)
            else if negb (S_ISSOCK (ps_mode info)) then rc ← fail EINVAL; mret (rc, out_identity)
            else mret (0, Some (SocketIdentity (u64 (ps_dev info)) (u64 (ps_ino info))))
        end
  end.

Definition llam_broker_restrict_owned_socket (path : option (list Z)) (identity : option socket_identity) : M Z :=
  match path with
  | None => fail EINVAL
  | Some path =>
      info ← sys_lstat path;
      match info with
      | None => mret (-1)
      | Some path_info =>
          if S_ISLNK (ps_mode path_info) then fail ELOOP
          else if negb (S_ISSOCK (ps_mode path_info)) || negb (broker_socket_identity_matches path_info identity)
          then fail EINVAL
          else
            rc ← sys_call;
            if negb (rc =? 0) then mret (-1)
            else
              info ← sys_lstat path;
              match info with
              | None => mret (-1)
              | Some verify_info =>
                  if negb (S_ISSOCK (ps_mode verify_info))
                     || negb (broker_socket_identity_matches verify_info identity)
                     || negb (ps_dev path_info =? ps_dev verify_info)
                     || negb (ps_ino path_info =? ps_ino verify_info)
                  then fail EINVAL else mret 0
              end
      end
  end.

Definition llam_broker_unlink_owned_socket (path : option (list Z)) (identity : option socket_identity) : M unit :=
  match path with
  | None => mret tt
  | Some path =>
      if is_null identity then mret tt
      else
        info ← sys_lstat path;
        match info with
        | None => mret tt
        | Some info =>
            if S_ISSOCK (ps_mode info) && broker_socket_identity_matches info identity
            then sys_unlink path else mret tt
        end
  end.

(** The chain of calls that makes an endpoint: a status, and the identity once
    it is known. *)
Definition bind_endpoint (path : option (list Z)) : M (Z * option socket_identity) :=
  rc ← sys_call;
  if negb (rc =? 0) then mret (-1, None)
  else
    '(rc, identity) ← llam_broker_capture_owned_socket path (Some (SocketIdentity 0 0));
    if negb (rc =? 0) then mret (-1, None)
    else
      rc ← llam_broker_restrict_owned_socket path identity;
      if negb (rc =? 0) then mret (-1, identity)
      else
        rc ← sys_call;
        mret (if negb (rc =? 0) then -1 else 0, identity).

Definition llam_broker_listen_unix (path : option (list Z)) (out_fd : option Z) : M (Z * option Z) :=
  let out_fd := (λ _, -1) <$> out_fd in
  rc ← llam_broker_parent_dir_private path;
  if negb (rc =? 0) then mret (-1, out_fd)
  else
    '(rc, fd) ← llam_broker_open_unix_endpoint path (Some (-1));
    if negb (rc =? 0) then mret (-1, out_fd)
    else
      let fd := default (-1) fd in
      existing ← sys_lstat (default [] path);
      e ← get_errno;
      match existing with
      | Some _ => sys_close fd ;; rc ← fail EEXIST; mret (rc, out_fd)
      | None =>
          if negb (e =? ENOENT) then rc ← close_and_fail fd; mret (rc, out_fd)
          else
            '(rc, identity) ← bind_endpoint path;
            if negb (rc =? 0) then
              saved_errno ← get_errno;
              (if negb (is_null identity) then llam_broker_unlink_owned_socket path identity else mret tt) ;;
              sys_close fd ;;
              set_errno saved_errno ;;
              mret (-1, out_fd)
            else mret (0, (λ _, fd) <$> out_fd)
      end.

Definition llam_broker_connect_unix (path : option (list Z)) (out_fd : option Z) : M (Z * option Z) :=
  let out_fd := (λ _, -1) <$> out_fd in
  '(rc, fd) ← llam_broker_open_unix_endpoint path (Some (-1));
  if negb (rc =? 0) then mret (-1, out_fd)
  else
    let fd := default (-1) fd in
    rc ← sys_call;
    if negb (rc =? 0) then rc ← close_and_fail fd; mret (rc, out_fd)
    else mret (0, (λ _, fd) <$> out_fd).

(** [do { fd = accept(...); } while (fd < 0 && errno == EINTR);], each round of
    which reads the [accept] tape. *)
Fixpoint accept_loop (fuel : nat) : M Z :=
  match fuel with
  | O => fail EBADF
  | S fuel =>
      fd ← sys_accept;
      e ← get_errno;
      if (fd <? 0) && (e =? EINTR) then accept_loop fuel else mret fd
  end.

Definition accept_retry : M Z :=
  accepts ← gets (λ w, length (os_accept (w_os w)));
  accept_loop (S accepts).

Definition llam_broker_accept_one (listen_fd : Z) (out_fd : option Z) : M (Z * option Z) :=
  let out_fd := (λ _, -1) <$> out_fd in
  if (listen_fd <? 0) || is_null out_fd then rc ← fail EINVAL; mret (rc, out_fd)
  else
    fd ← accept_retry;
    if 0 <=? fd then mret (0, Some fd)
    else
      e ← get_errno;
      if negb (e =? ENOSYS) && negb (e =? EINVAL) then mret (-1, out_fd)
      else
        fd ← accept_retry;
        if fd <? 0 then mret (-1, out_fd)
        else
          rc ← llam_broker_set_cloexec_fd fd;
          if negb (rc =? 0) then rc ← close_and_fail fd; mret (rc, out_fd)
          else mret (0, Some fd).

Definition llam_broker_listen_pipe (out_handle : option Z) : M (Z * option Z) :=
  rc ← fail ENOTSUP; mret (rc, (λ _, LLAM_INVALID_HANDLE) <$> out_handle).

Definition llam_broker_listen_pipe_instance (first_instance : bool) (out_handle : option Z) : M (Z * option Z) :=
  llam_broker_listen_pipe out_handle.

Definition llam_broker_connect_pipe (out_handle : option Z) : M (Z * option Z) :=
  rc ← fail ENOTSUP; mret (rc, (λ _, LLAM_INVALID_HANDLE) <$> out_handle).

(** ** The listening broker *)

(** Progress of the accept loop. *)
Record local_run := LocalRun {
  lr_rc : Z;
  lr_last_session_errno : Z;
  lr_served : Z;
  lr_successful : Z;
}.

(** Each connection takes at least one result of [accept]. *)
Fixpoint serve_local_loop (fuel : nat) (listen_fd max_connections : Z) (r : local_run) : M local_run :=
  match fuel with
  | O => mret r
  | S fuel =>
      if max_connections <=? lr_served r then mret r
      else
        '(rc, client) ← llam_broker_accept_one listen_fd (Some (-1));
        if negb (rc =? 0) then mret r
        else
          let client_fd := default (-1) client in
          rc ← llam_broker_serve_fd client_fd;
          e ← get_errno;
          sys_close client_fd ;;
          serve_local_loop fuel listen_fd max_connections
            (LocalRun rc
              (if rc =? 0 then lr_last_session_errno r else if negb (e =? 0) then e else EIO)
              (lr_served r + 1)
              (if rc =? 0 then lr_successful r + 1 else lr_successful r))
  end.

Definition llam_broker_serve_local_n (path : option (list Z)) (max_connections : Z) : M Z :=
  null ← gets (λ w, is_null (w_broker w));
  if null || (max_connections =? 0) then fail EINVAL
  else
    '(rc, listen) ← llam_broker_listen_unix path (Some (-1));
    if negb (rc =? 0) then mret (-1)
    else
      let listen_fd := default (-1) listen in
      '(rc, identity) ← llam_broker_capture_owned_socket path (Some (SocketIdentity 0 0));
      if negb (rc =? 0) then close_and_fail listen_fd
      else
        accepts ← gets (λ w, length (os_accept (w_os w)));
        r ← serve_local_loop (S accepts) listen_fd max_connections (LocalRun (-1) 0 0 0);
        rc ←
          (if lr_served r =? max_connections then
             if 0 <? lr_successful r then mret 0
             else
               set_errno (if negb (lr_last_session_errno r =? 0) then lr_last_session_errno r else EPIPE) ;;
               mret (-1)
           else mret (lr_rc r));
        llam_broker_unlink_owned_socket path identity ;;
        sys_close listen_fd ;;
        mret rc.

Definition llam_broker_serve_unix_once (path : option (list Z)) : M Z := llam_broker_serve_local_n path 1.

Definition llam_broker_serve_local_once (path : option (list Z)) : M Z := llam_broker_serve_unix_once path.

Definition llam_broker_serve_local (path : option (list Z)) : M Z := llam_broker_serve_local_n path UINT64_MAX.

(** ** What a response names

    The session id and the descriptor of a response are proper values. *)

Definition no_session (r : wire_response) : Prop := wp_result2 r = 0.

Lemma no_session_errno r : gives no_session (response_errno r).
Proof. by intros w. Qed.

Lemma no_session_read_data r len read :
  no_session r → gives (λ x, no_session x.2) (read_data r len read).
Proof. intros H. apply gives_bind. intros x. by apply gives_ret. Qed.

Lemma no_session_wire_op request r : no_session r → gives no_session (wire_op request r).
Proof.
  intros Hr. unfold wire_op, with_length, wire_serve_ring, wire_spawn, respond_token, respond, respond_count.
  repeat first
    [ solve [by apply gives_ret]
    | solve [apply no_session_errno]
    | apply gives_if; intros _
    | eapply gives_bind_out; [by apply no_session_read_data|intros x Hx; cbn beta in Hx]
    | apply gives_bind; intros ? ].
Qed.

Lemma no_session_register request r fd : no_session r → gives no_session (wire_register request r fd).
Proof.
  intros Hr. unfold wire_register.
  repeat first [ solve [by apply gives_ret] | apply gives_if; intros _ | apply gives_bind; intros ? ].
Qed.

Lemma no_descriptor out d : (λ _ : Z, LLAM_INVALID_HANDLE) <$> out = Some d → -1 <= d.
Proof. destruct out; [|done]. by intros [= <-]. Qed.

Lemma create_ring_session r out w :
  open_books w → no_session r →
  wp (wire_create_ring r ((λ _ : Z, LLAM_INVALID_HANDLE) <$> out)) (λ x _, 0 <= wp_result2 x.1 ∧ ∀ d, x.2 = Some d → -1 <= d) w.
Proof.
  intros Hw Hr. unfold wire_create_ring. destruct out as [o|]; cbn [fmap option_fmap option_map is_null]; [|apply wp_ret; split; [done|by intros d]].
  apply wp_bind. eapply wp_mono; [by apply create_ring_handed|].
  intros x w1 [(d&sid&->&Hd&Hs&_)|(sid&->&_)]; cbn [fst snd Z.eqb].
  - apply wp_ret. cbn. split; [lia|intros ? [= <-]; lia].
  - apply wp_bind. unfold wp at 1, response_errno. mon. apply wp_ret. split; [done|by intros d' [= <-]].
Qed.

Lemma dispatch_session request r fd out w :
  open_books w → no_session r →
  wp (wire_dispatch request r fd ((λ _ : Z, LLAM_INVALID_HANDLE) <$> out)) (λ x _, 0 <= wp_result2 x.1 ∧ ∀ d, x.2 = Some d → -1 <= d) w.
Proof.
  intros Hw Hr. unfold wire_dispatch. apply wp_if; intros _; [by apply create_ring_session|].
  apply wp_if; intros _; apply wp_bind.
  - pose proof (no_session_register request r fd Hr w) as H. unfold wp at 1. destruct (wire_register request r fd w).
    apply wp_ret. cbn in *. unfold no_session in H. split; [lia|apply no_descriptor].
  - pose proof (no_session_wire_op request r Hr w) as H. unfold wp at 1. destruct (wire_op request r w).
    apply wp_ret. cbn in *. unfold no_session in H. split; [lia|apply no_descriptor].
Qed.

Lemma process_session request response close fd out w :
  open_books w →
  wp (llam_broker_process_request_with_descriptors (Some request) (Some response) close fd out)
    (λ x _, (∃ r, x.1.1 = Some r ∧ 0 <= wp_result2 r) ∧ ∀ d, x.2 = Some d → -1 <= d) w.
Proof.
  intros Hw. set (o := (λ _ : Z, LLAM_INVALID_HANDLE) <$> out).
  assert (∀ c e w1, wp (llam_broker_close_unclaimed_descriptor fd ;;
     mret (Some (llam_broker_response_error llam_broker_response_init_empty e), c : option bool, o))
    (λ x _, (∃ r, x.1.1 = Some r ∧ 0 <= wp_result2 r) ∧ ∀ d, x.2 = Some d → -1 <= d) w1) as Hrefuse.
  { intros c e w1. unfold wp. mon. destruct (llam_broker_close_unclaimed_descriptor fd w1) as [[] w2]. mon.
    split; [by eexists|apply no_descriptor]. }
  unfold llam_broker_process_request_with_descriptors. fold o.
  do 2 (apply wp_if; intros _; [apply Hrefuse|]).
  eapply (wp_pres tidy); [tidy_walk|reflexivity|]. intros rc w1 H1. apply wp_if; intros _.
  { eapply (wp_pres tidy); [tidy_walk|exact H1|]. intros e w2 H2. apply Hrefuse. }
  eapply (wp_pres tidy); [tidy_walk|exact H1|]. intros b w2 H2. apply wp_bind.
  eapply wp_mono; [apply dispatch_session; [by eapply spends_open|done]|].
  intros x w3 H3. unfold wp. mon. destruct (llam_broker_end_op w3) as [[] w4]. mon.
  split; [eexists; by split; [|apply H3]|apply H3].
Qed.

(** ** Writing keeps the books *)

Lemma thrifty_send fd data : pres thrifty (llam_broker_send_transport fd data).
Proof.
  apply pres_bind; [apply _|by apply pres_thrifty_pop|]. intros [n|e]; [|pres_walk].
  apply pres_bind; [apply _|apply pres_if; [by apply thrifty_log|pres_walk]|intros _; pres_walk].
Qed.

Lemma thrifty_sendmsg fd data d : pres thrifty (llam_broker_sendmsg_transport fd data d).
Proof.
  apply pres_bind; [apply _|by apply pres_thrifty_pop|]. intros [n|e]; [|pres_walk].
  apply pres_bind; [apply _|apply pres_if; [by apply thrifty_log|pres_walk]|intros _; pres_walk].
Qed.

#[export] Hint Resolve thrifty_send thrifty_sendmsg : llam_quiet.

Lemma thrifty_write_loop fuel fd d : ∀ data, pres thrifty (write_loop fuel fd d data).
Proof. induction fuel as [|fuel IH]; intros data; cbn [write_loop]; pres_walk. Qed.

Lemma thrifty_write_remainder fd data d : pres thrifty (llam_broker_write_remainder fd data d).
Proof. unfold llam_broker_write_remainder. apply pres_bind; [apply _|pres_walk|]. intros n. apply thrifty_write_loop. Qed.

#[export] Hint Resolve thrifty_write_remainder : llam_quiet.

Lemma thrifty_write_response fd r : pres thrifty (llam_broker_write_response_fd fd r).
Proof. unfold llam_broker_write_response_fd, llam_broker_write_exact. pres_walk. Qed.

Lemma thrifty_write_with_descriptor fd m len d : pres thrifty (llam_broker_write_message_with_descriptor fd m len d).
Proof.
  assert (∀ fuel dl data, pres thrifty (write_descriptor_loop fuel fd dl data d)) as H.
  { induction fuel as [|fuel IH]; intros dl data; cbn [write_descriptor_loop]; pres_walk. }
  unfold llam_broker_write_message_with_descriptor. pres_walk.
Qed.

Lemma tidy_net w w' : thrifty w w' → tidy w w'.
Proof. intros H. by apply spends_net. Qed.

Lemma tidy_quiet {A} (m : M A) : pres thrifty m → pres tidy m.
Proof. intros H w. by apply tidy_net. Qed.

(** ** One request *)

Lemma decoded_request_wf l : request_wf (request_of_bytes l).
Proof. split_and!; apply field_u64. Qed.

(** Reading a request: all or nothing. *)
Lemma read_request_books fd w :
  wp (llam_broker_read_request_fd fd (Some zero_request) (Some (-1))) (λ x w',
    (∃ rq d, x = (0, Some rq, Some d) ∧ request_wf rq ∧ -1 <= d ∧ spends (one_fd d) none w w')
    ∨ (x.1.1 = -1 ∧ tidy w w')) w.
Proof.
  unfold llam_broker_read_request_fd. apply wp_bind. cbn [fmap option_fmap option_map].
  change sizeof_request with (Z.of_nat (length (image_of_request zero_request))).
  eapply wp_mono; [by apply read_message_books|].
  intros r w1 [(m&d&->&_&Hd&N)|[-> N]]; apply wp_ret.
  - left. eexists _, d. split_and!; [done|apply decoded_request_wf|done|by apply spends_net].
  - right. split; [done|by apply tidy_net].
Qed.

Lemma close_response_spends d w : -1 <= d →
  spends (λ k, - one_fd d k) none w ((if negb (llam_handle_is_invalid d) then sys_close d else mret tt) w).2.
Proof.
  intros Hd. unfold llam_handle_is_invalid, one_fd. destruct (Z.eqb_spec d LLAM_INVALID_HANDLE) as [->|Hne]; cbn [negb].
  - by apply spends_net, net_same.
  - unfold LLAM_INVALID_HANDLE in *. rewrite (proj2 (Z.leb_le 0 d)) by lia. apply spends_close.
Qed.

(** A step that spends [F'] after [F] was spent. *)
Lemma wp_spends {A B} (m : M A) (k : A → M B) F F' F'' Q w0 w :
  spends F' none w (m w).2 → spends F none w0 w → (∀ x, F'' x = F x + F' x) →
  (∀ a w', spends F'' none w0 w' → wp (k a) Q w') → wp (m ≫= k) Q w.
Proof.
  intros Hm H HF Hk. apply wp_bind. apply Hk. eapply spends_trans; [exact H|exact Hm|exact HF|intros x; cbn; lia].
Qed.

(** A response that was not delivered: the descriptor that went with it goes. *)
Lemma undelivered_books rq rp s d w0 w :
  0 <= wp_result2 rp → -1 <= d → spends (one_fd d) none w0 w →
  wp (undelivered rq rp s d) (λ rc w', rc = -1 ∧ tidy w0 w') w.
Proof.
  intros H2 Hd H. unfold undelivered. apply wp_bind. unfold wp at 1. cbn [get_errno gets fst snd].
  eapply (wp_spends _ _ _ none); [apply (tidy_rollback (Some rq) (Some rp) s ltac:(by intros r [= <-]))|exact H|done|].
  intros _ w1 H1. eapply wp_spends; [by apply close_response_spends|exact H1|done|]. intros _ w2 T2.
  eapply spends_eq in T2; [|instantiate (1 := none); intros k; cbn beta; lia|done]. apply tidy_spends in T2.
  eapply (wp_pres tidy); [tidy_walk|exact T2|]. intros _ w3 T3.
  eapply (wp_pres tidy); [tidy_walk|exact T3|]. intros _ w4 T4. by apply wp_ret.
Qed.

Lemma normalized_session r : 0 <= wp_result2 r →
  0 <= wp_result2 (default r (llam_broker_normalize_response_failure_outputs (Some r))).
Proof. intros H. unfold llam_broker_normalize_response_failure_outputs. by destruct (_ =? 0). Qed.

(** What the broker holds while it answers: the descriptor of the response. *)
Lemma answer_books fd rq rp d s c w0 w :
  0 <= wp_result2 rp → -1 <= d → spends (one_fd d) none w0 w →
  wp ('(rp, d) ←
        (if negb (wp_status rp =? 0) then
           let rp := default rp (llam_broker_normalize_response_failure_outputs (Some rp)) in
           if negb (llam_handle_is_invalid d) then sys_close d ;; mret (rp, LLAM_INVALID_HANDLE)
           else mret (rp, d)
         else mret (rp, d));
      if negb (llam_handle_is_invalid d) then
        rc ← llam_broker_write_response_with_descriptor fd (Some rp) d;
        if negb (rc =? 0) then rc ← undelivered rq rp s d; mret (rc, c)
        else sys_close d ;; llam_broker_end_op ;; mret (0, c : option bool)
      else
        rc ← llam_broker_write_response_fd fd (Some rp);
        if negb (rc =? 0) then rc ← undelivered rq rp s LLAM_INVALID_HANDLE; mret (rc, c)
        else llam_broker_end_op ;; mret (0, c)) (λ _ w', tidy w0 w') w.
Proof.
  intros H2 Hd H. apply wp_bind.
  assert (wp (if negb (wp_status rp =? 0) then
           let rp := default rp (llam_broker_normalize_response_failure_outputs (Some rp)) in
           if negb (llam_handle_is_invalid d) then sys_close d ;; mret (rp, LLAM_INVALID_HANDLE)
           else mret (rp, d)
         else mret (rp, d)) (λ x w', 0 <= wp_result2 x.1 ∧ -1 <= x.2 ∧ spends (one_fd x.2) none w0 w') w) as Hn.
  { apply wp_if; intros _; [|by apply wp_ret]. cbn zeta. pose proof (normalized_session rp H2).
    pose proof (close_response_spends d w Hd) as C. destruct (negb (llam_handle_is_invalid d)); [|by apply wp_ret].
    eapply wp_spends; [exact C|exact H|done|]. intros _ w1 H1. apply wp_ret. split_and!; [done|done|].
    eapply spends_eq; [exact H1| |done]. intros k. unfold one_fd at 1. cbn. lia. }
  eapply wp_mono; [exact Hn|]. clear dependent w rp d. intros [rp d] w (H2&Hd&H). cbn [fst snd] in *.
  apply wp_if; intros Hi.
  - eapply wp_spends; [by apply tidy_spends, tidy_net, thrifty_write_with_descriptor|exact H|done|].
    intros rc w1 H1. eapply spends_eq in H1; [|instantiate (1 := one_fd d); intros k; lia|done].
    apply wp_if; intros _.
    + apply wp_bind. eapply wp_mono; [by apply undelivered_books|]. intros x w2 [_ T]. by apply wp_ret.
    + pose proof (close_response_spends d w1 Hd) as C. rewrite Hi in C.
      eapply wp_spends; [exact C|exact H1|done|]. intros _ w2 T2.
      eapply spends_eq in T2; [|instantiate (1 := none); intros k; cbn beta; lia|done]. apply tidy_spends in T2.
      eapply (wp_pres tidy); [tidy_walk|exact T2|]. intros _ w3 T3. by apply wp_ret.
  - unfold llam_handle_is_invalid in Hi. apply negb_false_iff in Hi. bools. subst d.
    assert (tidy w0 w) as T by (eapply spends_eq in H; [exact H|done|done]).
    eapply (wp_pres tidy); [apply tidy_quiet, thrifty_write_response|exact T|]. intros rc w1 T1. apply wp_if; intros _.
    + apply wp_bind. eapply wp_mono; [apply (undelivered_books rq rp s LLAM_INVALID_HANDLE w0); [done|done|exact T1]|].
      intros x w2 [_ T2]. by apply wp_ret.
    + eapply (wp_pres tidy); [tidy_walk|exact T1|]. intros _ w2 T2. by apply wp_ret.
Qed.

Lemma tidy_begin s : pres tidy (llam_broker_begin_op_subject s).
Proof. tidy_walk. Qed.

(** Serving one request keeps the books, whatever the client sent and wherever
    the connection failed. *)
Lemma serve_one_books fd s c w :
  open_books w → wp (llam_broker_serve_one_fd_subject fd s c) (λ _ w', tidy w w') w.
Proof.
  intros Hw. unfold llam_broker_serve_one_fd_subject. apply wp_if; intros _.
  { eapply (wp_pres tidy); [tidy_walk|reflexivity|]. intros rc w1 H1. by apply wp_ret. }
  apply wp_bind. eapply wp_mono; [apply read_request_books|].
  intros [[rc rq] d] w1 [(rq'&d'&[= -> -> ->]&Hrq&Hd&H1)|[Hrc H1]]; cbn [fst snd] in *.
  2: { subst rc. by apply wp_ret. }
  cbn [Z.eqb negb default from_option id].
  eapply (wp_spends _ _ _ none); [apply (tidy_begin s)|exact H1|done|]. intros rc w2 H2.
  eapply spends_eq in H2; [|instantiate (1 := one_fd d'); intros k; cbn beta; lia|done].
  apply wp_if; intros _.
  - eapply wp_spends; [apply (close_handle_spends d')|exact H2|done|]. intros _ w3 H3.
    apply wp_ret. eapply spends_eq; [exact H3|intros k; cbn beta; lia|done].
  - apply wp_bind. pose proof (spends_open _ _ _ _ H2 Hw) as Hw2.
    pose proof (process_books (Some rq') (Some zero_response) ((λ _ : bool, false) <$> c) d' (Some LLAM_INVALID_HANDLE) w2 Hw2
      ltac:(by intros r [= <-])) as P.
    pose proof (process_session rq' zero_response ((λ _ : bool, false) <$> c) d' (Some LLAM_INVALID_HANDLE) w2 Hw2) as [(rp&Hrp&R2) HD].
    unfold wp at 1. unfold wp in P.
    destruct (llam_broker_process_request_with_descriptors _ _ _ _ _ w2) as [[[rp' c'] dd] w3]. cbn [fst snd] in *. subst rp'.
    cbn [default from_option id]. apply answer_books; [done|destruct dd as [dd|]; [by apply HD|done]|].
    eapply spends_trans; [exact H2|exact P|..]; intros k; unfold exchanged_fds; [|done]. destruct dd; cbn; lia.
Qed.

(** ** A connection *)

Lemma wp_tidy_open {A B} (m : M A) (k : A → M B) Q w0 w :
  open_books w0 → tidy w0 w → wp m (λ _ w', tidy w w') w →
  (∀ a w', tidy w0 w' → open_books w' → wp (k a) Q w') → wp (m ≫= k) Q w.
Proof.
  intros Hw H Hm Hk. apply wp_bind. eapply wp_mono; [exact Hm|]. intros a w' T. apply Hk; [by etrans|].
  eapply spends_open; [|exact Hw]. by etrans.
Qed.

Lemma tidy_transport_id fd o : pres tidy (llam_broker_fd_transport_id fd o).
Proof.
  apply tidy_quiet. unfold llam_broker_fd_transport_id. apply pres_if; [pres_walk|].
  apply pres_bind; [apply _|apply pres_thrifty_fstat|]. intros [info|]; pres_walk.
Qed.

#[export] Hint Resolve tidy_transport_id : llam_tidy.

Lemma serve_loop_books n fd s t0 : ∀ c w0 w,
  open_books w0 → tidy w0 w → wp (serve_loop n fd s t0 c) (λ _ w', tidy w0 w') w.
Proof.
  induction n as [|n IH]; intros [|] w0 w Hw H; cbn [serve_loop]; try by apply wp_ret.
  - eapply (wp_pres tidy); [tidy_walk|exact H|]. intros t w1 H1. by apply wp_ret.
  - eapply (wp_pres tidy); [tidy_walk|exact H|]. intros t w1 H1. apply wp_if; intros _; [by apply wp_ret|].
    eapply wp_tidy_open; [exact Hw|exact H1|apply serve_one_books; by eapply spends_open|].
    intros [rc c] w2 H2 _. apply wp_if; intros _; [by apply wp_ret|]. by apply IH.
Qed.

Lemma serve_fd_books fd w : open_books w → wp (llam_broker_serve_fd fd) (λ _ w', tidy w w') w.
Proof.
  intros Hw. unfold llam_broker_serve_fd.
  eapply (wp_pres tidy); [apply tidy_transport_id|reflexivity|]. intros [rc t] w1 H1. apply wp_if; intros _; [by apply wp_ret|].
  eapply (wp_pres tidy); [apply tidy_transport_subject|exact H1|]. intros [rc' s] w2 H2. apply wp_if; intros _; [by apply wp_ret|].
  eapply (wp_pres tidy); [tidy_walk|exact H2|]. intros t0 w3 H3. apply wp_bind.
  eapply wp_mono; [by apply serve_loop_books|]. intros rc2 w4 H4.
  eapply (wp_pres tidy); [apply tidy_forget_transport|exact H4|]. intros _ w5 H5. by apply wp_ret.
Qed.

Lemma serve_one_fd_books fd c w : open_books w → wp (llam_broker_serve_one_fd fd c) (λ _ w', tidy w w') w.
Proof.
  intros Hw. unfold llam_broker_serve_one_fd.
  eapply (wp_pres tidy); [apply tidy_transport_id|reflexivity|]. intros [rc t] w1 H1. apply wp_if; intros _; [by apply wp_ret|].
  eapply (wp_pres tidy); [apply tidy_transport_subject|exact H1|]. intros [rc' s] w2 H2. apply wp_if; intros _; [by apply wp_ret|].
  eapply wp_tidy_open; [exact Hw|exact H2|apply serve_one_books; by eapply spends_open|]. intros [rc2 c2] w3 H3 _.
  eapply (wp_pres tidy); [tidy_walk|exact H3|]. intros _ w4 H4. by apply wp_ret.
Qed.

(** ** Endpoints *)

(** A call that hands over a descriptor or fails and keeps none. *)
Definition handed (w : world) (fd : Z) (w' : world) : Prop :=
  0 <= fd ∧ net (one fd) none w w' ∨ fd = -1 ∧ thrifty w w'.

Lemma socket_handed w : wp sys_socket (handed w) w.
Proof.
  unfold sys_socket. eapply wp_thrifty; [by apply pres_thrifty_pop|apply net_refl|]. intros [fd|e] w1 N.
  - unfold wp. mon. left. split; [lia|]. eapply thrifty_net; [exact N|]. split_and!; [done|done|]. intros k. unfold one. cbn. lia.
  - unfold wp. mon. right. split; [done|]. eapply net_thrifty; [exact N|]. by apply net_same.
Qed.

Lemma accept_handed w : wp sys_accept (handed w) w.
Proof.
  unfold sys_accept. eapply wp_thrifty; [by apply pres_thrifty_pop|apply net_refl|]. intros [fd|e] w1 N.
  - unfold wp. mon. left. split; [lia|]. eapply thrifty_net; [exact N|]. split_and!; [done|done|]. intros k. unfold one. cbn. lia.
  - unfold wp. mon. right. split; [done|]. eapply net_thrifty; [exact N|]. by apply net_same.
Qed.

Lemma close_and_fail_net fd w0 w :
  net (one fd) none w0 w → wp (close_and_fail fd) (λ rc w', rc = -1 ∧ thrifty w0 w') w.
Proof.
  intros N. unfold close_and_fail. unfold wp. mon. pose proof (close_net fd w) as C.
  destruct (sys_close fd w) as [[] w1]. mon. split; [done|].
  eapply net_thrifty; [eapply net_trans; [exact N|exact C|..]; intros k; cbn beta; lia|]. by apply net_same.
Qed.

(** A new descriptor is made close-on-exec, or closed. *)
Lemma cloexec_handed fd w0 w :
  0 <= fd → net (one fd) none w0 w →
  wp (rc ← llam_broker_set_cloexec_fd fd; if negb (rc =? 0) then close_and_fail fd else mret fd) (handed w0) w.
Proof.
  intros Hfd N. eapply wp_thrifty; [apply thrifty_set_cloexec|exact N|]. intros rc w1 N1. apply wp_if; intros _.
  - eapply wp_mono; [by apply close_and_fail_net|]. intros rc' w2 [-> T]. by right.
  - apply wp_ret. by left.
Qed.

Lemma socket_cloexec_handed w : wp llam_broker_socket_cloexec (handed w) w.
Proof.
  unfold llam_broker_socket_cloexec. apply wp_bind. eapply wp_mono; [apply socket_handed|].
  intros fd w1 [[Hfd N]|[-> N]]; [rewrite (proj2 (Z.leb_le 0 fd) Hfd); by apply wp_ret; left|].
  change (0 <=? -1) with false. eapply wp_thrifty; [apply thrifty_get_errno|exact N|]. intros e w2 N2.
  apply wp_if; intros _; [by apply wp_ret; right|].
  apply wp_bind. eapply wp_mono; [apply socket_handed|]. intros fd w3 [[Hfd N3]|[-> N3]].
  - rewrite (proj2 (Z.ltb_ge fd 0)) by lia. apply cloexec_handed; [done|]. by eapply thrifty_net.
  - apply wp_ret. right. split; [done|]. by etrans.
Qed.

Lemma accept_loop_handed fuel w0 : ∀ w, thrifty w0 w → wp (accept_loop fuel) (handed w0) w.
Proof.
  induction fuel as [|fuel IH]; intros w T; cbn [accept_loop].
  { unfold wp. mon. right. split; [done|]. eapply net_thrifty; [exact T|]. by apply net_same. }
  apply wp_bind. eapply wp_mono; [apply accept_handed|]. intros fd w1 H1.
  apply wp_bind. unfold wp at 1. cbn [get_errno gets fst snd]. destruct H1 as [[Hfd N]|[-> N]].
  - rewrite (proj2 (Z.ltb_ge fd 0)) by lia. cbn [andb]. apply wp_ret. left. split; [done|]. by eapply thrifty_net.
  - assert (thrifty w0 w1) by by etrans. apply wp_if; intros _; [by apply IH|by apply wp_ret; right].
Qed.

Lemma accept_retry_handed w : wp accept_retry (handed w) w.
Proof. unfold accept_retry. unfold wp. mon. by apply accept_loop_handed, net_refl. Qed.

(** The out-parameter of a call that hands over a descriptor. *)
Definition handed_out (w : world) (x : Z * option Z) (w' : world) : Prop :=
  (∃ fd, x = (0, Some fd) ∧ 0 <= fd ∧ net (one fd) none w w') ∨ x = (-1, Some (-1)) ∧ thrifty w w'.

Lemma accept_one_handed listen_fd o w : wp (llam_broker_accept_one listen_fd (Some o)) (handed_out w) w.
Proof.
  unfold llam_broker_accept_one. cbn [fmap option_fmap option_map is_null]. apply wp_if; intros _.
  { unfold wp. mon. right. split; [done|]. by apply net_same. }
  apply wp_bind. eapply wp_mono; [apply accept_retry_handed|]. intros fd w1 [[Hfd N]|[-> N]].
  { rewrite (proj2 (Z.leb_le 0 fd) Hfd). apply wp_ret. left. eauto. }
  change (0 <=? -1) with false. eapply wp_thrifty; [apply thrifty_get_errno|exact N|]. intros e w2 N2.
  apply wp_if; intros _; [by apply wp_ret; right|].
  apply wp_bind. eapply wp_mono; [apply accept_retry_handed|]. intros fd w3 [[Hfd N3]|[-> N3]].
  2: { apply wp_ret. right. split; [done|by etrans]. }
  rewrite (proj2 (Z.ltb_ge fd 0)) by lia.
  assert (net (one fd) none w w3) as N4 by by eapply thrifty_net.
  eapply wp_thrifty; [apply thrifty_set_cloexec|exact N4|]. intros rc w4 N5. apply wp_if; intros _.
  - apply wp_bind. eapply wp_mono; [by apply close_and_fail_net|]. intros rc' w5 [-> T]. by apply wp_ret; right.
  - apply wp_ret. left. eauto.
Qed.

Lemma open_endpoint_handed path o w : wp (llam_broker_open_unix_endpoint path (Some o)) (handed_out w) w.
Proof.
  unfold llam_broker_open_unix_endpoint. cbn [fmap option_fmap option_map is_null].
  assert (∀ e, wp (rc ← fail e; mret (rc, Some (-1))) (handed_out w) w) as Hfail.
  { intros e. unfold wp. mon. right. split; [done|]. by apply net_same. }
  destruct path as [path|]; [|apply Hfail]. apply wp_if; intros _; [apply Hfail|].
  apply wp_bind. eapply wp_mono; [apply socket_cloexec_handed|]. intros fd w1 [[Hfd N]|[-> N]].
  - rewrite (proj2 (Z.ltb_ge fd 0)) by lia. apply wp_ret. left. eauto.
  - apply wp_ret. by right.
Qed.

Lemma thrifty_call : pres thrifty sys_call.
Proof. unfold sys_call. apply pres_bind; [apply _|by apply pres_thrifty_pop|]. intros v. pres_walk. Qed.

Lemma thrifty_lstat path : pres thrifty (sys_lstat path).
Proof. unfold sys_lstat. apply pres_bind; [apply _|by apply pres_thrifty_pop|]. intros [v|e]; pres_walk. Qed.

Lemma thrifty_unlink path : pres thrifty (sys_unlink path).
Proof. by apply thrifty_log. Qed.

#[export] Hint Resolve thrifty_call thrifty_lstat thrifty_unlink : llam_quiet.

Lemma thrifty_parent path : pres thrifty (llam_broker_parent_dir_private path).
Proof. unfold llam_broker_parent_dir_private. pres_walk. Qed.

Lemma thrifty_capture path o : pres thrifty (llam_broker_capture_owned_socket path o).
Proof. unfold llam_broker_capture_owned_socket. pres_walk. Qed.

Lemma thrifty_restrict path o : pres thrifty (llam_broker_restrict_owned_socket path o).
Proof. unfold llam_broker_restrict_owned_socket. pres_walk. Qed.

Lemma thrifty_unlink_owned path o : pres thrifty (llam_broker_unlink_owned_socket path o).
Proof. unfold llam_broker_unlink_owned_socket. pres_walk. Qed.

#[export] Hint Resolve thrifty_parent thrifty_capture thrifty_restrict thrifty_unlink_owned : llam_quiet.

Lemma thrifty_bind_endpoint path : pres thrifty (bind_endpoint path).
Proof. unfold bind_endpoint. pres_walk. Qed.

Lemma listen_handed path o w : wp (llam_broker_listen_unix path (Some o)) (handed_out w) w.
Proof.
  unfold llam_broker_listen_unix. cbn [fmap option_fmap option_map].
  eapply wp_thrifty; [apply thrifty_parent|apply net_refl|]. intros rc w1 N1. apply wp_if; intros _; [by apply wp_ret; right|].
  apply wp_bind. eapply wp_mono; [apply open_endpoint_handed|].
  intros x w2 [(fd&->&Hfd&N2)|[-> N2]]; cbn [Z.eqb negb]; [|apply wp_ret; right; split; [done|by etrans]].
  cbn [default from_option id]. assert (net (one fd) none w w2) as N by by eapply thrifty_net.
  eapply wp_thrifty; [apply thrifty_lstat|exact N|]. intros existing w3 N3.
  eapply wp_thrifty; [apply thrifty_get_errno|exact N3|]. intros e w4 N4. destruct existing as [info|].
  - unfold wp. mon. pose proof (close_net fd w4) as C. destruct (sys_close fd w4) as [[] w5]. mon. right. split; [done|].
    eapply net_thrifty; [eapply net_trans; [exact N4|exact C|..]; intros k; cbn beta; lia|]. by apply net_same.
  - apply wp_if; intros _.
    { apply wp_bind. eapply wp_mono; [by apply close_and_fail_net|]. intros rc' w5 [-> T]. by apply wp_ret; right. }
    eapply wp_thrifty; [apply thrifty_bind_endpoint|exact N4|]. intros [rc' id] w5 N5. apply wp_if; intros _.
    + eapply wp_thrifty; [apply thrifty_get_errno|exact N5|]. intros e' w6 N6.
      eapply wp_thrifty; [apply pres_if; [apply thrifty_unlink_owned|apply pres_ret, _]|exact N6|]. intros _ w7 N7.
      unfold wp. mon. pose proof (close_net fd w7) as C. destruct (sys_close fd w7) as [[] w8]. mon. right. split; [done|].
      eapply net_thrifty; [eapply net_trans; [exact N7|exact C|..]; intros k; cbn beta; lia|]. by apply net_same.
    + apply wp_ret. left. eauto.
Qed.

(** ** The listening broker *)

Lemma serve_local_loop_books fuel fd max : ∀ r w0 w,
  open_books w0 → tidy w0 w → wp (serve_local_loop fuel fd max r) (λ _ w', tidy w0 w') w.
Proof.
  induction fuel as [|fuel IH]; intros r w0 w Hw H; cbn [serve_local_loop]; [by apply wp_ret|].
  apply wp_if; intros _; [by apply wp_ret|]. apply wp_bind. eapply wp_mono; [apply accept_one_handed|].
  intros x w1 [(c&->&Hc&N)|[-> N]]; cbn [Z.eqb negb].
  2: { apply wp_ret. etrans; [exact H|by apply tidy_net]. }
  cbn [default from_option id]. apply spends_net in N.
  assert (spends (one c) none w0 w1) as H1 by (eapply spends_trans; [exact H|exact N|done|done]).
  pose proof (serve_fd_books c w1 (spends_open _ _ _ _ H1 Hw)) as S.
  eapply (wp_spends _ _ _ none); [exact S|exact H1|done|]. intros rc w2 H2.
  apply wp_bind. unfold wp at 1. cbn [get_errno gets fst snd].
  eapply wp_spends; [apply spends_close|exact H2|done|]. intros _ w3 H3.
  apply IH; [done|]. eapply spends_eq; [exact H3|intros k; cbn beta; lia|done].
Qed.

Lemma serve_local_books path max w :
  open_books w → wp (llam_broker_serve_local_n path max) (λ _ w', tidy w w') w.
Proof.
  intros Hw. unfold llam_broker_serve_local_n. apply wp_bind. unfold wp at 1. cbn [gets fst snd].
  apply wp_if; intros _.
  { assert (pres tidy (fail EINVAL)) as H by tidy_walk. exact (H w). }
  apply wp_bind. eapply wp_mono; [apply listen_handed|].
  intros x w1 [(fd&->&Hfd&N)|[-> N]]; cbn [Z.eqb negb]; [|apply wp_ret; by apply tidy_net].
  cbn [default from_option id]. eapply wp_thrifty; [apply thrifty_capture|exact N|]. intros [rc id] w2 N2.
  apply wp_if; intros _.
  { eapply wp_mono; [by apply close_and_fail_net|]. intros rc' w3 [_ T]. by apply tidy_net. }
  apply spends_net in N2. apply wp_bind. unfold wp at 1. cbn [gets fst snd].
  pose proof (serve_local_loop_books (S (length (os_accept (w_os w2)))) fd max (LocalRun (-1) 0 0 0) w2 w2
    (spends_open _ _ _ _ N2 Hw) ltac:(reflexivity)) as L.
  eapply (wp_spends _ _ _ none); [exact L|exact N2|done|]. intros r w3 H3.
  eapply (wp_spends _ _ _ none); [|exact H3|done|].
  { match goal with |- spends _ _ _ (?m w3).2 => assert (pres tidy m) as H by tidy_walk; exact (H w3) end. }
  intros rc2 w4 H4. eapply (wp_spends _ _ _ none); [apply tidy_quiet, thrifty_unlink_owned|exact H4|done|].
  intros _ w5 H5. eapply wp_spends; [apply spends_close|exact H5|done|]. intros _ w6 H6. apply wp_ret.
  eapply spends_eq; [exact H6|intros k; cbn beta; lia|done].
Qed.

(** Serving untrusted clients keeps the books of the process.  A run of the
    listening broker, a connection and a single request each leave the process
    with exactly the descriptors and mappings it held before, beyond those that
    slots and sessions of the broker own, and the broker with its invariants, moved
    only forward; whatever the clients send or attach, and whichever system call
    fails on the way. *)
Theorem serving_keeps_books (path : option (list Z)) (max fd : Z) (close : option bool) (w : world) :
  open_books w →
  let kept (w' : world) := open_books w' ∧ advance w w' ∧ balanced w w' in
  kept (llam_broker_serve_local_n path max w).2 ∧ kept (llam_broker_serve_fd fd w).2
  ∧ kept (llam_broker_serve_one_fd fd close w).2.
Proof.
  intros Hw kept. assert (∀ w', tidy w w' → kept w') as H.
  { intros w' T. split; [by eapply spends_open|]. split; [apply T|]. apply T; apply Hw. }
  split_and!; apply H; [by apply serve_local_books|by apply serve_fd_books|by apply serve_one_fd_books].
Qed.

(** A client that attaches a descriptor to a request that takes none. *)
Definition stray_world : world :=
  set_w_os (set_os_stat [inl (FileStat 0 1 55)] (set_os_poll [PollReady POLLIN; PollReady POLLOUT] (set_os_send [inl 400]
    (set_os_recvmsg [inl (ReceivedMessage (image_of_request ping) [Cmsg SOL_SOCKET SCM_RIGHTS [7; 0; 0; 0]] 24 0)]
      (w_os example_world))))) example_world.

Lemma serving_keeps_books_witness :
  let w' := (llam_broker_serve_fd 4 stray_world).2 in
  sent 4 (os_log (w_os w'))
    = image_of_response (llam_broker_response_error llam_broker_response_init_empty EINVAL)
  ∧ existsb (λ e, match e with EvOpen fd => fd =? 7 | _ => false end) (os_log (w_os w')) = true ∧ unowned descriptors 7 w' = 0 ∧ open_books w'.
Proof.
  assert (open_books stray_world) as Hw.
  { split; [exact example_world_ok|by eexists|by apply example_sessions_ok]. }
  destruct (serving_keeps_books None 0 4 None stray_world Hw) as (_&(H1&_&_)&_).
  split_and!; [vm_compute; reflexivity..|exact H1].
Defined.

(** ** Keys of connections *)

(** Connections that reuse a descriptor number on the same device have the keys
    of their sockets: another inode gives another key. *)
Lemma lxor_cancel_l a b c : Z.lxor a b = Z.lxor a c → b = c.
Proof.
  intros E. apply (f_equal (Z.lxor a)) in E. by rewrite <- !Z.lxor_assoc, !Z.lxor_nilpotent, !Z.lxor_0_l in E.
Qed.

Lemma transport_key_fresh fd info info' :
  let mixed i := Z.lxor (Z.lxor (llam_mix64 (u64 fd)) (llam_mix64 (u64 (st_dev i)))) (llam_mix64 (u64 (st_ino i))) in
  st_dev info' = st_dev info → u64 (st_ino info') ≠ u64 (st_ino info) → mixed info ≠ 0 → mixed info' ≠ 0 →
  transport_id_of fd info' ≠ transport_id_of fd info.
Proof.
  intros mixed Hd Hi H1 H2. unfold transport_id_of. fold (mixed info) (mixed info').
  rewrite (proj2 (Z.eqb_neq _ _) H1), (proj2 (Z.eqb_neq _ _) H2). unfold mixed. rewrite Hd. intros E.
  apply Hi, llam_mix64_inj; [apply u64_range..|]. eapply (lxor_cancel_l _ _ _ E).
Qed.

(** But the same mixer is used for the descriptor number and the inode, so that
    exchanging the two gives the same key. *)
Lemma transport_keys_collide fd ino dev size size' :
  transport_id_of fd (FileStat size dev ino) = transport_id_of ino (FileStat size' dev fd)
  ∨ Z.lxor (Z.lxor (llam_mix64 (u64 fd)) (llam_mix64 (u64 dev))) (llam_mix64 (u64 ino)) = 0.
Proof.
  unfold transport_id_of. cbn [st_dev st_ino].
  assert (Z.lxor (Z.lxor (llam_mix64 (u64 ino)) (llam_mix64 (u64 dev))) (llam_mix64 (u64 fd))
    = Z.lxor (Z.lxor (llam_mix64 (u64 fd)) (llam_mix64 (u64 dev))) (llam_mix64 (u64 ino))) as ->.
  { rewrite (Z.lxor_comm (Z.lxor _ _)), (Z.lxor_comm (llam_mix64 (u64 ino))), !Z.lxor_assoc. done. }
  destruct (Z.eqb_spec (Z.lxor (Z.lxor (llam_mix64 (u64 fd)) (llam_mix64 (u64 dev))) (llam_mix64 (u64 ino))) 0); auto.
Qed.
