(* ===== verification/Lifecycle.v ===== *)
(** * The life of a broker

    [llam_broker_init] of [src/core/broker/broker.c] and
    [src/core/broker/broker_lifecycle.c]: creation with its runtime and its key,
    and destruction, which waits for the operations in flight, drains the tasks and
    releases every table.  The runtime behind a broker is the environment. *)

From S2P Require Import Prelude Mix World Capability BrokerOps BrokerCore BrokerBuffer BrokerChannel.
From S2P Require Import BrokerRevoke BrokerDescriptor BrokerTask Ring RingMap BrokerSession Rollback BrokerFrame.
From S2P Require Import RingServe Advance Books Wire Codec Message.

(** ** The environment *)

(** [pthread_mutex_init] or [pthread_cond_init]: 0 or an error number. *)
Definition sys_init : M Z := pop os_init set_os_init 0.

(** [llam_runtime_create_compat]: the id of the new runtime, or an error. *)
Definition llam_runtime_create_compat : M (option Z) :=
  v ← pop os_runtime set_os_runtime (inr ENOMEM);
  match v with
  | inl runtime_id => log (EvRuntimeCreate runtime_id) ;; mret (Some runtime_id)
  | inr e => set_errno e ;; mret None
  end.

Definition llam_runtime_destroy (runtime : Z) : M unit := log (EvRuntimeDestroy runtime).

Definition llam_request_stop (runtime : Z) : M unit := log (EvStop runtime).

(** [pthread_cond_wait]: other threads run while the lock is released.  After
    the recorded steps, those that are waited for finish ([last]). *)
Definition cond_wait (last : broker → broker) : M unit :=
  f ← pop os_wait set_os_wait last; upd_broker f.

(** ** Creation *)

(** [memset(broker, 0, sizeof *broker)] keeps only the address. *)
Definition blank_broker (addr : Z) : broker :=
  Broker addr None (replicate 4 0) 0
    (replicate LLAM_BROKER_BUFFER_SLOTS zero_buffer_slot)
    (replicate LLAM_BROKER_DESCRIPTOR_SLOTS zero_descriptor_slot) None
    (replicate LLAM_BROKER_TASK_SLOTS zero_task_slot)
    (replicate LLAM_BROKER_RING_SESSIONS zero_ring_session)
    (replicate LLAM_BROKER_TRANSPORT_SESSIONS zero_transport_session)
    0 0 0 0 0 0 0 false false false false.

(** [pthread_cond_destroy] and [pthread_mutex_destroy] with their flags. *)
Definition destroy_sync : M unit :=
  upd_broker (set_b_idle_cond_initialized false) ;; upd_broker (set_b_lock_initialized false).

(** [calloc(LLAM_BROKER_CHANNEL_SLOTS, ...)] *)
Definition calloc_channels : M bool := pop os_calloc set_os_calloc true.

(** The broker once everything it needs is there. *)
Definition started_broker (runtime : Z) (b : broker) : broker :=
  set_b_initialized true
    (set_b_next_transport_subject_nonce 1
    (set_b_next_task_id 1 (set_b_next_channel_id 1 (set_b_next_descriptor_id 1 (set_b_next_buffer_id 1
    (set_b_revocation_epoch 1 (set_b_runtime (Some runtime)
    (set_b_channels (Some (replicate LLAM_BROKER_CHANNEL_SLOTS zero_channel_slot)) b)))))))).

(** The runtime is there: the key and the channel table are left to get. *)
Definition finish_init (runtime : Z) : M Z :=
  b ← the_broker;
  '(rc, key) ← llam_capability_key_init (Some (b_capability_key b)) runtime;
  upd_broker (set_b_capability_key (default (b_capability_key b) key)) ;;
  if negb (rc =? 0) then
    e ← get_errno;
    llam_runtime_destroy runtime ;;
    destroy_sync ;;
    set_errno (if negb (e =? 0) then e else EIO) ;;
    mret (-1)
  else
    ok ← calloc_channels;
    if negb (ok : bool) then
      upd_broker (λ b, set_b_capability_key
        (default [] (llam_capability_key_clear (Some (b_capability_key b)))) b) ;;
      llam_runtime_destroy runtime ;;
      destroy_sync ;;
      set_errno ENOMEM ;;
      mret (-1)
    else upd_broker (started_broker runtime) ;; mret 0.

Definition llam_broker_init : M Z :=
  on_broker (fail EINVAL) (λ b,
    upd_broker (λ b, blank_broker (b_addr b)) ;;
    rc ← sys_init;
    if negb (rc =? 0) then fail rc
    else
      upd_broker (set_b_lock_initialized true) ;;
      rc ← sys_init;
      if negb (rc =? 0) then upd_broker (set_b_lock_initialized false) ;; fail rc
      else
        upd_broker (set_b_idle_cond_initialized true) ;;
        runtime ← llam_runtime_create_compat;
        match runtime with
        | None => destroy_sync ;; mret (-1)
        | Some runtime => finish_init runtime
        end).

(** ** Destruction *)

(** One session of [llam_broker_clear_session_state]. *)
Definition clear_session (i : nat) : M unit :=
  b ← the_broker;
  if rs_owns_mapping (session_at b i) then
    t ← llam_broker_ring_session_take_mapping (Some i) (Some reset_mapping);
    if t.1 : bool then llam_broker_ring_unmap t.2 ;; mret tt else mret tt
  else mret tt.

Definition llam_broker_clear_session_state : M unit :=
  on_broker (mret tt) (λ _,
    for_each LLAM_BROKER_RING_SESSIONS 0 clear_session ;;
    upd_broker (set_b_ring_sessions (replicate LLAM_BROKER_RING_SESSIONS zero_ring_session)) ;;
    upd_broker (set_b_transport_sessions (replicate LLAM_BROKER_TRANSPORT_SESSIONS zero_transport_session)) ;;
    upd_broker (set_b_next_transport_subject_nonce 0)).

(** [while (waiting) { if (overflow) return false; pthread_cond_wait(...); }];
    the steps of other threads come from the [wait] tape. *)
Fixpoint wait_while (fuel : nat) (waiting overflow : broker → bool) (last : broker → broker) : M bool :=
  match fuel with
  | O => mret true
  | S fuel =>
      b ← the_broker;
      if negb (waiting b) then mret true
      else if overflow b then mret false
      else cond_wait last ;; wait_while fuel waiting overflow last
  end.

Definition wait_for (waiting overflow : broker → bool) (last : broker → broker) : M bool :=
  waits ← gets (λ w, length (os_wait (w_os w)));
  wait_while (S (S waits)) waiting overflow last.

(** A second destroyer waits for the first. *)
Definition wait_destroyed : M unit :=
  b ← the_broker;
  if negb (b_idle_cond_initialized b) then llam_broker_unlock
  else
    upd_broker (λ b, set_b_destroy_waiters (b_destroy_waiters b + 1) b) ;;
    wait_for (λ b, b_initialized b && b_idle_cond_initialized b) (λ _, false) (set_b_initialized false) ;;
    upd_broker (λ b, set_b_destroy_waiters (b_destroy_waiters b - 1) b) ;;
    b ← the_broker;
    (if (b_destroy_waiters b =? 0) && b_idle_cond_initialized b then log EvBroadcast else mret tt) ;;
    llam_broker_unlock.

(** The tables, the key and the runtime go. *)
Definition teardown (runtime : option Z) : M unit :=
  llam_broker_clear_buffers ;;
  llam_broker_clear_descriptors ;;
  llam_broker_clear_channels ;;
  upd_broker (set_b_channels None) ;;
  llam_broker_clear_session_state ;;
  upd_broker (λ b, set_b_capability_key
    (default [] (llam_capability_key_clear (Some (b_capability_key b)))) b) ;;
  upd_broker (set_b_revocation_epoch 0) ;;
  upd_broker (set_b_next_buffer_id 0) ;;
  upd_broker (set_b_next_descriptor_id 0) ;;
  upd_broker (set_b_next_channel_id 0) ;;
  upd_broker (set_b_next_task_id 0) ;;
  (match runtime with Some r => llam_runtime_destroy r | None => mret tt end) ;;
  b ← the_broker;
  (if b_idle_cond_initialized b then upd_broker (set_b_idle_cond_initialized false) else mret tt) ;;
  b ← the_broker;
  (if b_lock_initialized b then upd_broker (set_b_lock_initialized false) else mret tt).

(** Once no operation is in flight. *)
Definition drain_and_teardown : M unit :=
  b ← the_broker;
  let runtime := b_runtime b in
  llam_broker_unlock ;;
  (match runtime with Some r => llam_request_stop r | None => mret tt end) ;;
  llam_broker_clear_tasks ;;
  rc ← llam_broker_lock;
  if negb (rc =? 0) then mret tt
  else
    upd_broker (set_b_initialized false) ;;
    upd_broker (set_b_runtime None) ;;
    b ← the_broker;
    (if b_idle_cond_initialized b then log EvBroadcast else mret tt) ;;
    wait_for (λ b, (0 <? b_destroy_waiters b) && b_idle_cond_initialized b) (λ _, false)
      (set_b_destroy_waiters 0) ;;
    upd_broker (set_b_destroying false) ;;
    llam_broker_unlock ;;
    teardown runtime.

Definition llam_broker_destroy : M unit :=
  on_broker (mret tt) (λ b,
    if negb (b_lock_initialized b) then mret tt
    else
      rc ← llam_broker_lock;
      if negb (rc =? 0) then mret tt
      else
        b ← the_broker;
        if negb (b_initialized b) then llam_broker_unlock
        else
          nested ← llam_broker_current_thread_has_op;
          if nested : bool then llam_broker_unlock ;; set_errno EBUSY
          else if b_destroying b then wait_destroyed
          else if LLAM_BROKER_ACTIVE_OP_BUSY_SENTINEL <=? b_active_ops b
          then llam_broker_unlock ;; set_errno EBUSY
          else
            upd_broker (set_b_destroying true) ;;
            idle ← wait_for (λ b, (0 <? b_active_ops b) && b_idle_cond_initialized b)
                     (λ b, LLAM_BROKER_ACTIVE_OP_BUSY_SENTINEL <=? b_active_ops b) (set_b_active_ops 0);
            if negb (idle : bool) then
              upd_broker (set_b_destroying false) ;;
              log EvBroadcast ;;
              llam_broker_unlock ;;
              set_errno EBUSY
            else drain_and_teardown).

(** ** A new broker *)

(** What every theorem about a broker starts from. *)
Record fresh_broker (runtime : Z) (b : broker) : Prop := {
  fb_ok : broker_ok b;
  fb_live : live_broker b;
  fb_runtime : b_runtime b = Some runtime;
  fb_sized : tables_sized b;
  fb_transports : transports_ok (b_transport_sessions b);
  fb_sessions : length (b_ring_sessions b) = LLAM_BROKER_RING_SESSIONS ∧ Forall session_ok (b_ring_sessions b);
  fb_tasks : Forall BrokerTask.tidy (b_tasks b) ∧ quota_ok b;
  fb_idle : b_active_ops b = 0 ∧ b_destroying b = false ∧ b_destroy_waiters b = 0;
  fb_flags : b_initialized b = true ∧ b_lock_initialized b = true ∧ b_idle_cond_initialized b = true;
  fb_nothing : ∀ t rights, live_in b t rights = false;
  fb_owns : ∀ k, res_owned ring_fds k b = 0 ∧ res_owned mappings k b = 0 ∧ res_owned task_handles k b = 0;
}.

(** What a failed initialization leaves: nothing to be used. *)
Record inert_broker (b : broker) : Prop := {
  in_initialized : b_initialized b = false;
  in_runtime : b_runtime b = None;
  in_lock : b_lock_initialized b = false;
  in_key : b_capability_key b = replicate 4 0;
}.

Lemma slot_live_replicate `{BrokerSlot T} t r n (s : T) : slot_active s = false → slot_live t r (replicate n s) = false.
Proof.
  intros H0. unfold slot_live. induction n as [|n IH]; [done|]. cbn. rewrite IH. unfold slot_matches. by rewrite H0.
Qed.

Lemma table_ok_replicate `{BrokerSlot T} n (s : T) : slot_active s = false → table_ok 1 (replicate n s).
Proof.
  intros H0. split; [unfold UINT64_MAX; lia| |].
  - intros i x [-> _]%lookup_replicate Ha. by rewrite H0 in Ha.
  - intros i j x y [-> _]%lookup_replicate _ Ha. by rewrite H0 in Ha.
Qed.

Lemma started_fresh runtime key addr :
  fresh_broker runtime (started_broker runtime
    (set_b_capability_key key (set_b_idle_cond_initialized true (set_b_lock_initialized true (blank_broker addr))))).
Proof.
  split; try done.
  - split; [exact (table_ok_replicate LLAM_BROKER_BUFFER_SLOTS zero_buffer_slot eq_refl)
           |exact (table_ok_replicate LLAM_BROKER_DESCRIPTOR_SLOTS zero_descriptor_slot eq_refl)
           |exact (table_ok_replicate LLAM_BROKER_CHANNEL_SLOTS zero_channel_slot eq_refl)
           |exact (table_ok_replicate LLAM_BROKER_TASK_SLOTS zero_task_slot eq_refl)|done].
  - split; [apply length_replicate..| |apply length_replicate]. intros l [= <-]. done.
  - apply idle_transports_ok.
  - split; [apply length_replicate|]. by apply Forall_replicate.
  - split; [apply Forall_replicate; by right|]. split; [done|]. intros subj. unfold llam_broker_subject_task_count_locked.
    destruct (subj =? 0); [done|]. etrans; [apply Z.eq_le_incl, (count_if_replicate _ _ zero_task_slot); done|done].
  - intros t r. unfold live_in.
    pose proof (slot_live_replicate t r LLAM_BROKER_BUFFER_SLOTS zero_buffer_slot eq_refl) as H1.
    pose proof (slot_live_replicate t r LLAM_BROKER_DESCRIPTOR_SLOTS zero_descriptor_slot eq_refl) as H2.
    pose proof (slot_live_replicate t r LLAM_BROKER_CHANNEL_SLOTS zero_channel_slot eq_refl) as H3.
    pose proof (slot_live_replicate t r LLAM_BROKER_TASK_SLOTS zero_task_slot eq_refl) as H4.
    repeat (destruct (_ =? _); [assumption|]). done.
  - intros k. cbn [res_owned ring_fds mappings task_handles started_broker].
    split_and!; [|by apply (count_if_replicate _ _ zero_ring_session)
                 |apply (count_if_replicate _ _ zero_task_slot), is_handle_0].
    apply (f_equal2 Z.add (count_if_replicate (owns k) LLAM_BROKER_DESCRIPTOR_SLOTS zero_descriptor_slot eq_refl)
      (count_if_replicate (owns_session_fd k) LLAM_BROKER_RING_SESSIONS zero_ring_session eq_refl)).
Qed.

Lemma key_words_length n : ∀ i seed acc w ws,
  (key_words_init n i seed acc w).1 = Some ws → length ws = (n + length acc)%nat.
Proof.
  induction n as [|n IH]; intros i seed acc w ws; cbn [key_words_init]; [by intros [= <-]|]. mon.
  destruct (llam_cap_entropy_word w) as [[word|] w1]; mon; [|done].
  destruct (llam_public_slot_fallback_secret _ w1) as [f w2]. mon. intros H. apply IH in H. rewrite H, length_app. cbn. lia.
Qed.

Lemma zero_words l : length l = 4%nat → llam_cap_key_valid (Some l) = false → l = replicate 4 0.
Proof.
  intros H. destruct l as [|a [|b [|c [|d [|]]]]]; try done. unfold llam_cap_key_valid, key_word. cbn [nth]. intros E.
  apply negb_false_iff, Z.eqb_eq in E. apply Z.lor_eq_0_iff in E as [E ->]. apply Z.lor_eq_0_iff in E as [E ->].
  by apply Z.lor_eq_0_iff in E as [-> ->].
Qed.

Lemma pres_silent_secret s : pres silent (llam_public_slot_fallback_secret s).
Proof. unfold llam_public_slot_fallback_secret. pres_walk. by apply pres_silent_pop. Qed.

Lemma pres_silent_entropy : pres silent llam_cap_entropy_word.
Proof. unfold llam_cap_entropy_word, llam_public_slot_entropy_from_os. pres_walk. by apply pres_silent_pop. Qed.

#[export] Hint Resolve pres_silent_secret pres_silent_entropy : llam_quiet.

Lemma pres_silent_key_words n : ∀ i seed acc, pres silent (key_words_init n i seed acc).
Proof. induction n as [|n IH]; intros i seed acc; cbn [key_words_init]; pres_walk; apply IH. Qed.

#[local] Arguments llam_cap_key_valid : simpl never.

(** A key is drawn, or what is left of it is zero. *)
Lemma key_init_cases seed w :
  let r := llam_capability_key_init (Some (replicate 4 0)) seed w in
  silent w r.2 ∧
  ((∃ key, r.1 = (0, Some key) ∧ llam_cap_key_valid (Some key) = true) ∨
   r.1 = (-1, Some (replicate 4 0)) ∧ w_errno r.2 = EIO).
Proof.
  unfold llam_capability_key_init. mon.
  pose proof (pres_silent_key_words 4 0 seed [] w) as S1.
  pose proof (key_words_length 4 0 seed [] w) as L.
  destruct (key_words_init 4 0 seed [] w) as [[ws|] w1]; cbn [fst snd] in S1, L; mon.
  - match goal with |- context [negb (llam_cap_key_valid ?k)] => destruct (llam_cap_key_valid k) eqn:E end; cbn [negb]; mon.
    + split; [done|]. left. by exists ws.
    + split; [etrans; [exact S1|by apply pres_silent_errno]|]. right.
      by rewrite (zero_words ws (L ws eq_refl) E).
  - split; [etrans; [exact S1|by apply pres_silent_errno]|]. by right.
Qed.

(** The outcome of an initialization. *)
Definition initialized_as (r : Z * world) (w : world) (b' : broker) : Prop :=
  (r.1 = 0 ∧ ∃ runtime, fresh_broker runtime b' ∧ llam_cap_key_valid (Some (b_capability_key b')) = true ∧
     os_log (w_os r.2) = EvRuntimeCreate runtime :: os_log (w_os w)) ∨
  (r.1 = -1 ∧ inert_broker b' ∧
     (os_log (w_os r.2) = os_log (w_os w) ∨
      ∃ runtime, os_log (w_os r.2) = EvRuntimeDestroy runtime :: EvRuntimeCreate runtime :: os_log (w_os w))).

Lemma runtime_create_cases w :
  let r := llam_runtime_create_compat w in
  same_core w r.2 ∧
  ((r.1 = None ∧ os_log (w_os r.2) = os_log (w_os w)) ∨
   ∃ runtime, r.1 = Some runtime ∧ os_log (w_os r.2) = EvRuntimeCreate runtime :: os_log (w_os w)).
Proof.
  unfold llam_runtime_create_compat. mon.
  pose proof (pres_silent_pop os_runtime set_os_runtime (inr ENOMEM) ltac:(done) w) as [C L].
  destruct (pop os_runtime set_os_runtime (inr ENOMEM) w) as [[v|e] w1]; cbn [fst snd] in C, L; mon.
  - split; [exact C|]. right. exists v. split; [done|]. cbn. by rewrite L.
  - split; [exact C|]. left. split; [done|exact L].
Qed.

Lemma sys_init_silent : pres silent sys_init.
Proof. by apply pres_silent_pop. Qed.

Definition initialized (r : Z * world) (w : world) (addr : Z) : Prop :=
  w_rings r.2 = w_rings w ∧ w_tls r.2 = w_tls w ∧
  ∃ b', w_broker r.2 = Some b' ∧ b_addr b' = addr ∧ initialized_as r w b'.

Lemma finish_init_establishes runtime w0 w addr :
  w_broker w = Some (set_b_idle_cond_initialized true (set_b_lock_initialized true (blank_broker addr))) →
  w_rings w = w_rings w0 → w_tls w = w_tls w0 → 
  os_log (w_os w) = EvRuntimeCreate runtime :: os_log (w_os w0) →
  initialized (finish_init runtime w) w0 addr.
Proof.
  intros Hb Hr Ht Hl. unfold finish_init. mon. rewrite Hb. mon.
  change (b_capability_key (set_b_idle_cond_initialized true (set_b_lock_initialized true (blank_broker addr))))
    with (replicate 4 0).
  destruct (key_init_cases runtime w) as [[(C1&C2&C3) C4] H].
  match goal with |- context [llam_capability_key_init ?k runtime w] =>
    change (llam_capability_key_init k runtime w) with (llam_capability_key_init (Some (replicate 4 0)) runtime w) end.
  destruct (llam_capability_key_init _ runtime w) as [r1 w1]. cbn [fst snd] in *.
  rewrite Hb in C1. destruct H as [(key&->&Hk)|[-> He]]; mon; rewrite C1; mon.
  - unfold calloc_channels.
    match goal with |- context [pop ?t ?s ?d ?x] =>
      destruct (pres_silent_pop t s d ltac:(done) x) as [(D1&D2&D3) D4]; destruct (pop t s d x) as [[] w2] end; mon;
      rewrite D1; mon; (split; [etrans; [exact D2|etrans; [exact C2|exact Hr]]|]);
      (split; [etrans; [exact D3|etrans; [exact C3|exact Ht]]|]); eexists; (split; [done|]); (split; [done|]).
    + left. split; [done|]. exists runtime. split; [apply started_fresh|]. split; [exact Hk|].
      cbn. rewrite D4. cbn. by rewrite C4.
    + right. split; [done|]. split; [by split|]. right. exists runtime. cbn. rewrite D4. cbn. by rewrite C4, Hl.
  - split; [etrans; [exact C2|exact Hr]|]. split; [etrans; [exact C3|exact Ht]|]. eexists. split; [done|]. split; [done|].
    right. split; [done|]. split; [by split|]. right. exists runtime. cbn. by rewrite C4, Hl.
Qed.

Lemma init_cases w b :
  w_broker w = Some b → initialized (llam_broker_init w) w (b_addr b).
Proof.
  intros Hb. unfold llam_broker_init, on_broker. rewrite Hb. mon. rewrite Hb. mon.
  match goal with |- context [sys_init ?x] =>
    destruct (sys_init_silent x) as [(C1&C2&C3) C4]; destruct (sys_init x) as [rc w1] end. mon.
  destruct (rc =? 0); mon.
  2: { split; [exact C2|]. split; [exact C3|]. exists (blank_broker (b_addr b)). split; [exact C1|]. split; [done|].
       right. split; [done|]. split; [done|]. by left. }
  rewrite C1. mon.
  match goal with |- context [sys_init ?x] =>
    destruct (sys_init_silent x) as [(D1&D2&D3) D4]; destruct (sys_init x) as [rc2 w2] end. mon.
  destruct (rc2 =? 0); mon; rewrite D1; mon.
  2: { split; [etrans; [exact D2|exact C2]|]. split; [etrans; [exact D3|exact C3]|]. eexists. split; [done|]. split; [done|].
       right. split; [done|]. split; [done|]. left. cbn. by rewrite D4. }
  match goal with |- context [llam_runtime_create_compat ?x] =>
    destruct (runtime_create_cases x) as [(E1&E2&E3) E4]; destruct (llam_runtime_create_compat x) as [rt w3] end. mon.
  destruct E4 as [[-> E4]|(runtime&->&E4)].
  - unfold destroy_sync. mon. rewrite E1. mon. split; [exact (eq_trans E2 (eq_trans D2 C2))|]. split; [exact (eq_trans E3 (eq_trans D3 C3))|]. eexists. split; [done|]. split; [done|].
    right. split; [done|]. split; [done|]. left. cbn. by rewrite E4, D4.
  - apply finish_init_establishes; [exact E1|exact (eq_trans E2 (eq_trans D2 C2))|exact (eq_trans E3 (eq_trans D3 C3))|by rewrite E4, D4, C4].
Qed.

(** [llam_broker_init] on any storage either succeeds, with a broker that has every
    invariant the operations rely on, a usable key, and exactly its runtime created; or
    fails, with nothing left to use: no lock, no key, and the runtime destroyed if it was
    created. *)
Theorem init_establishes w b :
  w_broker w = Some b → initialized (llam_broker_init w) w (b_addr b).
Proof. apply init_cases. Qed.

(** The runtime starts with id 7. *)
Lemma init_establishes_witness :
  let w := set_w_os (set_os_runtime [inl 7] (w_os example_world)) example_world in
  initialized (llam_broker_init w) w (b_addr example_broker) ∧ (llam_broker_init w).1 = 0.
Proof. intros w. split; [by apply (init_establishes w example_broker)|vm_compute; reflexivity]. Defined.

(** ** Tables wiped by a loop *)

Lemma wipe_step {A} (z : A) (l : list A) j :
  (j < length l)%nat → <[j := z]> (replicate j z ++ drop j l) = replicate (S j) z ++ drop (S j) l.
Proof.
  intros Hj. destruct (lookup_lt_is_Some_2 l j Hj) as [x Hx].
  rewrite (drop_S _ _ _ Hx), replicate_S_end, <-app_assoc.
  rewrite insert_app_r_alt by (rewrite length_replicate; lia). by rewrite length_replicate, Nat.sub_diag.
Qed.

Section tables.
Context {T : Type} (get : broker → list T) (set : list T → broker → broker).
Context (get_set : ∀ l b, get (set l b) = l) (set_set : ∀ l l' b, set l (set l' b) = set l b).
Context (set_get : ∀ b, set (get b) b = b).

(** Only this table of the broker changes, and keeps its size. *)
Definition confined (w w' : world) : Prop :=
  ∀ b, w_broker w = Some b → ∃ l, w_broker w' = Some (set l b) ∧ length l = length (get b).

#[local] Instance confined_preorder : PreOrder confined.
Proof.
  split.
  - intros w b Hb. exists (get b). by rewrite set_get.
  - intros x y z H1 H2 b Hb. destruct (H1 b Hb) as (l&Hy&L). destruct (H2 _ Hy) as (l'&Hz&L').
    exists l'. rewrite set_set in Hz. by rewrite get_set in L'; rewrite L', L.
Qed.

Lemma confined_same w w' : w_broker w' = w_broker w → confined w w'.
Proof. intros E b Hb. exists (get b). by rewrite set_get, E. Qed.

Lemma confined_insert (i : nat) f :
  pres confined (upd_broker (λ b, set (<[i := f b]> (get b)) b)).
Proof. intros w b Hb. eexists. mon. rewrite Hb. mon. split; [done|]. apply length_insert. Qed.

Lemma wipe_table (z : T) n (body : nat → M unit) w b :
  (∀ i w b, w_broker w = Some b → w_broker (body i w).2 = Some (set (<[i := z]> (get b)) b)) →
  w_broker w = Some b → length (get b) = n →
  w_broker (for_each n 0 body w).2 = Some (set (replicate n z) b).
Proof.
  intros Hbody Hb Hn.
  pose proof (for_each_inv (λ j w, w_broker w = Some (set (replicate j z ++ drop j (get b)) b)) n 0 body w) as H.
  cbn beta in H. rewrite Nat.add_0_l, (drop_ge _ n), app_nil_r in H by lia. apply H.
  - cbn. by rewrite drop_0, set_get.
  - intros j w1 Hj Hw. rewrite (Hbody j w1 _ Hw), get_set, set_set. by rewrite wipe_step by lia.
Qed.
End tables.

Lemma buffers_wiped w b :
  w_broker w = Some b → length (b_buffers b) = LLAM_BROKER_BUFFER_SLOTS →
  w_broker (llam_broker_clear_buffers w).2
    = Some (set_b_buffers (replicate LLAM_BROKER_BUFFER_SLOTS zero_buffer_slot) b).
Proof.
  intros Hb Hn. unfold llam_broker_clear_buffers, on_broker. rewrite Hb.
  apply (wipe_table b_buffers set_b_buffers); [by intros ? []|by intros ? ? []|by intros []| |done|done].
  intros i w1 b1 Hb1. unfold llam_broker_buffer_slot_reset, llam_broker_buffer_free_data. mon. rewrite Hb1. mon.
  destruct (bs_data (buffer_at b1 i)); mon; by rewrite Hb1.
Qed.

Lemma descriptors_wiped w b :
  w_broker w = Some b → length (b_descriptors b) = LLAM_BROKER_DESCRIPTOR_SLOTS →
  w_broker (llam_broker_clear_descriptors w).2
    = Some (set_b_descriptors (replicate LLAM_BROKER_DESCRIPTOR_SLOTS reset_descriptor_slot) b).
Proof.
  intros Hb Hn. unfold llam_broker_clear_descriptors, on_broker. rewrite Hb.
  apply (wipe_table b_descriptors set_b_descriptors); [by intros ? []|by intros ? ? []|by intros []| |done|done].
  intros i w1 b1 Hb1. mon. rewrite Hb1. mon.
  unfold llam_broker_descriptor_close_owned_slot, llam_broker_descriptor_reset_slot, sys_close.
  repeat branch; mon; by rewrite Hb1.
Qed.

Lemma channels_wiped w b l :
  w_broker w = Some b → b_channels b = Some l → length l = LLAM_BROKER_CHANNEL_SLOTS →
  w_broker (llam_broker_clear_channels w).2
    = Some (set_b_channels (Some (replicate LLAM_BROKER_CHANNEL_SLOTS zero_channel_slot)) b).
Proof.
  intros Hb Hl Hn. unfold llam_broker_clear_channels, on_broker. rewrite Hb, Hl.
  pose proof (for_each_inv
    (λ j w, w_broker w = Some (set_b_channels (Some (replicate j zero_channel_slot ++ drop j l)) b))
    LLAM_BROKER_CHANNEL_SLOTS 0 (λ i, upd_channel i (λ _, zero_channel_slot)) w) as H.
  cbn beta in H. rewrite Nat.add_0_l, (drop_ge _ LLAM_BROKER_CHANNEL_SLOTS), app_nil_r in H by lia. apply H.
  - cbn. rewrite drop_0, Hb, <-Hl. by destruct b.
  - intros j w1 Hj Hw. unfold upd_channel. mon. rewrite Hw. mon. cbn [b_channels set_b_channels fmap option_fmap option_map].
    by rewrite wipe_step by lia.
Qed.

(** ** Draining the tasks *)

Section drain.
Context (R : world → world → Prop) `{!PreOrder R}.
Context (R_set : ∀ i s, pres R (set_task i s)) (R_lock : pres R llam_broker_lock).
Context (R_join : ∀ t, pres R (llam_join t)) (R_detach : ∀ t, pres R (llam_detach t)).
Context (R_compute : ∀ kind arg, pres R (llam_broker_task_compute kind arg)).
Context (R_run : pres R (pop os_run set_os_run [])).

Lemma pres_trampoline i : pres R (llam_broker_task_trampoline i).
Proof.
  unfold llam_broker_task_trampoline, set_result, llam_broker_task_slot_reset.
  apply pres_bind; [apply _|by apply pres_gets, _|]. intros b. apply pres_bind; [apply _|apply R_compute|]. intros r.
  apply pres_bind; [apply _|apply pres_bind; [apply _|by apply pres_gets, _|intros ?; apply R_set]|]. intros _.
  apply pres_bind; [apply _|by apply pres_gets, _|]. intros b1. apply pres_if; [apply R_set|].
  apply pres_if; [|by apply pres_ret, _]. apply pres_bind; [apply _| |intros _].
  - apply pres_if; [|by apply pres_ret, _]. apply pres_bind; [apply _|apply R_detach|intros ?; by apply pres_ret, _].
  - apply pres_bind; [apply _|apply R_lock|]. intros rc. apply pres_if; [by apply pres_ret, _|].
    apply pres_bind; [apply _|apply R_set|intros _; by apply pres_ret, _].
Qed.

Lemma pres_run_handle : pres R llam_runtime_run_handle.
Proof.
  apply pres_bind; [apply _|apply R_run|]. intros l. induction l as [|i l IH]; cbn [run_slots]; [by apply pres_ret, _|].
  apply pres_bind; [apply _| |by intros _]. apply pres_bind; [apply _|by apply pres_gets, _|]. intros b.
  apply pres_if; [apply pres_trampoline|by apply pres_ret, _].
Qed.

Lemma pres_clear_tasks : pres R llam_broker_clear_tasks.
Proof.
  apply pres_on_broker; [by apply pres_ret, _|]. intros b. apply pres_bind; [apply _| |intros _].
  - apply pres_if; [apply pres_run_handle|by apply pres_ret, _].
  - apply pres_for_each; [apply _|]. intros i. apply pres_bind; [apply _|by apply pres_gets, _|]. intros b1.
    apply pres_bind; [apply _| |intros _; apply R_set]. apply pres_if; [|by apply pres_ret, _].
    apply pres_bind; [apply _| |intros _; by apply pres_ret, _]. apply pres_if; [apply R_join|apply R_detach].
Qed.
End drain.

(** The runtime runs tasks of the broker only. *)
Abbreviation only_tasks := (confined b_tasks set_b_tasks).

#[export] Instance only_tasks_preorder : PreOrder only_tasks.
Proof. apply confined_preorder; [by intros ? []|by intros ? ? []|by intros []]. Qed.

Lemma only_tasks_same w w' : w_broker w' = w_broker w → only_tasks w w'.
Proof. apply confined_same. by intros []. Qed.

Lemma only_tasks_core {A} (m : M A) : pres same_core m → pres only_tasks m.
Proof. intros H w. apply only_tasks_same, H. Qed.

Lemma only_tasks_set i s : pres only_tasks (set_task i s).
Proof. apply (confined_insert b_tasks set_b_tasks i (λ _, s)). Qed.

Lemma only_tasks_run : pres only_tasks llam_runtime_run_handle.
Proof.
  apply pres_run_handle; [apply _|apply only_tasks_set|..]; intros; apply only_tasks_core;
    first [apply pres_pop|apply pres_silent_core; first [apply pres_silent_lock|apply pres_silent_compute]|intros w; apply detach_run].
Qed.

Lemma tasks_wiped w b :
  w_broker w = Some b → length (b_tasks b) = LLAM_BROKER_TASK_SLOTS →
  w_broker (llam_broker_clear_tasks w).2
    = Some (set_b_tasks (replicate LLAM_BROKER_TASK_SLOTS zero_task_slot) b).
Proof.
  intros Hb Hn. unfold llam_broker_clear_tasks, on_broker. rewrite Hb. unfold mbind, st_bind.
  assert (only_tasks w ((if negb (is_null (b_runtime b)) then llam_runtime_run_handle else mret tt) w).2) as H
    by (destruct (negb _); [apply only_tasks_run|by apply only_tasks_same]).
  destruct ((if negb (is_null (b_runtime b)) then llam_runtime_run_handle else mret tt) w) as [[] w1]. destruct (H b Hb) as (l&Hl&Hlen).
  replace (set_b_tasks _ b) with (set_b_tasks (replicate LLAM_BROKER_TASK_SLOTS zero_task_slot) (set_b_tasks l b)) by by destruct b.
  apply (wipe_table b_tasks set_b_tasks); [by intros ? []|by intros ? ? []|by intros []| |done|by rewrite <-Hn, <-Hlen].
  clear. intros i w1 b1 Hb1. unfold llam_broker_task_slot_reset, set_task. mon. rewrite Hb1. mon.
  destruct (ts_task (task_at b1 i) =? 0); mon; [by rewrite Hb1|]. set (h := ts_task (task_at b1 i)).
  destruct (bool_decide _); mon; [destruct (join_run h w1) as [[C _] _]|destruct (detach_run h w1) as [[C _] _]];
    [destruct (llam_join h w1)|destruct (llam_detach h w1)]; mon; by rewrite C, Hb1.
Qed.

(** ** Sessions *)

Lemma clear_session_run i w b :
  w_broker w = Some b → rs_owns_mapping (session_at b i) = true →
  clear_session i w
  = unmap_reclaimed (Some (taken (session_at b i))) (set_w_broker (Some (with_session b i cleared_session)) w).
Proof.
  intros Hb Ho. rewrite <-unmap_taken_if, Ho. unfold clear_session, mbind, st_bind. mon. rewrite Hb. mon. rewrite Ho.
  rewrite (take_mapping_run _ _ _ _ Hb). mon. by rewrite Ho.
Qed.

Lemma clear_session_step i w b :
  sessions_ok w → w_broker w = Some b → (i < LLAM_BROKER_RING_SESSIONS)%nat →
  let w' := (clear_session i w).2 in
  balanced w w' ∧ ∃ s, w_broker w' = Some (with_session b i s) ∧ rs_owns_mapping s = false.
Proof.
  intros Hw Hb Hi. cbn zeta. destruct (rs_owns_mapping (session_at b i)) eqn:Ho.
  - rewrite (clear_session_run _ _ _ Hb Ho). split; [by apply balanced_take_unmap|].
    exists cleared_session. split; [|done].
    by apply (unmap_taken (session_at b i) (set_w_broker (Some (with_session b i cleared_session)) w)), (session_at_ok w).
  - unfold clear_session. mon. rewrite Hb. mon. rewrite Ho.
    split; [reflexivity|]. exists (session_at b i). split; [|done]. mon. rewrite Hb. unfold with_session.
    destruct (Hw b Hb) as [Hl _]. rewrite list_insert_id by (apply session_at_lookup; lia). by destruct b.
Qed.

(** The loop over the sessions leaves none that owns a mapping. *)
Lemma clear_sessions_step w b :
  sessions_ok w → w_broker w = Some b →
  let w' := (for_each LLAM_BROKER_RING_SESSIONS 0 clear_session w).2 in
  balanced w w' ∧ ∃ l, w_broker w' = Some (set_b_ring_sessions l b) ∧ Forall (λ s, rs_owns_mapping s = false) l.
Proof.
  intros Hw Hb w'.
  pose (P := λ (j : nat) (w1 : world), balanced w w1 ∧ ∃ l, w_broker w1 = Some (set_b_ring_sessions l b) ∧
    ∀ i s, (i < j)%nat → l !! i = Some s → rs_owns_mapping s = false).
  assert (P (0 + LLAM_BROKER_RING_SESSIONS)%nat w') as (B&l&Hl&H).
  { apply (for_each_inv P).
    - split; [reflexivity|]. exists (b_ring_sessions b). rewrite Hb. split; [by destruct b|]. intros; lia.
    - intros j w1 Hj (B1&l&Hl&H). destruct (B1 Hw) as (Hw1&_).
      destruct (clear_session_step j w1 _ Hw1 Hl ltac:(lia)) as (B2&s&Hs&Ho).
      split; [by eapply booked_then|]. exists (<[j := s]> l). split; [rewrite Hs; unfold with_session; by destruct b|].
      intros i x Hi Hx. destruct (decide (i = j)) as [->|].
      + apply list_lookup_insert_Some in Hx as [(_&->&_)|[? _]]; done.
      + rewrite list_lookup_insert_ne in Hx by done. apply (H i x); [lia|done]. }
  split; [done|]. exists l. split; [done|]. apply Forall_lookup_2. intros i s Hs. apply (H i s); [|done].
  destruct (B Hw) as (Hw'&_). destruct (Hw' _ Hl) as [Hn _]. cbn in Hn. apply lookup_lt_Some in Hs. lia.
Qed.

Lemma sessions_wiped w b :
  sessions_ok w → w_broker w = Some b →
  let w' := (llam_broker_clear_session_state w).2 in
  balanced w w' ∧
  w_broker w' = Some (set_b_next_transport_subject_nonce 0
    (set_b_transport_sessions (replicate LLAM_BROKER_TRANSPORT_SESSIONS zero_transport_session)
    (set_b_ring_sessions (replicate LLAM_BROKER_RING_SESSIONS zero_ring_session) b))).
Proof.
  intros Hw Hb. cbn zeta. unfold llam_broker_clear_session_state, on_broker. rewrite Hb. unfold mbind, st_bind.
  destruct (clear_sessions_step w b Hw Hb) as (B&l&Hl&H).
  destruct (for_each LLAM_BROKER_RING_SESSIONS 0 clear_session w) as [[] w1]. cbn [fst snd] in *. mon. rewrite Hl. mon.
  split; [|by destruct b]. eapply booked_then; [exact B|]. intros Hw1. split_and!.
  - intros b' Hb'. apply (inj Some) in Hb' as <-. split; [apply length_replicate|by apply Forall_replicate].
  - done.
  - intros k Hk. unfold unowned, owned. cbn [w_broker w_os set_w_broker]. rewrite Hl.
    cbn [res_owned ring_fds mappings b_descriptors b_ring_sessions set_b_next_transport_subject_nonce set_b_transport_sessions set_b_ring_sessions].
    rewrite !(count_if_replicate _ _ zero_ring_session) by done.
    rewrite !(count_if_none _ l); [lia|..]; intros i s Hs; unfold owns_session_fd; by rewrite (Forall_lookup_1 _ _ _ _ H Hs).
Qed.

(** ** What destruction logs *)

(** Only events of one kind are logged. *)
Definition emits (P : event → bool) (w w' : world) : Prop :=
  ∃ es, os_log (w_os w') = es ++ os_log (w_os w) ∧ Forall (λ e, P e = true) es.

#[export] Instance emits_preorder P : PreOrder (emits P).
Proof.
  split; [intros w; by exists []|]. intros x y z (l&H1&F1) (l'&H2&F2). exists (l' ++ l).
  split; [by rewrite H2, H1, app_assoc|by apply Forall_app].
Qed.

Lemma emits_same P w w' : os_log (w_os w') = os_log (w_os w) → emits P w w'.
Proof. intros H. by exists []. Qed.

Lemma emits_log P e : P e = true → pres (emits P) (log e).
Proof. intros H w. exists [e]. by repeat constructor. Qed.

Lemma emits_upd P f : pres (emits P) (upd_broker f).
Proof. intros w. by apply emits_same. Qed.

Lemma emits_silent {A} P (m : M A) : pres silent m → pres (emits P) m.
Proof. intros H w. apply emits_same, H. Qed.

Lemma emits_weaken (P Q : event → bool) w w' : (∀ e, P e = true → Q e = true) → emits P w w' → emits Q w w'.
Proof. intros H (es&E&F). exists es. split; [done|]. by eapply Forall_impl. Qed.

Lemma held_emits r P k w w' :
  (∀ e, P e = true → res_weight r k e = 0) → emits P w w' →
  held r k (os_log (w_os w')) = held r k (os_log (w_os w)).
Proof. intros H (es&->&F). apply held_silent. by eapply Forall_impl. Qed.

Definition task_event (e : event) : bool := match e with EvJoin _ | EvDetach _ => true | _ => false end.

Definition free_event (e : event) : bool := match e with EvFreeBuffer => true | _ => false end.

Definition close_event (e : event) : bool := match e with EvClose _ => true | _ => false end.

Definition table_event (e : event) : bool :=
  match e with EvClose _ | EvUnmap _ | EvUnlink _ | EvFreeBuffer => true | _ => false end.

Ltac emits_walk :=
  repeat first
    [ by apply pres_ret, _
    | by apply pres_gets, _
    | apply emits_upd
    | by apply emits_log
    | apply emits_silent; first [apply pres_silent_lock|by apply pres_silent_pop|by intros ?]
    | apply pres_on_broker; [|intros ?]
    | apply pres_if
    | apply pres_for_each; [apply _|intros ?]
    | apply pres_bind; [apply _| |intros ?]
    | progress case_match ].

Lemma emits_detach t : pres (emits task_event) (llam_detach t).
Proof. unfold llam_detach. emits_walk. Qed.

Lemma emits_join t : pres (emits task_event) (llam_join t).
Proof. unfold llam_join. emits_walk. Qed.


Lemma emits_clear_tasks : pres (emits task_event) llam_broker_clear_tasks.
Proof.
  apply pres_clear_tasks; [apply _|intros; apply emits_upd|apply emits_silent, pres_silent_lock|apply emits_join
    |apply emits_detach|intros; apply emits_silent, pres_silent_compute|by apply emits_silent, pres_silent_pop].
Qed.

Lemma emits_clear_buffers : pres (emits free_event) llam_broker_clear_buffers.
Proof.
  unfold llam_broker_clear_buffers, llam_broker_buffer_slot_reset, llam_broker_buffer_free_data. emits_walk.
Qed.

Lemma emits_clear_descriptors : pres (emits close_event) llam_broker_clear_descriptors.
Proof.
  unfold llam_broker_clear_descriptors, llam_broker_descriptor_close_owned_slot, llam_broker_descriptor_reset_slot,
    sys_close.
  emits_walk.
Qed.

Lemma emits_clear_channels P : pres (emits P) llam_broker_clear_channels.
Proof.
  apply pres_on_broker; [by apply pres_ret, _|]. intros b. destruct (b_channels b); [|by apply pres_ret, _].
  apply pres_for_each; [apply _|]. intros i. apply emits_upd.
Qed.

Lemma emits_clear_sessions : pres (emits table_event) llam_broker_clear_session_state.
Proof.
  unfold llam_broker_clear_session_state, clear_session, llam_broker_ring_session_take_mapping, set_session,
    llam_broker_ring_unmap, sys_munmap, sys_close, sys_shm_unlink.
  emits_walk.
Qed.

(** ** The books of a destruction *)

(** Runtimes, with the broker that runs on one as its owner. *)
Definition runtimes : resource :=
  Resource
    (λ r e, match e with
            | EvRuntimeCreate i => Z.b2z (i =? r)
            | EvRuntimeDestroy i => - Z.b2z (i =? r)
            | _ => 0
            end)
    (λ r b, match b_runtime b with Some i => Z.b2z (i =? r) | None => 0 end).

(** The destruction of the broker of [w] has come to [b]; [d] is the change in
    runtimes. *)
Record closing (d : Z → Z) (w w' : world) (b : broker) : Prop := {
  cl_broker : w_broker w' = Some b;
  cl_fds : balanced w w';
  cl_tasks : ledger task_handles w w';
  cl_runtimes : ∀ r, held runtimes r (os_log (w_os w')) = held runtimes r (os_log (w_os w)) + d r;
}.

(** The tables that own something. *)
Definition owners (b : broker) : list descriptor_slot * list ring_session * list task_slot :=
  (b_descriptors b, b_ring_sessions b, b_tasks b).

Lemma balanced_same w w' b b' :
  w_broker w = Some b → w_broker w' = Some b' →
  b_descriptors b' = b_descriptors b → b_ring_sessions b' = b_ring_sessions b →
  (∀ k, held descriptors k (os_log (w_os w')) = held descriptors k (os_log (w_os w)) ∧
        held mappings k (os_log (w_os w')) = held mappings k (os_log (w_os w))) →
  balanced w w'.
Proof.
  intros Hb Hb' Hd Hs Hk Hw. split_and!.
  - intros b'' Hb''. rewrite Hb' in Hb''. injection Hb'' as <-. rewrite Hs. by apply Hw.
  - by rewrite Hb'.
  - intros k _. destruct (Hk k) as [H1 H2]. unfold unowned, owned. rewrite Hb, Hb', !held_ring_fds.
    cbn [res_owned ring_fds mappings]. rewrite Hd, Hs. lia.
Qed.

Lemma closing_upd d w w' b f :
  (∀ b, owners (f b) = owners b) → closing d w w' b → closing d w (upd_broker f w').2 (f b).
Proof.
  intros Hf [H1 H2 H3 H4]. specialize (Hf b). injection Hf as Hd Hs Ht.
  assert (w_broker (upd_broker f w').2 = Some (f b)) as Hb by (mon; by rewrite H1).
  split; [done| | |done].
  - etrans; [exact H2|]. by eapply balanced_same.
  - etrans; [exact H3|]. intros k _. unfold unowned, owned. rewrite Hb, H1. cbn [res_owned task_handles]. by rewrite Ht.
Qed.

(** Wake-ups and stop requests. *)
Definition signal (e : event) : bool := match e with EvBroadcast | EvStop _ => true | _ => false end.

Lemma closing_log d w w' b e : signal e = true → closing d w w' b → closing d w (log e w').2 b.
Proof.
  intros He [H1 H2 H3 H4]. split; [done| | |].
  - etrans; [exact H2|]. eapply balanced_same; [done..|]. intros k. by destruct e.
  - etrans; [exact H3|]. intros k _. by destruct e.
  - intros r. rewrite <-H4. by destruct e.
Qed.

Lemma closing_tables d w w1 w2 b b' :
  closing d w w1 b → w_broker w2 = Some b' → b_tasks b' = b_tasks b → balanced w1 w2 → emits table_event w1 w2 →
  closing d w w2 b'.
Proof.
  intros [H1 H2 H3 H4] Hb Ht B E. split; [done|by etrans| |].
  - etrans; [exact H3|]. intros k _. unfold unowned, owned. rewrite Hb, H1. cbn [res_owned task_handles]. rewrite Ht.
    rewrite (held_emits task_handles table_event k w1 w2); [done| |done]. by intros [].
  - intros r. rewrite <-H4. apply (held_emits runtimes table_event); [|done]. by intros [].
Qed.

Lemma closing_tasks d w w' b :
  world_ok w' → os_mutex_lock (w_os w') = [] → b_lock_initialized b = true → Forall BrokerTask.tidy (b_tasks b) →
  length (b_tasks b) = LLAM_BROKER_TASK_SLOTS → closing d w w' b →
  closing d w (llam_broker_clear_tasks w').2 (set_b_tasks (replicate LLAM_BROKER_TASK_SLOTS zero_task_slot) b)
  ∧ os_mutex_lock (w_os (llam_broker_clear_tasks w').2) = [].
Proof.
  intros Hok Hm Hl Ht Hn [H1 H2 H3 H4]. pose proof (tasks_wiped w' b H1 Hn) as Hb.
  pose proof (emits_clear_tasks w') as E.
  destruct (proj2 (rel_clear_tasks w') Hok) as [R L].
  { split; [split; [done|]|]; intros b' Hb'; rewrite H1 in Hb'; by injection Hb' as <-. }
  split; [split; [done| | |]|apply R].
  - etrans; [exact H2|]. eapply balanced_same; [exact H1|exact Hb|done..|].
    intros k. split; apply (held_emits _ task_event); try done; by intros [].
  - by etrans.
  - intros r. rewrite <-H4. apply (held_emits runtimes task_event); [|done]. by intros [].
Qed.

(** Clearing the tables of objects. *)
Lemma closing_buffers d w w' b :
  length (b_buffers b) = LLAM_BROKER_BUFFER_SLOTS → closing d w w' b →
  closing d w (llam_broker_clear_buffers w').2 (set_b_buffers (replicate LLAM_BROKER_BUFFER_SLOTS zero_buffer_slot) b).
Proof.
  intros Hn H. destruct (H) as [H1 _ _ _]. pose proof (buffers_wiped w' b H1 Hn) as Hb.
  pose proof (emits_clear_buffers w') as E.
  eapply closing_tables; [exact H|exact Hb|done| |eapply emits_weaken; [|exact E]; by intros []].
  eapply balanced_same; [exact H1|exact Hb|done..|].
  intros k. split; apply (held_emits _ free_event); try done; by intros [].
Qed.

Lemma balanced_fds w w' b b' :
  w_broker w = Some b → w_broker w' = Some b' → b_ring_sessions b' = b_ring_sessions b → ledger descriptors w w' →
  (∀ k, held mappings k (os_log (w_os w')) = held mappings k (os_log (w_os w))) → balanced w w'.
Proof.
  intros Hb Hb' Hs Hl Hk Hw. split_and!.
  - intros b'' Hb''. rewrite Hb' in Hb''. injection Hb'' as <-. rewrite Hs. by apply Hw.
  - by rewrite Hb'.
  - intros k H0. specialize (Hl k H0). unfold unowned, owned in *. rewrite Hb, Hb' in *. rewrite !held_ring_fds, Hk.
    cbn [res_owned ring_fds mappings descriptors] in *. rewrite Hs. lia.
Qed.

Lemma closing_descriptors d w w' b :
  length (b_descriptors b) = LLAM_BROKER_DESCRIPTOR_SLOTS → closing d w w' b →
  closing d w (llam_broker_clear_descriptors w').2
    (set_b_descriptors (replicate LLAM_BROKER_DESCRIPTOR_SLOTS reset_descriptor_slot) b).
Proof.
  intros Hn H. destruct (H) as [H1 _ _ _]. pose proof (descriptors_wiped w' b H1 Hn) as Hb.
  pose proof (emits_clear_descriptors w') as E.
  eapply closing_tables; [exact H|exact Hb|done| |eapply emits_weaken; [|exact E]; by intros []].
  eapply balanced_fds; [exact H1|exact Hb|done|apply ledger_clear|].
  intros k. apply (held_emits _ close_event); [by intros []|done].
Qed.

Lemma closing_channels d w w' b :
  (∀ l, b_channels b = Some l → length l = LLAM_BROKER_CHANNEL_SLOTS) → closing d w w' b →
  ∃ l, closing d w (llam_broker_clear_channels w').2 (set_b_channels l b).
Proof.
  intros Hn H. destruct (H) as [H1 _ _ _]. pose proof (emits_clear_channels (λ _, false) w') as E.
  assert (∃ l, w_broker (llam_broker_clear_channels w').2 = Some (set_b_channels l b)) as [l Hb].
  { destruct (b_channels b) as [l|] eqn:Hl; [eexists; eapply channels_wiped; [exact H1|exact Hl|by apply Hn]|].
    exists None. unfold llam_broker_clear_channels, on_broker. rewrite H1, Hl. cbn. rewrite H1, <-Hl. by destruct b. }
  exists l. eapply closing_tables; [exact H|exact Hb|done| |eapply emits_weaken; [|exact E]; done].
  eapply balanced_same; [exact H1|exact Hb|done..|].
  intros k. by split; apply (held_emits _ (λ _, false)).
Qed.

Lemma closing_sessions d w w' b :
  sessions_ok w' → closing d w w' b →
  closing d w (llam_broker_clear_session_state w').2
    (set_b_next_transport_subject_nonce 0
      (set_b_transport_sessions (replicate LLAM_BROKER_TRANSPORT_SESSIONS zero_transport_session)
        (set_b_ring_sessions (replicate LLAM_BROKER_RING_SESSIONS zero_ring_session) b))).
Proof.
  intros Hs H. destruct (H) as [H1 _ _ _]. destruct (sessions_wiped w' b Hs H1) as [B Hb].
  eapply closing_tables; [exact H|exact Hb|done|exact B|apply emits_clear_sessions].
Qed.

Lemma closing_runtime d w w' b i :
  closing d w w' b → closing (λ r, d r - Z.b2z (i =? r)) w (llam_runtime_destroy i w').2 b.
Proof.
  intros [H1 H2 H3 H4]. split; [done| | |].
  - etrans; [exact H2|]. by eapply balanced_same.
  - etrans; [exact H3|]. by intros k _.
  - intros r. unfold llam_runtime_destroy. cbn [log modify fst snd w_os set_w_os held]. cbn. rewrite H4. lia.
Qed.

Lemma wp_closing {A B} (m : M A) (k : A → M B) Q d w w' b :
  closing d w (m w').2 b → (∀ a w1, closing d w w1 b → wp (k a) Q w1) → wp (m ≫= k) Q w'.
Proof. intros H Hk. apply wp_bind. by apply Hk. Qed.

Lemma wp_closing_upd {B} f (k : unit → M B) Q d w w' b :
  (∀ b, owners (f b) = owners b) → closing d w w' b → (∀ w1, closing d w w1 (f b) → wp (k tt) Q w1) →
  wp (upd_broker f ≫= k) Q w'.
Proof. intros Hf H Hk. eapply wp_closing; [by apply closing_upd|]. intros []. by apply Hk. Qed.

Lemma wp_closing_broker {B} (k : broker → M B) Q d w w' b :
  closing d w w' b → wp (k b) Q w' → wp (the_broker ≫= k) Q w'.
Proof. intros [H1 _ _ _] Hk. by apply (wp_the_broker _ _ _ b). Qed.

(** What is left of a broker: blank storage, the descriptors marked invalid. *)
Definition dead_broker (addr : Z) : broker :=
  set_b_descriptors (replicate LLAM_BROKER_DESCRIPTOR_SLOTS reset_descriptor_slot) (blank_broker addr).

Definition runtime_count (runtime : option Z) (r : Z) : Z :=
  match runtime with Some i => Z.b2z (i =? r) | None => 0 end.

(** A broker out of service, drained of tasks and operations. *)
Record drained (b : broker) : Prop := {
  dr_sized : tables_sized b;
  dr_sessions : length (b_ring_sessions b) = LLAM_BROKER_RING_SESSIONS ∧ Forall session_ok (b_ring_sessions b);
  dr_tasks : b_tasks b = replicate LLAM_BROKER_TASK_SLOTS zero_task_slot;
  dr_runtime : b_runtime b = None;
  dr_counts : b_active_ops b = 0 ∧ b_destroy_waiters b = 0;
  dr_flags : b_initialized b = false ∧ b_destroying b = false ∧ b_lock_initialized b = true;
}.

Lemma set_cond_id b : b_idle_cond_initialized b = false → set_b_idle_cond_initialized false b = b.
Proof. intros H. destruct b. cbn in H. by subst. Qed.

Lemma teardown_closing w w' b runtime :
  drained b → closing none w w' b →
  wp (teardown runtime) (λ _ w2, closing (λ r, - runtime_count runtime r) w w2 (dead_broker (b_addr b))) w'.
Proof.
  intros [[Z1 Z2 Z3 Z4] D2 D3 D4 [D5 D6] (D7&D8&D9)] H. unfold teardown.
  eapply wp_closing; [apply closing_buffers; [|exact H]; exact Z1|]. intros _ w1 H1. clear H.
  eapply wp_closing; [apply closing_descriptors; [|exact H1]; exact Z2|]. intros _ w2 H2. clear H1.
  edestruct closing_channels as [l H2']; [|exact H2|]; [exact Z3|].
  eapply wp_closing; [exact H2'|]. intros _ w3 H3. clear H2 H2'.
  eapply wp_closing_upd; [done|exact H3|]. intros w4 H4. clear H3.
  eapply wp_closing; [apply closing_sessions; [|exact H4]|].
  { destruct H4 as [Hb _ _ _]. intros b' Hb'. rewrite Hb in Hb'. by injection Hb' as <-. }
  intros _ w5 H5. clear H4. do 6 (eapply wp_closing_upd; [done|eassumption|]; clear dependent w5; intros w5 H5).
  eapply (wp_closing _ _ _ (λ r, - runtime_count runtime r) w).
  { destruct runtime as [i|]; [|exact H5].
    pose proof (closing_runtime _ _ _ _ i H5) as [A1 A2 A3 A4]. by split. }
  intros _ w6 H6. clear dependent w5. eapply wp_closing_broker; [exact H6|].
  match goal with H : closing _ _ w6 ?b6 |- _ =>
    eapply (wp_closing _ _ _ (λ r, - runtime_count runtime r) w _ (set_b_idle_cond_initialized false b6)) end.
  { case_match; [by apply closing_upd|]. rewrite set_cond_id by done. exact H6. }
  intros _ w7 H7. clear dependent w6. eapply wp_closing_broker; [exact H7|].
  match goal with |- context [if b_lock_initialized ?b7 then _ else _] => change (b_lock_initialized b7) with (b_lock_initialized b) end.
  rewrite D9. unfold wp.
  pose proof (closing_upd _ _ _ _ (set_b_lock_initialized false) ltac:(done) H7) as H8.
  eapply eq_ind; [exact H8|]. clear H7 H8.
  destruct b as [f0 f1 f2 f3 f4 f5 f6 f7 f8 f9 f10 f11 f12 f13 f14 f15 f16 f17 f18 f19 f20]; cbn [b_tasks b_runtime b_active_ops b_destroy_waiters b_initialized b_destroying] in D3, D4, D5, D6, D7, D8.
  subst. reflexivity.
Qed.

(** ** Waiting for others *)

(** A step of other threads while a destroyer waits: operations go on and end, but
    the broker is neither created nor destroyed, keeps what it owns, and the pins and
    waiters stay counts.  Nothing but waiting goes on at a broker out of service. *)
Record polite (b b' : broker) : Prop := {
  po_addr : b_addr b' = b_addr b;
  po_runtime : b_runtime b' = b_runtime b;
  po_flags : b_initialized b' = b_initialized b ∧ b_destroying b' = b_destroying b ∧
    b_lock_initialized b' = b_lock_initialized b ∧ b_idle_cond_initialized b' = b_idle_cond_initialized b;
  po_sized : tables_sized b → tables_sized b';
  po_sessions : length (b_ring_sessions b) = LLAM_BROKER_RING_SESSIONS ∧ Forall session_ok (b_ring_sessions b) →
    length (b_ring_sessions b') = LLAM_BROKER_RING_SESSIONS ∧ Forall session_ok (b_ring_sessions b');
  po_tidy : Forall BrokerTask.tidy (b_tasks b) → Forall BrokerTask.tidy (b_tasks b');
  po_owned : ∀ k, res_owned ring_fds k b' = res_owned ring_fds k b ∧
    res_owned mappings k b' = res_owned mappings k b ∧ res_owned task_handles k b' = res_owned task_handles k b;
  po_active : 0 <= b_active_ops b < LLAM_BROKER_ACTIVE_OP_BUSY_SENTINEL →
    0 <= b_active_ops b' < LLAM_BROKER_ACTIVE_OP_BUSY_SENTINEL;
  po_waiters : 0 <= b_destroy_waiters b → 0 <= b_destroy_waiters b';
  po_retired : b_initialized b = false → b_active_ops b = 0 → b' = set_b_destroy_waiters (b_destroy_waiters b') b;
}.

#[export] Instance polite_preorder : PreOrder polite.
Proof.
  split; [intros b; split; try done; intros _ _; by destruct b|].
  intros x y z [A1 A2 (A3&A4&A5&A6) A7 A8 A9 A10 A11 A12 A13] [B1 B2 (B3&B4&B5&B6) B7 B8 B9 B10 B11 B12 B13].
  split; [congruence|congruence|split_and!; congruence|auto..| | | |].
  - intros k. destruct (A10 k) as (?&?&?), (B10 k) as (?&?&?). split_and!; congruence.
  - auto.
  - auto.
  - intros Hi Ha. specialize (A13 Hi Ha). rewrite B13; [rewrite A13; by destruct x|congruence|by rewrite A13].
Qed.

Lemma closing_polite d w w' b f :
  polite b (f b) → closing d w w' b → closing d w (upd_broker f w').2 (f b).
Proof.
  intros P [H1 H2 H3 H4]. assert (w_broker (upd_broker f w').2 = Some (f b)) as Hb by (mon; by rewrite H1).
  split; [done| | |done].
  - etrans; [exact H2|]. intros Hw. split_and!.
    + intros b' Hb'. rewrite Hb in Hb'. injection Hb' as <-. by apply (po_sessions _ _ P), Hw.
    + by rewrite Hb.
    + intros k _. destruct (po_owned _ _ P k) as (E1&E2&_). unfold unowned, owned. rewrite Hb, H1, E1, E2.
      cbn [upd_broker modify fst snd w_os set_w_broker]. lia.
  - etrans; [exact H3|]. intros k _. destruct (po_owned _ _ P k) as (_&_&E). unfold unowned, owned. by rewrite Hb, H1, E.
Qed.

(** Nothing but the broker and the tape of waits changed. *)
Definition waited (w w' : world) : Prop :=
  w_tls w' = w_tls w ∧ os_mutex_lock (w_os w') = os_mutex_lock (w_os w).

#[export] Instance waited_preorder : PreOrder waited.
Proof. split; [by intros w|]. unfold waited. intros x y z [] []. split; congruence. Qed.

Section waiting.
Context (waiting overflow : broker → bool) (last : broker → broker).
Context (last_polite : ∀ b, polite b (last b)) (last_done : ∀ b, waiting (last b) = false).

Lemma wait_while_ends d w fuel : ∀ w' b,
  closing d w w' b → (length (os_wait (w_os w')) + 1 < fuel)%nat →
  Forall (λ f, ∀ b, polite b (f b)) (os_wait (w_os w')) →
  0 <= b_active_ops b < LLAM_BROKER_ACTIVE_OP_BUSY_SENTINEL →
  (∀ b', polite b b' → overflow b' = false) →
  wp (wait_while fuel waiting overflow last)
     (λ ok w2, ok = true ∧ waited w' w2 ∧
        (Forall (λ f, ∀ b, polite b (f b)) (os_wait (w_os w2))) ∧
        ∃ b2, closing d w w2 b2 ∧ polite b b2 ∧ waiting b2 = false) w'.
Proof.
  induction fuel as [|fuel IH]; intros w' b H Hf Hp Ha Ho; [lia|]. cbn [wait_while].
  eapply wp_closing_broker; [exact H|]. destruct (waiting b) eqn:Hw; cbn [negb].
  2: { apply wp_ret. split_and!; [done|reflexivity|done|]. by exists b. }
  rewrite (Ho b ltac:(reflexivity)). unfold cond_wait. apply wp_bind, wp_bind.
  unfold wp at 1, pop. destruct (os_wait (w_os w')) as [|f tape] eqn:Ht; cbn [fst snd].
  - pose proof (closing_polite d w w' b last (last_polite b) H) as H1.
    destruct fuel as [|fuel]; [cbn in Hf; lia|]. unfold wp at 1. cbn [wait_while].
    eapply wp_closing_broker; [exact H1|]. rewrite last_done. apply wp_ret.
    split_and!; [done|done|by cbn; rewrite Ht; constructor|]. exists (last b). split_and!; [done|apply last_polite|apply last_done].
  - apply Forall_cons in Hp as [P Hp]. set (w1 := set_w_os (set_os_wait tape (w_os w')) w').
    assert (closing d w w1 b) as H1 by (destruct H; by split).
    pose proof (closing_polite d w w1 b f (P b) H1) as H2. unfold wp at 1.
    eapply wp_mono; [apply (IH _ (f b) H2)|].
    + cbn. cbn in Hf. lia.
    + exact Hp.
    + by apply (po_active _ _ (P b)).
    + intros b' Hb'. apply Ho. etrans; [apply P|done].
    + intros ok w2 (?&W&?&b2&?&?&?). split_and!; [done|exact W|done|]. exists b2. split_and!; [done|by etrans; [apply P|]|done].
Qed.
End waiting.

Lemma waits_clear_tasks : pres (on_tape os_wait) llam_broker_clear_tasks.
Proof.
  apply pres_clear_tasks; [apply _|..]; intros;
    unfold llam_broker_lock, llam_join, llam_detach, llam_broker_task_compute, llam_sleep_ns; tape_walk. all: by intros w.
Qed.

(** ** Destruction *)

(** A broker in service that its destroyer may wait for. *)
Record in_service (b : broker) : Prop := {
  is_sized : tables_sized b;
  is_sessions : length (b_ring_sessions b) = LLAM_BROKER_RING_SESSIONS ∧ Forall session_ok (b_ring_sessions b);
  is_tidy : Forall BrokerTask.tidy (b_tasks b);
  is_flags : b_initialized b = true ∧ b_lock_initialized b = true ∧ b_idle_cond_initialized b = true;
  is_active : 0 <= b_active_ops b < LLAM_BROKER_ACTIVE_OP_BUSY_SENTINEL;
  is_waiters : 0 <= b_destroy_waiters b;
}.

Lemma in_service_polite b b' : polite b b' → in_service b → in_service b'.
Proof.
  intros [A1 A2 (A3&A4&A5&A6) A7 A8 A9 A10 A11 A12 _] [B1 B2 B3 (B4&B5&B6) B7 B8].
  split; [auto..|split_and!; congruence|auto|auto].
Qed.

Lemma polite_active b : polite b (set_b_active_ops 0 b).
Proof. split; try done; [by intros []; split|]. destruct b. cbn. intros _ H. by subst. Qed.

Lemma polite_waiters b : polite b (set_b_destroy_waiters 0 b).
Proof. split; try done. by intros []; split. Qed.

Abbreviation polite_steps w := (Forall (λ f, ∀ b, polite b (f b)) (os_wait (w_os w))).

Lemma drain_closing w w' b :
  closing none w w' b → world_ok w' → os_mutex_lock (w_os w') = [] → polite_steps w' →
  in_service b → b_active_ops b = 0 →
  wp drain_and_teardown
     (λ _ w2, closing (λ r, - runtime_count (b_runtime b) r) w w2 (dead_broker (b_addr b))) w'.
Proof.
  intros H Hok Hm Hp [S1 S2 S3 (S4&S5&S6) S7 S8] Ha. unfold drain_and_teardown.
  eapply wp_closing_broker; [exact H|]. apply wp_bind, wp_ret. apply wp_bind.
  assert (wp (match b_runtime b with Some r => llam_request_stop r | None => mret tt end)
    (λ _ w1, closing none w w1 b ∧ world_ok w1 ∧ os_mutex_lock (w_os w1) = [] ∧ polite_steps w1) w') as Hstop.
  { destruct (b_runtime b); [|by apply wp_ret]. split_and!; [by apply closing_log|done..]. }
  eapply wp_mono; [exact Hstop|]. clear Hstop H Hok Hm Hp. intros _ w1 (H&Hok&Hm&Hp). apply wp_bind.
  destruct (closing_tasks _ _ _ _ Hok Hm S5 S3 (tz_tasks _ S1) H) as [H2 Hm2].
  pose proof (waits_clear_tasks w1) as Hw. unfold on_tape in Hw. rewrite <-Hw in Hp.
  unfold wp at 1. set (w2 := (llam_broker_clear_tasks w1).2) in *. clearbody w2. clear w1 H Hok Hm Hw.
  apply wp_bind. unfold wp at 1. rewrite (lock_free _ _ (cl_broker _ _ _ _ H2) S5 Hm2). cbn [fst snd negb Z.eqb].
  apply wp_bind. pose proof (closing_upd _ _ _ _ (set_b_initialized false) ltac:(done) H2) as H3. unfold wp at 1.
  apply wp_bind. pose proof (closing_upd _ _ _ _ (set_b_runtime None) ltac:(done) H3) as H4. unfold wp at 1.
  set (w4 := (upd_broker (set_b_runtime None) _).2) in *. assert (polite_steps w4) as Hp4 by exact Hp.
  clearbody w4. clear H2 H3 Hp Hm2 w2.
  eapply wp_closing_broker; [exact H4|]. cbn [b_idle_cond_initialized set_b_runtime set_b_initialized set_b_tasks]. rewrite S6.
  apply wp_bind. pose proof (closing_log _ _ _ _ EvBroadcast eq_refl H4) as H5. unfold wp at 1.
  apply wp_bind. unfold wait_for. apply wp_bind. unfold wp at 1. cbn [gets fst snd].
  eapply wp_mono; [apply (wait_while_ends (λ b, (0 <? b_destroy_waiters b) && b_idle_cond_initialized b) _ (set_b_destroy_waiters 0)
    polite_waiters ltac:(done) _ _ _ _ _ H5)|]; [cbn; lia|exact Hp4|exact S7|done|].
  intros ok w6 (_&_&_&b6&H6&P6&W6).
  eapply wp_closing_upd; [done|exact H6|]. intros w7 H7. apply wp_bind, wp_ret.
  rewrite (po_retired _ _ P6 eq_refl Ha) in *. set (n := b_destroy_waiters b6) in *.
  pose proof (po_waiters _ _ P6 S8) as Hn. fold n in Hn.
  cbn [b_idle_cond_initialized b_destroy_waiters set_b_destroy_waiters set_b_runtime set_b_initialized set_b_tasks] in W6. rewrite S6, andb_true_r in W6. apply Z.ltb_ge in W6. clearbody n.
  refine (teardown_closing w w7 _ (b_runtime b) _ H7). destruct S1 as [Z1 Z2 Z3 Z4].
  split; [split; [done..|apply length_replicate]|done|done|done|split; [done|cbn; lia]|done].
Qed.

Lemma destroy_closing w b :
  w_broker w = Some b → world_ok w → os_mutex_lock (w_os w) = [] → polite_steps w →
  in_service b → b_destroying b = false → tls_has_op (b_addr b) (w_tls w) = false →
  closing (λ r, - runtime_count (b_runtime b) r) w (llam_broker_destroy w).2 (dead_broker (b_addr b)).
Proof.
  intros Hb Hok Hm Hp Hs Hd Ht. destruct (Hs) as [_ _ _ (S4&S5&S6) S7 _].
  assert (closing none w w b) as H0 by (split; [done|reflexivity|reflexivity|intros; lia]).
  enough (wp llam_broker_destroy
    (λ _ w', closing (λ r, - runtime_count (b_runtime b) r) w w' (dead_broker (b_addr b))) w) by done.
  unfold llam_broker_destroy. eapply wp_on_broker; [exact Hb|]. rewrite S5. cbn [negb].
  apply wp_bind. unfold wp at 1. rewrite (lock_free w b Hb S5 Hm). cbn [fst snd negb Z.eqb].
  eapply wp_closing_broker; [exact H0|]. rewrite S4. cbn [negb].
  apply wp_bind. unfold llam_broker_current_thread_has_op. eapply wp_on_broker; [exact Hb|].
  apply wp_bind. unfold wp at 1. cbn [gets fst snd]. apply wp_ret. rewrite Ht, Hd.
  rewrite (proj2 (Z.leb_gt _ _)) by lia.
  apply wp_bind. pose proof (closing_upd _ _ _ _ (set_b_destroying true) ltac:(done) H0) as H1. unfold wp at 1.
  apply wp_bind. unfold wait_for. apply wp_bind. unfold wp at 1. cbn [gets fst snd].
  eapply wp_mono; [apply (wait_while_ends (λ b, (0 <? b_active_ops b) && b_idle_cond_initialized b) _ (set_b_active_ops 0)
    polite_active ltac:(done) _ _ _ _ _ H1)|]; [cbn; lia|exact Hp|exact S7| |].
  { intros b' P. apply Z.leb_gt. by apply (po_active _ _ P). }
  intros ok w2 (->&[T2 L2]&P2&b2&H2&Pb&W2). cbn [negb].
  assert (in_service b2) as I2.
  { eapply in_service_polite; [exact Pb|]. destruct Hs as [[] ? ? ? ? ?]. by split; [split|..]. }
  assert (world_ok w2) as Hok2.
  { destruct Hok as [T N]. split; [by rewrite T2|]. intros b' Hb'. rewrite (cl_broker _ _ _ _ H2) in Hb'.
    injection Hb' as <-. rewrite (po_addr _ _ Pb). exact (N b Hb). }
  assert (b_active_ops b2 = 0) as Ha2.
  { destruct I2 as [_ _ _ (_&_&C) A _]. rewrite C, andb_true_r in W2. apply Z.ltb_ge in W2. lia. }
  pose proof (drain_closing w w2 b2 H2 Hok2 ltac:(by rewrite L2) P2 I2 Ha2) as D.
  rewrite (po_runtime _ _ Pb), (po_addr _ _ Pb) in D. exact D.
Qed.

Lemma dead_owns_nothing r k a :
  r ∈ [ring_fds; mappings; task_handles; runtimes] → 0 <= k → res_owned r k (dead_broker a) = 0.
Proof.
  intros Hr Hk. apply list_elem_of_In in Hr. destruct Hr as [<-|[<-|[<-|[<-|[]]]]]; [..|done].
  - cbn [res_owned ring_fds dead_broker b_descriptors set_b_descriptors b_ring_sessions blank_broker].
    rewrite !count_if_replicate; done.
  - by apply count_if_replicate.
  - apply count_if_replicate, is_handle_0.
Qed.

Lemma destroy_held w b :
  w_broker w = Some b → world_ok w → os_mutex_lock (w_os w) = [] → polite_steps w →
  in_service b → b_destroying b = false → tls_has_op (b_addr b) (w_tls w) = false →
  let w' := (llam_broker_destroy w).2 in
  w_broker w' = Some (dead_broker (b_addr b)) ∧
  ∀ r k, r ∈ [ring_fds; mappings; task_handles; runtimes] → 0 <= k →
    held r k (os_log (w_os w')) = held r k (os_log (w_os w)) - res_owned r k b.
Proof.
  intros Hb Hok Hm Hp Hs Hd Ht w'.
  destruct (destroy_closing w b Hb Hok Hm Hp Hs Hd Ht) as [C1 C2 C3 C4]. fold w' in C1, C2, C3, C4.
  assert (sessions_ok w) as Hw by (intros b' Hb'; rewrite Hb in Hb'; injection Hb' as <-; apply Hs).
  split; [done|]. intros r k Hr Hk. destruct (C2 Hw) as (_&_&C5). destruct (C5 k Hk) as [F1 F2].
  specialize (C3 k Hk). specialize (C4 k). unfold unowned, owned in *. rewrite C1, Hb in *.
  rewrite !dead_owns_nothing in F1, F2, C3 by set_solver.
  apply list_elem_of_In in Hr. destruct Hr as [<-|[<-|[<-|[<-|[]]]]]; [lia..|exact C4].
Qed.


(** A broker with a descriptor, one operation in flight when its destroyer comes. *)
Definition busy_broker : broker := set_b_active_ops 1 descriptor_broker.

Definition busy_world : world :=
  set_w_broker (Some busy_broker) (set_w_os (set_os_wait [set_b_active_ops 0] quiet_os) example_world).

Lemma busy_in_service : in_service busy_broker.
Proof.
  split; try done.
  - split; [apply length_replicate|reflexivity| |apply length_replicate].
    intros l Hl. injection Hl as <-. reflexivity.
  - split; [apply length_replicate|by apply Forall_replicate].
  - apply Forall_replicate. by right.
Qed.

Lemma busy_world_ok : world_ok busy_world.
Proof. split; [apply idle_tls_wf|]. intros b Hb. by injection Hb as <-. Qed.

