(* ===== verification/System.v ===== *)
(** * A broker process

    The operations of the broker composed into runs of a whole process: any number of
    threads call any entry point in any order, runtime tasks run in between, and both
    the environment and the clients that share memory with the broker move as they
    like.  The theorems carry the invariants of the components over such runs, and from
    creation to destruction. *)

From S2P Require Import Prelude Mix World Capability BrokerOps BrokerCore BrokerBuffer BrokerChannel.
From S2P Require Import BrokerRevoke BrokerDescriptor BrokerTask Ring RingMap BrokerSession Rollback BrokerFrame.
From S2P Require Import RingServe Advance Books Wire Codec Message Serve Lifecycle.

(** ** Calls *)

(** The entry points of the broker, with their arguments. *)
Inductive call :=
  | CallBegin (subject_id : Z)
  | CallEnd
  | CallValidate (token : option capability_token) (rights : Z)
  | CallAttenuate (token : option capability_token) (rights : Z) (out : option capability_token)
  | CallRevoke (token : option capability_token) (rights : Z) (out : option capability_token)
  | CallRevokeAll
  | CallRegisterBuffer (data : option (list Z)) (length rights : Z) (out : option capability_token)
  | CallReadBuffer (token : option capability_token) (offset : Z) (out : option (list Z)) (length : Z)
  | CallWriteBuffer (token : option capability_token) (offset : Z) (data : option (list Z)) (length : Z)
  | CallCreateChannel (capacity rights : Z) (out : option capability_token)
  | CallChannelSend (token : option capability_token) (data : option (list Z)) (length : Z)
  | CallChannelRecv (token : option capability_token) (out : option (list Z)) (capacity : Z)
  | CallChannelClose (token : option capability_token)
  | CallReadHandle (token : option capability_token) (out : option (list Z)) (length : Z)
  | CallWriteHandle (token : option capability_token) (data : option (list Z)) (length : Z)
  | CallSpawn (kind arg0 rights : Z) (out : option capability_token)
  | CallJoin (token : option capability_token) (out : option Z)
  | CallDetach (token : option capability_token)
  | CallRunTasks
  | CallTransportSubject (transport_id : Z) (out : option Z)
  | CallForgetTransport (transport_id : Z)
  | CallForgetSession (session_id subject_id : Z)
  | CallServeSession (session_id subject_id max_requests : Z) (out_should_close : option Z)
  | CallServeOneFd (fd : Z) (out_should_close : option bool)
  | CallServeFd (fd : Z)
  | CallServeLocal (path : option (list Z)) (max_connections : Z).

(** The call as a program; results are the callers' business. *)
Definition perform (c : call) : M unit :=
  match c with
  | CallBegin subject_id => llam_broker_begin_op_subject subject_id ;; mret tt
  | CallEnd => llam_broker_end_op
  | CallValidate token rights => llam_broker_validate_cap token rights ;; mret tt
  | CallAttenuate token rights out => llam_broker_attenuate_cap token rights out ;; mret tt
  | CallRevoke token rights out => llam_broker_revoke_object_cap token rights out ;; mret tt
  | CallRevokeAll => llam_broker_revoke_all ;; mret tt
  | CallRegisterBuffer data length rights out => llam_broker_register_buffer data length rights out ;; mret tt
  | CallReadBuffer token offset out length => llam_broker_read_buffer token offset out length ;; mret tt
  | CallWriteBuffer token offset data length => llam_broker_write_buffer token offset data length ;; mret tt
  | CallCreateChannel capacity rights out => llam_broker_create_channel capacity rights out ;; mret tt
  | CallChannelSend token data length => llam_broker_channel_send token data length ;; mret tt
  | CallChannelRecv token out capacity => llam_broker_channel_recv token out capacity ;; mret tt
  | CallChannelClose token => llam_broker_channel_close token ;; mret tt
  | CallReadHandle token out length => llam_broker_read_handle token out length ;; mret tt
  | CallWriteHandle token data length => llam_broker_write_handle token data length ;; mret tt
  | CallSpawn kind arg0 rights out => llam_broker_spawn_task kind arg0 rights out ;; mret tt
  | CallJoin token out => llam_broker_join_task token out ;; mret tt
  | CallDetach token => llam_broker_detach_task token ;; mret tt
  | CallRunTasks => llam_runtime_run_handle
  | CallTransportSubject transport_id out => llam_broker_transport_subject transport_id out ;; mret tt
  | CallForgetTransport transport_id => llam_broker_forget_transport_subject transport_id
  | CallForgetSession session_id subject_id => llam_broker_ring_forget_session session_id subject_id ;; mret tt
  | CallServeSession session_id subject_id max_requests out =>
      llam_broker_ring_serve_session_batch session_id subject_id max_requests out ;; mret tt
  | CallServeOneFd fd out => llam_broker_serve_one_fd fd out ;; mret tt
  | CallServeFd fd => llam_broker_serve_fd fd ;; mret tt
  | CallServeLocal path max_connections => llam_broker_serve_local_n path max_connections ;; mret tt
  end.

(** Sizes and offsets are [size_t]. *)
Definition call_wf (c : call) : Prop :=
  match c with
  | CallRegisterBuffer _ length _ _ | CallReadBuffer _ _ _ length | CallChannelSend _ _ length
  | CallChannelRecv _ _ length | CallReadHandle _ _ length | CallCreateChannel length _ _ => is_u64 length
  | CallWriteBuffer _ offset _ length => is_u64 offset ∧ is_u64 length
  | CallForgetSession session_id _ => is_u64 session_id
  | _ => True
  end.

(** ** Runs *)

(** The shared world, and the frames of the threads. *)
Record system := System { s_world : world; s_threads : list (list tls_op) }.

(** The world as the thread with frames [tls] sees it. *)
Definition seen_by (s : system) (tls : list tls_op) : world := set_w_tls tls (s_world s).

(** A thread makes a call, or the environment moves: system calls to come, errno and
    the memory shared with clients are anything. *)
Inductive sys_step (s : system) : system → Prop :=
  | sys_call t tls c w' :
      s_threads s !! t = Some tls → call_wf c → (perform c (seen_by s tls)).2 = w' →
      sys_step s (System w' (<[t := w_tls w']> (s_threads s)))
  | sys_environment o e rings :
      os_log o = os_log (w_os (s_world s)) →
      sys_step s (System (set_w_os o (set_w_errno e (set_w_rings rings (s_world s)))) (s_threads s)).

(** The broker of a system, in order. *)
Record sys_ok (s : system) (b : broker) : Prop := {
  so_broker : w_broker (s_world s) = Some b;
  so_addr : b_addr b ≠ 0;
  so_ok : broker_ok b;
  so_sessions : length (b_ring_sessions b) = LLAM_BROKER_RING_SESSIONS ∧ Forall session_ok (b_ring_sessions b);
  so_threads : ∀ t tls, s_threads s !! t = Some tls → tls_wf tls;
}.

(** From [s] to [s'] the broker only moved forward, and the process holds what it
    held beyond what the broker owns. *)
Record sys_le (s s' : system) (b b' : broker) : Prop := {
  sy_le : broker_le b b';
  sy_shape : shape b' = shape b;
  sy_books : balanced (s_world s) (s_world s');
}.

Lemma tidy_forget {A} (m : M A) w : tidy w (m w).2 → tidy w ((m ;; mret tt) w).2.
Proof. unfold mbind, st_bind. by destruct (m w). Qed.

Lemma tidy_of {A} (m : M A) w : pres tidy m → tidy w (m w).2.
Proof. intros H. apply H. Qed.

Lemma balanced_epoch e : pres balanced (upd_broker (set_b_revocation_epoch e)).
Proof.
  intros w. destruct (w_broker w) as [b|] eqn:Hb.
  - apply (balanced_same w _ b (set_b_revocation_epoch e b)); try done. mon. by rewrite Hb.
  - intros Hw. split_and!; [|by rewrite Hb; intros []|intros k _; unfold unowned, owned; mon; rewrite Hb; cbn; lia].
    intros b'. mon. by rewrite Hb.
Qed.

Lemma tidy_revoke_all : pres tidy llam_broker_revoke_all.
Proof.
  apply pres_tidy; [auto with llam_advance|]. unfold llam_broker_revoke_all.
  repeat first
    [ by apply pres_ret, _ | by apply pres_gets, _ | apply balanced_epoch | apply pres_balanced_errno
    | apply pres_balanced_begin | apply pres_balanced_end | apply pres_if
    | apply pres_bind; [apply _| |intros ?] ].
Qed.

Lemma perform_tidy c w : call_wf c → open_books w → tidy w (perform c w).2.
Proof.
  intros Hc Hw. destruct c; cbn [call_wf perform] in *; try apply tidy_forget.
  all: match goal with
  | |- tidy _ (llam_broker_begin_op_subject _ _).2 => apply tidy_of, tidy_begin
  | |- tidy _ (llam_broker_revoke_object_cap _ _ _ _).2 => apply tidy_of, tidy_revoke
  | |- tidy _ (llam_broker_revoke_all _).2 => apply tidy_of, tidy_revoke_all
  | |- tidy _ (llam_broker_read_handle _ _ _ _).2 => apply tidy_of, tidy_read_handle; unfold is_u64 in *; lia
  | |- tidy _ (llam_broker_write_handle _ _ _ _).2 => apply tidy_of, tidy_write_handle
  | |- tidy _ (llam_broker_transport_subject _ _ _).2 => apply tidy_of, tidy_transport_subject
  | |- tidy _ (llam_broker_forget_transport_subject _ _).2 => apply tidy_of, tidy_forget_transport
  | |- tidy _ (llam_broker_ring_forget_session _ _ _).2 => apply tidy_of, tidy_forget_session; unfold is_u64 in *; lia
  | |- tidy _ (llam_broker_ring_serve_session_batch _ _ _ _ _).2 => apply tidy_of, tidy_serve_session
  | |- tidy _ (llam_broker_serve_one_fd _ _ _).2 => by apply serve_one_fd_books
  | |- tidy _ (llam_broker_serve_fd _ _).2 => by apply serve_fd_books
  | |- tidy _ (llam_broker_serve_local_n _ _ _).2 => by apply serve_local_books
  | |- _ => idtac
  end.
  all: apply tidy_of, tidy_frame; [intros R HR|].
  all: try (destruct_and?; unfold is_u64 in *; auto with llam_advance lia).
  all: auto with llam_frame.
Qed.

(** ** Runs keep the books *)

Lemma sys_step_ok s s' b : sys_step s s' → sys_ok s b → ∃ b', sys_ok s' b' ∧ sys_le s s' b b'.
Proof.
  intros [t tls c w' Ht Hc Hw'|o e rings Ho] [H1 H2 H3 H4 H5].
  - assert (open_books (seen_by s tls)) as Hob.
    { split; [split; [by eapply H5|]|by exists b|]; intros b' Hb'; cbn in Hb'; rewrite H1 in Hb'; by injection Hb' as <-. }
    pose proof (perform_tidy c _ Hc Hob) as [A B]. rewrite Hw' in *.
    destruct Hob as [O1 O2 O3]. destruct (A O1) as [[T N] E]. destruct (E b H1) as (b'&Hb'&Hsh&Hle).
    destruct (Hle H3) as [K L]. pose proof (B O1 O2) as Bal. destruct (Bal O3) as (O4&_&Bk).
    exists b'. split; [split; [done|by apply N|done|by apply O4|]|split; [done|done|]].
    + intros t' tls'. cbn. rewrite list_lookup_insert_Some. intros [(_&<-&_)|[_ ?]]; [done|eauto].
    + exact Bal.
  - exists b. split; [by split|]. split; [reflexivity|done|].
    intros Hw. split_and!; [exact Hw|done|]. intros k _. unfold unowned, owned. cbn. rewrite Ho. lia.
Qed.

Lemma sys_steps_ok s s' b : rtc sys_step s s' → sys_ok s b → ∃ b', sys_ok s' b' ∧ sys_le s s' b b'.
Proof.
  intros Hr. revert b. induction Hr as [s|s s1 s' Hs Hr IH]; intros b H.
  - exists b. split; [done|]. by split.
  - destruct (sys_step_ok _ _ _ Hs H) as (b1&H1&[L1 S1 B1]). destruct (IH _ H1) as (b'&H'&[L2 S2 B2]).
    exists b'. split; [done|]. split; [by etrans|congruence|by etrans].
Qed.


(** ** From creation to destruction *)

Lemma shape_sized b b' : shape b' = shape b → tables_sized b → tables_sized b'.
Proof.
  unfold shape. intros E [Z1 Z2 Z3 Z4]. injection E as _ _ _ _ _ E1 E2 E3 E4.
  split; [congruence|congruence| |congruence]. intros l Hl. rewrite Hl in E3.
  destruct (b_channels b) as [l'|] eqn:Hl'; [|done]. injection E3 as E3. rewrite E3. by apply Z3.
Qed.

(** The system a thread finds after initialization. *)
Lemma fresh_sys_ok w b runtime threads :
  w_broker w = Some b → b_addr b ≠ 0 → fresh_broker runtime b → Forall tls_wf threads → sys_ok (System w threads) b.
Proof.
  intros Hb Ha F Ht. split; [done|done|apply F|apply F|]. intros t tls Htls. by eapply Forall_lookup_1.
Qed.


(** ** Runs of one thread *)

Definition call_by (c : call) (s : system) : system :=
  let w' := (perform c (seen_by s (default [] (s_threads s !! 0%nat)))).2 in
  System w' (<[0%nat := w_tls w']> (s_threads s)).

Lemma call_by_step c s tls : call_wf c → s_threads s !! 0%nat = Some tls → sys_step s (call_by c s).
Proof. intros Hc Ht. unfold call_by. rewrite Ht. by eapply sys_call. Qed.

(** A buffer is revoked, and then another registered. *)
Definition revocable_system : system := System revocable_world [idle_tls].

Definition revoked_system : system :=
  call_by (CallRevoke (Some revocable_token) LLAM_CAP_RIGHT_READ (Some zero_token)) revocable_system.

Definition reused_system : system :=
  call_by (CallRegisterBuffer (Some [1; 2]) 2 LLAM_CAP_RIGHT_READ (Some zero_token)) revoked_system.

Lemma revocable_authorized : authorized revocable_broker 0 revocable_token LLAM_CAP_RIGHT_READ.
Proof.
  pose proof (validate_cap_cases (Some revocable_token) LLAM_CAP_RIGHT_READ revocable_world) as H. cbv zeta in H.
  assert ((llam_broker_validate_cap_unlocked (Some revocable_token) LLAM_CAP_RIGHT_READ revocable_world).1 = 0) as E
    by (vm_compute; reflexivity).
  set (x := llam_broker_validate_cap_unlocked _ _ _) in *. clearbody x.
  destruct H as [[_ (b&t&Hb&Ht&_&Ha)]|(e&->&_)]; [|done].
  injection Hb as <-. injection Ht as <-. exact Ha.
Qed.


(** A broker is created, serves a client that attaches a stray descriptor, and is
    destroyed. *)
Definition storage_world : world := set_w_os (set_os_runtime [inl 7] quiet_os) example_world.

Definition created_system : system := System (llam_broker_init storage_world).2 [idle_tls].

Definition visited_system : system :=
  System (set_w_os (set_os_log (os_log (w_os (s_world created_system))) (w_os stray_world))
    (set_w_errno 0 (set_w_rings ∅ (s_world created_system)))) (s_threads created_system).

Definition served_system : system := call_by (CallServeFd 4) visited_system.

Lemma created_served : rtc sys_step created_system served_system.
Proof.
  eapply rtc_l; [by apply (sys_environment created_system (set_os_log (os_log (w_os (s_world created_system))) (w_os stray_world)) 0 ∅)|].
  apply rtc_once, (call_by_step (CallServeFd 4) visited_system idle_tls); [done|reflexivity].
Qed.

Lemma served_state :
  ∃ b2, w_broker (s_world served_system) = Some b2 ∧ b_active_ops b2 = 0 ∧ b_destroy_waiters b2 = 0 ∧
    b_tasks b2 = replicate LLAM_BROKER_TASK_SLOTS zero_task_slot ∧
    tls_has_op (b_addr b2) (w_tls (s_world served_system)) = false.
Proof.
  assert (b_active_ops <$> w_broker (s_world served_system) = Some 0) as E1 by (vm_compute; reflexivity).
  assert (b_destroy_waiters <$> w_broker (s_world served_system) = Some 0) as E2 by (vm_compute; reflexivity).
  assert (b_tasks <$> w_broker (s_world served_system) = Some (replicate LLAM_BROKER_TASK_SLOTS zero_task_slot)) as E3
    by (vm_compute; reflexivity).
  assert ((λ b, tls_has_op (b_addr b) (w_tls (s_world served_system))) <$> w_broker (s_world served_system) = Some false)
    as E4 by (vm_compute; reflexivity).
  revert E1 E2 E3 E4. generalize (w_tls (s_world served_system)). intros tls.
  destruct (w_broker (s_world served_system)) as [b2|]; [|done]. intros E1 E2 E3 E4. exists b2.
  split_and!; [done|..]; by apply (inj Some).
Qed.

