(* ===== verification/TimerHeap.v ===== *)
(** * Timer heaps of the runtime's processors

    [src/core/time/timer_heap.c], the wait-resolver gate of
    [src/core/wait/wait_tracking.c] it pins tasks with, the scan references of
    [src/core/task/task_reclaim.c] and the collection loop of
    [llam_fire_expired_timers] ([src/core/time/timer.c]).

    Every processor keeps its armed timers in an array-backed 4-ary heap.
    Shards, timer nodes and tasks are objects behind [Z] pointers ([0] is
    [NULL]).  The operations run under the shard lock, so each atomic access
    is one step and a compare-and-swap loop succeeds at its first try.  The
    length of a heap is a [nat]: it never exceeds [SIZE_MAX / 8], so the index
    arithmetic of the source ([4 * index + 4]) does not wrap. *)

From stdpp Require Import functions sorting.
From S2P Require Import Prelude.

(** ** Data *)

Record timer_node := TimerNode {
  tn_owner_runtime : Z; tn_task : Z; tn_select_state : Z;
  tn_wait_lifetime_ops : Z; tn_deadline_ns : Z; tn_wait_generation : Z;
  tn_next : Z; tn_heap_index : nat; tn_owner_shard : Z;
  tn_holds_task_ref : bool }.

Record timer_task := TimerTask {
  tk_id : Z; tk_owner_runtime : Z; tk_state : Z; tk_wait_reason : Z;
  tk_wait_generation : Z; tk_parked_shard : Z; tk_home_shard : Z;
  tk_flags : Z; tk_deadline_ns : Z; tk_active_timer : Z;
  tk_active_timer_heap_shard : Z; tk_active_select_state : Z;
  tk_active_wait_lifetime_ops : Z; tk_wait_resolver_state : Z;
  tk_scan_refs : Z }.

Record processor := Processor {
  pr_online : Z; pr_timers : Z; pr_timer_heap : option (list Z);
  pr_timer_heap_len : nat; pr_timer_heap_cap : Z; pr_timer_count : Z;
  pr_timer_callbacks_active : Z }.

Record shard := Shard { sh_id : Z; sh_runtime : Z; sh_processor : processor }.

(** The memory the operations work on.  [t_realloc] answers the calls of
    [realloc] in order (an exhausted tape succeeds); [t_stops] counts the
    calls of [llam_request_stop]; [t_aborted] is set by [abort ()]. *)
Record timer_world := TimerWorld {
  t_shards : Z → shard; t_nodes : Z → timer_node; t_tasks : Z → timer_task;
  t_active_shards : Z → Z; t_fatal_errno : Z → Z;
  t_deferred_fatal_pending : Z → Z; t_errno : Z; t_realloc : list bool;
  t_stops : nat; t_aborted : bool }.

Definition T : Type → Type := st timer_world.

Definition NULL : Z := 0.
Definition LLAM_TIMER_HEAP_ARITY : nat := 4.
Definition LLAM_TASK_STATE_PARKED : Z := 3.
Definition LLAM_WAIT_NONE : Z := 0.
Definition LLAM_TASK_FLAG_PINNED : Z := 1.
Definition LLAM_WAIT_RESOLVER_CLOSED_BIT : Z := UINT32_MAX - Z.shiftr UINT32_MAX 1.
Definition LLAM_WAIT_RESOLVER_REF_MASK : Z := Z.shiftr UINT32_MAX 1.

(** [SIZE_MAX / sizeof (llam_timer_node_t * )]. *)
Definition max_items : Z := UINT64_MAX / 8.

(** ** Field updates *)

Definition set_heap_index (i : nat) (n : timer_node) : timer_node :=
  TimerNode (tn_owner_runtime n) (tn_task n) (tn_select_state n)
    (tn_wait_lifetime_ops n) (tn_deadline_ns n) (tn_wait_generation n)
    (tn_next n) i (tn_owner_shard n) (tn_holds_task_ref n).

Definition set_next (p : Z) (n : timer_node) : timer_node :=
  TimerNode (tn_owner_runtime n) (tn_task n) (tn_select_state n)
    (tn_wait_lifetime_ops n) (tn_deadline_ns n) (tn_wait_generation n)
    p (tn_heap_index n) (tn_owner_shard n) (tn_holds_task_ref n).

Definition set_holds_task_ref (b : bool) (n : timer_node) : timer_node :=
  TimerNode (tn_owner_runtime n) (tn_task n) (tn_select_state n)
    (tn_wait_lifetime_ops n) (tn_deadline_ns n) (tn_wait_generation n)
    (tn_next n) (tn_heap_index n) (tn_owner_shard n) b.

Definition set_wait_resolver_state (z : Z) (k : timer_task) : timer_task :=
  TimerTask (tk_id k) (tk_owner_runtime k) (tk_state k) (tk_wait_reason k)
    (tk_wait_generation k) (tk_parked_shard k) (tk_home_shard k) (tk_flags k)
    (tk_deadline_ns k) (tk_active_timer k) (tk_active_timer_heap_shard k)
    (tk_active_select_state k) (tk_active_wait_lifetime_ops k) z
    (tk_scan_refs k).

Definition set_scan_refs (z : Z) (k : timer_task) : timer_task :=
  TimerTask (tk_id k) (tk_owner_runtime k) (tk_state k) (tk_wait_reason k)
    (tk_wait_generation k) (tk_parked_shard k) (tk_home_shard k) (tk_flags k)
    (tk_deadline_ns k) (tk_active_timer k) (tk_active_timer_heap_shard k)
    (tk_active_select_state k) (tk_active_wait_lifetime_ops k)
    (tk_wait_resolver_state k) z.

(** The stores of the rehome commit: heap shard, parked shard, and the home
    shard when it was the source. *)
Definition set_shards (heap parked home : Z) (k : timer_task) : timer_task :=
  TimerTask (tk_id k) (tk_owner_runtime k) (tk_state k) (tk_wait_reason k)
    (tk_wait_generation k) parked home (tk_flags k)
    (tk_deadline_ns k) (tk_active_timer k) heap
    (tk_active_select_state k) (tk_active_wait_lifetime_ops k)
    (tk_wait_resolver_state k) (tk_scan_refs k).

(** Detaching a timer: no active timer, no deadline, no heap shard. *)
Definition clear_active_timer (k : timer_task) : timer_task :=
  TimerTask (tk_id k) (tk_owner_runtime k) (tk_state k) (tk_wait_reason k)
    (tk_wait_generation k) (tk_parked_shard k) (tk_home_shard k) (tk_flags k)
    0 NULL UINT32_MAX
    (tk_active_select_state k) (tk_active_wait_lifetime_ops k)
    (tk_wait_resolver_state k) (tk_scan_refs k).

Definition set_timers (p : Z) (r : processor) : processor :=
  Processor (pr_online r) p (pr_timer_heap r) (pr_timer_heap_len r)
    (pr_timer_heap_cap r) (pr_timer_count r) (pr_timer_callbacks_active r).

Definition set_heap (h : option (list Z)) (r : processor) : processor :=
  Processor (pr_online r) (pr_timers r) h (pr_timer_heap_len r)
    (pr_timer_heap_cap r) (pr_timer_count r) (pr_timer_callbacks_active r).

Definition set_heap_len (n : nat) (r : processor) : processor :=
  Processor (pr_online r) (pr_timers r) (pr_timer_heap r) n
    (pr_timer_heap_cap r) (pr_timer_count r) (pr_timer_callbacks_active r).

Definition set_heap_cap (c : Z) (r : processor) : processor :=
  Processor (pr_online r) (pr_timers r) (pr_timer_heap r) (pr_timer_heap_len r)
    c (pr_timer_count r) (pr_timer_callbacks_active r).

Definition set_timer_count (c : Z) (r : processor) : processor :=
  Processor (pr_online r) (pr_timers r) (pr_timer_heap r) (pr_timer_heap_len r)
    (pr_timer_heap_cap r) c (pr_timer_callbacks_active r).

Definition set_callbacks (c : Z) (r : processor) : processor :=
  Processor (pr_online r) (pr_timers r) (pr_timer_heap r) (pr_timer_heap_len r)
    (pr_timer_heap_cap r) (pr_timer_count r) c.

Definition on_processor (f : processor → processor) (s : shard) : shard :=
  Shard (sh_id s) (sh_runtime s) (f (sh_processor s)).

(** Whole components of the memory. *)
Definition with_shards (g : Z → shard) (w : timer_world) : timer_world :=
  TimerWorld g (t_nodes w) (t_tasks w) (t_active_shards w) (t_fatal_errno w)
    (t_deferred_fatal_pending w) (t_errno w) (t_realloc w) (t_stops w)
    (t_aborted w).

Definition with_nodes (g : Z → timer_node) (w : timer_world) : timer_world :=
  TimerWorld (t_shards w) g (t_tasks w) (t_active_shards w) (t_fatal_errno w)
    (t_deferred_fatal_pending w) (t_errno w) (t_realloc w) (t_stops w)
    (t_aborted w).

Definition with_tasks (g : Z → timer_task) (w : timer_world) : timer_world :=
  TimerWorld (t_shards w) (t_nodes w) g (t_active_shards w) (t_fatal_errno w)
    (t_deferred_fatal_pending w) (t_errno w) (t_realloc w) (t_stops w)
    (t_aborted w).

Definition upd_processor (sh : Z) (f : processor → processor) : T unit :=
  modify (λ w, with_shards (<[sh := on_processor f (t_shards w sh)]> (t_shards w)) w).

Definition upd_node (a : Z) (f : timer_node → timer_node) : T unit :=
  modify (λ w, with_nodes (<[a := f (t_nodes w a)]> (t_nodes w)) w).

Definition upd_task (k : Z) (f : timer_task → timer_task) : T unit :=
  modify (λ w, with_tasks (<[k := f (t_tasks w k)]> (t_tasks w)) w).

Definition processor_of (sh : Z) (w : timer_world) : processor :=
  sh_processor (t_shards w sh).

(** The array behind [timer_heap]; reading [NULL] is not defined in C and
    guarded by every caller, it reads the empty array here. *)
Definition heap_of (sh : Z) (w : timer_world) : list Z :=
  default [] (pr_timer_heap (processor_of sh w)).

Definition set_errno (e : Z) : T unit :=
  modify (λ w, TimerWorld (t_shards w) (t_nodes w) (t_tasks w)
    (t_active_shards w) (t_fatal_errno w) (t_deferred_fatal_pending w) e
    (t_realloc w) (t_stops w) (t_aborted w)).

Definition abort : T unit :=
  modify (λ w, TimerWorld (t_shards w) (t_nodes w) (t_tasks w)
    (t_active_shards w) (t_fatal_errno w) (t_deferred_fatal_pending w)
    (t_errno w) (t_realloc w) (t_stops w) true).

(** The answer of the next [realloc]. *)
Definition realloc_ok : T bool :=
  λ w, (default true (head (t_realloc w)),
        TimerWorld (t_shards w) (t_nodes w) (t_tasks w) (t_active_shards w)
          (t_fatal_errno w) (t_deferred_fatal_pending w) (t_errno w)
          (tail (t_realloc w)) (t_stops w) (t_aborted w)).

(** Compare-and-swap of [fatal_errno] from [0]; the winner requests a stop. *)
Definition llam_record_fatal (rt err : Z) : T unit :=
  if (rt =? NULL) || (err =? 0) then mret tt else
  modify (λ w,
    if t_fatal_errno w rt =? 0 then
      TimerWorld (t_shards w) (t_nodes w) (t_tasks w) (t_active_shards w)
        (<[rt := err]> (t_fatal_errno w)) (t_deferred_fatal_pending w)
        (t_errno w) (t_realloc w) (S (t_stops w)) (t_aborted w)
    else w).

Definition llam_record_fatal_deferred (rt err : Z) : T unit :=
  if (rt =? NULL) || (err =? 0) then mret tt else
  modify (λ w,
    TimerWorld (t_shards w) (t_nodes w) (t_tasks w) (t_active_shards w)
      (if t_fatal_errno w rt =? 0 then <[rt := err]> (t_fatal_errno w)
       else t_fatal_errno w)
      (<[rt := 1]> (t_deferred_fatal_pending w)) (t_errno w) (t_realloc w)
      (t_stops w) (t_aborted w)).

(** ** The array and its nodes

    The primitives that only move nodes inside one heap work on the array and
    on the node store. *)

Record hstore := HStore { hs_heap : list Z; hs_nodes : Z → timer_node }.

Definition llam_timer_heap_parent (index : nat) : nat :=
  ((index - 1) / LLAM_TIMER_HEAP_ARITY)%nat.

Definition llam_timer_heap_less (tasks : Z → timer_task)
    (nodes : Z → timer_node) (lhs rhs : Z) : bool :=
  if negb (tn_deadline_ns (nodes lhs) =? tn_deadline_ns (nodes rhs)) then
    tn_deadline_ns (nodes lhs) <? tn_deadline_ns (nodes rhs)
  else if (tn_task (nodes lhs) =? NULL) || (tn_task (nodes rhs) =? NULL) then
    lhs <? rhs
  else
    tk_id (tasks (tn_task (nodes lhs))) <? tk_id (tasks (tn_task (nodes rhs))).

Definition llam_timer_heap_swap (h : hstore) (lhs rhs : nat) : hstore :=
  let tmp := hs_heap h !!! lhs in
  let heap := <[lhs := hs_heap h !!! rhs]> (hs_heap h) in
  let heap := <[rhs := tmp]> heap in
  let nodes := hs_nodes h in
  let nodes := <[heap !!! lhs := set_heap_index lhs (nodes (heap !!! lhs))]> nodes in
  let nodes := <[heap !!! rhs := set_heap_index rhs (nodes (heap !!! rhs))]> nodes in
  HStore heap nodes.

Fixpoint sift_up_loop (tasks : Z → timer_task) (fuel : nat) (h : hstore)
    (index : nat) : hstore :=
  match fuel with
  | O => h
  | S fuel' =>
    if (index =? 0)%nat then h else
    let parent := llam_timer_heap_parent index in
    if llam_timer_heap_less tasks (hs_nodes h)
         (hs_heap h !!! index) (hs_heap h !!! parent) then
      sift_up_loop tasks fuel' (llam_timer_heap_swap h index parent) parent
    else h
  end.

(** The index shrinks at every turn: [index + 1] turns are enough. *)
Definition llam_timer_heap_sift_up (tasks : Z → timer_task) (h : hstore)
    (index : nat) : hstore :=
  sift_up_loop tasks (S index) h index.

(** The inner loop over the children [child .. child + n - 1] below [len]. *)
Fixpoint best_child (tasks : Z → timer_task) (h : hstore) (len n child best : nat)
    : nat :=
  match n with
  | O => best
  | S n' =>
    if (child <? len)%nat then
      best_child tasks h len n' (S child)
        (if llam_timer_heap_less tasks (hs_nodes h)
              (hs_heap h !!! child) (hs_heap h !!! best)
         then child else best)
    else best
  end.

Fixpoint sift_down_loop (tasks : Z → timer_task) (len fuel : nat) (h : hstore)
    (index : nat) : hstore :=
  match fuel with
  | O => h
  | S fuel' =>
    let first_child := (index * LLAM_TIMER_HEAP_ARITY + 1)%nat in
    let best := best_child tasks h len LLAM_TIMER_HEAP_ARITY first_child index in
    if (best =? index)%nat then h else
    sift_down_loop tasks len fuel' (llam_timer_heap_swap h index best) best
  end.

(** The index grows at every turn and stays below the length. *)
Definition llam_timer_heap_sift_down (tasks : Z → timer_task) (len : nat)
    (h : hstore) (index : nat) : hstore :=
  sift_down_loop tasks len (S len) h index.

(** Run a primitive on the heap of a shard. *)
Definition on_heap (sh : Z) (f : (Z → timer_task) → nat → hstore → hstore) : T unit :=
  modify (λ w,
    let p := processor_of sh w in
    let h := f (t_tasks w) (pr_timer_heap_len p)
               (HStore (heap_of sh w) (t_nodes w)) in
    with_shards
      (<[sh := on_processor (set_heap (const (hs_heap h) <$> pr_timer_heap p))
                 (t_shards w sh)]> (t_shards w))
      (with_nodes (hs_nodes h) w)).

(** [heap[i] = a]. *)
Definition store_heap (sh : Z) (i : nat) (a : Z) : T unit :=
  upd_processor sh (λ p, set_heap (<[i := a]> <$> pr_timer_heap p) p).

Definition llam_timer_heap_refresh_root (sh : Z) : T unit :=
  modify (λ w,
    let p := processor_of sh w in
    let root := if (0 <? pr_timer_heap_len p)%nat then heap_of sh w !!! 0%nat
                else NULL in
    with_shards (<[sh := on_processor (set_timers root) (t_shards w sh)]>
                   (t_shards w)) w).

(** ** Capacity and counters *)

(** The growth loop of [llam_timer_heap_reserve]: 64 doublings are enough for
    any [size_t]. *)
Fixpoint grow_cap (fuel : nat) (needed new_cap : Z) : Z :=
  match fuel with
  | O => new_cap
  | S fuel' =>
    if new_cap <? needed then
      if max_items / 2 <? new_cap then needed
      else grow_cap fuel' needed (u64 (new_cap * 2))
    else new_cap
  end.

Definition llam_timer_heap_reserve (sh : Z) (needed : Z) : T bool :=
  cap ← gets (λ w, pr_timer_heap_cap (processor_of sh w));
  if (max_items <? needed) || (max_items <? cap) then
    set_errno ENOMEM ;; mret false
  else if needed <=? cap then mret true
  else
    let new_cap :=
      if cap =? 0 then 64
      else if max_items / 2 <? cap then needed
      else u64 (cap * 2) in
    let new_cap := grow_cap 64 needed new_cap in
    if max_items <? new_cap then set_errno ENOMEM ;; mret false
    else
      items ← realloc_ok;
      if (items : bool) then
        upd_processor sh (λ p,
          set_heap (Some (resize (Z.to_nat new_cap) NULL
                            (default [] (pr_timer_heap p)))) p) ;;
        upd_processor sh (set_heap_cap new_cap) ;;
        mret true
      else set_errno ENOMEM ;; mret false.

Definition llam_timer_count_increment (sh : Z) : T bool :=
  count ← gets (λ w, pr_timer_count (processor_of sh w));
  rt ← gets (λ w, sh_runtime (t_shards w sh));
  if count =? UINT32_MAX then
    llam_record_fatal rt EOVERFLOW ;;
    set_errno EOVERFLOW ;;
    mret false
  else
    upd_processor sh (set_timer_count (u32 (count + 1))) ;;
    mret true.

Definition llam_timer_count_decrement (sh : Z) : T unit :=
  count ← gets (λ w, pr_timer_count (processor_of sh w));
  rt ← gets (λ w, sh_runtime (t_shards w sh));
  if 0 <? count then
    upd_processor sh (set_timer_count (u32 (count - 1)))
  else
    llam_record_fatal rt EINVAL ;;
    set_errno EINVAL.

(** ** Push, remove, pop *)

Definition llam_timer_heap_push_locked (sh node : Z) : T bool :=
  len ← gets (λ w, pr_timer_heap_len (processor_of sh w));
  if max_items <=? Z.of_nat len then
    set_errno ENOMEM ;; mret false
  else
    ok ← llam_timer_heap_reserve sh (Z.of_nat len + 1);
    if negb ok then mret false else
    ok ← llam_timer_count_increment sh;
    if negb ok then mret false else
    index ← gets (λ w, pr_timer_heap_len (processor_of sh w));
    upd_processor sh (set_heap_len (S index)) ;;
    store_heap sh index node ;;
    upd_node node (set_heap_index index) ;;
    on_heap sh (λ tasks _ h, llam_timer_heap_sift_up tasks h index) ;;
    llam_timer_heap_refresh_root sh ;;
    mret true.

(** The hole at [index] is filled by the last node, which is then moved up or
    down. *)
Definition refill (sh : Z) (index : nat) : T unit :=
  len ← gets (λ w, pr_timer_heap_len (processor_of sh w));
  last ← gets (λ w, heap_of sh w !!! len);
  store_heap sh index last ;;
  upd_node last (set_heap_index index) ;;
  up ← gets (λ w,
    (0 <? index)%nat &&
    llam_timer_heap_less (t_tasks w) (t_nodes w) last
      (heap_of sh w !!! llam_timer_heap_parent index));
  if (up : bool) then
    on_heap sh (λ tasks _ h, llam_timer_heap_sift_up tasks h index)
  else
    on_heap sh (λ tasks n h, llam_timer_heap_sift_down tasks n h index).

Definition llam_timer_heap_remove_at_locked (sh : Z) (index : nat) : T Z :=
  len ← gets (λ w, pr_timer_heap_len (processor_of sh w));
  if (len <=? index)%nat then mret NULL else
  node ← gets (λ w, heap_of sh w !!! index);
  let len := (len - 1)%nat in
  upd_processor sh (set_heap_len len) ;;
  (if negb (index =? len)%nat then refill sh index else mret tt) ;;
  store_heap sh len NULL ;;
  upd_node node (set_heap_index 0) ;;
  llam_timer_heap_refresh_root sh ;;
  llam_timer_count_decrement sh ;;
  mret node.

Definition llam_timer_heap_pop_min_locked (sh : Z) : T Z :=
  llam_timer_heap_remove_at_locked sh 0.

(** ** Scan references and the collection of expired timers *)

(** [llam_sync_note_inflight_waiter] on the [scan_refs] of a task. *)
Definition llam_sync_note_inflight_waiter (rt task amount : Z) : T bool :=
  if amount =? 0 then mret true else
  if rt =? NULL then set_errno EINVAL ;; mret false else
  current ← gets (λ w, tk_scan_refs (t_tasks w task));
  if UINT32_MAX - current <? amount then
    llam_record_fatal_deferred rt EOVERFLOW ;;
    set_errno EOVERFLOW ;;
    mret false
  else
    upd_task task (set_scan_refs (u32 (current + amount))) ;;
    mret true.

Definition llam_task_scan_ref_try_acquire (rt task : Z) : T bool :=
  if (rt =? NULL) || (task =? NULL) then
    set_errno EINVAL ;;
    (if negb (rt =? NULL) then llam_record_fatal rt EINVAL else mret tt) ;;
    mret false
  else llam_sync_note_inflight_waiter rt task 1.

(** One turn of the collection loop of [llam_fire_expired_timers], after its
    condition held for the root [timer]; [None] is the [break]. *)
Definition expire_root (sh timer expired_tail expired_head : Z)
    : T (option (Z * Z)) :=
  rt ← gets (λ w, sh_runtime (t_shards w sh));
  task ← gets (λ w, tn_task (t_nodes w timer));
  ok ← (if task =? NULL then mret true
        else llam_task_scan_ref_try_acquire rt task);
  if negb ok then mret None else
  upd_node timer (set_holds_task_ref (negb (task =? NULL))) ;;
  timer ← llam_timer_heap_pop_min_locked sh;
  if timer =? NULL then mret None else
  upd_node timer (set_next NULL) ;;
  task ← gets (λ w, tn_task (t_nodes w timer));
  active ← gets (λ w, tk_active_timer (t_tasks w task));
  (if negb (task =? NULL) && (active =? timer)
   then upd_task task clear_active_timer else mret tt) ;;
  (if negb (expired_tail =? NULL)
   then upd_node expired_tail (set_next timer) ;;
        mret (Some (timer, expired_head))
   else mret (Some (timer, timer))).

(** The loop; the result is [(expired_head, expired_tail, expired_count)]. *)
Fixpoint expire_loop (fuel : nat) (sh now head tail count : Z) : T (Z * Z * Z) :=
  match fuel with
  | O => mret (head, tail, count)
  | S fuel' =>
    timer ← gets (λ w, pr_timers (processor_of sh w));
    deadline ← gets (λ w, tn_deadline_ns (t_nodes w timer));
    if negb (timer =? NULL) && (deadline <=? now) then
      r ← expire_root sh timer tail head;
      match r with
      | None => mret (head, tail, count)
      | Some (tail', head') => expire_loop fuel' sh now head' tail' (u32 (count + 1))
      end
    else mret (head, tail, count)
  end.

(** The part of [llam_fire_expired_timers] under its first critical section:
    the list of expired timers it goes on with and their number.  Every turn
    takes a node out of the heap, so one turn more than its length is
    enough. *)
Definition collect_expired (sh now : Z) : T (Z * Z) :=
  count ← gets (λ w, pr_timer_count (processor_of sh w));
  if count =? 0 then mret (NULL, 0) else
  timers ← gets (λ w, pr_timers (processor_of sh w));
  if timers =? NULL then mret (NULL, 0) else
  len ← gets (λ w, pr_timer_heap_len (processor_of sh w));
  r ← expire_loop (S len) sh now NULL NULL 0;
  let '(head, _, expired_count) := r in
  (if 0 <? expired_count
   then upd_processor sh (λ p,
          set_callbacks (u32 (pr_timer_callbacks_active p + expired_count)) p)
   else mret tt) ;;
  mret (head, expired_count).

(** ** The wait-resolver gate *)

Definition llam_task_wait_resolver_try_begin (task : Z) : T bool :=
  if task =? NULL then set_errno EINVAL ;; mret false else
  state ← gets (λ w, tk_wait_resolver_state (t_tasks w task));
  if state =? UINT32_MAX then
    set_errno EOVERFLOW ;; abort ;; mret false
  else if negb (Z.land state LLAM_WAIT_RESOLVER_CLOSED_BIT =? 0) then mret false
  else if LLAM_WAIT_RESOLVER_REF_MASK - 1 <=?
            Z.land state LLAM_WAIT_RESOLVER_REF_MASK then
    set_errno EOVERFLOW ;; abort ;; mret false
  else
    upd_task task (set_wait_resolver_state (u32 (state + 1))) ;;
    mret true.

Definition llam_task_wait_resolver_end (task : Z) : T unit :=
  if task =? NULL then mret tt else
  state ← gets (λ w, tk_wait_resolver_state (t_tasks w task));
  let refs := Z.land state LLAM_WAIT_RESOLVER_REF_MASK in
  if (refs =? LLAM_WAIT_RESOLVER_REF_MASK) || (refs =? 0) then
    set_errno (if refs =? 0 then EINVAL else EOVERFLOW) ;; abort
  else
    upd_task task (set_wait_resolver_state (u32 (state - 1))).

(** ** Moving all timers of one processor to another *)

Definition llam_timer_rehome_entry_valid (source target node : Z) (index : nat)
    (w : timer_world) : bool :=
  let s := t_shards w source in
  let t := t_shards w target in
  let n := t_nodes w node in
  let k := t_tasks w (tn_task n) in
  negb ((source =? NULL) || (target =? NULL) || (node =? NULL) ||
        negb (tn_owner_runtime n =? sh_runtime s) || (tn_task n =? NULL) ||
        (t_active_shards w (sh_runtime s) <=? tn_owner_shard n) ||
        negb (tn_next n =? NULL) || negb (tn_heap_index n =? index)%nat) &&
  ((tk_owner_runtime k =? sh_runtime s) &&
   (tk_active_timer k =? node) &&
   (tk_active_timer_heap_shard k =? sh_id s) &&
   (tk_state k =? LLAM_TASK_STATE_PARKED) &&
   negb (tk_wait_reason k =? LLAM_WAIT_NONE) &&
   negb (tk_wait_generation k =? 0) &&
   negb (tk_wait_generation k =? UINT64_MAX) &&
   (tk_wait_generation k =? tn_wait_generation n) &&
   (tk_deadline_ns k =? tn_deadline_ns n) &&
   ((tk_parked_shard k =? sh_id s) || (tk_parked_shard k =? sh_id t)) &&
   (Z.land (tk_flags k) LLAM_TASK_FLAG_PINNED =? 0) &&
   (tk_active_select_state k =? tn_select_state n) &&
   (tk_active_wait_lifetime_ops k =? tn_wait_lifetime_ops n)).

(** The root pointer a heap must have. *)
Definition expected_root (sh : Z) (w : timer_world) : Z :=
  if (0 <? pr_timer_heap_len (processor_of sh w))%nat then heap_of sh w !!! 0%nat
  else NULL.

(** [len > 0 && heap == NULL || len > cap || timers != root]. *)
Definition heap_shape_bad (sh : Z) (w : timer_world) : bool :=
  let p := processor_of sh w in
  ((0 <? pr_timer_heap_len p)%nat && bool_decide (pr_timer_heap p = None)) ||
  (pr_timer_heap_cap p <? Z.of_nat (pr_timer_heap_len p)) ||
  negb (pr_timers p =? expected_root sh w).

Definition target_entry_valid (source target : Z) (w : timer_world) (i : nat) : bool :=
  let rt := sh_runtime (t_shards w source) in
  let node := heap_of target w !!! i in
  let n := t_nodes w node in
  let k := t_tasks w (tn_task n) in
  negb ((node =? NULL) || negb (tn_owner_runtime n =? rt) ||
        (tn_task n =? NULL) || negb (tn_next n =? NULL) ||
        negb (tn_heap_index n =? i)%nat ||
        negb (tk_active_timer_heap_shard k =? sh_id (t_shards w target))) &&
  negb (negb (tk_owner_runtime k =? rt) || negb (tk_active_timer k =? node)).

Definition llam_timer_target_heap_valid (source target : Z) (w : timer_world) : bool :=
  let p := processor_of target w in
  negb (heap_shape_bad target w ||
        negb (pr_timer_count p =? Z.of_nat (pr_timer_heap_len p))) &&
  forallb (target_entry_valid source target w) (seq 0 (pr_timer_heap_len p)).

(** The pins are chained through [next]; at most one per source timer. *)
Fixpoint llam_timer_rehome_release_pins (fuel : nat) (pins : Z) : T unit :=
  match fuel with
  | O => mret tt
  | S fuel' =>
    if pins =? NULL then mret tt else
    next ← gets (λ w, tn_next (t_nodes w pins));
    task ← gets (λ w, tn_task (t_nodes w pins));
    upd_node pins (set_next NULL) ;;
    llam_task_wait_resolver_end task ;;
    llam_timer_rehome_release_pins fuel' next
  end.

(** The preflight loop: pin and validate the source timers [i ..]; [None]
    after the failure path has released everything. *)
Fixpoint rehome_pin (n i : nat) (source target pins : Z) : T (option Z) :=
  match n with
  | O => mret (Some pins)
  | S n' =>
    node ← gets (λ w, heap_of source w !!! i);
    task ← gets (λ w, tn_task (t_nodes w node));
    pinned ← (if (node =? NULL) || (task =? NULL) then mret false
              else llam_task_wait_resolver_try_begin task);
    if negb pinned then llam_timer_rehome_release_pins i pins ;; mret None
    else
      valid ← gets (llam_timer_rehome_entry_valid source target node i);
      if negb valid then
        llam_task_wait_resolver_end task ;;
        llam_timer_rehome_release_pins i pins ;;
        mret None
      else
        upd_node node (set_next pins) ;;
        rehome_pin n' (S i) source target node
  end.

(** The commit loop. *)
Definition rehome_move (source target : Z) (target_len i : nat) : T unit :=
  node ← gets (λ w, heap_of source w !!! i);
  task ← gets (λ w, tn_task (t_nodes w node));
  source_id ← gets (λ w, sh_id (t_shards w source));
  target_id ← gets (λ w, sh_id (t_shards w target));
  store_heap target (target_len + i) node ;;
  upd_node node (set_heap_index (target_len + i)) ;;
  upd_task task (λ k,
    set_shards target_id target_id
      (if tk_home_shard k =? source_id then target_id else tk_home_shard k) k) ;;
  store_heap source i NULL.

(** [for (i = n; i-- > 0;) sift_down (i)]. *)
Fixpoint heapify (n : nat) (tasks : Z → timer_task) (len : nat) (h : hstore) : hstore :=
  match n with
  | O => h
  | S i => heapify i tasks len (llam_timer_heap_sift_down tasks len h i)
  end.

Definition rehome_arguments_bad (source target : Z) (w : timer_world) : bool :=
  let s := t_shards w source in
  let t := t_shards w target in
  let active := t_active_shards w (sh_runtime s) in
  (source =? NULL) || (target =? NULL) || (source =? target) ||
  (sh_runtime s =? NULL) || negb (sh_runtime s =? sh_runtime t) ||
  (active =? 0) || (active <=? sh_id s) || (active <=? sh_id t) ||
  (pr_online (sh_processor s) =? 0) || (pr_online (sh_processor t) =? 0) ||
  negb (pr_timer_callbacks_active (sh_processor s) =? 0).

Definition rehome_heaps_bad (source target : Z) (w : timer_world) : bool :=
  let s := processor_of source w in
  let t := processor_of target w in
  let source_len := Z.of_nat (pr_timer_heap_len s) in
  let target_len := Z.of_nat (pr_timer_heap_len t) in
  heap_shape_bad source w ||
  negb (pr_timer_count s =? source_len) ||
  (UINT32_MAX - pr_timer_count t <? pr_timer_count s) ||
  negb (pr_timer_count t =? target_len) ||
  (UINT64_MAX - source_len <? target_len) ||
  negb (llam_timer_target_heap_valid source target w).

(** The stores after the reservation, none of which can fail. *)
Definition rehome_merge (source target : Z) (source_len target_len : nat)
    (source_count target_count : Z) : T unit :=
  let merged_len := (target_len + source_len)%nat in
  for_each source_len 0 (rehome_move source target target_len) ;;
  upd_processor target (set_heap_len merged_len) ;;
  upd_processor source (set_heap_len 0) ;;
  upd_processor source (set_timers NULL) ;;
  on_heap target (heapify (merged_len / LLAM_TIMER_HEAP_ARITY)) ;;
  llam_timer_heap_refresh_root target ;;
  upd_processor target (set_timer_count (u32 (target_count + source_count))) ;;
  upd_processor source (set_timer_count 0).

(** The result is [None] for [false], else the number stored through
    [migrated_out]. *)
Definition llam_processor_rehome_timers_locked (source target : Z) : T (option Z) :=
  bad ← gets (rehome_arguments_bad source target);
  if (bad : bool) then mret None else
  s ← gets (processor_of source);
  t ← gets (processor_of target);
  bad ← gets (rehome_heaps_bad source target);
  if (bad : bool) then mret None else
  let source_len := pr_timer_heap_len s in
  let target_len := pr_timer_heap_len t in
  let merged_len := Z.of_nat target_len + Z.of_nat source_len in
  if max_items <? merged_len then set_errno ENOMEM ;; mret None else
  pinned ← rehome_pin source_len 0 source target NULL;
  match pinned with
  | None => mret None
  | Some pins =>
    ok ← llam_timer_heap_reserve target merged_len;
    if negb ok then
      llam_timer_rehome_release_pins source_len pins ;; mret None
    else
      rehome_merge source target source_len target_len
        (pr_timer_count s) (pr_timer_count t) ;;
      llam_timer_rehome_release_pins source_len pins ;;
      mret (Some (u32 (Z.of_nat source_len)))
  end.

(** ** Order of a 4-ary heap

    A heap is seen as the sequence [f] of its keys. *)

Definition swapped (f : nat → Z) (i j k : nat) : Z :=
  if (k =? i)%nat then f j else if (k =? j)%nat then f i else f k.

(** Every child with a parent at or after [lo] is not below its parent. *)
Definition ordered (lo n : nat) (f : nat → Z) : Prop :=
  ∀ k, (0 < k < n)%nat → (lo ≤ llam_timer_heap_parent k)%nat →
       f (llam_timer_heap_parent k) <= f k.

(** The same but at the parent [i], whose children are not below the parent
    of [i]. *)
Definition sunk (lo n i : nat) (f : nat → Z) : Prop :=
  (∀ k, (0 < k < n)%nat → (lo ≤ llam_timer_heap_parent k)%nat →
        llam_timer_heap_parent k ≠ i → f (llam_timer_heap_parent k) <= f k) ∧
  (∀ k, (0 < k < n)%nat → llam_timer_heap_parent k = i → (0 < i)%nat →
        (lo ≤ llam_timer_heap_parent i)%nat → f (llam_timer_heap_parent i) <= f k).

(** The same but for the child [i]. *)
Definition risen (n i : nat) (f : nat → Z) : Prop :=
  (∀ k, (0 < k < n)%nat → k ≠ i → f (llam_timer_heap_parent k) <= f k) ∧
  (∀ k, (0 < k < n)%nat → llam_timer_heap_parent k = i → (0 < i)%nat →
        f (llam_timer_heap_parent i) <= f k).

Section order.
Implicit Types (f : nat → Z) (i j k n : nat).

Lemma parent_spec k : (0 < k)%nat →
  (4 * llam_timer_heap_parent k + 1 ≤ k ≤ 4 * llam_timer_heap_parent k + 4)%nat.
Proof.
  unfold llam_timer_heap_parent, LLAM_TIMER_HEAP_ARITY. intros Hk.
  pose proof (Nat.div_mod_eq (k - 1) 4). pose proof (Nat.mod_upper_bound (k - 1) 4). lia.
Qed.

Lemma parent_lt k : (0 < k)%nat → (llam_timer_heap_parent k < k)%nat.
Proof. intros Hk. pose proof (parent_spec k Hk). lia. Qed.

Lemma parent_child i k :
  (4 * i + 1 ≤ k ≤ 4 * i + 4)%nat → llam_timer_heap_parent k = i.
Proof. intros Hk. pose proof (parent_spec k ltac:(lia)). lia. Qed.

Lemma swapped_l f i j : swapped f i j i = f j.
Proof. unfold swapped. by rewrite Nat.eqb_refl. Qed.

Lemma swapped_r f i j : swapped f i j j = f i.
Proof. unfold swapped. destruct (Nat.eqb_spec j i); [by subst|]. by rewrite Nat.eqb_refl. Qed.

Lemma swapped_ne f i j k : k ≠ i → k ≠ j → swapped f i j k = f k.
Proof. unfold swapped. intros H1 H2. by rewrite (proj2 (Nat.eqb_neq _ _) H1), (proj2 (Nat.eqb_neq _ _) H2). Qed.

Lemma risen_swap n i f :
  (0 < i < n)%nat → risen n i f → f i < f (llam_timer_heap_parent i) →
  risen n (llam_timer_heap_parent i) (swapped f i (llam_timer_heap_parent i)).
Proof.
  intros Hi [Ho Hg] Hlt. set (p := llam_timer_heap_parent i) in *.
  pose proof (parent_lt i ltac:(lia)) as Hp.
  assert (Hpp : (0 < p)%nat → f (llam_timer_heap_parent p) <= f p)
    by (intros ?; apply Ho; lia).
  split; intros k Hk.
  - intros Hkp. pose proof (parent_lt k ltac:(lia)) as Hpk.
    destruct (decide (k = i)) as [->|Hki].
    { fold p. rewrite swapped_l, swapped_r. lia. }
    rewrite (swapped_ne _ _ _ k) by done.
    destruct (decide (llam_timer_heap_parent k = i)) as [E|E].
    { rewrite E, swapped_l. apply Hg; [done..|lia]. }
    destruct (decide (llam_timer_heap_parent k = p)) as [E'|E'].
    { rewrite E', swapped_r. pose proof (Ho k Hk Hki) as H. rewrite E' in H. lia. }
    rewrite swapped_ne by done. by apply Ho.
  - intros Hkp Hp0. pose proof (parent_lt p Hp0) as Hlp.
    rewrite (swapped_ne _ _ _ (llam_timer_heap_parent p)) by lia.
    specialize (Hpp Hp0). destruct (decide (k = i)) as [->|Hki].
    { rewrite swapped_l. done. }
    pose proof (parent_lt k ltac:(lia)) as Hpk.
    rewrite (swapped_ne _ _ _ k) by lia.
    pose proof (Ho k Hk Hki) as H. rewrite Hkp in H. lia.
Qed.

Lemma risen_ordered n i f :
  risen n i f → ((0 < i < n)%nat → f (llam_timer_heap_parent i) <= f i) → ordered 0 n f.
Proof. intros [Ho _] Hi k Hk _. destruct (decide (k = i)) as [->|?]; auto. Qed.

Lemma sunk_swap lo n i b f :
  (lo ≤ i)%nat → (b < n)%nat → (4 * i + 1 ≤ b ≤ 4 * i + 4)%nat → sunk lo n i f →
  f b < f i → (∀ k, (0 < k < n)%nat → llam_timer_heap_parent k = i → f b <= f k) →
  sunk lo n b (swapped f i b).
Proof.
  intros Hlo Hbn Hb [Ho Hg] Hlt Hmin. pose proof (parent_child i b Hb) as Eb.
  split; intros k Hk.
  - intros Hl Hkb. pose proof (parent_lt k ltac:(lia)) as Hpk.
    destruct (decide (llam_timer_heap_parent k = i)) as [E|E].
    { rewrite E, swapped_l. destruct (decide (k = b)) as [->|Hne].
      - rewrite swapped_r. lia.
      - rewrite swapped_ne by lia. auto. }
    rewrite (swapped_ne _ _ _ (llam_timer_heap_parent k)) by done.
    destruct (decide (k = i)) as [->|Hki].
    { rewrite swapped_l. apply Hg; auto; lia. }
    rewrite swapped_ne by (done || congruence). auto.
  - intros Hkb Hb0 Hl. rewrite Eb, swapped_l.
    pose proof (parent_lt k ltac:(lia)) as Hpk.
    rewrite swapped_ne by lia. rewrite <- Hkb. apply Ho; lia.
Qed.

Lemma sunk_ordered lo n i f :
  sunk lo n i f →
  (∀ k, (0 < k < n)%nat → llam_timer_heap_parent k = i → f i <= f k) →
  ordered lo n f.
Proof.
  intros [Ho _] Hi k Hk Hl. destruct (decide (llam_timer_heap_parent k = i)) as [E|?].
  - rewrite E. auto.
  - auto.
Qed.

(** The root of an ordered heap is a minimum. *)
Lemma ordered_root n f k : ordered 0 n f → (k < n)%nat → f 0%nat <= f k.
Proof.
  intros Ho. induction (lt_wf k) as [k _ IH]. intros Hk.
  destruct (decide (k = 0%nat)) as [->|Hne]; [lia|].
  pose proof (parent_lt k ltac:(lia)) as Hp.
  pose proof (Ho k ltac:(lia) ltac:(lia)). specialize (IH _ Hp ltac:(lia)). lia.
Qed.
End order.

(** ** Keys, positions and shuffles *)

(** A node names a task with a 64-bit id. *)
Definition timed (tasks : Z → timer_task) (n : timer_node) : Prop :=
  tn_task n ≠ NULL ∧ is_u64 (tk_id (tasks (tn_task n))).

(** Timers are ordered by deadline, then by task id. *)
Definition node_key (tasks : Z → timer_task) (n : timer_node) : Z :=
  tn_deadline_ns n * 2 ^ 64 + tk_id (tasks (tn_task n)).

Definition keys (tasks : Z → timer_task) (h : hstore) (k : nat) : Z :=
  node_key tasks (hs_nodes h (hs_heap h !!! k)).

(** Each of the first [n] slots holds a node that records its position. *)
Definition indexed (n : nat) (h : hstore) : Prop :=
  (n ≤ length (hs_heap h))%nat ∧
  ∀ i, (i < n)%nat → tn_heap_index (hs_nodes h (hs_heap h !!! i)) = i.

Definition all_timed (tasks : Z → timer_task) (n : nat) (h : hstore) : Prop :=
  ∀ i, (i < n)%nat → timed tasks (hs_nodes h (hs_heap h !!! i)).

(** Nodes differ at most in their recorded position. *)
Definition same_nodes (nodes nodes' : Z → timer_node) : Prop :=
  ∀ a, set_heap_index 0 (nodes' a) = set_heap_index 0 (nodes a).

(** The first [n] slots are permuted, nothing else changes but positions. *)
Record shuffled (n : nat) (h h' : hstore) : Prop := Shuffled {
  shuffled_perm : take n (hs_heap h') ≡ₚ take n (hs_heap h);
  shuffled_rest : drop n (hs_heap h') = drop n (hs_heap h);
  shuffled_nodes : same_nodes (hs_nodes h) (hs_nodes h');
  shuffled_out : ∀ a, a ∉ take n (hs_heap h) → hs_nodes h' a = hs_nodes h a }.

#[export] Instance same_nodes_preorder : PreOrder same_nodes.
Proof. split; [done|]. intros x y z H1 H2 a. by rewrite H2. Qed.

#[export] Instance shuffled_preorder n : PreOrder (shuffled n).
Proof.
  split; [by split|]. intros x y z [P1 R1 N1 O1] [P2 R2 N2 O2]. split.
  - by rewrite P2.
  - by rewrite R2.
  - by etrans.
  - intros a Ha. rewrite O2; [by apply O1|]. by rewrite P1.
Qed.

Section nodes.
Context (tasks : Z → timer_task).

Lemma same_nodes_fields nodes nodes' a :
  same_nodes nodes nodes' →
  tn_task (nodes' a) = tn_task (nodes a) ∧
  tn_deadline_ns (nodes' a) = tn_deadline_ns (nodes a) ∧
  tn_next (nodes' a) = tn_next (nodes a).
Proof. intros H. specialize (H a). injection H. auto. Qed.

Lemma same_nodes_key nodes nodes' a :
  same_nodes nodes nodes' → node_key tasks (nodes' a) = node_key tasks (nodes a).
Proof. intros H. unfold node_key. by destruct (same_nodes_fields _ _ a H) as (-> & -> & _). Qed.

Lemma same_nodes_timed nodes nodes' a :
  same_nodes nodes nodes' → timed tasks (nodes a) → timed tasks (nodes' a).
Proof. intros H. unfold timed. by destruct (same_nodes_fields _ _ a H) as (-> & _ & _). Qed.

Lemma less_key nodes a b :
  timed tasks (nodes a) → timed tasks (nodes b) →
  llam_timer_heap_less tasks nodes a b =
  (node_key tasks (nodes a) <? node_key tasks (nodes b)).
Proof.
  intros [Ha Ua] [Hb Ub]. unfold llam_timer_heap_less, node_key, is_u64 in *.
  rewrite (proj2 (Z.eqb_neq _ _) Ha), (proj2 (Z.eqb_neq _ _) Hb). cbn [orb].
  destruct (Z.eqb_spec (tn_deadline_ns (nodes a)) (tn_deadline_ns (nodes b))) as [E|E];
    cbn [negb]; [rewrite E|]; apply Bool.eq_iff_eq_true; rewrite !Z.ltb_lt; nia.
Qed.

Lemma set_heap_index_same nodes a i :
  same_nodes nodes (<[a := set_heap_index i (nodes a)]> nodes).
Proof.
  intros b. destruct (decide (b = a)) as [->|Hne].
  - by rewrite fn_lookup_insert.
  - by rewrite fn_lookup_insert_ne.
Qed.

Lemma indexed_inj n h i j :
  indexed n h → (i < n)%nat → (j < n)%nat → hs_heap h !!! i = hs_heap h !!! j → i = j.
Proof. intros [_ H] Hi Hj E. rewrite <- (H i Hi), <- (H j Hj). by rewrite E. Qed.

Lemma indexed_nodup n h : indexed n h → NoDup (take n (hs_heap h)).
Proof.
  intros Hx. apply NoDup_alt. intros i j a Hi Hj.
  apply lookup_take_Some in Hi as [Hi ?]. apply lookup_take_Some in Hj as [Hj ?].
  apply (indexed_inj n h); [done..|].
  by rewrite (list_lookup_total_correct _ _ _ Hi), (list_lookup_total_correct _ _ _ Hj).
Qed.

Lemma slot_in n h i :
  (n ≤ length (hs_heap h))%nat → (i < n)%nat →
  take n (hs_heap h) !! i = Some (hs_heap h !!! i).
Proof. intros Hn Hi. rewrite lookup_take_lt by done. apply list_lookup_lookup_total_lt. lia. Qed.
End nodes.

(** *** One swap *)

Section swap.
Context (n : nat) (h : hstore) (i j : nat).
Context (Hx : indexed n h) (Hi : (i < n)%nat) (Hj : (j < n)%nat) (Hij : i ≠ j).

Lemma swap_slot k :
  (k < n)%nat →
  hs_heap (llam_timer_heap_swap h i j) !!! k =
  hs_heap h !!! (if (k =? i)%nat then j else if (k =? j)%nat then i else k).
Proof.
  destruct Hx as [Hl _]. intros Hk. cbn.
  destruct (Nat.eqb_spec k j) as [->|Hkj].
  - rewrite list_lookup_total_insert_eq by (rewrite length_insert; lia).
    by destruct (Nat.eqb_spec j i); [congruence|].
  - rewrite list_lookup_total_insert_ne by done.
    destruct (Nat.eqb_spec k i) as [->|Hki].
    + by rewrite list_lookup_total_insert_eq by lia.
    + by rewrite list_lookup_total_insert_ne.
Qed.

Lemma swap_same : same_nodes (hs_nodes h) (hs_nodes (llam_timer_heap_swap h i j)).
Proof. cbn. etrans; apply set_heap_index_same. Qed.

Lemma swap_indexed : indexed n (llam_timer_heap_swap h i j).
Proof.
  destruct Hx as [Hl Hp]. split; [by cbn; rewrite !length_insert|].
  intros k Hk. pose proof (swap_slot k Hk) as Ek.
  pose proof (swap_slot i Hi) as Ei. pose proof (swap_slot j Hj) as Ej.
  rewrite Nat.eqb_refl in Ei. rewrite Nat.eqb_refl in Ej.
  destruct (Nat.eqb_spec j i) as [|_]; [congruence|].
  rewrite Ek. cbn in Ei, Ej |- *. rewrite Ei, Ej.
  destruct (Nat.eqb_spec k i) as [->|Hki]; [|destruct (Nat.eqb_spec k j) as [->|Hkj]].
  - rewrite fn_lookup_insert_ne by (intros E; apply (indexed_inj n h) in E; [congruence|done..]).
    by rewrite fn_lookup_insert.
  - by rewrite fn_lookup_insert.
  - rewrite !fn_lookup_insert_ne; [by apply Hp|..];
      intros E; apply (indexed_inj n h) in E; [congruence|done..].
Qed.

Lemma swap_shuffled : shuffled n h (llam_timer_heap_swap h i j).
Proof.
  destruct Hx as [Hl _].
  assert (Li : hs_heap h !! i = Some (hs_heap h !!! i)) by (apply list_lookup_lookup_total_lt; lia).
  assert (Lj : hs_heap h !! j = Some (hs_heap h !!! j)) by (apply list_lookup_lookup_total_lt; lia).
  split.
  - cbn. rewrite !take_insert_lt by done.
    apply Permutation_insert_swap; by rewrite lookup_take_lt.
  - cbn. by rewrite !drop_insert_lt by lia.
  - apply swap_same.
  - intros a Ha. pose proof (swap_slot i Hi) as Ei. pose proof (swap_slot j Hj) as Ej.
    cbn in Ei, Ej |- *. rewrite Ei, Ej, !Nat.eqb_refl.
    destruct (Nat.eqb_spec j i) as [|_]; [congruence|].
    rewrite !fn_lookup_insert_ne; [done|..]; intros E; subst a; apply Ha, list_elem_of_lookup;
      eexists; by apply slot_in.
Qed.

Lemma swap_keys tasks k :
  (k < n)%nat →
  keys tasks (llam_timer_heap_swap h i j) k = swapped (keys tasks h) i j k.
Proof.
  intros Hk. unfold keys, swapped. rewrite swap_slot by done.
  rewrite (same_nodes_key tasks (hs_nodes h)) by apply swap_same.
  by destruct (k =? i)%nat, (k =? j)%nat.
Qed.
End swap.

Lemma shuffled_timed tasks n h h' :
  shuffled n h h' → (n ≤ length (hs_heap h))%nat → (n ≤ length (hs_heap h'))%nat →
  all_timed tasks n h → all_timed tasks n h'.
Proof.
  intros [P _ N _] Hl Hl' Ht i Hi.
  assert (Hin : hs_heap h' !!! i ∈ take n (hs_heap h)).
  { rewrite <- P. apply list_elem_of_lookup. exists i. by apply slot_in. }
  apply list_elem_of_lookup in Hin as [j Hj]. apply lookup_take_Some in Hj as [Hj Hjn].
  apply list_lookup_total_correct in Hj. rewrite <- Hj.
  apply (same_nodes_timed tasks (hs_nodes h)); auto.
Qed.

Section ext.
Context (n : nat) (f g : nat → Z) (E : ∀ k, (k < n)%nat → f k = g k).

Lemma ordered_ext lo : ordered lo n f → ordered lo n g.
Proof.
  intros H k Hk Hl. pose proof (parent_lt k ltac:(lia)).
  rewrite <- !E by lia. auto.
Qed.

Lemma risen_ext i : (i < n)%nat → risen n i f → risen n i g.
Proof.
  intros Hi [Ho Hg]. split; intros k Hk.
  - intros Hki. pose proof (parent_lt k ltac:(lia)). rewrite <- !E by lia. auto.
  - intros Hp H0. pose proof (parent_lt i ltac:(lia)). rewrite <- !E by lia. auto.
Qed.

Lemma sunk_ext lo i : (i < n)%nat → sunk lo n i f → sunk lo n i g.
Proof.
  intros Hi [Ho Hg]. split; intros k Hk.
  - intros Hl Hki. pose proof (parent_lt k ltac:(lia)). rewrite <- !E by lia. auto.
  - intros Hp H0 Hl. pose proof (parent_lt i ltac:(lia)). rewrite <- !E by lia. auto.
Qed.
End ext.

(** *** Sifting *)

Section sift.
Context (tasks : Z → timer_task) (n : nat).

Lemma less_keys h i j :
  all_timed tasks n h → (i < n)%nat → (j < n)%nat →
  llam_timer_heap_less tasks (hs_nodes h) (hs_heap h !!! i) (hs_heap h !!! j) =
  (keys tasks h i <? keys tasks h j).
Proof. intros Ht Hi Hj. by apply less_key; apply Ht. Qed.

Lemma swap_timed h i j :
  indexed n h → (i < n)%nat → (j < n)%nat → i ≠ j → all_timed tasks n h →
  all_timed tasks n (llam_timer_heap_swap h i j).
Proof.
  intros Hx Hi Hj Hij. apply shuffled_timed; [by apply swap_shuffled|apply Hx|].
  by apply swap_indexed.
Qed.

Lemma sift_up_loop_ok fuel h i :
  (i < fuel)%nat → (i < n)%nat → indexed n h → all_timed tasks n h →
  let h' := sift_up_loop tasks fuel h i in
  shuffled n h h' ∧ indexed n h' ∧
  (risen n i (keys tasks h) → ordered 0 n (keys tasks h')).
Proof.
  revert h i. induction fuel as [|fuel IH]; intros h i Hf Hi Hx Ht; [lia|]. cbn [sift_up_loop].
  destruct (Nat.eqb_spec i 0) as [->|Hne].
  { split_and!; [done..|]. intros Hr. apply (risen_ordered n 0); [done|lia]. }
  pose proof (parent_lt i ltac:(lia)) as Hp.
  rewrite less_keys by (done || lia).
  destruct (Z.ltb_spec (keys tasks h i) (keys tasks h (llam_timer_heap_parent i))) as [Hlt|Hge].
  - set (p := llam_timer_heap_parent i) in *.
    destruct (IH (llam_timer_heap_swap h i p) p) as (Hs & Hx' & Ho);
      [lia|lia|apply swap_indexed; done || lia|apply swap_timed; done || lia|].
    split_and!; [etrans; [apply (swap_shuffled n h i p); done || lia|done]|done|].
    intros Hr. apply Ho, (risen_ext n (swapped (keys tasks h) i p));
      [intros k Hk; symmetry; apply (swap_keys n); done || lia|lia|].
    apply risen_swap; done || lia.
  - split_and!; [done..|]. intros Hr. by apply (risen_ordered n i).
Qed.

Lemma best_child_spec h m c b i :
  all_timed tasks n h → (b < n)%nat → (i < n)%nat →
  (b = i ∨ ((i * 4 + 1 ≤ b < c)%nat ∧ keys tasks h b < keys tasks h i)) →
  (∀ k, (i * 4 + 1 ≤ k < c)%nat → (k < n)%nat → keys tasks h b <= keys tasks h k) →
  (i * 4 + 1 ≤ c)%nat →
  let b' := best_child tasks h n m c b in
  (b' < n)%nat ∧
  (b' = i ∨ ((i * 4 + 1 ≤ b' < c + m)%nat ∧ keys tasks h b' < keys tasks h i)) ∧
  (∀ k, (i * 4 + 1 ≤ k < c + m)%nat → (k < n)%nat → keys tasks h b' <= keys tasks h k).
Proof.
  intros Ht. revert c b. induction m as [|m IH]; intros c b Hb Hi Hor Hmin Hc;
    cbn [best_child].
  { rewrite Nat.add_0_r. auto. }
  replace (c + S m)%nat with (S c + m)%nat by lia.
  destruct (Nat.ltb_spec c n) as [Hcn|Hcn].
  - rewrite less_keys by done.
    apply IH; destruct (Z.ltb_spec (keys tasks h c) (keys tasks h b)); try lia.
    + right. split; [lia|]. destruct Hor as [->|[_ ?]]; lia.
    + intros k Hk Hkn. destruct (decide (k = c)) as [->|?]; [lia|].
      specialize (Hmin k ltac:(lia) Hkn). lia.
    + intros k Hk Hkn. destruct (decide (k = c)) as [->|?]; [lia|].
      apply Hmin; lia.
  - split_and!; [done|destruct Hor as [->|[? ?]]; [by left|right; split; [lia|done]]|].
    intros k Hk Hkn. apply Hmin; lia.
Qed.

(** A heap ordered but below [i] is ordered after [i] has been sifted down. *)
Lemma sift_down_loop_ok lo fuel h i :
  (n < fuel + i)%nat → (lo ≤ i < n)%nat → indexed n h → all_timed tasks n h →
  let h' := sift_down_loop tasks n fuel h i in
  shuffled n h h' ∧ indexed n h' ∧
  (sunk lo n i (keys tasks h) → ordered lo n (keys tasks h')).
Proof.
  revert h i. induction fuel as [|fuel IH]; intros h i Hf Hi Hx Ht; [lia|]. cbn [sift_down_loop].
  destruct (best_child_spec h LLAM_TIMER_HEAP_ARITY
              (i * LLAM_TIMER_HEAP_ARITY + 1) i i Ht) as (Hb & Hor & Hmin);
    unfold LLAM_TIMER_HEAP_ARITY in *; try lia.
  set (b := best_child _ _ _ _ _ _) in *.
  assert (Hch : ∀ k, (0 < k < n)%nat → llam_timer_heap_parent k = i →
                     keys tasks h b <= keys tasks h k).
  { intros k Hk E. pose proof (parent_spec k ltac:(lia)). apply Hmin; lia. }
  destruct (Nat.eqb_spec b i) as [E|Hne].
  - split_and!; [done..|]. intros Hs. apply (sunk_ordered lo n i); [done|].
    rewrite E in Hch. exact Hch.
  - destruct Hor as [|[Hbr Hlt]]; [done|].
    destruct (IH (llam_timer_heap_swap h i b) b) as (Hs & Hx' & Ho);
      [lia|lia|apply swap_indexed; done || lia|apply swap_timed; done || lia|].
    split_and!; [etrans; [apply (swap_shuffled n h i b); done || lia|done]|done|].
    intros Hr. apply Ho, (sunk_ext n (swapped (keys tasks h) i b));
      [intros k Hk; symmetry; apply (swap_keys n); done || lia|lia|].
    apply sunk_swap; done || lia.
Qed.

Lemma ordered_sunk i f : ordered (S i) n f → sunk i n i f.
Proof.
  intros Ho. split.
  - intros k Hk Hl Hne. apply Ho; [done|lia].
  - intros k Hk _ Hi Hl. pose proof (parent_lt i Hi). lia.
Qed.

Lemma heapify_ok m h :
  (m ≤ n)%nat → indexed n h → all_timed tasks n h →
  let h' := heapify m tasks n h in
  shuffled n h h' ∧ indexed n h' ∧
  (ordered m n (keys tasks h) → ordered 0 n (keys tasks h')).
Proof.
  revert h. induction m as [|m IH]; intros h Hm Hx Ht; cbn; [done|].
  destruct (sift_down_loop_ok m (S n) h m) as (Hs & Hx' & Ho); [lia|lia|done..|].
  fold (llam_timer_heap_sift_down tasks n h m) in Hs, Hx', Ho.
  destruct (IH (llam_timer_heap_sift_down tasks n h m)) as (Hs2 & Hx2 & Ho2);
    [lia|done|apply (shuffled_timed _ n h); [done|apply Hx|apply Hx'|done]|].
  split_and!; [by etrans|done|]. intros H. apply Ho2, Ho. by apply ordered_sunk.
Qed.
End sift.

(** ** Growing the array *)

Lemma max_items_lt : max_items * 2 < 2 ^ 64.
Proof. done. Qed.

Lemma u64_double c : 0 <= c → c <= max_items / 2 → u64 (c * 2) = c * 2 ∧ c * 2 <= max_items.
Proof.
  intros H0 Hc. pose proof (Z.mul_div_le max_items 2 ltac:(lia)).
  pose proof max_items_lt. unfold u64. rewrite Z.mod_small; lia.
Qed.

Lemma grow_cap_spec fuel needed c :
  0 < c <= max_items → needed <= max_items → needed <= c * 2 ^ Z.of_nat fuel →
  c <= grow_cap fuel needed c <= max_items ∧ needed <= grow_cap fuel needed c.
Proof.
  revert c. induction fuel as [|fuel IH]; intros c Hc Hn Hf; cbn [grow_cap].
  { change (2 ^ Z.of_nat 0) with 1 in Hf. lia. }
  destruct (Z.ltb_spec c needed); [|lia].
  destruct (Z.ltb_spec (max_items / 2) c); [lia|].
  destruct (u64_double c) as [-> ?]; [lia..|]. rewrite Nat2Z.inj_succ, Z.pow_succ_r in Hf by lia.
  destruct (IH (c * 2)); [lia..|]. lia.
Qed.

(** ** Views of one shard

    [frame sh w w']: the operation touched the processor of [sh], nodes, the
    error variables and the tape, and nothing else. *)
Record frame (sh : Z) (w w' : timer_world) : Prop := Frame {
  frame_others : ∀ x, x ≠ sh → t_shards w' x = t_shards w x;
  frame_id : sh_id (t_shards w' sh) = sh_id (t_shards w sh);
  frame_runtime : sh_runtime (t_shards w' sh) = sh_runtime (t_shards w sh);
  frame_tasks : t_tasks w' = t_tasks w;
  frame_active : t_active_shards w' = t_active_shards w;
  frame_aborted : t_aborted w' = t_aborted w }.

#[export] Instance frame_preorder sh : PreOrder (frame sh).
Proof.
  split; [by split|]. intros x y z [A B C D E F] [A' B' C' D' E' F'].
  split; try congruence. intros s Hs. by rewrite A', A.
Qed.

Section rules.
Context (sh : Z).
Implicit Types (w : timer_world).

Lemma wp_upd_processor f (Q : unit → timer_world → Prop) w :
  (∀ w', frame sh w w' → processor_of sh w' = f (processor_of sh w) →
         t_nodes w' = t_nodes w → Q tt w') →
  wp (upd_processor sh f) Q w.
Proof.
  intros H. apply H; cbn.
  - split; cbn; rewrite ?fn_lookup_insert; try done.
    intros x Hx. by rewrite fn_lookup_insert_ne.
  - unfold processor_of. cbn. by rewrite fn_lookup_insert.
  - done.
Qed.

Lemma wp_upd_node a f (Q : unit → timer_world → Prop) w :
  (∀ w', frame sh w w' → processor_of sh w' = processor_of sh w →
         t_nodes w' = <[a := f (t_nodes w a)]> (t_nodes w) → Q tt w') →
  wp (upd_node a f) Q w.
Proof. intros H. by apply H. Qed.

Lemma wp_set_errno e (Q : unit → timer_world → Prop) w :
  (∀ w', frame sh w w' → processor_of sh w' = processor_of sh w →
         t_nodes w' = t_nodes w → t_errno w' = e → Q tt w') →
  wp (set_errno e) Q w.
Proof. intros H. by apply H. Qed.

Lemma wp_record_fatal rt e (Q : unit → timer_world → Prop) w :
  (∀ w', frame sh w w' → processor_of sh w' = processor_of sh w →
         t_nodes w' = t_nodes w → Q tt w') →
  wp (llam_record_fatal rt e) Q w.
Proof.
  intros H. unfold llam_record_fatal.
  apply wp_if; intros _; [by apply wp_ret, H|].
  apply wp_modify. destruct (t_fatal_errno w rt =? 0); by apply H.
Qed.

Lemma wp_refresh_root (Q : unit → timer_world → Prop) w :
  (∀ w', frame sh w w' →
         processor_of sh w' = set_timers (expected_root sh w) (processor_of sh w) →
         t_nodes w' = t_nodes w → Q tt w') →
  wp (llam_timer_heap_refresh_root sh) Q w.
Proof.
  intros H. apply H; cbn.
  - split; cbn; rewrite ?fn_lookup_insert; try done.
    intros x Hx. by rewrite fn_lookup_insert_ne.
  - unfold processor_of. cbn. by rewrite fn_lookup_insert.
  - done.
Qed.

(** Running a primitive on the array. *)
Lemma wp_on_heap f heap (Q : unit → timer_world → Prop) w :
  pr_timer_heap (processor_of sh w) = Some heap →
  (∀ w', let h := f (t_tasks w) (pr_timer_heap_len (processor_of sh w))
                    (HStore heap (t_nodes w)) in
         frame sh w w' →
         processor_of sh w' = set_heap (Some (hs_heap h)) (processor_of sh w) →
         t_nodes w' = hs_nodes h → Q tt w') →
  wp (on_heap sh f) Q w.
Proof.
  intros E H. apply wp_modify. apply H; unfold heap_of; rewrite E; cbn.
  - split; cbn; rewrite ?fn_lookup_insert; try done.
    intros x Hx. by rewrite fn_lookup_insert_ne.
  - unfold processor_of. cbn. by rewrite fn_lookup_insert.
  - done.
Qed.
End rules.

(** ** The invariant of a heap *)

Definition store_of (sh : Z) (w : timer_world) : hstore :=
  HStore (heap_of sh w) (t_nodes w).

Definition heap_len (sh : Z) (w : timer_world) : nat :=
  pr_timer_heap_len (processor_of sh w).

(** The timers armed on a shard, in array order. *)
Definition timers_of (sh : Z) (w : timer_world) : list Z :=
  take (heap_len sh w) (heap_of sh w).

(** Everything but the order: the array has the recorded capacity, the nodes
    know their position, name tasks and are not [NULL], and the root pointer
    and the counter agree with the array. *)
Record heap_wf (sh : Z) (w : timer_world) : Prop := HeapWf {
  hw_cap : Z.of_nat (length (heap_of sh w)) = pr_timer_heap_cap (processor_of sh w);
  hw_max : pr_timer_heap_cap (processor_of sh w) <= max_items;
  hw_indexed : indexed (heap_len sh w) (store_of sh w);
  hw_timed : all_timed (t_tasks w) (heap_len sh w) (store_of sh w);
  hw_nonnull : Forall (λ a, a ≠ NULL) (timers_of sh w);
  hw_root : pr_timers (processor_of sh w) = expected_root sh w;
  hw_count : pr_timer_count (processor_of sh w) = Z.of_nat (heap_len sh w);
  hw_len : Z.of_nat (heap_len sh w) <= UINT32_MAX }.

Definition heap_ordered (sh : Z) (w : timer_world) : Prop :=
  ordered 0 (heap_len sh w) (keys (t_tasks w) (store_of sh w)).

Definition heap_ok (sh : Z) (w : timer_world) : Prop :=
  heap_wf sh w ∧ heap_ordered sh w.

(** Whether the reservation of [needed] slots will succeed: it fits in memory,
    and [realloc] answers if the array has to grow. *)
Definition can_reserve (sh : Z) (needed : Z) (w : timer_world) : Prop :=
  needed <= max_items ∧
  (needed <= pr_timer_heap_cap (processor_of sh w) ∨ head (t_realloc w) ≠ Some false).

Lemma reserve_spec sh needed w :
  Z.of_nat (length (heap_of sh w)) = pr_timer_heap_cap (processor_of sh w) →
  pr_timer_heap_cap (processor_of sh w) <= max_items →
  wp (llam_timer_heap_reserve sh needed) (λ ok w',
    frame sh w w' ∧ t_nodes w' = t_nodes w ∧
    (if (ok : bool) then
       can_reserve sh needed w ∧ ∃ heap cap, processor_of sh w' =
           set_heap_cap cap (set_heap heap (processor_of sh w)) ∧
         Z.of_nat (length (default [] heap)) = cap ∧ cap <= max_items ∧
         needed <= cap ∧
         (∀ n, (n ≤ length (heap_of sh w))%nat →
               take n (default [] heap) = take n (heap_of sh w)) ∧
         (0 < needed → heap ≠ None)
     else ¬ can_reserve sh needed w ∧ processor_of sh w' = processor_of sh w ∧
          t_errno w' = ENOMEM)) w.
Proof.
  intros Hl Hm. unfold llam_timer_heap_reserve.
  apply wp_bind, wp_gets. set (p := processor_of sh w) in *.
  destruct (Z.ltb_spec max_items needed) as [Hbig|Hfit]; cbn [orb].
  { apply wp_bind, (wp_set_errno sh). intros w' F P N E. apply wp_ret.
    split_and!; try done. intros [? _]. lia. }
  rewrite (proj2 (Z.ltb_ge _ _) Hm).
  destruct (Z.leb_spec needed (pr_timer_heap_cap p)) as [Hle|Hgt].
  { apply wp_ret. split_and!; [done..|split; [done|by left]|].
    exists (pr_timer_heap p), (pr_timer_heap_cap p).
    split_and!; [by destruct (processor_of sh w)|done..|].
    intros Hn E. unfold heap_of in Hl. fold p in Hl. rewrite E in Hl. cbn in Hl. lia. }
  set (c0 := if pr_timer_heap_cap p =? 0 then 64 else _).
  assert (Hc0 : 0 < c0 <= max_items ∧ pr_timer_heap_cap p <= c0).
  { subst c0. destruct (Z.eqb_spec (pr_timer_heap_cap p) 0) as [E|E]; [split_and!; [done|done|lia]|].
    destruct (Z.ltb_spec (max_items / 2) (pr_timer_heap_cap p)); [lia|].
    destruct (u64_double (pr_timer_heap_cap p)) as [-> ?]; lia. }
  destruct (grow_cap_spec 64 needed c0) as [Hg Hgn]; [apply Hc0|done| |].
  { change (Z.of_nat 64) with 64. pose proof max_items_lt. nia. }
  set (c := grow_cap 64 needed c0) in *. clearbody c c0.
  rewrite (proj2 (Z.ltb_ge max_items c)) by lia.
  apply wp_bind. unfold wp at 1. cbn [realloc_ok fst snd].
  set (w1 := TimerWorld _ _ _ _ _ _ _ _ _ _).
  assert (F1 : frame sh w w1) by done.
  destruct (default true (head (t_realloc w))) eqn:Ht.
  - apply wp_bind, (wp_upd_processor sh). intros w2 F2 P2 N2.
    apply wp_bind, (wp_upd_processor sh). intros w3 F3 P3 N3. apply wp_ret.
    split_and!; [by do 2 (etrans; [done|])|by rewrite N3, N2|..].
    { split; [done|]. right. by destruct (head (t_realloc w)) as [[|]|]. }
    eexists _, c. rewrite P3, P2. split_and!; [done|..|lia|lia| |done].
    + cbn. rewrite length_resize. lia.
    + intros n Hln. cbn. rewrite take_resize_le by lia. by apply resize_le.
  - apply wp_bind, (wp_set_errno sh). intros w' F P N E. apply wp_ret.
    split_and!; try done; [by etrans|]. intros [_ [Hcap|Hh]]; [fold p in Hcap; lia|].
    destruct (head (t_realloc w)) as [[|]|]; done.
Qed.

(** ** Writing one slot

    [put h i a] is the pair of stores [heap[i] = a; a->heap_index = i]. *)
Definition put (h : hstore) (i : nat) (a : Z) : hstore :=
  HStore (<[i := a]> (hs_heap h))
         (<[a := set_heap_index i (hs_nodes h a)]> (hs_nodes h)).

Section put.
Context (h : hstore) (i : nat) (a : Z) (Hi : (i < length (hs_heap h))%nat).

Lemma put_slot k :
  hs_heap (put h i a) !!! k = if (k =? i)%nat then a else hs_heap h !!! k.
Proof.
  cbn. destruct (Nat.eqb_spec k i) as [->|Hne].
  - by rewrite list_lookup_total_insert_eq.
  - by rewrite list_lookup_total_insert_ne.
Qed.

Lemma put_same : same_nodes (hs_nodes h) (hs_nodes (put h i a)).
Proof. apply set_heap_index_same. Qed.

Lemma put_keys tasks k :
  keys tasks (put h i a) k =
  if (k =? i)%nat then node_key tasks (hs_nodes h a) else keys tasks h k.
Proof.
  unfold keys. rewrite put_slot, (same_nodes_key tasks (hs_nodes h)) by apply put_same.
  by destruct (k =? i)%nat.
Qed.

(** Positions stay right when [a] is in no other slot. *)
Lemma put_indexed m n :
  indexed m h → (n ≤ length (hs_heap h))%nat →
  (∀ k, (k < n)%nat → k ≠ i → (k < m)%nat ∧ hs_heap h !!! k ≠ a) →
  indexed n (put h i a).
Proof.
  intros [_ Hx] Hl Hk. split; [by cbn; rewrite length_insert|].
  intros k Hkn. rewrite put_slot. cbn. destruct (Nat.eqb_spec k i) as [->|Hne].
  - by rewrite fn_lookup_insert.
  - destruct (Hk k Hkn Hne) as [Hkm Ha]. rewrite fn_lookup_insert_ne by done. auto.
Qed.

Lemma put_timed tasks m n :
  all_timed tasks m h → timed tasks (hs_nodes h a) →
  (∀ k, (k < n)%nat → k ≠ i → (k < m)%nat) → all_timed tasks n (put h i a).
Proof.
  intros Ht Ha Hk k Hkn. apply (same_nodes_timed tasks (hs_nodes h)); [apply put_same|].
  rewrite put_slot. destruct (Nat.eqb_spec k i) as [|Hne]; [done|]. apply Ht. auto.
Qed.
End put.

Lemma not_in_slots h n a :
  (n ≤ length (hs_heap h))%nat → a ∉ take n (hs_heap h) →
  ∀ k, (k < n)%nat → hs_heap h !!! k ≠ a.
Proof.
  intros Hl Ha k Hk E. apply Ha, list_elem_of_lookup. exists k.
  rewrite <- E. by apply slot_in.
Qed.

(** Appending a node, as [push] does. *)
Section append.
Context (tasks : Z → timer_task) (h : hstore) (n : nat) (a : Z).
Context (Hx : indexed n h) (Hn : (n < length (hs_heap h))%nat).
Context (Ha : a ∉ take n (hs_heap h)).

Lemma append_indexed : indexed (S n) (put h n a).
Proof.
  apply (put_indexed h n a) with n; [done..|lia|].
  intros k Hk Hne. split; [lia|]. apply not_in_slots with n; [apply Hx|done|lia].
Qed.

Lemma append_take : take (S n) (hs_heap (put h n a)) = take n (hs_heap h) ++ [a].
Proof.
  cbn. rewrite insert_take_drop by done.
  rewrite take_app_ge by (rewrite length_take; lia).
  rewrite length_take, Nat.min_l by lia.
  by replace (S n - n)%nat with 1%nat by lia.
Qed.

Lemma append_risen :
  ordered 0 n (keys tasks h) → risen (S n) n (keys tasks (put h n a)).
Proof.
  intros Ho. split; intros k Hk.
  - intros Hne. pose proof (parent_lt k ltac:(lia)).
    rewrite !put_keys by done.
    rewrite !(proj2 (Nat.eqb_neq _ _)) by lia. apply Ho; lia.
  - intros Hp. pose proof (parent_lt k ltac:(lia)). lia.
Qed.
End append.

Lemma store_of_eq sh w h :
  pr_timer_heap (processor_of sh w) = Some (hs_heap h) → t_nodes w = hs_nodes h →
  store_of sh w = h.
Proof. intros E N. unfold store_of, heap_of. rewrite E, N. by destruct h. Qed.

Lemma expected_root_eq sh w heap :
  pr_timer_heap (processor_of sh w) = Some heap →
  expected_root sh w = if (0 <? heap_len sh w)%nat then heap !!! 0%nat else NULL.
Proof. intros E. unfold expected_root, heap_of, heap_len. by rewrite E. Qed.

(** ** Push *)

Lemma count_increment_spec sh w :
  is_u32 (pr_timer_count (processor_of sh w)) →
  wp (llam_timer_count_increment sh) (λ ok w',
    frame sh w w' ∧ t_nodes w' = t_nodes w ∧
    if (ok : bool) then
      pr_timer_count (processor_of sh w) < UINT32_MAX ∧
      processor_of sh w' =
        set_timer_count (pr_timer_count (processor_of sh w) + 1) (processor_of sh w)
    else pr_timer_count (processor_of sh w) = UINT32_MAX ∧
         processor_of sh w' = processor_of sh w ∧ t_errno w' = EOVERFLOW) w.
Proof.
  intros [H0 H1]. unfold llam_timer_count_increment.
  apply wp_bind, wp_gets, wp_bind, wp_gets.
  destruct (Z.eqb_spec (pr_timer_count (processor_of sh w)) UINT32_MAX) as [E|E].
  - apply wp_bind, (wp_record_fatal sh). intros w1 F1 P1 N1.
    apply wp_bind, (wp_set_errno sh). intros w2 F2 P2 N2 E2. apply wp_ret.
    split_and!; [by etrans|congruence|done|congruence|done].
  - apply wp_bind, (wp_upd_processor sh). intros w1 F1 P1 N1. apply wp_ret.
    unfold u32 in P1. rewrite Z.mod_small in P1 by (unfold UINT32_MAX in E; lia).
    split_and!; [done..|unfold UINT32_MAX in *; lia|done].
Qed.

(** What a push does: the node is added, or nothing but the spare capacity and
    the error variables changes. *)
Definition pushed (sh node : Z) (w : timer_world) (ok : bool) (w' : timer_world) : Prop :=
  frame sh w w' ∧ heap_ok sh w' ∧
  if ok then
    timers_of sh w' ≡ₚ node :: timers_of sh w ∧
    same_nodes (t_nodes w) (t_nodes w') ∧
    (∀ a, a ∉ node :: timers_of sh w → t_nodes w' a = t_nodes w a)
  else
    timers_of sh w' = timers_of sh w ∧ t_nodes w' = t_nodes w ∧
    ((t_errno w' = ENOMEM ∧ ¬ can_reserve sh (Z.of_nat (heap_len sh w) + 1) w) ∨
     (t_errno w' = EOVERFLOW ∧ Z.of_nat (heap_len sh w) = UINT32_MAX)).

(** Two arrays with the same first [n] slots over the same nodes. *)
Section agree.
Context (n : nat) (h h' : hstore).
Context (Ht : take n (hs_heap h') = take n (hs_heap h)).
Context (Hn : ∀ a, a ∈ take n (hs_heap h) → hs_nodes h' a = hs_nodes h a).
Context (Hl : (n ≤ length (hs_heap h))%nat) (Hl' : (n ≤ length (hs_heap h'))%nat).

Lemma agree_slot k : (k < n)%nat → hs_heap h' !!! k = hs_heap h !!! k.
Proof.
  intros Hk. apply (inj Some).
  by rewrite <- !(slot_in n), Ht by done.
Qed.

Lemma agree_node k :
  (k < n)%nat → hs_nodes h' (hs_heap h' !!! k) = hs_nodes h (hs_heap h !!! k).
Proof.
  intros Hk. rewrite agree_slot by done. apply Hn, list_elem_of_lookup.
  exists k. by apply slot_in.
Qed.

Lemma agree_indexed : indexed n h → indexed n h'.
Proof. intros [_ H]. split; [done|]. intros k Hk. rewrite agree_node by done. auto. Qed.

Lemma agree_timed tasks : all_timed tasks n h → all_timed tasks n h'.
Proof. intros H k Hk. rewrite agree_node by done. auto. Qed.

Lemma agree_ordered tasks : ordered 0 n (keys tasks h) → ordered 0 n (keys tasks h').
Proof.
  apply ordered_ext. intros k Hk. unfold keys. by rewrite agree_node.
Qed.
End agree.

(** The invariant read off a store. *)
Lemma heap_wf_intro sh w h n :
  heap_of sh w = hs_heap h → t_nodes w = hs_nodes h →
  heap_len sh w = n → indexed n h → all_timed (t_tasks w) n h →
  Forall (λ a, a ≠ NULL) (take n (hs_heap h)) →
  Z.of_nat (length (hs_heap h)) = pr_timer_heap_cap (processor_of sh w) →
  pr_timer_heap_cap (processor_of sh w) <= max_items →
  pr_timers (processor_of sh w) =
    (if (0 <? n)%nat then hs_heap h !!! 0%nat else NULL) →
  pr_timer_count (processor_of sh w) = Z.of_nat n → Z.of_nat n <= UINT32_MAX →
  heap_wf sh w ∧ store_of sh w = h.
Proof.
  intros E N <- Hx Ht Hnn Hc Hm Hr Hct Hl.
  assert (Es : store_of sh w = h) by (unfold store_of; rewrite E, N; by destruct h).
  split; [|done]. split; unfold timers_of, expected_root; rewrite ?Es, ?E; done.
Qed.

Lemma heap_ok_intro sh w h n :
  heap_of sh w = hs_heap h → t_nodes w = hs_nodes h →
  heap_len sh w = n → indexed n h → all_timed (t_tasks w) n h →
  ordered 0 n (keys (t_tasks w) h) → Forall (λ a, a ≠ NULL) (take n (hs_heap h)) →
  Z.of_nat (length (hs_heap h)) = pr_timer_heap_cap (processor_of sh w) →
  pr_timer_heap_cap (processor_of sh w) <= max_items →
  pr_timers (processor_of sh w) =
    (if (0 <? n)%nat then hs_heap h !!! 0%nat else NULL) →
  pr_timer_count (processor_of sh w) = Z.of_nat n → Z.of_nat n <= UINT32_MAX →
  heap_ok sh w.
Proof.
  intros E N El Hx Ht Ho Hnn Hc Hm Hr Hct Hl.
  destruct (heap_wf_intro sh w h n) as [W Es]; try done.
  split; [done|]. unfold heap_ordered. by rewrite Es, El.
Qed.

Lemma timers_of_eq sh w heap n :
  pr_timer_heap (processor_of sh w) = Some heap → heap_len sh w = n →
  timers_of sh w = take n heap.
Proof. intros E <-. unfold timers_of, heap_of. by rewrite E. Qed.

(** A heap whose array has been reallocated. *)
Lemma regrown sh w w' oheap cap :
  let heap := default [] oheap in
  heap_ok sh w → frame sh w w' → t_nodes w' = t_nodes w →
  processor_of sh w' = set_heap_cap cap (set_heap oheap (processor_of sh w)) →
  Z.of_nat (length heap) = cap → cap <= max_items →
  Z.of_nat (heap_len sh w) <= cap →
  take (heap_len sh w) heap = timers_of sh w →
  heap_ok sh w' ∧ timers_of sh w' = timers_of sh w.
Proof.
  intros heap [W O] F N P Hl Hm Hn Ht.
  assert (Eh : heap_of sh w' = heap) by (unfold heap_of; by rewrite P).
  assert (El : heap_len sh w' = heap_len sh w) by (unfold heap_len; by rewrite P).
  assert (Hln : (heap_len sh w ≤ length heap)%nat) by lia.
  destruct (hw_indexed _ _ W) as [Hlen _].
  pose proof (agree_slot (heap_len sh w) (store_of sh w) (HStore heap (t_nodes w)) Ht Hlen Hln) as Hs.
  split; [|unfold timers_of at 1; by rewrite Eh, El].
  apply (heap_ok_intro sh w' (HStore heap (t_nodes w)) (heap_len sh w));
    rewrite ?P, ?(frame_tasks _ _ _ F); try done;
    cbn [set_heap_cap set_heap pr_timers pr_timer_count pr_timer_heap_cap hs_heap].
  - apply (agree_indexed _ (store_of sh w)); [done..|apply W].
  - apply (agree_timed _ (store_of sh w)); [done..|apply W].
  - apply (agree_ordered _ (store_of sh w)); done.
  - rewrite Ht. apply W.
  - rewrite (hw_root _ _ W). unfold expected_root. fold (heap_len sh w).
    destruct (Nat.ltb_spec 0 (heap_len sh w)) as [H0|H0]; [|done].
    symmetry. by apply Hs.
  - apply W.
  - apply W.
Qed.

Lemma heap_ok_same sh w w' :
  frame sh w w' → processor_of sh w' = processor_of sh w → t_nodes w' = t_nodes w →
  heap_ok sh w → heap_ok sh w' ∧ timers_of sh w' = timers_of sh w.
Proof.
  intros F P N [W O].
  assert (Eh : heap_of sh w' = heap_of sh w) by (unfold heap_of; by rewrite P).
  assert (El : heap_len sh w' = heap_len sh w) by (unfold heap_len; by rewrite P).
  assert (Es : store_of sh w' = store_of sh w) by (unfold store_of; by rewrite Eh, N).
  assert (Et : timers_of sh w' = timers_of sh w) by (unfold timers_of; by rewrite Eh, El).
  split; [|done]. destruct W. split; [split|];
    unfold heap_ordered, expected_root in *; fold (heap_len sh w') in *; fold (heap_len sh w) in *;
    rewrite ?Eh, ?El, ?Es, ?Et, ?P, ?(frame_tasks _ _ _ F); done.
Qed.

Lemma shuffled_length n h h' :
  shuffled n h h' → length (hs_heap h') = length (hs_heap h).
Proof.
  intros [P R _ _].
  rewrite <- (take_drop n (hs_heap h')), <- (take_drop n (hs_heap h)), !length_app, R.
  by rewrite (Permutation_length P).
Qed.

(** The commit of a push, once the array has room. *)
Lemma push_commit sh node w w' heap n :
  let tasks := t_tasks w in
  let h := llam_timer_heap_sift_up tasks (put (HStore heap (t_nodes w)) n node) n in
  heap_ok sh w → pr_timer_heap (processor_of sh w) = Some heap → heap_len sh w = n →
  (n < length heap)%nat → Z.of_nat n < UINT32_MAX → node ≠ NULL →
  node ∉ timers_of sh w → timed tasks (t_nodes w node) →
  frame sh w w' → t_nodes w' = hs_nodes h →
  processor_of sh w' = set_timers (hs_heap h !!! 0%nat)
    (set_heap (Some (hs_heap h)) (set_heap_len (S n)
      (set_timer_count (Z.of_nat n + 1) (processor_of sh w)))) →
  heap_ok sh w' ∧ timers_of sh w' ≡ₚ node :: timers_of sh w ∧
  same_nodes (t_nodes w) (t_nodes w') ∧
  (∀ a, a ∉ node :: timers_of sh w → t_nodes w' a = t_nodes w a).
Proof.
  intros tasks h [W O] E El Hn Hmax Hnn Hni Htn F N P.
  rewrite (timers_of_eq _ _ _ _ E El) in Hni |- *.
  pose proof (store_of_eq sh w (HStore heap (t_nodes w)) E eq_refl) as Es.
  pose proof (hw_indexed _ _ W) as Hx. pose proof (hw_timed _ _ W) as Ht.
  unfold heap_ordered in O. rewrite Es, El in Hx, Ht, O.
  set (h0 := HStore heap (t_nodes w)) in *.
  pose proof (append_indexed h0 n node Hx Hn Hni) as Hx0.
  assert (Ht0 : all_timed tasks (S n) (put h0 n node))
    by (apply (put_timed h0 n node Hn tasks n); [done..|intros; lia]).
  destruct (sift_up_loop_ok tasks (S n) (S n) (put h0 n node) n)
    as (Hs & Hx' & Ho); [lia|lia|done..|].
  fold (llam_timer_heap_sift_up tasks (put h0 n node) n) in Hs, Hx', Ho. fold h in Hs, Hx', Ho.
  pose proof (shuffled_perm _ _ _ Hs) as Hp. rewrite append_take in Hp by done.
  assert (El' : heap_len sh w' = S n) by (unfold heap_len; by rewrite P).
  rewrite (timers_of_eq _ _ (hs_heap h) _ ltac:(by rewrite P) El').
  split_and!.
  - apply (heap_ok_intro sh w' h (S n)); [by unfold heap_of; rewrite P|..]; rewrite ?P, ?(frame_tasks _ _ _ F); try done.
    + apply (shuffled_timed _ _ (put h0 n node)); [done|apply Hx0|apply Hx'|done].
    + by apply Ho, append_risen.
    + rewrite Hp. apply Forall_app. split; [|by apply Forall_singleton].
      pose proof (hw_nonnull _ _ W) as H. by rewrite (timers_of_eq _ _ _ _ E El) in H.
    + rewrite (shuffled_length _ _ _ Hs). cbn [put hs_heap]. rewrite length_insert.
      pose proof (hw_cap _ _ W) as Hc. unfold heap_of in Hc. by rewrite E in Hc.
    + apply W.
    + cbn. lia.
    + lia.
  - rewrite Hp. by rewrite Permutation_app_comm.
  - rewrite N. etrans; [apply (put_same h0 n node)|apply Hs].
  - intros a Ha. rewrite N, (shuffled_out _ _ _ Hs).
    + cbn. rewrite fn_lookup_insert_ne; [done|]. set_solver.
    + rewrite append_take by done. set_solver.
Qed.

(** The stores of a push, after the counter has been incremented. *)
Lemma push_store_spec sh node w w2 heap n :
  heap_ok sh w → pr_timer_heap (processor_of sh w) = Some heap → heap_len sh w = n →
  (n < length heap)%nat → Z.of_nat n < UINT32_MAX → node ≠ NULL →
  node ∉ timers_of sh w → timed (t_tasks w) (t_nodes w node) →
  frame sh w w2 → t_nodes w2 = t_nodes w →
  processor_of sh w2 = set_timer_count (Z.of_nat n + 1) (processor_of sh w) →
  wp (upd_processor sh (set_heap_len (S n)) ;;
      store_heap sh n node ;;
      upd_node node (set_heap_index n) ;;
      on_heap sh (λ tasks _ h, llam_timer_heap_sift_up tasks h n) ;;
      llam_timer_heap_refresh_root sh ;;
      mret true)
     (λ ok w', ok = true ∧ pushed sh node w true w') w2.
Proof.
  intros Hok E El Hn Hlt Hnn Hni Htn F2 N2 P2.
  apply wp_bind, (wp_upd_processor sh). intros w3 F3 P3 N3.
  apply wp_bind, (wp_upd_processor sh). intros w4 F4 P4 N4.
  apply wp_bind, (wp_upd_node sh). intros w5 F5 P5 N5.
  assert (F5' : frame sh w w5) by (do 3 (etrans; [done|]); done).
  apply wp_bind. eapply (wp_on_heap sh).
  { rewrite P5, P4, P3, P2. cbn. by rewrite E. }
  intros w6 h6 F6 P6 N6.
  apply wp_bind, (wp_refresh_root sh). intros w7 F7 P7 N7. apply wp_ret.
  assert (F7' : frame sh w w7) by (do 2 (etrans; [done|]); done).
  assert (Eh6 : h6 = llam_timer_heap_sift_up (t_tasks w)
                       (put (HStore heap (t_nodes w)) n node) n)
    by (subst h6; by rewrite (frame_tasks _ _ _ F5'), N5, N4, N3, N2).
  clearbody h6. subst h6. do 2 (split; [done|]).
  apply (push_commit sh node w w7 heap n); try done; [by rewrite N7|].
  rewrite P7, (expected_root_eq _ _ _ ltac:(by rewrite P6)), P6, P5, P4, P3, P2.
  unfold heap_len. by rewrite P6, P5, P4, P3, P2.
Qed.

Lemma push_spec sh node w :
  heap_ok sh w → node ≠ NULL → node ∉ timers_of sh w →
  timed (t_tasks w) (t_nodes w node) →
  wp (llam_timer_heap_push_locked sh node) (λ ok w', pushed sh node w ok w' ∧
    (ok = true → can_reserve sh (Z.of_nat (heap_len sh w) + 1) w ∧
                 Z.of_nat (heap_len sh w) < UINT32_MAX)) w.
Proof.
  intros Hok Hnn Hni Htn. pose proof Hok as [W O]. unfold llam_timer_heap_push_locked.
  apply wp_bind, wp_gets. fold (heap_len sh w). set (n := heap_len sh w) in *.
  apply wp_if; intros Hbig.
  { apply wp_bind, (wp_set_errno sh). intros w1 F1 P1 N1 E1. apply wp_ret.
    destruct (heap_ok_same sh w w1 F1 P1 N1 Hok) as [Hok1 Et1].
    split; [|done]. split_and!; try done. left. split; [done|]. fold n. intros [? _].
    apply Z.leb_le in Hbig. lia. }
  apply wp_bind. eapply wp_mono;
    [apply reserve_spec; apply W|].
  intros ok w1 (F1 & N1 & H1). destruct ok; cbn [negb].
  2: { destruct H1 as (Hno & P1 & E1). apply wp_ret.
    destruct (heap_ok_same sh w w1 F1 P1 N1 Hok) as [Hok1 Et1].
    split; [|done]. split_and!; try done. by left. }
  destruct H1 as (Hcan & [heap|] & cap & P1 & Hc & Hm & Hn & Ht & Hsome); [|exfalso; apply Hsome; [lia|done]].
  cbn in Hc, Ht. destruct (hw_indexed _ _ W) as [Hlen _].
  destruct (regrown sh w w1 (Some heap) cap) as [Hok1 Et1]; try done; [fold n; lia|by apply Ht|].
  assert (Ect : pr_timer_count (processor_of sh w1) = Z.of_nat n)
    by (rewrite P1; apply W).
  apply wp_bind. eapply wp_mono; [apply count_increment_spec|].
  { rewrite Ect. pose proof (hw_len _ _ W). unfold is_u32, UINT32_MAX in *. lia. }
  rewrite Ect. intros ok w2 (F2 & N2 & H2). destruct ok; cbn [negb].
  2: { destruct H2 as (Hno & P2 & E2). apply wp_ret.
    destruct (heap_ok_same sh w1 w2 F2 P2 N2 Hok1) as [Hok2 Et2].
    split; [|done]. split_and!; [by etrans|done|congruence|congruence|by right]. }
  destruct H2 as [Hlt P2].
  assert (Elen : pr_timer_heap_len (processor_of sh w2) = n) by by rewrite P2, P1.
  apply wp_bind, wp_gets. rewrite Elen.
  eapply wp_mono; [apply (push_store_spec sh node w1 w2 heap n); try done|].
  - by rewrite P1.
  - unfold heap_len. by rewrite P1.
  - lia.
  - by rewrite Et1.
  - by rewrite (frame_tasks _ _ _ F1), N1.
  - intros ok w7 [-> (F7 & Hok7 & H7)]. rewrite Et1, N1 in H7.
    split; [|done]. split_and!; [by etrans|done|apply H7..].
Qed.

(** ** Removal *)

(** Filling the slot [i] with the last node of a heap of [S n] nodes. *)
Section vacate.
Context (tasks : Z → timer_task) (h : hstore) (n i : nat).
Context (Hx : indexed (S n) h) (Ht : all_timed tasks (S n) h) (Hi : (i < n)%nat).
Let last := hs_heap h !!! n.

Lemma vacate_bound : (i < length (hs_heap h))%nat.
Proof. destruct Hx. lia. Qed.

Lemma vacate_indexed : indexed n (put h i last).
Proof.
  apply (put_indexed h i last vacate_bound (S n)); [done|destruct Hx; lia|].
  intros k Hk Hne. split; [lia|]. intros E.
  apply (indexed_inj (S n) h) in E; [lia|done|lia..].
Qed.

Lemma vacate_timed : all_timed tasks n (put h i last).
Proof.
  apply (put_timed h i last vacate_bound tasks (S n)); [done|apply Ht; lia|intros; lia].
Qed.

Lemma take_last : take (S n) (hs_heap h) = take n (hs_heap h) ++ [last].
Proof.
  apply take_S_r, list_lookup_lookup_total_lt, Hx.
Qed.

Lemma vacate_perm :
  (hs_heap h !!! i) :: take n (hs_heap (put h i last)) ≡ₚ take (S n) (hs_heap h).
Proof.
  rewrite Permutation_cons_append, take_last. cbn. rewrite take_insert_lt by done.
  assert (Hl : length (take n (hs_heap h)) = n) by (rewrite length_take; destruct Hx; lia).
  set (l := take n (hs_heap h)) in *. set (x := hs_heap h !!! i).
  assert (Ex : l !! i = Some x) by (apply slot_in; [destruct Hx; lia|done]).
  rewrite <- (Permutation_insert_swap (l ++ [last]) i n x last).
  - rewrite insert_app_l by lia. rewrite insert_app_r_alt by (rewrite length_insert; lia).
    rewrite length_insert, Hl. by rewrite Nat.sub_diag.
  - by rewrite lookup_app_l by lia.
  - rewrite lookup_app_r by lia. by rewrite Hl, Nat.sub_diag.
Qed.

Lemma vacate_keys k :
  (k < n)%nat →
  keys tasks (put h i last) k = if (k =? i)%nat then keys tasks h n else keys tasks h k.
Proof. intros Hk. by rewrite put_keys by apply vacate_bound. Qed.

(** A child of the filled slot is not below the parent of that slot. *)
Lemma vacate_grand k :
  ordered 0 (S n) (keys tasks h) → (0 < k < n)%nat → llam_timer_heap_parent k = i →
  (0 < i)%nat → keys tasks h (llam_timer_heap_parent i) <= keys tasks h k ∧
  keys tasks h i <= keys tasks h k.
Proof.
  intros Ho Hk E H0. pose proof (Ho k ltac:(lia) ltac:(lia)) as H1.
  pose proof (Ho i ltac:(lia) ltac:(lia)) as H2. rewrite E in H1. lia.
Qed.

Lemma vacate_risen :
  ordered 0 (S n) (keys tasks h) → (0 < i)%nat →
  keys tasks h n < keys tasks h (llam_timer_heap_parent i) →
  risen n i (keys tasks (put h i last)).
Proof.
  intros Ho H0 Hlt. pose proof (parent_lt i H0) as Hpi. split; intros k Hk.
  - intros Hne. pose proof (parent_lt k ltac:(lia)) as Hpk.
    rewrite !vacate_keys by lia. rewrite (proj2 (Nat.eqb_neq k i) Hne).
    destruct (Nat.eqb_spec (llam_timer_heap_parent k) i) as [E|E].
    + pose proof (vacate_grand k Ho Hk E H0). lia.
    + apply Ho; lia.
  - intros E _. pose proof (parent_lt k ltac:(lia)) as Hpk. rewrite !vacate_keys by lia.
    rewrite !(proj2 (Nat.eqb_neq _ i)) by lia. by apply vacate_grand.
Qed.

Lemma vacate_sunk :
  ordered 0 (S n) (keys tasks h) →
  ((0 < i)%nat → keys tasks h (llam_timer_heap_parent i) <= keys tasks h n) →
  sunk 0 n i (keys tasks (put h i last)).
Proof.
  intros Ho Hge. split; intros k Hk.
  - intros _ Hne. pose proof (parent_lt k ltac:(lia)) as Hpk.
    rewrite !vacate_keys by lia. rewrite (proj2 (Nat.eqb_neq _ i) Hne).
    destruct (Nat.eqb_spec k i) as [->|E]; [apply Hge; lia|apply Ho; lia].
  - intros E H0 _. pose proof (parent_lt k ltac:(lia)) as Hpk.
    pose proof (parent_lt i H0). rewrite !vacate_keys by lia.
    rewrite !(proj2 (Nat.eqb_neq _ i)) by lia. by apply vacate_grand.
Qed.

(** The sift chosen by [llam_timer_heap_remove_at_locked] restores the order. *)
Definition refilled : hstore :=
  if (0 <? i)%nat &&
     llam_timer_heap_less tasks (hs_nodes (put h i last)) last
       (hs_heap (put h i last) !!! llam_timer_heap_parent i)
  then llam_timer_heap_sift_up tasks (put h i last) i
  else llam_timer_heap_sift_down tasks n (put h i last) i.

Lemma refilled_ok :
  shuffled n (put h i last) refilled ∧ indexed n refilled ∧
  (ordered 0 (S n) (keys tasks h) → ordered 0 n (keys tasks refilled)).
Proof.
  pose proof vacate_indexed as Hx1. pose proof vacate_timed as Ht1.
  unfold refilled. set (h1 := put h i last) in *.
  destruct (sift_up_loop_ok tasks n (S i) h1 i) as (Su & Xu & Ou); [lia|done..|].
  destruct (sift_down_loop_ok tasks n 0 (S n) h1 i) as (Sd & Xd & Od); [lia|lia|done..|].
  assert (El : (0 < i)%nat →
    llam_timer_heap_less tasks (hs_nodes h1) last (hs_heap h1 !!! llam_timer_heap_parent i) =
    (keys tasks h n <? keys tasks h (llam_timer_heap_parent i))).
  { intros H0. pose proof (parent_lt i H0).
    replace last with (hs_heap h1 !!! i) by
      (unfold h1; rewrite put_slot by apply vacate_bound; by rewrite Nat.eqb_refl).
    rewrite (less_keys tasks n h1 i) by (done || lia). unfold h1.
    rewrite !vacate_keys by lia. rewrite Nat.eqb_refl.
    by rewrite (proj2 (Nat.eqb_neq _ i)) by lia. }
  destruct (Nat.ltb_spec 0 i) as [H0|H0]; cbn [andb].
  - rewrite (El H0). destruct (Z.ltb_spec (keys tasks h n) (keys tasks h (llam_timer_heap_parent i))).
    + split_and!; [done..|]. intros Ho. by apply Ou, vacate_risen.
    + split_and!; [done..|]. intros Ho. by apply Od, vacate_sunk.
  - split_and!; [done..|]. intros Ho. apply Od, vacate_sunk; [done|lia].
Qed.
End vacate.

(** What a removal does. *)
Record removed (sh node : Z) (w w' : timer_world) : Prop := Removed {
  rm_frame : frame sh w w';
  rm_ok : heap_ok sh w';
  rm_perm : node :: timers_of sh w' ≡ₚ timers_of sh w;
  rm_nodes : same_nodes (t_nodes w) (t_nodes w');
  rm_index : tn_heap_index (t_nodes w' node) = 0%nat;
  rm_out : ∀ a, a ∉ timers_of sh w → t_nodes w' a = t_nodes w a;
  rm_callbacks : pr_timer_callbacks_active (processor_of sh w') =
                 pr_timer_callbacks_active (processor_of sh w) }.

(** The array before the last slot is cleared. *)
Record pulled (sh node : Z) (n : nat) (w : timer_world) (h : hstore) : Prop := Pulled {
  pl_perm : node :: take n (hs_heap h) ≡ₚ timers_of sh w;
  pl_indexed : indexed n h;
  pl_timed : all_timed (t_tasks w) n h;
  pl_ordered : ordered 0 n (keys (t_tasks w) h);
  pl_nodes : same_nodes (t_nodes w) (hs_nodes h);
  pl_out : ∀ a, a ∉ timers_of sh w → hs_nodes h a = t_nodes w a;
  pl_length : length (hs_heap h) = length (heap_of sh w) }.

Lemma pulled_last sh w n :
  heap_ok sh w → heap_len sh w = S n →
  pulled sh (heap_of sh w !!! n) n w (store_of sh w).
Proof.
  intros [W O] El. pose proof (hw_indexed _ _ W) as Hx. pose proof (hw_timed _ _ W) as Ht.
  unfold heap_ordered in O. rewrite El in Hx, Ht, O. split; try done.
  - unfold timers_of. rewrite El. pose proof (take_last (store_of sh w) n Hx) as E.
    cbn in E. rewrite E. apply Permutation_cons_append.
  - destruct Hx as [? Hx]. split; [lia|]. intros i Hi. apply Hx. lia.
  - intros i Hi. apply Ht. lia.
  - intros k Hk. apply O. lia.
Qed.

Lemma pulled_refilled sh w n i :
  heap_ok sh w → heap_len sh w = S n → (i < n)%nat →
  pulled sh (heap_of sh w !!! i) n w (refilled (t_tasks w) (store_of sh w) n i).
Proof.
  intros [W O] El Hi. pose proof (hw_indexed _ _ W) as Hx. pose proof (hw_timed _ _ W) as Ht.
  unfold heap_ordered in O. rewrite El in Hx, Ht, O.
  destruct (refilled_ok (t_tasks w) (store_of sh w) n i Hx Ht Hi) as (Hs & Hx' & Ho).
  pose proof (vacate_perm (store_of sh w) n i Hx Hi) as Hp.
  pose proof (vacate_indexed (store_of sh w) n i Hx Hi) as Hx1.
  split; try done.
  - rewrite (shuffled_perm _ _ _ Hs). unfold timers_of. rewrite El. exact Hp.
  - apply (shuffled_timed _ _ _ _ Hs); [apply Hx1|apply Hx'|by apply vacate_timed].
  - by apply Ho.
  - etrans; [apply (put_same (store_of sh w) i)|apply Hs].
  - intros a Ha. unfold timers_of in Ha. rewrite El in Ha.
    rewrite (shuffled_out _ _ _ Hs).
    + cbn. rewrite fn_lookup_insert_ne; [done|]. intros <-. apply Ha.
      pose proof (take_last (store_of sh w) n Hx) as E. cbn in E. rewrite E. set_solver.
    + intros H. apply Ha. cbn in Hp. rewrite <- Hp. set_solver.
  - rewrite (shuffled_length _ _ _ Hs). cbn. by rewrite length_insert.
Qed.

Lemma remove_commit sh w w' h n node :
  heap_ok sh w → heap_len sh w = S n → pulled sh node n w h → frame sh w w' →
  t_nodes w' = <[node := set_heap_index 0 (hs_nodes h node)]> (hs_nodes h) →
  processor_of sh w' = set_timer_count (Z.of_nat n)
    (set_timers (if (0 <? n)%nat then hs_heap h !!! 0%nat else NULL)
      (set_heap (Some (<[n := NULL]> (hs_heap h)))
        (set_heap_len n (processor_of sh w)))) →
  removed sh node w w'.
Proof.
  intros [W O] El [Hp Hx Ht Ho Hn Hout Hl] F N P.
  set (h' := HStore (<[n := NULL]> (hs_heap h)) (t_nodes w')).
  assert (Hnd : NoDup (node :: take n (hs_heap h))).
  { rewrite Hp. apply (indexed_nodup _ (store_of sh w)), W. }
  apply NoDup_cons in Hnd as [Hni _].
  assert (Etk : take n (hs_heap h') = take n (hs_heap h)) by (cbn; by apply take_insert_ge).
  assert (Hag : ∀ a, a ∈ take n (hs_heap h) → hs_nodes h' a = hs_nodes h a).
  { intros a Ha. cbn. rewrite N. apply fn_lookup_insert_ne. set_solver. }
  destruct Hx as [Hlen Hx]. assert (Hlen' : (n ≤ length (hs_heap h'))%nat) by (cbn; by rewrite length_insert).
  assert (El' : heap_len sh w' = n) by (unfold heap_len; by rewrite P).
  assert (Hnull : Forall (λ a, a ≠ NULL) (node :: take n (hs_heap h))) by (rewrite Hp; apply W).
  pose proof (hw_len _ _ W) as Hmax. rewrite El in Hmax.
  assert (Et : timers_of sh w' = take n (hs_heap h)).
  { rewrite (timers_of_eq _ _ (hs_heap h') _ ltac:(by rewrite P) El'). exact Etk. }
  split; rewrite ?Et; try done.
  - apply (heap_ok_intro sh w' h' n); [by unfold heap_of; rewrite P|..]; rewrite ?P, ?(frame_tasks _ _ _ F); try done.
    + by apply (agree_indexed n h h').
    + by apply (agree_timed n h h').
    + by apply (agree_ordered n h h').
    + rewrite Etk. by apply Forall_cons in Hnull as [_ ?].
    + cbn. rewrite length_insert, Hl. apply W.
    + apply W.
    + cbn [set_timer_count set_timers pr_timers].
      destruct (Nat.ltb_spec 0 n); [|done]. symmetry. by apply (agree_slot n h h').
    + lia.
  - rewrite N. etrans; [exact Hn|apply set_heap_index_same].
  - rewrite N. by rewrite fn_lookup_insert.
  - intros a Ha. rewrite N, fn_lookup_insert_ne; [by apply Hout|].
    intros <-. apply Ha. rewrite <- Hp. set_solver.
  - by rewrite P.
Qed.

Lemma count_decrement_spec sh w n :
  pr_timer_count (processor_of sh w) = Z.of_nat (S n) → Z.of_nat (S n) <= UINT32_MAX →
  wp (llam_timer_count_decrement sh) (λ _ w',
    frame sh w w' ∧ t_nodes w' = t_nodes w ∧
    processor_of sh w' = set_timer_count (Z.of_nat n) (processor_of sh w)) w.
Proof.
  intros E Hm. unfold llam_timer_count_decrement.
  apply wp_bind, wp_gets, wp_bind, wp_gets. rewrite E.
  rewrite (proj2 (Z.ltb_lt 0 (Z.of_nat (S n)))) by lia.
  apply (wp_upd_processor sh). intros w' F P N. split_and!; [done..|].
  rewrite P. f_equal. unfold u32. rewrite Z.mod_small; unfold UINT32_MAX in *; lia.
Qed.

(** The stores after the hole has been filled. *)
Lemma remove_finish_spec sh w w2 h n node :
  heap_ok sh w → heap_len sh w = S n → pulled sh node n w h → frame sh w w2 →
  t_nodes w2 = hs_nodes h →
  processor_of sh w2 = set_heap (Some (hs_heap h)) (set_heap_len n (processor_of sh w)) →
  wp (store_heap sh n NULL ;;
      upd_node node (set_heap_index 0) ;;
      llam_timer_heap_refresh_root sh ;;
      llam_timer_count_decrement sh ;;
      mret node) (λ a w', a = node ∧ removed sh node w w') w2.
Proof.
  intros Hok El Hpl F2 N2 P2. pose proof Hok as [W _].
  apply wp_bind, (wp_upd_processor sh). intros w3 F3 P3 N3.
  apply wp_bind, (wp_upd_node sh). intros w4 F4 P4 N4.
  apply wp_bind, (wp_refresh_root sh). intros w5 F5 P5 N5.
  apply wp_bind. eapply wp_mono; [apply (count_decrement_spec _ _ n)|].
  - rewrite P5, P4, P3, P2. cbn. rewrite <- El. apply W.
  - rewrite <- El. apply W.
  - intros _ w6 (F6 & N6 & P6). apply wp_ret. split; [done|].
    apply (remove_commit sh w w6 h n); try done.
    + by do 4 (etrans; [done|]).
    + by rewrite N6, N5, N4, N3, N2.
    + rewrite P6, P5, (expected_root_eq _ _ (<[n := NULL]> (hs_heap h))) by (by rewrite P4, P3, P2).
      unfold heap_len. rewrite P4, P3, P2. cbn [set_heap set_heap_len pr_timer_heap_len].
      destruct (Nat.ltb_spec 0 n); [|done].
      rewrite list_lookup_total_insert_ne by lia. done.
Qed.

Lemma refill_spec sh w w1 heap n i :
  pr_timer_heap (processor_of sh w) = Some heap → frame sh w w1 →
  t_nodes w1 = t_nodes w → processor_of sh w1 = set_heap_len n (processor_of sh w) →
  let h := refilled (t_tasks w) (store_of sh w) n i in
  wp (refill sh i) (λ _ w2,
    frame sh w1 w2 ∧ t_nodes w2 = hs_nodes h ∧
    processor_of sh w2 = set_heap (Some (hs_heap h)) (processor_of sh w1)) w1.
Proof.
  intros E F1 N1 P1 h. pose proof (store_of_eq sh w (HStore heap (t_nodes w)) E eq_refl) as Es.
  assert (Eh1 : heap_of sh w1 = heap) by (unfold heap_of; rewrite P1; cbn; by rewrite E).
  unfold refill. apply wp_bind, wp_gets, wp_bind, wp_gets.
  rewrite Eh1, P1. cbn [set_heap_len pr_timer_heap_len].
  apply wp_bind, (wp_upd_processor sh). intros w2 F2 P2 N2.
  apply wp_bind, (wp_upd_node sh). intros w3 F3 P3 N3.
  assert (F3' : frame sh w w3) by (by do 2 (etrans; [done|])).
  assert (E3 : pr_timer_heap (processor_of sh w3) = Some (<[i := heap !!! n]> heap))
    by (rewrite P3, P2, P1; cbn; by rewrite E).
  assert (Eh3 : HStore (<[i := heap !!! n]> heap) (t_nodes w3) =
                put (store_of sh w) i (heap !!! n))
    by (rewrite N3, N2, N1, Es; done).
  assert (El3 : pr_timer_heap_len (processor_of sh w3) = n) by by rewrite P3, P2, P1.
  apply wp_bind, wp_gets. unfold heap_of at 1. rewrite E3. cbn [default from_option id].
  assert (Hgoal : ∀ w4 h4, frame sh w3 w4 → h = h4 →
    processor_of sh w4 = set_heap (Some (hs_heap h4)) (processor_of sh w3) →
    t_nodes w4 = hs_nodes h4 →
    frame sh w1 w4 ∧ t_nodes w4 = hs_nodes h ∧
    processor_of sh w4 = set_heap (Some (hs_heap h)) (processor_of sh w1)).
  { intros w4 h4 F4 <- P4 N4. split_and!; [by do 2 (etrans; [done|])|done|].
    by rewrite P4, P3, P2. }
  rewrite (frame_tasks _ _ _ F3').
  change (t_nodes w3) with (hs_nodes (HStore (<[i := heap !!! n]> heap) (t_nodes w3))).
  change (<[i := heap !!! n]> heap) with
    (hs_heap (HStore (<[i := heap !!! n]> heap) (t_nodes w3))) at 2.
  rewrite Eh3. subst h. revert Hgoal. unfold refilled.
  replace (hs_heap (store_of sh w) !!! n) with (heap !!! n) by (by rewrite Es).
  intros Hgoal.
  apply wp_if; intros Hup; rewrite Hup in Hgoal |- *; eapply (wp_on_heap sh); try exact E3;
    intros w4 h4 F4 P4 N4; rewrite <- P1; apply (Hgoal w4 h4 F4); try done;
    unfold h4; by rewrite Eh3, (frame_tasks _ _ _ F3'), ?El3.
Qed.

Lemma remove_spec sh w i :
  heap_ok sh w → (i < heap_len sh w)%nat →
  wp (llam_timer_heap_remove_at_locked sh i) (λ a w',
    a = heap_of sh w !!! i ∧ removed sh (heap_of sh w !!! i) w w') w.
Proof.
  intros Hok Hi. pose proof Hok as [W _]. destruct (heap_len sh w) as [|n] eqn:El; [lia|].
  destruct (pr_timer_heap (processor_of sh w)) as [heap|] eqn:E.
  2: { destruct (hw_indexed _ _ W) as [H _]. cbn in H. unfold heap_of in H.
       rewrite E in H. cbn in H. lia. }
  pose proof (store_of_eq sh w (HStore heap (t_nodes w)) E eq_refl) as Es.
  unfold llam_timer_heap_remove_at_locked. apply wp_bind, wp_gets.
  fold (heap_len sh w). rewrite El, (proj2 (Nat.leb_gt _ _)) by lia.
  apply wp_bind, wp_gets. replace (S n - 1)%nat with n by lia.
  apply wp_bind, (wp_upd_processor sh). intros w1 F1 P1 N1.
  apply wp_bind. destruct (Nat.eqb_spec i n) as [->|Hne]; cbn [negb].
  - apply wp_ret, (remove_finish_spec sh w w1 (store_of sh w)); try done;
      [by apply pulled_last|].
    rewrite P1, Es. clear -E. revert E. destruct (processor_of sh w); cbn. by intros ->.
  - eapply wp_mono; [by apply (refill_spec sh w w1 heap n i)|].
    intros _ w2 (F2 & N2 & P2). rewrite P1 in P2.
    apply (remove_finish_spec sh w w2 (refilled (t_tasks w) (store_of sh w) n i)); try done.
    + apply pulled_refilled; [done..|lia].
    + by etrans.
Qed.

Lemma remove_none_spec sh w i :
  (heap_len sh w ≤ i)%nat → llam_timer_heap_remove_at_locked sh i w = (NULL, w).
Proof.
  intros Hi. unfold llam_timer_heap_remove_at_locked. cbn. fold (heap_len sh w).
  by rewrite (proj2 (Nat.leb_le _ _)).
Qed.

(** The order in which timers leave a heap. *)
Definition key_of (w : timer_world) (a : Z) : Z := node_key (t_tasks w) (t_nodes w a).

Lemma root_minimum sh w :
  heap_ok sh w → ∀ a, a ∈ timers_of sh w → key_of w (heap_of sh w !!! 0%nat) <= key_of w a.
Proof.
  intros [W O] a Ha. apply list_elem_of_lookup in Ha as [k Hk].
  apply lookup_take_Some in Hk as [Hk Hlt]. apply list_lookup_total_correct in Hk. subst a.
  exact (ordered_root _ _ k O Hlt).
Qed.

(** ** A decision procedure for the invariant *)

Definition slot_okb (sh : Z) (w : timer_world) (i : nat) : bool :=
  let a := heap_of sh w !!! i in
  let n := t_nodes w a in
  let id := tk_id (t_tasks w (tn_task n)) in
  (tn_heap_index n =? i)%nat && negb (tn_task n =? NULL) && (0 <=? id) &&
  (id <? 2 ^ 64) && negb (a =? NULL) &&
  ((i =? 0)%nat ||
   (keys (t_tasks w) (store_of sh w) (llam_timer_heap_parent i) <=?
    keys (t_tasks w) (store_of sh w) i)).

Definition heap_okb (sh : Z) (w : timer_world) : bool :=
  let p := processor_of sh w in
  (Z.of_nat (length (heap_of sh w)) =? pr_timer_heap_cap p) &&
  (pr_timer_heap_cap p <=? max_items) &&
  (heap_len sh w <=? length (heap_of sh w))%nat &&
  forallb (slot_okb sh w) (seq 0 (heap_len sh w)) &&
  (pr_timers p =? expected_root sh w) &&
  (pr_timer_count p =? Z.of_nat (heap_len sh w)) &&
  (Z.of_nat (heap_len sh w) <=? UINT32_MAX).

Lemma heap_okb_ok sh w : heap_okb sh w = true → heap_ok sh w.
Proof.
  unfold heap_okb. rewrite !andb_true_iff.
  intros [[[[[[Hc%Z.eqb_eq Hm%Z.leb_le] Hl%Nat.leb_le] Hs] Hr%Z.eqb_eq] Hct%Z.eqb_eq] Hmx%Z.leb_le].
  assert (Hslot : ∀ i, (i < heap_len sh w)%nat → slot_okb sh w i = true).
  { intros i Hi. rewrite forallb_forall in Hs. apply Hs, in_seq. lia. }
  assert (Hsl : ∀ i, (i < heap_len sh w)%nat →
    tn_heap_index (t_nodes w (heap_of sh w !!! i)) = i ∧
    timed (t_tasks w) (t_nodes w (heap_of sh w !!! i)) ∧ heap_of sh w !!! i ≠ NULL ∧
    (i = 0%nat ∨ keys (t_tasks w) (store_of sh w) (llam_timer_heap_parent i) <=
             keys (t_tasks w) (store_of sh w) i)).
  { intros i Hi. specialize (Hslot i Hi). unfold slot_okb in Hslot.
    rewrite !andb_true_iff, !negb_true_iff, orb_true_iff in Hslot.
    destruct Hslot as [[[[[H1%Nat.eqb_eq H2%Z.eqb_neq] H3%Z.leb_le] H4%Z.ltb_lt] H5%Z.eqb_neq] H6].
    split_and!; [done|done|done|]. destruct H6 as [H6%Nat.eqb_eq|H6%Z.leb_le]; auto. }
  split; [split|]; try done.
  - split; [done|]. intros i Hi. apply Hsl, Hi.
  - intros i Hi. apply Hsl, Hi.
  - apply Forall_lookup. intros i a Ha. apply lookup_take_Some in Ha as [Ha Hi].
    apply list_lookup_total_correct in Ha. subst a. by apply Hsl.
  - intros k Hk _. destruct (Hsl k) as (_ & _ & _ & [?|?]); [lia..|done].
Qed.

(** ** Theorems on single operations *)

(** C13: [llam_timer_heap_push_locked] either adds exactly the given timer to a
    well-formed 4-ary heap and keeps it well formed and ordered, or fails
    leaving every timer in place; it fails only when the array cannot grow
    ([ENOMEM]) or the 32-bit counter is full ([EOVERFLOW]).  No other shard,
    no task and no other node's data changes. *)
Theorem push_inserts sh node w ok w' :
  heap_ok sh w → node ≠ NULL → node ∉ timers_of sh w →
  timed (t_tasks w) (t_nodes w node) →
  llam_timer_heap_push_locked sh node w = (ok, w') →
  pushed sh node w ok w' ∧
  (ok = true ↔ can_reserve sh (Z.of_nat (heap_len sh w) + 1) w ∧
               Z.of_nat (heap_len sh w) < UINT32_MAX).
Proof.
  intros Hok Hnn Hni Ht E. pose proof (wp_run _ _ _ _ _ (push_spec sh node w Hok Hnn Hni Ht) E) as Hp.
  destruct Hp as [Hp Ht']. split; [done|]. split; [done|]. intros [Hc Hl]. destruct ok; [done|].
  destruct Hp as (_ & _ & _ & _ & [[_ ?]|[_ ?]]); [done|lia].
Qed.

(** C14: [llam_timer_heap_remove_at_locked] returns the timer at the given
    index, takes exactly that timer out, and leaves a well-formed ordered heap
    with the counter and the root pointer up to date; an index past the end
    returns [NULL] and changes nothing; and
    [llam_timer_heap_pop_min_locked], the removal at index [0], returns a timer
    with the least deadline, ties broken by task id. *)
Theorem remove_extracts sh i w a w' :
  heap_ok sh w → llam_timer_heap_remove_at_locked sh i w = (a, w') →
  if (i <? heap_len sh w)%nat then
    a = heap_of sh w !!! i ∧ removed sh a w w' ∧
    (llam_timer_heap_pop_min_locked sh w = (a, w') →
     ∀ b, b ∈ timers_of sh w → key_of w a <= key_of w b)
  else a = NULL ∧ w' = w.
Proof.
  intros Hok E. destruct (Nat.ltb_spec i (heap_len sh w)) as [Hi|Hi].
  - destruct (wp_run _ _ _ _ _ (remove_spec sh w i Hok Hi) E) as [-> Hr].
    split_and!; [done..|]. intros E0 b Hb.
    destruct (wp_run _ _ _ _ _ (remove_spec sh w 0 Hok ltac:(lia)) E0) as [-> _].
    by apply root_minimum.
  - rewrite (remove_none_spec sh w i Hi) in E. by injection E as <- <-.
Qed.

(** ** An example: two processors of one runtime *)

Definition demo_node (task deadline : Z) (index : nat) : timer_node :=
  TimerNode 1 task 0 0 deadline 7 NULL index 0 false.

Definition demo_task (id deadline timer heap_shard : Z) : timer_task :=
  TimerTask id 1 LLAM_TASK_STATE_PARKED 3 7 heap_shard heap_shard 0 deadline timer
    heap_shard 0 0 0 0.

Definition demo_nodes (a : Z) : timer_node :=
  if a =? 1001 then demo_node 2001 10 0
  else if a =? 1002 then demo_node 2002 20 1
  else if a =? 1003 then demo_node 2003 5 0
  else if a =? 1004 then demo_node 2004 15 0
  else demo_node 0 0 0.

Definition demo_tasks (k : Z) : timer_task :=
  if k =? 2001 then demo_task 1 10 1001 0
  else if k =? 2002 then demo_task 2 20 1002 0
  else if k =? 2003 then demo_task 3 5 1003 1
  else demo_task 4 15 1004 UINT32_MAX.

(** Shard [100] has two timers, shard [101] one earlier timer, and shard [102]
    none. *)
Definition demo_shards (s : Z) : shard :=
  if s =? 100 then Shard 0 1 (Processor 1 1001 (Some [1001; 1002]) 2 2 2 0)
  else if s =? 101 then Shard 1 1 (Processor 1 1003 (Some [1003]) 1 1 1 0)
  else Shard 2 1 (Processor 1 NULL None 0 0 0 0).

Definition demo_world (reallocs : list bool) : timer_world :=
  TimerWorld demo_shards demo_nodes demo_tasks (const 3) (const 0) (const 0) 0
    reallocs 0 false.

Lemma demo_ok reallocs sh : sh ∈ [100; 101; 102] → heap_ok sh (demo_world reallocs).
Proof. intros H. apply heap_okb_ok. set_unfold in H. by destruct H as [->|[->|[->|[]]]]. Qed.

Lemma push_inserts_witness :
  let w := demo_world [] in
  let r := llam_timer_heap_push_locked 100 1004 w in
  timers_of 100 r.2 = [1001; 1002; 1004] ∧ pushed 100 1004 w true r.2.
Proof.
  split; [by vm_compute|].
  apply (push_inserts 100 1004 (demo_world []) true).
  - apply demo_ok. set_solver.
  - done.
  - apply (bool_decide_unpack _). by vm_compute.
  - split; [done|]. by vm_compute.
  - apply surjective_pairing.
Defined.

Lemma remove_extracts_witness :
  let w := demo_world [] in
  let r := llam_timer_heap_remove_at_locked 100 0 w in
  r.1 = 1001 ∧ timers_of 100 r.2 = [1002] ∧ removed 100 1001 w r.2.
Proof.
  split; [by vm_compute|]. split; [by vm_compute|].
  apply (remove_extracts 100 0 (demo_world []) 1001
           (llam_timer_heap_remove_at_locked 100 0 (demo_world [])).2).
  - apply demo_ok. set_solver.
  - apply surjective_pairing.
Defined.
