(* ===== verification/TimerExpiry.v ===== *)
(** * Expiry of timers

    What the collection loop of [llam_fire_expired_timers]
    ([src/core/time/timer.c]) takes out of a heap: the due timers, in order,
    with their tasks pinned. *)

From stdpp Require Import functions sorting.
From S2P Require Import Prelude TimerHeap.

(** ** Worlds that differ only in data the heaps do not look at *)

Record alike (w w' : timer_world) : Prop := Alike {
  al_task : ∀ a, tn_task (t_nodes w' a) = tn_task (t_nodes w a);
  al_deadline : ∀ a, tn_deadline_ns (t_nodes w' a) = tn_deadline_ns (t_nodes w a);
  al_id : ∀ k, tk_id (t_tasks w' k) = tk_id (t_tasks w k) }.

(** The same for the positions too. *)
Definition in_place (w w' : timer_world) : Prop :=
  alike w w' ∧ ∀ a, tn_heap_index (t_nodes w' a) = tn_heap_index (t_nodes w a).

#[export] Instance alike_preorder : PreOrder alike.
Proof.
  split; [by split|]. intros x y z [A B C] [A' B' C'].
  split; intros a; etrans; [apply A'|apply A|apply B'|apply B|apply C'|apply C].
Qed.

#[export] Instance in_place_preorder : PreOrder in_place.
Proof.
  split; [by split|]. intros x y z [A B] [A' B']. split; [by etrans|].
  intros a. by rewrite B', B.
Qed.

Section alike.
Context (w w' : timer_world) (H : alike w w').

Lemma alike_key a : key_of w' a = key_of w a.
Proof. destruct H as [A B C]. unfold key_of, node_key. by rewrite A, B, C. Qed.

Lemma alike_timed a :
  timed (t_tasks w) (t_nodes w a) → timed (t_tasks w') (t_nodes w' a).
Proof. destruct H as [A B C]. unfold timed. by rewrite A, C. Qed.
End alike.

Lemma frame_alike sh w w' :
  frame sh w w' → same_nodes (t_nodes w) (t_nodes w') → alike w w'.
Proof.
  intros F N. split; [intros a; apply (same_nodes_fields _ _ a N)..|].
  intros k. by rewrite (frame_tasks _ _ _ F).
Qed.

Section in_place.
Context (sh : Z) (w w' : timer_world) (H : in_place w w').
Context (P : processor_of sh w' = processor_of sh w).

Lemma in_place_views :
  heap_of sh w' = heap_of sh w ∧ heap_len sh w' = heap_len sh w ∧
  timers_of sh w' = timers_of sh w.
Proof. unfold timers_of, heap_of, heap_len. by rewrite P. Qed.

Lemma in_place_wf : heap_wf sh w → heap_wf sh w'.
Proof.
  destruct H as [A I], in_place_views as (Eh & El & Et).
  intros [? ? [Hl Hx] Ht ? ? ? ?]. split;
    unfold expected_root in *; fold (heap_len sh w') in *; fold (heap_len sh w) in *;
    rewrite ?Eh, ?El, ?Et, ?P; try done.
  - split; cbn; rewrite ?Eh; [done|]. intros i Hi. rewrite I. by apply Hx.
  - intros i Hi. cbn. rewrite Eh. apply (alike_timed w w' A), Ht, Hi.
Qed.

Lemma in_place_ordered : heap_ordered sh w → heap_ordered sh w'.
Proof.
  destruct H as [A I], in_place_views as (Eh & El & Et). intros O.
  unfold heap_ordered. rewrite El. eapply ordered_ext, O.
  intros k Hk. unfold keys, store_of. cbn. rewrite Eh. symmetry. apply (alike_key w w' A).
Qed.

Lemma in_place_ok : heap_ok sh w → heap_ok sh w' ∧ timers_of sh w' = timers_of sh w.
Proof.
  intros [W O]. split; [split; [by apply in_place_wf|by apply in_place_ordered]|].
  apply in_place_views.
Qed.
End in_place.

(** ** The collection of expired timers *)

(** The list starting at [head] and linked through [next]. *)
Fixpoint linked (nodes : Z → timer_node) (L : list Z) : Prop :=
  match L with
  | [] => True
  | a :: r => tn_next (nodes a) = default NULL (head r) ∧ linked nodes r
  end.

(** What happens to the task of an expired timer: a scan reference is taken,
    and the task forgets the timer if it was its active one. *)
Definition expired_task (a : Z) (k : timer_task) : timer_task :=
  let k' := set_scan_refs (tk_scan_refs k + 1) k in
  if tk_active_timer k =? a then clear_active_timer k' else k'.

Lemma expired_task_id a k : tk_id (expired_task a k) = tk_id k.
Proof. unfold expired_task. by destruct (tk_active_timer k =? a). Qed.

Definition task_of (w : timer_world) (a : Z) : Z := tn_task (t_nodes w a).

(** The state after the timers [L] have been collected and [c] callbacks have
    been announced. *)
Record expiring (c sh now : Z) (w0 : timer_world) (L : list Z) (w : timer_world) : Prop := Expiring {
  ex_ok : heap_ok sh w;
  ex_perm : L ++ timers_of sh w ≡ₚ timers_of sh w0;
  ex_due : Forall (λ a, tn_deadline_ns (t_nodes w0 a) <= now) L;
  ex_least : ∀ a b, a ∈ L → b ∈ timers_of sh w → key_of w0 a <= key_of w0 b;
  ex_sorted : StronglySorted (λ a b, key_of w0 a <= key_of w0 b) L;
  ex_linked : linked (t_nodes w) L;
  ex_alike : alike w0 w;
  ex_others : ∀ x, x ≠ sh → t_shards w x = t_shards w0 x;
  ex_runtime : sh_runtime (t_shards w sh) = sh_runtime (t_shards w0 sh);
  ex_callbacks : pr_timer_callbacks_active (processor_of sh w) =
                 pr_timer_callbacks_active (processor_of sh w0) + c;
  ex_task : ∀ a, a ∈ L →
    t_tasks w (task_of w0 a) = expired_task a (t_tasks w0 (task_of w0 a));
  ex_held : ∀ a, a ∈ L → tn_holds_task_ref (t_nodes w a) = true;
  ex_rest : ∀ k, (∀ a, a ∈ L → task_of w0 a ≠ k) → t_tasks w k = t_tasks w0 k }.

Lemma linked_snoc nodes nodes' L a :
  linked nodes L → a ∉ L → NoDup L →
  (∀ b, b ∈ L → Some b ≠ last L → tn_next (nodes' b) = tn_next (nodes b)) →
  (∀ b, last L = Some b → tn_next (nodes' b) = a) →
  tn_next (nodes' a) = NULL → linked nodes' (L ++ [a]).
Proof.
  induction L as [|b L IH]; [done|]. intros [Hb Hl] Ha Hnd Hn Hlast Hnull.
  apply NoDup_cons in Hnd as [Hbl Hnd]. cbn. destruct L as [|c L].
  - split; [by apply Hlast|done].
  - split.
    + rewrite Hn; [done|set_solver|]. intros E. by apply Hbl, last_Some_elem_of.
    + apply IH; [done|set_solver|done| |done..].
      intros x Hx Hne. apply Hn; [set_solver|done].
Qed.

Lemma sorted_snoc {A} (R : A → A → Prop) L a :
  StronglySorted R L → (∀ b, b ∈ L → R b a) → StronglySorted R (L ++ [a]).
Proof.
  induction 1 as [|b L Hs IH Hf]; intros Ha; cbn; [by repeat constructor|].
  constructor; [apply IH; intros; apply Ha; set_solver|].
  apply Forall_app. split; [done|]. apply Forall_singleton, Ha. set_solver.
Qed.

(** The references of a task can be counted once more. *)
Definition acquirable (w : timer_world) (k : Z) : Prop :=
  tk_scan_refs (t_tasks w k) < UINT32_MAX.

Lemma scan_ref_spec rt k w :
  rt ≠ NULL → k ≠ NULL → is_u32 (tk_scan_refs (t_tasks w k)) →
  wp (llam_task_scan_ref_try_acquire rt k) (λ ok w',
    if (ok : bool) then
      acquirable w k ∧
      w' = with_tasks (<[k := set_scan_refs (tk_scan_refs (t_tasks w k) + 1) (t_tasks w k)]>
                         (t_tasks w)) w
    else ¬ acquirable w k ∧ t_shards w' = t_shards w ∧ t_nodes w' = t_nodes w ∧
         t_tasks w' = t_tasks w ∧ t_errno w' = EOVERFLOW) w.
Proof.
  intros Hrt Hk [H0 H1]. unfold llam_task_scan_ref_try_acquire, llam_sync_note_inflight_waiter.
  rewrite (proj2 (Z.eqb_neq _ _) Hrt), (proj2 (Z.eqb_neq _ _) Hk). cbn [orb].
  change (1 =? 0) with false. cbv iota. apply wp_bind, wp_gets.
  destruct (Z.ltb_spec (UINT32_MAX - tk_scan_refs (t_tasks w k)) 1) as [Hs|Hs].
  - unfold llam_record_fatal_deferred. rewrite (proj2 (Z.eqb_neq _ _) Hrt).
    change (EOVERFLOW =? 0) with false. cbn [orb].
    apply wp_bind, wp_modify, wp_bind, wp_modify, wp_ret.
    split_and!; try done. unfold acquirable. lia.
  - apply wp_bind, wp_modify, wp_ret. split; [unfold acquirable; lia|].
    unfold u32. rewrite Z.mod_small; [done|]. unfold UINT32_MAX in *. lia.
Qed.

(** A heap whose timers belong to different tasks, with countable references. *)
Record expirable (sh : Z) (w : timer_world) : Prop := Expirable {
  xp_ok : heap_ok sh w;
  xp_runtime : sh_runtime (t_shards w sh) ≠ NULL;
  xp_tasks : NoDup (task_of w <$> timers_of sh w);
  xp_refs : ∀ a, a ∈ timers_of sh w → is_u32 (tk_scan_refs (t_tasks w (task_of w a))) }.

Section expire.
Context (sh now : Z) (w0 : timer_world) (H0 : expirable sh w0).

Lemma start_expiring : expiring 0 sh now w0 [] w0.
Proof. destruct H0. split; try done; try lia; (constructor || set_solver). Qed.

Section step.
Context (L : list Z) (w : timer_world) (HL : expiring 0 sh now w0 L w).

Lemma expiring_nodup : NoDup (L ++ timers_of sh w).
Proof.
  rewrite (ex_perm _ _ _ _ _ _ HL). apply (indexed_nodup _ (store_of sh w0)), (xp_ok _ _ H0).
Qed.

Lemma expiring_in a : a ∈ timers_of sh w → a ∈ timers_of sh w0.
Proof. rewrite <- (ex_perm _ _ _ _ _ _ HL). set_solver. Qed.

Lemma task_distinct a b :
  a ∈ L → b ∈ timers_of sh w → task_of w0 b = task_of w0 a → False.
Proof.
  intros Ha Hb E. pose proof (xp_tasks _ _ H0) as Hnd.
  rewrite <- (ex_perm _ _ _ _ _ _ HL), fmap_app in Hnd.
  apply NoDup_app in Hnd as (_ & Hdis & _).
  apply (Hdis (task_of w0 a)); [by apply list_elem_of_fmap_2|].
  rewrite <- E. by apply list_elem_of_fmap_2.
Qed.

(** The tasks of the remaining timers have not been touched. *)
Lemma expiring_untouched a :
  a ∈ timers_of sh w → t_tasks w (task_of w0 a) = t_tasks w0 (task_of w0 a).
Proof.
  intros Ha. apply (ex_rest _ _ _ _ _ _ HL). intros b Hb E. by apply (task_distinct b a).
Qed.

Lemma expiring_nonnull a : a ∈ L ++ timers_of sh w → a ≠ NULL.
Proof.
  rewrite (ex_perm _ _ _ _ _ _ HL). destruct (xp_ok _ _ H0) as [W _].
  pose proof (hw_nonnull _ _ W) as H. rewrite Forall_forall in H. apply H.
Qed.

(** One turn: the root is collected. *)
Context (timer : Z) (Hroot : timer = heap_of sh w !!! 0%nat) (Hlen : (0 < heap_len sh w)%nat).
Context (Hdue : tn_deadline_ns (t_nodes w timer) <= now).
Context (w2 w3 w6 : timer_world).
Context (S2 : t_shards w2 = t_shards w).
Context (N2 : t_nodes w2 = <[timer := set_holds_task_ref true (t_nodes w timer)]> (t_nodes w)).
Context (R : removed sh timer w2 w3) (A2 : in_place w w2).
Context (S6 : t_shards w6 = t_shards w3).
Context (N6 : ∀ a, t_nodes w6 a =
  if decide (a = timer) then set_next NULL (t_nodes w3 a)
  else if decide (Some a = last L) then set_next timer (t_nodes w3 a) else t_nodes w3 a).
Context (K6 : ∀ k, t_tasks w6 k =
  <[task_of w0 timer := expired_task timer (t_tasks w (task_of w0 timer))]> (t_tasks w) k).

Lemma root_in : timer ∈ timers_of sh w.
Proof.
  apply list_elem_of_lookup. exists 0%nat. rewrite Hroot.
  destruct (ex_ok _ _ _ _ _ _ HL) as [W _]. apply (slot_in _ (store_of sh w)); [apply W|done].
Qed.

Lemma step_timers : timers_of sh w2 = timers_of sh w ∧ timer :: timers_of sh w6 ≡ₚ timers_of sh w.
Proof.
  assert (E2 : timers_of sh w2 = timers_of sh w)
    by (unfold timers_of, heap_len, heap_of, processor_of; by rewrite S2).
  split; [done|]. rewrite <- E2, <- (rm_perm _ _ _ _ R).
  unfold timers_of, heap_len, heap_of, processor_of. by rewrite S6.
Qed.

Lemma step_alike : alike w w6 ∧ in_place w3 w6.
Proof.
  pose proof (frame_alike _ _ _ (rm_frame _ _ _ _ R) (rm_nodes _ _ _ _ R)) as A3.
  assert (A6 : alike w3 w6).
  { split; intros a; [rewrite N6; by repeat case_decide..|].
    rewrite K6, (frame_tasks _ _ _ (rm_frame _ _ _ _ R)), (al_id _ _ (proj1 A2)).
    destruct (decide (a = task_of w0 timer)) as [->|Hne].
    - by rewrite fn_lookup_insert, expired_task_id.
    - by rewrite fn_lookup_insert_ne. }
  split; [etrans; [apply A2|]; etrans; [exact A3|exact A6]|]. split; [done|].
  intros a. rewrite N6. by repeat case_decide.
Qed.

Lemma step_linked : linked (t_nodes w6) (L ++ [timer]).
Proof.
  pose proof expiring_nodup as Hnd. pose proof root_in as Hin.
  apply NoDup_app in Hnd as (HndL & Hdis & _).
  assert (HnL : timer ∉ L) by (intros H; by apply (Hdis timer)).
  apply (linked_snoc (t_nodes w)); [apply HL|done|done|..].
  - intros b Hb Hne. rewrite N6, decide_False by (intros ->; done). rewrite decide_False by done.
    rewrite (rm_out _ _ _ _ R).
    + rewrite N2. rewrite fn_lookup_insert_ne; [done|]. by intros <-.
    + rewrite (proj1 step_timers). auto.
  - intros b Hb. apply last_Some_elem_of in Hb as HbL.
    rewrite N6, decide_False by (intros ->; done). by rewrite decide_True.
  - by rewrite N6, decide_True.
Qed.

Lemma step_held a : a ∈ L ++ [timer] → tn_holds_task_ref (t_nodes w6 a) = true.
Proof.
  intros Ha.
  assert (E3 : tn_holds_task_ref (t_nodes w3 a) = tn_holds_task_ref (t_nodes w2 a)).
  { pose proof (rm_nodes _ _ _ _ R a) as E. by injection E. }
  assert (E6 : tn_holds_task_ref (t_nodes w6 a) = tn_holds_task_ref (t_nodes w3 a))
    by (rewrite N6; by repeat case_decide).
  rewrite E6, E3, N2. destruct (decide (a = timer)) as [->|Hne].
  - by rewrite fn_lookup_insert.
  - rewrite fn_lookup_insert_ne by done. apply (ex_held _ _ _ _ _ _ HL). set_solver.
Qed.

Lemma expiring_step : expiring 0 sh now w0 (L ++ [timer]) w6.
Proof.
  destruct step_timers as [E2 Hp]. destruct step_alike as [A6 I6]. pose proof root_in as Hin.
  pose proof (rm_frame _ _ _ _ R) as F.
  destruct (in_place_ok sh w3 w6) as [Hok6 _];
    [done|unfold processor_of; by rewrite S6|apply R|].
  assert (Hsub : ∀ b, b ∈ timers_of sh w6 → b ∈ timers_of sh w)
    by (intros b; rewrite <- Hp; set_solver).
  pose proof expiring_nodup as Hnd. apply NoDup_app in Hnd as (_ & Hdis & _).
  split; try done.
  - rewrite <- app_assoc. cbn. rewrite Hp. apply HL.
  - apply Forall_app. split; [apply HL|]. apply Forall_singleton.
    by rewrite <- (al_deadline _ _ (ex_alike _ _ _ _ _ _ HL)).
  - intros a b [Ha|Ha%list_elem_of_singleton]%elem_of_app Hb.
    + apply (ex_least _ _ _ _ _ _ HL); auto.
    + subst a. rewrite <- !(alike_key w0 w) by apply HL. rewrite Hroot.
      apply root_minimum; [apply HL|auto].
  - apply sorted_snoc; [apply HL|]. intros b Hb. by apply (ex_least _ _ _ _ _ _ HL).
  - apply step_linked.
  - etrans; [apply HL|done].
  - intros x Hx. rewrite S6, (frame_others _ _ _ F) by done. rewrite S2. by apply HL.
  - rewrite S6, (frame_runtime _ _ _ F), S2. apply HL.
  - unfold processor_of. rewrite S6. fold (processor_of sh w3).
    rewrite (rm_callbacks _ _ _ _ R). unfold processor_of. rewrite S2. apply HL.
  - intros a Ha. rewrite K6. apply elem_of_app in Ha as [Ha|Ha%list_elem_of_singleton].
    + rewrite fn_lookup_insert_ne; [by apply HL|]. intros E. by apply (task_distinct a timer).
    + subst a. by rewrite fn_lookup_insert, (expiring_untouched timer).
  - intros a Ha. apply step_held, Ha.
  - intros k Hk. rewrite K6, fn_lookup_insert_ne; [apply HL; set_solver|]. apply Hk. set_solver.
Qed.
End step.

Definition first (L : list Z) : Z := default NULL (head L).
Definition final (L : list Z) : Z := default NULL (last L).

Lemma expiring_stuck L w w' :
  expiring 0 sh now w0 L w → t_shards w' = t_shards w → t_nodes w' = t_nodes w →
  t_tasks w' = t_tasks w → expiring 0 sh now w0 L w' ∧ timers_of sh w' = timers_of sh w.
Proof.
  intros HL S N K.
  assert (P : processor_of sh w' = processor_of sh w) by (unfold processor_of; by rewrite S).
  assert (I : in_place w w') by (split; [split; intros; by rewrite ?N, ?K|intros; by rewrite N]).
  destruct (in_place_ok sh w w' I P (ex_ok _ _ _ _ _ _ HL)) as [Hok Et]. destruct HL.
  split; [|done]. split; rewrite ?Et, ?S, ?N, ?K, ?P; try done. etrans; [done|apply I].
Qed.

(** The stores after the root has been popped. *)
Lemma expire_detach_spec L w w3 timer k :
  tn_task (t_nodes w3 timer) = k → k ≠ NULL → Forall (λ a, a ≠ NULL) L → timer ∉ L →
  t_tasks w3 = <[k := set_scan_refs (tk_scan_refs (t_tasks w k) + 1) (t_tasks w k)]> (t_tasks w) →
  wp (upd_node timer (set_next NULL) ;;
      task ← gets (λ w, tn_task (t_nodes w timer));
      active ← gets (λ w, tk_active_timer (t_tasks w task));
      (if negb (task =? NULL) && (active =? timer)
       then upd_task task clear_active_timer else mret tt) ;;
      (if negb (final L =? NULL)
       then upd_node (final L) (set_next timer) ;;
            mret (Some (timer, first L))
       else mret (Some (timer, timer))))
     (λ r w6, r = Some (timer, first (L ++ [timer])) ∧ t_shards w6 = t_shards w3 ∧
        (∀ a, t_nodes w6 a =
           if decide (a = timer) then set_next NULL (t_nodes w3 a)
           else if decide (Some a = last L) then set_next timer (t_nodes w3 a)
           else t_nodes w3 a) ∧
        (∀ x, t_tasks w6 x = <[k := expired_task timer (t_tasks w k)]> (t_tasks w) x)) w3.
Proof.
  intros Ek Hk Hnn HnL K3. apply wp_bind, wp_modify. set (w4 := with_nodes _ w3).
  assert (Ek4 : tn_task (t_nodes w4 timer) = k) by (cbn; by rewrite fn_lookup_insert).
  apply wp_bind, wp_gets, wp_bind, wp_gets. rewrite Ek4.
  rewrite (proj2 (Z.eqb_neq _ _) Hk). cbn [negb andb].
  apply wp_bind, (wp_mono _ (λ _ w5, t_shards w5 = t_shards w3 ∧ t_nodes w5 = t_nodes w4 ∧
    ∀ x, t_tasks w5 x = <[k := expired_task timer (t_tasks w k)]> (t_tasks w) x)).
  { change (t_tasks w4) with (t_tasks w3). rewrite K3, fn_lookup_insert. unfold expired_task.
    change (tk_active_timer (set_scan_refs _ (t_tasks w k))) with (tk_active_timer (t_tasks w k)).
    apply wp_if; intros ->; [apply wp_modify|apply wp_ret]; split_and!; try done; intros x; cbn;
      rewrite K3; [|done].
    destruct (decide (x = k)) as [->|Hne]; [by rewrite !fn_lookup_insert|].
    by rewrite !fn_lookup_insert_ne. }
  intros _ w5 (S5 & N5 & K5). unfold final, first.
  destruct (last L) as [t|] eqn:El; cbn [default from_option id].
  - apply last_Some_elem_of in El as Ht. rewrite Forall_forall in Hnn.
    rewrite (proj2 (Z.eqb_neq _ _) (Hnn t Ht)). cbn [negb].
    apply wp_bind, wp_modify, wp_ret. split_and!; try done.
    + by destruct L.
    + intros a. cbn. rewrite N5. cbn. assert (Hne : t ≠ timer) by (by intros ->).
      destruct (decide (a = timer)) as [->|Ha].
      * by rewrite fn_lookup_insert_ne, fn_lookup_insert.
      * destruct (decide (Some a = Some t)) as [[= ->]|Hat].
        -- by rewrite fn_lookup_insert, fn_lookup_insert_ne.
        -- rewrite !fn_lookup_insert_ne; congruence.
  - apply last_None in El. subst L. apply wp_ret. split_and!; try done.
    intros a. rewrite N5. cbn. destruct (decide (a = timer)) as [->|Ha].
    + by rewrite fn_lookup_insert.
    + by rewrite fn_lookup_insert_ne.
Qed.

Lemma pinned_in_place timer k r w :
  in_place w (with_nodes (<[timer := set_holds_task_ref true (t_nodes w timer)]> (t_nodes w))
    (with_tasks (<[k := set_scan_refs r (t_tasks w k)]> (t_tasks w)) w)).
Proof.
  set (w2 := with_nodes _ _).
  assert (Hn : ∀ a, t_nodes w2 a = t_nodes w a ∨
                    t_nodes w2 a = set_holds_task_ref true (t_nodes w a)).
  { intros a. cbn. destruct (decide (a = timer)) as [->|Hne];
      [rewrite fn_lookup_insert; auto|rewrite fn_lookup_insert_ne; auto]. }
  split; [split|]; intros a; try by destruct (Hn a) as [->| ->].
  cbn. destruct (decide (a = k)) as [->|Hne];
    [by rewrite fn_lookup_insert|by rewrite fn_lookup_insert_ne].
Qed.

Lemma expire_root_spec L w timer :
  expiring 0 sh now w0 L w → timer = heap_of sh w !!! 0%nat → (0 < heap_len sh w)%nat →
  tn_deadline_ns (t_nodes w timer) <= now →
  wp (expire_root sh timer (final L) (first L)) (λ r w',
    match r with
    | Some (t, hd) => t = timer ∧ hd = first (L ++ [timer]) ∧
                      expiring 0 sh now w0 (L ++ [timer]) w'
    | None => ¬ acquirable w0 (task_of w0 timer) ∧ expiring 0 sh now w0 L w' ∧
              timers_of sh w' = timers_of sh w
    end) w.
Proof.
  intros HL Hroot Hlen Hdue. pose proof (root_in L w HL timer Hroot Hlen) as Hin.
  pose proof (ex_alike _ _ _ _ _ _ HL) as A. pose proof (ex_ok _ _ _ _ _ _ HL) as Hok.
  assert (Ek : tn_task (t_nodes w timer) = task_of w0 timer) by apply A.
  assert (Hk : task_of w0 timer ≠ NULL).
  { rewrite <- Ek, Hroot. destruct Hok as [W _]. by apply (hw_timed _ _ W). }
  pose proof (expiring_untouched L w HL timer Hin) as Eu.
  unfold expire_root. apply wp_bind, wp_gets, wp_bind, wp_gets. rewrite Ek.
  rewrite (proj2 (Z.eqb_neq _ _) Hk). cbn [negb].
  apply wp_bind. eapply wp_mono; [apply scan_ref_spec|].
  { rewrite (ex_runtime _ _ _ _ _ _ HL). apply H0. }
  { done. }
  { rewrite Eu. apply (xp_refs _ _ H0), (expiring_in L w HL), Hin. }
  intros ok w1 H1. destruct ok; cbn [negb].
  2: { destruct H1 as (Hna & S1 & N1 & K1 & _). apply wp_ret.
       unfold acquirable in *. rewrite Eu in Hna. split; [done|]. by apply expiring_stuck. }
  destruct H1 as [_ ->]. apply wp_bind, wp_modify. set (w2 := with_nodes _ _).
  assert (I2 : in_place w w2).
  { exact (pinned_in_place timer (task_of w0 timer) _ w). }
  destruct (in_place_ok sh w w2 I2 eq_refl Hok) as [Hok2 Et2].
  apply wp_bind. eapply wp_mono; [apply (remove_spec sh w2 0); [done|exact Hlen]|].
  change (heap_of sh w2) with (heap_of sh w). rewrite <- Hroot.
  intros a w3 [-> R].
  rewrite (proj2 (Z.eqb_neq timer NULL)) by (apply (expiring_nonnull L w HL); set_solver).
  pose proof (expiring_nodup L w HL) as Hnd. apply NoDup_app in Hnd as (_ & Hdis & _).
  eapply wp_mono; [apply (expire_detach_spec L w w3 timer (task_of w0 timer))|].
  - rewrite <- Ek. etrans; [apply (same_nodes_fields _ _ timer (rm_nodes _ _ _ _ R))|apply I2].
  - done.
  - apply Forall_forall. intros b Hb. apply (expiring_nonnull L w HL). set_solver.
  - intros H. by apply (Hdis timer).
  - apply (frame_tasks _ _ _ (rm_frame _ _ _ _ R)).
  - intros r w6 (-> & S6 & N6 & K6). split_and!; [done..|].
    by apply (expiring_step L w HL timer Hroot Hlen Hdue w2 w3 w6).
Qed.

(** Why the collection stops: no remaining timer is due, or the references of
    the task of the next timer are exhausted. *)
Definition stopped (w : timer_world) : Prop :=
  (∀ b, b ∈ timers_of sh w → now < tn_deadline_ns (t_nodes w0 b)) ∨
  (∃ b, b ∈ timers_of sh w ∧ tn_deadline_ns (t_nodes w0 b) <= now ∧
        ¬ acquirable w0 (task_of w0 b)).

Lemma length_timers w : heap_ok sh w → length (timers_of sh w) = heap_len sh w.
Proof.
  intros [W _]. destruct (hw_indexed _ _ W) as [Hl _]. unfold timers_of.
  rewrite length_take. cbn in Hl. lia.
Qed.

Lemma expiring_len L w :
  expiring 0 sh now w0 L w → (length L + heap_len sh w = heap_len sh w0)%nat.
Proof.
  intros HL. rewrite <- (length_timers w), <- (length_timers w0) by (apply HL || apply H0).
  by rewrite <- (ex_perm _ _ _ _ _ _ HL), length_app.
Qed.

Lemma timed_in w a : heap_wf sh w → a ∈ timers_of sh w → timed (t_tasks w) (t_nodes w a).
Proof.
  intros W Ha. apply list_elem_of_lookup in Ha as [k Hk].
  apply lookup_take_Some in Hk as [Hk Hlt]. apply list_lookup_total_correct in Hk. subst a.
  by apply (hw_timed _ _ W).
Qed.

Lemma key_deadline w a b :
  timed (t_tasks w) (t_nodes w a) → timed (t_tasks w) (t_nodes w b) →
  key_of w a <= key_of w b → tn_deadline_ns (t_nodes w a) <= tn_deadline_ns (t_nodes w b).
Proof. unfold timed, is_u64, key_of, node_key. nia. Qed.

Lemma expire_loop_spec fuel L w :
  expiring 0 sh now w0 L w → (heap_len sh w < fuel)%nat →
  wp (expire_loop fuel sh now (first L) (final L) (Z.of_nat (length L))) (λ r w',
    ∃ L', r = (first L', final L', Z.of_nat (length L')) ∧
          expiring 0 sh now w0 L' w' ∧ stopped w') w.
Proof.
  revert L w. induction fuel as [|fuel IH]; intros L w HL Hf; [lia|].
  pose proof (ex_ok _ _ _ _ _ _ HL) as [W O]. pose proof (ex_alike _ _ _ _ _ _ HL) as A.
  cbn [expire_loop]. apply wp_bind, wp_gets, wp_bind, wp_gets.
  rewrite (hw_root _ _ W). unfold expected_root. fold (heap_len sh w).
  destruct (Nat.ltb_spec 0 (heap_len sh w)) as [Hlen|Hlen]; cycle 1.
  { cbn [negb andb]. apply wp_ret. exists L. split_and!; [done..|]. left. intros b.
    unfold timers_of. replace (heap_len sh w) with 0%nat by lia. cbn. set_solver. }
  set (timer := heap_of sh w !!! 0%nat).
  pose proof (root_in L w HL timer eq_refl Hlen) as Hin.
  rewrite (proj2 (Z.eqb_neq timer NULL)) by (apply (expiring_nonnull L w HL); set_solver).
  cbn [negb andb]. destruct (Z.leb_spec (tn_deadline_ns (t_nodes w timer)) now) as [Hdue|Hnot].
  - apply wp_bind. eapply wp_mono; [by apply expire_root_spec|].
    intros [[t hd]|] w1; cycle 1.
    { intros (Hna & HL1 & Et). apply wp_ret. exists L. split_and!; [done..|]. right.
      exists timer. rewrite Et. split_and!; [done| |done]. by rewrite <- (al_deadline _ _ A). }
    intros (-> & -> & HL1). pose proof (expiring_len _ _ HL). pose proof (expiring_len _ _ HL1) as Hl1.
    rewrite length_app in Hl1. cbn in Hl1.
    destruct (xp_ok _ _ H0) as [W0 _]. pose proof (hw_len _ _ W0) as Hm.
    replace timer with (final (L ++ [timer])) at 2 by (unfold final; by rewrite last_snoc).
    replace (u32 (Z.of_nat (length L) + 1)) with (Z.of_nat (length (L ++ [timer]))).
    { apply IH; [done|lia]. }
    rewrite length_app. cbn [length]. unfold u32. rewrite Z.mod_small; unfold UINT32_MAX in *; lia.
  - apply wp_ret. exists L. split_and!; [done..|]. left. intros b Hb.
    rewrite <- (al_deadline _ _ A). eapply Z.lt_le_trans; [exact Hnot|].
    apply key_deadline; [by apply timed_in..|]. by apply root_minimum.
Qed.
End expire.

Lemma announced sh now w0 L w w' c :
  expiring 0 sh now w0 L w → frame sh w w' → t_nodes w' = t_nodes w →
  processor_of sh w' =
    set_callbacks (pr_timer_callbacks_active (processor_of sh w) + c) (processor_of sh w) →
  expiring c sh now w0 L w' ∧ timers_of sh w' = timers_of sh w.
Proof.
  intros HL F N P.
  assert (Et : timers_of sh w' = timers_of sh w)
    by (unfold timers_of, heap_of, heap_len; by rewrite P).
  destruct HL as [[[] O]].
  split; [|done]. split; rewrite ?Et, ?N, ?(frame_tasks _ _ _ F), ?(frame_runtime _ _ _ F);
    try done.
  - split; [split|]; unfold heap_ordered, store_of, expected_root, heap_of, heap_len in *;
      rewrite ?P, ?Et, ?N, ?(frame_tasks _ _ _ F); done.
  - etrans; [done|]. split; intros; by rewrite ?N, ?(frame_tasks _ _ _ F).
  - intros x Hx. rewrite (frame_others _ _ _ F) by done. auto.
  - rewrite P. cbn. lia.
Qed.

Lemma collect_spec sh now w0 :
  expirable sh w0 → 0 <= pr_timer_callbacks_active (processor_of sh w0) →
  pr_timer_callbacks_active (processor_of sh w0) + Z.of_nat (heap_len sh w0) <= UINT32_MAX →
  wp (collect_expired sh now) (λ r w', ∃ L,
    r = (first L, Z.of_nat (length L)) ∧
    expiring (Z.of_nat (length L)) sh now w0 L w' ∧ stopped sh now w0 w') w0.
Proof.
  intros H0 Hc0 Hcm. pose proof (start_expiring sh now w0 H0) as Hs.
  destruct (xp_ok _ _ H0) as [W _].
  assert (Hnone : heap_len sh w0 = 0%nat → wp (mret (NULL, 0)) (λ r w', ∃ L,
    r = (first L, Z.of_nat (length L)) ∧
    expiring (Z.of_nat (length L)) sh now w0 L w' ∧ stopped sh now w0 w') w0).
  { intros El. apply wp_ret. exists []. split_and!; [done..|]. left. intros b.
    unfold timers_of. rewrite El. cbn. set_solver. }
  unfold collect_expired. apply wp_bind, wp_gets. rewrite (hw_count _ _ W).
  apply wp_if; intros E1; [apply Hnone; apply Z.eqb_eq in E1; lia|].
  apply wp_bind, wp_gets. rewrite (hw_root _ _ W). unfold expected_root. fold (heap_len sh w0).
  apply Z.eqb_neq in E1. rewrite (proj2 (Nat.ltb_lt 0 (heap_len sh w0))) by lia.
  rewrite (proj2 (Z.eqb_neq _ NULL)).
  2: { apply (expiring_nonnull sh now w0 H0 [] w0 Hs). cbn.
       apply (root_in sh now w0 [] w0 Hs); [done|lia]. }
  apply wp_bind, wp_gets, wp_bind. fold (heap_len sh w0).
  eapply wp_mono; [apply (expire_loop_spec sh now w0 H0 _ [] w0 Hs); lia|].
  intros r w1 (L & -> & HL & Hst). pose proof (expiring_len sh now w0 H0 L w1 HL) as Hlen.
  apply wp_bind. destruct (Z.ltb_spec 0 (Z.of_nat (length L))) as [Hpos|Hz].
  - apply (wp_upd_processor sh). intros w2 F2 P2 N2. apply wp_ret. exists L. split; [done|].
    unfold u32 in P2. rewrite Z.mod_small in P2
      by (rewrite (ex_callbacks _ _ _ _ _ _ HL); unfold UINT32_MAX in *; lia).
    destruct (announced sh now w0 L w1 w2 (Z.of_nat (length L)) HL F2 N2 P2) as [Ha Et].
    split; [done|]. unfold stopped in *. by rewrite Et.
  - apply wp_ret, wp_ret. exists L. replace (Z.of_nat (length L)) with 0 by lia. done.
Qed.

(** C15: under the first critical section of [llam_fire_expired_timers] the
    timers whose deadline has passed leave the heap in order of deadline (task
    id among equals) and are handed on as a list linked through [next] in that
    order; each of their tasks is pinned by one scan reference and forgets the
    timer; the announced callbacks are exactly as many; the remaining heap is
    well formed.  Unless a reference counter is saturated, the list holds
    exactly the due timers. *)
Theorem expiry_in_order sh now w head count w' :
  expirable sh w → 0 <= pr_timer_callbacks_active (processor_of sh w) →
  pr_timer_callbacks_active (processor_of sh w) + Z.of_nat (heap_len sh w) <= UINT32_MAX →
  collect_expired sh now w = ((head, count), w') →
  ∃ L, head = first L ∧ count = Z.of_nat (length L) ∧
    expiring count sh now w L w' ∧ stopped sh now w w' ∧
    ((∀ a, a ∈ timers_of sh w → acquirable w (task_of w a)) →
     ∀ a, a ∈ timers_of sh w → a ∈ L ↔ tn_deadline_ns (t_nodes w a) <= now).
Proof.
  intros H0 Hc Hm E.
  destruct (wp_run _ _ _ _ _ (collect_spec sh now w H0 Hc Hm) E) as (L & [= -> ->] & HL & Hst).
  exists L. split_and!; [done..|]. intros Hacq a Ha. split.
  - intros HaL. pose proof (ex_due _ _ _ _ _ _ HL) as Hd. rewrite Forall_forall in Hd. auto.
  - intros Hd. pose proof (ex_perm _ _ _ _ _ _ HL) as Hp. rewrite <- Hp in Ha.
    apply elem_of_app in Ha as [?|Ha]; [done|]. exfalso.
    destruct Hst as [Hst|(b & Hb & _ & Hna)]; [specialize (Hst a Ha); lia|].
    apply Hna, Hacq. rewrite <- Hp. set_solver.
Qed.

Lemma expiry_in_order_witness :
  let w := demo_world [] in
  let r := collect_expired 100 12 w in
  r.1 = (1001, 1) ∧
  ∃ L, 1001 = first L ∧ 1 = Z.of_nat (length L) ∧ expiring 1 100 12 w L r.2 ∧
       stopped 100 12 w r.2 ∧
       ((∀ a, a ∈ timers_of 100 w → acquirable w (task_of w a)) →
        ∀ a, a ∈ timers_of 100 w → a ∈ L ↔ tn_deadline_ns (t_nodes w a) <= 12).
Proof.
  split; [by vm_compute|]. apply expiry_in_order.
  - split; [apply demo_ok; set_solver|done|apply (bool_decide_unpack _); by vm_compute|].
    intros a Ha. change (timers_of 100 (demo_world [])) with [1001; 1002] in Ha.
    set_unfold in Ha. by destruct Ha as [->|[->|[]]].
  - by vm_compute.
  - by vm_compute.
  - apply injective_projections; by vm_compute || done.
Defined.
