(* ===== verification/TimerRehome.v ===== *)
(** * Rehoming of timers

    [llam_processor_rehome_timers_locked] ([src/core/time/timer_heap.c]) moves
    every timer of one processor to another.  It pins the tasks of the timers
    by their resolver gates, reserves room, and then commits.  The theorems
    show that a refused move leaves no trace, that a move takes exactly the
    timers of the source to the target, and for which lengths the result is a
    heap again. *)

From stdpp Require Import functions sorting.
From S2P Require Import Prelude TimerHeap TimerExpiry.

(** ** Resolver gates *)

(** A gate that can be entered: open, with room for one more reference. *)
Definition gate_open (s : Z) : Prop := 0 <= s < LLAM_WAIT_RESOLVER_REF_MASK - 1.

Lemma gate_bits s :
  is_u32 s →
  Z.land s LLAM_WAIT_RESOLVER_REF_MASK = s mod 2 ^ 31 ∧
  (Z.land s LLAM_WAIT_RESOLVER_CLOSED_BIT = 0 → s < 2 ^ 31).
Proof.
  intros [H0 H1]. split.
  - change LLAM_WAIT_RESOLVER_REF_MASK with (Z.ones 31). apply Z.land_ones. lia.
  - change LLAM_WAIT_RESOLVER_CLOSED_BIT with (2 ^ 31). intros E.
    destruct (Z.lt_ge_cases s (2 ^ 31)) as [?|Hge]; [done|]. exfalso.
    assert (Hb : Z.testbit s 31 = true).
    { rewrite Z.testbit_true by lia. replace (s / 2 ^ 31) with 1; [done|].
      apply (Z.div_unique _ _ _ (s - 2 ^ 31)); lia. }
    assert (Hf : Z.testbit (Z.land s (2 ^ 31)) 31 = true)
      by (rewrite Z.land_spec, Hb, Z.pow2_bits_true; done || lia).
    by rewrite E, Z.bits_0 in Hf.
Qed.

(** Two memories that the operations cannot tell apart, but for the error
    variables. *)
Record weq (w w' : timer_world) : Prop := Weq {
  weq_shards : ∀ x, t_shards w' x = t_shards w x;
  weq_nodes : ∀ a, t_nodes w' a = t_nodes w a;
  weq_tasks : ∀ k, t_tasks w' k = t_tasks w k;
  weq_active : ∀ r, t_active_shards w' r = t_active_shards w r }.

#[export] Instance weq_equivalence : Equivalence weq.
Proof.
  split; [by split|by intros x y []; split|].
  intros x y z [A B C D] [A' B' C' D'].
  split; intros q; [by rewrite A', A|by rewrite B', B|by rewrite C', C|by rewrite D', D].
Qed.

Lemma try_begin_spec k w :
  k ≠ NULL → is_u32 (tk_wait_resolver_state (t_tasks w k)) →
  wp (llam_task_wait_resolver_try_begin k) (λ ok w',
    if (ok : bool) then
      gate_open (tk_wait_resolver_state (t_tasks w k)) ∧
      w' = with_tasks (<[k := set_wait_resolver_state
             (tk_wait_resolver_state (t_tasks w k) + 1) (t_tasks w k)]> (t_tasks w)) w
    else weq w w') w.
Proof.
  intros Hk Hu. unfold llam_task_wait_resolver_try_begin.
  rewrite (proj2 (Z.eqb_neq _ _) Hk). apply wp_bind, wp_gets.
  set (s := tk_wait_resolver_state (t_tasks w k)) in *.
  destruct (gate_bits s Hu) as [Em Hc].
  apply wp_if; intros E1; [apply wp_bind, wp_modify, wp_bind, wp_modify, wp_ret; by split|].
  apply wp_if; intros E2; [by apply wp_ret|].
  apply wp_if; intros E3; [apply wp_bind, wp_modify, wp_bind, wp_modify, wp_ret; by split|].
  apply negb_false_iff, Z.eqb_eq, Hc in E2. apply Z.leb_gt in E3. destruct Hu as [Hu0 Hu1].
  rewrite Em, Z.mod_small in E3 by lia.
  change (LLAM_WAIT_RESOLVER_REF_MASK - 1) with (2 ^ 31 - 2) in E3.
  apply wp_bind, wp_modify, wp_ret. split; [by split|].
  unfold u32. rewrite Z.mod_small by lia. done.
Qed.

Lemma gate_leave_spec k w s :
  k ≠ NULL → tk_wait_resolver_state (t_tasks w k) = s + 1 → gate_open s →
  llam_task_wait_resolver_end k w =
    (tt, with_tasks (<[k := set_wait_resolver_state s (t_tasks w k)]> (t_tasks w)) w).
Proof.
  intros Hk Es [H0 H1]. unfold llam_task_wait_resolver_end.
  rewrite (proj2 (Z.eqb_neq _ _) Hk). cbn -[LLAM_WAIT_RESOLVER_REF_MASK Z.land].
  rewrite Es. change (LLAM_WAIT_RESOLVER_REF_MASK - 1) with (2 ^ 31 - 2) in H1.
  destruct (gate_bits (s + 1)) as [Em _]; [split; lia|]. rewrite Em, Z.mod_small by lia.
  change LLAM_WAIT_RESOLVER_REF_MASK with (2 ^ 31 - 1).
  rewrite (proj2 (Z.eqb_neq _ (2 ^ 31 - 1))), (proj2 (Z.eqb_neq _ 0)) by lia. cbn [orb].
  unfold upd_task. cbn. unfold u32. rewrite Z.mod_small by lia.
  by replace (s + 1 - 1) with s by lia.
Qed.

(** ** Pins *)

(** The timers [R] hold one resolver reference each; [g] gives the counts
    without them. *)
Record pinning (g : Z → Z) (R : list Z) (w : timer_world) : Prop := Pinning {
  pin_nodup : NoDup R;
  pin_tasks : NoDup (task_of w <$> R);
  pin_gates : ∀ a, a ∈ R → a ≠ NULL ∧ task_of w a ≠ NULL ∧ gate_open (g a) ∧
    tk_wait_resolver_state (t_tasks w (task_of w a)) = g a + 1 }.

(** The memory after the pins have been dropped. *)
Record unpinned (g : Z → Z) (R : list Z) (w w' : timer_world) : Prop := Unpinned {
  up_shards : t_shards w' = t_shards w;
  up_active : t_active_shards w' = t_active_shards w;
  up_nodes : ∀ a, t_nodes w' a =
    if decide (a ∈ R) then set_next NULL (t_nodes w a) else t_nodes w a;
  up_tasks : ∀ a, a ∈ R → t_tasks w' (task_of w a) =
    set_wait_resolver_state (g a) (t_tasks w (task_of w a));
  up_rest : ∀ k, k ∉ task_of w <$> R → t_tasks w' k = t_tasks w k }.

Lemma linked_ext nodes nodes' R :
  (∀ a, a ∈ R → tn_next (nodes' a) = tn_next (nodes a)) → linked nodes R → linked nodes' R.
Proof.
  induction R as [|a R IH]; [done|]. intros H [Ha Hl]. split; [rewrite H; set_solver|].
  apply IH; set_solver.
Qed.

(** Dropping the pin of the first timer of a chain. *)
Section unpin.
Context (g : Z → Z) (a : Z) (R : list Z) (w : timer_world) (H : pinning g (a :: R) w).
Let w1 : timer_world :=
  with_tasks (<[task_of w a := set_wait_resolver_state (g a) (t_tasks w (task_of w a))]> (t_tasks w))
    (with_nodes (<[a := set_next NULL (t_nodes w a)]> (t_nodes w)) w).

Lemma unpin_task_of b : task_of w1 b = task_of w b.
Proof.
  unfold task_of. cbn. destruct (decide (b = a)) as [->|Hne];
    [by rewrite fn_lookup_insert|by rewrite fn_lookup_insert_ne].
Qed.

Lemma unpin_other b : b ∈ R → a ≠ b ∧ task_of w a ≠ task_of w b.
Proof.
  destruct H as [Hnd Ht _]. rewrite fmap_cons in Ht.
  apply NoDup_cons in Hnd as [Hnd _]. apply NoDup_cons in Ht as [Ht _].
  intros Hb. split; [by intros ->|]. intros E. apply Ht. rewrite E. by apply list_elem_of_fmap_2.
Qed.

Lemma unpin_pinning : pinning g R w1.
Proof.
  destruct H as [Hnd Ht Hg]. rewrite fmap_cons in Ht. split.
  - by apply NoDup_cons in Hnd as [_ ?].
  - rewrite (list_fmap_ext _ (task_of w)) by (intros; apply unpin_task_of).
    by apply NoDup_cons in Ht as [_ ?].
  - intros b Hb. rewrite unpin_task_of. destruct (unpin_other b Hb) as [_ Hne].
    destruct (Hg b) as (? & ? & ? & ?); [set_solver|]. split_and!; try done.
    cbn. by rewrite fn_lookup_insert_ne.
Qed.

Lemma unpin_linked : linked (t_nodes w) R → linked (t_nodes w1) R.
Proof.
  apply linked_ext. intros b Hb. cbn. rewrite fn_lookup_insert_ne; [done|].
  apply (unpin_other b Hb).
Qed.

Lemma unpin_rest w' : unpinned g R w1 w' → unpinned g (a :: R) w w'.
Proof.
  intros [S A N K Q]. split; try done.
  - intros b. rewrite N. cbn. destruct (decide (b = a)) as [->|Hne].
    + rewrite fn_lookup_insert. rewrite (decide_True (P := a ∈ a :: R)) by set_solver.
      by case_decide.
    + rewrite fn_lookup_insert_ne by done. do 2 case_decide; set_solver.
  - intros b [->|Hb]%elem_of_cons.
    + rewrite Q.
      * cbn. by rewrite fn_lookup_insert.
      * intros [b [E Hb]]%list_elem_of_fmap. rewrite unpin_task_of in E.
        by apply (unpin_other b Hb).
    + specialize (K b Hb). rewrite unpin_task_of in K. rewrite K. cbn.
      rewrite fn_lookup_insert_ne; [done|]. apply (unpin_other b Hb).
  - intros k Hk. rewrite Q.
    + cbn. rewrite fn_lookup_insert_ne; [done|]. set_solver.
    + rewrite (list_fmap_ext _ (task_of w)) by (intros; apply unpin_task_of). set_solver.
Qed.
End unpin.

Lemma release_spec g R w :
  pinning g R w → linked (t_nodes w) R →
  wp (llam_timer_rehome_release_pins (length R) (first R)) (λ _, unpinned g R w) w.
Proof.
  revert w. induction R as [|a R IH]; intros w Hp Hl.
  { apply wp_ret. split; try done. set_solver. }
  destruct Hl as [Hnext Hl]. destruct (pin_gates _ _ _ Hp a) as (Ha & Hk & Hg & Hs); [set_solver|].
  cbn [length llam_timer_rehome_release_pins first head default from_option id].
  unfold first. cbn [head default from_option id].
  rewrite (proj2 (Z.eqb_neq _ _) Ha). apply wp_bind, wp_gets, wp_bind, wp_gets.
  apply wp_bind, wp_modify, wp_bind. fold (task_of w a). rewrite Hnext.
  unfold wp at 1. rewrite (gate_leave_spec _ _ (g a)); [|done|done|done]. cbn [fst snd].
  eapply wp_mono; [apply IH|].
  - exact (unpin_pinning g a R w Hp).
  - exact (unpin_linked g a R w Hp Hl).
  - intros [] w'. exact (unpin_rest g a R w Hp w').
Qed.

(** ** The preflight *)

(** The first [i] slots of a heap. *)
Definition slots (sh : Z) (w : timer_world) (i : nat) : list Z :=
  (λ j, heap_of sh w !!! j) <$> seq 0 i.

Lemma slots_S sh w i : slots sh w (S i) = slots sh w i ++ [heap_of sh w !!! i].
Proof. unfold slots. by rewrite seq_S, fmap_app. Qed.

Lemma length_slots sh w i : length (slots sh w i) = i.
Proof. unfold slots. by rewrite length_fmap, length_seq. Qed.

Lemma elem_of_slots sh w i a :
  a ∈ slots sh w i ↔ ∃ j, (j < i)%nat ∧ a = heap_of sh w !!! j.
Proof.
  unfold slots. rewrite list_elem_of_fmap. setoid_rewrite elem_of_seq.
  split; intros (j & H1 & H2); exists j; split; done || lia.
Qed.

Lemma slots_take sh w i : (i ≤ length (heap_of sh w))%nat → slots sh w i = take i (heap_of sh w).
Proof.
  induction i as [|i IH]; [done|]. intros Hi. rewrite slots_S, IH by lia.
  symmetry. apply take_S_r, list_lookup_lookup_total_lt. lia.
Qed.

(** What a validated entry satisfies. *)
Record entry_ok (source node : Z) (i : nat) (w : timer_world) : Prop := EntryOk {
  eo_node : node ≠ NULL;
  eo_task : task_of w node ≠ NULL;
  eo_next : tn_next (t_nodes w node) = NULL;
  eo_index : tn_heap_index (t_nodes w node) = i;
  eo_active : tk_active_timer (t_tasks w (task_of w node)) = node;
  eo_shard : tk_active_timer_heap_shard (t_tasks w (task_of w node)) =
             sh_id (t_shards w source) }.

Lemma valid_entry_ok source target node i w :
  llam_timer_rehome_entry_valid source target node i w = true → entry_ok source node i w.
Proof.
  unfold llam_timer_rehome_entry_valid, task_of. cbv zeta.
  rewrite !negb_orb, !andb_true_iff, !negb_true_iff, !negb_false_iff.
  rewrite !Z.eqb_eq, !Z.eqb_neq, Nat.eqb_eq. intros. by split; destruct_and!.
Qed.

(** Validity does not look at the resolver gate. *)
Lemma valid_ext source target node i w w' :
  (∀ x, t_shards w' x = t_shards w x) → (∀ r, t_active_shards w' r = t_active_shards w r) →
  t_nodes w' node = t_nodes w node →
  (∃ r, t_tasks w' (task_of w node) = set_wait_resolver_state r (t_tasks w (task_of w node))) →
  llam_timer_rehome_entry_valid source target node i w' =
  llam_timer_rehome_entry_valid source target node i w.
Proof.
  intros S A N [r K]. unfold llam_timer_rehome_entry_valid. rewrite N, !S, A.
  unfold task_of in K. by rewrite K.
Qed.

Definition gate (w : timer_world) (a : Z) : Z :=
  tk_wait_resolver_state (t_tasks w (task_of w a)).

(** The first [i] timers of the source are pinned. *)
Record pinned (source target : Z) (i : nat) (w0 w : timer_world) : Prop := Pinned {
  pd_shards : ∀ x, t_shards w x = t_shards w0 x;
  pd_active : ∀ r, t_active_shards w r = t_active_shards w0 r;
  pd_nodes : ∀ a, set_next NULL (t_nodes w a) = set_next NULL (t_nodes w0 a);
  pd_out : ∀ a, a ∉ slots source w0 i → t_nodes w a = t_nodes w0 a;
  pd_tasks : ∀ a, a ∈ slots source w0 i → gate_open (gate w0 a) ∧
    t_tasks w (task_of w0 a) =
      set_wait_resolver_state (gate w0 a + 1) (t_tasks w0 (task_of w0 a));
  pd_rest : ∀ k, k ∉ task_of w0 <$> slots source w0 i → t_tasks w k = t_tasks w0 k;
  pd_linked : linked (t_nodes w) (rev (slots source w0 i));
  pd_valid : ∀ j, (j < i)%nat →
    llam_timer_rehome_entry_valid source target (heap_of source w0 !!! j) j w0 = true }.

Section pinned.
Context (source target : Z) (i : nat) (w0 w : timer_world) (H : pinned source target i w0 w).

Lemma pinned_task_of a : task_of w a = task_of w0 a.
Proof. pose proof (pd_nodes _ _ _ _ _ H a) as E. unfold task_of. by injection E. Qed.

Lemma pinned_entry j : (j < i)%nat → entry_ok source (heap_of source w0 !!! j) j w0.
Proof. intros Hj. by apply (valid_entry_ok source target), H. Qed.

Lemma pinned_nodup : NoDup (slots source w0 i) ∧ NoDup (task_of w0 <$> slots source w0 i).
Proof.
  unfold slots. rewrite <- list_fmap_compose.
  split; (apply NoDup_fmap_2_strong; [|apply NoDup_seq]); intros x y Hx Hy E;
    apply elem_of_seq in Hx, Hy; pose proof (pinned_entry x ltac:(lia)) as Ex;
    pose proof (pinned_entry y ltac:(lia)) as Ey.
  - rewrite <- (eo_index _ _ _ _ Ex), <- (eo_index _ _ _ _ Ey). by rewrite E.
  - cbn in E. rewrite <- (eo_index _ _ _ _ Ex), <- (eo_index _ _ _ _ Ey).
    rewrite <- (eo_active _ _ _ _ Ex), <- (eo_active _ _ _ _ Ey). by rewrite E.
Qed.

Lemma pinned_pinning : pinning (gate w0) (rev (slots source w0 i)) w.
Proof.
  destruct pinned_nodup as [H1 H2].
  split.
  - by rewrite <- (Permutation_rev (slots source w0 i)).
  - rewrite (list_fmap_ext _ (task_of w0)) by (intros; apply pinned_task_of).
    by rewrite <- (Permutation_rev (slots source w0 i)).
  - intros a Ha. rewrite pinned_task_of. rewrite <- Permutation_rev in Ha.
    destruct (pd_tasks _ _ _ _ _ H a Ha) as [Hg E]. rewrite E.
    apply elem_of_slots in Ha as (j & Hj & ->). by destruct (pinned_entry j Hj).
Qed.

(** Releasing the pins gives the memory back as it was. *)
Lemma pinned_release :
  wp (llam_timer_rehome_release_pins i (first (rev (slots source w0 i)))) (λ _, weq w0) w.
Proof.
  pose proof (release_spec _ _ w pinned_pinning (pd_linked _ _ _ _ _ H)) as Hr.
  rewrite length_rev, length_slots in Hr. eapply wp_mono; [exact Hr|].
  intros [] w' [S A N K Q]. split.
  - intros x. rewrite S. apply H.
  - intros a. rewrite N. case_decide as Ha; rewrite <- Permutation_rev in Ha.
    + rewrite (pd_nodes _ _ _ _ _ H a). apply elem_of_slots in Ha as (j & Hj & ->).
      pose proof (eo_next _ _ _ _ (pinned_entry j Hj)) as En.
      by destruct (t_nodes w0 _); cbn in *; subst.
    + by apply H.
  - intros k. destruct (decide (k ∈ task_of w0 <$> slots source w0 i)) as [Hk|Hk].
    + apply list_elem_of_fmap in Hk as (a & -> & Ha). specialize (K a).
      rewrite pinned_task_of, <- Permutation_rev in K. rewrite K by done.
      destruct (pd_tasks _ _ _ _ _ H a Ha) as [_ ->]. unfold gate.
      by destruct (t_tasks w0 (task_of w0 a)).
    + rewrite Q; [by apply H|]. rewrite (list_fmap_ext _ (task_of w0)) by (intros; apply pinned_task_of).
      by rewrite <- Permutation_rev.
  - intros r. rewrite A. apply H.
Qed.
End pinned.

Lemma pinned_weq source target i w0 w w' :
  pinned source target i w0 w → weq w w' → pinned source target i w0 w'.
Proof.
  intros [] [S N K A]. split; intros; rewrite ?S, ?N, ?K, ?A; auto.
  eapply linked_ext, pd_linked0. intros a _. by rewrite N.
Qed.

Section pin_step.
Context (source target : Z) (i : nat) (w0 w : timer_world).
Context (H : pinned source target i w0 w).
Let node := heap_of source w0 !!! i.
Let k := task_of w0 node.
Context (Hg : gate_open (tk_wait_resolver_state (t_tasks w k))).

(** The memory after the gate of the next task has been entered. *)
Let w1 : timer_world :=
  with_tasks (<[k := set_wait_resolver_state
    (tk_wait_resolver_state (t_tasks w k) + 1) (t_tasks w k)]> (t_tasks w)) w.

Lemma entered_resolver x :
  ∃ r, t_tasks w1 x = set_wait_resolver_state r (t_tasks w0 x).
Proof.
  assert (Hw : ∃ r, t_tasks w x = set_wait_resolver_state r (t_tasks w0 x)).
  { destruct (decide (x ∈ task_of w0 <$> slots source w0 i)) as [Hx|Hx].
    - apply list_elem_of_fmap in Hx as (a & -> & Ha).
      destruct (pd_tasks _ _ _ _ _ H a Ha) as [_ E]. by eexists.
    - exists (tk_wait_resolver_state (t_tasks w0 x)). rewrite (pd_rest _ _ _ _ _ H x Hx).
      by destruct (t_tasks w0 x). }
  destruct Hw as [r Hr]. cbn. destruct (decide (x = k)) as [->|Hne].
  - rewrite fn_lookup_insert, Hr. by eexists.
  - rewrite fn_lookup_insert_ne by done. by eexists.
Qed.

Lemma entered_fresh :
  llam_timer_rehome_entry_valid source target node i w1 = true → node ∉ slots source w0 i.
Proof.
  intros Hv [j [Hj E]]%elem_of_slots. pose proof (eo_index _ _ _ _ (valid_entry_ok _ _ _ _ _ Hv)) as Ei.
  pose proof (eo_index _ _ _ _ (pinned_entry _ _ _ _ _ H j Hj)) as Ej.
  pose proof (pd_nodes _ _ _ _ _ H node) as En.
  assert (tn_heap_index (t_nodes w1 node) = tn_heap_index (t_nodes w0 node)) by (by injection En).
  rewrite <- E in Ej. lia.
Qed.

Lemma entered_valid :
  llam_timer_rehome_entry_valid source target node i w1 = true →
  llam_timer_rehome_entry_valid source target node i w0 = true.
Proof.
  intros Hv. pose proof (entered_fresh Hv) as Hf. rewrite <- Hv. symmetry.
  apply valid_ext; [apply H|apply H|by apply H|apply entered_resolver].
Qed.

Lemma entered_task :
  llam_timer_rehome_entry_valid source target node i w1 = true →
  k ∉ task_of w0 <$> slots source w0 i.
Proof.
  intros Hv [a [E Ha]]%list_elem_of_fmap. pose proof (entered_fresh Hv) as Hf.
  pose proof (eo_active _ _ _ _ (valid_entry_ok _ _ _ _ _ (entered_valid Hv))) as En.
  apply Hf. pose proof Ha as Ha'. apply elem_of_slots in Ha' as (j & Hj & ->).
  pose proof (eo_active _ _ _ _ (pinned_entry _ _ _ _ _ H j Hj)) as Ej.
  rewrite <- Ej in Ha. fold k in En. rewrite E in En. by rewrite <- En.
Qed.

Lemma pin_next :
  llam_timer_rehome_entry_valid source target node i w1 = true →
  pinned source target (S i) w0
    (with_nodes (<[node := set_next (first (rev (slots source w0 i))) (t_nodes w1 node)]>
                   (t_nodes w1)) w1).
Proof.
  intros Hv. pose proof (entered_fresh Hv) as Hf. pose proof (entered_task Hv) as Hk.
  pose proof (pd_rest _ _ _ _ _ H k Hk) as Ek.
  split; rewrite ?slots_S; fold node; cbn.
  - apply H.
  - apply H.
  - intros a. rewrite <- (pd_nodes _ _ _ _ _ H a). destruct (decide (a = node)) as [->|Hne];
      [by rewrite fn_lookup_insert|by rewrite fn_lookup_insert_ne].
  - intros a Ha. rewrite fn_lookup_insert_ne by set_solver. apply H. set_solver.
  - intros a [Ha|Ha%list_elem_of_singleton]%elem_of_app.
    + rewrite fn_lookup_insert_ne by (intros E; apply Hk; rewrite E; by apply list_elem_of_fmap_2).
      by apply H.
    + subst a. unfold gate. fold k. rewrite fn_lookup_insert, <- Ek. split; done.
  - intros x Hx. rewrite fmap_app in Hx. rewrite fn_lookup_insert_ne; [apply H; set_solver|].
    intros <-. apply Hx. cbn. set_solver.
  - rewrite rev_app_distr. cbn. rewrite fn_lookup_insert. split; [done|].
    eapply linked_ext; [|apply H]. intros a Ha. rewrite <- Permutation_rev in Ha.
    rewrite fn_lookup_insert_ne; [done|]. by intros <-.
  - intros j Hj. destruct (decide (j = i)) as [->|Hne]; [by apply entered_valid|].
    apply H. lia.
Qed.
End pin_step.

Lemma pinned_u32 source target i w0 w :
  pinned source target i w0 w → (∀ k, is_u32 (tk_wait_resolver_state (t_tasks w0 k))) →
  ∀ k, is_u32 (tk_wait_resolver_state (t_tasks w k)).
Proof.
  intros H Hu k. destruct (decide (k ∈ task_of w0 <$> slots source w0 i)) as [Hk|Hk].
  - apply list_elem_of_fmap in Hk as (a & -> & Ha).
    destruct (pd_tasks _ _ _ _ _ H a Ha) as [Hg ->]. cbn.
    unfold gate_open in Hg. change (LLAM_WAIT_RESOLVER_REF_MASK - 1) with (2 ^ 31 - 2) in Hg.
    split; lia.
  - by rewrite (pd_rest _ _ _ _ _ H k Hk).
Qed.

Lemma reenter_weq k r w :
  r = tk_wait_resolver_state (t_tasks w k) →
  let w1 := with_tasks (<[k := set_wait_resolver_state (r + 1) (t_tasks w k)]> (t_tasks w)) w in
  weq w (with_tasks (<[k := set_wait_resolver_state r (t_tasks w1 k)]> (t_tasks w1)) w1).
Proof.
  intros ->. split; try done. intros x. cbn. destruct (decide (x = k)) as [->|Hne].
  - rewrite !fn_lookup_insert. by destruct (t_tasks w k).
  - by rewrite !fn_lookup_insert_ne.
Qed.

Lemma rehome_pin_spec source target w0 n i w :
  (∀ k, is_u32 (tk_wait_resolver_state (t_tasks w0 k))) →
  pinned source target i w0 w →
  wp (rehome_pin n i source target (first (rev (slots source w0 i)))) (λ r w',
    match r with
    | Some pins => pins = first (rev (slots source w0 (i + n))) ∧
                   pinned source target (i + n) w0 w'
    | None => weq w0 w'
    end) w.
Proof.
  intros Hu. revert i w. induction n as [|n IH]; intros i w H; cbn [rehome_pin].
  { apply wp_ret. by rewrite Nat.add_0_r. }
  assert (Eh : heap_of source w = heap_of source w0)
    by (unfold heap_of, processor_of; by rewrite (pd_shards _ _ _ _ _ H)).
  apply wp_bind, wp_gets, wp_bind, wp_gets. rewrite Eh.
  set (node := heap_of source w0 !!! i). fold (task_of w node).
  rewrite (pinned_task_of _ _ _ _ _ H node). set (k := task_of w0 node).
  assert (Hfail : ∀ w', pinned source target i w0 w' →
    wp (llam_timer_rehome_release_pins i (first (rev (slots source w0 i))) ;; mret None)
       (λ r w'', match r with
                 | Some pins => pins = first (rev (slots source w0 (i + S n))) ∧
                                pinned source target (i + S n) w0 w''
                 | None => weq w0 w'' end) w').
  { intros w' H'. apply wp_bind. eapply wp_mono; [by apply (pinned_release source target)|].
    intros [] w'' ?. by apply wp_ret. }
  apply wp_bind. destruct (Z.eqb_spec node NULL) as [?|Hn]; cbn [orb]; [by apply wp_ret, Hfail|].
  destruct (Z.eqb_spec k NULL) as [?|Hk]; [by apply wp_ret, Hfail|].
  eapply wp_mono; [apply try_begin_spec; [done|by apply (pinned_u32 source target i w0)]|].
  intros ok w1 Hok. destruct ok; cbn [negb]; [|by apply Hfail, (pinned_weq _ _ _ _ w)].
  destruct Hok as [Hg ->]. set (w1 := with_tasks _ w).
  apply wp_bind, wp_gets.
  destruct (llam_timer_rehome_entry_valid source target node i w1) eqn:Hv; cbn [negb].
  - apply wp_bind, wp_modify. replace (i + S n)%nat with (S i + n)%nat by lia.
    assert (En : first (rev (slots source w0 (S i))) = node)
      by (rewrite slots_S, rev_app_distr; done).
    specialize (IH (S i) _ (pin_next source target i w0 w H Hg Hv)). by rewrite En in IH.
  - apply wp_bind. unfold wp at 1.
    rewrite (gate_leave_spec k w1 (tk_wait_resolver_state (t_tasks w k)));
      [cbn [fst snd]|done|cbn; by rewrite fn_lookup_insert|done].
    apply Hfail, (pinned_weq _ _ _ _ w); [done|]. by apply reenter_weq.
Qed.

(** ** The commit *)

Lemma slots_split sh w i n :
  (i ≤ n)%nat → ∃ r, slots sh w n = slots sh w i ++ r.
Proof.
  intros Hi. unfold slots. replace n with (i + (n - i))%nat by lia.
  rewrite seq_app, fmap_app. by eexists.
Qed.

Definition moved_task (source_id target_id : Z) (k : timer_task) : timer_task :=
  set_shards target_id target_id
    (if tk_home_shard k =? source_id then target_id else tk_home_shard k) k.

(** [j] timers of the source have been appended to the target, which had
    [tl]. *)
Record moving (source target : Z) (tl j : nat) (u w : timer_world) : Prop := Moving {
  mv_source : ∃ S, processor_of source w = set_heap S (processor_of source u) ∧
    length (default [] S) = length (heap_of source u) ∧
    ∀ k, (j ≤ k)%nat → (default [] S) !!! k = heap_of source u !!! k;
  mv_target : ∃ T, processor_of target w = set_heap T (processor_of target u) ∧
    length (default [] T) = length (heap_of target u) ∧
    take (tl + j) (default [] T) = take tl (heap_of target u) ++ slots source u j ∧
    indexed (tl + j) (HStore (default [] T) (t_nodes w));
  mv_nodes : same_nodes (t_nodes u) (t_nodes w);
  mv_out : ∀ a, a ∉ slots source u j → t_nodes w a = t_nodes u a;
  mv_tasks : ∀ k, t_tasks w k =
    if decide (k ∈ task_of u <$> slots source u j)
    then moved_task (sh_id (t_shards u source)) (sh_id (t_shards u target)) (t_tasks u k)
    else t_tasks u k;
  mv_others : ∀ x, x ≠ source → x ≠ target → t_shards w x = t_shards u x;
  mv_ids : ∀ x, sh_id (t_shards w x) = sh_id (t_shards u x) ∧
                sh_runtime (t_shards w x) = sh_runtime (t_shards u x);
  mv_active : t_active_shards w = t_active_shards u }.

Section move.
Context (source target : Z) (tl n : nat) (u : timer_world) (Hst : source ≠ target).
Context (Hx : indexed tl (store_of target u)).
Context (Hroom : (tl + n ≤ length (heap_of target u))%nat).
Context (Hsrc : (n ≤ length (heap_of source u))%nat).
Context (Hnd : NoDup (slots source u n)) (Htk : NoDup (task_of u <$> slots source u n)).
Context (Hdis : ∀ a, a ∈ slots source u n → a ∉ take tl (heap_of target u)).

Lemma moving_start : moving source target tl 0 u u.
Proof.
  split; try done.
  - exists (pr_timer_heap (processor_of source u)). split_and!; try done.
    by destruct (processor_of source u).
  - exists (pr_timer_heap (processor_of target u)). rewrite Nat.add_0_r, app_nil_r.
    split_and!; try done. by destruct (processor_of target u).
Qed.

(** The node that is moved next is in no slot of the target yet. *)
Lemma moving_fresh j T :
  (j < n)%nat → take (tl + j) T = take tl (heap_of target u) ++ slots source u j →
  (heap_of source u !!! j ∉ take (tl + j) T) ∧
  (task_of u (heap_of source u !!! j) ∉ task_of u <$> slots source u j).
Proof.
  intros Hj ->. destruct (slots_split source u (S j) n) as [r Er]; [lia|].
  rewrite slots_S in Er. rewrite Er in Hnd, Htk. rewrite !fmap_app in Htk.
  apply NoDup_app in Hnd as (Hnd & _ & _). apply NoDup_app in Htk as (Htk & _ & _).
  apply NoDup_app in Hnd as (_ & Hnd & _). apply NoDup_app in Htk as (_ & Htk & _).
  split.
  - intros [H|H]%elem_of_app.
    + eapply Hdis, H. rewrite Er. set_solver.
    + apply (Hnd _ H). set_solver.
  - intros H. apply (Htk _ H). set_solver.
Qed.

(** The memory after one turn of the commit loop. *)
Lemma rehome_move_world j w node k :
  heap_of source w !!! j = node → task_of w node = k →
  let w' := (rehome_move source target tl j w).2 in
  t_nodes w' = <[node := set_heap_index (tl + j) (t_nodes w node)]> (t_nodes w) ∧
  t_tasks w' = <[k := moved_task (sh_id (t_shards w source)) (sh_id (t_shards w target))
                        (t_tasks w k)]> (t_tasks w) ∧
  t_shards w' source = on_processor (λ p, set_heap (<[j := NULL]> <$> pr_timer_heap p) p)
                         (t_shards w source) ∧
  t_shards w' target = on_processor (λ p, set_heap (<[(tl + j)%nat := node]> <$> pr_timer_heap p) p)
                         (t_shards w target) ∧
  (∀ x, x ≠ source → x ≠ target → t_shards w' x = t_shards w x) ∧
  t_active_shards w' = t_active_shards w.
Proof.
  intros <- <-. unfold rehome_move, store_heap, upd_processor, upd_node, upd_task.
  cbn -[Nat.add]. split_and!; try done.
  - rewrite fn_lookup_insert. by rewrite fn_lookup_insert_ne.
  - rewrite fn_lookup_insert_ne by done. by rewrite fn_lookup_insert.
  - intros x Hs Ht. by rewrite !fn_lookup_insert_ne.
Qed.

Lemma moving_step j w :
  (j < n)%nat → moving source target tl j u w →
  moving source target tl (S j) u (rehome_move source target tl j w).2.
Proof.
  intros Hj [(S & PS & LS & ES) (T & PT & LT & TT & IT) N O K Q I A].
  set (node := heap_of source u !!! j).
  assert (En : heap_of source w !!! j = node)
    by (unfold heap_of; rewrite PS; cbn; by apply ES).
  assert (Ek : task_of w node = task_of u node) by apply (same_nodes_fields _ _ _ N).
  destruct (moving_fresh j (default [] T) Hj TT) as [Hf Hfk]. fold node in Hf, Hfk.
  destruct (rehome_move_world j w node _ En Ek) as (N' & K' & S' & T' & O' & A').
  set (w' := (rehome_move source target tl j w).2) in *.
  assert (PS' : processor_of source w' = set_heap (<[j := NULL]> <$> S) (processor_of source u)).
  { unfold processor_of. rewrite S'. cbn. fold (processor_of source w). by rewrite PS. }
  assert (PT' : processor_of target w' =
                set_heap (<[(tl + j)%nat := node]> <$> T) (processor_of target u)).
  { unfold processor_of. rewrite T'. cbn. fold (processor_of target w). by rewrite PT. }
  split.
  - exists (<[j := NULL]> <$> S). split_and!; [done|..].
    + destruct S; cbn in *; by rewrite ?length_insert.
    + intros k Hk. rewrite <- ES by lia. destruct S; cbn; [|done].
      by rewrite list_lookup_total_insert_ne by lia.
  - exists (<[(tl + j)%nat := node]> <$> T). destruct T as [T|]; [|cbn in LT; lia].
    cbn [default from_option id fmap option_fmap option_map] in *.
    set (h := HStore T (t_nodes w)) in *.
    assert (Hlt : (tl + j < length (hs_heap h))%nat) by (cbn; lia).
    split_and!; [done|by rewrite length_insert|..]; rewrite Nat.add_succ_r.
    + rewrite slots_S, app_assoc, <- TT. by apply (append_take h).
    + rewrite N'. by apply (append_indexed h).
  - rewrite N'. etrans; [exact N|apply set_heap_index_same].
  - intros a Ha. rewrite slots_S in Ha. fold node in Ha. rewrite N', fn_lookup_insert_ne by set_solver.
    apply O. set_solver.
  - intros k. rewrite K', slots_S, fmap_app. fold node. destruct (decide (k = task_of u node)) as [->|Hne].
    + rewrite fn_lookup_insert. rewrite (decide_True (P := _ ∈ _ ++ _)) by set_solver.
      rewrite K, decide_False by done. by destruct (I source) as [-> _], (I target) as [-> _].
    + rewrite fn_lookup_insert_ne by done. rewrite K. do 2 case_decide; set_solver.
  - intros x Hs Ht. rewrite O' by done. by apply Q.
  - intros x. destruct (decide (x = source)) as [->|Hs]; [rewrite S'; apply I|].
    destruct (decide (x = target)) as [->|Ht]; [rewrite T'; apply I|]. rewrite O' by done. apply I.
  - by rewrite A'.
Qed.
End move.

Lemma move_all_spec source target tl n u :
  source ≠ target → indexed tl (store_of target u) →
  (tl + n ≤ length (heap_of target u))%nat → (n ≤ length (heap_of source u))%nat →
  NoDup (slots source u n) → NoDup (task_of u <$> slots source u n) →
  (∀ a, a ∈ slots source u n → a ∉ take tl (heap_of target u)) →
  wp (for_each n 0 (rehome_move source target tl)) (λ _, moving source target tl n u) u.
Proof.
  intros Hst Hx Hroom Hsrc Hnd Htk Hdis.
  assert (Hgen : ∀ m j w, (j + m = n)%nat → moving source target tl j u w →
    wp (for_each m j (rehome_move source target tl)) (λ _, moving source target tl n u) w).
  { induction m as [|m IH]; intros j w Hj Hm; cbn [for_each].
    - apply wp_ret. by replace n with j by lia.
    - apply wp_bind. unfold wp at 1. apply IH; [lia|]. eapply moving_step; done || lia. }
  apply Hgen; [done|]. by apply moving_start.
Qed.

Lemma wp_on_heap_any sh f (Q : unit → timer_world → Prop) w :
  (∀ w', let h := f (t_tasks w) (heap_len sh w) (store_of sh w) in
         frame sh w w' →
         processor_of sh w' =
           set_heap (const (hs_heap h) <$> pr_timer_heap (processor_of sh w)) (processor_of sh w) →
         t_nodes w' = hs_nodes h → Q tt w') →
  wp (on_heap sh f) Q w.
Proof.
  intros H. apply wp_modify. apply H; cbn.
  - split; cbn; rewrite ?fn_lookup_insert; try done.
    intros x Hx. by rewrite fn_lookup_insert_ne.
  - unfold processor_of. cbn. by rewrite fn_lookup_insert.
  - done.
Qed.

(** The heapify loop starts below the last internal node exactly when the
    length is not [2] or [3] modulo [4]. *)
Lemma heapify_start n f :
  (n `mod` 4 < 2)%nat → ordered (n / LLAM_TIMER_HEAP_ARITY) n f.
Proof.
  intros Hm k Hk Hp. exfalso. pose proof (parent_spec k ltac:(lia)).
  unfold LLAM_TIMER_HEAP_ARITY in *. pose proof (Nat.div_mod_eq n 4). lia.
Qed.

(** What the commit makes of the two heaps. *)
Record merged (source target : Z) (u w : timer_world) : Prop := Merged {
  mg_target : heap_wf target w;
  mg_perm : timers_of target w ≡ₚ timers_of target u ++ timers_of source u;
  mg_order : (heap_len target w `mod` 4 < 2)%nat → heap_ordered target w;
  mg_source : heap_wf source w ∧ timers_of source w = [];
  mg_nodes : same_nodes (t_nodes u) (t_nodes w);
  mg_out : ∀ a, a ∉ timers_of target u ++ timers_of source u → t_nodes w a = t_nodes u a;
  mg_tasks : ∀ k, t_tasks w k =
    if decide (k ∈ task_of u <$> timers_of source u)
    then moved_task (sh_id (t_shards u source)) (sh_id (t_shards u target)) (t_tasks u k)
    else t_tasks u k;
  mg_others : ∀ x, x ≠ source → x ≠ target → t_shards w x = t_shards u x;
  mg_active : t_active_shards w = t_active_shards u }.

Lemma moving_alike source target tl j u w :
  moving source target tl j u w → alike u w.
Proof.
  intros H. split; [intros a; apply (same_nodes_fields _ _ a (mv_nodes _ _ _ _ _ _ H))..|].
  intros k. rewrite (mv_tasks _ _ _ _ _ _ H). by case_decide.
Qed.

Lemma timers_slots sh w : heap_wf sh w → timers_of sh w = slots sh w (heap_len sh w).
Proof. intros W. symmetry. apply slots_take, W. Qed.

Section merge.
Context (source target : Z) (u w : timer_world) (tl n : nat).
Context (Ws : heap_wf source u) (Wt : heap_wf target u).
Context (El : heap_len target u = tl) (En : heap_len source u = n).
Context (M : moving source target tl n u w).

(** The target array after the loop. *)
Lemma moving_array :
  length (heap_of target w) = length (heap_of target u) ∧
  take (tl + n) (heap_of target w) = timers_of target u ++ timers_of source u ∧
  indexed (tl + n) (store_of target w).
Proof.
  destruct (mv_target _ _ _ _ _ _ M) as (T & PT & LT & TT & IT).
  assert (Eh : heap_of target w = default [] T) by (unfold heap_of; by rewrite PT).
  unfold store_of. rewrite Eh. split_and!; [done| |done].
  rewrite TT, (timers_slots source) by done. unfold timers_of. by rewrite El, En.
Qed.

Lemma moving_timed :
  all_timed (t_tasks w) (tl + n) (store_of target w) ∧
  Forall (λ a, a ≠ NULL) (take (tl + n) (heap_of target w)).
Proof.
  destruct moving_array as (_ & Et & [Hl _]). split.
  - intros i Hi.
    assert (Hin : heap_of target w !!! i ∈ timers_of target u ++ timers_of source u).
    { rewrite <- Et. apply list_elem_of_lookup. exists i. by apply (slot_in _ (store_of target w)). }
    apply (alike_timed u w (moving_alike _ _ _ _ _ _ M)).
    apply elem_of_app in Hin as [Hin|Hin];
      [exact (timed_in target u _ Wt Hin)|exact (timed_in source u _ Ws Hin)].
  - rewrite Et. apply Forall_app. split; [apply Wt|apply Ws].
Qed.

Context (Hst : source ≠ target) (Hmax : Z.of_nat (tl + n) <= UINT32_MAX).
Let h := heapify ((tl + n) / LLAM_TIMER_HEAP_ARITY) (t_tasks w) (tl + n) (store_of target w).

(** The heaps after the remaining stores. *)
Context (w' : timer_world).
Context (Nw : t_nodes w' = hs_nodes h) (Kw : t_tasks w' = t_tasks w).
Context (Aw : t_active_shards w' = t_active_shards w).
Context (Ow : ∀ x, x ≠ source → x ≠ target → t_shards w' x = t_shards w x).
Context (Pt : processor_of target w' = set_timer_count (Z.of_nat (tl + n))
  (set_timers (if (0 <? tl + n)%nat then hs_heap h !!! 0%nat else NULL)
    (set_heap (const (hs_heap h) <$> pr_timer_heap (processor_of target w))
      (set_heap_len (tl + n) (processor_of target w))))).
Context (Ps : processor_of source w' = set_timer_count 0 (set_timers NULL
  (set_heap_len 0 (processor_of source w)))).

Lemma heapified :
  shuffled (tl + n) (store_of target w) h ∧ indexed (tl + n) h ∧
  (((tl + n) `mod` 4 < 2)%nat → ordered 0 (tl + n) (keys (t_tasks w) h)).
Proof.
  destruct moving_array as (_ & _ & Hx). destruct moving_timed as [Ht _].
  destruct (heapify_ok (t_tasks w) (tl + n) ((tl + n) / LLAM_TIMER_HEAP_ARITY) (store_of target w))
    as (Hs & Hx' & Ho); [|done..|].
  { apply Nat.Div0.div_le_upper_bound. unfold LLAM_TIMER_HEAP_ARITY. lia. }
  split_and!; [done..|]. intros Hm. by apply Ho, heapify_start.
Qed.

Lemma merged_heap_of : heap_of target w' = hs_heap h.
Proof.
  destruct heapified as [Hs _]. pose proof (shuffled_length _ _ _ Hs) as Hl.
  clearbody h. cbn in Hl. unfold heap_of in *. rewrite Pt. cbn.
  destruct (pr_timer_heap (processor_of target w)); cbn in *; [done|].
  symmetry. by apply nil_length_inv.
Qed.

Lemma merged_target :
  heap_wf target w' ∧ store_of target w' = h ∧ heap_len target w' = (tl + n)%nat.
Proof.
  destruct moving_array as (Hl & Et & Hx). destruct moving_timed as [Ht Hnn].
  destruct heapified as (Hs & Hx' & _).
  destruct (mv_target _ _ _ _ _ _ M) as (T & PT & _).
  assert (Ec : pr_timer_heap_cap (processor_of target w') = pr_timer_heap_cap (processor_of target u))
    by (by rewrite Pt, PT).
  assert (Elw : heap_len target w' = (tl + n)%nat) by (unfold heap_len; by rewrite Pt).
  destruct (heap_wf_intro target w' h (tl + n)) as [W Es]; rewrite ?Ec, ?Kw; try done.
  - apply merged_heap_of.
  - apply (shuffled_timed _ _ _ _ Hs); [apply Hx|apply Hx'|done].
  - by rewrite (shuffled_perm _ _ _ Hs).
  - rewrite (shuffled_length _ _ _ Hs). cbn. rewrite Hl. apply Wt.
  - apply Wt.
  - by rewrite Pt.
  - by rewrite Pt.
Qed.

Lemma merged_source : heap_wf source w' ∧ timers_of source w' = [].
Proof.
  destruct (mv_source _ _ _ _ _ _ M) as (S & PS & LS & _).
  assert (Eh : heap_of source w' = default [] S) by (unfold heap_of; by rewrite Ps, PS).
  assert (Elw : heap_len source w' = 0%nat) by (unfold heap_len; by rewrite Ps).
  assert (Et : timers_of source w' = []) by (unfold timers_of; by rewrite Elw).
  split; [|done].
  split; rewrite ?Et, ?Elw, ?Eh, ?LS; try done; try (intros ? ?; lia).
  - rewrite (hw_cap _ _ Ws). by rewrite Ps, PS.
  - rewrite Ps, PS. apply Ws.
  - split; [cbn; lia|intros; lia].
  - unfold expected_root. fold (heap_len source w'). rewrite Elw. by rewrite Ps.
  - by rewrite Ps.
Qed.

Lemma merged_ok : merged source target u w'.
Proof.
  destruct merged_target as (W & Es & Elw). destruct heapified as (Hs & Hx & Ho).
  destruct moving_array as (_ & Et & _). pose proof (timers_slots source u Ws) as Ets.
  rewrite En in Ets. split; try done.
  - unfold timers_of at 1. rewrite Elw, merged_heap_of, (shuffled_perm _ _ _ Hs). by rewrite <- Et.
  - rewrite Elw. intros Hm. unfold heap_ordered. rewrite Elw, Es, Kw. auto.
  - apply merged_source.
  - rewrite Nw. etrans; [apply M|apply Hs].
  - intros a Ha. rewrite Nw, (shuffled_out _ _ _ Hs).
    + apply M. rewrite <- Ets. set_solver.
    + cbn. by rewrite Et.
  - intros k. rewrite Kw, Ets. apply M.
  - intros x Hx1 Hx2. rewrite Ow by done. by apply M.
  - rewrite Aw. apply M.
Qed.
End merge.

Lemma frame_processor sh w w' x :
  frame sh w w' → x ≠ sh → processor_of x w' = processor_of x w.
Proof. intros F Hx. unfold processor_of. by rewrite (frame_others _ _ _ F). Qed.

(** What neither step on the source nor on the target touches. *)
Record aside (source target : Z) (w w' : timer_world) : Prop := Aside {
  as_tasks : t_tasks w' = t_tasks w;
  as_active : t_active_shards w' = t_active_shards w;
  as_others : ∀ x, x ≠ source → x ≠ target → t_shards w' x = t_shards w x }.

#[export] Instance aside_preorder source target : PreOrder (aside source target).
Proof.
  split; [by split|]. intros x y z [A B C] [A' B' C']. split; try congruence.
  intros s Hs Ht. by rewrite C', C.
Qed.

Lemma frame_aside source target sh w w' :
  sh = source ∨ sh = target → frame sh w w' → aside source target w w'.
Proof. intros Hsh []. split; try done. intros x Hs Ht. naive_solver. Qed.

Lemma merged_pinning source target g R u w :
  merged source target u w → pinning g R u → linked (t_nodes u) R →
  pinning g R w ∧ linked (t_nodes w) R.
Proof.
  intros M [Hnd Ht Hg] Hl. pose proof (mg_nodes _ _ _ _ M) as N.
  assert (Ek : ∀ a, task_of w a = task_of u a) by (intros a; apply (same_nodes_fields _ _ a N)).
  split.
  - split; [done|by rewrite (list_fmap_ext _ (task_of u)) by (intros; apply Ek)|].
    intros a Ha. rewrite Ek, (mg_tasks _ _ _ _ M). by case_decide; apply Hg.
  - eapply linked_ext, Hl. intros a _. apply (same_nodes_fields _ _ a N).
Qed.

Section commit.
Context (source target : Z) (u : timer_world) (g : Z → Z) (n tl : nat).
Context (Hst : source ≠ target) (Ws : heap_wf source u) (Wt : heap_wf target u).
Context (El : heap_len target u = tl) (En : heap_len source u = n).
Context (Hmax : Z.of_nat (tl + n) <= UINT32_MAX).
Context (Hroom : (tl + n ≤ length (heap_of target u))%nat).
Context (Htk : NoDup (task_of u <$> timers_of source u)).
Context (Hdis : ∀ a, a ∈ timers_of source u → a ∉ timers_of target u).

Lemma merge_spec :
  wp (rehome_merge source target n tl (Z.of_nat n) (Z.of_nat tl)) (λ _, merged source target u) u.
Proof.
  pose proof (timers_slots source u Ws) as Es. rewrite En in Es. rewrite Es in Htk, Hdis.
  unfold timers_of in Hdis. rewrite El in Hdis.
  unfold rehome_merge. apply wp_bind. eapply wp_mono.
  { apply move_all_spec; try done.
    - rewrite <- El. apply Wt.
    - rewrite <- En. apply Ws.
    - rewrite <- Es. apply (indexed_nodup _ (store_of source u)), Ws. }
  intros [] w1 M.
  apply wp_bind, (wp_upd_processor target). intros w2 F2 P2 N2.
  apply wp_bind, (wp_upd_processor source). intros w3 F3 P3 N3.
  apply wp_bind, (wp_upd_processor source). intros w4 F4 P4 N4.
  apply wp_bind, wp_on_heap_any. intros w5 h F5 P5 N5.
  apply wp_bind, (wp_refresh_root target). intros w6 F6 P6 N6.
  apply wp_bind, (wp_upd_processor target). intros w7 F7 P7 N7.
  apply (wp_upd_processor source). intros w8 F8 P8 N8.
  assert (Pt4 : processor_of target w4 = set_heap_len (tl + n) (processor_of target w1))
    by (rewrite (frame_processor source _ _ target F4), (frame_processor source _ _ target F3); done).
  assert (Ps2 : processor_of source w2 = processor_of source w1) by (by eapply frame_processor).
  assert (Ps7 : processor_of source w7 = processor_of source w4).
  { rewrite (frame_processor target _ _ source F7), (frame_processor target _ _ source F6) by done.
    by rewrite (frame_processor target _ _ source F5). }
  assert (Eh : h = heapify ((tl + n) / LLAM_TIMER_HEAP_ARITY) (t_tasks w1) (tl + n) (store_of target w1)).
  { subst h. unfold store_of, heap_of, heap_len. rewrite Pt4, N4, N3, N2.
    by rewrite (frame_tasks _ _ _ F4), (frame_tasks _ _ _ F3), (frame_tasks _ _ _ F2). }
  clearbody h. subst h. set (h := heapify _ _ _ _) in *.
  pose proof (λ x y, frame_aside source target source x y (or_introl eq_refl)) as As.
  pose proof (λ x y, frame_aside source target target x y (or_intror eq_refl)) as At.
  assert (A8 : aside source target w1 w8).
  { etrans; [exact (At _ _ F2)|]. etrans; [exact (As _ _ F3)|]. etrans; [exact (As _ _ F4)|].
    etrans; [exact (At _ _ F5)|]. etrans; [exact (At _ _ F6)|]. etrans; [exact (At _ _ F7)|].
    exact (As _ _ F8). }
  assert (Er : expected_root target w5 = if (0 <? tl + n)%nat then hs_heap h !!! 0%nat else NULL).
  { unfold expected_root, heap_of. rewrite P5, Pt4. cbn [set_heap set_heap_len pr_timer_heap pr_timer_heap_len].
    destruct (moving_array source target u w1 tl n Ws El En M) as (Hl & _). unfold heap_of at 1 in Hl.
    destruct (pr_timer_heap (processor_of target w1)); [done|]. cbn in Hl.
    by rewrite (proj2 (Nat.ltb_ge 0 (tl + n))) by lia. }
  apply (merged_ok source target u w1 tl n); try done.
  - by rewrite N8, N7, N6.
  - apply A8.
  - apply A8.
  - apply A8.
  - rewrite (frame_processor source _ _ target F8), P7, P6, P5, Pt4 by done.
    rewrite Er. f_equal. unfold u32. rewrite Z.mod_small; unfold UINT32_MAX in *; lia.
  - by rewrite P8, Ps7, P4, P3, Ps2.
Qed.
End commit.

(** ** The whole operation *)

(** All tasks have 32-bit gates. *)
Definition gates_ok (w : timer_world) : Prop :=
  ∀ k, is_u32 (tk_wait_resolver_state (t_tasks w k)).

(** The array of the target has its recorded capacity. *)
Definition array_ok (sh : Z) (w : timer_world) : Prop :=
  Z.of_nat (length (heap_of sh w)) = pr_timer_heap_cap (processor_of sh w) ∧
  pr_timer_heap_cap (processor_of sh w) <= max_items.

(** The move of the timers, seen from outside. *)
Record rehomed (source target : Z) (w w' : timer_world) : Prop := Rehomed {
  rh_target : heap_wf target w';
  rh_perm : timers_of target w' ≡ₚ timers_of target w ++ timers_of source w;
  rh_order : (heap_len target w' `mod` 4 < 2)%nat → heap_ordered target w';
  rh_source : heap_wf source w' ∧ timers_of source w' = [];
  rh_nodes : same_nodes (t_nodes w) (t_nodes w');
  rh_out : ∀ a, a ∉ timers_of target w ++ timers_of source w → t_nodes w' a = t_nodes w a;
  rh_tasks : ∀ k, t_tasks w' k =
    if decide (k ∈ task_of w <$> timers_of source w)
    then moved_task (sh_id (t_shards w source)) (sh_id (t_shards w target)) (t_tasks w k)
    else t_tasks w k;
  rh_others : ∀ x, x ≠ source → x ≠ target → t_shards w' x = t_shards w x }.

Lemma start_pinned source target w : pinned source target 0 w w.
Proof. split; try done; [set_solver|intros; lia]. Qed.

Lemma target_valid_entry source target w i :
  llam_timer_target_heap_valid source target w = true → (i < heap_len target w)%nat →
  tk_active_timer_heap_shard (t_tasks w (task_of w (heap_of target w !!! i))) =
  sh_id (t_shards w target).
Proof.
  unfold llam_timer_target_heap_valid. rewrite andb_true_iff, forallb_forall.
  intros [_ H] Hi. specialize (H i). unfold target_entry_valid in H. cbv zeta in H.
  rewrite !negb_orb, !andb_true_iff, !negb_involutive, !Z.eqb_eq in H.
  unfold task_of. apply H, in_seq. fold (heap_len target w). lia.
Qed.

Lemma gate_in_place source target i w0 w :
  pinned source target i w0 w → in_place w0 w.
Proof.
  intros H. assert (N : ∀ a, set_next NULL (t_nodes w a) = set_next NULL (t_nodes w0 a)) by apply H.
  split; [split|]; intros a; try (specialize (N a); by injection N).
  destruct (decide (a ∈ task_of w0 <$> slots source w0 i)) as [Ha|Ha].
  - apply list_elem_of_fmap in Ha as (b & -> & Hb). by destruct (pd_tasks _ _ _ _ _ H b Hb) as [_ ->].
  - by rewrite (pd_rest _ _ _ _ _ H a Ha).
Qed.

Lemma unpinned_in_place g R w w' : unpinned g R w w' → in_place w w'.
Proof.
  intros [S A N K Q]. split; [split|]; intros a; try (rewrite N; by case_decide).
  destruct (decide (a ∈ task_of w <$> R)) as [Ha|Ha]; [|by rewrite Q].
  apply list_elem_of_fmap in Ha as (b & -> & Hb). by rewrite K.
Qed.

(** From the pinned memory [w1] through the enlarged one [u] and the merged one
    [w8] to the final one. *)
Section finish.
Context (source target : Z) (w w1 u w8 w' : timer_world) (n : nat).
Context (Ws : heap_wf source w) (En : heap_len source w = n).
Context (H1 : pinned source target n w w1).
Context (Nu : t_nodes u = t_nodes w1) (Ku : t_tasks u = t_tasks w1).
Context (Iu : ∀ x, sh_id (t_shards u x) = sh_id (t_shards w1 x)).
Context (Ou : ∀ x, x ≠ source → x ≠ target → t_shards u x = t_shards w1 x).
Context (Eus : timers_of source u = timers_of source w).
Context (Eut : timers_of target u = timers_of target w).
Context (M : merged source target u w8).
Context (U : unpinned (gate w) (rev (slots source w n)) w8 w').

Lemma finish_slots : slots source w n = timers_of source w.
Proof. rewrite (timers_slots _ _ Ws). by rewrite En. Qed.

Lemma finish_in_R a : a ∈ rev (slots source w n) ↔ a ∈ timers_of source w.
Proof. by rewrite <- Permutation_rev, finish_slots. Qed.

Lemma finish_task_of a : task_of u a = task_of w a ∧ task_of w8 a = task_of w a.
Proof.
  assert (E : task_of u a = task_of w a)
    by (rewrite <- (pinned_task_of _ _ _ _ _ H1 a); unfold task_of; by rewrite Nu).
  split; [done|]. rewrite <- E. apply (same_nodes_fields _ _ a (mg_nodes _ _ _ _ M)).
Qed.

Lemma finish_next a : a ∈ timers_of source w → tn_next (t_nodes w a) = NULL.
Proof.
  rewrite <- finish_slots. intros (j & Hj & ->)%elem_of_slots.
  by destruct (pinned_entry _ _ _ _ _ H1 j Hj).
Qed.

Lemma finish_nodes : same_nodes (t_nodes w) (t_nodes w').
Proof.
  intros a. rewrite (up_nodes _ _ _ _ U). pose proof (mg_nodes _ _ _ _ M a) as E8.
  case_decide as Ha; rewrite finish_in_R in Ha.
  - pose proof (pd_nodes _ _ _ _ _ H1 a) as E1. rewrite <- Nu in E1.
    pose proof (finish_next a Ha) as En'.
    destruct (t_nodes w8 a), (t_nodes u a), (t_nodes w a); cbn in *.
    injection E8; injection E1; intros; by subst.
  - rewrite E8, Nu. f_equal. apply H1. by rewrite finish_slots.
Qed.

Lemma finish_out a :
  a ∉ timers_of target w ++ timers_of source w → t_nodes w' a = t_nodes w a.
Proof.
  intros Ha. rewrite (up_nodes _ _ _ _ U), decide_False by (rewrite finish_in_R; set_solver).
  rewrite (mg_out _ _ _ _ M) by (by rewrite Eus, Eut). rewrite Nu. apply H1.
  rewrite finish_slots. set_solver.
Qed.

Lemma finish_tasks k :
  t_tasks w' k =
    if decide (k ∈ task_of w <$> timers_of source w)
    then moved_task (sh_id (t_shards w source)) (sh_id (t_shards w target)) (t_tasks w k)
    else t_tasks w k.
Proof.
  assert (Ei : ∀ x, sh_id (t_shards u x) = sh_id (t_shards w x))
    by (intros x; rewrite Iu; by rewrite (pd_shards _ _ _ _ _ H1)).
  assert (Et : (task_of u <$> timers_of source u) = (task_of w <$> timers_of source w))
    by (rewrite Eus; apply list_fmap_ext; intros; apply finish_task_of).
  pose proof (mg_tasks _ _ _ _ M k) as E8. rewrite Et, !Ei, Ku in E8.
  case_decide as Hk.
  - apply list_elem_of_fmap in Hk as (a & -> & Ha).
    pose proof (up_tasks _ _ _ _ U a) as E'. rewrite finish_in_R in E'. specialize (E' Ha).
    rewrite (proj2 (finish_task_of a)), E8 in E'. rewrite E'.
    rewrite <- finish_slots in Ha. destruct (pd_tasks _ _ _ _ _ H1 a Ha) as [_ ->].
    unfold gate. by destruct (t_tasks w (task_of w a)).
  - rewrite (up_rest _ _ _ _ U).
    + rewrite E8. apply H1. by rewrite finish_slots.
    + rewrite (list_fmap_ext _ (task_of w)) by (intros; apply finish_task_of).
      by rewrite <- Permutation_rev, finish_slots.
Qed.

Lemma finish_rehomed : rehomed source target w w'.
Proof.
  pose proof (unpinned_in_place _ _ _ _ U) as I.
  assert (P : ∀ x, processor_of x w' = processor_of x w8)
    by (intros x; unfold processor_of; by rewrite (up_shards _ _ _ _ U)).
  pose proof (in_place_views target w8 w' (P target)) as (_ & El & Et).
  pose proof (in_place_views source w8 w' (P source)) as (_ & _ & Es).
  split.
  - by apply (in_place_wf target w8), M.
  - rewrite Et, (mg_perm _ _ _ _ M). by rewrite Eus, Eut.
  - rewrite El. intros Hm. by apply (in_place_ordered target w8), M.
  - rewrite Es. split; [by apply (in_place_wf source w8), M|apply M].
  - apply finish_nodes.
  - apply finish_out.
  - apply finish_tasks.
  - intros x Hs Ht. rewrite (up_shards _ _ _ _ U), (mg_others _ _ _ _ M) by done.
    rewrite Ou by done. apply H1.
Qed.
End finish.

(** The reservation leaves the pinned memory as it was, or enlarges the array
    of the target. *)
Lemma reserved source target w w1 u needed :
  source ≠ target → heap_ok source w → heap_ok target w →
  pinned source target (heap_len source w) w w1 →
  needed = Z.of_nat (heap_len target w) + Z.of_nat (heap_len source w) →
  frame target w1 u → t_nodes u = t_nodes w1 →
  (∃ heap cap, processor_of target u = set_heap_cap cap (set_heap heap (processor_of target w1)) ∧
     Z.of_nat (length (default [] heap)) = cap ∧ cap <= max_items ∧ needed <= cap ∧
     (∀ n, (n ≤ length (heap_of target w1))%nat →
           take n (default [] heap) = take n (heap_of target w1)) ∧ (0 < needed → heap ≠ None)) →
  heap_ok source u ∧ heap_ok target u ∧ heap_len source u = heap_len source w ∧
  heap_len target u = heap_len target w ∧ timers_of source u = timers_of source w ∧
  timers_of target u = timers_of target w ∧ needed <= Z.of_nat (length (heap_of target u)).
Proof.
  intros Hst Hs Ht H1 Hn F N (heap & cap & P & Hc & Hm & Hnc & Htk & _).
  pose proof (gate_in_place _ _ _ _ _ H1) as I1.
  assert (P1 : ∀ x, processor_of x w1 = processor_of x w)
    by (intros x; unfold processor_of; by rewrite (pd_shards _ _ _ _ _ H1)).
  destruct (in_place_ok source w w1 I1 (P1 source) Hs) as [Hs1 Es1].
  destruct (in_place_ok target w w1 I1 (P1 target) Ht) as [Ht1 Et1].
  assert (El1 : heap_len target w1 = heap_len target w) by (unfold heap_len; by rewrite P1).
  destruct (regrown target w1 u heap cap) as [Htu Etu]; try done; [rewrite El1; lia| |].
  { destruct Ht1 as [W1 _]. apply Htk. apply W1. }
  assert (Iu : in_place w1 u).
  { split; [split|]; intros; by rewrite ?N, ?(frame_tasks _ _ _ F). }
  assert (Pu : processor_of source u = processor_of source w1) by (by eapply frame_processor).
  destruct (in_place_ok source w1 u Iu Pu Hs1) as [Hsu Esu].
  split_and!; [done|done| | |by rewrite Esu|by rewrite Etu|].
  - unfold heap_len. by rewrite Pu, P1.
  - unfold heap_len. rewrite P. cbn. by rewrite P1.
  - unfold heap_of. rewrite P. cbn. lia.
Qed.

Lemma commit_spec source target w w1 u :
  source ≠ target → sh_id (t_shards w source) ≠ sh_id (t_shards w target) →
  heap_ok source w → heap_ok target w →
  llam_timer_target_heap_valid source target w = true →
  Z.of_nat (heap_len target w + heap_len source w) <= UINT32_MAX →
  pinned source target (heap_len source w) w w1 → frame target w1 u → t_nodes u = t_nodes w1 →
  heap_ok source u → heap_ok target u → heap_len source u = heap_len source w →
  heap_len target u = heap_len target w → timers_of source u = timers_of source w →
  timers_of target u = timers_of target w →
  (heap_len target w + heap_len source w ≤ length (heap_of target u))%nat →
  wp (rehome_merge source target (heap_len source w) (heap_len target w)
        (Z.of_nat (heap_len source w)) (Z.of_nat (heap_len target w)) ;;
      llam_timer_rehome_release_pins (heap_len source w)
        (first (rev (slots source w (heap_len source w)))))
     (λ _, rehomed source target w) u.
Proof.
  intros Hst Hid [Ws Os] [Wt Ot] Hv Hmax H1 F N Hsu Htu Els Elt Es Et Hroom.
  assert (Ek : ∀ a, task_of u a = task_of w a)
    by (intros a; rewrite <- (pinned_task_of _ _ _ _ _ H1 a); unfold task_of; by rewrite N).
  pose proof (timers_slots source w Ws) as Esl.
  destruct (pinned_nodup _ _ _ _ _ H1) as [_ Hnd].
  assert (Hdis : ∀ a, a ∈ timers_of source u → a ∉ timers_of target u).
  { rewrite Es, Et, Esl. intros a (j & Hj & ->)%elem_of_slots Ha.
    rewrite (timers_slots _ _ Wt) in Ha. apply elem_of_slots in Ha as (i & Hi & Ei).
    pose proof (target_valid_entry source target w i Hv Hi) as Eti. rewrite <- Ei in Eti.
    pose proof (eo_shard _ _ _ _ (pinned_entry _ _ _ _ _ H1 j Hj)). congruence. }
  assert (Htk : NoDup (task_of u <$> timers_of source u)).
  { rewrite Es, Esl. by rewrite (list_fmap_ext _ (task_of w)) by (intros; apply Ek). }
  apply wp_bind. eapply wp_mono.
  { apply (merge_spec source target u); [done|apply Hsu|apply Htu|done..]. }
  intros [] w8 M.
  assert (Hp : pinning (gate w) (rev (slots source w (heap_len source w))) u).
  { destruct (pinned_pinning _ _ _ _ _ H1) as [A B C].
    split; [done|by unfold task_of; rewrite N|].
    intros a Ha. unfold task_of. rewrite N, (frame_tasks _ _ _ F). by apply C. }
  destruct (merged_pinning _ _ _ _ _ _ M Hp) as [Hp8 Hl8].
  { rewrite N. apply H1. }
  pose proof (release_spec _ _ _ Hp8 Hl8) as Hr. rewrite length_rev, length_slots in Hr.
  eapply wp_mono; [exact Hr|]. intros [] w' U.
  apply (finish_rehomed source target w w1 u w8 w' (heap_len source w)); try done.
  - apply F.
  - intros x. destruct (decide (x = target)) as [->|Hx]; [apply F|by rewrite (frame_others _ _ _ F)].
  - intros x _ Hx. by apply F.
Qed.

Lemma set_errno_weq e w : wp (set_errno e) (λ _, weq w) w.
Proof. by split. Qed.

Lemma arguments_distinct source target w :
  rehome_arguments_bad source target w = false → source ≠ target.
Proof. unfold rehome_arguments_bad. intros H. apply Z.eqb_neq. by rewrite !orb_false_iff in H; destruct_and!. Qed.

Lemma heaps_good source target w :
  rehome_heaps_bad source target w = false →
  pr_timer_count (processor_of source w) = Z.of_nat (heap_len source w) ∧
  pr_timer_count (processor_of target w) = Z.of_nat (heap_len target w) ∧
  Z.of_nat (heap_len target w + heap_len source w) <= UINT32_MAX ∧
  llam_timer_target_heap_valid source target w = true.
Proof.
  unfold rehome_heaps_bad. cbv zeta. rewrite !orb_false_iff, !negb_false_iff, !Z.eqb_eq, !Z.ltb_ge.
  intros H. destruct_and!. unfold heap_len. split_and!; try done. lia.
Qed.

(** The part of the operation that cannot fail. *)
Lemma rehome_rest_spec source target w w1 u (v : Z) :
  let n := heap_len source w in
  source ≠ target → rehome_heaps_bad source target w = false →
  pinned source target n w w1 → frame target w1 u → t_nodes u = t_nodes w1 →
  (sh_id (t_shards w source) ≠ sh_id (t_shards w target) →
   heap_ok source w → heap_ok target w →
   heap_ok source u ∧ heap_ok target u ∧ heap_len source u = heap_len source w ∧
   heap_len target u = heap_len target w ∧ timers_of source u = timers_of source w ∧
   timers_of target u = timers_of target w ∧
   (heap_len target w + n ≤ length (heap_of target u))%nat) →
  wp (rehome_merge source target n (heap_len target w)
        (pr_timer_count (processor_of source w)) (pr_timer_count (processor_of target w)) ;;
      llam_timer_rehome_release_pins n (first (rev (slots source w n))) ;;
      mret (Some v))
    (λ r w', r = Some v ∧
       (sh_id (t_shards w source) ≠ sh_id (t_shards w target) →
        heap_ok source w → heap_ok target w → rehomed source target w w')) u.
Proof.
  intros n Hst Hb H1 F N Hu. destruct (heaps_good _ _ _ Hb) as (-> & -> & Hmax & Hv). split.
  - unfold mbind, st_bind. by repeat case_match.
  - intros Hid Hs Ht. destruct (Hu Hid Hs Ht) as (? & ? & ? & ? & ? & ? & ?).
    assert (Hc : wp (rehome_merge source target n (heap_len target w) (Z.of_nat n)
        (Z.of_nat (heap_len target w)) ;;
      llam_timer_rehome_release_pins n (first (rev (slots source w n))))
     (λ _, rehomed source target w) u) by (by apply (commit_spec source target w w1 u)).
    unfold wp, mbind, st_bind in Hc |- *.
    destruct (rehome_merge _ _ _ _ _ _ u) as [? w8].
    by destruct (llam_timer_rehome_release_pins n _ w8).
Qed.

Lemma rehome_spec source target w :
  gates_ok w → array_ok target w →
  wp (llam_processor_rehome_timers_locked source target) (λ r w',
    match r with
    | None => weq w w'
    | Some m =>
      sh_id (t_shards w source) ≠ sh_id (t_shards w target) →
      heap_ok source w → heap_ok target w →
      m = Z.of_nat (heap_len source w) ∧ rehomed source target w w'
    end) w.
Proof.
  intros Hg [Hcap Hmx]. unfold llam_processor_rehome_timers_locked.
  apply wp_bind, wp_gets, wp_if; intros Ha; [by apply wp_ret|].
  apply wp_bind, wp_gets, wp_bind, wp_gets, wp_bind, wp_gets, wp_if; intros Hb; [by apply wp_ret|].
  fold (heap_len source w) (heap_len target w).
  apply wp_if; intros Hm.
  { apply wp_bind. eapply wp_mono; [apply set_errno_weq|]. intros [] w' ?. by apply wp_ret. }
  apply wp_bind. eapply wp_mono; [apply (rehome_pin_spec source target w _ 0 w Hg), start_pinned|].
  intros [pins|] w1; [|intros ?; by apply wp_ret]. intros [-> H1]. cbn [Nat.add] in *.
  assert (P1 : ∀ x, processor_of x w1 = processor_of x w)
    by (intros x; unfold processor_of; by rewrite (pd_shards _ _ _ _ _ H1)).
  apply wp_bind. eapply wp_mono.
  { apply reserve_spec; unfold heap_of; rewrite P1; done. }
  intros ok u (F & N & Hr). destruct ok; cbn [negb].
  - destruct Hr as [_ Hr]. eapply wp_mono.
    { apply (rehome_rest_spec source target w w1 u); [by eapply arguments_distinct|done..|].
      intros _ Hs Ht. destruct (reserved source target w w1 u _ (arguments_distinct _ _ _ Ha)
        Hs Ht H1 eq_refl F N Hr) as (? & ? & ? & ? & ? & ? & ?). split_and!; done || lia. }
    cbv beta. intros r w' [-> Hw] Hid Hs Ht. split; [|auto].
    destruct Hs as [Ws _]. pose proof (hw_len _ _ Ws). unfold u32.
    rewrite Z.mod_small; unfold UINT32_MAX in *; lia.
  - destruct Hr as (_ & Pu & _).
    assert (Hu : pinned source target (heap_len source w) w u).
    { apply (pinned_weq _ _ _ _ w1 _ H1). split.
      - intros x. destruct (decide (x = target)) as [->|Hx]; [|by apply F].
        unfold processor_of in Pu. destruct F as [_ Fi Fr _ _ _].
        destruct (t_shards u target), (t_shards w1 target); cbn in *; by subst.
      - intros; by rewrite N.
      - intros; by rewrite (frame_tasks _ _ _ F).
      - intros; by rewrite (frame_active _ _ _ F). }
    apply wp_bind. eapply wp_mono; [by apply (pinned_release source target)|].
    intros [] w' ?. by apply wp_ret.
Qed.

(** ** Theorems *)

(** C16: [llam_processor_rehome_timers_locked] is all or nothing.  A refused
    call leaves every shard, node and task exactly as it was: the resolver
    gates it entered are left again and the chain through [next] is undone.  A
    successful call moves exactly the timers of the source behind those of the
    target, empties the source, updates positions, counters and the root, sets
    the heap, parked and home shards of exactly the moved tasks and nothing
    else of them, and the result is an ordered heap whenever the merged length
    is [0] or [1] modulo [4]. *)
Theorem rehome_all_or_nothing source target w r w' :
  gates_ok w → array_ok target w →
  llam_processor_rehome_timers_locked source target w = (r, w') →
  match r with
  | None => weq w w'
  | Some m =>
    sh_id (t_shards w source) ≠ sh_id (t_shards w target) →
    heap_ok source w → heap_ok target w →
    m = Z.of_nat (heap_len source w) ∧ rehomed source target w w'
  end.
Proof. intros Hg Ha. exact (wp_run _ _ _ _ _ (rehome_spec source target w Hg Ha)). Qed.

Lemma demo_gates reallocs : gates_ok (demo_world reallocs).
Proof. intros k. cbn. unfold demo_tasks. by repeat case_match. Qed.

Lemma rehome_all_or_nothing_witness :
  let w := demo_world [] in
  let r := llam_processor_rehome_timers_locked 101 102 w in
  r.1 = Some 1 ∧ 1 = Z.of_nat (heap_len 101 w) ∧ rehomed 101 102 w r.2.
Proof.
  split; [by vm_compute|].
  apply (rehome_all_or_nothing 101 102 (demo_world []) (Some 1)
           (llam_processor_rehome_timers_locked 101 102 (demo_world [])).2).
  - apply demo_gates.
  - by vm_compute.
  - apply injective_projections; by vm_compute || done.
  - done.
  - apply demo_ok. set_solver.
  - apply demo_ok. set_solver.
Defined.

(** C17: the heapify loop of [llam_processor_rehome_timers_locked] starts at
    [merged_len / 4 - 1], which skips the last internal node when the merged
    length is [2] or [3] modulo [4].  In the example, moving one timer with
    deadline 5 behind two timers with deadlines 10 and 20 succeeds, but the
    target is not a heap afterwards: its root has deadline 10, and at time 7
    the collection of expired timers finds none although one is due. *)
Theorem rehome_loses_order :
  let w := demo_world [] in
  let r := llam_processor_rehome_timers_locked 101 100 w in
  heap_ok 100 w ∧ heap_ok 101 w ∧ r.1 = Some 1 ∧
  timers_of 100 r.2 = [1001; 1002; 1003] ∧ ¬ heap_ordered 100 r.2 ∧
  tn_deadline_ns (t_nodes r.2 1003) = 5 ∧ (collect_expired 100 7 r.2).1 = (NULL, 0).
Proof.
  split_and!; try (by vm_compute).
  - apply demo_ok. set_solver.
  - apply demo_ok. set_solver.
  - intros H. specialize (H 2%nat). vm_compute in H. destruct H; try done; lia.
Qed.
