(* ===== verification/ClDeque.v ===== *)
(** * The Chase-Lev deque of the normal run queue

    [llam_cldeque_t] of [src/core/sched/norm_queue.c]: the owner of a shard
    pushes and pops runnable tasks at the bottom while any number of thieves
    steal from the top, without a lock.

    The C functions are programs over atomic loads, stores and compare-and-swap
    operations on [top], [bottom] and the slots of the buffer.  Running a
    program alone gives its sequential meaning; a configuration runs the owner
    and the thieves with their accesses interleaved in any order.  Memory is
    sequentially consistent: the orderings and fences of the source are not
    modelled further.  [size_t] indices wrap around at [2^64]. *)

From stdpp Require Import functions.
From S2P Require Import Prelude.

(** ** Programs of atomic accesses *)

Inductive loc := Top | Bottom | Slot (i : Z).

Inductive prog (A : Type) :=
  | Ret (a : A)
  | Load (l : loc) (k : Z → prog A)
  | Store (l : loc) (x : Z) (k : prog A)
  | Cas (expected new : Z) (k : bool → prog A).

Arguments Ret {A} a.
Arguments Load {A} l k.
Arguments Store {A} l x k.
Arguments Cas {A} expected new k.

Definition NULL : Z := 0.
Definition LLAM_NORM_QUEUE_CAP : Z := 4096.
Definition LLAM_CLDEQUE_DISTANCE_SIGN_BIT : Z := UINT64_MAX / 2 + 1.

Record llam_cldeque := Cldeque { dq_top : Z; dq_bottom : Z; dq_buffer : list Z }.

(** ** The operations *)

Definition llam_cldeque_distance_is_negative (distance : Z) : bool :=
  negb (Z.land distance LLAM_CLDEQUE_DISTANCE_SIGN_BIT =? 0).

(** [buffer[index & (LLAM_NORM_QUEUE_CAP - 1)]]. *)
Definition slot (index : Z) : loc := Slot (Z.land index (LLAM_NORM_QUEUE_CAP - 1)).

Fixpoint clear_slots (n : nat) (i : Z) : prog unit :=
  match n with
  | O => Ret tt
  | S n' => Store (Slot i) NULL (clear_slots n' (i + 1))
  end.

Definition llam_cldeque_init : prog unit :=
  Store Top 0 (Store Bottom 0 (clear_slots (Z.to_nat LLAM_NORM_QUEUE_CAP) 0)).

(** The stores of a push that found room: the slot, then [bottom]. *)
Definition push_commit (task bottom : Z) : prog bool :=
  Store (slot bottom) task (
  Store Bottom (u64 (bottom + 1)) (
  Ret true)).

Definition push_check (task bottom : Z) : prog bool :=
  Load Top (λ top,
  let distance := u64 (bottom - top) in
  if llam_cldeque_distance_is_negative distance ||
     (LLAM_NORM_QUEUE_CAP <=? distance) then Ret false
  else push_commit task bottom).

Definition llam_cldeque_push_bottom (task : Z) : prog bool :=
  if task =? NULL then Ret false else
  Load Bottom (push_check task).

(** The race of the owner with the thieves for the last task. *)
Definition pop_race (top task : Z) : prog Z :=
  Cas top (u64 (top + 1)) (λ won,
  Store Bottom (u64 (top + 1)) (
  Ret (if won then task else NULL))).

Definition pop_take (bottom top : Z) : prog Z :=
  Load (slot bottom) (λ task,
  if u64 (bottom - top) =? 0 then pop_race top task
  else Ret task).

Definition pop_check (bottom : Z) : prog Z :=
  Load Top (λ top,
  if llam_cldeque_distance_is_negative (u64 (bottom - top)) then
    Store Bottom top (Ret NULL)
  else pop_take bottom top).

Definition llam_cldeque_pop_bottom : prog Z :=
  Load Bottom (λ bottom,
  let bottom := u64 (bottom - 1) in
  Store Bottom bottom (pop_check bottom)).

Definition steal_claim (top task : Z) : prog Z :=
  Cas top (u64 (top + 1)) (λ won,
  Ret (if won then task else NULL)).

Definition steal_read (top : Z) : prog Z :=
  Load (slot top) (λ task,
  if task =? NULL then Ret NULL else steal_claim top task).

Definition steal_check (top : Z) : prog Z :=
  Load Bottom (λ bottom,
  let distance := u64 (bottom - top) in
  if (distance =? 0) || llam_cldeque_distance_is_negative distance then Ret NULL
  else steal_read top).

Definition llam_cldeque_steal_top : prog Z :=
  Load Top steal_check.

Definition llam_cldeque_has_work : prog bool :=
  Load Top (λ top,
  Load Bottom (λ bottom,
  let distance := u64 (bottom - top) in
  Ret (negb (distance =? 0) && negb (llam_cldeque_distance_is_negative distance)))).

(** ** Execution *)

Definition load (l : loc) (d : llam_cldeque) : Z :=
  match l with
  | Top => dq_top d
  | Bottom => dq_bottom d
  | Slot i => dq_buffer d !!! Z.to_nat i
  end.

Definition store (l : loc) (x : Z) (d : llam_cldeque) : llam_cldeque :=
  match l with
  | Top => Cldeque x (dq_bottom d) (dq_buffer d)
  | Bottom => Cldeque (dq_top d) x (dq_buffer d)
  | Slot i => Cldeque (dq_top d) (dq_bottom d) (<[Z.to_nat i := x]> (dq_buffer d))
  end.

(** One access of a program; [None] when it has returned. *)
Definition access {A} (p : prog A) (d : llam_cldeque) : option (prog A * llam_cldeque) :=
  match p with
  | Ret _ => None
  | Load l k => Some (k (load l d), d)
  | Store l x k => Some (k, store l x d)
  | Cas expected new k =>
    if dq_top d =? expected then Some (k true, store Top new d) else Some (k false, d)
  end.

(** A program that runs alone. *)
Fixpoint run {A} (p : prog A) (d : llam_cldeque) : A * llam_cldeque :=
  match p with
  | Ret a => (a, d)
  | Load l k => run (k (load l d)) d
  | Store l x k => run k (store l x d)
  | Cas expected new k =>
    if dq_top d =? expected then run (k true) (store Top new d) else run (k false) d
  end.

(** ** Interleaved execution *)

(** A thread is idle or inside an operation. *)
Inductive thread (A : Type) := Idle | Running (p : prog A).
Arguments Idle {A}.
Arguments Running {A} p.

Inductive event :=
  | CallPush (task : Z) | ReturnPush (ok : bool)
  | CallPop | ReturnPop (task : Z)
  | CallSteal (thief : nat) | ReturnSteal (thief : nat) (task : Z).

(** The owner runs one push or pop at a time; thief [i] steals. *)
Inductive owner := OwnerIdle | Pushing (p : prog bool) | Popping (p : prog Z).

Record config := Config {
  c_mem : llam_cldeque; c_owner : owner; c_thief : nat → thread Z }.

Inductive step : config → option event → config → Prop :=
  | call_push d th task :
      task ≠ NULL →
      step (Config d OwnerIdle th) (Some (CallPush task))
           (Config d (Pushing (llam_cldeque_push_bottom task)) th)
  | call_pop d th :
      step (Config d OwnerIdle th) (Some CallPop)
           (Config d (Popping llam_cldeque_pop_bottom) th)
  | call_steal d o th i :
      th i = Idle →
      step (Config d o th) (Some (CallSteal i))
           (Config d o (<[i := Running llam_cldeque_steal_top]> th))
  | access_push d p p' d' th :
      access p d = Some (p', d') →
      step (Config d (Pushing p) th) None (Config d' (Pushing p') th)
  | access_pop d p p' d' th :
      access p d = Some (p', d') →
      step (Config d (Popping p) th) None (Config d' (Popping p') th)
  | access_steal d o th i p p' d' :
      th i = Running p → access p d = Some (p', d') →
      step (Config d o th) None (Config d' o (<[i := Running p']> th))
  | return_push d ok th :
      step (Config d (Pushing (Ret ok)) th) (Some (ReturnPush ok)) (Config d OwnerIdle th)
  | return_pop d task th :
      step (Config d (Popping (Ret task)) th) (Some (ReturnPop task)) (Config d OwnerIdle th)
  | return_steal d o th i task :
      th i = Running (Ret task) →
      step (Config d o th) (Some (ReturnSteal i task))
           (Config d o (<[i := Idle]> th)).

(** Executions with their visible events, oldest first. *)
Inductive steps {S : Type} (R : S → option event → S → Prop) : S → list event → S → Prop :=
  | steps_nil s : steps R s [] s
  | steps_silent s s' s'' evs :
      R s None s' → steps R s' evs s'' → steps R s evs s''
  | steps_event s s' s'' e evs :
      R s (Some e) s' → steps R s' evs s'' → steps R s (e :: evs) s''.

(** ** The atomic deque

    The specification: an operation takes effect in one step between its call
    and its return.  A push is refused only by a full deque, a pop fails only
    on an empty one; a steal may fail at any time (it gives up when it loses a
    race). *)

Inductive call := ReadyPush (task : Z) | ReadyPop | DonePush (ok : bool) | DonePop (task : Z).

Record atomic := Atomic {
  a_tasks : list Z; a_owner : option call; a_thief : nat → option (option Z) }.

Inductive astep : atomic → option event → atomic → Prop :=
  | acall_push l th task :
      task ≠ NULL →
      astep (Atomic l None th) (Some (CallPush task)) (Atomic l (Some (ReadyPush task)) th)
  | acall_pop l th :
      astep (Atomic l None th) (Some CallPop) (Atomic l (Some ReadyPop) th)
  | acall_steal l o th i :
      th i = None →
      astep (Atomic l o th) (Some (CallSteal i)) (Atomic l o (<[i := Some None]> th))
  | do_push l th task :
      Z.of_nat (length l) < LLAM_NORM_QUEUE_CAP →
      astep (Atomic l (Some (ReadyPush task)) th) None
            (Atomic (l ++ [task]) (Some (DonePush true)) th)
  | do_push_full l th task :
      Z.of_nat (length l) = LLAM_NORM_QUEUE_CAP →
      astep (Atomic l (Some (ReadyPush task)) th) None (Atomic l (Some (DonePush false)) th)
  | do_pop l th task :
      astep (Atomic (l ++ [task]) (Some ReadyPop) th) None (Atomic l (Some (DonePop task)) th)
  | do_pop_empty th :
      astep (Atomic [] (Some ReadyPop) th) None (Atomic [] (Some (DonePop NULL)) th)
  | do_steal l o th i task :
      th i = Some None →
      astep (Atomic (task :: l) o th) None (Atomic l o (<[i := Some (Some task)]> th))
  | do_steal_fail l o th i :
      th i = Some None →
      astep (Atomic l o th) None (Atomic l o (<[i := Some (Some NULL)]> th))
  | areturn_push l th ok :
      astep (Atomic l (Some (DonePush ok)) th) (Some (ReturnPush ok)) (Atomic l None th)
  | areturn_pop l th task :
      astep (Atomic l (Some (DonePop task)) th) (Some (ReturnPop task)) (Atomic l None th)
  | areturn_steal l o th i task :
      th i = Some (Some task) →
      astep (Atomic l o th) (Some (ReturnSteal i task)) (Atomic l o (<[i := None]> th)).

(** ** Index arithmetic *)

Lemma u64_sub x y : u64 (u64 x - u64 y) = u64 (x - y).
Proof. unfold u64. by rewrite <- Zminus_mod. Qed.

Lemma u64_sub_l x y : u64 (u64 x - y) = u64 (x - y).
Proof. unfold u64. by rewrite Zminus_mod_idemp_l. Qed.

Lemma u64_add_l x y : u64 (u64 x + y) = u64 (x + y).
Proof. unfold u64. by rewrite Zplus_mod_idemp_l. Qed.

(** A distance below half the index space is read with its sign. *)
Lemma distance_sign z :
  - 2 ^ 63 <= z < 2 ^ 63 → llam_cldeque_distance_is_negative (u64 z) = (z <? 0).
Proof.
  intros Hz. unfold llam_cldeque_distance_is_negative.
  change LLAM_CLDEQUE_DISTANCE_SIGN_BIT with (2 ^ 63).
  assert (E : Z.land (u64 z) (2 ^ 63) = if Z.testbit (u64 z) 63 then 2 ^ 63 else 0).
  { apply Z.bits_inj'. intros i Hi. rewrite Z.land_spec, Z.pow2_bits_eqb by lia.
    destruct (Z.eqb_spec 63 i) as [<-|Hne].
    - rewrite andb_true_r. destruct (Z.testbit (u64 z) 63); [by rewrite Z.pow2_bits_true|by rewrite Z.bits_0].
    - rewrite andb_false_r. destruct (Z.testbit (u64 z) 63); [by rewrite Z.pow2_bits_false|by rewrite Z.bits_0]. }
  rewrite E. assert (Hb : Z.testbit (u64 z) 63 = (z <? 0)).
  { rewrite Z.testbit_eqb by lia. unfold u64. destruct (Z.ltb_spec z 0).
    - replace (z mod 2 ^ 64) with (z + 2 ^ 64) by (apply (Z.mod_unique _ _ (-1)); lia).
      replace ((z + 2 ^ 64) / 2 ^ 63) with 1; [done|]. apply (Z.div_unique _ _ _ (z + 2 ^ 63)); lia.
    - rewrite (Z.mod_small z) by lia. by rewrite Z.div_small by lia. }
  rewrite Hb. by destruct (z <? 0).
Qed.

Lemma distance_zero z : - 2 ^ 63 <= z < 2 ^ 63 → (u64 z =? 0) = (z =? 0).
Proof.
  intros Hz. unfold u64. destruct (Z.ltb_spec z 0).
  - replace (z mod 2 ^ 64) with (z + 2 ^ 64) by (apply (Z.mod_unique _ _ (-1)); lia).
    rewrite !(proj2 (Z.eqb_neq _ 0)); [done|lia..].
  - by rewrite Z.mod_small by lia.
Qed.

(** The slot of an index, before the index is reduced. *)
Definition place (i : Z) : Z := i mod LLAM_NORM_QUEUE_CAP.

Lemma place_u64 i : Z.land (u64 i) (LLAM_NORM_QUEUE_CAP - 1) = place i.
Proof.
  unfold place, u64. change (LLAM_NORM_QUEUE_CAP - 1) with (Z.ones 12).
  rewrite Z.land_ones by lia. change LLAM_NORM_QUEUE_CAP with (2 ^ 12).
  apply Z.mod_mod_divide. by exists (2 ^ 52).
Qed.

Lemma slot_u64 i : slot (u64 i) = Slot (place i).
Proof. unfold slot. by rewrite place_u64. Qed.

Lemma place_range i : 0 <= place i < LLAM_NORM_QUEUE_CAP.
Proof. apply Z.mod_pos_bound. done. Qed.

(** Indices less than a buffer length apart have different slots. *)
Lemma place_ne i j :
  i < j < i + LLAM_NORM_QUEUE_CAP → place i ≠ place j.
Proof.
  unfold place, LLAM_NORM_QUEUE_CAP. intros H E.
  pose proof (Z.div_mod i 4096 ltac:(lia)). pose proof (Z.div_mod j 4096 ltac:(lia)). lia.
Qed.

Definition at_place (d : llam_cldeque) (i : Z) : Z := load (Slot (place i)) d.

(** The slots from [T] on hold the tasks [l]. *)
Definition holds (d : llam_cldeque) (T : Z) (l : list Z) : Prop :=
  ∀ j x, l !! j = Some x → at_place d (T + Z.of_nat j) = x.

Lemma holds_tail d T x l : holds d T (x :: l) → holds d (T + 1) l.
Proof.
  intros H j y Hj. rewrite <- (H (S j) y Hj). f_equal. lia.
Qed.

Lemma holds_app d T l k : holds d T (l ++ k) → holds d T l.
Proof. intros H j x Hj. apply H. by apply lookup_app_l_Some. Qed.

Lemma holds_last d T l x : holds d T (l ++ [x]) → at_place d (T + Z.of_nat (length l)) = x.
Proof. intros H. apply H. apply list_lookup_middle. done. Qed.

Lemma holds_snoc d T l x :
  holds d T l → at_place d (T + Z.of_nat (length l)) = x → holds d T (l ++ [x]).
Proof.
  intros H Hx j y [Hj|[Hj Hy]]%lookup_app_Some; [by apply H|].
  apply list_lookup_singleton_Some in Hy as [Hz <-]. by replace j with (length l) by lia.
Qed.

Definition wf (d : llam_cldeque) : Prop := length (dq_buffer d) = Z.to_nat LLAM_NORM_QUEUE_CAP.

Lemma at_place_store d i x :
  wf d → at_place (store (Slot (place i)) x d) i = x.
Proof.
  intros Hd. cbn. apply list_lookup_total_insert_eq. rewrite Hd.
  pose proof (place_range i). lia.
Qed.

Lemma at_place_store_ne d i j x :
  place j ≠ place i → at_place (store (Slot (place i)) x d) j = at_place d j.
Proof.
  intros Hne. cbn. apply list_lookup_total_insert_ne.
  pose proof (place_range i). pose proof (place_range j). lia.
Qed.

Lemma holds_store d T l x :
  Z.of_nat (length l) < LLAM_NORM_QUEUE_CAP → holds d T l →
  holds (store (Slot (place (T + Z.of_nat (length l)))) x d) T l.
Proof.
  intros Hl H j y Hj. rewrite at_place_store_ne; [by apply H|].
  apply lookup_lt_Some in Hj. apply place_ne. lia.
Qed.

(** ** The simulation *)

(** Where the owner is: [B] is the logical bottom, one more than the [bottom]
    in memory while a pop has not taken effect. *)
Inductive owner_rel (d : llam_cldeque) (l : list Z) (B : Z) : owner → option call → Prop :=
  | or_idle : dq_bottom d = u64 B → owner_rel d l B OwnerIdle None
  | or_push task :
      task ≠ NULL → dq_bottom d = u64 B →
      owner_rel d l B (Pushing (llam_cldeque_push_bottom task)) (Some (ReadyPush task))
  | or_push_check task :
      task ≠ NULL → dq_bottom d = u64 B →
      owner_rel d l B (Pushing (push_check task (u64 B))) (Some (ReadyPush task))
  | or_push_commit task :
      task ≠ NULL → dq_bottom d = u64 B → Z.of_nat (length l) < LLAM_NORM_QUEUE_CAP →
      owner_rel d l B (Pushing (push_commit task (u64 B))) (Some (ReadyPush task))
  | or_push_bottom task :
      task ≠ NULL → dq_bottom d = u64 B → Z.of_nat (length l) < LLAM_NORM_QUEUE_CAP →
      at_place d B = task →
      owner_rel d l B (Pushing (Store Bottom (u64 (u64 B + 1)) (Ret true))) (Some (ReadyPush task))
  | or_pushed ok :
      dq_bottom d = u64 B → owner_rel d l B (Pushing (Ret ok)) (Some (DonePush ok))
  | or_pop :
      dq_bottom d = u64 B → owner_rel d l B (Popping llam_cldeque_pop_bottom) (Some ReadyPop)
  | or_pop_store :
      dq_bottom d = u64 B →
      owner_rel d l B (Popping (Store Bottom (u64 (u64 B - 1)) (pop_check (u64 (u64 B - 1)))))
        (Some ReadyPop)
  | or_pop_check :
      dq_bottom d = u64 (B - 1) →
      owner_rel d l B (Popping (pop_check (u64 (B - 1)))) (Some ReadyPop)
  | or_pop_take top x :
      dq_bottom d = u64 B → (u64 (u64 B - top) =? 0) = false → at_place d B = x →
      owner_rel d l B (Popping (pop_take (u64 B) top)) (Some (DonePop x))
  | or_pop_last x :
      dq_bottom d = u64 (B - 1) → at_place d (B - 1) = x → l = [x] ∨ l = [] →
      owner_rel d l B (Popping (pop_take (u64 (B - 1)) (u64 (B - 1)))) (Some ReadyPop)
  | or_pop_race x :
      dq_bottom d = u64 (B - 1) → l = [x] ∨ l = [] →
      owner_rel d l B (Popping (pop_race (u64 (B - 1)) x)) (Some ReadyPop)
  | or_pop_restore r :
      dq_bottom d = u64 (B - 1) → l = [] →
      owner_rel d l B (Popping (Store Bottom (u64 B) (Ret r))) (Some (DonePop r))
  | or_popped r :
      dq_bottom d = u64 B → owner_rel d l B (Popping (Ret r)) (Some (DonePop r)).

(** Where a thief is: [t] is the top it has read, no later than the current
    [T].  If it is still current, the deque is not empty and the task read is
    its first. *)
Inductive thief_rel (s T : Z) (l : list Z) : thread Z → option (option Z) → Prop :=
  | tr_idle : thief_rel s T l Idle None
  | tr_start : thief_rel s T l (Running llam_cldeque_steal_top) (Some None)
  | tr_check t :
      s <= t <= T → thief_rel s T l (Running (steal_check (u64 t))) (Some None)
  | tr_read t :
      s <= t <= T → (t = T → l ≠ []) → thief_rel s T l (Running (steal_read (u64 t))) (Some None)
  | tr_claim t x :
      s <= t <= T → (t = T → head l = Some x) →
      thief_rel s T l (Running (steal_claim (u64 t) x)) (Some None)
  | tr_done r : thief_rel s T l (Running (Ret r)) (Some (Some r)).

(** Whether a push is under way that has not taken effect. *)
Definition pending (o : option call) : Z :=
  match o with Some (ReadyPush _) => 1 | _ => 0 end.

(** [s] is the index the deque started at and [n] the number of pushes called
    so far. *)
Record sim (s n T : Z) (c : config) (a : atomic) : Prop := Sim {
  sim_wf : wf (c_mem c);
  sim_top : dq_top (c_mem c) = u64 T;
  sim_start : s <= T;
  sim_count : T + Z.of_nat (length (a_tasks a)) + pending (a_owner a) <= s + n;
  sim_length : Z.of_nat (length (a_tasks a)) <= LLAM_NORM_QUEUE_CAP;
  sim_nonnull : Forall (λ x, x ≠ NULL) (a_tasks a);
  sim_holds : holds (c_mem c) T (a_tasks a);
  sim_owner : owner_rel (c_mem c) (a_tasks a) (T + Z.of_nat (length (a_tasks a)))
                (c_owner c) (a_owner a);
  sim_thief : ∀ i, thief_rel s T (a_tasks a) (c_thief c i) (a_thief a i) }.

(** *** Thieves when the deque changes *)

Section thieves.
Context (s T : Z) (l : list Z).

Lemma thief_push x p r : thief_rel s T l p r → thief_rel s T (l ++ [x]) p r.
Proof.
  intros []; econstructor; try done.
  - intros Ht. by destruct l.
  - intros Ht. destruct l; [by specialize (H0 Ht)|auto].
Qed.

Lemma thief_pop x p r : l ≠ [] → thief_rel s T (l ++ [x]) p r → thief_rel s T l p r.
Proof.
  intros Hl []; econstructor; try done.
  intros Ht. specialize (H0 Ht). by destruct l.
Qed.

(** A thief that read the top before it moved has lost. *)
Lemma thief_late l' p r : thief_rel s T l p r → thief_rel s (T + 1) l' p r.
Proof. intros []; econstructor; lia. Qed.
End thieves.

Lemma astep_one a a' : astep a None a' → steps astep a [] a'.
Proof. intros H. eapply steps_silent; [done|]. apply steps_nil. Qed.

Section sim.
Context (s n T : Z) (d : llam_cldeque) (o : owner) (th : nat → thread Z).
Context (l : list Z) (ao : option call) (ath : nat → option (option Z)).
Context (H : sim s n T (Config d o th) (Atomic l ao ath)).
Let B := T + Z.of_nat (length l).

(** A thief moves on while the deque stays as it is. *)
Lemma sim_set_thief i p r :
  thief_rel s T l p r →
  sim s n T (Config d o (<[i := p]> th)) (Atomic l ao (<[i := r]> ath)).
Proof.
  intros Hp. destruct H. split; try done. cbn in *. intros j.
  destruct (decide (j = i)) as [->|Hne]; [by rewrite !fn_lookup_insert|].
  rewrite !fn_lookup_insert_ne by done. auto.
Qed.

Lemma sim_move_thief i p :
  thief_rel s T l p (ath i) → sim s n T (Config d o (<[i := p]> th)) (Atomic l ao ath).
Proof.
  intros Hp. destruct H. split; try done. cbn in *. intros j.
  destruct (decide (j = i)) as [->|Hne]; [by rewrite fn_lookup_insert|].
  rewrite fn_lookup_insert_ne by done. auto.
Qed.

(** The owner moves on while the contents stay as they are. *)
Lemma sim_move_owner d' o' ao' :
  wf d' → dq_top d' = dq_top d → holds d' T l → pending ao' <= pending ao →
  owner_rel d' l B o' ao' → sim s n T (Config d' o' th) (Atomic l ao' ath).
Proof. intros ? Ht ? ? ?. destruct H. split; try done; cbn in *; [congruence|lia]. Qed.
End sim.

Lemma owner_steal d x l B o ao v :
  owner_rel d (x :: l) B o ao → owner_rel (store Top v d) l B o ao.
Proof.
  intros []; econstructor; try done; cbn in *; try lia.
  - destruct H1 as [[= -> ->]|?]; [by right|done].
  - destruct H0 as [[= -> ->]|?]; [by right|done].
Qed.

(** The top moves past the first task. *)
Lemma sim_take s n T d o th x l ao ath :
  sim s n T (Config d o th) (Atomic (x :: l) ao ath) →
  sim s n (T + 1) (Config (store Top (u64 (T + 1)) d) o th) (Atomic l ao ath).
Proof.
  intros [? ? ? Hc Hl Hn Hh Ho Ht]. cbn in *. split; try done; cbn in *; try lia.
  - by apply Forall_cons in Hn as [_ ?].
  - by apply holds_tail in Hh.
  - replace (T + 1 + Z.of_nat (length l)) with (T + Z.of_nat (S (length l))) by lia.
    by apply (owner_steal _ x).
  - intros i. by apply (thief_late s T (x :: l)).
Qed.

Lemma bottom_cases d l B o ao :
  owner_rel d l B o ao → dq_bottom d = u64 B ∨ dq_bottom d = u64 (B - 1).
Proof. intros []; auto. Qed.

Lemma pending_range o : 0 <= pending o <= 1.
Proof. destruct o as [[]|]; cbn; lia. Qed.

(** Indices less than [2^64] apart are told apart. *)
Lemma u64_inj_near t T : t <= T < t + 2 ^ 64 → u64 T = u64 t → T = t.
Proof.
  unfold u64. intros H E. pose proof (Z.div_mod t (2 ^ 64) ltac:(lia)).
  pose proof (Z.div_mod T (2 ^ 64) ltac:(lia)). lia.
Qed.

(** An empty deque looks empty from its own top. *)
Lemma empty_distance d B o ao :
  owner_rel d [] B o ao →
  let dist := u64 (dq_bottom d - u64 B) in
  (dist =? 0) || llam_cldeque_distance_is_negative dist = true.
Proof.
  intros Ho. cbv zeta. destruct (bottom_cases _ _ _ _ _ Ho) as [-> | ->]; rewrite u64_sub.
  - by replace (B - B) with 0 by lia.
  - replace (B - 1 - B) with (-1) by lia. by rewrite distance_sign, orb_true_r.
Qed.

(** *** Steps of a thief *)

Lemma sim_thief_access s n T d o th l ao ath i p p' d' :
  sim s n T (Config d o th) (Atomic l ao ath) → n < 2 ^ 64 →
  th i = Running p → access p d = Some (p', d') →
  ∃ T' l' ath', steps astep (Atomic l ao ath) [] (Atomic l' ao ath') ∧
    sim s n T' (Config d' o (<[i := Running p']> th)) (Atomic l' ao ath').
Proof.
  intros H Hn Ei Ha. pose proof (sim_thief _ _ _ _ _ H i) as Hi. cbn in Hi. rewrite Ei in Hi.
  pose proof (sim_top _ _ _ _ _ H) as Et. pose proof (sim_count _ _ _ _ _ H) as Hc.
  pose proof (sim_start _ _ _ _ _ H) as Hs. pose proof (sim_length _ _ _ _ _ H) as Hlen.
  cbn in Et, Hc, Hlen.
  assert (Hfail : ath i = Some None → steps astep (Atomic l ao ath) []
    (Atomic l ao (<[i := Some (Some NULL)]> ath)))
    by (intros; by apply astep_one, do_steal_fail).
  remember (Running p) as q eqn:Eq. remember (ath i) as r eqn:Er.
  destruct Hi as [| |t Ht|t Ht Hne|t x Ht Hx|r]; [done| | | | |];
    injection Eq as <-; cbn [access llam_cldeque_steal_top steal_check steal_read steal_claim] in Ha;
    [injection Ha as <- <-..| |done].
  - exists T, l, ath. split; [apply steps_nil|].
    apply sim_move_thief; [done|]. cbn [load]. rewrite <- Er, Et. apply tr_check. lia.
  - cbn [load]. set (dist := u64 (dq_bottom d - u64 t)).
    destruct ((dist =? 0) || llam_cldeque_distance_is_negative dist) eqn:Ed.
    + eexists T, l, _. split; [by apply Hfail|]. apply sim_set_thief; [done|]. apply tr_done.
    + exists T, l, ath. split; [apply steps_nil|]. apply sim_move_thief; [done|].
      rewrite <- Er. apply tr_read; [done|]. intros -> ->. unfold dist in Ed.
      pose proof (sim_owner _ _ _ _ _ H) as Ho. cbn in Ho. rewrite Z.add_0_r in Ho.
      by rewrite (empty_distance _ _ _ _ Ho) in Ed.
  - rewrite place_u64. change (dq_buffer d !!! Z.to_nat (place t)) with (at_place d t).
    destruct (Z.eqb_spec (at_place d t) NULL) as [En|En].
    + eexists T, l, _. split; [by apply Hfail|]. apply sim_set_thief; [done|]. apply tr_done.
    + exists T, l, ath. split; [apply steps_nil|]. apply sim_move_thief; [done|].
      rewrite <- Er. apply tr_claim; [done|]. intros ->. destruct l as [|y l]; [by destruct Hne|].
      cbn. f_equal. symmetry. rewrite <- (Z.add_0_r T). by apply (sim_holds _ _ _ _ _ H 0%nat).
  - pose proof (pending_range ao) as Hp. rewrite Et in Ha.
    destruct (Z.eqb_spec (u64 T) (u64 t)) as [E|E]; injection Ha as <- <-.
    + apply u64_inj_near in E; [|lia]. subst t. specialize (Hx eq_refl).
      destruct l as [|y l]; [done|]. injection Hx as ->. rewrite u64_add_l.
      eexists (T + 1), l, _. split; [by apply astep_one, do_steal|].
      apply sim_set_thief; [by apply (sim_take _ _ _ _ _ _ x)|]. apply tr_done.
    + eexists T, l, _. split; [by apply Hfail|]. apply sim_set_thief; [done|]. apply tr_done.
Qed.

(** *** Steps of the owner *)

(** The check of a push sees the exact length. *)
Lemma room_check T len :
  0 <= len <= LLAM_NORM_QUEUE_CAP →
  let dist := u64 (u64 (T + len) - u64 T) in
  llam_cldeque_distance_is_negative dist || (LLAM_NORM_QUEUE_CAP <=? dist) =
  (LLAM_NORM_QUEUE_CAP <=? len).
Proof.
  intros H. cbv zeta. rewrite u64_sub. replace (T + len - T) with len by lia.
  unfold LLAM_NORM_QUEUE_CAP in *. rewrite distance_sign by lia.
  rewrite (proj2 (Z.ltb_ge _ _)) by lia. cbn [orb]. unfold u64. by rewrite Z.mod_small by lia.
Qed.

Lemma sim_push_done s n T d o th l task ath :
  sim s n T (Config d o th) (Atomic l (Some (ReadyPush task)) ath) → task ≠ NULL →
  Z.of_nat (length l) < LLAM_NORM_QUEUE_CAP → at_place d (T + Z.of_nat (length l)) = task →
  sim s n T (Config (store Bottom (u64 (T + Z.of_nat (length l) + 1)) d) (Pushing (Ret true)) th)
    (Atomic (l ++ [task]) (Some (DonePush true)) ath).
Proof.
  intros [] Hn Hl Ha. cbn in *. split; cbn; try done; rewrite ?length_app; cbn; try lia.
  - apply Forall_app. split; [done|]. by apply Forall_singleton.
  - by apply holds_snoc.
  - apply or_pushed. cbn. f_equal. lia.
  - intros i. by apply thief_push.
Qed.

Lemma sim_push_access s n T d p th l ao ath p' d' :
  sim s n T (Config d (Pushing p) th) (Atomic l ao ath) → access p d = Some (p', d') →
  ∃ l' ao', steps astep (Atomic l ao ath) [] (Atomic l' ao' ath) ∧
    sim s n T (Config d' (Pushing p') th) (Atomic l' ao' ath).
Proof.
  intros H Ha. pose proof (sim_owner _ _ _ _ _ H) as Ho. cbn in Ho.
  pose proof (sim_top _ _ _ _ _ H) as Et. pose proof (sim_length _ _ _ _ _ H) as Hlen.
  pose proof (sim_wf _ _ _ _ _ H) as Hw. pose proof (sim_holds _ _ _ _ _ H) as Hh.
  cbn in Et, Hlen, Hw, Hh. set (B := T + Z.of_nat (length l)) in *.
  remember (Pushing p) as q eqn:Eq. destruct Ho; try done; injection Eq as <-.
  - unfold llam_cldeque_push_bottom in Ha. rewrite (proj2 (Z.eqb_neq _ _) H0) in Ha.
    injection Ha as <- <-. exists l, (Some (ReadyPush task)). split; [apply steps_nil|].
    rewrite H1. eapply sim_move_owner; try done. by apply or_push_check.
  - cbn [access push_check load] in Ha. rewrite Et in Ha. unfold B in Ha.
    rewrite room_check in Ha by lia. fold B in Ha.
    destruct (Z.leb_spec LLAM_NORM_QUEUE_CAP (Z.of_nat (length l))) as [Hfull|Hroom];
      injection Ha as <- <-.
    + exists l, (Some (DonePush false)). split; [apply astep_one, do_push_full; lia|].
      eapply sim_move_owner; try done. by apply or_pushed.
    + exists l, (Some (ReadyPush task)). split; [apply steps_nil|].
      eapply sim_move_owner; try done. by apply or_push_commit.
  - injection Ha as <- <-. exists l, (Some (ReadyPush task)). split; [apply steps_nil|].
    rewrite place_u64. change (Cldeque _ _ _) with (store (Slot (place B)) task d).
    eapply sim_move_owner; try done.
    + unfold wf in *. cbn. by rewrite length_insert.
    + by apply holds_store.
    + apply or_push_bottom; try done. by apply at_place_store.
  - injection Ha as <- <-. exists (l ++ [task]), (Some (DonePush true)).
    split; [by apply astep_one, do_push|]. rewrite u64_add_l. by eapply sim_push_done.
  - done.
Qed.

(** A pop that saw at least two tasks takes the last one. *)
Lemma sim_pop_done s n T d o th l x ath top :
  sim s n T (Config d o th) (Atomic (l ++ [x]) (Some ReadyPop) ath) → l ≠ [] →
  dq_bottom d = u64 (T + Z.of_nat (length l)) →
  (u64 (u64 (T + Z.of_nat (length l)) - top) =? 0) = false →
  sim s n T (Config d (Popping (pop_take (u64 (T + Z.of_nat (length l))) top)) th)
    (Atomic l (Some (DonePop x)) ath).
Proof.
  intros [] Hl Hb Hd. cbn in *. rewrite length_app in *. cbn in *.
  split; cbn; try done; try lia.
  - by apply Forall_app in sim_nonnull0 as [? _].
  - by eapply holds_app.
  - apply or_pop_take; [done..|]. by apply holds_last.
  - intros i. by apply (thief_pop _ _ _ x).
Qed.

(** What the owner finds when it reads the top after lowering the bottom. *)
Lemma sim_pop_check s n T d th l ath :
  let b := u64 (T + Z.of_nat (length l) - 1) in
  sim s n T (Config d (Popping (pop_check b)) th) (Atomic l (Some ReadyPop) ath) →
  dq_bottom d = b →
  ∃ l' ao', steps astep (Atomic l (Some ReadyPop) ath) [] (Atomic l' ao' ath) ∧
    sim s n T (Config d (Popping
      (if llam_cldeque_distance_is_negative (u64 (b - u64 T))
       then Store Bottom (u64 T) (Ret NULL) else pop_take b (u64 T))) th) (Atomic l' ao' ath).
Proof.
  intros b H Hb. pose proof (sim_length _ _ _ _ _ H) as Hlen.
  pose proof (sim_wf _ _ _ _ _ H) as Hw. pose proof (sim_holds _ _ _ _ _ H) as Hh.
  cbn in Hlen, Hw, Hh. unfold b in *. rewrite u64_sub.
  unfold LLAM_NORM_QUEUE_CAP in Hlen. rewrite distance_sign by lia.
  destruct l as [|x l _] using rev_ind.
  - cbn in *. rewrite (proj2 (Z.ltb_lt _ 0)) by lia. exists [], (Some (DonePop NULL)).
    split; [apply astep_one, do_pop_empty|]. cbn. eapply sim_move_owner; try done.
    cbn. rewrite Z.add_0_r in *. by apply or_pop_restore.
  - rewrite length_app in *. cbn in *. replace (T + Z.of_nat (length l + 1) - 1) with
      (T + Z.of_nat (length l)) in * by lia.
    rewrite (proj2 (Z.ltb_ge _ _)) by lia. destruct l as [|y l].
    + cbn in *. rewrite Z.add_0_r in *. exists [x], (Some ReadyPop). split; [apply steps_nil|].
      eapply sim_move_owner; try done.
      pose proof (or_pop_last d [x] (T + 1) x) as Hlast. replace (T + 1 - 1) with T in Hlast by lia.
      apply Hlast; [done| |by left]. rewrite <- (Z.add_0_r T). by apply (Hh 0%nat).
    + exists (y :: l), (Some (DonePop x)). split; [apply astep_one, (do_pop (y :: l))|].
      eapply sim_pop_done; try done. rewrite u64_sub, distance_zero by (cbn in *; lia).
      apply Z.eqb_neq. cbn. lia.
Qed.

Lemma sim_pop_access s n T d p th l ao ath p' d' :
  sim s n T (Config d (Popping p) th) (Atomic l ao ath) → access p d = Some (p', d') →
  ∃ T' l' ao', steps astep (Atomic l ao ath) [] (Atomic l' ao' ath) ∧
    sim s n T' (Config d' (Popping p') th) (Atomic l' ao' ath).
Proof.
  intros H Ha. pose proof (sim_owner _ _ _ _ _ H) as Ho. cbn in Ho.
  pose proof (sim_top _ _ _ _ _ H) as Et. pose proof (sim_length _ _ _ _ _ H) as Hlen.
  pose proof (sim_wf _ _ _ _ _ H) as Hw. pose proof (sim_holds _ _ _ _ _ H) as Hh.
  cbn in Et, Hlen, Hw, Hh. set (B := T + Z.of_nat (length l)) in *.
  remember (Popping p) as q eqn:Eq. destruct Ho; try done; injection Eq as <-.
  - injection Ha as <- <-. exists T, l, (Some ReadyPop). split; [apply steps_nil|].
    rewrite H0. eapply sim_move_owner; try done. by apply or_pop_store.
  - injection Ha as <- <-. exists T, l, (Some ReadyPop). split; [apply steps_nil|].
    rewrite u64_sub_l. eapply sim_move_owner; try done. by apply or_pop_check.
  - cbn [access pop_check load] in Ha. rewrite Et, u64_sub in Ha.
    injection Ha as <- <-. rewrite <- u64_sub.
    destruct (sim_pop_check s n T d th l ath H H0) as (l' & ao' & ? & ?). by exists T, l', ao'.
  - cbn [access pop_take] in Ha. rewrite slot_u64, H1 in Ha. injection Ha as <- <-.
    change (dq_buffer d !!! Z.to_nat (place B)) with (at_place d B). rewrite H2.
    exists T, l, (Some (DonePop x)). split; [apply steps_nil|].
    eapply sim_move_owner; try done. by apply or_popped.
  - cbn [access pop_take] in Ha. rewrite slot_u64, Z.sub_diag in Ha. injection Ha as <- <-.
    change (dq_buffer d !!! Z.to_nat (place (B - 1))) with (at_place d (B - 1)). rewrite H1.
    exists T, l, (Some ReadyPop). split; [apply steps_nil|].
    eapply sim_move_owner; try done. by apply or_pop_race.
  - cbn [access pop_race] in Ha. rewrite Et, u64_add_l in Ha.
    replace (B - 1 + 1) with B in Ha by lia. destruct H1 as [-> | ->]; cbn in B.
    + replace (B - 1) with T in Ha by lia. rewrite Z.eqb_refl in Ha. injection Ha as <- <-.
      exists (T + 1), [], (Some (DonePop x)). split; [apply astep_one, (do_pop [])|].
      apply sim_take in H. eapply (sim_move_owner _ _ _ _ _ _ _ _ _ H); try done.
      replace (T + 1 + Z.of_nat (length [])) with B by (cbn; lia). by apply or_pop_restore.
    + rewrite (proj2 (Z.eqb_neq _ _)) in Ha.
      * injection Ha as <- <-. exists T, [], (Some (DonePop NULL)).
        split; [apply astep_one, do_pop_empty|]. eapply sim_move_owner; try done.
        by apply or_pop_restore.
      * intros E. apply u64_inj_near in E; lia.
  - injection Ha as <- <-. exists T, l, (Some (DonePop r)). split; [apply steps_nil|].
    eapply sim_move_owner; try done. by apply or_popped.
  - done.
Qed.

(** *** All steps *)

Definition is_push (e : event) : bool := match e with CallPush _ => true | _ => false end.

(** The number of pushes called in a history. *)
Fixpoint pushes (evs : list event) : Z :=
  match evs with
  | [] => 0
  | e :: evs' => (if is_push e then 1 else 0) + pushes evs'
  end.

Lemma pushes_nonneg evs : 0 <= pushes evs.
Proof. induction evs as [|e evs IH]; cbn; [lia|]. destruct (is_push e); lia. Qed.

Lemma sim_silent s n T c a c' :
  sim s n T c a → n < 2 ^ 64 → step c None c' →
  ∃ T' a', steps astep a [] a' ∧ sim s n T' c' a'.
Proof.
  intros H Hn Hs. destruct a as [l ao ath].
  remember None as e eqn:Ee. destruct Hs; try done; clear Ee.
  - destruct (sim_push_access _ _ _ _ _ _ _ _ _ _ _ H H0) as (l' & ao' & ? & ?). by eexists _, _.
  - destruct (sim_pop_access _ _ _ _ _ _ _ _ _ _ _ H H0) as (T' & l' & ao' & ? & ?). by eexists _, _.
  - destruct (sim_thief_access _ _ _ _ _ _ _ _ _ _ _ _ _ H Hn H0 H1) as (T' & l' & ath' & ? & ?).
    by eexists _, _.
Qed.

Lemma sim_event s n T c a e c' :
  sim s n T c a → step c (Some e) c' →
  ∃ a', astep a (Some e) a' ∧ sim s ((if is_push e then 1 else 0) + n) T c' a'.
Proof.
  intros H Hs. destruct a as [l ao ath]. remember (Some e) as oe eqn:Ee.
  pose proof (sim_owner _ _ _ _ _ H) as Ho. pose proof (sim_thief _ _ _ _ _ H) as Hth.
  destruct Hs; try done; injection Ee as <-; cbn [is_push]; cbn in Ho, Hth.
  - inversion Ho; subst. eexists. split; [by apply acall_push|].
    destruct H. split; try done; cbn in *; [lia|]. by apply or_push.
  - inversion Ho; subst. eexists. split; [by apply acall_pop|].
    destruct H. split; try done; cbn in *. by apply or_pop.
  - specialize (Hth i). rewrite H0 in Hth. inversion Hth. eexists. split; [by apply acall_steal|].
    apply sim_set_thief; [done|]. apply tr_start.
  - inversion Ho as [|task Hn ? Ep| | | | | | | | | | | |]; subst; try done.
    { unfold llam_cldeque_push_bottom in Ep. by rewrite (proj2 (Z.eqb_neq _ _) Hn) in Ep. }
    eexists. split; [by apply areturn_push|].
    destruct H. split; try done; cbn in *. by apply or_idle.
  - inversion Ho; subst; try done. eexists. split; [by apply areturn_pop|].
    destruct H. split; try done; cbn in *. by apply or_idle.
  - specialize (Hth i). rewrite H0 in Hth. inversion Hth. eexists. split; [by apply areturn_steal|].
    apply sim_set_thief; [done|]. apply tr_idle.
Qed.

Lemma steps_app {S} (R : S → option event → S → Prop) x y z evs evs' :
  steps R x evs y → steps R y evs' z → steps R x (evs ++ evs') z.
Proof.
  induction 1 as [|? ? ? ? Hr Hs IH|? ? ? ? ? Hr Hs IH]; intros Hz; cbn; [done|..].
  - eapply steps_silent; [done|auto].
  - eapply steps_event; [done|auto].
Qed.

Lemma sim_steps s n T c a evs c' :
  steps step c evs c' → sim s n T c a → n + pushes evs < 2 ^ 64 →
  ∃ T' a', steps astep a evs a' ∧ sim s (n + pushes evs) T' c' a'.
Proof.
  intros Hs. revert n T a. induction Hs as [c|c c1 c2 evs Hr Hs IH|c c1 c2 e evs Hr Hs IH];
    intros n T a H Hn; cbn in *.
  - exists T, a. rewrite Z.add_0_r. split; [apply steps_nil|done].
  - pose proof (pushes_nonneg evs). destruct (sim_silent _ _ _ _ _ _ H ltac:(lia) Hr) as (T1 & a1 & Ha & H1).
    destruct (IH _ _ _ H1 Hn) as (T2 & a2 & Ha2 & H2). exists T2, a2. split; [|done].
    by apply (steps_app astep a a1 a2 []).
  - destruct (sim_event _ _ _ _ _ _ _ H Hr) as (a1 & Ha & H1).
    destruct (IH _ _ _ H1) as (T2 & a2 & Ha2 & H2); [lia|]. exists T2, a2.
    split; [by eapply steps_event|]. by replace (n + _) with ((if is_push e then 1 else 0) + n + pushes evs) by lia.
Qed.

(** A deque nobody works on, empty at index [s]. *)
Definition fresh (s : Z) (c : config) : Prop :=
  wf (c_mem c) ∧ dq_top (c_mem c) = u64 s ∧ dq_bottom (c_mem c) = u64 s ∧
  c_owner c = OwnerIdle ∧ ∀ i, c_thief c i = Idle.

Definition empty : atomic := Atomic [] None (const None).

Lemma fresh_sim s c : fresh s c → sim s 0 s c empty.
Proof.
  intros (Hw & Ht & Hb & Ho & Hth). split; try done; cbn; try lia.
  - rewrite Ho, Z.add_0_r. by apply or_idle.
  - intros i. rewrite Hth. apply tr_idle.
Qed.


(** ** Conservation of tasks *)

(** The tasks whose push was accepted; [task] is the one being pushed. *)
Fixpoint accepted (task : Z) (evs : list event) : list Z :=
  match evs with
  | [] => []
  | CallPush task' :: evs' => accepted task' evs'
  | ReturnPush true :: evs' => task :: accepted task evs'
  | _ :: evs' => accepted task evs'
  end.

Definition some_task (x : Z) : list Z := if x =? NULL then [] else [x].

(** The tasks handed out by pops and steals. *)
Fixpoint taken (evs : list event) : list Z :=
  match evs with
  | [] => []
  | ReturnPop x :: evs' => some_task x ++ taken evs'
  | ReturnSteal _ x :: evs' => some_task x ++ taken evs'
  | _ :: evs' => taken evs'
  end.

(** The result a thief is about to return. *)
Definition result (r : option (option Z)) : option Z :=
  match r with
  | Some (Some x) => if x =? NULL then None else Some x
  | _ => None
  end.

Definition owner_out (o : option call) : list Z :=
  match o with Some (DonePop x) => some_task x | _ => [] end.

Definition owner_in (task : Z) (o : option call) : list Z :=
  match o with Some (DonePush true) => [task] | _ => [] end.

Definition in_hand (m : gmap nat Z) : list Z := (map_to_list m).*2.

(** The books of the atomic deque: what was accepted is handed out, about to be
    handed out, or still there. *)
Record flow (ins outs : list Z) (task : Z) (a : atomic) : Prop := Flow {
  fl_nonnull : Forall (λ x, x ≠ NULL) (a_tasks a);
  fl_ready : ∀ x, a_owner a = Some (ReadyPush x) → x = task ∧ x ≠ NULL;
  fl_books : ∃ m, (∀ i, m !! i = result (a_thief a i)) ∧
    outs ++ in_hand m ++ owner_out (a_owner a) ++ a_tasks a ≡ₚ
    ins ++ owner_in task (a_owner a) }.

Lemma in_hand_insert m i x : m !! i = None → in_hand (<[i := x]> m) ≡ₚ x :: in_hand m.
Proof. intros H. unfold in_hand. by rewrite map_to_list_insert. Qed.

Lemma in_hand_delete m i x : m !! i = Some x → in_hand m ≡ₚ x :: in_hand (delete i m).
Proof. intros H. unfold in_hand. by rewrite <- (map_to_list_delete m i x). Qed.

Lemma some_task_nonnull x : x ≠ NULL → some_task x = [x].
Proof. intros H. unfold some_task. by rewrite (proj2 (Z.eqb_neq _ _) H). Qed.

Lemma result_insert (m : gmap nat Z) (ath : nat → option (option Z)) i r :
  (∀ j, m !! j = result (ath j)) → m !! i = result r →
  ∀ j, m !! j = result (<[i := r]> ath j).
Proof.
  intros H Hi j. destruct (decide (j = i)) as [->|Hne]; [by rewrite fn_lookup_insert|].
  by rewrite fn_lookup_insert_ne.
Qed.

Lemma flow_silent ins outs task a a' :
  flow ins outs task a → astep a None a' → flow ins outs task a'.
Proof.
  intros [Hn Hr (m & Hm & Hb)] Hs. remember None as e eqn:Ee.
  destruct Hs; try done; clear Ee; cbn in *.
  - destruct (Hr _ eq_refl) as [-> Ht]. split; cbn; [|done|].
    + apply Forall_app. split; [done|]. by apply Forall_singleton.
    + exists m. split; [done|]. rewrite app_nil_r in Hb. by rewrite <- Hb, <- !app_assoc.
  - split; cbn; [done..|]. by exists m.
  - apply Forall_app in Hn as [Hl Hx]. apply Forall_cons in Hx as [Hx _]. split; cbn; [done..|].
    exists m. split; [done|]. rewrite <- Hb, (some_task_nonnull _ Hx).
    apply Permutation_app_head, Permutation_app_head. by rewrite (Permutation_app_comm l).
  - split; cbn; [done..|]. by exists m.
  - apply Forall_cons in Hn as [Hx Hl]. split; cbn; [done..|].
    assert (Hi : m !! i = None) by (rewrite Hm; by rewrite H).
    exists (<[i := task0]> m). split.
    + intros j. destruct (decide (j = i)) as [->|Hne].
      * rewrite lookup_insert_eq, fn_lookup_insert. cbn. by rewrite (proj2 (Z.eqb_neq _ _) Hx).
      * rewrite lookup_insert_ne, fn_lookup_insert_ne by done. apply Hm.
    + rewrite <- Hb, in_hand_insert by done. cbn. by rewrite <- !Permutation_middle.
  - split; cbn; [done..|]. exists m. split; [|done]. apply result_insert; [done|].
    rewrite Hm. by rewrite H.
Qed.

Lemma flow_event ins outs task a e a' :
  flow ins outs task a → astep a (Some e) a' →
  match e with
  | CallPush x => flow ins outs x a'
  | ReturnPush true => flow (ins ++ [task]) outs task a'
  | ReturnPop x | ReturnSteal _ x => flow ins (outs ++ some_task x) task a'
  | _ => flow ins outs task a'
  end.
Proof.
  intros [Hn Hr (m & Hm & Hb)] Hs. remember (Some e) as oe eqn:Ee.
  destruct Hs; try done; injection Ee as <-; cbn in *.
  - split; cbn; [done|by intros ? [= ->]|]. by exists m.
  - split; cbn; [done..|]. by exists m.
  - split; cbn; [done..|]. exists m. split; [|done]. apply result_insert; [done|]. by rewrite Hm, H.
  - destruct ok; (split; cbn; [done..|]); exists m; split; try done.
    by rewrite app_nil_r, <- Hb.
  - split; cbn; [done..|]. exists m. split; [done|]. rewrite <- Hb.
    rewrite <- !app_assoc. apply Permutation_app_head. by rewrite Permutation_app_swap_app.
  - split; cbn; [done..|].
    destruct (Z.eqb_spec task0 NULL) as [->|Hx].
    + exists m. cbn. rewrite app_nil_r. split; [|done]. apply result_insert; [done|]. by rewrite Hm, H.
    + assert (Hi : m !! i = Some task0)
        by (rewrite Hm, H; cbn; by rewrite (proj2 (Z.eqb_neq _ _) Hx)).
      exists (delete i m). split.
      * intros j. destruct (decide (j = i)) as [->|Hne].
        -- by rewrite lookup_delete_eq, fn_lookup_insert.
        -- rewrite lookup_delete_ne, fn_lookup_insert_ne by done. apply Hm.
      * rewrite <- Hb, some_task_nonnull, (in_hand_delete m i task0) by done.
        by rewrite <- app_assoc.
Qed.

Lemma flow_steps ins outs task a evs a' :
  steps astep a evs a' → flow ins outs task a →
  ∃ task', flow (ins ++ accepted task evs) (outs ++ taken evs) task' a'.
Proof.
  intros Hs. revert ins outs task. induction Hs as [a|a a1 a2 evs Hr Hs IH|a a1 a2 e evs Hr Hs IH];
    intros ins outs task H.
  - exists task. by rewrite !app_nil_r.
  - eapply IH, flow_silent; done.
  - pose proof (flow_event _ _ _ _ _ _ H Hr) as H1.
    destruct e as [x|[|]| |x|i|i x]; cbn; apply IH in H1 as [task' H1]; exists task';
      rewrite <- ?app_assoc in H1; done.
Qed.

(** The tasks in the buffer, from top to bottom. *)
Definition contents (d : llam_cldeque) : list Z :=
  (λ j, load (slot (u64 (dq_top d + Z.of_nat j))) d) <$>
  seq 0 (Z.to_nat (u64 (dq_bottom d - dq_top d))).

Definition quiescent (c : config) : Prop :=
  c_owner c = OwnerIdle ∧ ∀ i, c_thief c i = Idle.

Lemma sim_contents s n T c a :
  sim s n T c a → quiescent c →
  contents (c_mem c) = a_tasks a ∧ a_owner a = None ∧ ∀ i, a_thief a i = None.
Proof.
  intros [Hw Ht _ _ Hlen _ Hh Ho Hth] [Eo Et]. rewrite Eo in Ho. split_and!.
  - inversion Ho as [Hb| | | | | | | | | | | | |]. unfold contents. rewrite Hb, Ht, u64_sub.
    replace (T + Z.of_nat (length (a_tasks a)) - T) with (Z.of_nat (length (a_tasks a))) by lia.
    assert (Eu : u64 (Z.of_nat (length (a_tasks a))) = Z.of_nat (length (a_tasks a)))
      by (unfold u64, LLAM_NORM_QUEUE_CAP in *; apply Z.mod_small; lia).
    rewrite Eu, Nat2Z.id.
    apply list_eq. intros j. rewrite list_lookup_fmap. destruct (a_tasks a !! j) as [x|] eqn:Ej.
    + rewrite lookup_seq_lt by (by eapply lookup_lt_Some). cbn [fmap option_fmap option_map].
      rewrite u64_add_l, slot_u64. f_equal. by apply Hh.
    + by rewrite lookup_seq_ge by (by apply lookup_ge_None).
  - by inversion Ho.
  - intros i. specialize (Hth i). rewrite Et in Hth. by inversion Hth.
Qed.

(** ** Initialization *)

Lemma run_clear_slots n i d :
  let d' := (run (clear_slots n i) d).2 in
  dq_top d' = dq_top d ∧ dq_bottom d' = dq_bottom d ∧
  length (dq_buffer d') = length (dq_buffer d).
Proof.
  revert i d. induction n as [|n IH]; intros i d; cbn; [done|].
  destruct (IH (i + 1) (store (Slot i) NULL d)) as (E1 & E2 & E3). cbn in E1, E2, E3.
  by rewrite E1, E2, E3, length_insert.
Qed.

Lemma init_fresh d :
  wf d → fresh 0 (Config (run llam_cldeque_init d).2 OwnerIdle (const Idle)).
Proof.
  intros Hd. unfold llam_cldeque_init. cbn [run].
  destruct (run_clear_slots (Z.to_nat LLAM_NORM_QUEUE_CAP) 0 (store Bottom 0 (store Top 0 d)))
    as (E1 & E2 & E3). split_and!; cbn [c_mem c_owner c_thief]; [|by rewrite E1|by rewrite E2|done..].
  unfold wf. by rewrite E3.
Qed.

(** ** Wait-freedom *)

(** A program that returns within [n] accesses, whatever it reads. *)
Inductive bounded {A} : nat → prog A → Prop :=
  | bounded_ret n a : bounded n (Ret a)
  | bounded_load n l k : (∀ x, bounded n (k x)) → bounded (S n) (Load l k)
  | bounded_store n l x k : bounded n k → bounded (S n) (Store l x k)
  | bounded_cas n e x k : (∀ b, bounded n (k b)) → bounded (S n) (Cas e x k).

Lemma bounded_access {A} n (p p' : prog A) d d' :
  bounded n p → access p d = Some (p', d') → ∃ m, n = S m ∧ bounded m p'.
Proof.
  intros [n' a|n' l k H|n' l x k H|n' e x k H] Ha; cbn in Ha; [done|..].
  - injection Ha as <- <-. eauto.
  - injection Ha as <- <-. eauto.
  - destruct (dq_top d =? e); injection Ha as <- <-; eauto.
Qed.

Lemma operations_bounded task :
  bounded 4 (llam_cldeque_push_bottom task) ∧ bounded 6 llam_cldeque_pop_bottom ∧
  bounded 4 llam_cldeque_steal_top.
Proof.
  unfold llam_cldeque_push_bottom, push_check, push_commit, llam_cldeque_pop_bottom, pop_check,
    pop_take, pop_race, llam_cldeque_steal_top, steal_check, steal_read, steal_claim.
  split_and!; repeat (cbv zeta; case_match || constructor; intros).
Qed.

(** ** An executable scheduler *)

Inductive choice := StartPush (task : Z) | StartPop | StartSteal (i : nat) | OwnerTurn | ThiefTurn (i : nat).

Definition turn (ch : choice) (c : config) : option (option event * config) :=
  let '(Config d o th) := c in
  match ch, o with
  | StartPush task, OwnerIdle =>
    if task =? NULL then None
    else Some (Some (CallPush task), Config d (Pushing (llam_cldeque_push_bottom task)) th)
  | StartPop, OwnerIdle => Some (Some CallPop, Config d (Popping llam_cldeque_pop_bottom) th)
  | StartSteal i, _ =>
    match th i with
    | Idle => Some (Some (CallSteal i), Config d o (<[i := Running llam_cldeque_steal_top]> th))
    | _ => None
    end
  | OwnerTurn, Pushing (Ret ok) => Some (Some (ReturnPush ok), Config d OwnerIdle th)
  | OwnerTurn, Pushing p =>
    '(p', d') ← access p d; Some (None, Config d' (Pushing p') th)
  | OwnerTurn, Popping (Ret x) => Some (Some (ReturnPop x), Config d OwnerIdle th)
  | OwnerTurn, Popping p =>
    '(p', d') ← access p d; Some (None, Config d' (Popping p') th)
  | ThiefTurn i, _ =>
    match th i with
    | Running (Ret x) => Some (Some (ReturnSteal i x), Config d o (<[i := Idle]> th))
    | Running p => '(p', d') ← access p d; Some (None, Config d' o (<[i := Running p']> th))
    | Idle => None
    end
  | _, _ => None
  end.

Lemma turn_sound ch c e c' : turn ch c = Some (e, c') → step c e c'.
Proof.
  destruct c as [d o th]. unfold turn. intros H.
  destruct ch as [t| |i| |i]; [destruct o; try done|destruct o; try done|destruct o| |].
  - destruct (Z.eqb_spec t NULL); [done|]. injection H as <- <-. by constructor.
  - injection H as <- <-. constructor.
  - destruct (th i) eqn:Ei; [|done]. injection H as <- <-. by constructor.
  - destruct (th i) eqn:Ei; [|done]. injection H as <- <-. by constructor.
  - destruct (th i) eqn:Ei; [|done]. injection H as <- <-. by constructor.
  - destruct o as [|p|p]; [done|destruct p..];
      try (apply bind_Some in H as ([p' d'] & Ea & H)); injection H as <- <-; by constructor.
  - destruct (th i) as [|p] eqn:Ei; [by destruct o|].
    destruct o, p; try (apply bind_Some in H as ([p' d'] & Ea & H));
      injection H as <- <-; by econstructor.
Qed.

(** The execution that follows the choices [chs]. *)
Fixpoint play (chs : list choice) (c : config) : option (list event * config) :=
  match chs with
  | [] => Some ([], c)
  | ch :: chs' =>
    '(e, c') ← turn ch c;
    '(evs, c'') ← play chs' c';
    Some (option_list e ++ evs, c'')
  end.

Lemma play_sound chs c evs c' : play chs c = Some (evs, c') → steps step c evs c'.
Proof.
  revert c evs. induction chs as [|ch chs IH]; intros c evs H; cbn in H.
  - injection H as <- <-. apply steps_nil.
  - apply bind_Some in H as ([e c1] & Ht & H). apply bind_Some in H as ([evs' c2] & Hp & H).
    injection H as <- <-. apply turn_sound in Ht. destruct e as [e|]; cbn.
    + eapply steps_event; eauto.
    + eapply steps_silent; eauto.
Qed.

(** A deque whose indices are about to wrap around. *)
Definition demo_config : config :=
  Config (Cldeque (2 ^ 64 - 1) (2 ^ 64 - 1) (replicate 4096 NULL)) OwnerIdle (const Idle).

(** The owner pushes two tasks and pops one, then races with two thieves for
    the last one: thief 0 wins, thief 1 and the owner come back empty. *)
Definition demo_schedule : list choice :=
  [StartPush 70] ++ replicate 5 OwnerTurn ++ [StartPush 80] ++ replicate 5 OwnerTurn ++
  [StartPop; StartSteal 0; ThiefTurn 0; ThiefTurn 0; OwnerTurn; OwnerTurn; OwnerTurn; OwnerTurn; OwnerTurn;
   StartPop; OwnerTurn; StartSteal 1; ThiefTurn 1; ThiefTurn 1; OwnerTurn; OwnerTurn; OwnerTurn;
   ThiefTurn 1; ThiefTurn 0; ThiefTurn 0; ThiefTurn 0; OwnerTurn; OwnerTurn; OwnerTurn;
   ThiefTurn 1; ThiefTurn 1].

Definition demo_events : list event :=
  [CallPush 70; ReturnPush true; CallPush 80; ReturnPush true; CallPop; CallSteal 0; ReturnPop 80;
   CallPop; CallSteal 1; ReturnSteal 0 70; ReturnPop NULL; ReturnSteal 1 NULL].

Definition demo_final : config :=
  default demo_config (snd <$> play demo_schedule demo_config).

Lemma demo_plays : play demo_schedule demo_config = Some (demo_events, demo_final).
Proof.
  unfold demo_final.
  assert (E : fst <$> play demo_schedule demo_config = Some demo_events) by (vm_compute; reflexivity).
  destruct (play demo_schedule demo_config) as [[evs c]|]; [|done]. cbn in *. by injection E as ->.
Qed.

Lemma demo_fresh : fresh (2 ^ 64 - 1) demo_config.
Proof. split_and!; done. Qed.

Lemma demo_quiescent : quiescent demo_final.
Proof. split; [by vm_compute|]. intros [|[|i]]; by vm_compute. Qed.

Lemma flow_empty : flow [] [] NULL empty.
Proof. split; cbn; [done..|]. exists ∅. split; [|done]. intros i. by rewrite lookup_empty. Qed.

(** With no operation pending, the books close. *)
Lemma flow_idle ins outs task a :
  flow ins outs task a → a_owner a = None → (∀ i, a_thief a i = None) →
  outs ++ a_tasks a ≡ₚ ins.
Proof.
  intros [_ _ (m & Hm & Hb)] Eo Et.
  assert (m = ∅) as ->.
  { apply map_eq. intros i. by rewrite Hm, Et, lookup_empty. }
  rewrite Eo in Hb. cbn in Hb. unfold in_hand in Hb. rewrite map_to_list_empty in Hb.
  cbn in Hb. by rewrite app_nil_r in Hb.
Qed.

(** ** The theorems *)

(** C18: the deque is linearizable.  In every interleaving of the owner's pushes
    and pops with the steals of any number of thieves, from an empty deque at
    any index [s], the calls and returns are those of an atomic deque in which
    each operation takes effect in one step between its call and its return;
    and when no operation is running the buffer between [top] and [bottom]
    holds the tasks of that atomic deque in order.  Fewer than [2^64] pushes
    are made, so no index comes back to a value a stalled thief still holds. *)
Theorem deque_linearizable s c evs c' :
  fresh s c → steps step c evs c' → pushes evs < 2 ^ 64 →
  ∃ a, steps astep empty evs a ∧ (quiescent c' → contents (c_mem c') = a_tasks a).
Proof.
  intros Hf Hs Hn. destruct (sim_steps _ _ _ _ _ _ _ Hs (fresh_sim s c Hf) Hn) as (T & a & Ha & H).
  exists a. split; [done|]. intros Hq. by apply (sim_contents _ _ _ _ _ H Hq).
Qed.

Lemma deque_linearizable_witness :
  (∃ a, steps astep empty demo_events a ∧
     (quiescent demo_final → contents (c_mem demo_final) = a_tasks a)) ∧
  (dq_top (c_mem demo_final), dq_bottom (c_mem demo_final)) = (0, 0).
Proof.
  split.
  - apply (deque_linearizable (2 ^ 64 - 1) demo_config);
      [exact demo_fresh|exact (play_sound _ _ _ _ demo_plays)|reflexivity].
  - vm_compute. reflexivity.
Defined.

(** C19: no task is lost, duplicated or made up.  In every interleaving that
    ends with no operation running, the tasks that pops and steals returned
    together with those still in the buffer are, as a multiset, exactly the
    tasks of the pushes that returned [true]. *)
Theorem deque_conserves_tasks s c evs c' :
  fresh s c → steps step c evs c' → pushes evs < 2 ^ 64 → quiescent c' →
  taken evs ++ contents (c_mem c') ≡ₚ accepted NULL evs.
Proof.
  intros Hf Hs Hn Hq. destruct (sim_steps _ _ _ _ _ _ _ Hs (fresh_sim s c Hf) Hn) as (T & a & Ha & H).
  destruct (sim_contents _ _ _ _ _ H Hq) as (Ec & Eo & Et). rewrite Ec.
  destruct (flow_steps [] [] NULL _ _ _ Ha flow_empty) as (task & Hflow).
  by apply (flow_idle _ _ _ _ Hflow).
Qed.

Lemma deque_conserves_tasks_witness :
  taken demo_events ++ contents (c_mem demo_final) ≡ₚ accepted NULL demo_events ∧
  accepted NULL demo_events = [70; 80].
Proof.
  split; [|reflexivity].
  apply (deque_conserves_tasks (2 ^ 64 - 1) demo_config);
    [exact demo_fresh|exact (play_sound _ _ _ _ demo_plays)|reflexivity|exact demo_quiescent].
Defined.
