(* ===== verification/RunQueue.v ===== *)
(** * Runnable queues of the scheduler

    The intrusive task queues of [src/core/sched/queue_base.c], the depth
    counter of [norm_queue_depth.c] and the memory they live in.

    A task that can run is linked into one of the queues of a shard's
    processor (the inject, hot and normal queue), into the overflow queue of
    the runtime, or sits in the Chase-Lev deque of a shard.  The [queue_next]
    and [queue_prev] fields of the tasks are maps of their own ([w_next],
    [w_prev]), so that a write to a link is a point update; a [llam_queue_t *]
    is the [lane] it is embedded in.  The operations run in the critical
    section of the lock that protects them, so an atomic access is one step
    and a compare-and-swap loop succeeds at its first try; the deque runs its
    program of [ClDeque] without interference.  Pointers are [Z] ([NULL] is
    [0]); the runtime, its shards and their locks are initialized. *)

From stdpp Require Import functions.
From S2P Require Import Prelude ClDeque.

(** ** Data *)

Record llam_queue := Queue { q_head : Z; q_tail : Z; q_depth : Z }.

(** Where a runnable task can be. *)
Inductive lane := Inject (i : nat) | Hot (i : nat) | Norm (i : nat) | Deque (i : nat) | Overflow.

#[export] Instance lane_eq_dec : EqDecision lane.
Proof. solve_decision. Defined.

(** [t_origin] is the answer of [llam_async_preempt_task_origin_shard]. *)
Record run_task := RunTask {
  t_dispatch_owner : Z; t_execution_worker : Z; t_owner_runtime : Z;
  t_enqueue_hot : Z; t_class : Z; t_flags : Z; t_origin : Z }.

Record run_shard := RunShard {
  s_deque : llam_cldeque; s_norm_depth : Z; s_inject_depth : Z;
  s_hot_streak : Z; s_handoff_streak : Z;
  s_norm_enqueues : Z; s_hot_enqueues : Z; s_inject_enqueues : Z;
  s_queue_overflows : Z; s_migrations : Z; s_steals : Z;
  s_redirect_active : bool; s_redirect_target : N;
  s_online : bool; s_merge_pause : bool; s_node : Z }.

Record run_runtime := RunRuntime {
  r_lockfree : bool; r_dynamic : bool; r_registered : bool; r_pools : bool;
  r_deterministic : bool; r_steal_pause : bool;
  r_active_shards : nat; r_portable : nat; r_online_shards : Z;
  r_overflow_depth : Z; r_block_worker_count : Z; r_block_pending : Z; r_fatal : Z }.

Inductive llam_processor_queue_access_mode := ACCESS_EXECUTION | ACCESS_STOPPING_DRAIN | ACCESS_REDIRECT_RELEASE.

Inductive llam_worker_role := ROLE_PRIMARY | ROLE_OPAQUE_HELPER | ROLE_MANAGED | ROLE_NATIVE_AFFINE | ROLE_LEGACY_COMPAT.

(** The lease machinery, the stop flag and the locks of other shards belong to
    other threads: what they answer at the [n]-th question is arbitrary. *)
Record run_env := RunEnv {
  e_access : nat → option llam_processor_queue_access_mode;
  e_valid : nat → bool; e_trylock : nat → bool; e_now : nat }.

(** Signals to workers, oldest first. *)
Inductive signal := Kick (i : nat) | WakeAll.

Record run_world := RunWorld {
  w_next : Z → Z; w_prev : Z → Z; w_queue : lane → llam_queue;
  w_task : Z → run_task; w_shard : nat → run_shard; w_runtime : run_runtime;
  w_worker : Z; w_role : Z → llam_worker_role;
  w_env : run_env; w_signals : list signal; w_aborted : bool }.

Definition R : Type → Type := st run_world.

(** ** Updates *)

Definition set_next (x v : Z) (w : run_world) : run_world :=
  let '(RunWorld n p q t s r k o e l a) := w in RunWorld (<[x := v]> n) p q t s r k o e l a.
Definition set_prev (x v : Z) (w : run_world) : run_world :=
  let '(RunWorld n p q t s r k o e l a) := w in RunWorld n (<[x := v]> p) q t s r k o e l a.
Definition on_queue (i : lane) (f : llam_queue → llam_queue) (w : run_world) : run_world :=
  let '(RunWorld n p q t s r k o e l a) := w in RunWorld n p (<[i := f (q i)]> q) t s r k o e l a.
Definition on_task (x : Z) (f : run_task → run_task) (w : run_world) : run_world :=
  let '(RunWorld n p q t s r k o e l a) := w in RunWorld n p q (<[x := f (t x)]> t) s r k o e l a.
Definition on_shard (i : nat) (f : run_shard → run_shard) (w : run_world) : run_world :=
  let '(RunWorld n p q t s r k o e l a) := w in RunWorld n p q t (<[i := f (s i)]> s) r k o e l a.
Definition on_runtime (f : run_runtime → run_runtime) (w : run_world) : run_world :=
  let '(RunWorld n p q t s r k o e l a) := w in RunWorld n p q t s (f r) k o e l a.
Definition tick (w : run_world) : run_world :=
  let '(RunWorld n p q t s r k o (RunEnv c v y m) l a) := w in
  RunWorld n p q t s r k o (RunEnv c v y (S m)) l a.
Definition add_signal (g : signal) (w : run_world) : run_world :=
  let '(RunWorld n p q t s r k o e l a) := w in RunWorld n p q t s r k o e (l ++ [g]) a.
Definition set_aborted (w : run_world) : run_world :=
  let '(RunWorld n p q t s r k o e l a) := w in RunWorld n p q t s r k o e l true.

Definition set_head (x : Z) (q : llam_queue) : llam_queue := Queue x (q_tail q) (q_depth q).
Definition set_tail (x : Z) (q : llam_queue) : llam_queue := Queue (q_head q) x (q_depth q).
Definition add_depth (k : Z) (q : llam_queue) : llam_queue :=
  Queue (q_head q) (q_tail q) (u32 (q_depth q + k)).

Definition set_enqueue_hot (v : Z) (t : run_task) : run_task :=
  let '(RunTask d e r _ c f o) := t in RunTask d e r v c f o.

(** ** [queue_base.c] *)

Definition llam_queue_push_tail (q : lane) (task : Z) : R unit :=
  modify (set_next task NULL) ;;
  tail ← gets (λ w, q_tail (w_queue w q));
  modify (set_prev task tail) ;;
  (if negb (tail =? NULL) then modify (set_next tail task)
   else modify (on_queue q (set_head task))) ;;
  modify (on_queue q (set_tail task)) ;;
  modify (on_queue q (add_depth 1)).

Definition llam_managed_task_matches_worker (w : run_world) (task : Z) : bool :=
  if (t_owner_runtime (w_task w task) =? NULL) || negb (r_pools (w_runtime w)) then true
  else if negb (t_execution_worker (w_task w task) =? NULL) then
    t_execution_worker (w_task w task) =? w_worker w
  else negb (w_worker w =? NULL) &&
    match w_role w (w_worker w) with ROLE_NATIVE_AFFINE | ROLE_LEGACY_COMPAT => false | _ => true end.

(** No source dispatch is still saving the task, and this worker may run it. *)
Definition available (w : run_world) (task : Z) : bool :=
  (t_dispatch_owner (w_task w task) =? NULL) && llam_managed_task_matches_worker w task.

(** The scan of [llam_queue_pop_available]; it ends within the queue's depth. *)
Fixpoint scan_available (fuel : nat) (from_tail : bool) (task : Z) (w : run_world) : Z :=
  match fuel with
  | O => task
  | S fuel' =>
    if negb (task =? NULL) && negb (available w task) then
      scan_available fuel' from_tail (if from_tail then w_prev w task else w_next w task) w
    else task
  end.

Definition llam_queue_pop_available (q : lane) (from_tail : bool) : R Z :=
  first ← gets (λ w, if from_tail then q_tail (w_queue w q) else q_head (w_queue w q));
  depth ← gets (λ w, q_depth (w_queue w q));
  task ← gets (scan_available (Z.to_nat depth) from_tail first);
  if task =? NULL then mret NULL
  else
    prev ← gets (λ w, w_prev w task);
    next ← gets (λ w, w_next w task);
    (if negb (prev =? NULL) then modify (set_next prev next)
     else modify (on_queue q (set_head next))) ;;
    next ← gets (λ w, w_next w task);
    prev ← gets (λ w, w_prev w task);
    (if negb (next =? NULL) then modify (set_prev next prev)
     else modify (on_queue q (set_tail prev))) ;;
    modify (set_next task NULL) ;;
    modify (set_prev task NULL) ;;
    modify (on_queue q (add_depth (-1))) ;;
    mret task.

Definition llam_queue_pop_head (q : lane) : R Z := llam_queue_pop_available q false.

Definition llam_queue_pop_tail (q : lane) : R Z := llam_queue_pop_available q true.

Definition llam_shard_is_online (w : run_world) (i : nat) : bool :=
  negb (r_dynamic (w_runtime w)) || s_online (w_shard w i).

Definition llam_shard_accepts_new_work (w : run_world) (i : nat) : bool :=
  llam_shard_is_online w i && negb (s_merge_pause (w_shard w i)).

(** ** Linked segments *)

(** The first task of [l] followed by [n], and the last one after [p]. *)
Definition first_of (n : Z) (l : list Z) : Z := match l with [] => n | x :: _ => x end.

Fixpoint last_of (p : Z) (l : list Z) : Z :=
  match l with [] => p | x :: l' => last_of x l' end.

(** The tasks of [l] are linked in order between [p] and [n]. *)
Fixpoint seg (nx pv : Z → Z) (p : Z) (l : list Z) (n : Z) : Prop :=
  match l with
  | [] => True
  | x :: l' => pv x = p ∧ nx x = first_of n l' ∧ seg nx pv x l' n
  end.

Lemma first_of_app n l k : first_of n (l ++ k) = first_of (first_of n k) l.
Proof. by destruct l. Qed.

Lemma last_of_app p l k : last_of p (l ++ k) = last_of (last_of p l) k.
Proof. revert p. induction l; cbn; auto. Qed.

Lemma last_of_in p l : last_of p l = p ∨ last_of p l ∈ l.
Proof.
  revert p. induction l as [|x l IH]; intros p; cbn; [by left|]. right.
  destruct (IH x) as [-> | H]; [by left|by right].
Qed.

Lemma last_of_cons_in p x l : last_of p (x :: l) ∈ x :: l.
Proof. cbn. destruct (last_of_in x l) as [-> | H]; [by left|by right]. Qed.

Lemma first_of_in n l : first_of n l = n ∨ first_of n l ∈ l.
Proof. destruct l; cbn; [by left|right; by left]. Qed.

Lemma seg_app nx pv p l k n :
  seg nx pv p (l ++ k) n ↔ seg nx pv p l (first_of n k) ∧ seg nx pv (last_of p l) k n.
Proof.
  revert p. induction l as [|x l IH]; intros p; cbn; [tauto|].
  rewrite IH, first_of_app. tauto.
Qed.

(** Links of other tasks do not matter. *)
Lemma seg_frame nx pv nx' pv' p l n :
  (∀ x, x ∈ l → nx' x = nx x ∧ pv' x = pv x) → seg nx pv p l n → seg nx' pv' p l n.
Proof.
  revert p. induction l as [|x l IH]; intros p Hf; cbn; [done|]. intros (Hp & Hn & Hs).
  destruct (Hf x) as [E1 E2]; [by left|]. rewrite E1, E2. split_and!; [done..|].
  apply IH; [|done]. intros y Hy. apply Hf. by right.
Qed.

(** A segment after a write to the link at its end. *)
Lemma seg_set_last nx pv p l n n' :
  NoDup l → l ≠ [] → seg nx pv p l n → seg (<[last_of p l := n']> nx) pv p l n'.
Proof.
  revert p. induction l as [|x l IH]; intros p Hnd Hne; cbn; [done|]. intros (Hp & Hn & Hs).
  apply NoDup_cons in Hnd as [Hx Hnd]. destruct l as [|y l].
  - cbn in *. by rewrite fn_lookup_insert.
  - split_and!; [done| |by apply IH]. rewrite fn_lookup_insert_ne; [done|].
    pose proof (last_of_cons_in x y l). congruence.
Qed.

Lemma seg_set_first nx pv p p' l n :
  NoDup l → l ≠ [] → seg nx pv p l n → seg nx (<[first_of n l := p']> pv) p' l n.
Proof.
  destruct l as [|x l]; [done|]. intros [Hx Hnd]%NoDup_cons _ (Hp & Hn & Hs). cbn.
  rewrite fn_lookup_insert. split_and!; [done..|].
  eapply seg_frame, Hs. intros y Hy. rewrite fn_lookup_insert_ne; [done|congruence].
Qed.

(** The queue [q] holds the tasks [l]. *)
Record linked (nx pv : Z → Z) (q : llam_queue) (l : list Z) : Prop := Linked {
  lk_head : q_head q = first_of NULL l;
  lk_tail : q_tail q = last_of NULL l;
  lk_depth : q_depth q = Z.of_nat (length l);
  lk_seg : seg nx pv NULL l NULL }.

Lemma linked_frame nx pv nx' pv' q l :
  (∀ x, x ∈ l → nx' x = nx x ∧ pv' x = pv x) → linked nx pv q l → linked nx' pv' q l.
Proof. intros Hf []. split; try done. by eapply seg_frame. Qed.

Lemma last_of_null l : NULL ∉ l → last_of NULL l = NULL ↔ l = [].
Proof.
  intros Hl. split; [|by intros ->]. destruct l as [|x l]; [done|].
  pose proof (last_of_cons_in NULL x l). intros E. rewrite E in H. done.
Qed.

Lemma first_of_null l : NULL ∉ l → first_of NULL l = NULL ↔ l = [].
Proof. intros Hl. split; [|by intros ->]. destruct l as [|x l]; [done|]. cbn. intros ->. destruct Hl. by left. Qed.

(** ** Queue operations *)

(** Everything but the links and the queues. *)
Definition rest (w : run_world) :=
  (w_task w, w_shard w, w_runtime w, w_worker w, w_role w, w_env w, w_signals w, w_aborted w).

(** Only the queue [q] and the links of the tasks [D] changed. *)
Record relinked (q : lane) (D : list Z) (w w' : run_world) : Prop := Relinked {
  rl_rest : rest w' = rest w;
  rl_queue : ∀ q', q' ≠ q → w_queue w' q' = w_queue w q';
  rl_links : ∀ x, x ∉ D → w_next w' x = w_next w x ∧ w_prev w' x = w_prev w x }.

Lemma linked_push nx pv q l x :
  linked nx pv q l → NoDup l → NULL ∉ l → x ∉ l → Z.of_nat (length l) + 1 < 2 ^ 32 →
  linked (if q_tail q =? NULL then <[x := NULL]> nx else <[q_tail q := x]> (<[x := NULL]> nx))
    (<[x := q_tail q]> pv)
    (add_depth 1 (set_tail x (if q_tail q =? NULL then set_head x q else q))) (l ++ [x]).
Proof.
  intros [Hh Ht Hd Hs] Hnd H0 Hx Hlen. rewrite Ht.
  assert (Hs' : seg (<[x := NULL]> nx) (<[x := last_of NULL l]> pv) NULL l NULL).
  { eapply seg_frame, Hs. intros y Hy. rewrite !fn_lookup_insert_ne by congruence. done. }
  destruct (Z.eqb_spec (last_of NULL l) NULL) as [E|E].
  - apply last_of_null in E as ->; [|done]. split; cbn; [done..| |].
    + rewrite Hd. cbn. reflexivity.
    + by rewrite !fn_lookup_insert.
  - assert (Hl : l ≠ []) by (intros ->; done).
    assert (Hxl : x ≠ last_of NULL l) by (destruct (last_of_in NULL l); congruence).
    split; cbn.
    + rewrite Hh, first_of_app. by destruct l.
    + by rewrite last_of_app.
    + rewrite Hd, length_app. cbn. rewrite u32_small; [lia|]. split; lia.
    + apply seg_app. split.
      * by apply (seg_set_last _ _ _ _ NULL).
      * cbn. rewrite fn_lookup_insert, (fn_lookup_insert_ne _ (last_of NULL l)), fn_lookup_insert by done. done.
Qed.

Lemma push_tail_spec q x l w (Q : unit → run_world → Prop) :
  linked (w_next w) (w_prev w) (w_queue w q) l → NoDup l → NULL ∉ l → x ∉ l →
  Z.of_nat (length l) + 1 < 2 ^ 32 →
  (∀ w', relinked q (x :: l) w w' →
    linked (w_next w') (w_prev w') (w_queue w' q) (l ++ [x]) → Q tt w') →
  wp (llam_queue_push_tail q x) Q w.
Proof.
  intros Hl Hnd H0 Hx Hlen HQ. pose proof (linked_push _ _ _ _ _ Hl Hnd H0 Hx Hlen) as Hl'.
  destruct w as [n p qs t s r k o e g a]. unfold wp, llam_queue_push_tail. cbn in *.
  assert (Hin : q_tail (qs q) ≠ NULL → q_tail (qs q) ∈ l).
  { rewrite (lk_tail _ _ _ _ Hl). destruct (last_of_in NULL l); congruence. }
  destruct (Z.eqb_spec (q_tail (qs q)) NULL) as [E|E]; cbn; apply HQ; cbn; rewrite ?fn_lookup_insert.
  - split; cbn; [done|..].
    + intros q' Hq. by rewrite !fn_lookup_insert_ne by done.
    + intros y Hy. rewrite !fn_lookup_insert_ne; set_solver.
  - done.
  - split; cbn; [done|..].
    + intros q' Hq. by rewrite !fn_lookup_insert_ne by done.
    + intros y Hy. rewrite !fn_lookup_insert_ne; set_solver.
  - done.
Qed.

(** Taking [x] out of the middle. *)
Definition cut_next (nx pv : Z → Z) (x : Z) : Z → Z :=
  <[x := NULL]> (if pv x =? NULL then nx else <[pv x := nx x]> nx).

Definition cut_prev (nx pv : Z → Z) (x : Z) : Z → Z :=
  <[x := NULL]> (if nx x =? NULL then pv else <[nx x := pv x]> pv).

Definition cut_queue (nx pv : Z → Z) (x : Z) (q : llam_queue) : llam_queue :=
  add_depth (-1) (let q' := if pv x =? NULL then set_head (nx x) q else q in
                  if nx x =? NULL then set_tail (pv x) q' else q').

Lemma cut_before nx pv x l n :
  NoDup l → NULL ∉ l → x ∉ l → pv x = last_of NULL l → nx x = n → n ∉ l →
  seg nx pv NULL l x → seg (cut_next nx pv x) (cut_prev nx pv x) NULL l n.
Proof.
  intros Hnd H0 Hx Hp Hn Hnl Hs. unfold cut_next, cut_prev. rewrite Hp, Hn.
  apply (seg_frame (if last_of NULL l =? NULL then nx else <[last_of NULL l := n]> nx) pv).
  { intros y Hy. rewrite fn_lookup_insert_ne by congruence. split; [done|].
    rewrite fn_lookup_insert_ne by congruence. case_match; [done|].
    by rewrite fn_lookup_insert_ne by congruence. }
  destruct (Z.eqb_spec (last_of NULL l) NULL) as [E|E].
  - by apply last_of_null in E as ->.
  - apply (seg_set_last _ _ _ _ x); [done| |done]. by intros ->.
Qed.

Lemma cut_after nx pv x l p :
  NoDup l → NULL ∉ l → x ∉ l → pv x = p → nx x = first_of NULL l → p ∉ l →
  seg nx pv x l NULL → seg (cut_next nx pv x) (cut_prev nx pv x) p l NULL.
Proof.
  intros Hnd H0 Hx Hp Hn Hpl Hs. unfold cut_next, cut_prev. rewrite Hp, Hn.
  apply (seg_frame nx (if first_of NULL l =? NULL then pv else <[first_of NULL l := p]> pv)).
  { intros y Hy. rewrite !fn_lookup_insert_ne by congruence. split; [|done].
    case_match; [done|]. by rewrite fn_lookup_insert_ne by congruence. }
  destruct (Z.eqb_spec (first_of NULL l) NULL) as [E|E].
  - by apply first_of_null in E as ->.
  - apply (seg_set_first _ _ x); [done| |done]. by intros ->.
Qed.

Lemma linked_cut nx pv q l1 x l2 :
  linked nx pv q (l1 ++ x :: l2) → NoDup (l1 ++ x :: l2) → NULL ∉ l1 ++ x :: l2 →
  Z.of_nat (length (l1 ++ x :: l2)) < 2 ^ 32 →
  linked (cut_next nx pv x) (cut_prev nx pv x) (cut_queue nx pv x q) (l1 ++ l2).
Proof.
  intros [Hh Ht Hd Hs] Hnd H0 Hlen. apply seg_app in Hs as [H1 H2]. cbn in H1, H2.
  destruct H2 as (Hp & Hn & H2).
  apply NoDup_app in Hnd as (Hnd1 & Hdis & [Hx Hnd2]%NoDup_cons).
  apply not_elem_of_app in H0 as [H01 [H0x H02]%not_elem_of_cons].
  assert (Hx1 : x ∉ l1) by (intros Hx1; apply (Hdis _ Hx1); by left).
  assert (Hf : first_of NULL l2 ∉ l1).
  { intros Hf. destruct (first_of_in NULL l2) as [E|E]; [congruence|]. apply (Hdis _ Hf). by right. }
  assert (Hl : last_of NULL l1 ∉ l2).
  { intros Hl. destruct (last_of_in NULL l1) as [E|E]; [congruence|]. apply (Hdis _ E). by right. }
  rewrite first_of_app in Hh. rewrite last_of_app in Ht. cbn in Hh, Ht. split.
  - unfold cut_queue. rewrite Hp, Hn, first_of_app.
    destruct (Z.eqb_spec (last_of NULL l1) NULL) as [E|E].
    + apply last_of_null in E as ->; [|done]. cbn. by case_match.
    + destruct l1; [done|]. by case_match.
  - unfold cut_queue. rewrite Hp, Hn, last_of_app.
    destruct (Z.eqb_spec (first_of NULL l2) NULL) as [E|E].
    + apply first_of_null in E as ->; [|done]. done.
    + destruct l2; [done|]. cbn. by case_match.
  - unfold cut_queue. assert (E : q_depth q + -1 = Z.of_nat (length (l1 ++ l2))).
    { rewrite Hd, !length_app. cbn. lia. }
    rewrite length_app in Hlen. cbn in Hlen. rewrite length_app in E. rewrite length_app.
    assert (Eu : u32 (q_depth q + -1) = Z.of_nat (length l1 + length l2))
      by (rewrite E; apply u32_small; split; lia).
    repeat case_match; cbn; exact Eu.
  - apply seg_app. split; [by apply cut_before|]. apply cut_after; done.
Qed.

Section scan.
Context (w : run_world).
Abbreviation nx := (w_next w).
Abbreviation pv := (w_prev w).
Abbreviation busy l := (Forall (λ x, available w x = false) l).

(** The scan finds the first available task from its end. *)
Lemma scan_head l p fuel :
  seg nx pv p l NULL → NULL ∉ l → (length l <= fuel)%nat →
  let r := scan_available fuel false (first_of NULL l) w in
  (r = NULL ∧ busy l) ∨
  (∃ l1 l2, l = l1 ++ r :: l2 ∧ busy l1 ∧ available w r = true).
Proof.
  revert p fuel. induction l as [|x l IH]; intros p fuel Hs H0 Hf; cbv zeta.
  - left. destruct fuel; by cbn.
  - destruct fuel as [|fuel]; [cbn in Hf; lia|]. destruct Hs as (_ & Hn & Hs).
    apply not_elem_of_cons in H0 as [Hx H0]. cbn [first_of scan_available].
    rewrite (proj2 (Z.eqb_neq x NULL)) by congruence. destruct (available w x) eqn:Ea; cbn [negb andb].
    + right. by exists [], l.
    + rewrite Hn. destruct (IH x fuel Hs H0) as [[E Hb]|(l1 & l2 & E & Hb & Ha)]; [cbn in Hf; lia|..].
      * left. auto.
      * right. exists (x :: l1), l2. split_and!; [cbn; by f_equal|auto|done].
Qed.

Lemma scan_tail l n fuel :
  seg nx pv NULL l n → NULL ∉ l → (length l <= fuel)%nat →
  let r := scan_available fuel true (last_of NULL l) w in
  (r = NULL ∧ busy l) ∨
  (∃ l1 l2, l = l1 ++ r :: l2 ∧ busy l2 ∧ available w r = true).
Proof.
  revert n fuel. induction l as [|x l IH] using rev_ind; intros n fuel Hs H0 Hf; cbv zeta.
  - left. destruct fuel; by cbn.
  - rewrite length_app in Hf. cbn in Hf. destruct fuel as [|fuel]; [lia|].
    apply seg_app in Hs as [Hs (Hp & _ & _)].
    apply not_elem_of_app in H0 as [H0 [Hx _]%not_elem_of_cons].
    rewrite last_of_app. cbn [last_of scan_available].
    rewrite (proj2 (Z.eqb_neq x NULL)) by congruence. destruct (available w x) eqn:Ea; cbn [negb andb].
    + right. by exists l, [].
    + rewrite Hp. destruct (IH _ fuel Hs H0) as [[E Hb]|(l1 & l2 & E & Hb & Ha)]; [lia|..].
      * left. split; [done|]. apply Forall_app. auto.
      * right. exists l1, (l2 ++ [x]). split_and!; [by rewrite E at 1; rewrite <- app_assoc| |done].
        apply Forall_app. auto.
Qed.
End scan.

(** The task a pop takes: the first available one from its end. *)
Definition pops (w : run_world) (from_tail : bool) (l : list Z) (x : Z) (l' : list Z) : Prop :=
  (x = NULL ∧ l' = l ∧ Forall (λ y, available w y = false) l) ∨
  (∃ l1 l2, l = l1 ++ x :: l2 ∧ l' = l1 ++ l2 ∧ x ≠ NULL ∧ available w x = true ∧
     Forall (λ y, available w y = false) (if from_tail then l2 else l1)).

Lemma cut_spec q from_tail x l1 l2 w (Q : Z → run_world → Prop) :
  let l := l1 ++ x :: l2 in
  linked (w_next w) (w_prev w) (w_queue w q) l → NoDup l → NULL ∉ l → Z.of_nat (length l) < 2 ^ 32 →
  scan_available (Z.to_nat (q_depth (w_queue w q))) from_tail
    (if from_tail then q_tail (w_queue w q) else q_head (w_queue w q)) w = x →
  (∀ w', relinked q l w w' →
    linked (w_next w') (w_prev w') (w_queue w' q) (l1 ++ l2) → Q x w') →
  wp (llam_queue_pop_available q from_tail) Q w.
Proof.
  intros l Hl Hnd H0 Hlen Hscan HQ. pose proof (linked_cut _ _ _ _ _ _ Hl Hnd H0 Hlen) as Hl'.
  destruct w as [n p qs t s r k o e g a]. unfold wp, llam_queue_pop_available. cbn in *.
  rewrite Hscan. assert (Hx : x ∈ l) by (apply elem_of_app; right; by left).
  rewrite (proj2 (Z.eqb_neq x NULL)) by congruence.
  assert (Hps : p x = last_of NULL l1 ∧ n x = first_of NULL l2).
  { destruct Hl as [_ _ _ Hs]. apply seg_app in Hs as [_ (? & ? & _)]. done. }
  destruct Hps as [Hp Hn].
  assert (Hpx : p x ≠ x).
  { rewrite Hp. destruct (last_of_in NULL l1) as [E|E]; [congruence|]. intros Ex.
    apply NoDup_app in Hnd as (_ & Hd & _). apply (Hd _ E). rewrite Ex. by left. }
  assert (Hpl : p x ≠ NULL → p x ∈ l).
  { rewrite Hp. destruct (last_of_in NULL l1); [congruence|]. intros _. apply elem_of_app. by left. }
  assert (Hnl : n x ≠ NULL → n x ∈ l).
  { rewrite Hn. destruct (first_of_in NULL l2); [congruence|]. intros _. apply elem_of_app. right. by right. }
  assert (Hrel : ∀ n' p' qs', (∀ q', q' ≠ q → qs' q' = qs q') →
    (∀ y, y ∉ l → n' y = n y ∧ p' y = p y) →
    linked n' p' (qs' q) (l1 ++ l2) → Q x (RunWorld n' p' qs' t s r k o e g a)).
  { intros n' p' qs' Hq Hy Hk. by apply HQ. }
  clear HQ Hscan Hlen Hp Hn Hl. unfold cut_next, cut_prev, cut_queue in Hl'. cbn.
  destruct (Z.eqb_spec (p x) NULL) as [Ep|Ep], (Z.eqb_spec (n x) NULL) as [En|En]; cbn in *;
    rewrite ?(fn_lookup_insert_ne n) by done;
    rewrite ?(proj2 (Z.eqb_neq (n x) NULL)), ?(proj2 (Z.eqb_eq (n x) NULL)) by done; cbn; apply Hrel;
    try (intros q' Hq; by rewrite ?fn_lookup_insert_ne by done);
    try (intros y Hy; rewrite ?fn_lookup_insert_ne by set_solver; done);
    rewrite ?fn_lookup_insert; exact Hl'.
Qed.

Lemma pop_available_spec q from_tail l w (Q : Z → run_world → Prop) :
  linked (w_next w) (w_prev w) (w_queue w q) l → NoDup l → NULL ∉ l → Z.of_nat (length l) < 2 ^ 32 →
  (∀ x l' w', pops w from_tail l x l' → relinked q l w w' →
    linked (w_next w') (w_prev w') (w_queue w' q) l' → Q x w') →
  wp (llam_queue_pop_available q from_tail) Q w.
Proof.
  intros Hl Hnd H0 Hlen HQ. pose proof Hl as [Hh Ht Hd Hs].
  set (first := if from_tail then q_tail (w_queue w q) else q_head (w_queue w q)).
  set (x := scan_available (Z.to_nat (q_depth (w_queue w q))) from_tail first w).
  assert (Hx : (x = NULL ∧ Forall (λ y, available w y = false) l) ∨
    (∃ l1 l2, l = l1 ++ x :: l2 ∧ available w x = true ∧
       Forall (λ y, available w y = false) (if from_tail then l2 else l1))).
  { unfold x, first. rewrite Hh, Ht, Hd, Nat2Z.id. destruct from_tail.
    - destruct (scan_tail w l NULL (length l) Hs H0) as [?|(l1 & l2 & ?)]; [lia|by left|right].
      exists l1, l2. tauto.
    - destruct (scan_head w l NULL (length l) Hs H0) as [?|(l1 & l2 & ?)]; [lia|by left|right].
      exists l1, l2. tauto. }
  destruct Hx as [[Ex Hb]|(l1 & l2 & -> & Ha & Hb)].
  - unfold llam_queue_pop_available. apply wp_bind, wp_gets, wp_bind, wp_gets, wp_bind, wp_gets.
    fold first. fold x. rewrite Ex. cbn [Z.eqb]. apply wp_ret. apply (HQ NULL l w); [by left|done|done].
  - assert (x ≠ NULL) by (intros E; rewrite <- E in H0; set_solver).
    apply (cut_spec q from_tail x l1 l2); try done. intros w' Hr Hk.
    eapply HQ; [|exact Hr|exact Hk]. right. exists l1, l2. done.
Qed.

(** ** The deque without interference *)

(** The deque holds the tasks [l], the next one to steal first. *)
Definition deque_rep (d : llam_cldeque) (l : list Z) : Prop :=
  wf d ∧ ∃ T, dq_top d = u64 T ∧ dq_bottom d = u64 (T + Z.of_nat (length l)) ∧
    Z.of_nat (length l) <= LLAM_NORM_QUEUE_CAP ∧ holds d T l.

Lemma run_push d l x :
  deque_rep d l → x ≠ NULL →
  if Z.of_nat (length l) <? LLAM_NORM_QUEUE_CAP
  then ∃ d', run (llam_cldeque_push_bottom x) d = (true, d') ∧ deque_rep d' (l ++ [x])
  else run (llam_cldeque_push_bottom x) d = (false, d).
Proof.
  intros (Hw & T & Ht & Hb & Hlen & Hh) Hx. unfold llam_cldeque_push_bottom.
  rewrite (proj2 (Z.eqb_neq _ _) Hx). cbn [run load push_check]. rewrite Ht, Hb, room_check by lia.
  destruct (Z.ltb_spec (Z.of_nat (length l)) LLAM_NORM_QUEUE_CAP) as [Hl|Hl];
    [rewrite (proj2 (Z.leb_gt _ _)) by lia|by rewrite (proj2 (Z.leb_le _ _)) by lia].
  unfold push_commit. rewrite slot_u64, u64_add_l. cbn [run]. eexists. split; [reflexivity|].
  set (B := T + Z.of_nat (length l)). split; [unfold wf in *; cbn; by rewrite length_insert|].
  exists T. cbn [store dq_top dq_bottom]. rewrite length_app. cbn [length].
  split_and!; [done|f_equal; lia|lia|].
  apply (holds_snoc (store (Slot (place B)) x d)); [by apply holds_store|by apply at_place_store].
Qed.

Lemma run_pop_empty d :
  deque_rep d [] → ∃ d', run llam_cldeque_pop_bottom d = (NULL, d') ∧ deque_rep d' [].
Proof.
  intros (Hw & T & Ht & Hb & Hlen & Hh). cbn in Hb. rewrite Z.add_0_r in Hb.
  unfold llam_cldeque_pop_bottom, pop_check. cbn [run load store dq_top].
  rewrite Ht, Hb, (u64_sub_l T 1), u64_sub, distance_sign by lia.
  rewrite (proj2 (Z.ltb_lt _ 0)) by lia. cbn [run store dq_top dq_bottom dq_buffer].
  eexists. split; [reflexivity|]. split; [done|]. exists T. cbn. by rewrite Z.add_0_r.
Qed.

Lemma run_pop d l x :
  deque_rep d (l ++ [x]) → ∃ d', run llam_cldeque_pop_bottom d = (x, d') ∧ deque_rep d' l.
Proof.
  intros (Hw & T & Ht & Hb & Hlen & Hh). rewrite length_app in Hb, Hlen. cbn in Hb, Hlen.
  set (B := T + Z.of_nat (length l)) in *.
  assert (Hx : at_place d B = x) by by apply holds_last.
  assert (E : u64 (u64 (T + Z.of_nat (length l + 1)) - 1) = u64 B).
  { rewrite u64_sub_l. f_equal. lia. }
  unfold LLAM_NORM_QUEUE_CAP in Hlen.
  unfold llam_cldeque_pop_bottom, pop_check, pop_take, pop_race. cbn [run load store dq_top].
  rewrite Hb, E, Ht, u64_sub, distance_sign by lia. rewrite (proj2 (Z.ltb_ge _ _)) by lia.
  rewrite slot_u64. cbn [run load dq_buffer]. change (dq_buffer d !!! _) with (at_place d B). rewrite Hx.
  rewrite distance_zero by lia. destruct (Z.eqb_spec (B - T) 0) as [Ez|Ez].
  - cbn [run dq_top]. rewrite ?Ht, Z.eqb_refl. cbn [run]. eexists. split; [reflexivity|].
    split; [done|]. exists (T + 1). cbn [store dq_top dq_bottom].
    destruct l as [|y l]; [|cbn in *; lia]. cbn [length]. rewrite !u64_add_l.
    split_and!; [done|f_equal; lia|done|done].
  - cbn [run]. eexists. split; [reflexivity|]. split; [done|]. exists T.
    split_and!; [done|done|unfold LLAM_NORM_QUEUE_CAP; lia|by eapply holds_app].
Qed.

Lemma run_steal_empty d : deque_rep d [] → run llam_cldeque_steal_top d = (NULL, d).
Proof.
  intros (Hw & T & Ht & Hb & Hlen & Hh). cbn in Hb. rewrite Z.add_0_r in Hb.
  unfold llam_cldeque_steal_top, steal_check. cbn [run load]. by rewrite Ht, Hb, u64_sub, Z.sub_diag.
Qed.

Lemma run_steal d l x :
  deque_rep d (x :: l) → x ≠ NULL →
  ∃ d', run llam_cldeque_steal_top d = (x, d') ∧ deque_rep d' l.
Proof.
  intros (Hw & T & Ht & Hb & Hlen & Hh) Hx. cbn [length] in Hb, Hlen. unfold LLAM_NORM_QUEUE_CAP in Hlen.
  unfold llam_cldeque_steal_top, steal_check, steal_read, steal_claim. cbn [run load].
  rewrite Ht, Hb, u64_sub, distance_zero, distance_sign by lia.
  rewrite (proj2 (Z.eqb_neq _ _)), (proj2 (Z.ltb_ge _ _)) by lia. cbn [orb]. rewrite slot_u64.
  cbn [run load]. change (dq_buffer d !!! _) with (at_place d T).
  assert (E : at_place d T = x) by (rewrite <- (Z.add_0_r T); by apply (Hh 0%nat x)).
  rewrite E, (proj2 (Z.eqb_neq _ _) Hx).
  cbn [run]. rewrite ?Ht, Z.eqb_refl. cbn [run]. eexists. split; [reflexivity|].
  split; [done|]. exists (T + 1). cbn [store dq_top dq_bottom]. rewrite u64_add_l.
  split_and!; [done|rewrite Hb; f_equal; lia|unfold LLAM_NORM_QUEUE_CAP; lia|].
  by apply (holds_tail d T x).
Qed.

Lemma run_has_work d l :
  deque_rep d l → run llam_cldeque_has_work d = (negb (bool_decide (l = [])), d).
Proof.
  intros (Hw & T & Ht & Hb & Hlen & Hh). unfold LLAM_NORM_QUEUE_CAP in Hlen.
  unfold llam_cldeque_has_work. cbn [run load]. rewrite Ht, Hb, u64_sub, distance_zero, distance_sign by lia.
  rewrite (proj2 (Z.ltb_ge _ _)) by lia. cbn [negb]. rewrite andb_true_r. f_equal. f_equal.
  destruct l; [by rewrite Z.add_0_r, Z.sub_diag|]. cbn [length]. apply Z.eqb_neq. lia.
Qed.

(** ** Placement of the tasks *)

(** [L q] lists the tasks of lane [q]; [here] says that a task is in some lane. *)
Definition here (L : lane → list Z) (x : Z) : Prop := ∃ q, x ∈ L q.

(** Tasks come from [U]; every one is in one lane at most, and once. *)
Record placed (U : list Z) (L : lane → list Z) : Prop := Placed {
  pl_null : NULL ∉ U;
  pl_size : Z.of_nat (length U) < UINT32_MAX;
  pl_nodup : ∀ q, NoDup (L q);
  pl_univ : ∀ q x, x ∈ L q → x ∈ U;
  pl_disj : ∀ q q' x, x ∈ L q → x ∈ L q' → q = q' }.

Section placed.
Context (U : list Z) (L : lane → list Z) (H : placed U L).

Lemma placed_length l : NoDup l → (∀ x, x ∈ l → x ∈ U) → Z.of_nat (length l) < UINT32_MAX.
Proof.
  intros Hnd Hl. pose proof (submseteq_length l U (NoDup_submseteq l U Hnd Hl)).
  pose proof (pl_size _ _ H). lia.
Qed.

Lemma lane_null q : NULL ∉ L q.
Proof. intros Hq. by apply (pl_null _ _ H), (pl_univ _ _ H q). Qed.

Lemma lane_size q : Z.of_nat (length (L q)) < UINT32_MAX.
Proof. apply placed_length; [apply H|]. intros x. apply H. Qed.

Lemma lane_length_free q x : x ∈ U → ¬ here L x → Z.of_nat (length (L q)) + 1 < UINT32_MAX.
Proof.
  intros Hx Hf. pose proof (placed_length (x :: L q)) as Hl. cbn in Hl.
  enough (Z.of_nat (S (length (L q))) < UINT32_MAX) by lia. apply Hl.
  - apply NoDup_cons. split; [|apply H]. intros ?. apply Hf. by exists q.
  - intros y [->|Hy]%elem_of_cons; [done|]. by apply (pl_univ _ _ H q).
Qed.

Lemma two_lanes_length q q' : q ≠ q' → Z.of_nat (length (L q) + length (L q')) < UINT32_MAX.
Proof.
  intros Hq. rewrite <- length_app. apply placed_length.
  - apply NoDup_app. split_and!; [apply H| |apply H]. intros x Hx Hx'.
    by apply Hq, (pl_disj _ _ H _ _ x).
  - intros x [Hx|Hx]%elem_of_app; by eapply (pl_univ _ _ H).
Qed.


Lemma here_push q x y : here (<[q := L q ++ [x]]> L) y ↔ here L y ∨ y = x.
Proof.
  split.
  - intros [q' Hq]. destruct (decide (q' = q)) as [->|Hne].
    + rewrite fn_lookup_insert in Hq. apply elem_of_app in Hq as [Hq|Hq%list_elem_of_singleton]; [left; by exists q|by right].
    + rewrite fn_lookup_insert_ne in Hq by done. left. by exists q'.
  - intros [[q' Hq]| ->].
    + exists q'. destruct (decide (q' = q)) as [->|Hne]; [|by rewrite fn_lookup_insert_ne].
      rewrite fn_lookup_insert. apply elem_of_app. by left.
    + exists q. rewrite fn_lookup_insert. apply elem_of_app. right. by left.
Qed.

Lemma here_cut q x l1 l2 y :
  L q = l1 ++ x :: l2 → here (<[q := l1 ++ l2]> L) y ↔ here L y ∧ y ≠ x.
Proof.
  intros E. pose proof (pl_nodup _ _ H q) as Hnd. rewrite E in Hnd.
  apply NoDup_app in Hnd as (_ & Hd & [Hx _]%NoDup_cons). split.
  - intros [q' Hq]. destruct (decide (q' = q)) as [->|Hne].
    + rewrite fn_lookup_insert in Hq. split.
      * exists q. rewrite E. set_solver.
      * intros ->. apply elem_of_app in Hq as [Hq|Hq]; [|done]. apply (Hd _ Hq). by left.
    + rewrite fn_lookup_insert_ne in Hq by done. split; [by exists q'|]. intros ->.
      apply Hne, (pl_disj _ _ H _ _ x); [done|]. rewrite E. set_solver.
  - intros [[q' Hq] Hy]. exists q'. destruct (decide (q' = q)) as [->|Hne];
      [|by rewrite fn_lookup_insert_ne]. rewrite fn_lookup_insert. rewrite E in Hq. set_solver.
Qed.

Lemma placed_push q x : x ∈ U → ¬ here L x → placed U (<[q := L q ++ [x]]> L).
Proof.
  intros Hx Hf. assert (Hfq : ∀ q', x ∉ L q') by (intros q' Hq; apply Hf; by exists q').
  split; [apply H..| | |].
  - intros q'. destruct (decide (q' = q)) as [->|Hne]; [|rewrite fn_lookup_insert_ne by done; apply H].
    rewrite fn_lookup_insert. apply NoDup_app. split_and!; [apply H| |apply NoDup_singleton].
    intros y Hy ->%list_elem_of_singleton. by apply (Hfq q).
  - intros q' y Hy. assert (Hh : here (<[q := L q ++ [x]]> L) y) by by exists q'.
    apply here_push in Hh as [[q'' Hq]| ->]; [|done]. by apply (pl_univ _ _ H q'').
  - intros q1 q2 y. destruct (decide (q1 = q)) as [->|H1], (decide (q2 = q)) as [->|H2]; [done|..];
      rewrite ?fn_lookup_insert, ?fn_lookup_insert_ne by done;
      rewrite ?elem_of_app, ?list_elem_of_singleton; intros Ha Hb.
    + destruct Ha as [Ha| ->]; [by apply (pl_disj _ _ H _ _ y)|by apply Hfq in Hb].
    + destruct Hb as [Hb| ->]; [by apply (pl_disj _ _ H _ _ y)|by apply Hfq in Ha].
    + by apply (pl_disj _ _ H _ _ y).
Qed.

Lemma placed_cut q x l1 l2 : L q = l1 ++ x :: l2 → placed U (<[q := l1 ++ l2]> L).
Proof.
  intros E. assert (Hsub : ∀ q' y, y ∈ (<[q := l1 ++ l2]> L) q' → y ∈ L q').
  { intros q' y. destruct (decide (q' = q)) as [->|Hne]; [|by rewrite fn_lookup_insert_ne].
    rewrite fn_lookup_insert, E. set_solver. }
  split; [apply H..| | |].
  - intros q'. destruct (decide (q' = q)) as [->|Hne]; [|rewrite fn_lookup_insert_ne by done; apply H].
    rewrite fn_lookup_insert. pose proof (pl_nodup _ _ H q) as Hnd. rewrite E in Hnd.
    eapply sublist_NoDup; [exact Hnd|]. apply sublist_app; [done|]. by apply sublist_cons.
  - intros q' y Hy. by eapply (pl_univ _ _ H), Hsub.
  - intros q1 q2 y H1%Hsub H2%Hsub. by apply (pl_disj _ _ H _ _ y).
Qed.

Lemma insert_same q q' : (<[q := L q]> L) q' = L q'.
Proof. destruct (decide (q' = q)) as [->|Hne]; [by rewrite fn_lookup_insert|by rewrite fn_lookup_insert_ne]. Qed.

Lemma placed_same q : placed U (<[q := L q]> L).
Proof.
  split; [apply H..| | |].
  - intros q'. rewrite insert_same. apply H.
  - intros q' y. rewrite insert_same. apply H.
  - intros q1 q2 y. rewrite !insert_same. apply H.
Qed.

Lemma here_same q y : here (<[q := L q]> L) y ↔ here L y.
Proof. unfold here. split; intros [q' Hq]; exists q'; by rewrite insert_same in *. Qed.
End placed.

(** ** The invariant of the lanes *)

Definition is_deque (q : lane) : bool := match q with Deque _ => true | _ => false end.

(** The memory [w] holds the placement [L]. *)
Record phys (U : list Z) (L : lane → list Z) (w : run_world) : Prop := Phys {
  ph_placed : placed U L;
  ph_lane : ∀ q, is_deque q = false → linked (w_next w) (w_prev w) (w_queue w q) (L q);
  ph_deque : ∀ i, deque_rep (s_deque (w_shard w i)) (L (Deque i));
  ph_origin : ∀ x, x ∈ U → t_origin (w_task w x) = UINT32_MAX;
  ph_alive : w_aborted w = false }.

Definition extra (N : option nat) (i : nat) : Z := if decide (N = Some i) then 1 else 0.

(** The counters of the shards and the runtime agree with the placement, but
    for the normal lane of shard [N], which is counted one too high, and the
    inject queues of the shards [J], whose counts are stale. *)
Record books (L : lane → list Z) (N : option nat) (J : list nat) (w : run_world) : Prop := Books {
  bk_norm : ∀ i, s_norm_depth (w_shard w i) =
    Z.of_nat (length (L (Norm i)) + length (L (Deque i))) + extra N i;
  bk_inject : ∀ i, i ∉ J → s_inject_depth (w_shard w i) = Z.of_nat (length (L (Inject i)));
  bk_overflow : r_overflow_depth (w_runtime w) = Z.of_nat (length (L Overflow)) }.

(** What the operations leave alone: the tasks but for the lane they ask for,
    the configuration of the runtime, who is running, and the answers to come. *)
Definition task_core (t : run_task) :=
  (t_dispatch_owner t, t_execution_worker t, t_owner_runtime t, t_class t, t_flags t, t_origin t).

Definition runtime_core (r : run_runtime) :=
  (r_lockfree r, r_dynamic r, r_registered r, r_pools r, r_active_shards r).

Record stable (w w' : run_world) : Prop := Stable {
  sb_task : ∀ x, task_core (w_task w' x) = task_core (w_task w x);
  sb_runtime : runtime_core (w_runtime w') = runtime_core (w_runtime w);
  sb_worker : w_worker w' = w_worker w;
  sb_role : w_role w' = w_role w;
  sb_valid : e_valid (w_env w') = e_valid (w_env w) }.

#[export] Instance stable_preorder : PreOrder stable.
Proof.
  split.
  - by split.
  - intros w1 w2 w3 [] []. split; intros; etrans; eauto.
Qed.

Lemma stable_available w w' x : stable w w' → available w' x = available w x.
Proof.
  intros [Ht Hr Hk Ho _]. specialize (Ht x). injection Ht as E1 E2 E3 _ _ _. injection Hr as _ _ _ E4 _.
  unfold available, llam_managed_task_matches_worker. by rewrite E1, E2, E3, E4, Hk, Ho.
Qed.

Lemma stable_lockfree w w' : stable w w' → r_lockfree (w_runtime w') = r_lockfree (w_runtime w).
Proof. intros [_ Hr _ _ _]. by injection Hr. Qed.

Lemma rest_stable w w' : rest w' = rest w → stable w w'.
Proof. intros E. injection E as Et _ Er Ek Eo Ee _ _. split; congruence. Qed.

Lemma rest_books L N J w w' : rest w' = rest w → books L N J w → books L N J w'.
Proof. intros E. injection E as _ Es Er _ _ _ _ _. intros []. split; rewrite ?Es, ?Er; done. Qed.

(** *** Pushes and pops of a lane *)

Lemma push_phys U L q x w :
  phys U L w → is_deque q = false → x ∈ U → ¬ here L x →
  wp (llam_queue_push_tail q x) (λ _ w', phys U (<[q := L q ++ [x]]> L) w' ∧ rest w' = rest w) w.
Proof.
  intros [Hp Hl Hd Ho Ha] Hq Hx Hf.
  pose proof (lane_length_free U L Hp q x Hx Hf) as Hlen. unfold UINT32_MAX in Hlen.
  apply (push_tail_spec q x (L q)); [by apply Hl|apply Hp|by eapply lane_null| |lia|].
  { intros ?. apply Hf. by exists q. }
  intros w' Hr Hk. pose proof (rl_rest _ _ _ _ Hr) as E. injection E as Et Es Er _ _ _ _ Eb.
  split; [|by apply Hr]. split; [by apply placed_push| | |by rewrite Et|by rewrite Eb].
  - intros q' Hq'. destruct (decide (q' = q)) as [->|Hne]; [by rewrite fn_lookup_insert|].
    rewrite fn_lookup_insert_ne, (rl_queue _ _ _ _ Hr) by done. eapply linked_frame, Hl, Hq'.
    intros y Hy. apply (rl_links _ _ _ _ Hr). intros [->|Hy']%elem_of_cons.
    + apply Hf. by exists q'.
    + by apply Hne, (pl_disj _ _ Hp _ _ y).
  - intros i. rewrite Es, fn_lookup_insert_ne by (by intros ->). apply Hd.
Qed.

Lemma pop_phys U L q from_tail w :
  phys U L w → is_deque q = false →
  wp (llam_queue_pop_available q from_tail) (λ x w', ∃ l',
    pops w from_tail (L q) x l' ∧ phys U (<[q := l']> L) w' ∧ rest w' = rest w) w.
Proof.
  intros [Hp Hl Hd Ho Ha] Hq. pose proof (lane_size U L Hp q) as Hlen. unfold UINT32_MAX in Hlen.
  apply (pop_available_spec q from_tail (L q)); [by apply Hl|apply Hp|by eapply lane_null|lia|].
  intros x l' w' Hx Hr Hk. pose proof (rl_rest _ _ _ _ Hr) as E. injection E as Et Es Er _ _ _ _ Eb.
  exists l'. split_and!; [done| |by apply Hr]. split; [| | |by rewrite Et|by rewrite Eb].
  - destruct Hx as [(_ & -> & _)|(l1 & l2 & E & -> & _)].
    + by apply placed_same.
    + by eapply placed_cut.
  - intros q' Hq'. destruct (decide (q' = q)) as [->|Hne]; [by rewrite fn_lookup_insert|].
    rewrite fn_lookup_insert_ne, (rl_queue _ _ _ _ Hr) by done. eapply linked_frame, Hl, Hq'.
    intros y Hy. apply (rl_links _ _ _ _ Hr). intros Hy'. by apply Hne, (pl_disj _ _ Hp _ _ y).
  - intros i. rewrite Es, fn_lookup_insert_ne by (by intros ->). apply Hd.
Qed.
