(* ===== verification/RunLanes.v ===== *)
(** * Lanes of runnable work

    The bounded lanes of a shard and the overflow queue of the runtime
    ([src/core/sched/core_queue.c]), the normal lane with its optional
    Chase-Lev deque ([norm_queue.c], [norm_queue_depth.c]) and work stealing
    between shards ([src/engine/scheduler/scheduler_engine.c]).

    An operation owns the critical section it runs in.  Whether a worker may
    touch the owner's lanes ([llam_processor_queue_access_*]) depends on leases
    and a stop flag that other threads change, so every such question, and
    every [pthread_mutex_trylock], is answered by the environment.  Tracing is
    left out; a stop requested by [llam_record_fatal] shows in later answers
    of the environment. *)

From stdpp Require Import functions.
From S2P Require Import Prelude ClDeque RunQueue.

Definition LLAM_INJECT_DRAIN_BUDGET : nat := 32.
Definition LLAM_INJECT_QUEUE_CAP : Z := 1024.
Definition LLAM_HOT_QUEUE_CAP : Z := 1024.
Definition LLAM_DIRECT_YIELD_FIFO_FAIRNESS_BURST : Z := 8.
Definition LLAM_TASK_CLASS_LATENCY : Z := 0.
Definition LLAM_TASK_FLAG_PINNED : Z := 1.

Inductive llam_queue_commit_result := COMMIT_REJECTED | COMMIT_OVERFLOW | COMMIT_LOCAL.

#[export] Instance commit_result_eq_dec : EqDecision llam_queue_commit_result.
Proof. solve_decision. Defined.

Inductive llam_yield_exchange_result :=
  EXCHANGE_UNAVAILABLE | EXCHANGE_EMPTY | EXCHANGE_FULL | EXCHANGE_SELF | EXCHANGE_SELECTED.

(** ** Fields of a shard *)

Definition set_deque (v : llam_cldeque) (s : run_shard) : run_shard :=
  let '(RunShard _ n i h f a b c o m t r g l p d) := s in RunShard v n i h f a b c o m t r g l p d.
Definition set_norm_depth (v : Z) (s : run_shard) : run_shard :=
  let '(RunShard q _ i h f a b c o m t r g l p d) := s in RunShard q v i h f a b c o m t r g l p d.
Definition set_inject_depth (v : Z) (s : run_shard) : run_shard :=
  let '(RunShard q n _ h f a b c o m t r g l p d) := s in RunShard q n v h f a b c o m t r g l p d.
Definition set_hot_streak (v : Z) (s : run_shard) : run_shard :=
  let '(RunShard q n i _ f a b c o m t r g l p d) := s in RunShard q n i v f a b c o m t r g l p d.
Definition set_handoff_streak (v : Z) (s : run_shard) : run_shard :=
  let '(RunShard q n i h _ a b c o m t r g l p d) := s in RunShard q n i h v a b c o m t r g l p d.
Definition count_norm (s : run_shard) : run_shard :=
  let '(RunShard q n i h f a b c o m t r g l p d) := s in RunShard q n i h f (u64 (a + 1)) b c o m t r g l p d.
Definition count_hot (s : run_shard) : run_shard :=
  let '(RunShard q n i h f a b c o m t r g l p d) := s in RunShard q n i h f a (u64 (b + 1)) c o m t r g l p d.
Definition count_inject (s : run_shard) : run_shard :=
  let '(RunShard q n i h f a b c o m t r g l p d) := s in RunShard q n i h f a b (u64 (c + 1)) o m t r g l p d.
Definition count_overflow (s : run_shard) : run_shard :=
  let '(RunShard q n i h f a b c o m t r g l p d) := s in RunShard q n i h f a b c (u64 (o + 1)) m t r g l p d.
Definition count_migration (s : run_shard) : run_shard :=
  let '(RunShard q n i h f a b c o m t r g l p d) := s in RunShard q n i h f a b c o (u64 (m + 1)) t r g l p d.
Definition count_steals (k : Z) (s : run_shard) : run_shard :=
  let '(RunShard q n i h f a b c o m t r g l p d) := s in RunShard q n i h f a b c o m (u64 (t + k)) r g l p d.
Definition set_redirect (v : bool) (k : N) (s : run_shard) : run_shard :=
  let '(RunShard q n i h f a b c o m t _ _ l p d) := s in RunShard q n i h f a b c o m t v k l p d.

Definition set_overflow_depth (v : Z) (r : run_runtime) : run_runtime :=
  let '(RunRuntime a b c d e f g h i _ k l m) := r in RunRuntime a b c d e f g h i v k l m.
Definition set_fatal (v : Z) (r : run_runtime) : run_runtime :=
  let '(RunRuntime a b c d e f g h i j k l _) := r in RunRuntime a b c d e f g h i j k l v.

(** ** The environment *)

Definition ask_access : R (option llam_processor_queue_access_mode) :=
  a ← gets (λ w, e_access (w_env w) (e_now (w_env w)));
  modify tick ;; mret a.

Definition ask_valid : R bool :=
  a ← gets (λ w, e_valid (w_env w) (e_now (w_env w)));
  modify tick ;; mret a.

Definition ask_trylock : R bool :=
  a ← gets (λ w, e_trylock (w_env w) (e_now (w_env w)));
  modify tick ;; mret a.

Definition owner_mode (m : llam_processor_queue_access_mode) : bool :=
  match m with ACCESS_REDIRECT_RELEASE => false | _ => true end.

(** [llam_processor_queue_access_validate_owner_mutation_locked]. *)
Definition validate_owner_mutation (access : option llam_processor_queue_access_mode) : R bool :=
  match access with
  | None => mret false
  | Some m => valid ← ask_valid; mret (valid && owner_mode m)
  end.

(** Run a program of the shard's deque. *)
Definition on_deque {A} (i : nat) (p : prog A) : R A :=
  d ← gets (λ w, s_deque (w_shard w i));
  modify (on_shard i (set_deque (run p d).2)) ;;
  mret (run p d).1.

(** Repeat [body] while it returns [true], [n] times at most. *)
Fixpoint loop (n : nat) (body : R bool) : R unit :=
  match n with
  | O => mret tt
  | S n' => b ← body; if b : bool then loop n' body else mret tt
  end.

(** ** [norm_queue_depth.c] *)

Definition llam_record_fatal (err : Z) : R unit :=
  fatal ← gets (λ w, r_fatal (w_runtime w));
  if fatal =? 0 then modify (on_runtime (set_fatal err)) else mret tt.

Definition llam_norm_queue_note_enqueue (i : nat) : R bool :=
  current ← gets (λ w, s_norm_depth (w_shard w i));
  if current =? UINT32_MAX then llam_record_fatal EOVERFLOW ;; mret false
  else modify (on_shard i (set_norm_depth (u32 (current + 1)))) ;; mret true.

Definition llam_norm_queue_note_dequeue (i : nat) : R bool :=
  current ← gets (λ w, s_norm_depth (w_shard w i));
  if current =? 0 then llam_record_fatal EINVAL ;; mret false
  else modify (on_shard i (set_norm_depth (u32 (current - 1)))) ;; mret true.

(** ** The overflow queue and bounded lanes, [core_queue.c] *)

Definition llam_enqueue_overflow_task (task : Z) : R unit :=
  origin ← gets (λ w, t_origin (w_task w task));
  if negb (origin =? UINT32_MAX) then modify set_aborted
  else
    modify (set_next task NULL) ;;
    modify (set_prev task NULL) ;;
    llam_queue_push_tail Overflow task ;;
    depth ← gets (λ w, q_depth (w_queue w Overflow));
    modify (on_runtime (set_overflow_depth depth)) ;;
    modify (add_signal WakeAll).

Definition llam_take_overflow_task : R Z :=
  depth ← gets (λ w, r_overflow_depth (w_runtime w));
  if depth =? 0 then mret NULL
  else
    task ← llam_queue_pop_head Overflow;
    depth ← gets (λ w, q_depth (w_queue w Overflow));
    modify (on_runtime (set_overflow_depth depth)) ;;
    mret task.

Definition llam_runtime_online_shards (r : run_runtime) : Z :=
  if r_dynamic r then r_online_shards r else Z.of_nat (r_active_shards r).

Definition llam_runtime_pressure_signal (w : run_world) : bool :=
  let r := w_runtime w in
  let overflow_depth := r_overflow_depth r in
  let block_pending := if 0 <? r_block_worker_count r then r_block_pending r else 0 in
  if (overflow_depth =? 0) && (block_pending =? 0) then false
  else
    let online_shards := Z.max 1 (llam_runtime_online_shards r) in
    let overflow_threshold := Z.max 4 (u32 (online_shards * 2)) in
    if overflow_threshold <=? overflow_depth then true
    else u32 (r_block_worker_count r * 2) <? block_pending.

Definition llam_should_enqueue_hot_locked (w : run_world) (i : nat) (task : Z)
    (hot_requested pressure : bool) : bool :=
  if t_class (w_task w task) =? LLAM_TASK_CLASS_LATENCY then true
  else if negb hot_requested then false
  else if pressure then false
  else if u32 (s_norm_depth (w_shard w i) + 8) <=? q_depth (w_queue w (Hot i)) then false
  else true.

Definition llam_queue_commit_bounded_locked (i : nat) (q : lane) (capacity task : Z) :
    R llam_queue_commit_result :=
  depth ← gets (λ w, q_depth (w_queue w q));
  if depth <? capacity then
    llam_queue_push_tail q task ;;
    (if bool_decide (q = Inject i) then
       depth ← gets (λ w, q_depth (w_queue w q));
       modify (on_shard i (set_inject_depth depth))
     else mret tt) ;;
    mret COMMIT_LOCAL
  else
    modify (on_shard i count_overflow) ;;
    llam_enqueue_overflow_task task ;;
    mret COMMIT_OVERFLOW.

Definition llam_queue_push_bounded_locked (i : nat) (q : lane) (capacity task : Z)
    (access : option llam_processor_queue_access_mode) : R bool :=
  let owner_lane := bool_decide (q = Hot i) || bool_decide (q = Norm i) in
  valid ← (if owner_lane then validate_owner_mutation access else mret true);
  if negb valid then mret false
  else
    result ← llam_queue_commit_bounded_locked i q capacity task;
    mret (bool_decide (result = COMMIT_LOCAL)).

(** ** The normal lane, [norm_queue.c] *)

(** The spill of a task the lane had no room for. *)
Definition norm_overflow (i : nat) (task : Z) : R unit :=
  llam_norm_queue_note_dequeue i ;;
  modify (on_shard i count_overflow) ;;
  llam_enqueue_overflow_task task.

Definition llam_norm_queue_commit_owner_locked (i : nat) (task : Z) : R llam_queue_commit_result :=
  noted ← llam_norm_queue_note_enqueue i;
  if negb noted then mret COMMIT_REJECTED
  else
    lockfree ← gets (λ w, r_lockfree (w_runtime w));
    if lockfree : bool then
      pushed ← on_deque i (llam_cldeque_push_bottom task);
      if pushed : bool then modify (on_shard i count_norm) ;; mret COMMIT_LOCAL
      else norm_overflow i task ;; mret COMMIT_OVERFLOW
    else
      result ← llam_queue_commit_bounded_locked i (Norm i) LLAM_NORM_QUEUE_CAP task;
      (if bool_decide (result = COMMIT_LOCAL) then modify (on_shard i count_norm)
       else llam_norm_queue_note_dequeue i ;; mret tt) ;;
      mret result.

Definition llam_norm_queue_push_owner_locked (i : nat)
    (access : option llam_processor_queue_access_mode) (task : Z) : R bool :=
  valid ← validate_owner_mutation access;
  if negb valid then mret false
  else
    result ← llam_norm_queue_commit_owner_locked i task;
    mret (bool_decide (result = COMMIT_LOCAL)).

(** The check in front of the operations without the lock: a lock-free lane and
    a snapshot that lets its holder change it. *)
Definition unlocked_access : R bool :=
  lockfree ← gets (λ w, r_lockfree (w_runtime w));
  if negb lockfree then mret false
  else
    access ← ask_access;
    mret (match access with Some m => owner_mode m | None => false end).

Definition llam_norm_queue_push_owner_unlocked (i : nat) (task : Z) : R bool :=
  ok ← unlocked_access;
  if negb ok then mret false
  else
    noted ← llam_norm_queue_note_enqueue i;
    if negb noted then mret false
    else
      pushed ← on_deque i (llam_cldeque_push_bottom task);
      if pushed : bool then modify (on_shard i count_norm) ;; mret true
      else norm_overflow i task ;; mret true.

(** A task taken from the normal lane leaves its depth. *)
Definition dequeued (i : nat) (task : Z) : R Z :=
  (if negb (task =? NULL) then llam_norm_queue_note_dequeue i ;; mret tt else mret tt) ;;
  mret task.

Definition llam_norm_queue_pop_owner_unlocked (i : nat) : R Z :=
  ok ← unlocked_access;
  if negb ok then mret NULL
  else
    task ← on_deque i llam_cldeque_pop_bottom;
    task ← (if task =? NULL then llam_queue_pop_head (Norm i) else mret task);
    dequeued i task.

Definition llam_norm_queue_commit_yield_locked (i : nat) (task : Z) : R llam_queue_commit_result :=
  lockfree ← gets (λ w, r_lockfree (w_runtime w));
  if negb lockfree then llam_norm_queue_commit_owner_locked i task
  else
    noted ← llam_norm_queue_note_enqueue i;
    if negb noted then mret COMMIT_REJECTED
    else
      depth ← gets (λ w, q_depth (w_queue w (Norm i)));
      if depth <? LLAM_NORM_QUEUE_CAP then
        llam_queue_push_tail (Norm i) task ;;
        modify (on_shard i count_norm) ;;
        mret COMMIT_LOCAL
      else
        modify (on_shard i count_overflow) ;;
        llam_enqueue_overflow_task task ;;
        llam_norm_queue_note_dequeue i ;;
        mret COMMIT_OVERFLOW.

Definition llam_norm_queue_push_yield_locked (i : nat)
    (access : option llam_processor_queue_access_mode) (task : Z) : R bool :=
  valid ← validate_owner_mutation access;
  if negb valid then mret false
  else
    result ← llam_norm_queue_commit_yield_locked i task;
    mret (bool_decide (result = COMMIT_LOCAL)).

Definition llam_norm_queue_push_yield_unlocked (i : nat) (task : Z) : R bool :=
  ok ← unlocked_access;
  if negb ok then mret false
  else
    depth ← gets (λ w, q_depth (w_queue w (Norm i)));
    if LLAM_NORM_QUEUE_CAP <=? depth then mret false
    else
      noted ← llam_norm_queue_note_enqueue i;
      if negb noted then mret false
      else
        llam_queue_push_tail (Norm i) task ;;
        modify (on_shard i count_norm) ;;
        mret true.

(** The selection of an exchange: [None] with the reason when nothing was taken. *)
Definition exchange_select (i : nat) (prefer_owner_deque : bool) : R (Z + llam_yield_exchange_result) :=
  next ← (if prefer_owner_deque then mret NULL else llam_queue_pop_head (Norm i));
  if negb (next =? NULL) then mret (inl next)
  else
    depth ← gets (λ w, q_depth (w_queue w (Norm i)));
    if LLAM_NORM_QUEUE_CAP <=? depth then mret (inr EXCHANGE_FULL)
    else
      next ← on_deque i llam_cldeque_pop_bottom;
      if next =? NULL then mret (inr EXCHANGE_EMPTY) else mret (inl next).

(** The result and [*out_next] once the selection is made. *)
Definition exchange_finish (i : nat) (current : Z) (prefer_owner_deque : bool)
    (selected : Z + llam_yield_exchange_result) : R (llam_yield_exchange_result * Z) :=
  match selected with
  | inr reason => mret (reason, NULL)
  | inl next =>
    (if prefer_owner_deque then modify (on_shard i (set_handoff_streak 0)) else mret tt) ;;
    if next =? current then mret (EXCHANGE_SELF, current)
    else
      llam_queue_push_tail (Norm i) current ;;
      modify (on_shard i count_norm) ;;
      mret (EXCHANGE_SELECTED, next)
  end.

Definition llam_norm_queue_exchange_yield_unlocked (i : nat) (current : Z) :
    R (llam_yield_exchange_result * Z) :=
  ok ← unlocked_access;
  if negb ok then mret (EXCHANGE_UNAVAILABLE, NULL)
  else
    streak ← gets (λ w, s_handoff_streak (w_shard w i));
    prefer_owner_deque ←
      (if LLAM_DIRECT_YIELD_FIFO_FAIRNESS_BURST <=? streak then on_deque i llam_cldeque_has_work
       else mret false);
    selected ← exchange_select i prefer_owner_deque;
    exchange_finish i current prefer_owner_deque selected.

Definition llam_norm_queue_defer_reserved_locked (i : nat) (task : Z) : R Z :=
  ok ← gets (λ w, available w task);
  if negb (task =? NULL) && negb ok then llam_queue_push_tail (Norm i) task ;; mret NULL
  else mret task.

(** The body the owner's pop and the merge pop share. *)
Definition norm_take (i : nat) : R Z :=
  lockfree ← gets (λ w, r_lockfree (w_runtime w));
  task ←
    (if lockfree : bool then
       task ← on_deque i llam_cldeque_pop_bottom;
       task ← llam_norm_queue_defer_reserved_locked i task;
       if task =? NULL then llam_queue_pop_head (Norm i) else mret task
     else llam_queue_pop_head (Norm i));
  dequeued i task.

(** [access] was granted before; [None] is a null pointer. *)
Definition llam_norm_queue_pop_owner_locked (i : nat)
    (access : option llam_processor_queue_access_mode) : R Z :=
  valid ← (match access with Some _ => ask_valid | None => mret false end);
  if negb valid then mret NULL else norm_take i.

Definition llam_norm_queue_pop_merge_locked (i : nat) : R Z :=
  paused ← gets (λ w, s_merge_pause (w_shard w i));
  if negb paused then mret NULL else norm_take i.

Definition llam_norm_queue_steal (victim : nat) : R Z :=
  lockfree ← gets (λ w, r_lockfree (w_runtime w));
  if negb lockfree then mret NULL
  else
    task ← on_deque victim llam_cldeque_steal_top;
    ok ← gets (λ w, available w task);
    if negb (task =? NULL) && negb ok then llam_queue_push_tail (Norm victim) task ;; mret NULL
    else dequeued victim task.

(** ** Inject work, redirection and selection, [core_queue.c] *)

(** One transfer from the inject queue; [false] ends the loop. *)
Definition drain_one (i : nat) (access : llam_processor_queue_access_mode) (pressure : bool) : R bool :=
  valid ← validate_owner_mutation (Some access);
  if negb valid then mret false
  else
    task ← llam_queue_pop_head (Inject i);
    if task =? NULL then mret false
    else
      original_hot ← gets (λ w, t_enqueue_hot (w_task w task));
      prefer_hot ← gets (λ w, llam_should_enqueue_hot_locked w i task (negb (original_hot =? 0)) pressure);
      modify (on_task task (set_enqueue_hot 0)) ;;
      result ←
        (if prefer_hot : bool then
           result ← llam_queue_commit_bounded_locked i (Hot i) LLAM_HOT_QUEUE_CAP task;
           (if bool_decide (result = COMMIT_LOCAL) then modify (on_shard i count_hot) else mret tt) ;;
           mret result
         else llam_norm_queue_commit_owner_locked i task);
      if bool_decide (result = COMMIT_REJECTED) then
        modify (on_task task (set_enqueue_hot original_hot)) ;;
        llam_queue_push_tail (Inject i) task ;;
        mret false
      else mret true.

Definition llam_drain_inject_queue (i : nat) : R unit :=
  inject_depth ← gets (λ w, s_inject_depth (w_shard w i));
  if inject_depth =? 0 then mret tt
  else
    pressure ← gets llam_runtime_pressure_signal;
    access ← ask_access;
    match access with
    | None => mret tt
    | Some access =>
      depth ← gets (λ w, q_depth (w_queue w (Inject i)));
      if depth =? 0 then modify (on_shard i (set_inject_depth 0))
      else
        loop LLAM_INJECT_DRAIN_BUDGET (drain_one i access pressure) ;;
        depth ← gets (λ w, q_depth (w_queue w (Inject i)));
        modify (on_shard i (set_inject_depth depth))
    end.

(** The ids in the order they are tried: from the next shard, around. *)
Definition llam_pick_opaque_redirect_target_id (w : run_world) (blocked : nat) : N :=
  let n := r_active_shards (w_runtime w) in
  if (n <=? 1)%nat then Z.to_N UINT32_MAX
  else
    let start := ((blocked + 1) mod n)%nat in
    match filter (λ id, id ≠ blocked ∧ llam_shard_accepts_new_work w id = true)
            ((λ k, (start + k) mod n)%nat <$> seq 0 n) with
    | [] => Z.to_N UINT32_MAX
    | id :: _ => N.of_nat id
    end.

Definition llam_enqueue_opaque_redirect_task_locked (blocked : nat) (task : Z) (hot : bool) : R bool :=
  target_id ← gets (λ w, s_redirect_target (w_shard w blocked));
  active_shards ← gets (λ w, N.of_nat (r_active_shards (w_runtime w)));
  if (active_shards <=? target_id)%N || (target_id =? N.of_nat blocked)%N then mret false
  else
    let target := N.to_nat target_id in
    accepts ← gets (λ w, llam_shard_accepts_new_work w target);
    if negb accepts then mret false
    else
      locked ← ask_trylock;
      if negb locked then mret false
      else
        redirecting ← gets (λ w, s_redirect_active (w_shard w target));
        if redirecting : bool then mret false
        else
          modify (on_task task (set_enqueue_hot (if hot then 1 else 0))) ;;
          queued ← llam_queue_push_bounded_locked target (Inject target) LLAM_INJECT_QUEUE_CAP task None;
          (if queued : bool then modify (on_shard target count_inject) else mret tt) ;;
          (if queued : bool then modify (add_signal (Kick target)) else mret tt) ;;
          mret true.

(** One task sent away from the queue [q] of a blocked shard. *)
Definition flush_one (i : nat) (q : lane) (force_hot : bool) : R bool :=
  task ← llam_queue_pop_head q;
  if task =? NULL then mret false
  else
    enqueue_hot ← gets (λ w, t_enqueue_hot (w_task w task));
    let hot := force_hot || negb (enqueue_hot =? 0) in
    modify (on_shard i count_migration) ;;
    sent ← llam_enqueue_opaque_redirect_task_locked i task hot;
    (if negb sent then
       modify (on_task task (set_enqueue_hot 0)) ;;
       llam_enqueue_overflow_task task
     else mret tt) ;;
    mret true.

(** Every iteration takes a task from [q] and none comes back, so the depth of
    the queue bounds their number. *)
Definition llam_flush_queue_to_redirect_locked (i : nat) (q : lane) (force_hot : bool) : R unit :=
  depth ← gets (λ w, q_depth (w_queue w q));
  loop (S (Z.to_nat depth)) (flush_one i q force_hot) ;;
  if bool_decide (q = Inject i) then modify (on_shard i (set_inject_depth 0)) else mret tt.

Definition flush_norm_one (i : nat) (access : llam_processor_queue_access_mode) : R bool :=
  task ← llam_norm_queue_pop_owner_locked i (Some access);
  if task =? NULL then mret false
  else
    modify (on_task task (set_enqueue_hot 0)) ;;
    modify (on_shard i count_migration) ;;
    sent ← llam_enqueue_opaque_redirect_task_locked i task false;
    (if negb sent then llam_enqueue_overflow_task task else mret tt) ;;
    mret true.

Definition llam_activate_opaque_redirect_locked (i : nat)
    (access : llam_processor_queue_access_mode) : R unit :=
  valid ← ask_valid;
  if negb valid || owner_mode access then mret tt
  else
    active ← gets (λ w, s_redirect_active (w_shard w i));
    if active : bool then mret tt
    else
      target ← gets (λ w, llam_pick_opaque_redirect_target_id w i);
      modify (on_shard i (set_redirect true target)) ;;
      llam_flush_queue_to_redirect_locked i (Inject i) false ;;
      llam_flush_queue_to_redirect_locked i (Hot i) true ;;
      depth ← gets (λ w, s_norm_depth (w_shard w i));
      loop (S (Z.to_nat depth)) (flush_norm_one i access).

Definition llam_deactivate_opaque_redirect_locked (i : nat) : R unit :=
  modify (on_shard i (set_redirect false (Z.to_N UINT32_MAX))).

(** Whether the normal lane is due although there is hot work. *)
Definition norm_due (w : run_world) (i : nat) (pressure : bool) : bool :=
  let s := w_shard w i in
  if (if pressure then 1 else 4) <=? s_hot_streak s then
    if 0 <? s_norm_depth s then
      let hot_cap := if q_depth (w_queue w (Hot i)) <? s_norm_depth s
                     then (if pressure then 1 else 4) else (if pressure then 2 else 8) in
      hot_cap <=? s_hot_streak s
    else false
  else false.

Definition llam_take_local_task_with_pressure (i : nat) (pressure : bool) : R Z :=
  access ← ask_access;
  match access with
  | None => mret NULL
  | Some _ =>
    valid ← validate_owner_mutation access;
    if negb valid then mret NULL
    else
      hot_depth ← gets (λ w, q_depth (w_queue w (Hot i)));
      take_norm ← gets (λ w, negb (0 <? hot_depth) || norm_due w i pressure);
      streak ← gets (λ w, s_hot_streak (w_shard w i));
      task ←
        (if take_norm : bool then
           modify (on_shard i (set_hot_streak 0)) ;;
           llam_norm_queue_pop_owner_locked i access
         else
           modify (on_shard i (set_hot_streak (u32 (streak + 1)))) ;;
           llam_queue_pop_head (Hot i));
      registered ← gets (λ w, r_registered (w_runtime w));
      if (task =? NULL) && registered then
        task ← llam_norm_queue_pop_owner_locked i access;
        if task =? NULL then llam_queue_pop_head (Hot i) else mret task
      else mret task
  end.

Definition llam_take_local_task (i : nat) : R Z :=
  pressure ← gets llam_runtime_pressure_signal;
  llam_take_local_task_with_pressure i pressure.

(** ** Work stealing, [scheduler_engine.c] *)

Definition llam_should_steal_from_victim (w : run_world) (thief victim : nat)
    (victim_depth thief_depth : Z) : bool :=
  let r := w_runtime w in
  if bool_decide (victim = thief) then false
  else if r_pools r && negb (bool_decide ((thief < r_portable r)%nat ↔ (victim < r_portable r)%nat)) then false
  else if r_steal_pause r || s_merge_pause (w_shard w thief) || s_merge_pause (w_shard w victim) then false
  else if (victim_depth <? 2) || (victim_depth <? u32 (thief_depth * 2)) then false
  else if (0 <? q_depth (w_queue w (Inject victim))) || (0 <? q_depth (w_queue w (Hot victim)))
          || s_redirect_active (w_shard w victim) then false
  else if r_lockfree r && ((victim_depth <? 8) || (victim_depth <=? u32 (thief_depth + 2))) then false
  else true.

(** A stolen task enters the lanes of the thief. *)
Definition steal_settle (thief : nat) (task : Z) : R unit :=
  access ← ask_access;
  let owner_access := match access with Some m => owner_mode m | None => false end in
  valid ← (if owner_access then ask_valid else mret false);
  (if valid : bool then llam_norm_queue_push_owner_locked thief access task ;; mret tt
   else
     queued ← llam_queue_push_bounded_locked thief (Inject thief) LLAM_INJECT_QUEUE_CAP task None;
     if queued : bool then modify (on_shard thief count_inject) else mret tt) ;;
  modify (on_shard thief count_migration).

(** One round of the loop: [None] ends it, [Some true] counts as stolen. *)
Definition steal_one (thief victim : nat) : R (option bool) :=
  lockfree ← gets (λ w, r_lockfree (w_runtime w));
  task ←
    (if lockfree : bool then llam_norm_queue_steal victim
     else task ← llam_queue_pop_tail (Norm victim); dequeued victim task);
  if task =? NULL then mret None
  else
    flags ← gets (λ w, t_flags (w_task w task));
    if negb (Z.land flags LLAM_TASK_FLAG_PINNED =? 0) then
      modify (on_task task (set_enqueue_hot 0)) ;;
      queued ← llam_queue_push_bounded_locked victim (Inject victim) LLAM_INJECT_QUEUE_CAP task None;
      (if queued : bool then modify (on_shard victim count_inject) else mret tt) ;;
      modify (add_signal (Kick victim)) ;;
      mret (Some false)
    else steal_settle thief task ;; mret (Some true).

Fixpoint steal_loop (victim_depth : nat) (thief victim : nat) (stolen : Z) : R Z :=
  match victim_depth with
  | O => mret stolen
  | S n =>
    r ← steal_one thief victim;
    match r with
    | None => mret stolen
    | Some b => steal_loop n thief victim (if b : bool then u32 (stolen + 1) else stolen)
    end
  end.

Definition llam_steal_from_victim (thief victim : nat) : R Z :=
  thief_depth ← gets (λ w, s_norm_depth (w_shard w thief));
  online ← gets (λ w, llam_shard_is_online w thief && llam_shard_is_online w victim);
  if bool_decide (victim = thief) || negb online then mret 0
  else
    victim_depth ← gets (λ w, s_norm_depth (w_shard w victim));
    ok ← gets (λ w, llam_should_steal_from_victim w thief victim victim_depth thief_depth);
    if negb ok then mret 0
    else
      lockfree ← gets (λ w, r_lockfree (w_runtime w));
      let victim_depth := if lockfree : bool then Z.max 1 (victim_depth / 4) else victim_depth / 2 in
      stolen ← steal_loop (Z.to_nat victim_depth) thief victim 0;
      (if 0 <? stolen then modify (on_shard thief (count_steals stolen)) else mret tt) ;;
      mret stolen.

(** The deepest normal lane among the candidates, the first one on a tie. *)
Definition best_victim (w : run_world) (ids : list nat) (candidate : nat → bool) : option nat :=
  (foldl (λ best k,
     if candidate k && llam_shard_is_online w k && (best.2 <? s_norm_depth (w_shard w k))
     then (Some k, s_norm_depth (w_shard w k)) else best) (None, 0) ids).1.

Definition steal_range (r : run_runtime) (i : nat) : list nat :=
  if r_pools r then
    if (i <? r_portable r)%nat then seq 0 (r_portable r)
    else seq (r_portable r) (r_active_shards r - r_portable r)
  else seq 0 (r_active_shards r).

(** Steal from the best victim among the candidates, then take locally. *)
Definition steal_best (i : nat) (best : option nat) (otherwise : R Z) : R Z :=
  match best with
  | None => otherwise
  | Some victim =>
    stolen ← llam_steal_from_victim i victim;
    if 0 <? stolen then llam_take_local_task i else otherwise
  end.

Definition llam_try_steal_task (i : nat) : R Z :=
  allowed ← gets (λ w, negb (r_deterministic (w_runtime w)) &&
    negb (llam_runtime_online_shards (w_runtime w) <? 2) && negb (r_steal_pause (w_runtime w)) &&
    llam_shard_is_online w i);
  if negb allowed then mret NULL
  else
    best_same_node ← gets (λ w, best_victim w (steal_range (w_runtime w) i)
      (λ k, negb (bool_decide (k = i)) && (s_node (w_shard w k) =? s_node (w_shard w i))));
    steal_best i best_same_node (
    best_remote ← gets (λ w, best_victim w (steal_range (w_runtime w) i)
      (λ k, negb (s_node (w_shard w k) =? s_node (w_shard w i))));
    steal_best i best_remote (
    mret NULL)).
