(* ===== verification/RunInv.v ===== *)
(** * The invariant of the lanes

    Every operation of [RunLanes] keeps the queues linked, the deques well
    formed and the depth counters exact, and moves tasks without losing or
    duplicating one.  The specifications are Hoare triples over the placement
    of the tasks ([RunQueue.placed]). *)

From stdpp Require Import functions.
From S2P Require Import Prelude ClDeque RunQueue RunLanes.

(** ** Steps that leave the lanes alone *)

Definition inv (U : list Z) (L : lane → list Z) (N : option nat) (J : list nat) (w : run_world) : Prop :=
  phys U L w ∧ books L N J w.

Definition counters (s : run_shard) := (s_deque s, s_norm_depth s, s_inject_depth s).

Record quiet (w w' : run_world) : Prop := Quiet {
  qt_links : (w_next w', w_prev w', w_queue w', w_aborted w') = (w_next w, w_prev w, w_queue w, w_aborted w);
  qt_shard : ∀ i, counters (w_shard w' i) = counters (w_shard w i);
  qt_overflow : r_overflow_depth (w_runtime w') = r_overflow_depth (w_runtime w);
  qt_stable : stable w w' }.

#[export] Instance quiet_pre : PreOrder quiet.
Proof.
  split.
  - intros w. by split.
  - intros w1 w2 w3 [] []. split; intros; etrans; eauto.
Qed.

Lemma quiet_inv U L N J w w' : quiet w w' → inv U L N J w → inv U L N J w'.
Proof.
  intros [El Es Eo [Et _ _ _ _]] [[Hp Hl Hd Ho Ha] [Hn Hi Hv]]. injection El as E1 E2 E3 E4. split; split.
  - done.
  - intros q Hq. rewrite E1, E2, E3. by apply Hl.
  - intros i. specialize (Es i). injection Es as -> _ _. apply Hd.
  - intros x Hx. rewrite <- (Ho x Hx). specialize (Et x). by injection Et.
  - by rewrite E4.
  - intros i. specialize (Es i). injection Es as _ -> _. apply Hn.
  - intros i. specialize (Es i). injection Es as _ _ ->. apply Hi.
  - by rewrite Eo.
Qed.

Lemma quiet_tick w : quiet w (tick w).
Proof. destruct w as [??????????]. by destruct w_env. Qed.

Lemma quiet_signal g w : quiet w (add_signal g w).
Proof. by destruct w. Qed.

Lemma quiet_shard i f w : (∀ s, counters (f s) = counters s) → quiet w (on_shard i f w).
Proof.
  intros Hf. destruct w. split; [done| |done|done]. intros j. cbn.
  destruct (decide (j = i)) as [->|Hne]; [by rewrite fn_lookup_insert|by rewrite fn_lookup_insert_ne].
Qed.

Lemma quiet_task x v w : quiet w (on_task x (set_enqueue_hot v) w).
Proof.
  destruct w. split; [done..|]. split; [|done..]. intros y. cbn.
  destruct (decide (y = x)) as [->|Hne]; [|by rewrite fn_lookup_insert_ne].
  rewrite fn_lookup_insert. by destruct (w_task x).
Qed.

Lemma counters_count s :
  counters (count_norm s) = counters s ∧ counters (count_hot s) = counters s ∧
  counters (count_inject s) = counters s ∧ counters (count_overflow s) = counters s ∧
  counters (count_migration s) = counters s ∧ (∀ k, counters (count_steals k s) = counters s) ∧
  (∀ v, counters (set_hot_streak v s) = counters s) ∧
  (∀ v, counters (set_handoff_streak v s) = counters s) ∧
  (∀ v k, counters (set_redirect v k s) = counters s).
Proof. by destruct s. Qed.

(** Programs that leave the lanes alone. *)
Definition calm {A} (m : R A) : Prop := pres quiet m.

Lemma calm_ask_access : calm ask_access.
Proof. intros w. apply quiet_tick. Qed.

Lemma calm_ask_valid : calm ask_valid.
Proof. intros w. apply quiet_tick. Qed.

Lemma calm_ask_trylock : calm ask_trylock.
Proof. intros w. apply quiet_tick. Qed.

Lemma calm_validate access : calm (validate_owner_mutation access).
Proof. destruct access; [intros w; apply quiet_tick|intros w; by cbn]. Qed.

Lemma calm_unlocked_access : calm unlocked_access.
Proof.
  apply pres_bind; [apply _|apply pres_gets; apply _|]. intros []; cbn [negb].
  - apply pres_bind; [apply _|apply calm_ask_access|]. intros a. apply pres_ret. apply _.
  - apply pres_ret. apply _.
Qed.

Lemma calm_shard i f : (∀ s, counters (f s) = counters s) → calm (modify (on_shard i f)).
Proof. intros Hf w. by apply quiet_shard. Qed.

Lemma calm_task x v : calm (modify (on_task x (set_enqueue_hot v))).
Proof. intros w. apply quiet_task. Qed.

Lemma calm_signal g : calm (modify (add_signal g)).
Proof. intros w. apply quiet_signal. Qed.

(** A calm step keeps the invariant; the rest is proved from there. *)
Lemma wp_pass {A B} (m : R A) (k : A → R B) (Q : B → run_world → Prop) w :
  calm m → (∀ a w', quiet w w' → wp (k a) Q w') → wp (m ≫= k) Q w.
Proof. intros Hm Hk. apply wp_bind. unfold wp at 1. apply Hk, Hm. Qed.

Lemma wp_calm_last {A} (m : R A) (Q : A → run_world → Prop) w :
  calm m → (∀ a w', quiet w w' → Q a w') → wp m Q w.
Proof. intros Hm Hk. unfold wp. apply Hk, Hm. Qed.

(** *** Stepping through a program *)

(** Run the first program of a sequence by the specification [t] proves. *)
Tactic Notation "step" tactic3(t) := apply wp_bind; eapply wp_mono; [t|cbn beta].
Tactic Notation "last" tactic3(t) := eapply wp_mono; [t|cbn beta].

(** The counters and signals of a calm step. *)
#[export] Hint Resolve calm_ask_access calm_ask_valid calm_ask_trylock calm_validate
  calm_unlocked_access calm_task calm_signal : llam.

Ltac calm_tac :=
  solve [auto with llam | apply calm_shard; intros s; destruct (counters_count s) as (?&?&?&?&?&?&?&?&?); auto
        | apply pres_ret; apply _].

Tactic Notation "pass" := eapply wp_pass; [calm_tac|].
Tactic Notation "pass" "last" := eapply wp_calm_last; [calm_tac|].

(** The steps taken so far are stable. *)
Ltac chain :=
  repeat match goal with
  | H : stable ?a ?b |- stable ?a _ => etrans; [exact H|clear H]
  | H : quiet ?a ?b |- stable ?a _ => etrans; [exact (qt_stable _ _ H)|clear H]
  | H : quiet ?a ?b |- quiet ?a _ => etrans; [exact H|clear H]
  end; try reflexivity.

(** Carry the invariant over the calm steps. *)
Ltac keep :=
  repeat match goal with
  | H : quiet ?a ?b, Hi : inv _ _ _ _ ?a |- _ => apply (quiet_inv _ _ _ _ _ _ H) in Hi; apply qt_stable in H
  end.

(** ** Steps on one lane *)

Lemma extra_some i : extra (Some i) i = 1.
Proof. unfold extra. by rewrite decide_True. Qed.

Lemma extra_ne i j : i ≠ j → extra (Some i) j = 0.
Proof. intros Hne. unfold extra. rewrite decide_False; [done|]. congruence. Qed.

Lemma extra_none j : extra None j = 0.
Proof. done. Qed.

Definition norm_len (L : lane → list Z) (i : nat) : Z :=
  Z.of_nat (length (L (Norm i)) + length (L (Deque i))).

(** The counters agree again when placement and debt change together. *)
Lemma books_step L N J w L' N' J' w' :
  books L N J w →
  (∀ i, (s_norm_depth (w_shard w' i), s_inject_depth (w_shard w' i)) =
        (s_norm_depth (w_shard w i), s_inject_depth (w_shard w i))) →
  r_overflow_depth (w_runtime w') = r_overflow_depth (w_runtime w) →
  (∀ i, norm_len L' i + extra N' i = norm_len L i + extra N i) →
  (∀ i, i ∉ J' → (i ∉ J) ∧ length (L' (Inject i)) = length (L (Inject i))) →
  length (L' Overflow) = length (L Overflow) →
  books L' N' J' w'.
Proof.
  intros [Hn Hi Hv] Es Eo En Ei El. unfold norm_len in En. split.
  - intros i. specialize (Es i). injection Es as -> _. by rewrite Hn.
  - intros i HJ. specialize (Es i). injection Es as _ ->. destruct (Ei i HJ) as [HJ' ->]. by apply Hi.
  - by rewrite Eo, El.
Qed.

Lemma rest_counters w w' :
  rest w' = rest w →
  (∀ i, (s_norm_depth (w_shard w' i), s_inject_depth (w_shard w' i)) =
        (s_norm_depth (w_shard w i), s_inject_depth (w_shard w i))) ∧
  r_overflow_depth (w_runtime w') = r_overflow_depth (w_runtime w).
Proof. intros E. injection E as _ -> -> _ _ _ _ _. done. Qed.

(** What a push to [q] settles. *)
Definition pays (q : lane) (N : option nat) (J : list nat) (N' : option nat) (J' : list nat) : Prop :=
  match q with
  | Hot _ => N' = N ∧ J' = J
  | Norm i | Deque i => N = Some i ∧ N' = None ∧ J' = J
  | Inject i => N' = N ∧ J' = i :: J
  | Overflow => False
  end.

(** The lengths after one lane has grown or shrunk by [k]. *)
Definition norm_delta (q : lane) (i : nat) (k : Z) : Z :=
  match q with Norm j | Deque j => if decide (j = i) then k else 0 | _ => 0 end.

Lemma norm_len_insert L q l i k :
  Z.of_nat (length l) = Z.of_nat (length (L q)) + k →
  norm_len (<[q := l]> L) i = norm_len L i + norm_delta q i k.
Proof.
  intros Hl. unfold norm_len, norm_delta. destruct q as [j|j|j|j|]; [by rewrite !fn_lookup_insert_ne, Z.add_0_r by done..| | |].
  - rewrite (fn_lookup_insert_ne _ (Norm j) (Deque i)) by done.
    destruct (decide (j = i)) as [->|Hne]; [rewrite fn_lookup_insert; lia|].
    rewrite fn_lookup_insert_ne by congruence. lia.
  - rewrite (fn_lookup_insert_ne _ (Deque j) (Norm i)) by done.
    destruct (decide (j = i)) as [->|Hne]; [rewrite fn_lookup_insert; lia|].
    rewrite fn_lookup_insert_ne by congruence. lia.
  - by rewrite !fn_lookup_insert_ne, Z.add_0_r by done.
Qed.

Lemma pays_books L q x N J N' J' w w' :
  books L N J w → pays q N J N' J' →
  (∀ i, (s_norm_depth (w_shard w' i), s_inject_depth (w_shard w' i)) =
        (s_norm_depth (w_shard w i), s_inject_depth (w_shard w i))) →
  r_overflow_depth (w_runtime w') = r_overflow_depth (w_runtime w) →
  books (<[q := L q ++ [x]]> L) N' J' w'.
Proof.
  intros Hb Hp Es Eo. eapply books_step; [exact Hb|done|done|..].
  - intros i. rewrite (norm_len_insert _ _ _ _ 1) by (rewrite length_app; cbn; lia).
    destruct q as [j|j|j|j|]; cbn in Hp; destruct_and?; subst; cbn [norm_delta]; try lia; try done;
      (destruct (decide (j = i)) as [->|Hne];
        [rewrite extra_some, extra_none; lia|rewrite extra_ne, extra_none by done; lia]).
  - intros i HJ. destruct q as [j|j|j|j|]; cbn in Hp; destruct_and?; subst;
      try (by rewrite fn_lookup_insert_ne by done); try done.
    apply not_elem_of_cons in HJ as [Hne HJ]. by rewrite fn_lookup_insert_ne by congruence.
  - destruct q; cbn in Hp; try done; by rewrite fn_lookup_insert_ne by done.
Qed.

(** A push to a queue. *)
Lemma push_inv U L q x N J N' J' w :
  inv U L N J w → is_deque q = false → x ∈ U → ¬ here L x → pays q N J N' J' →
  wp (llam_queue_push_tail q x) (λ _ w',
    inv U (<[q := L q ++ [x]]> L) N' J' w' ∧ stable w w') w.
Proof.
  intros [Hp Hb] Hq Hx Hf Hy. eapply wp_mono; [by apply push_phys|]. cbn. intros _ w' [Hp' E].
  destruct (rest_counters _ _ E). split; [|by apply rest_stable]. split; [done|]. by eapply pays_books.
Qed.

(** What a pop from [q] leaves to be settled. *)
Definition owes (q : lane) (x : Z) (N : option nat) (J : list nat) (N' : option nat) (J' : list nat) : Prop :=
  if decide (x = NULL) then N' = N ∧ J' = J
  else match q with
  | Hot _ => N' = N ∧ J' = J
  | Norm i | Deque i => N = None ∧ N' = Some i ∧ J' = J
  | Inject i => N' = N ∧ J' = i :: J
  | Overflow => False
  end.

Lemma owes_books L q x l1 l2 N J N' J' w w' :
  books L N J w → L q = l1 ++ x :: l2 → x ≠ NULL → owes q x N J N' J' →
  (∀ i, (s_norm_depth (w_shard w' i), s_inject_depth (w_shard w' i)) =
        (s_norm_depth (w_shard w i), s_inject_depth (w_shard w i))) →
  r_overflow_depth (w_runtime w') = r_overflow_depth (w_runtime w) →
  books (<[q := l1 ++ l2]> L) N' J' w'.
Proof.
  intros Hb El Hx Hp Es Eo. unfold owes in Hp. rewrite decide_False in Hp by done.
  eapply books_step; [exact Hb|done|done|..].
  - intros i. rewrite (norm_len_insert _ _ _ _ (-1)) by (rewrite El, !length_app; cbn; lia).
    destruct q as [j|j|j|j|]; cbn in Hp; destruct_and?; subst; cbn [norm_delta]; try lia; try done;
      (destruct (decide (j = i)) as [->|Hne];
        [rewrite extra_some, extra_none; lia|rewrite extra_ne, extra_none by done; lia]).
  - intros i HJ. destruct q as [j|j|j|j|]; cbn in Hp; destruct_and?; subst;
      try (by rewrite fn_lookup_insert_ne by done); try done.
    apply not_elem_of_cons in HJ as [Hne HJ]. by rewrite fn_lookup_insert_ne by congruence.
  - destruct q; cbn in Hp; try done; by rewrite fn_lookup_insert_ne by done.
Qed.

Lemma books_same L q N J w : books L N J w → books (<[q := L q]> L) N J w.
Proof.
  intros Hb. eapply books_step; [exact Hb|done|done|..].
  - intros i. unfold norm_len. by rewrite !insert_same.
  - intros i HJ. by rewrite insert_same.
  - by rewrite insert_same.
Qed.

(** A pop from a queue; [N'] and [J'] are the debts if a task comes out. *)
Lemma pop_inv U L q from_tail N J w :
  inv U L N J w → is_deque q = false →
  wp (llam_queue_pop_available q from_tail) (λ x w', ∃ l',
    pops w from_tail (L q) x l' ∧ stable w w' ∧ phys U (<[q := l']> L) w' ∧
    ∀ N' J', owes q x N J N' J' → inv U (<[q := l']> L) N' J' w') w.
Proof.
  intros [Hp Hb] Hq. eapply wp_mono; [by apply pop_phys|]. cbn. intros x w' (l' & Hx & Hp' & E).
  destruct (rest_counters _ _ E). exists l'. split_and!; [done|by apply rest_stable|done|].
  intros N' J' Ho. split; [done|]. destruct Hx as [(-> & -> & _)|(l1 & l2 & El & -> & Hn & _)].
  - unfold owes in Ho. rewrite decide_True in Ho by done. destruct Ho as [-> ->].
    apply books_same. by eapply rest_books.
  - by eapply owes_books.
Qed.

Lemma inv_same U L q N J w : inv U (<[q := L q]> L) N J w → inv U L N J w.
Proof.
  intros [[[H0 Hz H3 H4 H5] Hl Hd Ho Ha] [Hn Hj Hv]]. split; split; try done.
  - split; try done.
    + intros q'. specialize (H3 q'). by rewrite insert_same in H3.
    + intros q' y. specialize (H4 q' y). by rewrite insert_same in H4.
    + intros q1 q2 y. specialize (H5 q1 q2 y). by rewrite !insert_same in H5.
  - intros q' Hq. specialize (Hl q' Hq). by rewrite insert_same in Hl.
  - intros i. specialize (Hd i). by rewrite insert_same in Hd.
  - intros i. specialize (Hn i). by rewrite !insert_same in Hn.
  - intros i Hi. specialize (Hj i Hi). by rewrite insert_same in Hj.
  - by rewrite insert_same in Hv.
Qed.

(** ** Steps on the deque *)

Lemma phys_set_deque U L i d l w :
  phys U L w → deque_rep d l → placed U (<[Deque i := l]> L) →
  phys U (<[Deque i := l]> L) (on_shard i (set_deque d) w).
Proof.
  intros [Hp Hl Hd Ho Ha] Hr Hpl. destruct w as [n p q t s r k o e g a]. cbn in *. split; cbn; try done.
  - intros q' Hq. rewrite fn_lookup_insert_ne by (by intros <-). by apply Hl.
  - intros j. destruct (decide (j = i)) as [->|Hne].
    + rewrite !fn_lookup_insert. by destruct (s i).
    + rewrite !fn_lookup_insert_ne by congruence. apply Hd.
Qed.

Lemma counters_set_deque i d w j :
  (s_norm_depth (w_shard (on_shard i (set_deque d) w) j), s_inject_depth (w_shard (on_shard i (set_deque d) w) j)) =
  (s_norm_depth (w_shard w j), s_inject_depth (w_shard w j)).
Proof.
  destruct w as [n p q t s r k o e g a]. cbn. destruct (decide (j = i)) as [->|Hne].
  - rewrite fn_lookup_insert. by destruct (s i).
  - by rewrite fn_lookup_insert_ne.
Qed.

Lemma overflow_on_shard i f w : w_runtime (on_shard i f w) = w_runtime w.
Proof. by destruct w. Qed.

Lemma stable_on_shard i f w : stable w (on_shard i f w).
Proof. by destruct w. Qed.

Lemma inv_same_deque U L i d N J w :
  inv U L N J w → deque_rep d (L (Deque i)) → inv U L N J (on_shard i (set_deque d) w).
Proof.
  intros [Hp Hb] Hd. split.
  - destruct Hp as [Hp Hl Hq Ho Ha]. destruct w as [n p q t s r k o e g a]. cbn in *. split; cbn; try done.
    intros j. destruct (decide (j = i)) as [->|Hne]; [|by rewrite fn_lookup_insert_ne].
    rewrite fn_lookup_insert. by destruct (s i).
  - eapply books_step; [exact Hb|apply counters_set_deque|by rewrite overflow_on_shard|done..].
Qed.

Lemma deque_push_inv U L i x J w :
  inv U L (Some i) J w → x ∈ U → ¬ here L x →
  wp (on_deque i (llam_cldeque_push_bottom x)) (λ b w', stable w w' ∧
    if b then inv U (<[Deque i := L (Deque i) ++ [x]]> L) None J w' else inv U L (Some i) J w') w.
Proof.
  intros Hi Hx Hf. pose proof Hi as [Hp Hb]. pose proof (ph_deque _ _ _ Hp i) as Hd.
  assert (Hn : x ≠ NULL) by (intros ->; by apply (pl_null _ _ (ph_placed _ _ _ Hp))).
  pose proof (run_push _ _ _ Hd Hn) as Hr. unfold on_deque. apply wp_bind, wp_gets, wp_bind, wp_modify, wp_ret. split; [apply stable_on_shard|].
  destruct (_ <? _).
  - destruct Hr as (d' & -> & Hd'). cbn [fst snd]. split.
    + apply phys_set_deque; [done..|]. by apply placed_push; [apply Hp|..].
    + eapply pays_books; [exact Hb|done|apply counters_set_deque|by rewrite overflow_on_shard].
  - rewrite Hr. cbn [fst snd]. by apply inv_same_deque.
Qed.

Lemma deque_pop_inv U L i J w :
  inv U L None J w →
  wp (on_deque i llam_cldeque_pop_bottom) (λ x w', stable w w' ∧
    ((x = NULL ∧ L (Deque i) = [] ∧ inv U L None J w') ∨
     (∃ l, x ≠ NULL ∧ L (Deque i) = l ++ [x] ∧ inv U (<[Deque i := l]> L) (Some i) J w'))) w.
Proof.
  intros Hi. pose proof Hi as [Hp Hb]. pose proof (ph_deque _ _ _ Hp i) as Hd.
  unfold on_deque. apply wp_bind, wp_gets, wp_bind, wp_modify, wp_ret. split; [apply stable_on_shard|].
  destruct (L (Deque i)) as [|x l _] eqn:El using rev_ind.
  - left. destruct (run_pop_empty _ Hd) as (d' & -> & Hd'). cbn [fst snd]. split_and!; [done..|].
    apply inv_same_deque; [done|]. by rewrite El.
  - right. destruct (run_pop _ _ _ Hd) as (d' & -> & Hd'). cbn [fst snd]. exists l.
    assert (Hn : x ≠ NULL).
    { intros ->. apply (lane_null U L (ph_placed _ _ _ Hp) (Deque i)). rewrite El. set_solver. }
    split_and!; [done..|]. rewrite <- (app_nil_r l). split.
    + apply phys_set_deque; [done|by rewrite app_nil_r|]. by eapply placed_cut; [apply Hp|].
    + eapply owes_books; [exact Hb|done|exact Hn| |apply counters_set_deque|by rewrite overflow_on_shard].
      unfold owes. by rewrite decide_False.
Qed.

Lemma deque_steal_inv U L i J w :
  inv U L None J w →
  wp (on_deque i llam_cldeque_steal_top) (λ x w', stable w w' ∧
    ((x = NULL ∧ L (Deque i) = [] ∧ inv U L None J w') ∨
     (∃ l, x ≠ NULL ∧ L (Deque i) = x :: l ∧ inv U (<[Deque i := l]> L) (Some i) J w'))) w.
Proof.
  intros Hi. pose proof Hi as [Hp Hb]. pose proof (ph_deque _ _ _ Hp i) as Hd.
  unfold on_deque. apply wp_bind, wp_gets, wp_bind, wp_modify, wp_ret. split; [apply stable_on_shard|].
  destruct (L (Deque i)) as [|x l] eqn:El.
  - left. rewrite (run_steal_empty _ Hd). cbn [fst snd]. split_and!; [done..|].
    apply inv_same_deque; [done|]. by rewrite El.
  - right. assert (Hn : x ≠ NULL).
    { intros ->. apply (lane_null U L (ph_placed _ _ _ Hp) (Deque i)). rewrite El. set_solver. }
    destruct (run_steal _ _ _ Hd Hn) as (d' & -> & Hd'). cbn [fst snd]. exists l.
    split_and!; [done..|]. change l with ([] ++ l) at 1. split.
    + apply phys_set_deque; [done..|]. by eapply (placed_cut _ _ (ph_placed _ _ _ Hp) _ x).
    + eapply (owes_books _ _ _ []); [exact Hb|done|exact Hn| |apply counters_set_deque|by rewrite overflow_on_shard].
      unfold owes. by rewrite decide_False.
Qed.

Lemma deque_has_work_inv U L i N J w :
  inv U L N J w →
  wp (on_deque i llam_cldeque_has_work) (λ b w', stable w w' ∧ inv U L N J w') w.
Proof.
  intros Hi. pose proof Hi as [Hp Hb]. pose proof (ph_deque _ _ _ Hp i) as Hd.
  unfold on_deque. apply wp_bind, wp_gets, wp_bind, wp_modify, wp_ret. split; [apply stable_on_shard|].
  rewrite (run_has_work _ _ Hd). cbn [fst snd]. by apply inv_same_deque.
Qed.

(** ** Counters and the overflow queue *)

Lemma phys_on_shard U L i f w :
  (∀ s, s_deque (f s) = s_deque s) → phys U L w → phys U L (on_shard i f w).
Proof.
  intros Hf [Hp Hl Hd Ho Ha]. destruct w as [n p q t s r k o e g a]. cbn in *. split; cbn; try done.
  intros j. destruct (decide (j = i)) as [->|Hne]; [|by rewrite fn_lookup_insert_ne].
  rewrite fn_lookup_insert, Hf. apply Hd.
Qed.

(** A write to the depth of the normal lane of shard [i]. *)
Lemma books_norm_depth L N N' J i v w :
  books L N J w → v = norm_len L i + extra N' i → (∀ j, j ≠ i → extra N' j = extra N j) →
  books L N' J (on_shard i (set_norm_depth v) w).
Proof.
  intros [Hn Hj Hv] -> Hx. destruct w as [n p q t s r k o e g a]. cbn in *. split; cbn; try done.
  - intros j. destruct (decide (j = i)) as [->|Hne].
    + rewrite fn_lookup_insert. by destruct (s i).
    + rewrite fn_lookup_insert_ne, Hx by done. apply Hn.
  - intros j HJ. rewrite <- Hj by done. destruct (decide (j = i)) as [->|Hne].
    + rewrite fn_lookup_insert. by destruct (s i).
    + by rewrite fn_lookup_insert_ne.
Qed.

Lemma books_inject_depth L N J i v w :
  books L N (i :: J) w → v = Z.of_nat (length (L (Inject i))) →
  books L N J (on_shard i (set_inject_depth v) w).
Proof.
  intros [Hn Hj Hv] ->. destruct w as [n p q t s r k o e g a]. cbn in *. split; cbn; try done.
  - intros j. rewrite <- Hn. destruct (decide (j = i)) as [->|Hne].
    + rewrite fn_lookup_insert. by destruct (s i).
    + by rewrite fn_lookup_insert_ne.
  - intros j HJ. destruct (decide (j = i)) as [->|Hne].
    + rewrite fn_lookup_insert. by destruct (s i).
    + rewrite fn_lookup_insert_ne by done. apply Hj. set_solver.
Qed.

Lemma books_stale L N J J' w : (∀ i, i ∈ J → i ∈ J') → books L N J w → books L N J' w.
Proof. intros Hs [Hn Hj Hv]. split; try done. intros i Hi. apply Hj. auto. Qed.

Lemma note_enqueue_inv U L i J w :
  inv U L None J w →
  wp (llam_norm_queue_note_enqueue i) (λ b w', b = true ∧ inv U L (Some i) J w' ∧ stable w w') w.
Proof.
  intros [Hp Hb]. unfold llam_norm_queue_note_enqueue. apply wp_bind, wp_gets.
  pose proof (two_lanes_length U L (ph_placed _ _ _ Hp) (Norm i) (Deque i) ltac:(done)) as Hlen.
  rewrite (bk_norm _ _ _ _ Hb), extra_none. unfold UINT32_MAX in *.
  rewrite (proj2 (Z.eqb_neq _ _)) by lia. apply wp_bind, wp_modify, wp_ret.
  split_and!; [done| |apply stable_on_shard]. split; [apply phys_on_shard; [by intros []|done]|].
  eapply books_norm_depth; [exact Hb| |].
  - rewrite extra_some. unfold norm_len, u32. rewrite Z.mod_small; lia.
  - intros j Hj. by rewrite extra_ne.
Qed.

Lemma note_dequeue_inv U L i J w :
  inv U L (Some i) J w →
  wp (llam_norm_queue_note_dequeue i) (λ b w', b = true ∧ inv U L None J w' ∧ stable w w') w.
Proof.
  intros [Hp Hb]. unfold llam_norm_queue_note_dequeue. apply wp_bind, wp_gets.
  pose proof (two_lanes_length U L (ph_placed _ _ _ Hp) (Norm i) (Deque i) ltac:(done)) as Hlen.
  rewrite (bk_norm _ _ _ _ Hb), extra_some. unfold UINT32_MAX in *.
  rewrite (proj2 (Z.eqb_neq _ _)) by lia. apply wp_bind, wp_modify, wp_ret.
  split_and!; [done| |apply stable_on_shard]. split; [apply phys_on_shard; [by intros []|done]|].
  eapply books_norm_depth; [exact Hb| |].
  - rewrite extra_none. unfold norm_len, u32. rewrite Z.mod_small; lia.
  - intros j Hj. by rewrite extra_ne.
Qed.

(** The links of a task that is in no lane do not matter. *)
Lemma phys_free_links U L x v v' w :
  phys U L w → ¬ here L x → phys U L (set_prev x v (set_next x v' w)).
Proof.
  intros [Hp Hl Hd Ho Ha] Hf. destruct w as [n p q t s r k o e g a]. cbn in *. split; cbn; try done.
  intros q' Hq. eapply linked_frame, Hl, Hq. intros y Hy.
  rewrite !fn_lookup_insert_ne; [done|intros ->; apply Hf; by exists q'..].
Qed.

Lemma phys_on_runtime U L f w : phys U L w → phys U L (on_runtime f w).
Proof. intros [Hp Hl Hd Ho Ha]. by destruct w. Qed.

Lemma books_overflow L N J l w w' :
  books L N J w → w_shard w' = w_shard w →
  books (<[Overflow := l]> L) N J (on_runtime (set_overflow_depth (Z.of_nat (length l))) w').
Proof.
  intros [Hn Hj Hv] Es. destruct w' as [n p q t s r k o e g a]. cbn in *. subst. split; cbn.
  - intros i. rewrite !fn_lookup_insert_ne by done. apply Hn.
  - intros i HJ. rewrite !fn_lookup_insert_ne by done. by apply Hj.
  - rewrite fn_lookup_insert. by destruct r.
Qed.

Lemma stable_overflow v w : stable w (on_runtime (set_overflow_depth v) w).
Proof. destruct w as [n p q t s r k o e g a]. split; [done| |done..]. by destruct r. Qed.

Lemma phys_depth U L w q : phys U L w → is_deque q = false → q_depth (w_queue w q) = Z.of_nat (length (L q)).
Proof. intros [_ Hl _ _ _] Hq. by apply Hl. Qed.

Lemma enqueue_overflow_inv U L N J x w :
  inv U L N J w → x ∈ U → ¬ here L x →
  wp (llam_enqueue_overflow_task x) (λ _ w',
    inv U (<[Overflow := L Overflow ++ [x]]> L) N J w' ∧ stable w w') w.
Proof.
  intros [Hp Hb] Hx Hf. unfold llam_enqueue_overflow_task. apply wp_bind, wp_gets.
  rewrite (ph_origin _ _ _ Hp x Hx), Z.eqb_refl. cbn [negb].
  apply wp_bind, wp_modify, wp_bind, wp_modify, wp_bind.
  eapply wp_mono; [apply (push_phys U L Overflow x); [by apply phys_free_links|done..]|].
  cbn beta. intros _ w1 [Hp1 E1]. apply wp_bind, wp_gets, wp_bind, wp_modify, wp_modify.
  rewrite (phys_depth _ _ _ _ Hp1), fn_lookup_insert by done.
  assert (Es : w_shard w1 = w_shard w) by (injection E1; intros; destruct w; cbn in *; congruence).
  assert (Hs : stable w w1).
  { etrans; [|apply rest_stable, E1]. by destruct w. }
  split.
  - eapply quiet_inv; [apply quiet_signal|]. split; [by apply phys_on_runtime|by eapply books_overflow].
  - etrans; [exact Hs|]. etrans; [apply stable_overflow|]. apply quiet_signal.
Qed.

Lemma take_overflow_inv U L N J w :
  inv U L N J w →
  wp llam_take_overflow_task (λ x w', ∃ l, pops w false (L Overflow) x l ∧
    inv U (<[Overflow := l]> L) N J w' ∧ stable w w') w.
Proof.
  intros [Hp Hb]. unfold llam_take_overflow_task. apply wp_bind, wp_gets.
  rewrite (bk_overflow _ _ _ _ Hb). destruct (Z.eqb_spec (Z.of_nat (length (L Overflow))) 0) as [E|E].
  - apply wp_ret. exists (L Overflow). split_and!; [left|split|done].
    + destruct (L Overflow); [done|cbn in E; lia].
    + destruct Hp. split; try done; [by apply placed_same|..]; intros; rewrite insert_same; auto.
    + by apply books_same.
  - apply wp_bind. eapply wp_mono; [by apply (pop_phys U L Overflow false)|]. cbn beta.
    intros x w1 (l & Hx & Hp1 & E1). apply wp_bind, wp_gets, wp_bind, wp_modify, wp_ret.
    rewrite (phys_depth _ _ _ _ Hp1), fn_lookup_insert by done.
    assert (Es : w_shard w1 = w_shard w) by by injection E1.
    exists l. split_and!; [done| |].
    + split; [by apply phys_on_runtime|by eapply books_overflow].
    + etrans; [by apply rest_stable|apply stable_overflow].
Qed.

(** ** Commits *)

(** The placement after [x] has entered lane [q]. *)
Definition enter (q : lane) (x : Z) (L : lane → list Z) : lane → list Z := <[q := L q ++ [x]]> L.

Lemma commit_bounded_inv U L i q capacity x N N1 J w :
  inv U L N J w → x ∈ U → ¬ here L x →
  (q = Hot i ∨ q = Inject i) ∧ N1 = N ∨ q = Norm i ∧ N = Some i ∧ N1 = None →
  wp (llam_queue_commit_bounded_locked i q capacity x) (λ r w', stable w w' ∧
    if Z.of_nat (length (L q)) <? capacity
    then r = COMMIT_LOCAL ∧ inv U (enter q x L) N1 J w'
    else r = COMMIT_OVERFLOW ∧ inv U (enter Overflow x L) N J w') w.
Proof.
  intros Hi Hx Hf Hq. pose proof Hi as [Hp Hb].
  assert (Hd : is_deque q = false) by (destruct Hq as [[[-> | ->] _]|[-> _]]; done).
  unfold llam_queue_commit_bounded_locked. apply wp_bind, wp_gets.
  rewrite (phys_depth _ _ _ _ Hp Hd). destruct (_ <? capacity).
  - set (J1 := if bool_decide (q = Inject i) then i :: J else J).
    assert (Hy : pays q N J N1 J1).
    { unfold J1. destruct Hq as [[[-> | ->] ->]|(-> & -> & ->)]; cbn; case_bool_decide; naive_solver. }
    step (by eapply push_inv). intros _ w1 [[Hp1 Hb1] Hs].
    apply wp_bind. unfold J1 in Hb1. case_bool_decide as Ei.
    + apply wp_bind, wp_gets, wp_modify, wp_ret. rewrite (phys_depth _ _ _ _ Hp1 Hd).
      split_and!; [by etrans; [|apply stable_on_shard]|done|]. split.
      * apply phys_on_shard; [by intros []|done].
      * eapply books_inject_depth; [exact Hb1|]. by subst q.
    + apply wp_ret, wp_ret. done.
  - pass. intros _ w1 Hq1. step (by apply enqueue_overflow_inv; [by eapply quiet_inv|..]).
    intros _ w2 [Hi2 Hs2]. apply wp_ret. split_and!; [by chain|done|done].
Qed.

(** A spill of the normal lane. *)
Lemma norm_overflow_inv U L i x J w :
  inv U L (Some i) J w → x ∈ U → ¬ here L x →
  wp (norm_overflow i x) (λ _ w', inv U (enter Overflow x L) None J w' ∧ stable w w') w.
Proof.
  intros Hi Hx Hf. unfold norm_overflow. step (by apply note_dequeue_inv). intros _ w1 (_ & Hi1 & Hs1).
  pass. intros _ w2 Hq2. last (by apply enqueue_overflow_inv; [by eapply quiet_inv|..]).
  intros _ w3 [Hi3 Hs3]. split; [done|by chain].
Qed.

(** Where a commit to the normal lane of shard [i] leaves the task. *)
Definition norm_landing (i : nat) (q : lane) (r : llam_queue_commit_result) : Prop :=
  (q = Norm i ∨ q = Deque i) ∧ r = COMMIT_LOCAL ∨ q = Overflow ∧ r = COMMIT_OVERFLOW.

Lemma commit_owner_inv U L i x J w :
  inv U L None J w → x ∈ U → ¬ here L x →
  wp (llam_norm_queue_commit_owner_locked i x) (λ r w', stable w w' ∧
    ∃ q, norm_landing i q r ∧ inv U (enter q x L) None J w') w.
Proof.
  intros Hi Hx Hf. unfold llam_norm_queue_commit_owner_locked.
  step (by apply note_enqueue_inv). intros b w1 (-> & Hi1 & Hs1). cbn [negb]. apply wp_bind, wp_gets.
  destruct (r_lockfree (w_runtime w1)).
  - step (by apply deque_push_inv). intros [|] w2 [Hs2 Hi2].
    + pass. intros _ w3 Hq3. keep. apply wp_ret. split; [by chain|]. exists (Deque i). split; [left; auto|done].
    + step (by apply norm_overflow_inv). intros _ w3 [Hi3 Hs3]. apply wp_ret. split; [by chain|].
      exists Overflow. split; [by right|done].
  - step (by eapply (commit_bounded_inv U L i (Norm i) _ x (Some i) None); auto).
    intros r w2 [Hs2 Hr2]. destruct (_ <? _); destruct Hr2 as [-> Hi2]; apply wp_bind.
    + rewrite bool_decide_true by done. pass last. intros _ w3 Hq3. keep. apply wp_ret.
      split; [by chain|]. exists (Norm i). split; [left; auto|done].
    + rewrite bool_decide_false by done. step (by apply note_dequeue_inv).
      intros _ w3 (_ & Hi3 & Hs3). apply wp_ret, wp_ret. split; [by chain|].
      exists Overflow. split; [by right|done].
Qed.

(** ** Taking from the normal lane *)

(** The tasks in the lanes after one came out ([NULL] when none did), after
    one went in, and after some changed places. *)
Definition gone (L L' : lane → list Z) (x : Z) : Prop :=
  if decide (x = NULL) then ∀ y, here L' y ↔ here L y
  else here L x ∧ ∀ y, here L' y ↔ here L y ∧ y ≠ x.

Definition come (L L' : lane → list Z) (x : Z) : Prop := ∀ y, here L' y ↔ here L y ∨ y = x.

Definition moved (L L' : lane → list Z) : Prop := ∀ y, here L' y ↔ here L y.

#[export] Instance moved_preorder : PreOrder moved.
Proof. split; [done|]. intros L1 L2 L3 H1 H2 y. by rewrite (H2 y), (H1 y). Qed.

Lemma gone_null L L' : gone L L' NULL ↔ moved L L'.
Proof. unfold gone. by rewrite decide_True. Qed.

Lemma gone_some L L' x : x ≠ NULL → gone L L' x ↔ here L x ∧ ∀ y, here L' y ↔ here L y ∧ y ≠ x.
Proof. intros Hx. unfold gone. by rewrite decide_False. Qed.

Lemma come_enter q x L : come L (enter q x L) x.
Proof. intros y. apply here_push. Qed.

Lemma gone_cut U L q x l1 l2 :
  placed U L → L q = l1 ++ x :: l2 → x ≠ NULL → gone L (<[q := l1 ++ l2]> L) x.
Proof.
  intros Hp E Hx. apply gone_some; [done|]. split; [exists q; rewrite E; set_solver|].
  intros y. by eapply here_cut.
Qed.

Lemma gone_last U L q x l :
  placed U L → L q = l ++ [x] → x ≠ NULL → gone L (<[q := l]> L) x.
Proof. intros Hp E Hx. rewrite <- (app_nil_r l). by eapply gone_cut. Qed.

Lemma pops_gone U L q w from_tail x l :
  placed U L → pops w from_tail (L q) x l → gone L (<[q := l]> L) x.
Proof.
  intros Hp [(-> & -> & _)|(l1 & l2 & E & -> & Hx & _)].
  - apply gone_null. intros y. apply here_same.
  - by eapply gone_cut.
Qed.

Lemma gone_moved L L1 L2 x : gone L L1 x → moved L1 L2 → gone L L2 x.
Proof.
  unfold gone. intros H1 H2. destruct (decide (x = NULL)).
  - intros y. by rewrite (H2 y), (H1 y).
  - destruct H1 as [Hx H1]. split; [done|]. intros y. by rewrite (H2 y), (H1 y).
Qed.

Lemma moved_gone L L1 L2 x : moved L L1 → gone L1 L2 x → gone L L2 x.
Proof.
  unfold gone. intros H1 H2. destruct (decide (x = NULL)).
  - intros y. by rewrite (H2 y), (H1 y).
  - destruct H2 as [Hx H2]. split; [by apply H1|]. intros y. by rewrite (H2 y), (H1 y).
Qed.

(** A task that comes out and goes back in has only moved. *)
Lemma gone_come L L1 L2 x : gone L L1 x → x ≠ NULL → come L1 L2 x → moved L L2.
Proof.
  intros Hg Hx Hc y. apply gone_some in Hg as [Hh Hg]; [|done]. rewrite (Hc y), (Hg y).
  destruct (decide (y = x)) as [->|]; tauto.
Qed.

Lemma gone_free L L' x : gone L L' x → x ≠ NULL → ¬ here L' x.
Proof. intros Hg Hx Hh. apply gone_some in Hg as [_ Hg]; [|done]. apply Hg in Hh as [_ ?]. done. Qed.

Lemma gone_univ U L L' x : placed U L → gone L L' x → x ≠ NULL → x ∈ U.
Proof. intros Hp Hg Hx. apply gone_some in Hg as [[q Hq] _]; [|done]. by eapply pl_univ. Qed.

(** The debt of the normal lane of [i] after [x] came out of it. *)
Definition debt (i : nat) (x : Z) : option nat := if decide (x = NULL) then None else Some i.

Lemma pop_norm_inv U L i from_tail J w :
  inv U L None J w →
  wp (llam_queue_pop_available (Norm i) from_tail) (λ x w', ∃ l,
    pops w from_tail (L (Norm i)) x l ∧ stable w w' ∧ inv U (<[Norm i := l]> L) (debt i x) J w') w.
Proof.
  intros Hi. last (by apply pop_inv). intros x w' (l & Hx & Hs & _ & Hl). exists l. split_and!; [done..|].
  apply Hl. unfold owes, debt. by destruct (decide (x = NULL)).
Qed.

Lemma pop_hot_inv U L i from_tail N J w :
  inv U L N J w →
  wp (llam_queue_pop_available (Hot i) from_tail) (λ x w', ∃ l,
    pops w from_tail (L (Hot i)) x l ∧ stable w w' ∧ inv U (<[Hot i := l]> L) N J w') w.
Proof.
  intros Hi. last (by apply pop_inv). intros x w' (l & Hx & Hs & _ & Hl). exists l. split_and!; [done..|].
  apply Hl. unfold owes. by destruct (decide (x = NULL)).
Qed.

Lemma pop_inject_inv U L i from_tail N J w :
  inv U L N J w → i ∈ J →
  wp (llam_queue_pop_available (Inject i) from_tail) (λ x w', ∃ l,
    pops w from_tail (L (Inject i)) x l ∧ stable w w' ∧ inv U (<[Inject i := l]> L) N J w') w.
Proof.
  intros Hi HJ. last (by apply pop_inv). intros x w' (l & Hx & Hs & Hp & Hl). exists l. split_and!; [done..|].
  destruct (decide (x = NULL)) as [E|E].
  - apply Hl. unfold owes. by rewrite decide_True.
  - destruct (Hl N (i :: J)) as [_ Hb]; [unfold owes; by rewrite decide_False|].
    split; [done|]. eapply books_stale, Hb. set_solver.
Qed.

Lemma dequeued_inv U L i x J w :
  inv U L (debt i x) J w →
  wp (dequeued i x) (λ y w', y = x ∧ inv U L None J w' ∧ stable w w') w.
Proof.
  unfold dequeued, debt. intros Hi. apply wp_bind. destruct (decide (x = NULL)) as [->|Hx].
  - apply wp_ret, wp_ret. done.
  - rewrite (proj2 (Z.eqb_neq _ _) Hx). cbn [negb]. step (by apply note_dequeue_inv).
    intros _ w' (_ & Hi' & Hs). apply wp_ret, wp_ret. done.
Qed.

(** Back to the normal queue of a task that may not run here yet. *)
Lemma defer_inv U L i x J w :
  inv U L (debt i x) J w → (x ≠ NULL → x ∈ U ∧ ¬ here L x) →
  wp (llam_norm_queue_defer_reserved_locked i x) (λ y w', stable w w' ∧
    ((x ≠ NULL ∧ available w x = false ∧ y = NULL ∧ inv U (enter (Norm i) x L) None J w') ∨
     (y = x ∧ (x ≠ NULL → available w x = true) ∧ inv U L (debt i x) J w'))) w.
Proof.
  intros Hi Hx. unfold llam_norm_queue_defer_reserved_locked. apply wp_bind, wp_gets.
  destruct (Z.eqb_spec x NULL) as [E|E]; cbn [negb andb].
  { apply wp_ret. split; [done|]. right. done. }
  destruct (available w x) eqn:Ea; cbn [negb].
  { apply wp_ret. split; [done|]. right. done. }
  unfold debt in Hi. rewrite decide_False in Hi by done. destruct (Hx E) as [HU Hf].
  step (by eapply (push_inv U L (Norm i) x (Some i) J None J)). intros _ w1 [Hi1 Hs1].
  apply wp_ret. split; [done|]. left. done.
Qed.

(** Only the normal lane of shard [i] is touched. *)
Definition within_norm (i : nat) (L L' : lane → list Z) : Prop :=
  ∀ q, q ≠ Norm i → q ≠ Deque i → L' q = L q.

Lemma within_norm_insert i q l L : q = Norm i ∨ q = Deque i → within_norm i L (<[q := l]> L).
Proof. intros Hq q' H1 H2. rewrite fn_lookup_insert_ne; [done|]. destruct Hq; congruence. Qed.

Lemma within_norm_trans i L1 L2 L3 : within_norm i L1 L2 → within_norm i L2 L3 → within_norm i L1 L3.
Proof. intros H1 H2 q Hn Hd. by rewrite H2, H1. Qed.

(** The outcome of a pop of the normal lane of [i]: a task that may run here,
    or nothing; then every task left there may not. *)
Record norm_pop (U : list Z) (i : nat) (J : list nat) (L : lane → list Z) (w : run_world) (x : Z)
    (L' : lane → list Z) (w' : run_world) : Prop := NormPop {
  np_inv : inv U L' None J w';
  np_stable : stable w w';
  np_gone : gone L L' x;
  np_within : within_norm i L L';
  np_len : norm_len L i = norm_len L' i + (if decide (x = NULL) then 0 else 1);
  np_available : x ≠ NULL → available w x = true;
  np_empty : x = NULL → (∀ y, here L y → available w y = true) →
    L' (Norm i) = [] ∧ (r_lockfree (w_runtime w) = true → L' (Deque i) = []);
  np_deque : r_lockfree (w_runtime w) = false → L' (Deque i) = L (Deque i) }.

Lemma pops_null_same w from_tail l l' :
  pops w from_tail l NULL l' → l' = l ∧ Forall (λ x, available w x = false) l.
Proof. intros [(_ & -> & Hb)|(l1 & l2 & _ & _ & ? & _)]; done. Qed.

Lemma pops_empty w from_tail L q l :
  pops w from_tail (L q) NULL l → (∀ y, here L y → available w y = true) → L q = [].
Proof.
  intros [(_ & _ & Hb)|(l1 & l2 & _ & _ & Hn & _)] Ha; [|done].
  destruct (L q) as [|y k] eqn:E; [done|]. apply Forall_cons in Hb as [Hb _].
  rewrite Ha in Hb; [done|]. exists q. rewrite E. by left.
Qed.

Lemma pops_len w from_tail (L : lane → list Z) q x l :
  pops w from_tail (L q) x l →
  Z.of_nat (length l) = Z.of_nat (length (L q)) + (if decide (x = NULL) then 0 else -1).
Proof.
  intros [(-> & -> & _)|(l1 & l2 & -> & -> & Hn & _)].
  - rewrite decide_True by done. lia.
  - rewrite decide_False by done. rewrite !length_app. cbn. lia.
Qed.

Lemma pops_available w from_tail l x l' : pops w from_tail l x l' → x ≠ NULL → available w x = true.
Proof. intros [(-> & _)|(l1 & l2 & _ & _ & _ & Ha & _)]; done. Qed.

(** The pop of the queue that ends every pop of the normal lane. *)
Lemma pop_tail_of_take U i J L L1 w w1 :
  inv U L1 None J w1 → stable w w1 → moved L L1 → within_norm i L L1 → norm_len L i = norm_len L1 i →
  ((∀ y, here L y → available w y = true) → r_lockfree (w_runtime w) = true → L1 (Deque i) = []) →
  (r_lockfree (w_runtime w) = false → L1 (Deque i) = L (Deque i)) →
  wp (x ← llam_queue_pop_head (Norm i); dequeued i x) (λ x w', ∃ L', norm_pop U i J L w x L' w') w1.
Proof.
  intros Hi Hs Hm Hw Hlen He Hd. step (by apply (pop_norm_inv U L1 i false)). intros x w2 (l & Hx & Hs2 & Hi2).
  last (by apply dequeued_inv). intros y w3 (-> & Hi3 & Hs3).
  exists (<[Norm i := l]> L1). split; [done|by chain|..].
  - eapply moved_gone; [done|]. eapply pops_gone; [apply Hi|done].
  - eapply within_norm_trans; [done|]. apply within_norm_insert. by left.
  - rewrite (norm_len_insert _ _ _ _ _ (pops_len _ _ _ _ _ _ Hx)). unfold norm_delta.
    rewrite Hlen, (decide_True (P := i = i)) by done. destruct (decide (x = NULL)); lia.
  - intros Hn. rewrite <- (stable_available w w1) by done. by eapply pops_available.
  - intros -> Ha. rewrite fn_lookup_insert, fn_lookup_insert_ne by done. split; [|by apply He].
    destruct (pops_null_same _ _ _ _ Hx) as [-> _]. eapply pops_empty; [done|].
    intros y Hy. rewrite (stable_available w w1) by done. apply Ha. by apply Hm.
  - intros El. rewrite fn_lookup_insert_ne by done. auto.
Qed.

Lemma wp_unbind {A B} (m : R A) (k : A → R B) Q w : wp (m ≫= k) Q w → wp m (λ a, wp (k a) Q) w.
Proof. unfold wp, mbind, st_bind. by destruct (m w). Qed.

Lemma norm_take_inv U L i J w :
  inv U L None J w → wp (norm_take i) (λ x w', ∃ L', norm_pop U i J L w x L' w') w.
Proof.
  intros Hi. unfold norm_take. apply wp_bind, wp_gets. destruct (r_lockfree (w_runtime w)) eqn:El.
  2:{ eapply pop_tail_of_take; try done. rewrite El. done. }
  apply wp_bind. step (by apply deque_pop_inv). intros x w1 (Hs1 & Hx1).
  destruct Hx1 as [(-> & Ed & Hi1)|(l & Hn & Ed & Hi1)].
  - step (by apply (defer_inv U L i NULL)). intros y w2 (Hs2 & [(? & _)|(-> & _ & Hi2)]); [done|].
    cbn [Z.eqb]. apply wp_unbind. eapply pop_tail_of_take; try done; by chain.
  - set (L1 := <[Deque i := l]> L) in *.
    assert (Hg : gone L L1 x) by (by eapply gone_last; [apply Hi|..]).
    assert (Hd : debt i x = Some i) by (unfold debt; by rewrite decide_False).
    step (apply (defer_inv U L1 i x); [by rewrite Hd|]).
    { intros _. split; [by eapply gone_univ; [apply Hi|..]|by eapply gone_free]. }
    intros y w2 (Hs2 & [(_ & Ea & -> & Hi2)|(-> & Ha & Hi2)]).
    + cbn [Z.eqb]. apply wp_unbind. eapply pop_tail_of_take; try done; [by chain|..].
      * eapply gone_come; [done|done|apply come_enter].
      * eapply within_norm_trans; apply within_norm_insert; auto.
      * unfold enter. rewrite (norm_len_insert _ _ _ _ 1) by (rewrite length_app; cbn; lia).
        unfold L1. rewrite (norm_len_insert _ _ _ _ (-1)) by (rewrite Ed, length_app; cbn; lia).
        unfold norm_delta. rewrite !decide_True by done. lia.
      * intros Hall. rewrite (stable_available w w1), Hall in Ea; [done| |done].
        exists (Deque i). rewrite Ed. set_solver.
      * by rewrite El.
    + rewrite (proj2 (Z.eqb_neq _ _) Hn). apply wp_ret. last (by apply dequeued_inv).
      intros y w3 (-> & Hi3 & Hs3). exists L1. split; [done|by chain|done| |..].
      * apply within_norm_insert. by right.
      * unfold L1. rewrite (norm_len_insert _ _ _ _ (-1)) by (rewrite Ed, length_app; cbn; lia).
        unfold norm_delta. rewrite decide_True, decide_False by done. lia.
      * intros _. rewrite <- (stable_available w w1) by done. auto.
      * done.
      * by rewrite El.
Qed.

(** Every validation to come succeeds. *)
Definition steady (w : run_world) : Prop := ∀ n, e_valid (w_env w) n = true.

Lemma steady_stable w w' : stable w w' → steady w → steady w'.
Proof. intros Hs H n. by rewrite (sb_valid _ _ Hs). Qed.

Lemma norm_pop_calm U i J L w w1 x L' w' :
  quiet w w1 → norm_pop U i J L w1 x L' w' → norm_pop U i J L w x L' w'.
Proof.
  intros Hq [Hi Hs Hg Hw Hl Ha He Hd]. pose proof (qt_stable _ _ Hq) as Hq'. split; [done|by chain|done..| | |].
  - intros Hn. rewrite <- (stable_available w w1) by done. auto.
  - intros Hn Hall. rewrite <- (stable_lockfree w w1) by done. apply He; [done|].
    intros y Hy. rewrite (stable_available w w1) by done. auto.
  - rewrite <- (stable_lockfree w w1) by done. done.
Qed.

Lemma pop_owner_locked_inv U L i access J w :
  inv U L None J w →
  wp (llam_norm_queue_pop_owner_locked i (Some access)) (λ x w',
    (∃ L', norm_pop U i J L w x L' w') ∨ (x = NULL ∧ quiet w w' ∧ ¬ steady w)) w.
Proof.
  intros Hi. unfold llam_norm_queue_pop_owner_locked, ask_valid.
  apply wp_bind, wp_bind, wp_gets, wp_bind, wp_modify, wp_ret. pose proof (quiet_tick w) as Hq.
  destruct (e_valid (w_env w) (e_now (w_env w))) eqn:Ev; cbn [negb].
  - last (apply (norm_take_inv U L i J); by eapply quiet_inv). intros x w2 (L' & Hp).
    left. exists L'. by eapply norm_pop_calm.
  - apply wp_ret. right. split_and!; [done..|]. intros Hs. by rewrite Hs in Ev.
Qed.

(** What the callers of the pop need: a task came out, or the lanes are as before. *)
Lemma pop_owner_locked_gone U L i access J w :
  inv U L None J w →
  wp (llam_norm_queue_pop_owner_locked i (Some access)) (λ x w', ∃ L', inv U L' None J w' ∧ stable w w' ∧
    gone L L' x) w.
Proof.
  intros Hi. last (by apply (pop_owner_locked_inv U L)). intros x w' [(L' & [])|(-> & Hq & _)].
  - by exists L'.
  - exists L. split_and!; [by eapply quiet_inv|apply Hq|by apply gone_null].
Qed.

(** The pop of a controller that paused the shard. *)
Lemma pop_merge_inv U L i J w :
  inv U L None J w →
  wp (llam_norm_queue_pop_merge_locked i) (λ x w', ∃ L', inv U L' None J w' ∧ stable w w' ∧ gone L L' x) w.
Proof.
  intros Hi. unfold llam_norm_queue_pop_merge_locked. apply wp_bind, wp_gets.
  destruct (s_merge_pause (w_shard w i)); cbn [negb].
  - last (by apply norm_take_inv). intros x w2 (L' & [Hi2 Hs2 Hg _ _ _ _ _]). by exists L'.
  - apply wp_ret. exists L. split_and!; [done..|by apply gone_null].
Qed.

Lemma pop_owner_unlocked_inv U L i J w :
  inv U L None J w →
  wp (llam_norm_queue_pop_owner_unlocked i) (λ x w', ∃ L', inv U L' None J w' ∧ stable w w' ∧ gone L L' x) w.
Proof.
  intros Hi. unfold llam_norm_queue_pop_owner_unlocked. pass. intros [|] w1 Hq1; keep; cbn [negb].
  2:{ apply wp_ret. exists L. split_and!; [done..|by apply gone_null]. }
  step (by apply deque_pop_inv). intros x w2 (Hs2 & [(-> & Ed & Hi2)|(l & Hn & Ed & Hi2)]).
  - cbn [Z.eqb]. last (by eapply (pop_tail_of_take U i J L L w2 w2)).
    intros y w3 (L' & [Hi3 Hs3 Hg _ _ _ _ _]). exists L'. split_and!; [done|by chain|done].
  - rewrite (proj2 (Z.eqb_neq _ _) Hn). apply wp_bind, wp_ret.
    assert (Hd : debt i x = Some i) by (unfold debt; by rewrite decide_False).
    last (apply dequeued_inv; by rewrite Hd). intros y w3 (-> & Hi3 & Hs3).
    exists (<[Deque i := l]> L). split_and!; [done|by chain|]. by eapply gone_last; [apply Hi|..].
Qed.

(** ** Publishing to the normal lane *)

(** A refused push leaves the lanes as they were; an accepted one puts the
    task into one lane. *)
Definition published (U : list Z) (J : list nat) (L : lane → list Z) (x : Z) (w : run_world)
    (accepted : bool) (w' : run_world) : Prop :=
  stable w w' ∧ ∃ L', inv U L' None J w' ∧ if accepted then come L L' x else moved L L'.

Lemma published_enter U J L x w q w' :
  stable w w' → inv U (enter q x L) None J w' → published U J L x w true w'.
Proof. intros Hs Hi. split; [done|]. exists (enter q x L). split; [done|apply come_enter]. Qed.

Lemma refused U J L x w w' : stable w w' → inv U L None J w' → published U J L x w false w'.
Proof. intros Hs Hi. split; [done|]. by exists L. Qed.

Lemma push_owner_unlocked_inv U L i x J w :
  inv U L None J w → x ∈ U → ¬ here L x →
  wp (llam_norm_queue_push_owner_unlocked i x) (published U J L x w) w.
Proof.
  intros Hi Hx Hf. unfold llam_norm_queue_push_owner_unlocked. pass. intros [|] w1 Hq1; keep; cbn [negb].
  2:{ apply wp_ret. by apply refused. }
  step (by apply note_enqueue_inv). intros b w2 (-> & Hi2 & Hs2). cbn [negb].
  step (by apply deque_push_inv). intros [|] w3 [Hs3 Hi3].
  - pass. intros _ w4 Hq4. keep. apply wp_ret. eapply published_enter; [by chain|done].
  - step (by apply norm_overflow_inv). intros _ w4 [Hi4 Hs4]. apply wp_ret.
    eapply published_enter; [by chain|done].
Qed.

Lemma push_yield_unlocked_inv U L i x J w :
  inv U L None J w → x ∈ U → ¬ here L x →
  wp (llam_norm_queue_push_yield_unlocked i x) (published U J L x w) w.
Proof.
  intros Hi Hx Hf. unfold llam_norm_queue_push_yield_unlocked. pass. intros [|] w1 Hq1; keep; cbn [negb].
  2:{ apply wp_ret. by apply refused. }
  apply wp_bind, wp_gets. destruct (_ <=? _). { apply wp_ret. by apply refused. }
  step (by apply note_enqueue_inv). intros b w2 (-> & Hi2 & Hs2). cbn [negb].
  step (by eapply (push_inv U L (Norm i) x (Some i) J None J)). intros _ w3 [Hi3 Hs3].
  pass. intros _ w4 Hq4. keep. apply wp_ret. eapply published_enter; [by chain|done].
Qed.

Lemma commit_yield_inv U L i x J w :
  inv U L None J w → x ∈ U → ¬ here L x →
  wp (llam_norm_queue_commit_yield_locked i x) (λ r w', stable w w' ∧
    ∃ q, norm_landing i q r ∧ inv U (enter q x L) None J w') w.
Proof.
  intros Hi Hx Hf. unfold llam_norm_queue_commit_yield_locked. apply wp_bind, wp_gets.
  destruct (r_lockfree (w_runtime w)); cbn [negb]; [|by apply commit_owner_inv].
  step (by apply note_enqueue_inv). intros b w1 (-> & Hi1 & Hs1). cbn [negb]. apply wp_bind, wp_gets.
  destruct (_ <? _).
  - step (by eapply (push_inv U L (Norm i) x (Some i) J None J)). intros _ w2 [Hi2 Hs2].
    pass. intros _ w3 Hq3. keep. apply wp_ret. split; [by chain|]. exists (Norm i). split; [left; auto|done].
  - pass. intros _ w2 Hq2. keep. step (by apply enqueue_overflow_inv). intros _ w3 [Hi3 Hs3].
    step (by apply note_dequeue_inv). intros _ w4 (_ & Hi4 & Hs4). apply wp_ret.
    split; [by chain|]. exists Overflow. split; [by right|done].
Qed.

(** *** Exchange of the running task *)

(** A selected task has left the lanes and is still counted. *)
Definition selection (U : list Z) (L : lane → list Z) (i : nat) (J : list nat) (w : run_world)
    (r : Z + llam_yield_exchange_result) (w' : run_world) : Prop :=
  stable w w' ∧
  match r with
  | inl x => x ≠ NULL ∧ ∃ L', gone L L' x ∧ inv U L' (Some i) J w'
  | inr reason => (reason = EXCHANGE_FULL ∨ reason = EXCHANGE_EMPTY) ∧ inv U L None J w'
  end.

Lemma exchange_select_deque U L i J w w1 :
  inv U L None J w1 → stable w w1 →
  wp (depth ← gets (λ w, q_depth (w_queue w (Norm i)));
      if LLAM_NORM_QUEUE_CAP <=? depth then mret (inr EXCHANGE_FULL)
      else next ← on_deque i llam_cldeque_pop_bottom;
           if next =? NULL then mret (inr EXCHANGE_EMPTY) else mret (inl next)) (selection U L i J w) w1.
Proof.
  intros Hi Hs. apply wp_bind, wp_gets. destruct (_ <=? _); [apply wp_ret; split; auto|].
  step (by apply deque_pop_inv). intros x w2 (Hs2 & [(-> & Ed & Hi2)|(l & Hn & Ed & Hi2)]).
  - cbn [Z.eqb]. apply wp_ret. split; [by chain|auto].
  - rewrite (proj2 (Z.eqb_neq _ _) Hn). apply wp_ret. split; [by chain|]. split; [done|].
    eexists. split; [|done]. by eapply gone_last; [apply Hi|..].
Qed.

Lemma exchange_select_inv U L i prefer J w :
  inv U L None J w → wp (exchange_select i prefer) (selection U L i J w) w.
Proof.
  intros Hi. unfold exchange_select. destruct prefer.
  { apply wp_bind, wp_ret. by apply exchange_select_deque. }
  step (by apply (pop_norm_inv U L i false)). intros x w1 (l & Hx & Hs1 & Hi1). unfold debt in Hi1.
  destruct (Z.eqb_spec x NULL) as [->|Hn]; cbn [negb].
  - apply exchange_select_deque; [|done]. destruct Hx as [(_ & -> & _)|(l1 & l2 & _ & _ & ? & _)]; [|done].
    rewrite decide_True in Hi1 by done. by eapply inv_same.
  - rewrite decide_False in Hi1 by done. apply wp_ret. split; [done|]. split; [done|].
    eexists. split; [|done]. eapply pops_gone; [apply Hi|done].
Qed.

(** The task that yields takes the place of the one that runs next. *)
Definition exchanged (U : list Z) (L : lane → list Z) (J : list nat) (current : Z) (w : run_world)
    (r : llam_yield_exchange_result * Z) (w' : run_world) : Prop :=
  stable w w' ∧ ∃ L', inv U L' None J w' ∧
  match r.1 with
  | EXCHANGE_SELECTED => r.2 ≠ NULL ∧ ∃ L1, gone L L1 r.2 ∧ come L1 L' current
  | EXCHANGE_SELF => False
  | _ => r.2 = NULL ∧ moved L L'
  end.

Lemma exchange_finish_inv U L i current prefer selected J w w1 :
  selection U L i J w selected w1 → current ∈ U → ¬ here L current →
  wp (exchange_finish i current prefer selected) (exchanged U L J current w) w1.
Proof.
  intros [Hs Hr] Hx Hf. destruct selected as [next|reason]; cbn [exchange_finish].
  2:{ destruct Hr as [Hr Hi]. apply wp_ret. split; [done|]. exists L. by destruct Hr as [-> | ->]. }
  destruct Hr as (Hn & L1 & Hg & Hi). apply wp_bind.
  eapply (wp_calm_last (if prefer then _ else _)); [destruct prefer; calm_tac|]. intros _ w2 Hq2. keep.
  assert (Hne : next ≠ current).
  { intros ->. apply gone_some in Hg as [Hh _]; done. }
  rewrite (proj2 (Z.eqb_neq _ _) Hne).
  step (eapply (push_inv U L1 (Norm i) current (Some i) J None J); [done..| |done]).
  { intros Hh. apply gone_some in Hg as [_ Hg]; [|done]. apply Hf. by apply Hg. }
  intros _ w3 [Hi3 Hs3]. pass. intros _ w4 Hq4. keep. apply wp_ret. split; [by chain|].
  exists (enter (Norm i) current L1). split; [done|]. split; [done|]. exists L1. split; [done|apply come_enter].
Qed.

Lemma exchange_yield_inv U L i current J w :
  inv U L None J w → current ∈ U → ¬ here L current →
  wp (llam_norm_queue_exchange_yield_unlocked i current) (exchanged U L J current w) w.
Proof.
  intros Hi Hx Hf. unfold llam_norm_queue_exchange_yield_unlocked. pass. intros [|] w1 Hq1; keep; cbn [negb].
  2:{ apply wp_ret. split; [done|]. by exists L. }
  apply wp_bind, wp_gets.
  assert (Hsel : ∀ prefer w2, inv U L None J w2 → stable w w2 →
    wp (selected ← exchange_select i prefer; exchange_finish i current prefer selected)
      (exchanged U L J current w) w2).
  { intros prefer w2 Hi2 Hs2. step (by apply exchange_select_inv). intros r w3 [Hs3 Hr].
    eapply exchange_finish_inv; [|done..]. split; [by chain|done]. }
  destruct (_ <=? _).
  - step (by apply deque_has_work_inv). intros b w2 [Hs2 Hi2]. apply Hsel; [done|by chain].
  - apply wp_bind, wp_ret. by apply Hsel.
Qed.

(** ** Stealing from a deque *)

Lemma norm_steal_inv U L v J w :
  inv U L None J w →
  wp (llam_norm_queue_steal v) (λ x w', ∃ L', inv U L' None J w' ∧ stable w w' ∧ gone L L' x) w.
Proof.
  intros Hi. unfold llam_norm_queue_steal. apply wp_bind, wp_gets.
  destruct (r_lockfree (w_runtime w)); cbn [negb].
  2:{ apply wp_ret. exists L. split_and!; [done..|by apply gone_null]. }
  step (by apply deque_steal_inv). intros x w1 (Hs1 & [(-> & Ed & Hi1)|(l & Hn & Ed & Hi1)]).
  - apply wp_bind, wp_gets. cbn [Z.eqb negb andb]. last (by apply (dequeued_inv U L v NULL)).
    intros y w2 (-> & Hi2 & Hs2). exists L. split_and!; [done|by chain|by apply gone_null].
  - assert (Hg : gone L (<[Deque v := l]> L) x) by (by eapply (gone_cut U L (Deque v) x []); [apply Hi|..]).
    apply wp_bind, wp_gets. rewrite (proj2 (Z.eqb_neq _ _) Hn). cbn [negb andb].
    destruct (available w1 x); cbn [negb].
    + assert (Hd : debt v x = Some v) by (unfold debt; by rewrite decide_False).
      last (apply dequeued_inv; by rewrite Hd). intros y w2 (-> & Hi2 & Hs2).
      eexists. split_and!; [done|by chain|done].
    + step (eapply (push_inv U _ (Norm v) x (Some v) J None J); [done|done| | |done]).
      { by eapply gone_univ; [apply Hi|..]. } { by eapply gone_free. }
      intros _ w2 [Hi2 Hs2]. apply wp_ret. eexists. split_and!; [done|by chain|].
      apply gone_null. eapply gone_come; [done|done|apply come_enter].
Qed.

(** ** Inject work *)

Lemma push_inject_inv U L t x N J w :
  inv U L N J w → x ∈ U → ¬ here L x →
  wp (llam_queue_push_bounded_locked t (Inject t) LLAM_INJECT_QUEUE_CAP x None) (λ b w', stable w w' ∧
    inv U (enter (if b then Inject t else Overflow) x L) N J w') w.
Proof.
  intros Hi Hx Hf. unfold llam_queue_push_bounded_locked. rewrite !bool_decide_false by done. cbn [orb].
  apply wp_bind, wp_ret. cbn [negb]. step (eapply (commit_bounded_inv U L t (Inject t) _ x N N J); auto).
  intros r w1 [Hs Hr]. apply wp_ret. split; [done|].
  destruct (_ <? _); destruct Hr as [-> Hi1]; [by rewrite bool_decide_true|by rewrite bool_decide_false].
Qed.

(** The lanes after some transfers out of the inject queue of [i]: nothing is
    lost, and [n] tasks left the queue. *)
Definition drained (U : list Z) (i : nat) (J : list nat) (L : lane → list Z) (w : run_world) (n : nat)
    (L' : lane → list Z) (w' : run_world) : Prop :=
  inv U L' None J w' ∧ stable w w' ∧ moved L L' ∧ length (L (Inject i)) = (n + length (L' (Inject i)))%nat.

Lemma drain_one_inv U L i access pressure J w :
  inv U L None J w → i ∈ J →
  wp (drain_one i access pressure) (λ b w',
    if b then ∃ L', drained U i J L w 1 L' w'
    else inv U L None J w' ∧ stable w w' ∧
      (steady w → owner_mode access = true → Forall (λ x, available w x = false) (L (Inject i)))) w.
Proof.
  intros Hi HJ. unfold drain_one, validate_owner_mutation, ask_valid.
  apply wp_bind, wp_bind, wp_bind, wp_gets, wp_bind, wp_modify, wp_ret, wp_ret.
  pose proof (quiet_tick w) as Hq. assert (Hi0 := quiet_inv _ _ _ _ _ _ Hq Hi). apply qt_stable in Hq.
  destruct (e_valid (w_env w) (e_now (w_env w)) && owner_mode access) eqn:Ev; cbn [negb].
  2:{ apply wp_ret. split_and!; [done..|]. intros Hs Ho. rewrite Hs, Ho in Ev. discriminate Ev. }
  step (by apply (pop_inject_inv U L i false)). intros x w1 (l & Hx & Hs1 & Hi1).
  destruct (Z.eqb_spec x NULL) as [->|Hn].
  { destruct (pops_null_same _ _ _ _ Hx) as [-> Hb]. apply wp_ret. split_and!; [by eapply inv_same|by chain|].
    intros _ _. eapply Forall_impl; [exact Hb|]. intros y Hy. rewrite <- Hy. symmetry. by apply stable_available. }
  assert (Hg := pops_gone U L (Inject i) _ _ _ _ ltac:(apply Hi) Hx).
  set (L1 := <[Inject i := l]> L) in *. assert (Hlen : length (L (Inject i)) = S (length (L1 (Inject i)))).
  { unfold L1. rewrite fn_lookup_insert. pose proof (pops_len _ _ _ _ _ _ Hx) as E.
    rewrite decide_False in E by done. lia. }
  assert (Hx1 : x ∈ U) by (by eapply gone_univ; [apply Hi|..]). assert (Hf : ¬ here L1 x) by by eapply gone_free.
  assert (Hdone : ∀ q w', stable w w' → q ≠ Inject i → inv U (enter q x L1) None J w' →
    ∃ L', drained U i J L w 1 L' w').
  { intros q w' Hs Hq' Hi'. exists (enter q x L1). split_and!; [done..| |].
    - eapply gone_come; [done|done|apply come_enter].
    - unfold enter. by rewrite fn_lookup_insert_ne. }
  apply wp_bind, wp_gets, wp_bind, wp_gets. pass. intros _ w2 Hq2. keep. apply wp_bind.
  destruct (llam_should_enqueue_hot_locked _ _ _ _ _).
  - step (eapply (commit_bounded_inv U L1 i (Hot i) _ x None None J); auto).
    intros r w3 [Hs3 Hr]. destruct (_ <? _); destruct Hr as [-> Hi3]; apply wp_bind.
    + rewrite bool_decide_true by done. pass last. intros _ w4 Hq4. keep. apply wp_ret.
      rewrite bool_decide_false by done. apply wp_ret. eapply (Hdone (Hot i)); [by chain|done|done].
    + rewrite bool_decide_false by done. apply wp_ret, wp_ret.
      rewrite bool_decide_false by done. apply wp_ret. eapply (Hdone Overflow); [by chain|done|done].
  - last (by apply commit_owner_inv). intros r w3 [Hs3 (q & Hland & Hi3)].
    assert (r ≠ COMMIT_REJECTED ∧ q ≠ Inject i) as [Hr Hq'] by (destruct Hland as [[[-> | ->] ->]|[-> ->]]; done).
    rewrite bool_decide_false by done. apply wp_ret. eapply (Hdone q); [by chain|done|done].
Qed.

Lemma drained_trans U i J L w n L1 w1 m L2 w2 :
  drained U i J L w n L1 w1 → drained U i J L1 w1 m L2 w2 → drained U i J L w (n + m) L2 w2.
Proof.
  intros (H1 & H2 & H3 & H4) (K1 & K2 & K3 & K4). split_and!; [done|by chain|by etrans|lia].
Qed.

(** The loop stops at its budget, or when nothing available is left. *)
Lemma drain_loop_inv U i access pressure J k L w :
  inv U L None J w → i ∈ J →
  wp (loop k (drain_one i access pressure)) (λ _ w', ∃ n L', drained U i J L w n L' w' ∧ (n <= k)%nat ∧
    (steady w → owner_mode access = true →
      n = k ∨ Forall (λ x, available w' x = false) (L' (Inject i)))) w.
Proof.
  revert L w. induction k as [|k IH]; intros L w Hi HJ; cbn [loop].
  { apply wp_ret. exists 0%nat, L. split_and!; [by split_and!|lia|by left]. }
  step (by apply drain_one_inv). intros [|] w1.
  - intros (L1 & Hd). last (by apply IH; [apply Hd|]). intros _ w2 (n & L2 & Hd2 & Hn & Hs2).
    exists (S n), L2. split_and!; [by eapply (drained_trans _ _ _ _ _ 1)|lia|].
    intros Hs Ho. destruct Hs2 as [-> | Hb]; [|done|by left|by right].
    eapply steady_stable; [apply Hd|done].
  - intros (Hi1 & Hs1 & Hb). apply wp_ret. exists 0%nat, L. split_and!; [by split_and!|lia|].
    intros Hs Ho. right. eapply Forall_impl; [by apply Hb|]. intros y Hy. rewrite <- Hy. by apply stable_available.
Qed.

Lemma inv_stale U L N J J' w : (∀ i, i ∈ J → i ∈ J') → inv U L N J w → inv U L N J' w.
Proof. intros HJ [Hp Hb]. split; [done|]. by eapply books_stale. Qed.

(** The count of the inject queue is written back. *)
Lemma store_inject_inv U L i J w :
  inv U L None (i :: J) w →
  wp (depth ← gets (λ w, q_depth (w_queue w (Inject i))); modify (on_shard i (set_inject_depth depth)))
    (λ _ w', inv U L None J w' ∧ stable w w') w.
Proof.
  intros [Hp Hb]. apply wp_bind, wp_gets, wp_modify. rewrite (phys_depth _ _ _ _ Hp) by done.
  split; [|apply stable_on_shard]. split; [apply phys_on_shard; [by intros []|done]|].
  by eapply books_inject_depth.
Qed.

(** A drain transfers tasks out of the inject queue without losing any; a
    granted one ends at its budget or with no available task left behind. *)
Lemma drain_inv U L i J w :
  inv U L None J w → i ∉ J →
  wp (llam_drain_inject_queue i) (λ _ w', ∃ n L', drained U i J L w n L' w' ∧
    (n <= LLAM_INJECT_DRAIN_BUDGET)%nat ∧
    (steady w → (∃ m, e_access (w_env w) (e_now (w_env w)) = Some m ∧ owner_mode m = true) →
      n = LLAM_INJECT_DRAIN_BUDGET ∨ Forall (λ x, available w' x = false) (L' (Inject i)))) w.
Proof.
  intros Hi HJ. unfold llam_drain_inject_queue. apply wp_bind, wp_gets.
  assert (Hidle : ∀ w', inv U L None J w' → stable w w' →
    (steady w → (∃ m, e_access (w_env w) (e_now (w_env w)) = Some m ∧ owner_mode m = true) → L (Inject i) = []) →
    ∃ n L', drained U i J L w n L' w' ∧ (n <= LLAM_INJECT_DRAIN_BUDGET)%nat ∧
    (steady w → (∃ m, e_access (w_env w) (e_now (w_env w)) = Some m ∧ owner_mode m = true) →
      n = LLAM_INJECT_DRAIN_BUDGET ∨ Forall (λ x, available w' x = false) (L' (Inject i)))).
  { intros w' Hi' Hs' He. exists 0%nat, L. split_and!; [by split_and!|unfold LLAM_INJECT_DRAIN_BUDGET; lia|].
    intros Hs Ha. right. by rewrite (He Hs Ha). }
  rewrite (bk_inject _ _ _ _ (proj2 Hi) i HJ).
  destruct (Z.eqb_spec (Z.of_nat (length (L (Inject i)))) 0) as [E|E].
  { apply wp_ret. apply Hidle; [done..|]. intros _ _. by apply length_zero_iff_nil; lia. }
  apply wp_bind, wp_gets. unfold ask_access. apply wp_bind, wp_bind, wp_gets, wp_bind, wp_modify, wp_ret.
  pose proof (quiet_tick w) as Hq. assert (Hi0 := quiet_inv _ _ _ _ _ _ Hq Hi). apply qt_stable in Hq.
  destruct (e_access (w_env w) (e_now (w_env w))) as [m|] eqn:Ea.
  2:{ apply wp_ret. apply Hidle; [done..|]. by intros _ (m & ? & _). }
  apply wp_bind, wp_gets. rewrite (phys_depth _ _ _ _ (proj1 Hi0)) by done.
  rewrite (proj2 (Z.eqb_neq _ _) E).
  step (apply (drain_loop_inv U i m _ (i :: J)); [by eapply inv_stale; [|done]; set_solver|by left]).
  intros _ w1 (n & L1 & (Hi1 & Hs1 & Hm1 & Hl1) & Hn & He). last (by apply store_inject_inv).
  intros _ w2 [Hi2 Hs2]. exists n, L1. split_and!; [split_and!; [done|by chain|done..]|done|].
  intros Hs (m' & [= <-] & Ho). destruct He as [He|He]; [by eapply steady_stable|done|by left|right].
  eapply Forall_impl; [exact He|]. intros y Hy. rewrite <- Hy. by apply stable_available.
Qed.

(** ** Redirection of a blocked shard *)

(** Where redirected work goes: another shard's inject queue, or overflow. *)
Definition elsewhere (i : nat) (q : lane) : Prop := q = Overflow ∨ ∃ t, q = Inject t ∧ t ≠ i.

(** The lanes of shard [i]. *)
Definition own (i : nat) (q : lane) : Prop := q = Inject i ∨ q = Hot i ∨ q = Norm i ∨ q = Deque i.

Lemma enter_own i q q' x L : elsewhere i q → own i q' → enter q x L q' = L q'.
Proof.
  intros Hq Hq'. unfold enter. rewrite fn_lookup_insert_ne; [done|].
  destruct Hq as [-> |(t & -> & Ht)], Hq' as [-> |[-> |[-> | ->]]]; congruence.
Qed.

Lemma enqueue_redirect_inv U L i x hot J w :
  inv U L None J w → x ∈ U → ¬ here L x →
  wp (llam_enqueue_opaque_redirect_task_locked i x hot) (λ b w', stable w w' ∧
    if b then ∃ q, elsewhere i q ∧ inv U (enter q x L) None J w' else inv U L None J w') w.
Proof.
  intros Hi Hx Hf. unfold llam_enqueue_opaque_redirect_task_locked. apply wp_bind, wp_gets, wp_bind, wp_gets.
  destruct (_ || _) eqn:Et; [by apply wp_ret|]. apply orb_false_iff in Et as [_ Et%N.eqb_neq].
  set (t := N.to_nat _). apply wp_bind, wp_gets. destruct (llam_shard_accepts_new_work w t); cbn [negb]; [|by apply wp_ret].
  pass. intros [|] w1 Hq1; keep; cbn [negb]; [|by apply wp_ret]. apply wp_bind, wp_gets.
  destruct (s_redirect_active (w_shard w1 t)); [by apply wp_ret|]. pass. intros _ w2 Hq2. keep.
  step (by apply push_inject_inv). intros b w3 [Hs3 Hi3].
  eapply wp_pass; [destruct b; calm_tac|]. intros _ w4 Hq4. keep.
  eapply wp_pass; [destruct b; calm_tac|]. intros _ w5 Hq5. keep. apply wp_ret. split; [by chain|].
  exists (if b then Inject t else Overflow). split; [|done]. destruct b; [right|by left]. exists t. split; [done|].
  intros E. apply Et. apply (f_equal N.of_nat) in E. unfold t in E. by rewrite N2Nat.id in E.
Qed.

(** The queues a redirection empties. *)
Definition source (i : nat) (J : list nat) (q : lane) : Prop := q = Hot i ∨ q = Inject i ∧ i ∈ J.

Lemma source_own i J q : source i J q → own i q.
Proof. unfold own. intros [-> |[-> _]]; auto. Qed.

Lemma pop_source_inv U L i q J w :
  inv U L None J w → source i J q →
  wp (llam_queue_pop_head q) (λ x w', ∃ l, pops w false (L q) x l ∧ stable w w' ∧
    inv U (<[q := l]> L) None J w') w.
Proof.
  intros Hi [-> |[-> HJ]]; [by apply (pop_hot_inv U L i false)|by apply (pop_inject_inv U L i false)].
Qed.

(** One task has left the lane(s) measured by [m] for another shard. *)
Definition sent (U : list Z) (i : nat) (J : list nat) (skip : lane → Prop) (m : (lane → list Z) → Z)
    (L : lane → list Z) (w : run_world) (k : Z) (L' : lane → list Z) (w' : run_world) : Prop :=
  inv U L' None J w' ∧ stable w w' ∧ moved L L' ∧ m L = m L' + k ∧
  ∀ q, own i q → ¬ skip q → L' q = L q.

Lemma sent_trans U i J skip m L w k L1 w1 k' L2 w2 :
  sent U i J skip m L w k L1 w1 → sent U i J skip m L1 w1 k' L2 w2 →
  sent U i J skip m L w (k + k') L2 w2.
Proof.
  intros (H1 & H2 & H3 & H4 & H5) (K1 & K2 & K3 & K4 & K5).
  split_and!; [done|by chain|by etrans|lia|]. intros q Hq Hs. by rewrite K5, H5.
Qed.

(** The end of a redirection: to another shard, or to overflow. *)
Lemma redirect_or_overflow U L1 i x hot J w (clear : R unit) :
  inv U L1 None J w → x ∈ U → ¬ here L1 x → calm clear →
  wp (ok ← llam_enqueue_opaque_redirect_task_locked i x hot;
      (if negb ok then clear ;; llam_enqueue_overflow_task x else mret tt) ;; mret true)
    (λ b w', b = true ∧ stable w w' ∧ ∃ q, elsewhere i q ∧ inv U (enter q x L1) None J w') w.
Proof.
  intros Hi Hx Hf Hc. step (by apply enqueue_redirect_inv). intros [|] w1 [Hs1 Hr]; cbn [negb]; apply wp_bind.
  - apply wp_ret, wp_ret. destruct Hr as (q & Hq & Hi1). split_and!; [done..|]. by exists q.
  - eapply wp_pass; [done|]. intros _ w2 Hq2. keep. last (by apply enqueue_overflow_inv).
    intros _ w3 [Hi3 Hs3]. apply wp_ret. split_and!; [done|by chain|]. exists Overflow. split; [by left|done].
Qed.

Lemma flush_one_inv U L i q force_hot J w :
  inv U L None J w → source i J q →
  let m (L : lane → list Z) := Z.of_nat (length (L q)) in
  wp (flush_one i q force_hot) (λ b w', ∃ L',
    if b then sent U i J (eq q) m L w 1 L' w'
    else sent U i J (eq q) m L w 0 L' w' ∧ Forall (λ y, available w y = false) (L' q)) w.
Proof.
  intros Hi Hq m. unfold flush_one. step (by apply (pop_source_inv U L i)). intros x w1 (l & Hx & Hs1 & Hi1).
  destruct (Z.eqb_spec x NULL) as [->|Hn].
  { destruct (pops_null_same _ _ _ _ Hx) as [-> Hb]. apply wp_ret. exists L. split; [|done].
    split_and!; [by eapply inv_same|done|done|unfold m; lia|done]. }
  assert (Hg := pops_gone U L q _ _ _ _ ltac:(apply Hi) Hx). apply wp_bind, wp_gets.
  pass. intros _ w2 Hq2. keep.
  last (apply redirect_or_overflow; [done| | |calm_tac]).
  { by eapply gone_univ; [apply Hi|..]. } { by eapply gone_free. }
  intros b w3 (-> & Hs3 & q' & Hq' & Hi3). eexists. split_and!; [done|by chain|..].
  - eapply gone_come; [done|done|apply come_enter].
  - pose proof (pops_len _ _ _ _ _ _ Hx) as E. rewrite decide_False in E by done. unfold m.
    rewrite (enter_own i), fn_lookup_insert by (done || by eapply source_own). lia.
  - intros q2 Ho Hne. rewrite (enter_own i), fn_lookup_insert_ne by done. done.
Qed.

(** A loop whose every round but the last sends one task away empties what [m]
    measures, when the last round finds nothing that may leave. *)
Lemma flush_loop_inv U i J skip (m : (lane → list Z) → Z) (body : R bool) (stop : run_world → (lane → list Z) → Prop) :
  (∀ L w, inv U L None J w → wp body (λ b w',
     ∃ L', if b then sent U i J skip m L w 1 L' w' else sent U i J skip m L w 0 L' w' ∧ stop w L') w) →
  (∀ L, 0 <= m L) →
  ∀ k L w, inv U L None J w → m L < Z.of_nat k →
  wp (loop k body) (λ _ w', ∃ n L' w1, sent U i J skip m L w n L' w' ∧ stable w w1 ∧ stop w1 L') w.
Proof.
  intros Hbody Hm k. induction k as [|k IH]; intros L w Hi Hk; cbn [loop]; [pose proof (Hm L); lia|].
  step (by apply Hbody). intros [|] w1 (L1 & Hs).
  - pose proof Hs as (Hi1 & Hs1 & _ & Hl & _).
    last (apply IH; [done|lia]). intros _ w2 (n & L2 & w3 & Hs2 & Hs3 & Hstop).
    exists (1 + n), L2, w3. split_and!; [by eapply sent_trans|by chain|done].
  - destruct Hs as [Hs Hstop]. apply wp_ret. by exists 0, L1, w.
Qed.

(** In the lease mode that redirects no task is reserved: all are available. *)
Definition unreserved (U : list Z) (w : run_world) : Prop := ∀ x, x ∈ U → available w x = true.

Lemma unreserved_stable U w w' : stable w w' → unreserved U w → unreserved U w'.
Proof. intros Hs Hu x Hx. rewrite (stable_available w w') by done. auto. Qed.

Lemma unreserved_busy U L q w :
  placed U L → unreserved U w → Forall (λ y, available w y = false) (L q) → L q = [].
Proof.
  intros Hp Hu Hb. destruct (L q) as [|y l] eqn:E; [done|]. apply Forall_cons in Hb as [Hy _].
  rewrite Hu in Hy; [done|]. apply (pl_univ _ _ Hp q). rewrite E. by left.
Qed.

Lemma flush_queue_inv U L i q force_hot w :
  inv U L None [] w → unreserved U w → q = Hot i ∨ q = Inject i →
  wp (llam_flush_queue_to_redirect_locked i q force_hot) (λ _ w', ∃ L', inv U L' None [] w' ∧
    stable w w' ∧ moved L L' ∧ L' q = [] ∧ ∀ q', own i q' → q ≠ q' → L' q' = L q') w.
Proof.
  intros Hi Hu Hq. unfold llam_flush_queue_to_redirect_locked. apply wp_bind, wp_gets.
  assert (Hd : is_deque q = false) by by destruct Hq as [-> | ->].
  rewrite (phys_depth _ _ _ _ (proj1 Hi) Hd), Nat2Z.id.
  set (J := if bool_decide (q = Inject i) then [i] else []).
  assert (Hsrc : source i J q).
  { unfold J. destruct Hq as [-> | ->]; [by left|right]. rewrite bool_decide_true by done. split; [done|by left]. }
  assert (HiJ : inv U L None J w) by (eapply inv_stale; [|exact Hi]; set_solver).
  step (eapply (flush_loop_inv U i J (eq q) (λ L, Z.of_nat (length (L q)))
    _ (λ w L, Forall (λ y, available w y = false) (L q))); [|intros; lia|exact HiJ|lia]).
  { intros L0 w0 Hi0. by apply flush_one_inv. }
  intros _ w1 (n & L1 & w2 & (Hi1 & Hs1 & Hm & _ & Ho) & Hs2 & Hb).
  assert (He : L1 q = []).
  { eapply unreserved_busy; [apply Hi1|by eapply unreserved_stable|done]. }
  unfold J in Hi1. case_bool_decide as Ei.
  - apply wp_modify. exists L1. destruct Hi1 as [Hp1 Hb1]. split_and!; [split|by etrans; [|apply stable_on_shard]|done..].
    + apply phys_on_shard; [by intros []|done].
    + eapply books_inject_depth; [done|]. subst q. by rewrite He.
  - apply wp_ret. exists L1. done.
Qed.

Lemma flush_norm_one_inv U L i access w :
  inv U L None [] w →
  let skip q := q = Norm i ∨ q = Deque i in
  wp (flush_norm_one i access) (λ b w', ∃ L',
    if b then sent U i [] skip (λ L, norm_len L i) L w 1 L' w'
    else sent U i [] skip (λ L, norm_len L i) L w 0 L' w' ∧
      (steady w → unreserved U w → L' (Norm i) = [] ∧ (r_lockfree (w_runtime w) = true → L' (Deque i) = []))) w.
Proof.
  intros Hi skip. unfold flush_norm_one. step (by apply (pop_owner_locked_inv U L)).
  intros x w1 [(L1 & [Hi1 Hs1 Hg Hw Hl _ He _])|(-> & Hq & Hns)].
  2:{ cbn [Z.eqb]. apply wp_ret. exists L. keep. split; [split_and!; [done..|lia|done]|]. by intros ?. }
  assert (Hown : ∀ q, own i q → ¬ skip q → L1 q = L q).
  { intros q _ Hs. apply Hw; intros ->; apply Hs; unfold skip; auto. }
  destruct (Z.eqb_spec x NULL) as [->|Hn].
  { rewrite decide_True in Hl by done. apply wp_ret. exists L1. split; [split_and!; try done; by apply gone_null|].
    intros _ Hu. apply He; [done|]. intros y [q Hy]. apply Hu. by eapply (pl_univ U L); [apply Hi|]. }
  rewrite decide_False in Hl by done.
  pass. intros _ w2 Hq2. keep. pass. intros _ w3 Hq3. keep.
  assert (Hr := redirect_or_overflow U L1 i x false [] w3 (mret tt)).
  last (apply Hr; [done| | |calm_tac]).
  { by eapply gone_univ; [apply Hi|..]. } { by eapply gone_free. }
  intros b w4 (-> & Hs4 & q' & Hq' & Hi4). exists (enter q' x L1). split_and!; [done|by chain|..].
  - eapply gone_come; [done|done|apply come_enter].
  - unfold norm_len in *. rewrite !(enter_own i) by (done || unfold own; auto). lia.
  - intros q Ho Hne. rewrite (enter_own i) by done. auto.
Qed.

(** Redirection moves tasks without losing any; a granted one leaves the lanes
    of the blocked shard empty. *)
Definition evacuated (i : nat) (w : run_world) (L : lane → list Z) : Prop :=
  L (Inject i) = [] ∧ L (Hot i) = [] ∧ L (Norm i) = [] ∧
  (r_lockfree (w_runtime w) = true → L (Deque i) = []).

Lemma flush_norm_inv U L i access w :
  inv U L None [] w → unreserved U w →
  wp (depth ← gets (λ w, s_norm_depth (w_shard w i)); loop (S (Z.to_nat depth)) (flush_norm_one i access))
    (λ _ w', ∃ L', inv U L' None [] w' ∧ stable w w' ∧ moved L L' ∧
      L' (Inject i) = L (Inject i) ∧ L' (Hot i) = L (Hot i) ∧
      (steady w → L' (Norm i) = [] ∧ (r_lockfree (w_runtime w) = true → L' (Deque i) = []))) w.
Proof.
  intros Hi Hu. apply wp_bind, wp_gets. rewrite (bk_norm _ _ _ _ (proj2 Hi) i), extra_none.
  last (eapply (flush_loop_inv U i [] (λ q, q = Norm i ∨ q = Deque i) (λ L, norm_len L i) _
    (λ w L, steady w → unreserved U w → L (Norm i) = [] ∧ (r_lockfree (w_runtime w) = true → L (Deque i) = [])));
    [|intros; unfold norm_len; lia|exact Hi|unfold norm_len; lia]).
  { intros L0 w0 Hi0. by apply flush_norm_one_inv. }
  intros _ w1 (n & L1 & w2 & (Hi1 & Hs1 & Hm & _ & Ho) & Hs2 & Hb). exists L1.
  split_and!; [done|done|done|apply Ho; [by left|naive_solver]|apply Ho; [right; by left|naive_solver]|].
  intros Hs. rewrite <- (stable_lockfree w w2) by done.
  apply Hb; [by eapply steady_stable|by eapply unreserved_stable].
Qed.

Lemma activate_inv U L i access w :
  inv U L None [] w → unreserved U w →
  wp (llam_activate_opaque_redirect_locked i access) (λ _ w', ∃ L', inv U L' None [] w' ∧
    stable w w' ∧ moved L L' ∧
    (steady w → owner_mode access = false → s_redirect_active (w_shard w i) = false → evacuated i w L')) w.
Proof.
  intros Hi Hu. unfold llam_activate_opaque_redirect_locked, ask_valid.
  apply wp_bind, wp_bind, wp_gets, wp_bind, wp_modify, wp_ret. pose proof (quiet_tick w) as Hq.
  assert (Es : w_shard (tick w) = w_shard w) by (destruct w as [????????[]]; done).
  destruct (negb _ || _) eqn:Ev.
  { apply wp_ret. exists L. keep. split_and!; [done..|]. intros Hs Ho. by rewrite Hs, Ho in Ev. }
  apply wp_bind, wp_gets. rewrite Es. destruct (s_redirect_active (w_shard w i)).
  { apply wp_ret. exists L. keep. split_and!; done. }
  keep. apply wp_bind, wp_gets. pass. intros _ w1 Hq1. keep. assert (Hs1 : stable w w1) by by chain.
  step (apply (flush_queue_inv U L i (Inject i) false); [done|by eapply unreserved_stable|by right]).
  intros _ w2 (L2 & Hi2 & Hs2 & Hm2 & E2 & Ho2). assert (Hs12 : stable w w2) by by chain.
  step (apply (flush_queue_inv U L2 i (Hot i) true); [done|by eapply unreserved_stable|by left]).
  intros _ w3 (L3 & Hi3 & Hs3 & Hm3 & E3 & Ho3). assert (Hs13 : stable w w3) by (by etrans).
  last (apply (flush_norm_inv U L3 i access); [done|by eapply unreserved_stable]).
  intros _ w4 (L4 & Hi4 & Hs4 & Hm4 & E4 & E5 & He4). exists L4.
  split_and!; [done|by etrans|etrans; [done|]; by etrans|]. intros Hs _ _.
  destruct He4 as [En Ed]; [by eapply steady_stable|]. rewrite (stable_lockfree w w3) in Ed by done.
  split_and!; [|by rewrite E5|done|done]. rewrite E4, Ho3; [done|by left|done].
Qed.

(** ** Selection of the next task *)

Lemma take_local_inv U L i pressure J w :
  inv U L None J w →
  wp (llam_take_local_task_with_pressure i pressure) (λ x w', ∃ L', inv U L' None J w' ∧ stable w w' ∧
    gone L L' x) w.
Proof.
  intros Hi. unfold llam_take_local_task_with_pressure.
  assert (Hno : ∀ w', inv U L None J w' → stable w w' →
    ∃ L', inv U L' None J w' ∧ stable w w' ∧ gone L L' NULL).
  { intros w' Hi' Hs. exists L. split_and!; [done..|by apply gone_null]. }
  pass. intros [m|] w1 Hq1; keep; [|by apply wp_ret, Hno].
  pass. intros [|] w2 Hq2; keep; cbn [negb]; [|apply wp_ret, Hno; [done|by chain]].
  assert (Hs2 : stable w w2) by by chain. apply wp_bind, wp_gets, wp_bind, wp_gets, wp_bind, wp_gets. apply wp_bind.
  eapply (wp_mono _ (λ x w', ∃ L', inv U L' None J w' ∧ stable w w' ∧ gone L L' x)).
  { destruct (negb _ || _).
    - pass. intros _ w3 Hq3. keep. last (by apply (pop_owner_locked_gone U L)).
      intros x w4 (L' & Hi4 & Hs4 & Hg). exists L'. split_and!; [done|by chain|done].
    - pass. intros _ w3 Hq3. keep. last (by apply (pop_hot_inv U L i false)).
      intros x w4 (l & Hx & Hs4 & Hi4). eexists. split_and!; [done|by chain|]. eapply pops_gone; [apply Hi|done]. }
  intros x w3 (L3 & Hi3 & Hs3 & Hg3). apply wp_bind, wp_gets.
  destruct (Z.eqb_spec x NULL) as [->|Hn]; cbn [andb]; [|apply wp_ret; by exists L3].
  apply (proj1 (gone_null _ _)) in Hg3. destruct (r_registered (w_runtime w3)).
  2:{ apply wp_ret. exists L3. split_and!; [done..|by apply gone_null]. }
  step (by apply (pop_owner_locked_gone U L3)). intros x w4 (L4 & Hi4 & Hs4 & Hg4).
  destruct (Z.eqb_spec x NULL) as [->|Hn].
  - apply (proj1 (gone_null _ _)) in Hg4. last (by apply (pop_hot_inv U L4 i false)). intros y w5 (l & Hy & Hs5 & Hi5).
    eexists. split_and!; [done|by chain|]. eapply moved_gone; [by etrans|]. eapply pops_gone; [apply Hi4|done].
  - apply wp_ret. exists L4. split_and!; [done|by chain|]. by eapply moved_gone.
Qed.

(** ** Work stealing *)

(** The answers to validations do not change while an operation runs: no stop
    is requested between two of them. *)
Definition uniform (w : run_world) : Prop := ∃ b, ∀ n, e_valid (w_env w) n = b.

Lemma uniform_stable w w' : stable w w' → uniform w → uniform w'.
Proof. intros Hs [b H]. exists b. intros n. by rewrite (sb_valid _ _ Hs). Qed.

Lemma valid_tick w : e_valid (w_env (tick w)) = e_valid (w_env w).
Proof. by destruct w as [????????[]]. Qed.

Lemma push_owner_locked_inv U L i m x J w :
  inv U L None J w → x ∈ U → ¬ here L x → steady w → owner_mode m = true →
  wp (llam_norm_queue_push_owner_locked i (Some m) x) (λ _ w', stable w w' ∧
    ∃ L', inv U L' None J w' ∧ come L L' x) w.
Proof.
  intros Hi Hx Hf Hs Ho. unfold llam_norm_queue_push_owner_locked, validate_owner_mutation, ask_valid.
  apply wp_bind, wp_bind, wp_bind, wp_gets, wp_bind, wp_modify, wp_ret, wp_ret. rewrite Hs, Ho. cbn [andb negb].
  pose proof (quiet_tick w) as Hq. assert (Hi0 := quiet_inv _ _ _ _ _ _ Hq Hi). apply qt_stable in Hq.
  step (by apply commit_owner_inv). intros r w1 [Hs1 (q & _ & Hi1)]. apply wp_ret.
  split; [by chain|]. exists (enter q x L). split; [done|apply come_enter].
Qed.

Lemma steal_settle_inv U L i x J w :
  inv U L None J w → x ∈ U → ¬ here L x → uniform w →
  wp (steal_settle i x) (λ _ w', stable w w' ∧ ∃ L', inv U L' None J w' ∧ come L L' x) w.
Proof.
  intros Hi Hx Hf [b Hb]. unfold steal_settle. pass. intros access w1 Hq1. keep.
  assert (Hinj : ∀ w2, stable w w2 → inv U L None J w2 →
    wp (queued ← llam_queue_push_bounded_locked i (Inject i) LLAM_INJECT_QUEUE_CAP x None;
        if queued : bool then modify (on_shard i count_inject) else mret tt)
      (λ _ w', stable w w' ∧ ∃ L', inv U L' None J w' ∧ come L L' x) w2).
  { intros w2 Hs2 Hi2. step (by apply push_inject_inv). intros q w3 [Hs3 Hi3].
    eapply wp_calm_last; [destruct q; calm_tac|]. intros _ w4 Hq4. keep. split; [by chain|].
    eexists. split; [done|apply come_enter]. }
  assert (Hfin : ∀ w', stable w w' ∧ (∃ L', inv U L' None J w' ∧ come L L' x) →
    wp (modify (on_shard i count_migration)) (λ _ w'', stable w w'' ∧ ∃ L', inv U L' None J w'' ∧ come L L' x) w').
  { intros w' [Hs (L' & Hi' & Hc)]. pass last. intros _ w3 Hq3. keep. split; [by chain|]. by exists L'. }
  destruct (match access with Some m => owner_mode m | None => false end) eqn:Eo.
  2:{ apply wp_bind, wp_ret, wp_bind. last (by apply Hinj). intros _ w'. apply Hfin. }
  destruct access as [m|]; [|done]. unfold ask_valid. apply wp_bind, wp_bind, wp_gets, wp_bind, wp_modify, wp_ret.
  rewrite (sb_valid _ _ Hq1), Hb. pose proof (quiet_tick w1) as Hq2. keep. destruct b; apply wp_bind.
  - step (apply (push_owner_locked_inv U L i m x J); [done..| |done]).
    { intros n. by rewrite valid_tick, (sb_valid _ _ Hq1). }
    intros _ w3 [Hs3 HL]. apply wp_ret, Hfin. split; [by chain|done].
  - last (by apply Hinj; [by chain|]). intros _ w'. apply Hfin.
Qed.

(** The task a round takes from the victim. *)
Lemma steal_take_inv U L v J w :
  inv U L None J w →
  wp (if r_lockfree (w_runtime w) then llam_norm_queue_steal v
      else task ← llam_queue_pop_tail (Norm v); dequeued v task)
    (λ x w', ∃ L', inv U L' None J w' ∧ stable w w' ∧ gone L L' x) w.
Proof.
  intros Hi. destruct (r_lockfree (w_runtime w)); [by apply norm_steal_inv|].
  step (by apply (pop_norm_inv U L v true)). intros x w1 (l & Hx & Hs1 & Hi1).
  last (by apply dequeued_inv). intros y w2 (-> & Hi2 & Hs2). eexists. split_and!; [done|by chain|].
  eapply pops_gone; [apply Hi|done].
Qed.

Lemma steal_one_inv U L i v J w :
  inv U L None J w → uniform w →
  wp (steal_one i v) (λ _ w', ∃ L', inv U L' None J w' ∧ stable w w' ∧ moved L L') w.
Proof.
  intros Hi Hu. unfold steal_one.
  apply wp_bind, wp_gets.
  step (by apply (steal_take_inv U L v J)). intros x w1 (L1 & Hi1 & Hs1 & Hg).
  destruct (Z.eqb_spec x NULL) as [->|Hn].
  { apply wp_ret. exists L1. split_and!; [done..|by apply gone_null]. }
  assert (Hx : x ∈ U) by (by eapply gone_univ; [apply Hi|..]). assert (Hf : ¬ here L1 x) by by eapply gone_free.
  assert (Hback : ∀ L2, come L1 L2 x → moved L L2) by (intros L2; by apply gone_come).
  apply wp_bind, wp_gets. destruct (negb _).
  - pass. intros _ w2 Hq2. keep. step (by apply push_inject_inv). intros b w3 [Hs3 Hi3].
    eapply wp_pass; [destruct b; calm_tac|]. intros _ w4 Hq4. keep. pass. intros _ w5 Hq5. keep.
    apply wp_ret. eexists. split_and!; [done|by chain|]. apply Hback, come_enter.
  - step (apply steal_settle_inv; [done..|by eapply uniform_stable]). intros _ w2 [Hs2 (L2 & Hi2 & Hc)].
    apply wp_ret. exists L2. split_and!; [done|by chain|auto].
Qed.

Lemma steal_loop_inv U i v J n L stolen w :
  inv U L None J w → uniform w →
  wp (steal_loop n i v stolen) (λ _ w', ∃ L', inv U L' None J w' ∧ stable w w' ∧ moved L L') w.
Proof.
  revert L stolen w. induction n as [|n IH]; intros L stolen w Hi Hu; cbn [steal_loop].
  { apply wp_ret. by exists L. }
  step (by apply steal_one_inv). intros [b|] w1 (L1 & Hi1 & Hs1 & Hm1).
  - last (by apply IH; [|by eapply uniform_stable]). intros _ w2 (L2 & Hi2 & Hs2 & Hm2).
    exists L2. split_and!; [done|by chain|by etrans].
  - apply wp_ret. by exists L1.
Qed.

Lemma steal_from_victim_inv U L i v J w :
  inv U L None J w → uniform w →
  wp (llam_steal_from_victim i v) (λ _ w', ∃ L', inv U L' None J w' ∧ stable w w' ∧ moved L L') w.
Proof.
  intros Hi Hu. unfold llam_steal_from_victim. apply wp_bind, wp_gets, wp_bind, wp_gets.
  destruct (bool_decide _ || _). { apply wp_ret. by exists L. }
  apply wp_bind, wp_gets, wp_bind, wp_gets. destruct (negb _). { apply wp_ret. by exists L. }
  apply wp_bind, wp_gets. step (by apply (steal_loop_inv U i v J _ L)). intros k w1 (L1 & Hi1 & Hs1 & Hm1).
  eapply wp_pass; [destruct (0 <? k); calm_tac|]. intros _ w2 Hq2. keep. apply wp_ret.
  exists L1. split_and!; [done|by chain|done].
Qed.

Lemma try_steal_inv U L i J w :
  inv U L None J w → uniform w →
  wp (llam_try_steal_task i) (λ x w', ∃ L', inv U L' None J w' ∧ stable w w' ∧ gone L L' x) w.
Proof.
  intros Hi Hu. unfold llam_try_steal_task. apply wp_bind, wp_gets.
  assert (Hno : ∀ L1 w1, inv U L1 None J w1 → stable w w1 → moved L L1 →
    wp (mret NULL) (λ x w', ∃ L', inv U L' None J w' ∧ stable w w' ∧ gone L L' x) w1).
  { intros L1 w1 Hi1 Hs1 Hm1. apply wp_ret. exists L1. split_and!; [done..|by apply gone_null]. }
  assert (Hbest : ∀ best other L1 w1, inv U L1 None J w1 → stable w w1 → moved L L1 →
    (∀ L2 w2, inv U L2 None J w2 → stable w w2 → moved L L2 →
      wp other (λ x w', ∃ L', inv U L' None J w' ∧ stable w w' ∧ gone L L' x) w2) →
    wp (steal_best i best other) (λ x w', ∃ L', inv U L' None J w' ∧ stable w w' ∧ gone L L' x) w1).
  { intros best other L1 w1 Hi1 Hs1 Hm1 Ho. destruct best as [v|]; cbn [steal_best]; [|by eapply Ho].
    step (by apply (steal_from_victim_inv U L1); [|by eapply uniform_stable]).
    intros k w2 (L2 & Hi2 & Hs2 & Hm2). destruct (0 <? k); [|eapply Ho; [done|by chain|by etrans]].
    unfold llam_take_local_task. apply wp_bind, wp_gets. last (by apply (take_local_inv U L2)).
    intros x w3 (L3 & Hi3 & Hs3 & Hg3). exists L3. split_and!; [done|by chain|].
    eapply moved_gone; [|done]. by etrans. }
  destruct (negb _); [by eapply Hno|]. apply wp_bind, wp_gets. eapply Hbest; [done..|].
  intros L1 w1 Hi1 Hs1 Hm1. apply wp_bind, wp_gets. eapply Hbest; [done..|]. exact Hno.
Qed.
