(* ===== verification/RunWake.v ===== *)
(** * Making tasks runnable

    The paths that publish a task to the lanes: the choice of a shard
    ([src/core/sched/core_queue.c]), wake-ups ([reinject.c]), the wake-up of a
    single join waiter and the release of a task's wait
    ([src/core/wait/wait_tracking.c]), and the requeue of a yielding task
    ([src/core/task/yield_join_sleep.c]).

    A [wake_world] is the memory of the lanes with the fields of the tasks that
    waits use.  The build is the one without asynchronous preemption, in which
    [llam_async_preempt_enqueue_locked] is constantly [false] and
    [llam_async_preempt_ready_depth] is 0.  Timestamps and traces are left out.
    Removing a task's timer from its heap is the operation of [TimerHeap]; here
    the timer is armed or not. *)

From stdpp Require Import functions.
From S2P Require Import Prelude ClDeque RunQueue RunLanes.

(** ** Data *)

Inductive llam_task_state_id :=
  STATE_NEW | STATE_RUNNABLE | STATE_RUNNING | STATE_PARKED | STATE_BLOCKED_OPAQUE | STATE_DEAD.

Inductive llam_wait_reason :=
  | WAIT_NONE | WAIT_YIELD | WAIT_JOIN | WAIT_SLEEP | WAIT_BLOCKING | WAIT_IO | WAIT_CANCEL
  | WAIT_MUTEX | WAIT_COND | WAIT_CHANNEL_SEND | WAIT_CHANNEL_RECV | WAIT_TIMEOUT.

#[export] Instance wait_reason_eq_dec : EqDecision llam_wait_reason.
Proof. solve_decision. Defined.

(** The published owner of a wait. *)
Record wait_owner := WaitOwner {
  wo_node : Z; wo_queue : Z; wo_queue_lock : Z; wo_select : Z; wo_lifetime_ops : Z;
  wo_io_req : Z; wo_io_generation : Z; wo_block_job : Z; wo_join_target : Z }.

Definition no_owner : wait_owner := WaitOwner NULL NULL NULL NULL NULL NULL 0 NULL NULL.

Record wake_task := WakeTask {
  k_state : llam_task_state_id; k_wait_reason : llam_wait_reason;
  k_home_shard : Z; k_last_shard : Z; k_parked_shard : Z; k_wait_next : Z;
  k_resolvers : Z; k_generation : Z; k_owner : wait_owner; k_armed : bool }.

Record wake_metrics := WakeMetrics {
  m_wakes : Z; m_wake_reason_hist : llam_wait_reason → Z; m_yields : Z; m_ctx_switches : Z;
  m_wake_handoff_hits : Z }.

(** [v_running i] says whether a task holds the lease of shard [i];
    [v_compat_shard] is the shard a worker is bound to. *)
Record wake_world := WakeWorld {
  v_run : run_world; v_task : Z → wake_task; v_metrics : nat → wake_metrics; v_running : nat → bool;
  v_tls_shard : option nat; v_tls_task : Z; v_compat_shard : Z → nat;
  v_online_min : Z; v_online_max : Z; v_io_waiters : Z; v_timing : bool }.

Definition W : Type → Type := st wake_world.

Definition with_run (w : run_world) (v : wake_world) : wake_world :=
  let '(WakeWorld _ t m r s k c a b i g) := v in WakeWorld w t m r s k c a b i g.
Definition on_wake_task (x : Z) (f : wake_task → wake_task) (v : wake_world) : wake_world :=
  let '(WakeWorld w t m r s k c a b i g) := v in WakeWorld w (<[x := f (t x)]> t) m r s k c a b i g.
Definition on_metrics (j : nat) (f : wake_metrics → wake_metrics) (v : wake_world) : wake_world :=
  let '(WakeWorld w t m r s k c a b i g) := v in WakeWorld w t (<[j := f (m j)]> m) r s k c a b i g.
Definition set_tls_task (x : Z) (v : wake_world) : wake_world :=
  let '(WakeWorld w t m r s _ c a b i g) := v in WakeWorld w t m r s x c a b i g.
Definition set_online_range (lo hi : Z) (v : wake_world) : wake_world :=
  let '(WakeWorld w t m r s k c _ _ i g) := v in WakeWorld w t m r s k c lo hi i g.
Definition set_io_waiters (n : Z) (v : wake_world) : wake_world :=
  let '(WakeWorld w t m r s k c a b _ g) := v in WakeWorld w t m r s k c a b n g.

Definition set_state (s : llam_task_state_id) (r : llam_wait_reason) (k : wake_task) : wake_task :=
  let '(WakeTask _ _ h l p n v g o a) := k in WakeTask s r h l p n v g o a.
Definition set_resolvers (x : Z) (k : wake_task) : wake_task :=
  let '(WakeTask s r h l p n _ g o a) := k in WakeTask s r h l p n x g o a.
Definition set_generation (x : Z) (k : wake_task) : wake_task :=
  let '(WakeTask s r h l p n v _ o a) := k in WakeTask s r h l p n v x o a.
Definition set_owner (x : wait_owner) (k : wake_task) : wake_task :=
  let '(WakeTask s r h l p n v g _ a) := k in WakeTask s r h l p n v g x a.
Definition set_parked (x : Z) (k : wake_task) : wake_task :=
  let '(WakeTask s r h l _ n v g o a) := k in WakeTask s r h l x n v g o a.
Definition set_last (x : Z) (k : wake_task) : wake_task :=
  let '(WakeTask s r h _ p n v g o a) := k in WakeTask s r h x p n v g o a.
Definition disarmed (k : wake_task) : wake_task :=
  let '(WakeTask s r h l p n v g o _) := k in WakeTask s r h l p n v g o false.

(** The metrics of a wake-up; the histogram starts at the first real reason. *)
Definition count_wake (r : llam_wait_reason) (m : wake_metrics) : wake_metrics :=
  let '(WakeMetrics w h y c f) := m in
  WakeMetrics (w + 1) (if bool_decide (r = WAIT_NONE) then h else <[r := h r + 1]> h) y c f.
Definition count_yield (m : wake_metrics) : wake_metrics :=
  let '(WakeMetrics w h y c f) := m in WakeMetrics w h (y + 1) c f.
Definition count_handoff (sampled : bool) (m : wake_metrics) : wake_metrics :=
  let '(WakeMetrics w h y c f) := m in WakeMetrics w h y (c + 1) (if sampled then f + 1 else f).

(** An operation on the lanes. *)
Definition lanes {A} (m : R A) : W A := λ v, let '(a, w) := m (v_run v) in (a, with_run w v).

(** ** The choice of a shard, [core_queue.c] *)

Definition llam_snapshot_shard_load (v : wake_world) (i : nat) : Z :=
  let w := v_run v in
  let load := q_depth (w_queue w (Inject i)) + q_depth (w_queue w (Hot i)) + s_norm_depth (w_shard w i) in
  let load := if v_running v i then load + 1 else load in
  u32 (if s_redirect_active (w_shard w i) then load + LLAM_INJECT_QUEUE_CAP else load).

Definition same_node (v : wake_world) (i j : nat) : bool :=
  s_node (w_shard (v_run v) i) =? s_node (w_shard (v_run v) j).

(** The last and the current shard are taken when they are clearly less loaded. *)
Definition prefer_local (v : wake_world) (home id : nat) (best : nat * Z) : nat * Z :=
  if negb (bool_decide (id = best.1)) && llam_shard_accepts_new_work (v_run v) id then
    let load := llam_snapshot_shard_load v id in
    if same_node v id home && (u32 (load + 2) <? best.2) then (id, load) else best
  else best.

Definition move_penalty (v : wake_world) (task : Z) (pressure : bool) (home last i : nat) : Z :=
  (if same_node v i home then 0 else if pressure then 2 else 8) +
  (if bool_decide (i = last) then 0 else 1) +
  (if (t_class (w_task (v_run v) task) =? LLAM_TASK_CLASS_LATENCY) && negb (bool_decide (i = home))
   then 2 else 0).

Definition prefer_any (v : wake_world) (task : Z) (pressure : bool) (home last : nat)
    (best : nat * Z) (i : nat) : nat * Z :=
  if bool_decide (i = best.1) || negb (llam_shard_accepts_new_work (v_run v) i)
     || (negb pressure && negb (same_node v i home)) then best
  else
    let cost := u32 (llam_snapshot_shard_load v i + move_penalty v task pressure home last i) in
    if cost <? best.2 then (i, cost) else best.

(** The home shard of a task. *)
Definition home_of (v : wake_world) (task : Z) : nat :=
  let n := Z.of_nat (r_active_shards (w_runtime (v_run v))) in
  let home := k_home_shard (v_task v task) in
  Z.to_nat (if home <? n then home else k_last_shard (v_task v task) mod n).

Definition llam_pick_runnable_shard (v : wake_world) (task : Z) : nat :=
  let w := v_run v in
  let n := r_active_shards (w_runtime w) in
  if (n =? 0)%nat then 0%nat
  else if negb (t_origin (w_task w task) =? UINT32_MAX) then Z.to_nat (t_origin (w_task w task))
  else
    let home := home_of v task in
    if negb (Z.land (t_flags (w_task w task)) LLAM_TASK_FLAG_PINNED =? 0) || (n <? 2)%nat then home
    else
      let last := if k_last_shard (v_task v task) <? Z.of_nat n
                  then Z.to_nat (k_last_shard (v_task v task)) else home in
      let origin := match v_tls_shard v with
                    | Some i => if (i <? n)%nat then i else home
                    | None => home
                    end in
      match filter (λ i, llam_shard_accepts_new_work w i = true) (home :: seq 0 n) with
      | [] => home
      | first :: _ =>
        let load := llam_snapshot_shard_load v first in
        let pressure := llam_runtime_pressure_signal w in
        if negb pressure && (load <? 8) then first
        else (foldl (prefer_any v task pressure home last)
                (prefer_local v home origin (prefer_local v home last (first, load))) (seq 0 n)).1
      end.

(** ** The release of a wait, [wait_tracking.c] *)

Definition LLAM_WAIT_RESOLVER_CLOSED_BIT : Z := 2 ^ 31.

(** The deferred reports of fatal errors, after which the callers stop the
    process, are left out. *)

(** New resolvers are turned away; those that entered before leave, unless the
    count is saturated. *)
Definition llam_task_close_wait_resolvers (task : Z) : W bool :=
  state ← gets (λ v, Z.lor (k_resolvers (v_task v task)) LLAM_WAIT_RESOLVER_CLOSED_BIT);
  modify (on_wake_task task (set_resolvers state)) ;;
  if state =? UINT32_MAX then mret false
  else modify (on_wake_task task (set_resolvers LLAM_WAIT_RESOLVER_CLOSED_BIT)) ;; mret true.

Definition llam_task_advance_wait_generation (task : Z) : W bool :=
  current ← gets (λ v, k_generation (v_task v task));
  if UINT64_MAX <=? current then mret false
  else modify (on_wake_task task (set_generation (current + 1))) ;; mret true.

(** A task that leaves an I/O wait is no longer counted among the waiters. *)
Definition llam_task_clear_active_io_req (task : Z) : W unit :=
  req ← gets (λ v, wo_io_req (k_owner (v_task v task)));
  waiters ← gets v_io_waiters;
  if negb (req =? NULL) && negb (waiters =? 0) then modify (set_io_waiters (waiters - 1)) else mret tt.

Definition llam_task_clear_wait_tracking (task : Z) : W bool :=
  closed ← llam_task_close_wait_resolvers task;
  if negb closed then mret false
  else
    advanced ← llam_task_advance_wait_generation task;
    if negb advanced then mret false
    else
      llam_task_clear_active_io_req task ;;
      modify (on_wake_task task (set_owner no_owner)) ;;
      last ← gets (λ v, k_last_shard (v_task v task));
      modify (on_wake_task task (set_parked last)) ;;
      mret true.

(** The continuation [k] after the wait was cleared; the process stops when it
    could not be. *)
Definition llam_task_clear_wait_tracking_or_abort {A} (task : Z) (stopped : A) (k : W A) : W A :=
  cleared ← llam_task_clear_wait_tracking task;
  if negb cleared then lanes (modify set_aborted) ;; mret stopped else k.

Definition llam_disarm_task_wait_deadline (task : Z) : W unit := modify (on_wake_task task disarmed).

(** ** Wake-ups, [reinject.c] *)

Definition llam_runtime_note_online_shards (online : Z) : W unit :=
  lo ← gets v_online_min;
  hi ← gets v_online_max;
  modify (set_online_range (if (lo =? 0) || (online <? lo) then online else lo) (Z.max hi online)).

Definition set_online (s : run_shard) : run_shard :=
  let '(RunShard q n i h f a b c o m t r g _ p d) := s in RunShard q n i h f a b c o m t r g true p d.
Definition set_online_shards (v : Z) (r : run_runtime) : run_runtime :=
  let '(RunRuntime a b c d e f g h _ j k l m) := r in RunRuntime a b c d e f g h v j k l m.

Definition note_handoff (s : run_shard) : run_shard :=
  set_handoff_streak (u32 (s_handoff_streak s + 1)) s.

(** Work that wakes up on an offline dynamic shard brings the shard back. *)
Definition bring_online (i : nat) : W unit :=
  offline ← gets (λ v, r_dynamic (w_runtime (v_run v)) && negb (s_online (w_shard (v_run v) i)));
  if offline : bool then
    online ← gets (λ v, u32 (r_online_shards (w_runtime (v_run v)) + 1));
    lanes (modify (on_shard i set_online)) ;;
    lanes (modify (on_runtime (set_online_shards online))) ;;
    llam_runtime_note_online_shards online
  else mret tt.

(** Where a runnable task goes, with the lock of shard [i] held. *)
Definition place_runnable (i : nat) (task : Z) (hot direct_local : bool) : R unit :=
  redirecting ← gets (λ w, s_redirect_active (w_shard w i));
  if redirecting : bool then
    modify (on_shard i count_migration) ;;
    sent ← llam_enqueue_opaque_redirect_task_locked i task hot;
    if negb sent then
      modify (on_task task (set_enqueue_hot 0)) ;;
      llam_enqueue_overflow_task task
    else mret tt
  else if direct_local then
    modify (on_task task (set_enqueue_hot 0)) ;;
    if hot then
      result ← llam_queue_commit_bounded_locked i (Hot i) LLAM_HOT_QUEUE_CAP task;
      if bool_decide (result = COMMIT_LOCAL) then modify (on_shard i count_hot) else mret tt
    else
      result ← llam_norm_queue_commit_owner_locked i task;
      if bool_decide (result = COMMIT_REJECTED) then
        llam_queue_commit_bounded_locked i (Inject i) LLAM_INJECT_QUEUE_CAP task ;; mret tt
      else mret tt
  else
    queued ← llam_queue_push_bounded_locked i (Inject i) LLAM_INJECT_QUEUE_CAP task None;
    if queued : bool then modify (on_shard i count_inject) else mret tt.

Definition llam_mark_runnable_locked (i : nat) (task : Z) (hot : bool) (reason : llam_wait_reason)
    (direct_local : bool) (access : option llam_processor_queue_access_mode) : W unit :=
  direct_local ← (if direct_local then lanes (validate_owner_mutation access) else mret false);
  bring_online i ;;
  modify (on_wake_task task (set_state STATE_RUNNABLE WAIT_NONE)) ;;
  lanes (modify (on_task task (set_enqueue_hot (if hot then 1 else 0)))) ;;
  lanes (place_runnable i task hot direct_local) ;;
  modify (on_metrics i (count_wake reason)).

(** The shard a wake-up goes to; [None] where the code aborts. *)
Definition reinject_target (v : wake_world) (task : Z) (target_id : nat) : option nat :=
  let w := v_run v in
  let r := w_runtime w in
  let origin := t_origin (w_task w task) in
  let target_id := if origin =? UINT32_MAX then target_id else Z.to_nat origin in
  let target_id := if (r_active_shards r <=? target_id)%nat || negb (llam_shard_accepts_new_work w target_id)
                   then llam_pick_runnable_shard v task else target_id in
  if r_pools r then
    let worker := t_execution_worker (w_task w task) in
    if negb (worker =? NULL) && match w_role w worker with ROLE_LEGACY_COMPAT => true | _ => false end
    then Some (v_compat_shard v worker)
    else if (r_portable r <=? target_id)%nat then
      if (r_portable r =? 0)%nat then None else Some (target_id mod r_portable r)%nat
    else Some target_id
  else Some target_id.

(** The lock of the target: with the access of its own worker where the caller
    is that worker, and the access may change the lanes. *)
Definition reinject_lock (direct_local : bool) : R (option llam_processor_queue_access_mode) :=
  if direct_local then
    access ← ask_access;
    mret (match access with Some m => if owner_mode m then Some m else None | None => None end)
  else mret None.

Definition llam_reinject_task_on_shard (task : Z) (target_id : nat) (hot : bool)
    (reason : llam_wait_reason) : W unit :=
  active ← gets (λ v, r_active_shards (w_runtime (v_run v)));
  if (active =? 0)%nat then mret tt
  else
    target ← gets (λ v, reinject_target v task target_id);
    match target with
    | None => lanes (modify set_aborted)
    | Some target =>
      pressure ← gets (λ v, llam_runtime_pressure_signal (v_run v));
      effective_hot ← gets (λ v, hot || (t_class (w_task (v_run v) task) =? LLAM_TASK_CLASS_LATENCY));
      direct_local ← gets (λ v, bool_decide (v_tls_shard v = Some target) && negb (v_tls_task v =? NULL));
      llam_disarm_task_wait_deadline task ;;
      llam_task_clear_wait_tracking_or_abort task tt (
        access ← lanes (reinject_lock direct_local);
        effective_hot ← gets (λ v, llam_should_enqueue_hot_locked (v_run v) target task effective_hot pressure);
        let direct_local := bool_decide (is_Some access) in
        llam_mark_runnable_locked target task effective_hot reason direct_local access ;;
        if negb direct_local then lanes (modify (add_signal (Kick target))) else mret tt)
    end.

Definition llam_reinject_task (task : Z) (hot : bool) (reason : llam_wait_reason) : W unit :=
  target_id ← gets (λ v, llam_pick_runnable_shard v task);
  llam_reinject_task_on_shard task target_id hot reason.

(** Wake a peer and requeue the current task in one step; the caller switches
    to the peer when the answer is [true]. *)
Definition llam_reinject_task_on_shard_and_yield_current (task : Z) (target : nat) (hot : bool)
    (reason : llam_wait_reason) (sampled_handoff : bool) : W bool :=
  current ← gets v_tls_task;
  refused ← gets (λ v, let w := v_run v in
    (current =? NULL) || (r_active_shards (w_runtime w) <=? target)%nat
    || negb (llam_shard_accepts_new_work w target) || r_registered (w_runtime w)
    || negb (bool_decide (v_tls_shard v = Some target)) || (current =? task)
    || v_timing v || k_armed (v_task v task));
  if refused : bool then mret false
  else
    effective_hot ← gets (λ v, hot || (t_class (w_task (v_run v) task) =? LLAM_TASK_CLASS_LATENCY));
    access ← lanes ask_access;
    match access with
    | None => mret false
    | Some _ =>
      blocked ← gets (λ v, s_redirect_active (w_shard (v_run v) target)
        || (LLAM_NORM_QUEUE_CAP <=? q_depth (w_queue (v_run v) (Norm target))));
      if blocked : bool then mret false
      else
        effective_hot ← gets (λ v, llam_should_enqueue_hot_locked (v_run v) target task effective_hot false);
        queued ← lanes (llam_norm_queue_push_yield_locked target access current);
        if negb queued then mret false
        else
          modify (on_wake_task current (set_state STATE_RUNNABLE WAIT_NONE)) ;;
          llam_task_clear_wait_tracking_or_abort task true (
            modify (on_wake_task task (set_state STATE_RUNNING WAIT_NONE)) ;;
            lanes (modify (on_task task (set_enqueue_hot (if effective_hot : bool then 1 else 0)))) ;;
            modify (on_wake_task task (set_last (Z.of_nat target))) ;;
            modify (set_tls_task task) ;;
            modify (on_metrics target (count_wake reason)) ;;
            modify (on_metrics target count_yield) ;;
            modify (on_metrics target (count_handoff sampled_handoff)) ;;
            lanes (modify (on_shard target note_handoff)) ;;
            mret true)
    end.

(** ** Single join waiters, [wait_tracking.c] *)

Definition llam_reinject_single_local_join_waiter (waiter : Z) : W bool :=
  parked ← gets (λ v, k_parked_shard (v_task v waiter));
  active ← gets (λ v, r_active_shards (w_runtime (v_run v)));
  next ← gets (λ v, k_wait_next (v_task v waiter));
  let target := Z.to_nat parked in
  if negb (next =? NULL) || (Z.of_nat active <=? parked) then mret false
  else
    refused ← gets (λ v, negb (bool_decide (v_tls_shard v = Some target)) || (v_tls_task v =? NULL)
      || negb (llam_shard_accepts_new_work (v_run v) target) || k_armed (v_task v waiter));
    if refused : bool then mret false
    else
      access ← lanes ask_access;
      match access with
      | None => mret false
      | Some _ =>
        valid ← lanes (validate_owner_mutation access);
        redirecting ← gets (λ v, s_redirect_active (w_shard (v_run v) target));
        if negb valid || redirecting then mret false
        else
          llam_task_clear_wait_tracking_or_abort waiter true (
            modify (on_wake_task waiter (set_state STATE_RUNNABLE WAIT_NONE)) ;;
            lanes (modify (on_task waiter (set_enqueue_hot 0))) ;;
            queued ← lanes (llam_queue_push_bounded_locked target (Hot target) LLAM_HOT_QUEUE_CAP waiter access);
            (if queued : bool then lanes (modify (on_shard target count_hot)) else mret tt) ;;
            modify (on_metrics target (count_wake WAIT_JOIN)) ;;
            mret true)
      end.

(** ** The requeue of a yielding task, [yield_join_sleep.c] *)

(** The part of [llam_yield] after the direct handoffs were tried. *)
Definition yield_requeue (i : nat) : W unit :=
  task ← gets v_tls_task;
  modify (on_wake_task task (set_state STATE_RUNNABLE WAIT_NONE)) ;;
  access ← lanes ask_access;
  valid ← lanes (validate_owner_mutation access);
  (if valid : bool then
     result ← lanes (llam_norm_queue_commit_yield_locked i task);
     if bool_decide (result = COMMIT_REJECTED) then
       lanes (llam_queue_commit_bounded_locked i (Inject i) LLAM_INJECT_QUEUE_CAP task) ;; mret tt
     else mret tt
   else
     queued ← lanes (llam_queue_push_bounded_locked i (Inject i) LLAM_INJECT_QUEUE_CAP task None);
     if queued : bool then lanes (modify (on_shard i count_inject)) else mret tt) ;;
  modify (on_metrics i count_yield).
