(* ===== verification/RunWakeInv.v ===== *)
(** * The invariant of wake-ups

    Every operation of [RunWake] keeps the invariant of the lanes, and a task
    it publishes is in one lane, to whose worker a signal went.  The choice of
    a shard is sound. *)

From stdpp Require Import functions.
From S2P Require Import Prelude ClDeque RunQueue RunLanes RunInv RunWake.

(** ** Signals *)

(** The signals of [w] are the first ones of [w'], and no origin mark changed. *)
Record hears (w w' : run_world) : Prop := Hears {
  hr_signals : ∃ s, w_signals w' = w_signals w ++ s;
  hr_origin : ∀ x, t_origin (w_task w' x) = t_origin (w_task w x) }.

(** The signal [g] was sent on the way from [w] to [w']. *)
Definition told (g : signal) (w w' : run_world) : Prop := ∃ s, w_signals w' = w_signals w ++ s ∧ g ∈ s.

#[export] Instance hears_preorder : PreOrder hears.
Proof.
  split.
  - intros w. split; [|done]. exists []. by rewrite app_nil_r.
  - intros w1 w2 w3 [[s E1] O1] [[t E2] O2]. split; [|intros x; by rewrite O2].
    exists (s ++ t). by rewrite E2, E1, app_assoc.
Qed.

Lemma told_after g w1 w2 w3 : hears w1 w2 → told g w2 w3 → told g w1 w3.
Proof.
  intros [[s E1] _] (t & E2 & Hg). exists (s ++ t). rewrite E2, E1, app_assoc.
  split; [done|]. apply elem_of_app. by right.
Qed.

Lemma told_before g w1 w2 w3 : told g w1 w2 → hears w2 w3 → told g w1 w3.
Proof.
  intros (s & E1 & Hg) [[t E2] _]. exists (s ++ t). rewrite E2, E1, app_assoc.
  split; [done|]. apply elem_of_app. by left.
Qed.

Lemma told_signal g w : told g w (add_signal g w).
Proof. destruct w. exists [g]. split; [done|by left]. Qed.

Lemma hears_same w w' : (w_signals w', w_task w') = (w_signals w, w_task w) → hears w w'.
Proof. intros [= E1 E2]. split; [exists []; by rewrite E1, app_nil_r|by rewrite E2]. Qed.

Lemma hears_signal g w : hears w (add_signal g w).
Proof. destruct w. split; [by exists [g]|done]. Qed.

Lemma hears_task x v w : hears w (on_task x (set_enqueue_hot v) w).
Proof.
  destruct w as [? ? ? t]. split; [exists []; by rewrite app_nil_r|]. intros y. cbn.
  destruct (decide (y = x)) as [-> |Hne]; [|by rewrite fn_lookup_insert_ne].
  rewrite fn_lookup_insert. by destruct (t x).
Qed.

(** Programs that only add signals. *)
Definition speaks {A} (m : R A) : Prop := pres hears m.

Lemma wp_speaks {A} (m : R A) (Q : A → run_world → Prop) w :
  speaks m → (∀ a w', hears w w' → Q a w') → wp m Q w.
Proof. intros Hm HQ. unfold wp. apply HQ, Hm. Qed.

Lemma wp_conj {S A} (m : st S A) (P Q : A → S → Prop) s :
  wp m P s → wp m Q s → wp m (λ a s', P a s' ∧ Q a s') s.
Proof. done. Qed.

Create HintDb speaks.

Ltac speaks_tac :=
  repeat first
    [ solve [auto with speaks]
    | apply pres_ret; apply _ | apply pres_gets; apply _ | apply pres_if
    | apply pres_bind; [apply _| |intros ?]
    | apply pres_modify; intros ?; first [apply hears_task|apply hears_signal]
    | apply pres_modify; intros [? ? ? ? ? ? ? ? [] ? ?]; apply hears_same; reflexivity
    | case_match ].

Lemma speaks_push_tail q x : speaks (llam_queue_push_tail q x).
Proof. unfold llam_queue_push_tail. speaks_tac. Qed.

Lemma speaks_note_enqueue i : speaks (llam_norm_queue_note_enqueue i).
Proof. unfold llam_norm_queue_note_enqueue, llam_record_fatal. speaks_tac. Qed.

Lemma speaks_note_dequeue i : speaks (llam_norm_queue_note_dequeue i).
Proof. unfold llam_norm_queue_note_dequeue, llam_record_fatal. speaks_tac. Qed.

Lemma speaks_validate access : speaks (validate_owner_mutation access).
Proof. unfold validate_owner_mutation, ask_valid. speaks_tac. Qed.

Lemma speaks_deque {A} i (p : prog A) : speaks (on_deque i p).
Proof. unfold on_deque. speaks_tac. Qed.

#[export] Hint Resolve speaks_push_tail speaks_note_enqueue speaks_note_dequeue speaks_validate
  speaks_deque : speaks.

(** Step over a program that only adds signals. *)
Tactic Notation "hear" := apply wp_bind; eapply wp_speaks; [speaks_tac|].

Ltac hears_chain :=
  repeat match goal with
  | |- hears ?a ?a => reflexivity
  | H : hears ?a ?b |- hears ?a _ => etrans; [exact H|clear H]
  end.

(** The overflow queue wakes every worker. *)
Lemma overflow_told x w :
  t_origin (w_task w x) = UINT32_MAX →
  wp (llam_enqueue_overflow_task x) (λ _ w', hears w w' ∧ told WakeAll w w') w.
Proof.
  intros Eo. unfold llam_enqueue_overflow_task. apply wp_bind, wp_gets. rewrite Eo, Z.eqb_refl. cbn [negb].
  hear. intros _ w1 H1. hear. intros _ w2 H2. hear. intros _ w3 H3. hear. intros d w4 H4. hear. intros _ w5 H5.
  apply wp_modify. assert (H : hears w w5) by by hears_chain.
  split; [etrans; [exact H|apply hears_signal]|]. eapply told_after; [exact H|apply told_signal].
Qed.

(** A commit that spilled, and only that, woke every worker. *)
Definition spill_told (w : run_world) (r : llam_queue_commit_result) (w' : run_world) : Prop :=
  hears w w' ∧ (r = COMMIT_OVERFLOW → told WakeAll w w').

Lemma commit_bounded_told i q capacity x w :
  t_origin (w_task w x) = UINT32_MAX →
  wp (llam_queue_commit_bounded_locked i q capacity x) (spill_told w) w.
Proof.
  intros Eo. unfold llam_queue_commit_bounded_locked. apply wp_bind, wp_gets. destruct (_ <? _).
  - hear. intros _ w1 H1.
    hear. intros _ w2 H2.
    apply wp_ret. split; [by etrans|done].
  - apply wp_bind, wp_modify. set (w1 := on_shard i count_overflow w).
    assert (H1 : hears w w1) by (destruct w; by apply hears_same).
    step (apply overflow_told; by rewrite (hr_origin _ _ H1)). intros _ w2 [H2 Ht]. apply wp_ret.
    split; [by etrans|]. intros _. by eapply told_after.
Qed.

Lemma norm_overflow_told i x w :
  t_origin (w_task w x) = UINT32_MAX → wp (norm_overflow i x) (λ _ w', hears w w' ∧ told WakeAll w w') w.
Proof.
  intros Eo. unfold norm_overflow.
  hear. intros _ w1 H1.
  apply wp_bind, wp_modify. set (w2 := on_shard i count_overflow w1).
  assert (H2 : hears w w2) by (etrans; [exact H1|]; destruct w1; by apply hears_same).
  last (apply overflow_told; by rewrite (hr_origin _ _ H2)). intros _ w3 [H3 Ht].
  split; [by etrans|by eapply told_after].
Qed.

Lemma commit_owner_told i x w :
  t_origin (w_task w x) = UINT32_MAX → wp (llam_norm_queue_commit_owner_locked i x) (spill_told w) w.
Proof.
  intros Eo. unfold llam_norm_queue_commit_owner_locked.
  hear. intros [|] w1 H1; cbn [negb]; [|by apply wp_ret].
  apply wp_bind, wp_gets. destruct (r_lockfree _).
  - hear. intros [|] w2 H2.
    + hear. intros _ w3 H3. apply wp_ret.
      split; [|done]. etrans; [exact H1|]. by etrans.
    + assert (H12 : hears w w2) by by etrans.
      step (apply norm_overflow_told; by rewrite (hr_origin _ _ H12)). intros _ w3 [H3 Ht]. apply wp_ret.
      split; [by etrans|]. intros _. by eapply told_after.
  - step (apply commit_bounded_told; by rewrite (hr_origin _ _ H1)). intros r w2 [H2 Ht].
    hear. intros _ w3 H3.
    apply wp_ret. split; [etrans; [exact H1|]; by etrans|]. intros Er.
    eapply told_before; [eapply told_after; [exact H1|by apply Ht]|exact H3].
Qed.

Lemma commit_bounded_result i q capacity x w :
  wp (llam_queue_commit_bounded_locked i q capacity x) (λ r _, r ≠ COMMIT_REJECTED) w.
Proof.
  unfold llam_queue_commit_bounded_locked. apply wp_bind, wp_gets.
  destruct (_ <? _); hear; intros _ w1 _; hear; intros _ w2 _; by apply wp_ret.
Qed.

Lemma push_inject_told t x w :
  t_origin (w_task w x) = UINT32_MAX →
  wp (llam_queue_push_bounded_locked t (Inject t) LLAM_INJECT_QUEUE_CAP x None)
    (λ b w', hears w w' ∧ (b = false → told WakeAll w w')) w.
Proof.
  intros Eo. unfold llam_queue_push_bounded_locked. rewrite !bool_decide_false by done. cbn [orb].
  apply wp_bind, wp_ret. cbn [negb].
  step (by apply (wp_conj _ (λ r _, r ≠ COMMIT_REJECTED) (spill_told w)); [apply commit_bounded_result|apply commit_bounded_told]).
  intros r w1 [Hr [Hh Ht]]. apply wp_ret. split; [done|]. intros E%bool_decide_eq_false_1. apply Ht. by destruct r.
Qed.

(** Where a task that entered lane [q] on the way from [w] to [w'] is found: by
    the workers the signals went to, or by the worker of shard [i]. *)
Definition found (i : nat) (direct : bool) (w w' : run_world) (q : lane) : Prop :=
  match q with
  | Overflow => told WakeAll w w'
  | Inject t => t = i ∨ told (Kick t) w w'
  | Hot t | Norm t | Deque t => t = i ∧ direct = true
  end.

Lemma found_after i direct w1 w2 w3 q : hears w1 w2 → found i direct w2 w3 q → found i direct w1 w3 q.
Proof. intros Hh. destruct q; cbn; [intros [?|?]; [by left|right]; by eapply told_after|done..|by apply told_after]. Qed.

Lemma found_before i direct w1 w2 w3 q : found i direct w1 w2 q → hears w2 w3 → found i direct w1 w3 q.
Proof.
  intros Hf Hh. destruct q; cbn in *; [|done..|by eapply told_before].
  destruct Hf as [?|?]; [by left|right]. by eapply told_before.
Qed.

Lemma enqueue_redirect_found U L i x hot J w :
  inv U L None J w → x ∈ U → ¬ here L x →
  wp (llam_enqueue_opaque_redirect_task_locked i x hot) (λ b w', hears w w' ∧
    if b then ∃ q, inv U (enter q x L) None J w' ∧ ∀ direct, found i direct w w' q else inv U L None J w') w.
Proof.
  intros Hi Hx Hf. unfold llam_enqueue_opaque_redirect_task_locked. apply wp_bind, wp_gets, wp_bind, wp_gets.
  destruct (_ || _); [by apply wp_ret|]. set (t := N.to_nat _). apply wp_bind, wp_gets.
  destruct (negb _); [by apply wp_ret|].
  step (apply wp_conj; [apply (wp_speaks _ (λ _ w', hears w w')); [unfold ask_trylock; speaks_tac|done]|
    apply (wp_calm_last _ (λ _ w', quiet w w')); [calm_tac|done]]).
  intros [|] w1 [H1 Hq1]; keep; cbn [negb]; [|by apply wp_ret]. apply wp_bind, wp_gets.
  destruct (s_redirect_active (w_shard w1 t)); [by apply wp_ret|].
  apply wp_bind, wp_modify. set (w2 := on_task _ _ w1). assert (H2 : hears w1 w2) by apply hears_task.
  assert (Hq2 : quiet w1 w2) by apply quiet_task. keep.
  step (apply wp_conj; [by apply push_inject_inv|apply push_inject_told; by apply Hi]).
  intros b w3 [[_ Hi3] [H3 Ht]]. apply wp_bind.
  apply (wp_mono _ (λ _ w', hears w3 w' ∧ quiet w3 w')).
  { destruct b; [|by apply wp_ret]. apply wp_modify. split; [destruct w3; by apply hears_same|apply quiet_shard; by intros []]. }
  intros _ w4 [H4 Hq4]. keep. destruct b.
  - apply wp_bind, wp_modify, wp_ret. split; [hears_chain; apply hears_signal|]. exists (Inject t).
    split; [eapply quiet_inv; [apply quiet_signal|done]|]. intros direct. right.
    eapply (told_after _ _ w4); [by hears_chain|apply told_signal].
  - apply wp_bind, wp_ret, wp_ret. split; [by hears_chain|]. exists Overflow. split; [done|]. intros direct.
    eapply told_before; [|exact H4]. eapply (told_after _ _ w2); [by hears_chain|auto].
Qed.

Lemma place_runnable_inv U L i x hot direct w :
  inv U L None [] w → x ∈ U → ¬ here L x →
  wp (place_runnable i x hot direct) (λ _ w', hears w w' ∧
    ∃ q, inv U (enter q x L) None [] w' ∧ found i direct w w' q) w.
Proof.
  intros Hi Hx Hf. assert (Eo : t_origin (w_task w x) = UINT32_MAX) by by apply Hi.
  unfold place_runnable. apply wp_bind, wp_gets. destruct (s_redirect_active (w_shard w i)); [|destruct direct; [|]].
  - apply wp_bind, wp_modify. set (w1 := on_shard i count_migration w).
    assert (H1 : hears w w1) by (destruct w; by apply hears_same).
    assert (Hq1 : quiet w w1) by (apply quiet_shard; by intros []). keep.
    step (by apply enqueue_redirect_found). intros [|] w2 [H2 Hr]; cbn [negb].
    + destruct Hr as (q & Hi2 & Hq). apply wp_ret. split; [by hears_chain|]. exists q. split; [done|]. eapply found_after; [exact H1|apply Hq].
    + apply wp_bind, wp_modify. set (w3 := on_task x (set_enqueue_hot 0) w2).
      assert (H3 : hears w2 w3) by apply hears_task. assert (Hq3 : quiet w2 w3) by apply quiet_task. keep.
      last (apply wp_conj; [by apply enqueue_overflow_inv|apply overflow_told; by apply Hr]).
      intros _ w4 [[Hi4 _] [H4 Ht]]. split; [by hears_chain|]. exists Overflow. split; [done|].
      eapply told_after; [|exact Ht]. by hears_chain.
  - apply wp_bind, wp_modify. set (w1 := on_task x (set_enqueue_hot 0) w).
    assert (H1 : hears w w1) by apply hears_task. assert (Hq1 : quiet w w1) by apply quiet_task. keep.
    assert (Eo1 : t_origin (w_task w1 x) = UINT32_MAX) by by apply Hi. destruct hot.
    + step (apply wp_conj; [eapply (commit_bounded_inv U L i (Hot i) _ x None None []); auto|by apply commit_bounded_told]).
      intros r w2 [[_ Hr] [H2 Ht]]. destruct (_ <? _); destruct Hr as [-> Hi2].
      * rewrite bool_decide_true by done. apply wp_modify. set (w3 := on_shard i count_hot w2).
        assert (H3 : hears w2 w3) by (destruct w2; by apply hears_same).
        assert (Hq3 : quiet w2 w3) by (apply quiet_shard; by intros []). keep.
        split; [by hears_chain|]. by exists (Hot i).
      * rewrite bool_decide_false by done. apply wp_ret. split; [by hears_chain|]. exists Overflow. split; [done|].
        eapply told_after; [exact H1|auto].
    + step (apply wp_conj; [by apply commit_owner_inv|by apply commit_owner_told]).
      intros r w2 [[_ (q & Hq & Hi2)] [H2 Ht]]. destruct Hq as [[Hq ->]|[-> ->]]; rewrite bool_decide_false by done; apply wp_ret.
      * split; [by hears_chain|]. exists q. split; [done|]. by destruct Hq as [-> | ->].
      * split; [by hears_chain|]. exists Overflow. split; [done|]. eapply told_after; [exact H1|auto].
  - step (apply wp_conj; [by apply push_inject_inv|by apply push_inject_told]). intros b w1 [[_ Hi1] [H1 Ht]].
    apply (wp_mono _ (λ _ w', hears w1 w' ∧ quiet w1 w')).
    { destruct b; [|by apply wp_ret]. apply wp_modify. split; [destruct w1; by apply hears_same|apply quiet_shard; by intros []]. }
    intros _ w2 [H2 Hq2]. keep. split; [by hears_chain|]. eexists. split; [done|].
    eapply found_before; [|exact H2]. destruct b; [by left|cbn; auto].
Qed.

(** ** Operations on the wider state *)

Lemma v_run_with w v : v_run (with_run w v) = w.
Proof. by destruct v. Qed.

Lemma wp_lanes {A} (m : R A) (Q : A → wake_world → Prop) v :
  wp m (λ a w, Q a (with_run w v)) (v_run v) → wp (lanes m) Q v.
Proof. unfold wp, lanes. by destruct (m (v_run v)). Qed.

(** Steps that leave the lanes alone. *)
Definition apart (v v' : wake_world) : Prop := v_run v' = v_run v.

#[export] Instance apart_preorder : PreOrder apart.
Proof. split; [done|]. intros v1 v2 v3 H1 H2. by unfold apart in *; rewrite H2. Qed.

Lemma apart_task x f v : apart v (on_wake_task x f v).
Proof. by destruct v. Qed.

Lemma apart_metrics i f v : apart v (on_metrics i f v).
Proof. by destruct v. Qed.

(** The wait of a task can be cleared: its resolvers and generation are not saturated. *)
Definition clearable (v : wake_world) (task : Z) : Prop :=
  Z.lor (k_resolvers (v_task v task)) LLAM_WAIT_RESOLVER_CLOSED_BIT ≠ UINT32_MAX ∧
  k_generation (v_task v task) < UINT64_MAX.

(** What clearing leaves behind. *)
Definition released (v : wake_world) (task : Z) (v' : wake_world) : Prop :=
  let k := v_task v task in let k' := v_task v' task in
  apart v v' ∧ k_owner k' = no_owner ∧ k_generation k' = k_generation k + 1 ∧
  k_resolvers k' = LLAM_WAIT_RESOLVER_CLOSED_BIT ∧ k_parked_shard k' = k_last_shard k.

Lemma task_set x f v : v_task (on_wake_task x f v) x = f (v_task v x).
Proof. destruct v. apply fn_lookup_insert. Qed.

Lemma io_waiters_apart n v : apart v (set_io_waiters n v) ∧ v_task (set_io_waiters n v) = v_task v.
Proof. by destruct v. Qed.

Lemma clear_wait_tracking_spec x v :
  clearable v x → wp (llam_task_clear_wait_tracking x) (λ b v', b = true ∧ released v x v') v.
Proof.
  intros [Hr Hg]. unfold llam_task_clear_wait_tracking, llam_task_close_wait_resolvers,
    llam_task_advance_wait_generation, llam_task_clear_active_io_req.
  apply wp_bind, wp_bind, wp_gets, wp_bind, wp_modify. rewrite (proj2 (Z.eqb_neq _ _) Hr).
  apply wp_bind, wp_modify, wp_ret. cbn [negb]. apply wp_bind, wp_bind, wp_gets. rewrite !task_set.
  assert (Eg : ∀ a b, k_generation (set_resolvers a (set_resolvers b (v_task v x))) = k_generation (v_task v x))
    by (intros; by destruct (v_task v x)).
  rewrite Eg, (proj2 (Z.leb_gt _ _) Hg). apply wp_bind, wp_modify, wp_ret. cbn [negb].
  set (v1 := on_wake_task x (set_generation _) _).
  assert (Ha1 : apart v v1) by (etrans; [|apply apart_task]; etrans; [|apply apart_task]; apply apart_task).
  assert (E1 : v_task v1 x = set_generation (k_generation (v_task v x) + 1)
    (set_resolvers LLAM_WAIT_RESOLVER_CLOSED_BIT (v_task v x))).
  { unfold v1. rewrite !task_set. by destruct (v_task v x). }
  clearbody v1. apply wp_bind, wp_bind, wp_gets, wp_bind, wp_gets.
  apply (wp_mono _ (λ _ v', apart v v' ∧ v_task v' x = v_task v1 x)).
  { destruct (_ && _); [apply wp_modify|by apply wp_ret]. destruct (io_waiters_apart (v_io_waiters v1 - 1) v1) as [Ha ->].
    split; [by etrans|done]. }
  intros _ v2 [Ha2 E2]. apply wp_bind, wp_modify, wp_bind, wp_gets. rewrite task_set, E2, E1.
  apply wp_bind, wp_modify, wp_ret. split; [done|]. unfold released. rewrite !task_set, E2, E1.
  split; [|by destruct (v_task v x)]. etrans; [exact Ha2|]. etrans; [|apply apart_task]. apply apart_task.
Qed.

Lemma clear_or_abort_spec {A} x (stopped : A) (k : W A) (Q : A → wake_world → Prop) v :
  clearable v x → (∀ v', released v x v' → wp k Q v') →
  wp (llam_task_clear_wait_tracking_or_abort x stopped k) Q v.
Proof.
  intros Hc Hk. unfold llam_task_clear_wait_tracking_or_abort. step (by apply clear_wait_tracking_spec).
  intros b v' [-> Hr]. cbn [negb]. by apply Hk.
Qed.

Lemma quiet_online_shards n w : quiet w (on_runtime (set_online_shards n) w).
Proof. destruct w as [? ? ? ? ? []]. by split. Qed.

Lemma bring_online_spec i v :
  wp (bring_online i) (λ _ v', hears (v_run v) (v_run v') ∧ quiet (v_run v) (v_run v')) v.
Proof.
  unfold bring_online. apply wp_bind, wp_gets. destruct (_ && _); [|by apply wp_ret].
  apply wp_bind, wp_gets, wp_bind, wp_lanes, wp_modify, wp_bind, wp_lanes, wp_modify.
  unfold llam_runtime_note_online_shards. apply wp_bind, wp_gets, wp_bind, wp_gets, wp_modify.
  rewrite !v_run_with. set (w := v_run v). set (n := u32 _).
  replace (v_run (set_online_range _ _ _)) with (on_runtime (set_online_shards n) (on_shard i set_online w))
    by (by destruct v).
  split.
  - etrans; [apply (hears_same w (on_shard i set_online w)); by destruct w|]. apply hears_same. by destruct w.
  - etrans; [apply (quiet_shard i set_online); by intros []|apply quiet_online_shards].
Qed.

(** A wake-up with the lock held puts the task into a lane where it is found. *)
Lemma mark_runnable_inv U L i x hot reason direct access v :
  inv U L None [] (v_run v) → x ∈ U → ¬ here L x →
  wp (llam_mark_runnable_locked i x hot reason direct access) (λ _ v',
    hears (v_run v) (v_run v') ∧ ∃ q, inv U (enter q x L) None [] (v_run v') ∧
    ∃ d, (d = true → direct = true) ∧ found i d (v_run v) (v_run v') q) v.
Proof.
  intros Hi Hx Hf. unfold llam_mark_runnable_locked. apply wp_bind.
  apply (wp_mono _ (λ d v', hears (v_run v) (v_run v') ∧ quiet (v_run v) (v_run v') ∧ (d = true → direct = true))).
  { destruct direct; [|by apply wp_ret]. apply wp_lanes. eapply wp_mono.
    - apply wp_conj; [apply (wp_speaks _ (λ _ w', hears (v_run v) w')); [speaks_tac|done]|
        apply (wp_calm_last _ (λ _ w', quiet (v_run v) w')); [calm_tac|done]].
    - intros d w [H Hq]. by rewrite v_run_with. }
  intros d v1 (H1 & Hq1 & Hd). keep. step (apply bring_online_spec). intros _ v2 [H2 Hq2]. keep.
  apply wp_bind, wp_modify. rewrite <- (apart_task x (set_state STATE_RUNNABLE WAIT_NONE) v2) in *.
  set (v3 := on_wake_task _ _ v2) in *. apply wp_bind, wp_lanes, wp_modify.
  set (w4 := on_task _ _ _). assert (H4 : hears (v_run v3) w4) by apply hears_task.
  assert (Hq4 : quiet (v_run v3) w4) by apply quiet_task. keep. apply wp_bind, wp_lanes. rewrite v_run_with.
  last (by apply (place_runnable_inv U L)). intros _ w5 [H5 (q & Hi5 & Hq5)]. apply wp_modify.
  rewrite apart_metrics, v_run_with. split; [by hears_chain|]. exists q. split; [done|]. exists d. split; [done|].
  eapply found_after; [|exact Hq5]. by hears_chain.
Qed.

(** Whoever looks after lane [q] knows of a task that entered it on the way
    from [v] to [v']: a worker was signalled, or the caller is that worker. *)
Definition attended (v v' : wake_world) (q : lane) : Prop :=
  match q with
  | Overflow => told WakeAll (v_run v) (v_run v')
  | Inject t | Hot t | Norm t | Deque t =>
    told (Kick t) (v_run v) (v_run v') ∨ v_tls_shard v = Some t ∧ v_tls_task v ≠ NULL
  end.

Lemma found_attended i d v v' q :
  found i d (v_run v) (v_run v') q →
  told (Kick i) (v_run v) (v_run v') ∨ v_tls_shard v = Some i ∧ v_tls_task v ≠ NULL →
  attended v v' q.
Proof. destruct q; cbn; [intros [-> |?]; [done|by left]|intros [-> _]; done..|done]. Qed.

Lemma reinject_lock_spec direct w :
  wp (reinject_lock direct) (λ a w', hears w w' ∧ quiet w w' ∧ (is_Some a → direct = true)) w.
Proof.
  unfold reinject_lock. destruct direct; [|apply wp_ret; split_and!; [done..|by intros []]].
  step (apply wp_conj; [apply (wp_speaks _ (λ _ w', hears w w')); [unfold ask_access; speaks_tac|done]|
    apply (wp_calm_last _ (λ _ w', quiet w w')); [calm_tac|done]]).
  intros a w1 [H1 Hq1]. by apply wp_ret.
Qed.

Lemma reinject_inv U L x target_id hot reason v :
  inv U L None [] (v_run v) → x ∈ U → ¬ here L x → clearable v x →
  r_active_shards (w_runtime (v_run v)) ≠ 0%nat → is_Some (reinject_target v x target_id) →
  wp (llam_reinject_task_on_shard x target_id hot reason) (λ _ v',
    ∃ q, inv U (enter q x L) None [] (v_run v') ∧ attended v v' q) v.
Proof.
  intros Hi Hx Hf Hc Ha [target Et]. unfold llam_reinject_task_on_shard, llam_disarm_task_wait_deadline.
  apply wp_bind, wp_gets. rewrite (proj2 (Nat.eqb_neq _ _) Ha). apply wp_bind, wp_gets. rewrite Et.
  apply wp_bind, wp_gets, wp_bind, wp_gets, wp_bind, wp_gets. set (direct := bool_decide _ && _).
  apply wp_bind, wp_modify. pose proof (apart_task x disarmed v) as E1. set (v1 := on_wake_task x disarmed v) in *.
  apply clear_or_abort_spec.
  { revert Hc. unfold clearable, v1. rewrite task_set. by destruct (v_task v x). }
  intros v2 [E2 _]. assert (E : v_run v2 = v_run v) by congruence.
  apply wp_bind, wp_lanes. last (apply reinject_lock_spec). intros access w3 (H3 & Hq3 & Hacc). rewrite E in *. keep.
  apply wp_bind, wp_gets. rewrite v_run_with. set (v3 := with_run w3 v2).
  step (apply (mark_runnable_inv U L target x); [by unfold v3; rewrite v_run_with|done..]).
  intros _ v4 [H4 (q & Hi4 & d & Hd & Hq4)]. unfold v3 in H4, Hq4. rewrite v_run_with in H4, Hq4.
  destruct (bool_decide_reflect (is_Some access)) as [Hs|Hs]; cbn [negb].
  - apply wp_ret. exists q. split; [done|]. eapply (found_attended target d); [eapply found_after; [exact H3|exact Hq4]|right].
    specialize (Hacc Hs). unfold direct in Hacc. apply andb_true_iff in Hacc as [Hb1 Hb2].
    apply bool_decide_eq_true_1 in Hb1. split; [done|]. by apply negb_true_iff, Z.eqb_neq in Hb2.
  - apply wp_lanes, wp_modify. exists q. rewrite v_run_with.
    split; [eapply quiet_inv; [apply quiet_signal|done]|].
    eapply (found_attended target d); rewrite v_run_with.
    + eapply found_after; [exact H3|]. eapply found_before; [exact Hq4|apply hears_signal].
    + left. eapply told_after; [|apply told_signal]. by hears_chain.
Qed.

(** The requeue of a yielding task; it needs no luck with validations. *)
Lemma yield_requeue_inv U L i v :
  inv U L None [] (v_run v) → v_tls_task v ∈ U → ¬ here L (v_tls_task v) →
  wp (yield_requeue i) (λ _ v', ∃ q, inv U (enter q (v_tls_task v) L) None [] (v_run v')) v.
Proof.
  intros Hi Hx Hf. unfold yield_requeue. apply wp_bind, wp_gets. set (x := v_tls_task v) in *.
  apply wp_bind, wp_modify. set (v1 := on_wake_task _ _ v).
  assert (E1 : v_run v1 = v_run v) by apply apart_task. rewrite <- E1 in Hi. clearbody v1. clear E1.
  assert (Hfin : ∀ q v', inv U (enter q x L) None [] (v_run v') →
    wp (modify (on_metrics i count_yield)) (λ _ v', ∃ q, inv U (enter q x L) None [] (v_run v')) v').
  { intros q v' Hq. apply wp_modify. exists q. by rewrite apart_metrics. }
  apply wp_bind, wp_lanes. apply wp_calm_last; [calm_tac|]. intros access w2 Hq2. keep.
  apply wp_bind, wp_lanes. rewrite v_run_with. apply wp_calm_last; [calm_tac|]. intros valid w3 Hq3. keep.
  set (v3 := with_run w3 _). assert (Hi3 : inv U L None [] (v_run v3)) by (by unfold v3; rewrite v_run_with).
  clearbody v3. apply wp_bind. destruct valid.
  - apply wp_bind, wp_lanes. last (by apply (commit_yield_inv U L)). intros r w4 [_ (q & Hq & Hi4)].
    rewrite bool_decide_false by (destruct Hq as [[_ ->]|[_ ->]]; done). apply wp_ret.
    apply (Hfin q). by rewrite v_run_with.
  - apply wp_bind, wp_lanes. last (by apply (push_inject_inv U L)). intros b w4 [_ Hi4].
    apply (wp_mono _ (λ _ v', inv U (enter (if b then Inject i else Overflow) x L) None [] (v_run v'))).
    + destruct b; [|apply wp_ret; by rewrite v_run_with]. apply wp_lanes, wp_modify. rewrite !v_run_with.
      eapply quiet_inv; [|done]. apply quiet_shard. by intros [].
    + intros _ v5 Hi5. by apply (Hfin (if b then Inject i else Overflow)).
Qed.

(** A yielding task stays local while the FIFO has room. *)
Lemma commit_yield_room U L i x w :
  inv U L None [] w → x ∈ U → ¬ here L x → q_depth (w_queue w (Norm i)) < LLAM_NORM_QUEUE_CAP →
  wp (llam_norm_queue_commit_yield_locked i x) (λ r w', r = COMMIT_LOCAL ∧ ∃ q, inv U (enter q x L) None [] w') w.
Proof.
  intros Hi Hx Hf Hd. rewrite (phys_depth U L) in Hd by (done || apply Hi).
  eapply wp_mono; [eapply (wp_conj _ _ (λ r _, r = COMMIT_LOCAL)); [by apply (commit_yield_inv U L)|]|cbn beta].
  2:{ intros r w' [[_ (q & _ & Hq)] ->]. split; [done|]. by exists q. }
  unfold llam_norm_queue_commit_yield_locked, llam_norm_queue_commit_owner_locked. apply wp_bind, wp_gets.
  destruct (r_lockfree (w_runtime w)) eqn:El; cbn [negb]; step (by apply note_enqueue_inv);
    intros b w1 (-> & Hi1 & Hs1); cbn [negb]; apply wp_bind, wp_gets.
  - rewrite (phys_depth U L) by (done || apply Hi1). rewrite (proj2 (Z.ltb_lt _ _) Hd).
    apply wp_bind. unfold wp at 1. apply wp_bind. unfold wp at 1. by apply wp_ret.
  - rewrite (stable_lockfree w w1), El by done.
    step (by eapply (commit_bounded_inv U L i (Norm i) _ x (Some i) None); auto).
    intros r w2 [_ Hr]. rewrite (proj2 (Z.ltb_lt _ _) Hd) in Hr. destruct Hr as [-> _].
    rewrite bool_decide_true by done. apply wp_bind, wp_modify. by apply wp_ret.
Qed.

(** Queueing the current task for a handoff: all or nothing. *)
Lemma push_yield_room U L i m x w :
  inv U L None [] w → x ∈ U → ¬ here L x → q_depth (w_queue w (Norm i)) < LLAM_NORM_QUEUE_CAP →
  wp (llam_norm_queue_push_yield_locked i (Some m) x) (λ b w',
    if b then ∃ q, inv U (enter q x L) None [] w' else inv U L None [] w') w.
Proof.
  intros Hi Hx Hf Hd. unfold llam_norm_queue_push_yield_locked. unfold validate_owner_mutation, ask_valid.
  apply wp_bind, wp_bind, wp_bind, wp_gets, wp_bind, wp_modify, wp_ret, wp_ret.
  pose proof (quiet_tick w) as Hq. keep. destruct (negb _); [by apply wp_ret|].
  step (apply (commit_yield_room U L); [done..|]). { by destruct w as [? ? ? ? ? ? ? ? []]. }
  intros r w2 [-> Hr]. apply wp_ret. by rewrite bool_decide_true.
Qed.

Lemma handoff_inv U L x target hot reason sampled v :
  let current := v_tls_task v in
  inv U L None [] (v_run v) → current ∈ U → ¬ here L current → clearable v x →
  wp (llam_reinject_task_on_shard_and_yield_current x target hot reason sampled) (λ b v',
    if b then v_tls_task v' = x ∧ ∃ q, inv U (enter q current L) None [] (v_run v')
    else inv U L None [] (v_run v')) v.
Proof.
  intros current Hi Hc Hf Hcl. unfold llam_reinject_task_on_shard_and_yield_current.
  apply wp_bind, wp_gets. fold current. apply wp_bind, wp_gets. destruct (_ || _) eqn:Er; [by apply wp_ret|].
  rewrite !orb_false_iff in Er. destruct Er as [[[_ Hne%Z.eqb_neq] _] _].
  apply wp_bind, wp_gets, wp_bind, wp_lanes, wp_calm_last; [calm_tac|]. intros access w1 Hq1. keep.
  destruct access as [m|]; [|apply wp_ret; by rewrite v_run_with].
  apply wp_bind, wp_gets. rewrite v_run_with. destruct (s_redirect_active (w_shard w1 target) || _) eqn:Eb; [apply wp_ret; by rewrite v_run_with|].
  apply orb_false_iff in Eb as [_ Eb%Z.leb_gt]. apply wp_bind, wp_gets, wp_bind, wp_lanes. rewrite !v_run_with.
  last (by apply (push_yield_room U L)). intros [|] w2 Hr; cbn [negb]; [|apply wp_ret; by rewrite v_run_with].
  destruct Hr as [q Hi2]. apply wp_bind, wp_modify. set (v2 := on_wake_task _ _ _).
  assert (E2 : v_run v2 = w2) by (by destruct v). 
  assert (Et2 : v_task v2 x = v_task v x).
  { unfold v2. clearbody current. destruct v. cbn. by rewrite fn_lookup_insert_ne. }
  apply clear_or_abort_spec. { unfold clearable. by rewrite Et2. }
  intros v3 [E3 _]. rewrite <- E2, <- E3 in Hi2. apply wp_bind, wp_modify, wp_bind, wp_lanes, wp_modify.
  apply wp_bind, wp_modify, wp_bind, wp_modify, wp_bind, wp_modify, wp_bind, wp_modify, wp_bind, wp_modify.
  apply wp_bind, wp_lanes, wp_modify, wp_ret. destruct v3 as [w3 t3 m3 ? ? ? ? ? ? ? ?]. cbn in *. split; [done|].
  exists q. eapply quiet_inv; [|done]. etrans; [apply quiet_task|].
  apply quiet_shard. by intros [].
Qed.

(** The hot lane takes a task from a holder whose access stays valid. *)
Lemma push_hot_inv U L i m x w :
  inv U L None [] w → x ∈ U → ¬ here L x → steady w → owner_mode m = true →
  wp (llam_queue_push_bounded_locked i (Hot i) LLAM_HOT_QUEUE_CAP x (Some m)) (λ _ w',
    ∃ q, inv U (enter q x L) None [] w') w.
Proof.
  intros Hi Hx Hf Hs Ho. unfold llam_queue_push_bounded_locked, validate_owner_mutation, ask_valid.
  rewrite bool_decide_true by done. cbn [orb]. apply wp_bind, wp_bind, wp_bind, wp_gets, wp_bind, wp_modify, wp_ret, wp_ret.
  rewrite Hs, Ho. cbn [andb negb]. pose proof (quiet_tick w) as Hq. keep.
  step (eapply (commit_bounded_inv U L i (Hot i) _ x None None []); auto). intros r w2 [_ Hr]. apply wp_ret.
  destruct (_ <? _); destruct Hr as [_ Hi2]; eauto.
Qed.

(** The wake-up of a single join waiter, while no stop is requested. *)
Lemma join_waiter_inv U L x v :
  inv U L None [] (v_run v) → x ∈ U → ¬ here L x → clearable v x → uniform (v_run v) →
  wp (llam_reinject_single_local_join_waiter x) (λ b v',
    if b then ∃ q, inv U (enter q x L) None [] (v_run v') else inv U L None [] (v_run v')) v.
Proof.
  intros Hi Hx Hf Hc [b Hb]. unfold llam_reinject_single_local_join_waiter.
  apply wp_bind, wp_gets, wp_bind, wp_gets, wp_bind, wp_gets. destruct (_ || _); [by apply wp_ret|].
  apply wp_bind, wp_gets. destruct (_ || k_armed _); [by apply wp_ret|].
  apply wp_bind, wp_lanes, wp_calm_last; [calm_tac|]. intros access w1 Hq1. keep.
  destruct access as [m|]; [|apply wp_ret; by rewrite v_run_with].
  set (i := Z.to_nat _). apply wp_bind, wp_lanes. rewrite v_run_with.
  unfold validate_owner_mutation at 1, ask_valid. apply wp_bind, wp_bind, wp_gets, wp_bind, wp_modify, wp_ret, wp_ret.
  pose proof (quiet_tick w1) as Hq2. keep. rewrite (sb_valid _ _ Hq1), Hb. apply wp_bind, wp_gets. rewrite v_run_with.
  destruct b; cbn [andb negb orb]; [|apply wp_ret; by rewrite v_run_with].
  destruct (owner_mode m) eqn:Ho; cbn [negb orb]; [|apply wp_ret; by rewrite v_run_with].
  destruct (s_redirect_active _); [apply wp_ret; by rewrite v_run_with|].
  apply clear_or_abort_spec. { revert Hc. unfold clearable. by destruct v. }
  intros v3 [E3 _]. unfold apart in E3. rewrite v_run_with in E3. apply wp_bind, wp_modify, wp_bind, wp_lanes, wp_modify.
  rewrite apart_task, E3. set (w4 := on_task _ _ _). assert (Hq4 : quiet (tick w1) w4) by apply quiet_task. keep.
  apply wp_bind, wp_lanes. rewrite v_run_with.
  last (apply (push_hot_inv U L i m x); [done..| |done]).
  { intros n. rewrite (sb_valid _ _ Hq4), (sb_valid _ _ Hq2), (sb_valid _ _ Hq1). apply Hb. }
  intros queued w5 (q & Hi5). apply wp_bind.
  apply (wp_mono _ (λ _ v', inv U (enter q x L) None [] (v_run v'))).
  { destruct queued; [|apply wp_ret; by rewrite v_run_with]. apply wp_lanes, wp_modify. rewrite !v_run_with.
    eapply quiet_inv; [|done]. apply quiet_shard. by intros []. }
  intros _ v6 Hi6. apply wp_bind, wp_modify, wp_ret. exists q. by rewrite apart_metrics.
Qed.

(** ** The choice of a shard *)

Section pick.
Context (v : wake_world) (task : Z).
Notation accepts := (llam_shard_accepts_new_work (v_run v)).
Notation load := (llam_snapshot_shard_load v).
Notation n := (r_active_shards (w_runtime (v_run v))).

Lemma home_of_lt : (0 < n)%nat → (home_of v task < n)%nat.
Proof.
  intros Hn. unfold home_of. destruct (Z.ltb_spec (k_home_shard (v_task v task)) (Z.of_nat n)); [lia|].
  pose proof (Z.mod_pos_bound (k_last_shard (v_task v task)) (Z.of_nat n) ltac:(lia)). lia.
Qed.

(** A candidate: a shard that takes work, whose load its cost bounds. *)
Definition candidate (limit : Z) (best : nat * Z) : Prop :=
  (best.1 < n)%nat ∧ accepts best.1 = true ∧ load best.1 <= best.2 <= limit.

Hypothesis small : ∀ i, load i < 2 ^ 32 - 16.

Lemma load_nonneg i : 0 <= load i.
Proof. unfold llam_snapshot_shard_load, u32. apply Z.mod_pos_bound. lia. Qed.

Lemma prefer_local_candidate limit home id best :
  (id < n)%nat → candidate limit best → candidate limit (prefer_local v home id best).
Proof.
  intros Hid (Hb & Ha & Hl). unfold prefer_local. destruct (bool_decide _); [done|]. cbn [negb andb].
  destruct (accepts id) eqn:Eid; [|done]. destruct (same_node v id home); [|done]. cbn [andb].
  pose proof (small id). pose proof (load_nonneg id). unfold u32. rewrite Z.mod_small by lia.
  destruct (Z.ltb_spec (load id + 2) best.2); [|done]. split_and!; cbn; [done..|lia|lia].
Qed.

Lemma move_penalty_bounds pressure home last i : 0 <= move_penalty v task pressure home last i <= 11.
Proof. unfold move_penalty. destruct (same_node v i home), pressure, (bool_decide (i = last)), (_ && _); lia. Qed.

Lemma prefer_any_candidate limit pressure home last best i :
  (i < n)%nat → candidate limit best → candidate limit (prefer_any v task pressure home last best i).
Proof.
  intros Hin (Hb & Ha & Hl). unfold prefer_any. destruct (_ || _ || _) eqn:E; [done|].
  rewrite !orb_false_iff in E. destruct E as [[_ Ei%negb_false_iff] _].
  pose proof (small i). pose proof (load_nonneg i). pose proof (move_penalty_bounds pressure home last i).
  unfold u32. rewrite Z.mod_small by lia. destruct (Z.ltb_spec (load i + move_penalty v task pressure home last i) best.2); [|done].
  split_and!; cbn; [done..|lia|lia].
Qed.

Lemma prefer_all_candidate limit pressure home last ids best :
  Forall (λ i, (i < n)%nat) ids → candidate limit best →
  candidate limit (foldl (prefer_any v task pressure home last) best ids).
Proof.
  revert best. induction ids as [|i ids IH]; intros best Hids Hb; [done|]. apply Forall_cons in Hids as [Hi Hids].
  cbn. apply IH; [done|]. by apply prefer_any_candidate.
Qed.

(** The first shard tried: the home shard where it takes work. *)
Lemma first_candidate first rest :
  (0 < n)%nat →
  filter (λ i, accepts i = true) (home_of v task :: seq 0 n) = first :: rest →
  candidate (load first) (first, load first) ∧ (accepts (home_of v task) = true → first = home_of v task).
Proof.
  intros Hn E. assert (Hf : first ∈ filter (λ i, accepts i = true) (home_of v task :: seq 0 n)) by (rewrite E; by left).
  apply list_elem_of_filter in Hf as [Ha Hin]. split.
  - split_and!; cbn; [|done|lia|lia]. apply elem_of_cons in Hin as [-> |Hin]; [by apply home_of_lt|].
    apply elem_of_seq in Hin. lia.
  - intros Hh. rewrite filter_cons_True in E by done. by injection E.
Qed.

Lemma pick_pinned :
  (0 < n)%nat → t_origin (w_task (v_run v) task) = UINT32_MAX →
  Z.land (t_flags (w_task (v_run v) task)) LLAM_TASK_FLAG_PINNED ≠ 0 →
  llam_pick_runnable_shard v task = home_of v task.
Proof.
  intros Hn Eo Hp. unfold llam_pick_runnable_shard. rewrite (proj2 (Nat.eqb_neq _ _)), Eo by lia. cbn.
  by rewrite (proj2 (Z.eqb_neq _ _) Hp).
Qed.

Lemma pick_single :
  (0 < n)%nat → t_origin (w_task (v_run v) task) = UINT32_MAX → (n < 2)%nat →
  llam_pick_runnable_shard v task = home_of v task.
Proof.
  intros Hn Eo H2. unfold llam_pick_runnable_shard.
  rewrite (proj2 (Nat.eqb_neq _ _)), Eo, (proj2 (Nat.ltb_lt _ _) H2), Z.eqb_refl, orb_true_r by lia. done.
Qed.

Lemma pick_candidate :
  (2 <= n)%nat → t_origin (w_task (v_run v) task) = UINT32_MAX →
  Z.land (t_flags (w_task (v_run v) task)) LLAM_TASK_FLAG_PINNED = 0 →
  llam_pick_runnable_shard v task = home_of v task ∧ (∀ i, (i < n)%nat → accepts i = false) ∨
  ∃ limit cost, candidate limit (llam_pick_runnable_shard v task, cost) ∧
    (accepts (home_of v task) = true → limit = load (home_of v task)).
Proof.
  intros Hn Eo Hp. unfold llam_pick_runnable_shard. rewrite (proj2 (Nat.eqb_neq n 0)), Eo, Hp, !Z.eqb_refl by lia. cbn [negb orb].
  rewrite (proj2 (Nat.ltb_ge n 2)) by lia.
  destruct (filter _ _) as [|first rest] eqn:E.
  { left. split; [done|]. intros i Hi. destruct (accepts i) eqn:Ei; [|done]. exfalso.
    assert (Hf : i ∈ filter (λ i, accepts i = true) (home_of v task :: seq 0 n)).
    { apply list_elem_of_filter. split; [done|]. right. apply elem_of_seq. lia. }
    rewrite E in Hf. by apply not_elem_of_nil in Hf. }
  right. destruct (first_candidate first rest) as [Hc Hh]; [lia|done|]. exists (load first).
  pose proof (home_of_lt ltac:(lia)) as Hhome. destruct (_ && _).
  { exists (load first). split; [done|]. intros Ha. by rewrite (Hh Ha). }
  eexists. split; [|intros Ha; by rewrite (Hh Ha)]. rewrite <- surjective_pairing.
  apply prefer_all_candidate; [apply Forall_forall; intros i Hi%elem_of_seq; lia|].
  apply prefer_local_candidate; [by destruct (v_tls_shard v) as [j|]; [destruct (Nat.ltb_spec j n)|]|].
  apply prefer_local_candidate; [|done]. destruct (Z.ltb_spec (k_last_shard (v_task v task)) (Z.of_nat n)); lia.
Qed.
End pick.
