(* ===== verification/RunSystem.v ===== *)
(** * The run queues as a system

    Workers and other threads use the lanes in any order.  A task is in the
    hands of a thread (it runs, or is being made runnable) or in a lane; the
    operations pass it from one to the other. *)

From stdpp Require Import functions relations.
From S2P Require Import Prelude ClDeque RunQueue RunLanes RunInv RunWake RunWakeInv.

(** ** Operations *)

Inductive op :=
  | PushInject (i : nat) (task : Z)
  | CommitHot (i : nat) (task : Z)
  | CommitNorm (i : nat) (task : Z)
  | PushNormUnlocked (i : nat) (task : Z)
  | CommitYield (i : nat) (task : Z)
  | PushYieldUnlocked (i : nat) (task : Z)
  | ExchangeYield (i : nat) (current : Z)
  | PopUnlocked (i : nat)
  | PopMerge (i : nat)
  | TakeLocal (i : nat)
  | TakeOverflow
  | TrySteal (i : nat)
  | StealTask (victim : nat)
  | SettleStolen (thief : nat) (task : Z)
  | Drain (i : nat)
  | Redirect (i : nat) (access : llam_processor_queue_access_mode)
  | EndRedirect (i : nat).

(** The task an operation is given. *)
Definition offers (o : op) : list Z :=
  match o with
  | PushInject _ x | CommitHot _ x | CommitNorm _ x | PushNormUnlocked _ x
  | CommitYield _ x | PushYieldUnlocked _ x | ExchangeYield _ x | SettleStolen _ x => [x]
  | _ => []
  end.

(** A caller keeps a task that was refused. *)
Definition kept (refused : bool) (x : Z) : list Z := if refused then [x] else [].

(** The operation, and the tasks its caller has in hand afterwards. *)
Definition exec (o : op) : R (list Z) :=
  match o with
  | PushInject i x =>
    llam_queue_push_bounded_locked i (Inject i) LLAM_INJECT_QUEUE_CAP x None ;; mret []
  | CommitHot i x =>
    r ← llam_queue_commit_bounded_locked i (Hot i) LLAM_HOT_QUEUE_CAP x;
    mret (kept (bool_decide (r = COMMIT_REJECTED)) x)
  | CommitNorm i x =>
    r ← llam_norm_queue_commit_owner_locked i x;
    mret (kept (bool_decide (r = COMMIT_REJECTED)) x)
  | PushNormUnlocked i x => ok ← llam_norm_queue_push_owner_unlocked i x; mret (kept (negb ok) x)
  | CommitYield i x =>
    r ← llam_norm_queue_commit_yield_locked i x;
    mret (kept (bool_decide (r = COMMIT_REJECTED)) x)
  | PushYieldUnlocked i x => ok ← llam_norm_queue_push_yield_unlocked i x; mret (kept (negb ok) x)
  | ExchangeYield i x =>
    r ← llam_norm_queue_exchange_yield_unlocked i x;
    mret (match r.1 with EXCHANGE_SELECTED => [r.2] | _ => [x] end)
  | PopUnlocked i => x ← llam_norm_queue_pop_owner_unlocked i; mret (some_task x)
  | PopMerge i => x ← llam_norm_queue_pop_merge_locked i; mret (some_task x)
  | TakeLocal i => x ← llam_take_local_task i; mret (some_task x)
  | TakeOverflow => x ← llam_take_overflow_task; mret (some_task x)
  | TrySteal i => x ← llam_try_steal_task i; mret (some_task x)
  | StealTask v => x ← llam_norm_queue_steal v; mret (some_task x)
  | SettleStolen i x => steal_settle i x ;; mret []
  | Drain i => llam_drain_inject_queue i ;; mret []
  | Redirect i access => llam_activate_opaque_redirect_locked i access ;; mret []
  | EndRedirect i => llam_deactivate_opaque_redirect_locked i ;; mret []
  end.

(** The circumstances of an operation: shards are redirected only in the lease
    mode that reserves no task, and no stop is requested while a stolen task is
    placed.  [TrySteal] runs alone; its two halves are operations of their own,
    between which other threads act. *)
Definition lawful (U : list Z) (o : op) (w : run_world) : Prop :=
  match o with
  | Redirect _ _ => unreserved U w
  | TrySteal _ | SettleStolen _ _ => uniform w
  | _ => True
  end.

(** ** The balance of an operation *)

Definition balance (L : lane → list Z) (given out : list Z) (L' : lane → list Z) : Prop :=
  NoDup out ∧ (∀ y, y ∈ out → ¬ here L' y) ∧
  ∀ y, here L' y ∨ y ∈ out ↔ here L y ∨ y ∈ given.

Lemma come_balance L L' x : come L L' x → balance L [x] [] L'.
Proof. intros Hc. split_and!; [by constructor|set_solver|]. intros y. rewrite (Hc y). set_solver. Qed.

Lemma refused_balance L L' x : moved L L' → ¬ here L x → balance L [x] [x] L'.
Proof.
  intros Hm Hf. split_and!; [apply NoDup_singleton| |].
  - intros y ->%list_elem_of_singleton. by rewrite (Hm x).
  - intros y. by rewrite (Hm y).
Qed.

Lemma gone_balance L L' x : gone L L' x → balance L [] (some_task x) L'.
Proof.
  unfold gone, some_task. intros Hg. destruct (decide (x = NULL)) as [->|Hn].
  - rewrite Z.eqb_refl. split_and!; [by constructor|set_solver|]. intros y. by rewrite (Hg y).
  - rewrite (proj2 (Z.eqb_neq _ _) Hn). destruct Hg as [Hx Hg]. split_and!; [apply NoDup_singleton| |].
    + intros y ->%list_elem_of_singleton. rewrite (Hg x). tauto.
    + intros y. rewrite (Hg y), list_elem_of_singleton. destruct (decide (y = x)) as [->|]; set_solver.
Qed.

Lemma moved_balance L L' : moved L L' → balance L [] [] L'.
Proof. intros Hm. split_and!; [by constructor|set_solver|]. intros y. by rewrite (Hm y). Qed.

Lemma swap_balance L L1 L' x c :
  gone L L1 x → x ≠ NULL → come L1 L' c → ¬ here L c → balance L [c] [x] L'.
Proof.
  intros Hg Hn Hc Hf. apply gone_some in Hg as [Hx Hg]; [|done].
  assert (Hne : x ≠ c) by (intros ->; done). split_and!; [apply NoDup_singleton| |].
  - intros y ->%list_elem_of_singleton. rewrite (Hc x), (Hg x). tauto.
  - intros y. rewrite (Hc y), (Hg y), !list_elem_of_singleton. destruct (decide (y = x)) as [->|]; tauto.
Qed.

(** A task passed in is handed out while another one goes to a lane, and two
    tasks stay in hand. *)
Lemma pass_balance L L' c x : come L L' c → ¬ here L x → x ≠ c → balance L [c; x] [x] L'.
Proof.
  intros Hc Hf Hne. split_and!; [apply NoDup_singleton| |].
  - intros y ->%list_elem_of_singleton. rewrite (Hc x). tauto.
  - intros y. rewrite (Hc y). set_solver.
Qed.

Lemma keep_balance L c x : ¬ here L c → ¬ here L x → x ≠ c → balance L [c; x] [c; x] L.
Proof.
  intros Hc Hx Hne. split_and!; [|set_solver|done]. apply NoDup_cons. split; [set_solver|apply NoDup_singleton].
Qed.

(** A landing is never a refusal. *)
Lemma landing_kept i q r x : norm_landing i q r → kept (bool_decide (r = COMMIT_REJECTED)) x = [].
Proof. intros [[_ ->]|[_ ->]]; by rewrite bool_decide_false. Qed.

Lemma taken_balance U L (m : R Z) w :
  wp m (λ x w', ∃ L', inv U L' None [] w' ∧ stable w w' ∧ gone L L' x) w →
  wp (x ← m; mret (some_task x)) (λ out w', ∃ L', inv U L' None [] w' ∧ balance L [] out L') w.
Proof.
  intros Hm. step (exact Hm). intros x w1 (L' & Hi & _ & Hg). apply wp_ret. exists L'. split; [done|by apply gone_balance].
Qed.

Lemma published_balance U L x (m : R bool) w :
  ¬ here L x → wp m (published U [] L x w) w →
  wp (ok ← m; mret (kept (negb ok) x)) (λ out w', ∃ L', inv U L' None [] w' ∧ balance L [x] out L') w.
Proof.
  intros Hf Hm. step (exact Hm). intros [|] w1 [_ (L' & Hi & Hb)]; apply wp_ret; exists L'; (split; [done|]);
    [by apply come_balance|by apply refused_balance].
Qed.

Lemma landed_balance U L i x (m : R llam_queue_commit_result) w :
  wp m (λ r w', stable w w' ∧ ∃ q, norm_landing i q r ∧ inv U (enter q x L) None [] w') w →
  wp (r ← m; mret (kept (bool_decide (r = COMMIT_REJECTED)) x))
    (λ out w', ∃ L', inv U L' None [] w' ∧ balance L [x] out L') w.
Proof.
  intros Hm. step (exact Hm). intros r w1 [_ (q & Hq & Hi)]. apply wp_ret. exists (enter q x L). split; [done|].
  rewrite (landing_kept i q) by done. apply come_balance, come_enter.
Qed.

(** Every operation of the lanes keeps the invariant and balances. *)
Lemma exec_balance U L o w :
  inv U L None [] w → (∀ x, x ∈ offers o → x ∈ U ∧ ¬ here L x) → lawful U o w →
  wp (exec o) (λ out w', ∃ L', inv U L' None [] w' ∧ balance L (offers o) out L') w.
Proof.
  intros Hi Hof Hlaw.
  assert (Hone : ∀ x, offers o = [x] → x ∈ U ∧ ¬ here L x).
  { intros x E. apply Hof. rewrite E. by left. }
  destruct o; cbn [exec offers lawful] in *; try (destruct (Hone _ eq_refl) as [Hx Hf]).
  - step (by apply push_inject_inv). intros b w1 [_ Hi1]. apply wp_ret. eexists. split; [done|]. apply come_balance, come_enter.
  - step (eapply (commit_bounded_inv U L i (Hot i) _ task None None []); auto). intros r w1 [_ Hr]. apply wp_ret.
    destruct (_ <? _); destruct Hr as [-> Hi1]; eexists; (split; [done|]); apply come_balance, come_enter.
  - by eapply landed_balance, commit_owner_inv.
  - by apply published_balance, push_owner_unlocked_inv.
  - by eapply landed_balance, commit_yield_inv.
  - by apply published_balance, push_yield_unlocked_inv.
  - step (by apply exchange_yield_inv). intros [r x] w1 [_ (L' & Hi1 & Hr)]. apply wp_ret. exists L'. split; [done|].
    cbn [fst snd] in *. destruct r; try done; try (destruct Hr as [_ Hm]; by apply refused_balance).
    destruct Hr as (Hn & L1 & Hg & Hc). by eapply swap_balance.
  - by apply taken_balance, pop_owner_unlocked_inv.
  - by apply taken_balance, pop_merge_inv.
  - unfold llam_take_local_task. apply taken_balance, wp_bind, wp_gets. by apply take_local_inv.
  - step (by apply take_overflow_inv). intros x w1 (l & Hx & Hi1 & _). apply wp_ret. eexists. split; [done|].
    eapply gone_balance, pops_gone; [apply Hi|done].
  - by apply taken_balance, try_steal_inv.
  - by apply taken_balance, norm_steal_inv.
  - step (by apply steal_settle_inv). intros _ w1 [_ (L' & Hi1 & Hc)]. apply wp_ret. exists L'. split; [done|by apply come_balance].
  - step (by apply (drain_inv U L i []); [|set_solver]). intros _ w1 (n & L' & (Hi1 & _ & Hm & _) & _). apply wp_ret.
    exists L'. split; [done|by apply moved_balance].
  - step (by apply activate_inv). intros _ w1 (L' & Hi1 & _ & Hm & _). apply wp_ret.
    exists L'. split; [done|by apply moved_balance].
  - unfold llam_deactivate_opaque_redirect_locked. pass. intros _ w1 Hq. keep. apply wp_ret.
    exists L. split; [done|by apply moved_balance].
Qed.

(** ** The tasks in the hands of threads *)

(** [H] lists the tasks in the hands of threads; every task of [U] is there or
    in exactly one place of exactly one lane, and the counters are exact. *)
Definition accounted (U : list Z) (w : run_world) (H : list Z) : Prop :=
  ∃ L, inv U L None [] w ∧ NoDup H ∧ (∀ x, x ∈ U ↔ x ∈ H ∨ here L x) ∧ (∀ x, x ∈ H → ¬ here L x).

(** What the rest of the runtime may do between two operations: anything but
    write to the lanes, their counters or the origin marks of the tasks. *)
Record outside (w w' : run_world) : Prop := Outside {
  os_links : (w_next w', w_prev w', w_queue w', w_aborted w') = (w_next w, w_prev w, w_queue w, w_aborted w);
  os_shard : ∀ i, counters (w_shard w' i) = counters (w_shard w i);
  os_overflow : r_overflow_depth (w_runtime w') = r_overflow_depth (w_runtime w);
  os_origin : ∀ x, t_origin (w_task w' x) = t_origin (w_task w x) }.

Lemma outside_inv U L N J w w' : outside w w' → inv U L N J w → inv U L N J w'.
Proof.
  intros [El Es Eo Et] [[Hp Hl Hd Ho Ha] [Hn Hi Hv]]. injection El as E1 E2 E3 E4. split; split.
  - done.
  - intros q Hq. rewrite E1, E2, E3. by apply Hl.
  - intros i. specialize (Es i). injection Es as -> _ _. apply Hd.
  - intros x Hx. by rewrite Et, Ho.
  - by rewrite E4.
  - intros i. specialize (Es i). injection Es as _ -> _. apply Hn.
  - intros i. specialize (Es i). injection Es as _ _ ->. apply Hi.
  - by rewrite Eo.
Qed.

(** The hands after an operation. *)
Definition hands (given out H : list Z) : list Z := out ++ filter (λ x, x ∉ given) H.

Lemma balance_accounted U L L' w' given out H :
  inv U L' None [] w' → balance L given out L' → NoDup H →
  (∀ x, x ∈ U ↔ x ∈ H ∨ here L x) → (∀ x, x ∈ H → ¬ here L x) → (∀ x, x ∈ given → x ∈ H) →
  accounted U w' (hands given out H).
Proof.
  intros Hi (Hn & Hout & Hb) HH Hall Hd Hof. exists L'. unfold hands. split_and!; [done| | |].
  - apply NoDup_app. split_and!; [done| |by apply NoDup_filter].
    intros x Hx [Hx1 Hx2]%list_elem_of_filter. destruct (proj1 (Hb x)) as [?|?]; [by right| |done]. by apply (Hd x).
  - intros x. rewrite Hall, elem_of_app, list_elem_of_filter. specialize (Hb x).
    destruct (decide (x ∈ given)) as [Hx|Hx]; [specialize (Hof x Hx)|]; tauto.
  - intros x [Hx|[Hx1 Hx2]%list_elem_of_filter]%elem_of_app; [by apply Hout|].
    intros Hh. destruct (proj1 (Hb x)) as [?|?]; [by left| |done]. by apply (Hd x).
Qed.

Lemma exec_accounted U o w H out w' :
  accounted U w H → (∀ x, x ∈ offers o → x ∈ H) → lawful U o w → exec o w = (out, w') →
  accounted U w' (hands (offers o) out H).
Proof.
  intros (L & Hi & HH & Hall & Hd) Hof Hlaw E.
  assert (Hp : wp (exec o) (λ out w', ∃ L', inv U L' None [] w' ∧ balance L (offers o) out L') w).
  { apply exec_balance; [done| |done]. intros x Hx%Hof. split; [apply Hall; by left|by apply Hd]. }
  unfold wp in Hp. rewrite E in Hp. destruct Hp as (L' & Hi' & Hb). by eapply balance_accounted.
Qed.

(** *** Actions *)

(** What a thread does: an operation of the lanes, or a wake-up or yield. *)
Inductive action :=
  | Lanes (o : op)
  | Wake (task : Z) (target_id : nat) (hot : bool) (reason : llam_wait_reason)
  | WakeAnywhere (task : Z) (hot : bool) (reason : llam_wait_reason)
  | WakeJoiner (waiter : Z)
  | Requeue (i : nat)
  | Handoff (task : Z) (target : nat) (hot : bool) (reason : llam_wait_reason) (sampled : bool).

Definition given (a : action) (v : wake_world) : list Z :=
  match a with
  | Lanes o => offers o
  | Wake x _ _ _ | WakeAnywhere x _ _ | WakeJoiner x => [x]
  | Requeue _ => [v_tls_task v]
  | Handoff x _ _ _ _ => [v_tls_task v; x]
  end.

Definition act (a : action) : W (list Z) :=
  match a with
  | Lanes o => lanes (exec o)
  | Wake x target_id hot reason => llam_reinject_task_on_shard x target_id hot reason ;; mret []
  | WakeAnywhere x hot reason => llam_reinject_task x hot reason ;; mret []
  | WakeJoiner x => woken ← llam_reinject_single_local_join_waiter x; mret (kept (negb woken) x)
  | Requeue i => yield_requeue i ;; mret []
  | Handoff x target hot reason sampled =>
    current ← gets v_tls_task;
    switched ← llam_reinject_task_on_shard_and_yield_current x target hot reason sampled;
    mret (if switched : bool then [x] else [current; x])
  end.

(** The circumstances of an action: the wait of a woken task can be cleared,
    the wake-up has a target, a handoff wakes another task, and no stop is
    requested while a join waiter is woken. *)
Definition allowed (U : list Z) (a : action) (v : wake_world) : Prop :=
  match a with
  | Lanes o => lawful U o (v_run v)
  | Wake x target_id _ _ =>
    clearable v x ∧ r_active_shards (w_runtime (v_run v)) ≠ 0%nat ∧ is_Some (reinject_target v x target_id)
  | WakeAnywhere x _ _ =>
    clearable v x ∧ r_active_shards (w_runtime (v_run v)) ≠ 0%nat ∧
    is_Some (reinject_target v x (llam_pick_runnable_shard v x))
  | WakeJoiner x => clearable v x ∧ uniform (v_run v)
  | Requeue _ => True
  | Handoff x _ _ _ _ => clearable v x ∧ x ≠ v_tls_task v
  end.

Lemma entered_balance U L x v' :
  (∃ q, inv U (enter q x L) None [] v') → ∃ L', inv U L' None [] v' ∧ balance L [x] [] L'.
Proof. intros [q Hi]. exists (enter q x L). split; [done|]. apply come_balance, come_enter. Qed.

Lemma act_balance U L a v :
  inv U L None [] (v_run v) → (∀ x, x ∈ given a v → x ∈ U ∧ ¬ here L x) → allowed U a v →
  wp (act a) (λ out v', ∃ L', inv U L' None [] (v_run v') ∧ balance L (given a v) out L') v.
Proof.
  intros Hi Hg Hal. destruct a as [o|x t h r|x h r|x|i|x t h r s]; cbn [act given allowed] in *.
  - apply wp_lanes. last (by apply exec_balance). intros out w (L' & Hi' & Hb). exists L'. by rewrite v_run_with.
  - destruct Hal as (Hc & Ha & Ht), (Hg x) as [Hx Hf]; [by left|].
    step (by apply (reinject_inv U L)). intros _ v1 (q & Hi1 & _). apply wp_ret, entered_balance. by exists q.
  - destruct Hal as (Hc & Ha & Ht), (Hg x) as [Hx Hf]; [by left|]. unfold llam_reinject_task.
    apply wp_bind, wp_bind, wp_gets. last (by apply (reinject_inv U L)). intros _ v1 (q & Hi1 & _).
    apply wp_ret, entered_balance. by exists q.
  - destruct Hal as (Hc & Hu), (Hg x) as [Hx Hf]; [by left|]. step (by apply (join_waiter_inv U L)).
    intros [|] v1 Hi1; apply wp_ret; [by apply entered_balance|]. exists L. split; [done|]. by apply refused_balance.
  - destruct (Hg (v_tls_task v)) as [Hx Hf]; [by left|]. step (by apply (yield_requeue_inv U L)).
    intros _ v1 Hi1. by apply wp_ret, entered_balance.
  - destruct Hal as [Hc Hne], (Hg (v_tls_task v)) as [Hx Hf], (Hg x) as [Hx' Hf']; [set_solver..|].
    apply wp_bind, wp_gets. step (by apply (handoff_inv U L)). intros [|] v1 Hr; apply wp_ret.
    + destruct Hr as (_ & q & Hi1). exists (enter q (v_tls_task v) L). split; [done|].
      by apply pass_balance; [apply come_enter|..].
    + exists L. split; [done|]. by apply keep_balance.
Qed.

(** ** Runs *)

Inductive activity (U : list Z) : wake_world * list Z → wake_world * list Z → Prop :=
  | activity_act a v H out v' :
    (∀ x, x ∈ given a v → x ∈ H) → allowed U a v → act a v = (out, v') →
    activity U (v, H) (v', hands (given a v) out H)
  | activity_outside v v' H : outside (v_run v) (v_run v') → activity U (v, H) (v', H).

Lemma act_accounted U a v H out v' :
  accounted U (v_run v) H → (∀ x, x ∈ given a v → x ∈ H) → allowed U a v → act a v = (out, v') →
  accounted U (v_run v') (hands (given a v) out H).
Proof.
  intros (L & Hi & HH & Hall & Hd) Hof Hal E.
  assert (Hp : wp (act a) (λ out v', ∃ L', inv U L' None [] (v_run v') ∧ balance L (given a v) out L') v).
  { apply act_balance; [done| |done]. intros x Hx%Hof. split; [apply Hall; by left|by apply Hd]. }
  unfold wp in Hp. rewrite E in Hp. destruct Hp as (L' & Hi' & Hb). by eapply balance_accounted.
Qed.

Lemma activity_accounted U s s' :
  activity U s s' → accounted U (v_run s.1) s.2 → accounted U (v_run s'.1) s'.2.
Proof.
  intros [a v H out v' Hof Hal E|v v' H Ho] Ha; cbn [fst snd] in *; [by eapply act_accounted|].
  destruct Ha as (L & Hi & Hr). exists L. split; [by eapply outside_inv|done].
Qed.


(** *** A concrete runtime *)

Definition idle_task : run_task := RunTask NULL NULL 7 0 1 0 UINT32_MAX.

Definition idle_shard (d : llam_cldeque) : run_shard :=
  RunShard d 0 0 0 0 0 0 0 0 0 0 false 0 true false 0.


(** Two shards, nothing queued; [lockfree] selects the deques. *)
Definition idle_world (lockfree : bool) (access : llam_processor_queue_access_mode) (valid : nat → bool) :
    run_world :=
  RunWorld (λ _, NULL) (λ _, NULL) (λ _, Queue NULL NULL 0) (λ _, idle_task)
    (λ _, idle_shard (Cldeque 0 0 (replicate (Z.to_nat LLAM_NORM_QUEUE_CAP) NULL)))
    (RunRuntime lockfree false false false false false 2 0 2 0 0 0 0)
    9 (λ _, ROLE_PRIMARY)
    (RunEnv (λ _, Some access) valid (λ _, true) 0) [] false.

Lemma here_nil x : here (λ _, []) x ↔ False.
Proof. split; [|done]. by intros [q []%not_elem_of_nil]. Qed.

Lemma idle_inv U lockfree access valid :
  NULL ∉ U → Z.of_nat (length U) < UINT32_MAX →
  inv U (λ _, []) None [] (idle_world lockfree access valid).
Proof.
  intros Hn Hlen. split; split; try done.
  - split; [done..|constructor|set_solver|set_solver].
  - intros i. split; [apply length_replicate|]. exists 0. split_and!; [done..|]. by intros j x.
Qed.

Lemma idle_accounted U lockfree access valid :
  NULL ∉ U → NoDup U → Z.of_nat (length U) < UINT32_MAX → accounted U (idle_world lockfree access valid) U.
Proof.
  intros Hn HU Hlen. exists (λ _, []).
  split_and!; [by apply idle_inv|done|intros x; rewrite here_nil; tauto|intros x _; rewrite here_nil; tauto].
Qed.

(** Scripts: operations one after the other, without interference. *)
Definition plain (o : op) : bool :=
  match o with TrySteal _ | SettleStolen _ _ | Redirect _ _ => false | _ => true end.

Fixpoint perform (script : list op) (s : run_world * list Z) : option (run_world * list Z) :=
  match script with
  | [] => Some s
  | o :: script' =>
    if plain o && bool_decide (Forall (λ x, x ∈ s.2) (offers o)) then
      perform script' ((exec o s.1).2, hands (offers o) (exec o s.1).1 s.2)
    else None
  end.

Lemma perform_accounted U script s s' :
  accounted U s.1 s.2 → perform script s = Some s' → accounted U s'.1 s'.2.
Proof.
  revert s. induction script as [|o script IH]; intros s Ha; cbn [perform]; [by intros [= <-]|].
  destruct (plain o) eqn:Ep; cbn [andb]; [|done]. case_bool_decide as Hof; [|done]. apply IH. cbn [fst snd].
  eapply exec_accounted; [done|by apply Forall_forall|by destruct o|by destruct (exec o s.1)].
Qed.

(** A parked task, and the runtime with task 10 running on shard 0. *)
Definition parked_task : wake_task :=
  WakeTask STATE_PARKED WAIT_JOIN 0 0 0 NULL 0 1 no_owner false.

Definition idle_wake (w : run_world) : wake_world :=
  WakeWorld w (λ _, parked_task) (λ _, WakeMetrics 0 (λ _, 0) 0 0 0) (λ _, false) (Some 0%nat) 10
    (λ _, 0%nat) 0 0 0 false.

(** Decided circumstances of an action. *)
Definition plain_action (a : action) (v : wake_world) : bool :=
  match a with
  | Lanes o => plain o
  | Wake x target_id _ _ =>
    negb (Z.lor (k_resolvers (v_task v x)) LLAM_WAIT_RESOLVER_CLOSED_BIT =? UINT32_MAX)
    && (k_generation (v_task v x) <? UINT64_MAX)
    && negb (r_active_shards (w_runtime (v_run v)) =? 0)%nat && bool_decide (is_Some (reinject_target v x target_id))
  | Requeue _ => true
  | _ => false
  end.

Lemma plain_allowed U a v : plain_action a v = true → allowed U a v.
Proof.
  destruct a as [o|x t h r| | |i|]; cbn; try done; [by destruct o|].
  rewrite !andb_true_iff, !negb_true_iff, Z.eqb_neq, Z.ltb_lt, Nat.eqb_neq, bool_decide_eq_true.
  intros [[[? ?] ?] ?]. by split_and!.
Qed.

Fixpoint enact (script : list action) (s : wake_world * list Z) : option (wake_world * list Z) :=
  match script with
  | [] => Some s
  | a :: script' =>
    if plain_action a s.1 && bool_decide (Forall (λ x, x ∈ s.2) (given a s.1)) then
      enact script' ((act a s.1).2, hands (given a s.1) (act a s.1).1 s.2)
    else None
  end.

Lemma enact_runs U script s s' : enact script s = Some s' → rtc (activity U) s s'.
Proof.
  revert s. induction script as [|a script IH]; intros s; cbn [enact]; [by intros [= ->]|].
  destruct (plain_action a s.1) eqn:Ep; cbn [andb]; [|done]. case_bool_decide as Hof; [|done].
  intros E%IH. destruct s as [v H]. cbn [fst snd] in *. eapply rtc_l; [|done].
  apply activity_act; [by apply Forall_forall|by apply plain_allowed|by destruct (act a v)].
Qed.

Definition start : wake_world * list Z :=
  (idle_wake (idle_world true ACCESS_EXECUTION (λ _, true)), [10; 20; 30; 40]).

Definition script : list action :=
  [Wake 20 1 false WAIT_JOIN; Lanes (CommitNorm 0 30); Lanes (PushInject 0 40); Lanes (Drain 1);
   Lanes (TakeLocal 1); Requeue 0; Lanes (ExchangeYield 0 20); Lanes (StealTask 0); Lanes (Drain 0)].

Definition finish : wake_world * list Z := default start (enact script start).

Lemma script_enacted : enact script start = Some finish.
Proof.
  unfold finish. enough (E : bool_decide (is_Some (enact script start)) = true).
  { by apply bool_decide_eq_true_1 in E as [s ->]. }
  vm_compute. reflexivity.
Qed.


(** ** Wake-ups *)

(** C25: a woken task goes to a shard that exists and takes work.  Pinned tasks
    stay at home; any other task goes to a shard that is online and not paused
    whenever there is one, and never to one with more work than its home shard
    where that takes work. *)
Theorem pick_runnable_shard_sound (v : wake_world) (task : Z) :
  let n := r_active_shards (w_runtime (v_run v)) in
  let accepts := llam_shard_accepts_new_work (v_run v) in
  let load := llam_snapshot_shard_load v in
  let home := home_of v task in
  let r := llam_pick_runnable_shard v task in
  (0 < n)%nat → t_origin (w_task (v_run v) task) = UINT32_MAX → (∀ i, load i < 2 ^ 32 - 16) →
  (r < n)%nat ∧
  (Z.land (t_flags (w_task (v_run v) task)) LLAM_TASK_FLAG_PINNED ≠ 0 → r = home) ∧
  (Z.land (t_flags (w_task (v_run v) task)) LLAM_TASK_FLAG_PINNED = 0 → (2 <= n)%nat →
    (∃ i, (i < n)%nat ∧ accepts i = true) →
    accepts r = true ∧ (accepts home = true → load r <= load home)).
Proof.
  intros n accepts load home r Hn Eo Hs. subst n accepts load home r. pose proof (home_of_lt v task Hn) as Hh.
  pose proof (pick_pinned v task Hn Eo) as Hpin. pose proof (pick_candidate v task Hs) as Hc.
  split_and!; [|done|].
  - destruct (Z.eq_dec (Z.land (t_flags (w_task (v_run v) task)) LLAM_TASK_FLAG_PINNED) 0) as [Ep|Ep]; [|by rewrite Hpin].
    destruct (decide (2 <= r_active_shards (w_runtime (v_run v)))%nat) as [H2|H2]; [|by rewrite pick_single by (done || lia)].
    destruct (Hc H2 Eo Ep) as [[-> _]|(limit & cost & (? & _) & _)]; done.
  - intros Ep H2 (i & Hi & Ha). destruct (Hc H2 Eo Ep) as [[_ Hno]|(limit & cost & (_ & Hacc & Hle) & Hhome)].
    + by rewrite Hno in Ha.
    + split; [done|]. intros Hha. cbn in Hle. rewrite (Hhome Hha) in Hle. lia.
Qed.

Lemma pick_runnable_shard_sound_witness :
  (llam_pick_runnable_shard (idle_wake (idle_world true ACCESS_EXECUTION (λ _, true))) 20 < 2)%nat.
Proof.
  apply (pick_runnable_shard_sound (idle_wake (idle_world true ACCESS_EXECUTION (λ _, true))) 20);
    [vm_compute; lia|reflexivity|intros i; vm_compute; reflexivity].
Defined.

(** C21: no wake-up is lost.  [llam_reinject_task_on_shard] puts the task into
    exactly one lane, wherever the wake-up is directed, whatever the lease and
    stop state does meanwhile, and also when the lane is full or the shard
    redirects its work; the worker who looks after the lane was signalled, or
    it is the caller. *)
Theorem wakeup_attended (U : list Z) (L : lane → list Z) (task : Z) (target_id : nat) (hot : bool)
    (reason : llam_wait_reason) (v : wake_world) :
  inv U L None [] (v_run v) → task ∈ U → ¬ here L task → clearable v task →
  r_active_shards (w_runtime (v_run v)) ≠ 0%nat → is_Some (reinject_target v task target_id) →
  let v' := (llam_reinject_task_on_shard task target_id hot reason v).2 in
  ∃ q, inv U (enter q task L) None [] (v_run v') ∧ attended v v' q.
Proof.
  intros Hi Hx Hf Hc Ha Ht. pose proof (reinject_inv U L task target_id hot reason v Hi Hx Hf Hc Ha Ht) as H.
  unfold wp in H. by destruct (llam_reinject_task_on_shard task target_id hot reason v).
Qed.

Lemma wakeup_attended_witness :
  let v := idle_wake (idle_world true ACCESS_EXECUTION (λ _, true)) in
  let v' := (llam_reinject_task_on_shard 20 1 false WAIT_JOIN v).2 in
  (∃ q, inv [10; 20] (enter q 20 (λ _, [])) None [] (v_run v') ∧ attended v v' q) ∧
  w_signals (v_run v') = [Kick 1] ∧ q_head (w_queue (v_run v') (Inject 1)) = 20.
Proof.
  intros v v'. split_and!; [|vm_compute; reflexivity..].
  apply (wakeup_attended [10; 20] (λ _, []) 20 1 false WAIT_JOIN v).
  - apply idle_inv; [apply (bool_decide_unpack _); vm_compute; exact I|done].
  - right. left.
  - rewrite here_nil. tauto.
  - by split.
  - done.
  - by exists 1%nat.
Defined.

(** One task in the inject queue of shard 0 and one in its normal lane. *)
Definition staged (lockfree : bool) (access : llam_processor_queue_access_mode) : run_world :=
  (default (idle_world lockfree access (λ _, true), []) (perform [PushInject 0 10; CommitNorm 0 20]
    (idle_world lockfree access (λ _, true), [10; 20]))).1.

Lemma staged_accounted lockfree access : accounted [10; 20] (staged lockfree access) [].
Proof.
  apply (perform_accounted [10; 20] [PushInject 0 10; CommitNorm 0 20]
    (idle_world lockfree access (λ _, true), [10; 20]) (staged lockfree access, [])).
  - apply idle_accounted; [apply (bool_decide_unpack _); vm_compute; exact I..|done].
  - destruct lockfree; vm_compute; reflexivity.
Qed.

Lemma staged_unreserved lockfree access : unreserved [10; 20] (staged lockfree access).
Proof. intros x Hx. destruct lockfree; reflexivity. Qed.

(** ** The inject queue drains *)

(** A round: the worker may use its lanes, drains once, and other threads act. *)
Definition drain_round (U : list Z) (i : nat) (w w' : run_world) : Prop :=
  steady w ∧ unreserved U w ∧
  (∃ m, e_access (w_env w) (e_now (w_env w)) = Some m ∧ owner_mode m = true) ∧
  outside (llam_drain_inject_queue i w).2 w'.

Definition empty_queue : llam_queue := Queue NULL NULL 0.

Lemma linked_nil nx pv q : linked nx pv q [] → q = empty_queue.
Proof. intros [Hh Ht Hd _]. destruct q. by cbn in *; subst. Qed.

Lemma moved_accounted U L L' w' H :
  inv U L' None [] w' → moved L L' →
  NoDup H → (∀ x, x ∈ U ↔ x ∈ H ∨ here L x) → (∀ x, x ∈ H → ¬ here L x) → accounted U w' H.
Proof. intros Hi' Hm HH Hall Hd. exists L'. split_and!; [done..| |]; intros x; rewrite (Hm x); auto. Qed.

Lemma drain_rounds_inv U i k L w w' :
  inv U L None [] w → nsteps (drain_round U i) k w w' →
  ∃ L', inv U L' None [] w' ∧ moved L L' ∧
    (length (L' (Inject i)) <= length (L (Inject i)) - k * LLAM_INJECT_DRAIN_BUDGET)%nat.
Proof.
  intros Hi Hk. revert L Hi. induction Hk as [w|k w w1 w2 (Hs & Hu & Ha & Ho) _ IH]; intros L Hi.
  { exists L. split_and!; [done..|lia]. }
  pose proof (drain_inv U L i [] w Hi ltac:(set_solver)) as Hp. unfold wp in Hp.
  destruct (llam_drain_inject_queue i w) as [u w1'] eqn:E. cbn [snd] in Ho.
  destruct Hp as (n & L1 & (Hi1 & Hs1 & Hm1 & Hl1) & Hn & Hb).
  destruct (IH L1 ltac:(by eapply outside_inv)) as (L2 & Hi2 & Hm2 & Hl2).
  exists L2. split_and!; [done|by etrans|]. destruct (Hb Hs Ha) as [->|Hf]; [lia|].
  assert (E1 : L1 (Inject i) = []).
  { destruct (L1 (Inject i)) as [|x l] eqn:El; [done|]. exfalso. apply Forall_inv in Hf.
    rewrite (stable_available w w1') in Hf by done. rewrite Hu in Hf; [done|].
    eapply (pl_univ U L1); [apply Hi1|]. rewrite El. by left. }
  rewrite E1 in Hl2. cbn in Hl2. lia.
Qed.

(** C28: the inject queue of a shard drains.  A worker that keeps its access
    empties the queue within [n / 32] rounds of [llam_drain_inject_queue]: the
    queue holds no task any more, its published depth is 0, and every task it
    held is in another lane. *)
Theorem inject_queue_drains (U H : list Z) (i k : nat) (w w' : run_world) :
  accounted U w H → nsteps (drain_round U i) k w w' →
  s_inject_depth (w_shard w i) <= Z.of_nat k * Z.of_nat LLAM_INJECT_DRAIN_BUDGET →
  accounted U w' H ∧ w_queue w' (Inject i) = empty_queue ∧ s_inject_depth (w_shard w' i) = 0.
Proof.
  intros (L & Hi & HH & Hall & Hd) Hk Hle. rewrite (bk_inject _ _ _ _ (proj2 Hi) i) in Hle by set_solver.
  destruct (drain_rounds_inv U i k L w w') as (L' & Hi' & Hm & Hl); [done..|].
  assert (E : L' (Inject i) = []) by (apply length_zero_iff_nil; lia).
  split_and!; [by eapply moved_accounted| |].
  - eapply linked_nil. rewrite <- E. by apply Hi'.
  - rewrite (bk_inject _ _ _ _ (proj2 Hi') i) by set_solver. by rewrite E.
Qed.

Lemma inject_queue_drains_witness :
  accounted [10; 20] (llam_drain_inject_queue 0 (staged true ACCESS_EXECUTION)).2 [] ∧
  s_inject_depth (w_shard (staged true ACCESS_EXECUTION) 0) = 1 ∧
  s_inject_depth (w_shard (llam_drain_inject_queue 0 (staged true ACCESS_EXECUTION)).2 0) = 0.
Proof.
  split_and!; [|vm_compute; reflexivity..].
  apply (inject_queue_drains [10; 20] [] 0 1 (staged true ACCESS_EXECUTION)).
  - apply staged_accounted.
  - eapply nsteps_once. split_and!; [done|apply staged_unreserved|by exists ACCESS_EXECUTION|done].
  - vm_compute. congruence.
Defined.

(** ** Redirection *)



(** ** Fairness of the selection *)

(** Normal work waits in shard [i], whose worker may use its lanes. *)
Record waiting (U : list Z) (L : lane → list Z) (i : nat) (w : run_world) : Prop := Waiting {
  wt_inv : inv U L None [] w;
  wt_unreserved : unreserved U w;
  wt_steady : steady w;
  wt_access : ∃ m, e_access (w_env w) (e_now (w_env w)) = Some m ∧ owner_mode m = true;
  wt_streak : 0 <= s_hot_streak (w_shard w i);
  wt_norm : L (Norm i) ≠ [] ∨ r_lockfree (w_runtime w) = true ∧ L (Deque i) ≠ [] }.

Definition from_norm (L : lane → list Z) (i : nat) (x : Z) : Prop := x ∈ L (Norm i) ∨ x ∈ L (Deque i).

Lemma waiting_depth U L i w : waiting U L i w → 0 < s_norm_depth (w_shard w i).
Proof.
  intros [Hi _ _ _ _ Hn]. rewrite (bk_norm _ _ _ _ (proj2 Hi) i), extra_none.
  destruct (L (Norm i)), (L (Deque i)); cbn; try lia. by destruct Hn as [?|[_ ?]].
Qed.

(** The normal lane is due after eight hot tasks at the latest. *)
Lemma norm_due_streak w i pressure :
  0 < s_norm_depth (w_shard w i) → norm_due w i pressure = false → s_hot_streak (w_shard w i) < 8.
Proof.
  unfold norm_due. intros Hd%Z.ltb_lt. rewrite Hd. destruct pressure; repeat case_match; lia.
Qed.

Lemma unreserved_here U L w : inv U L None [] w → unreserved U w → ∀ y, here L y → available w y = true.
Proof. intros Hi Hu y [q Hy]. apply Hu. eapply pl_univ; [apply Hi|done]. Qed.

(** A pop of the normal lane finds a waiting task. *)
Lemma pop_owner_locked_from U L i access w :
  inv U L None [] w → unreserved U w → steady w →
  L (Norm i) ≠ [] ∨ r_lockfree (w_runtime w) = true ∧ L (Deque i) ≠ [] →
  wp (llam_norm_queue_pop_owner_locked i (Some access)) (λ x _, x ≠ NULL ∧ from_norm L i x) w.
Proof.
  intros Hi Hu Hs Hn. last (by apply (pop_owner_locked_inv U L)). intros x w' [(L' & Hp)|(_ & _ & ?)]; [|done].
  destruct (decide (x = NULL)) as [->|Hx].
  - exfalso. destruct (np_empty _ _ _ _ _ _ _ _ Hp eq_refl) as [En Ed]; [by eapply unreserved_here|].
    pose proof (np_len _ _ _ _ _ _ _ _ Hp) as Hl. rewrite decide_True in Hl by done. unfold norm_len in Hl.
    pose proof (np_deque _ _ _ _ _ _ _ _ Hp) as Hk. rewrite En in Hl. destruct (r_lockfree (w_runtime w)).
    + rewrite Ed in Hl by done. destruct (L (Norm i)), (L (Deque i)); cbn in *; try lia. by destruct Hn as [?|[_ ?]].
    + rewrite Hk in Hl by done. destruct (L (Norm i)); cbn in *; [|lia]. by destruct Hn as [?|[? _]].
  - split; [done|]. pose proof (np_gone _ _ _ _ _ _ _ _ Hp) as Hg. apply gone_some in Hg as [[q Hq] Hg]; [|done].
    destruct (decide (q = Norm i)) as [->|H1]; [by left|]. destruct (decide (q = Deque i)) as [->|H2]; [by right|].
    exfalso. apply (proj1 (Hg x)); [|done]. exists q. by rewrite (np_within _ _ _ _ _ _ _ _ Hp).
Qed.

Lemma tick_same w : quiet w (tick w) ∧ w_shard (tick w) = w_shard w ∧ w_queue (tick w) = w_queue w ∧
  w_runtime (tick w) = w_runtime w.
Proof. split; [apply quiet_tick|]. by destruct w as [????????[]]. Qed.

Lemma streak_set i v w : s_hot_streak (w_shard (on_shard i (set_hot_streak v) w) i) = v.
Proof. destruct w as [n p q t sh]. cbn. rewrite fn_lookup_insert. by destruct (sh i). Qed.

(** One selection: a task of the normal lane, or one more of the hot lane. *)
Lemma take_local_turn U L i pressure w :
  waiting U L i w →
  wp (llam_take_local_task_with_pressure i pressure) (λ x w', from_norm L i x ∨
    s_hot_streak (w_shard w i) < 8 ∧ s_hot_streak (w_shard w' i) = s_hot_streak (w_shard w i) + 1) w.
Proof.
  intros Hw. pose proof (waiting_depth _ _ _ _ Hw) as Hd. destruct Hw as [Hi Hu Hs (m & Ea & Ho) H0 Hn].
  unfold llam_take_local_task_with_pressure, ask_access, validate_owner_mutation, ask_valid.
  apply wp_bind, wp_bind, wp_gets, wp_bind, wp_modify, wp_ret. rewrite Ea.
  apply wp_bind, wp_bind, wp_bind, wp_gets, wp_bind, wp_modify, wp_ret, wp_ret.
  rewrite valid_tick, Hs, Ho. cbn [andb negb].
  destruct (tick_same w) as (Hq1 & Es1 & _ & Er1). destruct (tick_same (tick w)) as (Hq2 & Es2 & _ & Er2).
  rewrite Es1 in Es2. rewrite Er1 in Er2. set (w2 := tick (tick w)) in *. keep.
  assert (Hs2 : stable w w2) by by chain.
  apply wp_bind, wp_gets, wp_bind, wp_gets, wp_bind, wp_gets. rewrite Es2. apply wp_bind.
  destruct (negb _ || _) eqn:Eb.
  - pass. intros _ w3 Hq3. keep. assert (Hs3 : stable w w3) by by chain.
    last (apply (pop_owner_locked_from U L); [done|by eapply unreserved_stable|by eapply steady_stable|]).
    { by rewrite (stable_lockfree w w3). }
    intros x w4 [Hx Hf]. apply wp_bind, wp_gets. rewrite (proj2 (Z.eqb_neq _ _) Hx). apply wp_ret. by left.
  - apply orb_false_iff in Eb as [Eh%negb_false_iff%Z.ltb_lt En].
    assert (H8 : s_hot_streak (w_shard w i) < 8) by (rewrite <- Es2; apply (norm_due_streak w2 i pressure); by rewrite ?Es2).
    apply wp_bind, wp_modify. set (w3 := on_shard _ _ w2).
    assert (Hq3 : quiet w2 w3) by (apply quiet_shard; by intros []).
    assert (Hh : L (Hot i) ≠ []).
    { rewrite (phys_depth U L) in Eh; [|by apply Hi|done]. by destruct (L (Hot i)). }
    keep. assert (Hs3 : stable w w3) by by chain.
    last (apply (pop_phys U L (Hot i) false); [by apply Hi|done]). intros x w4 (l & Hx & _ & Er).
    apply wp_bind, wp_gets. rewrite (proj2 (Z.eqb_neq _ _)).
    2:{ intros ->. apply Hh. eapply pops_empty; [done|]. apply (unreserved_here U); [done|by eapply unreserved_stable]. }
    apply wp_ret. right. split; [done|]. injection Er as _ -> _ _ _ _ _ _.
    unfold w3. rewrite streak_set. apply Z.mod_small. lia.
Qed.

(** [n] selections in a row none of which served the waiting normal work; in
    between other threads do anything but touch the streak. *)
Inductive passed_over (U : list Z) (i : nat) : nat → run_world → Prop :=
  | passed_none w : passed_over U i 0 w
  | passed_one n L pressure w x w1 w2 :
    passed_over U i n w → waiting U L i w →
    llam_take_local_task_with_pressure i pressure w = (x, w1) → ¬ from_norm L i x →
    s_hot_streak (w_shard w2 i) = s_hot_streak (w_shard w1 i) →
    passed_over U i (S n) w2.

Lemma passed_over_streak U i n w :
  passed_over U i n w → n = 0%nat ∨ (n <= 8)%nat ∧ Z.of_nat n <= s_hot_streak (w_shard w i).
Proof.
  induction 1 as [|n L pressure w x w1 w2 _ IH Hw E Hx Es]; [by left|right].
  pose proof (take_local_turn U L i pressure w Hw) as Hp. unfold wp in Hp. rewrite E in Hp.
  cbn [fst snd] in Hp. destruct Hp as [?|[H8 E1]]; [done|]. rewrite Es, E1.
  pose proof (wt_streak _ _ _ _ Hw). lia.
Qed.

(** C26: hot work does not starve normal work.  However many hot tasks arrive,
    and whatever the other threads do, a worker that selects tasks passes over
    waiting normal work eight times at most; the ninth selection takes a task
    of the normal lane. *)
Theorem normal_work_served (U : list Z) (L : lane → list Z) (i n : nat) (pressure : bool) (w : run_world) :
  passed_over U i n w →
  (n <= 8)%nat ∧
  (n = 8%nat → waiting U L i w → from_norm L i (llam_take_local_task_with_pressure i pressure w).1).
Proof.
  intros Hp%passed_over_streak. split; [lia|]. intros -> Hw.
  pose proof (take_local_turn U L i pressure w Hw) as Ht. unfold wp in Ht.
  destruct (llam_take_local_task_with_pressure i pressure w). destruct Ht as [?|[? _]]; [done|]. lia.
Qed.

(** One task in the hot queue of shard 0 and one in its normal queue. *)
Definition mixed : run_world :=
  (default (idle_world false ACCESS_EXECUTION (λ _, true), []) (perform [CommitHot 0 10; CommitNorm 0 20]
    (idle_world false ACCESS_EXECUTION (λ _, true), [10; 20]))).1.

Definition mixed_lanes : lane → list Z := <[Hot 0 := [10]]> (<[Norm 0 := [20]]> (λ _, [])).

Lemma mixed_waiting : waiting [10; 20] mixed_lanes 0 mixed.
Proof.
  split; [|by intros x _|done|by exists ACCESS_EXECUTION|done|by left]. split; split.
  - split; [apply (bool_decide_unpack _); vm_compute; exact I|done|..].
    + intros [[]|[]|[]|[]|]; apply (bool_decide_unpack _); vm_compute; exact I.
    + intros [[]|[]|[]|[]|] x Hx; vm_compute in Hx; set_solver.
    + intros [[]|[]|[]|[]|] [[]|[]|[]|[]|] x; try done; vm_compute; set_solver.
  - intros [[]|[]|[]|[]|] Hq; try done; split; vm_compute; done.
  - intros [|i]; (split; [done|]; exists 0; split_and!; try done; by intros j x).
  - done.
  - done.
  - intros [|i]; done.
  - intros [|i]; done.
  - done.
Qed.

Lemma normal_work_served_witness :
  (1 <= 8)%nat ∧ (llam_take_local_task_with_pressure 0 false mixed).1 = 10.
Proof.
  split; [|vm_compute; reflexivity].
  apply (normal_work_served [10; 20] mixed_lanes 0 1 false
    (llam_take_local_task_with_pressure 0 false mixed).2).
  eapply (passed_one _ _ 0 mixed_lanes false mixed 10); [constructor|exact mixed_waiting| | |reflexivity].
  - vm_compute. reflexivity.
  - vm_compute. set_solver.
Defined.

(** ** A stop request while a stolen task is placed *)

(** The lanes a memory holds are determined by it. *)
Lemma linked_nil_inv nx pv q l : linked nx pv q l → q_depth q = 0 → l = [].
Proof. intros [_ _ Hd _] E. apply length_zero_iff_nil. lia. Qed.

Lemma linked_one nx pv q l x : linked nx pv q l → q_depth q = 1 → q_head q = x → l = [x].
Proof. intros [Hh _ Hd _] E <-. destruct l as [|y [|]]; cbn in *; try lia. by rewrite Hh. Qed.

Lemma deque_nil_inv d l :
  deque_rep d l → dq_top d = dq_bottom d → l = [].
Proof.
  intros (_ & T & Et & Eb & Hl & _) E. rewrite Et, Eb in E. unfold u64, LLAM_NORM_QUEUE_CAP in *.
  destruct l as [|x l]; [done|]. exfalso. apply (f_equal (λ k, (k - T) mod 2 ^ 64)) in E.
  rewrite !Zminus_mod_idemp_l in E. replace (T - T) with 0 in E by lia.
  replace (T + Z.of_nat (length (x :: l)) - T) with (Z.of_nat (length (x :: l))) in E by lia.
  rewrite !Z.mod_small in E by (cbn [length] in *; lia). cbn [length] in *. lia.
Qed.

(** Shard 1 holds two tasks; the stop flag rises after the second question. *)
Definition stopping : run_world :=
  (default (idle_world false ACCESS_EXECUTION (λ _, true), []) (perform [CommitNorm 1 10; CommitNorm 1 20]
    (idle_world false ACCESS_EXECUTION (λ n, n <? 2)%nat, [10; 20]))).1.

Lemma stopping_accounted : accounted [10; 20] stopping [].
Proof.
  apply (perform_accounted [10; 20] [CommitNorm 1 10; CommitNorm 1 20]
    (idle_world false ACCESS_EXECUTION (λ n, n <? 2)%nat, [10; 20]) (stopping, [])).
  - apply idle_accounted; [apply (bool_decide_unpack _); vm_compute; exact I..|done].
  - vm_compute. reflexivity.
Qed.

Definition after_stop : run_world := (llam_steal_from_victim 0 1 stopping).2.

Lemma after_stop_queue q :
  is_deque q = false →
  q_depth (w_queue after_stop q) = 0 ∨ q_depth (w_queue after_stop q) = 1 ∧ q_head (w_queue after_stop q) = 10.
Proof.
  destruct q as [[|[|i]]|[|[|i]]|[|[|i]]|i|]; intros Hq; try discriminate Hq;
    vm_compute; first [left; reflexivity|right; split; reflexivity].
Qed.

Lemma after_stop_deque i : dq_top (s_deque (w_shard after_stop i)) = dq_bottom (s_deque (w_shard after_stop i)).
Proof. destruct i as [|[|i]]; vm_compute; reflexivity. Qed.

(** C29: a stop request can make a steal lose a task.  [llam_steal_from_victim]
    validates the thief's access and then calls
    [llam_norm_queue_push_owner_locked], which validates again and refuses when
    the stop was requested in between; the result is ignored, and the steal
    reports one stolen task that is in no lane. *)
Theorem steal_drops_task :
  accounted [10; 20] stopping [] ∧
  (llam_steal_from_victim 0 1 stopping).1 = 1 ∧
  ∀ L, inv [10; 20] L None [] (llam_steal_from_victim 0 1 stopping).2 → ¬ here L 20.
Proof.
  split_and!; [exact stopping_accounted|vm_compute; reflexivity|]. fold after_stop.
  intros L [[_ Hl Hd _ _] _] [q Hq]. destruct (is_deque q) eqn:Ek.
  - destruct q as [| | |i|]; try discriminate Ek. rewrite (deque_nil_inv _ _ (Hd i) (after_stop_deque i)) in Hq.
    by apply not_elem_of_nil in Hq.
  - destruct (after_stop_queue q Ek) as [E|[E1 E2]].
    + rewrite (linked_nil_inv _ _ _ _ (Hl q Ek) E) in Hq. by apply not_elem_of_nil in Hq.
    + rewrite (linked_one _ _ _ _ _ (Hl q Ek) E1 E2) in Hq. by apply list_elem_of_singleton in Hq.
Qed.

(** *** Join waiters *)

(** Task 10 ends on shard 0 and wakes its only joiner 20 when the stop comes. *)
Definition ending : wake_world := idle_wake (idle_world false ACCESS_EXECUTION (λ n, n <? 2)%nat).

Definition ended : wake_world := (llam_reinject_single_local_join_waiter 20 ending).2.

Lemma ended_queue q : is_deque q = false → q_depth (w_queue (v_run ended) q) = 0.
Proof. destruct q as [i|i|i|i|]; intros Hq; try discriminate Hq; vm_compute; reflexivity. Qed.

Lemma ended_deque i :
  dq_top (s_deque (w_shard (v_run ended) i)) = dq_bottom (s_deque (w_shard (v_run ended) i)).
Proof. vm_compute. reflexivity. Qed.

(** A stop request can strand a join waiter as well: its wait is cleared, it is
    marked runnable and reported as woken, but the hot lane refused it. *)
Theorem join_waiter_stranded :
  accounted [10; 20] (v_run ending) [10; 20] ∧
  (llam_reinject_single_local_join_waiter 20 ending).1 = true ∧
  k_state (v_task (llam_reinject_single_local_join_waiter 20 ending).2 20) = STATE_RUNNABLE ∧
  ∀ L, inv [10; 20] L None [] (v_run (llam_reinject_single_local_join_waiter 20 ending).2) → ¬ here L 20.
Proof.
  split_and!; [|vm_compute; reflexivity..|].
  { apply idle_accounted; [apply (bool_decide_unpack _); vm_compute; exact I..|done]. }
  fold ended. intros L [[_ Hl Hd _ _] _] [q Hq]. destruct (is_deque q) eqn:Ek.
  - destruct q as [| | |i|]; try discriminate Ek. rewrite (deque_nil_inv _ _ (Hd i) (ended_deque i)) in Hq.
    by apply not_elem_of_nil in Hq.
  - rewrite (linked_nil_inv _ _ _ _ (Hl q Ek) (ended_queue q Ek)) in Hq. by apply not_elem_of_nil in Hq.
Qed.
