(* ===== verification/WaitQueue.v ===== *)
(** * Wait queues of the synchronization objects

    [llam_wait_queue_t] of [src/core/sched/queue_base.c]: a FIFO of wait nodes
    linked through their [next] fields, from which the head is popped by the
    operation that completes a wait and any node is removed by a timeout, a
    cancellation or a rollback.  A node is the [Z] that names it, [NULL] is
    [0]; [wq_next] holds the links of all nodes, those outside the queue
    included. *)

From stdpp Require Import functions.
From S2P Require Import Prelude ClDeque RunQueue.

Record llam_wait_queue := WaitQueue {
  wq_head : Z; wq_tail : Z; wq_depth : Z; wq_next : Z → Z }.

Definition set_wq_head (x : Z) (q : llam_wait_queue) : llam_wait_queue :=
  WaitQueue x (wq_tail q) (wq_depth q) (wq_next q).
Definition set_wq_tail (x : Z) (q : llam_wait_queue) : llam_wait_queue :=
  WaitQueue (wq_head q) x (wq_depth q) (wq_next q).
Definition add_wq_depth (k : Z) (q : llam_wait_queue) : llam_wait_queue :=
  WaitQueue (wq_head q) (wq_tail q) (u32 (wq_depth q + k)) (wq_next q).
Definition set_link (x v : Z) (q : llam_wait_queue) : llam_wait_queue :=
  WaitQueue (wq_head q) (wq_tail q) (wq_depth q) (<[x := v]> (wq_next q)).

(** ** [queue_base.c] *)

Definition llam_wait_queue_push_tail (node : Z) (q : llam_wait_queue) : llam_wait_queue :=
  let q := set_link node NULL q in
  let q := if negb (wq_tail q =? NULL) then set_link (wq_tail q) node q else set_wq_head node q in
  add_wq_depth 1 (set_wq_tail node q).

Definition llam_wait_queue_pop_head (q : llam_wait_queue) : Z * llam_wait_queue :=
  let node := wq_head q in
  if node =? NULL then (NULL, q)
  else
    let q := set_wq_head (wq_next q node) q in
    let q := if wq_head q =? NULL then set_wq_tail NULL q else q in
    (node, add_wq_depth (-1) (set_link node NULL q)).

(** The node [cur] after [prev] leaves the queue. *)
Definition cut_node (prev cur : Z) (q : llam_wait_queue) : llam_wait_queue :=
  let q := if negb (prev =? NULL) then set_link prev (wq_next q cur) q
           else set_wq_head (wq_next q cur) q in
  let q := if wq_tail q =? cur then set_wq_tail prev q else q in
  add_wq_depth (-1) (set_link cur NULL q).

(** The loop of [llam_wait_queue_remove]; it ends within the queue's depth. *)
Fixpoint remove_from (fuel : nat) (node prev cur : Z) (q : llam_wait_queue) : bool * llam_wait_queue :=
  match fuel with
  | O => (false, q)
  | S fuel' =>
    if cur =? NULL then (false, q)
    else if cur =? node then (true, cut_node prev cur q)
    else remove_from fuel' node cur (wq_next q cur) q
  end.

Definition llam_wait_queue_remove (node : Z) (q : llam_wait_queue) : bool * llam_wait_queue :=
  if node =? NULL then (false, q)
  else remove_from (Z.to_nat (wq_depth q)) node NULL (wq_head q) q.

(** ** The list a queue holds *)

(** The nodes of [l] are linked in order and the last one is followed by [n]. *)
Fixpoint chained (nx : Z → Z) (l : list Z) (n : Z) : Prop :=
  match l with
  | [] => True
  | x :: l' => nx x = first_of n l' ∧ chained nx l' n
  end.

Record waits (q : llam_wait_queue) (l : list Z) : Prop := Waits {
  wt_head : wq_head q = first_of NULL l;
  wt_tail : wq_tail q = last_of NULL l;
  wt_depth : wq_depth q = Z.of_nat (length l);
  wt_links : chained (wq_next q) l NULL;
  wt_nodup : NoDup l;
  wt_null : NULL ∉ l;
  wt_bound : (Z.of_nat (length l) <= UINT32_MAX)%Z }.

Definition empty_queue : llam_wait_queue := WaitQueue NULL NULL 0 (λ _, NULL).

Lemma waits_empty : waits empty_queue [].
Proof. split; cbn; try done; [apply NoDup_nil_2|set_solver]. Qed.

Lemma chained_app nx l k n :
  chained nx (l ++ k) n ↔ chained nx l (first_of n k) ∧ chained nx k n.
Proof.
  induction l as [|x l IH]; cbn; [tauto|]. rewrite IH, first_of_app. tauto.
Qed.

Lemma chained_frame nx l n x v : x ∉ l → chained nx l n → chained (<[x := v]> nx) l n.
Proof.
  induction l as [|y l IH]; cbn; [done|]. intros Hx [E H].
  rewrite fn_lookup_insert_ne by set_solver. split; [done|]. apply IH; [set_solver|done].
Qed.

(** A write to the link of the last node. *)
Lemma chained_set_last nx l p n n' :
  NoDup l → l ≠ [] → chained nx l n → chained (<[last_of p l := n']> nx) l n'.
Proof.
  revert p. induction l as [|x l IH]; intros p Hnd Hne; cbn; [done|]. intros [E H].
  apply NoDup_cons in Hnd as [Hx Hnd]. destruct l as [|y l].
  - cbn. by rewrite fn_lookup_insert.
  - split; [|by apply IH]. rewrite fn_lookup_insert_ne; [done|].
    pose proof (last_of_cons_in x y l). congruence.
Qed.

(** Writing the link of a node outside the queue. *)
Lemma waits_set_link q l x v : x ∉ l → waits q l → waits (set_link x v q) l.
Proof. intros Hx []. split; try done. by apply chained_frame. Qed.

(** The nodes before the first occurrence of [x]. *)
Fixpoint cut_before (x : Z) (l : list Z) : list Z :=
  match l with
  | [] => []
  | y :: l' => if y =? x then [] else y :: cut_before x l'
  end.

Lemma cut_before_app x l1 l2 : x ∉ l1 → cut_before x (l1 ++ x :: l2) = l1.
Proof.
  induction l1 as [|y l1 IH]; cbn; intros Hx; [by rewrite Z.eqb_refl|].
  destruct (y =? x) eqn:E; bools; [set_solver|]. rewrite IH by set_solver. done.
Qed.

Section specs.
Context (q : llam_wait_queue) (l : list Z) (Hq : waits q l).

Lemma push_tail_waits x :
  x ≠ NULL → x ∉ l → (Z.of_nat (length l) < UINT32_MAX)%Z →
  waits (llam_wait_queue_push_tail x q) (l ++ [x]).
Proof.
  intros Hn Hx Hlen. destruct Hq as [Hh Ht Hd Hl Hnd H0 _]. unfold llam_wait_queue_push_tail. cbn.
  assert (Hnull : last_of NULL l = NULL ↔ l = []) by by apply last_of_null.
  assert (Hdep : u32 (wq_depth q + 1) = Z.of_nat (length (l ++ [x]))).
  { rewrite Hd, length_app. cbn. rewrite u32_small; [lia|]. unfold UINT32_MAX in Hlen.
    unfold is_u32. lia. }
  assert (Hnd' : NoDup (l ++ [x])).
  { apply NoDup_app. split_and!; [done|set_solver|apply NoDup_singleton]. }
  assert (H0' : NULL ∉ l ++ [x]) by set_solver.
  assert (Hlen' : (Z.of_nat (length (l ++ [x])) <= UINT32_MAX)%Z).
  { rewrite length_app. cbn. lia. }
  rewrite Ht. destruct (last_of NULL l =? NULL) eqn:E; bools; cbn.
  - apply Hnull in E. subst l. split; cbn in *; try done. by rewrite fn_lookup_insert.
  - assert (Hne : l ≠ []) by by intros El; apply E, Hnull.
    split; cbn; rewrite ?last_of_app, ?first_of_app; try done.
    + rewrite Hh. by destruct l.
    + apply chained_app. split; cbn.
      * apply (chained_set_last _ _ _ NULL); [done..|]. by apply chained_frame.
      * rewrite fn_lookup_insert_ne; [by rewrite fn_lookup_insert|].
        destruct (last_of_in NULL l); congruence.
Qed.

Lemma pop_head_waits :
  llam_wait_queue_pop_head q =
    match l with [] => (NULL, q) | x :: _ => (x, (llam_wait_queue_pop_head q).2) end ∧
  waits (llam_wait_queue_pop_head q).2 (tail l).
Proof.
  destruct Hq as [Hh Ht Hd Hl Hnd H0 Hb]. unfold llam_wait_queue_pop_head. rewrite Hh.
  destruct l as [|x k]; [done|]. cbn in *. destruct Hl as [E Hl].
  apply NoDup_cons in Hnd as [Hx Hnd]. destruct (x =? NULL) eqn:Ex; bools; [set_solver|].
  split; [done|]. rewrite E. cbn.
  assert (Hdep : u32 (wq_depth q + -1) = Z.of_nat (length k)).
  { rewrite Hd, u32_small; [lia|]. unfold is_u32, UINT32_MAX in *. lia. }
  assert (Hl' : chained (<[x := NULL]> (wq_next q)) k NULL) by by apply chained_frame.
  destruct (first_of NULL k =? NULL) eqn:Ek; bools.
  - apply first_of_null in Ek; [|set_solver]. subst k. split; cbn in *; try done; set_solver.
  - split; cbn; try done; [|set_solver|lia].
    rewrite Ht. destruct k; done.
Qed.

(** Cutting the node between [l1] and [l2]. *)
Lemma cut_node_waits l1 x l2 :
  l = l1 ++ x :: l2 → waits (cut_node (last_of NULL l1) x q) (l1 ++ l2).
Proof.
  intros E. destruct Hq as [Hh Ht Hd Hl Hnd H0 Hb]. rewrite E in *.
  pose proof Hnd as Hnd'. apply NoDup_app in Hnd as (Hn1 & Hdis & [Hx Hn2]%NoDup_cons).
  assert (Hx1 : x ∉ l1) by (intros Hin; apply (Hdis x Hin); by left).
  rewrite chained_app in Hl. cbn in Hl. destruct Hl as (Hl1 & Ex & Hl2).
  assert (Hnull : last_of NULL l1 = NULL ↔ l1 = []) by (apply last_of_null; set_solver).
  assert (Hnd'' : NoDup (l1 ++ l2)).
  { eapply sublist_NoDup; [exact Hnd'|]. apply sublist_app; [done|]. by apply sublist_cons. }
  assert (Hdep : u32 (wq_depth q + -1) = Z.of_nat (length (l1 ++ l2))).
  { rewrite Hd, u32_small; rewrite ?length_app in *; cbn in *; [lia|].
    unfold is_u32, UINT32_MAX in *. lia. }
  assert (Htl : (wq_tail q =? x) = bool_decide (l2 = [])).
  { rewrite Ht, last_of_app. cbn. destruct l2 as [|y l2]; cbn; [by rewrite Z.eqb_refl|].
    apply Z.eqb_neq.
    pose proof (last_of_cons_in x y l2) as Hin. cbn in Hin. by intros <-. }
  unfold cut_node. rewrite Ex. split; try done; [..|set_solver|rewrite !length_app in *; cbn in *; lia].
  - rewrite first_of_app. destruct (last_of NULL l1 =? NULL) eqn:E1; bools; cbn; [|destruct (_ =? _); cbn].
    + apply Hnull in E1. subst l1. cbn. by destruct (wq_tail q =? x).
    + rewrite Hh. destruct l1; [by destruct E1|done].
    + rewrite Hh. destruct l1; [by destruct E1|done].
  - rewrite last_of_app. destruct (last_of NULL l1 =? NULL); cbn; rewrite Htl;
      destruct l2 as [|y l2]; cbn; rewrite ?Ht, ?last_of_app; done.
  - destruct (last_of NULL l1 =? NULL); cbn; destruct (wq_tail q =? x); cbn; done.
  - assert (Hfr : chained (<[x := NULL]> (<[last_of NULL l1 := first_of NULL l2]> (wq_next q))) l1 (first_of NULL l2)
      ∨ l1 = []).
    { destruct (decide (l1 = [])) as [->|Hne]; [by right|left]. apply chained_frame; [done|].
      by eapply chained_set_last. }
    assert (Hout : last_of NULL l1 ∉ l2).
    { destruct (last_of_in NULL l1) as [->|Hin]; [set_solver|]. intros Hin2. apply (Hdis _ Hin). by right. }
    apply chained_app. destruct (last_of NULL l1 =? NULL) eqn:E1; bools; cbn;
      destruct (wq_tail q =? x); cbn; split;
      try (apply Hnull in E1; subst l1; exact I);
      try (by repeat apply chained_frame);
      destruct Hfr as [Hfr| ->]; done.
Qed.

(** The scan has passed [l1] and is about to look at [l2]. *)
Lemma remove_from_waits node l1 l2 :
  l = l1 ++ l2 → node ∉ l1 →
  remove_from (length l2) node (last_of NULL l1) (first_of NULL l2) q =
    if decide (node ∈ l2) then (true, cut_node (last_of NULL (cut_before node l)) node q) else (false, q).
Proof.
  revert l1. induction l2 as [|x l2 IH]; intros l1 E Hn; [done|]. cbn [remove_from length first_of].
  pose proof (wt_null _ _ Hq) as H0. pose proof (wt_links _ _ Hq) as Hl.
  rewrite E, chained_app in Hl. destruct Hl as (_ & Ex & _).
  destruct (x =? NULL) eqn:Ex0; bools; [set_solver|].
  destruct (x =? node) eqn:Exn; bools.
  - subst x. rewrite decide_True by by left. by rewrite E, cut_before_app.
  - rewrite Ex. specialize (IH (l1 ++ [x])). rewrite last_of_app in IH. cbn in IH. rewrite IH.
    + destruct (decide (node ∈ l2)), (decide (node ∈ x :: l2)); set_solver.
    + by rewrite <- app_assoc.
    + set_solver.
Qed.

Lemma remove_eq x :
  llam_wait_queue_remove x q =
    if decide (x ∈ l) then (true, cut_node (last_of NULL (cut_before x l)) x q) else (false, q).
Proof.
  unfold llam_wait_queue_remove. destruct (x =? NULL) eqn:E; bools.
  - subst x. by rewrite decide_False by apply Hq.
  - rewrite (wt_depth _ _ Hq), (wt_head _ _ Hq), Nat2Z.id.
    apply (remove_from_waits x [] l); [done|set_solver].
Qed.

Lemma remove_absent x : x ∉ l → llam_wait_queue_remove x q = (false, q).
Proof. intros Hx. by rewrite remove_eq, decide_False. Qed.

Lemma remove_present x l1 l2 :
  l = l1 ++ x :: l2 → ∃ q', llam_wait_queue_remove x q = (true, q') ∧ waits q' (l1 ++ l2).
Proof.
  intros E. assert (Hx1 : x ∉ l1).
  { pose proof (wt_nodup _ _ Hq) as Hnd. rewrite E in Hnd. apply NoDup_app in Hnd as (_ & Hd & _).
    intros Hin. apply (Hd x Hin). by left. }
  rewrite remove_eq, decide_True by set_solver. eexists. split; [done|].
  rewrite E, cut_before_app by done. by apply cut_node_waits.
Qed.
End specs.
