(* ===== verification/Mutex.v ===== *)
(** * The mutex of the runtime

    [src/core/sync/mutex.c] and the wait-node handshake of
    [src/core/sync/sync.c], with the timeouts and cancellations of
    [src/core/time/timer.c] that end a wait from outside.

    Tasks run on several workers, so the operations interleave.  An agent is a
    task or a worker that expires a timer or a cancellation; it is at a point
    of the code ([pc]) and a step takes it to the next access that other
    agents can observe: an atomic load, store or compare-and-swap, or a whole
    critical section of the mutex's internal lock.  Memory is sequentially
    consistent.  A wait node is named by its task, whose embedded node it is,
    so [llam_sync_wait_node_acquire] does not allocate.  A task that parks
    runs again when it was reinjected ([m_token]); that a reinjected task is
    scheduled is the subject of the run queue files.

    A step takes an answer of the environment: whether the deadline has
    passed, the [errno] of a call that sets up the wait ([0] for success),
    and whether the wait a timeout or a cancellation looks at is still the one
    it was made for. *)

From stdpp Require Import functions.
From S2P Require Import Prelude Message ClDeque RunQueue WaitQueue.

Definition EPERM : Z := 1.
Definition EDEADLK : Z := 35.
Definition ECANCELED : Z := 125.

(** ** State *)

(** The states of [wake_armed]. *)
Inductive arm := UNARMED | ARMED | COMPLETED_INLINE | COMPLETED_QUEUED.

Record llam_wait_node := WaitNode {
  n_error : Z; n_uninterruptible : bool;
  n_armed : arm; n_completed : bool; n_queued : bool }.

(** [m_class] and [m_base] are the tasks' scheduling classes; a lower value is
    more urgent. *)
Record mutex_world := MutexWorld {
  m_owner : Z; m_waiters : llam_wait_queue; m_node : Z → llam_wait_node;
  m_class : Z → Z; m_base : Z → Z; m_token : Z → bool }.

Definition set_owner (x : Z) (m : mutex_world) : mutex_world :=
  let '(MutexWorld _ q n c b k) := m in MutexWorld x q n c b k.
Definition set_waiters (q : llam_wait_queue) (m : mutex_world) : mutex_world :=
  let '(MutexWorld o _ n c b k) := m in MutexWorld o q n c b k.
Definition on_node (x : Z) (f : llam_wait_node → llam_wait_node) (m : mutex_world) : mutex_world :=
  let '(MutexWorld o q n c b k) := m in MutexWorld o q (<[x := f (n x)]> n) c b k.
Definition set_class (x v : Z) (m : mutex_world) : mutex_world :=
  let '(MutexWorld o q n c b k) := m in MutexWorld o q n (<[x := v]> c) b k.
Definition set_token (x : Z) (v : bool) (m : mutex_world) : mutex_world :=
  let '(MutexWorld o q n c b k) := m in MutexWorld o q n c b (<[x := v]> k).

Definition set_error (e : Z) (n : llam_wait_node) : llam_wait_node :=
  let '(WaitNode _ u a c q) := n in WaitNode e u a c q.
Definition set_uninterruptible (u : bool) (n : llam_wait_node) : llam_wait_node :=
  let '(WaitNode e _ a c q) := n in WaitNode e u a c q.
Definition set_armed (a : arm) (n : llam_wait_node) : llam_wait_node :=
  let '(WaitNode e u _ c q) := n in WaitNode e u a c q.
Definition set_completed (c : bool) (n : llam_wait_node) : llam_wait_node :=
  let '(WaitNode e u a _ q) := n in WaitNode e u a c q.
Definition set_queued (q : bool) (n : llam_wait_node) : llam_wait_node :=
  let '(WaitNode e u a c _) := n in WaitNode e u a c q.

(** ** Points of the code *)

(** The arguments of [llam_mutex_lock_resolved_impl]. *)
Record lock_args := LockArgs { a_deadline : bool; a_cancellable : bool }.

(** What follows a reset of the wait node. *)
Inductive after_reset := ThenQueue (o : lock_args) | ThenReturn (rc : Z).

(** The stores of [llam_wait_node_reset] other agents can see. *)
Inductive reset_pc := ResetArmed | ResetCompleted | ResetQueued.

(** [inside] is what the caller of an operation knows: it got the mutex and
    did not release it. *)
Inductive lock_pc :=
  | LockOwner (o : lock_args) (inside : bool)
  | LockFast (o : lock_args)
  | LockLate (o : lock_args)
  | LockReset (r : reset_pc) (k : after_reset)
  | LockQueue (o : lock_args)
  | LockTrack (o : lock_args)
  | LockDeadline (o : lock_args)
  | LockCancel (o : lock_args)
  | LockFailed (e : Z)
  | LockRemove (e : Z)
  | LockReady
  | LockQueued
  | LockPark
  | LockResult.

(** [node] is [NULL] when no task waited. *)
Inductive unlock_pc :=
  | UnlockOwner (inside : bool)
  | UnlockPop
  | UnlockClass (node : Z)
  | UnlockError (node : Z).

Inductive wake_pc :=
  | WakeArmed (node : Z)
  | WakeQueued (node : Z)
  | WakeCompleted (node : Z) (reinject : bool)
  | WakeReinject (node : Z).

(** A task is outside the mutex operations ([Ready], with the result of the
    last one) or in one of them; a worker sleeps or ends the wait of [node]
    with the error [e]. *)
Inductive pc :=
  | Ready (rc : Z) (inside : bool)
  | Try (inside : bool)
  | Lock (p : lock_pc)
  | Unlock (p : unlock_pc)
  | Wake (p : wake_pc)
  | Asleep
  | Abort (node e : Z).

(** ** [sync.c] *)

(** [llam_wait_node_reset]: the plain stores come with the first atomic one. *)
Definition llam_wait_node_reset (r : reset_pc) (x : Z) (m : mutex_world) : option reset_pc * mutex_world :=
  match r with
  | ResetArmed =>
    (Some ResetCompleted,
     on_node x (λ n, set_armed UNARMED (set_uninterruptible false (set_error 0 n)))
       (set_waiters (set_link x NULL (m_waiters m)) m))
  | ResetCompleted => (Some ResetQueued, on_node x (set_completed false) m)
  | ResetQueued => (None, on_node x (set_queued false) m)
  end.

(** [llam_wait_node_prepare_wake]: the compare-and-swap, then the stores;
    [None] when it returns [false], [WakeReinject] when it returns [true]. *)
Definition llam_wait_node_prepare_wake (p : wake_pc) (m : mutex_world) : option wake_pc * mutex_world :=
  match p with
  | WakeArmed x =>
    match n_armed (m_node m x) with
    | UNARMED => (Some (WakeCompleted x false), on_node x (set_armed COMPLETED_INLINE) m)
    | ARMED => (Some (WakeQueued x), on_node x (set_armed COMPLETED_QUEUED) m)
    | _ => (None, m)
    end
  | WakeQueued x => (Some (WakeCompleted x true), on_node x (set_queued true) m)
  | WakeCompleted x reinject =>
    (if reinject then Some (WakeReinject x) else None, on_node x (set_completed true) m)
  | WakeReinject x => (Some p, m)
  end.

(** A task that is parked is reinjected after that; [None] when the wake-up is
    over. *)
Definition llam_wake_wait_node (p : wake_pc) (m : mutex_world) : option wake_pc * mutex_world :=
  match p with
  | WakeReinject x => (None, set_token x true m)
  | _ => llam_wait_node_prepare_wake p m
  end.

Definition llam_wait_node_completed (x : Z) (m : mutex_world) : bool := n_completed (m_node m x).

(** [llam_wait_node_should_park]: the compare-and-swap, then the load. *)
Definition llam_wait_node_should_park (p : lock_pc) (t : Z) (m : mutex_world) : lock_pc * mutex_world :=
  match p with
  | LockReady =>
    match n_armed (m_node m t) with
    | UNARMED => (LockPark, on_node t (set_armed ARMED) m)
    | COMPLETED_QUEUED => (LockPark, m)
    | _ => (LockQueued, m)
    end
  | _ => (if n_queued (m_node m t) then LockPark else LockResult, m)
  end.

(** ** [mutex.c] *)

Definition llam_mutex_donate_priority (owner waiter : Z) (m : mutex_world) : mutex_world :=
  if (owner =? NULL) || (waiter =? NULL) || (owner =? waiter) then m
  else if m_class m waiter <? m_class m owner then set_class owner (m_class m waiter) m
  else m.

Definition llam_mutex_trylock (t : Z) (inside : bool) (m : mutex_world) : pc * mutex_world :=
  if m_owner m =? 0 then (Ready 0 true, set_owner t m) else (Ready EBUSY inside, m).

(** The critical section that queues the task or takes a free mutex. *)
Definition lock_enqueue (t : Z) (o : lock_args) (m : mutex_world) : lock_pc * mutex_world :=
  let m := on_node t (set_uninterruptible (negb (a_cancellable o))) m in
  if m_owner m =? 0 then (LockReset ResetArmed (ThenReturn 0), set_owner t m)
  else
    let m := llam_mutex_donate_priority (m_owner m) t m in
    (LockTrack o, set_waiters (llam_wait_queue_push_tail t (m_waiters m)) m).

(** The critical section that takes the node out of the queue again. *)
Definition lock_rollback (t e : Z) (m : mutex_world) : lock_pc * mutex_world :=
  let '(removed, q) := llam_wait_queue_remove t (m_waiters m) in
  (if removed then LockReset ResetArmed (ThenReturn e) else LockReady, set_waiters q m).

Definition in_lock (r : lock_pc * mutex_world) : pc * mutex_world := (Lock r.1, r.2).

Definition llam_mutex_lock_resolved_impl (t env : Z) (p : lock_pc) (m : mutex_world) :
    option (pc * mutex_world) :=
  let failed := negb (env =? 0) in
  match p with
  | LockOwner o inside =>
    Some (if m_owner m =? t then Ready EDEADLK inside else Lock (LockFast o), m)
  | LockFast o =>
    Some (if m_owner m =? 0 then (Ready 0 true, set_owner t m) else (Lock (LockLate o), m))
  | LockLate o =>
    Some (if a_deadline o && failed then Ready ETIMEDOUT false
          else Lock (LockReset ResetArmed (ThenQueue o)), m)
  | LockReset r k =>
    let '(r', m') := llam_wait_node_reset r t m in
    Some (match r', k with
          | Some r', _ => Lock (LockReset r' k)
          | None, ThenQueue o => Lock (LockQueue o)
          | None, ThenReturn rc => Ready rc (rc =? 0)
          end, m')
  | LockQueue o => Some (in_lock (lock_enqueue t o m))
  | LockTrack o => Some (Lock (if failed then LockFailed env else LockDeadline o), m)
  | LockDeadline o =>
    Some (Lock (if a_deadline o && failed then LockFailed env else LockCancel o), m)
  | LockCancel o => Some (Lock (if a_cancellable o && failed then LockFailed env else LockReady), m)
  | LockFailed e => Some (Lock (if llam_wait_node_completed t m then LockReady else LockRemove e), m)
  | LockRemove e => Some (in_lock (lock_rollback t e m))
  | LockReady | LockQueued => Some (in_lock (llam_wait_node_should_park p t m))
  | LockPark => if m_token m t then Some (Lock LockResult, set_token t false m) else None
  | LockResult => Some (Lock (LockReset ResetArmed (ThenReturn (n_error (m_node m t)))), m)
  end.

(** The critical section of the release: ownership passes to the first waiter. *)
Definition unlock_pop (m : mutex_world) : Z * mutex_world :=
  let '(node, q) := llam_wait_queue_pop_head (m_waiters m) in
  (node, set_owner (if negb (node =? NULL) then node else 0) (set_waiters q m)).

Definition llam_mutex_unlock (t : Z) (p : unlock_pc) (m : mutex_world) : pc * mutex_world :=
  match p with
  | UnlockOwner inside =>
    (if negb (m_owner m =? t) then Ready EPERM inside else Unlock UnlockPop, m)
  | UnlockPop => let '(node, m) := unlock_pop m in (Unlock (UnlockClass node), m)
  | UnlockClass node =>
    (if negb (node =? NULL) then Unlock (UnlockError node) else Ready 0 false,
     set_class t (m_base m t) m)
  | UnlockError node => (Wake (WakeArmed node), on_node node (set_error 0) m)
  end.

(** ** [timer.c] *)

(** The end of a wait by a timeout or a cancellation; a cancellation leaves an
    uninterruptible wait alone. *)
Definition abort_wait (env node e : Z) (m : mutex_world) : pc * mutex_world :=
  if (env =? 0) || ((e =? ECANCELED) && n_uninterruptible (m_node m node)) then (Asleep, m)
  else
    let '(removed, q) := llam_wait_queue_remove node (m_waiters m) in
    if removed then (Wake (WakeArmed node), on_node node (set_error e) (set_waiters q m))
    else (Asleep, set_waiters q m).

(** ** The interleaving *)

Inductive agent := Task (t : Z) | Worker (k : nat).

#[export] Instance agent_eq_dec : EqDecision agent.
Proof. solve_decision. Defined.

(** Where an agent is after the operation it was in. *)
Definition idle (a : agent) : pc := match a with Task _ => Ready 0 false | Worker _ => Asleep end.

Definition advance (a : agent) (env : Z) (p : pc) (m : mutex_world) : option (pc * mutex_world) :=
  match a, p with
  | Task t, Try inside => Some (llam_mutex_trylock t inside m)
  | Task t, Lock p => llam_mutex_lock_resolved_impl t env p m
  | Task t, Unlock p => Some (llam_mutex_unlock t p m)
  | Worker _, Abort node e => Some (abort_wait env node e m)
  | _, Wake p => let '(p', m') := llam_wake_wait_node p m in Some (from_option Wake (idle a) p', m')
  | _, _ => None
  end.

(** What an idle agent starts. *)
Inductive call := CallLock (o : lock_args) | CallTrylock | CallUnlock | CallAbort (node e : Z).

Definition enter (a : agent) (k : call) (p : pc) : option pc :=
  match a, k, p with
  | Task _, CallLock o, Ready _ b => Some (Lock (LockOwner o b))
  | Task _, CallTrylock, Ready _ b => Some (Try b)
  | Task _, CallUnlock, Ready _ b => Some (Unlock (UnlockOwner b))
  | Worker _, CallAbort node e, Asleep =>
    if (e =? ETIMEDOUT) || (e =? ECANCELED) then Some (Abort node e) else None
  | _, _, _ => None
  end.

Inductive event := Call (k : call) | Run (env : Z).

Record config := Config { c_mem : mutex_world; c_pc : agent → pc }.

Definition move (a : agent) (e : event) (c : config) : option config :=
  match e with
  | Call k => p ← enter a k (c_pc c a); Some (Config (c_mem c) (<[a := p]> (c_pc c)))
  | Run env =>
    '(p, m) ← advance a env (c_pc c a) (c_mem c); Some (Config m (<[a := p]> (c_pc c)))
  end.

Fixpoint play (s : list (agent * event)) (c : config) : option config :=
  match s with
  | [] => Some c
  | (a, e) :: s' => c' ← move a e c; play s' c'
  end.

Definition fresh_node : llam_wait_node := WaitNode 0 false UNARMED false false.

(** A free mutex and idle agents; the tasks run in their base classes. *)
Definition init (base : Z → Z) : config :=
  Config (MutexWorld 0 empty_queue (λ _, fresh_node) base base (λ _, false)) idle.
