(* ===== verification/MutexInv.v ===== *)
(** * The invariant of the mutex

    The configurations of [Mutex] reachable from a free mutex: what holds of a
    task at each point of the code, what an agent that took a node from the
    queue still has to do for it, and that every move keeps it.

    A node is in one of four states: outside any wait; in the queue; taken
    from the queue by exactly one agent that has to complete it; completed,
    with the task running or still to be reinjected by exactly one agent.  The
    tasks [U] are the ones that use the mutex; there are fewer than [2^32], as
    the queue counts its nodes in an [unsigned]. *)

From stdpp Require Import functions.
From S2P Require Import Prelude Message ClDeque RunQueue WaitQueue Mutex.

(** ** The invariant *)

(** The task's node is in the queue, an agent is completing it, or it was
    completed. *)
Definition waiting (p : pc) : bool :=
  match p with
  | Lock (LockTrack _ | LockDeadline _ | LockCancel _ | LockFailed _ | LockRemove _ | LockReady | LockPark) => true
  | _ => false
  end.

Definition parked (p : pc) : bool := match p with Lock LockPark => true | _ => false end.

(** [wake_armed] of a waiting task before and after its completion. *)
Definition armed_at (p : pc) : arm := if parked p then ARMED else UNARMED.
Definition completed_at (p : pc) : arm := if parked p then COMPLETED_QUEUED else COMPLETED_INLINE.

(** An agent took the node from the queue and has to complete it, or it
    completed the node of a parked task and has to reinject that task. *)
Inductive duty := Complete (x : Z) | Reinject (x : Z).

Definition duty_of (p : pc) : option duty :=
  match p with
  | Unlock (UnlockClass x) => if x =? NULL then None else Some (Complete x)
  | Unlock (UnlockError x) | Wake (WakeArmed x) => Some (Complete x)
  | Wake (WakeQueued x | WakeCompleted x true | WakeReinject x) => Some (Reinject x)
  | _ => None
  end.

Definition node_of (d : duty) : Z := match d with Complete x | Reinject x => x end.

Definition owner (c : config) : Z := m_owner (c_mem c).
Definition node (c : config) (t : Z) : llam_wait_node := m_node (c_mem c) t.
Definition token (c : config) (t : Z) : bool := m_token (c_mem c) t.

Section inv.
Context (U : list Z) (HU0 : NULL ∉ U) (HUlen : (Z.of_nat (length U) <= UINT32_MAX)%Z).
Implicit Types (c : config) (l : list Z) (t : Z).

(** The error of a completed wait tells whether the task got the mutex. *)
Definition settled c t : Prop := n_error (node c t) = 0 ↔ owner c = t.

(** Some agent has the duty [d]. *)
Definition served c (d : duty) : Prop := ∃ a, duty_of (c_pc c a) = Some d.

(** The task's wait was completed and, if it is parked, it will run again. *)
Definition finished c t : Prop :=
  n_armed (node c t) = completed_at (c_pc c (Task t)) ∧ settled c t ∧
  (parked (c_pc c (Task t)) = true → token c t = true ∨ served c (Reinject t)).

(** What holds of the task [t] at each point. *)
Definition point_ok l c t : Prop :=
  match c_pc c (Task t) with
  | Ready _ b | Try b | Lock (LockOwner _ b) | Unlock (UnlockOwner b) => b = true ↔ owner c = t
  | Lock (LockFast _ | LockLate _ | LockReset ResetArmed (ThenQueue _)) => owner c ≠ t
  | Lock (LockReset _ (ThenQueue _)) => owner c ≠ t ∧ n_armed (node c t) = UNARMED
  | Lock (LockReset _ (ThenReturn rc)) => rc = 0 ↔ owner c = t
  | Lock (LockQueue _) => owner c ≠ t ∧ n_armed (node c t) = UNARMED ∧ n_queued (node c t) = false
  | Lock (LockTrack _ | LockDeadline _ | LockCancel _ | LockFailed _ | LockRemove _ | LockReady | LockPark) =>
    (t ∈ l ∨ served c (Complete t) ∨ finished c t) ∧
    (n_queued (node c t) = true → n_armed (node c t) = COMPLETED_QUEUED)
  | Lock LockQueued => settled c t ∧ n_queued (node c t) = false
  | Lock LockResult => settled c t
  | Unlock UnlockPop => owner c = t
  | Unlock _ | Wake _ => owner c ≠ t
  | Asleep | Abort _ _ => False
  end.

Record task_ok l c t : Prop := TaskOk {
  tk_point : point_ok l c t;
  tk_queue : t ∈ l → waiting (c_pc c (Task t)) = true ∧
    n_armed (node c t) = armed_at (c_pc c (Task t)) ∧ owner c ≠ t;
  tk_token : token c t = true →
    c_pc c (Task t) = Lock LockPark ∧ n_armed (node c t) = COMPLETED_QUEUED;
  tk_error : ∀ e, c_pc c (Task t) = Lock (LockFailed e) ∨ c_pc c (Task t) = Lock (LockRemove e) → e ≠ 0 }.

(** A node outside the queue whose wait nobody completed. *)
Definition claimed l c x : Prop :=
  x ∈ U ∧ (x ∉ l) ∧ waiting (c_pc c (Task x)) = true ∧ n_armed (node c x) = armed_at (c_pc c (Task x)).

(** What holds of the node of an agent at [p]. *)
Definition duty_ok l c (p : pc) : Prop :=
  match p with
  | Unlock (UnlockClass x) => x ≠ NULL → claimed l c x ∧ owner c = x
  | Unlock (UnlockError x) => claimed l c x ∧ owner c = x
  | Wake (WakeArmed x) => claimed l c x ∧ settled c x
  | Wake (WakeQueued x | WakeCompleted x true | WakeReinject x) =>
    x ∈ U ∧ c_pc c (Task x) = Lock LockPark ∧ n_armed (node c x) = COMPLETED_QUEUED ∧ token c x = false
  | _ => True
  end.

Definition worker_ok (p : pc) : Prop :=
  match p with Asleep | Wake _ => True | Abort _ e => e ≠ 0 | _ => False end.

Record inv l c : Prop := Inv {
  i_waits : waits (m_waiters (c_mem c)) l;
  i_sub : ∀ t, t ∈ l → t ∈ U;
  i_task : ∀ t, t ∈ U → task_ok l c t;
  i_duty : ∀ a, duty_ok l c (c_pc c a);
  i_uniq : ∀ a b d d', duty_of (c_pc c a) = Some d → duty_of (c_pc c b) = Some d' →
    node_of d = node_of d' → a = b;
  i_held : l ≠ [] → owner c ≠ 0;
  i_owner : owner c = 0 ∨ owner c ∈ U;
  i_worker : ∀ k, worker_ok (c_pc c (Worker k)) }.

(** ** Frames *)

(** The configurations agree on the task [t]. *)
Record same l c l' c' t : Prop := Same {
  sm_pc : c_pc c' (Task t) = c_pc c (Task t);
  sm_error : n_error (node c' t) = n_error (node c t);
  sm_armed : n_armed (node c' t) = n_armed (node c t);
  sm_queued : n_queued (node c' t) = n_queued (node c t);
  sm_owner : owner c' = t ↔ owner c = t;
  sm_token : token c' t = token c t;
  sm_list : t ∈ l' ↔ t ∈ l }.

Lemma settled_same l c l' c' t : same l c l' c' t → settled c t → settled c' t.
Proof. intros [] H. unfold settled in *. rewrite sm_error0. tauto. Qed.

Lemma task_ok_same l c l' c' t :
  same l c l' c' t → (∀ d, node_of d = t → served c d → served c' d) →
  task_ok l c t → task_ok l' c' t.
Proof.
  intros Hs Hd [H1 H2 H3 H4]. pose proof (settled_same _ _ _ _ _ Hs) as Hst.
  pose proof (Hd (Complete t) eq_refl) as Hc. pose proof (Hd (Reinject t) eq_refl) as Hr.
  destruct Hs as [Ep Ee Ea Eq Eo Et El]. split; rewrite ?Ep, ?Ea, ?Et, ?Eo, ?El; try done.
  unfold point_ok, finished in *. rewrite Ep, ?Ea, ?Eq, ?Et, ?Eo, ?El.
  destruct (c_pc c (Task t)) as [| |[]|[]| | |]; try tauto;
    try match goal with r : reset_pc |- _ => destruct r end;
    try match goal with k : after_reset |- _ => destruct k end; tauto.
Qed.

(** They agree on what the agents with a duty for [t] rely on. *)
Record alike l c l' c' t : Prop := Alike {
  al_waiting : waiting (c_pc c' (Task t)) = waiting (c_pc c (Task t));
  al_parked : parked (c_pc c' (Task t)) = parked (c_pc c (Task t));
  al_error : n_error (node c' t) = n_error (node c t);
  al_armed : n_armed (node c' t) = n_armed (node c t);
  al_owner : owner c' = t ↔ owner c = t;
  al_token : token c' t = token c t;
  al_list : t ∈ l' ↔ t ∈ l }.

Lemma same_alike l c l' c' t : same l c l' c' t → alike l c l' c' t.
Proof. intros []. split; congruence || done. Qed.

Lemma parked_at p : parked p = true ↔ p = Lock LockPark.
Proof. by destruct p as [| |[]| | | |]. Qed.

Lemma claimed_alike l c l' c' x : alike l c l' c' x → claimed l c x → claimed l' c' x.
Proof. intros [Ew Ep Ee Ea Eo Et El]. unfold claimed, armed_at. by rewrite Ew, Ep, Ea, El. Qed.

Lemma settled_alike l c l' c' t : alike l c l' c' t → settled c t → settled c' t.
Proof. intros [] H. unfold settled in *. rewrite al_error0. tauto. Qed.

Lemma reinject_alike l c l' c' x :
  alike l c l' c' x →
  x ∈ U ∧ c_pc c (Task x) = Lock LockPark ∧ n_armed (node c x) = COMPLETED_QUEUED ∧ token c x = false →
  x ∈ U ∧ c_pc c' (Task x) = Lock LockPark ∧ n_armed (node c' x) = COMPLETED_QUEUED ∧ token c' x = false.
Proof. intros [Ew Ep Ee Ea Eo Et El]. rewrite <- !parked_at. by rewrite Ep, Ea, Et. Qed.

Lemma duty_ok_alike l c l' c' p :
  (∀ d, duty_of p = Some d → alike l c l' c' (node_of d)) → duty_ok l c p → duty_ok l' c' p.
Proof.
  intros Hs. unfold duty_ok. destruct p as [| | |u|w| |]; try done.
  - destruct u as [| |x|x]; try done; cbn in Hs.
    + intros H Hx. destruct (x =? NULL) eqn:E; bools; [done|].
      pose proof (Hs _ eq_refl) as Hv. cbn in Hv. destruct (H Hx).
      split; [by eapply claimed_alike|by apply Hv].
    + intros [H1 H2]. pose proof (Hs _ eq_refl) as Hv. split; [by eapply claimed_alike|by apply Hv].
  - destruct w as [x|x|x []|x]; try done; cbn in Hs; pose proof (Hs _ eq_refl) as Hv; cbn in Hv;
      try by apply reinject_alike with (1 := Hv).
    intros [H1 H2]. split; [by eapply claimed_alike|by eapply settled_alike].
Qed.

(** A task somebody has a duty for is waiting and outside the queue. *)
Lemma duty_waiting l c p d :
  duty_ok l c p → duty_of p = Some d →
  node_of d ∈ U ∧ waiting (c_pc c (Task (node_of d))) = true ∧
  (node_of d ∈ l → n_armed (node c (node_of d)) ≠ armed_at (c_pc c (Task (node_of d)))).
Proof.
  unfold duty_ok, claimed. destruct p as [| | |u|w| |]; try done.
  - destruct u as [| |x|x]; try done; cbn; [destruct (x =? NULL) eqn:E; bools; [done|]|];
      intros H [= <-]; cbn; [specialize (H E)|]; destruct H as ((? & ? & ? & ?) & ?); done.
  - destruct w as [x|x|x []|x]; try done; cbn; intros H [= <-]; cbn.
    + destruct H as ((? & ? & ? & ?) & ?); done.
    + destruct H as (? & -> & -> & ?). done.
    + destruct H as (? & -> & -> & ?). done.
    + destruct H as (? & -> & -> & ?). done.
Qed.

Lemma duty_none l c p : duty_of p = None → duty_ok l c p.
Proof.
  destruct p as [| | |[| |x|x]|[x|x|x []|x]| |]; try done. cbn. destruct (x =? NULL) eqn:E; bools; done.
Qed.

Definition own (a : agent) : list Z := match a with Task t => [t] | Worker _ => [] end.

(** The agent [a] moves and the tasks outside [S] see nothing of it. *)
Lemma inv_move l c l' m' a p' (S : list Z) :
  let c' := Config m' (<[a := p']> (c_pc c)) in
  inv l c →
  (∀ t, t ∈ U → t ∉ S → t ∉ own a → same l c l' c' t) →
  (∀ d, duty_of (c_pc c a) = Some d → node_of d ∈ S ∨ duty_of p' = Some d) →
  (∀ t, t ∈ own a ++ S → t ∈ U → task_ok l' c' t) →
  (∀ b d, b ≠ a → duty_of (c_pc c b) = Some d → node_of d ∈ own a ++ S → duty_ok l' c' (c_pc c b)) →
  duty_ok l' c' p' →
  (∀ b d d', b ≠ a → duty_of p' = Some d → duty_of (c_pc c b) = Some d' → node_of d ≠ node_of d') →
  waits (m_waiters m') l' →
  (∀ t, t ∈ l' → t ∈ U) →
  (l' ≠ [] → m_owner m' ≠ 0) →
  (m_owner m' = 0 ∨ m_owner m' ∈ U) →
  match a with Worker _ => worker_ok p' | Task _ => True end →
  inv l' c'.
Proof.
  intros c' [Hw Hsub Ht Hd Hu Hh Ho Hk] Hsame Hdut Hown Hoth Hmine Huq Hw' Hsub' Hh' Ho' Hk'.
  split; try done.
  - intros t HU. destruct (decide (t ∈ own a ++ S)) as [|Hn]; [by apply Hown|].
    apply not_elem_of_app in Hn as [Hn1 Hn2]. eapply task_ok_same; [by apply Hsame| |by apply Ht].
    intros d <- [b Hb]. destruct (decide (b = a)) as [->|Hne].
    + destruct (Hdut _ Hb) as [?|E]; [done|]. exists a. cbn. by rewrite fn_lookup_insert.
    + exists b. cbn. by rewrite fn_lookup_insert_ne.
  - intros b. destruct (decide (b = a)) as [->|Hne]; cbn.
    + by rewrite fn_lookup_insert.
    + rewrite fn_lookup_insert_ne by done. destruct (duty_of (c_pc c b)) as [d|] eqn:E.
      * destruct (decide (node_of d ∈ own a ++ S)) as [|Hn]; [by eapply Hoth|].
        apply not_elem_of_app in Hn as [Hn1 Hn2]. eapply duty_ok_alike; [|apply Hd].
        rewrite E. intros d' [= <-]. apply same_alike, Hsame; try done. by apply (duty_waiting l c (c_pc c b)).
      * eapply duty_ok_alike; [|apply Hd]. by rewrite E.
  - intros b1 b2 d d'. cbn. destruct (decide (b1 = a)) as [->|N1], (decide (b2 = a)) as [->|N2];
      rewrite ?fn_lookup_insert, ?fn_lookup_insert_ne by done; intros H1 H2 E; try done.
    + exfalso. by eapply (Huq b2).
    + exfalso. by eapply (Huq b1).
    + by eapply Hu.
  - intros k. cbn. destruct (decide (a = Worker k)) as [->|Hne]; [by rewrite fn_lookup_insert|].
    by rewrite fn_lookup_insert_ne.
Qed.

(** *** A task that is not waiting moves *)

Lemma no_duty l c t b d :
  inv l c → waiting (c_pc c (Task t)) = false → duty_of (c_pc c b) = Some d → node_of d ≠ t.
Proof. intros H Hw Hb <-. apply (duty_waiting l c) in Hb as (_ & Hb & _); [congruence|apply H]. Qed.

Lemma inv_own l c l' m' t p' :
  let c' := Config m' (<[Task t := p']> (c_pc c)) in
  inv l c → t ∈ U →
  (∀ b d, duty_of (c_pc c b) = Some d → node_of d ≠ t) →
  duty_of (c_pc c (Task t)) = None → duty_of p' = None →
  (∀ x, x ∈ U → x ≠ t → same l c l' c' x) →
  task_ok l' c' t →
  waits (m_waiters m') l' → (∀ x, x ∈ l' → x ∈ U) →
  (l' ≠ [] → m_owner m' ≠ 0) → (m_owner m' = 0 ∨ m_owner m' ∈ U) →
  inv l' c'.
Proof.
  intros c' H HU Hno Hd Hd' Hs Ht Hq Hsub Hh Ho. eapply (inv_move l c l' m' (Task t) p' []); try done.
  - intros x Hx _ Hn. apply Hs; [done|]. set_solver.
  - rewrite Hd. done.
  - intros x [Hx%list_elem_of_singleton|Hx%elem_of_nil]%elem_of_app; [by subst|done].
  - intros b d _ Hb [Hx%list_elem_of_singleton|Hx%elem_of_nil]%elem_of_app; [|done].
    exfalso. by apply (Hno b d).
  - by apply duty_none.
  - by rewrite Hd'.
Qed.

(** The memory changes for no other task and the queue stays as it is. *)
Lemma inv_step_own l c m' t p' :
  let c' := Config m' (<[Task t := p']> (c_pc c)) in
  inv l c → t ∈ U →
  waiting (c_pc c (Task t)) = false → duty_of (c_pc c (Task t)) = None →
  waiting p' = false → duty_of p' = None →
  (∀ x, x ≠ t → m_node m' x = m_node (c_mem c) x) →
  m_token m' = m_token (c_mem c) →
  waits (m_waiters m') l →
  m_owner m' = m_owner (c_mem c) ∨ m_owner (c_mem c) = 0 ∧ m_owner m' = t →
  point_ok l c' t →
  inv l c'.
Proof.
  intros c' H HU Hw Hd Hw' Hd' Hn Hk Hq Ho Hpt.
  pose proof (i_task _ _ H t HU) as [_ Hql Htk _].
  assert (Hnl : t ∉ l) by (intros Hin; destruct (Hql Hin); congruence).
  assert (Epc : c_pc c' (Task t) = p') by (cbn; by rewrite fn_lookup_insert).
  eapply inv_own; try done.
  - intros b d. by apply no_duty with (l := l).
  - intros x HxU Hx. split; try done; unfold c', node, token, owner; cbn;
      rewrite ?fn_lookup_insert_ne, ?Hn, ?Hk by congruence; try done.
    destruct Ho as [->|[E1 ->]]; [done|]. rewrite E1. split; [congruence|]. by intros <-.
  - split; fold c'; rewrite ?Epc; try done.
    + unfold token. cbn. rewrite Hk. intros E. apply Htk in E as [E _]. by rewrite E in Hw.
    + intros e [-> | ->]; done.
  - apply H.
  - intros Hl. apply (i_held _ _ H) in Hl as Hl'. unfold owner in Hl'. destruct Ho as [->|[E _]]; done.
  - destruct Ho as [->|[_ ->]]; [apply H|by right].
Qed.

(** *** A waiting task moves *)

(** What holds of a waiting task. *)
Lemma point_waiting l c t :
  waiting (c_pc c (Task t)) = true →
  point_ok l c t ↔ (t ∈ l ∨ served c (Complete t) ∨ finished c t) ∧
    (n_queued (node c t) = true → n_armed (node c t) = COMPLETED_QUEUED).
Proof. unfold point_ok. by destruct (c_pc c (Task t)) as [| |[]| | | |]. Qed.

(** It goes on before it parks, with the memory as it was. *)
Lemma inv_wait l c t p p' :
  inv l c → t ∈ U → c_pc c (Task t) = p →
  waiting p = true → waiting p' = true → parked p = false → parked p' = false →
  (∀ e, p' = Lock (LockFailed e) ∨ p' = Lock (LockRemove e) → e ≠ 0) →
  inv l (Config (c_mem c) (<[Task t := p']> (c_pc c))).
Proof.
  intros H HU Ep Hw Hw' Hp Hp' He. set (c' := Config _ _).
  assert (Epc : c_pc c' (Task t) = p') by (cbn; by rewrite fn_lookup_insert).
  assert (Hnd : duty_of p = None ∧ duty_of p' = None) by (split; [destruct p|destruct p']; done).
  assert (Hd : ∀ d, served c d → served c' d).
  { intros d [b Hb]. exists b. cbn. destruct (decide (b = Task t)) as [->|Hne];
      [rewrite Ep in Hb; naive_solver|by rewrite fn_lookup_insert_ne]. }
  eapply (inv_move l c l _ (Task t) p' []); try done; try apply H.
  - intros x _ _ Hx. split; try done. cbn. rewrite fn_lookup_insert_ne; [done|]. set_solver.
  - rewrite Ep. naive_solver.
  - intros x [Hx%list_elem_of_singleton|Hx%elem_of_nil]%elem_of_app _; [subst x|done].
    destruct (i_task _ _ H t HU) as [H1 H2 H3 H4]. fold c'. split; rewrite ?Epc; try done.
    + apply point_waiting; [by rewrite Epc|]. apply point_waiting in H1; [|by rewrite Ep].
      destruct H1 as [Hpt ?]. split; [|done]. destruct Hpt as [?|[?|(Ha & Hst & _)]]; [by left|..].
      * right. left. by apply Hd.
      * right. right. unfold finished, completed_at in *. rewrite Ep, Hp in Ha. rewrite Epc, Hp'. done.
    + intros Hin. destruct (H2 Hin) as (_ & Ha & Ho). unfold armed_at in *. rewrite Ep, Hp in Ha. by rewrite Hp'.
    + intros Htk. destruct (H3 Htk) as [E _]. rewrite Ep in E. by rewrite E in Hp.
  - intros b d Hb Eb [Hx%list_elem_of_singleton|Hx%elem_of_nil]%elem_of_app; [|done]. fold c'.
    eapply duty_ok_alike; [|apply H]. rewrite Eb. intros d' [= <-]. rewrite Hx. split; try done; rewrite Epc, Ep; congruence.
  - by destruct p' as [| |[]| | | |].
  - destruct Hnd as [_ ->]. done.
Qed.

(** *** The lock operation *)

Lemma waits_reset l c t r :
  inv l c → t ∉ l → waits (m_waiters (llam_wait_node_reset r t (c_mem c)).2) l.
Proof.
  intros H Ht. destruct (c_mem c) as [o q n k b v] eqn:E. pose proof (i_waits _ _ H) as Hw.
  rewrite E in Hw. destruct r; cbn in *; try done. by apply waits_set_link.
Qed.

(** A step of a task that does not wait: [E] is the point it is at. *)
Ltac own_step H E :=
  eapply inv_step_own; [exact H|done|by rewrite E|by rewrite E|done..| | | | |]; try done;
  match goal with
  | |- point_ok _ _ _ => unfold point_ok, owner, settled, node; cbn; rewrite ?fn_lookup_insert; cbn
  | |- _ => idtac
  end.

Lemma not_waiting_out l c t : inv l c → t ∈ U → waiting (c_pc c (Task t)) = false → t ∉ l.
Proof. intros H HU Hw Hin. destruct (tk_queue _ _ _ (i_task _ _ H t HU) Hin). congruence. Qed.

Lemma lock_fast_inv l c t env p p' m' :
  inv l c → t ∈ U → c_pc c (Task t) = Lock p →
  match p with LockOwner _ _ | LockFast _ | LockLate _ | LockReset _ _ => True | _ => False end →
  llam_mutex_lock_resolved_impl t env p (c_mem c) = Some (p', m') →
  inv l (Config m' (<[Task t := p']> (c_pc c))).
Proof.
  intros H HU Ep Hp Hm. pose proof (tk_point _ _ _ (i_task _ _ H t HU)) as Hpt.
  assert (Hnl : t ∉ l) by (apply (not_waiting_out l c); [done..|rewrite Ep; by destruct p]).
  pose proof (waits_reset l c t) as Hres. pose proof (i_waits _ _ H) as Hw.
  unfold point_ok in Hpt. rewrite Ep in Hpt. unfold owner, settled, node, token in Hpt.
  destruct (c_mem c) as [ow q n k b v] eqn:Em.
  destruct p as [o i|o|o|r ar| | | | | | | | | |]; try done; cbn in Hm.
  - destruct (ow =? t) eqn:E; bools; injection Hm as <- <-; own_step H Ep; rewrite ?Em; cbn; by auto.
  - destruct (ow =? 0) eqn:E; bools; injection Hm as <- <-; own_step H Ep; rewrite ?Em; cbn; by auto.
  - destruct (a_deadline o && _); injection Hm as <- <-; own_step H Ep; rewrite ?Em; cbn; by auto.
  - specialize (Hres r H Hnl). destruct r, ar as [o|rc]; cbn in *; injection Hm as <- <-;
      own_step H Ep; rewrite ?Em; cbn; auto; try (intros x Hx; by rewrite fn_lookup_insert_ne).
    all: try (destruct (n t); naive_solver). rewrite Z.eqb_eq. done.
Qed.

(** Everything but the classes. *)
Definition sync_part (m : mutex_world) := (m_owner m, m_waiters m, m_node m, m_token m).

Lemma donate_sync o w m : sync_part (llam_mutex_donate_priority o w m) = sync_part m.
Proof.
  unfold llam_mutex_donate_priority. destruct (_ || _); [done|]. destruct (_ <? _); [|done]. by destruct m.
Qed.

Lemma queue_room l t : NoDup l → t ∉ l → (∀ x, x ∈ l → x ∈ U) → t ∈ U → (Z.of_nat (length l) < UINT32_MAX)%Z.
Proof.
  intros Hnd Ht Hl HU. assert (Hs : submseteq (t :: l) U).
  { apply NoDup_submseteq; [by constructor|]. intros x [->|Hx]%elem_of_cons; auto. }
  apply submseteq_length in Hs. cbn in Hs. lia.
Qed.

Lemma lock_enqueue_inv l c t o p' m' :
  inv l c → t ∈ U → c_pc c (Task t) = Lock (LockQueue o) →
  lock_enqueue t o (c_mem c) = (p', m') → ∃ l', inv l' (Config m' (<[Task t := Lock p']> (c_pc c))).
Proof.
  intros H HU Ep Hm. pose proof (i_task _ _ H t HU) as [Hpt _ Htk _].
  assert (Hnl : t ∉ l) by (apply (not_waiting_out l c); [done..|by rewrite Ep]).
  pose proof (i_waits _ _ H) as Hw. unfold point_ok in Hpt. rewrite Ep in Hpt.
  unfold owner, node in Hpt. unfold lock_enqueue in Hm.
  set (m1 := on_node t _ (c_mem c)) in Hm.
  assert (E1 : m_owner m1 = m_owner (c_mem c) ∧ m_waiters m1 = m_waiters (c_mem c) ∧
    m_token m1 = m_token (c_mem c) ∧ (∀ x, x ≠ t → m_node m1 x = m_node (c_mem c) x) ∧
    n_armed (m_node m1 t) = UNARMED ∧ n_queued (m_node m1 t) = false).
  { unfold m1. destruct (c_mem c) as [ow q n k b v]. cbn in *. rewrite fn_lookup_insert.
    destruct (n t) as [e u ar cm qu]. cbn in *. split_and!; try done; try apply Hpt.
    intros x Hx. by rewrite fn_lookup_insert_ne. }
  clearbody m1. destruct E1 as (Eo & Eq & Ek & En & Ea & Equ). rewrite Eo in Hm.
  destruct (m_owner (c_mem c) =? 0) eqn:E; bools; injection Hm as <- <-.
  - exists l. own_step H Ep; destruct m1; cbn in *; try done; [by rewrite Eq|by right].
  - pose proof (donate_sync (m_owner m1) t m1) as Es. rewrite Eo in Es.
    set (m2 := llam_mutex_donate_priority _ _ _) in *. clearbody m2. injection Es as Fo Fq Fn Fk.
    exists (l ++ [t]). eapply inv_own; try done.
    + intros b d. apply no_duty with (l := l); [done|by rewrite Ep].
    + by rewrite Ep.
    + intros x HxU Hx. split; unfold node, owner, token; destruct m2; cbn in *; subst;
        rewrite ?fn_lookup_insert_ne, ?En, ?Ek, ?Eo by congruence; try done. set_solver.
    + split; cbn; rewrite ?fn_lookup_insert; try done.
      * apply point_waiting; cbn; rewrite ?fn_lookup_insert; [done|]. split; [left; set_solver|].
        unfold node. destruct m2; cbn in *; subst. congruence.
      * intros _. unfold node, owner, armed_at; destruct m2; cbn in *; subst. rewrite Eo. naive_solver.
      * unfold token. destruct m2; cbn in *; subst. rewrite Ek. intros Hk. apply Htk in Hk as [Hk _]. congruence.
      * naive_solver.
    + destruct m2; cbn in *; subst. rewrite Eq. apply push_tail_waits; [done|by intros ->|done|].
      eapply queue_room; [apply Hw|done|apply H|done].
    + intros x [Hx| ->%list_elem_of_singleton]%elem_of_app; [by apply (i_sub _ _ H)|done].
    + intros _. destruct m2; cbn in *; subst. by rewrite Eo.
    + destruct m2; cbn in *; subst. rewrite Eo. apply H.
Qed.

(** A task in the queue is nobody's duty. *)
Lemma queued_no_duty l c t b d : inv l c → t ∈ l → duty_of (c_pc c b) = Some d → node_of d ≠ t.
Proof.
  intros H Ht Hb <-. pose proof (tk_queue _ _ _ (i_task _ _ H _ (i_sub _ _ H _ Ht)) Ht) as (_ & Ha & _).
  apply (duty_waiting l c) in Hb as (_ & _ & Hb); [|apply H]. by apply Hb.
Qed.

Lemma cut_elem l l1 l2 t :
  NoDup l → l = l1 ++ t :: l2 → (t ∉ l1 ++ l2) ∧ (∀ x, x ≠ t → x ∈ l1 ++ l2 ↔ x ∈ l).
Proof.
  intros Hnd ->. apply NoDup_app in Hnd as (_ & Hd1 & [Hd2 _]%NoDup_cons). split; set_solver.
Qed.

Lemma lock_rollback_inv l c t e p' m' :
  inv l c → t ∈ U → c_pc c (Task t) = Lock (LockRemove e) →
  lock_rollback t e (c_mem c) = (p', m') → ∃ l', inv l' (Config m' (<[Task t := Lock p']> (c_pc c))).
Proof.
  intros H HU Ep Hm. pose proof (i_task _ _ H t HU) as [_ Hql Htk He]. unfold lock_rollback in Hm.
  pose proof (i_waits _ _ H) as Hw. destruct (decide (t ∈ l)) as [Hin|Hout].
  - destruct (Hql Hin) as (_ & _ & Ho). pose proof (λ b d, queued_no_duty l c t b d H Hin) as Hno.
    apply list_elem_of_split in Hin as Hsp. destruct Hsp as (l1 & l2 & E).
    destruct (remove_present _ _ Hw t l1 l2 E) as (q' & E' & Hw'). rewrite E' in Hm. injection Hm as <- <-.
    destruct (cut_elem l l1 l2 t (wt_nodup _ _ Hw) E) as [Hout Hmem].
    exists (l1 ++ l2). destruct (c_mem c) as [ow q n k b v] eqn:Em. cbn in *.
    eapply inv_own; try done.
    + by rewrite Ep.
    + intros x HxU Hx. split; unfold node, owner, token; cbn; rewrite ?fn_lookup_insert_ne, ?Em by congruence; try done.
      by apply Hmem.
    + unfold owner, token in *. rewrite Em in *. split; cbn; rewrite ?fn_lookup_insert; try done.
      * unfold point_ok. cbn. rewrite fn_lookup_insert. specialize (He e (or_intror Ep)). done.
      * intros Hk. apply Htk in Hk as [Hk _]. congruence.
      * intros e' [[=]|[=]].
    + intros x Hx. apply (i_sub _ _ H), Hmem; [by intros ->|done].
    + intros _. pose proof (i_held _ _ H) as Hh. unfold owner in Hh. rewrite Em in Hh. apply Hh. rewrite E. by destruct l1.
    + pose proof (i_owner _ _ H) as Hh. unfold owner in Hh. by rewrite Em in Hh.
  - rewrite (remove_absent _ _ Hw t Hout) in Hm. injection Hm as <- <-. exists l.
    assert (Em : set_waiters (m_waiters (c_mem c)) (c_mem c) = c_mem c) by by destruct (c_mem c).
    rewrite Em. eapply inv_wait; try done. intros e' [[=]|[=]].
Qed.

(** A duty for a task that has not parked is a completion. *)
Lemma duty_unparked l c b d :
  inv l c → duty_of (c_pc c b) = Some d → parked (c_pc c (Task (node_of d))) = false →
  claimed l c (node_of d).
Proof.
  intros H Hb Hp. pose proof (i_duty _ _ H b) as Hd. rewrite <- not_true_iff_false, parked_at in Hp.
  unfold duty_ok, duty_of in *. destruct (c_pc c b) as [| | |[| |x|x]|[x|x|x []|x]| |]; try done;
    [destruct (x =? NULL) eqn:E; bools; [done|]|..]; injection Hb as <-; cbn in *; tauto.
Qed.

Lemma duty_ok_claim l c l' c' p d :
  duty_of p = Some d → duty_ok l c p → parked (c_pc c (Task (node_of d))) = false →
  claimed l' c' (node_of d) → owner c' = owner c → n_error (node c' (node_of d)) = n_error (node c (node_of d)) →
  duty_ok l' c' p.
Proof.
  rewrite <- not_true_iff_false, parked_at. unfold duty_of, duty_ok, settled.
  destruct p as [| | |[| |x|x]|[x|x|x []|x]| |]; try done;
    [destruct (x =? NULL) eqn:E; bools; [done|]|..]; intros [= <-]; cbn; intros H Hp Hc Eo Ee; rewrite ?Eo, ?Ee; tauto.
Qed.

(** The node of a task that is about to park: nobody completed it, or the
    completion is over. *)
Lemma unparked_cases l c t :
  inv l c → t ∈ U → waiting (c_pc c (Task t)) = true → parked (c_pc c (Task t)) = false →
  n_armed (node c t) = UNARMED ∧ (t ∈ l ∨ served c (Complete t)) ∨
  n_armed (node c t) = COMPLETED_INLINE ∧ settled c t ∧ ∀ b d, duty_of (c_pc c b) = Some d → node_of d ≠ t.
Proof.
  intros H HU Hw Hp. pose proof (i_task _ _ H t HU) as [Hpt Hql _ _].
  apply point_waiting in Hpt as [Hpt _]; [|done]. unfold armed_at in Hql. rewrite Hp in Hql.
  destruct Hpt as [Hin|[[b Hb]|(Ha & Hs & _)]].
  - left. split; [by apply Hql|by left].
  - left. split; [|right; by exists b]. apply (duty_unparked l) in Hb as (_ & _ & _ & Ha); [|done..].
    unfold armed_at in Ha. cbn in Ha. by rewrite Hp in Ha.
  - right. unfold completed_at in Ha. rewrite Hp in Ha. split_and!; [done..|]. intros b d Hb <-.
    apply (duty_unparked l) in Hb as (_ & _ & _ & Hc); [|done..].
    unfold armed_at in Hc. rewrite Hp in Hc. congruence.
Qed.

Lemma lock_arm_inv l c t :
  inv l c → t ∈ U → c_pc c (Task t) = Lock LockReady → n_armed (node c t) = UNARMED →
  inv l (Config (on_node t (set_armed ARMED) (c_mem c)) (<[Task t := Lock LockPark]> (c_pc c))).
Proof.
  intros H HU Ep Ha. pose proof (unparked_cases l c t H HU) as Hc. rewrite Ep in Hc.
  destruct (Hc eq_refl eq_refl) as [[_ Hq]|[Ha' _]]; [|congruence]. clear Hc.
  pose proof (i_task _ _ H t HU) as [Hpt Hql Htk _].
  apply point_waiting in Hpt as [_ Hqu]; [|by rewrite Ep]. set (c' := Config _ _).
  assert (Epc : c_pc c' (Task t) = Lock LockPark) by (cbn; by rewrite fn_lookup_insert).
  assert (En : node c' t = set_armed ARMED (node c t)).
  { unfold c', node. destruct (c_mem c). cbn. by rewrite fn_lookup_insert. }
  assert (En' : n_armed (node c' t) = ARMED ∧ n_error (node c' t) = n_error (node c t) ∧
    n_queued (node c' t) = n_queued (node c t)) by (rewrite En; by destruct (node c t)).
  destruct En' as (Ea & Ee & Equ).
  assert (Eo : owner c' = owner c) by (unfold c', owner; by destruct (c_mem c)).
  assert (Ek : token c' = token c) by (unfold c', token; by destruct (c_mem c)).
  assert (Ew : m_waiters (c_mem c') = m_waiters (c_mem c)) by (unfold c'; by destruct (c_mem c)).
  assert (Hcl : claimed l c t → claimed l c' t).
  { intros (? & ? & ? & _). unfold claimed. by rewrite Epc, Ea. }
  pose proof (i_held _ _ H) as Hh. pose proof (i_owner _ _ H) as Hoo. rewrite <- Eo in Hh, Hoo.
  eapply (inv_move l c l _ (Task t) (Lock LockPark) []); try done; fold c'; rewrite ?Ew; try apply H.
  - intros x HxU _ Hx. assert (x ≠ t) by set_solver. split; rewrite ?Eo, ?Ek; try done;
      unfold c', node; destruct (c_mem c); cbn; by rewrite ?fn_lookup_insert_ne by congruence.
  - by rewrite Ep.
  - intros x [Hx%list_elem_of_singleton|Hx%elem_of_nil]%elem_of_app _; [subst x|done].
    split; rewrite ?Epc; try done.
    + apply point_waiting; [by rewrite Epc|]. split.
      * destruct Hq as [?|[b Hb]]; [by left|]. right. left. exists b. cbn.
        rewrite fn_lookup_insert_ne; [done|]. intros Eb. by rewrite <- Eb, Ep in Hb.
      * rewrite Equ, Ea. intros E. apply Hqu in E. congruence.
    + rewrite Eo. intros Hin. by destruct (Hql Hin) as (_ & _ & ?).
    + rewrite Ek. intros Hk. apply Htk in Hk as [Hk _]. congruence.
    + intros e [[=]|[=]].
  - intros b d Hb Eb [Hx%list_elem_of_singleton|Hx%elem_of_nil]%elem_of_app; [|done].
    pose proof (duty_unparked l c b d H Eb) as Hd. rewrite Hx, Ep in Hd. specialize (Hcl (Hd eq_refl)).
    eapply duty_ok_claim; [exact Eb|apply H|by rewrite Hx, Ep|by rewrite Hx|done|by rewrite Hx].
  - change (waits (m_waiters (c_mem c')) l). rewrite Ew. apply H.
Qed.

Lemma lock_park_inv l c t p p' m' :
  inv l c → t ∈ U → c_pc c (Task t) = Lock p → p = LockReady ∨ p = LockQueued →
  llam_wait_node_should_park p t (c_mem c) = (p', m') →
  inv l (Config m' (<[Task t := Lock p']> (c_pc c))).
Proof.
  intros H HU Ep Hp Hm. pose proof (i_task _ _ H t HU) as [Hpt Hql Htk _].
  destruct Hp as [-> | ->]; cbn in Hm; fold (node c t) in Hm.
  - pose proof (unparked_cases l c t H HU) as Hc. rewrite Ep in Hc.
    destruct (Hc eq_refl eq_refl) as [[Ha _]|(Ha & Hs & Hno)]; rewrite Ha in Hm; injection Hm as <- <-;
      [by apply lock_arm_inv|].
    apply point_waiting in Hpt as [_ Hqu]; [|by rewrite Ep].
    assert (Hq : n_queued (node c t) = false).
    { destruct (n_queued (node c t)); [|done]. specialize (Hqu eq_refl). congruence. }
    assert (Hnl : t ∉ l).
    { intros Hin. destruct (Hql Hin) as (_ & Ha' & _). rewrite Ep in Ha'. cbn in Ha'; congruence. }
    eapply inv_own; try done; try apply H.
    + by rewrite Ep.
    + intros x HxU Hx. split; try done. cbn. by rewrite fn_lookup_insert_ne by congruence.
    + split; cbn; rewrite ?fn_lookup_insert; try done.
      * unfold point_ok. cbn. by rewrite fn_lookup_insert.
      * intros Hk. apply Htk in Hk as [Hk _]. congruence.
      * intros e [[=]|[=]].
  - unfold point_ok in Hpt. rewrite Ep in Hpt. destruct Hpt as [Hs Hq]. rewrite Hq in Hm.
    injection Hm as <- <-. own_step H Ep; [apply H|by left|done].
Qed.

Lemma lock_resume_inv l c t m' :
  inv l c → t ∈ U → c_pc c (Task t) = Lock LockPark → token c t = true →
  m' = set_token t false (c_mem c) →
  inv l (Config m' (<[Task t := Lock LockResult]> (c_pc c))).
Proof.
  intros H HU Ep Hk ->. pose proof (i_task _ _ H t HU) as [Hpt Hql Htk _].
  destruct (Htk Hk) as [_ Ha].
  assert (Hno : ∀ b d, duty_of (c_pc c b) = Some d → node_of d ≠ t).
  { intros b d Hb <-. pose proof (i_duty _ _ H b) as Hd. unfold duty_ok, duty_of, claimed in *.
    destruct (c_pc c b) as [| | |[| |x|x]|[x|x|x []|x]| |]; try done;
      [destruct (x =? NULL) eqn:E; bools; [done|]; specialize (Hd E)|..]; injection Hb as <-; cbn in *;
      rewrite Ep, Ha in Hd; destruct Hd as (Hd1 & Hd2); unfold armed_at in *; cbn in *;
      try (destruct Hd1 as (_ & _ & _ & ?)); try (destruct Hd2 as (_ & _ & ?)); congruence. }
  assert (Hnl : t ∉ l).
  { intros Hin. destruct (Hql Hin) as (_ & Ha' & _). rewrite Ep in Ha'. unfold armed_at in Ha'. cbn in Ha'. congruence. }
  assert (Hs : settled c t).
  { apply point_waiting in Hpt as [[?|[[b Hb]|(_ & ? & _)]] _]; [done| |done|by rewrite Ep].
    by apply Hno in Hb. }
  unfold settled, node, owner, token in *. pose proof H as [Hw Hsub _ _ _ Hh Hoo _].
  destruct (c_mem c) as [ow q n k b v] eqn:Em. unfold owner in *. rewrite ?Em in *.
  eapply inv_own; try done.
  - by rewrite Ep.
  - intros x HxU Hx. split; unfold node, owner, token; rewrite ?Em; cbn;
      rewrite ?fn_lookup_insert_ne by congruence; done.
  - split; cbn; rewrite ?fn_lookup_insert; try done.
    + unfold point_ok, settled. cbn. rewrite fn_lookup_insert. done.
    + intros e [[=]|[=]].
Qed.

Lemma lock_inv l c t env p p' m' :
  inv l c → t ∈ U → c_pc c (Task t) = Lock p →
  llam_mutex_lock_resolved_impl t env p (c_mem c) = Some (p', m') →
  ∃ l', inv l' (Config m' (<[Task t := p']> (c_pc c))).
Proof.
  intros H HU Ep Hm. pose proof (i_task _ _ H t HU) as [Hpt _ _ He].
  assert (Hok : ∀ q, waiting (Lock q) = true → parked (Lock q) = false →
    waiting (Lock p) = true → parked (Lock p) = false → (∀ e, Lock q = Lock (LockFailed e) ∨ Lock q = Lock (LockRemove e) → e ≠ 0) →
    ∃ l', inv l' (Config (c_mem c) (<[Task t := Lock q]> (c_pc c)))).
  { intros q Hq1 Hq2 Hp1 Hp2 Hq. exists l. by eapply inv_wait. }
  destruct p as [o i|o|o|r ar|o|o|o|o|e|e| | | |]; cbn in Hm.
  1-4: exists l; by eapply (lock_fast_inv l c t env).
  - destruct (lock_enqueue t o (c_mem c)) as [q m] eqn:E. injection Hm as <- <-. by eapply lock_enqueue_inv.
  - destruct (env =? 0) eqn:E; bools; injection Hm as <- <-; apply Hok; try done; by intros e [[= ->]|[=]].
  - destruct (a_deadline o), (env =? 0) eqn:E; bools; injection Hm as <- <-; apply Hok; try done;
      by intros e [[= ->]|[=]].
  - destruct (a_cancellable o), (env =? 0) eqn:E; bools; injection Hm as <- <-; apply Hok; try done;
      by intros e [[= ->]|[=]].
  - specialize (He e (or_introl Ep)). destruct (llam_wait_node_completed t (c_mem c));
      injection Hm as <- <-; apply Hok; try done; by intros e' [[=]|[= ->]].
  - destruct (lock_rollback t e (c_mem c)) as [q m] eqn:E. injection Hm as <- <-. by eapply lock_rollback_inv.
  - destruct (llam_wait_node_should_park LockReady t (c_mem c)) as [q m] eqn:E. cbn in E. rewrite E in Hm.
    injection Hm as <- <-. exists l. eapply lock_park_inv; [done..|by left|done].
  - destruct (llam_wait_node_should_park LockQueued t (c_mem c)) as [q m] eqn:E. cbn in E.
    injection E as <- <-. injection Hm as <- <-. exists l. eapply lock_park_inv; [done..|by right|done].
  - destruct (m_token (c_mem c) t) eqn:E; [|done]. injection Hm as <- <-. exists l. by eapply lock_resume_inv.
  - injection Hm as <- <-. unfold point_ok in Hpt. rewrite Ep in Hpt. exists l.
    own_step H Ep; [apply H|by left|exact Hpt].
Qed.

(** *** An agent with a duty moves *)

(** Points at which a task is done with the mutex. *)
Definition released (p : pc) : bool :=
  match p with Ready _ b => negb b | Unlock (UnlockClass _ | UnlockError _) | Wake _ => true | _ => false end.

Lemma released_waiting p : released p = true → waiting p = false.
Proof. by destruct p as [| | |[]| | |]. Qed.

Lemma released_ok l c t :
  released (c_pc c (Task t)) = true → task_ok l c t ↔ owner c ≠ t ∧ (t ∉ l) ∧ token c t = false.
Proof.
  intros Hr. split.
  - intros [Hpt Hql Htk _]. split_and!.
    + unfold point_ok in Hpt. destruct (c_pc c (Task t)) as [? []| | |[]| | |]; try done. naive_solver.
    + intros Hin. destruct (Hql Hin) as [Hw _]. by rewrite released_waiting in Hw.
    + destruct (token c t); [|done]. destruct (Htk eq_refl) as [E _]. by rewrite E in Hr.
  - intros (Ho & Hl & Hk). split; try done.
    + unfold point_ok. destruct (c_pc c (Task t)) as [? []| | |[]| | |]; try done.
    + congruence.
    + intros e [E|E]; by rewrite E in Hr.
Qed.

(** The agent works on the node [x] it has the duty for. *)
Lemma inv_duty l c m' a p' d :
  let x := node_of d in
  let c' := Config m' (<[a := p']> (c_pc c)) in
  inv l c → (∀ t, a = Task t → t ∈ U) → duty_of (c_pc c a) = Some d →
  (∀ d', duty_of p' = Some d' → node_of d' = x) →
  match a with Task _ => released p' = true | Worker _ => worker_ok p' end →
  m_owner m' = m_owner (c_mem c) → m_waiters m' = m_waiters (c_mem c) →
  (∀ y, y ≠ x → m_node m' y = m_node (c_mem c) y ∧ m_token m' y = m_token (c_mem c) y) →
  task_ok l c' x → duty_ok l c' p' →
  inv l c'.
Proof.
  intros x c' H HU Hd Hd' Hr Eo Ew Hy Hx Hok.
  pose proof (duty_waiting _ _ _ _ (i_duty _ _ H a) Hd) as (HxU & Hxw & _).
  assert (Hax : a ≠ Task x).
  { intros ->. fold x in Hxw. rewrite <- not_false_iff_true in Hxw. apply Hxw. unfold duty_of in Hd.
    by destruct (c_pc c (Task x)) as [| |[]| | | |]. }
  assert (Hdx : ∀ b d', b ≠ a → duty_of (c_pc c b) = Some d' → node_of d' ≠ x).
  { intros b d' Hb Eb E. apply Hb. symmetry. by eapply (i_uniq _ _ H). }
  eapply (inv_move l c l m' a p' [x]); try done.
  - intros t HtU Ht Hta. assert (Hne : t ≠ x) by set_solver.
    destruct (Hy t Hne) as [En Ek]. split; unfold c', node, token, owner; cbn; rewrite ?En, ?Ek, ?Eo; try done.
    rewrite fn_lookup_insert_ne; [done|]. intros ->. apply Hta. by left.
  - rewrite Hd. intros ? [= <-]. left. by left.
  - intros t [Ht| ->%list_elem_of_singleton]%elem_of_app HtU; [|done]. destruct a as [u|k]; [|by apply elem_of_nil in Ht].
    apply list_elem_of_singleton in Ht as ->. pose proof (i_task _ _ H u HtU) as Hu.
    assert (Hne : u ≠ x) by congruence. destruct (Hy u Hne) as [En Ek].
    apply released_ok in Hu.
    + apply released_ok; [cbn; by rewrite fn_lookup_insert|]. unfold owner, token in *. cbn. by rewrite Eo, Ek.
    + unfold duty_of in Hd. by destruct (c_pc c (Task u)) as [| | |[]| | |].
  - intros b d' Hb Eb [Ht|Ht%list_elem_of_singleton]%elem_of_app; [|by apply Hdx in Eb].
    destruct a as [u|k]; [|by apply elem_of_nil in Ht]. apply list_elem_of_singleton in Ht.
    exfalso. eapply (no_duty l c u); [done| |exact Eb|done]. unfold duty_of in Hd.
    by destruct (c_pc c (Task u)) as [| |[]| | | |].
  - intros b d1 d2 Hb E1 E2. rewrite (Hd' _ E1). intros E. by apply (Hdx b d2).
  - rewrite Ew. apply H.
  - apply H.
  - rewrite Eo. apply H.
  - rewrite Eo. apply H.
  - by destruct a.
Qed.

(** The agent moves without a duty and leaves the queue and the views of all
    tasks alone. *)
Lemma inv_quiet l c m' a p' :
  let c' := Config m' (<[a := p']> (c_pc c)) in
  inv l c → (∀ t, a = Task t → t ∈ U) →
  duty_of (c_pc c a) = None → duty_of p' = None →
  match a with
  | Task t => released (c_pc c (Task t)) = true ∧ released p' = true
  | Worker _ => worker_ok p'
  end →
  m_owner m' = m_owner (c_mem c) → m_waiters m' = m_waiters (c_mem c) → m_token m' = m_token (c_mem c) →
  (∀ y, n_error (m_node m' y) = n_error (m_node (c_mem c) y) ∧
        n_armed (m_node m' y) = n_armed (m_node (c_mem c) y) ∧
        n_queued (m_node m' y) = n_queued (m_node (c_mem c) y)) →
  inv l c'.
Proof.
  intros c' H HU Hd Hd' Hr Eo Ew Ek Hy.
  eapply (inv_move l c l m' a p' []); rewrite ?Eo, ?Ew; try done; try apply H.
  - intros t HtU _ Ht. destruct (Hy t) as (E1 & E2 & E3).
    split; unfold c', owner, node, token; cbn; rewrite ?Eo, ?Ek; try done.
    rewrite fn_lookup_insert_ne; [done|]. intros ->. apply Ht. by left.
  - by rewrite Hd.
  - intros t [Ht|Ht%elem_of_nil]%elem_of_app HtU; [|done]. destruct a as [u|k]; [|by apply elem_of_nil in Ht].
    apply list_elem_of_singleton in Ht as ->. destruct Hr as [Hr Hr']. pose proof (i_task _ _ H u HtU) as Hu.
    apply released_ok in Hu; [|done]. apply released_ok; [cbn; by rewrite fn_lookup_insert|].
    unfold owner, token in *. cbn. by rewrite Eo, Ek.
  - intros b d' Hb Eb [Ht|Ht%elem_of_nil]%elem_of_app; [|done]. destruct a as [u|k]; [|by apply elem_of_nil in Ht].
    apply list_elem_of_singleton in Ht. exfalso. eapply (no_duty l c u); [done| |exact Eb|done].
    apply released_waiting, Hr.
  - by apply duty_none.
  - by rewrite Hd'.
  - by destruct a.
Qed.

(** *** Completing a wait *)

(** The task whose node is out of the queue, with its completion under way. *)
Lemma claimed_ok l c l' c' a x :
  inv l c → claimed l' c x → duty_of (c_pc c' a) = Some (Complete x) →
  c_pc c' (Task x) = c_pc c (Task x) → n_armed (node c' x) = n_armed (node c x) →
  n_queued (node c' x) = n_queued (node c x) → token c' x = token c x →
  task_ok l' c' x ∧ claimed l' c' x.
Proof.
  intros H (HxU & Hxl & Hxw & Hxa) Hd Ep Ea Eq Ek. pose proof (i_task _ _ H x HxU) as [Hpt _ Htk He].
  apply point_waiting in Hpt as [_ Hqu]; [|done]. unfold claimed. split; [split|]; rewrite ?Ep, ?Ea; try done.
  - apply point_waiting; [by rewrite Ep|]. rewrite Eq, Ea. split; [|done]. right. left. by exists a.
  - by rewrite Ek.
Qed.

(** A completed and parked task got its result. *)
Lemma reinject_settled l c a x :
  inv l c → duty_of (c_pc c a) = Some (Reinject x) → settled c x ∧ x ∉ l.
Proof.
  intros H Hd. pose proof (i_duty _ _ H a) as Hok.
  assert (Hx : x ∈ U ∧ c_pc c (Task x) = Lock LockPark ∧ n_armed (node c x) = COMPLETED_QUEUED ∧ token c x = false).
  { unfold duty_ok, duty_of in *. destruct (c_pc c a) as [| | |[| |y|y]|[y|y|y []|y]| |]; try done;
      [by destruct (y =? NULL)|injection Hd as ->; exact Hok..]. }
  destruct Hx as (HxU & Ep & Ea & _). pose proof (i_task _ _ H x HxU) as [Hpt Hql _ _].
  assert (Hnl : x ∉ l).
  { intros Hin. destruct (Hql Hin) as (_ & Ha & _). rewrite Ep in Ha. unfold armed_at in Ha. cbn in Ha. congruence. }
  split; [|done]. apply point_waiting in Hpt as [[?|[[b Hb]|(_ & ? & _)]] _]; [done| |done|by rewrite Ep].
  assert (a = b) as <- by by eapply (i_uniq _ _ H a b). congruence.
Qed.

(** What a store to the node [x] leaves alone. *)
Lemma on_node_other x f m y :
  y ≠ x → m_node (on_node x f m) y = m_node m y ∧ m_token (on_node x f m) y = m_token m y.
Proof. destruct m. cbn. intros Hy. by rewrite fn_lookup_insert_ne. Qed.

Lemma on_node_rest x f m :
  m_owner (on_node x f m) = m_owner m ∧ m_waiters (on_node x f m) = m_waiters m ∧
  m_token (on_node x f m) = m_token m ∧ m_node (on_node x f m) x = f (m_node m x).
Proof. destruct m. cbn. by rewrite fn_lookup_insert. Qed.

(** A waiting task that has been completed. *)
Lemma finished_ok l c x :
  waiting (c_pc c (Task x)) = true → x ∉ l → finished c x →
  (n_queued (node c x) = true → parked (c_pc c (Task x)) = true) →
  (token c x = true → parked (c_pc c (Task x)) = true) →
  (∀ e, c_pc c (Task x) = Lock (LockFailed e) ∨ c_pc c (Task x) = Lock (LockRemove e) → e ≠ 0) →
  task_ok l c x.
Proof.
  intros Hw Hl Hf Hq Hk He. pose proof Hf as (Ha & _). unfold completed_at in Ha. split; try done.
  - apply point_waiting; [done|]. split; [by right; right|]. intros E. by rewrite (Hq E) in Ha.
  - intros E. apply Hk in E. rewrite E in Ha. by apply parked_at in E.
Qed.

Lemma complete_inv l c a x p' :
  let m' := on_node x (set_armed (completed_at (c_pc c (Task x)))) (c_mem c) in
  inv l c → (∀ t, a = Task t → t ∈ U) → c_pc c a = Wake (WakeArmed x) →
  match a with Task _ => released p' = true | Worker _ => worker_ok p' end →
  p' = (if parked (c_pc c (Task x)) then Wake (WakeQueued x) else Wake (WakeCompleted x false)) →
  inv l (Config m' (<[a := p']> (c_pc c))).
Proof.
  intros m' H HU Ep Hr Ep'. pose proof (i_duty _ _ H a) as Hd. rewrite Ep in Hd.
  destruct Hd as [(HxU & Hxl & Hxw & Hxa) Hs]. pose proof (i_task _ _ H x HxU) as [Hpt _ Htk He].
  apply point_waiting in Hpt as [_ Hqu]; [|done].
  assert (Hax : Task x ≠ a) by (intros <-; by rewrite Ep in Hxw).
  destruct (on_node_rest x (set_armed (completed_at (c_pc c (Task x)))) (c_mem c)) as (Eo & Ew & Ek & En).
  fold m' in Eo, Ew, Ek, En. set (c' := Config _ _).
  assert (Epx : c_pc c' (Task x) = c_pc c (Task x)) by (cbn; by rewrite fn_lookup_insert_ne).
  assert (Epa : c_pc c' a = p') by (cbn; by rewrite fn_lookup_insert).
  assert (Hk : token c x = false).
  { destruct (token c x); [|done]. destruct (Htk eq_refl) as [E1 E2]. rewrite E1, E2 in Hxa. done. }
  assert (En' : n_armed (node c' x) = completed_at (c_pc c (Task x)) ∧
    n_error (node c' x) = n_error (node c x) ∧ n_queued (node c' x) = false).
  { unfold node at 1 2 4. cbn. rewrite En. fold (node c x). destruct (node c x) as [e u ar cm qu]. cbn in *.
    split_and!; try done. destruct qu; [|done]. rewrite (Hqu eq_refl) in Hxa. unfold armed_at in Hxa.
    by destruct (parked _). }
  destruct En' as (Ea & Ee & Eq).
  eapply (inv_duty l c m' a p' (Complete x)); try done; fold c'.
  - by rewrite Ep.
  - intros d'. rewrite Ep'. by destruct (parked _); intros [= <-].
  - by apply on_node_other.
  - apply finished_ok; unfold finished, settled, token, owner; cbn; rewrite ?fn_lookup_insert_ne, ?Ea, ?Ee, ?Eq by done;
      rewrite ?Eo, ?Ek; try done; [|unfold token in Hk; rewrite Hk; done].
    split_and!; [done..|]. intros Hpk. right. exists a. by rewrite Epa, Ep', Hpk.
  - rewrite Ep'. destruct (parked _) eqn:Hpk; [|done]. unfold completed_at in Ea. rewrite Hpk in Ea.
    apply parked_at in Hpk. cbn. rewrite fn_lookup_insert_ne, Ea by done. unfold token. cbn. by rewrite Ek.
Qed.

(** The compare-and-swap of [llam_wait_node_prepare_wake]. *)
Lemma wake_armed_inv l c a x p' m' :
  inv l c → (∀ t, a = Task t → t ∈ U) → c_pc c a = Wake (WakeArmed x) →
  llam_wake_wait_node (WakeArmed x) (c_mem c) = (p', m') →
  inv l (Config m' (<[a := from_option Wake (idle a) p']> (c_pc c))).
Proof.
  intros H HU Ep Hm. pose proof (i_duty _ _ H a) as Hd. rewrite Ep in Hd.
  destruct Hd as [(_ & _ & _ & Hxa) _]. cbn in Hm. fold (node c x) in Hm. rewrite Hxa in Hm.
  pose proof (complete_inv l c a x) as Hc. unfold armed_at, completed_at in *.
  destruct (parked (c_pc c (Task x))); injection Hm as <- <-; cbn; apply Hc; try done; by destruct a.
Qed.

(** The stores and the reinjection that follow. *)
Lemma wake_queued_inv l c a x p p' m' :
  inv l c → (∀ t, a = Task t → t ∈ U) → c_pc c a = Wake p → duty_of (Wake p) = Some (Reinject x) →
  llam_wake_wait_node p (c_mem c) = (p', m') →
  inv l (Config m' (<[a := from_option Wake (idle a) p']> (c_pc c))).
Proof.
  intros H HU Ep Hd Hm. destruct (reinject_settled l c a x) as [Hs Hxl]; [done|by rewrite Ep|].
  pose proof (i_duty _ _ H a) as Hok. rewrite Ep in Hok.
  assert (Hx : x ∈ U ∧ c_pc c (Task x) = Lock LockPark ∧ n_armed (node c x) = COMPLETED_QUEUED ∧ token c x = false).
  { destruct p as [y|y|y []|y]; try done; injection Hd as ->; exact Hok. }
  destruct Hx as (HxU & Epx & Ha & Hk).
  assert (Hax : Task x ≠ a) by (intros <-; by rewrite Ep in Epx).
  assert (Hm' : m_owner m' = m_owner (c_mem c) ∧ m_waiters m' = m_waiters (c_mem c) ∧
    (∀ y, y ≠ x → m_node m' y = m_node (c_mem c) y ∧ m_token m' y = m_token (c_mem c) y) ∧
    n_armed (m_node m' x) = n_armed (node c x) ∧ n_error (m_node m' x) = n_error (node c x) ∧
    (m_token m' x = true ∧ p' = None ∨
     m_token m' x = false ∧ duty_of (from_option Wake (idle a) p') = Some (Reinject x))).
  { unfold node, token in *. destruct (c_mem c) as [ow q n k b v].
    destruct p as [y|y|y []|y]; try done; injection Hd as ->; injection Hm as <- <-; cbn in *;
      rewrite ?fn_lookup_insert; (split_and!; [done|done|intros y Hy; by rewrite ?fn_lookup_insert_ne|..]);
      try (by destruct (n x)); auto. }
  destruct Hm' as (Eo & Ew & Hy & Ea & Ee & Hk'). set (p2 := from_option Wake (idle a) p') in *. set (c' := Config _ _).
  assert (Epx' : c_pc c' (Task x) = Lock LockPark) by (cbn; by rewrite fn_lookup_insert_ne).
  assert (Epa : c_pc c' a = p2) by (cbn; by rewrite fn_lookup_insert).
  eapply (inv_duty l c m' a p2 (Reinject x)); try done; fold c'.
  - by rewrite Ep.
  - intros d' E. destruct Hk' as [[_ ->]|[_ E']]; [by destruct a|]. rewrite E' in E. by injection E as <-.
  - subst p2. destruct p as [y|y|y []|y]; try done; injection Hm as <- <-; by destruct a.
  - apply (finished_ok l c' x); rewrite ?Epx'; try done; [|intros e [[=]|[=]]].
    unfold finished, settled, owner, node, token in *. rewrite Epx'. cbn. rewrite Eo, Ee, Ea. split_and!; [done..|].
    intros _. destruct Hk' as [[? _]|[_ ?]]; [by left|right; exists a; by rewrite Epa].
  - destruct Hk' as [[_ ->]|[Hk' E]]; [by destruct a|].
    assert (Hg : x ∈ U ∧ c_pc c' (Task x) = Lock LockPark ∧ n_armed (node c' x) = COMPLETED_QUEUED ∧ token c' x = false)
      by (unfold node; cbn; by rewrite Ea).
    unfold duty_of, duty_ok in *. destruct p2 as [| | |[| |y|y]|[y|y|y []|y]| |]; try done;
      [by destruct (y =? NULL)|injection E as ->; exact Hg..].
Qed.

Lemma wake_inv l c a p p' m' :
  inv l c → (∀ t, a = Task t → t ∈ U) → c_pc c a = Wake p →
  llam_wake_wait_node p (c_mem c) = (p', m') →
  inv l (Config m' (<[a := from_option Wake (idle a) p']> (c_pc c))).
Proof.
  intros H HU Ep Hm. destruct p as [x|x|x []|x].
  - by eapply wake_armed_inv.
  - by eapply wake_queued_inv.
  - by eapply wake_queued_inv.
  - injection Hm as <- <-. destruct (on_node_rest x (set_completed true) (c_mem c)) as (Eo & Ew & Ek & En).
    eapply inv_quiet; try done; [by rewrite Ep|by destruct a|destruct a; [by rewrite Ep|done]|].
    intros y. destruct (decide (y = x)) as [->|Hne]; [rewrite En; by destruct (m_node (c_mem c) x)|].
    by destruct (on_node_other x (set_completed true) (c_mem c) y Hne) as [-> _].
  - by eapply wake_queued_inv.
Qed.

(** *** Releasing the mutex *)

Lemma unlock_free_inv l c m' t :
  l = [] → inv l c → t ∈ U → c_pc c (Task t) = Unlock UnlockPop →
  m_owner m' = 0 → waits (m_waiters m') [] → m_node m' = m_node (c_mem c) → m_token m' = m_token (c_mem c) →
  inv [] (Config m' (<[Task t := Unlock (UnlockClass NULL)]> (c_pc c))).
Proof.
  intros -> H HU Ep Eo Hw En Ek. pose proof (i_task _ _ H t HU) as [Hpt _ Htk _].
  unfold point_ok in Hpt. rewrite Ep in Hpt. unfold owner, token in *.
  assert (Hk : m_token (c_mem c) t = false).
  { destruct (m_token _ _); [|done]. destruct (Htk eq_refl) as [E _]. congruence. }
  eapply inv_own; try done.
  - intros b d. apply no_duty with (l := []); [done|by rewrite Ep].
  - by rewrite Ep.
  - intros y HyU Hy. split; unfold node, token, owner; cbn;
      rewrite ?En, ?Ek, ?Eo, ?fn_lookup_insert_ne by congruence; try done.
    rewrite Hpt. split; [intros <-; by destruct HU0|congruence].
  - apply released_ok; cbn; rewrite ?fn_lookup_insert; [done|]. unfold owner, token. cbn. rewrite Eo, Ek.
    split_and!; [|by intros ?%elem_of_nil|done]. intros <-. by apply HU0.
  - by intros y ?%elem_of_nil.
  - by left.
Qed.

(** The mutex goes to the first waiter, whose completion is now the duty of
    the task that released it. *)
Lemma unlock_handover_inv l c m' t x k :
  l = x :: k → inv l c → t ∈ U → c_pc c (Task t) = Unlock UnlockPop →
  m_owner m' = x → waits (m_waiters m') k → m_node m' = m_node (c_mem c) → m_token m' = m_token (c_mem c) →
  inv k (Config m' (<[Task t := Unlock (UnlockClass x)]> (c_pc c))).
Proof.
  intros El H HU Ep Eo Hw En Ek. assert (Hin : x ∈ l) by (rewrite El; by left).
  pose proof (i_task _ _ H t HU) as [Hpt _ Htk _]. pose proof (i_sub _ _ H x Hin) as HxU.
  unfold point_ok in Hpt. rewrite Ep in Hpt. unfold owner, token in *.
  assert (Hnl : t ∉ l) by (apply (not_waiting_out l c); [done..|by rewrite Ep]).
  assert (Hk : m_token (c_mem c) t = false).
  { destruct (m_token _ _); [|done]. destruct (Htk eq_refl) as [E _]. congruence. }
  pose proof (wt_nodup _ _ (i_waits _ _ H)) as Hnd. rewrite El in Hnd. apply NoDup_cons in Hnd as [Hxk _].
  pose proof (tk_queue _ _ _ (i_task _ _ H x HxU) Hin) as (Hxw & Hxa & _).
  assert (Hxt : x ≠ t) by congruence.
  assert (Hx0 : (x =? NULL) = false) by (apply Z.eqb_neq; congruence).
  set (p' := Unlock _). assert (Hp' : duty_of p' = Some (Complete x)) by (cbn; by rewrite Hx0).
  set (c' := Config _ _).
  assert (Epx : c_pc c' (Task x) = c_pc c (Task x)) by (cbn; by rewrite fn_lookup_insert_ne by congruence).
  assert (Enx : node c' x = node c x) by (unfold node; cbn; by rewrite En).
  eapply (inv_move l c k m' (Task t) p' [x]); try done; fold c'.
  - intros y HyU Hy Hyt. assert (y ≠ x ∧ y ≠ t) as [Hyx Hyt'] by set_solver.
    split; unfold c', node, token, owner; cbn; rewrite ?En, ?Ek, ?Eo, ?fn_lookup_insert_ne by congruence; try done.
    + rewrite Hpt. split; congruence.
    + rewrite El. set_solver.
  - by rewrite Ep.
  - intros y [Hy%list_elem_of_singleton|Hy%list_elem_of_singleton]%elem_of_app _; subst y.
    + apply released_ok; cbn; rewrite ?fn_lookup_insert; [done|]. unfold owner, token. cbn. rewrite Eo, Ek.
      split_and!; [done|set_solver|done].
    + eapply (claimed_ok l c k c' (Task t)); try done; [cbn; by rewrite fn_lookup_insert|by rewrite Enx..|].
      unfold token. cbn. by rewrite Ek.
  - intros b d Hb Eb [Hy%list_elem_of_singleton|Hy%list_elem_of_singleton]%elem_of_app; exfalso.
    + eapply (no_duty l c t b d); try done. by rewrite Ep.
    + by eapply (queued_no_duty l c x b d).
  - intros _. unfold claimed, owner. rewrite Epx, Enx. done.
  - intros b d d' Hb E1 E2. rewrite Hp' in E1. injection E1 as <-. intros E3.
    by eapply (queued_no_duty l c x b d').
  - intros y Hy. apply (i_sub _ _ H). rewrite El. by right.
  - rewrite Eo. intros _. by apply Z.eqb_neq.
  - rewrite Eo. by right.
Qed.

Lemma unlock_pop_inv l c t x m' :
  inv l c → t ∈ U → c_pc c (Task t) = Unlock UnlockPop → unlock_pop (c_mem c) = (x, m') →
  inv (tail l) (Config m' (<[Task t := Unlock (UnlockClass x)]> (c_pc c))) ∧ m_owner m' = first_of 0 l.
Proof.
  intros H HU Ep Hm. destruct (pop_head_waits _ _ (i_waits _ _ H)) as [Epop Hw]. unfold unlock_pop in Hm.
  destruct (llam_wait_queue_pop_head (m_waiters (c_mem c))) as [n q]. cbn in Epop, Hw.
  injection Hm as <- Hm.
  assert (Em : m_waiters m' = q ∧ m_node m' = m_node (c_mem c) ∧ m_token m' = m_token (c_mem c) ∧
    m_owner m' = if negb (n =? NULL) then n else 0) by (subst m'; by destruct (c_mem c)).
  destruct Em as (Eq & En & Ek & Eo). rewrite <- Eq in Hw. clear Hm. destruct l as [|x k].
  - injection Epop as -> _. split; [|done]. by eapply unlock_free_inv.
  - injection Epop as ->. assert (x ≠ NULL) by (intros ->; by apply HU0, (i_sub _ _ H); left).
    destruct (x =? NULL) eqn:E; bools; [done|]. split; [|done]. by eapply unlock_handover_inv.
Qed.

Lemma unlock_inv l c t p p' m' :
  inv l c → t ∈ U → c_pc c (Task t) = Unlock p → llam_mutex_unlock t p (c_mem c) = (p', m') →
  ∃ l', inv l' (Config m' (<[Task t := p']> (c_pc c))).
Proof.
  intros H HU Ep Hm. pose proof (tk_point _ _ _ (i_task _ _ H t HU)) as Hpt. unfold point_ok in Hpt. rewrite Ep in Hpt.
  assert (HUt : ∀ u, Task t = Task u → u ∈ U) by (by intros u [= <-]).
  pose proof (i_duty _ _ H (Task t)) as Hd. rewrite Ep in Hd. unfold owner in *.
  destruct p as [i| |x|x]; cbn in Hm.
  - exists l. destruct (m_owner (c_mem c) =? t) eqn:E; bools; injection Hm as <- <-; own_step H Ep; auto; apply H.
  - destruct (unlock_pop (c_mem c)) as [x m] eqn:E. injection Hm as <- <-. eexists. by eapply unlock_pop_inv.
  - exists l. assert (Em : sync_part m' = sync_part (c_mem c)) by (injection Hm as _ <-; by destruct (c_mem c)).
    injection Em as Eo Ew En Ek. cbn in Hd. destruct (x =? NULL) eqn:E; bools; injection Hm as <- _.
    + subst x. own_step H Ep; rewrite ?En, ?Ek, ?Ew, ?Eo; try done; [apply H|by left].
    + destruct (Hd E) as [Hcl Ho]. set (c' := Config _ _).
      assert (Hax : Task x ≠ Task t) by (intros [= ->]; destruct Hcl as (_ & _ & Hxw & _); by rewrite Ep in Hxw).
      destruct (claimed_ok l c l c' (Task t) x) as [Hx1 Hx2]; try done;
        try (unfold node, token; cbn; rewrite ?En, ?Ek, ?fn_lookup_insert, ?fn_lookup_insert_ne by done; done).
      eapply (inv_duty l c m' (Task t) _ (Complete x)); try done; rewrite ?En, ?Ek; try done.
      * rewrite Ep. cbn. by rewrite (proj2 (Z.eqb_neq _ _) E).
      * by intros d' [= <-].
      * fold c'. cbn. unfold owner. cbn. by rewrite Eo.
  - exists l. injection Hm as <- <-. destruct Hd as [Hcl Ho].
    destruct (on_node_rest x (set_error 0) (c_mem c)) as (Eo & Ew & Ek & En).
    assert (Hax : Task x ≠ Task t) by (intros [= ->]; destruct Hcl as (_ & _ & Hxw & _); by rewrite Ep in Hxw).
    set (c' := Config _ _).
    destruct (claimed_ok l c l c' (Task t) x) as [Hx1 Hx2]; try done;
      try (unfold node, token; cbn; rewrite ?En, ?Ek, ?fn_lookup_insert, ?fn_lookup_insert_ne by done;
           by destruct (m_node (c_mem c) x)).
    eapply (inv_duty l c _ (Task t) _ (Complete x)); try done.
    + by rewrite Ep.
    + by intros d' [= <-].
    + by apply on_node_other.
    + fold c'. split; [done|]. unfold settled, node, owner. cbn. rewrite En, Eo. by destruct (m_node (c_mem c) x).
Qed.

(** *** Ending a wait from outside *)

(** The node leaves the queue with an error. *)
Lemma abort_take_inv l c k x e q l1 l2 :
  inv l c → c_pc c (Worker k) = Abort x e → e ≠ 0 → l = l1 ++ x :: l2 → waits q (l1 ++ l2) →
  inv (l1 ++ l2) (Config (on_node x (set_error e) (set_waiters q (c_mem c)))
    (<[Worker k := Wake (WakeArmed x)]> (c_pc c))).
Proof.
  intros H Ep He El Hw. destruct (cut_elem l l1 l2 x (wt_nodup _ _ (i_waits _ _ H)) El) as [Hout Hmem].
  assert (Hin : x ∈ l) by (rewrite El; set_solver). pose proof (i_sub _ _ H x Hin) as HxU.
  pose proof (tk_queue _ _ _ (i_task _ _ H x HxU) Hin) as (Hxw & Hxa & Hxo).
  destruct (on_node_rest x (set_error e) (set_waiters q (c_mem c))) as (Eo & Ew & Ek & En).
  set (m' := on_node _ _ _) in *.
  assert (Em : m_owner m' = m_owner (c_mem c) ∧ m_waiters m' = q ∧ m_token m' = m_token (c_mem c) ∧
    m_node m' x = set_error e (m_node (c_mem c) x) ∧ ∀ y, y ≠ x → m_node m' y = m_node (c_mem c) y).
  { unfold m'. destruct (c_mem c). cbn. rewrite fn_lookup_insert. split_and!; try done.
    intros y Hy. by rewrite fn_lookup_insert_ne. }
  clear Eo Ew Ek En. clearbody m'. destruct Em as (Eo & Ew & Ek & En & Hy). set (c' := Config _ _).
  assert (Epx : c_pc c' (Task x) = c_pc c (Task x)) by (cbn; by rewrite fn_lookup_insert_ne).
  assert (Hx : task_ok (l1 ++ l2) c' x ∧ claimed (l1 ++ l2) c' x).
  { eapply (claimed_ok l c _ c' (Worker k)); try done; [cbn; by rewrite fn_lookup_insert|..];
      unfold node, token; cbn; rewrite ?En, ?Ek; by destruct (m_node (c_mem c) x). }
  destruct Hx as [Hx1 Hx2]. pose proof (i_held _ _ H) as Hh. pose proof (i_owner _ _ H) as Hoo. unfold owner in *.
  eapply (inv_move l c (l1 ++ l2) m' (Worker k) _ [x]); try done; fold c'; rewrite ?Eo, ?Ew; try done.
  - intros y HyU Hyx _. assert (y ≠ x) by set_solver. split; unfold c', owner, node, token; cbn;
      rewrite ?Eo, ?Ek, ?Hy, ?fn_lookup_insert_ne by done; try done. by apply Hmem.
  - by rewrite Ep.
  - by intros y [?%elem_of_nil| ->%list_elem_of_singleton]%elem_of_app _.
  - intros b d Hb Eb [Hn%elem_of_nil|Hn%list_elem_of_singleton]%elem_of_app; [done|].
    exfalso. by apply (queued_no_duty l c x b d).
  - split; [done|]. unfold settled, owner, node. cbn. rewrite En, Eo. destruct (m_node (c_mem c) x). done.
  - intros b d d' Hb [= <-] E2 E3. by apply (queued_no_duty l c x b d').
  - intros y Hin'. apply (i_sub _ _ H), Hmem; [congruence|done].
  - intros _. apply Hh. rewrite El. by destruct l1.
Qed.

Lemma abort_inv l c k x e env p' m' :
  inv l c → c_pc c (Worker k) = Abort x e → abort_wait env x e (c_mem c) = (p', m') →
  ∃ l', inv l' (Config m' (<[Worker k := p']> (c_pc c))).
Proof.
  intros H Ep Hm. pose proof (i_worker _ _ H k) as He. rewrite Ep in He. cbn in He. unfold abort_wait in Hm.
  assert (Hq : inv l (Config (c_mem c) (<[Worker k := Asleep]> (c_pc c)))).
  { eapply inv_quiet; try done. by rewrite Ep. }
  destruct (_ || _); [injection Hm as <- <-; by exists l|]. destruct (decide (x ∈ l)) as [Hin|Hout].
  - apply list_elem_of_split in Hin as Hsp. destruct Hsp as (l1 & l2 & E).
    destruct (remove_present _ _ (i_waits _ _ H) x l1 l2 E) as (q' & E' & Hw'). rewrite E' in Hm.
    injection Hm as <- <-. exists (l1 ++ l2). by eapply abort_take_inv.
  - rewrite (remove_absent _ _ (i_waits _ _ H) x Hout) in Hm. injection Hm as <- <-. exists l.
    by destruct (c_mem c).
Qed.

(** *** Every move *)

Lemma try_inv l c t b p' m' :
  inv l c → t ∈ U → c_pc c (Task t) = Try b → llam_mutex_trylock t b (c_mem c) = (p', m') →
  inv l (Config m' (<[Task t := p']> (c_pc c))).
Proof.
  intros H HU Ep Hm. pose proof (tk_point _ _ _ (i_task _ _ H t HU)) as Hpt. unfold point_ok in Hpt. rewrite Ep in Hpt.
  pose proof (i_waits _ _ H) as Hw. unfold owner in Hpt. unfold llam_mutex_trylock in Hm.
  destruct (c_mem c) as [ow q n k cl v] eqn:Em. cbn in *.
  destruct (ow =? 0) eqn:E; bools; injection Hm as <- <-; own_step H Ep; rewrite ?Em; cbn; by auto.
Qed.

Lemma enter_inv l c a k p' :
  inv l c → (∀ t, a = Task t → t ∈ U) → enter a k (c_pc c a) = Some p' →
  inv l (Config (c_mem c) (<[a := p']> (c_pc c))).
Proof.
  intros H HU Hm. destruct a as [t|w].
  - specialize (HU t eq_refl). pose proof (tk_point _ _ _ (i_task _ _ H t HU)) as Hpt. unfold point_ok in Hpt.
    pose proof (i_waits _ _ H) as Hw.
    destruct k, (c_pc c (Task t)) as [rc b| | | | | |] eqn:Ep; try done; injection Hm as <-; own_step H Ep; first [by left|exact Hpt].
  - destruct k as [| | |x e]; try done. cbn in Hm. destruct (c_pc c (Worker w)) eqn:Ep; try done.
    destruct (_ || _) eqn:E; [|done]. injection Hm as <-. eapply inv_quiet; try done; [by rewrite Ep|].
    cbn. intros ->. done.
Qed.

Definition agent_in (a : agent) : Prop := match a with Task t => t ∈ U | Worker _ => True end.

Lemma move_inv l c a e c' : inv l c → agent_in a → move a e c = Some c' → ∃ l', inv l' c'.
Proof.
  intros H HU Hm. assert (HUt : ∀ t, a = Task t → t ∈ U) by (by intros t ->).
  destruct e as [k|env]; cbn in Hm; unfold mbind, option_bind in Hm.
  - destruct (enter a k (c_pc c a)) as [p|] eqn:E; [|done]. injection Hm as <-. exists l. by eapply enter_inv.
  - destruct (advance a env (c_pc c a) (c_mem c)) as [[p m]|] eqn:E; [|done]. injection Hm as <-.
    unfold advance in E. destruct a as [t|w]; destruct (c_pc c _) as [|b|q|q|q| |x e] eqn:Ep; try done.
    + injection E as E. exists l. by eapply try_inv.
    + by eapply lock_inv.
    + injection E as E. by eapply unlock_inv.
    + destruct (llam_wake_wait_node q (c_mem c)) as [q' m'] eqn:Eq. injection E as <- <-.
      exists l. by eapply (wake_inv l c (Task t)).
    + destruct (llam_wake_wait_node q (c_mem c)) as [q' m'] eqn:Eq. injection E as <- <-.
      exists l. by eapply (wake_inv l c (Worker w)).
    + injection E as E. by eapply abort_inv.
Qed.

Lemma init_inv base : inv [] (init base).
Proof.
  split; try done.
  - apply waits_empty.
  - by intros t ?%elem_of_nil.
  - intros t Ht. split; cbn; try done; [|by intros ?%elem_of_nil|intros e [[=]|[=]]].
    unfold point_ok, owner. cbn. split; [done|]. intros <-. by destruct HU0.
  - by intros [].
  - by intros [] [].
  - by left.
Qed.

Definition lawful (s : list (agent * event)) : Prop := Forall (λ ae, agent_in ae.1) s.

Lemma play_inv l c s c' : inv l c → lawful s → play s c = Some c' → ∃ l', inv l' c'.
Proof.
  revert l c. induction s as [|[a e] s IH]; intros l c H Hs Hp; cbn in Hp; [injection Hp as <-; by exists l|].
  apply Forall_cons in Hs as [Ha Hs]. unfold mbind, option_bind in Hp.
  destruct (move a e c) as [c1|] eqn:E; [|done]. destruct (move_inv l c a e c1 H Ha E) as [l1 H1]. by eapply IH.
Qed.
End inv.
