(* ===== verification/MutexSystem.v ===== *)
(** * What the mutex promises

    Properties of every run of [Mutex]: mutual exclusion, that no wake-up is
    lost, that waiters get the mutex in the order they queued, and that a
    donated class ends with the release; and a run in which a completion that
    comes late makes a later wait miss its cancellation. *)

From stdpp Require Import functions.
From S2P Require Import Prelude Message ClDeque RunQueue WaitQueue Mutex MutexInv.

(** The tasks that use the mutex. *)
Definition users (U : list Z) : Prop := (NULL ∉ U) ∧ (Z.of_nat (length U) <= UINT32_MAX)%Z.

(** The configuration [c] comes up in some run of these tasks and any workers. *)
Definition reachable (U : list Z) (base : Z → Z) (c : config) : Prop :=
  ∃ s, lawful U s ∧ play s (init base) = Some c.

(** The last operation gave [t] the mutex, and [t] has not begun to release it. *)
Definition inside (c : config) (t : Z) : Prop := ∃ rc, c_pc c (Task t) = Ready rc true.

(** No agent is in the middle of an operation: the tasks are outside or
    parked, and the workers are asleep. *)
Definition resting (p : pc) : bool :=
  match p with Ready _ _ | Lock LockPark | Asleep => true | _ => false end.

Definition at_rest (c : config) : Prop := ∀ a, resting (c_pc c a) = true.

(** The number of times the owner changes while [t] stays in the queue. *)
Fixpoint handovers (t : Z) (s : list (agent * event)) (c : config) : nat :=
  match s with
  | [] => 0
  | (a, e) :: s' =>
    match move a e c with
    | None => 0
    | Some c' =>
      if (llam_wait_queue_remove t (m_waiters (c_mem c'))).1 then
        (if owner c' =? owner c then 0 else 1) + handovers t s' c'
      else 0
    end
  end.

(** ** The queue from move to move *)

(** The owner [o] and the queue [l] before, and after a move. *)
Inductive queue_change (o : Z) (l : list Z) : Z → list Z → Prop :=
  | qc_same : queue_change o l o l
  | qc_take o' : o = 0 → queue_change o l o' l
  | qc_push x : queue_change o l o (l ++ [x])
  | qc_cut x l1 l2 : l = l1 ++ x :: l2 → queue_change o l o (l1 ++ l2)
  | qc_pop : queue_change o l (first_of 0 l) (tail l).

Lemma chained_unique nx l l' :
  chained nx l NULL → chained nx l' NULL → first_of NULL l = first_of NULL l' → length l = length l' → l = l'.
Proof.
  revert l'. induction l as [|x l IH]; intros [|y l'] H H'; cbn; try done. intros -> [= Hl].
  f_equal. destruct H as [E H], H' as [E' H']. apply IH; try done. congruence.
Qed.

Lemma waits_unique q l l' : waits q l → waits q l' → l = l'.
Proof.
  intros [Hh _ Hd Hl _ _ _] [Hh' _ Hd' Hl' _ _ _]. eapply chained_unique; [done..|congruence|lia].
Qed.

Section queue.
Context (U : list Z) (HU : users U).

Lemma lock_enqueue_queue l c t o p' m' :
  inv U l c → t ∈ U → c_pc c (Task t) = Lock (LockQueue o) → lock_enqueue t o (c_mem c) = (p', m') →
  ∃ l', waits (m_waiters m') l' ∧ queue_change (owner c) l (m_owner m') l'.
Proof.
  intros H Ht Ep Hm. destruct HU as [HU0 HUlen]. pose proof (i_waits _ _ _ H) as Hw. unfold lock_enqueue in Hm.
  destruct (on_node_rest t (set_uninterruptible (negb (a_cancellable o))) (c_mem c)) as (Eo & Ew & _ & _).
  set (m1 := on_node t _ (c_mem c)) in *. clearbody m1. unfold owner. rewrite <- Eo.
  destruct (m_owner m1 =? 0) eqn:E; bools; injection Hm as _ <-.
  - exists l. destruct m1. cbn in *. subst. split; [done|by constructor].
  - pose proof (donate_sync (m_owner m1) t m1) as Es. set (m2 := llam_mutex_donate_priority _ _ _) in *.
    injection Es as Fo Fq _ _. exists (l ++ [t]). rewrite <- Fo. destruct m2. cbn in *. subst. split; [|constructor].
    assert (Hnl : t ∉ l) by (apply (not_waiting_out U l c); [done..|by rewrite Ep]).
    rewrite Ew. apply push_tail_waits; [done|by intros ->|done|].
    eapply (queue_room U); [done|apply Hw|done|apply H|done].
Qed.

(** Taking the node [x] out, if it is there. *)
Lemma remove_queue l q x b q' o :
  waits q l → llam_wait_queue_remove x q = (b, q') → ∃ l', waits q' l' ∧ queue_change o l o l'.
Proof.
  intros Hw Hm. destruct (decide (x ∈ l)) as [Hin|Hout].
  - apply list_elem_of_split in Hin as (l1 & l2 & E). destruct (remove_present _ _ Hw x l1 l2 E) as (q2 & E' & Hw').
    rewrite E' in Hm. injection Hm as _ <-. exists (l1 ++ l2). split; [done|]. by eapply qc_cut.
  - rewrite (remove_absent _ _ Hw x Hout) in Hm. injection Hm as _ <-. exists l. split; [done|constructor].
Qed.

Lemma lock_queue l c t env p p' m' :
  inv U l c → t ∈ U → c_pc c (Task t) = Lock p →
  llam_mutex_lock_resolved_impl t env p (c_mem c) = Some (p', m') →
  ∃ l', waits (m_waiters m') l' ∧ queue_change (owner c) l (m_owner m') l'.
Proof.
  intros H Ht Ep Hm. pose proof (i_waits _ _ _ H) as Hw.
  assert (Hsame : ∀ f, m' = on_node t f (c_mem c) ∨ m' = set_token t false (c_mem c) ∨ m' = c_mem c →
    ∃ l', waits (m_waiters m') l' ∧ queue_change (owner c) l (m_owner m') l').
  { intros f Hf. exists l. unfold owner. destruct (c_mem c). destruct Hf as [->|[->| ->]]; split; try done; constructor. }
  destruct p as [o i|o|o|r ar|o|o|o|o|e|e| | | |]; cbn in Hm.
  - injection Hm as _ <-. apply (Hsame id). auto.
  - unfold owner. destruct (_ =? 0) eqn:E; bools; injection Hm as _ <-.
    + exists l. destruct (c_mem c). split; [done|by constructor].
    + apply (Hsame id). auto.
  - injection Hm as _ <-. apply (Hsame id). auto.
  - assert (Hnl : t ∉ l) by (apply (not_waiting_out U l c); [done..|by rewrite Ep]).
    pose proof (waits_reset U l c t r H Hnl) as Hr.
    destruct (llam_wait_node_reset r t (c_mem c)) as [r' m] eqn:E. injection Hm as _ <-. exists l.
    split; [done|]. unfold owner. destruct (c_mem c), r; injection E as _ <-; constructor.
  - destruct (lock_enqueue t o (c_mem c)) as [q m] eqn:E. injection Hm as _ <-. by eapply lock_enqueue_queue.
  - injection Hm as _ <-. apply (Hsame id). auto.
  - injection Hm as _ <-. apply (Hsame id). auto.
  - injection Hm as _ <-. apply (Hsame id). auto.
  - injection Hm as _ <-. apply (Hsame id). auto.
  - unfold lock_rollback in Hm. destruct (llam_wait_queue_remove t (m_waiters (c_mem c))) as [b q] eqn:E.
    injection Hm as _ <-. destruct (remove_queue l _ _ _ _ (owner c) Hw E) as (l' & Hw' & Hc). exists l'.
    unfold owner in *. by destruct (c_mem c).
  - destruct (n_armed _); injection Hm as _ <-; first [apply (Hsame (set_armed ARMED))|apply (Hsame id)]; auto.
  - injection Hm as _ <-. apply (Hsame id). auto.
  - destruct (m_token _ _); [|done]. injection Hm as _ <-. apply (Hsame id). auto.
  - injection Hm as _ <-. apply (Hsame id). auto.
Qed.

Lemma unlock_queue l t p p' m m' :
  waits (m_waiters m) l → llam_mutex_unlock t p m = (p', m') →
  ∃ l', waits (m_waiters m') l' ∧ queue_change (m_owner m) l (m_owner m') l'.
Proof.
  intros Hw Hm. destruct p as [i| |x|x]; cbn in Hm.
  - injection Hm as _ <-. exists l. split; [done|constructor].
  - exists (tail l). destruct (pop_head_waits _ _ Hw) as [Epop Hw']. unfold unlock_pop in Hm.
    destruct (llam_wait_queue_pop_head (m_waiters m)) as [n q]. cbn in Epop, Hw'. injection Hm as _ <-.
    destruct m. cbn in *. split; [done|]. replace (if negb (n =? NULL) then n else 0) with (first_of 0 l);
      [constructor|]. pose proof (wt_null _ _ Hw) as H0. destruct l as [|x k]; injection Epop as ->; [done|].
    destruct (x =? NULL) eqn:E; bools; [set_solver|done].
  - injection Hm as _ <-. exists l. destruct m. split; [done|constructor].
  - injection Hm as _ <-. exists l. destruct m. split; [done|constructor].
Qed.

Lemma wake_queue l p p' m m' :
  waits (m_waiters m) l → llam_wake_wait_node p m = (p', m') →
  ∃ l', waits (m_waiters m') l' ∧ queue_change (m_owner m) l (m_owner m') l'.
Proof.
  intros Hw Hm. exists l. destruct m, p; cbn in Hm; [destruct (n_armed _)|..]; injection Hm as _ <-; (split; [done|constructor]).
Qed.

Lemma abort_queue l env x e p' m m' :
  waits (m_waiters m) l → abort_wait env x e m = (p', m') →
  ∃ l', waits (m_waiters m') l' ∧ queue_change (m_owner m) l (m_owner m') l'.
Proof.
  intros Hw Hm. unfold abort_wait in Hm. destruct (_ || _); [injection Hm as _ <-; exists l; split; [done|constructor]|].
  destruct (llam_wait_queue_remove x (m_waiters m)) as [b q] eqn:E.
  destruct (remove_queue l _ _ _ _ (m_owner m) Hw E) as (l' & Hw' & Hc). exists l'.
  destruct m, b; injection Hm as _ <-; done.
Qed.

Lemma move_queue l c a e c' :
  inv U l c → agent_in U a → move a e c = Some c' →
  ∃ l', inv U l' c' ∧ queue_change (owner c) l (owner c') l'.
Proof.
  intros H Ha Hm. destruct HU as [HU0 HUlen].
  assert (Hq : ∃ l', waits (m_waiters (c_mem c')) l' ∧ queue_change (owner c) l (owner c') l').
  { pose proof (i_waits _ _ _ H) as Hw. destruct e as [k|env]; cbn in Hm; unfold mbind, option_bind in Hm.
    - destruct (enter a k (c_pc c a)) as [p|]; [|done]. injection Hm as <-. exists l. split; [done|constructor].
    - destruct (advance a env (c_pc c a) (c_mem c)) as [[p m]|] eqn:E; [|done]. injection Hm as <-. cbn.
      unfold advance in E. destruct a as [t|w]; destruct (c_pc c _) as [|b|q|q|q| |x e] eqn:Ep; try done;
        try (destruct (llam_wake_wait_node q (c_mem c)) as [q' m'] eqn:Eq; injection E as _ <-; by eapply wake_queue).
      + injection E as E. exists l. unfold owner. unfold llam_mutex_trylock in E. cbn. destruct (c_mem c).
        destruct (_ =? 0) eqn:E0; cbn in E0; bools; injection E as _ <-; split; try done; by constructor.
      + by eapply lock_queue.
      + injection E as E. by eapply unlock_queue.
      + injection E as E. by eapply abort_queue. }
  destruct Hq as (l' & Hw & Hc). destruct (move_inv U HU0 HUlen l c a e c' H Ha Hm) as [l2 H2].
  assert (l2 = l') as -> by (eapply waits_unique; [apply H2|done]). by exists l'.
Qed.

(** A waiter that stays in the queue only moves forward, and with every
    change of the owner it does. *)
Lemma queue_change_front o l o' l' l1 t l2 :
  queue_change o l o' l' → o ≠ 0 → NoDup l → l = l1 ++ t :: l2 → t ∈ l' →
  ∃ l1' l2', l' = l1' ++ t :: l2' ∧ ((if (o' =? o)%Z then 0 else 1) + length l1' <= length l1)%nat.
Proof.
  intros Hc Ho Hnd El Ht. destruct Hc as [|o' E|x|x k1 k2 E|]; try rewrite Z.eqb_refl.
  - by exists l1, l2.
  - done.
  - exists l1, (l2 ++ [x]). by rewrite El, <- app_assoc.
  - rewrite E in Hnd. apply NoDup_app in Hnd as (_ & Hd1 & [Hd2 _]%NoDup_cons).
    assert (Hx : t ≠ x) by (intros ->; apply elem_of_app in Ht as [Ht|Ht]; [by apply (Hd1 x Ht); left|done]).
    rewrite El in E. apply app_eq_inv in E as [(k & -> & E)|(k & -> & E)]; destruct k as [|y k]; cbn in E;
      try congruence.
    + injection E as <- ->. exists (k1 ++ k), l2. rewrite <- app_assoc. split; [done|]. rewrite !length_app. cbn. lia.
    + injection E as <- ->. exists l1, (k ++ k2). rewrite <- app_assoc. split; [done|]. lia.
  - destruct l1 as [|x l1]; rewrite El in *.
    + cbn in *. by apply NoDup_cons in Hnd as [? _].
    + exists l1, l2. split; [done|]. cbn. destruct (_ =? _); lia.
Qed.

Lemma handovers_bound l c s t l1 l2 :
  inv U l c → lawful U s → l = l1 ++ t :: l2 → (handovers t s c <= length l1)%nat.
Proof.
  revert l c l1 l2. induction s as [|[a e] s IH]; intros l c l1 l2 H Hs El; cbn; [lia|].
  apply Forall_cons in Hs as [Ha Hs]. destruct (move a e c) as [c'|] eqn:Em; [|lia].
  destruct (move_queue l c a e c' H Ha Em) as (l' & H' & Hc).
  rewrite (remove_eq _ _ (i_waits _ _ _ H')). destruct (decide (t ∈ l')) as [Ht|]; cbn; [|lia].
  destruct (queue_change_front _ _ _ _ l1 t l2 Hc) as (l1' & l2' & El' & Hle); try done.
  - apply (i_held _ _ _ H). rewrite El. by destruct l1.
  - apply (i_waits _ _ _ H).
  - specialize (IH l' c' l1' l2' H' Hs El'). lia.
Qed.
End queue.

(** ** Donated classes *)

Section classes.
Context (U : list Z) (HU : users U).

(** A task runs in another class than its own only while it owns the mutex or
    is about to restore its class. *)
Definition class_ok (c : config) : Prop :=
  ∀ t, t ∈ U → m_class (c_mem c) t = m_base (c_mem c) t ∨ owner c = t ∨
    ∃ x, c_pc c (Task t) = Unlock (UnlockClass x).

(** A move that donates at most to the owner and takes the mutex from nobody. *)
Lemma class_frame c m' a p' :
  class_ok c → m_base m' = m_base (c_mem c) →
  m_owner m' = m_owner (c_mem c) ∨ m_owner (c_mem c) = 0 →
  (∀ t, t ≠ m_owner (c_mem c) → m_class m' t = m_class (c_mem c) t) →
  (∀ x, c_pc c a ≠ Unlock (UnlockClass x)) →
  class_ok (Config m' (<[a := p']> (c_pc c))).
Proof.
  intros H Eb Ho Hc Hp t Ht. unfold class_ok, owner in *. cbn. rewrite Eb.
  destruct (decide (t = m_owner (c_mem c))) as [->|Hne].
  - destruct Ho as [->|E]; [by right; left|]. rewrite E in Ht. by destruct HU.
  - rewrite (Hc t Hne). destruct (H t Ht) as [?|[E|[x E]]]; [by left|congruence|].
    right. right. exists x. rewrite fn_lookup_insert_ne; [done|]. intros ->. by apply (Hp x).
Qed.

Lemma donate_class o w m t : t ≠ o → m_class (llam_mutex_donate_priority o w m) t = m_class m t.
Proof.
  intros Ht. unfold llam_mutex_donate_priority. destruct (_ || _); [done|]. destruct (_ <? _); [|done].
  destruct m. cbn. by rewrite fn_lookup_insert_ne.
Qed.

Lemma donate_base o w m : m_base (llam_mutex_donate_priority o w m) = m_base m.
Proof.
  unfold llam_mutex_donate_priority. destruct (_ || _); [done|]. destruct (_ <? _); [|done]. by destruct m.
Qed.

Lemma lock_class t env p p' m m' :
  llam_mutex_lock_resolved_impl t env p m = Some (p', m') →
  m_base m' = m_base m ∧ (m_owner m' = m_owner m ∨ m_owner m = 0) ∧
  ∀ x, x ≠ m_owner m → m_class m' x = m_class m x.
Proof.
  intros Hm. destruct p as [o i|o|o|r ar|o|o|o|o|e|e| | | |]; cbn in Hm; try by injection Hm as _ <-; auto.
  - destruct (m_owner m =? 0) eqn:E; bools; injection Hm as _ <-; destruct m; auto.
  - destruct m, r; injection Hm as _ <-; auto.
  - injection Hm as _ <-. unfold lock_enqueue. set (m1 := on_node t _ m).
    assert (E1 : m_owner m1 = m_owner m ∧ m_base m1 = m_base m ∧ m_class m1 = m_class m) by by destruct m.
    clearbody m1. destruct E1 as (<- & <- & <-). destruct (m_owner m1 =? 0) eqn:E; bools; [destruct m1; cbn; auto|].
    pose proof (donate_sync (m_owner m1) t m1) as Es. pose proof (donate_base (m_owner m1) t m1) as Eb.
    pose proof (donate_class (m_owner m1) t m1) as Ec. set (m2 := llam_mutex_donate_priority _ _ _) in *.
    clearbody m2. injection Es as Eo _ _ _. cbn. destruct m2. cbn in *. split_and!; [done|by left|]. intros x Hx. by apply Ec.
  - injection Hm as _ <-. unfold lock_rollback. destruct (llam_wait_queue_remove _ _) as [[] q], m; auto.
  - destruct m. destruct (n_armed _); injection Hm as _ <-; auto.
  - destruct (m_token m t); [|done]. destruct m. injection Hm as _ <-; auto.
Qed.

Lemma unlock_class l c t p p' m' :
  inv U l c → class_ok c → t ∈ U → c_pc c (Task t) = Unlock p → llam_mutex_unlock t p (c_mem c) = (p', m') →
  class_ok (Config m' (<[Task t := p']> (c_pc c))).
Proof.
  intros H Hc Ht Ep Hm. destruct p as [i| |x|x]; cbn in Hm.
  - injection Hm as <- <-. apply class_frame; auto. intros x. by rewrite Ep.
  - pose proof (tk_point _ _ _ (i_task _ _ _ H t Ht)) as Hpt. unfold point_ok in Hpt. rewrite Ep in Hpt.
    destruct (unlock_pop (c_mem c)) as [x m] eqn:E. injection Hm as <- <-.
    assert (Em : m_class m = m_class (c_mem c) ∧ m_base m = m_base (c_mem c)).
    { unfold unlock_pop in E. destruct (llam_wait_queue_pop_head _), (c_mem c); injection E as _ <-; done. }
    destruct Em as [E1 E2]. intros u Hu. cbn. rewrite E1, E2. destruct (decide (u = t)) as [->|Hne].
    { right. right. exists x. by rewrite fn_lookup_insert. }
    rewrite fn_lookup_insert_ne by congruence. destruct (Hc u Hu) as [?|[?|?]]; [by left|congruence|by right; right].
  - injection Hm as <- <-. intros u Hu. destruct (Hc u Hu) as [E|[E|E]]; unfold owner in *; destruct (c_mem c); cbn in *.
    all: destruct (decide (u = t)) as [->|Hne]; [left; by rewrite fn_lookup_insert|].
    all: rewrite !fn_lookup_insert_ne by congruence; auto.
  - injection Hm as <- <-. apply class_frame; [done|by destruct (c_mem c)|left; by destruct (c_mem c)|by destruct (c_mem c)|].
    intros y. by rewrite Ep.
Qed.

Lemma move_class l c a e c' :
  inv U l c → class_ok c → agent_in U a → move a e c = Some c' → class_ok c'.
Proof.
  intros H Hc Ha Hm. destruct e as [k|env]; cbn in Hm; unfold mbind, option_bind in Hm.
  - destruct (enter a k (c_pc c a)) as [p|] eqn:E; [|done]. injection Hm as <-. apply class_frame; auto.
    intros x Ex. rewrite Ex in E. by destruct a, k.
  - destruct (advance a env (c_pc c a) (c_mem c)) as [[p m]|] eqn:E; [|done]. injection Hm as <-.
    unfold advance in E. destruct a as [t|w]; destruct (c_pc c _) as [|b|q|q|q| |x e] eqn:Ep; try done.
    + injection E as E. unfold llam_mutex_trylock in E. destruct (_ =? 0) eqn:E0; bools; injection E as <- <-.
      all: apply class_frame; auto; try (by rewrite Ep); by destruct (c_mem c).
    + destruct (lock_class _ _ _ _ _ _ E) as (? & ? & ?). apply class_frame; try done. by rewrite Ep.
    + injection E as E. by eapply unlock_class.
    + destruct q, (c_mem c) eqn:Em; cbn in E; [destruct (n_armed _)|..]; injection E as <- <-.
      all: apply class_frame; rewrite ?Em, ?Ep; auto.
    + destruct q, (c_mem c) eqn:Em; cbn in E; [destruct (n_armed _)|..]; injection E as <- <-.
      all: apply class_frame; rewrite ?Em, ?Ep; auto.
    + injection E as E. unfold abort_wait in E. destruct (_ || _); [|destruct (llam_wait_queue_remove _ _) as [[] q]].
      all: injection E as <- <-; destruct (c_mem c) eqn:Em; apply class_frame; rewrite ?Em, ?Ep; auto.
Qed.
End classes.

(** ** Theorems *)

Lemma reachable_inv U base c : users U → reachable U base c → (∃ l, inv U l c) ∧ class_ok U c.
Proof.
  intros HU (s & Hs & Hp). pose proof HU as [HU0 HUlen].
  assert (Hgen : ∀ l c0, inv U l c0 → class_ok U c0 → lawful U s → play s c0 = Some c → (∃ l, inv U l c) ∧ class_ok U c).
  { clear Hp Hs. induction s as [|[a e] s IH]; intros l c0 H Hc Hs Hp; cbn in Hp; [injection Hp as <-; eauto|].
    apply Forall_cons in Hs as [Ha Hs]. unfold mbind, option_bind in Hp. destruct (move a e c0) as [c1|] eqn:E; [|done].
    destruct (move_inv U HU0 HUlen l c0 a e c1 H Ha E) as [l1 H1]. eapply (IH l1 c1); try done. by eapply (move_class U HU l c0 a e c1). }
  apply (Hgen [] (init base)); try done; [by apply init_inv|]. intros t _. by left.
Qed.

(** C22: Mutual exclusion.  In every interleaving of any number of tasks that
    lock, try, unlock, time out and are cancelled, a task outside the
    operations owns the mutex exactly when its last operation said so; a lock
    that failed leaves the caller without it, and two tasks that hold the
    mutex are the same. *)
Theorem mutex_exclusion U base c :
  users U → reachable U base c →
  (∀ t rc b, t ∈ U → c_pc c (Task t) = Ready rc b → b = true ↔ owner c = t) ∧
  (∀ t t', t ∈ U → t' ∈ U → inside c t → inside c t' → t = t').
Proof.
  intros HU Hr. destruct (reachable_inv U base c HU Hr) as [[l H] _].
  assert (Hown : ∀ t rc b, t ∈ U → c_pc c (Task t) = Ready rc b → b = true ↔ owner c = t).
  { intros t rc b Ht Ep. pose proof (tk_point _ _ _ (i_task _ _ _ H t Ht)) as Hpt. unfold point_ok in Hpt. by rewrite Ep in Hpt. }
  split; [done|]. intros t t' Ht Ht' [rc E] [rc' E'].
  apply Hown in E, E'; try done. destruct E as [E _], E' as [E' _]. rewrite <- E, <- E'; done.
Qed.

(** C23: No wake-up is lost.  A parked task has been reinjected, or its node is
    in the queue of a mutex somebody owns, or an agent that took its node is
    about to complete it or to reinject it; and when all agents have
    come to rest, the owner is a task outside the operations, which can
    release the mutex, or a parked task that has been reinjected: the waiters
    cannot be stuck on a mutex nobody is going to release. *)
Theorem mutex_no_lost_wakeup U base c t :
  users U → reachable U base c → t ∈ U → c_pc c (Task t) = Lock LockPark →
  (token c t = true ∨ served c (Complete t) ∨ served c (Reinject t) ∨
   (llam_wait_queue_remove t (m_waiters (c_mem c))).1 = true ∧ owner c ≠ 0) ∧
  (at_rest c → token c t = true ∨
   inside c (owner c) ∨ c_pc c (Task (owner c)) = Lock LockPark ∧ token c (owner c) = true).
Proof.
  intros HU Hr Ht Ep. destruct (reachable_inv U base c HU Hr) as [[l H] _].
  assert (Hcases : ∀ u, u ∈ U → c_pc c (Task u) = Lock LockPark →
    u ∈ l ∨ served c (Complete u) ∨ token c u = true ∨ served c (Reinject u)).
  { intros u Hu Eu. pose proof (tk_point _ _ _ (i_task _ _ _ H u Hu)) as Hpt.
    apply point_waiting in Hpt as [Hpt _]; [|by rewrite Eu]. unfold finished in Hpt. rewrite Eu in Hpt.
    destruct Hpt as [?|[?|(_ & _ & Hf)]]; [by left|by right; left|]. right. right. by apply Hf. }
  assert (Hrest : at_rest c → ∀ d, ¬ served c d).
  { intros Hat d [a Ha]. specialize (Hat a). unfold duty_of, resting in *. by destruct (c_pc c a) as [| |[]| | | |]. }
  destruct (Hcases t Ht Ep) as [Hin|[Hs|[Hk|Hs]]].
  - split.
    + right. right. right. split; [|apply (i_held _ _ _ H); by intros ->; apply elem_of_nil in Hin].
      rewrite (remove_eq _ _ (i_waits _ _ _ H)). by rewrite decide_True.
    + intros Hat. right. specialize (Hrest Hat). set (u := owner c).
      assert (Hu : u ∈ U).
      { destruct (i_owner _ _ _ H) as [E|?]; [|done]. exfalso. eapply (i_held _ _ _ H); [|exact E].
        by intros ->; apply elem_of_nil in Hin. }
      pose proof (i_task _ _ _ H u Hu) as [Hpt Hql _ _]. specialize (Hat (Task u)). unfold point_ok, resting in *.
      destruct (c_pc c (Task u)) as [rc b| |p| | | |] eqn:Eu; try done.
      * left. exists rc. rewrite Eu. f_equal. by apply Hpt.
      * destruct p; try done. right. split; [done|]. specialize (Hcases u Hu Eu).
        destruct Hcases as [Hl|[Hs|[?|Hs]]]; [|by apply Hrest in Hs|done|by apply Hrest in Hs].
        by destruct (Hql Hl) as (_ & _ & ?).
  - split; [by right; left|]. intros Hat. by apply (Hrest Hat) in Hs.
  - split; by left.
  - split; [by right; right; left|]. intros Hat. by apply (Hrest Hat) in Hs.
Qed.

(** C24: Waiters get the mutex in the order in which they queued.  A task with
    [n] waiters before it sees the owner change [n] times at most before its
    own turn: no task that comes later, and no running task, gets the mutex
    before it. *)
Theorem mutex_bounded_overtaking U base c t l1 l2 s :
  users U → reachable U base c → waits (m_waiters (c_mem c)) (l1 ++ t :: l2) → lawful U s →
  (handovers t s c <= length l1)%nat.
Proof.
  intros HU Hr Hw Hs. destruct (reachable_inv U base c HU Hr) as [[l H] _].
  eapply (handovers_bound U HU l c); [done..|]. eapply waits_unique; [apply H|done].
Qed.

(** C31: A donated class ends with the release: a task that is outside the
    operations without the mutex runs in its base class. *)
Theorem mutex_donation_ends U base c t rc :
  users U → reachable U base c → t ∈ U → c_pc c (Task t) = Ready rc false →
  m_class (c_mem c) t = m_base (c_mem c) t.
Proof.
  intros HU Hr Ht Ep. destruct (reachable_inv U base c HU Hr) as [[l H] Hc].
  pose proof (tk_point _ _ _ (i_task _ _ _ H t Ht)) as Hpt. unfold point_ok in Hpt. rewrite Ep in Hpt.
  destruct (Hc t Ht) as [?|[E|[x E]]]; [done|by apply Hpt in E|congruence].
Qed.

(** ** A completion that comes late *)

(** [llam_wait_node_prepare_wake] publishes an inline completion in
    [wake_armed] and stores [wake_completed] after that.  The waiter can return
    from its wait, release the mutex and queue its embedded node again in
    between; the late store then marks the new wait as completed. *)

Definition plain : lock_args := LockArgs false true.

Definition steps (t : Z) (n : nat) : list (agent * event) := replicate n (Task t, Run 0).

(** Task 1 holds the mutex and hands it to task 2 but for the last store. *)
Definition late_handover : list (agent * event) :=
  (Task 1, Call (CallLock plain)) :: steps 1 2 ++
  (Task 2, Call (CallLock plain)) :: steps 2 7 ++
  (Task 1, Call CallUnlock) :: steps 1 5.

(** Task 2 returns from its wait, releases the mutex to task 3 and waits
    again; the store of task 1 comes; the cancellation of task 2 is noticed. *)
Definition late_store : list (agent * event) :=
  steps 2 9 ++ (Task 2, Call CallUnlock) :: steps 2 3 ++
  (Task 3, Call (CallLock plain)) :: steps 3 2 ++
  (Task 2, Call (CallLock plain)) :: steps 2 7 ++
  steps 1 1 ++ steps 2 2 ++ [(Task 2, Run ECANCELED)].

(** Task 3 is the most urgent one. *)
Definition classes (t : Z) : Z := 4 - t.

Definition start : config := init classes.

Definition after (s : list (agent * event)) : config := default start (play s start).

Lemma after_play s : is_Some (play s start) → play s start = Some (after s).
Proof. unfold after. by intros [c ->]. Qed.

Definition agent_in_b (U : list Z) (a : agent) : bool :=
  match a with Task t => bool_decide (t ∈ U) | Worker _ => true end.

Lemma lawful_b U s : forallb (λ ae, agent_in_b U ae.1) s = true → lawful U s.
Proof.
  intros H. apply Forall_forall. intros [a e] Hin. apply list_elem_of_In in Hin.
  pose proof (proj1 (forallb_forall _ _) H _ Hin) as Ha. by destruct a as [t|]; cbn in *; bools.
Qed.

Lemma after_reachable U s :
  forallb (λ ae, agent_in_b U ae.1) s && bool_decide (is_Some (play s start)) = true → reachable U classes (after s).
Proof.
  intros [H1 H2]%andb_prop. exists s. split; [by apply lawful_b|]. apply after_play. by bools.
Qed.

(** C30: A cancellation can be missed.  In a run of three tasks, task 2 finds
    that its wait is cancelled while its node is in the queue and nobody has
    completed it; it takes the completion flag of its previous wait for one of
    this wait, does not return and parks until task 3 releases the mutex. *)
Theorem mutex_cancellation_missed :
  ∃ s c c', lawful [1; 2; 3] s ∧ play s start = Some c ∧
    c_pc c (Task 2) = Lock (LockFailed ECANCELED) ∧
    (llam_wait_queue_remove 2 (m_waiters (c_mem c))).1 = true ∧ n_armed (node c 2) = UNARMED ∧
    play (steps 2 2) c = Some c' ∧
    c_pc c' (Task 2) = Lock LockPark ∧ token c' 2 = false ∧ owner c' = 3.
Proof.
  set (s := late_handover ++ late_store).
  exists s, (after s), (after (s ++ steps 2 2)).
  split_and!; [apply lawful_b; by vm_compute|apply after_play; vm_compute; eauto|vm_compute; reflexivity..].
Qed.

(** ** The theorems at work *)

Lemma three_users : users [1; 2; 3].
Proof. split; [|vm_compute; congruence]. rewrite !not_elem_of_cons. split_and!; try done. apply not_elem_of_nil. Qed.

(** Task 1 holds the mutex, task 2 is parked and task 3 waits behind it. *)
Definition contended : list (agent * event) :=
  (Task 1, Call (CallLock plain)) :: steps 1 2 ++
  (Task 2, Call (CallLock plain)) :: steps 2 11 ++
  (Task 3, Call (CallLock plain)) :: steps 3 11.

Lemma contended_reachable : reachable [1; 2; 3] classes (after contended).
Proof. apply after_reachable. by vm_compute. Qed.

(** A run moves only the agents of its schedule. *)
Lemma play_pc s c c' a : play s c = Some c' → a ∉ map fst s → c_pc c' a = c_pc c a.
Proof.
  revert c. induction s as [|[b e] s IH]; intros c Hp Ha; cbn in *; [by injection Hp as <-|].
  apply not_elem_of_cons in Ha as [Hb Ha]. unfold mbind, option_bind in Hp.
  destruct (move b e c) as [c1|] eqn:E; [|done]. rewrite (IH c1 Hp Ha).
  unfold move, mbind, option_bind in E. destruct e.
  - destruct (enter _ _ _); [|done]. injection E as <-. cbn. by rewrite fn_lookup_insert_ne.
  - destruct (advance _ _ _ _) as [[]|]; [|done]. injection E as <-. cbn. by rewrite fn_lookup_insert_ne.
Qed.

Lemma after_rest s :
  bool_decide (is_Some (play s start)) && forallb (λ ae, resting (c_pc (after s) ae.1)) s = true → at_rest (after s).
Proof.
  intros [H1 H2]%andb_prop a. bools. destruct (decide (a ∈ map fst s)) as [Hin|Hout].
  - apply list_elem_of_In, in_map_iff in Hin as ([b e] & <- & Hin). by apply (proj1 (forallb_forall _ _) H2).
  - rewrite (play_pc s start (after s) a); [by destruct a|by apply after_play|done].
Qed.

Lemma mutex_exclusion_witness :
  inside (after contended) 1 ∧
  (∀ t t', t ∈ [1; 2; 3] → t' ∈ [1; 2; 3] → inside (after contended) t → inside (after contended) t' → t = t').
Proof.
  split; [exists 0; vm_compute; reflexivity|].
  apply (mutex_exclusion [1; 2; 3] classes (after contended) three_users contended_reachable).
Defined.

Lemma mutex_no_lost_wakeup_witness :
  at_rest (after contended) ∧ token (after contended) 2 = false ∧
  (token (after contended) 2 = true ∨ inside (after contended) (owner (after contended)) ∨
   c_pc (after contended) (Task (owner (after contended))) = Lock LockPark ∧
   token (after contended) (owner (after contended)) = true).
Proof.
  assert (Hr : at_rest (after contended)) by (apply after_rest; by vm_compute).
  split; [exact Hr|]. split; [vm_compute; reflexivity|].
  refine (proj2 (mutex_no_lost_wakeup [1; 2; 3] classes (after contended) 2 three_users contended_reachable _ _) Hr).
  - right. left.
  - vm_compute. reflexivity.
Defined.

Lemma mutex_bounded_overtaking_witness :
  waits (m_waiters (c_mem (after contended))) ([2] ++ 3 :: []) ∧
  (handovers 3 ((Task 1, Call CallUnlock) :: steps 1 9) (after contended) <= 1)%nat.
Proof.
  assert (Hw : waits (m_waiters (c_mem (after contended))) ([2] ++ 3 :: [])).
  { split; try (vm_compute; done). - apply (bool_decide_unpack _). by vm_compute. - apply (bool_decide_unpack _). by vm_compute. }
  split; [done|].
  apply (mutex_bounded_overtaking [1; 2; 3] classes (after contended) 3 [2] [] _ three_users contended_reachable Hw).
  apply lawful_b. by vm_compute.
Defined.

Lemma mutex_donation_ends_witness :
  m_class (c_mem (after contended)) 1 ≠ m_base (c_mem (after contended)) 1 ∧
  c_pc (after (contended ++ (Task 1, Call CallUnlock) :: steps 1 8)) (Task 1) = Ready 0 false ∧
  m_class (c_mem (after (contended ++ (Task 1, Call CallUnlock) :: steps 1 8))) 1 =
  m_base (c_mem (after (contended ++ (Task 1, Call CallUnlock) :: steps 1 8))) 1.
Proof.
  split; [by vm_compute|]. split; [vm_compute; reflexivity|].
  apply (mutex_donation_ends [1; 2; 3] classes _ 1 0 three_users); [apply after_reachable; by vm_compute|by left|].
  vm_compute. reflexivity.
Defined.
